(* ===== verification/_CoqProject ===== *)
-Q . S2P
Prelude.v
Values.v
Addresses.v
Events.v
VSet.v
Views.v
IntervalMap.v
AdaptiveView.v
ExecutionState.v
StateSpec.v
SymExpr.v
Labels.v
Graph.v
Relations.v
Cut.v
Copy.v
Search.v
Automata.v
Checkable.v
Scripts.v
GraphUtils.v
Calc.v
Symmetry.v
Placing.v
Clocks.v
AccessValues.v
Errors.v
Revisits.v
SCChecker.v
TSOChecker.v
RAChecker.v
RC11Checker.v
IMMChecker.v
Checkers.v
Revisiting.v
Config.v
Bounds.v
Scheduler.v
Driver.v
Accesses.v
Exploration.v
DriverSpec.v
Runtime.v
Litmus.v
ErrorSpec.v
