(* ===== verification/Prelude.v ===== *)
(** * GenMC: a verification development

    GenMC explores the executions of a concurrent program.  An execution is a graph
    of events; the driver asks the interpreter for the next event, adds a label to
    the graph, asks a consistency checker which writes a read may read from and
    where a write may go in the coherence order, and revisits earlier reads.  This
    library models the exploration from values and addresses up to the driver and its
    client, so that it can be run on small programs, and proves what each part promises
    to the others.  Paths are relative to src/genmc/genmc/; those of the interpreter,
    which start with lli/, to src/.

    ** The parts and their files

    - [Prelude]: outcomes and the result monad (the macros of Support/Error.hpp),
      machine words, strict total orders, and the lemmas shared by all files.
    - [Values]: Support/SVal.hpp, ASize.hpp, RMWOps.hpp and MemOrdering.hpp.  A value
      is a 64-bit word with a provenance word.
    - [Addresses]: Support/SAddr.hpp, MemAccess.hpp and SAddrAllocator.{hpp,cpp}.  An
      address is a word with storage, thread and index fields; the allocator keeps
      a pool per thread and storage class.
    - [Events]: Execution/Event.hpp and Stamp.hpp.
    - [VSet]: ADT/VSet.hpp, sets as sorted vectors.  It is a client of the class
      [TotalOrd] of [Prelude], of which addresses, events and registers are
      instances.
    - [Views]: ADT/View.{hpp,cpp}.  Module [ViewBase] is the vector of indices;
      module [View] adds the store of shared bases with their reference counts, the
      pending event, and copy on write.
    - [Labels]: Execution/EventLabel.{def,hpp,cpp}, DepInfo.hpp, EventAttr.hpp and
      LabelVisitor.hpp.  The class hierarchy is an enumeration with ranges; a label is
      one record, and an operation reaches the fields of a subclass only after the
      cast that the code performs.
    - [Graph]: the operations of Execution/ExecutionGraph.{hpp,cpp} that build and
      change a graph, with those of EventLabel.cpp that do.  Labels live in a store and
      are known by identity, as the code holds pointers; the intrusive lists
      (ADT/ilist.hpp) are lists of identities.
    - [Relations]: the traversals of ExecutionGraph.hpp (program order, coherence,
      reads-from, from-reads, detours, creation and join, same-location accesses) and
      [validate].
    - [Cut]: the view of a stamp, [removeAfter] and [cutToStamp] of ExecutionGraph.cpp,
      by which the driver goes back to an earlier graph; the class [VectorClock].
      [Copy]: [getCopyUpTo].
    - [GraphUtils]: Execution/GraphUtils.cpp (locks, speculation, pending
      read-modify-writes, atomicity, blocking).
    - [IntervalMap]: ADT/IntervalMap.hpp and IntervalSet.hpp.  [AdaptiveView]:
      ADT/AdaptiveView.{hpp,cpp}.  [ExecutionState]: Execution/ExecutionState.{hpp,cpp},
      and [StateSpec], what its queries mean for the operations that were performed.
    - [Search], [Automata], [Checkable], [Scripts]: the depth-first searches over
      automata of which the checkers consist, once for all; the graphs on which they
      do not fail; concrete graphs.
    - [Calc], [Placing], [Errors]: the parts that the checkers share, which are the
      views of labels, the coherent stores, places and revisits, and the checks for
      memory errors and races.
    - [SCChecker], [TSOChecker], [RAChecker], [RC11Checker], [IMMChecker]: the automata
      of Execution/Consistency/*Checker.cpp, a definition per [visit] function.
    - [Checkers]: the interface of Execution/Consistency/ConsistencyChecker.hpp as a
      class with five instances.  [ErrorSpec]: what the error checks find.
    - [Symmetry]: Execution/Consistency/SymmetryChecker.cpp.  [Bounds]: the deciders of
      BoundDecider.{hpp,cpp}, ContextBoundDecider.cpp and RoundBoundDecider.cpp.
    - [AccessValues]: the values of labels (ExecutionGraph.cpp, EventLabel.cpp), barriers
      and the write of a read-modify-write (GraphUtils.cpp).
    - [Clocks]: ADT/VectorClock.hpp as an interface, with views and lists of indices as
      instances.
    - [Config]: Verification/Config.{hpp,cpp} and MemoryModel.hpp.
    - [Revisits]: Verification/Revisit.hpp, WorkList.hpp and ChoiceMap.{hpp,cpp}.
      [Scheduler]: Verification/Scheduler.{hpp,cpp}.
    - [Revisiting], [Driver], [Accesses], [Exploration]: Verification/GenMCDriver.{hpp,cpp}.
      The members of the class are the record [Driver.t], its methods computations of the
      state and failure monad [Driver.M] over it; the parts that do not change while the
      driver runs (configuration, checker, random distribution) are the class [Env].
      [Revisiting] decides which reads a store revisits; [Driver] holds the state, the
      errors, the checks and scheduling; [Accesses] the handlers of loads and stores and
      the revisits they cause; [Exploration] the other handlers, what the interpreter
      calls, revisits, copies, and the beginning and the end of an execution.
      [DriverSpec]: what the driver promises.
    - [Runtime]: the client of the driver in lli/Runtime/Interpreter.{h,cpp},
      lli/Runtime/Execution.cpp and lli/main.cpp, without instructions.  [Litmus]: a
      small language in the place of LLVM, and the explorations of its programs.
    - [SymExpr]: Support/SExpr.hpp and SExprVisitor.hpp, the symbolic expressions of
      load annotations with their printer, evaluator, substitutor, concretizer and
      transformer.

    ** How the code is translated

    A function of the code is a function here, with the same name where possible.
    Fallible code returns [res]: [VERIFY], [ASSERT], [UNREACHABLE], exceptions of
    [at()], dereferencing null, out-of-range accesses, division by zero and oversized
    shifts are distinct failures, so that a theorem that concludes [= Ok _] also says
    that none of them happens.  Integers are [Z], wrapped at the width of the code's
    type.  Mutation is explicit: graph operations take and return the graph, view
    operations the store of views.  Ranges and iterators are the lists they visit.
    Maps are [gmap]s; the order in which an unordered map is traversed is never
    observable in what is modelled.  Behaviour that C++ leaves open is a failure
    ([Undefined]), except that [reportError] reads details that have been destroyed: what
    it reads then is a parameter of the driver, the field [destroyed] of [Env].

    ** What the theorems show

    - [Litmus]: the driver, run from its construction to the end of the exploration on
      every program of two threads with two accesses each, visits each execution of the
      interleaving machine (under SC), and of the machine with store buffers (under TSO),
      exactly once.  The accesses are plain relaxed loads and stores of 4 bytes to two
      locations, and the optional features are off.
    - [DriverSpec]: the driver refines the protocol of errors, up to the details of a
      confirmed error that the code reads after it has destroyed them
      ([error_protocol_refined]); a new read gets the first consistent candidate and
      rejected ones leave no trace ([findConsistentRf_correct]); instructions that the
      graph has recorded answer from it and change nothing, or block their thread once
      more ([replayed_calls_answer]).
    - [Revisiting]: a store revisits exactly the reads that the published conditions
      select, and the view of a revisit holds what it keeps.
    - [Scheduler], [Bounds], [Symmetry], [Config]: replays are linearizations, policies
      choose a thread whenever one can run, the search of the context bound ends, agrees
      with the search for the least number of switches, and succeeds on interleavings,
      symmetric prefixes agree event by event, accepted configurations are sane.
    - [Graph]: [wf] says that program order, positions and insertion order describe the
      same labels, that reads-from and the readers lists are converse of one another,
      that coherence orders the writes of a location, and that accesses are recorded
      at their location.  Every operation returns and preserves it, and every graph
      reachable from the constructor satisfies it ([reachable_wf]); the theorems
      [setRf_correct], [addLabelToGraph_correct] and [coherence_operations] say what
      each operation changes and what it leaves alone.
    - [Relations]: on such graphs the traversals return exactly the labels of the
      relation, in order; from-reads is the composition of converse reads-from and
      coherence; [validate] accepts a graph exactly when the links between its reads and
      writes are sound ([validate_correct]).
    - [Views]: views behave as independent maps, whatever vectors they share, unless one
      grows that has a pending event next to a vector of its own: an assertion of debug
      builds then fails, and [setMax] of a release build goes wrong.  The observers
      read the clock.
    - [VSet]: the in-place bulk operations compute union, difference and
      intersection, and all operations keep vectors sorted.
    - [Addresses]: the packing of addresses is injective, accesses overlap exactly when
      they share an address, allocations never overlap and are first-fit.
    - [Values]: RMW operations computed on words agree with integers of the access
      width; the two ordering tables are a strict order and its closure.
    - [Labels]: enumeration ranges and visitor delegation implement one hierarchy.
    - [Cut]: cutting to a stamp keeps exactly the labels with smaller stamps, restores
      the pointers, and undoes what was added since.
    - [GraphUtils]: locks are matched with the unlocks of their owners; a pending
      read-modify-write is the one that breaks atomicity.
    - [IntervalMap], [AdaptiveView]: both behave as functions on points and on events.
    - [StateSpec]: the handlers succeed on every operation that a program may do, among
      them allocations that fit in the pool of their thread; the queries for
      allocations, initialization, values and protection answer what the sequence of
      operations says, and those for races overlook no access.
    - [Search], [Checkers]: the searches return on every graph the driver can build
      ([checks_terminate]).
    - [SCChecker], [TSOChecker]: a graph passes exactly when it is the record of an
      interleaving, or when program order restricted as TSO preserves it is acyclic
      with communication; a check after one addition may start at the new label
      ([sc_incremental]).
    - [Checkers]: the views of the labels are the relations they stand for
      ([views_exact]); the coherent stores, placings and revisits are characterised; SC
      is the strongest of the models.
    - [ErrorSpec]: an error is reported exactly when the execution has one, and it is
      the first of the list of violations.
    - [SymExpr]: the evaluator agrees with a reference semantics on unsigned word
      arithmetic; cloning, substituting, concretizing and transforming keep values.

    A few lemmas without a claim show where the code departs from what it says: the
    pending event of a view that [contains] overlooks, the assertion on pending
    events that can fail, the constructor of [VSet] that keeps duplicates, the
    attribute a trylock write drops, the creation link [removeLast] leaves behind, the
    initial value [setInitVal] does not check, the provenance and the initialization
    of partly written accesses, the label that the reports of double frees show, the
    operators the evaluator of symbolic expressions confuses, the hard error that does
    not stop the exploration if its details are overwritten when they are destroyed, the replay schedules that
    run a thread before its creation, and the first event that the round bound skips.

    ** Fuel

    The delegation chains of the two visitors take a fuel (6 and 2 steps, the depth of
    the hierarchies); the bulk loops of [VSet] the length of the vectors or the sum of
    two such lengths.  A depth-first search takes one step per edge out of a marked
    node: [cycle_fuel] counts states and labels.  The walks that calculate views go
    back in time, so that [walk_fuel], from the stamps, is enough.  The loop over the
    segments of an interval map is bounded by the number of change points.  Walks of
    the driver along a graph take a step per label.  The theorems show that no fuel
    runs out.  The loops over an execution, over the executions and over the work items
    that fail take a fuel of their own, because a program need not terminate; [Litmus]
    shows that 100 is enough for its programs.

    ** What is not modelled

    The graphs of the dependency-tracking mode of IMM (DepExecutionGraph, views with
    holes), and the prefixes that its checker calculates: the driver is that of the
    other modes.  The cache of instructions (the trie of labels, [runFromCache]), which
    replays handler calls, and is off in the explorations of [Litmus].  The thread pool:
    there is one driver.  The estimate of the number of executions is a computation on
    floating-point numbers; whether it is good enough is an argument.  Relinche reads
    specifications that other runs have written to files; its verdict is an argument.
    Instructions, the stacks of threads and external functions are LLVM's.  Text output,
    printing and hashing of graphs, the command line and the LLVM passes compute nothing
    that the exploration depends on. *)

From stdpp Require Export base tactics numbers list gmap strings sorting.
From Stdlib Require Export ZArith Lia ZifyBool.

(** ** Outcomes

    The code reports broken internal invariants through three macros of
    Support/Error.hpp.  [VERIFY] always aborts, [UNREACHABLE] always traps, and
    [ASSERT] aborts in debug builds and is a no-op otherwise.  A C++ operation
    whose behaviour is undefined (division by zero, an oversized shift, an
    out-of-range vector access) is an outcome of its own.  [OutOfFuel] is not an
    outcome of the code ([OutOfRange] is: the exception of [at()]): loops whose recursion is not structural take a fuel,
    and the theorems show that the fuel they are given is enough. *)
Inductive failure :=
  | VerifyFailed
  | AssertFailed
  | Unreachable
  | Undefined
  | UserError
  | OutOfRange
  | OutOfFuel.

Inductive res (A : Type) :=
  | Ok (a : A)
  | Abort (f : failure).
Arguments Ok {A} a.
Arguments Abort {A} f.

#[export] Instance res_ret : MRet res := @Ok.
#[export] Instance res_bind : MBind res := fun A B k m =>
  match m with Ok a => k a | Abort f => Abort f end.
#[export] Instance res_fmap : FMap res := fun A B g m =>
  match m with Ok a => Ok (g a) | Abort f => Abort f end.

#[export] Instance failure_eq_dec : EqDecision failure.
Proof. solve_decision. Defined.
#[export] Instance res_eq_dec {A} `{EqDecision A} : EqDecision (res A).
Proof. solve_decision. Defined.

(** [VERIFY(cond)], and the dereference of a pointer or of a vector cell that
    has to exist. *)
Definition verify (b : bool) : res () := if b then Ok () else Abort VerifyFailed.
Definition debug_assert (b : bool) : res () := if b then Ok () else Abort AssertFailed.
Definition defined (b : bool) : res () := if b then Ok () else Abort Undefined.
Definition deref {A} (o : option A) : res A :=
  match o with Some a => Ok a | None => Abort Undefined end.

(** [v[i]] on a vector for an [int] or unsigned [i]. *)
Definition vec_at {A} (v : list A) (i : Z) : res A :=
  if decide (i < 0)%Z then Abort Undefined else deref (v !! Z.to_nat i).
Definition vec_set {A} (v : list A) (i : Z) (x : A) : res (list A) :=
  if decide (0 <= i < Z.of_nat (length v))%Z then Ok (<[Z.to_nat i := x]> v) else Abort Undefined.

Definition is_ok {A} (m : res A) : bool := match m with Ok _ => true | Abort _ => false end.

(** Left-to-right effectful fold: a C++ range-for whose body updates a state. *)
Fixpoint foldM {A S} (f : S -> A -> res S) (s : S) (l : list A) : res S :=
  match l with
  | [] => Ok s
  | x :: l => s' ← f s x; foldM f s' l
  end.

(** ** Machine words *)
Definition wrap (w z : Z) : Z := z mod 2 ^ w.
Definition swrap (w z : Z) : Z :=
  let r := wrap w z in if decide (r < 2 ^ (w - 1))%Z then r else (r - 2 ^ w)%Z.
Definition in_word (w z : Z) : Prop := (0 <= z < 2 ^ w)%Z.

Abbreviation wrap64 := (wrap 64).
Abbreviation swrap64 := (swrap 64).

(** ** Automation

    The hint database [genmc] collects the lemmas that discharge the common
    side conditions of the development: ranges of machine words, results that
    are known to succeed. *)
Create HintDb genmc discriminated.
#[export] Hint Constructors failure : genmc.

(** Split the binds of a hypothesis [H : m = Ok a]. *)
Ltac res_inv_step H :=
  lazymatch type of H with
  | mbind _ ?m = Ok _ =>
      let E := fresh "E" in
      destruct m eqn:E; cbn [mbind res_bind] in H; [res_inv_step E; res_inv_step H|discriminate H]
  | fmap _ ?m = Ok _ =>
      let E := fresh "E" in
      destruct m eqn:E; cbn [fmap res_fmap] in H; [res_inv_step E; res_inv_step H|discriminate H]
  | Ok _ = Ok _ => injection H as H; try subst
  | Abort _ = Ok _ => discriminate H
  | verify ?b = Ok _ =>
      let Hb := fresh "Hb" in destruct b eqn:Hb; [clear H | discriminate H]
  | debug_assert ?b = Ok _ =>
      let Hb := fresh "Hb" in destruct b eqn:Hb; [clear H | discriminate H]
  | defined ?b = Ok _ =>
      let Hb := fresh "Hb" in destruct b eqn:Hb; [clear H | discriminate H]
  | deref ?o = Ok _ =>
      let Ho := fresh "Ho" in destruct o eqn:Ho; cbn [deref] in H; [res_inv_step H|discriminate H]
  | _ => idtac
  end.
Ltac res_inv := repeat match goal with H : _ = Ok _ |- _ => progress res_inv_step H end.

(** Case analysis on the first [decide] or [bool_decide] of the goal. *)
Ltac case_bool :=
  repeat match goal with
  | |- context [bool_decide ?P] => case_bool_decide
  | |- context [decide ?P] => destruct (decide P)
  end.

(** ** Lemmas on results *)
Lemma verify_ok b : verify b = Ok () <-> b = true.
Proof. destruct b; cbn; naive_solver. Qed.

Lemma bind_ok {A B} (k : A -> res B) (m : res A) b :
  m ≫= k = Ok b <-> exists a, m = Ok a /\ k a = Ok b.
Proof. destruct m; cbn; naive_solver. Qed.

Lemma foldM_app {A S} (f : S -> A -> res S) s l1 l2 :
  foldM f s (l1 ++ l2) = (s' ← foldM f s l1; foldM f s' l2).
Proof. revert s. induction l1 as [|x l1 IH]; intros s; [done|]. cbn. destruct (f s x); cbn; auto. Qed.

(** An invariant that every step of a fold keeps is kept by the fold, and the
    fold succeeds when each step does from the invariant. *)
Lemma foldM_inv {A S} (f : S -> A -> res S) (I : S -> Prop) (P : A -> Prop) :
  (forall s x, I s -> P x -> exists s', f s x = Ok s' /\ I s') ->
  forall l s, Forall P l -> I s -> exists s', foldM f s l = Ok s' /\ I s'.
Proof.
  intros Hf l. induction l as [|x l IH]; intros s HP HI; [by eauto|].
  apply Forall_cons in HP as [Hx HP].
  destruct (Hf s x HI Hx) as (s' & E & HI'). cbn. rewrite E. cbn. auto.
Qed.

(** ** Lemmas on machine words *)
Lemma wrap_range w z : (0 <= w)%Z -> in_word w (wrap w z).
Proof. intros. unfold in_word, wrap. apply Z.mod_pos_bound. lia. Qed.

Lemma wrap_small w z : in_word w z -> wrap w z = z.
Proof. unfold in_word, wrap. intros. by apply Z.mod_small. Qed.

Lemma wrap_idem w z : (0 <= w)%Z -> wrap w (wrap w z) = wrap w z.
Proof. intros. by apply wrap_small, wrap_range. Qed.

(** Wrapping to a narrower width absorbs a wrap to a wider one. *)
Lemma wrap_wrap w w' z : (0 <= w <= w')%Z -> wrap w (wrap w' z) = wrap w z.
Proof.
  intros. unfold wrap. rewrite <- !Z.land_ones by lia.
  rewrite <- Z.land_assoc. f_equal. apply Z.bits_inj'; intros i Hi.
  rewrite Z.land_spec, !Z.testbit_ones_nonneg by lia.
  destruct (i <? w)%Z eqn:?, (i <? w')%Z eqn:?; cbn; lia.
Qed.

Lemma wrap_add w a b : (0 <= w)%Z -> wrap w (wrap w a + wrap w b) = wrap w (a + b).
Proof. intros. unfold wrap. symmetry. apply Z.add_mod. lia. Qed.
Lemma wrap_sub w a b : (0 <= w)%Z -> wrap w (wrap w a - wrap w b) = wrap w (a - b).
Proof. intros. unfold wrap. symmetry. apply Zminus_mod. Qed.

Lemma wrap_testbit w z i : (0 <= w)%Z -> (0 <= i)%Z ->
  Z.testbit (wrap w z) i = (i <? w)%Z && Z.testbit z i.
Proof.
  intros. unfold wrap. rewrite <- Z.land_ones, Z.land_spec, Z.testbit_ones_nonneg by lia.
  apply andb_comm.
Qed.

(** [wrap] commutes with the bitwise operations. *)
Lemma wrap_bits w z z' : (0 <= w)%Z ->
  (forall i, (0 <= i < w)%Z -> Z.testbit z i = Z.testbit z' i) -> wrap w z = wrap w z'.
Proof.
  intros Hw E. apply Z.bits_inj'; intros i Hi. rewrite !wrap_testbit by lia.
  destruct (i <? w)%Z eqn:?; cbn; [|done]. apply E. lia.
Qed.

Lemma swrap_range w z : (0 < w)%Z -> (- 2 ^ (w - 1) <= swrap w z < 2 ^ (w - 1))%Z.
Proof.
  intros. unfold swrap. pose proof (wrap_range w z ltac:(lia)) as R. unfold in_word in R.
  assert (2 ^ w = 2 * 2 ^ (w - 1))%Z.
  { replace w with (1 + (w - 1))%Z at 1 by lia. by rewrite Z.pow_add_r by lia. }
  destruct (decide _); lia.
Qed.

(** The signed reading is the representative of the class modulo [2^w] that
    lies in the signed range. *)
Lemma swrap_unique w z s : (0 < w)%Z ->
  (- 2 ^ (w - 1) <= s < 2 ^ (w - 1))%Z -> wrap w s = wrap w z -> swrap w z = s.
Proof.
  intros Hw Hs E. unfold swrap. rewrite <- E. unfold wrap.
  assert (2 ^ w = 2 * 2 ^ (w - 1))%Z as Hp.
  { replace w with (1 + (w - 1))%Z at 1 by lia. by rewrite Z.pow_add_r by lia. }
  destruct (decide (0 <= s)%Z).
  - rewrite Z.mod_small by lia. destruct (decide _); lia.
  - assert (s mod 2 ^ w = s + 2 ^ w)%Z as ->.
    { symmetry. apply Z.mod_unique_pos with (q := (-1)%Z); lia. }
    destruct (decide _); lia.
Qed.

Lemma wrap_swrap w z : (0 < w)%Z -> wrap w (swrap w z) = wrap w z.
Proof.
  intros. unfold swrap. destruct (decide _); [by apply wrap_idem; lia|].
  unfold wrap at 1. rewrite Zminus_mod, Z_mod_same_full, Z.sub_0_r, Z.mod_mod by lia.
  by apply wrap_idem; lia.
Qed.
#[export] Hint Resolve wrap_range wrap_small : genmc.

(** A left shift that leaves [b] significant bits at the top. *)
Lemma swrap_shl b k z : (0 < b)%Z -> (0 <= k)%Z -> (b + k = 64)%Z ->
  swrap 64 (z * 2 ^ k) = (2 ^ k * swrap b z)%Z.
Proof.
  intros Hb Hk E. apply swrap_unique; [lia| |].
  - pose proof (swrap_range b z Hb) as R.
    assert (2 ^ (64 - 1) = 2 ^ k * 2 ^ (b - 1))%Z as ->
      by (rewrite <- Z.pow_add_r by lia; f_equal; lia).
    pose proof (Z.pow_pos_nonneg 2 k). nia.
  - unfold wrap. replace (2 ^ 64)%Z with (2 ^ k * 2 ^ b)%Z
      by (rewrite <- Z.pow_add_r by lia; f_equal; lia).
    rewrite (Z.mul_comm z). rewrite !Zmult_mod_distr_l. f_equal. by apply (wrap_swrap b z).
Qed.

(** Reading a narrow signed number back from its 64-bit representation. *)
Lemma swrap_wrap_narrow b z : (0 < b <= 64)%Z -> swrap 64 (wrap 64 (swrap b z)) = swrap b z.
Proof.
  intros. apply swrap_unique; [lia| |by rewrite wrap_idem by lia].
  pose proof (swrap_range b z ltac:(lia)).
  pose proof (Z.pow_le_mono_r 2 (b - 1) (64 - 1)). lia.
Qed.

Lemma wrap_lnot_wrap w z : (0 <= w <= 64)%Z -> wrap w (Z.lnot (wrap 64 z)) = wrap w (Z.lnot z).
Proof.
  intros. apply wrap_bits; [lia|]. intros i Hi.
  rewrite !Z.lnot_spec, wrap_testbit by lia. by replace (i <? 64)%Z with true by lia.
Qed.

(** *** Fields of a word *)
Lemma high_bit n x i : (0 <= x < 2 ^ n)%Z -> (0 <= n <= i)%Z -> Z.testbit x i = false.
Proof.
  intros Hx Hi. destruct (decide (x = 0)%Z) as [->|]; [by rewrite Z.bits_0|].
  apply Z.bits_above_log2; [lia|]. apply Z.log2_lt_pow2; [lia|].
  pose proof (Z.pow_le_mono_r 2 n i). lia.
Qed.

(** A multiple of [2 ^ n] and a number below [2 ^ n] share no bit. *)
Lemma land_fields n k x : (0 <= n)%Z -> (0 <= x < 2 ^ n)%Z -> Z.land (k * 2 ^ n) x = 0%Z.
Proof.
  intros Hn Hx. apply Z.bits_inj'; intros i Hi. rewrite Z.land_spec, Z.bits_0.
  destruct (Z.ltb_spec i n); [by rewrite Z.mul_pow2_bits_low|].
  by rewrite (high_bit n x i), andb_false_r by lia.
Qed.

Lemma lor_fields n k x :
  (0 <= n)%Z -> (0 <= x < 2 ^ n)%Z -> Z.lor (k * 2 ^ n) x = (k * 2 ^ n + x)%Z.
Proof. intros. rewrite <- Z.add_lor_land, land_fields by done. lia. Qed.

(** Masking the high field. *)
Lemma land_high n k x c :
  (0 <= n)%Z -> (0 <= x < 2 ^ n)%Z -> Z.land (k * 2 ^ n + x) (c * 2 ^ n) = (Z.land k c * 2 ^ n)%Z.
Proof.
  intros. rewrite <- lor_fields, Z.land_lor_distr_l by done.
  rewrite (Z.land_comm x), (land_fields n c x), Z.lor_0_r by done.
  by rewrite <- !Z.shiftl_mul_pow2, <- Z.shiftl_land by lia.
Qed.

Lemma land_low n k x :
  (0 <= n)%Z -> (0 <= x < 2 ^ n)%Z -> Z.land (k * 2 ^ n + x) (2 ^ n - 1) = x.
Proof.
  intros. rewrite Z.sub_1_r, <- Z.ones_equiv, Z.land_ones by lia.
  rewrite Z.add_comm, Z_mod_plus_full. by apply Z.mod_small.
Qed.

(** Rounding up with a power-of-two mask. *)
Lemma land_lnot_ones n x : (0 <= n)%Z -> Z.land x (Z.lnot (2 ^ n - 1)) = (x - x mod 2 ^ n)%Z.
Proof.
  intros. rewrite <- Z.ldiff_land, Z.sub_1_r, <- Z.ones_equiv, Z.ldiff_ones_r by lia.
  rewrite Z.shiftl_mul_pow2, Z.shiftr_div_pow2 by lia.
  pose proof (Z.div_mod x (2 ^ n) ltac:(apply Z.pow_nonzero; lia)). lia.
Qed.

(** [x & (x - 1) == 0] tests for a power of two. *)
Lemma land_pred_pow2 x : (0 < x)%Z ->
  Z.land x (x - 1) = 0%Z <-> exists k, (0 <= k)%Z /\ x = (2 ^ k)%Z.
Proof.
  intros Hx. split.
  - intros E. exists (Z.log2 x). split; [apply Z.log2_nonneg|].
    pose proof (Z.log2_spec x Hx) as [Hl Hu]. pose proof (Z.log2_nonneg x).
    destruct (decide (x = 2 ^ Z.log2 x)%Z) as [|Hne]; [done|exfalso].
    assert (Z.testbit (Z.land x (x - 1)) (Z.log2 x) = true) as Hb; [|by rewrite E, Z.bits_0 in Hb].
    rewrite Z.land_spec, Z.bit_log2 by lia.
    replace (Z.log2 x) with (Z.log2 (x - 1)).
    + pose proof (Z.pow_pos_nonneg 2 (Z.log2 x)). by rewrite Z.bit_log2 by lia.
    + apply Z.log2_unique; lia.
  - intros (k & Hk & ->). rewrite <- (Z.mul_1_l (2 ^ k)) at 1.
    pose proof (Z.pow_pos_nonneg 2 k). apply land_fields; lia.
Qed.

(** ** Decidable total orders

    What the sorted containers require of the [operator<] and [operator==] of
    their elements. *)
Class TotalOrd (A : Type) `{EqDecision A} := {
  ltb : A -> A -> bool;
  ltb_irrefl x : ltb x x = false;
  ltb_trans x y z : ltb x y = true -> ltb y z = true -> ltb x z = true;
  ltb_total x y : ltb x y = true \/ x = y \/ ltb y x = true;
}.
Notation "x ≺ y" := (ltb x y = true) (at level 70, no associativity).

#[export] Program Instance Z_ord : TotalOrd Z := {| ltb := Z.ltb |}.
Next Obligation. intros. lia. Qed.
Next Obligation. intros ???. lia. Qed.
Next Obligation. intros. lia. Qed.

(** The non-strict order, which sorts duplicates next to each other. *)
Definition leb `{TotalOrd A} (x y : A) : Prop := ltb y x = false.
#[export] Instance leb_dec `{TotalOrd A} : RelDecision leb.
Proof. intros x y. unfold leb. apply _. Defined.

Section ord.
Context `{TotalOrd A}.

Lemma ltb_asym (x y : A) : x ≺ y -> ltb y x = false.
Proof.
  intros Hxy. destruct (ltb y x) eqn:E; [|done].
  rewrite <- (ltb_irrefl x). symmetry. by eapply ltb_trans.
Qed.
Lemma ltb_ne (x y : A) : x ≺ y -> x <> y.
Proof. intros Hxy ->. by rewrite ltb_irrefl in Hxy. Qed.
Lemma ltb_flip (x y : A) : ltb x y = false -> x <> y -> y ≺ x.
Proof. intros E N. destruct (ltb_total x y) as [?|[?|?]]; congruence. Qed.
Lemma ltb_false_trans (x y z : A) : x ≺ y -> ltb z y = false -> x ≺ z.
Proof.
  intros Hxy Hzy. destruct (decide (z = y)) as [->|]; [done|].
  eapply ltb_trans; [done|]. by apply ltb_flip.
Qed.

(** Strictly increasing lists: sorted and without duplicates. *)
Definition increasing : list A -> Prop := StronglySorted (fun x y => x ≺ y).

Lemma increasing_cons x l : increasing (x :: l) <-> increasing l /\ Forall (fun y => x ≺ y) l.
Proof. split; [by inversion 1|]. intros []. by constructor. Qed.

Lemma increasing_app l1 l2 :
  increasing (l1 ++ l2) <->
  increasing l1 /\ increasing l2 /\ (forall x y, x ∈ l1 -> y ∈ l2 -> x ≺ y).
Proof.
  induction l1 as [|x l1 IH]; cbn.
  - split; [|naive_solver]. intros. split_and!; [constructor|done|]. intros ?? Hx. by apply not_elem_of_nil in Hx.
  - rewrite !increasing_cons, IH, Forall_app, !Forall_forall. set_solver.
Qed.

Lemma increasing_snoc l x : increasing (l ++ [x]) <-> increasing l /\ Forall (fun y => y ≺ x) l.
Proof.
  rewrite increasing_app, Forall_forall. split; [set_solver|]. intros [? Hl]. split_and!; [done| |set_solver].
  constructor; constructor.
Qed.

Lemma increasing_NoDup l : increasing l -> NoDup l.
Proof.
  induction l as [|x l IH]; [constructor|]. rewrite increasing_cons. intros [Hl Hx].
  constructor; [|auto]. intros Hin. rewrite Forall_forall in Hx. specialize (Hx x Hin).
  by rewrite ltb_irrefl in Hx.
Qed.

(** A sorted list is determined by its elements. *)
Lemma increasing_ext l1 l2 :
  increasing l1 -> increasing l2 -> (forall x, x ∈ l1 <-> x ∈ l2) -> l1 = l2.
Proof.
  revert l2. induction l1 as [|x l1 IH]; intros [|y l2] H1 H2 E; [done|set_solver|set_solver|].
  apply increasing_cons in H1 as [H1 F1], H2 as [H2 F2]. rewrite Forall_forall in F1, F2.
  assert (x = y) as ->.
  { assert (x ∈ y :: l2) as Hx by (apply E; left). assert (y ∈ x :: l1) as Hy by (apply E; left).
    apply elem_of_cons in Hx as [?|Hx]; [done|]. apply elem_of_cons in Hy as [?|Hy]; [done|].
    specialize (F1 _ Hy). specialize (F2 _ Hx). by rewrite (ltb_asym _ _ F1) in F2. }
  f_equal. apply IH; [done..|]. intros z. specialize (E z). rewrite !elem_of_cons in E.
  assert (z ∈ l1 -> z <> y) by (intros Hz; specialize (F1 z Hz); intros ->; by rewrite ltb_irrefl in F1).
  assert (z ∈ l2 -> z <> y) by (intros Hz; specialize (F2 z Hz); intros ->; by rewrite ltb_irrefl in F2).
  naive_solver.
Qed.
End ord.

(** ** Lemmas on lists *)
Lemma last_snoc_inv {A} (l : list A) x : last l = Some x -> exists l', l = l' ++ [x].
Proof. destruct l as [|y l] using rev_ind; [done|]. rewrite last_snoc. intros [= ->]. by exists l. Qed.
Lemma elem_of_rev {A} (x : A) (l : list A) : x ∈ rev l <-> x ∈ l.
Proof. by rewrite !list_elem_of_In, <- in_rev. Qed.

Lemma list_filter_all {A} (P : A -> Prop) `{!forall x, Decision (P x)} (l : list A) :
  (forall x, x ∈ l -> P x) -> filter P l = l.
Proof.
  induction l as [|x l IH]; intros HP; [done|].
  rewrite filter_cons_True by (apply HP; left). f_equal. apply IH. intros. apply HP. by right.
Qed.

Lemma list_filter_none {A} (P : A -> Prop) `{!forall x, Decision (P x)} (l : list A) :
  (forall x, x ∈ l -> ~ P x) -> filter P l = [].
Proof.
  induction l as [|x l IH]; intros HP; [done|].
  rewrite filter_cons_False by (apply HP; left). apply IH. intros. apply HP. by right.
Qed.

Lemma list_filter_iff' {A} (P Q : A -> Prop) `{!forall x, Decision (P x), !forall x, Decision (Q x)} (l : list A) :
  (forall x, x ∈ l -> P x <-> Q x) -> filter P l = filter Q l.
Proof.
  induction l as [|x l IH]; intros HP; [done|]. pose proof (HP x ltac:(left)) as Hx.
  rewrite !filter_cons, IH by (intros; apply HP; by right).
  repeat case_decide; naive_solver.
Qed.
