(* ===== verification/Values.v ===== *)
(** * Values, access sizes, read-modify-write operations and memory orderings

    Models Support/SVal.hpp, Support/ASize.hpp, Support/RMWOps.hpp and
    Support/MemOrdering.hpp.  A value is a 64-bit word with a provenance word
    attached; all arithmetic wraps at 64 bits whatever the width of the access,
    and [executeRMWBinOp] has to agree with arithmetic at the access width. *)

From S2P Require Import Prelude.
Local Open Scope Z_scope.

(** ** Values (Support/SVal.hpp) *)
Module SVal.

Record t := SVal { value : Z; provenance : Z }.

#[global] Instance eq_dec : EqDecision t.
Proof. solve_decision. Defined.

Definition width : Z := 64.

(** The three constructors. *)
Definition default : t := SVal 0 0.
Definition ofValue (v : Z) : t := SVal v 0.

Definition get (v : t) : Z := value v.
Definition getSigned (v : t) : Z := swrap64 (value v).
Definition getBool (v : t) : bool := negb (value v =? 0).
Definition getProvenance (v : t) : Z := provenance v.

(** Both fields are 64-bit words. *)
Definition wf (v : t) : Prop := in_word 64 (value v) /\ in_word 64 (provenance v).

(** [value = int64_t(get() << (width - b)) >> (width - b)]: a left shift that
    drops the high bits, a signed reading, an arithmetic right shift, and the
    conversion back to [uint64_t]. *)
Definition signExtendBottom (b : Z) (v : t) : res t :=
  debug_assert (negb (b =? 0) && (b <=? width));;
  Ok (SVal (wrap64 (Z.shiftr (swrap64 (Z.shiftl (get v) (width - b))) (width - b)))
        (provenance v)).

Definition truncate (w : Z) (v : t) : res t :=
  debug_assert (negb (w =? 0) && (w <=? width));;
  Ok (SVal (if w =? 64 then get v
            else Z.land (get v) (wrap64 (Z.shiftl 1 w - 1))) (provenance v)).

(** [operator==] ignores the provenance. *)
Definition eqb (v w : t) : bool := value w =? value v.
Definition neqb (v w : t) : bool := negb (eqb v w).

Definition compare (v w : t) : Z :=
  if value v <? value w then -1 else if value w <? value v then 1 else 0.
Definition compareSigned (v w : t) : Z :=
  if getSigned v <? getSigned w then -1 else if getSigned w <? getSigned v then 1 else 0.

Definition ult (v w : t) : bool := compare v w <? 0.
Definition slt (v w : t) : bool := compareSigned v w <? 0.
Definition ule (v w : t) : bool := compare v w <=? 0.
Definition sle (v w : t) : bool := compareSigned v w <=? 0.
Definition ugt (v w : t) : bool := negb (ule v w).
Definition sgt (v w : t) : bool := negb (sle v w).
Definition uge (v w : t) : bool := negb (ult v w).
Definition sge (v w : t) : bool := negb (slt v w).

(** [IMPL_BINOP]: the left operand is copied, so its provenance survives. *)
Definition binop (f : Z -> Z -> Z) (v w : t) : t :=
  SVal (wrap64 (f (value v) (value w))) (provenance v).
Definition add : t -> t -> t := binop Z.add.
Definition sub : t -> t -> t := binop Z.sub.
Definition mul : t -> t -> t := binop Z.mul.
Definition and_ : t -> t -> t := binop Z.land.
Definition or_ : t -> t -> t := binop Z.lor.
Definition xor_ : t -> t -> t := binop Z.lxor.

(** Division and remainder by zero, and shifts by the width or more, are
    undefined on [uint64_t]. *)
Definition div (v w : t) : res t :=
  defined (negb (value w =? 0));; Ok (binop Z.div v w).
Definition rem (v w : t) : res t :=
  defined (negb (value w =? 0));; Ok (binop Z.modulo v w).
Definition shl (v w : t) : res t :=
  defined (value w <? width);; Ok (binop Z.shiftl v w).
Definition shr (v w : t) : res t :=
  defined (value w <? width);; Ok (binop Z.shiftr v w).

(** [SVal(~this->value)]: the one-argument constructor, so the provenance is
    dropped. *)
Definition not_ (v : t) : t := ofValue (wrap64 (Z.lnot (value v))).

(** *** Properties of values *)
Lemma signExtendBottom_value b v v' :
  1 <= b <= 64 -> signExtendBottom b v = Ok v' ->
  value v' = wrap64 (swrap b (value v)) /\ provenance v' = provenance v.
Proof.
  unfold signExtendBottom, get, width. intros Hb E. res_inv. cbn. split; [|done].
  f_equal. rewrite Z.shiftl_mul_pow2, Z.shiftr_div_pow2 by lia.
  rewrite (swrap_shl b (64 - b)) by lia. rewrite Z.mul_comm.
  by rewrite Z.div_mul by (apply Z.pow_nonzero; lia).
Qed.

Lemma truncate_value b v v' :
  1 <= b <= 64 -> in_word 64 (value v) -> truncate b v = Ok v' ->
  value v' = wrap b (value v) /\ provenance v' = provenance v.
Proof.
  unfold truncate, get, width. intros Hb Hv E. res_inv. cbn. split; [|done].
  destruct (Z.eqb_spec b 64) as [->|]; [symmetry; auto with genmc|].
  rewrite Z.shiftl_1_l, wrap_small.
  - rewrite Z.sub_1_r, <- Z.ones_equiv. by apply Z.land_ones; lia.
  - unfold in_word. pose proof (Z.pow_lt_mono_r 2 b 64). pose proof (Z.pow_pos_nonneg 2 b). lia.
Qed.

Lemma signExtendBottom_ok b v : 1 <= b <= 64 -> is_ok (signExtendBottom b v) = true.
Proof. unfold signExtendBottom, width. intros. by replace (_ && _) with true by lia. Qed.
Lemma truncate_ok b v : 1 <= b <= 64 -> is_ok (truncate b v) = true.
Proof. unfold truncate, width. intros. by replace (_ && _) with true by lia. Qed.

(** The six comparisons, through [compare] and [compareSigned]. *)
Lemma ult_spec v w : ult v w = (value v <? value w).
Proof. unfold ult, compare. repeat case_match; lia. Qed.
Lemma ugt_spec v w : ugt v w = (value w <? value v).
Proof. unfold ugt, ule, compare. repeat case_match; lia. Qed.
Lemma slt_spec v w : slt v w = (getSigned v <? getSigned w).
Proof. unfold slt, compareSigned. repeat case_match; lia. Qed.
Lemma sgt_spec v w : sgt v w = (getSigned w <? getSigned v).
Proof. unfold sgt, sle, compareSigned. repeat case_match; lia. Qed.

End SVal.

(** ** Access sizes (Support/ASize.hpp) *)
Module ASize.

Definition t := Z.
Definition get (s : t) : Z := s.
Definition getBits (s : t) : Z := wrap64 (s * 8).

End ASize.

(** ** Read-modify-write operations (Support/RMWOps.hpp) *)
Module RMW.

Inductive RMWBinOp :=
  | Xchg | Add | Sub | And | Nand | Or | Xor | Max | Min | UMax | UMin.

#[global] Instance RMWBinOp_eq_dec : EqDecision RMWBinOp.
Proof. solve_decision. Defined.

(** The enumerators' values; the underlying type is [uint8_t]. *)
Definition code (op : RMWBinOp) : Z :=
  match op with
  | Xchg => 0 | Add => 1 | Sub => 2 | And => 3 | Nand => 4 | Or => 5 | Xor => 6
  | Max => 7 | Min => 8 | UMax => 9 | UMin => 10
  end.
Definition isValidRMWBinOp (i : Z) : bool := (code Xchg <=? i) && (i <=? code UMin).

(** [size.getBits()] is passed as an [unsigned]. *)
Definition executeRMWBinOp (oldVal val : SVal.t) (size : ASize.t) (op : RMWBinOp) : res SVal.t :=
  let bits := wrap 32 (ASize.getBits size) in
  match op with
  | Xchg => Ok val
  | Add => Ok (SVal.add oldVal val)
  | Sub => Ok (SVal.sub oldVal val)
  | And => Ok (SVal.and_ oldVal val)
  | Nand => Ok (SVal.not_ (SVal.and_ oldVal val))
  | Or => Ok (SVal.or_ oldVal val)
  | Xor => Ok (SVal.xor_ oldVal val)
  | Max => o ← SVal.signExtendBottom bits oldVal; v ← SVal.signExtendBottom bits val;
           Ok (if SVal.sgt o v then oldVal else val)
  | Min => o ← SVal.signExtendBottom bits oldVal; v ← SVal.signExtendBottom bits val;
           Ok (if SVal.slt o v then oldVal else val)
  | UMax => o ← SVal.truncate bits oldVal; v ← SVal.truncate bits val;
            Ok (if SVal.ugt o v then oldVal else val)
  | UMin => o ← SVal.truncate bits oldVal; v ← SVal.truncate bits val;
            Ok (if SVal.ult o v then oldVal else val)
  end.

(** The specification: the operation on [w]-bit integers. *)
Definition spec (w : Z) (op : RMWBinOp) (o v : Z) : Z :=
  match op with
  | Xchg => wrap w v
  | Add => wrap w (o + v)
  | Sub => wrap w (o - v)
  | And => wrap w (Z.land o v)
  | Nand => wrap w (Z.lnot (Z.land o v))
  | Or => wrap w (Z.lor o v)
  | Xor => wrap w (Z.lxor o v)
  | Max => wrap w (Z.max (swrap w o) (swrap w v))
  | Min => wrap w (Z.min (swrap w o) (swrap w v))
  | UMax => Z.max (wrap w o) (wrap w v)
  | UMin => Z.min (wrap w o) (wrap w v)
  end.

(** *** Properties of read-modify-writes *)

(** The access sizes the interpreter uses: 1 to 8 bytes. *)
Definition size_ok (s : ASize.t) : Prop := 1 <= s <= 8.

Lemma bits_ok s : size_ok s -> wrap 32 (ASize.getBits s) = 8 * s.
Proof.
  unfold size_ok, ASize.getBits. intros. rewrite !wrap_small; unfold in_word; try lia.
  rewrite wrap_small; unfold in_word; lia.
Qed.

(** The four selecting operations: both operands are first brought to the
    width of the access, then one of the originals is returned. *)
Lemma select_signed b o v (c : SVal.t -> SVal.t -> bool) :
  1 <= b <= 64 ->
  exists o' v', (o' ← SVal.signExtendBottom b o; v' ← SVal.signExtendBottom b v;
     Ok (if c o' v' then o else v)) = Ok (if c o' v' then o else v) /\
    SVal.getSigned o' = swrap b (SVal.value o) /\ SVal.getSigned v' = swrap b (SVal.value v).
Proof.
  intros Hb. destruct (SVal.signExtendBottom b o) as [o'|] eqn:Eo;
    [|by pose proof (SVal.signExtendBottom_ok b o Hb) as Hx; rewrite Eo in Hx].
  destruct (SVal.signExtendBottom b v) as [v'|] eqn:Ev;
    [|by pose proof (SVal.signExtendBottom_ok b v Hb) as Hx; rewrite Ev in Hx].
  exists o', v'. split; [done|].
  apply SVal.signExtendBottom_value in Eo as [Eo _], Ev as [Ev _]; try done.
  unfold SVal.getSigned. by rewrite Eo, Ev, !swrap_wrap_narrow by lia.
Qed.

Lemma select_unsigned b o v (c : SVal.t -> SVal.t -> bool) :
  1 <= b <= 64 -> SVal.wf o -> SVal.wf v ->
  exists o' v', (o' ← SVal.truncate b o; v' ← SVal.truncate b v;
     Ok (if c o' v' then o else v)) = Ok (if c o' v' then o else v) /\
    SVal.value o' = wrap b (SVal.value o) /\ SVal.value v' = wrap b (SVal.value v).
Proof.
  intros Hb [Ho _] [Hv _]. destruct (SVal.truncate b o) as [o'|] eqn:Eo;
    [|by pose proof (SVal.truncate_ok b o Hb) as Hx; rewrite Eo in Hx].
  destruct (SVal.truncate b v) as [v'|] eqn:Ev;
    [|by pose proof (SVal.truncate_ok b v Hb) as Hx; rewrite Ev in Hx].
  exists o', v'. split; [done|].
  by apply SVal.truncate_value in Eo as [Eo _], Ev as [Ev _].
Qed.

(** C31: for access sizes of 1 to 8 bytes and every operation,
    [executeRMWBinOp] succeeds and its 64-bit result, read at the width of the
    access, is the operation on integers of that width: signed for Max and
    Min, unsigned for UMax and UMin, wrapping for the arithmetic. *)
Theorem executeRMWBinOp_refines op o v s :
  size_ok s -> SVal.wf o -> SVal.wf v ->
  exists r, executeRMWBinOp o v s op = Ok r /\
    wrap (8 * s) (SVal.value r) = spec (8 * s) op (SVal.value o) (SVal.value v).
Proof.
  intros Hs Ho Hv. unfold executeRMWBinOp. rewrite bits_ok by done.
  assert (Hb : 1 <= 8 * s <= 64) by (unfold size_ok in Hs; lia).
  destruct op; cbn [spec];
    try (eexists; split; [reflexivity|]; unfold SVal.not_, SVal.ofValue; cbn [SVal.value];
      unfold SVal.add, SVal.sub, SVal.and_, SVal.or_, SVal.xor_, SVal.binop; cbn [SVal.value];
      rewrite ?wrap_wrap by lia; first [done|by apply wrap_lnot_wrap; lia]).
  - destruct (select_signed (8 * s) o v SVal.sgt Hb) as (o' & v' & -> & Eo & Ev).
    eexists; split; [done|]. rewrite SVal.sgt_spec, Eo, Ev. case_match;
      [rewrite Z.max_l by lia|rewrite Z.max_r by lia]; by rewrite wrap_swrap by lia.
  - destruct (select_signed (8 * s) o v SVal.slt Hb) as (o' & v' & -> & Eo & Ev).
    eexists; split; [done|]. rewrite SVal.slt_spec, Eo, Ev. case_match;
      [rewrite Z.min_l by lia|rewrite Z.min_r by lia]; by rewrite wrap_swrap by lia.
  - destruct (select_unsigned (8 * s) o v SVal.ugt Hb Ho Hv) as (o' & v' & -> & Eo & Ev).
    eexists; split; [done|]. rewrite SVal.ugt_spec, Eo, Ev. case_match; lia.
  - destruct (select_unsigned (8 * s) o v SVal.ult Hb Ho Hv) as (o' & v' & -> & Eo & Ev).
    eexists; split; [done|]. rewrite SVal.ult_spec, Eo, Ev. case_match; lia.
Qed.

Lemma executeRMWBinOp_refines_witness :
  exists r, executeRMWBinOp (SVal.SVal 255 7) (SVal.SVal 1 0) 1 Max = Ok r /\
    wrap (8 * 1) (SVal.value r) = 1.
Proof.
  apply (executeRMWBinOp_refines Max (SVal.SVal 255 7) (SVal.SVal 1 0) 1);
    unfold size_ok, SVal.wf, in_word; cbn; lia.
Defined.

End RMW.

(** ** Memory orderings (Support/MemOrdering.hpp) *)
Module MemOrdering.

Inductive t := NotAtomic | Relaxed | Acquire | Release | AcquireRelease | SequentiallyConsistent.

#[global] Instance eq_dec : EqDecision t.
Proof. solve_decision. Defined.

(** The enumerators' values: 2 is left for consume. *)
Definition code (o : t) : nat :=
  match o with
  | NotAtomic => 0 | Relaxed => 1 | Acquire => 3 | Release => 4 | AcquireRelease => 5
  | SequentiallyConsistent => 6
  end%nat.

Definition isValidMemOrdering (i : Z) : bool :=
  (Z.of_nat (code NotAtomic) <=? i) && (i <=? Z.of_nat (code SequentiallyConsistent)) &&
  negb (i =? 2).

(** The two 7x7 tables, with the row and column of consume. *)
Definition strongerTable : list (list bool) :=
  [[false; false; false; false; false; false; false];
   [true; false; false; false; false; false; false];
   [true; true; false; false; false; false; false];
   [true; true; true; false; false; false; false];
   [true; true; false; false; false; false; false];
   [true; true; true; true; true; false; false];
   [true; true; true; true; true; true; false]].
Definition atLeastTable : list (list bool) :=
  [[true; false; false; false; false; false; false];
   [true; true; false; false; false; false; false];
   [true; true; true; false; false; false; false];
   [true; true; true; true; false; false; false];
   [true; true; false; false; true; false; false];
   [true; true; true; true; true; true; false];
   [true; true; true; true; true; true; true]].

Definition tableAt (tb : list (list bool)) (o o' : t) : bool :=
  nth (code o') (nth (code o) tb []) false.
Definition isStrongerThan (ord other : t) : bool := tableAt strongerTable ord other.
Definition isAtLeastOrStrongerThan (ord other : t) : bool := tableAt atLeastTable ord other.

(** the two hand-written 7x7 tables describe one order: [isStrongerThan]
    is a strict partial order in which SC is the top and non-atomic the bottom,
    acquire and release are incomparable and below acquire-release, and
    [isAtLeastOrStrongerThan] is its reflexive closure. *)
Theorem isStrongerThan_order :
  StrictOrder (fun a b => isStrongerThan a b = true) /\
  (forall a b, isAtLeastOrStrongerThan a b = true <-> a = b \/ isStrongerThan a b = true) /\
  (forall a, isAtLeastOrStrongerThan SequentiallyConsistent a = true) /\
  (forall a, isAtLeastOrStrongerThan a NotAtomic = true) /\
  isAtLeastOrStrongerThan Acquire Release = false /\
  isAtLeastOrStrongerThan Release Acquire = false /\
  (forall a, isAtLeastOrStrongerThan a Acquire = true /\ isAtLeastOrStrongerThan a Release = true
     <-> isAtLeastOrStrongerThan a AcquireRelease = true).
Proof.
  assert (forall a b, isAtLeastOrStrongerThan a b = true <-> a = b \/ isStrongerThan a b = true)
    by (intros [] []; vm_compute; naive_solver).
  split_and!; try done; try (intros []; vm_compute; naive_solver).
  split; [intros []|intros [] [] []]; vm_compute; congruence.
Qed.

End MemOrdering.
