(* ===== verification/Addresses.v ===== *)
(** * Addresses, accesses and the address allocator

    Models Support/SAddr.hpp, Support/MemAccess.hpp and
    Support/SAddrAllocator.{hpp,cpp}.  An address is a 64-bit word whose top four
    bits give the kind of storage, bits 32 to 59 the thread that allocated it and
    bits 0 to 31 an index.  The allocator hands out index ranges per thread. *)

From S2P Require Import Prelude Values.
Local Open Scope Z_scope.

(** ** Addresses (Support/SAddr.hpp) *)
Module SAddr.

Definition t := Z.

Definition staticMask : Z := wrap64 (Z.shiftl 1 63).
Definition automaticMask : Z := wrap64 (Z.shiftl 1 62).
Definition internalMask : Z := wrap64 (Z.shiftl 1 61).
Definition durableMask : Z := wrap64 (Z.shiftl 1 60).
Definition storageMask : Z :=
  Z.lor (Z.lor (Z.lor staticMask automaticMask) internalMask) durableMask.

Definition threadStartBit : Z := 32.
Definition indexMask : Z := wrap64 (wrap64 (Z.shiftl 1 threadStartBit) - 1).
Definition threadMask : Z := wrap64 (durableMask - wrap64 (Z.shiftl 1 threadStartBit)).
Definition threadLimit : Z := Z.shiftr threadMask threadStartBit.
Definition allocLimit : Z := indexMask.

(** [fresh ^= (-(Width)(!!b) ^ fresh) & mask]: sets the bits of [mask] to [b]. *)
Definition assignBit (fresh : Z) (b : bool) (mask : Z) : Z :=
  Z.lxor fresh (Z.land (Z.lxor (wrap64 (- Z.b2z b)) fresh) mask).

Definition create (storage thread index : Z) (durable internal : bool) : res t :=
  verify (thread <=? threadLimit);;
  verify (index <=? allocLimit);;
  let fresh := Z.lor 0 storage in
  let fresh := assignBit fresh durable durableMask in
  let fresh := assignBit fresh internal internalMask in
  let fresh := Z.lor fresh (wrap64 (Z.shiftl thread threadStartBit)) in
  Ok (Z.lor fresh index).

Definition max : t := wrap64 (-1).

Definition createStatic := create staticMask.
Definition createHeap := create 0.
Definition createAutomatic := create automaticMask.

Definition isStatic (a : t) : bool := negb (Z.land a staticMask =? 0).
Definition isDynamic (a : t) : bool := negb (isStatic a).
Definition isAutomatic (a : t) : bool := negb (Z.land a automaticMask =? 0).
Definition isHeap (a : t) : bool := negb (isAutomatic a).
Definition isInternal (a : t) : bool := negb (Z.land a internalMask =? 0).
Definition isUser (a : t) : bool := negb (isInternal a).
Definition isDurable (a : t) : bool := negb (Z.land a durableMask =? 0).
Definition isVolatile (a : t) : bool := negb (isDurable a).
Definition isNull (a : t) : bool := a =? 0.

Definition sameStorageAs (a b : t) : bool := Z.land a storageMask =? Z.land b storageMask.

Definition addSize (a : t) (s : ASize.t) : t := wrap64 (a + ASize.get s).
Definition subSize (a : t) (s : ASize.t) : t := wrap64 (a - ASize.get s).
Definition diff (a b : t) : Z := wrap64 (a - b).
Definition shr (a : t) (n : Z) : res t := defined (n <? 64);; Ok (Z.shiftr a n).
Definition shl (a : t) (n : Z) : res t := defined (n <? 64);; Ok (wrap64 (Z.shiftl a n)).
Definition incr (a : t) : t := wrap64 (a + 1).
Definition decr (a : t) : t := wrap64 (a - 1).

(** The two fields the formatter prints. *)
Definition threadField (a : t) : Z := Z.shiftr (Z.land a threadMask) threadStartBit.
Definition indexField (a : t) : Z := Z.land a indexMask.

(** *** The layout *)

(** The word that [create] builds, as a sum of disjoint fields. *)
Definition layout (storage thread index : Z) (durable internal : bool) : Z :=
  storage + Z.b2z internal * 2 ^ 61 + Z.b2z durable * 2 ^ 60 + thread * 2 ^ 32 + index.

Definition is_storage (m : Z) : Prop := m = staticMask \/ m = automaticMask \/ m = 0.

Lemma create_layout storage thread index durable internal :
  is_storage storage -> 0 <= thread <= threadLimit -> 0 <= index <= allocLimit ->
  create storage thread index durable internal =
    Ok (layout storage thread index durable internal).
Proof.
  intros Hs Ht Hi. change threadLimit with (2 ^ 28 - 1) in Ht. change allocLimit with (2 ^ 32 - 1) in Hi.
  unfold create. change threadLimit with (2 ^ 28 - 1). change allocLimit with (2 ^ 32 - 1).
  replace (thread <=? 2 ^ 28 - 1) with true by lia.
  replace (index <=? 2 ^ 32 - 1) with true by lia. cbn [verify mbind res_bind].
  change threadStartBit with 32. rewrite Z.shiftl_mul_pow2, wrap_small by (unfold in_word; lia).
  unfold layout. f_equal.
  set (top := assignBit _ _ _).
  assert (exists k, top = k * 2 ^ 60 /\
    storage + Z.b2z internal * 2 ^ 61 + Z.b2z durable * 2 ^ 60 = k * 2 ^ 60) as (k & -> & ->).
  { exists (storage / 2 ^ 60 + Z.b2z internal * 2 + Z.b2z durable). subst top.
    destruct Hs as [->|[->| ->]], durable, internal; by vm_compute. }
  rewrite lor_fields by lia.
  replace (k * 2 ^ 60 + thread * 2 ^ 32) with ((k * 2 ^ 28 + thread) * 2 ^ 32) by lia.
  by rewrite lor_fields by lia.
Qed.

(** The high field of the layout: a number below 16. *)
Lemma layout_fields storage thread index durable internal :
  is_storage storage -> 0 <= thread <= threadLimit -> 0 <= index <= allocLimit ->
  exists k, 0 <= k < 16 /\
    layout storage thread index durable internal = (k * 2 ^ 28 + thread) * 2 ^ 32 + index /\
    k = storage / 2 ^ 60 + Z.b2z internal * 2 + Z.b2z durable.
Proof.
  intros Hs Ht Hi. unfold layout.
  assert (storage = storage / 2 ^ 60 * 2 ^ 60 /\
    (storage / 2 ^ 60 = 8 \/ storage / 2 ^ 60 = 4 \/ storage / 2 ^ 60 = 0)) as [E Hq].
  { destruct Hs as [->|[->| ->]]; vm_compute; tauto. }
  set (q := storage / 2 ^ 60) in *. exists (q + Z.b2z internal * 2 + Z.b2z durable).
  rewrite E. destruct durable, internal; unfold Z.b2z; split_and!; lia.
Qed.

Lemma threadField_layout q t i : 0 <= t < 2 ^ 28 -> 0 <= i < 2 ^ 32 ->
  threadField ((q * 2 ^ 28 + t) * 2 ^ 32 + i) = t.
Proof.
  intros. unfold threadField. change threadMask with ((2 ^ 28 - 1) * 2 ^ 32).
  rewrite (land_high 32), land_low by lia. change threadStartBit with 32.
  by rewrite Z.shiftr_div_pow2, Z.div_mul by lia.
Qed.

(** [create] packs its five arguments without loss: from arguments within
    the limits it succeeds with a 64-bit address from which every predicate and
    both fields recover the arguments, and outside the limits it aborts. *)
Theorem create_decode storage thread index durable internal :
  is_storage storage -> 0 <= thread -> 0 <= index ->
  match create storage thread index durable internal with
  | Ok a => thread <= threadLimit /\ index <= allocLimit /\ in_word 64 a /\
      isStatic a = bool_decide (storage = staticMask) /\
      isAutomatic a = bool_decide (storage = automaticMask) /\
      isInternal a = internal /\ isDurable a = durable /\
      threadField a = thread /\ indexField a = index
  | Abort f => f = VerifyFailed /\ (threadLimit < thread \/ allocLimit < index)
  end.
Proof.
  intros Hs Ht Hi. destruct (decide (thread <= threadLimit /\ index <= allocLimit)) as [[Ht' Hi']|Hn].
  2: { unfold create. destruct (Z.leb_spec thread threadLimit), (Z.leb_spec index allocLimit);
       cbn; lia || auto. }
  rewrite create_layout by done.
  destruct (layout_fields storage thread index durable internal) as (k & Hk & E & Ek); try done.
  rewrite E. change threadLimit with (2 ^ 28 - 1) in *. change allocLimit with (2 ^ 32 - 1) in *.
  assert (forall c, Z.land ((k * 2 ^ 28 + thread) * 2 ^ 32 + index) (c * 2 ^ 60) = Z.land k c * 2 ^ 60) as Hm.
  { intros c. replace ((k * 2 ^ 28 + thread) * 2 ^ 32 + index) with (k * 2 ^ 60 + (thread * 2 ^ 32 + index)) by lia.
    apply land_high; lia. }
  unfold isStatic, isAutomatic, isInternal, isDurable, threadField, indexField.
  change staticMask with (8 * 2 ^ 60) at 1. change automaticMask with (4 * 2 ^ 60) at 1.
  change internalMask with (2 * 2 ^ 60). change durableMask with (1 * 2 ^ 60).
  change threadMask with ((2 ^ 28 - 1) * 2 ^ 32). change indexMask with (2 ^ 32 - 1).
  rewrite !Hm, (land_high 32), land_low, land_low by lia.
  change threadStartBit with 32. rewrite Z.shiftr_div_pow2, Z.div_mul by lia.
  split_and!; try done; try (unfold in_word; lia); rewrite Ek; clear -Hs;
    destruct Hs as [->|[->| ->]], durable, internal; by vm_compute.
Qed.

Lemma create_decode_witness :
  match create staticMask 5 12 true false with
  | Ok a => threadField a = 5 /\ indexField a = 12
  | Abort _ => False
  end.
Proof.
  pose proof (create_decode staticMask 5 12 true false (or_introl eq_refl)
    ltac:(lia) ltac:(lia)) as H. exact (proj2 (proj2 (proj2 (proj2 (proj2 (proj2 (proj2 H))))))).
Defined.

End SAddr.

(** ** Accesses (Support/MemAccess.hpp) *)
Module AAccess.

Record t := AAccess { addr : SAddr.t; size : ASize.t }.

#[global] Instance eq_dec : EqDecision t.
Proof. solve_decision. Defined.

Definition contains (x : t) (a : SAddr.t) : bool :=
  SAddr.sameStorageAs (addr x) a && (addr x <=? a) && (a <? SAddr.addSize (addr x) (size x)).

Definition overlaps (x y : t) : bool :=
  SAddr.sameStorageAs (addr x) (addr y) &&
  (addr y <? SAddr.addSize (addr x) (size x)) &&
  (addr x <? SAddr.addSize (addr y) (size y)).

(** A non-empty access whose end does not wrap around. *)
Definition wf (x : t) : Prop := 0 <= addr x /\ 1 <= size x /\ addr x + size x < 2 ^ 64.

Lemma addSize_wf x : wf x -> SAddr.addSize (addr x) (size x) = addr x + size x.
Proof. intros (? & ? & ?). unfold SAddr.addSize, ASize.get. apply wrap_small. unfold in_word. lia. Qed.

(** two accesses overlap exactly when some address lies in both. *)
Theorem overlaps_spec x y : wf x -> wf y ->
  overlaps x y = true <-> exists a, contains x a = true /\ contains y a = true.
Proof.
  intros Hx Hy. unfold overlaps, contains. rewrite !addSize_wf by done.
  destruct Hx as (? & ? & ?), Hy as (? & ? & ?). unfold SAddr.sameStorageAs. split.
  - intros E. exists (Z.max (addr x) (addr y)).
    destruct (Z.max_spec (addr x) (addr y)) as [[? ->]|[? ->]]; lia.
  - intros (a & E1 & E2). lia.
Qed.

Lemma overlaps_spec_witness :
  overlaps (AAccess 16 4) (AAccess 18 4) = true <->
  exists a, contains (AAccess 16 4) a = true /\ contains (AAccess 18 4) a = true.
Proof. apply (overlaps_spec (AAccess 16 4) (AAccess 18 4)); unfold wf; cbn; lia. Defined.

End AAccess.

(** ** The allocator (Support/SAddrAllocator.hpp) *)
Module SAddrAllocator.

(** The two pools map a thread to the first index it has not handed out.  The
    mapped type of the dynamic pool is [WidthProxy], whose default is 1. *)
Record state := { staticPool_ : gmap Z Z; dynamicPool_ : gmap Z Z }.
Definition empty : state := {| staticPool_ := ∅; dynamicPool_ := ∅ |}.

Definition defaultStatic : Z := 0.
Definition defaultDynamic : Z := 1.

(** [allocate]: the address (or null when out of memory) and the new value of
    the pool. *)
Definition allocate (allocFun : Z -> Z -> bool -> bool -> res SAddr.t)
    (pool thread size alignment : Z) (isDurable isInternal : bool) : res (SAddr.t * Z) :=
  verify (negb (size =? 0));;
  let alignment := Z.max alignment 1 in
  verify (Z.land alignment (alignment - 1) =? 0);;
  let offset := alignment - 1 in
  let newAddr := Z.land (wrap64 (pool + offset)) (wrap64 (Z.lnot offset)) in
  if (SAddr.allocLimit <=? wrap64 (newAddr + size)) || (newAddr <? pool) ||
     (wrap64 (newAddr + size) <=? newAddr)
  then Ok (0, pool)
  else a ← allocFun thread newAddr isDurable isInternal;
       Ok (a, wrap64 (newAddr + size)).

(** [staticPool_[thread]] and [dynamicPool_[thread]] insert the default. *)
Definition poolAt (dflt : Z) (m : gmap Z Z) (thread : Z) : Z := default dflt (m !! thread).

Definition allocStatic (st : state) (thread size alignment : Z) (dur int : bool)
    : res (SAddr.t * state) :=
  '(a, p) ← allocate SAddr.createStatic (poolAt defaultStatic (staticPool_ st) thread)
              thread size alignment dur int;
  Ok (a, {| staticPool_ := <[thread := p]> (staticPool_ st); dynamicPool_ := dynamicPool_ st |}).
Definition allocAutomatic (st : state) (thread size alignment : Z) (dur int : bool)
    : res (SAddr.t * state) :=
  '(a, p) ← allocate SAddr.createAutomatic (poolAt defaultDynamic (dynamicPool_ st) thread)
              thread size alignment dur int;
  Ok (a, {| staticPool_ := staticPool_ st; dynamicPool_ := <[thread := p]> (dynamicPool_ st) |}).
Definition allocHeap (st : state) (thread size alignment : Z) (dur int : bool)
    : res (SAddr.t * state) :=
  '(a, p) ← allocate SAddr.createHeap (poolAt defaultDynamic (dynamicPool_ st) thread)
              thread size alignment dur int;
  Ok (a, {| staticPool_ := staticPool_ st; dynamicPool_ := <[thread := p]> (dynamicPool_ st) |}).

(** [restrict]: [view.getMax] is an argument.  Only the dynamic pools are
    touched, and [std::max(1, .)] keeps them non-null. *)
Definition restrict (getMax : Z -> Z) (st : state) : state :=
  {| staticPool_ := staticPool_ st;
     dynamicPool_ := map_imap (fun tid _ => Some (wrap64 (Z.max 1 (getMax tid)))) (dynamicPool_ st) |}.

(** *** One allocation *)

(** The least multiple of [al] that is not below [p]. *)
Definition roundUp (al p : Z) : Z := p + (- p) mod al.

Definition alignment_ok (al : Z) : Prop := al = 0 \/ exists k, 0 <= k < 64 /\ al = 2 ^ k.

Lemma roundUp_spec al p : 0 < al ->
  p <= roundUp al p < p + al /\ roundUp al p mod al = 0.
Proof.
  intros. unfold roundUp. pose proof (Z.mod_pos_bound (- p) al). split; [lia|].
  rewrite Zplus_mod_idemp_r, Z.add_opp_diag_r. by apply Z.mod_0_l; lia.
Qed.

Lemma roundUp_mask k p : 0 <= k < 64 -> in_word 64 p ->
  let al := 2 ^ k in
  let a := Z.land (wrap64 (p + (al - 1))) (wrap64 (Z.lnot (al - 1))) in
  0 <= a < 2 ^ 64 /\
  (p + al - 1 < 2 ^ 64 -> a = roundUp al p) /\ (2 ^ 64 <= p + al - 1 -> a < p).
Proof.
  intros Hk Hp al a. unfold in_word in Hp.
  assert (Hal : 1 <= al < 2 ^ 64).
  { subst al. pose proof (Z.pow_pos_nonneg 2 k). pose proof (Z.pow_lt_mono_r 2 k 64). lia. }
  assert (Ha : a = wrap64 (p + (al - 1)) - wrap64 (p + (al - 1)) mod al).
  { unfold a. rewrite <- (land_lnot_ones k) by lia. apply Z.bits_inj'; intros i Hi.
    rewrite !Z.land_spec, !wrap_testbit by lia. by destruct (i <? 64). }
  pose proof (wrap_range 64 (p + (al - 1)) ltac:(lia)) as Hw. unfold in_word in Hw.
  pose proof (Z.mod_pos_bound (wrap64 (p + (al - 1))) al ltac:(lia)).
  pose proof (Z.mod_le (wrap64 (p + (al - 1))) al ltac:(lia) ltac:(lia)).
  split_and!; [lia..| |].
  - intros Hlt. rewrite Ha. rewrite wrap_small by (unfold in_word; lia). unfold roundUp.
    rewrite <- (Z_mod_plus_full (- p) 1 al).
    assert ((p + (al - 1)) mod al + (- p + 1 * al) mod al = al - 1) as E; [|lia].
    rewrite Z_mod_plus_full.
    destruct (decide (p mod al = 0)) as [E|E].
    + rewrite Z_mod_zero_opp_full by done.
      rewrite <- Zplus_mod_idemp_l, E, Z.add_0_l, Z.mod_small by lia. lia.
    + rewrite Z_mod_nz_opp_full by done. pose proof (Z.mod_pos_bound p al ltac:(lia)).
      rewrite <- Zplus_mod_idemp_l.
      replace (p mod al + (al - 1)) with (p mod al - 1 + 1 * al) by lia.
      rewrite Z_mod_plus_full, Z.mod_small by lia. lia.
  - intros Hge. assert (wrap64 (p + (al - 1)) = p + al - 1 - 2 ^ 64) as Ew; [|lia].
    unfold wrap. symmetry. apply Z.mod_unique_pos with (q := 1); lia.
Qed.

(** [allocate] in closed form: the overflow tests on 64-bit words decide
    exactly whether the aligned range fits below the limit. *)
Lemma allocate_spec allocFun pool thread size al dur int :
  alignment_ok al -> in_word 64 pool -> 0 < size < 2 ^ 64 ->
  allocate allocFun pool thread size al dur int =
    let i := roundUp (Z.max al 1) pool in
    if decide (i + size < SAddr.allocLimit)
    then a ← allocFun thread i dur int; Ok (a, i + size)
    else Ok (0, pool).
Proof.
  intros Hal Hp Hs. unfold allocate. replace (size =? 0) with false by lia.
  assert (exists k, 0 <= k < 64 /\ Z.max al 1 = 2 ^ k) as (k & Hk & Ek).
  { destruct Hal as [->|(k & Hk & ->)]; [by exists 0|]. exists k.
    pose proof (Z.pow_pos_nonneg 2 k). lia. }
  rewrite Ek. clear Ek Hal.
  assert (Z.land (2 ^ k) (2 ^ k - 1) = 0) as ->.
  { apply land_pred_pow2; [apply Z.pow_pos_nonneg; lia|]. exists k. lia. }
  cbn [negb verify mbind res_bind Z.eqb].
  pose proof (roundUp_mask k pool Hk Hp) as (Ha & Hlo & Hhi). set (a := Z.land _ _) in *.
  pose proof (roundUp_spec (2 ^ k) pool ltac:(apply Z.pow_pos_nonneg; lia)) as [Hr _].
  change SAddr.allocLimit with (2 ^ 32 - 1). unfold in_word in Hp.
  assert (wrap64 (a + size) = if decide (a + size < 2 ^ 64) then a + size else a + size - 2 ^ 64) as ->.
  { case_decide; [apply wrap_small; unfold in_word; lia|].
    unfold wrap. symmetry. apply Z.mod_unique_pos with (q := 1); lia. }
  destruct (decide (pool + 2 ^ k - 1 < 2 ^ 64)) as [Hfit|Hov].
  - rewrite <- (Hlo Hfit) in *. repeat case_decide; try lia;
      match goal with |- context [if ?b then _ else _] => destruct b eqn:Eb end; try done; lia.
  - specialize (Hhi ltac:(lia)). replace (a <? pool) with true by lia.
    rewrite orb_true_r. cbn. case_decide; [exfalso|done].
    assert (k < 64) by lia. pose proof (Z.pow_le_mono_r 2 k 63). lia.
Qed.

(** *** Sequences of allocations *)

(** A call of one of the three public entry points. *)
Inductive kind := Static | Automatic | Heap.
Record request := {
  rq_kind : kind; rq_thread : Z; rq_size : Z; rq_align : Z; rq_durable : bool; rq_internal : bool
}.

Definition alloc (st : state) (r : request) : res (SAddr.t * state) :=
  (match rq_kind r with
   | Static => allocStatic | Automatic => allocAutomatic | Heap => allocHeap
   end) st (rq_thread r) (rq_size r) (rq_align r) (rq_durable r) (rq_internal r).

(** The extents handed out by a sequence of calls; a null result hands out
    nothing. *)
Fixpoint allocs (st : state) (rs : list request) : res (list (SAddr.t * Z) * state) :=
  match rs with
  | [] => Ok ([], st)
  | r :: rs =>
      '(a, st) ← alloc st r;
      '(out, st) ← allocs st rs;
      Ok (if SAddr.isNull a then out else (a, rq_size r) :: out, st)
  end.

Definition request_ok (r : request) : Prop :=
  0 <= rq_thread r <= SAddr.threadLimit /\ 0 < rq_size r < 2 ^ 64 /\ alignment_ok (rq_align r).

Definition storageOf (k : kind) : Z :=
  match k with Static => SAddr.staticMask | Automatic => SAddr.automaticMask | Heap => 0 end.
(** The pool a kind draws from: automatic and heap addresses share one. *)
Definition poolOf (st : state) (k : kind) (thread : Z) : Z :=
  match k with
  | Static => poolAt defaultStatic (staticPool_ st) thread
  | _ => poolAt defaultDynamic (dynamicPool_ st) thread
  end.
Definition isStaticKind (k : kind) : bool := match k with Static => true | _ => false end.

Definition state_ok (st : state) : Prop :=
  forall k thread, in_word 64 (poolOf st k thread) /\ (isStaticKind k = false -> 1 <= poolOf st k thread).

(** [x] is an extent of kind [k] and thread [t] whose first index is [i]. *)
Definition extent (x : SAddr.t * Z) (k : kind) (t i : Z) : Prop :=
  exists dur int, 0 <= t <= SAddr.threadLimit /\ 0 <= i /\ 0 < x.2 /\ i + x.2 < SAddr.allocLimit /\
    x.1 = SAddr.layout (storageOf k) t i dur int.
Definition owned (st : state) (x : SAddr.t * Z) : Prop :=
  exists k t i, extent x k t i /\ i + x.2 <= poolOf st k t.
Definition fresh (st : state) (x : SAddr.t * Z) : Prop :=
  exists k t i, extent x k t i /\ poolOf st k t <= i.

Definition disjoint_extents (x y : SAddr.t * Z) : Prop := x.1 + x.2 <= y.1 \/ y.1 + y.2 <= x.1.

Lemma storageOf_ok k : SAddr.is_storage (storageOf k).
Proof. destruct k; unfold SAddr.is_storage; cbn; auto. Qed.

Lemma extent_fields x k t i : extent x k t i ->
  exists q, x.1 = (q * 2 ^ 28 + t) * 2 ^ 32 + i /\ 0 <= q < 16 /\ (8 <= q <-> isStaticKind k = true).
Proof.
  intros (dur & int & Ht & Hi & Hs & Hl & ->).
  destruct (SAddr.layout_fields (storageOf k) t i dur int) as (q & Hq & E & Eq); try done.
  - apply storageOf_ok.
  - lia.
  - exists q. split_and!; [done|lia|lia|]. rewrite Eq. destruct k, dur, int; vm_compute; intuition discriminate.
Qed.

(** Index ranges that a pool separates are disjoint address ranges, and the
    ranges of two threads or of two pools never meet. *)
Lemma owned_fresh_disjoint st x y : owned st x -> fresh st y -> disjoint_extents x y.
Proof.
  intros (k & t & i & Hx & Hp) (k' & t' & i' & Hy & Hp').
  destruct (extent_fields _ _ _ _ Hx) as (q & Eq & Hq & Hk).
  destruct (extent_fields _ _ _ _ Hy) as (q' & Eq' & Hq' & Hk').
  destruct Hx as (? & ? & Ht & Hi & Hs & Hl & _), Hy as (? & ? & Ht' & Hi' & Hs' & Hl' & _).
  change SAddr.threadLimit with (2 ^ 28 - 1) in *. change SAddr.allocLimit with (2 ^ 32 - 1) in *.
  unfold disjoint_extents. rewrite Eq, Eq'.
  destruct (decide (q * 2 ^ 28 + t = q' * 2 ^ 28 + t')) as [E|]; [|lia].
  assert (q = q' /\ t = t') as [-> ->] by lia.
  assert (poolOf st k t' = poolOf st k' t') as E'.
  { destruct k, k'; cbn in Hk, Hk' |- *; try done; exfalso; intuition discriminate. }
  lia.
Qed.

Definition pools_le (st st' : state) : Prop := forall k t, poolOf st k t <= poolOf st' k t.

Lemma owned_mono st st' x : pools_le st st' -> owned st x -> owned st' x.
Proof. intros Hle (k & t & i & Hx & Hp). exists k, t, i. split; [done|]. specialize (Hle k t). lia. Qed.

(** The state after the pool of [k] and [t] has become [p]. *)
Definition setPool (st : state) (k : kind) (t p : Z) : state :=
  match k with
  | Static => {| staticPool_ := <[t := p]> (staticPool_ st); dynamicPool_ := dynamicPool_ st |}
  | _ => {| staticPool_ := staticPool_ st; dynamicPool_ := <[t := p]> (dynamicPool_ st) |}
  end.

Lemma poolOf_setPool st k t p k' t' :
  poolOf (setPool st k t p) k' t' =
    if decide (isStaticKind k = isStaticKind k' /\ t = t') then p else poolOf st k' t'.
Proof.
  destruct (decide (t = t')) as [<-|Ht].
  - destruct k, k'; cbn; unfold poolAt; rewrite ?lookup_insert_eq;
      case_decide as E; done || (destruct E; done) || (exfalso; apply E; done).
  - rewrite decide_False by tauto.
    destruct k, k'; cbn; unfold poolAt; by rewrite ?lookup_insert_ne by done.
Qed.

(** One call, in closed form: first fit at the pool's end, rounded up to the
    alignment. *)
Lemma alloc_closed st r : state_ok st -> request_ok r ->
  let i := roundUp (Z.max (rq_align r) 1) (poolOf st (rq_kind r) (rq_thread r)) in
  alloc st r =
    if decide (i + rq_size r < SAddr.allocLimit)
    then Ok (SAddr.layout (storageOf (rq_kind r)) (rq_thread r) i (rq_durable r) (rq_internal r),
             setPool st (rq_kind r) (rq_thread r) (i + rq_size r))
    else Ok (0, setPool st (rq_kind r) (rq_thread r) (poolOf st (rq_kind r) (rq_thread r))).
Proof.
  intros Hst (Ht & Hs & Hal) i. pose proof (Hst (rq_kind r) (rq_thread r)) as [Hp _].
  assert (Hi : 0 <= i).
  { subst i. pose proof (roundUp_spec (Z.max (rq_align r) 1) (poolOf st (rq_kind r) (rq_thread r)) ltac:(lia)).
    unfold in_word in Hp. lia. }
  unfold alloc. destruct (rq_kind r) eqn:Ek; unfold allocStatic, allocAutomatic, allocHeap; cbn in i, Hp;
    rewrite allocate_spec by done; cbn zeta; fold i; case_decide as Hf; cbn; try done;
    unfold SAddr.createStatic, SAddr.createAutomatic, SAddr.createHeap;
    (rewrite SAddr.create_layout; [done|unfold SAddr.is_storage; auto|lia|lia]).
Qed.

Lemma layout_nonnull k t i dur int :
  0 <= t <= SAddr.threadLimit -> 0 <= i <= SAddr.allocLimit -> (isStaticKind k = false -> 1 <= i) ->
  SAddr.layout (storageOf k) t i dur int <> 0.
Proof.
  intros Ht Hi Hk. destruct (SAddr.layout_fields (storageOf k) t i dur int) as (q & Hq & -> & Eq);
    try done; [apply storageOf_ok|].
  destruct k; cbn in Hk; [|specialize (Hk eq_refl); lia..].
  assert (8 <= q); [|lia]. rewrite Eq. destruct dur, int; vm_compute; congruence.
Qed.

Definition rq_ext (r : request) (a : SAddr.t) : SAddr.t * Z := (a, rq_size r).

Lemma setPool_ok st k t p : state_ok st -> poolOf st k t <= p < 2 ^ 64 ->
  state_ok (setPool st k t p) /\ pools_le st (setPool st k t p).
Proof.
  intros Hst Hp.
  assert (Hle : pools_le st (setPool st k t p)).
  { intros k' t'. rewrite poolOf_setPool. case_decide as E; [|lia]. destruct E as [E ->].
    replace (poolOf st k' t') with (poolOf st k t'); [lia|]. by destruct k, k'. }
  split; [|done]. intros k' t'. specialize (Hle k' t'). destruct (Hst k' t') as [Hw Hn].
  split; [|intros E; specialize (Hn E); lia]. unfold in_word in *. rewrite poolOf_setPool in *.
  case_decide; lia.
Qed.

(** The step: no call fails, pools only grow, and a non-null result is a fresh
    extent which the new state owns. *)
Lemma alloc_step st r : state_ok st -> request_ok r ->
  exists a st', alloc st r = Ok (a, st') /\ state_ok st' /\ pools_le st st' /\
    (a = 0 \/ a <> 0 /\ fresh st (a, rq_size r) /\ owned st' (a, rq_size r) /\
       SAddr.indexField a mod Z.max (rq_align r) 1 = 0).
Proof.
  intros Hst Hr. rewrite (alloc_closed st r Hst Hr).
  destruct Hr as (Ht & Hs & Hal). destruct (Hst (rq_kind r) (rq_thread r)) as [Hp Hp1].
  destruct (roundUp_spec (Z.max (rq_align r) 1) (poolOf st (rq_kind r) (rq_thread r)) ltac:(lia)) as [Hi Hm].
  set (i := roundUp _ _) in *. unfold in_word in Hp.
  change SAddr.allocLimit with (2 ^ 32 - 1). case_decide as Hf; do 2 eexists; (split; [done|]).
  2: { destruct (setPool_ok st (rq_kind r) (rq_thread r) (poolOf st (rq_kind r) (rq_thread r)) Hst)
         as [Hok Hle]; [lia|]. auto. }
  destruct (setPool_ok st (rq_kind r) (rq_thread r) (i + rq_size r) Hst) as [Hok Hle]; [lia|].
  split; [done|]. split; [done|]. right.
  assert (Hext : extent (SAddr.layout (storageOf (rq_kind r)) (rq_thread r) i (rq_durable r) (rq_internal r),
                   rq_size r) (rq_kind r) (rq_thread r) i).
  { exists (rq_durable r), (rq_internal r). cbn. change SAddr.allocLimit with (2 ^ 32 - 1). split_and!; lia || done. }
  split_and!.
  - apply layout_nonnull; change SAddr.allocLimit with (2 ^ 32 - 1); [done|lia|].
    intros E. specialize (Hp1 E). lia.
  - exists (rq_kind r), (rq_thread r), i. split; [done|lia].
  - exists (rq_kind r), (rq_thread r), i. split; [done|]. cbn. rewrite poolOf_setPool, decide_True by done. lia.
  - destruct (extent_fields _ _ _ _ Hext) as (q & E & _). cbn in E. rewrite E.
    unfold SAddr.indexField. change SAddr.indexMask with (2 ^ 32 - 1). by rewrite land_low by lia.
Qed.

Lemma empty_ok : state_ok empty.
Proof. intros [] t; cbn; unfold poolAt, in_word; rewrite lookup_empty; cbn; split; lia || done. Qed.

(** Everything allocated from [st] is fresh for [st]. *)
Lemma allocs_disjoint rs : forall st, state_ok st -> Forall request_ok rs ->
  exists out st', allocs st rs = Ok (out, st') /\ state_ok st' /\ pools_le st st' /\
    Forall (fun x => x.1 <> 0) out /\
    (forall x, owned st x -> Forall (disjoint_extents x) out) /\
    (forall i j x y, i <> j -> out !! i = Some x -> out !! j = Some y -> disjoint_extents x y).
Proof.
  induction rs as [|r rs IH]; intros st Hst Hr; cbn.
  { exists [], st. split_and!; try done. intros ??; lia. }
  apply Forall_cons in Hr as [Hr Hrs].
  destruct (alloc_step st r Hst Hr) as (a & st1 & -> & Hst1 & Hle1 & Ha). cbn.
  destruct (IH st1 Hst1 Hrs) as (out & st2 & -> & Hst2 & Hle2 & Hnn & Hown & Hdis). cbn.
  assert (Hle : pools_le st st2) by (intros k t; specialize (Hle1 k t); specialize (Hle2 k t); lia).
  unfold SAddr.isNull. destruct (Z.eqb_spec a 0) as [->|Hna].
  { exists out, st2. split_and!; try done. intros x Hx. apply Hown. by eapply owned_mono. }
  destruct Ha as [|(_ & Hfresh & Howned & _)]; [done|].
  exists ((a, rq_size r) :: out), st2. split_and!; try done; [by constructor| |].
  - intros x Hx. constructor; [by eapply owned_fresh_disjoint|]. apply Hown. by eapply owned_mono.
  - assert (Hhd : forall j y, out !! j = Some y -> disjoint_extents (a, rq_size r) y).
    { intros j y Hy. specialize (Hown _ Howned). by eapply (Forall_lookup_1 _ _ _ _ Hown). }
    intros [|i] [|j] x y Hij Hx Hy; cbn in Hx, Hy; simplify_eq; [by eapply Hhd| |by eapply (Hdis i j); eauto].
    specialize (Hhd i x Hx). unfold disjoint_extents in *. tauto.
Qed.

(** C32: the allocator never hands out an address twice.  Any sequence of
    well-formed allocation calls, from any threads and in any interleaving,
    succeeds, and the address ranges it returns are non-null and pairwise
    disjoint. *)
Theorem allocs_never_twice rs : Forall request_ok rs ->
  exists out st', allocs empty rs = Ok (out, st') /\
    Forall (fun x => x.1 <> 0) out /\
    (forall i j x y, i <> j -> out !! i = Some x -> out !! j = Some y -> disjoint_extents x y).
Proof.
  intros Hrs. destruct (allocs_disjoint rs empty empty_ok Hrs) as (out & st' & ? & _ & _ & ? & _ & ?).
  eauto.
Qed.

Lemma allocs_never_twice_witness :
  exists out st', allocs empty [ {| rq_kind := Heap; rq_thread := 1; rq_size := 8; rq_align := 8;
                                    rq_durable := false; rq_internal := false |};
                                 {| rq_kind := Automatic; rq_thread := 1; rq_size := 4; rq_align := 4;
                                    rq_durable := false; rq_internal := true |} ] = Ok (out, st') /\
    Forall (fun x => x.1 <> 0) out /\
    (forall i j x y, i <> j -> out !! i = Some x -> out !! j = Some y -> disjoint_extents x y).
Proof.
  apply allocs_never_twice.
  apply Forall_cons; split; [|apply Forall_cons; split; [|apply Forall_nil_2]];
    (split; [|split]); cbn; try (split; reflexivity || discriminate); right; [by exists 3|by exists 2].
Defined.

(** the functional behaviour of one call.  The returned index is the
    thread's pool rounded up to the alignment whenever the extent fits below
    the limit, and then the pool moves to the end of the extent; otherwise the
    call returns null and hands out nothing.  The tests on wrapped 64-bit sums
    never confuse the two cases. *)
Theorem alloc_first_fit st r : state_ok st -> request_ok r ->
  exists a st', alloc st r = Ok (a, st') /\
    let p := poolOf st (rq_kind r) (rq_thread r) in
    let i := roundUp (Z.max (rq_align r) 1) p in
    (a = 0 <-> SAddr.allocLimit <= i + rq_size r) /\
    (a <> 0 -> SAddr.indexField a = i /\ SAddr.threadField a = rq_thread r /\
       i mod Z.max (rq_align r) 1 = 0) /\
    poolOf st' (rq_kind r) (rq_thread r) = (if SAddr.isNull a then p else i + rq_size r) /\
    (forall k t, t <> rq_thread r \/ isStaticKind k <> isStaticKind (rq_kind r) ->
       poolOf st' k t = poolOf st k t).
Proof.
  intros Hst Hr. destruct (alloc_step st r Hst Hr) as (a & st' & E & _ & _ & Ha).
  exists a, st'. split; [done|]. rewrite (alloc_closed st r Hst Hr) in E.
  destruct Hr as (Ht & Hs & Hal). destruct (Hst (rq_kind r) (rq_thread r)) as [Hp Hp1].
  destruct (roundUp_spec (Z.max (rq_align r) 1) (poolOf st (rq_kind r) (rq_thread r)) ltac:(lia)) as [Hi Hm].
  set (p := poolOf _ _ _) in *. set (i := roundUp _ _) in *. unfold in_word in Hp. cbn zeta.
  assert (Hother : forall q k t, t <> rq_thread r \/ isStaticKind k <> isStaticKind (rq_kind r) ->
    poolOf (setPool st (rq_kind r) (rq_thread r) q) k t = poolOf st k t).
  { intros q k t Hkt. rewrite poolOf_setPool, decide_False by intuition congruence. done. }
  assert (Hself : forall q, poolOf (setPool st (rq_kind r) (rq_thread r) q) (rq_kind r) (rq_thread r) = q).
  { intros q. by rewrite poolOf_setPool, decide_True by done. }
  case_decide as Hf; injection E as <- <-; change SAddr.allocLimit with (2 ^ 32 - 1) in *.
  2: { rewrite Hself. split_and!; try done; try lia. by apply Hother. }
  assert (Hnz : SAddr.layout (storageOf (rq_kind r)) (rq_thread r) i (rq_durable r) (rq_internal r) <> 0).
  { apply layout_nonnull; change SAddr.allocLimit with (2 ^ 32 - 1); [done|lia|].
    intros E. specialize (Hp1 E). lia. }
  rewrite Hself. unfold SAddr.isNull. replace (_ =? 0) with false by lia.
  split_and!; [lia| |done|apply Hother]. intros _.
  destruct (SAddr.layout_fields (storageOf (rq_kind r)) (rq_thread r) i (rq_durable r) (rq_internal r))
    as (q & Hq & -> & _); [apply storageOf_ok|done|change SAddr.allocLimit with (2 ^ 32 - 1); lia|].
  change SAddr.threadLimit with (2 ^ 28 - 1) in Ht.
  split_and!; [|apply SAddr.threadField_layout; lia|done].
  unfold SAddr.indexField. change SAddr.indexMask with (2 ^ 32 - 1). by rewrite land_low by lia.
Qed.

Lemma alloc_first_fit_witness :
  let r := {| rq_kind := Static; rq_thread := 0; rq_size := 16; rq_align := 8;
              rq_durable := true; rq_internal := false |} in
  exists a st', alloc empty r = Ok (a, st') /\
    (a = 0 <-> SAddr.allocLimit <= roundUp (Z.max 8 1) (poolOf empty Static 0) + 16).
Proof.
  destruct (alloc_first_fit empty {| rq_kind := Static; rq_thread := 0; rq_size := 16; rq_align := 8;
              rq_durable := true; rq_internal := false |}) as (a & st' & E & H & _).
  - apply empty_ok.
  - split; [|split]; cbn; try (split; reflexivity || discriminate). right. by exists 3.
  - exists a, st'. split; [exact E|exact H].
Defined.

End SAddrAllocator.
