(* ===== verification/Events.v ===== *)
(** * Events and stamps

    Models Execution/Event.hpp and Execution/Stamp.hpp.  An event is the position
    of a label in a graph, a thread and an index; a stamp is a 32-bit counter that
    records in which order labels were added. *)

From S2P Require Import Prelude.
Local Open Scope Z_scope.

Module Event.

(** Both fields are [int]s, -17 by default so that a default event is never a
    real one; an index of -1 stands for the start of time. *)
Record t := Event { thread : Z; index : Z }.

#[global] Instance eq_dec : EqDecision t.
Proof. solve_decision. Defined.
#[global] Program Instance countable : Countable t := {|
  encode e := encode (thread e, index e);
  decode p := '(a, b) ← decode p; Some (Event a b) |}.
Next Obligation. intros []. cbn. by rewrite decode_encode. Qed.

Definition DEF_IDX : Z := -17.
Definition default : t := Event DEF_IDX DEF_IDX.
Definition getInit : t := Event 0 0.
Definition isInitializer (e : t) : bool := bool_decide (e = getInit).
Definition prev (e : t) : t := Event (thread e) (index e - 1).
Definition next (e : t) : t := Event (thread e) (index e + 1).

(** [operator<=>] is defaulted: lexicographic, the thread first. *)
Definition lt (a b : t) : bool :=
  (thread a <? thread b) || ((thread a =? thread b) && (index a <? index b)).

(** [std::max]: the first argument unless it is smaller. *)
Definition max (a b : t) : t := if lt a b then b else a.

#[global] Program Instance ord : TotalOrd t := {| ltb := lt |}.
Next Obligation. intros [a b]. unfold lt. cbn. lia. Qed.
Next Obligation. intros [] [] []. unfold lt. cbn. lia. Qed.
Next Obligation.
  intros [a b] [c d]. unfold lt. cbn.
  destruct (decide (a = c)) as [->|]; [|lia]. destruct (decide (b = d)) as [->|]; [auto|lia].
Qed.

Lemma isInitializer_spec e : isInitializer e = true <-> e = getInit.
Proof. unfold isInitializer. by rewrite bool_decide_eq_true. Qed.

End Event.

Module Stamp.

Definition t := Z.
Definition get (s : t) : Z := s.
(** [operator+] and [operator-] on [uint32_t]. *)
Definition add (s : t) (v : Z) : t := wrap 32 (s + v).
Definition sub (s : t) (v : Z) : t := wrap 32 (s - v).
Definition incr (s : t) : t := add s 1.
Definition decr (s : t) : t := sub s 1.

Lemma decr_incr s : in_word 32 s -> decr (incr s) = s.
Proof.
  intros. unfold decr, incr, add, sub. replace (wrap 32 (s + 1) - 1) with (wrap 32 (s + 1) - wrap 32 1) by done.
  rewrite wrap_sub by lia. rewrite wrap_small; [lia|]. by replace (s + 1 - 1) with s by lia.
Qed.

End Stamp.

(** Attributes of allocations (Support/ActionEnums.hpp). *)
Module EventAttr.
Inductive StorageDuration := SD_Static | SD_Automatic | SD_Heap | SD_StorageLast.
Inductive StorageType := ST_Volatile | ST_Durable | ST_StorageLast.
Inductive AddressSpace := AS_User | AS_Internal.
End EventAttr.
Export EventAttr.
