(* ===== verification/VSet.v ===== *)
(** * Sets as sorted vectors

    Models ADT/VSet.hpp: a set kept as a sorted [std::vector].  The bulk operations
    walk two vectors at once, in place; they are modelled as the loops they are and
    proved to be the set operations. *)

From S2P Require Import Prelude.

Module VSet.

Section vset.
Context {T : Type} `{TotalOrd T}.

(** A set is its only field [vset_], a [list T]. *)

(** [std::lower_bound]: the first position whose element is not below [el]; the
    standard library requires a partitioned range, which a sorted one is. *)
Fixpoint lower_bound (v : list T) (el : T) : nat :=
  match v with
  | [] => 0
  | x :: v => if ltb x el then S (lower_bound v el) else 0
  end.

(** [end()] is [None]. *)
Definition find (v : list T) (el : T) : option nat :=
  let it := lower_bound v el in
  match v !! it with
  | None => None
  | Some x => if decide (x = el) then Some it else None
  end.
Definition count (v : list T) (el : T) : nat := match find v el with Some _ => 1 | None => 0 end.
Definition contains (v : list T) (el : T) : bool := match find v el with Some _ => true | None => false end.

(** [std::vector::insert(it, el)] and [erase(it)]. *)
Definition insert_at (v : list T) (it : nat) (el : T) : list T := take it v ++ el :: drop it v.
Definition erase_at (v : list T) (it : nat) : list T := take it v ++ drop (S it) v.

(** The new vector and whether the element was added. *)
Definition insert (v : list T) (el : T) : list T * bool :=
  let it := lower_bound v el in
  match v !! it with
  | Some x => if decide (x = el) then (v, false) else (insert_at v it el, true)
  | None => (insert_at v it el, true)
  end.

Definition erase (v : list T) (el : T) : list T * nat :=
  let it := lower_bound v el in
  match v !! it with
  | Some x => if decide (x = el) then (erase_at v it, 1) else (v, 0)
  | None => (v, 0)
  end.

(** [size() && max() < *begin]: [push_back] when the element goes last. *)
Definition push_or_insert (v : list T) (el : T) : list T :=
  match last v with
  | Some m => if ltb m el then v ++ [el] else (insert v el).1
  | None => (insert v el).1
  end.
(** The range constructor, the initializer list and the ranged insert. *)
Definition insert_range (v : list T) (els : list T) : list T := foldl push_or_insert v els.
Definition of_range (els : list T) : list T := insert_range [] els.

(** The constructor from an rvalue vector sorts in place. *)
Definition of_rvalue (v : list T) : list T :=
  merge_sort leb v.

(** *** Bulk insertion *)

(** The counting pass: how many elements of [b] are not in [a].  The iterators
    are the suffixes they point at. *)
Fixpoint count_new (a b : list T) (count : nat) {struct a} : nat :=
  let fix go_b (b : list T) (count : nat) {struct b} : nat :=
    match a, b with
    | x :: a', y :: b' =>
        if ltb x y then count_new a' b count
        else if decide (x = y) then count_new a' b' count
        else go_b b' (S count)
    | _, _ => count + length b
    end in
  go_b b count.

(** [vset_[k]] for an [int] [k]: undefined out of range. *)
Definition at_ (v : list T) (k : Z) : res T :=
  if (k <? 0)%Z then Abort Undefined else deref (v !! Z.to_nat k).

(** The filling pass, from the last cell down; [fuel] is [i + 1].  The two
    indices are [int]s and reach -1. *)
Fixpoint fill (fuel : nat) (v s : list T) (idxA idxB : Z) : res (list T) :=
  match fuel with
  | 0 => Ok v
  | S i =>
      less ← (if (idxA <? 0)%Z then Ok true
              else if (idxB <? 0)%Z then Ok false
              else x ← at_ v idxA; y ← at_ s idxB; Ok (ltb x y) : res bool);
      if (less : bool) then
        y ← at_ s idxB; fill i (<[i := y]> v) s idxA (idxB - 1)
      else
        same ← (if (idxA <? 0)%Z || (idxB <? 0)%Z then Ok false
                else x ← at_ v idxA; y ← at_ s idxB; Ok (bool_decide (x = y)) : res bool);
        x ← at_ v idxA;
        if (same : bool) then fill i (<[i := x]> v) s (idxA - 1) (idxB - 1)
        else fill i (<[i := x]> v) s (idxA - 1) idxB
  end.

(** [insert(const VSet &)]: the new vector and the number of added elements. *)
Definition insert_set (v s : list T) : res (list T * nat) :=
  match v, s with
  | [], _ => Ok (s, length s)
  | _, [] => Ok (v, 0)
  | _, [el] => let r := insert v el in Ok (r.1, if r.2 then 1 else 0)
  | x0 :: _, _ =>
      let count := count_new v s 0 in
      if decide (count = 0) then Ok (v, 0)
      else
        let v' := v ++ replicate count x0 in
        r ← fill (length v') v' s (Z.of_nat (length v) - 1) (Z.of_nat (length s) - 1);
        Ok (r, count)
  end.

(** *** Bulk deletion *)

(** The first loop of [erase(const VSet &)]. *)
Fixpoint erase_loop (fuel : nat) (v s : list T) (a b aMov erased : nat)
    : res (list T * nat * nat * nat) :=
  if decide (a < length v /\ b < length s) then
    match fuel with
    | 0 => Abort OutOfFuel
    | S fuel =>
        x ← deref (v !! a); y ← deref (s !! b);
        if decide (x = y) then erase_loop fuel v s (S a) (S b) aMov (S erased)
        else if ltb x y then
          erase_loop fuel (if decide (aMov = a) then v else <[aMov := x]> v) s (S a) b (S aMov) erased
        else erase_loop fuel v s a (S b) aMov erased
    end
  else Ok (v, a, aMov, erased).

(** The second: what is left of [a] moves down. *)
Fixpoint erase_rest (fuel : nat) (v : list T) (a aMov : nat) : res (list T * nat) :=
  if decide (a < length v) then
    match fuel with
    | 0 => Abort OutOfFuel
    | S fuel => x ← deref (v !! a); erase_rest fuel (<[aMov := x]> v) (S a) (S aMov)
    end
  else Ok (v, aMov).

Definition erase_set (v s : list T) : res (list T * nat) :=
  match v, s with
  | [], _ | _, [] => Ok (v, 0)
  | _, _ =>
      '(v', a, aMov, erased) ← erase_loop (length v + length s) v s 0 0 0 0;
      if decide (aMov = a) then Ok (v', erased)
      else
        '(v'', aMov') ← erase_rest (length v) v' a aMov;
        Ok (take aMov' v'', erased)
  end.

(** *** Comparisons and combinations *)

Fixpoint subset_loop (a b : list T) {struct b} : bool :=
  match a with
  | [] => true
  | x :: a' =>
      if decide (length b < length a) then false else
      match b with
      | [] => false
      | y :: b' => if ltb x y then false else if decide (x = y) then subset_loop a' b' else subset_loop a b'
      end
  end.
Definition subsetOf (v s : list T) : bool :=
  if decide (length s < length v) then false else subset_loop v s.

Fixpoint intersects (a b : list T) {struct a} : bool :=
  let fix go_b (b : list T) : bool :=
    match a, b with
    | x :: a', y :: b' =>
        if decide (x = y) then true else if ltb x y then intersects a' b else go_b b'
    | _, _ => false
    end in
  go_b b.

Fixpoint intersect_loop (a b : list T) (result : list T) {struct a} : list T :=
  let fix go_b (b : list T) (result : list T) : list T :=
    match a, b with
    | x :: a', y :: b' =>
        if decide (x = y) then intersect_loop a' b' (insert result x).1
        else if ltb x y then intersect_loop a' b result else go_b b' result
    | _, _ => result
    end in
  go_b b result.
Definition intersectWith (v s : list T) : list T := intersect_loop v s [].

Definition diff (v s : list T) : list T :=
  foldl (fun result e => if contains s e then result else (insert result e).1) [] v.

Definition min (v : list T) : res T := deref (v !! 0).
Definition max (v : list T) : res T := deref (last v).
(** *** Single elements: the operations, by cases on the vector *)
Lemma insert_cons x v el :
  insert (x :: v) el =
    if ltb x el then (x :: (insert v el).1, (insert v el).2)
    else if decide (x = el) then (x :: v, false) else (el :: x :: v, true).
Proof.
  unfold insert. cbn [lower_bound]. destruct (ltb x el); [|done].
  change ((x :: v) !! S (lower_bound v el)) with (v !! lower_bound v el).
  destruct (v !! lower_bound v el); [case_decide|]; done.
Qed.

Lemma erase_cons x v el :
  erase (x :: v) el =
    if ltb x el then (x :: (erase v el).1, (erase v el).2)
    else if decide (x = el) then (v, 1) else (x :: v, 0).
Proof.
  unfold erase. cbn [lower_bound]. destruct (ltb x el); [|done].
  change ((x :: v) !! S (lower_bound v el)) with (v !! lower_bound v el).
  destruct (v !! lower_bound v el); [case_decide|]; done.
Qed.

Lemma contains_cons x v el :
  contains (x :: v) el = if ltb x el then contains v el else bool_decide (x = el).
Proof.
  unfold contains, find. cbn [lower_bound]. destruct (ltb x el).
  - change ((x :: v) !! S (lower_bound v el)) with (v !! lower_bound v el).
    destruct (v !! lower_bound v el); [case_decide|]; done.
  - cbn. case_decide; by case_bool_decide.
Qed.

Lemma contains_spec v el : increasing v -> contains v el = true <-> el ∈ v.
Proof.
  induction v as [|x v IH]; [cbn; set_solver|]. rewrite increasing_cons, contains_cons, elem_of_cons.
  intros [Hv Hx]. rewrite Forall_forall in Hx. destruct (ltb x el) eqn:E.
  - rewrite IH by done. apply ltb_ne in E. naive_solver.
  - rewrite bool_decide_eq_true. split; [auto|]. intros [->|Hin]; [done|]. specialize (Hx _ Hin). congruence.
Qed.

Lemma elem_insert v el x : x ∈ (insert v el).1 <-> x = el \/ x ∈ v.
Proof.
  induction v as [|y v IH]; [cbn; set_solver|]. rewrite insert_cons.
  destruct (ltb y el); cbn; [set_solver|]. case_decide; set_solver.
Qed.

Lemma insert_increasing v el : increasing v -> increasing (insert v el).1.
Proof.
  induction v as [|y v IH]; [cbn; repeat constructor|]. rewrite insert_cons, increasing_cons.
  intros [Hv Hy]. destruct (ltb y el) eqn:E; cbn.
  - rewrite increasing_cons, Forall_forall. split; [auto|]. intros z [->|Hz]%elem_insert; [done|].
    by rewrite Forall_forall in Hy; apply Hy.
  - case_decide as D; cbn; rewrite !increasing_cons; [done|]. split_and!; [done..|].
    apply ltb_flip in E; [|done]. constructor; [done|].
    eapply Forall_impl; [done|]. intros z Hz. by eapply ltb_trans.
Qed.

Lemma insert_flag v el : increasing v -> (insert v el).2 = negb (contains v el).
Proof.
  induction v as [|y v IH]; [done|]. rewrite insert_cons, contains_cons, increasing_cons. intros [Hv _].
  destruct (ltb y el); cbn; [auto|]. case_decide; by case_bool_decide.
Qed.

Lemma elem_erase v el x : increasing v -> x ∈ (erase v el).1 <-> x ∈ v /\ x <> el.
Proof.
  induction v as [|y v IH]; [cbn; set_solver|]. rewrite erase_cons, increasing_cons.
  intros [Hv Hy]. rewrite Forall_forall in Hy. destruct (ltb y el) eqn:E; cbn.
  - rewrite !elem_of_cons, IH by done. apply ltb_ne in E. naive_solver.
  - case_decide as D; cbn; rewrite elem_of_cons.
    + subst. split; [|naive_solver]. intros Hx. split; [auto|]. intros ->. by apply (ltb_ne _ _ (Hy _ Hx)).
    + split; [|naive_solver]. intros [->|Hx]; [auto|]. split; [auto|]. intros ->.
      specialize (Hy _ Hx). congruence.
Qed.

Lemma erase_increasing v el : increasing v -> increasing (erase v el).1.
Proof.
  induction v as [|y v IH]; [done|]. rewrite erase_cons, increasing_cons. intros [Hv Hy].
  destruct (ltb y el) eqn:E; cbn; [|by case_decide; cbn; rewrite ?increasing_cons].
  rewrite increasing_cons, Forall_forall in *. split; [auto|]. intros z [Hz _]%elem_erase; auto.
Qed.

Lemma erase_count v el : increasing v -> (erase v el).2 = count v el.
Proof.
  unfold count. intros Hv. transitivity (if contains v el then 1 else 0); [|unfold contains; by destruct (find v el)].
  induction v as [|y v IH]; [done|]. rewrite erase_cons, contains_cons.
  apply increasing_cons in Hv as [Hv _].
  destruct (ltb y el); cbn; [auto|]. case_decide; by case_bool_decide.
Qed.

Lemma push_or_insert_spec v el : increasing v ->
  increasing (push_or_insert v el) /\ forall x, x ∈ push_or_insert v el <-> x = el \/ x ∈ v.
Proof.
  intros Hv. unfold push_or_insert. destruct (last v) as [m|] eqn:Em.
  2: { split; [by apply insert_increasing|]. intros. apply elem_insert. }
  destruct (ltb m el) eqn:E; [|split; [by apply insert_increasing|intros; apply elem_insert]].
  split; [|set_solver]. apply last_Some in Em as [l ->]. rewrite increasing_snoc. split; [done|].
  apply increasing_snoc in Hv as [_ Hl]. rewrite Forall_app. split; [|by repeat constructor].
  eapply Forall_impl; [done|]. intros z Hz. by apply (ltb_trans _ m).
Qed.

Lemma insert_range_spec els : forall v, increasing v ->
  increasing (insert_range v els) /\ forall x, x ∈ insert_range v els <-> x ∈ els \/ x ∈ v.
Proof.
  induction els as [|e els IH]; intros v Hv; cbn; [set_solver|].
  destruct (push_or_insert_spec v e Hv) as [Hp He]. destruct (IH _ Hp) as [Hi Hx].
  split; [done|]. intros x. unfold insert_range in Hx. rewrite Hx, He. set_solver.
Qed.

(** *** Bulk insertion *)

(** The reference: the union of two sorted vectors given from the back. *)
Fixpoint runion (a b : list T) {struct a} : list T :=
  let fix go_b (b : list T) : list T :=
    match a, b with
    | x :: a', y :: b' =>
        if ltb x y then y :: go_b b' else if decide (x = y) then x :: runion a' b' else x :: runion a' b
    | [], _ => b
    | _, [] => a
    end in
  go_b b.

Lemma runion_nil_l b : runion [] b = b.
Proof. by destruct b. Qed.
Lemma runion_nil_r a : runion a [] = a.
Proof. by destruct a. Qed.
Lemma runion_cons x a y b :
  runion (x :: a) (y :: b) =
    if ltb x y then y :: runion (x :: a) b
    else if decide (x = y) then x :: runion a b else x :: runion a (y :: b).
Proof. done. Qed.

Lemma runion_length a b : length a <= length (runion a b).
Proof.
  revert b. induction a as [|x a IHa]; [intros; cbn; lia|].
  induction b as [|y b IHb]; [cbn; lia|]. rewrite runion_cons.
  destruct (ltb x y); [cbn in *; lia|]. case_decide; cbn; [specialize (IHa b)|specialize (IHa (y :: b))]; lia.
Qed.

Lemma elem_runion a b x : x ∈ runion a b <-> x ∈ a \/ x ∈ b.
Proof.
  revert b. induction a as [|y a IHa]; intros b; [rewrite runion_nil_l; set_solver|].
  induction b as [|z b IHb]; [rewrite runion_nil_r; set_solver|]. rewrite runion_cons.
  destruct (ltb y z); [rewrite elem_of_cons, IHb; set_solver|].
  case_decide; rewrite elem_of_cons, IHa; set_solver.
Qed.

(** Vectors read from the back decrease. *)
Lemma rev_cons_increasing x l : increasing (rev (x :: l)) <-> increasing (rev l) /\ Forall (fun y => y ≺ x) l.
Proof.
  cbn. rewrite increasing_snoc, !Forall_forall.
  split; intros [? Hx]; split; try done; intros y Hy; apply Hx;
    by apply list_elem_of_In; apply list_elem_of_In in Hy; rewrite <- in_rev in *.
Qed.

Lemma runion_increasing a b :
  increasing (rev a) -> increasing (rev b) -> increasing (rev (runion a b)).
Proof.
  revert b. induction a as [|x a IHa]; intros b Ha; [by rewrite runion_nil_l|].
  induction b as [|y b IHb]; intros Hb; [by rewrite runion_nil_r|]. rewrite runion_cons.
  pose proof Ha as [Ha' Hx]%rev_cons_increasing. pose proof Hb as [Hb' Hy]%rev_cons_increasing.
  rewrite Forall_forall in Hx, Hy.
  destruct (ltb x y) eqn:E; [|case_decide as D]; rewrite rev_cons_increasing, Forall_forall; split; auto;
    intros z [Hz|Hz]%elem_runion; auto.
  - apply elem_of_cons in Hz as [->|Hz]; [done|]. by eapply ltb_trans; [apply Hx|].
  - subst. auto.
  - apply ltb_flip in E; [|done]. apply elem_of_cons in Hz as [->|Hz]; [done|].
    by eapply ltb_trans; [apply Hy|].
Qed.

Lemma rev_take_S (l : list T) n x : l !! n = Some x -> rev (take (S n) l) = x :: rev (take n l).
Proof. intros E. by rewrite (take_S_r _ _ _ E), rev_app_distr. Qed.

Lemma at_nat (v : list T) n x : v !! n = Some x -> at_ v (Z.of_nat (S n) - 1) = Ok x.
Proof.
  intros E. unfold at_. destruct (Z.ltb_spec (Z.of_nat (S n) - 1) 0); [lia|].
  replace (Z.to_nat (Z.of_nat (S n) - 1)) with n by lia. by rewrite E.
Qed.

Lemma drop_insert_self (v : list T) i y : i < length v -> drop i (<[i:=y]> v) = y :: drop (S i) v.
Proof.
  intros Hi. rewrite (drop_S _ y i) by (by rewrite list_lookup_insert_eq by lia).
  by rewrite drop_insert_lt by lia.
Qed.

(** The filling pass writes the union: cells at and above [fuel] are final and
    the cells of [a] that are still to be read have not been overwritten. *)
Lemma fill_spec s fuel : forall v na nb,
  na <= length v -> nb <= length s -> fuel <= length v ->
  length (runion (rev (take na v)) (rev (take nb s))) = fuel ->
  fill fuel v s (Z.of_nat na - 1) (Z.of_nat nb - 1) =
    Ok (rev (runion (rev (take na v)) (rev (take nb s))) ++ drop fuel v).
Proof.
  induction fuel as [|i IH]; intros v na nb Hna Hnb Hf Hl.
  { apply length_zero_iff_nil in Hl. by rewrite Hl. }
  pose proof (runion_length (rev (take na v)) (rev (take nb s))) as Hlen.
  rewrite Hl, length_rev, length_take_le in Hlen by done. cbn [fill].
  (* one step: the cell at [i] gets the head of the union *)
  assert (Hstep : forall y na' nb', na' <= na -> na' <= i -> nb' <= nb ->
    runion (rev (take na v)) (rev (take nb s)) = y :: runion (rev (take na' v)) (rev (take nb' s)) ->
    fill i (<[i:=y]> v) s (Z.of_nat na' - 1) (Z.of_nat nb' - 1) =
      Ok (rev (runion (rev (take na v)) (rev (take nb s))) ++ drop (S i) v)).
  { intros y na' nb' H1 H2 H3 E. rewrite E in Hl |- *. injection Hl as Hl.
    assert (Ht : take na' (<[i:=y]> v) = take na' v) by (rewrite take_insert, decide_False by lia; done).
    rewrite IH; rewrite ?length_insert, ?Ht; try lia.
    rewrite drop_insert_self by lia. cbn. by rewrite <- app_assoc. }
  destruct na as [|na].
  - rewrite take_0 in Hl. cbn [rev] in Hl. rewrite runion_nil_l, length_rev, length_take_le in Hl by done.
    subst nb. destruct (lookup_lt_is_Some_2 s i ltac:(lia)) as [y Hy].
    cbn [Z.of_nat Z.ltb mbind res_bind]. change (0 - 1 <? 0)%Z with true. cbn [mbind res_bind].
    rewrite (at_nat _ _ _ Hy). cbn [mbind res_bind].
    replace (Z.of_nat (S i) - 1 - 1)%Z with (Z.of_nat i - 1)%Z by lia.
    apply (Hstep y 0 i); try lia. by rewrite take_0, !runion_nil_l, (rev_take_S _ _ _ Hy).
  - replace (Z.of_nat (S na) - 1 <? 0)%Z with false by lia.
    destruct (lookup_lt_is_Some_2 v na ltac:(lia)) as [x Hx].
    rewrite (at_nat _ _ _ Hx). rewrite (rev_take_S _ _ _ Hx) in *.
    replace (Z.of_nat (S na) - 1 - 1)%Z with (Z.of_nat na - 1)%Z by lia.
    destruct nb as [|nb].
    + change (Z.of_nat 0 - 1 <? 0)%Z with true. cbn [mbind res_bind orb].
      apply (Hstep x na 0); try lia. by rewrite take_0, !runion_nil_r.
    + replace (Z.of_nat (S nb) - 1 <? 0)%Z with false by lia.
      destruct (lookup_lt_is_Some_2 s nb ltac:(lia)) as [y Hy].
      rewrite (at_nat _ _ _ Hy). rewrite (rev_take_S _ _ _ Hy) in *. rewrite runion_cons in *.
      replace (Z.of_nat (S nb) - 1 - 1)%Z with (Z.of_nat nb - 1)%Z by lia.
      cbn [mbind res_bind orb].
      destruct (ltb x y) eqn:E; [|destruct (decide (x = y)) as [->|D]].
      * pose proof (runion_length (x :: rev (take na v)) (rev (take nb s))) as Hm.
        cbn in Hl, Hm. rewrite length_rev, length_take_le in Hm by lia.
        apply (Hstep y (S na) nb); try lia. by rewrite (rev_take_S _ _ _ Hx).
      * rewrite bool_decide_true by done. apply (Hstep y na nb); try lia. done.
      * rewrite bool_decide_false by done. apply (Hstep x na (S nb)); try lia.
        by rewrite (rev_take_S _ _ _ Hy).
Qed.

(** The counting pass counts the elements that are new. *)
Lemma count_new_spec a b c : increasing a -> increasing b ->
  count_new a b c = c + length (filter (.∉ a) b).
Proof.
  revert b c. induction a as [|x a IHa]; intros b c Ha Hb.
  { replace (filter _ b) with b; [by destruct b|]. symmetry. apply list_filter_all. set_solver. }
  apply increasing_cons in Ha as Hax. destruct Hax as [Ha' Hx]. rewrite Forall_forall in Hx.
  revert c. induction b as [|y b IHb]; intros c; [cbn; lia|]. specialize (IHb ltac:(by inversion Hb)).
  apply increasing_cons in Hb as Hby. destruct Hby as [Hb' Hy]. rewrite Forall_forall in Hy.
  change (count_new (x :: a) (y :: b) c) with
    (if ltb x y then count_new a (y :: b) c
     else if decide (x = y) then count_new a b c else count_new (x :: a) b (S c)).
  destruct (ltb x y) eqn:E; [|case_decide as D].
  - rewrite IHa by done. do 2 f_equal. apply list_filter_iff'. intros z Hz.
    rewrite elem_of_cons. apply ltb_ne in E as Hne. split; [|naive_solver].
    intros Hza [->|]; [|done]. apply elem_of_cons in Hz as [->|Hz]; [done|].
    by apply (ltb_ne _ _ (ltb_trans _ _ _ E (Hy _ Hz))).
  - subst y. rewrite IHa by done. rewrite filter_cons_False by (rewrite elem_of_cons; naive_solver).
    do 2 f_equal. apply list_filter_iff'. intros z Hz. rewrite elem_of_cons.
    split; [|naive_solver]. intros Hza [->|]; [|done]. by apply (ltb_ne _ _ (Hy _ Hz)).
  - rewrite IHb, filter_cons_True; [cbn; lia|]. rewrite elem_of_cons. intros [?|Hin]; [done|].
    specialize (Hx _ Hin). congruence.
Qed.

Lemma runion_count a b : increasing a -> increasing b ->
  length (runion (rev a) (rev b)) = length a + length (filter (.∉ a) b).
Proof.
  intros Ha Hb. rewrite <- length_app. apply Permutation_length. apply NoDup_Permutation.
  - assert (increasing (rev (runion (rev a) (rev b)))) as Hn%increasing_NoDup
      by (apply runion_increasing; by rewrite rev_involutive).
    by rewrite (Permutation_rev (runion _ _)).
  - rewrite NoDup_app. split_and!; [by apply increasing_NoDup| |by apply NoDup_filter, increasing_NoDup].
    intros x Hx Hf. apply list_elem_of_filter in Hf. naive_solver.
  - intros x. rewrite elem_runion, elem_of_app, list_elem_of_filter, !elem_of_rev.
    destruct (decide (x ∈ a)); naive_solver.
Qed.

Lemma insert_set_spec v s : increasing v -> increasing s ->
  exists r, insert_set v s = Ok (r, length (filter (.∉ v) s)) /\
    increasing r /\ (forall x, x ∈ r <-> x ∈ v \/ x ∈ s).
Proof.
  intros Hv Hs. unfold insert_set. destruct v as [|x0 v0].
  { exists s. replace (filter _ s) with s; [split_and!; [done..|set_solver]|].
    symmetry. apply list_filter_all. set_solver. }
  set (v := x0 :: v0) in *. destruct s as [|y [|y' s0]].
  - exists v. split_and!; [done..|set_solver].
  - exists (insert v y).1. cbn zeta. rewrite insert_flag by done. split_and!.
    + destruct (contains v y) eqn:E; cbn [negb].
      * apply contains_spec in E; [|done]. by rewrite filter_cons_False by naive_solver.
      * rewrite filter_cons_True; [done|]. rewrite <- contains_spec by done. congruence.
    + by apply insert_increasing.
    + intros x. rewrite elem_insert. set_solver.
  - set (s := y :: y' :: s0) in *. rewrite count_new_spec by done. cbn [Nat.add].
    set (n := length (filter _ s)). destruct (decide (n = 0)) as [En|Hn].
    { exists v. rewrite En. split_and!; [done..|]. intros x. split; [auto|]. intros [|Hx]; [done|].
      destruct (decide (x ∈ v)) as [|Hni]; [done|exfalso]. apply length_zero_iff_nil in En.
      assert (x ∈ filter (.∉ v) s) as Hf by (by apply list_elem_of_filter).
      rewrite En in Hf. by apply not_elem_of_nil in Hf. }
    assert (Ht : take (length v) (v ++ replicate n x0) = v) by apply take_app_length.
    rewrite (fill_spec s _ (v ++ replicate n x0) (length v) (length s));
      rewrite ?Ht, ?length_app, ?length_replicate, ?(take_ge s) by lia; try lia.
    2: { rewrite runion_count by done. done. }
    eexists. cbn [mbind res_bind]. split; [reflexivity|].
    rewrite drop_ge, app_nil_r by (rewrite length_app, length_replicate; lia). split.
    + apply runion_increasing; by rewrite rev_involutive.
    + intros x. by rewrite elem_of_rev, elem_runion, !elem_of_rev.
Qed.

(** *** Bulk deletion *)

(** The reference: two sorted vectors walked from the front. *)
Fixpoint keep (a b : list T) {struct a} : list T :=
  let fix go_b (b : list T) : list T :=
    match a, b with
    | x :: a', y :: b' =>
        if decide (x = y) then keep a' b' else if ltb x y then x :: keep a' b else go_b b'
    | _, _ => a
    end in
  go_b b.

Lemma keep_nil_l b : keep [] b = [].
Proof. by destruct b. Qed.
Lemma keep_nil_r a : keep a [] = a.
Proof. by destruct a. Qed.
Lemma keep_cons x a y b :
  keep (x :: a) (y :: b) =
    if decide (x = y) then keep a b else if ltb x y then x :: keep a (y :: b) else keep (x :: a) b.
Proof. done. Qed.

Lemma keep_filter a b : increasing a -> increasing b -> keep a b = filter (.∉ b) a.
Proof.
  revert b. induction a as [|x a IHa]; intros b Ha; [by rewrite keep_nil_l|].
  apply increasing_cons in Ha as Hax. destruct Hax as [Ha' Hx]. rewrite Forall_forall in Hx.
  induction b as [|y b IHb]; intros Hb.
  { rewrite keep_nil_r. symmetry. apply list_filter_all. set_solver. }
  apply increasing_cons in Hb as Hby. destruct Hby as [Hb' Hy]. rewrite Forall_forall in Hy.
  rewrite keep_cons. case_decide as D; [|destruct (ltb x y) eqn:E].
  - subst y. rewrite IHa by done. rewrite filter_cons_False by (rewrite elem_of_cons; naive_solver).
    apply list_filter_iff'. intros z Hz. rewrite elem_of_cons. split; [|naive_solver].
    intros Hn [->|]; [|done]. by apply (ltb_ne _ _ (Hx _ Hz)).
  - rewrite IHa by done. rewrite filter_cons_True; [done|]. rewrite elem_of_cons. intros [?|Hin]; [done|].
    by apply (ltb_ne _ _ (ltb_trans _ _ _ E (Hy _ Hin))).
  - rewrite IHb by done. apply list_filter_iff'. intros z Hz. rewrite elem_of_cons.
    split; [|naive_solver]. intros Hn [->|]; [|done]. apply elem_of_cons in Hz as [?|Hz]; [done|].
    specialize (Hx _ Hz). congruence.
Qed.

(** The first loop: the kept prefix followed by the unread suffix is the
    result, the suffix being untouched. *)
Lemma erase_loop_spec s fuel : forall v a b aMov e,
  aMov <= a -> length v - a + (length s - b) <= fuel ->
  exists v' a' aMov' e', erase_loop fuel v s a b aMov e = Ok (v', a', aMov', e') /\
    length v' = length v /\ aMov' <= a' /\ a <= a' /\ (a <= length v -> a' <= length v) /\
    take aMov' v' ++ drop a' v' = take aMov v ++ keep (drop a v) (drop b s) /\
    e' + (aMov' + a) = e + (aMov + a') /\ e <= e' /\ (aMov' = a' -> take a' v' = take a' v /\ drop a' v' = drop a' v).
Proof.
  induction fuel as [|fuel IH]; intros v a b aMov e Hm Hf; cbn [erase_loop];
    case_decide as D; try lia.
  1,3: exists v, a, aMov, e; split_and!; try done; apply not_and_l in D as [D|D];
    first [rewrite (drop_ge v), keep_nil_l by lia|rewrite (drop_ge s), keep_nil_r by lia]; done.
  destruct D as [Ha Hb]. destruct (lookup_lt_is_Some_2 v a Ha) as [x Hx].
  destruct (lookup_lt_is_Some_2 s b Hb) as [y Hy]. rewrite Hx, Hy. cbn [deref mbind res_bind].
  rewrite (drop_S v x a), (drop_S s y b), keep_cons by done.
  case_decide as D; [subst y|destruct (ltb x y) eqn:E].
  - destruct (IH v (S a) (S b) aMov (S e)) as (v' & a' & m' & e' & -> & Hl & ? & ? & ? & Ht & ? & ? & Heq); [lia..|].
    exists v', a', m', e'. split_and!; try done; lia.
  - set (w := if decide (aMov = a) then v else <[aMov:=x]> v).
    assert (Hlw : length w = length v) by (unfold w; case_decide; by rewrite ?length_insert).
    assert (Hdw : forall k, aMov < k -> drop k w = drop k v)
      by (intros k Hk; unfold w; case_decide; [done|by rewrite drop_insert_lt]).
    assert (Htw : take (S aMov) w = take aMov v ++ [x]).
    { unfold w. case_decide as Dm; [subst; by rewrite (take_S_r v a x)|].
      rewrite (take_S_r _ aMov x) by (rewrite list_lookup_insert_eq by lia; done).
      by rewrite take_insert, decide_False by lia. }
    destruct (IH w (S a) b (S aMov) e) as (v' & a' & m' & e' & -> & Hl & ? & ? & ? & Ht & ? & ? & Heq); [lia..|].
    exists v', a', m', e'. split_and!; try done; try lia.
    + rewrite Ht, Htw, Hdw, <- app_assoc by lia. by rewrite (drop_S s y b).
    + intros Em. destruct (Heq Em) as [Hq1 Hq2]. rewrite Hq1, Hq2. split; [|apply Hdw; lia].
      assert (aMov = a) by lia. unfold w. by rewrite decide_True.
  - destruct (IH v a (S b) aMov e) as (v' & a' & m' & e' & -> & Hl & ? & ? & ? & Ht & ? & ? & Heq); [lia..|].
    exists v', a', m', e'. split_and!; try done. by rewrite Ht, (drop_S v x a).
Qed.

Lemma erase_rest_spec fuel : forall v a aMov,
  aMov < a -> length v - a <= fuel ->
  exists v' aMov', erase_rest fuel v a aMov = Ok (v', aMov') /\
    take aMov' v' = take aMov v ++ drop a v.
Proof.
  induction fuel as [|fuel IH]; intros v a aMov Hm Hf; cbn [erase_rest]; case_decide as D; try lia.
  1,3: exists v, aMov; split; [done|]; by rewrite (drop_ge v), app_nil_r by lia.
  destruct (lookup_lt_is_Some_2 v a D) as [x Hx]. rewrite Hx. cbn [deref mbind res_bind].
  destruct (IH (<[aMov:=x]> v) (S a) (S aMov)) as (v' & m' & -> & Ht); [lia|rewrite length_insert; lia|].
  exists v', m'. split; [done|]. rewrite Ht, drop_insert_lt, (drop_S v x a) by (done || lia).
  rewrite (take_S_r _ aMov x) by (by rewrite list_lookup_insert_eq by lia).
  rewrite take_insert, decide_False by lia. by rewrite <- app_assoc.
Qed.

Lemma filter_length_split (l s : list T) :
  length (filter (.∉ s) l) + length (filter (.∈ s) l) = length l.
Proof.
  induction l as [|x l IH]; [done|]. rewrite !filter_cons. repeat case_decide; cbn; try tauto; lia.
Qed.

Lemma erase_set_spec v s : increasing v -> increasing s ->
  erase_set v s = Ok (filter (.∉ s) v, length (filter (.∈ s) v)).
Proof.
  intros Hv Hs. unfold erase_set. destruct v as [|x v0]; [done|]. destruct s as [|y s0].
  { rewrite list_filter_all, list_filter_none by (intros; apply not_elem_of_nil). done. }
  set (v := x :: v0) in *. set (s := y :: s0) in *.
  destruct (erase_loop_spec s (length v + length s) v 0 0 0 0) as
    (v' & a' & m' & e' & -> & Hl & Hle & _ & Hb & Ht & He & _ & Heq); [lia..|].
  specialize (Hb ltac:(lia)). cbn [mbind res_bind]. rewrite take_0, !drop_0, keep_filter in Ht by done. cbn [app] in Ht.
  pose proof (f_equal length Ht) as Hlen. cbn [app] in Hlen. rewrite length_app, length_take, length_drop in Hlen.
  pose proof (filter_length_split v s) as Hsp.
  destruct (decide (m' = a')) as [E|E].
  - destruct (Heq E) as [Hq1 Hq2]. subst m'. rewrite take_drop in Ht. cbn [app] in Ht. rewrite <- Ht. repeat f_equal. lia.
  - destruct (erase_rest_spec (length v) v' a' m') as (v'' & m'' & -> & Hr); [lia..|].
    cbn [mbind res_bind]. rewrite Hr, Ht. repeat f_equal. lia.
Qed.

(** *** Comparisons and combinations *)
Lemma subset_loop_spec b : forall a, increasing a -> increasing b ->
  subset_loop a b = true <-> a ⊆ b.
Proof.
  induction b as [|y b IH]; intros [|x a] Ha Hb; cbn [subset_loop]; try (cbn; set_solver).
  apply increasing_cons in Ha as Hax. destruct Hax as [Ha' Hx]. rewrite Forall_forall in Hx.
  apply increasing_cons in Hb as Hby. destruct Hby as [Hb' Hy]. rewrite Forall_forall in Hy.
  case_decide as L.
  { split; [done|]. intros Hsub. pose proof (NoDup_submseteq (x :: a) (y :: b)
      ltac:(by apply increasing_NoDup) Hsub) as Hm%submseteq_length. cbn in *. lia. }
  destruct (ltb x y) eqn:E; [|case_decide as D].
  - split; [done|]. intros Hsub. assert (x ∈ y :: b) as Hin by (apply Hsub; left). exfalso.
    apply elem_of_cons in Hin as [->|Hin]; [by rewrite ltb_irrefl in E|].
    by apply (ltb_ne _ _ (ltb_trans _ _ _ E (Hy _ Hin))).
  - subst y. rewrite IH by done. split; [set_solver|]. intros Hsub z Hz.
    assert (z ∈ x :: b) as Hin by (apply Hsub; by right). apply elem_of_cons in Hin as [->|]; [|done].
    exfalso. by apply (ltb_ne _ _ (Hx _ Hz)).
  - rewrite IH by done. apply ltb_flip in E; [|done]. split; [set_solver|]. intros Hsub z Hz.
    pose proof (Hsub z Hz) as Hin. apply elem_of_cons in Hin as [->|]; [|done]. exfalso.
    apply elem_of_cons in Hz as [?|Hz]; [done|]. by apply (ltb_ne _ _ (ltb_trans _ _ _ E (Hx _ Hz))).
Qed.

Lemma subsetOf_spec v s : increasing v -> increasing s -> subsetOf v s = true <-> v ⊆ s.
Proof.
  intros Hv Hs. unfold subsetOf. case_decide as L; [|by apply subset_loop_spec].
  split; [done|]. intros Hsub.
  pose proof (NoDup_submseteq v s ltac:(by apply increasing_NoDup) Hsub) as Hm%submseteq_length. lia.
Qed.

Lemma intersect_loop_spec a : forall b r, increasing a -> increasing b -> increasing r ->
  increasing (intersect_loop a b r) /\
  (forall x, x ∈ intersect_loop a b r <-> x ∈ r \/ (x ∈ a /\ x ∈ b)) /\
  (intersects a b = true <-> exists x, x ∈ a /\ x ∈ b).
Proof.
  induction a as [|x a IHa]; intros b r Ha Hb Hr.
  { destruct b; cbn; set_solver. }
  revert r Hr. induction b as [|y b IHb]; intros r Hr; [cbn; set_solver|].
  specialize (IHb ltac:(by inversion Hb)).
  apply increasing_cons in Ha as Hax. destruct Hax as [Ha' Hx]. rewrite Forall_forall in Hx.
  apply increasing_cons in Hb as Hby. destruct Hby as [Hb' Hy]. rewrite Forall_forall in Hy.
  change (intersect_loop (x :: a) (y :: b) r) with
    (if decide (x = y) then intersect_loop a b (insert r x).1
     else if ltb x y then intersect_loop a (y :: b) r else intersect_loop (x :: a) b r).
  change (intersects (x :: a) (y :: b)) with
    (if decide (x = y) then true else if ltb x y then intersects a (y :: b) else intersects (x :: a) b).
  case_decide as D; [subst y|destruct (ltb x y) eqn:E].
  - destruct (IHa b (insert r x).1 Ha' Hb' (insert_increasing _ _ Hr)) as (I1 & I2 & _).
    split_and!; [done| |split; [intros _; exists x; set_solver|done]].
    intros z. rewrite I2, elem_insert, !elem_of_cons.
    assert (z ∈ a -> z <> x) by (intros Hz ->; by apply (ltb_ne _ _ (Hx _ Hz))).
    assert (z ∈ b -> z <> x) by (intros Hz ->; by apply (ltb_ne _ _ (Hy _ Hz))). naive_solver.
  - destruct (IHa (y :: b) r Ha' Hb Hr) as (I1 & I2 & I3).
    assert (x ∉ y :: b) as Hn.
    { rewrite elem_of_cons. intros [?|Hin]; [done|]. by apply (ltb_ne _ _ (ltb_trans _ _ _ E (Hy _ Hin))). }
    split_and!; [done| |].
    + intros z. rewrite I2, (elem_of_cons a). naive_solver.
    + rewrite I3. setoid_rewrite (elem_of_cons a). naive_solver.
  - destruct (IHb r Hr) as (I1 & I2 & I3). apply ltb_flip in E; [|done].
    assert (y ∉ x :: a) as Hn.
    { rewrite elem_of_cons. intros [?|Hin]; [done|]. by apply (ltb_ne _ _ (ltb_trans _ _ _ E (Hx _ Hin))). }
    split_and!; [done| |].
    + intros z. rewrite I2, (elem_of_cons b). naive_solver.
    + rewrite I3. setoid_rewrite (elem_of_cons b). naive_solver.
Qed.

Lemma diff_spec v s : increasing s ->
  increasing (diff v s) /\ forall x, x ∈ diff v s <-> x ∈ v /\ x ∉ s.
Proof.
  intros Hs. unfold diff.
  assert (forall r, increasing r ->
    increasing (foldl (fun result e => if contains s e then result else (insert result e).1) r v) /\
    forall x, x ∈ foldl (fun result e => if contains s e then result else (insert result e).1) r v <->
      x ∈ r \/ (x ∈ v /\ x ∉ s)) as Hg.
  { induction v as [|e v IH]; intros r Hr; cbn; [set_solver|].
    destruct (contains s e) eqn:E.
    - apply contains_spec in E; [|done]. destruct (IH r Hr) as [I1 I2]. split; [done|].
      intros x. rewrite I2, elem_of_cons. naive_solver.
    - assert (e ∉ s) by (rewrite <- contains_spec by done; congruence).
      destruct (IH _ (insert_increasing r e Hr)) as [I1 I2]. split; [done|].
      intros x. rewrite I2, elem_insert, elem_of_cons. naive_solver. }
  destruct (Hg [] ltac:(constructor)) as [I1 I2]. split; [done|]. intros x. rewrite I2. set_solver.
Qed.

(** the in-place bulk insertion of one set into another (count the new
    elements, enlarge the vector, fill it from the back) never reads or writes
    out of range, and leaves the sorted union of the two sets together with the
    number of added elements. *)
Theorem insert_set_union v s : increasing v -> increasing s ->
  exists r, insert_set v s = Ok (r, length (filter (.∉ v) s)) /\
    increasing r /\ (forall x, x ∈ r <-> x ∈ v \/ x ∈ s).
Proof. apply insert_set_spec. Qed.

(** the in-place bulk deletion terminates within the sum of the sizes, never
    leaves the vectors, and leaves exactly the elements outside the other set,
    in order, with the number of deleted ones. *)
Theorem erase_set_difference v s : increasing v -> increasing s ->
  erase_set v s = Ok (filter (.∉ s) v, length (filter (.∈ s) v)).
Proof. apply erase_set_spec. Qed.

(** insertion, deletion and lookup of an element keep the vector sorted
    and are those of a set; the returned flag and count say whether the set
    changed, and the constructor from a range sorts any range. *)
Theorem element_operations v el : increasing v ->
  (contains v el = true <-> el ∈ v) /\
  (increasing (insert v el).1 /\ (forall x, x ∈ (insert v el).1 <-> x = el \/ x ∈ v) /\
     ((insert v el).2 = true <-> el ∉ v)) /\
  (increasing (erase v el).1 /\ (forall x, x ∈ (erase v el).1 <-> x ∈ v /\ x <> el) /\
     ((erase v el).2 = 1 <-> el ∈ v)) /\
  (forall els, increasing (of_range els) /\ forall x, x ∈ of_range els <-> x ∈ els).
Proof.
  intros Hv. split_and!.
  - by apply contains_spec.
  - by apply insert_increasing.
  - intros. apply elem_insert.
  - rewrite insert_flag, <- contains_spec by done. destruct (contains v el); naive_solver.
  - by apply erase_increasing.
  - intros. by apply elem_erase.
  - rewrite erase_count, <- contains_spec by done. unfold count, contains. destruct (find v el); naive_solver.
  - intros els. destruct (insert_range_spec els [] ltac:(constructor)) as [? Hx].
    split; [done|]. intros x. unfold of_range. rewrite Hx. set_solver.
Qed.

(** Subset, intersection test, intersection and difference, each a walk
    over two sorted vectors, are the relations and operations on sets. *)
Theorem set_operations v s : increasing v -> increasing s ->
  (subsetOf v s = true <-> v ⊆ s) /\
  (intersects v s = true <-> exists x, x ∈ v /\ x ∈ s) /\
  (increasing (intersectWith v s) /\ forall x, x ∈ intersectWith v s <-> x ∈ v /\ x ∈ s) /\
  (increasing (diff v s) /\ forall x, x ∈ diff v s <-> x ∈ v /\ x ∉ s).
Proof.
  intros Hv Hs. destruct (intersect_loop_spec v s [] Hv Hs ltac:(constructor)) as (I1 & I2 & I3).
  split_and!; [by apply subsetOf_spec|done|done| |by apply diff_spec..].
  intros x. unfold intersectWith. rewrite I2. set_solver.
Qed.

End vset.

Lemma insert_set_union_witness :
  exists r, insert_set [1; 4; 9]%Z [2; 4; 10]%Z =
      Ok (r, length (filter (.∉ [1; 4; 9]%Z) [2; 4; 10]%Z)) /\
    increasing r /\ (forall x, x ∈ r <-> x ∈ [1; 4; 9]%Z \/ x ∈ [2; 4; 10]%Z).
Proof. apply (insert_set_union [1; 4; 9]%Z [2; 4; 10]%Z); repeat constructor. Defined.

Lemma erase_set_difference_witness :
  erase_set [1; 4; 9]%Z [2; 4; 10]%Z =
    Ok (filter (.∉ [2; 4; 10]%Z) [1; 4; 9]%Z, length (filter (.∈ [2; 4; 10]%Z) [1; 4; 9]%Z)).
Proof. apply (erase_set_difference [1; 4; 9]%Z [2; 4; 10]%Z); repeat constructor. Defined.

Lemma element_operations_witness : contains [1; 4; 9]%Z 4%Z = true <-> 4%Z ∈ [1; 4; 9]%Z.
Proof. apply (element_operations [1; 4; 9]%Z 4%Z). repeat constructor. Defined.

Lemma set_operations_witness : subsetOf [1; 9]%Z [1; 4; 9]%Z = true <-> [1; 9]%Z ⊆ [1; 4; 9]%Z.
Proof. apply (set_operations [1; 9]%Z [1; 4; 9]%Z); repeat constructor. Defined.

(** The constructor from an rvalue vector sorts without removing duplicates, so
    the same elements give a different "set" than the range constructor does. *)
Lemma of_rvalue_duplicates :
  of_rvalue [2; 1; 2]%Z = [1; 2; 2]%Z /\ of_range [2; 1; 2]%Z = [1; 2]%Z.
Proof. by vm_compute. Qed.
End VSet.
