(* ===== verification/Views.v ===== *)
(** * Views

    Models ADT/View.hpp and ADT/View.cpp.  A view maps a thread to the greatest
    index seen in it.  [ViewBase] is a trimmed vector; [View] is a pointer to a
    shared, reference-counted [ViewBase] plus one pending event, copied on write.
    The sharing is modelled: a store of bases and a table of views, the reference
    count of a base being the number of views that point to it. *)

From S2P Require Import Prelude Events.
Local Open Scope Z_scope.

(** ** The base: a vector without trailing zeros *)
Module ViewBase.

Definition t := list Z.

Definition size (v : list Z) : Z := Z.of_nat (length v).
Definition empty (v : list Z) : bool := bool_decide (v = []).

(** A negative thread would read before the vector. *)
Definition getMax (v : list Z) (thread : Z) : res Z :=
  if decide (thread < size v) then vec_at v thread else Ok 0.
Definition contains (v : list Z) (e : Event.t) : res bool :=
  m ← getMax v (Event.thread e); Ok (Event.index e <=? m).

(** [contains(const ViewBase &)]: a longer view is taken to have seen more. *)
Definition contains_view (a b : list Z) : bool :=
  if decide (size a < size b) then false
  else forallb (fun p => negb (fst p <? snd p)) (zip a b).

(** [resize(n, 0)] to a larger size. *)
Definition grow (v : list Z) (n : nat) : list Z := v ++ replicate (n - length v) 0.

Fixpoint trim (v : list Z) : list Z :=
  match v with
  | [] => []
  | x :: v => match trim v with
              | [] => if x =? 0 then [] else [x]
              | v' => x :: v'
              end
  end.

Definition setMax (v : list Z) (e : Event.t) : res (list Z) :=
  verify (0 <=? Event.thread e);;
  if decide (Event.index e = 0 /\ size v <= Event.thread e) then Ok v
  else
    let v := if decide (size v <= Event.thread e) then grow v (Z.to_nat (Event.thread e) + 1) else v in
    v ← vec_set v (Event.thread e) (Event.index e);
    Ok (if decide (Event.index e = 0 /\ Event.thread e = size v - 1) then trim v else v).

Definition updateIdx (v : list Z) (e : Event.t) : res (list Z) :=
  m ← getMax v (Event.thread e);
  if m <? Event.index e then setMax v e else Ok v.

(** The loop runs over the elements of the other view. *)
Fixpoint max_into (dst src : list Z) : list Z :=
  match dst, src with
  | x :: dst, y :: src => Z.max x y :: max_into dst src
  | _, _ => dst
  end.
Definition update (v w : list Z) : list Z :=
  if empty w then v else max_into (grow v (length w)) w.

Definition eqb (v w : list Z) : bool := bool_decide (v = w).

(** *** Specification: the clock a vector stands for *)
Definition clock (v : list Z) (t : Z) : Z := default 0 (v !! Z.to_nat t).

(** Indices are not negative and the last one is not zero. *)
Definition wf (v : list Z) : Prop := Forall (fun x => 0 <= x) v /\ last v <> Some 0.

Lemma clock_nonneg v t : wf v -> 0 <= clock v t.
Proof.
  intros [Hv _]. unfold clock. destruct (v !! Z.to_nat t) eqn:E; cbn; [|lia].
  by eapply Forall_lookup_1 in Hv.
Qed.

Lemma clock_ge v t : size v <= t -> clock v t = 0.
Proof. intros. unfold clock, size in *. by rewrite lookup_ge_None_2 by lia. Qed.

Lemma vb_getMax_ok v t : 0 <= t -> getMax v t = Ok (clock v t).
Proof.
  intros Ht. unfold getMax, vec_at, size. case_decide; [|rewrite clock_ge by (unfold size; lia); done].
  rewrite decide_False by lia. unfold clock.
  destruct (lookup_lt_is_Some_2 v (Z.to_nat t) ltac:(lia)) as [x Hx]. by rewrite Hx.
Qed.

Lemma vb_contains_ok v e : 0 <= Event.thread e ->
  contains v e = Ok (Event.index e <=? clock v (Event.thread e)).
Proof. intros. unfold contains. by rewrite vb_getMax_ok by done. Qed.

Lemma last_clock v x : last v = Some x -> clock v (size v - 1) = x.
Proof.
  intros E. rewrite last_lookup in E. unfold clock, size.
  replace (Z.to_nat (Z.of_nat (length v) - 1)) with (pred (length v)); [by rewrite E|].
  destruct v; [done|]. cbn. lia.
Qed.

(** Trimmed vectors are determined by their clocks. *)
Lemma clock_size v w : wf v -> (forall t, 0 <= t -> clock v t <= clock w t) -> size v <= size w.
Proof.
  intros [Hv Hl] H. destruct (last v) as [x|] eqn:E.
  2: { apply last_None in E as ->. unfold size. cbn. lia. }
  destruct (decide (size v <= size w)) as [|Hn]; [done|exfalso].
  assert (0 < size v) by (unfold size in *; destruct v; cbn in *; [done|lia]).
  specialize (H (size v - 1) ltac:(lia)). rewrite (last_clock _ _ E) in H.
  rewrite (clock_ge w) in H by lia.
  assert (0 <= x); [|assert (x = 0) by lia; congruence].
  rewrite last_lookup in E. by eapply Forall_lookup_1 in Hv.
Qed.

Lemma clock_ext v w : wf v -> wf w -> (forall t, 0 <= t -> clock v t = clock w t) -> v = w.
Proof.
  intros Hv Hw H. assert (size v = size w) as Hs.
  { apply Z.le_antisymm; apply clock_size; try done; intros; rewrite H by done; lia. }
  apply list_eq. intros i. specialize (H (Z.of_nat i) ltac:(lia)).
  unfold clock in H. rewrite !Nat2Z.id in H. unfold size in Hs.
  destruct (decide (i < length v)%nat) as [Hi|Hi].
  - destruct (lookup_lt_is_Some_2 v i Hi) as [x Hx].
    destruct (lookup_lt_is_Some_2 w i ltac:(lia)) as [y Hy]. rewrite Hx, Hy in *. cbn in H. congruence.
  - by rewrite !lookup_ge_None_2 by lia.
Qed.

Lemma zip_forallb a b : (length b <= length a)%nat ->
  forallb (fun p => negb (fst p <? snd p)) (zip a b) = true <->
  (forall i, default 0 (b !! i) <= default 0 (a !! i) \/ b !! i = None).
Proof.
  revert b. induction a as [|x a IH]; intros [|y b] Hl; cbn in Hl |- *; try lia.
  - split; [|done]. intros _ i. right. by rewrite lookup_nil.
  - split; [|done]. intros _ i. right. by rewrite lookup_nil.
  - rewrite andb_true_iff, IH by lia. split.
    + intros [H1 H2] [|i]; cbn; [left; lia|apply H2].
    + intros H. split; [specialize (H 0%nat) as [H|H]; cbn in H; [lia|done]|]. intros i. apply (H (S i)).
Qed.

Lemma contains_view_spec a b : wf a -> wf b ->
  contains_view a b = true <-> forall t, 0 <= t -> clock b t <= clock a t.
Proof.
  intros Ha Hb. unfold contains_view. case_decide as Hs.
  - split; [done|]. intros H. apply clock_size in H; [|done]. lia.
  - rewrite zip_forallb by (unfold size in Hs; lia). split.
    + intros H t Ht. unfold clock. destruct (H (Z.to_nat t)) as [H'|E]; [done|].
      rewrite E. cbn. by apply (clock_nonneg a t).
    + intros H i. left. specialize (H (Z.of_nat i) ltac:(lia)). unfold clock in H.
      by rewrite Nat2Z.id in H.
Qed.

Lemma trim_nil v : trim v = [] <-> Forall (fun x => x = 0) v.
Proof.
  induction v as [|x v IH]; cbn; [split; [constructor|done]|].
  rewrite Forall_cons, <- IH. destruct (trim v) as [|y v'] eqn:E.
  - destruct (Z.eqb_spec x 0); [naive_solver|split; [done|naive_solver]].
  - split; [done|]. intros [_ ?]. done.
Qed.

Lemma trim_spec v :
  (forall i, default 0 (trim v !! i) = default 0 (v !! i)) /\
  (Forall (fun x => 0 <= x) v -> wf (trim v)).
Proof.
  induction v as [|x v [IH1 IH2]]; cbn [trim]; [split; [done|]; intros; split; [constructor|done]|].
  destruct (trim v) as [|y v'] eqn:E.
  - assert (Hz : forall i, default 0 (v !! i) = 0).
    { apply trim_nil in E. intros i. destruct (v !! i) eqn:Ev; [|done].
      by eapply Forall_lookup_1 in E. }
    destruct (Z.eqb_spec x 0) as [->|Hx].
    + split; [intros [|i]; cbn; [done|by rewrite Hz]|]. intros _. split; [constructor|done].
    + split; [intros [|i]; cbn; [done|by rewrite Hz]|]. intros [Hx0 _]%Forall_cons.
      split; [by repeat constructor|]. cbn. congruence.
  - split; [intros [|i]; cbn; [done|apply IH1]|]. intros [Hx Hv]%Forall_cons.
    destruct (IH2 Hv) as [Hf Hl]. split; [by constructor|done].
Qed.

Lemma clock_grow v n t : clock (grow v n) t = clock v t.
Proof.
  unfold clock, grow. destruct (decide (Z.to_nat t < length v)%nat).
  - by rewrite lookup_app_l.
  - rewrite lookup_app_r, (lookup_ge_None_2 v) by lia. cbn.
    destruct (replicate _ _ !! _) as [x|] eqn:E; [|done].
    by apply lookup_replicate in E as [-> _].
Qed.

(** [setMax] replaces one index and leaves a trimmed vector. *)
Lemma setMax_spec v e : wf v -> 0 <= Event.thread e -> 0 <= Event.index e ->
  exists v', setMax v e = Ok v' /\ wf v' /\
    forall t, 0 <= t -> clock v' t = if decide (t = Event.thread e) then Event.index e else clock v t.
Proof.
  intros Hv Ht Hi. destruct e as [th ix]. cbn in *. unfold setMax. cbn.
  replace (0 <=? th) with true by lia. cbn [verify mbind res_bind].
  case_decide as H0.
  { exists v. split_and!; [done..|]. intros t Htt. case_decide; [|done].
    subst. destruct H0 as [-> H0]. by apply clock_ge. }
  set (g := if decide (size v <= th) then _ else v).
  assert (Hg : forall t, clock g t = clock v t).
  { intros t. unfold g. case_decide; [apply clock_grow|done]. }
  assert (Hgs : size g = Z.max (size v) (th + 1)).
  { unfold g, size in *. case_decide; [unfold grow; rewrite length_app, length_replicate|]; lia. }
  assert (Hgf : Forall (fun x => 0 <= x) g).
  { destruct Hv as [Hv _]. unfold g. case_decide; [|done]. apply Forall_app. split; [done|].
    apply Forall_replicate. lia. }
  unfold vec_set. rewrite decide_True by (unfold size in *; lia). cbn [mbind res_bind].
  set (w := <[Z.to_nat th := ix]> g).
  assert (Hwl : length w = length g) by apply length_insert.
  assert (Hws : size w = size g) by (unfold size; lia).
  assert (Hwc : forall t, 0 <= t -> clock w t = if decide (t = th) then ix else clock v t).
  { intros t Htt. rewrite <- Hg. unfold clock, w. case_decide as D.
    - subst. rewrite list_lookup_insert_eq by (unfold size in *; lia). done.
    - rewrite list_lookup_insert_ne by lia. done. }
  assert (Hwf : Forall (fun x => 0 <= x) w) by (apply Forall_insert; [done|lia]).
  case_decide as Hz.
  - exists (trim w). destruct (trim_spec w) as [T1 T2]. split_and!; [done|auto|].
    intros t Htt. rewrite <- Hwc by done. apply T1.
  - exists w. split_and!; [done| |done]. split; [done|].
    intros E. apply last_clock in E. rewrite Hws, Hwc in E by lia.
    case_decide as Hd; [lia|]. assert (size v = size g) as Hsv by lia.
    destruct Hv as [_ Hl]. apply Hl. rewrite <- Hsv in E.
    rewrite last_lookup. unfold clock, size in *.
    replace (Z.to_nat (Z.of_nat (length v) - 1)) with (pred (length v)) in E by lia.
    destruct (v !! pred (length v)) eqn:Ev; [cbn in E; congruence|].
    apply lookup_ge_None_1 in Ev. lia.
Qed.

Lemma updateIdx_spec v e : wf v -> 0 <= Event.thread e ->
  exists v', updateIdx v e = Ok v' /\ wf v' /\
    forall t, 0 <= t ->
      clock v' t = if decide (t = Event.thread e) then Z.max (clock v t) (Event.index e) else clock v t.
Proof.
  intros Hv Ht. unfold updateIdx. rewrite vb_getMax_ok by done. cbn [mbind res_bind].
  pose proof (clock_nonneg v (Event.thread e) Hv).
  destruct (Z.ltb_spec (clock v (Event.thread e)) (Event.index e)).
  - destruct (setMax_spec v e) as (v' & -> & ? & Hc); [done|done|lia|]. exists v'. split_and!; [done..|].
    intros t Htt. rewrite Hc by done. case_decide; [subst; lia|done].
  - exists v. split_and!; [done..|]. intros t Htt. case_decide; [subst; lia|done].
Qed.

Lemma max_into_spec a b : Forall (fun x => 0 <= x) a -> Forall (fun x => 0 <= x) b ->
  (length b <= length a)%nat ->
  length (max_into a b) = length a /\
  forall i, default 0 (max_into a b !! i) = Z.max (default 0 (a !! i)) (default 0 (b !! i)).
Proof.
  revert b. induction a as [|x a IH]; intros [|y b] Ha Hb Hl; cbn in Hl |- *; try lia.
  - split; [done|]. intros i. by rewrite lookup_nil.
  - split; [done|]. intros i. rewrite lookup_nil. cbn.
    destruct ((x :: a) !! i) eqn:E; cbn; [|done]. eapply Forall_lookup_1 in E; [|exact Ha]. cbn in E. lia.
  - apply Forall_cons in Ha as [Hx Ha], Hb as [Hy Hb]. destruct (IH b Ha Hb ltac:(lia)) as [L H].
    split; [by f_equal|]. intros [|i]; cbn; [done|apply H].
Qed.

Lemma clock_last_nonzero v : Forall (fun x => 0 <= x) v ->
  (size v = 0 \/ clock v (size v - 1) <> 0) -> wf v.
Proof.
  intros Hf H. split; [done|]. intros E. pose proof (last_clock _ _ E).
  destruct H as [H|H]; [|done]. unfold size in H. destruct v; cbn in *; [done|lia].
Qed.

(** [update] is the pointwise maximum. *)
Lemma update_spec v w : wf v -> wf w ->
  wf (update v w) /\ forall t, 0 <= t -> clock (update v w) t = Z.max (clock v t) (clock w t).
Proof.
  intros Hv Hw. unfold update, empty. case_bool_decide as E.
  { subst. split; [done|]. intros t Ht. pose proof (clock_nonneg v t Hv).
    unfold clock at 3. rewrite lookup_nil. cbn. lia. }
  assert (Hgf : Forall (fun x => 0 <= x) (grow v (length w))).
  { apply Forall_app. split; [by destruct Hv|]. apply Forall_replicate. lia. }
  assert (Hgl : length (grow v (length w)) = Nat.max (length v) (length w)).
  { unfold grow. rewrite length_app, length_replicate. lia. }
  destruct (max_into_spec (grow v (length w)) w Hgf) as [L H]; [by destruct Hw|lia|].
  set (u := max_into _ _) in *.
  assert (Hu : forall t, 0 <= t -> clock u t = Z.max (clock v t) (clock w t)).
  { intros t Ht. rewrite <- (clock_grow v (length w)). apply H. }
  split; [|done]. apply clock_last_nonzero.
  - apply Forall_lookup. intros i x Hx. specialize (H i). rewrite Hx in H. cbn in H.
    assert (0 <= default 0 (w !! i)); [|lia].
    destruct (w !! i) eqn:Ew; cbn; [|lia]. destruct Hw as [Hw _]. by eapply Forall_lookup_1 in Hw.
  - right. assert (Hsz : size u = Z.max (size v) (size w)) by (unfold size; lia).
    assert (0 < size w) by (unfold size; destruct w; cbn; [done|lia]).
    rewrite Hu by lia.
    assert (Hlast : forall z, wf z -> 0 < size z -> 0 < clock z (size z - 1)).
    { intros z Hz Hs. pose proof (clock_nonneg z (size z - 1) Hz). destruct Hz as [_ Hz].
      destruct (last z) as [x|] eqn:El; [|apply last_None in El; subst; unfold size in Hs; cbn in Hs; lia].
      rewrite (last_clock _ _ El) in *. assert (x <> 0) by congruence. lia. }
    pose proof (clock_nonneg v (size u - 1) Hv). pose proof (clock_nonneg w (size u - 1) Hw).
    destruct (decide (size v <= size w)).
    + pose proof (Hlast w Hw ltac:(lia)). replace (size u) with (size w) in * by lia. lia.
    + pose proof (Hlast v Hv ltac:(lia)). replace (size u) with (size v) in * by lia. lia.
Qed.

Lemma wf_nil : wf [].
Proof. split; [constructor|done]. Qed.

End ViewBase.

(** ** Views: shared bases, copied on write *)
Module View.

Definition loc := positive.
Definition vid := positive.

Record view := View { base_ : option loc; diff_ : Event.t }.
Record store := { bases : gmap loc (list Z); views : gmap vid view }.

#[global] Instance view_eq_dec : EqDecision view.
Proof. solve_decision. Defined.

Definition empty_store : store := {| bases := ∅; views := ∅ |}.
Definition no_view : view := View None Event.getInit.

Section ops.
(** Whether [ASSERT] is compiled in ([ENABLE_GENMC_DEBUG]). *)
Variable dbg : bool.
Definition ASSERT (b : bool) : res () := if dbg then debug_assert b else Ok ().

(** [base_.use_count()]: every owner of a base is a view. *)
Definition use_count (s : store) (l : loc) : nat :=
  size (filter (fun p => base_ p.2 = Some l) (views s)).

Definition view_of (s : store) (v : vid) : res view := deref (views s !! v).
Definition base_of (s : store) (l : loc) : res (list Z) := deref (bases s !! l).

Definition with_view (s : store) (v : vid) (x : view) : store :=
  {| bases := bases s; views := <[v := x]> (views s) |}.
Definition with_base (s : store) (l : loc) (b : list Z) : store :=
  {| bases := <[l := b]> (bases s); views := views s |}.

(** Construction, copy assignment, [clear] and destruction. *)
Definition create (s : store) (v : vid) : store := with_view s v no_view.
Definition copy (s : store) (v w : vid) : res store := x ← view_of s w; Ok (with_view s v x).
Definition clear (s : store) (v : vid) : store := with_view s v no_view.
Definition destroy (s : store) (v : vid) : store :=
  {| bases := bases s; views := delete v (views s) |}.

Definition getMax (s : store) (v : vid) (thread : Z) : res Z :=
  x ← view_of s v;
  base_max ← match base_ x with
             | Some l => b ← base_of s l; ViewBase.getMax b thread
             | None => Ok 0
             end;
  Ok (if negb (Event.isInitializer (diff_ x)) && (Event.thread (diff_ x) =? thread)
      then Z.max base_max (Event.index (diff_ x)) else base_max).

(** [contains(Event)]. *)
Definition contains (s : store) (v : vid) (e : Event.t) : res bool :=
  m ← getMax s v (Event.thread e); Ok (Event.index e <=? m).

Definition size (s : store) (v : vid) : res Z :=
  x ← view_of s v;
  base_size ← match base_ x with Some l => b ← base_of s l; Ok (ViewBase.size b) | None => Ok 0 end;
  Ok (Z.max base_size (if Event.isInitializer (diff_ x) then 0 else Event.thread (diff_ x) + 1)).

Definition empty (s : store) (v : vid) : res bool :=
  x ← view_of s v;
  if Event.index (diff_ x) =? 0 then
    match base_ x with Some l => b ← base_of s l; Ok (ViewBase.empty b) | None => Ok true end
  else Ok false.

(** [contains(const View &)]. *)
Definition contains_view (s : store) (v w : vid) : res bool :=
  if decide (v = w) then Ok true else
  x ← view_of s v; y ← view_of s w;
  seen ← (if Event.isInitializer (diff_ y) then Ok true else contains s v (diff_ y));
  if negb seen then Ok false else
  match base_ y with
  | None => Ok true
  | Some l' =>
      if decide (base_ x = base_ y) then Ok true else
      b' ← base_of s l';
      match base_ x with
      | None => Ok (ViewBase.empty b')
      | Some l => b ← base_of s l; Ok (ViewBase.contains_view b b')
      end
  end.

(** A base owned by this view alone. *)
Definition owned (s : store) (x : view) : option loc :=
  match base_ x with
  | Some l => if decide (use_count s l = 1)%nat then Some l else None
  | None => None
  end.

Definition base_updateIdx (s : store) (l : loc) (e : Event.t) : res store :=
  b ← base_of s l; b ← ViewBase.updateIdx b e; Ok (with_base s l b).

(** [hydrate]: the new base and the store in which the view owns it. *)
Definition hydrate (s : store) (v : vid) : res (store * loc) :=
  x ← view_of s v;
  b ← match base_ x with Some l => base_of s l | None => Ok [] end;
  let l := fresh (dom (bases s)) in
  b ← (if Event.isInitializer (diff_ x) then Ok b else ViewBase.updateIdx b (diff_ x));
  Ok (with_view (with_base s l b) v (View (Some l) Event.getInit), l).

Definition updateIdx (s : store) (v : vid) (e : Event.t) : res store :=
  seen ← contains s v e;
  if (seen : bool) then Ok s else
  x ← view_of s v;
  match owned s x with
  | Some l => ASSERT (Event.isInitializer (diff_ x));; base_updateIdx s l e
  | None =>
      if Event.isInitializer (diff_ x) then Ok (with_view s v (View (base_ x) e))
      else if decide (Event.thread e = Event.thread (diff_ x)) then
        Ok (with_view s v (View (base_ x) (Event.max (diff_ x) e)))
      else '(s, l) ← hydrate s v; base_updateIdx s l e
  end.

Definition updateIdxs (s : store) (v : vid) (es : list Event.t) : res store :=
  foldM (fun s e => updateIdx s v e) s es.

Definition setMax (s : store) (v : vid) (e : Event.t) : res store :=
  x ← view_of s v;
  match owned s x with
  | Some l =>
      ASSERT (Event.isInitializer (diff_ x));;
      b ← base_of s l; b ← ViewBase.setMax b e; Ok (with_base s l b)
  | None =>
      below ← match base_ x with
              | None => Ok true
              | Some l => b ← base_of s l; c ← ViewBase.contains b e; Ok (negb c)
              end;
      if (below : bool) && (Event.isInitializer (diff_ x) || bool_decide (Event.thread e = Event.thread (diff_ x)))
      then Ok (with_view s v (View (base_ x) (if Event.index e =? 0 then Event.getInit else e)))
      else
        '(s, l) ← hydrate s v;
        b ← base_of s l; b ← ViewBase.setMax b e; Ok (with_base s l b)
  end.

(** The lambda [merge] of [update], [l] being the base of this view. *)
Definition merge (s : store) (l : loc) (w : vid) : res store :=
  y ← view_of s w;
  s ← match base_ y with
      | Some l' => if decide (l = l') then Ok s else
          b ← base_of s l; b' ← base_of s l'; Ok (with_base s l (ViewBase.update b b'))
      | None => Ok s
      end;
  if Event.isInitializer (diff_ y) then Ok s else base_updateIdx s l (diff_ y).

(** The last resort of [update]. *)
Definition update_slow (s : store) (v w : vid) : res store :=
  c ← contains_view s v w;
  if (c : bool) then Ok s else '(s, l) ← hydrate s v; merge s l w.

Definition base_contains (s : store) (b : option loc) (e : Event.t) : res bool :=
  match b with Some l => b ← base_of s l; ViewBase.contains b e | None => Ok false end.

Definition update (s : store) (v w : vid) : res store :=
  x ← view_of s v; y ← view_of s w;
  match owned s x with
  | Some l => ASSERT (Event.isInitializer (diff_ x));; merge s l w
  | None =>
      if bool_decide (base_ x = None) && Event.isInitializer (diff_ x) then Ok (with_view s v y)
      else if bool_decide (base_ x = None \/ base_ y = None \/ base_ x = base_ y) then
        let b := match base_ x with Some l => Some l | None => base_ y end in
        let s' := with_view s v (View b (diff_ x)) in
        if Event.isInitializer (diff_ x) then
          c ← base_contains s b (diff_ y);
          if bool_decide (is_Some b) && negb c then Ok (with_view s v (View b (diff_ y))) else Ok s'
        else if Event.isInitializer (diff_ y) then
          c ← base_contains s b (diff_ x);
          if (c : bool) then Ok (with_view s v (View b Event.getInit)) else Ok s'
        else if decide (Event.thread (diff_ x) = Event.thread (diff_ y)) then
          Ok (with_view s v (View b (Event.max (diff_ x) (diff_ y))))
        else update_slow s' v w
      else update_slow s v w
  end.

(** [operator==]. *)
Definition eqb (s : store) (v w : vid) : res bool :=
  if decide (v = w) then Ok true else
  x ← view_of s v; y ← view_of s w;
  if decide (base_ x = base_ y /\ diff_ x = diff_ y) then Ok true else
  sv ← size s v; sw ← size s w;
  foldM (fun acc i => if (acc : bool) then a ← getMax s v (Z.of_nat i); b ← getMax s w (Z.of_nat i); Ok (a =? b)
                      else Ok false)
    true (seq 0 (Z.to_nat (Z.max sv sw))).

(** *** Specification: the clock of a view *)
Definition diff_clock (d : Event.t) (t : Z) : Z :=
  if decide (Event.thread d = t) then Event.index d else 0.
Definition base_clock (s : store) (b : option loc) (t : Z) : Z :=
  match b with
  | Some l => match bases s !! l with Some b => ViewBase.clock b t | None => 0 end
  | None => 0
  end.
Definition view_clock (s : store) (x : view) (t : Z) : Z :=
  Z.max (base_clock s (base_ x) t) (diff_clock (diff_ x) t).
Definition clk (s : store) (v : vid) (t : Z) : Z :=
  match views s !! v with Some x => view_clock s x t | None => 0 end.

Definition wf_diff (d : Event.t) : Prop := d = Event.getInit \/ 0 <= Event.thread d /\ 0 < Event.index d.
Definition wf_base (s : store) (b : option loc) : Prop :=
  match b with Some l => is_Some (bases s !! l) | None => True end.
Record wf (s : store) : Prop := {
  wf_bases l b : bases s !! l = Some b -> ViewBase.wf b;
  wf_views v x : views s !! v = Some x -> wf_base s (base_ x) /\ wf_diff (diff_ x)
}.

Lemma diff_clock_init t : diff_clock Event.getInit t = 0.
Proof. unfold diff_clock. cbn. by case_decide. Qed.

Lemma init_cases d : (Event.isInitializer d = true /\ d = Event.getInit) \/
  (Event.isInitializer d = false /\ d <> Event.getInit).
Proof. unfold Event.isInitializer. case_bool_decide; auto. Qed.

Lemma base_clock_nonneg s b t : wf s -> 0 <= base_clock s b t.
Proof.
  intros Hs. unfold base_clock. destruct b as [l|]; [|lia]. destruct (bases s !! l) eqn:E; [|lia].
  by apply ViewBase.clock_nonneg, (wf_bases s Hs l).
Qed.

Lemma base_getMax_ok s b t : wf_base s b -> 0 <= t ->
  match b with Some l => b ← base_of s l; ViewBase.getMax b t | None => Ok 0 end = Ok (base_clock s b t).
Proof.
  intros Hb Ht. destruct b as [l|]; [|done]. destruct Hb as [x Hx]. unfold base_of, base_clock.
  rewrite Hx. cbn. by apply ViewBase.vb_getMax_ok.
Qed.

Lemma getMax_ok s v x t : wf s -> views s !! v = Some x -> 0 <= t -> getMax s v t = Ok (clk s v t).
Proof.
  intros Hs Hx Ht. unfold getMax, view_of, clk. rewrite Hx. cbn [deref mbind res_bind].
  destruct (wf_views s Hs v x Hx) as [Hb Hd]. rewrite base_getMax_ok by done. cbn [mbind res_bind].
  f_equal. unfold view_clock, diff_clock. pose proof (base_clock_nonneg s (base_ x) t Hs).
  destruct (init_cases (diff_ x)) as [[-> ->]|[-> _]]; cbn.
  - case_decide; lia.
  - case_decide; destruct (Z.eqb_spec (Event.thread (diff_ x)) t); try done; lia.
Qed.

Lemma contains_ok s v x e : wf s -> views s !! v = Some x -> 0 <= Event.thread e ->
  contains s v e = Ok (Event.index e <=? clk s v (Event.thread e)).
Proof. intros. unfold contains. by erewrite getMax_ok by done. Qed.

(** What an operation on [v] with result [f] has to achieve: the new clock of [v],
    and every other view exactly as it was. *)
Definition good (s : store) (v : vid) (f : Z -> Z) (s' : store) : Prop :=
  wf s' /\ is_Some (views s' !! v) /\ (forall t, 0 <= t -> clk s' v t = f t) /\
  (forall w, w <> v -> views s' !! w = views s !! w) /\
  (forall w t, w <> v -> clk s' w t = clk s w t).

Lemma good_ext s v f g s' : (forall t, 0 <= t -> f t = g t) -> good s v f s' -> good s v g s'.
Proof. intros E (H1 & H2 & H3 & H4 & H5). split_and!; try done. intros t Ht. by rewrite <- E, H3. Qed.

Lemma good_refl s v x : wf s -> views s !! v = Some x -> good s v (clk s v) s.
Proof. intros Hs Hx. split_and!; [done|by exists x|done..]. Qed.

Lemma good_trans s v f s1 g s2 : good s v f s1 -> good s1 v g s2 -> good s v g s2.
Proof.
  intros (_ & _ & _ & F1 & C1) (W2 & I2 & V2 & F2 & C2). split_and!; try done.
  - intros w Hw. by rewrite F2, F1.
  - intros w t Hw. by rewrite C2, C1.
Qed.

(** Replacing a view. *)
Lemma with_view_good s v x : wf s -> wf_base s (base_ x) -> wf_diff (diff_ x) ->
  good s v (view_clock s x) (with_view s v x).
Proof.
  intros Hs Hb Hd. split_and!.
  - split; [apply (wf_bases s Hs)|]. intros w y Hy. cbn in Hy.
    destruct (decide (v = w)) as [<-|]; [rewrite lookup_insert_eq in Hy; by simplify_eq|].
    rewrite lookup_insert_ne in Hy by done. by apply (wf_views s Hs w).
  - cbn. rewrite lookup_insert_eq. by eexists.
  - intros t _. unfold clk. cbn. by rewrite lookup_insert_eq.
  - intros w Hw. cbn. by rewrite lookup_insert_ne.
  - intros w t Hw. unfold clk. cbn. by rewrite lookup_insert_ne.
Qed.

(** Writing a base that a single view points to. *)
Definition sole (s : store) (l : loc) (v : vid) : Prop :=
  forall w y, views s !! w = Some y -> base_ y = Some l -> w = v.

Lemma with_base_good s v x l b : wf s -> views s !! v = Some x -> base_ x = Some l -> sole s l v ->
  ViewBase.wf b ->
  good s v (fun t => Z.max (ViewBase.clock b t) (diff_clock (diff_ x) t)) (with_base s l b).
Proof.
  intros Hs Hx Hl Hsole Hb. split_and!.
  - split.
    + intros l' b' Hb'. cbn in Hb'. destruct (decide (l = l')) as [<-|].
      * rewrite lookup_insert_eq in Hb'. by simplify_eq.
      * rewrite lookup_insert_ne in Hb' by done. by apply (wf_bases s Hs l').
    + intros w y Hy. cbn in Hy. destruct (wf_views s Hs w y Hy) as [Hwb ?]. split; [|done].
      destruct (base_ y) as [l'|]; [|done]. cbn. apply lookup_insert_is_Some'. by right.
  - cbn. by eexists.
  - intros t _. unfold clk, view_clock, base_clock. cbn. rewrite Hx, Hl. by rewrite lookup_insert_eq.
  - done.
  - intros w t Hw. unfold clk, view_clock, base_clock. cbn. destruct (views s !! w) as [y|] eqn:Hy; [|done].
    destruct (base_ y) as [l'|] eqn:Hl'; [|done]. destruct (decide (l = l')) as [<-|].
    + exfalso. apply Hw. by apply (Hsole w y).
    + by rewrite lookup_insert_ne.
Qed.

Lemma owned_sole s v x l : views s !! v = Some x -> owned s x = Some l ->
  base_ x = Some l /\ sole s l v.
Proof.
  unfold owned. intros Hx Ho. destruct (base_ x) as [l'|] eqn:E; [|done].
  case_decide as Hc; [|done]. injection Ho as ->. split; [done|]. intros w y Hy Hl.
  unfold use_count in Hc. set (m := filter _ (views s)) in Hc.
  assert (m !! v = Some x) as Hv by (by apply map_lookup_filter_Some).
  assert (m !! w = Some y) as Hw by (by apply map_lookup_filter_Some).
  destruct (decide (w = v)) as [|Hne]; [done|exfalso].
  pose proof (map_size_delete_Some v m (mk_is_Some _ _ Hv)) as Hd. rewrite Hc in Hd.
  apply map_size_empty_inv in Hd. assert (delete v m !! w = Some y) as Hx'
    by (by rewrite lookup_delete_ne). by rewrite Hd, lookup_empty in Hx'.
Qed.

Definition upd (f : Z -> Z) (e : Event.t) (t : Z) : Z :=
  if decide (t = Event.thread e) then Z.max (f t) (Event.index e) else f t.

Lemma base_updateIdx_good s v x l e : wf s -> views s !! v = Some x -> base_ x = Some l -> sole s l v ->
  0 <= Event.thread e ->
  exists s', base_updateIdx s l e = Ok s' /\ good s v (upd (clk s v) e) s' /\ views s' = views s.
Proof.
  intros Hs Hx Hl Hsole He. unfold base_updateIdx, base_of.
  destruct (wf_views s Hs v x Hx) as [Hb _]. rewrite Hl in Hb. destruct Hb as [b Hb].
  rewrite Hb. cbn [deref mbind res_bind].
  destruct (ViewBase.updateIdx_spec b e (wf_bases s Hs l b Hb) He) as (b' & -> & Hb' & Hc).
  eexists. split; [done|]. split; [|done].
  eapply good_ext; [|by eapply with_base_good]. intros t Ht. cbn.
  rewrite Hc by done. unfold upd, clk, view_clock, base_clock. rewrite Hx, Hl, Hb. case_decide; lia.
Qed.

(** After [hydrate] the view owns a base that says all it said before. *)
Lemma hydrate_good s v x : wf s -> views s !! v = Some x ->
  exists s' l, hydrate s v = Ok (s', l) /\ good s v (clk s v) s' /\
    views s' !! v = Some (View (Some l) Event.getInit) /\ sole s' l v /\
    (forall b, wf_base s b -> wf_base s' b /\ b <> Some l).
Proof.
  intros Hs Hx. unfold hydrate, view_of. rewrite Hx. cbn [deref mbind res_bind].
  destruct (wf_views s Hs v x Hx) as [Hb Hd].
  set (l := fresh (dom (bases s))).
  assert (Hl : bases s !! l = None) by (apply not_elem_of_dom, is_fresh).
  assert (exists b, match base_ x with Some l => base_of s l | None => Ok [] end = Ok b /\
    ViewBase.wf b /\ forall t, ViewBase.clock b t = base_clock s (base_ x) t) as (b & -> & Hwb & Hcb).
  { unfold base_of, base_clock. destruct (base_ x) as [l'|].
    - destruct Hb as [b Hb]. rewrite Hb. exists b. split_and!; [done| |done]. by apply (wf_bases s Hs l').
    - exists []. split_and!; [done|apply ViewBase.wf_nil|]. intros t. unfold ViewBase.clock. by rewrite lookup_nil. }
  cbn [mbind res_bind].
  assert (exists b', (if Event.isInitializer (diff_ x) then Ok b else ViewBase.updateIdx b (diff_ x)) = Ok b' /\
    ViewBase.wf b' /\ forall t, 0 <= t -> ViewBase.clock b' t = view_clock s x t) as (b' & -> & Hwb' & Hcb').
  { unfold view_clock. destruct (init_cases (diff_ x)) as [[-> ->]|[-> Hne]].
    - exists b. split_and!; [done..|]. intros t _. rewrite diff_clock_init, Hcb.
      pose proof (base_clock_nonneg s (base_ x) t Hs). lia.
    - destruct Hd as [|[Ht Hi]]; [done|].
      destruct (ViewBase.updateIdx_spec b (diff_ x) Hwb Ht) as (b' & -> & ? & Hc).
      exists b'. split_and!; [done..|]. intros t Htt. rewrite Hc, Hcb by done. unfold diff_clock.
      pose proof (base_clock_nonneg s (base_ x) t Hs). repeat case_decide; lia || congruence. }
  cbn [mbind res_bind]. eexists _, l. split; [done|].
  assert (Hsole : forall w y, views s !! w = Some y -> base_ y <> Some l).
  { intros w y Hy E. destruct (wf_views s Hs w y Hy) as [Hwy _]. rewrite E in Hwy. cbn in Hwy.
    rewrite Hl in Hwy. by destruct Hwy. }
  unfold good. split_and!; cbn.
  - split.
    + intros l' c Hc. cbn in Hc. destruct (decide (l = l')) as [<-|];
        [rewrite lookup_insert_eq in Hc; by simplify_eq|rewrite lookup_insert_ne in Hc by done].
      by apply (wf_bases s Hs l').
    + intros w y Hy. cbn in Hy. destruct (decide (v = w)) as [<-|].
      * rewrite lookup_insert_eq in Hy. simplify_eq. cbn. rewrite lookup_insert_eq. split; [by eexists|by left].
      * rewrite lookup_insert_ne in Hy by done. destruct (wf_views s Hs w y Hy) as [Hwy ?]. split; [|done].
        destruct (base_ y) as [l'|] eqn:E; [|done]. cbn. apply lookup_insert_is_Some'. by right.
  - rewrite lookup_insert_eq. by eexists.
  - intros t Ht. unfold clk. cbn. rewrite lookup_insert_eq. unfold view_clock at 1. cbn.
    rewrite lookup_insert_eq, diff_clock_init, Hcb', Hx by done.
    unfold view_clock. pose proof (base_clock_nonneg s (base_ x) t Hs). lia.
  - intros w Hw. by rewrite lookup_insert_ne.
  - intros w t Hw. unfold clk, view_clock, base_clock. cbn. rewrite lookup_insert_ne by done.
    destruct (views s !! w) as [y|] eqn:Hy; [|done]. destruct (base_ y) as [l'|] eqn:E; [|done].
    rewrite lookup_insert_ne; [done|]. intros ->. by apply (Hsole w y).
  - by rewrite lookup_insert_eq.
  - intros w y Hy E. cbn in Hy. destruct (decide (w = v)) as [|Hne]; [done|exfalso].
    rewrite lookup_insert_ne in Hy by done. by apply (Hsole w y).
  - intros [l'|] Hb'; [|done]. cbn in *. split; [apply lookup_insert_is_Some'; by right|].
    intros [= ->]. rewrite Hl in Hb'. by destruct Hb'.
Qed.

(** The assertion that an owner has no pending event holds in [s] for [x]. *)
Definition assert_ok (s : store) (x : view) : Prop :=
  dbg = true -> owned s x <> None -> diff_ x = Event.getInit.

Lemma ASSERT_ok s x l : assert_ok s x -> owned s x = Some l -> ASSERT (Event.isInitializer (diff_ x)) = Ok ().
Proof.
  unfold assert_ok, ASSERT. intros Ha Ho. destruct dbg; [|done].
  rewrite Ha by (done || by rewrite Ho). done.
Qed.

Lemma max_same_thread d e : Event.thread d = Event.thread e ->
  Event.thread (Event.max d e) = Event.thread e /\
  Event.index (Event.max d e) = Z.max (Event.index d) (Event.index e).
Proof. unfold Event.max, Event.lt. intros E. case_match; lia. Qed.

Lemma updateIdx_good s v x e : wf s -> views s !! v = Some x -> assert_ok s x -> 0 <= Event.thread e ->
  exists s', updateIdx s v e = Ok s' /\ good s v (upd (clk s v) e) s'.
Proof.
  intros Hs Hx Ha He. unfold updateIdx. rewrite (contains_ok s v x e Hs Hx He). cbn [mbind res_bind].
  destruct (Z.leb_spec (Event.index e) (clk s v (Event.thread e))) as [Hle|Hlt].
  { exists s. split; [done|]. eapply good_ext; [|by eapply good_refl].
    intros t _. unfold upd. case_decide; [subst; lia|done]. }
  unfold view_of. rewrite Hx. cbn [deref mbind res_bind].
  destruct (wf_views s Hs v x Hx) as [Hb Hd].
  assert (Hc : clk s v (Event.thread e) >= 0).
  { unfold clk. rewrite Hx. unfold view_clock. pose proof (base_clock_nonneg s (base_ x) (Event.thread e) Hs). lia. }
  assert (Hwe : wf_diff e) by (right; lia).
  destruct (owned s x) as [l|] eqn:Ho.
  { rewrite (ASSERT_ok s x l Ha Ho). cbn [mbind res_bind].
    destruct (owned_sole s v x l Hx Ho) as [Hl Hsole].
    destruct (base_updateIdx_good s v x l e Hs Hx Hl Hsole He) as (s' & -> & Hg & _). eauto. }
  assert (Hcl : forall t, clk s v t = Z.max (base_clock s (base_ x) t) (diff_clock (diff_ x) t))
    by (intros t; unfold clk; by rewrite Hx).
  destruct (init_cases (diff_ x)) as [[-> Hd0]|[-> Hne]].
  { eexists. split; [done|]. eapply good_ext; [|by apply with_view_good].
    intros t Ht. unfold view_clock, upd. cbn. rewrite Hcl, Hd0, diff_clock_init. unfold diff_clock.
    pose proof (base_clock_nonneg s (base_ x) t Hs). repeat case_decide; lia || congruence. }
  destruct Hd as [|[Hdt Hdi]]; [done|].
  case_decide as Hth.
  { destruct (max_same_thread (diff_ x) e) as [Mt Mi]; [done|].
    eexists. split; [done|]. eapply good_ext; [|apply with_view_good; [done|done|right; cbn; lia]].
    intros t Ht. unfold view_clock, upd. cbn. rewrite Hcl. unfold diff_clock. rewrite Mt, Mi, Hth.
    repeat case_decide; lia || congruence. }
  destruct (hydrate_good s v x Hs Hx) as (s1 & l & -> & Hg1 & Hx1 & Hsole & _). cbn [mbind res_bind].
  destruct (base_updateIdx_good s1 v _ l e (proj1 Hg1) Hx1 eq_refl Hsole He) as (s2 & -> & Hg2 & _).
  exists s2. split; [done|]. eapply good_trans; [exact Hg1|]. eapply good_ext; [|exact Hg2].
  intros t Ht. unfold upd. destruct Hg1 as (_ & _ & Hc1 & _). by rewrite Hc1.
Qed.

Definition setf (f : Z -> Z) (e : Event.t) (t : Z) : Z :=
  if decide (t = Event.thread e) then Event.index e else f t.

Lemma base_contains_ok s b e : wf s -> wf_base s b -> 0 <= Event.thread e ->
  base_contains s b e =
    Ok (match b with Some _ => Event.index e <=? base_clock s b (Event.thread e) | None => false end).
Proof.
  intros Hs Hb He. unfold base_contains, base_of, base_clock. destruct b as [l|]; [|done].
  destruct Hb as [b Hb]. rewrite Hb. cbn [deref mbind res_bind]. by apply ViewBase.vb_contains_ok.
Qed.

(** A positive answer of [contains(const View &)] is right; a negative one need
    not be. *)
Lemma contains_view_sound s v w x y : wf s -> views s !! v = Some x -> views s !! w = Some y ->
  exists b, contains_view s v w = Ok b /\
    (b = true -> forall t, 0 <= t -> clk s w t <= clk s v t).
Proof.
  intros Hs Hx Hy. unfold contains_view.
  case_decide as Hvw; [subst; exists true; split; [done|intros; lia]|].
  unfold view_of, base_of. rewrite Hx, Hy. cbn [deref mbind res_bind].
  destruct (wf_views s Hs v x Hx) as [Hbx Hdx], (wf_views s Hs w y Hy) as [Hby Hdy].
  assert (Hseen : exists b, (if Event.isInitializer (diff_ y) then Ok true else contains s v (diff_ y)) = Ok b /\
    (b = true -> forall t, 0 <= t -> diff_clock (diff_ y) t <= clk s v t)).
  { assert (Hnn : forall t, 0 <= clk s v t).
    { intros t. unfold clk. rewrite Hx. unfold view_clock. pose proof (base_clock_nonneg s (base_ x) t Hs). lia. }
    destruct (init_cases (diff_ y)) as [[-> ->]|[-> Hne]].
    - exists true. split; [done|]. intros _ t Ht. rewrite diff_clock_init. auto.
    - destruct Hdy as [|[Ht Hi]]; [done|]. rewrite (contains_ok s v x) by done.
      eexists. split; [done|]. intros Hle t Htt. unfold diff_clock.
      case_decide; [subst; lia|auto]. }
  destruct Hseen as ([|] & -> & Hseen); cbn [mbind res_bind negb]; [|by exists false].
  specialize (Hseen eq_refl).
  assert (Hgo : (forall t, 0 <= t -> base_clock s (base_ y) t <= base_clock s (base_ x) t) ->
    forall t, 0 <= t -> clk s w t <= clk s v t).
  { intros Hb t Ht. specialize (Hseen t Ht). specialize (Hb t Ht). unfold clk in *. rewrite Hx, Hy in *.
    unfold view_clock in *. lia. }
  destruct (base_ y) as [l'|] eqn:Ey.
  2: { exists true. split; [done|]. intros _. apply Hgo. intros t Ht. cbn. by apply base_clock_nonneg. }
  case_decide as Hsame.
  { exists true. split; [done|]. intros _. apply Hgo. rewrite Hsame. intros; lia. }
  destruct Hby as [b' Hb']. rewrite Hb'. cbn [deref mbind res_bind].
  pose proof (wf_bases s Hs l' b' Hb') as Hwb'.
  destruct (base_ x) as [l|] eqn:Ex.
  - destruct Hbx as [b Hb]. rewrite Hb. cbn [deref mbind res_bind]. eexists. split; [done|].
    intros Hc. apply Hgo. intros t Ht. cbn. rewrite Hb, Hb'. revert t Ht.
    apply ViewBase.contains_view_spec; [by apply (wf_bases s Hs l)|done|done].
  - eexists. split; [done|]. intros Hc. apply Hgo. intros t Ht. cbn. rewrite Hb'.
    unfold ViewBase.empty in Hc. apply bool_decide_eq_true in Hc as ->.
    unfold ViewBase.clock. rewrite lookup_nil. cbn. lia.
Qed.

Lemma base_setMax_good s v x l e : wf s -> views s !! v = Some x -> base_ x = Some l -> sole s l v ->
  diff_ x = Event.getInit -> 0 <= Event.thread e -> 0 <= Event.index e ->
  exists s', (b ← base_of s l; b ← ViewBase.setMax b e; Ok (with_base s l b)) = Ok s' /\
    good s v (setf (clk s v) e) s'.
Proof.
  intros Hs Hx Hl Hsole Hd Ht Hi. unfold base_of.
  destruct (wf_views s Hs v x Hx) as [Hb _]. rewrite Hl in Hb. destruct Hb as [b Hb].
  rewrite Hb. cbn [deref mbind res_bind]. pose proof (wf_bases s Hs l b Hb) as Hwb.
  destruct (ViewBase.setMax_spec b e Hwb Ht Hi) as (b' & -> & Hb' & Hc).
  eexists. split; [done|]. eapply good_ext; [|by eapply with_base_good]. intros t Htt. cbn.
  rewrite Hc, Hd, diff_clock_init by done. unfold setf, clk, view_clock, base_clock.
  rewrite Hx, Hl, Hb, Hd, diff_clock_init. pose proof (ViewBase.clock_nonneg b t Hwb). case_decide; lia.
Qed.

Lemma setMax_good s v x e : wf s -> views s !! v = Some x ->
  (owned s x <> None -> diff_ x = Event.getInit) -> 0 <= Event.thread e -> 0 <= Event.index e ->
  exists s', setMax s v e = Ok s' /\ good s v (setf (clk s v) e) s'.
Proof.
  intros Hs Hx Ha Ht Hi. unfold setMax, view_of. rewrite Hx. cbn [deref mbind res_bind].
  destruct (wf_views s Hs v x Hx) as [Hb Hd].
  destruct (owned s x) as [l|] eqn:Ho.
  { specialize (Ha ltac:(done)). rewrite (ASSERT_ok s x l) by (done || by intros ??).
    destruct (owned_sole s v x l Hx Ho) as [Hl Hsole]. cbn [mbind res_bind].
    by eapply base_setMax_good. }
  assert (Hcl : forall t, clk s v t = Z.max (base_clock s (base_ x) t) (diff_clock (diff_ x) t))
    by (intros t; unfold clk; by rewrite Hx).
  assert (Hbelow : exists c, match base_ x with
      | Some l => b ← base_of s l; c ← ViewBase.contains b e; Ok (negb c) | None => Ok true end = Ok c /\
    (c = true -> base_clock s (base_ x) (Event.thread e) < Event.index e \/ base_ x = None)).
  { unfold base_of, base_clock. destruct (base_ x) as [l|]; [|by exists true; auto].
    destruct Hb as [b Hb]. rewrite Hb. cbn [deref mbind res_bind]. rewrite ViewBase.vb_contains_ok by done.
    eexists. split; [done|]. intros. left. lia. }
  destruct Hbelow as (c & -> & Hc). cbn [mbind res_bind].
  match goal with |- context [if ?b then Ok _ else _] => destruct b eqn:E end.
  - apply andb_true_iff in E as [-> E]. specialize (Hc eq_refl). eexists. split; [done|].
    set (d := if Event.index e =? 0 then Event.getInit else e).
    assert (Hdc : forall t, 0 <= t -> diff_clock d t = if decide (t = Event.thread e) then Event.index e else 0).
    { intros t Htt. unfold d. destruct (Z.eqb_spec (Event.index e) 0) as [->|].
      - rewrite diff_clock_init. by destruct (decide _).
      - unfold diff_clock. repeat case_decide; lia || congruence. }
    eapply good_ext; [|apply with_view_good; [done|done|]].
    + intros t Htt. unfold view_clock, setf. cbn. rewrite Hdc, Hcl by done.
      pose proof (base_clock_nonneg s (base_ x) t Hs).
      destruct (decide (t = Event.thread e)) as [->|D].
      { destruct Hc as [Hc|Hc]; [lia|rewrite Hc in *; cbn in *; lia]. }
      apply orb_true_iff in E as [E|E].
      * apply Event.isInitializer_spec in E. rewrite E, diff_clock_init. done.
      * apply bool_decide_eq_true in E. unfold diff_clock. rewrite decide_False by congruence. done.
    + unfold wf_diff, d. cbn. destruct (Z.eqb_spec (Event.index e) 0); [by left|right; lia].
  - destruct (hydrate_good s v x Hs Hx) as (s1 & l & -> & Hg1 & Hx1 & Hsole & _). cbn [mbind res_bind].
    destruct (base_setMax_good s1 v _ l e (proj1 Hg1) Hx1 eq_refl Hsole eq_refl Ht Hi) as (s2 & -> & Hg2).
    exists s2. split; [done|]. eapply good_trans; [exact Hg1|]. eapply good_ext; [|exact Hg2].
    intros t Htt. unfold setf. destruct Hg1 as (_ & _ & Hc1 & _). by rewrite Hc1.
Qed.

Definition maxf (f g : Z -> Z) (t : Z) : Z := Z.max (f t) (g t).

Lemma merge_good s v x l w y : wf s -> views s !! v = Some x -> base_ x = Some l -> sole s l v ->
  views s !! w = Some y ->
  exists s', merge s l w = Ok s' /\ good s v (maxf (clk s v) (clk s w)) s'.
Proof.
  intros Hs Hx Hl Hsole Hy. unfold merge, view_of. rewrite Hy. cbn [deref mbind res_bind].
  destruct (wf_views s Hs v x Hx) as [Hb _]. rewrite Hl in Hb. destruct Hb as [b Hb].
  destruct (wf_views s Hs w y Hy) as [Hby Hdy].
  assert (exists s1, match base_ y with
      | Some l' => if decide (l = l') then Ok s else
          b ← base_of s l; b' ← base_of s l'; Ok (with_base s l (ViewBase.update b b'))
      | None => Ok s end = Ok s1 /\
      good s v (maxf (clk s v) (base_clock s (base_ y))) s1 /\ views s1 = views s) as (s1 & -> & Hg1 & Hv1).
  { assert (Hnn : forall t, 0 <= clk s v t).
    { intros t. unfold clk. rewrite Hx. unfold view_clock. pose proof (base_clock_nonneg s (base_ x) t Hs). lia. }
    unfold base_of. destruct (base_ y) as [l'|].
    - case_decide as E.
      + subst l'. exists s. split_and!; [done| |done]. eapply good_ext; [|by eapply good_refl].
        intros t _. unfold maxf, clk, view_clock. rewrite Hx, Hl. lia.
      + destruct Hby as [b' Hb']. rewrite Hb, Hb'. cbn [deref mbind res_bind].
        destruct (ViewBase.update_spec b b') as [Hw Hc]; [by eapply wf_bases|by eapply wf_bases|].
        eexists. split_and!; [done| |done]. eapply good_ext; [|by eapply with_base_good].
        intros t Ht. cbn. rewrite Hc by done. unfold maxf, clk, view_clock, base_clock. rewrite Hx, Hl, Hb, Hb'. lia.
    - exists s. split_and!; [done| |done]. eapply good_ext; [|by eapply good_refl].
      intros t _. unfold maxf. cbn. specialize (Hnn t). lia. }
  cbn [mbind res_bind].
  assert (Hwy : forall t, clk s w t = Z.max (base_clock s (base_ y) t) (diff_clock (diff_ y) t))
    by (intros t; unfold clk; by rewrite Hy).
  assert (Hnb : forall t, 0 <= base_clock s (base_ y) t) by (intros; by apply base_clock_nonneg).
  destruct (init_cases (diff_ y)) as [[-> Hd]|[-> Hne]].
  - exists s1. split; [done|]. eapply good_ext; [|exact Hg1]. intros t Ht. unfold maxf.
    rewrite Hwy, Hd, diff_clock_init. specialize (Hnb t). lia.
  - destruct Hdy as [|[Hdt Hdi]]; [done|].
    assert (Hsole1 : sole s1 l v) by (unfold sole in *; by rewrite Hv1).
    destruct (base_updateIdx_good s1 v x l (diff_ y) (proj1 Hg1)) as (s2 & -> & Hg2 & _);
      [by rewrite Hv1|done..|].
    exists s2. split; [done|]. eapply good_trans; [exact Hg1|]. eapply good_ext; [|exact Hg2].
    intros t Ht. destruct Hg1 as (_ & _ & Hc1 & _). unfold upd. rewrite Hc1 by done. unfold maxf.
    rewrite Hwy. unfold diff_clock. specialize (Hnb t). repeat case_decide; lia || congruence.
Qed.

Lemma update_slow_good s v w x y : wf s -> views s !! v = Some x -> views s !! w = Some y ->
  exists s', update_slow s v w = Ok s' /\ good s v (maxf (clk s v) (clk s w)) s'.
Proof.
  intros Hs Hx Hy. unfold update_slow.
  destruct (contains_view_sound s v w x y Hs Hx Hy) as ([|] & -> & Hc); cbn [mbind res_bind].
  - exists s. split; [done|]. eapply good_ext; [|by eapply good_refl].
    intros t Ht. unfold maxf. specialize (Hc eq_refl t Ht). lia.
  - destruct (hydrate_good s v x Hs Hx) as (s1 & l & -> & Hg1 & Hx1 & Hsole & _). cbn [mbind res_bind].
    assert (exists y1, views s1 !! w = Some y1 /\ forall t, 0 <= t -> clk s1 w t = clk s w t) as (y1 & Hy1 & Hcy).
    { destruct Hg1 as (_ & _ & C1 & F1 & F2). destruct (decide (w = v)) as [->|Hne].
      - eexists. split; [done|]. exact C1.
      - exists y. rewrite F1 by done. split; [done|]. intros t _. by rewrite F2. }
    destruct (merge_good s1 v _ l w y1 (proj1 Hg1) Hx1 eq_refl Hsole Hy1) as (s2 & -> & Hg2).
    exists s2. split; [done|]. eapply good_trans; [exact Hg1|]. eapply good_ext; [|exact Hg2].
    intros t Ht. unfold maxf. destruct Hg1 as (_ & _ & C1 & _). by rewrite C1, Hcy.
Qed.

Lemma diff_clock_le s b d t : wf s -> wf_diff d -> Event.index d <= base_clock s b (Event.thread d) ->
  diff_clock d t <= base_clock s b t.
Proof.
  intros Hs Hd H. unfold diff_clock. pose proof (base_clock_nonneg s b t Hs). case_decide; [by subst|lia].
Qed.

Lemma update_good s v w x y : wf s -> views s !! v = Some x -> views s !! w = Some y -> assert_ok s x ->
  exists s', update s v w = Ok s' /\ good s v (maxf (clk s v) (clk s w)) s'.
Proof.
  intros Hs Hx Hy Ha. unfold update, view_of. rewrite Hx, Hy. cbn [deref mbind res_bind].
  destruct (wf_views s Hs v x Hx) as [Hbx Hdx], (wf_views s Hs w y Hy) as [Hby Hdy].
  destruct (owned s x) as [l|] eqn:Ho.
  { rewrite (ASSERT_ok s x l Ha Ho). cbn [mbind res_bind].
    destruct (owned_sole s v x l Hx Ho) as [Hl Hsole]. by eapply merge_good. }
  assert (Hcx : forall t, clk s v t = Z.max (base_clock s (base_ x) t) (diff_clock (diff_ x) t))
    by (intros t; unfold clk; by rewrite Hx).
  assert (Hcy : forall t, clk s w t = Z.max (base_clock s (base_ y) t) (diff_clock (diff_ y) t))
    by (intros t; unfold clk; by rewrite Hy).
  assert (Hnn : forall b t, 0 <= base_clock s b t) by (intros; by apply base_clock_nonneg).
  match goal with |- context [if ?b then Ok (with_view s v y) else _] => destruct b eqn:E1 end.
  { apply andb_true_iff in E1 as [Eb Ed]. apply bool_decide_eq_true in Eb. apply Event.isInitializer_spec in Ed.
    eexists. split; [done|]. eapply good_ext; [|by apply with_view_good]. intros t Ht.
    unfold maxf, view_clock. rewrite Hcx, Hcy, Eb, Ed, diff_clock_init. cbn. specialize (Hnn (base_ y) t). lia. }
  destruct (bool_decide (_ \/ _)) eqn:Hcompat; [apply bool_decide_eq_true in Hcompat|by eapply update_slow_good].
  set (b := match base_ x with Some l => Some l | None => base_ y end).
  assert (Hbb : wf_base s b) by (unfold b; destruct (base_ x); done).
  assert (Hbc : forall t, base_clock s b t = Z.max (base_clock s (base_ x) t) (base_clock s (base_ y) t)).
  { intros t. pose proof (Hnn (base_ x) t). pose proof (Hnn (base_ y) t). unfold b.
    destruct Hcompat as [->|[->| ->]]; cbn in *; [lia| |destruct (base_ y); cbn in *; lia].
    destruct (base_ x); cbn in *; lia. }
  (* every branch but the last installs the joint base and a pending event [d] *)
  assert (Hinstall : forall d, wf_diff d ->
      (forall t, 0 <= t -> Z.max (base_clock s b t) (diff_clock d t) = maxf (clk s v) (clk s w) t) ->
      good s v (maxf (clk s v) (clk s w)) (with_view s v (View b d))).
  { intros d Hd Hdc. eapply good_ext; [|by apply with_view_good]. intros t Ht. by apply Hdc. }
  destruct (init_cases (diff_ x)) as [[-> Ed]|[-> Ned]].
  { rewrite base_contains_ok by (done || (destruct Hdy as [->|]; [done|tauto])). cbn [mbind res_bind].
    rewrite Ed in E1. assert (base_ x <> None) as Hbn by (intros E; rewrite E in E1; done).
    destruct b as [lb|] eqn:Eb; [|unfold b in Eb; by destruct (base_ x)].
    destruct (Z.leb_spec (Event.index (diff_ y)) (base_clock s (Some lb) (Event.thread (diff_ y)))) as [Hle|Hlt];
      cbn [negb]; rewrite (bool_decide_true (is_Some (Some lb))) by (by eexists); cbn [andb]; eexists; (split; [done|]).
    - rewrite Ed. apply Hinstall; [by left|]. intros t Ht. unfold maxf.
      rewrite Hcx, Hcy, Ed, diff_clock_init, Hbc. pose proof (diff_clock_le s (Some lb) (diff_ y) t Hs Hdy Hle) as H.
      rewrite Hbc in H. lia.
    - apply Hinstall; [done|]. intros t Ht. unfold maxf.
      rewrite Hcx, Hcy, Ed, diff_clock_init, Hbc. pose proof (Hnn (base_ x) t). lia. }
  destruct (init_cases (diff_ y)) as [[-> Ey]|[-> Ney]].
  { rewrite base_contains_ok by (done || (destruct Hdx as [->|]; [done|tauto])). cbn [mbind res_bind].
    assert (Hkeep : good s v (maxf (clk s v) (clk s w)) (with_view s v (View b (diff_ x)))).
    { apply Hinstall; [done|]. intros t Ht. unfold maxf. rewrite Hcx, Hcy, Ey, diff_clock_init, Hbc.
      pose proof (Hnn (base_ y) t). lia. }
    destruct b as [lb|] eqn:Eb; [|eexists; split; [done|]; done].
    destruct (Z.leb_spec (Event.index (diff_ x)) (base_clock s (Some lb) (Event.thread (diff_ x)))) as [Hle|Hlt];
      eexists; (split; [done|]); [|done].
    apply Hinstall; [by left|]. intros t Ht. unfold maxf.
    rewrite Hcx, Hcy, Ey, diff_clock_init, Hbc. pose proof (diff_clock_le s (Some lb) (diff_ x) t Hs Hdx Hle) as H.
    rewrite Hbc in H. pose proof (Hnn (base_ y) t). lia. }
  destruct Hdx as [|[Htx Hix]]; [done|]. destruct Hdy as [|[Hty Hiy]]; [done|].
  case_decide as Hth.
  { destruct (max_same_thread (diff_ x) (diff_ y) Hth) as [Mt Mi]. eexists. split; [done|].
    apply Hinstall; [right; lia|]. intros t Ht. unfold maxf. rewrite Hcx, Hcy, Hbc. unfold diff_clock.
    rewrite Mt, Mi, Hth. case_decide; lia. }
  (* last case: the joint base is installed, then the slow path runs *)
  assert (Hg0 : good s v (fun t => Z.max (base_clock s b t) (diff_clock (diff_ x) t)) (with_view s v (View b (diff_ x)))).
  { eapply good_ext; [|apply with_view_good; [done|done|right; done]]. done. }
  destruct Hg0 as (W0 & I0 & C0 & F0 & G0).
  destruct (decide (w = v)) as [->|Hne]; [exfalso; apply Hth; congruence|].
  destruct (update_slow_good (with_view s v (View b (diff_ x))) v w (View b (diff_ x)) y W0) as (s2 & -> & Hg2).
  { cbn. by rewrite lookup_insert_eq. } { by rewrite F0. }
  exists s2. split; [done|]. eapply good_trans; [by split_and!|]. eapply good_ext; [|exact Hg2].
  intros t Ht. unfold maxf. rewrite C0, G0, Hcx, Hcy, Hbc by done. lia.
Qed.

(** *** Observers *)
Lemma clk_size s v x t : wf s -> views s !! v = Some x ->
  exists n, size s v = Ok n /\ 0 <= n /\ (n <= t -> clk s v t = 0).
Proof.
  intros Hs Hx. unfold size, view_of, base_of, clk. rewrite Hx. cbn [deref mbind res_bind].
  destruct (wf_views s Hs v x Hx) as [Hb Hd]. unfold view_clock, base_clock, diff_clock.
  assert (exists n, match base_ x with Some l => b ← deref (bases s !! l); Ok (ViewBase.size b) | None => Ok 0 end = Ok n /\
    0 <= n /\ (n <= t -> match base_ x with
      | Some l => match bases s !! l with Some b => ViewBase.clock b t | None => 0 end | None => 0 end = 0))
    as (n & -> & Hn & Hz).
  { destruct (base_ x) as [l|]; [|exists 0; split_and!; [done|lia|done]].
    destruct Hb as [b Hb]. rewrite Hb. cbn. eexists. split_and!; [done|unfold ViewBase.size; lia|].
    apply ViewBase.clock_ge. }
  cbn [mbind res_bind]. eexists. split_and!; [done|lia|].
  intros Hle. rewrite Hz by lia. destruct (init_cases (diff_ x)) as [[E ->]|[E Hne]]; cbn.
  - by case_decide.
  - rewrite E in Hle. case_decide; lia.
Qed.

(** The size is not larger than it has to be. *)
Lemma clk_size_tight s v x n : wf s -> views s !! v = Some x -> size s v = Ok n -> n = 0 \/ 0 < clk s v (n - 1).
Proof.
  intros Hs Hx. unfold size, view_of, base_of, clk. rewrite Hx. cbn [deref mbind res_bind].
  destruct (wf_views s Hs v x Hx) as [Hb Hd]. unfold view_clock.
  assert (exists m, match base_ x with Some l => b ← deref (bases s !! l); Ok (ViewBase.size b) | None => Ok 0 end = Ok m /\
    0 <= m /\ (m = 0 \/ 0 < base_clock s (base_ x) (m - 1))) as (m & -> & Hm0 & Hm).
  { unfold base_clock. destruct (base_ x) as [l|]; [|exists 0; split_and!; [done|lia|by left]].
    destruct Hb as [b Hb]. rewrite Hb. cbn. eexists. split_and!; [done|unfold ViewBase.size; lia|].
    destruct (wf_bases s Hs l b Hb) as [Hnn Hlast]. destruct (last b) as [y|] eqn:E.
    - right. rewrite (ViewBase.last_clock b y E). apply last_Some_elem_of in E. rewrite Forall_forall in Hnn.
      specialize (Hnn y E). destruct (decide (y = 0)) as [->|]; [done|lia].
    - left. apply last_None in E as ->. done. }
  cbn [mbind res_bind]. intros [= <-]. pose proof (base_clock_nonneg s (base_ x)) as Hbn.
  destruct (init_cases (diff_ x)) as [[-> ->]|[-> Hne]].
  - rewrite Z.max_l by lia. destruct Hm as [->|Hm]; [by left|right; lia].
  - destruct Hd as [|[Ht Hi]]; [done|]. right.
    destruct (Z.max_spec m (Event.thread (diff_ x) + 1)) as [[? ->]|[? ->]].
    + unfold diff_clock. rewrite decide_True by lia. lia.
    + destruct Hm as [->|Hm]; lia.
Qed.

(** *** A view that is being built

    A view nobody else shares its base with stays so while [setMax] fills it in. *)
Definition building (s : store) (v : vid) : Prop :=
  exists x, views s !! v = Some x /\
    (base_ x = None \/ diff_ x = Event.getInit /\ exists l, base_ x = Some l /\ sole s l v).

Lemma sole_owned s v x l : views s !! v = Some x -> base_ x = Some l -> sole s l v -> owned s x = Some l.
Proof.
  intros Hx Hl Hsole. unfold owned, use_count. rewrite Hl.
  assert (filter (fun p => base_ p.2 = Some l) (views s) = {[v := x]}) as ->; [|by rewrite map_size_singleton].
  apply map_eq. intros w. destruct (decide (w = v)) as [->|Hne].
  - rewrite lookup_singleton_eq. by apply map_lookup_filter_Some.
  - rewrite lookup_singleton_ne by done. apply map_lookup_filter_None. right. intros y Hy E.
    by apply Hne, (Hsole w y).
Qed.

Lemma setMax_building s v e : wf s -> building s v -> 0 <= Event.thread e -> 0 <= Event.index e ->
  exists s', setMax s v e = Ok s' /\ good s v (setf (clk s v) e) s' /\ building s' v.
Proof.
  intros Hs (x & Hx & Hor) Ht Hi.
  destruct (setMax_good s v x e Hs Hx) as (s' & E & Hgood); [|done|done|exists s'; split_and!; [done..|]].
  { intros Ho. destruct Hor as [Hn|[? _]]; [|done]. unfold owned in Ho. by rewrite Hn in Ho. }
  unfold setMax, view_of in E. rewrite Hx in E. cbn [deref mbind res_bind] in E.
  destruct Hor as [Hn|(Hdf & l & Hl & Hsole)].
  - assert (owned s x = None) as Ho by (unfold owned; by rewrite Hn). rewrite Ho, Hn in E.
    cbn [mbind res_bind andb] in E. case_match.
    + injection E as <-. eexists. split; [apply lookup_insert_eq|by left].
    + destruct (hydrate_good s v x Hs Hx) as (s1 & l & Eh & _ & Hv1 & Hsole & _). rewrite Eh in E. cbn in E.
      res_inv. eexists. split; [exact Hv1|]. right. split; [done|]. by exists l.
  - rewrite (sole_owned s v x l Hx Hl Hsole) in E. res_inv. exists x. split; [done|]. right. split; [done|]. by exists l.
Qed.

Lemma create_building s v : wf s -> building (create s v) v /\ good s v (fun _ => 0) (create s v).
Proof.
  intros Hs. split; [eexists; split; [apply lookup_insert_eq|by left]|].
  eapply good_ext; [|by apply with_view_good; [|done|left]]. intros t _. unfold view_clock. cbn. by rewrite diff_clock_init.
Qed.

Lemma all_equal_spec s v w x y : wf s -> views s !! v = Some x -> views s !! w = Some y ->
  forall l b, foldM (fun (acc : bool) i => if acc then a ← getMax s v (Z.of_nat i); b ← getMax s w (Z.of_nat i); Ok (a =? b)
                      else Ok false) b l =
    Ok (b && forallb (fun i => clk s v (Z.of_nat i) =? clk s w (Z.of_nat i)) l).
Proof.
  intros Hs Hx Hy l. induction l as [|i l IH]; intros b; cbn; [by rewrite andb_true_r|].
  destruct b; cbn; [|by rewrite IH].
  rewrite (getMax_ok s v x), (getMax_ok s w y) by (done || lia). cbn. by rewrite IH.
Qed.

Lemma eqb_spec s v w x y : wf s -> views s !! v = Some x -> views s !! w = Some y ->
  exists b, eqb s v w = Ok b /\ (b = true <-> forall t, 0 <= t -> clk s v t = clk s w t).
Proof.
  intros Hs Hx Hy. unfold eqb. case_decide as E; [subst; by exists true|].
  unfold view_of. rewrite Hx, Hy. cbn [deref mbind res_bind].
  destruct (decide (base_ x = base_ y /\ diff_ x = diff_ y)) as [[E1 E2]|_].
  { exists true. split; [done|]. split; [|done]. intros _ t _. unfold clk, view_clock. by rewrite Hx, Hy, E1, E2. }
  destruct (clk_size s v x 0 Hs Hx) as (n & Hn & Hn0 & _). destruct (clk_size s w y 0 Hs Hy) as (m & Hm & Hm0 & _).
  rewrite Hn, Hm. cbn [mbind res_bind]. erewrite all_equal_spec by done. eexists. split; [done|].
  cbn. rewrite forallb_forall. split.
  - intros H t Ht. destruct (decide (t < Z.max n m)).
    + specialize (H (Z.to_nat t)). rewrite in_seq in H. rewrite Z2Nat.id in H by done.
      apply Z.eqb_eq, H. lia.
    + destruct (clk_size s v x t Hs Hx) as (n' & Hn' & _ & Hz). destruct (clk_size s w y t Hs Hy) as (m' & Hm' & _ & Hz').
      rewrite Hn in Hn'. rewrite Hm in Hm'. injection Hn' as <-. injection Hm' as <-.
      rewrite Hz, Hz' by lia. done.
  - intros H i _. rewrite H by lia. lia.
Qed.

(** *** Sequences of operations *)
Inductive op :=
  | OCreate (v : vid) | OCopy (v w : vid) | OClear (v : vid) | ODestroy (v : vid)
  | OUpdateIdx (v : vid) (e : Event.t) | OSetMax (v : vid) (e : Event.t) | OUpdate (v w : vid).

Definition step (s : store) (o : op) : res store :=
  match o with
  | OCreate v => Ok (create s v)
  | OCopy v w => copy s v w
  | OClear v => Ok (clear s v)
  | ODestroy v => Ok (destroy s v)
  | OUpdateIdx v e => updateIdx s v e
  | OSetMax v e => setMax s v e
  | OUpdate v w => update s v w
  end.

(** The specification: views are independent maps from threads to indices. *)
Definition spec := vid -> option (Z -> Z).
Definition spec_set (a : spec) (v : vid) (f : option (Z -> Z)) : spec :=
  fun w => if decide (w = v) then f else a w.
Definition spec_step (a : spec) (o : op) : spec :=
  match o with
  | OCreate v | OClear v => spec_set a v (Some (fun _ => 0))
  | OCopy v w => spec_set a v (a w)
  | ODestroy v => spec_set a v None
  | OUpdateIdx v e => spec_set a v (f ← a v; Some (upd f e))
  | OSetMax v e => spec_set a v (f ← a v; Some (setf f e))
  | OUpdate v w => spec_set a v (f ← a v; g ← a w; Some (maxf f g))
  end.

(** The operands exist, and events are not before the start of time. *)
Definition legal (a : spec) (o : op) : Prop :=
  match o with
  | OCreate _ | OClear _ | ODestroy _ => True
  | OCopy v w => is_Some (a w)
  | OUpdateIdx v e => is_Some (a v) /\ 0 <= Event.thread e
  | OSetMax v e => is_Some (a v) /\ 0 <= Event.thread e /\ 0 <= Event.index e
  | OUpdate v w => is_Some (a v) /\ is_Some (a w)
  end.
Fixpoint legal_run (a : spec) (os : list op) : Prop :=
  match os with [] => True | o :: os => legal a o /\ legal_run (spec_step a o) os end.

Definition agree (s : store) (a : spec) : Prop :=
  forall v, match a v with
            | Some f => is_Some (views s !! v) /\ forall t, 0 <= t -> clk s v t = f t
            | None => views s !! v = None
            end.

Lemma agree_some s a v f : agree s a -> a v = Some f ->
  exists x, views s !! v = Some x /\ forall t, 0 <= t -> clk s v t = f t.
Proof. intros Ha E. specialize (Ha v). rewrite E in Ha. destruct Ha as [[x Hx] ?]. eauto. Qed.

Lemma good_agree s a v f g s' : agree s a -> good s v f s' -> (forall t, 0 <= t -> f t = g t) ->
  agree s' (spec_set a v (Some g)).
Proof.
  intros Ha (_ & Hi & Hc & Hv & Hw) E w. unfold spec_set. case_decide as D.
  - subst. split; [done|]. intros t Ht. by rewrite Hc, E.
  - specialize (Ha w). destruct (a w).
    + destruct Ha as [? Hf]. rewrite Hv by done. split; [done|]. intros t Ht. rewrite Hw by done. auto.
    + by rewrite Hv.
Qed.

Lemma assert_dec s x : assert_ok s x \/
  (dbg = true /\ exists l, owned s x = Some l /\ Event.isInitializer (diff_ x) = false).
Proof.
  unfold assert_ok. destruct dbg; [|by left]. destruct (owned s x) as [l|]; [|by left; intros _ ?].
  destruct (init_cases (diff_ x)) as [[_ ->]|[E _]]; [by left|right; eauto].
Qed.

(** The view that grows does not have a pending event next to a vector of its own, which
    is what the assertions check. *)
Definition settled (s : store) (o : op) : bool :=
  match o with
  | OUpdateIdx v _ | OSetMax v _ | OUpdate v _ =>
      match views s !! v with
      | Some x => match owned s x with Some _ => Event.isInitializer (diff_ x) | None => true end
      | None => true
      end
  | _ => true
  end.
Fixpoint settled_run (s : store) (os : list op) : bool :=
  match os with
  | [] => true
  | o :: os => settled s o && match step s o with Ok s => settled_run s os | Abort _ => true end
  end.
Lemma settled_unowned s v x l : views s !! v = Some x -> owned s x = Some l -> Event.isInitializer (diff_ x) = false ->
  forall o, (exists e, o = OUpdateIdx v e \/ o = OSetMax v e) \/ (exists w, o = OUpdate v w) -> settled s o = false.
Proof. intros Hx Ho Hi o [(e & [->| ->])|(w & ->)]; cbn; by rewrite Hx, Ho. Qed.

(** One operation: it achieves its specification, or the assertion on pending
    events fires (in a debug build).  In a release build only [setMax] needs
    that no pending event is left behind. *)
Lemma step_spec s a o : wf s -> agree s a -> legal a o -> dbg = true \/ (forall v e, o <> OSetMax v e) \/ settled s o = true ->
  (exists s', step s o = Ok s' /\ wf s' /\ agree s' (spec_step a o)) \/
  (dbg = true /\ step s o = Abort AssertFailed /\ settled s o = false).
Proof.
  intros Hs Ha Hl Hm.
  assert (Hgood : forall v x, views s !! v = Some x -> good s v (view_clock s x) (with_view s v x)).
  { intros v x Hx. destruct (wf_views s Hs v x Hx). by apply with_view_good. }
  assert (Hempty : forall v, good s v (fun _ => 0) (with_view s v no_view)).
  { intros v. eapply good_ext; [|apply with_view_good; [done|done|by left]].
    intros t _. unfold view_clock. cbn. by rewrite diff_clock_init. }
  destruct o as [v|v w|v|v|v e|v e|v w]; cbn [step spec_step legal] in *.
  - left. eexists. split; [done|]. split; [apply (Hempty v)|]. by eapply good_agree.
  - left. destruct Hl as [f Hf]. destruct (agree_some s a w f Ha Hf) as (x & Hx & Hc).
    unfold copy, view_of. rewrite Hx. cbn. eexists. split; [done|].
    destruct (wf_views s Hs w x Hx). pose proof (with_view_good s v x Hs ltac:(done) ltac:(done)) as Hg.
    split; [apply Hg|]. rewrite Hf. eapply good_agree; [done|exact Hg|].
    intros t Ht. rewrite <- Hc by done. unfold clk. by rewrite Hx.
  - left. eexists. split; [done|]. split; [apply (Hempty v)|]. by eapply good_agree.
  - left. eexists. split; [done|]. split.
    + split; [apply (wf_bases s Hs)|]. intros w y Hy. cbn in Hy. apply lookup_delete_Some in Hy as [_ Hy].
      by apply (wf_views s Hs w).
    + intros w. unfold spec_set. cbn. case_decide as D; [subst; by rewrite lookup_delete_eq|].
      specialize (Ha w). unfold clk. cbn. by rewrite lookup_delete_ne.
  - destruct Hl as [[f Hf] He]. destruct (agree_some s a v f Ha Hf) as (x & Hx & Hc).
    destruct (assert_dec s x) as [Hok|(Hd & l & Ho & Hni)].
    + left. destruct (updateIdx_good s v x e Hs Hx Hok He) as (s' & -> & Hg). eexists. split; [done|].
      split; [apply Hg|]. rewrite Hf. eapply good_agree; [done|exact Hg|].
      intros t Ht. unfold upd. by rewrite Hc.
    + unfold updateIdx. rewrite (contains_ok s v x) by done. cbn [mbind res_bind].
      destruct (Z.leb_spec (Event.index e) (clk s v (Event.thread e))) as [Hle|Hlt].
      * left. exists s. split_and!; [done..|]. rewrite Hf. eapply good_agree; [done|by eapply good_refl|].
        intros t Ht. cbn. unfold upd. rewrite <- Hc by done. case_decide; [subst; lia|done].
      * right. split; [done|]. split; [|by apply (settled_unowned s v x l Hx Ho Hni); eauto 7]. unfold view_of. rewrite Hx. cbn. rewrite Ho. unfold ASSERT. by rewrite Hd, Hni.
  - destruct Hl as [[f Hf] [He Hi]]. destruct (agree_some s a v f Ha Hf) as (x & Hx & Hc).
    destruct (assert_dec s x) as [Hok|(Hd & l & Ho & Hni)].
    + left. assert (owned s x <> None -> diff_ x = Event.getInit) as Hown.
      { destruct Hm as [Hdbg|[Hm|Hm]]; [by apply Hok|by destruct (Hm v e)|]. cbn in Hm. rewrite Hx in Hm.
        intros H. destruct (owned s x); [|done]. by apply Event.isInitializer_spec. }
      destruct (setMax_good s v x e Hs Hx Hown He Hi) as (s' & -> & Hg). eexists. split; [done|].
      split; [apply Hg|]. rewrite Hf. eapply good_agree; [done|exact Hg|].
      intros t Ht. unfold setf. by rewrite Hc.
    + right. split; [done|]. split; [|by apply (settled_unowned s v x l Hx Ho Hni); eauto 7]. unfold setMax, view_of. rewrite Hx. cbn. rewrite Ho. unfold ASSERT. by rewrite Hd, Hni.
  - destruct Hl as [[f Hf] [g Hg']]. destruct (agree_some s a v f Ha Hf) as (x & Hx & Hc).
    destruct (agree_some s a w g Ha Hg') as (y & Hy & Hcy).
    destruct (assert_dec s x) as [Hok|(Hd & l & Ho & Hni)].
    + left. destruct (update_good s v w x y Hs Hx Hy Hok) as (s' & -> & Hg). eexists. split; [done|].
      split; [apply Hg|]. rewrite Hf, Hg'. eapply good_agree; [done|exact Hg|].
      intros t Ht. unfold maxf. by rewrite Hc, Hcy.
    + right. split; [done|]. split; [|by apply (settled_unowned s v x l Hx Ho Hni); eauto 7]. unfold update, view_of. rewrite Hx, Hy. cbn. rewrite Ho. unfold ASSERT. by rewrite Hd, Hni.
Qed.

Lemma empty_store_ok : wf empty_store /\ agree empty_store (fun _ => None).
Proof. split; [split; intros ??; cbn; by rewrite lookup_empty|]. intros v. apply lookup_empty. Qed.

Lemma run_spec os : forall s a, wf s -> agree s a -> legal_run a os ->
  dbg = true \/ (forall v e, OSetMax v e ∉ os) \/ settled_run s os = true ->
  (exists s', foldM step s os = Ok s' /\ wf s' /\ agree s' (foldl spec_step a os)) \/
  (dbg = true /\ foldM step s os = Abort AssertFailed /\ settled_run s os = false).
Proof.
  induction os as [|o os IH]; intros s a Hs Ha Hl Hm; [left; by exists s|].
  destruct Hl as [Hl Hls]. cbn.
  destruct (step_spec s a o Hs Ha Hl) as [(s' & E & Hs' & Ha')|(Hd & E & Hn)]; [|rewrite E; cbn..].
  - destruct Hm as [|[Hm|Hm]]; [by left|right; left|right; right].
    + intros v e ->. apply (Hm v e). by left.
    + by destruct (andb_prop _ _ Hm).
  - destruct (IH s' (spec_step a o) Hs' Ha' Hls) as [?|(? & ? & Hr)]; [|by left|right; split_and!; [done..|by rewrite Hr, andb_false_r]].
    destruct Hm as [|[Hm|Hm]]; [by left|right; left|right; right].
    + intros v e Hin. apply (Hm v e). by right.
    + cbn in Hm. rewrite E in Hm. by destruct (andb_prop _ _ Hm).
  - right. by rewrite Hn.
Qed.

(** C39: views that share vectors behave as independent maps, where the code means them
    to.  After any sequence of constructions, copies, updates, merges and destructions,
    from an empty store, every view stands for the clock that a map of its own would
    hold - no write to a shared vector shows through another view - if no view grows
    while it has a pending event next to a vector that it alone owns, in every build; and
    in release builds even then, as long as [setMax] is not used.  In debug builds the
    only other outcome is that the assertion on pending events fires, which takes such a
    view.  ([setMax_is_lost] and [assertion_can_fail] show that the conditions are
    needed.) *)
Theorem views_are_independent os : legal_run (fun _ => None) os ->
  let independent := exists s, foldM step empty_store os = Ok s /\ agree s (foldl spec_step (fun _ => None) os) in
  (settled_run empty_store os = true -> independent) /\
  (dbg = false -> (forall v e, OSetMax v e ∉ os) -> independent) /\
  (dbg = true -> independent \/ foldM step empty_store os = Abort AssertFailed /\ settled_run empty_store os = false).
Proof.
  intros Hl ind. destruct empty_store_ok as [Hs Ha]. split_and!.
  - intros Hr. destruct (run_spec os _ _ Hs Ha Hl) as [(s & ? & _ & ?)|(_ & _ & ?)]; [by right; right|by exists s|congruence].
  - intros Hd Hm. destruct (run_spec os _ _ Hs Ha Hl) as [(s & ? & _ & ?)|(? & _)]; [by right; left|by exists s|congruence].
  - intros Hd. destruct (run_spec os _ _ Hs Ha Hl) as [(s & ? & _ & ?)|(_ & ? & ?)]; [by left|left; by exists s|by right].
Qed.

(** the observers.  On well-formed stores they never read out of range;
    [getMax] and [contains(Event)] read the clock, [operator==] decides equality
    of clocks, and a positive [contains(const View &)] implies the pointwise
    order. *)
Theorem observers_spec s v w x y : wf s -> views s !! v = Some x -> views s !! w = Some y ->
  (forall t, 0 <= t -> getMax s v t = Ok (clk s v t)) /\
  (forall e, 0 <= Event.thread e -> contains s v e = Ok (Event.index e <=? clk s v (Event.thread e))) /\
  (exists b, eqb s v w = Ok b /\ (b = true <-> forall t, 0 <= t -> clk s v t = clk s w t)) /\
  (exists b, contains_view s v w = Ok b /\ (b = true -> forall t, 0 <= t -> clk s w t <= clk s v t)).
Proof.
  intros Hs Hx Hy. split_and!.
  - intros. by eapply getMax_ok.
  - intros. by eapply contains_ok.
  - by eapply eqb_spec.
  - by eapply contains_view_sound.
Qed.

End ops.

(** Two views of one base: the second diverges by a pending event, then by a
    hydration, and the first never changes. *)
Definition example_ops : list op :=
  [OCreate 1; OUpdateIdx 1 (Event.Event 0 2); OUpdateIdx 1 (Event.Event 1 1); OCopy 2 1;
   OUpdateIdx 2 (Event.Event 2 5); OUpdateIdx 2 (Event.Event 3 1)]%positive.

Lemma views_are_independent_witness :
  exists s, foldM (step true) empty_store example_ops = Ok s /\ agree s (foldl spec_step (fun _ => None) example_ops).
Proof.
  destruct (views_are_independent true example_ops) as [H _].
  - cbn; unfold spec_set; cbn; split_and!; try done; by eexists.
  - apply H. vm_compute. reflexivity.
Defined.

Lemma observers_spec_witness :
  getMax (with_view empty_store 1%positive no_view) 1%positive 0 =
    Ok (clk (with_view empty_store 1%positive no_view) 1%positive 0).
Proof.
  eapply (observers_spec (with_view empty_store 1%positive no_view) 1%positive 1%positive no_view no_view);
    [|done|done|lia].
  split.
  - intros l b Hb. cbn in Hb. by rewrite lookup_empty in Hb.
  - intros v x Hx. cbn in Hx. destruct (decide (v = 1%positive)) as [->|Hn].
    + rewrite lookup_insert_eq in Hx. injection Hx as <-. split; [done|by left].
    + rewrite lookup_insert_ne in Hx by done. by rewrite lookup_empty in Hx.
Defined.

(** The assertion is reachable: a view with a pending event becomes the only
    owner of its base when the other owner is destroyed. *)
Definition stale_ops : list op :=
  [OCreate 1; OUpdateIdx 1 (Event.Event 0 2); OUpdateIdx 1 (Event.Event 1 1); OCopy 2 1;
   OUpdateIdx 2 (Event.Event 2 5); ODestroy 1]%positive.
Lemma assertion_can_fail :
  (s ← foldM (step true) empty_store (stale_ops ++ [OUpdateIdx 2%positive (Event.Event 3 1)]); Ok (views s)) =
    Abort AssertFailed.
Proof. by vm_compute. Qed.

(** In a release build [setMax] then writes below the pending event, which
    still shows through. *)
Lemma setMax_is_lost :
  (s ← foldM (step false) empty_store (stale_ops ++ [OSetMax 2%positive (Event.Event 2 3)]);
   getMax s 2%positive 2) = Ok 5.
Proof. by vm_compute. Qed.

(** [contains(const View &)] overlooks the pending event of the containing view:
    here view 1 has seen everything view 2 has. *)
Lemma contains_view_incomplete :
  (s ← foldM (step false) empty_store
     [OCreate 1; OUpdateIdx 1 (Event.Event 1 3);
      OCreate 2; OUpdateIdx 2 (Event.Event 0 1); OUpdateIdx 2 (Event.Event 1 2);
      OSetMax 2 (Event.Event 0 0)]%positive;
   c ← contains_view s 1%positive 2%positive;
   a ← getMax s 1%positive 0; b ← getMax s 2%positive 0;
   a' ← getMax s 1%positive 1; b' ← getMax s 2%positive 1;
   Ok (c, (a, b), (a', b'))) = Ok (false, (0, 0), (3, 2)).
Proof. by vm_compute. Qed.

End View.
