(* ===== verification/IntervalMap.v ===== *)
(** * Interval maps

    Models ADT/IntervalMap.hpp and ADT/IntervalSet.hpp.  An interval map stores, in an
    ordered map, the points where its value changes; [add] aggregates a value into an
    interval, splitting and merging segments.  The code works for any value type with
    an identity, [operator==] and [operator+=]: the class [IVal]. *)

From S2P Require Import Prelude.
Local Open Scope Z_scope.

Module IntervalMap.

(** Keys are addresses: words. *)
Abbreviation K := Z.

(** [Interval<Key>]: right-open. *)
Record Interval := MkInterval { start : K; end_ : K }.
Definition is_valid (iv : Interval) : bool := start iv <? end_ iv.
Definition intersect (a b : Interval) : Interval :=
  let s := Z.max (start a) (start b) in
  let e := Z.min (end_ a) (end_ b) in
  MkInterval s (Z.max s e).

(** [operator==] and [operator+=]; the aggregation may fail. *)
Class IVal (V : Type) := {
  veq : V -> V -> bool;
  vadd : V -> V -> res V
}.

Section map.
Context {V : Type} `{IVal V}.

(** The map from keys to values, in the order of the keys, and the identity. *)
Record t := IMap { map_ : list (K * V); id_ : V }.
Definition clear (m : t) : t := IMap [] (id_ m).

(** Where the keys stop satisfying [p]: [std::map::lower_bound] and [upper_bound]. *)
Fixpoint span (p : K -> bool) (l : list (K * V)) : list (K * V) * list (K * V) :=
  match l with
  | [] => ([], [])
  | (k, x) :: l' => if p k then let '(a, b) := span p l' in ((k, x) :: a, b) else ([], l)
  end.
(** The labels before the iterator, and those from it on. *)
Definition lower (l : list (K * V)) (k : K) := span (fun k' => k' <? k) l.
Definition upper (l : list (K * V)) (k : K) := span (fun k' => k' <=? k) l.
(** [std::prev(it)]: the iterator moves back over the last element before it. *)
Definition prev (pre : list (K * V)) : option (list (K * V) * (K * V)) :=
  match last pre with Some x => Some (removelast pre, x) | None => None end.

(** *** Iterators *)
(** An iterator is the rest of the map; [skipIdentity]. *)
Fixpoint skip (d : V) (l : list (K * V)) : list (K * V) :=
  match l with [] => [] | (k, x) :: l' => if veq x d then skip d l' else l end.
Definition begin_ (m : t) : list (K * V) := skip (id_ m) (map_ m).
Definition incr (m : t) (it : list (K * V)) : list (K * V) := skip (id_ m) (tail it).
Definition empty (m : t) : bool := bool_decide (length (begin_ m) = 0%nat).
(** The entry at an iterator; the last segment extends to the greatest key. *)
Definition entry (key_max : K) (it : list (K * V)) : res (Interval * V) :=
  match it with
  | [] => Abort Undefined
  | (k, x) :: it' => Ok (MkInterval k (match it' with [] => key_max | (k', _) :: _ => k' end), x)
  end.

(** *** Lookup *)
Definition find_internal (m : t) (p : K) : list (K * V) :=
  let '(pre, rest) := upper (map_ m) p in
  match prev pre with
  | Some (_, (k, x)) => if negb (veq x (id_ m)) then (k, x) :: rest else []
  | None => []
  end.
Definition find (m : t) (p : K) : list (K * V) := skip (id_ m) (find_internal m p).
Definition find_interval (key_max : K) (m : t) (iv : Interval) : res (list (K * V)) :=
  let it := find m (start iv) in
  match it with
  | [] => Ok []
  | _ => en ← entry key_max it; Ok (if end_ iv <=? end_ en.1 then it else [])
  end.
Definition contains (m : t) (p : K) : bool := negb (bool_decide (length (find_internal m p) = 0%nat)).
Definition contains_interval (key_max : K) (m : t) (iv : Interval) : res bool :=
  it ← find_interval key_max m iv; Ok (negb (bool_decide (length it = 0%nat))).
Definition get (m : t) (p : K) : V :=
  match find_internal m p with [] => id_ m | (_, x) :: _ => x end.

(** The first segment that ends after [s]. *)
Fixpoint ends_after (key_max s : K) (it : list (K * V)) : list (K * V) :=
  match it with
  | [] => []
  | (k, x) :: it' =>
      let b := match it' with [] => key_max | (k', _) :: _ => k' end in
      if s <? b then it else ends_after key_max s it'
  end.
Definition lower_bound (key_max : K) (m : t) (iv : Interval) : list (K * V) :=
  if end_ iv <=? start iv then [] else
  let '(pre, rest) := upper (map_ m) (start iv) in
  let it := match prev pre with Some (_, x) => x :: rest | None => rest end in
  skip (id_ m) (ends_after key_max (start iv) it).
Definition upper_bound (m : t) (iv : Interval) : list (K * V) :=
  if end_ iv <=? start iv then [] else skip (id_ m) (lower (map_ m) (end_ iv)).2.

(** The loop over the segments of an interval,
    [it = m.lower_bound(iv)], [ie = m.upper_bound(iv)], [while (it != ie) { ...; ++it; }]. *)
Fixpoint walk (fuel : nat) (key_max : K) (m : t) (it ie : list (K * V)) : res (list (Interval * V)) :=
  if bool_decide (length it = length ie) then Ok [] else
  match fuel with
  | O => Abort OutOfFuel
  | S fuel => en ← entry key_max it; r ← walk fuel key_max m (incr m it) ie; Ok (en :: r)
  end.
Definition segments (key_max : K) (m : t) (iv : Interval) : res (list (Interval * V)) :=
  walk (length (map_ m)) key_max m (lower_bound key_max m iv) (upper_bound m iv).

(** *** Changes *)
(** [create_split]: the elements before the point, and those from it on. *)
Definition create_split (m : t) (p : K) : list (K * V) * list (K * V) :=
  let '(pre, rest) := lower (map_ m) p in
  let here := match rest with (k, _) :: _ => k =? p | [] => false end in
  if here then (pre, rest)
  else let prevVal := match prev pre with Some (_, (_, x)) => x | None => id_ m end in (pre, (p, prevVal) :: rest).
(** [canonicalize]: the element after [pre] stays unless it repeats the value before it. *)
Definition canonicalize (d : V) (pre : list (K * V)) (x : K * V) : list (K * V) :=
  match prev pre with
  | None => if veq x.2 d then pre else pre ++ [x]
  | Some (_, y) => if veq y.2 x.2 then pre else pre ++ [x]
  end.
(** The loop of [add] and [erase] up to [e]; an element inserted at [e] ends it. *)
Fixpoint update (d : V) (f : V -> res V) (e : K) (pre rest : list (K * V)) : res (list (K * V) * list (K * V)) :=
  match rest with
  | [] => Ok (pre, [])
  | (k, x) :: rest' =>
      if k <? e then
        y ← f x;
        let pre := canonicalize d pre (k, y) in
        match rest' with
        | [] => Ok (pre, [(e, x)])
        | (k', _) :: _ => if e <? k' then Ok (pre, (e, x) :: rest') else update d f e pre rest'
        end
      else Ok (pre, rest)
  end.
Definition modify (f : V -> res V) (m : t) (iv : Interval) : res t :=
  let '(pre, rest) := create_split m (start iv) in
  '(pre, rest) ← update (id_ m) f (end_ iv) pre rest;
  match rest with
  | [] => Abort VerifyFailed
  | (k, x) :: rest => verify (k =? end_ iv);; Ok (IMap (canonicalize (id_ m) pre (k, x) ++ rest) (id_ m))
  end.
Definition add (m : t) (iv : Interval) (val : V) : res t :=
  if (end_ iv <=? start iv) || veq val (id_ m) then Ok m else modify (fun x => vadd x val) m iv.
Definition erase (m : t) (iv : Interval) : res t :=
  if end_ iv <=? start iv then Ok m else modify (fun _ => Ok (id_ m)) m iv.
End map.
Arguments t V : clear implicits.

(** ** The function that a map stands for *)
(** Equality of values is an equivalence. *)
Class IValLaws (V : Type) `{IVal V} := {
  veq_equiv : Equivalence (fun x y : V => veq x y = true)
}.

(** The points of an interval. *)
Definition within (iv : Interval) (p : K) : bool := (start iv <=? p) && (p <? end_ iv).
Lemma within_spec iv p : within iv p = true <-> start iv <= p < end_ iv.
Proof. unfold within. rewrite andb_true_iff, Z.leb_le, Z.ltb_lt. done. Qed.

Section laws.
Context {V : Type} `{IValLaws V}.
#[local] Notation "x ≈ y" := (veq x y = true) (at level 70).
#[local] Instance veq_equivalence : Equivalence (fun x y : V => x ≈ y) := veq_equiv.
Lemma veq_refl x : x ≈ x.
Proof. apply veq_equivalence. Qed.
Lemma veq_sym x y : x ≈ y -> y ≈ x.
Proof. apply veq_equivalence. Qed.
Lemma veq_trans x y z : x ≈ y -> y ≈ z -> x ≈ z.
Proof. apply veq_equivalence. Qed.
Lemma veq_ne x y z : x ≈ y -> veq x z = false -> veq y z = false.
Proof. intros E Hf. destruct (veq y z) eqn:E'; [|done]. by rewrite (veq_trans x y z E E') in Hf. Qed.

(** The value at a point: that of the last key before it. *)
Fixpoint value_at (d : V) (l : list (K * V)) (p : K) : V :=
  match l with [] => d | (k, x) :: l => if k <=? p then value_at x l p else d end.
Definition denote (m : t V) (p : K) : V := value_at (id_ m) (map_ m) p.
(** The value behind all keys. *)
Definition final (d : V) (l : list (K * V)) : V := default d (snd <$> last l).

(** Keys increase beyond [lo], and every value differs from the one before it. *)
Fixpoint chain (lo : option K) (d : V) (l : list (K * V)) : Prop :=
  match l with
  | [] => True
  | (k, x) :: l => (forall k', lo = Some k' -> k' < k) /\ veq d x = false /\ chain (Some k) x l
  end.
Record canonical (m : t V) : Prop := {
  can_chain : chain None (id_ m) (map_ m);
  can_final : final (id_ m) (map_ m) ≈ id_ m
}.

Lemma final_cons d k x l : final d ((k, x) :: l) = final x l.
Proof. unfold final. rewrite last_cons. by destruct (last l). Qed.
Lemma final_snoc d l k x : final d (l ++ [(k, x)]) = x.
Proof. unfold final. by rewrite last_snoc. Qed.
Lemma final_app d l1 l2 : final d (l1 ++ l2) = final (final d l1) l2.
Proof. unfold final. rewrite last_app. by destruct (last l2). Qed.
Lemma chain_app lo d l1 l2 : chain lo d (l1 ++ l2) <->
  chain lo d l1 /\ chain (match last l1 with Some (k, _) => Some k | None => lo end) (final d l1) l2.
Proof.
  revert lo d. induction l1 as [|[k x] l1 IH]; intros lo d; cbn [app chain]; [cbn; tauto|].
  rewrite IH, final_cons, last_cons. destruct (last l1) as [[k' x']|] eqn:E; cbn; tauto.
Qed.
Lemma chain_lo lo lo' d l : chain lo d l -> (forall k', lo' = Some k' -> exists k, lo = Some k /\ k' <= k) -> chain lo' d l.
Proof.
  destruct l as [|[k x] l]; [done|]. intros (H1 & H2 & H3) Hlo. split; [|done]. intros k' Hk'. destruct (Hlo k' Hk') as (k0 & Ek & Hle).
  specialize (H1 k0 Ek). lia.
Qed.
Lemma chain_veq lo d d' l : d ≈ d' -> chain lo d l -> chain lo d' l.
Proof. destruct l as [|[k x] l]; [done|]. intros E (H1 & H2 & H3). split; [done|]. split; [by apply (veq_ne d)|done]. Qed.
Lemma value_at_veq d d' l p : d ≈ d' -> value_at d l p ≈ value_at d' l p.
Proof. destruct l as [|[k x] l]; cbn; [done|]. intros E. destruct (k <=? p); [apply veq_refl|done]. Qed.
(** Keys are below [c]. *)
Definition below (l : list (K * V)) (c : K) : Prop := Forall (fun kx => kx.1 < c) l.
Lemma chain_above lo d l k x : chain lo d l -> (k, x) ∈ l -> forall k', lo = Some k' -> k' < k.
Proof.
  revert lo d. induction l as [|[k0 x0] l IH]; intros lo d Hc Hin k' Hlo; [by apply not_elem_of_nil in Hin|]. destruct Hc as (H1 & _ & Hc).
  apply elem_of_cons in Hin as [[= -> ->]|Hin]; [by apply H1|]. specialize (H1 k' Hlo). specialize (IH _ _ Hc Hin k0 eq_refl). lia.
Qed.
Lemma value_at_before d l p c : (forall k x, (k, x) ∈ l -> c <= k) -> p < c -> value_at d l p = d.
Proof. destruct l as [|[k x] l]; [done|]. intros Hl Hp. cbn. specialize (Hl k x ltac:(by left)). by rewrite (proj2 (Z.leb_gt k p)) by lia. Qed.
Lemma value_at_app d l1 l2 p c : below l1 c -> (forall k x, (k, x) ∈ l2 -> c <= k) -> 
  value_at d (l1 ++ l2) p = if p <? c then value_at d l1 p else value_at (final d l1) l2 p.
Proof.
  revert d. induction l1 as [|[k x] l1 IH]; intros d H1 H2; cbn [app value_at].
  - destruct (Z.ltb_spec p c); [by apply (value_at_before d l2 p c)|done].
  - apply Forall_cons in H1 as [Hk H1]. cbn in Hk. rewrite final_cons, IH by done.
    destruct (Z.leb_spec k p), (Z.ltb_spec p c); try done. lia.
Qed.

(** *** The parts of a change *)
Lemma span_spec (p : K -> bool) (l : list (K * V)) : (span p l).1 ++ (span p l).2 = l /\ Forall (fun kx => p kx.1 = true) (span p l).1 /\
  match (span p l).2 with (k, _) :: _ => p k = false | [] => True end.
Proof.
  induction l as [|[k x] l (IH1 & IH2 & IH3)]; cbn; [done|]. destruct (p k) eqn:E; [|done].
  destruct (span p l) as [a b]. cbn in *. split; [by rewrite IH1|]. split; [by constructor|done].
Qed.
Lemma prev_final (d : V) pre : final d pre = match prev pre with Some (_, (_, x)) => x | None => d end.
Proof. unfold final, prev. by destruct (last pre) as [[k x]|]. Qed.
Lemma rest_above k (d : V) l k' x : chain (Some k) d l -> (k', x) ∈ l -> k < k'.
Proof. intros Hc Hin. by apply (chain_above _ _ _ _ _ Hc Hin). Qed.
Lemma below_last l c k (x : V) : below l c -> last l = Some (k, x) -> k < c.
Proof. intros Hb Hl. apply last_Some_elem_of in Hl. unfold below in Hb. rewrite Forall_forall in Hb. by apply (Hb (k, x)). Qed.
Lemma below_le l c c' : below l c -> c <= c' -> below l c'.
Proof. intros Hb Hle. eapply Forall_impl; [exact Hb|]. cbn. lia. Qed.

Lemma create_split_ok (m : t V) p : chain None (id_ m) (map_ m) -> exists pre x rest, create_split m p = (pre, (p, x) :: rest) /\
  chain None (id_ m) pre /\ below pre p /\ chain (Some p) x rest /\ final x rest = final (id_ m) (map_ m) /\
  (forall q, q < p -> value_at (id_ m) pre q = denote m q) /\ (forall q, p <= q -> value_at x rest q = denote m q).
Proof.
  intros Hc. unfold create_split, denote, lower. destruct (span_spec (fun k => k <? p) (map_ m)) as (E & Hpre & Hrest).
  destruct (span _ (map_ m)) as [pre rest]. cbn [fst snd] in *. rewrite <- E in *. clear E.
  assert (Hb : below pre p) by (eapply Forall_impl; [exact Hpre|]; cbn; lia). apply chain_app in Hc as [Hc Hr].
  assert (Hv : forall q, value_at (id_ m) (pre ++ rest) q = if q <? p then value_at (id_ m) pre q else value_at (final (id_ m) pre) rest q).
  { intros q. apply value_at_app; [done|]. intros k x Hin. destruct rest as [|[k0 x0] rest]; [by apply not_elem_of_nil in Hin|].
    apply Z.ltb_ge in Hrest. apply elem_of_cons in Hin as [[= -> ->]|Hin]; [done|]. destruct Hr as (_ & _ & Hr).
    pose proof (rest_above _ _ _ _ _ Hr Hin). lia. }
  assert (Hlow : forall q, q < p -> value_at (id_ m) pre q = value_at (id_ m) (pre ++ rest) q).
  { intros q Hq. rewrite Hv. by rewrite (proj2 (Z.ltb_lt q p) Hq). }
  assert (Hhigh : forall q, p <= q -> value_at (id_ m) (pre ++ rest) q = value_at (final (id_ m) pre) rest q).
  { intros q Hq. rewrite Hv. by rewrite (proj2 (Z.ltb_ge q p) Hq). }
  destruct rest as [|[k x] rest].
  - exists pre, (final (id_ m) pre), []. rewrite <- prev_final. split_and!; try done; [by rewrite app_nil_r|]. intros q Hq. by rewrite Hhigh.
  - apply Z.ltb_ge in Hrest. destruct (Z.eqb_spec k p) as [->|Hne].
    + exists pre, x, rest. destruct Hr as (_ & _ & Hr). split_and!; try done; [by rewrite final_app, final_cons|].
      intros q Hq. rewrite Hhigh by done. cbn. by rewrite (proj2 (Z.leb_le p q) Hq).
    + exists pre, (final (id_ m) pre), ((k, x) :: rest). rewrite <- prev_final. split_and!; try done.
      * destruct Hr as (_ & ? & ?). split_and!; [|done..]. intros k' [= <-]. lia.
      * by rewrite final_app.
      * intros q Hq. by rewrite Hhigh.
Qed.

Lemma canonicalize_ok (d : V) pre k y : chain None d pre -> below pre k -> let l := canonicalize d pre (k, y) in
  chain None d l /\ below l (k + 1) /\ final d l ≈ y /\
  (forall q, q < k -> value_at d l q = value_at d pre q) /\ (forall q, k <= q -> value_at d l q ≈ y).
Proof.
  intros Hc Hb l. subst l. unfold canonicalize. cbn [snd].
  assert (Hdrop : final d pre ≈ y -> chain None d pre /\ below pre (k + 1) /\ final d pre ≈ y /\
    (forall q, q < k -> value_at d pre q = value_at d pre q) /\ (forall q, k <= q -> value_at d pre q ≈ y)).
  { intros E. split_and!; try done; [eapply below_le; [done|lia]|]. intros q Hq. rewrite <- (app_nil_r pre).
    rewrite (value_at_app d pre [] q k) by (done || by intros ?? ?%not_elem_of_nil). by rewrite (proj2 (Z.ltb_ge q k) Hq). }
  assert (Hkeep : veq (final d pre) y = false -> chain None d (pre ++ [(k, y)]) /\ below (pre ++ [(k, y)]) (k + 1) /\ final d (pre ++ [(k, y)]) ≈ y /\
    (forall q, q < k -> value_at d (pre ++ [(k, y)]) q = value_at d pre q) /\ (forall q, k <= q -> value_at d (pre ++ [(k, y)]) q ≈ y)).
  { intros E. assert (Hv : forall q, value_at d (pre ++ [(k, y)]) q = if q <? k then value_at d pre q else value_at (final d pre) [(k, y)] q).
    { intros q. apply value_at_app; [done|]. intros k' x' [= -> ->]%list_elem_of_singleton. lia. }
    split_and!.
    - apply chain_app. split; [done|]. split_and!; [|done..]. intros k'. destruct (last pre) as [[k0 x0]|] eqn:El; [|done]. intros [= <-]. by eapply below_last.
    - apply Forall_app. split; [eapply below_le; [done|lia]|]. constructor; [cbn; lia|constructor].
    - rewrite final_snoc. apply veq_refl.
    - intros q Hq. rewrite Hv. by rewrite (proj2 (Z.ltb_lt q k) Hq).
    - intros q Hq. rewrite Hv, (proj2 (Z.ltb_ge q k) Hq). cbn. rewrite (proj2 (Z.leb_le k q) Hq). apply veq_refl. }
  pose proof (prev_final d pre) as Ef. destruct (prev pre) as [[pr [k0 y0]]|]; cbn [snd].
  - destruct (veq y0 y) eqn:E; [apply Hdrop|apply Hkeep]; by rewrite Ef.
  - destruct (veq y d) eqn:E; [apply Hdrop; rewrite Ef; by apply veq_sym|]. apply Hkeep. rewrite Ef. destruct (veq d y) eqn:E'; [|done]. by rewrite (veq_sym _ _ E') in E.
Qed.

Lemma update_cons (d : V) f e pre k x rest : update d f e pre ((k, x) :: rest) =
  if k <? e then
    y ← f x;
    match rest with
    | [] => Ok (canonicalize d pre (k, y), [(e, x)])
    | (k', _) :: _ => if e <? k' then Ok (canonicalize d pre (k, y), (e, x) :: rest) else update d f e (canonicalize d pre (k, y)) rest
    end
  else Ok (pre, (k, x) :: rest).
Proof. done. Qed.
Lemma update_ok (d : V) f e rest : forall pre c x, chain None d pre -> below pre c -> chain (Some c) x rest -> c <= e ->
  (forall q, c <= q < e -> exists y, f (value_at x rest q) = Ok y) ->
  exists pre' x' rest', update d f e pre ((c, x) :: rest) = Ok (pre', (e, x') :: rest') /\
    chain None d pre' /\ below pre' e /\ chain (Some e) x' rest' /\ final x' rest' = final x rest /\
    (forall q, e <= q -> value_at x' rest' q = value_at x rest q) /\
    (forall q, q < c -> value_at d pre' q = value_at d pre q) /\
    (forall q y, c <= q < e -> f (value_at x rest q) = Ok y -> value_at d pre' q ≈ y).
Proof.
  induction rest as [|[k' x'] rest IH]; intros pre c x Hc Hb Hr Hce Hf; rewrite update_cons.
  - destruct (Z.ltb_spec c e) as [Hlt|Hge].
    + destruct (Hf c) as [y Hy]; [lia|]. cbn [value_at] in *. rewrite Hy. cbn [mbind res_bind].
      destruct (canonicalize_ok d pre c y Hc Hb) as (H1 & H2 & _ & H4 & H5). eexists _, x, []. split; [done|].
      split_and!; try done; [eapply below_le; [done|lia]|]. intros q y' Hq Hy'. assert (y' = y) as -> by congruence. apply H5. lia.
    + assert (c = e) as -> by lia. exists pre, x, []. split_and!; try done. lia.
  - destruct (Z.ltb_spec c e) as [Hlt|Hge].
    + destruct Hr as (Hck & Hne & Hr). specialize (Hck c eq_refl). assert (Hx : forall q, q < k' -> value_at x ((k', x') :: rest) q = x).
      { intros q Hq. cbn. by rewrite (proj2 (Z.leb_gt k' q) Hq). }
      destruct (Hf c) as [y Hy]; [lia|]. rewrite (Hx c) in Hy by lia. rewrite Hy. cbn [mbind res_bind].
      destruct (canonicalize_ok d pre c y Hc Hb) as (H1 & H2 & _ & H4 & H5).
      assert (Hat : forall q y', c <= q < k' -> f (value_at x ((k', x') :: rest) q) = Ok y' -> y' = y) by (intros q y' Hq; rewrite Hx by lia; congruence).
      destruct (Z.ltb_spec e k') as [Hek|Hek].
      * exists (canonicalize d pre (c, y)), x, ((k', x') :: rest). split; [done|].
        split_and!; [done|eapply below_le; [done|lia]|split_and!; [by intros k0 [= <-]|done|done]|done..|]. intros q y' Hq Hy'. rewrite (Hat q y') by (done || lia). apply H5. lia.
      * assert (Hx' : forall q, k' <= q -> value_at x ((k', x') :: rest) q = value_at x' rest q).
        { intros q Hq. cbn. by rewrite (proj2 (Z.leb_le k' q) Hq). }
        destruct (IH (canonicalize d pre (c, y)) k' x') as (pre' & x2 & rest' & -> & J1 & J2 & J3 & J4 & J5 & J6 & J7);
          [done|eapply below_le; [done|lia]|done|done| |].
        { intros q Hq. rewrite <- Hx' by lia. apply Hf. lia. }
        exists pre', x2, rest'. split; [done|]. split_and!; try done.
        -- by rewrite J4, final_cons.
        -- intros q Hq. rewrite Hx' by lia. by apply J5.
        -- intros q Hq. rewrite J6 by lia. by apply H4.
        -- intros q y' Hq Hy'. destruct (Z.ltb_spec q k').
           ++ rewrite (Hat q y') by (done || lia). rewrite J6 by lia. apply H5. lia.
           ++ apply J7; [lia|]. by rewrite <- Hx' by lia.
    + assert (c = e) as -> by lia. exists pre, x, ((k', x') :: rest). split_and!; try done. lia.
Qed.

(** A change of the interval changes the values in it, and nothing else. *)
Lemma modify_ok f (m : t V) iv : canonical m -> start iv < end_ iv ->
  (forall q, start iv <= q < end_ iv -> exists y, f (denote m q) = Ok y) ->
  exists m', modify f m iv = Ok m' /\ canonical m' /\ id_ m' = id_ m /\
    (forall q, ~ (start iv <= q < end_ iv) -> denote m' q ≈ denote m q) /\
    (forall q y, start iv <= q < end_ iv -> f (denote m q) = Ok y -> denote m' q ≈ y).
Proof.
  intros [Hc Hfin] Hiv Hf. unfold modify. destruct (create_split_ok m (start iv) Hc) as (pre & x & rest & -> & H1 & H2 & H3 & H4 & H5 & H6).
  destruct (update_ok (id_ m) f (end_ iv) rest pre (start iv) x H1 H2 H3) as (pre' & x' & rest' & -> & J1 & J2 & J3 & J4 & J5 & J6 & J7); [lia| |].
  { intros q Hq. rewrite H6 by lia. by apply Hf. }
  cbn [mbind res_bind]. rewrite Z.eqb_refl. cbn [verify mbind res_bind]. eexists. split; [done|].
  destruct (canonicalize_ok (id_ m) pre' (end_ iv) x' J1 J2) as (L1 & L2 & L3 & L4 & L5).
  set (l := canonicalize (id_ m) pre' (end_ iv, x')) in *.
  assert (Hlast : forall k0, (match last l with Some (k, _) => Some k | None => None end) = Some k0 -> k0 <= end_ iv).
  { intros k0. destruct (last l) as [[k z]|] eqn:E; [|done]. intros [= <-]. pose proof (below_last _ _ _ _ L2 E). lia. }
  assert (Hv : forall q, value_at (id_ m) (l ++ rest') q = if q <? end_ iv + 1 then value_at (id_ m) l q else value_at (final (id_ m) l) rest' q).
  { intros q. apply value_at_app; [done|]. intros k z Hin. pose proof (rest_above _ _ _ _ _ J3 Hin). lia. }
  assert (Hlow : forall q, q < end_ iv -> denote (IMap (l ++ rest') (id_ m)) q = value_at (id_ m) pre' q).
  { intros q Hq. unfold denote. cbn. rewrite Hv. destruct (Z.ltb_spec q (end_ iv + 1)); [by apply L4|lia]. }
  split; [split; cbn [id_ map_]|split; [done|split]].
  - apply chain_app. split; [done|]. apply (chain_lo (Some (end_ iv))); [apply (chain_veq _ x'); [by apply veq_sym|done]|].
    intros k' Hk'. exists (end_ iv). split; [done|by apply Hlast].
  - rewrite final_app. apply (veq_trans _ (final x' rest')); [|by rewrite J4, H4]. unfold final. destruct (last rest'); cbn; [apply veq_refl|done].
  - intros q Hq. destruct (Z.ltb_spec q (end_ iv)).
    + rewrite Hlow, J6, H5 by lia. apply veq_refl.
    + rewrite <- H6, <- J5 by lia. unfold denote. cbn. rewrite Hv. destruct (Z.ltb_spec q (end_ iv + 1)).
      * apply (veq_trans _ x'); [apply L5; lia|]. rewrite (value_at_before x' rest' q (end_ iv + 1)); [apply veq_refl| |lia].
        intros k z Hin. pose proof (rest_above _ _ _ _ _ J3 Hin). lia.
      * by apply value_at_veq.
  - intros q y Hq Hy. rewrite Hlow by lia. apply J7; [done|]. by rewrite H6 by lia.
Qed.

(** *** Properties of all stored values *)
Definition values_ok (P : V -> Prop) (l : list (K * V)) : Prop := Forall (fun kx => P kx.2) l.
Lemma canonicalize_values (P : V -> Prop) d pre x : values_ok P pre -> P x.2 -> values_ok P (canonicalize d pre x).
Proof.
  intros Hpre Hx. assert (values_ok P (pre ++ [x])) by (apply Forall_app; split; [done|by constructor]).
  unfold canonicalize. by repeat case_match.
Qed.
Lemma update_values (P : V -> Prop) d f e rest : (forall x y, P x -> f x = Ok y -> P y) -> forall pre pre' rest',
  values_ok P pre -> values_ok P rest -> update d f e pre rest = Ok (pre', rest') -> values_ok P pre' /\ values_ok P rest'.
Proof.
  intros Hf. induction rest as [|[k x] rest IH]; intros pre pre' rest' Hpre Hrest E; [by injection E as <- <-|].
  rewrite update_cons in E. destruct (k <? e); [|by injection E as <- <-]. apply Forall_cons in Hrest as [Hx Hrest]. cbn in Hx.
  destruct (f x) as [y|] eqn:Ey; [|done]. cbn [mbind res_bind] in E.
  assert (Hc : values_ok P (canonicalize d pre (k, y))) by (apply canonicalize_values; [done|by apply (Hf x)]).
  destruct rest as [|[k' x'] rest]; [injection E as <- <-; split; [done|by constructor]|].
  destruct (e <? k'); [injection E as <- <-; split; [done|by constructor]|]. by apply (IH _ _ _ Hc Hrest E).
Qed.
Lemma modify_values (P : V -> Prop) f (m m' : t V) iv : (forall x y, P x -> f x = Ok y -> P y) -> P (id_ m) -> values_ok P (map_ m) ->
  modify f m iv = Ok m' -> id_ m' = id_ m /\ values_ok P (map_ m').
Proof.
  intros Hf Hid Hm E. unfold modify in E. assert (Hs : values_ok P (create_split m (start iv)).1 /\ values_ok P (create_split m (start iv)).2).
  { unfold create_split, lower. destruct (span_spec (fun k' => k' <? start iv) (map_ m)) as (El & _). destruct (span _ (map_ m)) as [pre rest].
    cbn [fst snd] in El. rewrite <- El in Hm. apply Forall_app in Hm as [Hpre Hrest].
    assert (Hp : P (final (id_ m) pre)).
    { unfold final. destruct (last pre) as [kx|] eqn:El'; [|done]. apply last_Some_elem_of in El'. rewrite Forall_forall in Hpre. by apply Hpre. }
    rewrite prev_final in Hp. destruct (match rest with [] => false | _ => _ end); [by split|].
    split; [done|]. constructor; [|done]. cbn. by destruct (prev pre) as [[? []]|]. }
  destruct (create_split m (start iv)) as [pre rest], Hs as [Hpre Hrest]. cbn [fst snd] in *.
  destruct (update (id_ m) f (end_ iv) pre rest) as [[pre' rest']|] eqn:Eu; [|done]. cbn [mbind res_bind] in E.
  destruct (update_values P _ _ _ _ Hf _ _ _ Hpre Hrest Eu) as [Hpre' Hrest'].
  destruct rest' as [|[k x] rest']; [done|]. res_inv. cbn. split; [done|]. apply Forall_cons in Hrest' as [Hx Hr].
  apply Forall_app. split; [by apply canonicalize_values|done].
Qed.
Lemma denote_values (P : V -> Prop) (m : t V) p : P (id_ m) -> values_ok P (map_ m) -> P (denote m p).
Proof.
  unfold denote. generalize (id_ m) as d. induction (map_ m) as [|[k x] l IH]; intros d Hd Hl; [done|]. apply Forall_cons in Hl as [Hx Hl].
  cbn. destruct (k <=? p); [by apply IH|done].
Qed.
(** [add] as a change of the denotation. *)
Lemma map_add_ok (m : t V) iv v : canonical m -> start iv < end_ iv -> veq v (id_ m) = false ->
  (forall p, start iv <= p < end_ iv -> exists y, vadd (denote m p) v = Ok y) ->
  exists m', add m iv v = Ok m' /\ canonical m' /\ id_ m' = id_ m /\
    (forall p, ~ (start iv <= p < end_ iv) -> denote m' p ≈ denote m p) /\
    (forall p y, start iv <= p < end_ iv -> vadd (denote m p) v = Ok y -> denote m' p ≈ y).
Proof.
  intros Hm Hiv Hv Hadd. unfold add. rewrite (proj2 (Z.leb_gt _ _) Hiv), Hv. cbn [orb]. by apply modify_ok.
Qed.
(** Adding a value that replaces. *)
Lemma map_add_replace (m : t V) iv v : canonical m -> start iv < end_ iv -> veq v (id_ m) = false -> (forall x, vadd x v = Ok v) ->
  exists m', add m iv v = Ok m' /\ canonical m' /\ id_ m' = id_ m /\ forall p, denote m' p ≈ (if within iv p then v else denote m p).
Proof.
  intros Hm Hiv Hv Hr. destruct (map_add_ok m iv v Hm Hiv Hv) as (m' & E & Hm' & Hid & Hout & Hin); [by eauto|].
  exists m'. split_and!; try done. intros p. destruct (within iv p) eqn:Ep.
  - apply within_spec in Ep. by apply Hin.
  - apply Hout. intros Hp. by apply within_spec in Hp; rewrite Hp in Ep.
Qed.
Lemma map_add_values (P : V -> Prop) (m m' : t V) iv v : (forall x y, P x -> vadd x v = Ok y -> P y) -> P (id_ m) -> values_ok P (map_ m) ->
  add m iv v = Ok m' -> id_ m' = id_ m /\ values_ok P (map_ m').
Proof. intros Hf Hid Hm. unfold add. destruct (_ || _); [by intros [= <-]|]. by apply modify_values. Qed.

(** *** Lookup *)
Lemma chain_below lo d l1 k (x : V) l2 : chain lo d (l1 ++ (k, x) :: l2) -> below l1 k.
Proof.
  revert lo d. induction l1 as [|[k0 x0] l1 IH]; intros lo d Hc; [constructor|]. destruct Hc as (_ & _ & Hc).
  constructor; [cbn|by apply (IH _ _ Hc)]. apply (rest_above _ _ _ _ x Hc). apply elem_of_app. right. by left.
Qed.
Lemma value_at_end (d : V) l p : below l (p + 1) -> value_at d l p = final d l.
Proof.
  revert d. induction l as [|[k x] l IH]; intros d Hl; [done|]. apply Forall_cons in Hl as [Hk Hl]. cbn in Hk. cbn [value_at].
  rewrite (proj2 (Z.leb_le k p)), final_cons by lia. by apply IH.
Qed.
Lemma upper_ok (m : t V) p : canonical m -> exists pre rest, upper (map_ m) p = (pre, rest) /\ map_ m = pre ++ rest /\
  (forall k x, (k, x) ∈ pre -> k <= p) /\ (forall k x, (k, x) ∈ rest -> p < k) /\ denote m p = final (id_ m) pre.
Proof.
  intros [Hc _]. unfold upper. destruct (span_spec (fun k => k <=? p) (map_ m)) as (E & Hpre & Hrest).
  destruct (span _ (map_ m)) as [pre rest]. cbn [fst snd] in *. exists pre, rest.
  assert (Habove : forall k x, (k, x) ∈ rest -> p < k).
  { intros k x Hin. rewrite <- E in Hc. destruct rest as [|[k0 x0] rest]; [by apply not_elem_of_nil in Hin|].
    apply Z.leb_gt in Hrest. apply elem_of_cons in Hin as [[= -> ->]|Hin]; [done|]. apply chain_app in Hc as [_ (_ & _ & Hr)].
    pose proof (rest_above _ _ _ _ _ Hr Hin). lia. }
  split; [done|]. split; [done|]. split.
  - intros k x Hin. rewrite Forall_forall in Hpre. specialize (Hpre _ Hin). cbn in Hpre. lia.
  - split; [done|]. unfold denote. rewrite <- E, (value_at_app _ _ _ _ (p + 1)).
    + rewrite (proj2 (Z.ltb_lt p (p + 1))) by lia. apply value_at_end. eapply Forall_impl; [exact Hpre|]. cbn. lia.
    + eapply Forall_impl; [exact Hpre|]. cbn. lia.
    + intros k x Hin. specialize (Habove k x Hin). lia.
Qed.
Lemma find_internal_ok (m : t V) p : canonical m ->
  (denote m p ≈ id_ m /\ find_internal m p = []) \/
  (veq (denote m p) (id_ m) = false /\ exists pre k rest, find_internal m p = (k, denote m p) :: rest /\
    map_ m = pre ++ (k, denote m p) :: rest /\ k <= p /\ forall k' x', (k', x') ∈ rest -> p < k').
Proof.
  intros Hm. destruct (upper_ok m p Hm) as (pre & rest & E & El & Hpre & Hrest & ->). unfold find_internal. rewrite E.
  pose proof (prev_final (id_ m) pre) as Ef. destruct (prev pre) as [[pr [k x]]|] eqn:Ep.
  - rewrite Ef. destruct (veq x (id_ m)) eqn:Ex; cbn [negb]; [by left|right]. split; [done|]. unfold prev in Ep.
    destruct (last pre) as [kx|] eqn:Elast; [|done]. injection Ep as <- ->.
    apply last_snoc_inv in Elast as [pr ->].
    exists pr, k, rest. split; [done|]. split; [by rewrite El, <- app_assoc|]. split; [|done]. apply (Hpre k x). apply elem_of_app. right. by left.
  - left. rewrite Ef. split; [apply veq_refl|done].
Qed.
Lemma get_value (m : t V) p : canonical m -> get m p ≈ denote m p.
Proof.
  intros Hm. unfold get. destruct (find_internal_ok m p Hm) as [[E ->]|(_ & pre & k & rest & -> & _)]; [by apply veq_sym|apply veq_refl].
Qed.
Lemma contains_value (m : t V) p : canonical m -> contains m p = negb (veq (denote m p) (id_ m)).
Proof.
  intros Hm. unfold contains. destruct (find_internal_ok m p Hm) as [[-> ->]|(-> & pre & k & rest & -> & _)]; [done|].
  by rewrite bool_decide_false.
Qed.

(** The entry that [find] returns: the segment around the point, as long as it can be. *)
Lemma find_entry_ok key_max (m : t V) p : canonical m -> veq (denote m p) (id_ m) = false -> p < key_max ->
  exists I, find m p <> [] /\ entry key_max (find m p) = Ok (I, denote m p) /\ start I <= p < end_ I /\
    (forall q, start I <= q < end_ I -> denote m q = denote m p) /\
    (forall a b, a <= p < b -> b <= key_max -> (forall q, a <= q < b -> denote m q ≈ denote m p) -> start I <= a /\ b <= end_ I).
Proof.
  intros Hm Hne Hmax. destruct (find_internal_ok m p Hm) as [[E _]|(_ & pre & k & rest & Ef & El & Hk & Hrest)]; [congruence|].
  unfold find. rewrite Ef. cbn [skip]. rewrite Hne. cbn [entry]. eexists. split; [done|]. split; [done|]. cbn [start end_].
  pose proof Hm as [Hc _]. rewrite El in Hc. pose proof (chain_below _ _ _ _ _ _ Hc) as Hbl.
  apply chain_app in Hc as [_ (_ & Hprev & Hr)].
  assert (Hv : forall q, denote m q = if q <? k then value_at (id_ m) pre q else value_at (denote m p) rest q).
  { intros q. unfold denote at 1. rewrite El, (value_at_app _ _ _ _ k); [|done|].
    - destruct (Z.ltb_spec q k); [done|]. cbn [value_at]. by rewrite (proj2 (Z.leb_le k q)).
    - intros k' x' [[= -> ->]|Hin]%elem_of_cons; [done|]. specialize (Hrest _ _ Hin). lia. }
  assert (Hat : forall q, k <= q -> (forall k' x', (k', x') ∈ rest -> q < k') -> denote m q = denote m p).
  { intros q Hq Hout. rewrite Hv, (proj2 (Z.ltb_ge q k)) by done. apply (value_at_before _ _ _ (q + 1)); [|lia].
    intros k' x' Hin. specialize (Hout k' x' Hin). lia. }
  split; [|split].
  - destruct rest as [|[k' x'] rest]; [lia|]. specialize (Hrest k' x' ltac:(by left)). lia.
  - intros q Hq. apply Hat; [lia|]. destruct rest as [|[k1 x1] rest]; [by intros ?? ?%not_elem_of_nil|]. destruct Hr as (_ & _ & Hr).
    intros k' x' [[= -> ->]|Hin]%elem_of_cons; [lia|]. pose proof (rest_above _ _ _ _ _ Hr Hin). lia.
  - intros a b Hab Hb Hall. split.
    + destruct (Z.le_gt_cases k a) as [?|Hlt]; [done|]. specialize (Hall (k - 1) ltac:(lia)).
      rewrite Hv, (proj2 (Z.ltb_lt (k - 1) k)), value_at_end in Hall by (lia || by eapply below_le; [exact Hbl|lia]). congruence.
    + destruct rest as [|[k1 x1] rest]; [done|]. destruct (Z.le_gt_cases b k1) as [?|Hlt]; [done|].
      pose proof (Hrest k1 x1 ltac:(by left)). specialize (Hall k1 ltac:(lia)). destruct Hr as (_ & Hne1 & Hr).
      rewrite Hv, (proj2 (Z.ltb_ge k1 k)) in Hall by lia. cbn in Hall. rewrite Z.leb_refl in Hall.
      rewrite (value_at_before _ _ _ (k1 + 1)) in Hall; [apply veq_sym in Hall; congruence| |lia].
      intros k' x' Hin. pose proof (rest_above _ _ _ _ _ Hr Hin). lia.
Qed.
Lemma find_none (m : t V) p : canonical m -> denote m p ≈ id_ m -> find m p = [].
Proof. intros Hm E. unfold find. destruct (find_internal_ok m p Hm) as [[_ ->]|[E' _]]; [done|congruence]. Qed.

(** *** Loops over segments *)
(** The segments of [l] that do not hold the identity, [c] being what follows. *)
Fixpoint segs (key_max : K) (d : V) (l c : list (K * V)) : list (Interval * V) :=
  match l with
  | [] => []
  | (k, x) :: l' =>
      (if veq x d then [] else [(MkInterval k (match l' ++ c with [] => key_max | (k', _) :: _ => k' end), x)]) ++ segs key_max d l' c
  end.
Lemma skip_le (d : V) l : (length (skip d l) <= length l)%nat.
Proof. induction l as [|[k x] l IH]; cbn; [done|]. destruct (veq x d); cbn; lia. Qed.
Lemma walk_segs key_max m b c : forall fuel, (length b <= fuel)%nat ->
  walk fuel key_max m (skip (id_ m) (b ++ c)) (skip (id_ m) c) = Ok (segs key_max (id_ m) b c).
Proof.
  induction b as [|[k x] b IH]; intros fuel Hf; cbn [app segs].
  - by destruct fuel; cbn [walk]; rewrite bool_decide_true.
  - cbn [skip]. destruct (veq x (id_ m)); [apply IH; cbn in Hf; lia|]. cbn in Hf. destruct fuel as [|fuel]; [lia|]. cbn [walk].
    rewrite bool_decide_false by (cbn [length]; pose proof (skip_le (id_ m) c); rewrite length_app; lia).
    unfold entry, incr. cbn [mbind res_bind tail]. rewrite IH by lia. done.
Qed.
Lemma ends_after_first key_max s k (x : V) l : s < key_max -> (forall k' x', (k', x') ∈ l -> s < k') ->
  ends_after key_max s ((k, x) :: l) = (k, x) :: l.
Proof.
  intros Hs Hl. cbn. destruct l as [|[k' x'] l]; [by rewrite (proj2 (Z.ltb_lt s key_max) Hs)|].
  by rewrite (proj2 (Z.ltb_lt s k') (Hl k' x' ltac:(by left))).
Qed.
(** The loop visits the elements between the two ends of the interval. *)
Lemma segments_split key_max (m : t V) iv : canonical m -> start iv < end_ iv -> start iv < key_max -> exists a b c,
  map_ m = a ++ b ++ c /\ segments key_max m iv = Ok (segs key_max (id_ m) b c) /\
  (forall k x, (k, x) ∈ c -> end_ iv <= k) /\ (forall k x, (k, x) ∈ b -> k < end_ iv) /\
  (forall k x, (k, x) ∈ tail b -> start iv < k) /\ (forall k x, (k, x) ∈ a -> k <= start iv) /\ (b = [] -> final (id_ m) a ≈ id_ m) /\
  (forall k x, head b = Some (k, x) -> start iv < k -> a = []).
Proof.
  intros Hm Hiv Hmax. destruct (upper_ok m (start iv) Hm) as (pre & rest & E & El & Hpre & Hrest & _).
  unfold segments, lower_bound, upper_bound. rewrite (proj2 (Z.leb_gt _ _) Hiv), E.
  set (it := match prev pre with Some (_, x) => x :: rest | None => rest end).
  assert (Hit : ends_after key_max (start iv) it = it).
  { subst it. destruct (prev pre) as [[pr [k x]]|]; [by apply ends_after_first|]. destruct rest as [|[k x] rest]; [done|].
    apply ends_after_first; [done|]. intros k' x' Hin. apply (Hrest k' x'). by right. }
  rewrite Hit. assert (exists a, map_ m = a ++ it /\ ((a = pre /\ it = rest /\ pre = []) \/ exists k x, pre = a ++ [(k, x)] /\ it = (k, x) :: rest)) as (a & Ea & Hcase).
  { subst it. unfold prev. destruct (last pre) as [[k x]|] eqn:Ep.
    - apply last_snoc_inv in Ep as [a ->]. exists a. rewrite El, <- app_assoc. split; [done|]. right. by exists k, x.
    - apply last_None in Ep as ->. exists []. split; [done|]. by left. }
  unfold lower. destruct (span_spec (fun k => k <? end_ iv) (map_ m)) as (Es & Hlo & Hhi). destruct (span _ (map_ m)) as [lo c]. cbn [fst snd] in *.
  assert (Hc : forall k x, (k, x) ∈ c -> end_ iv <= k).
  { intros k x Hin. destruct c as [|[k0 x0] c]; [by apply not_elem_of_nil in Hin|]. apply Z.ltb_ge in Hhi. apply elem_of_cons in Hin as [[= -> ->]|Hin]; [done|].
    destruct Hm as [Hch _]. rewrite <- Es in Hch. apply chain_app in Hch as [_ (_ & _ & Hr)]. pose proof (rest_above _ _ _ _ _ Hr Hin). lia. }
  (* the first part of [it] *)
  assert (exists b, it = b ++ c /\ lo = a ++ b) as (b & Eb & Elo).
  { assert (Hlen : (length a <= length lo)%nat).
    { destruct (Nat.le_gt_cases (length a) (length lo)) as [?|Hlt]; [done|]. exfalso.
      assert (exists kx, a !! length lo = Some kx) as [[k x] Hk] by (by apply lookup_lt_is_Some_2).
      assert (Hkc : (k, x) ∈ c).
      { assert (map_ m !! length lo = Some (k, x)) as Hk' by (rewrite Ea; by apply lookup_app_l_Some).
        rewrite <- Es, lookup_app_r, Nat.sub_diag in Hk' by lia. by apply list_elem_of_lookup_2 in Hk'. }
      specialize (Hc k x Hkc). assert (k <= start iv); [|lia]. apply (Hpre k x). destruct Hcase as [(-> & _ & _)|(k' & x' & -> & _)]; [by apply list_elem_of_lookup_2 in Hk|].
      apply elem_of_app. left. by apply list_elem_of_lookup_2 in Hk. }
    exists (drop (length a) lo). assert (a ++ it = lo ++ c) as Eq by congruence. split.
    - rewrite <- (drop_app_length a it), Eq. by rewrite drop_app_le.
    - rewrite <- (take_drop (length a) lo) at 1. f_equal.
      transitivity (take (length a) (lo ++ c)); [by rewrite take_app_le|]. rewrite <- Eq. apply take_app_length. }
  exists a, b, c. split; [by rewrite Ea, Eb|]. split; [rewrite Eb; apply walk_segs; rewrite Ea, Eb, !length_app; lia|]. split; [done|].
  rewrite Forall_forall in Hlo. split; [intros k x Hin; specialize (Hlo (k, x)); cbn in Hlo; rewrite Elo in Hlo; specialize (Hlo ltac:(apply elem_of_app; by right)); lia|].
  destruct Hcase as [(-> & -> & ->)|(k0 & x0 & Epre & Eit)].
  - split; [|split; [by intros k x ?%not_elem_of_nil|split; [intros _; apply veq_refl|done]]]. intros k x Hin. apply (Hrest k x). rewrite Eb. apply elem_of_app. left. destruct b; [done|by right].
  - destruct b as [|[kb xb] b]; cbn [app] in Eb.
    + exfalso. assert (end_ iv <= k0) by (apply (Hc k0 x0); rewrite <- Eb, Eit; by left).
      assert (k0 <= start iv) by (apply (Hpre k0 x0); rewrite Epre; apply elem_of_app; right; by left). lia.
    + rewrite Eit in Eb. injection Eb as <- <- Er. split; [intros k x Hin; apply (Hrest k x); rewrite Er; apply elem_of_app; by left|].
      split; [intros k x Hin; apply (Hpre k x); rewrite Epre; apply elem_of_app; by left|]. split; [done|].
      intros k x [= <- <-] Hlt. exfalso. assert (k0 <= start iv); [|lia]. apply (Hpre k0 x0). rewrite Epre. apply elem_of_app. right. by left.
Qed.
Lemma segs_in key_max d b c J (x : V) : (J, x) ∈ segs key_max d b c <->
  exists b1 k b2, b = b1 ++ (k, x) :: b2 /\ veq x d = false /\
    J = MkInterval k (match b2 ++ c with [] => key_max | (k', _) :: _ => k' end).
Proof.
  induction b as [|[k y] b IH]; cbn [segs].
  - split; [by intros ?%not_elem_of_nil|]. by intros (b1 & k & b2 & E & _); destruct b1.
  - rewrite elem_of_app, IH. split.
    + intros [Hin|(b1 & k' & b2 & -> & ? & ?)]; [|by exists ((k, y) :: b1), k', b2]. destruct (veq y d) eqn:E; [by apply not_elem_of_nil in Hin|].
      apply list_elem_of_singleton in Hin as [= -> ->]. by exists [], k, b.
    + intros ([|[k1 y1] b1] & k' & b2 & E & Hx & HJ); injection E as E1 E2; subst.
      * left. rewrite Hx. by left.
      * right. by exists b1, k', b2.
Qed.
(** Intervals in order, without overlap. *)
Inductive separated : list Interval -> Prop :=
  | separated_nil : separated []
  | separated_cons iv l : (forall iv', iv' ∈ l -> end_ iv <= start iv') -> separated l -> separated (iv :: l).
Lemma segs_separated key_max lo d d' l c : chain lo d (l ++ c) -> separated (segs key_max d' l c).*1.
Proof.
  revert lo d. induction l as [|[k x] l IH]; intros lo d Hc; [constructor|]. cbn [segs]. destruct Hc as (_ & _ & Hc).
  destruct (veq x d'); [by apply (IH _ _ Hc)|]. constructor; [|by apply (IH _ _ Hc)]. intros iv Hin. cbn [end_ fst].
  apply list_elem_of_fmap in Hin as ([J y] & -> & Hin). apply segs_in in Hin as (b1 & k1 & b2 & -> & _ & ->). cbn [fst start].
  destruct b1 as [|[k' x'] b1]; cbn [app]; [done|]. destruct Hc as (_ & _ & Hc).
  pose proof (rest_above _ _ _ k1 y Hc ltac:(rewrite !elem_of_app; left; right; by left)). lia.
Qed.
(** The last value is the identity, so that a segment with another value has an end. *)
Lemma segment_nonempty key_max (m : t V) pre k x rest : canonical m -> map_ m = pre ++ (k, x) :: rest -> veq x (id_ m) = false ->
  k < match rest with [] => key_max | (k', _) :: _ => k' end.
Proof.
  intros [Hc Hf] E Hx. rewrite E in Hc, Hf. destruct rest as [|[k' x'] rest]; [by rewrite final_snoc in Hf; congruence|].
  apply chain_app in Hc as [_ (_ & _ & Hr)]. apply (rest_above _ _ _ k' x' Hr). by left.
Qed.
(** The loop over an interval visits the segments that meet it and hold no identity. *)
Lemma segments_ok key_max (m : t V) iv : canonical m -> start iv < end_ iv -> start iv < key_max ->
  exists l, segments key_max m iv = Ok l /\ separated l.*1 /\
    (forall J x, (J, x) ∈ l -> veq x (id_ m) = false /\ start J < end_ J /\ start J < end_ iv /\ start iv < end_ J /\
      forall p, start J <= p < end_ J -> denote m p = x) /\
    (forall p, start iv <= p < end_ iv -> p < key_max -> veq (denote m p) (id_ m) = false ->
      exists J x, (J, x) ∈ l /\ start J <= p < end_ J).
Proof.
  intros Hm Hiv Hmax. destruct (segments_split key_max m iv Hm Hiv Hmax) as (a & b & c & El & -> & Hc & Hb & Htl & Ha & Hnil & Hhd).
  eexists. split; [done|]. pose proof Hm as [Hch _].
  split; [rewrite El in Hch; apply chain_app in Hch as [_ Hch]; by apply (segs_separated _ _ _ _ _ _ Hch)|]. split.
  - intros J x (b1 & k & b2 & -> & Hx & ->)%segs_in. cbn [start end_]. split; [done|].
    split; [by apply (segment_nonempty key_max m (a ++ b1) k x (b2 ++ c) Hm); [rewrite El, <- !app_assoc|]|].
    split; [apply (Hb k x); apply elem_of_app; right; by left|]. rewrite El in Hch.
    assert (Emap : a ++ (b1 ++ (k, x) :: b2) ++ c = (a ++ b1) ++ (k, x) :: (b2 ++ c)) by (by rewrite <- !app_assoc).
    rewrite Emap in *. split.
    + destruct b2 as [|[k2 x2] b2]; cbn [app]; [destruct c as [|[kc xc] c]; [done|]; specialize (Hc kc xc ltac:(by left)); lia|].
      apply (Htl k2 x2). destruct b1 as [|? b1]; cbn; [by left|]. apply elem_of_app. right. right. by left.
    + intros p Hp. unfold denote. rewrite El, (value_at_app _ _ _ _ k).
      * rewrite (proj2 (Z.ltb_ge p k)) by lia. cbn [value_at]. rewrite (proj2 (Z.leb_le k p)) by lia.
        destruct (b2 ++ c) as [|[k' x'] r]; [done|]. cbn. by rewrite (proj2 (Z.leb_gt k' p)) by lia.
      * by apply (chain_below _ _ _ _ _ _ Hch).
      * apply chain_app in Hch as [_ (_ & _ & Hr)]. intros k' x' [[= -> ->]|Hin]%elem_of_cons; [done|]. pose proof (rest_above _ _ _ _ _ Hr Hin). lia.
  - intros p Hp Hpm Hne. destruct (find_internal_ok m p Hm) as [[E _]|(_ & pre & k & rest & _ & Emap & Hk & Hrest)]; [congruence|].
    assert (Hafter : forall k' x', (k', x') ∈ map_ m -> k' <= p -> k' <= k).
    { intros k' x' Hin Hle. rewrite Emap in Hin. apply elem_of_app in Hin as [Hin|[[= -> ->]|Hin]%elem_of_cons]; [|done|specialize (Hrest _ _ Hin); lia].
      rewrite Emap in Hch. pose proof (chain_below _ _ _ _ _ _ Hch) as Hbl. unfold below in Hbl. rewrite Forall_forall in Hbl. specialize (Hbl _ Hin). cbn in Hbl. lia. }
    assert (Hin : (k, denote m p) ∈ a ++ b ++ c) by (rewrite <- El, Emap; apply elem_of_app; right; by left).
    rewrite !elem_of_app in Hin. destruct Hin as [Hin|[Hin|Hin]].
    + exfalso. apply list_elem_of_split in Hin as (a1 & a2 & ->). destruct a2 as [|[k2 x2] a2].
      * destruct b as [|[kb xb] b]; [rewrite <- (final_snoc (id_ m) a1 k (denote m p)) in Hne; by rewrite Hnil in Hne|].
        assert (start iv < kb); [|by specialize (Hhd kb xb eq_refl ltac:(done)); destruct a1].
        destruct (Z.lt_ge_cases (start iv) kb) as [?|Hle]; [done|]. assert (kb <= k) by (apply (Hafter kb xb); [rewrite El, !elem_of_app; right; left; by left|lia]).
        rewrite El, <- app_assoc in Hch. apply chain_app in Hch as [_ (_ & _ & Hr)]. pose proof (rest_above _ _ _ kb xb Hr ltac:(by left)). lia.
      * specialize (Ha k2 x2 ltac:(rewrite elem_of_app; right; right; by left)).
        assert (k2 <= k) by (apply (Hafter k2 x2); [rewrite El, !elem_of_app; left; right; right; by left|lia]).
        rewrite El, <- app_assoc in Hch. apply chain_app in Hch as [_ (_ & _ & Hr)]. pose proof (rest_above _ _ _ k2 x2 Hr ltac:(by left)). lia.
    + apply list_elem_of_split in Hin as (b1 & b2 & ->). eexists _, (denote m p). split; [apply segs_in; by exists b1, k, b2|]. cbn [start end_]. split; [done|].
      destruct (b2 ++ c) as [|[k' x'] r] eqn:Er; [done|]. destruct (Z.lt_ge_cases p k') as [?|Hle]; [done|]. exfalso.
      assert (Eq : map_ m = (a ++ b1) ++ (k, denote m p) :: (k', x') :: r) by (rewrite El, <- Er, <- !app_assoc; done).
      assert (k' <= k) by (apply (Hafter k' x'); [rewrite Eq, elem_of_app; right; right; by left|lia]).
      rewrite Eq in Hch. apply chain_app in Hch as [_ (_ & _ & Hr)]. pose proof (rest_above _ _ _ k' x' Hr ltac:(by left)). lia.
    + specialize (Hc _ _ Hin). lia.
Qed.
End laws.

(** C38: Adding a value to an interval of a map aggregates it to the value of every
    point of the interval, up to the equality of the values, leaves all other points
    alone, and keeps the map free of repeated and trailing segments. *)
Theorem add_correct {V} `{IValLaws V} (m : t V) (iv : Interval) (v : V) : canonical m ->
  start iv < end_ iv -> veq v (id_ m) = false ->
  (forall p, start iv <= p < end_ iv -> exists y, vadd (denote m p) v = Ok y) ->
  exists m', add m iv v = Ok m' /\ canonical m' /\ id_ m' = id_ m /\
    (forall p, ~ (start iv <= p < end_ iv) -> veq (denote m' p) (denote m p) = true) /\
    (forall p y, start iv <= p < end_ iv -> vadd (denote m p) v = Ok y -> veq (denote m' p) y = true).
Proof.
  intros Hm Hiv Hv Hadd. unfold add. rewrite (proj2 (Z.leb_gt _ _) Hiv), Hv. cbn [orb].
  by apply (modify_ok (fun x => vadd x v) m iv Hm Hiv).
Qed.
(** The loop from [lower_bound] to [upper_bound] of an interval ends and visits,
    in order, disjoint segments that meet the interval, each with the one value of its points, and
    together they cover all points of the interval that do not hold the identity. *)
Theorem segments_correct {V} `{IValLaws V} (key_max : K) (m : t V) (iv : Interval) : canonical m ->
  start iv < end_ iv -> end_ iv <= key_max ->
  exists l, segments key_max m iv = Ok l /\ separated l.*1 /\
    (forall J x, (J, x) ∈ l -> veq x (id_ m) = false /\ start J < end_ J /\ start J < end_ iv /\ start iv < end_ J /\
      forall p, start J <= p < end_ J -> denote m p = x) /\
    (forall p, start iv <= p < end_ iv -> veq (denote m p) (id_ m) = false -> exists J x, (J, x) ∈ l /\ start J <= p < end_ J).
Proof.
  intros Hm Hiv Hmax. destruct (segments_ok key_max m iv Hm Hiv ltac:(lia)) as (l & E & Hsep & H1 & H2).
  exists l. split; [done|]. split; [exact Hsep|]. split; [exact H1|]. intros p Hp. apply H2; [done|lia].
Qed.

Lemma new_canonical {V} `{IValLaws V} (d : V) : canonical (IMap [] d).
Proof. split; [done|]. apply veq_refl. Qed.
End IntervalMap.

(** ** Sets of intervals *)
Module IntervalSet.
Import IntervalMap.

(** [MonoidBool]: [operator+=] is disjunction. *)
#[global] Instance MonoidBool : IVal bool := {| veq := Bool.eqb; vadd b c := Ok (b || c) |}.
#[global] Instance MonoidBool_laws : IValLaws bool.
Proof. split. split; [by intros []|by intros [] []|by intros [] [] []]. Qed.

Definition t : Type := IntervalMap.t bool.
Definition new : t := IMap [] false.
Definition contains (s : t) (p : K) : bool := IntervalMap.contains s p.
Definition contains_interval (key_max : K) (s : t) (iv : Interval) : res bool := IntervalMap.contains_interval key_max s iv.
Definition intersects (key_max : K) (s : t) (a b : K) : bool :=
  negb (bool_decide (length (lower_bound key_max s (MkInterval a b)) = 0%nat)).
Definition overlaps (key_max : K) (s : t) (iv : Interval) : bool := negb (bool_decide (length (lower_bound key_max s iv) = 0%nat)).
Definition empty (s : t) : bool := IntervalMap.empty s.
Definition clear (s : t) : t := IntervalMap.clear s.
Definition add (s : t) (iv : Interval) : res t := IntervalMap.add s iv true.
Definition subtract (s : t) (iv : Interval) : res t := IntervalMap.erase s iv.
Definition insert (s : t) (a b : K) : res t := add s (MkInterval a b).
Definition erase (s : t) (a b : K) : res t := subtract s (MkInterval a b).
(** [for (const auto &iv : set)] *)
Fixpoint intervals (key_max : K) (l : list (K * bool)) : list Interval :=
  match l with
  | [] => []
  | (k, x) :: l' => (if Bool.eqb x false then [] else [MkInterval k (match l' with [] => key_max | (k', _) :: _ => k' end)]) ++ intervals key_max l'
  end.

(** A set of intervals stands for the set of points it contains. *)
Definition wf (s : t) : Prop := canonical s /\ id_ s = false.
Lemma contains_denote s p : wf s -> contains s p = denote s p.
Proof. intros [Hs Hid]. unfold contains. rewrite contains_value, Hid by done. by destruct (denote s p). Qed.
Lemma new_wf : wf new.
Proof. split; [apply new_canonical|done]. Qed.
Lemma add_ok s iv : wf s -> exists s', add s iv = Ok s' /\ wf s' /\ forall p, contains s' p = contains s p || within iv p.
Proof.
  intros Hs. pose proof Hs as [Hm Hid]. unfold add, IntervalMap.add. rewrite Hid. cbn [veq MonoidBool Bool.eqb]. rewrite orb_false_r.
  destruct (Z.leb_spec (end_ iv) (start iv)) as [Hle|Hlt].
  - exists s. split; [done|]. split; [done|]. intros p. destruct (within iv p) eqn:E; [apply within_spec in E; lia|by rewrite orb_false_r].
  - destruct (modify_ok (fun x => vadd x true) s iv Hm Hlt) as (s' & -> & Hm' & Hid' & Hout & Hin); [intros q _; by eexists|].
    assert (Hs' : wf s') by (split; [done|congruence]). exists s'. split; [done|]. split; [done|]. intros p. rewrite !contains_denote by done.
    destruct (within iv p) eqn:E.
    + apply within_spec in E. specialize (Hin p _ E eq_refl). cbn in Hin. apply eqb_prop in Hin. by rewrite Hin, !orb_true_r.
    + rewrite orb_false_r. apply eqb_prop, Hout. intros Hp. by apply within_spec in Hp; rewrite Hp in E.
Qed.
Lemma subtract_ok s iv : wf s -> exists s', subtract s iv = Ok s' /\ wf s' /\ forall p, contains s' p = contains s p && negb (within iv p).
Proof.
  intros Hs. pose proof Hs as [Hm Hid]. unfold subtract, IntervalMap.erase.
  destruct (Z.leb_spec (end_ iv) (start iv)) as [Hle|Hlt].
  - exists s. split; [done|]. split; [done|]. intros p. destruct (within iv p) eqn:E; [apply within_spec in E; lia|by rewrite andb_true_r].
  - destruct (modify_ok (fun _ => Ok (id_ s)) s iv Hm Hlt) as (s' & -> & Hm' & Hid' & Hout & Hin); [intros q _; by eexists|].
    assert (Hs' : wf s') by (split; [done|congruence]). exists s'. split; [done|]. split; [done|]. intros p. rewrite !contains_denote by done.
    destruct (within iv p) eqn:E.
    + apply within_spec in E. specialize (Hin p _ E eq_refl). cbn in Hin. apply eqb_prop in Hin. by rewrite Hin, Hid, andb_false_r.
    + rewrite andb_true_r. apply eqb_prop, Hout. intros Hp. by apply within_spec in Hp; rewrite Hp in E.
Qed.

(** The iteration over a set visits its maximal intervals in order. *)
Lemma intervals_segs key_max l : intervals key_max l = (segs key_max false l []).*1.
Proof. induction l as [|[k x] l IH]; [done|]. cbn [intervals segs]. rewrite fmap_app, IH, app_nil_r. by destruct (Bool.eqb x false) eqn:E; cbn in *; rewrite E. Qed.
Lemma intervals_separated key_max lo d l : chain lo d l -> separated (intervals key_max l).
Proof. intros Hc. rewrite intervals_segs. apply (segs_separated key_max lo d). by rewrite app_nil_r. Qed.
Lemma intervals_in key_max s iv p : wf s -> iv ∈ intervals key_max (map_ s) -> start iv < end_ iv /\ (start iv <= p < end_ iv -> contains s p = true).
Proof.
  intros Hs. pose proof Hs as [Hm Hid]. rewrite intervals_segs, list_elem_of_fmap. intros ([J x] & -> & Hin). apply segs_in in Hin as (b1 & k & b2 & El & Hx & ->).
  rewrite app_nil_r. cbn [fst start end_]. split; [apply (segment_nonempty key_max s b1 k x b2 Hm El); by rewrite Hid|].
  intros Hp. rewrite contains_denote by done. pose proof Hm as [Hc _]. rewrite El in Hc. unfold denote. rewrite El, (value_at_app _ _ _ _ k).
  - rewrite (proj2 (Z.ltb_ge p k)) by lia. cbn [value_at]. rewrite (proj2 (Z.leb_le k p)) by lia.
    destruct b2 as [|[k' x'] b2]; [by destruct x|]. cbn. rewrite (proj2 (Z.leb_gt k' p)) by lia. by destruct x.
  - by apply (chain_below _ _ _ _ _ _ Hc).
  - apply chain_app in Hc as [_ (_ & _ & Hr)]. intros k' x' [[= -> ->]|Hin]%elem_of_cons; [done|]. pose proof (rest_above _ _ _ _ _ Hr Hin). lia.
Qed.
Lemma intervals_cover key_max s p : wf s -> contains s p = true -> p < key_max -> exists iv, iv ∈ intervals key_max (map_ s) /\ start iv <= p < end_ iv.
Proof.
  intros Hs Hp Hmax. pose proof Hs as [Hm Hid]. rewrite contains_denote in Hp by done.
  destruct (find_internal_ok s p Hm) as [[E _]|(_ & pre & k & rest & _ & El & Hk & Hrest)]; [by rewrite Hp, Hid in E|].
  eexists. split; [rewrite intervals_segs; apply list_elem_of_fmap; eexists (_, _); split; [reflexivity|]; apply segs_in; exists pre, k, rest; split; [exact El|]; split; [by rewrite Hp|reflexivity]|].
  cbn [fst start end_]. rewrite app_nil_r. destruct rest as [|[k' x'] rest]; [lia|]. specialize (Hrest k' x' ltac:(by left)). lia.
Qed.
Lemma subtracts_ok (l : list Interval) : forall s, wf s -> exists s', foldM subtract s l = Ok s' /\ wf s' /\
  forall p, contains s' p = contains s p && forallb (fun iv => negb (within iv p)) l.
Proof.
  induction l as [|iv l IH]; intros s Hs; cbn [foldM forallb].
  - exists s. split; [done|]. split; [done|]. intros p. by rewrite andb_true_r.
  - destruct (subtract_ok s iv Hs) as (s1 & -> & Hs1 & E1). cbn [mbind res_bind]. destruct (IH s1 Hs1) as (s2 & -> & Hs2 & E2).
    exists s2. split; [done|]. split; [done|]. intros p. by rewrite E2, E1, andb_assoc.
Qed.

(** Two overlapping intervals. *)
Definition two : t := IMap [(2, true); (5, false); (7, true); (9, false)] false.
Lemma two_canonical : canonical two.
Proof. split; [|reflexivity]. cbn. split_and!; try done; by intros k [= <-]. Qed.
Lemma add_correct_witness : exists s, IntervalMap.add two (MkInterval 4 8) true = Ok s /\ canonical s /\ id_ s = id_ two /\
  (forall p, ~ (4 <= p < 8) -> veq (denote s p) (denote two p) = true) /\
  (forall p y, 4 <= p < 8 -> vadd (denote two p) true = Ok y -> veq (denote s p) y = true).
Proof.
  apply (add_correct two (MkInterval 4 8) true).
  - exact two_canonical.
  - reflexivity.
  - reflexivity.
  - intros p _. by eexists.
Defined.
Lemma segments_correct_witness : exists l, segments (2 ^ 64 - 1) two (MkInterval 4 8) = Ok l /\ separated l.*1 /\
  (forall J x, (J, x) ∈ l -> veq x false = false /\ start J < end_ J /\ start J < 8 /\ 4 < end_ J /\ forall p, start J <= p < end_ J -> denote two p = x) /\
  (forall p, 4 <= p < 8 -> veq (denote two p) false = false -> exists J x, (J, x) ∈ l /\ start J <= p < end_ J).
Proof.
  apply (segments_correct (2 ^ 64 - 1) two (MkInterval 4 8)).
  - exact two_canonical.
  - reflexivity.
  - cbn. lia.
Defined.

(** Any sequence of changes. *)
Inductive op := Add (iv : Interval) | Subtract (iv : Interval) | Clear.
Definition step (s : t) (o : op) : res t :=
  match o with Add iv => add s iv | Subtract iv => subtract s iv | Clear => Ok (clear s) end.
Definition spec_step (f : K -> bool) (o : op) : K -> bool :=
  match o with
  | Add iv => fun p => f p || within iv p
  | Subtract iv => fun p => f p && negb (within iv p)
  | Clear => fun _ => false
  end.
Lemma steps_ok os : forall s f, wf s -> (forall p, contains s p = f p) ->
  exists s', foldM step s os = Ok s' /\ wf s' /\ forall p, contains s' p = foldl spec_step f os p.
Proof.
  induction os as [|o os IH]; intros s f Hs Hf; cbn [foldM foldl]; [by exists s|].
  assert (exists s', step s o = Ok s' /\ wf s' /\ forall p, contains s' p = spec_step f o p) as (s' & -> & Hs' & Hf').
  { destruct o as [iv|iv|]; cbn [step spec_step].
    - destruct (add_ok s iv Hs) as (s' & -> & Hs' & E). exists s'. split; [done|]. split; [done|]. intros p. by rewrite E, Hf.
    - destruct (subtract_ok s iv Hs) as (s' & -> & Hs' & E). exists s'. split; [done|]. split; [done|]. intros p. by rewrite E, Hf.
    - exists (clear s). split; [done|]. destruct Hs as [_ Hid]. assert (wf (clear s)) by (split; [apply new_canonical|done]).
      split; [done|]. intros p. rewrite contains_denote by done. exact Hid. }
  cbn [mbind res_bind]. apply IH; done.
Qed.

(** A set of intervals behaves as the set of the points of its intervals: any
    sequence of additions, removals and clearings succeeds, and membership is what
    union and difference say. *)
Theorem set_correct (os : list op) : exists s, foldM step new os = Ok s /\ wf s /\
  forall p, contains s p = foldl spec_step (fun _ => false) os p.
Proof. apply steps_ok; [apply new_wf|]. intros p. by rewrite contains_denote by apply new_wf. Qed.

(** [intersects] and [overlaps] also answer yes when the set only continues after the
    interval: [lower_bound] returns the first segment that overlaps or follows. *)
Example overlaps_follows : exists s, add new (MkInterval 10 12) = Ok s /\ overlaps (2 ^ 64 - 1) s (MkInterval 0 5) = true /\
  forallb (fun p => negb (contains s p)) [0; 1; 2; 3; 4] = true.
Proof. eexists. vm_compute. split; [reflexivity|]. by split. Qed.
(** No overlap is missed. *)
Lemma overlaps_complete key_max s iv p : wf s -> start iv <= p < end_ iv -> p < key_max -> contains s p = true -> overlaps key_max s iv = true.
Proof.
  intros Hs Hp Hmax Hin. pose proof Hs as [Hm Hid]. rewrite contains_denote in Hin by done.
  destruct (segments_ok key_max s iv Hm) as (l & Hl & _ & _ & Hcov); [lia|lia|].
  destruct (Hcov p Hp Hmax) as (J & x & HJ & _); [by rewrite Hid, Hin|].
  unfold overlaps. apply negb_true_iff, bool_decide_eq_false. intros E. unfold segments in Hl. destruct (lower_bound key_max s iv); [|done].
  destruct (length (map_ s)); cbn [walk] in Hl; (case_bool_decide; [injection Hl as <-; by apply not_elem_of_nil in HJ|done]).
Qed.
End IntervalSet.
