(* ===== verification/AdaptiveView.v ===== *)
(** * Adaptive views

    Models ADT/AdaptiveView.{hpp,cpp}: a set of events that starts as nothing, becomes
    an event, a few events of different threads, and at last a view.  The view type is
    any that satisfies the interface [ViewLaws]: the theorems of [Views] say that the
    shared views of the code behave as independent maps, and the vectors of [ViewBase]
    are an instance. *)

From S2P Require Import Prelude Events Views IntervalMap.
Local Open Scope Z_scope.

(** ** What is expected of views *)
Class ViewOps (V : Type) := {
  v_new : V;
  v_size : V -> Z;
  v_empty : V -> bool;
  v_getMax : V -> Z -> res Z;
  v_contains : V -> Event.t -> res bool;
  v_contains_view : V -> V -> res bool;
  v_updateIdx : V -> Event.t -> res V;
  v_update : V -> V -> res V;
  v_eqb : V -> V -> bool
}.
(** The clock with one more event. *)
Definition upd (f : Z -> Z) (e : Event.t) (t : Z) : Z := if Event.thread e =? t then Z.max (f t) (Event.index e) else f t.
Class ViewLaws (V : Type) `{ViewOps V} := {
  v_wf : V -> Prop;
  v_clock : V -> Z -> Z;
  v_nonneg v t : v_wf v -> 0 <= v_clock v t;
  v_new_ok : v_wf v_new /\ forall t, v_clock v_new t = 0;
  v_size_ok v t : v_wf v -> 0 <= v_size v /\ (v_size v <= t -> v_clock v t = 0);
  v_empty_ok v : v_wf v -> v_empty v = true <-> forall t, 0 <= t -> v_clock v t = 0;
  v_getMax_ok v t : v_wf v -> 0 <= t -> v_getMax v t = Ok (v_clock v t);
  v_contains_ok v e : v_wf v -> 0 <= Event.thread e -> v_contains v e = Ok (Event.index e <=? v_clock v (Event.thread e));
  v_contains_view_ok v w : v_wf v -> v_wf w -> exists b, v_contains_view v w = Ok b /\
    (b = true -> forall t, 0 <= t -> v_clock w t <= v_clock v t);
  v_updateIdx_ok v e : v_wf v -> 0 <= Event.thread e -> exists v', v_updateIdx v e = Ok v' /\ v_wf v' /\
    forall t, 0 <= t -> v_clock v' t = upd (v_clock v) e t;
  v_update_ok v w : v_wf v -> v_wf w -> exists v', v_update v w = Ok v' /\ v_wf v' /\
    forall t, 0 <= t -> v_clock v' t = Z.max (v_clock v t) (v_clock w t);
  v_eqb_equiv : Equivalence (fun v w : V => v_eqb v w = true);
  v_eqb_ok v w : v_wf v -> v_wf w -> v_eqb v w = true <-> forall t, 0 <= t -> v_clock v t = v_clock w t
}.

(** Vectors without sharing. *)
#[export] Instance ViewBase_ops : ViewOps (list Z) := {|
  v_new := []; v_size := ViewBase.size; v_empty := ViewBase.empty; v_getMax := ViewBase.getMax;
  v_contains := ViewBase.contains; v_contains_view v w := Ok (ViewBase.contains_view v w);
  v_updateIdx := ViewBase.updateIdx; v_update v w := Ok (ViewBase.update v w); v_eqb := ViewBase.eqb |}.
#[export] Program Instance ViewBase_laws : ViewLaws (list Z) := {| v_wf := ViewBase.wf; v_clock := ViewBase.clock |}.
Next Obligation. intros v t Hv. by apply ViewBase.clock_nonneg. Qed.
Next Obligation. split; [apply ViewBase.wf_nil|]. intros t. unfold ViewBase.clock. change (v_new) with (@nil Z). by rewrite lookup_nil. Qed.
Next Obligation. intros v t Hv. split; [cbn; unfold ViewBase.size; lia|apply ViewBase.clock_ge]. Qed.
Next Obligation.
  intros v Hv. cbn. unfold ViewBase.empty. rewrite bool_decide_eq_true. split.
  - intros -> t _. unfold ViewBase.clock. by rewrite lookup_nil.
  - intros H. apply ViewBase.clock_ext; [done|apply ViewBase.wf_nil|]. intros t Ht. rewrite H by done. unfold ViewBase.clock. by rewrite lookup_nil.
Qed.
Next Obligation. intros v t Hv Ht. by apply ViewBase.vb_getMax_ok. Qed.
Next Obligation. intros v e Hv He. by apply ViewBase.vb_contains_ok. Qed.
Next Obligation. intros v w Hv Hw. eexists. split; [done|]. by apply ViewBase.contains_view_spec. Qed.
Next Obligation.
  intros v e Hv He. destruct (ViewBase.updateIdx_spec v e Hv He) as (v' & E & Hv' & Hc). exists v'. split; [done|]. split; [done|].
  intros t Ht. rewrite Hc by done. unfold upd. case_decide; [subst; by rewrite Z.eqb_refl|]. by rewrite (proj2 (Z.eqb_neq _ _)) by congruence.
Qed.
Next Obligation. intros v w Hv Hw. destruct (ViewBase.update_spec v w Hv Hw) as [H1 H2]. eexists. split; [done|]. by split. Qed.
Next Obligation.
  split.
  - intros v. by apply bool_decide_eq_true.
  - intros v w H%bool_decide_eq_true. by apply bool_decide_eq_true.
  - intros u v w H1%bool_decide_eq_true H2%bool_decide_eq_true. apply bool_decide_eq_true. congruence.
Qed.
Next Obligation.
  intros v w Hv Hw. cbn. unfold ViewBase.eqb. rewrite bool_decide_eq_true. split; [by intros ->|]. by apply ViewBase.clock_ext.
Qed.

Module AdaptiveView.

Definition SmallVectorCapacity : nat := 8.

Section ops.
Context {V : Type} `{ViewOps V}.

(** The variant. *)
Inductive t :=
  | OfEvent (e : Event.t)
  | OfEvents (es : list Event.t)
  | OfView (v : V)
  | Update (e : Event.t) (v : V)
  | Empty.

Definition empty (a : t) : bool :=
  match a with
  | Empty => true
  | OfEvent e => Event.isInitializer e
  | Update e _ => Event.isInitializer e
  | OfEvents es => forallb Event.isInitializer es
  | OfView v => v_empty v
  end.
Definition size (a : t) : Z :=
  match a with
  | Empty => 0
  | OfEvent _ | Update _ _ => 1
  | OfEvents es => Z.of_nat (length es)
  | OfView v => v_size v
  end.
Definition at_ (a : t) (i : nat) : res Event.t :=
  match a with
  | OfEvent e | Update e _ => Ok e
  | OfEvents es => deref (es !! i)
  | OfView v => m ← v_getMax v (Z.of_nat i); Ok (Event.Event (Z.of_nat i) m)
  | Empty => Abort Unreachable
  end.
(** From [begin] to [end]. *)
Definition events (a : t) : res (list Event.t) :=
  foldM (fun l i => e ← at_ a i; Ok (l ++ [e])) [] (seq 0 (Z.to_nat (size a))).

Definition getAsEvent (a : t) : option Event.t :=
  match a with
  | OfEvent e | Update e _ => Some e
  | OfEvents [e] => Some e
  | _ => None
  end.
(** Equality of the variants. *)
Definition storage_eqb (a b : t) : bool :=
  match a, b with
  | OfEvent e, OfEvent e' => bool_decide (e = e')
  | OfEvents es, OfEvents es' => bool_decide (es = es')
  | OfView v, OfView v' => v_eqb v v'
  | Update e v, Update e' v' => bool_decide (e = e') && v_eqb v v'
  | Empty, Empty => true
  | _, _ => false
  end.
Definition eqb (a b : t) : bool :=
  storage_eqb a b ||
  match getAsEvent a, getAsEvent b with Some e, Some e' => bool_decide (e' = e) | _, _ => false end.

(** *** Helpers *)
Definition updateIdxs (v : V) (es : list Event.t) : res V := foldM v_updateIdx v es.
Definition promoteToView (a : t) : res V :=
  match a with
  | OfEvent e => v_updateIdx v_new e
  | OfEvents es => updateIdxs v_new es
  | _ => Abort Unreachable
  end.
(** The first event of the thread of [e] becomes the greater one. *)
Fixpoint max_in (e : Event.t) (es : list Event.t) : option (list Event.t) :=
  match es with
  | [] => None
  | x :: es => if Event.thread x =? Event.thread e then Some (Event.max x e :: es)
               else match max_in e es with Some es => Some (x :: es) | None => None end
  end.
Definition addEvent (a : t) (e : Event.t) : res t :=
  match a with
  | OfView v => v ← v_updateIdx v e; Ok (OfView v)
  | OfEvents es =>
      match max_in e es with
      | Some es => Ok (OfEvents es)
      | None =>
          if (length es <? SmallVectorCapacity)%nat then Ok (OfEvents (es ++ [e]))
          else v ← promoteToView (OfEvents es); v ← v_updateIdx v e; Ok (OfView v)
      end
  | _ => Abort AssertFailed
  end.
Definition unify (lhs rhs : Event.t) : t :=
  if negb (Event.thread lhs =? Event.thread rhs) then OfEvents [lhs; rhs] else OfEvent (Event.max lhs rhs).

(** *** Operations *)
(** [v.contains(es)] *)
Fixpoint contains_all (v : V) (es : list Event.t) : res bool :=
  match es with [] => Ok true | e :: es => b ← v_contains v e; if (b : bool) then contains_all v es else Ok false end.
Definition containedIn (a : t) (v : V) : res bool :=
  match a with
  | Empty => Ok true
  | OfEvent e => v_contains v e
  | OfEvents es => contains_all v es
  | OfView w => v_contains_view v w
  | Update e _ => v_contains v e
  end.
(** An update counts as its event. *)
Definition forget (a : t) : t := match a with Update e _ => OfEvent e | _ => a end.
Definition join (lhs rhs : t) : res t :=
  match forget lhs, forget rhs with
  | lhs, Empty => Ok lhs
  | Empty, rhs => Ok rhs
  | OfEvent e, OfEvent e' => Ok (unify e e')
  | OfEvent e, OfEvents es => addEvent (OfEvents es) e
  | OfEvent e, OfView v => v ← v_updateIdx v e; Ok (OfView v)
  | OfEvents es, OfEvent e => addEvent (OfEvents es) e
  | OfEvents es, OfEvents es' => foldM addEvent (OfEvents es) es'
  | OfEvents es, OfView v => v ← updateIdxs v es; Ok (OfView v)
  | OfView v, OfEvent e => v ← v_updateIdx v e; Ok (OfView v)
  | OfView v, OfEvents es => v ← updateIdxs v es; Ok (OfView v)
  | OfView v, OfView w => v ← v_update v w; Ok (OfView v)
  | _, _ => Abort Unreachable
  end.
(** [std::remove_if], [erase] of the events the view contains. *)
Fixpoint erase_contained (v : V) (es : list Event.t) : res (list Event.t) :=
  match es with
  | [] => Ok []
  | e :: es => b ← v_contains v e; r ← erase_contained v es; Ok (if (b : bool) then r else e :: r)
  end.
(** [operator+=] *)
Definition plus (a rhs : t) : res t :=
  match rhs with
  | Empty => Ok a
  | Update uPos uView =>
      match a with
      | Empty => Ok (OfEvent uPos)
      | OfEvent e | Update e _ => c ← v_contains uView e; Ok (if (c : bool) then OfEvent uPos else OfEvents [e; uPos])
      | OfEvents es =>
          es ← erase_contained uView es;
          match es with [] => Ok (OfEvent uPos) | _ => addEvent (OfEvents es) uPos end
      | OfView v => c ← v_contains_view uView v; if (c : bool) then Ok (OfEvent uPos) else v ← v_updateIdx v uPos; Ok (OfView v)
      end
  | _ => Abort AssertFailed
  end.
End ops.
Arguments t V : clear implicits.

(** ** What an adaptive view has seen *)
Section laws.
Context {V : Type} `{ViewLaws V}.
#[local] Abbreviation t := (t V).
Definition valid (e : Event.t) : Prop := 0 <= Event.thread e /\ 0 <= Event.index e.
(** The events of the view are events of threads. *)
Definition wf (a : t) : Prop :=
  match a with
  | OfEvent e => valid e
  | OfEvents es => Forall valid es
  | OfView v => v_wf v
  | Update e v => valid e /\ v_wf v
  | Empty => True
  end.
Definition one (e : Event.t) (t : Z) : Z := if Event.thread e =? t then Z.max 0 (Event.index e) else 0.
Fixpoint many (es : list Event.t) (t : Z) : Z := match es with [] => 0 | e :: es => Z.max (one e t) (many es t) end.
(** The greatest index seen per thread. *)
Definition clock (a : t) : Z -> Z :=
  match a with
  | OfEvent e | Update e _ => one e
  | OfEvents es => many es
  | OfView v => v_clock v
  | Empty => fun _ => 0
  end.

Lemma one_nonneg e t : 0 <= one e t.
Proof. unfold one. destruct (_ =? _); lia. Qed.
Lemma many_nonneg es t : 0 <= many es t.
Proof. induction es; cbn; lia. Qed.
Lemma many_app es es' t : many (es ++ es') t = Z.max (many es t) (many es' t).
Proof. induction es as [|e es IH]; cbn; [pose proof (many_nonneg es' t); lia|]. lia. Qed.
Lemma av_nonneg a t : wf a -> 0 <= clock a t.
Proof.
  destruct a; cbn; intros Ha; try apply one_nonneg; [apply many_nonneg|by apply v_nonneg|lia].
Qed.
Lemma upd_one f e t : 0 <= f t -> upd f e t = Z.max (f t) (one e t).
Proof. intros. unfold upd, one. destruct (_ =? _); lia. Qed.
Lemma one_max e e' t : Event.thread e = Event.thread e' -> one (Event.max e e') t = Z.max (one e t) (one e' t).
Proof.
  intros E. unfold Event.max, Event.lt. rewrite E, Z.ltb_irrefl, Z.eqb_refl. cbn [orb andb].
  unfold one. destruct (Z.ltb_spec (Event.index e) (Event.index e')); rewrite E; destruct (_ =? _); lia.
Qed.
Lemma valid_max e e' : valid e -> valid e' -> valid (Event.max e e').
Proof. intros. unfold Event.max. by case_match. Qed.

(** *** The helpers *)
Lemma updateIdx_ok v e : v_wf v -> valid e -> exists v', v_updateIdx v e = Ok v' /\ v_wf v' /\
  forall t, 0 <= t -> v_clock v' t = Z.max (v_clock v t) (one e t).
Proof.
  intros Hv [He _]. destruct (v_updateIdx_ok v e Hv He) as (v' & E & Hv' & Hc). exists v'. split; [done|]. split; [done|].
  intros t Ht. rewrite Hc by done. apply upd_one. by apply v_nonneg.
Qed.
Lemma updateIdxs_ok es : forall v, v_wf v -> Forall valid es -> exists v', updateIdxs v es = Ok v' /\ v_wf v' /\
  forall t, 0 <= t -> v_clock v' t = Z.max (v_clock v t) (many es t).
Proof.
  induction es as [|e es IH]; intros v Hv Hes; unfold updateIdxs; cbn [foldM].
  - exists v. split; [done|]. split; [done|]. intros t Ht. cbn. pose proof (v_nonneg v t Hv). lia.
  - inversion_clear Hes as [|? ? He Hes']. destruct (updateIdx_ok v e Hv He) as (v1 & -> & Hv1 & Hc1). cbn [mbind res_bind].
    destruct (IH v1 Hv1 Hes') as (v2 & E & Hv2 & Hc2). exists v2. split; [exact E|]. split; [done|].
    intros t Ht. rewrite Hc2, Hc1 by done. cbn.  lia.
Qed.
Lemma max_in_ok e es es' : valid e -> Forall valid es -> max_in e es = Some es' ->
  Forall valid es' /\ length es' = length es /\ forall t, many es' t = Z.max (many es t) (one e t).
Proof.
  intros He. revert es'. induction es as [|x es IH]; intros es' Hes E; cbn in E; [done|].
  inversion_clear Hes as [|? ? Hx Hes']. destruct (Z.eqb_spec (Event.thread x) (Event.thread e)) as [Et|_].
  - injection E as <-. split; [constructor; [by apply valid_max|done]|]. split; [done|]. intros t. cbn. rewrite one_max by done. lia.
  - destruct (max_in e es) as [es1|]; [|done]. injection E as <-. destruct (IH es1 Hes' eq_refl) as (H1 & H2 & H3).
    split; [by constructor|]. split; [cbn; lia|]. intros t. specialize (H3 t). cbn.  lia.
Qed.
(** [addEvent] expects events or a view. *)
Definition several (a : t) : Prop := match a with OfEvents _ | OfView _ => True | _ => False end.
Lemma addEvent_ok a e : wf a -> several a -> valid e -> exists a', addEvent a e = Ok a' /\ wf a' /\ several a' /\
  forall t, 0 <= t -> clock a' t = Z.max (clock a t) (one e t).
Proof.
  intros Ha Hs He. destruct a as [|es|v| |]; try done; cbn [addEvent].
  - rename Ha into Hes. destruct (max_in e es) as [es'|] eqn:E.
    + destruct (max_in_ok e es es' He Hes E) as (H1 & H2 & H3). exists (OfEvents es').
      split; [done|]. split; [done|]. split; [done|]. intros t _. apply H3.
    + destruct (Nat.ltb_spec (length es) SmallVectorCapacity).
      * exists (OfEvents (es ++ [e])). split; [done|]. split; [by apply Forall_app_2; [|constructor]|].
        split; [done|]. intros t _. cbn. rewrite many_app. cbn. pose proof (one_nonneg e t). lia.
      * cbn [promoteToView]. destruct v_new_ok as [Hn0 Hn]. destruct (updateIdxs_ok es v_new Hn0 Hes) as (v1 & -> & Hv1 & Hc1).
        cbn [mbind res_bind]. destruct (updateIdx_ok v1 e Hv1 He) as (v2 & -> & Hv2 & Hc2). cbn [mbind res_bind].
        eexists. split; [done|]. split; [done|]. split; [done|]. intros t Ht. cbn. rewrite Hc2, Hc1, Hn by done. pose proof (many_nonneg es t). lia.
  - destruct (updateIdx_ok v e Ha He) as (v' & -> & Hv' & Hc). cbn [mbind res_bind]. eexists. split; [done|]. split; [done|]. by split.
Qed.
Lemma addEvents_ok es : forall a, wf a -> several a -> Forall valid es -> exists a', foldM addEvent a es = Ok a' /\ wf a' /\
  forall t, 0 <= t -> clock a' t = Z.max (clock a t) (many es t).
Proof.
  induction es as [|e es IH]; intros a Ha Hs Hes; cbn [foldM].
  - exists a. split; [done|]. split; [done|]. intros t Ht. cbn. by rewrite Z.max_l by by apply av_nonneg.
  - inversion_clear Hes as [|? ? He Hes']. destruct (addEvent_ok a e Ha Hs He) as (a1 & -> & Ha1 & Hs1 & Hc1). cbn [mbind res_bind].
    destruct (IH a1 Ha1 Hs1 Hes') as (a2 & E & Ha2 & Hc2). exists a2. split; [exact E|]. split; [done|].
    intros t Ht. rewrite Hc2, Hc1 by done. cbn.  lia.
Qed.

(** An update counts as its event. *)
Lemma forget_ok (a : t) : wf a -> wf (forget a) /\ clock (forget a) = clock a.
Proof. by destruct a as [| | |e v|]; [| | |intros [? ?]|]. Qed.
Lemma forget_shape (a : t) : forall e v, forget a <> Update e v.
Proof. by destruct a. Qed.
Lemma unify_ok e e' : valid e -> valid e' -> wf (unify e e' : t) /\ forall p, clock (unify e e' : t) p = Z.max (one e p) (one e' p).
Proof.
  intros He He'. unfold unify. destruct (Z.eqb_spec (Event.thread e) (Event.thread e')) as [E|E]; cbn [negb].
  - split; [by apply valid_max|]. intros p. by apply one_max.
  - split; [by constructor; [|constructor]|]. intros p. cbn. pose proof (one_nonneg e' p). lia.
Qed.
Lemma addView_ok v es : v_wf v -> Forall valid es -> exists v', updateIdxs v es = Ok v' /\ wf (OfView v') /\
  forall t, 0 <= t -> clock (OfView v') t = Z.max (v_clock v t) (many es t).
Proof. apply updateIdxs_ok. Qed.
Lemma join_ok (a b : t) : wf a -> wf b -> exists c, join a b = Ok c /\ wf c /\ forall t, 0 <= t -> clock c t = Z.max (clock a t) (clock b t).
Proof.
  intros Ha0 Hb0. destruct (forget_ok a Ha0) as [Ha <-], (forget_ok b Hb0) as [Hb <-].
  unfold join. generalize (av_nonneg (forget a)), (av_nonneg (forget b)). intros Ca Cb.
  pose proof (forget_shape a) as Sa. pose proof (forget_shape b) as Sb. clear Ha0 Hb0.
  destruct (forget a) as [e|es|v|e v|]; [| | |by destruct (Sa e v)|];
    (destruct (forget b) as [e'|es'|w|e' w|]; [| | |by destruct (Sb e' w)|]); clear Sa Sb.
  all: try (eexists; split; [done|]; split; [done|]; intros t0 _; specialize (Ca t0 Ha); specialize (Cb t0 Hb); cbn in Ca, Cb |- *; lia).
  - destruct (unify_ok e e' Ha Hb) as [H1 H2]. eexists. by split.
  - destruct (addEvent_ok (OfEvents es') e Hb I Ha) as (c & -> & Hc & _ & Hcc). exists c. split; [done|]. split; [done|].
    intros t Ht. rewrite Hcc by done. cbn. lia.
  - destruct (updateIdx_ok w e Hb Ha) as (c & -> & Hc & Hcc). eexists. split; [done|]. split; [done|]. intros t Ht. cbn. rewrite Hcc by done. lia.
  - destruct (addEvent_ok (OfEvents es) e' Ha I Hb) as (c & -> & Hc & _ & Hcc). by exists c.
  - by apply (addEvents_ok es' (OfEvents es) Ha I Hb).
  - destruct (addView_ok w es Hb Ha) as (c & -> & Hc & Hcc). eexists. split; [done|]. split; [done|].
    intros t Ht. rewrite Hcc by done. cbn. lia.
  - destruct (updateIdx_ok v e' Ha Hb) as (c & -> & Hc & Hcc). eexists. split; [done|]. by split.
  - destruct (addView_ok v es' Ha Hb) as (c & -> & Hc & Hcc). eexists. split; [done|]. by split.
  - destruct (v_update_ok v w Ha Hb) as (c & -> & Hc & Hcc). eexists. split; [done|]. by split.
Qed.

(** *** Containment *)
Definition below (f : Z -> Z) (u : Z -> Z) : Prop := forall t, 0 <= t -> f t <= u t.
Lemma one_below e u : (forall t, 0 <= t -> 0 <= u t) -> valid e -> below (one e) u <-> Event.index e <= u (Event.thread e).
Proof.
  intros Hu [He Hi]. unfold below, one. split.
  - intros Hle. specialize (Hle _ He). rewrite Z.eqb_refl in Hle. lia.
  - intros Hle t Ht. specialize (Hu t Ht). destruct (Z.eqb_spec (Event.thread e) t) as [<-|]; lia.
Qed.
Lemma many_below es u : (forall t, 0 <= t -> 0 <= u t) -> Forall valid es ->
  below (many es) u <-> forall e, e ∈ es -> Event.index e <= u (Event.thread e).
Proof.
  intros Hu. induction es as [|e es IH]; intros Hes; [split; [by intros _ ? ?%not_elem_of_nil|by intros _ t Ht; apply Hu]|].
  inversion_clear Hes as [|? ? He Hes']. specialize (IH Hes'). pose proof (one_below e u Hu He) as Hone.
  assert (E : below (many (e :: es)) u <-> below (one e) u /\ below (many es) u).
  { unfold below. cbn. split; [intros H1; split; intros t Ht; specialize (H1 t Ht); lia|]. intros [H1 H2] t Ht. specialize (H1 t Ht). specialize (H2 t Ht). lia. }
  rewrite E, Hone, IH. split; [by intros [H1 H2] x [->|Hx]%elem_of_cons; auto|]. intros H1. split; [apply H1; by left|]. intros x Hx. apply H1. by right.
Qed.
Lemma contains_iff v e : v_wf v -> valid e -> exists b, v_contains v e = Ok b /\ (b = true <-> Event.index e <= v_clock v (Event.thread e)).
Proof. intros Hv [He _]. rewrite v_contains_ok by done. eexists. split; [done|]. apply Z.leb_le. Qed.
Lemma contains_all_ok v es : v_wf v -> Forall valid es ->
  exists b, contains_all v es = Ok b /\ (b = true <-> forall e, e ∈ es -> Event.index e <= v_clock v (Event.thread e)).
Proof.
  intros Hv. induction es as [|e es IH]; intros Hes; cbn [contains_all].
  - exists true. split; [done|]. split; [by intros _ ? ?%not_elem_of_nil|done].
  - inversion_clear Hes as [|? ? He Hes']. destruct (contains_iff v e Hv He) as ([] & -> & Hb); cbn [mbind res_bind].
    + destruct (IH Hes') as (b & E & Hb'). exists b. split; [exact E|]. rewrite Hb'. split; [intros H1 x [->|Hx]%elem_of_cons; [by apply Hb|auto]|].
      intros H1 x Hx. apply H1. by right.
    + exists false. split; [done|]. split; [done|]. intros H1. apply Hb, H1. by left.
Qed.

Lemma containedIn_ok (a : t) v : wf a -> v_wf v -> exists b, containedIn a v = Ok b /\
  (b = true -> below (clock a) (v_clock v)) /\ ((forall w, a <> OfView w) -> below (clock a) (v_clock v) -> b = true).
Proof.
  intros Ha Hv. assert (Hu : forall t, 0 <= t -> 0 <= v_clock v t) by (intros; by apply v_nonneg).
  destruct a as [e|es|w|e w|]; cbn [containedIn clock].
  - destruct (contains_iff v e Hv Ha) as (b & -> & Hb). exists b. split; [done|]. rewrite one_below, <- Hb by done. done.
  - destruct (contains_all_ok v es Hv Ha) as (b & -> & Hb). exists b. split; [done|]. rewrite many_below, <- Hb by done. done.
  - destruct (v_contains_view_ok v w Hv Ha) as (b & -> & Hb). exists b. split; [done|]. split; [exact Hb|]. intros Hw. by destruct (Hw w).
  - destruct Ha as [He _]. destruct (contains_iff v e Hv He) as (b & -> & Hb). exists b. split; [done|]. rewrite one_below, <- Hb by done. done.
  - exists true. split; [done|]. split; [intros _ t Ht; by apply Hu|done].
Qed.
Lemma erase_contained_ok v es : v_wf v -> Forall valid es -> exists r, erase_contained v es = Ok r /\ Forall valid r /\ (length r <= length es)%nat /\
  forall p, many r p <= many es p /\ (0 <= p -> many es p <= Z.max (many r p) (v_clock v p)).
Proof.
  intros Hv. induction es as [|e es IH]; intros Hes; cbn [erase_contained].
  - exists []. split; [done|]. split; [done|]. split; [done|]. intros p. cbn. lia.
  - inversion_clear Hes as [|? ? He Hes']. destruct (contains_iff v e Hv He) as (b & -> & Hb). cbn [mbind res_bind].
    destruct (IH Hes') as (r & -> & Hr & Hlen & Hc). cbn [mbind res_bind]. destruct b.
    + exists r. split; [done|]. split; [done|]. split; [cbn; lia|]. intros p. destruct (Hc p) as [H1 H2]. cbn.
      split; [pose proof (one_nonneg e p); lia|]. intros Hp. specialize (H2 Hp). pose proof (v_nonneg v p Hv).
      enough (one e p <= v_clock v p) by lia. assert (Hu : forall t, 0 <= t -> 0 <= v_clock v t) by (intros; by apply v_nonneg).
      by apply (proj2 (one_below e _ Hu He) (proj1 Hb eq_refl)).
    + exists (e :: r). split; [done|]. split; [by constructor|]. split; [cbn; lia|]. intros p. destruct (Hc p) as [H1 H2]. cbn. lia.
Qed.
(** What [operator+=] may drop is what the view of the update has seen. *)
Lemma plus_ok (a : t) e v : wf a -> valid e -> v_wf v -> exists a', plus a (Update e v) = Ok a' /\ wf a' /\
  forall p, 0 <= p -> clock a' p <= Z.max (clock a p) (one e p) /\
    one e p <= clock a' p /\ clock a p <= Z.max (clock a' p) (v_clock v p).
Proof.
  intros Ha He Hv. assert (Hu : forall t, 0 <= t -> 0 <= v_clock v t) by (intros; by apply v_nonneg).
  assert (Hone : forall x, wf (OfEvent x : t) \/ (exists w, wf (Update x w : t)) -> exists a', (c ← v_contains v x; Ok (if (c : bool) then OfEvent e else OfEvents [x; e])) = Ok (a' : t) /\
    wf a' /\ forall p, 0 <= p -> clock a' p <= Z.max (one x p) (one e p) /\ one e p <= clock a' p /\ one x p <= Z.max (clock a' p) (v_clock v p)).
  { intros x Hx0. assert (Hx : valid x) by (destruct Hx0 as [Hx|(w & Hx & _)]; exact Hx). clear Hx0.
    destruct (contains_iff v x Hv Hx) as (b & -> & Hb). cbn [mbind res_bind]. destruct b.
    - eexists. split; [done|]. split; [done|]. intros p Hp. pose proof (one_nonneg x p). pose proof (proj2 (one_below x _ Hu Hx) (proj1 Hb eq_refl) p Hp). cbn. lia.
    - eexists. split; [done|]. split; [by constructor; [|constructor]|].
      intros p Hp. pose proof (one_nonneg x p). pose proof (one_nonneg e p). cbn. lia. }
  destruct a as [x|es|w|x w|]; cbn [plus].
  - apply Hone. by left.
  - rename Ha into Hes. destruct (erase_contained_ok v es Hv Hes) as (r & -> & Hr & Hlr & Hc). cbn [mbind res_bind].
    destruct r as [|y r].
    + eexists. split; [done|]. split; [done|]. intros p Hp. destruct (Hc p) as [H1 H2]. specialize (H2 Hp). cbn in H1, H2 |- *. pose proof (one_nonneg e p). lia.
    + destruct (addEvent_ok (OfEvents (y :: r)) e Hr I He) as (a' & -> & Ha' & _ & Hca).
      exists a'. split; [done|]. split; [done|]. intros p Hp. rewrite Hca by done. destruct (Hc p) as [H1 H2]. specialize (H2 Hp). cbn [clock]. lia.
  - destruct (v_contains_view_ok v w Hv Ha) as (b & -> & Hb). cbn [mbind res_bind]. destruct b.
    + eexists. split; [done|]. split; [done|]. intros p Hp. specialize (Hb eq_refl p Hp). pose proof (v_nonneg w p Ha). cbn. lia.
    + destruct (updateIdx_ok w e Ha He) as (w' & -> & Hw' & Hc). eexists. split; [done|]. split; [done|].
      intros p Hp. cbn. rewrite Hc by done. lia.
  - apply Hone. right. by exists w.
  - eexists. split; [done|]. split; [done|]. intros p Hp. specialize (Hu p Hp). pose proof (one_nonneg e p). cbn. lia.
Qed.

(** *** Equality *)
Lemma v_eqb_refl (v : V) : v_eqb v v = true.
Proof. apply v_eqb_equiv. Qed.
Lemma v_eqb_sym (v w : V) : v_eqb v w = true -> v_eqb w v = true.
Proof. apply v_eqb_equiv. Qed.
Lemma v_eqb_trans (u v w : V) : v_eqb u v = true -> v_eqb v w = true -> v_eqb u w = true.
Proof. apply v_eqb_equiv. Qed.
(** The representative that equality compares. *)
Definition shape (a : t) : Event.t + t := match getAsEvent a with Some e => inl e | None => inr a end.
Lemma eqb_shape (a b : t) : eqb a b = true <->
  match shape a, shape b with inl e, inl e' => e = e' | inr a, inr b => storage_eqb a b = true | _, _ => False end.
Proof.
  unfold eqb, shape. rewrite orb_true_iff.
  destruct a as [x|[|x [|x' xs]]|w|x w|], b as [y|[|y [|y' ys]]|w'|y w'|]; cbn [getAsEvent storage_eqb];
    rewrite ?andb_true_iff, ?bool_decide_eq_true; try naive_solver.
Qed.
#[global] Instance eqb_equiv : Equivalence (fun a b : t => eqb a b = true).
Proof.
  split.
  - intros a. apply eqb_shape. destruct (shape a) as [e|[]] eqn:E; try done; cbn; rewrite ?bool_decide_eq_true; try done; [apply v_eqb_refl|by rewrite v_eqb_refl, bool_decide_eq_true_2].
  - intros a b. rewrite !eqb_shape. destruct (shape a) as [e|[]], (shape b) as [e'|[]]; cbn; rewrite ?andb_true_iff, ?bool_decide_eq_true; try naive_solver; [apply v_eqb_sym|].
    intros [-> ?]. split; [done|by apply v_eqb_sym].
  - intros a b c. rewrite !eqb_shape. destruct (shape a) as [e|[]], (shape b) as [e'|[]], (shape c) as [e''|[]]; cbn; rewrite ?andb_true_iff, ?bool_decide_eq_true; try naive_solver; [apply v_eqb_trans|].
    intros [-> ?] [-> ?]. split; [done|by eapply v_eqb_trans].
Qed.
End laws.

(** The values of the maps that the execution state keeps. *)
#[global] Instance IVal_view {V} `{ViewOps V} : IntervalMap.IVal (t V) := {| IntervalMap.veq := eqb; IntervalMap.vadd := plus |}.
#[global] Instance IVal_view_laws {V} `{ViewLaws V} : IntervalMap.IValLaws (t V).
Proof. constructor. exact eqb_equiv. Qed.

(** Joining adaptive views, whatever their representations, gives the pointwise
    maximum of what they have seen, and a view contains the result only if it
    contains both. *)
Theorem join_correct {V} `{ViewLaws V} (a b : t V) (v : V) : wf a -> wf b -> v_wf v ->
  exists c r, join a b = Ok c /\ wf c /\ (forall p, 0 <= p -> clock c p = Z.max (clock a p) (clock b p)) /\
    containedIn c v = Ok r /\ (r = true -> below (clock a) (v_clock v) /\ below (clock b) (v_clock v)) /\
    ((forall w, c <> OfView w) -> below (clock a) (v_clock v) -> below (clock b) (v_clock v) -> r = true).
Proof.
  intros Ha Hb Hv. destruct (join_ok a b Ha Hb) as (c & -> & Hc & Ec). destruct (containedIn_ok c v Hc Hv) as (r & Er & H1 & H2).
  exists c, r. split_and!; try done.
  - intros Hr. specialize (H1 Hr). split; intros p Hp; specialize (H1 p Hp); rewrite Ec in H1 by done; lia.
  - intros Hw Hba Hbb. apply H2; [done|]. intros p Hp. rewrite Ec by done. specialize (Hba p Hp). specialize (Hbb p Hp). lia.
Qed.
Lemma join_correct_witness : exists c r, join (OfEvent (Event.Event 1 2)) (OfView [0; 3; 1]) = Ok c /\ wf c /\
  (forall p, 0 <= p -> clock c p = Z.max (clock (OfEvent (Event.Event 1 2)) p) (clock (OfView [0; 3; 1]) p)) /\
  containedIn c [0; 3; 1] = Ok r /\
  (r = true -> below (clock (OfEvent (Event.Event 1 2))) (v_clock [0; 3; 1]) /\ below (clock (OfView [0; 3; 1])) (v_clock [0; 3; 1])) /\
  ((forall w, c <> OfView w) -> below (clock (OfEvent (Event.Event 1 2))) (v_clock [0; 3; 1]) ->
    below (clock (OfView [0; 3; 1])) (v_clock [0; 3; 1]) -> r = true).
Proof.
  assert (Hw : v_wf [0; 3; 1]) by (split; [by repeat constructor|done]).
  apply (join_correct (OfEvent (Event.Event 1 2)) (OfView [0; 3; 1]) [0; 3; 1]); [by split|exact Hw|exact Hw].
Defined.

(** Updating an adaptive view with an event drops what the view of the event has
    seen, and nothing is lost: a view that is closed (it contains what the event has
    seen if it contains the event) contains the result exactly when it contains the
    old adaptive view and the event. *)
Theorem plus_correct {V} `{ViewLaws V} (a : t V) (e : Event.t) (v u : V) : wf a -> valid e -> v_wf v -> v_wf u ->
  (Event.index e <= v_clock u (Event.thread e) -> below (v_clock v) (v_clock u)) ->
  exists a', plus a (Update e v) = Ok a' /\ wf a' /\
    (below (clock a') (v_clock u) <-> below (clock a) (v_clock u) /\ Event.index e <= v_clock u (Event.thread e)).
Proof.
  intros Ha He Hv Hu Hcl. destruct (plus_ok a e v Ha He Hv) as (a' & -> & Ha' & Hc). exists a'. split; [done|]. split; [done|].
  assert (Hnn : forall t, 0 <= t -> 0 <= v_clock u t) by (intros; by apply v_nonneg).
  rewrite <- (one_below e _ Hnn He) in *. split.
  - intros Hb. assert (Ho : below (one e) (v_clock u)) by (intros p Hp; specialize (Hc p Hp); specialize (Hb p Hp); lia).
    specialize (Hcl Ho). split; [|done]. intros p Hp. specialize (Hc p Hp). specialize (Hb p Hp). specialize (Hcl p Hp). lia.
  - intros [H1 H2] p Hp. specialize (Hc p Hp). specialize (H1 p Hp). specialize (H2 p Hp). lia.
Qed.
Lemma plus_correct_witness : exists a', plus (OfEvents [Event.Event 1 2; Event.Event 2 4]) (Update (Event.Event 3 1) [0; 2; 3]) = Ok a' /\ wf a' /\
  (below (clock a') (v_clock [0; 2; 3; 1]) <->
    below (clock (OfEvents [Event.Event 1 2; Event.Event 2 4])) (v_clock [0; 2; 3; 1]) /\ 1 <= v_clock [0; 2; 3; 1] 3).
Proof.
  apply (plus_correct (OfEvents [Event.Event 1 2; Event.Event 2 4]) (Event.Event 3 1) [0; 2; 3] [0; 2; 3; 1]).
  - by repeat constructor.
  - by split.
  - split; [by repeat constructor|done].
  - split; [by repeat constructor|done].
  - intros _. assert (Hb : ViewBase.contains_view [0; 2; 3; 1] [0; 2; 3] = true) by reflexivity.
    exact (proj1 (ViewBase.contains_view_spec [0; 2; 3; 1] [0; 2; 3] ltac:(split; [by repeat constructor|done]) ltac:(split; [by repeat constructor|done])) Hb).
Defined.
End AdaptiveView.
