(* ===== verification/ExecutionState.v ===== *)
(** * The execution state

    Models Execution/ExecutionState.{hpp,cpp}: what an execution keeps outside the
    graph.  Interval maps record the allocations, which bytes are initialized and by
    whom, the bytes that non-atomic stores wrote, and, for race detection, who read
    and wrote what last; hash maps record the loops of the threads, their side
    effects, and the hazard pointers.  Views are any that satisfy the interface of
    [AdaptiveView]. *)

From S2P Require Import Prelude Values Addresses Events VSet IntervalMap AdaptiveView.
Local Open Scope Z_scope.

Module ExecutionState.

(** ** Data *)
(** [NonRevertibleOptional]: [operator+=] overwrites when there is a value. *)
Definition overwrite {T} (a b : option T) : option T := match b with Some _ => b | None => a end.
Definition opt_eqb {T} (eq : T -> T -> bool) (a b : option T) : bool :=
  match a, b with Some x, Some y => eq x y | None, None => true | _, _ => false end.
(** Values compare without their provenance. *)
#[export] Instance IVal_value : IntervalMap.IVal (option SVal.t) :=
  {| IntervalMap.veq := opt_eqb SVal.eqb; IntervalMap.vadd a b := Ok (overwrite a b) |}.
#[export] Instance IVal_flag : IntervalMap.IVal (option bool) :=
  {| IntervalMap.veq := opt_eqb Bool.eqb; IntervalMap.vadd a b := Ok (overwrite a b) |}.
#[export] Instance IVal_event : IntervalMap.IVal (option Event.t) :=
  {| IntervalMap.veq a b := bool_decide (a = b); IntervalMap.vadd a b := Ok (overwrite a b) |}.
(** [value()] of an empty option is undefined. *)
Definition value_of {T} (o : option T) : res T := deref o.

(** [AllocInfo]: an update replaces it. *)
Record AllocInfo := MkAllocInfo {
  pos : Event.t;
  access : AAccess.t;
  alignment : Z;
  freePos : option Event.t;
  isRetire : bool
}.
#[export] Instance AllocInfo_eq_dec : EqDecision AllocInfo.
Proof. solve_decision. Defined.
Definition AllocInfo_default : AllocInfo := MkAllocInfo Event.default (AAccess.AAccess 0 0) 0 None false.
Definition AllocInfo_new (e : Event.t) (a : AAccess.t) (al : Z) : AllocInfo := MkAllocInfo e a al None false.
#[export] Instance IVal_alloc : IntervalMap.IVal AllocInfo :=
  {| IntervalMap.veq a b := bool_decide (a = b); IntervalMap.vadd _ b := Ok b |}.

(** [InitDataPtr]: a pointer, null by default; an update replaces it. *)
Record InitDataPtr := MkInitDataPtr { ptr : Z }.
#[export] Instance InitDataPtr_eq_dec : EqDecision InitDataPtr.
Proof. solve_decision. Defined.
#[export] Instance IVal_init : IntervalMap.IVal InitDataPtr :=
  {| IntervalMap.veq a b := bool_decide (a = b); IntervalMap.vadd _ b := Ok b |}.

(** The [int]s of [HpCountMap]; overflow is undefined. *)
Definition count : Type := Z.
Definition int_ok (z : Z) : bool := (- 2 ^ 31 <=? z) && (z <? 2 ^ 31).
#[export] Instance IVal_count : IntervalMap.IVal count :=
  {| IntervalMap.veq := Z.eqb; IntervalMap.vadd a b := defined (int_ok (a + b));; Ok (a + b) |}.

(** [staticRanges_] is a sorted vector of pairs, in lexicographic order. *)
#[export] Program Instance range_ord : TotalOrd (Z * Z) :=
  {| ltb a b := (a.1 <? b.1) || ((a.1 =? b.1) && (a.2 <? b.2)) |}.
Next Obligation. intros [a b]. cbn. lia. Qed.
Next Obligation. intros [] [] []. cbn. lia. Qed.
Next Obligation.
  intros [a b] [c d]. cbn. destruct (decide (a = c)) as [->|]; [|lia]. destruct (decide (b = d)) as [->|]; [auto|lia].
Qed.

Definition isDurableType (s : StorageType) : bool := match s with ST_Durable => true | _ => false end.
Definition isInternalSpace (s : AddressSpace) : bool := match s with AS_Internal => true | _ => false end.

Section state.
Context {V : Type} `{ViewOps V}.
Definition AdaptiveViewMap : Type := IntervalMap.t (AdaptiveView.t V).
Record t := ExecutionState {
  allocInfoMap_ : IntervalMap.t AllocInfo;
  initialized_ : AdaptiveViewMap;
  alloctor_ : SAddrAllocator.state;
  staticRanges_ : list (SAddr.t * SAddr.t);
  staticInitData_ : IntervalMap.t InitDataPtr;
  lastNAWriteVal_ : IntervalMap.t (option SVal.t);
  lastIsNA_ : IntervalMap.t (option bool);
  lastNAWriteEvent_ : IntervalMap.t (option Event.t);
  lastNAReadView_ : AdaptiveViewMap;
  lastAReadView_ : AdaptiveViewMap;
  lastAWriteView_ : AdaptiveViewMap;
  currentLoop_ : gmap Z Event.t;
  loopAccess_ : gmap Event.t IntervalSet.t;
  loopSideEffects_ : gset Event.t;
  lastReleaseIdx_ : gmap Z Z;
  lastMemAccess_ : V;
  previousNA_ : gmap Z (Z * bool);
  hpProtectMap_ : gmap SAddr.t SAddr.t;
  hpProtectCount_ : IntervalMap.t count;
  lastUnprotectedAccess_ : AdaptiveViewMap
}.

Definition set_allocInfoMap_ x s :=
  ExecutionState x (initialized_ s) (alloctor_ s) (staticRanges_ s) (staticInitData_ s) (lastNAWriteVal_ s) (lastIsNA_ s) (lastNAWriteEvent_ s)
     (lastNAReadView_ s) (lastAReadView_ s) (lastAWriteView_ s) (currentLoop_ s) (loopAccess_ s) (loopSideEffects_ s) (lastReleaseIdx_ s)
     (lastMemAccess_ s) (previousNA_ s) (hpProtectMap_ s) (hpProtectCount_ s) (lastUnprotectedAccess_ s).
Definition set_initialized_ x s :=
  ExecutionState (allocInfoMap_ s) x (alloctor_ s) (staticRanges_ s) (staticInitData_ s) (lastNAWriteVal_ s) (lastIsNA_ s) (lastNAWriteEvent_ s)
     (lastNAReadView_ s) (lastAReadView_ s) (lastAWriteView_ s) (currentLoop_ s) (loopAccess_ s) (loopSideEffects_ s) (lastReleaseIdx_ s)
     (lastMemAccess_ s) (previousNA_ s) (hpProtectMap_ s) (hpProtectCount_ s) (lastUnprotectedAccess_ s).
Definition set_alloctor_ x s :=
  ExecutionState (allocInfoMap_ s) (initialized_ s) x (staticRanges_ s) (staticInitData_ s) (lastNAWriteVal_ s) (lastIsNA_ s) (lastNAWriteEvent_ s)
     (lastNAReadView_ s) (lastAReadView_ s) (lastAWriteView_ s) (currentLoop_ s) (loopAccess_ s) (loopSideEffects_ s) (lastReleaseIdx_ s)
     (lastMemAccess_ s) (previousNA_ s) (hpProtectMap_ s) (hpProtectCount_ s) (lastUnprotectedAccess_ s).
Definition set_staticRanges_ x s :=
  ExecutionState (allocInfoMap_ s) (initialized_ s) (alloctor_ s) x (staticInitData_ s) (lastNAWriteVal_ s) (lastIsNA_ s) (lastNAWriteEvent_ s)
     (lastNAReadView_ s) (lastAReadView_ s) (lastAWriteView_ s) (currentLoop_ s) (loopAccess_ s) (loopSideEffects_ s) (lastReleaseIdx_ s)
     (lastMemAccess_ s) (previousNA_ s) (hpProtectMap_ s) (hpProtectCount_ s) (lastUnprotectedAccess_ s).
Definition set_staticInitData_ x s :=
  ExecutionState (allocInfoMap_ s) (initialized_ s) (alloctor_ s) (staticRanges_ s) x (lastNAWriteVal_ s) (lastIsNA_ s) (lastNAWriteEvent_ s)
     (lastNAReadView_ s) (lastAReadView_ s) (lastAWriteView_ s) (currentLoop_ s) (loopAccess_ s) (loopSideEffects_ s) (lastReleaseIdx_ s)
     (lastMemAccess_ s) (previousNA_ s) (hpProtectMap_ s) (hpProtectCount_ s) (lastUnprotectedAccess_ s).
Definition set_lastNAWriteVal_ x s :=
  ExecutionState (allocInfoMap_ s) (initialized_ s) (alloctor_ s) (staticRanges_ s) (staticInitData_ s) x (lastIsNA_ s) (lastNAWriteEvent_ s)
     (lastNAReadView_ s) (lastAReadView_ s) (lastAWriteView_ s) (currentLoop_ s) (loopAccess_ s) (loopSideEffects_ s) (lastReleaseIdx_ s)
     (lastMemAccess_ s) (previousNA_ s) (hpProtectMap_ s) (hpProtectCount_ s) (lastUnprotectedAccess_ s).
Definition set_lastIsNA_ x s :=
  ExecutionState (allocInfoMap_ s) (initialized_ s) (alloctor_ s) (staticRanges_ s) (staticInitData_ s) (lastNAWriteVal_ s) x (lastNAWriteEvent_ s)
     (lastNAReadView_ s) (lastAReadView_ s) (lastAWriteView_ s) (currentLoop_ s) (loopAccess_ s) (loopSideEffects_ s) (lastReleaseIdx_ s)
     (lastMemAccess_ s) (previousNA_ s) (hpProtectMap_ s) (hpProtectCount_ s) (lastUnprotectedAccess_ s).
Definition set_lastNAWriteEvent_ x s :=
  ExecutionState (allocInfoMap_ s) (initialized_ s) (alloctor_ s) (staticRanges_ s) (staticInitData_ s) (lastNAWriteVal_ s) (lastIsNA_ s) x
     (lastNAReadView_ s) (lastAReadView_ s) (lastAWriteView_ s) (currentLoop_ s) (loopAccess_ s) (loopSideEffects_ s) (lastReleaseIdx_ s)
     (lastMemAccess_ s) (previousNA_ s) (hpProtectMap_ s) (hpProtectCount_ s) (lastUnprotectedAccess_ s).
Definition set_lastNAReadView_ x s :=
  ExecutionState (allocInfoMap_ s) (initialized_ s) (alloctor_ s) (staticRanges_ s) (staticInitData_ s) (lastNAWriteVal_ s) (lastIsNA_ s)
     (lastNAWriteEvent_ s) x (lastAReadView_ s) (lastAWriteView_ s) (currentLoop_ s) (loopAccess_ s) (loopSideEffects_ s) (lastReleaseIdx_ s)
     (lastMemAccess_ s) (previousNA_ s) (hpProtectMap_ s) (hpProtectCount_ s) (lastUnprotectedAccess_ s).
Definition set_lastAReadView_ x s :=
  ExecutionState (allocInfoMap_ s) (initialized_ s) (alloctor_ s) (staticRanges_ s) (staticInitData_ s) (lastNAWriteVal_ s) (lastIsNA_ s)
     (lastNAWriteEvent_ s) (lastNAReadView_ s) x (lastAWriteView_ s) (currentLoop_ s) (loopAccess_ s) (loopSideEffects_ s) (lastReleaseIdx_ s)
     (lastMemAccess_ s) (previousNA_ s) (hpProtectMap_ s) (hpProtectCount_ s) (lastUnprotectedAccess_ s).
Definition set_lastAWriteView_ x s :=
  ExecutionState (allocInfoMap_ s) (initialized_ s) (alloctor_ s) (staticRanges_ s) (staticInitData_ s) (lastNAWriteVal_ s) (lastIsNA_ s)
     (lastNAWriteEvent_ s) (lastNAReadView_ s) (lastAReadView_ s) x (currentLoop_ s) (loopAccess_ s) (loopSideEffects_ s) (lastReleaseIdx_ s)
     (lastMemAccess_ s) (previousNA_ s) (hpProtectMap_ s) (hpProtectCount_ s) (lastUnprotectedAccess_ s).
Definition set_currentLoop_ x s :=
  ExecutionState (allocInfoMap_ s) (initialized_ s) (alloctor_ s) (staticRanges_ s) (staticInitData_ s) (lastNAWriteVal_ s) (lastIsNA_ s)
     (lastNAWriteEvent_ s) (lastNAReadView_ s) (lastAReadView_ s) (lastAWriteView_ s) x (loopAccess_ s) (loopSideEffects_ s) (lastReleaseIdx_ s)
     (lastMemAccess_ s) (previousNA_ s) (hpProtectMap_ s) (hpProtectCount_ s) (lastUnprotectedAccess_ s).
Definition set_loopAccess_ x s :=
  ExecutionState (allocInfoMap_ s) (initialized_ s) (alloctor_ s) (staticRanges_ s) (staticInitData_ s) (lastNAWriteVal_ s) (lastIsNA_ s)
     (lastNAWriteEvent_ s) (lastNAReadView_ s) (lastAReadView_ s) (lastAWriteView_ s) (currentLoop_ s) x (loopSideEffects_ s) (lastReleaseIdx_ s)
     (lastMemAccess_ s) (previousNA_ s) (hpProtectMap_ s) (hpProtectCount_ s) (lastUnprotectedAccess_ s).
Definition set_loopSideEffects_ x s :=
  ExecutionState (allocInfoMap_ s) (initialized_ s) (alloctor_ s) (staticRanges_ s) (staticInitData_ s) (lastNAWriteVal_ s) (lastIsNA_ s)
     (lastNAWriteEvent_ s) (lastNAReadView_ s) (lastAReadView_ s) (lastAWriteView_ s) (currentLoop_ s) (loopAccess_ s) x (lastReleaseIdx_ s)
     (lastMemAccess_ s) (previousNA_ s) (hpProtectMap_ s) (hpProtectCount_ s) (lastUnprotectedAccess_ s).
Definition set_lastReleaseIdx_ x s :=
  ExecutionState (allocInfoMap_ s) (initialized_ s) (alloctor_ s) (staticRanges_ s) (staticInitData_ s) (lastNAWriteVal_ s) (lastIsNA_ s)
     (lastNAWriteEvent_ s) (lastNAReadView_ s) (lastAReadView_ s) (lastAWriteView_ s) (currentLoop_ s) (loopAccess_ s) (loopSideEffects_ s) x
     (lastMemAccess_ s) (previousNA_ s) (hpProtectMap_ s) (hpProtectCount_ s) (lastUnprotectedAccess_ s).
Definition set_lastMemAccess_ x s :=
  ExecutionState (allocInfoMap_ s) (initialized_ s) (alloctor_ s) (staticRanges_ s) (staticInitData_ s) (lastNAWriteVal_ s) (lastIsNA_ s)
     (lastNAWriteEvent_ s) (lastNAReadView_ s) (lastAReadView_ s) (lastAWriteView_ s) (currentLoop_ s) (loopAccess_ s) (loopSideEffects_ s)
     (lastReleaseIdx_ s) x (previousNA_ s) (hpProtectMap_ s) (hpProtectCount_ s) (lastUnprotectedAccess_ s).
Definition set_previousNA_ x s :=
  ExecutionState (allocInfoMap_ s) (initialized_ s) (alloctor_ s) (staticRanges_ s) (staticInitData_ s) (lastNAWriteVal_ s) (lastIsNA_ s)
     (lastNAWriteEvent_ s) (lastNAReadView_ s) (lastAReadView_ s) (lastAWriteView_ s) (currentLoop_ s) (loopAccess_ s) (loopSideEffects_ s)
     (lastReleaseIdx_ s) (lastMemAccess_ s) x (hpProtectMap_ s) (hpProtectCount_ s) (lastUnprotectedAccess_ s).
Definition set_hpProtectMap_ x s :=
  ExecutionState (allocInfoMap_ s) (initialized_ s) (alloctor_ s) (staticRanges_ s) (staticInitData_ s) (lastNAWriteVal_ s) (lastIsNA_ s)
     (lastNAWriteEvent_ s) (lastNAReadView_ s) (lastAReadView_ s) (lastAWriteView_ s) (currentLoop_ s) (loopAccess_ s) (loopSideEffects_ s)
     (lastReleaseIdx_ s) (lastMemAccess_ s) (previousNA_ s) x (hpProtectCount_ s) (lastUnprotectedAccess_ s).
Definition set_hpProtectCount_ x s :=
  ExecutionState (allocInfoMap_ s) (initialized_ s) (alloctor_ s) (staticRanges_ s) (staticInitData_ s) (lastNAWriteVal_ s) (lastIsNA_ s)
     (lastNAWriteEvent_ s) (lastNAReadView_ s) (lastAReadView_ s) (lastAWriteView_ s) (currentLoop_ s) (loopAccess_ s) (loopSideEffects_ s)
     (lastReleaseIdx_ s) (lastMemAccess_ s) (previousNA_ s) (hpProtectMap_ s) x (lastUnprotectedAccess_ s).
Definition set_lastUnprotectedAccess_ x s :=
  ExecutionState (allocInfoMap_ s) (initialized_ s) (alloctor_ s) (staticRanges_ s) (staticInitData_ s) (lastNAWriteVal_ s) (lastIsNA_ s)
     (lastNAWriteEvent_ s) (lastNAReadView_ s) (lastAReadView_ s) (lastAWriteView_ s) (currentLoop_ s) (loopAccess_ s) (loopSideEffects_ s)
     (lastReleaseIdx_ s) (lastMemAccess_ s) (previousNA_ s) (hpProtectMap_ s) (hpProtectCount_ s) x.

(** A new state: all maps are empty, their identities the default values. *)
Definition new : t :=
  ExecutionState (IntervalMap.IMap [] AllocInfo_default) (IntervalMap.IMap [] AdaptiveView.Empty) SAddrAllocator.empty []
    (IntervalMap.IMap [] (MkInitDataPtr 0)) (IntervalMap.IMap [] None) (IntervalMap.IMap [] None) (IntervalMap.IMap [] None)
    (IntervalMap.IMap [] AdaptiveView.Empty) (IntervalMap.IMap [] AdaptiveView.Empty) (IntervalMap.IMap [] AdaptiveView.Empty)
    ∅ ∅ ∅ ∅ v_new ∅ ∅ (IntervalMap.IMap [] 0) (IntervalMap.IMap [] AdaptiveView.Empty).

(** ** Helpers *)
Definition makeInterval (a : AAccess.t) : IntervalMap.Interval :=
  IntervalMap.MkInterval (AAccess.addr a) (SAddr.addSize (AAccess.addr a) (AAccess.size a)).
(** The loop over the segments that meet an access. *)
Definition segments {W} `{IntervalMap.IVal W} (m : IntervalMap.t W) (a : AAccess.t) : res (list (IntervalMap.Interval * W)) :=
  IntervalMap.segments SAddr.max m (makeInterval a).
Definition getMaxView (m : AdaptiveViewMap) (a : AAccess.t) : res (AdaptiveView.t V) :=
  l ← segments m a; foldM (fun r iv => AdaptiveView.join r (snd iv)) AdaptiveView.Empty l.
(** [it != m.end()], and the entry at [it]. *)
Definition found {W} (it : list (Z * W)) : bool := negb (bool_decide (length it = 0%nat)).
Definition at_entry {W} (it : list (Z * W)) : res (IntervalMap.Interval * W) := IntervalMap.entry SAddr.max it.
Definition lookup_entry {W} `{IntervalMap.IVal W} (m : IntervalMap.t W) (p : SAddr.t) : res (IntervalMap.Interval * W) :=
  let it := IntervalMap.find m p in verify (found it);; at_entry it.

(** ** Initialization *)
Definition addStaticRange (s : t) (size alignment : Z) (persistent internal : bool) : res (SAddr.t * t) :=
  '(addr, al) ← SAddrAllocator.allocStatic (alloctor_ s) 0 (ASize.get size) alignment persistent internal;
  let s := set_alloctor_ al s in
  let r := (addr, SAddr.subSize (SAddr.addSize addr size) 1) in
  Ok (addr, set_staticRanges_ (VSet.insert (staticRanges_ s) r).1 s).
Definition addStaticInitData (s : t) (base size data : Z) : res t :=
  m ← IntervalMap.add (staticInitData_ s) (IntervalMap.MkInterval base (SAddr.addSize base size)) (MkInitDataPtr data);
  Ok (set_staticInitData_ m s).
(** The bytes that the pointers point to are those of [mem]. *)
Definition readStaticInitValue (mem : Z -> Z) (s : t) (a : AAccess.t) : res SVal.t :=
  '(iv, p) ← lookup_entry (staticInitData_ s) (AAccess.addr a);
  let offset := SAddr.diff (AAccess.addr a) (IntervalMap.start iv) in
  val ← foldM (fun val i => let i := Z.of_nat i in
      defined (i * 8 <? 64);; Ok (Z.lor val (wrap64 (Z.shiftl (mem (ptr p + offset + i)) (i * 8)))))
    0 (seq 0 (Z.to_nat (AAccess.size a)));
  Ok (SVal.ofValue val).
(** The allocator keeps what a view with nothing in it bounds; static data stay. *)
Definition clear (s : t) : t :=
  ExecutionState (IntervalMap.clear (allocInfoMap_ s)) (IntervalMap.clear (initialized_ s))
    (SAddrAllocator.restrict (fun _ => 0) (alloctor_ s)) (staticRanges_ s) (staticInitData_ s)
    (IntervalMap.clear (lastNAWriteVal_ s)) (IntervalMap.clear (lastIsNA_ s)) (IntervalMap.clear (lastNAWriteEvent_ s))
    (IntervalMap.clear (lastNAReadView_ s)) (IntervalMap.clear (lastAReadView_ s)) (IntervalMap.clear (lastAWriteView_ s))
    ∅ ∅ ∅ ∅ v_new ∅ ∅ (IntervalMap.clear (hpProtectCount_ s)) (IntervalMap.clear (lastUnprotectedAccess_ s)).

(** ** Queries *)
Definition isAllocated (s : t) (addr : SAddr.t) : bool := found (IntervalMap.find (allocInfoMap_ s) addr).
(** [std::lower_bound] with [itV.second < v.first]. *)
Fixpoint range_at (l : list (SAddr.t * SAddr.t)) (addr : SAddr.t) : option (SAddr.t * SAddr.t) :=
  match l with [] => None | r :: l => if r.2 <? addr then range_at l addr else Some r end.
Definition isStatic (s : t) (addr : SAddr.t) : bool :=
  match range_at (staticRanges_ s) addr with Some r => (r.1 <=? addr) && (addr <=? r.2) | None => false end.
Definition getInitView (s : t) (a : AAccess.t) : res (AdaptiveView.t V) := getMaxView (initialized_ s) a.
Definition isInitialized (s : t) (a : AAccess.t) : res bool := v ← getInitView s a; Ok (negb (AdaptiveView.empty v)).
(** The segment that contains the access, if any, is the access. *)
Definition same_segment (m : AdaptiveViewMap) (a : AAccess.t) : res bool :=
  it ← IntervalMap.find_interval SAddr.max m (makeInterval a);
  if found it then '(iv, _) ← at_entry it;
    Ok ((IntervalMap.start iv =? AAccess.addr a) && (SAddr.diff (IntervalMap.end_ iv) (IntervalMap.start iv) =? AAccess.size a))
  else Ok true.
Definition isAtomicAccessConsistent (s : t) (a : AAccess.t) : res bool :=
  b ← same_segment (lastAWriteView_ s) a; if (b : bool) then same_segment (lastAReadView_ s) a else Ok false.
Definition isFreed (s : t) (addr : SAddr.t) : res bool :=
  let it := IntervalMap.find (allocInfoMap_ s) addr in
  if found it then '(_, x) ← at_entry it; Ok (bool_decide (is_Some (freePos x))) else Ok false.
Definition isRetired (s : t) (addr : SAddr.t) : res bool :=
  let it := IntervalMap.find (allocInfoMap_ s) addr in
  if found it then '(_, x) ← at_entry it; Ok (bool_decide (is_Some (freePos x)) && isRetire x) else Ok false.
Definition getAllocPos (s : t) (addr : SAddr.t) : res Event.t := '(_, x) ← lookup_entry (allocInfoMap_ s) addr; Ok (pos x).
Definition getAllocAccess (s : t) (addr : SAddr.t) : res AAccess.t := '(_, x) ← lookup_entry (allocInfoMap_ s) addr; Ok (access x).
Definition getFreePos (s : t) (addr : SAddr.t) : res (option Event.t) := '(_, x) ← lookup_entry (allocInfoMap_ s) addr; Ok (freePos x).

Definition getMaxNAReadView (s : t) (a : AAccess.t) : res (AdaptiveView.t V) := getMaxView (lastNAReadView_ s) a.
Definition getMaxNAWriteEvent (s : t) (a : AAccess.t) : res (AdaptiveView.t V) :=
  l ← segments (lastNAWriteEvent_ s) a;
  es ← foldM (fun es iv => e ← value_of (snd iv); Ok (es ++ [e])) [] l; Ok (AdaptiveView.OfEvents es).
Definition getMaxAReadView (s : t) (a : AAccess.t) : res (AdaptiveView.t V) := getMaxView (lastAReadView_ s) a.
Definition getMaxAWriteView (s : t) (a : AAccess.t) : res (AdaptiveView.t V) := getMaxView (lastAWriteView_ s) a.
Definition getMaxUnprotectedView (s : t) (addr : SAddr.t) : res (AdaptiveView.t V) :=
  a ← getAllocAccess s addr; verify (AAccess.addr a =? addr);; getMaxView (lastUnprotectedAccess_ s) a.
Definition getLastMemAccess (s : t) (thread : Z) : res Z := v_getMax (lastMemAccess_ s) thread.
Definition getPreviousNA (s : t) (thread : Z) : Z * bool := default (0, false) (previousNA_ s !! thread).

(** [adjacent_find(l, not_equal_to) == end]: all the same. *)
Fixpoint all_same (l : list Z) : bool :=
  match l with x :: ((y :: _) as l') => (x =? y) && all_same l' | _ => true end.
Definition common (l : list Z) : Z := if all_same l then match l with [] => 0 | x :: _ => x end else 0.
Definition getNAWriteValue (s : t) (a : AAccess.t) : res SVal.t :=
  '(r, provenances) ← foldM (fun '(r, provs) i => let i := Z.of_nat i in
      '(_, o) ← lookup_entry (lastNAWriteVal_ s) (SAddr.addSize (AAccess.addr a) i);
      x ← value_of o;
      defined (i * 8 <? 64);;
      Ok (Z.lor r (wrap64 (Z.shiftl (Z.land (SVal.get x) 255) (i * 8))), provs ++ [SVal.getProvenance x]))
    (0, []) (seq 0 (Z.to_nat (AAccess.size a)));
  Ok (SVal.SVal r (common provenances)).
Definition getAtomicWriteInfo (s : t) (addr : SAddr.t) : res (option (SAddr.t * SAddr.t)) :=
  let it := IntervalMap.find (lastAWriteView_ s) addr in
  if found it then '(iv, _) ← at_entry it; Ok (Some (IntervalMap.start iv, IntervalMap.end_ iv)) else Ok None.
(** The mask that clears byte [i]. *)
Definition byte_mask (i : Z) : res SVal.t := defined (i * 8 <? 64);; Ok (SVal.ofValue (wrap64 (Z.lnot (wrap64 (Z.shiftl 255 (i * 8)))))).
Definition reconstructMemValue (s : t) (a : AAccess.t) (atomicView : V) (atomicVal : SVal.t) : res SVal.t :=
  mx ← getMaxNAWriteEvent s a;
  newer ← AdaptiveView.containedIn mx atomicView;
  if (newer : bool) then Ok atomicVal else
  '(r, provenances) ← foldM (fun '(r, provs) i => let i := Z.of_nat i in
      let byte := AAccess.AAccess (SAddr.addSize (AAccess.addr a) i) 1 in
      mx ← getMaxNAWriteEvent s byte;
      known ← AdaptiveView.containedIn mx atomicView;
      if (known : bool) then Ok (r, provs) else
      mask ← byte_mask i;
      x ← getNAWriteValue s byte;
      byteVal ← SVal.shl x (SVal.ofValue (i * 8));
      Ok (SVal.or_ (SVal.and_ r mask) byteVal, provs ++ [SVal.getProvenance byteVal]))
    (atomicVal, []) (seq 0 (Z.to_nat (AAccess.size a)));
  Ok (SVal.SVal (SVal.get r) (common provenances)).

(** ** Updates *)
Definition isInLoop (s : t) (thread : Z) : bool :=
  match currentLoop_ s !! thread with Some l => negb (Event.isInitializer l) | None => false end.
(** [at()] throws when there is no such key. *)
Definition at_key {K W} `{Countable K} (m : gmap K W) (k : K) : res W := match m !! k with Some x => Ok x | None => Abort OutOfRange end.
Definition doesCurrLoopHaveSideEffects (s : t) (thread : Z) : res bool :=
  if negb (isInLoop s thread) then Ok false else
  l ← at_key (currentLoop_ s) thread; Ok (bool_decide (l ∈ loopSideEffects_ s)).
(** The loop of [isProtected]: [None] is the early return. *)
Fixpoint covered (l : list (IntervalMap.Interval * count)) (lastUncovered : SAddr.t) : option SAddr.t :=
  match l with
  | [] => Some lastUncovered
  | (iv, n) :: l =>
      let u := if (0 <? n) && (IntervalMap.start iv <=? lastUncovered) && (lastUncovered <? IntervalMap.end_ iv)
               then IntervalMap.end_ iv else lastUncovered in
      if u <? IntervalMap.start iv then None else covered l u
  end.
Definition isProtected (s : t) (a : AAccess.t) : res bool :=
  l ← segments (hpProtectCount_ s) a;
  Ok (match covered l (AAccess.addr a) with
      | Some u => SAddr.addSize (AAccess.addr a) (AAccess.size a) <=? u
      | None => false
      end).

(** The part of [recordMemAccess] and [recordNAWrite] that is common: the last access
    of the thread, and the accesses that no hazard pointer protects. *)
Definition recordLast (s : t) (a : AAccess.t) (e : Event.t) (view : V) : res t :=
  v ← v_updateIdx (lastMemAccess_ s) e;
  let s := set_lastMemAccess_ v s in
  p ← isProtected s a;
  if negb p then
    m ← IntervalMap.add (lastUnprotectedAccess_ s) (makeInterval a) (AdaptiveView.Update e view); Ok (set_lastUnprotectedAccess_ m s)
  else Ok s.
(** The map is one of the members of the state: it is returned with the state. *)
Definition recordMemAccess (m : AdaptiveViewMap) (s : t) (a : AAccess.t) (e : Event.t) (view : V) : res (AdaptiveViewMap * t) :=
  m ← IntervalMap.add m (makeInterval a) (AdaptiveView.Update e view);
  s ← recordLast s a e view; Ok (m, s).
(** [loopAccess_[currentLoop_[pos.thread]].add(makeInterval(access))], in a loop without side effects. *)
Definition recordLoopAccess (s : t) (e : Event.t) (a : AAccess.t) : res t :=
  effects ← doesCurrLoopHaveSideEffects s (Event.thread e);
  if isInLoop s (Event.thread e) && negb effects then
    l ← at_key (currentLoop_ s) (Event.thread e);
    x ← IntervalSet.add (default IntervalSet.new (loopAccess_ s !! l)) (makeInterval a);
    Ok (set_loopAccess_ (<[l := x]> (loopAccess_ s)) s)
  else Ok s.
Definition onNALoad (s : t) (e : Event.t) (a : AAccess.t) (view : V) : res t :=
  '(m, s) ← recordMemAccess (lastNAReadView_ s) s a e view;
  let s := set_lastNAReadView_ m s in
  let s := set_previousNA_ (<[Event.thread e := (Event.index e, true)]> (previousNA_ s)) s in
  recordLoopAccess s e a.
Definition onATLoad (s : t) (e : Event.t) (a : AAccess.t) (view : V) : res t :=
  '(m, s) ← recordMemAccess (lastAReadView_ s) s a e view; recordLoopAccess (set_lastAReadView_ m s) e a.
Definition onSpinStart (s : t) (e : Event.t) : res (bool * t) :=
  if negb (isInLoop s (Event.thread e)) then Abort UserError else
  effects ← doesCurrLoopHaveSideEffects s (Event.thread e);
  l ← at_key (currentLoop_ s) (Event.thread e);
  Ok (effects, set_loopSideEffects_ (loopSideEffects_ s ∖ {[l]}) s).
Definition onLoopBegin (s : t) (e : Event.t) : t := set_currentLoop_ (<[Event.thread e := e]> (currentLoop_ s)) s.

Definition getFreshAddr (tid size alignment : Z) (sdur : StorageDuration) (styp : StorageType) (spc : AddressSpace)
    (al : SAddrAllocator.state) : res (SAddr.t * SAddrAllocator.state) :=
  verify ((0 <? alignment) && (Z.land alignment (alignment - 1) =? 0));;
  match sdur with
  | SD_Automatic => SAddrAllocator.allocAutomatic al tid (ASize.get size) alignment (isDurableType styp) (isInternalSpace spc)
  | SD_Heap => SAddrAllocator.allocHeap al tid (ASize.get size) alignment (isDurableType styp) (isInternalSpace spc)
  | SD_Static | SD_StorageLast => Abort Unreachable
  end.
Definition onAlloc (s : t) (e : Event.t) (size alignment : Z) (sdur : StorageDuration) (styp : StorageType) (spc : AddressSpace)
    : res (SAddr.t * t) :=
  '(addr, al) ← getFreshAddr (Event.thread e) size alignment sdur styp spc (alloctor_ s);
  let s := set_alloctor_ al s in
  let a := AAccess.AAccess addr size in
  verify (negb (found (IntervalMap.find (allocInfoMap_ s) addr)));;
  m ← IntervalMap.add (allocInfoMap_ s) (makeInterval a) (AllocInfo_new e a (wrap 32 alignment));
  Ok (addr, set_allocInfoMap_ m s).
Definition updateHpCount (s : t) (addr : SAddr.t) (n : count) : res t :=
  protectedAddr ← at_key (hpProtectMap_ s) addr;
  a ← getAllocAccess s protectedAddr;
  verify (AAccess.addr a =? protectedAddr);;
  m ← IntervalMap.add (hpProtectCount_ s) (makeInterval a) n; Ok (set_hpProtectCount_ m s).
(** Does the hazard pointer protect anything? *)
Definition hp_protects (s : t) (addr : SAddr.t) : bool :=
  match hpProtectMap_ s !! addr with Some p => negb (p =? 0) | None => false end.
Definition onFree (s : t) (e : Event.t) (addr : SAddr.t) (retire : bool) : res t :=
  '(iv, x) ← lookup_entry (allocInfoMap_ s) addr;
  m ← IntervalMap.add (allocInfoMap_ s) iv (MkAllocInfo (pos x) (access x) (alignment x) (Some e) retire);
  let s := set_allocInfoMap_ m s in
  s ← (if hp_protects s addr then updateHpCount s addr (-1) else Ok s);
  Ok (set_hpProtectMap_ (delete addr (hpProtectMap_ s)) s).
Definition onProtect (s : t) (hpAddr protAddr : SAddr.t) : res t :=
  s ← (if hp_protects s hpAddr then updateHpCount s hpAddr (-1) else Ok s);
  let s := set_hpProtectMap_ (<[hpAddr := protAddr]> (hpProtectMap_ s)) s in
  if negb (protAddr =? 0) then updateHpCount s hpAddr 1 else Ok s.

Definition isLocReadInLoop (s : t) (thread : Z) (a : AAccess.t) : res bool :=
  if negb (isInLoop s thread) then Ok false else
  l ← at_key (currentLoop_ s) thread;
  Ok (match loopAccess_ s !! l with Some x => IntervalSet.overlaps SAddr.max x (makeInterval a) | None => false end).
Definition updateSideEffects (s : t) (e : Event.t) : res t :=
  verify (isInLoop s (Event.thread e));;
  l ← at_key (currentLoop_ s) (Event.thread e);
  Ok (set_loopSideEffects_ ({[l]} ∪ loopSideEffects_ s) s).
Definition onFence (s : t) (e : Event.t) (isRelease : bool) : t :=
  if isRelease then set_lastReleaseIdx_ (<[Event.thread e := Event.index e]> (lastReleaseIdx_ s)) s else s.
Definition checkLoopSideEffects (s : t) (e : Event.t) (a : AAccess.t) (isRelease : bool) : res t :=
  let thread := Event.thread e in
  let s := onFence s e isRelease in
  effects ← doesCurrLoopHaveSideEffects s thread;
  if negb (isInLoop s thread) || effects then Ok s else
  if isRelease || negb (SAddr.isDynamic (AAccess.addr a)) then updateSideEffects s e else
  allocPos ← getAllocPos s (AAccess.addr a);
  if negb (Event.thread allocPos =? thread) then updateSideEffects s e else
  let lastRelIdx := default 0 (lastReleaseIdx_ s !! thread) in
  let s := set_lastReleaseIdx_ (<[thread := lastRelIdx]> (lastReleaseIdx_ s)) s in
  if (Event.index allocPos <? lastRelIdx) && (lastRelIdx <? Event.index e) then updateSideEffects s e else
  r ← isLocReadInLoop s thread a;
  if (r : bool) then updateSideEffects s e else Ok s.

Definition recordNAWrite (s : t) (a : AAccess.t) (e : Event.t) (view : V) : res t :=
  m ← IntervalMap.add (lastNAWriteEvent_ s) (makeInterval a) (Some e);
  recordLast (set_lastNAWriteEvent_ m s) a e view.
(** The parts of the access that no segment covers. *)
Definition uninitParts (m : AdaptiveViewMap) (a : AAccess.t) : res IntervalSet.t :=
  l ← segments m a;
  x ← IntervalSet.add IntervalSet.new (makeInterval a);
  foldM (fun x iv => IntervalSet.subtract x (IntervalMap.intersect (fst iv) (makeInterval a))) x l.
Definition markInitialized (s : t) (a : AAccess.t) (e : Event.t) (view : V) : res t :=
  c ← IntervalMap.contains_interval SAddr.max (initialized_ s) (makeInterval a);
  if (c : bool) then Ok s else
  x ← uninitParts (initialized_ s) a;
  m ← foldM (fun m iv => IntervalMap.add m iv (AdaptiveView.Update e view)) (initialized_ s)
        (IntervalSet.intervals SAddr.max (IntervalMap.map_ x));
  Ok (set_initialized_ m s).
Definition updateLastWriteType (s : t) (a : AAccess.t) (isAtomic : bool) : res t :=
  m ← IntervalMap.add (lastIsNA_ s) (makeInterval a) (Some (negb isAtomic)); Ok (set_lastIsNA_ m s).
Definition onDeferredValueUpdate (s : t) (a : AAccess.t) (val : SVal.t) : res t :=
  foldM (fun s i => let i := Z.of_nat i in
    sh ← SVal.shr val (SVal.ofValue (i * 8));
    let byteVal := SVal.and_ sh (SVal.ofValue 255) in
    let p := SAddr.addSize (AAccess.addr a) i in
    '(_, o) ← lookup_entry (lastIsNA_ s) p;
    na ← value_of o;
    if negb na then Ok s else
    m ← IntervalMap.add (lastNAWriteVal_ s) (IntervalMap.MkInterval p (SAddr.addSize p 1)) (Some byteVal);
    Ok (set_lastNAWriteVal_ m s)) s (seq 0 (Z.to_nat (AAccess.size a))).
Definition onNAStore (s : t) (e : Event.t) (a : AAccess.t) (view : V) (val : option SVal.t) : res t :=
  s ← updateLastWriteType s a false;
  let s := set_previousNA_ (<[Event.thread e := (Event.index e, false)]> (previousNA_ s)) s in
  s ← match val with Some v => onDeferredValueUpdate s a v | None => Ok s end;
  s ← markInitialized s a e view;
  s ← recordNAWrite s a e view;
  checkLoopSideEffects s e a false.
Definition onATStore (s : t) (e : Event.t) (a : AAccess.t) (view : V) (isEffectful isRelease : bool) : res t :=
  '(m, s) ← recordMemAccess (lastAWriteView_ s) s a e view;
  let s := set_lastAWriteView_ m s in
  s ← markInitialized s a e view;
  s ← updateLastWriteType s a true;
  s ← (if hp_protects s (AAccess.addr a)
       then s ← updateHpCount s (AAccess.addr a) (-1); Ok (set_hpProtectMap_ (<[AAccess.addr a := 0]> (hpProtectMap_ s)) s)
       else Ok s);
  if isEffectful then checkLoopSideEffects s e a isRelease else Ok s.
End state.
Arguments t V : clear implicits.
End ExecutionState.
