(* ===== verification/StateSpec.v ===== *)
(** * What the execution state records

    The handlers of [ExecutionState] are related to the sequence of the operations
    that an execution performed: every query is a function of that sequence.  A
    component of the state has its own invariant, with a lemma per update; a step of
    any legal operation succeeds and preserves them all. *)

From S2P Require Import Prelude Values Addresses Events VSet Views IntervalMap AdaptiveView ExecutionState.
Local Open Scope Z_scope.

Module StateSpec.
Import ExecutionState.

(** ** Accesses *)
Definition covers (a : AAccess.t) (p : Z) : bool := (AAccess.addr a <=? p) && (p <? AAccess.addr a + AAccess.size a).
Definition meets (a b : AAccess.t) : Prop :=
  AAccess.addr a < AAccess.addr b + AAccess.size b /\ AAccess.addr b < AAccess.addr a + AAccess.size a.
Lemma covers_spec a p : covers a p = true <-> AAccess.addr a <= p < AAccess.addr a + AAccess.size a.
Proof. unfold covers. rewrite andb_true_iff, Z.leb_le, Z.ltb_lt. done. Qed.
Lemma makeInterval_wf a : AAccess.wf a ->
  IntervalMap.start (makeInterval a) = AAccess.addr a /\ IntervalMap.end_ (makeInterval a) = AAccess.addr a + AAccess.size a /\
  AAccess.addr a < AAccess.addr a + AAccess.size a /\ AAccess.addr a + AAccess.size a <= SAddr.max.
Proof.
  intros Ha. cbn. rewrite AAccess.addSize_wf by done. destruct Ha as (? & ? & ?). change SAddr.max with (2 ^ 64 - 1). lia.
Qed.
Lemma within_access a p : AAccess.wf a -> IntervalMap.within (makeInterval a) p = covers a p.
Proof. intros Ha. unfold IntervalMap.within, covers. by destruct (makeInterval_wf a Ha) as (-> & -> & _). Qed.

(** ** Laws of the values *)
#[global] Instance opt_equiv {T} (eq : T -> T -> bool) : Equivalence (fun x y => eq x y = true) ->
  Equivalence (fun x y : option T => opt_eqb eq x y = true).
Proof.
  intros [Hr Hs Ht]. split.
  - intros [x|]; [apply Hr|done].
  - intros [x|] [y|]; try done. apply Hs.
  - intros [x|] [y|] [z|]; try done. apply Ht.
Qed.
#[global] Instance value_laws : IntervalMap.IValLaws (option SVal.t).
Proof.
  constructor. apply opt_equiv. unfold SVal.eqb. split.
  - intros x. apply Z.eqb_refl.
  - intros x y. rewrite !Z.eqb_eq. done.
  - intros x y z. rewrite !Z.eqb_eq. congruence.
Qed.
#[global] Instance flag_laws : IntervalMap.IValLaws (option bool).
Proof. constructor. apply opt_equiv. split; [by intros []|by intros [] []|by intros [] [] []]. Qed.
Lemma decide_equiv {T} `{EqDecision T} : Equivalence (fun x y : T => bool_decide (x = y) = true).
Proof. split; [intros x; by apply bool_decide_eq_true|intros x y; rewrite !bool_decide_eq_true; done|intros x y z; rewrite !bool_decide_eq_true; congruence]. Qed.
#[global] Instance event_laws : IntervalMap.IValLaws (option Event.t).
Proof. constructor. apply decide_equiv. Qed.
#[global] Instance alloc_laws : IntervalMap.IValLaws AllocInfo.
Proof. constructor. apply decide_equiv. Qed.
#[global] Instance init_laws : IntervalMap.IValLaws InitDataPtr.
Proof. constructor. apply decide_equiv. Qed.
#[global] Instance count_laws : IntervalMap.IValLaws count.
Proof. constructor. cbn. split; [intros x; apply Z.eqb_refl|intros x y; rewrite !Z.eqb_eq; done|intros x y z; rewrite !Z.eqb_eq; congruence]. Qed.

Section spec.
Context {V : Type} `{ViewLaws V}.

(** ** Maps of views: who accessed what last *)
Definition accesses : Type := list (AAccess.t * Event.t * V).
Definition seen (u : V) (e : Event.t) : Prop := Event.index e <= v_clock u (Event.thread e).
Definition sees (u v : V) : Prop := AdaptiveView.below (v_clock v) (v_clock u).
(** A view that contains an access contains what the access has seen. *)
Definition closed (h : accesses) (u : V) : Prop := forall a e v, (a, e, v) ∈ h -> seen u e -> sees u v.
Definition access_ok (x : AAccess.t * Event.t * V) : Prop := AAccess.wf x.1.1 /\ AdaptiveView.valid x.1.2 /\ v_wf x.2.
Record view_map_ok (m : AdaptiveViewMap (V := V)) (h : accesses) : Prop := {
  vm_canonical : IntervalMap.canonical m;
  vm_id : IntervalMap.id_ m = AdaptiveView.Empty;
  vm_values : IntervalMap.values_ok AdaptiveView.wf (IntervalMap.map_ m);
  vm_accesses : Forall access_ok h;
  vm_seen p u : v_wf u -> closed h u ->
    AdaptiveView.below (AdaptiveView.clock (IntervalMap.denote m p)) (v_clock u) <-> forall a e v, (a, e, v) ∈ h -> covers a p = true -> seen u e
}.

Lemma eqb_clock (a b : AdaptiveView.t V) : AdaptiveView.wf a -> AdaptiveView.wf b -> AdaptiveView.eqb a b = true ->
  forall t, 0 <= t -> AdaptiveView.clock a t = AdaptiveView.clock b t.
Proof.
  intros Ha Hb E t Ht. apply AdaptiveView.eqb_shape in E.
  assert (Hs : forall c : AdaptiveView.t V, match AdaptiveView.shape c with inl e => AdaptiveView.clock c t = AdaptiveView.one e t | inr c' => c' = c end).
  { intros [e|[|e [|e' es]]|v|e v|]; cbn; try done. pose proof (AdaptiveView.one_nonneg e t). lia. }
  pose proof (Hs a) as Hsa. pose proof (Hs b) as Hsb. destruct (AdaptiveView.shape a) as [e|a'], (AdaptiveView.shape b) as [e'|b']; try done.
  - by rewrite Hsa, Hsb, E.
  - subst a' b'. destruct a as [e|es|v|e v|], b as [e'|es'|w|e' w|]; cbn in E; try done.
    + apply bool_decide_eq_true in E. by subst.
    + apply bool_decide_eq_true in E. by subst.
    + by apply (v_eqb_ok v w Ha Hb).
    + apply andb_true_iff in E as [E _]. apply bool_decide_eq_true in E. by subst.
Qed.
Lemma below_ext (f g u : Z -> Z) : (forall t, 0 <= t -> f t = g t) -> AdaptiveView.below f u <-> AdaptiveView.below g u.
Proof. intros E. split; intros Hb t Ht; specialize (Hb t Ht); specialize (E t Ht); lia. Qed.
Lemma view_map_new : view_map_ok (IntervalMap.IMap [] AdaptiveView.Empty) [].
Proof.
  split; [apply IntervalMap.new_canonical|done|constructor|constructor|]. intros p u Hu _. split; [by intros _ a e v ?%not_elem_of_nil|].
  intros _ t Ht. cbn. by apply v_nonneg.
Qed.

Lemma nonneg_clock (u : V) : v_wf u -> forall t, 0 <= t -> 0 <= v_clock u t.
Proof. intros Hu t _. by apply v_nonneg. Qed.
(** Recording an access. *)
Lemma record_ok m h a e v : view_map_ok m h -> access_ok (a, e, v) ->
  exists m', IntervalMap.add m (makeInterval a) (AdaptiveView.Update e v) = Ok m' /\ view_map_ok m' ((a, e, v) :: h).
Proof.
  intros [Hc Hid Hval Hacc Hseen] (Ha & He & Hv). cbn in Ha, He, Hv. destruct (makeInterval_wf a Ha) as (Es & Ee & Hlt & _).
  assert (Hplus : forall x, AdaptiveView.wf x -> exists y, AdaptiveView.plus x (AdaptiveView.Update e v) = Ok y /\ AdaptiveView.wf y).
  { intros x Hx. destruct (AdaptiveView.plus_ok x e v Hx He Hv) as (y & E & Hy & _). by exists y. }
  assert (Hden : forall p, AdaptiveView.wf (IntervalMap.denote m p)) by (intros p; apply IntervalMap.denote_values; [by rewrite Hid|done]).
  destruct (IntervalMap.map_add_ok m (makeInterval a) (AdaptiveView.Update e v) Hc) as (m' & E & Hc' & Hid' & Hout & Hin).
  { by rewrite Es, Ee. }
  { by rewrite Hid. }
  { intros p _. destruct (Hplus _ (Hden p)) as (y & Ey & _). by exists y. }
  destruct (IntervalMap.map_add_values AdaptiveView.wf m m' (makeInterval a) (AdaptiveView.Update e v)) as [_ Hval'];
    [intros x y Hx Ey; destruct (Hplus x Hx) as (y' & Ey' & Hy'); change (AdaptiveView.plus x (AdaptiveView.Update e v) = Ok y) in Ey; rewrite Ey' in Ey; by injection Ey as <-|by rewrite Hid|done|done|].
  assert (Hden' : forall p, AdaptiveView.wf (IntervalMap.denote m' p)) by (intros p; apply IntervalMap.denote_values; [by rewrite Hid', Hid|done]).
  exists m'. split; [done|]. split; [done|by rewrite Hid'|done|by constructor|]. intros p u Hu Hcl.
  assert (Hcl0 : closed h u) by (intros b f w Hb; apply (Hcl b f w); by right).
  rewrite Es, Ee in Hout, Hin. destruct (covers a p) eqn:Ep.
  - apply covers_spec in Ep. destruct (AdaptiveView.plus_ok _ e v (Hden p) He Hv) as (y & Ey & Hy & Hcy).
    rewrite (below_ext _ _ _ (eqb_clock _ y (Hden' p) Hy (Hin p y Ep Ey))).
    assert (Hse : seen u e <-> AdaptiveView.below (AdaptiveView.one e) (v_clock u)) by (symmetry; apply AdaptiveView.one_below; [by apply nonneg_clock|done]).
    rewrite <- covers_spec in Ep. split.
    + intros Hb. assert (Hue : seen u e) by (apply Hse; intros t Ht; specialize (Hcy t Ht); specialize (Hb t Ht); lia).
      specialize (Hcl a e v ltac:(by left) Hue).
      assert (Hold : AdaptiveView.below (AdaptiveView.clock (IntervalMap.denote m p)) (v_clock u)).
      { intros t Ht. specialize (Hcy t Ht). specialize (Hb t Ht). specialize (Hcl t Ht). lia. }
      rewrite Hseen in Hold by done. intros b f w [[= -> -> ->]|Hb']%elem_of_cons Hbp; [done|by apply (Hold b f w)].
    + intros Hall. assert (Hue : seen u e) by (apply (Hall a e v); [by left|done]).
      assert (Hold : AdaptiveView.below (AdaptiveView.clock (IntervalMap.denote m p)) (v_clock u)).
      { apply Hseen; [done..|]. intros b f w Hb. apply (Hall b f w). by right. }
      apply Hse in Hue. intros t Ht. specialize (Hcy t Ht). specialize (Hold t Ht). specialize (Hue t Ht). lia.
  - assert (Hnp : ~ (AAccess.addr a <= p < AAccess.addr a + AAccess.size a)) by (rewrite <- covers_spec; congruence).
    rewrite (below_ext _ _ _ (eqb_clock _ _ (Hden' p) (Hden p) (Hout p Hnp))), Hseen by done. split.
    + intros Hall b f w [[= -> -> ->]|Hb]%elem_of_cons Hbp; [congruence|by apply (Hall b f w)].
    + intros Hall b f w Hb. apply (Hall b f w). by right.
Qed.
(** Joining views. *)
Lemma joins_ok (l : list (IntervalMap.Interval * AdaptiveView.t V)) : forall r, AdaptiveView.wf r -> (forall J y, (J, y) ∈ l -> AdaptiveView.wf y) ->
  exists x, foldM (fun r iv => AdaptiveView.join r (snd iv)) r l = Ok x /\ AdaptiveView.wf x /\
    forall u, AdaptiveView.below (AdaptiveView.clock x) u <->
      AdaptiveView.below (AdaptiveView.clock r) u /\ forall J y, (J, y) ∈ l -> AdaptiveView.below (AdaptiveView.clock y) u.
Proof.
  induction l as [|[J y] l IH]; intros r Hr Hl; cbn [foldM].
  - exists r. split; [done|]. split; [done|]. intros u. split; [|by intros [? _]]. intros Hb. split; [done|]. by intros ?? ?%not_elem_of_nil.
  - destruct (AdaptiveView.join_ok r y Hr (Hl J y ltac:(by left))) as (c & Ec & Hc & Ecl). cbn [snd]. rewrite Ec. cbn [mbind res_bind].
    destruct (IH c Hc) as (x & -> & Hx & Hbx); [intros J' y' Hin; apply (Hl J'); by right|]. exists x. split; [done|]. split; [done|].
    intros u. rewrite Hbx. assert (Hcu : AdaptiveView.below (AdaptiveView.clock c) u <-> AdaptiveView.below (AdaptiveView.clock r) u /\ AdaptiveView.below (AdaptiveView.clock y) u).
    { split; [intros Hb; split; intros t Ht; specialize (Hb t Ht); rewrite Ecl in Hb by done; lia|].
      intros [H1 H2] t Ht. rewrite Ecl by done. specialize (H1 t Ht). specialize (H2 t Ht). lia. }
    rewrite Hcu. split.
    + intros [[H1 H2] H3]. split; [done|]. intros J' y' [[= -> ->]|Hin]%elem_of_cons; [done|by apply (H3 J')].
    + intros [H1 H2]. split; [split; [done|]|]; [apply (H2 J); by left|]. intros J' y' Hin. apply (H2 J'). by right.
Qed.
(** What a query of the map returns is contained in a closed view exactly when the
    view contains all the recorded accesses that meet the access. *)
Lemma getMaxView_ok m h a : view_map_ok m h -> AAccess.wf a -> exists x, getMaxView m a = Ok x /\ AdaptiveView.wf x /\
  forall u, v_wf u -> closed h u ->
    AdaptiveView.below (AdaptiveView.clock x) (v_clock u) <-> forall b e v, (b, e, v) ∈ h -> meets b a -> seen u e.
Proof.
  intros [Hc Hid Hval Hacc Hseen] Ha. destruct (makeInterval_wf a Ha) as (Es & Ee & Hlt & Hmax).
  destruct (IntervalMap.segments_ok SAddr.max m (makeInterval a) Hc) as (l & El & _ & H1 & H2); [by rewrite Es, Ee|rewrite Es; lia|].
  rewrite Es, Ee in H1, H2. unfold getMaxView, segments. rewrite El. cbn [mbind res_bind].
  assert (Hin : forall J y, (J, y) ∈ l -> exists p, IntervalMap.start J <= p < IntervalMap.end_ J /\ AAccess.addr a <= p < AAccess.addr a + AAccess.size a /\ y = IntervalMap.denote m p).
  { intros J y Hin. destruct (H1 J y Hin) as (_ & J0 & J1 & J2 & J3).
    exists (Z.max (IntervalMap.start J) (AAccess.addr a)). split; [lia|]. split; [lia|]. symmetry. apply J3. lia. }
  destruct (joins_ok l AdaptiveView.Empty I) as (x & -> & Hx & Hb).
  { intros J y Hj. destruct (Hin J y Hj) as (p & _ & _ & ->). apply IntervalMap.denote_values; [by rewrite Hid|done]. }
  exists x. split; [done|]. split; [done|]. intros u Hu Hcl. rewrite Hb. split.
  - intros [_ Hall] b e v Hbh [M1 M2]. rewrite Forall_forall in Hacc. destruct (Hacc _ Hbh) as [Hbw _]. cbn in Hbw. set (p := Z.max (AAccess.addr a) (AAccess.addr b)). destruct Hbw as (? & ? & ?), Ha as (? & ? & ?).
    assert (Hbp : covers b p = true) by (apply covers_spec; lia).
    enough (Hp : AdaptiveView.below (AdaptiveView.clock (IntervalMap.denote m p)) (v_clock u)) by (rewrite Hseen in Hp by done; by apply (Hp b e v)).
    destruct (IntervalMap.veq (IntervalMap.denote m p) (IntervalMap.id_ m)) eqn:Eq.
    + rewrite Hid in Eq. assert (Hw : AdaptiveView.wf (IntervalMap.denote m p)) by (apply IntervalMap.denote_values; [by rewrite Hid|done]).
      apply (below_ext _ _ _ (eqb_clock _ AdaptiveView.Empty Hw I Eq)). intros t Ht. cbn. by apply v_nonneg.
    + destruct (H2 p ltac:(lia) ltac:(lia) Eq) as (J & y & Hj & HJ). destruct (H1 J y Hj) as (_ & _ & _ & _ & J3). rewrite (J3 p HJ). by apply (Hall J).
  - intros Hall. split; [intros t Ht; cbn; by apply v_nonneg|]. intros J y Hj. destruct (Hin J y Hj) as (p & _ & Hp & ->).
    apply Hseen; [done..|]. intros b e v Hbh Hbp%covers_spec. apply (Hall b e v Hbh). split; lia.
Qed.

(** ** What an execution did *)
Inductive op :=
  | NALoad (e : Event.t) (a : AAccess.t) (v : V)
  | ATLoad (e : Event.t) (a : AAccess.t) (v : V)
  | NAStore (e : Event.t) (a : AAccess.t) (v : V) (val : option SVal.t)
  | ATStore (e : Event.t) (a : AAccess.t) (v : V) (effectful release : bool)
  | Fence (e : Event.t) (release : bool)
  | LoopBegin (e : Event.t)
  | SpinStart (e : Event.t)
  | Alloc (e : Event.t) (a : AAccess.t) (alignment : Z) (sdur : StorageDuration) (styp : StorageType) (spc : AddressSpace)
  | Free (e : Event.t) (addr : SAddr.t) (retire : bool)
  | Protect (hp prot : SAddr.t).
(** An operation is remembered with whether its access was protected by hazard
    pointers; the newest comes first. *)
Definition trace : Type := list (op * bool).
Definition hist {B} (f : op -> option B) (tr : trace) : list B := omap (fun x => f x.1) tr.

Lemma hist_cons {B} (f : op -> option B) o b tr : hist f ((o, b) :: tr) = match f o with Some x => x :: hist f tr | None => hist f tr end.
Proof. done. Qed.
(** The accesses of each kind. *)
Definition na_read (o : op) : option (AAccess.t * Event.t * V) := match o with NALoad e a v => Some (a, e, v) | _ => None end.
Definition at_read (o : op) : option (AAccess.t * Event.t * V) := match o with ATLoad e a v => Some (a, e, v) | _ => None end.
Definition at_write (o : op) : option (AAccess.t * Event.t * V) := match o with ATStore e a v _ _ => Some (a, e, v) | _ => None end.
Definition access_of (o : op) : option (AAccess.t * Event.t * V) :=
  match o with NALoad e a v | ATLoad e a v | NAStore e a v _ | ATStore e a v _ _ => Some (a, e, v) | _ => None end.
Definition unprotected (tr : trace) : accesses := omap (fun x : op * bool => if x.2 then None else access_of x.1) tr.
Definition na_write_at (p : Z) (o : op) : option Event.t :=
  match o with NAStore e a _ _ => if covers a p then Some e else None | _ => None end.
Definition write_at (p : Z) (o : op) : option Event.t :=
  match o with NAStore e a _ _ | ATStore e a _ _ _ => if covers a p then Some e else None | _ => None end.
Definition write_type_at (p : Z) (o : op) : option bool :=
  match o with
  | NAStore _ a _ _ => if covers a p then Some true else None
  | ATStore _ a _ _ _ => if covers a p then Some false else None
  | _ => None
  end.
(** Byte [i] of a value. *)
Definition byte (v : SVal.t) (i : Z) : SVal.t := SVal.and_ (SVal.binop Z.shiftr v (SVal.ofValue (i * 8))) (SVal.ofValue 255).
Definition byte_at (p : Z) (o : op) : option SVal.t :=
  match o with NAStore _ a _ (Some v) => if covers a p then Some (byte v (p - AAccess.addr a)) else None | _ => None end.
Definition loop_at (thread : Z) (o : op) : option Event.t :=
  match o with LoopBegin e => if Event.thread e =? thread then Some e else None | _ => None end.
Definition previous_na_at (thread : Z) (o : op) : option (Z * bool) :=
  match o with
  | NALoad e _ _ => if Event.thread e =? thread then Some (Event.index e, true) else None
  | NAStore e _ _ _ => if Event.thread e =? thread then Some (Event.index e, false) else None
  | _ => None
  end.
(** A release store that is not effectful does not count. *)
Definition release_at (thread : Z) (o : op) : option Z :=
  match o with
  | Fence e true | ATStore e _ _ true true => if Event.thread e =? thread then Some (Event.index e) else None
  | _ => None
  end.
(** The allocation around an address, freed by the last free of an address of it. *)
Fixpoint alloc_at (tr : trace) (p : Z) : AllocInfo :=
  match tr with
  | [] => AllocInfo_default
  | (Alloc e a al _ _ _, _) :: tr => if covers a p then AllocInfo_new e a (wrap 32 al) else alloc_at tr p
  | (Free e q retire, _) :: tr =>
      let x := alloc_at tr p in
      if covers (access x) q then MkAllocInfo (pos x) (access x) (alignment x) (Some e) retire else x
  | _ :: tr => alloc_at tr p
  end.

(** ** Maps that remember the last write *)
Section last.
Context {W : Type} `{IntervalMap.IValLaws (option W)}.
Record last_ok (m : IntervalMap.t (option W)) (f : Z -> op -> option W) (tr : trace) : Prop := {
  last_canonical : IntervalMap.canonical m;
  last_id : IntervalMap.id_ m = None;
  last_at p : IntervalMap.veq (IntervalMap.denote m p) (head (hist (f p) tr)) = true
}.
Lemma last_new (f : Z -> op -> option W) : last_ok (IntervalMap.IMap [] None) f [].
Proof. split; [apply IntervalMap.new_canonical|done|]. intros p. apply IntervalMap.veq_refl. Qed.
Lemma last_skip m f tr o b : (forall p, f p o = None) -> last_ok m f tr -> last_ok m f ((o, b) :: tr).
Proof. intros Hf [Hc Hid Hat]. split; [done..|]. intros p. cbn. by rewrite Hf. Qed.
Lemma last_add m f tr o b a w : last_ok m f tr -> AAccess.wf a -> (forall p, f p o = if covers a p then Some w else None) ->
  IntervalMap.veq (Some w) None = false -> (forall x, IntervalMap.vadd x (Some w) = Ok (Some w)) ->
  exists m', IntervalMap.add m (makeInterval a) (Some w) = Ok m' /\ last_ok m' f ((o, b) :: tr).
Proof.
  intros [Hc Hid Hat] Ha Hf Hne Hr. destruct (makeInterval_wf a Ha) as (Es & Ee & Hlt & _).
  destruct (IntervalMap.map_add_replace m (makeInterval a) (Some w) Hc) as (m' & E & Hc' & Hid' & Hd); [by rewrite Es, Ee|by rewrite Hid|done|].
  exists m'. split; [done|]. split; [done|congruence|]. intros p. cbn. rewrite Hf. specialize (Hd p). rewrite within_access in Hd by done.
  destruct (covers a p); [done|]. by apply (IntervalMap.veq_trans _ _ _ Hd).
Qed.
End last.

(** ** Lookups *)
Section lookups.
Context {W : Type} `{IntervalMap.IValLaws W}.
Lemma found_cons {A} (l : list (Z * A)) : l <> [] -> found l = true.
Proof. by destruct l. Qed.
Lemma lookup_entry_ok (m : IntervalMap.t W) p : IntervalMap.canonical m -> IntervalMap.veq (IntervalMap.denote m p) (IntervalMap.id_ m) = false -> p < SAddr.max ->
  exists I, found (IntervalMap.find m p) = true /\ at_entry (IntervalMap.find m p) = Ok (I, IntervalMap.denote m p) /\
    lookup_entry m p = Ok (I, IntervalMap.denote m p) /\ IntervalMap.start I <= p < IntervalMap.end_ I /\
    (forall q, IntervalMap.start I <= q < IntervalMap.end_ I -> IntervalMap.denote m q = IntervalMap.denote m p) /\
    (forall a b, a <= p < b -> b <= SAddr.max -> (forall q, a <= q < b -> IntervalMap.veq (IntervalMap.denote m q) (IntervalMap.denote m p) = true) ->
      IntervalMap.start I <= a /\ b <= IntervalMap.end_ I).
Proof.
  intros Hm Hne Hp. destruct (IntervalMap.find_entry_ok SAddr.max m p Hm Hne Hp) as (I & Hf & E & L1 & L2 & L3). exists I.
  unfold lookup_entry, at_entry. rewrite (found_cons _ Hf), E. repeat (split; [done|]). exact L3.
Qed.
Lemma lookup_none (m : IntervalMap.t W) p : IntervalMap.canonical m -> IntervalMap.veq (IntervalMap.denote m p) (IntervalMap.id_ m) = true ->
  found (IntervalMap.find m p) = false.
Proof. intros Hm E. by rewrite IntervalMap.find_none. Qed.
End lookups.
Lemma flag_eq (x y : option bool) : IntervalMap.veq x y = true <-> x = y.
Proof. destruct x as [[]|], y as [[]|]; done. Qed.
Lemma event_eq (x y : option Event.t) : IntervalMap.veq x y = true <-> x = y.
Proof. apply bool_decide_eq_true. Qed.
Lemma alloc_eq (x y : AllocInfo) : IntervalMap.veq x y = true <-> x = y.
Proof. apply bool_decide_eq_true. Qed.
Lemma count_eq (x y : count) : IntervalMap.veq x y = true <-> x = y.
Proof. apply Z.eqb_eq. Qed.

(** ** Values of non-atomic stores *)
Lemma addr_plus a i : AAccess.wf a -> 0 <= i < AAccess.size a -> SAddr.addSize (AAccess.addr a) i = AAccess.addr a + i.
Proof. intros (? & ? & ?) Hi. unfold SAddr.addSize, ASize.get. apply wrap_small. unfold in_word. lia. Qed.
Lemma byte_wf a i : AAccess.wf a -> 0 <= i < AAccess.size a -> AAccess.wf (AAccess.AAccess (AAccess.addr a + i) 1).
Proof. intros (? & ? & ?) Hi. unfold AAccess.wf. cbn. lia. Qed.
Lemma set_lastNAWriteVal_twice s m m' : set_lastNAWriteVal_ m (set_lastNAWriteVal_ m' s) = set_lastNAWriteVal_ (V := V) m s.
Proof. done. Qed.
Definition deferred_step (a : AAccess.t) (v : SVal.t) (s : ExecutionState.t V) (i : nat) : res (ExecutionState.t V) :=
  let i := Z.of_nat i in
  sh ← SVal.shr v (SVal.ofValue (i * 8));
  let byteVal := SVal.and_ sh (SVal.ofValue 255) in
  let p := SAddr.addSize (AAccess.addr a) i in
  '(_, o) ← lookup_entry (lastIsNA_ s) p;
  na ← value_of o;
  if negb na then Ok s else
  m ← IntervalMap.add (lastNAWriteVal_ s) (IntervalMap.MkInterval p (SAddr.addSize p 1)) (Some byteVal);
  Ok (set_lastNAWriteVal_ m s).
Lemma deferred_step_ok a v (s : ExecutionState.t V) m i : AAccess.wf a -> (Z.of_nat i < AAccess.size a)%Z -> AAccess.size a <= 8 -> IntervalMap.canonical (lastIsNA_ s) ->
  IntervalMap.id_ (lastIsNA_ s) = None -> IntervalMap.denote (lastIsNA_ s) (AAccess.addr a + Z.of_nat i) = Some true ->
  IntervalMap.canonical m -> IntervalMap.id_ m = None ->
  exists m', deferred_step a v (set_lastNAWriteVal_ m s) i = Ok (set_lastNAWriteVal_ m' s) /\ IntervalMap.canonical m' /\ IntervalMap.id_ m' = None /\
    forall p, IntervalMap.veq (IntervalMap.denote m' p)
      (if p =? AAccess.addr a + Z.of_nat i then Some (byte v (Z.of_nat i)) else IntervalMap.denote m p) = true.
Proof.
  intros Ha Hi H8 Hc Hid Hna Hm Hmid. pose proof (byte_wf a (Z.of_nat i) Ha ltac:(lia)) as Hb. unfold deferred_step, SVal.shr.
  assert (Ei : (SVal.value (SVal.ofValue (Z.of_nat i * 8)) <? SVal.width) = true) by (apply Z.ltb_lt; cbn; unfold SVal.width; lia).
  rewrite Ei. cbn [defined mbind res_bind lastIsNA_ set_lastNAWriteVal_ lastNAWriteVal_]. rewrite (addr_plus a) by (done || lia).
  destruct (lookup_entry_ok (lastIsNA_ s) (AAccess.addr a + Z.of_nat i) Hc) as (I & _ & _ & -> & _);
    [by rewrite Hna, Hid|destruct Ha as (? & ? & ?); change SAddr.max with (2 ^ 64 - 1); lia|].
  rewrite Hna. cbn [mbind res_bind value_of deref negb].
  destruct (makeInterval_wf _ Hb) as (Es & Ee & _).
  destruct (IntervalMap.map_add_replace m (makeInterval (AAccess.AAccess (AAccess.addr a + Z.of_nat i) 1)) (Some (byte v (Z.of_nat i))) Hm)
    as (m' & E & Hm' & Hid' & Hd); [rewrite Es, Ee; cbn; lia|by rewrite Hmid|done|].
  cbn in E. unfold makeInterval in E. cbn [AAccess.addr AAccess.size] in E. fold (byte v (Z.of_nat i)). rewrite E. cbn [mbind res_bind].
  exists m'. split; [done|]. split; [done|]. split; [congruence|]. intros p. specialize (Hd p). rewrite within_access in Hd by done.
  unfold covers in Hd. cbn in Hd.
  destruct (Z.eqb_spec p (AAccess.addr a + Z.of_nat i)) as [->|Hne]; [by rewrite Z.leb_refl, (proj2 (Z.ltb_lt _ _)) in Hd by lia|].
  destruct (Z.leb_spec (AAccess.addr a + Z.of_nat i) p), (Z.ltb_spec p (AAccess.addr a + Z.of_nat i + 1)); try done. lia.
Qed.
Lemma deferred_ok (s : ExecutionState.t V) a v : AAccess.wf a -> AAccess.size a <= 8 -> IntervalMap.canonical (lastIsNA_ s) -> IntervalMap.id_ (lastIsNA_ s) = None ->
  (forall p, covers a p = true -> IntervalMap.denote (lastIsNA_ s) p = Some true) ->
  IntervalMap.canonical (lastNAWriteVal_ s) -> IntervalMap.id_ (lastNAWriteVal_ s) = None ->
  exists m, onDeferredValueUpdate s a v = Ok (set_lastNAWriteVal_ m s) /\ IntervalMap.canonical m /\ IntervalMap.id_ m = None /\
    forall p, IntervalMap.veq (IntervalMap.denote m p)
      (if covers a p then Some (byte v (p - AAccess.addr a)) else IntervalMap.denote (lastNAWriteVal_ s) p) = true.
Proof.
  intros Ha H8 Hc Hid Hna Hm Hmid.
  assert (Hloop : forall n k m, (k + n <= Z.to_nat (AAccess.size a))%nat -> IntervalMap.canonical m -> IntervalMap.id_ m = None ->
    exists m', foldM (deferred_step a v) (set_lastNAWriteVal_ m s) (seq k n) = Ok (set_lastNAWriteVal_ m' s) /\ IntervalMap.canonical m' /\
      IntervalMap.id_ m' = None /\ forall p, IntervalMap.veq (IntervalMap.denote m' p)
        (if (AAccess.addr a + Z.of_nat k <=? p) && (p <? AAccess.addr a + Z.of_nat (k + n)) then Some (byte v (p - AAccess.addr a)) else IntervalMap.denote m p) = true).
  { induction n as [|n IH]; intros k m Hk Hm0 Hid0; cbn [seq foldM].
    - exists m. split_and!; try done. intros p. replace (_ && _) with false by lia. apply IntervalMap.veq_refl.
    - destruct (deferred_step_ok a v s m k) as (m1 & -> & Hm1 & Hid1 & Hd1); try done; [lia|apply Hna, covers_spec; lia|]. cbn [mbind res_bind].
      destruct (IH (S k) m1) as (m2 & -> & Hm2 & Hid2 & Hd2); [lia|done..|]. exists m2. split_and!; try done.
      intros p. specialize (Hd1 p). specialize (Hd2 p). apply (IntervalMap.veq_trans _ _ _ Hd2). clear Hd2.
      destruct (Z.eqb_spec p (AAccess.addr a + Z.of_nat k)) as [Ep|Hne].
      + replace (_ && (p <? AAccess.addr a + Z.of_nat (S k + n))) with false by lia.
        replace (_ && _) with true by lia. by replace (p - AAccess.addr a) with (Z.of_nat k) by lia.
      + replace ((AAccess.addr a + Z.of_nat k <=? p) && (p <? AAccess.addr a + Z.of_nat (k + S n)))
          with ((AAccess.addr a + Z.of_nat (S k) <=? p) && (p <? AAccess.addr a + Z.of_nat (S k + n))) by lia.
        destruct (_ && _); [apply IntervalMap.veq_refl|done]. }
  destruct (Hloop (Z.to_nat (AAccess.size a)) 0%nat (lastNAWriteVal_ s)) as (m & E & Hm' & Hid' & Hd); [lia|done..|].
  exists m. split; [by destruct s|]. split_and!; try done. intros p. specialize (Hd p).
  replace (covers a p) with ((AAccess.addr a + Z.of_nat 0 <=? p) && (p <? AAccess.addr a + Z.of_nat (0 + Z.to_nat (AAccess.size a)))); [done|].
  unfold covers. destruct Ha as (? & ? & ?). lia.
Qed.

(** ** Who initialized what *)
Definition first_write (e : option Event.t) : AdaptiveView.t V := match e with Some e => AdaptiveView.OfEvent e | None => AdaptiveView.Empty end.
Record init_ok (m : AdaptiveViewMap (V := V)) (tr : trace) : Prop := {
  in_canonical : IntervalMap.canonical m;
  in_id : IntervalMap.id_ m = AdaptiveView.Empty;
  in_values : IntervalMap.values_ok AdaptiveView.wf (IntervalMap.map_ m);
  in_at p : AdaptiveView.eqb (IntervalMap.denote m p) (first_write (last (hist (write_at p) tr))) = true
}.
Lemma view_eq_trans (a b c : AdaptiveView.t V) : AdaptiveView.eqb a b = true -> AdaptiveView.eqb b c = true -> AdaptiveView.eqb a c = true.
Proof. apply AdaptiveView.eqb_equiv. Qed.
Lemma view_eq_sym (a b : AdaptiveView.t V) : AdaptiveView.eqb a b = true -> AdaptiveView.eqb b a = true.
Proof. apply AdaptiveView.eqb_equiv. Qed.
Lemma view_eq_empty (a : AdaptiveView.t V) : AdaptiveView.eqb a AdaptiveView.Empty = true <-> a = AdaptiveView.Empty.
Proof. rewrite AdaptiveView.eqb_shape. destruct a as [|[|? []]| | |]; cbn; try done; by split. Qed.
(** Filling intervals that hold nothing. *)
Lemma fill_ok e v ivs : AdaptiveView.valid e -> v_wf v -> forall m : AdaptiveViewMap, IntervalMap.separated ivs -> (forall iv, iv ∈ ivs -> IntervalMap.start iv < IntervalMap.end_ iv) ->
  IntervalMap.canonical m -> IntervalMap.id_ m = AdaptiveView.Empty -> IntervalMap.values_ok AdaptiveView.wf (IntervalMap.map_ m) ->
  (forall iv p, iv ∈ ivs -> IntervalMap.start iv <= p < IntervalMap.end_ iv -> IntervalMap.denote m p = AdaptiveView.Empty) ->
  exists m', foldM (fun m iv => IntervalMap.add m iv (AdaptiveView.Update e v)) m ivs = Ok m' /\ IntervalMap.canonical m' /\
    IntervalMap.id_ m' = AdaptiveView.Empty /\ IntervalMap.values_ok AdaptiveView.wf (IntervalMap.map_ m') /\
    forall p, AdaptiveView.eqb (IntervalMap.denote m' p)
      (if existsb (fun iv => IntervalMap.within iv p) ivs then AdaptiveView.OfEvent e else IntervalMap.denote m p) = true.
Proof.
  intros He Hv. induction ivs as [|iv ivs IH]; intros m Hsep Hne Hm Hid Hval Hemp; cbn [foldM existsb].
  - exists m. split_and!; try done. intros p. apply AdaptiveView.eqb_equiv.
  - inversion_clear Hsep as [|? ? Hab Hsep']. pose proof (Hne iv ltac:(by left)) as Hiv.
    destruct (IntervalMap.map_add_ok m iv (AdaptiveView.Update e v) Hm Hiv) as (m1 & E1 & Hm1 & Hid1 & Hout & Hin); [by rewrite Hid| |].
    { intros p Hp. rewrite (Hemp iv p) by (by left || done). by eexists. }
    destruct (IntervalMap.map_add_values AdaptiveView.wf m m1 iv (AdaptiveView.Update e v)) as [_ Hval1]; [|by rewrite Hid|done|done|].
    { intros x y Hx Ey. destruct (AdaptiveView.plus_ok x e v Hx He Hv) as (y' & Ey' & Hy' & _).
      change (AdaptiveView.plus x (AdaptiveView.Update e v) = Ok y) in Ey. rewrite Ey' in Ey. by injection Ey as <-. }
    rewrite E1. cbn [mbind res_bind]. destruct (IH m1) as (m2 & -> & Hm2 & Hid2 & Hval2 & Hd); try done.
    { intros iv' Hiv'. apply Hne. by right. }
    { congruence. }
    { intros iv' p Hiv' Hp. apply view_eq_empty, (view_eq_trans _ _ _ (Hout p ltac:(specialize (Hab iv' Hiv'); lia))), view_eq_empty.
      apply (Hemp iv'); [by right|done]. }
    exists m2. split_and!; try done. intros p. apply (view_eq_trans _ _ _ (Hd p)).
    destruct (existsb _ ivs) eqn:Ex; [by rewrite orb_true_r; apply AdaptiveView.eqb_equiv|]. rewrite orb_false_r.
    destruct (IntervalMap.within iv p) eqn:Ew.
    + apply IntervalMap.within_spec in Ew. apply (Hin p _ Ew). by rewrite (Hemp iv p) by (by left || done).
    + apply Hout. intros Hp. by apply IntervalMap.within_spec in Hp; rewrite Hp in Ew.
Qed.
Lemma uninitParts_ok (m : AdaptiveViewMap) a : IntervalMap.canonical m -> IntervalMap.id_ m = AdaptiveView.Empty -> AAccess.wf a ->
  exists x, uninitParts m a = Ok x /\ IntervalSet.wf x /\
    forall p, IntervalSet.contains x p = true <-> covers a p = true /\ IntervalMap.denote m p = AdaptiveView.Empty.
Proof.
  intros Hm Hid Ha. destruct (makeInterval_wf a Ha) as (Es & Ee & Hlt & Hmax).
  destruct (IntervalMap.segments_ok SAddr.max m (makeInterval a) Hm) as (l & El & _ & S1 & S2); [by rewrite Es, Ee|rewrite Es; lia|].
  unfold uninitParts, segments. rewrite El. cbn [mbind res_bind].
  destruct (IntervalSet.add_ok IntervalSet.new (makeInterval a) IntervalSet.new_wf) as (x0 & -> & Hx0 & E0). cbn [mbind res_bind].
  destruct (IntervalSet.subtracts_ok (map (fun iv => IntervalMap.intersect iv.1 (makeInterval a)) l) x0 Hx0) as (x & E & Hx & Ex).
  exists x. split; [|split; [done|]].
  - rewrite <- E. clear. revert x0. induction l as [|[J y] l IH]; intros x0; [done|]. cbn [map foldM fst].
    by destruct (IntervalSet.subtract x0 _); cbn [mbind res_bind].
  - intros p. rewrite Ex, E0, within_access, andb_true_iff by done. assert (Hnew : IntervalSet.contains IntervalSet.new p = false) by done.
    rewrite Hnew. cbn [orb]. rewrite forallb_forall. split; intros [Hcov Hall]; (split; [done|]); apply covers_spec in Hcov.
    + apply view_eq_empty. destruct (AdaptiveView.eqb _ _) eqn:Eq; [done|]. exfalso.
      destruct (S2 p) as (J & y & Hj & HJ); [by rewrite Es, Ee|lia|by rewrite Hid|].
      specialize (Hall (IntervalMap.intersect J (makeInterval a))). rewrite negb_true_iff in Hall.
      assert (Hw : IntervalMap.within (IntervalMap.intersect J (makeInterval a)) p = true) by (apply IntervalMap.within_spec; cbn [IntervalMap.intersect IntervalMap.start IntervalMap.end_]; rewrite Es, Ee; lia).
      rewrite Hw in Hall. discriminate Hall. apply in_map_iff. exists (J, y). split; [done|]. by apply list_elem_of_In.
    + intros iv [[J y] [<- Hj]]%in_map_iff. apply negb_true_iff, not_true_is_false. intros Hw%IntervalMap.within_spec.
      apply list_elem_of_In in Hj. destruct (S1 J y Hj) as (Hne & _ & _ & _ & Hy). cbn [fst IntervalMap.intersect IntervalMap.start IntervalMap.end_] in Hw.
      rewrite <- (Hy p ltac:(lia)), Hall, Hid in Hne. discriminate Hne.
Qed.
Lemma markInitialized_ok (s : ExecutionState.t V) a e v tr o b : init_ok (initialized_ s) tr -> access_ok (a, e, v) ->
  (forall p, write_at p o = if covers a p then Some e else None) ->
  exists m, markInitialized s a e v = Ok (set_initialized_ m s) /\ init_ok m ((o, b) :: tr).
Proof.
  intros [Hm Hid Hval Hat] (Ha & He & Hv) Ho. cbn in Ha, He, Hv. destruct (makeInterval_wf a Ha) as (Es & Ee & Hlt & Hmax).
  assert (Hnext : forall p, first_write (last (hist (write_at p) ((o, b) :: tr))) =
    match last (hist (write_at p) tr) with Some e' => AdaptiveView.OfEvent e' | None => if covers a p then AdaptiveView.OfEvent e else AdaptiveView.Empty end).
  { intros p. rewrite hist_cons, Ho. destruct (covers a p); [rewrite last_cons|]; by destruct (last (hist (write_at p) tr)). }
  assert (Hemp : forall p, IntervalMap.denote (initialized_ s) p = AdaptiveView.Empty <-> last (hist (write_at p) tr) = None).
  { intros p. specialize (Hat p). rewrite <- view_eq_empty. destruct (last _) as [e'|]; cbn in Hat; split; try done.
    intros E. apply view_eq_sym in Hat. pose proof (view_eq_trans _ _ _ Hat E) as Hf. by apply view_eq_empty in Hf. }
  assert (Hfast : (exists J, IntervalMap.contains_interval SAddr.max (initialized_ s) (makeInterval a) = Ok true /\
      forall p, covers a p = true -> J <> AdaptiveView.Empty /\ IntervalMap.denote (initialized_ s) p = J) \/
    IntervalMap.contains_interval SAddr.max (initialized_ s) (makeInterval a) = Ok false).
  { unfold IntervalMap.contains_interval, IntervalMap.find_interval. rewrite Es, Ee.
    destruct (IntervalMap.veq (IntervalMap.denote (initialized_ s) (AAccess.addr a)) (IntervalMap.id_ (initialized_ s))) eqn:Eq.
    - right. by rewrite IntervalMap.find_none.
    - destruct (IntervalMap.find_entry_ok SAddr.max _ _ Hm Eq ltac:(lia)) as (J & Hne & En & HJ & Hconst & _).
      destruct (IntervalMap.find _ _) as [|x l] eqn:El; [done|]. rewrite En. cbn [mbind res_bind fst].
      destruct (Z.leb_spec (AAccess.addr a + AAccess.size a) (IntervalMap.end_ J)); [left|by right].
      exists (IntervalMap.denote (initialized_ s) (AAccess.addr a)). split; [done|]. intros p Hp%covers_spec. split; [|apply Hconst; lia].
      intros Hd. rewrite Hd, Hid in Eq. discriminate Eq. }
  unfold markInitialized. destruct Hfast as [(J & -> & HJ)| ->]; cbn [mbind res_bind].
  - exists (initialized_ s). split; [by destruct s|]. split; [done|done|done|]. intros p. rewrite Hnext. specialize (Hat p).
    destruct (last (hist (write_at p) tr)) eqn:El; [done|]. destruct (covers a p) eqn:Ec; [|done].
    destruct (HJ p Ec) as [HJ' E]. apply Hemp in El. congruence.
  - destruct (uninitParts_ok (initialized_ s) a Hm Hid Ha) as (x & -> & Hx & Hxp). cbn [mbind res_bind].
    destruct (fill_ok e v (IntervalSet.intervals SAddr.max (IntervalMap.map_ x)) He Hv (initialized_ s)) as (m & -> & Hm' & Hid' & Hval' & Hd); try done.
    { pose proof Hx as [[Hc _] _]. by apply (IntervalSet.intervals_separated _ _ _ _ Hc). }
    { intros iv Hin. by apply (IntervalSet.intervals_in _ _ _ 0 Hx Hin). }
    { intros iv p Hin Hp. apply Hxp. by apply (IntervalSet.intervals_in SAddr.max x iv p Hx Hin). }
    cbn [mbind res_bind]. exists m. split; [done|]. split; [done..|]. intros p. apply (view_eq_trans _ _ _ (Hd p)). rewrite Hnext. specialize (Hat p).
    destruct (existsb _ _) eqn:Ex.
    + apply existsb_exists in Ex as (iv & Hin & Hw). apply list_elem_of_In in Hin. apply IntervalMap.within_spec in Hw.
      destruct (IntervalSet.intervals_in SAddr.max x iv p Hx Hin) as [_ Hc]. apply Hxp in Hc as [Hc El]; [|done]. apply Hemp in El.
      rewrite El, Hc. apply AdaptiveView.eqb_equiv.
    + destruct (last (hist (write_at p) tr)) eqn:El; [done|]. destruct (covers a p) eqn:Ec; [|done]. exfalso. apply Hemp in El.
      apply covers_spec in Ec as Ec'. destruct (IntervalSet.intervals_cover SAddr.max x p Hx) as (iv & Hin & Hp); [by apply Hxp|lia|].
      apply not_true_iff_false in Ex. apply Ex, existsb_exists. exists iv. split; [by apply list_elem_of_In|by apply IntervalMap.within_spec].
Qed.

(** ** Allocations *)
Record allocs_ok (m : IntervalMap.t AllocInfo) (al : SAddrAllocator.state) (tr : trace) : Prop := {
  al_canonical : IntervalMap.canonical m;
  al_id : IntervalMap.id_ m = AllocInfo_default;
  al_at p : IntervalMap.denote m p = alloc_at tr p;
  al_some p : alloc_at tr p <> AllocInfo_default -> AAccess.wf (access (alloc_at tr p)) /\ covers (access (alloc_at tr p)) p = true /\
    (forall q, covers (access (alloc_at tr p)) q = true -> alloc_at tr q = alloc_at tr p) /\
    SAddrAllocator.owned al (AAccess.addr (access (alloc_at tr p)), AAccess.size (access (alloc_at tr p)));
  al_pools : SAddrAllocator.state_ok al
}.
Lemma allocs_new : allocs_ok (IntervalMap.IMap [] AllocInfo_default) SAddrAllocator.empty [].
Proof. split; [apply IntervalMap.new_canonical|done|done|done|apply SAddrAllocator.empty_ok]. Qed.
Definition is_alloc (o : op) : bool := match o with Alloc _ _ _ _ _ _ | Free _ _ _ => true | _ => false end.
Lemma alloc_at_skip o b tr p : is_alloc o = false -> alloc_at ((o, b) :: tr) p = alloc_at tr p.
Proof. by destruct o. Qed.
Lemma allocs_skip m al tr o b : is_alloc o = false -> allocs_ok m al tr -> allocs_ok m al ((o, b) :: tr).
Proof.
  intros Ho [Hc Hid Hat Hsome Hp]. assert (Hs := fun p => alloc_at_skip o b tr p Ho).
  split; try done; intros p; rewrite Hs; [done|]. intros Hne. destruct (Hsome p Hne) as (? & ? & Hq & ?). split_and!; try done. intros q. rewrite Hs. apply Hq.
Qed.
Lemma covers_default q : covers (access AllocInfo_default) q = false.
Proof. unfold covers. cbn. lia. Qed.
Lemma fresh_wf st a : SAddrAllocator.fresh st (AAccess.addr a, AAccess.size a) -> SAddrAllocator.state_ok st -> AAccess.wf a.
Proof.
  intros (k & t0 & i & Hx & _) _. destruct (SAddrAllocator.extent_fields _ _ _ _ Hx) as (q & Eq & Hq & _).
  destruct Hx as (? & ? & Ht & Hi & Hs & Hl & _). cbn in Eq, Hs, Hl.
  change SAddr.threadLimit with (2 ^ 28 - 1) in *. change SAddr.allocLimit with (2 ^ 32 - 1) in *. unfold AAccess.wf. lia.
Qed.
(** The request that [getFreshAddr] passes to the allocator. *)
Definition request_of (e : Event.t) (size al : Z) (k : SAddrAllocator.kind) (styp : StorageType) (spc : AddressSpace) : SAddrAllocator.request :=
  SAddrAllocator.Build_request k (Event.thread e) size al (isDurableType styp) (isInternalSpace spc).
Lemma getFreshAddr_alloc e size al sdur styp spc st r : getFreshAddr (Event.thread e) size al sdur styp spc st = Ok r ->
  exists k, SAddrAllocator.alloc st (request_of e size al k styp spc) = Ok r /\ k <> SAddrAllocator.Static.
Proof.
  unfold getFreshAddr. destruct (_ && _); [|done]. cbn [verify mbind res_bind].
  destruct sdur; intros E; try done; [by exists SAddrAllocator.Automatic|by exists SAddrAllocator.Heap].
Qed.
(** A request for dynamic memory: the thread and the size are in range, the alignment is a
    power of 2. *)
Definition alloc_legal (e : Event.t) (a : AAccess.t) (al : Z) (sdur : StorageDuration) : Prop :=
  0 <= Event.thread e <= SAddr.threadLimit /\ 0 < AAccess.size a < 2 ^ 64 /\ (exists k, 0 <= k < 64 /\ al = 2 ^ k) /\ (sdur = SD_Automatic \/ sdur = SD_Heap).
(** The request fits in what is left of the pool of the thread, and the access is at the
    first index of the pool that has the alignment. *)
Definition alloc_room (st : SAddrAllocator.state) (e : Event.t) (a : AAccess.t) (al : Z) (sdur : StorageDuration) (styp : StorageType) (spc : AddressSpace) : Prop :=
  let k := match sdur with SD_Automatic => SAddrAllocator.Automatic | _ => SAddrAllocator.Heap end in
  let i := SAddrAllocator.roundUp al (SAddrAllocator.poolOf st k (Event.thread e)) in
  i + AAccess.size a < SAddr.allocLimit /\
  AAccess.addr a = SAddr.layout (SAddrAllocator.storageOf k) (Event.thread e) i (isDurableType styp) (isInternalSpace spc).
Lemma getFreshAddr_room st e a al sdur styp spc : SAddrAllocator.state_ok st -> alloc_legal e a al sdur -> alloc_room st e a al sdur styp spc ->
  AAccess.addr a <> 0 /\ exists st', getFreshAddr (Event.thread e) (AAccess.size a) al sdur styp spc st = Ok (AAccess.addr a, st').
Proof.
  intros Hst (Ht & Hs & (k & Hk & Hal) & Hd) [Hfit Ha]. unfold getFreshAddr. pose proof (Z.pow_pos_nonneg 2 k).
  assert (Z.land al (al - 1) = 0) as -> by (rewrite Hal; apply land_pred_pow2; [lia|by exists k; split; [lia|]]).
  replace (0 <? al) with true by lia. cbn [andb Z.eqb verify mbind res_bind].
  assert (forall kd, let r := request_of e (AAccess.size a) al kd styp spc in let i := SAddrAllocator.roundUp al (SAddrAllocator.poolOf st kd (Event.thread e)) in
    kd <> SAddrAllocator.Static -> i + AAccess.size a < SAddr.allocLimit -> AAccess.addr a = SAddr.layout (SAddrAllocator.storageOf kd) (Event.thread e) i (isDurableType styp) (isInternalSpace spc) ->
    AAccess.addr a <> 0 /\ exists st', SAddrAllocator.alloc st r = Ok (AAccess.addr a, st')) as Hroom.
  { intros kd r i Hkd Hi Hai. rewrite SAddrAllocator.alloc_closed; [|done|split_and!; [apply Ht|apply Ht|apply Hs|apply Hs|right; by exists k]].
    cbn [r request_of SAddrAllocator.rq_kind SAddrAllocator.rq_thread SAddrAllocator.rq_size SAddrAllocator.rq_align SAddrAllocator.rq_durable SAddrAllocator.rq_internal].
    rewrite Z.max_l by lia. fold i. rewrite decide_True by done. split; [|by rewrite Hai; eexists].
    destruct (Hst kd (Event.thread e)) as [Hw Hw1]. specialize (Hw1 ltac:(by destruct kd)). destruct (SAddrAllocator.roundUp_spec al (SAddrAllocator.poolOf st kd (Event.thread e)) ltac:(lia)) as [Hup _].
    fold i in Hup. rewrite Hai. apply SAddrAllocator.layout_nonnull; [done|lia|intros _; lia]. }
  destruct Hd as [->| ->]; [by apply (Hroom SAddrAllocator.Automatic)|by apply (Hroom SAddrAllocator.Heap)].
Qed.
Lemma onAlloc_ok (s : ExecutionState.t V) tr e a al sdur styp spc st b : allocs_ok (allocInfoMap_ s) (alloctor_ s) tr -> alloc_legal e a al sdur -> AAccess.addr a <> 0 ->
  getFreshAddr (Event.thread e) (AAccess.size a) al sdur styp spc (alloctor_ s) = Ok (AAccess.addr a, st) ->
  exists m, onAlloc s e (AAccess.size a) al sdur styp spc = Ok (AAccess.addr a, set_allocInfoMap_ m (set_alloctor_ st s)) /\
    allocs_ok m st ((Alloc e a al sdur styp spc, b) :: tr) /\ forall p, covers a p = true -> alloc_at tr p = AllocInfo_default.
Proof.
  intros [Hc Hid Hat Hsome Hp] (Ht & Hsz & (al2 & Hal) & _) Hnz Hf. unfold onAlloc. rewrite Hf. cbn [mbind res_bind].
  destruct (getFreshAddr_alloc _ _ _ _ _ _ _ _ Hf) as (k & Ek & _).
  destruct (SAddrAllocator.alloc_step (alloctor_ s) (request_of e (AAccess.size a) al k styp spc) Hp) as (a' & st' & E & Hst & Hle & Hcase);
    [split_and!; [apply Ht|apply Ht|apply Hsz|apply Hsz|right; by exists al2]|].
  rewrite Ek in E. injection E as <- <-. destruct Hcase as [?|(_ & Hfresh & Hown & _)]; [done|]. cbn in Hfresh, Hown.
  pose proof (fresh_wf _ a Hfresh Hp) as Ha. destruct (makeInterval_wf a Ha) as (Es & Ee & Hlt & Hmax).
  assert (Hnew : forall p, covers a p = true -> alloc_at tr p = AllocInfo_default).
  { intros p Hcov. destruct (decide (alloc_at tr p = AllocInfo_default)) as [?|Hne]; [done|]. exfalso.
    destruct (Hsome p Hne) as (_ & Hcx & _ & Hox). pose proof (SAddrAllocator.owned_fresh_disjoint _ _ _ Hox Hfresh) as [Hd|Hd]; cbn in Hd;
      apply covers_spec in Hcov, Hcx; lia. }
  cbn [set_alloctor_ allocInfoMap_]. rewrite lookup_none; [|done|rewrite Hat, Hid, Hnew; [by apply alloc_eq|apply covers_spec; lia]].
  cbn [negb verify mbind res_bind]. assert (Ea : AAccess.AAccess (AAccess.addr a) (AAccess.size a) = a) by (by destruct a). rewrite Ea.
  destruct (IntervalMap.map_add_replace (allocInfoMap_ s) (makeInterval a) (AllocInfo_new e a (wrap 32 al)) Hc) as (m & -> & Hm & Hmid & Hd);
    [by rewrite Es, Ee| |done|].
  { rewrite Hid. apply not_true_iff_false. rewrite alloc_eq. intros [= _ E' _]. subst a. cbn in Hsz. lia. }
  cbn [mbind res_bind]. exists m. split; [done|]. split; [|done].
  assert (Hat' : forall p, alloc_at ((Alloc e a al sdur styp spc, b) :: tr) p = if covers a p then AllocInfo_new e a (wrap 32 al) else alloc_at tr p) by done.
  split; [done|congruence| | |done].
  - intros p. specialize (Hd p). rewrite within_access, alloc_eq in Hd by done. rewrite Hd, Hat'. by destruct (covers a p).
  - intros p. rewrite Hat'. destruct (covers a p) eqn:Ep.
    + intros _. cbn [access AllocInfo_new]. split_and!; try done. intros q Hq. by rewrite Hat', Hq.
    + intros Hne. destruct (Hsome p Hne) as (Hw & Hcov & Hq & Ho). split_and!; try done; [|by apply (SAddrAllocator.owned_mono (alloctor_ s))].
      intros q Hcq. rewrite Hat', (Hq q Hcq). destruct (covers a q) eqn:Eq; [|done]. exfalso. apply Hne. by rewrite <- (Hq q Hcq), Hnew.
Qed.

(** A free changes the entry of the whole allocation. *)
Lemma allocated_entry m al tr q : allocs_ok m al tr -> alloc_at tr q <> AllocInfo_default ->
  exists I, lookup_entry m q = Ok (I, alloc_at tr q) /\ found (IntervalMap.find m q) = true /\ at_entry (IntervalMap.find m q) = Ok (I, alloc_at tr q) /\
    IntervalMap.start I = AAccess.addr (access (alloc_at tr q)) /\
    IntervalMap.end_ I = AAccess.addr (access (alloc_at tr q)) + AAccess.size (access (alloc_at tr q)).
Proof.
  intros [Hc Hid Hat Hsome Hp] Hne. destruct (Hsome q Hne) as (Hw & Hcov & Hall & _). apply covers_spec in Hcov as Hcov'.
  destruct (makeInterval_wf _ Hw) as (_ & _ & _ & Hmax).
  destruct (lookup_entry_ok m q Hc) as (J & Hf & He & Hl & HJ & Hconst & Hmaxi); [|lia|].
  { rewrite Hat, Hid. apply not_true_iff_false. by rewrite alloc_eq. }
  rewrite Hat in He, Hl. exists J. split; [done|]. split; [done|]. split; [done|].
  destruct (Hmaxi _ _ Hcov' Hmax) as [M1 M2].
  { intros p Hpp. apply alloc_eq. rewrite !Hat. by apply Hall, covers_spec. }
  assert (Hin : forall p, IntervalMap.start J <= p < IntervalMap.end_ J -> covers (access (alloc_at tr q)) p = true).
  { intros p Hpp. specialize (Hconst p Hpp). rewrite !Hat in Hconst. rewrite <- Hconst. apply Hsome. by rewrite Hconst. }
  pose proof (Hin (IntervalMap.start J) ltac:(lia)) as B1%covers_spec. pose proof (Hin (IntervalMap.end_ J - 1) ltac:(lia)) as B2%covers_spec. lia.
Qed.
Lemma alloc_at_free e q retire b tr p : alloc_at ((Free e q retire, b) :: tr) p =
  if covers (access (alloc_at tr p)) q then MkAllocInfo (pos (alloc_at tr p)) (access (alloc_at tr p)) (alignment (alloc_at tr p)) (Some e) retire else alloc_at tr p.
Proof. done. Qed.
Lemma same_alloc m al tr p q : allocs_ok m al tr -> alloc_at tr q <> AllocInfo_default ->
  covers (access (alloc_at tr p)) q = covers (access (alloc_at tr q)) p.
Proof.
  intros [Hc Hid Hat Hsome Hp] Hne. destruct (Hsome q Hne) as (_ & Hq & Hallq & _).
  destruct (covers (access (alloc_at tr q)) p) eqn:E; [by rewrite (Hallq p E)|].
  apply not_true_iff_false. intros Hcp. destruct (decide (alloc_at tr p = AllocInfo_default)) as [Ed|Hnp]; [by rewrite Ed, covers_default in Hcp|].
  destruct (Hsome p Hnp) as (_ & Hp' & Hallp & _). by rewrite (Hallp q Hcp), Hp' in E.
Qed.
Lemma onFree_alloc m al tr e q retire b : allocs_ok m al tr -> alloc_at tr q <> AllocInfo_default ->
  exists I x m', lookup_entry m q = Ok (I, x) /\ x = alloc_at tr q /\
    IntervalMap.add m I (MkAllocInfo (pos x) (access x) (alignment x) (Some e) retire) = Ok m' /\ allocs_ok m' al ((Free e q retire, b) :: tr).
Proof.
  intros Hok Hne. destruct (allocated_entry _ _ _ _ Hok Hne) as (I & El & _ & _ & Es & Ee). pose proof Hok as [Hc Hid Hat Hsome Hp].
  destruct (Hsome q Hne) as (Hw & Hcov & _ & _). destruct (makeInterval_wf _ Hw) as (_ & _ & Hlt & _).
  set (x := alloc_at tr q) in *. set (y := MkAllocInfo (pos x) (access x) (alignment x) (Some e) retire).
  destruct (IntervalMap.map_add_replace m I y Hc) as (m' & E & Hm' & Hmid & Hd); [by rewrite Es, Ee|rewrite Hid; by apply not_true_iff_false; rewrite alloc_eq|done|].
  exists I, x, m'. split; [done|]. split; [done|]. split; [done|].
  assert (Hnew : forall p, alloc_at ((Free e q retire, b) :: tr) p = if covers (access x) p then y else alloc_at tr p).
  { intros p. rewrite alloc_at_free, (same_alloc _ _ _ _ _ Hok Hne). fold x. destruct (covers (access x) p) eqn:Ep; [|done].
    destruct (Hsome q Hne) as (_ & _ & Hall & _). by rewrite (Hall p Ep). }
  split; [done|congruence| | |done].
  - intros p. specialize (Hd p). rewrite alloc_eq in Hd. rewrite Hd, Hnew. unfold IntervalMap.within, covers. rewrite Es, Ee, Hat. done.
  - intros p. rewrite Hnew. destruct (covers (access x) p) eqn:Ep.
    + intros _. destruct (Hsome q Hne) as (? & ? & Hall & ?). cbn [y access]. split_and!; try done. intros p' Hp'. rewrite Hnew. cbn [y access] in Hp'. by rewrite Hp'.
    + intros Hnp. destruct (Hsome p Hnp) as (? & Hpp & Hall & ?). split_and!; try done. intros p' Hp'. rewrite Hnew, (Hall p' Hp').
      destruct (covers (access x) p') eqn:Ep'; [|done]. exfalso. destruct (Hsome q Hne) as (_ & _ & Hallq & _).
      assert (Eq : alloc_at tr p = x) by (by rewrite <- (Hall p' Hp'), (Hallq p' Ep')). rewrite Eq in Hpp. congruence.
Qed.
(** No operation forgets an allocation. *)
Lemma alloc_stays tr o b q : alloc_at tr q <> AllocInfo_default ->
  match o with Alloc _ a _ _ _ _ => forall p, covers a p = true -> alloc_at tr p = AllocInfo_default | _ => True end ->
  alloc_at ((o, b) :: tr) q <> AllocInfo_default /\ access (alloc_at ((o, b) :: tr) q) = access (alloc_at tr q).
Proof.
  intros Hne Ho. destruct o; try done.
  - cbn. destruct (covers a q) eqn:E; [by rewrite (Ho q E) in Hne|done].
  - rewrite alloc_at_free. by destruct (covers _ addr).
Qed.

(** ** Hazard pointers *)
Definition protects (tr : trace) (p : Z) (kv : SAddr.t * SAddr.t) : Prop := kv.2 <> 0 /\ covers (access (alloc_at tr kv.2)) p = true.
#[global] Instance protects_dec tr p kv : Decision (protects tr p kv).
Proof. unfold protects. apply _. Defined.
(** How many hazard pointers protect an address. *)
Definition guards (hm : gmap SAddr.t SAddr.t) (tr : trace) (p : Z) : Z := Z.of_nat (size (filter (protects tr p) hm)).
Definition base (tr : trace) (q : SAddr.t) : Prop := alloc_at tr q <> AllocInfo_default /\ AAccess.addr (access (alloc_at tr q)) = q.
Record hp_ok (hm : gmap SAddr.t SAddr.t) (m : IntervalMap.t count) (tr : trace) : Prop := {
  hp_canonical : IntervalMap.canonical m;
  hp_id : IntervalMap.id_ m = 0;
  hp_base h q : hm !! h = Some q -> q <> 0 -> base tr q;
  hp_at p : IntervalMap.denote m p = guards hm tr p
}.
Lemma guards_delete hm tr p h q : hm !! h = Some q -> guards hm tr p = guards (delete h hm) tr p + (if decide (protects tr p (h, q)) then 1 else 0).
Proof.
  intros Hh. unfold guards. rewrite <- (insert_delete_id hm h q Hh) at 1. case_decide as Hd.
  - rewrite map_filter_insert_True by done. rewrite map_size_insert_None; [lia|]. rewrite map_lookup_filter, lookup_delete_eq. done.
  - rewrite map_filter_insert_False, delete_delete_eq by done. lia.
Qed.
Lemma guards_insert hm tr p h q : hm !! h = None -> guards (<[h:=q]> hm) tr p = guards hm tr p + (if decide (protects tr p (h, q)) then 1 else 0).
Proof.
  intros Hh. rewrite (guards_delete (<[h:=q]> hm) tr p h q) by apply lookup_insert_eq. by rewrite delete_insert_id.
Qed.
Lemma protects_if tr p h q : (if decide (protects tr p (h, q)) then 1 else 0) =
  if q =? 0 then 0 else if covers (access (alloc_at tr q)) p then 1 else 0.
Proof.
  destruct (decide (protects tr p (h, q))) as [[Hq Hc]|Hn]; cbn in *; [by rewrite (proj2 (Z.eqb_neq _ _) Hq), Hc|].
  destruct (Z.eqb_spec q 0) as [|Hq]; [done|]. destruct (covers _ p) eqn:E; [by destruct Hn|done].
Qed.
Lemma guards_bound hm tr p : 0 <= guards hm tr p <= Z.of_nat (size hm).
Proof.
  unfold guards. pose proof (map_filter_subseteq (protects tr p) hm) as Hs. apply map_subseteq_size in Hs. lia.
Qed.
Lemma hp_ext hm m tr tr' : (forall q, alloc_at tr q <> AllocInfo_default ->
    alloc_at tr' q <> AllocInfo_default /\ access (alloc_at tr' q) = access (alloc_at tr q)) -> hp_ok hm m tr -> hp_ok hm m tr'.
Proof.
  intros Hext [Hc Hid Hb Hat].
  assert (Hb' : forall h q, hm !! h = Some q -> q <> 0 -> base tr' q /\ access (alloc_at tr' q) = access (alloc_at tr q)).
  { intros h q Hh Hq. destruct (Hb h q Hh Hq) as [Hne Ha]. destruct (Hext q Hne) as [H1 H2]. unfold base. by rewrite H2. }
  split; [done|done|intros h q Hh Hq; by apply (Hb' h q)|]. intros p. rewrite Hat. unfold guards. do 2 f_equal. apply map_filter_ext.
  intros h q Hh. unfold protects. cbn. destruct (decide (q = 0)) as [->|Hq]; [tauto|]. by destruct (Hb' h q Hh Hq) as [_ ->].
Qed.
Lemma getAllocAccess_ok (s : ExecutionState.t V) tr q : allocs_ok (allocInfoMap_ s) (alloctor_ s) tr -> alloc_at tr q <> AllocInfo_default ->
  getAllocAccess s q = Ok (access (alloc_at tr q)).
Proof. intros Hok Hne. destruct (allocated_entry _ _ _ _ Hok Hne) as (I & El & _). unfold getAllocAccess. by rewrite El. Qed.
Lemma updateHpCount_ok (s : ExecutionState.t V) tr h q n : allocs_ok (allocInfoMap_ s) (alloctor_ s) tr -> hpProtectMap_ s !! h = Some q -> base tr q ->
  IntervalMap.canonical (hpProtectCount_ s) -> IntervalMap.id_ (hpProtectCount_ s) = 0 -> n <> 0 ->
  (forall p, int_ok (IntervalMap.denote (hpProtectCount_ s) p + n) = true) ->
  exists m, updateHpCount s h n = Ok (set_hpProtectCount_ m s) /\ IntervalMap.canonical m /\ IntervalMap.id_ m = 0 /\
    forall p, IntervalMap.denote m p = IntervalMap.denote (hpProtectCount_ s) p + (if covers (access (alloc_at tr q)) p then n else 0).
Proof.
  intros Hok Hh [Hne Hbase] Hc Hid Hn Hint. unfold updateHpCount, at_key. rewrite Hh. cbn [mbind res_bind].
  rewrite (getAllocAccess_ok s tr q Hok Hne). cbn [mbind res_bind]. rewrite (proj2 (Z.eqb_eq _ _) Hbase). cbn [verify mbind res_bind].
  destruct (al_some _ _ _ Hok q Hne) as (Hw & _). destruct (makeInterval_wf _ Hw) as (Es & Ee & Hlt & _).
  destruct (IntervalMap.map_add_ok (hpProtectCount_ s) (makeInterval (access (alloc_at tr q))) n Hc) as (m & -> & Hm & Hmid & Hout & Hin);
    [by rewrite Es, Ee|rewrite Hid; by apply Z.eqb_neq|intros p _; cbn; rewrite Hint; by eexists|].
  cbn [mbind res_bind]. exists m. split; [done|]. split; [done|]. split; [congruence|]. intros p. rewrite Es, Ee in Hout, Hin.
  destruct (covers _ p) eqn:Ep.
  - apply covers_spec in Ep. apply count_eq, (Hin p). { done. } cbn. by rewrite Hint.
  - rewrite Z.add_0_r. apply count_eq, Hout. by rewrite <- covers_spec, Ep.
Qed.
(** The pointer stops protecting what it protected. *)
Lemma release_hp_ok (s : ExecutionState.t V) tr h : allocs_ok (allocInfoMap_ s) (alloctor_ s) tr -> hp_ok (hpProtectMap_ s) (hpProtectCount_ s) tr ->
  Z.of_nat (size (hpProtectMap_ s)) < 2 ^ 31 ->
  exists m, (if hp_protects s h then updateHpCount s h (-1) else Ok s) = Ok (set_hpProtectCount_ m s) /\ hp_ok (delete h (hpProtectMap_ s)) m tr.
Proof.
  intros Hok [Hc Hid Hb Hat] Hsz. unfold hp_protects.
  assert (Hkeep : forall m, IntervalMap.canonical m -> IntervalMap.id_ m = 0 ->
    (forall p, IntervalMap.denote m p = guards (delete h (hpProtectMap_ s)) tr p) -> hp_ok (delete h (hpProtectMap_ s)) m tr).
  { intros m Hm Hmid Hd. split; [done|done| |done]. intros h' q [_ Hh]%lookup_delete_Some. by apply (Hb h'). }
  destruct (hpProtectMap_ s !! h) as [q|] eqn:Eh.
  - destruct (Z.eqb_spec q 0) as [->|Hq]; cbn [negb].
    + exists (hpProtectCount_ s). split; [by destruct s|]. apply Hkeep; [done..|]. intros p. rewrite Hat, (guards_delete _ _ _ _ _ Eh), protects_if. cbn. lia.
    + destruct (updateHpCount_ok s tr h q (-1) Hok Eh (Hb h q Eh Hq) Hc Hid) as (m & -> & Hm & Hmid & Hd); [done| |].
      { intros p. rewrite Hat. pose proof (guards_bound (hpProtectMap_ s) tr p). unfold int_ok. lia. }
      exists m. split; [done|]. apply Hkeep; [done..|]. intros p. rewrite Hd, Hat, (guards_delete _ _ _ _ _ Eh), protects_if.
      rewrite (proj2 (Z.eqb_neq _ _) Hq). destruct (covers _ p); lia.
  - exists (hpProtectCount_ s). split; [by destruct s|]. apply Hkeep; [done..|]. intros p. by rewrite delete_id.
Qed.
Lemma set_hp_zero hm m tr h : hp_ok (delete h hm) m tr -> hp_ok (<[h := 0]> hm) m tr.
Proof.
  intros [Hc Hid Hb Hat]. split; [done|done| |].
  - intros h' q Hh Hq. destruct (decide (h = h')) as [->|Hne]; [rewrite lookup_insert_eq in Hh; congruence|].
    apply (Hb h'); [|done]. by rewrite lookup_delete_ne, <- Hh, lookup_insert_ne.
  - intros p. rewrite Hat, <- (insert_delete_eq hm), guards_insert, protects_if by apply lookup_delete_eq. cbn. lia.
Qed.
Lemma onProtect_ok (s : ExecutionState.t V) tr h q : allocs_ok (allocInfoMap_ s) (alloctor_ s) tr -> hp_ok (hpProtectMap_ s) (hpProtectCount_ s) tr ->
  q = 0 \/ base tr q -> Z.of_nat (size (hpProtectMap_ s)) < 2 ^ 31 - 1 ->
  exists m, onProtect s h q = Ok (set_hpProtectCount_ m (set_hpProtectMap_ (<[h := q]> (hpProtectMap_ s)) s)) /\ hp_ok (<[h := q]> (hpProtectMap_ s)) m tr.
Proof.
  intros Hok Hhp Hq Hsz. destruct (release_hp_ok s tr h Hok Hhp ltac:(lia)) as (m & E & Hm). unfold onProtect. rewrite E. cbn [mbind res_bind].
  destruct (Z.eqb_spec q 0) as [->|Hnz]; cbn [negb]; [exists m; split; [done|by apply set_hp_zero]|].
  destruct Hq as [?|Hbase]; [done|]. set (s1 := set_hpProtectMap_ _ _).
  destruct (updateHpCount_ok s1 tr h q 1) as (m' & -> & Hm' & Hmid & Hd); try done; [apply lookup_insert_eq|apply Hm|apply Hm| |].
  { intros p. cbn. rewrite (hp_at _ _ _ Hm). pose proof (guards_bound (delete h (hpProtectMap_ s)) tr p).
    pose proof (map_subseteq_size _ _ (delete_subseteq (hpProtectMap_ s) h)). unfold int_ok. lia. }
  exists m'. split; [done|]. split; [done|done| |].
  - intros h' q' Hh Hq'. destruct (decide (h = h')) as [->|Hne]; [rewrite lookup_insert_eq in Hh; by injection Hh as <-|].
    apply (hp_base _ _ _ Hm h'); [|done]. by rewrite lookup_delete_ne, <- Hh, lookup_insert_ne.
  - intros p. rewrite Hd. cbn. rewrite (hp_at _ _ _ Hm), <- (insert_delete_eq (hpProtectMap_ s) h q), guards_insert, protects_if by apply lookup_delete_eq.
    by rewrite (proj2 (Z.eqb_neq _ _) Hnz).
Qed.
(** The loop of [isProtected] over the segments that are left, from the first address
    that is not known to be protected. *)
Lemma covered_ok (f : Z -> Z) (E : Z) l : forall u, IntervalMap.separated l.*1 ->
  (forall J n, (J, n) ∈ l -> n <> 0 /\ IntervalMap.start J < IntervalMap.end_ J /\ IntervalMap.start J < E /\ u < IntervalMap.end_ J /\
    forall p, IntervalMap.start J <= p < IntervalMap.end_ J -> f p = n) ->
  (forall p, u <= p < E -> f p <> 0 -> exists J n, (J, n) ∈ l /\ IntervalMap.start J <= p < IntervalMap.end_ J) ->
  (u < E \/ l = []) ->
  (match covered l u with Some u' => E <=? u' | None => false end) = true <-> forall p, u <= p < E -> 0 < f p.
Proof.
  induction l as [|[J n] l IH]; intros u Hsep Hl Hcov Hu; cbn [covered].
  - rewrite Z.leb_le. split; [lia|]. intros Hall. destruct (Z.le_gt_cases E u) as [?|Hlt]; [done|]. exfalso.
    destruct (Hcov u ltac:(lia)) as (J & n & Hin & _); [specialize (Hall u ltac:(lia)); lia|by apply not_elem_of_nil in Hin].
  - destruct Hu as [Hu|?]; [|done]. inversion_clear Hsep as [|? ? Hab Hsep'].
    destruct (Hl J n ltac:(by left)) as (Hn & Hj & HjE & Huj & Hf).
    assert (Hab' : forall J' n', (J', n') ∈ l -> IntervalMap.end_ J <= IntervalMap.start J').
    { intros J' n' Hin. apply (Hab J'). apply list_elem_of_fmap. by exists (J', n'). }
    assert (Hgap : u < IntervalMap.start J -> ~ forall p, u <= p < E -> 0 < f p).
    { intros Hg Hall. destruct (Hcov u ltac:(lia)) as (J' & n' & [[= -> ->]|Hin]%elem_of_cons & HJ'); [specialize (Hall u ltac:(lia)); lia|lia|].
      specialize (Hab' _ _ Hin). lia. }
    destruct (Z.ltb_spec 0 n) as [Hpos|Hneg]; cbn [andb].
    + destruct (Z.leb_spec (IntervalMap.start J) u); cbn [andb].
      * rewrite (proj2 (Z.ltb_lt u (IntervalMap.end_ J))), (proj2 (Z.ltb_ge (IntervalMap.end_ J) (IntervalMap.start J))) by lia.
        rewrite (IH (IntervalMap.end_ J)); [|done| | |].
        -- split; intros Hall p Hp; [|apply Hall; lia]. destruct (Z.lt_ge_cases p (IntervalMap.end_ J)); [rewrite Hf by lia; lia|apply Hall; lia].
        -- intros J' n' Hin. destruct (Hl J' n' ltac:(by right)) as (? & ? & ? & ? & ?). specialize (Hab' _ _ Hin). split_and!; try done. lia.
        -- intros p Hp Hne. destruct (Hcov p ltac:(lia) Hne) as (J' & n' & [[= -> ->]|Hin]%elem_of_cons & HJ'); [lia|by exists J', n'].
        -- destruct (Z.lt_ge_cases (IntervalMap.end_ J) E) as [?|Hge]; [by left|right]. destruct l as [|[J' n'] l]; [done|].
           destruct (Hl J' n' ltac:(right; by left)) as (_ & _ & ? & _). specialize (Hab' J' n' ltac:(by left)). lia.
      * rewrite (proj2 (Z.ltb_lt u (IntervalMap.start J))) by lia. split; [done|]. intros Hall. by apply Hgap in Hall.
    + destruct (Z.ltb_spec u (IntervalMap.start J)); [split; [done|intros Hall; by apply Hgap in Hall]|].
      split; [|intros Hall; specialize (Hall u ltac:(lia)); rewrite Hf in Hall by lia; lia]. intros Hc. exfalso. revert Hc.
      destruct l as [|[J' n'] l]; cbn [covered]; [rewrite Z.leb_le; lia|]. specialize (Hab' J' n' ltac:(by left)).
      rewrite (proj2 (Z.leb_gt (IntervalMap.start J') u)), andb_false_r by lia. cbn [andb]. by rewrite (proj2 (Z.ltb_lt u (IntervalMap.start J'))) by lia.
Qed.
Lemma isProtected_ok (s : ExecutionState.t V) a : IntervalMap.canonical (hpProtectCount_ s) -> IntervalMap.id_ (hpProtectCount_ s) = 0 -> AAccess.wf a ->
  exists b, isProtected s a = Ok b /\ (b = true <-> forall p, covers a p = true -> 0 < IntervalMap.denote (hpProtectCount_ s) p).
Proof.
  intros Hc Hid Ha. destruct (makeInterval_wf a Ha) as (Es & Ee & Hlt & Hmax). unfold isProtected, segments.
  destruct (IntervalMap.segments_ok SAddr.max (hpProtectCount_ s) (makeInterval a) Hc) as (l & -> & Hsep & S1 & S2); [by rewrite Es, Ee|rewrite Es; lia|].
  rewrite Es, Ee, Hid in *. cbn [mbind res_bind]. eexists. split; [done|]. rewrite AAccess.addSize_wf by done.
  rewrite (covered_ok (IntervalMap.denote (hpProtectCount_ s)) (AAccess.addr a + AAccess.size a) l (AAccess.addr a)); [|done| | |by left].
  - setoid_rewrite covers_spec. done.
  - intros J n Hin. destruct (S1 J n Hin) as (Hn & ? & ? & ? & ?). split; [|done]. by apply Z.eqb_neq.
  - intros p Hp Hne. apply S2; [done|lia|by apply Z.eqb_neq].
Qed.

(** ** The whole state *)
Definition events_of (tr : trace) : list Event.t := map (fun x => x.1.2) (hist access_of tr).
Record inv (s : ExecutionState.t V) (tr : trace) : Prop := {
  i_accesses : Forall access_ok (hist access_of tr);
  i_nreads : view_map_ok (lastNAReadView_ s) (hist na_read tr);
  i_areads : view_map_ok (lastAReadView_ s) (hist at_read tr);
  i_awrites : view_map_ok (lastAWriteView_ s) (hist at_write tr);
  i_unprotected : view_map_ok (lastUnprotectedAccess_ s) (unprotected tr);
  i_nawrites : last_ok (lastNAWriteEvent_ s) na_write_at tr;
  i_types : last_ok (lastIsNA_ s) write_type_at tr;
  i_values : last_ok (lastNAWriteVal_ s) byte_at tr;
  i_init : init_ok (initialized_ s) tr;
  i_allocs : allocs_ok (allocInfoMap_ s) (alloctor_ s) tr;
  i_hp : hp_ok (hpProtectMap_ s) (hpProtectCount_ s) tr;
  i_hpsize : Z.of_nat (size (hpProtectMap_ s)) < 2 ^ 31;
  i_last : v_wf (lastMemAccess_ s) /\ forall t, 0 <= t -> v_clock (lastMemAccess_ s) t = AdaptiveView.many (events_of tr) t;
  i_previous t : previousNA_ s !! t = head (hist (previous_na_at t) tr);
  i_loop t : currentLoop_ s !! t = head (hist (loop_at t) tr);
  i_looped l x : loopAccess_ s !! l = Some x -> IntervalSet.wf x;
  i_release t : default 0 (lastReleaseIdx_ s !! t) = default 0 (head (hist (release_at t) tr))
}.
(** When the program may do an operation. *)
Definition dynamic_allocated (tr : trace) (a : AAccess.t) : Prop := SAddr.isDynamic (AAccess.addr a) = true -> alloc_at tr (AAccess.addr a) <> AllocInfo_default.
Definition permitted (s : ExecutionState.t V) (tr : trace) (o : op) : Prop :=
  match o with
  | NALoad e a v | ATLoad e a v => access_ok (a, e, v)
  | NAStore e a v val => access_ok (a, e, v) /\ dynamic_allocated tr a /\ (is_Some val -> AAccess.size a <= 8)
  | ATStore e a v _ _ => access_ok (a, e, v) /\ dynamic_allocated tr a
  | Fence _ _ | LoopBegin _ => True
  | SpinStart e => exists l, head (hist (loop_at (Event.thread e)) tr) = Some l /\ Event.isInitializer l = false
  | Alloc e a al sdur styp spc => alloc_legal e a al sdur /\ alloc_room (alloctor_ s) e a al sdur styp spc
  | Free _ q _ => alloc_at tr q <> AllocInfo_default
  | Protect _ q => (q = 0 \/ base tr q) /\ Z.of_nat (size (hpProtectMap_ s)) < 2 ^ 31 - 1
  end.
(** The trace records whether the access was protected. *)
Definition recorded (s : ExecutionState.t V) (o : op) (b : bool) : Prop := forall x, access_of o = Some x -> isProtected s x.1.1 = Ok b.
Definition legal (s : ExecutionState.t V) (tr : trace) (o : op) (b : bool) : Prop := permitted s tr o /\ recorded s o b.
Definition perform (s : ExecutionState.t V) (o : op) : res (ExecutionState.t V) :=
  match o with
  | NALoad e a v => onNALoad s e a v
  | ATLoad e a v => onATLoad s e a v
  | NAStore e a v val => onNAStore s e a v val
  | ATStore e a v eff rel => onATStore s e a v eff rel
  | Fence e rel => Ok (onFence s e rel)
  | LoopBegin e => Ok (onLoopBegin s e)
  | SpinStart e => '(_, s) ← onSpinStart s e; Ok s
  | Alloc e a al sdur styp spc => '(_, s) ← onAlloc s e (AAccess.size a) al sdur styp spc; Ok s
  | Free e q retire => onFree s e q retire
  | Protect h q => onProtect s h q
  end.
Inductive run : ExecutionState.t V -> trace -> Prop :=
  | run_new : run new []
  | run_step s tr o b s' : run s tr -> legal s tr o b -> perform s o = Ok s' -> run s' ((o, b) :: tr)
  | run_clear s tr : run s tr -> run (clear s) [].

Lemma recordLast_ok (s : ExecutionState.t V) tr o b a e v : access_ok (a, e, v) -> access_of o = Some (a, e, v) -> isProtected s a = Ok b ->
  view_map_ok (lastUnprotectedAccess_ s) (unprotected tr) ->
  (v_wf (lastMemAccess_ s) /\ forall t, 0 <= t -> v_clock (lastMemAccess_ s) t = AdaptiveView.many (events_of tr) t) ->
  exists w m, recordLast s a e v = Ok (set_lastUnprotectedAccess_ m (set_lastMemAccess_ w s)) /\ view_map_ok m (unprotected ((o, b) :: tr)) /\
    (v_wf w /\ forall t, 0 <= t -> v_clock w t = AdaptiveView.many (events_of ((o, b) :: tr)) t).
Proof.
  intros Ha Ho Hp Hun [Hw Hcl]. pose proof Ha as (_ & He & _). cbn in He.
  destruct (AdaptiveView.updateIdx_ok (lastMemAccess_ s) e Hw He) as (w & Ew & Hww & Hwc). unfold recordLast. rewrite Ew. cbn [mbind res_bind].
  assert (Hp' : isProtected (set_lastMemAccess_ w s) a = Ok b) by exact Hp. rewrite Hp'. cbn [mbind res_bind].
  assert (Hlast : v_wf w /\ forall t, 0 <= t -> v_clock w t = AdaptiveView.many (events_of ((o, b) :: tr)) t).
  { split; [done|]. intros t Ht. rewrite Hwc, Hcl by done. unfold events_of. rewrite hist_cons, Ho. cbn. lia. }
  exists w. destruct b; cbn [negb].
  - exists (lastUnprotectedAccess_ s). split; [by destruct s|]. by split.
  - destruct (record_ok _ _ a e v Hun Ha) as (m & E & Hm). cbn [lastUnprotectedAccess_ set_lastMemAccess_]. rewrite E. cbn [mbind res_bind].
    exists m. split; [done|]. split; [|done]. unfold unprotected. cbn [omap list_omap fst snd]. rewrite Ho. exact Hm.
Qed.
Lemma recordLoopAccess_ok (s : ExecutionState.t V) e a : (forall l x, loopAccess_ s !! l = Some x -> IntervalSet.wf x) ->
  exists la, recordLoopAccess s e a = Ok (set_loopAccess_ la s) /\ forall l x, la !! l = Some x -> IntervalSet.wf x.
Proof.
  intros Hla. unfold recordLoopAccess, doesCurrLoopHaveSideEffects, at_key.
  destruct (isInLoop s (Event.thread e)) eqn:El; cbn [negb].
  - unfold isInLoop in El. destruct (currentLoop_ s !! Event.thread e) as [l|]; [|done]. cbn [mbind res_bind].
    case_bool_decide; cbn [negb andb]; [exists (loopAccess_ s); split; [by destruct s|done]|].
    assert (Hx : IntervalSet.wf (default IntervalSet.new (loopAccess_ s !! l))).
    { destruct (loopAccess_ s !! l) eqn:E; [by apply (Hla l)|apply IntervalSet.new_wf]. }
    destruct (IntervalSet.add_ok _ (makeInterval a) Hx) as (x & -> & Hx' & _). cbn [mbind res_bind]. eexists. split; [done|].
    intros l' x' Hl'. destruct (decide (l = l')) as [->|Hne]; [rewrite lookup_insert_eq in Hl'; by injection Hl' as <-|].
    rewrite lookup_insert_ne in Hl' by done. by apply (Hla l').
  - cbn [mbind res_bind andb]. exists (loopAccess_ s). split; [by destruct s|done].
Qed.
Definition in_loop_allocated (s : ExecutionState.t V) (a : AAccess.t) : Prop := SAddr.isDynamic (AAccess.addr a) = true -> is_ok (getAllocPos s (AAccess.addr a)) = true.
Lemma checkLoop_ok (s : ExecutionState.t V) e a rel : in_loop_allocated s a ->
  exists lr eff, checkLoopSideEffects s e a rel = Ok (set_loopSideEffects_ eff (set_lastReleaseIdx_ lr s)) /\
    forall t, default 0 (lr !! t) = if rel && (Event.thread e =? t) then Event.index e else default 0 (lastReleaseIdx_ s !! t).
Proof.
  intros Hal. unfold checkLoopSideEffects.
  set (s0 := onFence s e rel). assert (Hs0 : exists lr, s0 = set_lastReleaseIdx_ lr s /\
    forall t, default 0 (lr !! t) = if rel && (Event.thread e =? t) then Event.index e else default 0 (lastReleaseIdx_ s !! t)).
  { subst s0. unfold onFence. destruct rel; cbn [andb]; [|exists (lastReleaseIdx_ s); by destruct s]. eexists. split; [done|]. intros t.
    destruct (Z.eqb_spec (Event.thread e) t) as [->|Hne]; [by rewrite lookup_insert_eq|by rewrite lookup_insert_ne]. }
  clearbody s0. destruct Hs0 as (lr & -> & Hlr).
  assert (Hloop : forall lr', isInLoop (set_lastReleaseIdx_ lr' s) (Event.thread e) = isInLoop s (Event.thread e)) by done.
  unfold doesCurrLoopHaveSideEffects. rewrite Hloop. destruct (isInLoop s (Event.thread e)) eqn:El; cbn [negb orb mbind res_bind].
  2: { exists lr, (loopSideEffects_ s). split; [by destruct s|done]. }
  assert (Hl : exists l, currentLoop_ s !! Event.thread e = Some l) by (unfold isInLoop in El; destruct (currentLoop_ s !! Event.thread e) as [l|]; [by exists l|done]).
  destruct Hl as [l Hl].
  assert (Hmark : forall lr', updateSideEffects (set_lastReleaseIdx_ lr' s) e =
    Ok (set_loopSideEffects_ ({[l]} ∪ loopSideEffects_ s) (set_lastReleaseIdx_ lr' s))).
  { intros lr'. unfold updateSideEffects, at_key. rewrite Hloop. cbn [verify mbind res_bind currentLoop_ set_lastReleaseIdx_]. by rewrite Hl. }
  unfold at_key. cbn [currentLoop_ set_lastReleaseIdx_ loopSideEffects_]. rewrite Hl. cbn [mbind res_bind].
  case_bool_decide; cbn [orb]; [exists lr, (loopSideEffects_ s); split; [by destruct s|done]|].
  rewrite Hmark. destruct (SAddr.isDynamic (AAccess.addr a)) eqn:Ed; cbn [negb]; [|rewrite orb_true_r; by eexists _, _].
  rewrite orb_false_r. destruct rel; [by eexists _, _|]. specialize (Hal Ed).
  change (getAllocPos (set_lastReleaseIdx_ lr s) (AAccess.addr a)) with (getAllocPos s (AAccess.addr a)).
  destruct (getAllocPos s (AAccess.addr a)) as [ap|]; [|done]. cbn [mbind res_bind]. destruct (_ =? _); cbn [negb]; [|by eexists _, _].
  cbn [lastReleaseIdx_ set_lastReleaseIdx_]. set (lr' := <[Event.thread e := _]> lr).
  assert (Hlr' : forall t, default 0 (lr' !! t) = if false && (Event.thread e =? t) then Event.index e else default 0 (lastReleaseIdx_ s !! t)).
  { intros t. rewrite <- Hlr. subst lr'. destruct (decide (Event.thread e = t)) as [->|Hne]; [by rewrite lookup_insert_eq|by rewrite lookup_insert_ne]. }
  clearbody lr'. change (set_lastReleaseIdx_ lr' (set_lastReleaseIdx_ lr s)) with (set_lastReleaseIdx_ lr' s). rewrite Hmark.
  destruct (_ && _); [by eexists _, _|]. unfold isLocReadInLoop, at_key. rewrite Hloop. cbn [negb currentLoop_ set_lastReleaseIdx_]. rewrite Hl. cbn [mbind res_bind].
  destruct (match loopAccess_ _ !! l with Some _ => _ | None => _ end); [by eexists _, _|]. exists lr', (loopSideEffects_ s). split; [by destruct s|done].
Qed.

Lemma init_skip m tr o b : (forall p, write_at p o = None) -> init_ok m tr -> init_ok m ((o, b) :: tr).
Proof. intros Ho [Hm Hid Hval Hat]. split; [done..|]. intros p. by rewrite hist_cons, Ho. Qed.
Lemma hp_skip hm m tr o b : is_alloc o = false -> hp_ok hm m tr -> hp_ok hm m ((o, b) :: tr).
Proof. intros Ho. apply hp_ext. intros q Hq. by rewrite alloc_at_skip. Qed.
Lemma last_events (w : V) tr o b : access_of o = None -> (v_wf w /\ forall t, 0 <= t -> v_clock w t = AdaptiveView.many (events_of tr) t) ->
  v_wf w /\ forall t, 0 <= t -> v_clock w t = AdaptiveView.many (events_of ((o, b) :: tr)) t.
Proof. intros Ho. unfold events_of. by rewrite hist_cons, Ho. Qed.
Lemma unprotected_skip tr o b : access_of o = None -> unprotected ((o, b) :: tr) = unprotected tr.
Proof. intros Ho. unfold unprotected. cbn. rewrite Ho. by destruct b. Qed.
Lemma key_update {W} (m : gmap Z W) (f : Z -> op -> option W) tr o b k w : (forall t, m !! t = head (hist (f t) tr)) ->
  (forall t, f t o = if k =? t then Some w else None) -> forall t, <[k := w]> m !! t = head (hist (f t) ((o, b) :: tr)).
Proof.
  intros Hm Ho t. rewrite hist_cons, Ho. destruct (Z.eqb_spec k t) as [->|Hne]; [by rewrite lookup_insert_eq|by rewrite lookup_insert_ne].
Qed.
(** Reads the fields of an updated state. *)
Ltac fields := cbn [allocInfoMap_ initialized_ alloctor_ staticRanges_ staticInitData_ lastNAWriteVal_ lastIsNA_ lastNAWriteEvent_ lastNAReadView_ lastAReadView_
  lastAWriteView_ currentLoop_ loopAccess_ loopSideEffects_ lastReleaseIdx_ lastMemAccess_ previousNA_ hpProtectMap_ hpProtectCount_ lastUnprotectedAccess_
  set_allocInfoMap_ set_initialized_ set_alloctor_ set_staticRanges_ set_staticInitData_ set_lastNAWriteVal_ set_lastIsNA_ set_lastNAWriteEvent_ set_lastNAReadView_ set_lastAReadView_
  set_lastAWriteView_ set_currentLoop_ set_loopAccess_ set_loopSideEffects_ set_lastReleaseIdx_ set_lastMemAccess_ set_previousNA_ set_hpProtectMap_ set_hpProtectCount_ set_lastUnprotectedAccess_].
(** What an operation does not touch. *)
Ltac keep :=
  first [ assumption | by constructor | apply last_skip; [done|assumption] | apply init_skip; [done|assumption] | apply allocs_skip; [done|assumption]
        | apply hp_skip; [done|assumption] | apply last_events; [done|assumption] | rewrite unprotected_skip by done; assumption
        | intros ?; rewrite hist_cons; auto; fail | idtac ].

Lemma naload_ok s tr e a v b : inv s tr -> legal s tr (NALoad e a v) b -> exists s', perform s (NALoad e a v) = Ok s' /\ inv s' ((NALoad e a v, b) :: tr).
Proof.
  intros [] [Ha Hp]. specialize (Hp _ eq_refl). cbn [permitted fst] in Ha, Hp. destruct (record_ok _ _ a e v i_nreads0 Ha) as (m1 & E1 & Hm1).
  destruct (recordLast_ok s tr (NALoad e a v) b a e v Ha eq_refl Hp i_unprotected0 i_last0) as (w & m2 & E2 & Hm2 & Hw).
  cbn [perform]. unfold onNALoad, recordMemAccess. rewrite E1. cbn [mbind res_bind]. rewrite E2. cbn [mbind res_bind].
  match goal with |- context [recordLoopAccess ?s1 e a] => destruct (recordLoopAccess_ok s1 e a i_looped0) as (la & -> & Hla) end.
  eexists. split; [done|]. split; fields; keep. by apply (key_update _ previous_na_at).
Qed.
Lemma atload_ok s tr e a v b : inv s tr -> legal s tr (ATLoad e a v) b -> exists s', perform s (ATLoad e a v) = Ok s' /\ inv s' ((ATLoad e a v, b) :: tr).
Proof.
  intros [] [Ha Hp]. specialize (Hp _ eq_refl). cbn [permitted fst] in Ha, Hp. destruct (record_ok _ _ a e v i_areads0 Ha) as (m1 & E1 & Hm1).
  destruct (recordLast_ok s tr (ATLoad e a v) b a e v Ha eq_refl Hp i_unprotected0 i_last0) as (w & m2 & E2 & Hm2 & Hw).
  cbn [perform]. unfold onATLoad, recordMemAccess. rewrite E1. cbn [mbind res_bind]. rewrite E2. cbn [mbind res_bind].
  match goal with |- context [recordLoopAccess ?s1 e a] => destruct (recordLoopAccess_ok s1 e a i_looped0) as (la & -> & Hla) end.
  eexists. split; [done|]. split; fields; keep.
Qed.
Lemma allocated_pos (s : ExecutionState.t V) tr a : allocs_ok (allocInfoMap_ s) (alloctor_ s) tr -> dynamic_allocated tr a -> in_loop_allocated s a.
Proof.
  intros Hok Hd Hdyn. destruct (allocated_entry _ _ _ _ Hok (Hd Hdyn)) as (I & El & _). unfold getAllocPos. by rewrite El.
Qed.
Lemma release_update (s : ExecutionState.t V) (lr : gmap Z Z) tr o b e rel : (forall t, default 0 (lastReleaseIdx_ s !! t) = default 0 (head (hist (release_at t) tr))) ->
  (forall t, default 0 (lr !! t) = if rel && (Event.thread e =? t) then Event.index e else default 0 (lastReleaseIdx_ s !! t)) ->
  (forall t, release_at t o = if rel && (Event.thread e =? t) then Some (Event.index e) else None) ->
  forall t, default 0 (lr !! t) = default 0 (head (hist (release_at t) ((o, b) :: tr))).
Proof. intros Hs Hlr Ho t. rewrite hist_cons, Ho, Hlr, Hs. by destruct (rel && _). Qed.
Lemma value_total (x : option SVal.t) w : IntervalMap.vadd x (Some w) = Ok (Some w).
Proof. done. Qed.
Lemma nastore_ok s tr e a v val b : inv s tr -> legal s tr (NAStore e a v val) b -> exists s', perform s (NAStore e a v val) = Ok s' /\ inv s' ((NAStore e a v val, b) :: tr).
Proof.
  intros [] [(Ha & Hd & H8) Hp]. specialize (Hp _ eq_refl). cbn [fst] in Hp. pose proof (allocated_pos s tr a i_allocs0 Hd) as Hpos. pose proof Ha as (Haw & He & Hv). cbn in Haw, He, Hv.
  set (o := NAStore e a v val).
  destruct (last_add (lastIsNA_ s) write_type_at tr o b a true i_types0 Haw) as (m1 & E1 & Hm1); [done..|].
  cbn [perform o]. unfold onNAStore, updateLastWriteType. cbn [negb]. rewrite E1. cbn [mbind res_bind].
  set (s1 := set_previousNA_ _ (set_lastIsNA_ m1 s)).
  assert (Hval : exists m2, match val with Some x => onDeferredValueUpdate s1 a x | None => Ok s1 end = Ok (set_lastNAWriteVal_ m2 s1) /\ last_ok m2 byte_at ((o, b) :: tr)).
  { destruct val as [x|]; [|exists (lastNAWriteVal_ s); split; [done|by apply last_skip]].
    destruct i_values0 as [Vc Vid Vat]. destruct (deferred_ok s1 a x) as (m2 & -> & Hm2 & Hid2 & Hd2); try done; [by apply H8|apply Hm1|apply Hm1| |].
    - intros p Hc. pose proof (last_at _ _ _ Hm1 p) as Hat. rewrite flag_eq in Hat. fields. cbn [s1 lastIsNA_ set_previousNA_ set_lastIsNA_]. rewrite Hat, hist_cons. cbn. by rewrite Hc.
    - exists m2. split; [done|]. split; [done..|]. intros p. apply (IntervalMap.veq_trans _ _ _ (Hd2 p)). rewrite hist_cons. cbn [byte_at o].
      destruct (covers a p); [apply IntervalMap.veq_refl|apply Vat]. }
  destruct Hval as (m2 & -> & Hm2). cbn [mbind res_bind].
  destruct (markInitialized_ok (set_lastNAWriteVal_ m2 s1) a e v tr o b i_init0 Ha) as (m3 & -> & Hm3); [done|]. cbn [mbind res_bind].
  unfold recordNAWrite. destruct (last_add (lastNAWriteEvent_ s) na_write_at tr o b a e i_nawrites0 Haw) as (m4 & E4 & Hm4); [done..|].
  fields. cbn [s1 set_previousNA_ set_lastIsNA_ lastNAWriteEvent_]. rewrite E4. cbn [mbind res_bind].
  match goal with |- context [recordLast ?s0 a e v] =>
    destruct (recordLast_ok s0 tr o b a e v Ha eq_refl Hp i_unprotected0 i_last0) as (w & m5 & -> & Hm5 & Hw) end. cbn [mbind res_bind].
  match goal with |- context [checkLoopSideEffects ?s0 e a false] => destruct (checkLoop_ok s0 e a false Hpos) as (lr & eff & -> & Hlr) end.
  eexists. split; [done|]. split; fields; keep; [by apply (key_update _ previous_na_at)|]. by apply (release_update s lr tr o b e false).
Qed.
Lemma atstore_ok s tr e a v eff rel b : inv s tr -> legal s tr (ATStore e a v eff rel) b ->
  exists s', perform s (ATStore e a v eff rel) = Ok s' /\ inv s' ((ATStore e a v eff rel, b) :: tr).
Proof.
  intros [] [[Ha Hd] Hp]. specialize (Hp _ eq_refl). cbn [fst] in Hp. pose proof (allocated_pos s tr a i_allocs0 Hd) as Hpos. pose proof Ha as (Haw & He & Hv). cbn in Haw, He, Hv.
  set (o := ATStore e a v eff rel). cbn [perform o]. unfold onATStore, recordMemAccess.
  destruct (record_ok _ _ a e v i_awrites0 Ha) as (m1 & -> & Hm1). cbn [mbind res_bind].
  destruct (recordLast_ok s tr o b a e v Ha eq_refl Hp i_unprotected0 i_last0) as (w & m2 & -> & Hm2 & Hw). cbn [mbind res_bind].
  set (s1 := set_lastAWriteView_ m1 _).
  destruct (markInitialized_ok s1 a e v tr o b i_init0 Ha) as (m3 & -> & Hm3); [done|]. cbn [mbind res_bind].
  unfold updateLastWriteType. destruct (last_add (lastIsNA_ s) write_type_at tr o b a false i_types0 Haw) as (m4 & E4 & Hm4); [done..|].
  fields. cbn [negb s1 set_lastAWriteView_ lastIsNA_ set_lastUnprotectedAccess_ set_lastMemAccess_]. rewrite E4. cbn [mbind res_bind].
  match goal with |- context [hp_protects ?s0 (AAccess.addr a)] => set (s2 := s0) end.
  assert (Hhp : exists hm m5, (if hp_protects s2 (AAccess.addr a)
      then s3 ← updateHpCount s2 (AAccess.addr a) (-1); Ok (set_hpProtectMap_ (<[AAccess.addr a := 0]> (hpProtectMap_ s3)) s3) else Ok s2) =
      Ok (set_hpProtectMap_ hm (set_hpProtectCount_ m5 s2)) /\ hp_ok hm m5 tr /\ Z.of_nat (size hm) < 2 ^ 31).
  { destruct (release_hp_ok s2 tr (AAccess.addr a) i_allocs0 i_hp0 i_hpsize0) as (m5 & E & Hm5). destruct (hp_protects s2 (AAccess.addr a)) eqn:Eh.
    - rewrite E. cbn [mbind res_bind]. eexists _, m5. split; [done|]. split; [by apply set_hp_zero|]. fields.
      unfold hp_protects in Eh. destruct (hpProtectMap_ s2 !! AAccess.addr a) eqn:El; [|done]. by rewrite map_size_insert_Some.
    - exists (hpProtectMap_ s), (hpProtectCount_ s). split; [done|]. by split. }
  destruct Hhp as (hm & m5 & -> & Hhp & Hsz). cbn [mbind res_bind].
  assert (Hend : exists lr eff', (if eff then checkLoopSideEffects (set_hpProtectMap_ hm (set_hpProtectCount_ m5 s2)) e a rel else Ok (set_hpProtectMap_ hm (set_hpProtectCount_ m5 s2))) =
      Ok (set_loopSideEffects_ eff' (set_lastReleaseIdx_ lr (set_hpProtectMap_ hm (set_hpProtectCount_ m5 s2)))) /\
      forall t, default 0 (lr !! t) = if (eff && rel) && (Event.thread e =? t) then Event.index e else default 0 (lastReleaseIdx_ s !! t)).
  { destruct eff; [destruct (checkLoop_ok (set_hpProtectMap_ hm (set_hpProtectCount_ m5 s2)) e a rel Hpos) as (lr & eff' & -> & Hlr); by exists lr, eff'|]. exists (lastReleaseIdx_ s), (loopSideEffects_ s). by split. }
  destruct Hend as (lr & eff' & -> & Hlr). eexists. split; [done|]. split; fields; keep.
  apply (release_update s lr tr o b e (eff && rel)); [done..|]. intros t. cbn. by destruct eff, rel.
Qed.
Lemma small_ok s tr o b : match o with Fence _ _ | LoopBegin _ | SpinStart _ => True | _ => False end -> inv s tr -> legal s tr o b ->
  exists s', perform s o = Ok s' /\ inv s' ((o, b) :: tr).
Proof.
  intros Ho [] [Hl _]. destruct o as [| | | |e rel|e|e| | |]; try done; cbn [perform].
  - unfold onFence. eexists. split; [done|]. destruct rel; split; fields; keep.
    + apply (release_update s (<[Event.thread e := Event.index e]> (lastReleaseIdx_ s)) tr _ b e true); [done| |done]. intros t. cbn [andb].
      destruct (Z.eqb_spec (Event.thread e) t) as [->|Hne]; [by rewrite lookup_insert_eq|by rewrite lookup_insert_ne].
  - eexists. split; [done|]. split; fields; keep. by apply (key_update _ loop_at).
  - destruct Hl as (l & Hl & Hi). rewrite <- i_loop0 in Hl.
    unfold onSpinStart, doesCurrLoopHaveSideEffects, at_key, isInLoop. rewrite Hl, Hi. cbn [negb mbind res_bind].
    eexists. split; [done|]. split; fields; keep.
Qed.
Lemma alloc_step_ok s tr e a al sdur styp spc b : inv s tr -> legal s tr (Alloc e a al sdur styp spc) b ->
  exists s', perform s (Alloc e a al sdur styp spc) = Ok s' /\ inv s' ((Alloc e a al sdur styp spc, b) :: tr).
Proof.
  intros [] [(Hl & Hroom) _]. destruct (getFreshAddr_room (alloctor_ s) e a al sdur styp spc) as (Hnz & st & Hf); [by destruct i_allocs0|done..|].
  destruct (onAlloc_ok s tr e a al sdur styp spc st b i_allocs0 Hl Hnz Hf) as (m & E & Hm & Hnew).
  cbn [perform]. rewrite E. cbn [mbind res_bind]. eexists. split; [done|]. split; fields; keep.
  apply (hp_ext _ _ tr); [|done]. intros q Hq. by apply alloc_stays.
Qed.
Lemma free_ok s tr e q retire b : inv s tr -> legal s tr (Free e q retire) b ->
  exists s', perform s (Free e q retire) = Ok s' /\ inv s' ((Free e q retire, b) :: tr).
Proof.
  intros [] [Hl _]. set (o := Free e q retire). destruct (onFree_alloc _ _ tr e q retire b i_allocs0 Hl) as (I & x & m & E & Ex & Em & Hm).
  cbn [perform o]. unfold onFree. rewrite E. cbn [mbind res_bind]. rewrite Em. cbn [mbind res_bind].
  assert (Hhp : hp_ok (hpProtectMap_ s) (hpProtectCount_ s) ((o, b) :: tr)) by (apply (hp_ext _ _ tr); [|done]; intros p Hp; by apply alloc_stays).
  destruct (release_hp_ok (set_allocInfoMap_ m s) ((o, b) :: tr) q Hm Hhp i_hpsize0) as (m' & -> & Hhp'). cbn [mbind res_bind].
  eexists. split; [done|]. split; fields; keep.
  pose proof (map_subseteq_size _ _ (delete_subseteq (hpProtectMap_ s) q)). lia.
Qed.
Lemma protect_ok s tr h q b : inv s tr -> legal s tr (Protect h q) b -> exists s', perform s (Protect h q) = Ok s' /\ inv s' ((Protect h q, b) :: tr).
Proof.
  intros [] [(Hq & Hsz) _]. destruct (onProtect_ok s tr h q i_allocs0 i_hp0 Hq Hsz) as (m & E & Hm). cbn [perform]. rewrite E.
  eexists. split; [done|]. split; fields; keep.
  destruct (hpProtectMap_ s !! h) eqn:El; [by rewrite map_size_insert_Some|rewrite map_size_insert_None by done; lia].
Qed.
Lemma step_inv s tr o b : inv s tr -> legal s tr o b -> exists s', perform s o = Ok s' /\ inv s' ((o, b) :: tr).
Proof.
  intros Hi Hl. destruct o; [by apply naload_ok|by apply atload_ok|by apply nastore_ok|by apply atstore_ok|by apply small_ok..
    |by apply alloc_step_ok|by apply free_ok|by apply protect_ok].
Qed.

(** Whether an access is protected can always be told. *)
Lemma permitted_legal s tr o : inv s tr -> permitted s tr o -> exists b, legal s tr o b.
Proof.
  intros Hi Hl. destruct (access_of o) as [[[a e] v]|] eqn:Eo; [|exists true; split; [done|intros x; by rewrite Eo]].
  assert (AAccess.wf a) as Ha by (destruct o; try done; cbn in Eo; injection Eo as -> -> ->; cbn [permitted] in Hl; first [exact (proj1 Hl)|exact (proj1 (proj1 Hl))]).
  destruct (i_hp _ _ Hi) as [Hc Hid _ _]. destruct (isProtected_ok s a Hc Hid Ha) as (b & E & _).
  exists b. split; [done|]. intros x. rewrite Eo. by intros [= <-].
Qed.

Lemma init_new : init_ok (IntervalMap.IMap [] AdaptiveView.Empty) [].
Proof. split; [apply IntervalMap.new_canonical|done|constructor|]. intros p. apply AdaptiveView.eqb_equiv. Qed.
Lemma hp_new : hp_ok ∅ (IntervalMap.IMap [] 0) [].
Proof. split; [apply IntervalMap.new_canonical|done|done|]. intros p. unfold guards. by rewrite map_filter_empty. Qed.
Lemma restrict_ok st : SAddrAllocator.state_ok st -> SAddrAllocator.state_ok (SAddrAllocator.restrict (fun _ => 0) st).
Proof.
  intros Hst k thread. destruct (Hst k thread) as [Hw _]. destruct k; cbn in *.
  - done.
  - unfold SAddrAllocator.poolAt. rewrite map_lookup_imap. by destruct (SAddrAllocator.dynamicPool_ st !! thread).
  - unfold SAddrAllocator.poolAt. rewrite map_lookup_imap. by destruct (SAddrAllocator.dynamicPool_ st !! thread).
Qed.
Lemma new_inv : inv new [].
Proof.
  destruct v_new_ok as [Hv0 Hv]. split; first [apply view_map_new|apply last_new|apply init_new|apply hp_new|apply allocs_new|done|idtac].
Qed.
Lemma clear_map {W} (m : IntervalMap.t W) d : IntervalMap.id_ m = d -> IntervalMap.clear m = IntervalMap.IMap [] d.
Proof. intros <-. done. Qed.
Lemma clear_inv s tr : inv s tr -> inv (clear s) [].
Proof.
  intros []. pose proof v_new_ok as [Hv0 Hv].
  split; cbn -[IntervalMap.clear]; try done.
  - rewrite (clear_map _ _ (vm_id _ _ i_nreads0)). apply view_map_new.
  - rewrite (clear_map _ _ (vm_id _ _ i_areads0)). apply view_map_new.
  - rewrite (clear_map _ _ (vm_id _ _ i_awrites0)). apply view_map_new.
  - rewrite (clear_map _ _ (vm_id _ _ i_unprotected0)). apply view_map_new.
  - rewrite (clear_map _ _ (last_id _ _ _ i_nawrites0)). apply last_new.
  - rewrite (clear_map _ _ (last_id _ _ _ i_types0)). apply last_new.
  - rewrite (clear_map _ _ (last_id _ _ _ i_values0)). apply last_new.
  - rewrite (clear_map _ _ (in_id _ _ i_init0)). apply init_new.
  - rewrite (clear_map _ _ (al_id _ _ _ i_allocs0)). destruct allocs_new. split; try done. by apply restrict_ok, (al_pools _ _ _ i_allocs0).
  - rewrite (clear_map _ _ (hp_id _ _ _ i_hp0)). apply hp_new.
Qed.
Lemma run_inv s tr : run s tr -> inv s tr.
Proof.
  induction 1 as [|s tr o b s' _ IH Hl E|s tr _ IH]; [apply new_inv| |by apply (clear_inv s tr)].
  destruct (step_inv s tr o b IH Hl) as (s1 & E1 & Hs1). congruence.
Qed.

(** ** Queries *)
Lemma closed_sub (h h' : accesses) u : (forall x, x ∈ h -> x ∈ h') -> closed h' u -> closed h u.
Proof. intros Hs Hc a e v Hin. apply (Hc a e v). by apply Hs. Qed.
Lemma hist_sub {B} (f g : op -> option B) tr : (forall o x, f o = Some x -> g o = Some x) -> forall x, x ∈ hist f tr -> x ∈ hist g tr.
Proof.
  intros Hfg x. unfold hist. rewrite !list_elem_of_omap. intros (y & Hy & E). exists y. split; [done|by apply Hfg].
Qed.
Lemma view_query m tr f a u : view_map_ok m (hist f tr) -> (forall o x, f o = Some x -> access_of o = Some x) -> AAccess.wf a -> v_wf u ->
  closed (hist access_of tr) u -> exists x, getMaxView m a = Ok x /\ AdaptiveView.wf x /\
    (AdaptiveView.below (AdaptiveView.clock x) (v_clock u) <-> forall b e v, (b, e, v) ∈ hist f tr -> meets b a -> seen u e).
Proof.
  intros Hm Hf Ha Hu Hc. destruct (getMaxView_ok _ _ a Hm Ha) as (x & E & Hx & Hb). exists x. split; [done|]. split; [done|].
  apply Hb; [done|]. eapply closed_sub; [|exact Hc]. by apply hist_sub.
Qed.
(** The last writers of the bytes of an access. *)
Definition last_writer (tr : trace) (a : AAccess.t) (e : Event.t) : Prop := exists p, covers a p = true /\ head (hist (na_write_at p) tr) = Some e.
Lemma writers_ok (m : IntervalMap.t (option Event.t)) tr a : last_ok m na_write_at tr -> AAccess.wf a ->
  exists es, (l ← segments m a; foldM (fun es iv => e ← value_of (snd iv); Ok (es ++ [e])) [] l) = Ok es /\ forall e, e ∈ es <-> last_writer tr a e.
Proof.
  intros [Hc Hid Hat] Ha. destruct (makeInterval_wf a Ha) as (Es & Ee & Hlt & Hmax). unfold segments.
  destruct (IntervalMap.segments_ok SAddr.max m (makeInterval a) Hc) as (l & -> & _ & S1 & S2); [by rewrite Es, Ee|rewrite Es; lia|].
  rewrite Es, Ee, Hid in *. cbn [mbind res_bind].
  assert (Hfold : forall l' es0, (forall (J : IntervalMap.Interval) (x : option Event.t), (J, x) ∈ l' -> is_Some x) ->
    exists es, foldM (fun es iv => e ← value_of (snd iv); Ok (es ++ [e])) es0 l' = Ok es /\ forall e, e ∈ es <-> e ∈ es0 \/ exists J : IntervalMap.Interval, (J, Some e) ∈ l').
  { induction l' as [|[J x] l' IH]; intros es0 Hl; cbn [foldM].
    - exists es0. split; [done|]. intros e. split; [by left|]. intros [?|[J ?%not_elem_of_nil]]; done.
    - destruct (Hl J x ltac:(by left)) as [e0 ->]. cbn [snd value_of deref mbind res_bind].
      destruct (IH (es0 ++ [e0])) as (es & -> & Hes); [intros J' x' Hin; apply (Hl J'); by right|]. exists es. split; [done|]. intros e.
      rewrite Hes, elem_of_app, list_elem_of_singleton. split.
      + intros [[?| ->]|[J' Hin]]; [by left|right; exists J; by left|right; exists J'; by right].
      + intros [?|[J' [[= -> ->]|Hin]%elem_of_cons]]; [by left; left|by left; right|right; by exists J']. }
  destruct (Hfold l []) as (es & E & Hes).
  { intros J x Hin. destruct (S1 J x Hin) as (Hx & _). destruct x as [e|]; [by exists e|]. by rewrite (proj2 (event_eq None None) eq_refl) in Hx. }
  exists es. split; [done|]. intros e. rewrite Hes. unfold last_writer. split.
  - intros [?%not_elem_of_nil|[J Hin]]; [done|]. destruct (S1 J _ Hin) as (_ & J0 & J1 & J2 & J3). exists (Z.max (IntervalMap.start J) (AAccess.addr a)).
    split; [apply covers_spec; lia|]. rewrite <- (proj1 (event_eq _ _) (Hat _)). apply J3. lia.
  - intros (p & Hp%covers_spec & Hh). right. pose proof (proj1 (event_eq _ _) (Hat p)) as Hd. rewrite Hh in Hd.
    destruct (S2 p) as (J & x & Hin & HJ); [lia|lia|rewrite Hd; by apply bool_decide_eq_false|]. exists J.
    destruct (S1 J x Hin) as (_ & _ & _ & _ & Hx). rewrite <- (Hx p HJ), Hd in Hin. done.
Qed.
Lemma guards_pos hm tr p : 0 < guards hm tr p <-> exists h q, hm !! h = Some q /\ q <> 0 /\ covers (access (alloc_at tr q)) p = true.
Proof.
  unfold guards. split.
  - intros Hs. destruct (map_choose (filter (protects tr p) hm)) as (h & q & Hq).
    + intros E. rewrite E, map_size_empty in Hs. lia.
    + apply map_lookup_filter_Some in Hq as [Hq [? ?]]. by exists h, q.
  - intros (h & q & Hh & Hq & Hc). destruct (decide (size (filter (protects tr p) hm) = 0%nat)) as [E|]; [|lia].
    apply map_size_empty_inv in E. exfalso. assert (Hin : filter (protects tr p) hm !! h = Some q) by (apply map_lookup_filter_Some; done).
    by rewrite E in Hin.
Qed.
Lemma alloc_queries_ok (s : ExecutionState.t V) tr p : allocs_ok (allocInfoMap_ s) (alloctor_ s) tr -> let x := alloc_at tr p in
  isAllocated s p = bool_decide (x <> AllocInfo_default) /\
  isFreed s p = Ok (bool_decide (is_Some (freePos x))) /\ isRetired s p = Ok (bool_decide (is_Some (freePos x)) && isRetire x) /\
  (x <> AllocInfo_default -> getAllocPos s p = Ok (pos x) /\ getAllocAccess s p = Ok (access x) /\ getFreePos s p = Ok (freePos x)) /\
  (x = AllocInfo_default -> getAllocPos s p = Abort VerifyFailed /\ getAllocAccess s p = Abort VerifyFailed /\ getFreePos s p = Abort VerifyFailed).
Proof.
  intros Hok x. unfold isAllocated, isFreed, isRetired, getAllocPos, getAllocAccess, getFreePos. destruct (decide (x = AllocInfo_default)) as [E|Hne].
  - pose proof Hok as [Hc Hid Hat _ _]. assert (Hf : found (IntervalMap.find (allocInfoMap_ s) p) = false) by (apply lookup_none; [done|]; apply alloc_eq; by rewrite Hid, Hat).
    unfold lookup_entry. rewrite Hf, E. by repeat split.
  - destruct (allocated_entry _ _ _ _ Hok Hne) as (I & El & Hf & Ee & _). rewrite Hf, Ee, El. cbn [mbind res_bind]. by rewrite bool_decide_eq_true_2.
Qed.

(** *** Bytes of values *)
Definition byte_of (z i : Z) : Z := Z.land (Z.shiftr z (i * 8)) 255.
Lemma byte_bit z i n : 0 <= i -> 0 <= n -> Z.testbit (byte_of z i) n = (n <? 8) && Z.testbit z (n + i * 8).
Proof.
  intros Hi Hn. unfold byte_of. change 255 with (Z.ones 8). rewrite Z.land_spec, Z.testbit_ones_nonneg, Z.shiftr_spec by lia. apply andb_comm.
Qed.
Lemma byte_range z i : 0 <= byte_of z i < 2 ^ 8.
Proof. unfold byte_of. change 255 with (Z.ones 8). rewrite Z.land_ones by lia. by apply Z.mod_pos_bound. Qed.
Lemma bytes_eq a b : (forall n, 0 <= n < 8 -> Z.testbit a n = Z.testbit b n) -> byte_of a 0 = byte_of b 0.
Proof.
  intros E. apply Z.bits_inj'; intros n Hn. rewrite !byte_bit by lia. destruct (Z.ltb_spec n 8); [|done]. cbn [andb].
  rewrite !Z.mul_0_l, !Z.add_0_r. apply E. lia.
Qed.
Lemma byte_word_bits z i : 0 <= i < 8 -> byte_of (wrap64 z) i = byte_of z i.
Proof.
  intros Hi. apply Z.bits_inj'; intros n Hn. rewrite !byte_bit by lia. destruct (Z.ltb_spec n 8); [|done]. cbn [andb].
  rewrite wrap_testbit by lia. by rewrite (proj2 (Z.ltb_lt (n + i * 8) 64)) by lia.
Qed.
Lemma byte_value v i : 0 <= i < 8 -> SVal.value (byte v i) = byte_of (SVal.value v) i.
Proof.
  intros Hi. unfold byte, SVal.and_, SVal.binop. cbn [SVal.value SVal.ofValue]. rewrite wrap_small.
  - apply Z.bits_inj'; intros n Hn. rewrite byte_bit by lia. change 255 with (Z.ones 8). rewrite Z.land_spec, Z.testbit_ones_nonneg by lia.
    rewrite wrap_testbit, Z.shiftr_spec by lia. destruct (Z.ltb_spec n 8); [|by rewrite andb_false_r]. by rewrite (proj2 (Z.ltb_lt n 64)), andb_true_r by lia.
  - change 255 with (Z.ones 8). rewrite Z.land_ones by lia. unfold in_word. pose proof (Z.mod_pos_bound (wrap64 (Z.shiftr (SVal.value v) (i * 8))) (2 ^ 8)). lia.
Qed.
(** Appending a byte. *)
Lemma append_byte r b k j : 0 <= k < 8 -> 0 <= r < 2 ^ (k * 8) -> 0 <= b < 2 ^ 8 -> 0 <= j ->
  let r' := Z.lor r (wrap64 (Z.shiftl (Z.land b 255) (k * 8))) in 0 <= r' < 2 ^ ((k + 1) * 8) /\
  byte_of r' j = if j =? k then b else byte_of r j.
Proof.
  intros Hk Hr Hb Hj r'. assert (Eb : Z.land b 255 = b) by (change 255 with (Z.ones 8); by rewrite Z.land_ones, Z.mod_small by lia).
  assert (Er : r' = b * 2 ^ (k * 8) + r).
  { subst r'. assert (Hw : b * 2 ^ (k * 8) < 2 ^ 64).
    { pose proof (Z.pow_le_mono_r 2 (8 + k * 8) 64 ltac:(lia) ltac:(lia)) as Hle. rewrite Z.pow_add_r in Hle by lia.
      pose proof (Z.pow_pos_nonneg 2 (k * 8)). nia. }
    rewrite Eb, Z.shiftl_mul_pow2 by lia. rewrite wrap_small by (unfold in_word; nia). rewrite Z.lor_comm. apply lor_fields; lia. }
  split.
  - rewrite Er. replace ((k + 1) * 8) with (8 + k * 8) by lia. rewrite Z.pow_add_r by lia. pose proof (Z.pow_pos_nonneg 2 (k * 8)). nia.
  - apply Z.bits_inj'; intros n Hn. assert (Hbit : forall n, 0 <= n -> Z.testbit r' n = Z.testbit r n || (if k * 8 <=? n then Z.testbit b (n - k * 8) else false)).
    { intros m Hm. rewrite Er, <- lor_fields, Z.lor_spec, <- Z.shiftl_mul_pow2, Z.shiftl_spec by lia. rewrite orb_comm. f_equal.
      destruct (Z.leb_spec (k * 8) m); [done|]. by rewrite Z.testbit_neg_r by lia. }
    rewrite byte_bit, Hbit by lia. destruct (Z.eqb_spec j k) as [->|Hne].
    + destruct (Z.ltb_spec n 8) as [Hn8|Hn8]; cbn [andb]; [|by rewrite (high_bit 8 b) by lia].
      rewrite (high_bit (k * 8) r), (proj2 (Z.leb_le (k * 8) (n + k * 8))) by lia. cbn. f_equal. lia.
    + rewrite byte_bit by lia. destruct (Z.ltb_spec n 8) as [Hn8|]; cbn [andb]; [|done]. destruct (Z.leb_spec (k * 8) (n + j * 8)) as [Hle|]; [|by rewrite orb_false_r].
      rewrite (high_bit 8 b), orb_false_r by lia. done.
Qed.
(** Replacing a byte. *)
Lemma replace_byte r x i j mask : 0 <= i < 8 -> 0 <= j < 8 -> 0 <= SVal.value x < 2 ^ 8 -> byte_mask i = Ok mask ->
  exists y, SVal.shl x (SVal.ofValue (i * 8)) = Ok y /\
  byte_of (SVal.value (SVal.or_ (SVal.and_ r mask) y)) j = if j =? i then SVal.value x else byte_of (SVal.value r) j.
Proof.
  intros Hi Hj Hx. unfold byte_mask. rewrite (proj2 (Z.ltb_lt (i * 8) 64)) by lia. cbn [defined mbind res_bind]. intros [= <-].
  unfold SVal.shl. cbn [SVal.value SVal.ofValue]. rewrite (proj2 (Z.ltb_lt (i * 8) SVal.width)) by (unfold SVal.width; lia). cbn [defined mbind res_bind].
  eexists. split; [done|]. unfold SVal.or_, SVal.and_, SVal.binop. cbn [SVal.value SVal.ofValue]. rewrite byte_word_bits by done.
  apply Z.bits_inj'; intros n Hn. rewrite byte_bit by lia. rewrite Z.lor_spec, !wrap_testbit, Z.land_spec, wrap_testbit, Z.lnot_spec, wrap_testbit by lia.
  rewrite !Z.shiftl_spec by lia. destruct (Z.ltb_spec n 8) as [Hn8|Hn8]; cbn [andb].
  2: { destruct (j =? i); [by rewrite (high_bit 8 (SVal.value x)) by lia|]. rewrite byte_bit by lia. by rewrite (proj2 (Z.ltb_ge n 8)) by lia. }
  rewrite (proj2 (Z.ltb_lt (n + j * 8) 64)) by lia. cbn [andb]. change 255 with (Z.ones 8). destruct (Z.eqb_spec j i) as [->|Hne].
  - replace (n + i * 8 - i * 8) with n by lia. rewrite Z.testbit_ones_nonneg, (proj2 (Z.ltb_lt n 8)) by lia. cbn. by rewrite andb_false_r.
  - rewrite byte_bit, (proj2 (Z.ltb_lt n 8)) by lia. cbn [andb]. destruct (Z.lt_ge_cases (n + j * 8 - i * 8) 0) as [Hneg|Hpos].
    + rewrite (Z.testbit_neg_r (Z.ones 8)), (Z.testbit_neg_r (SVal.value x)) by lia. cbn. by rewrite andb_true_r, orb_false_r.
    + rewrite Z.testbit_ones_nonneg, (proj2 (Z.ltb_ge (n + j * 8 - i * 8) 8)), (high_bit 8 (SVal.value x)) by lia. cbn. by rewrite andb_true_r, orb_false_r.
Qed.

(** The byte that the last store with a value put at an address. *)
Definition na_byte (tr : trace) (p : Z) : Z := match head (hist (byte_at p) tr) with Some y => SVal.value y | None => 0 end.
Lemma na_byte_range tr p : 0 <= na_byte tr p < 2 ^ 8.
Proof.
  unfold na_byte. destruct (head (hist (byte_at p) tr)) as [y|] eqn:E; [|lia].
  assert (Hin : y ∈ hist (byte_at p) tr) by (destruct (hist (byte_at p) tr); [done|injection E as ->; by left]).
  apply list_elem_of_omap in Hin as ([o b] & _ & Ho). destruct o; try done. cbn in Ho. destruct val as [v'|]; [|done]. destruct (covers a p); [|done]. injection Ho as <-.
  unfold byte, SVal.and_, SVal.binop. cbn [SVal.value SVal.ofValue]. change 255 with (Z.ones 8). rewrite Z.land_ones by lia.
  pose proof (Z.mod_pos_bound (wrap64 (Z.shiftr (SVal.value v') ((p - AAccess.addr a) * 8))) (2 ^ 8)). rewrite wrap_small by (unfold in_word; lia). lia.
Qed.
Lemma stored_byte (m : IntervalMap.t (option SVal.t)) tr p : last_ok m byte_at tr -> is_Some (head (hist (byte_at p) tr)) -> p < SAddr.max ->
  exists I y, lookup_entry m p = Ok (I, Some y) /\ SVal.value y = na_byte tr p.
Proof.
  intros [Hc Hid Hat] [y0 Hy] Hp. specialize (Hat p). unfold na_byte. rewrite Hy in Hat |- *.
  destruct (IntervalMap.denote m p) as [y|] eqn:Ed; [|done]. cbn in Hat. apply Z.eqb_eq in Hat.
  destruct (lookup_entry_ok m p Hc) as (I & _ & _ & El & _); [by rewrite Ed, Hid|done|]. rewrite Ed in El. by exists I, y.
Qed.
Lemma getNAWriteValue_ok (s : ExecutionState.t V) tr a : last_ok (lastNAWriteVal_ s) byte_at tr -> AAccess.wf a -> AAccess.size a <= 8 ->
  (forall p, covers a p = true -> is_Some (head (hist (byte_at p) tr))) ->
  exists x, getNAWriteValue s a = Ok x /\ 0 <= SVal.value x < 2 ^ (AAccess.size a * 8) /\
    forall i, 0 <= i < AAccess.size a -> byte_of (SVal.value x) i = na_byte tr (AAccess.addr a + i).
Proof.
  intros Hl Ha H8 Hb. unfold getNAWriteValue. pose proof Ha as (Ha0 & Ha1 & Ha2).
  match goal with |- context [foldM ?f (0, []) _] => set (step := f) end.
  assert (Hloop : forall n k r provs, (k + n <= Z.to_nat (AAccess.size a))%nat -> 0 <= r < 2 ^ (Z.of_nat k * 8) ->
    (forall i, 0 <= i < Z.of_nat k -> byte_of r i = na_byte tr (AAccess.addr a + i)) ->
    exists r' provs', foldM step (r, provs) (seq k n) = Ok (r', provs') /\ 0 <= r' < 2 ^ (Z.of_nat (k + n) * 8) /\
      forall i, 0 <= i < Z.of_nat (k + n) -> byte_of r' i = na_byte tr (AAccess.addr a + i)).
  { induction n as [|n IH]; intros k r provs Hk Hr Hbytes; cbn [seq foldM].
    - exists r, provs. rewrite Nat.add_0_r. by split.
    - destruct (stored_byte _ tr (AAccess.addr a + Z.of_nat k) Hl) as (I & y & El & Ey); [apply Hb, covers_spec; lia|change SAddr.max with (2 ^ 64 - 1); lia|].
      assert (Es : step (r, provs) k = Ok (Z.lor r (wrap64 (Z.shiftl (Z.land (SVal.get y) 255) (Z.of_nat k * 8))), provs ++ [SVal.getProvenance y])).
      { unfold step. rewrite (addr_plus a) by (done || lia). rewrite El. cbn [mbind res_bind value_of deref].
        by rewrite (proj2 (Z.ltb_lt (Z.of_nat k * 8) 64)) by lia. }
      rewrite Es. cbn [mbind res_bind].
      pose proof (na_byte_range tr (AAccess.addr a + Z.of_nat k)) as Hrange. rewrite <- Ey in Hrange.
      pose proof (fun j Hj => append_byte r (SVal.value y) (Z.of_nat k) j ltac:(lia) Hr Hrange Hj) as Happ. cbv zeta in Happ.
      destruct (IH (S k) (Z.lor r (wrap64 (Z.shiftl (Z.land (SVal.get y) 255) (Z.of_nat k * 8)))) (provs ++ [SVal.getProvenance y])) as (r' & provs' & E & Hr' & Hb'); [lia| | |].
      + destruct (Happ 0 ltac:(lia)) as [Hw _]. by replace (Z.of_nat (S k)) with (Z.of_nat k + 1) by lia.
      + intros i Hi. destruct (Happ i ltac:(lia)) as [_ Ei]. unfold SVal.get. rewrite Ei. destruct (Z.eqb_spec i (Z.of_nat k)) as [->|]; [done|]. apply Hbytes. lia.
      + exists r', provs'. split; [exact E|]. by replace (k + S n)%nat with (S k + n)%nat by lia. }
  destruct (Hloop (Z.to_nat (AAccess.size a)) 0%nat 0 []) as (r & provs & E & Hr & Hbytes); [lia|cbn; lia|lia|].
  rewrite E. cbn [mbind res_bind]. eexists. split; [done|]. cbn [SVal.value]. cbn [Nat.add] in Hr, Hbytes. rewrite Z2Nat.id in Hr, Hbytes by lia. done.
Qed.
(** What a load of mixed accesses reads: the byte of the atomic write unless a later
    non-atomic store to the byte is unknown to it. *)
Definition merged_byte (tr : trace) (u : V) (z : Z) (p i : Z) : Z :=
  match head (hist (na_write_at p) tr) with
  | Some e => if Event.index e <=? v_clock u (Event.thread e) then byte_of z i else na_byte tr p
  | None => byte_of z i
  end.
Lemma write_event_valid tr p e : Forall access_ok (hist access_of tr) -> head (hist (na_write_at p) tr) = Some e -> AdaptiveView.valid e.
Proof.
  intros Hacc E. assert (Hin : e ∈ hist (na_write_at p) tr) by (destruct (hist (na_write_at p) tr); [done|injection E as ->; by left]).
  apply list_elem_of_omap in Hin as ([o b] & Hin & Ho). destruct o; try done. cbn in Ho. destruct (covers a p); [|done]. injection Ho as ->.
  rewrite Forall_forall in Hacc. destruct (Hacc (a, e, v)) as (_ & ? & _); [|done]. apply list_elem_of_omap. by exists (NAStore e a v val, b).
Qed.
Lemma writers_contained (s : ExecutionState.t V) tr a u : inv s tr -> AAccess.wf a -> v_wf u ->
  exists es b, getMaxNAWriteEvent s a = Ok (AdaptiveView.OfEvents es) /\ AdaptiveView.containedIn (AdaptiveView.OfEvents es) u = Ok b /\
    (b = true <-> forall e, last_writer tr a e -> seen u e).
Proof.
  intros Hi Ha Hu. destruct (writers_ok _ tr a (i_nawrites _ _ Hi) Ha) as (es & E & Hes).
  assert (Hval : Forall AdaptiveView.valid es).
  { apply Forall_forall. intros e He. apply Hes in He as (p & _ & Hp). by apply (write_event_valid tr p e (i_accesses _ _ Hi)). }
  destruct (AdaptiveView.contains_all_ok u es Hu Hval) as (b & Eb & Hb). exists es, b. split; [|split; [exact Eb|]].
  - unfold getMaxNAWriteEvent. destruct (segments (lastNAWriteEvent_ s) a) as [l|]; cbn [mbind res_bind] in *; [|done]. by rewrite E.
  - rewrite Hb. split; intros Hall e He; apply Hall; by apply Hes.
Qed.
Lemma byte_last_writer tr p e : head (hist (na_write_at p) tr) = Some e <-> last_writer tr (AAccess.AAccess p 1) e.
Proof.
  unfold last_writer. split; [intros E; exists p; split; [apply covers_spec; cbn; lia|done]|].
  intros (q & Hq%covers_spec & E). cbn in Hq. by assert (q = p) as -> by lia.
Qed.
Lemma merged_seen tr u z p i : (forall e, head (hist (na_write_at p) tr) = Some e -> seen u e) -> merged_byte tr u z p i = byte_of z i.
Proof.
  intros Hs. unfold merged_byte. destruct (head _) as [e|]; [|done]. by rewrite (proj2 (Z.leb_le _ _) (Hs e eq_refl)).
Qed.
Lemma merged_unseen tr u z p i e : head (hist (na_write_at p) tr) = Some e -> ~ seen u e -> merged_byte tr u z p i = na_byte tr p.
Proof. intros E Hs. unfold merged_byte. rewrite E. by rewrite (proj2 (Z.leb_gt _ _)) by (unfold seen in Hs; lia). Qed.
(** Bytes that the atomic view does not know have values. *)
Definition values_known (tr : trace) (a : AAccess.t) (u : V) : Prop :=
  forall p e, covers a p = true -> head (hist (na_write_at p) tr) = Some e -> ~ seen u e -> is_Some (head (hist (byte_at p) tr)).
Lemma byte_mask_ok i : 0 <= i < 8 -> exists mask, byte_mask i = Ok mask.
Proof. intros Hi. unfold byte_mask. rewrite (proj2 (Z.ltb_lt (i * 8) 64)) by lia. by eexists. Qed.
Definition merge_step (s : ExecutionState.t V) (a : AAccess.t) (u : V) : SVal.t * list Z -> nat -> res (SVal.t * list Z) :=
  fun '(r, provs) i => let i := Z.of_nat i in
      let byte := AAccess.AAccess (SAddr.addSize (AAccess.addr a) i) 1 in
      mx ← getMaxNAWriteEvent s byte;
      known ← AdaptiveView.containedIn mx u;
      if (known : bool) then Ok (r, provs) else
      mask ← byte_mask i;
      x ← getNAWriteValue s byte;
      byteVal ← SVal.shl x (SVal.ofValue (i * 8));
      Ok (SVal.or_ (SVal.and_ r mask) byteVal, provs ++ [SVal.getProvenance byteVal]).
Lemma merge_step_ok (s : ExecutionState.t V) tr a u r provs k : inv s tr -> AAccess.wf a -> v_wf u -> values_known tr a u ->
  Z.of_nat k < AAccess.size a -> AAccess.size a <= 8 ->
  exists r' provs', merge_step s a u (r, provs) k = Ok (r', provs') /\
    forall j z, 0 <= j < 8 -> byte_of (SVal.value r) j = (if j <? Z.of_nat k then merged_byte tr u z (AAccess.addr a + j) j else byte_of z j) ->
      byte_of (SVal.value r') j = (if j <? Z.of_nat k + 1 then merged_byte tr u z (AAccess.addr a + j) j else byte_of z j).
Proof.
  intros Hi Ha Hu Hkn Hk H8. unfold merge_step. cbv zeta. rewrite (addr_plus a) by (done || lia). set (p := AAccess.addr a + Z.of_nat k).
  assert (Hw : AAccess.wf (AAccess.AAccess p 1)) by (apply byte_wf; [done|lia]).
  destruct (writers_contained s tr _ u Hi Hw Hu) as (es & b & -> & E & Hb). cbn [mbind res_bind]. rewrite E. cbn [mbind res_bind].
  setoid_rewrite <- byte_last_writer in Hb.
  assert (Hcmp : forall j, j <> Z.of_nat k -> (j <? Z.of_nat k + 1) = (j <? Z.of_nat k)) by (intros; lia).
  destruct b.
  - exists r, provs. split; [done|]. intros j z Hj Ej. destruct (decide (j = Z.of_nat k)) as [->|Hne]; [|by rewrite Hcmp].
    rewrite Ej. replace (Z.of_nat k <? Z.of_nat k) with false by lia. replace (Z.of_nat k <? Z.of_nat k + 1) with true by lia.
    symmetry. apply merged_seen. intros e He. by apply Hb.
  - assert (Hun : exists e, head (hist (na_write_at p) tr) = Some e /\ ~ seen u e).
    { destruct (head (hist (na_write_at p) tr)) as [e|]; [|by assert (false = true) by (apply Hb; done)]. exists e. split; [done|]. intros Hs.
      assert (false = true); [|done]. apply Hb. by intros e' [= <-]. }
    destruct Hun as (e & He & Hns). destruct (byte_mask_ok (Z.of_nat k)) as [mask Em]; [lia|]. rewrite Em. cbn [mbind res_bind].
    destruct (getNAWriteValue_ok s tr (AAccess.AAccess p 1) (i_values _ _ Hi) Hw) as (x & -> & Hx & Hxb); [cbn; lia| |].
    { intros q Hq%covers_spec. cbn in Hq. assert (q = p) as -> by lia. apply (Hkn p e); [apply covers_spec; lia|done..]. }
    cbn [mbind res_bind AAccess.size] in *. specialize (Hxb 0 ltac:(lia)). cbn [AAccess.addr] in Hxb. rewrite Z.add_0_r in Hxb.
    assert (Ex : SVal.value x = na_byte tr p).
    { rewrite <- Hxb. unfold byte_of. change 255 with (Z.ones 8). rewrite Z.shiftr_0_r, Z.land_ones, Z.mod_small by lia. done. }
    destruct (replace_byte r x (Z.of_nat k) 0 mask) as (y & Ey & _); [lia..|done|]. rewrite Ey. cbn [mbind res_bind]. eexists _, _. split; [done|].
    intros j z Hj Ej. destruct (replace_byte r x (Z.of_nat k) j mask) as (y' & Ey' & Hy'); [lia..|done|]. rewrite Ey in Ey'. injection Ey' as <-.
    rewrite Hy'. destruct (Z.eqb_spec j (Z.of_nat k)) as [->|Hne]; [|by rewrite Hcmp].
    replace (Z.of_nat k <? Z.of_nat k + 1) with true by lia. rewrite Ex. symmetry. by apply (merged_unseen _ _ _ _ _ e).
Qed.
Lemma reconstruct_ok (s : ExecutionState.t V) tr a u z : inv s tr -> AAccess.wf a -> AAccess.size a <= 8 -> v_wf u -> values_known tr a u ->
  exists x, reconstructMemValue s a u z = Ok x /\
    forall j, 0 <= j < 8 -> byte_of (SVal.value x) j = if j <? AAccess.size a then merged_byte tr u (SVal.value z) (AAccess.addr a + j) j else byte_of (SVal.value z) j.
Proof.
  intros Hi Ha H8 Hu Hkn. pose proof Ha as (Ha0 & Ha1 & Ha2). unfold reconstructMemValue.
  destruct (writers_contained s tr a u Hi Ha Hu) as (es & b & -> & E & Hb). cbn [mbind res_bind]. rewrite E. cbn [mbind res_bind]. destruct b.
  - exists z. split; [done|]. intros j Hj. destruct (Z.ltb_spec j (AAccess.size a)); [|done]. symmetry. apply merged_seen. intros e He. apply Hb; [done|].
    exists (AAccess.addr a + j). split; [apply covers_spec; lia|done].
  - change (foldM _ (z, []) _) with (foldM (merge_step s a u) (z, []) (seq 0 (Z.to_nat (AAccess.size a)))).
    assert (Hloop : forall n k r provs, (k + n <= Z.to_nat (AAccess.size a))%nat ->
      (forall j, 0 <= j < 8 -> byte_of (SVal.value r) j = if j <? Z.of_nat k then merged_byte tr u (SVal.value z) (AAccess.addr a + j) j else byte_of (SVal.value z) j) ->
      exists r' provs', foldM (merge_step s a u) (r, provs) (seq k n) = Ok (r', provs') /\
        forall j, 0 <= j < 8 -> byte_of (SVal.value r') j = if j <? Z.of_nat (k + n) then merged_byte tr u (SVal.value z) (AAccess.addr a + j) j else byte_of (SVal.value z) j).
    { induction n as [|n IH]; intros k r provs Hk Hr; cbn [seq foldM]; [exists r, provs; by rewrite Nat.add_0_r|].
      destruct (merge_step_ok s tr a u r provs k Hi Ha Hu Hkn) as (r1 & provs1 & -> & Hr1); [lia|done|]. cbn [mbind res_bind].
      replace (k + S n)%nat with (S k + n)%nat by lia. apply IH; [lia|]. intros j Hj.
      replace (Z.of_nat (S k)) with (Z.of_nat k + 1) by lia. by apply Hr1, Hr. }
    destruct (Hloop (Z.to_nat (AAccess.size a)) 0%nat z []) as (r & provs & -> & Hr); [lia| |].
    { intros j Hj. by replace (j <? Z.of_nat 0) with false by lia. }
    cbn [mbind res_bind]. eexists. split; [done|]. cbn [SVal.value]. unfold SVal.get. cbn [Nat.add] in Hr. rewrite Z2Nat.id in Hr by lia. exact Hr.
Qed.

(** *** Initialization *)
Definition first_writer (tr : trace) (a : AAccess.t) (e : Event.t) : Prop := exists p, covers a p = true /\ last (hist (write_at p) tr) = Some e.
Lemma first_write_wf (m : AdaptiveViewMap) p : IntervalMap.id_ m = AdaptiveView.Empty -> IntervalMap.values_ok AdaptiveView.wf (IntervalMap.map_ m) ->
  AdaptiveView.wf (IntervalMap.denote m p).
Proof. intros Hid Hv. apply IntervalMap.denote_values; [by rewrite Hid|done]. Qed.
Lemma init_query m tr a : init_ok m tr -> AAccess.wf a -> (forall e, first_writer tr a e -> AdaptiveView.valid e) ->
  exists x, getMaxView m a = Ok x /\ AdaptiveView.wf x /\
    (forall f, (forall t, 0 <= t -> 0 <= f t) -> AdaptiveView.below (AdaptiveView.clock x) f <-> forall e, first_writer tr a e -> Event.index e <= f (Event.thread e)) /\
    ((forall e, ~ first_writer tr a e) -> x = AdaptiveView.Empty).
Proof.
  intros [Hc Hid Hval Hat] Ha Hvalid. destruct (makeInterval_wf a Ha) as (Es & Ee & Hlt & Hmax). unfold getMaxView, segments.
  destruct (IntervalMap.segments_ok SAddr.max m (makeInterval a) Hc) as (l & -> & _ & S1 & S2); [by rewrite Es, Ee|rewrite Es; lia|].
  rewrite Es, Ee, Hid in *. cbn [mbind res_bind].
  assert (Hin : forall J y, (J, y) ∈ l -> exists p e, covers a p = true /\ last (hist (write_at p) tr) = Some e /\ y = IntervalMap.denote m p).
  { intros J y Hj. destruct (S1 J y Hj) as (Hne & J0 & J1 & J2 & J3). set (p := Z.max (IntervalMap.start J) (AAccess.addr a)). specialize (J3 p ltac:(lia)).
    specialize (Hat p). rewrite J3 in Hat. destruct (last (hist (write_at p) tr)) as [e|] eqn:El; [|cbn in Hne, Hat; congruence].
    exists p, e. split; [apply covers_spec; lia|]. by split. }
  assert (Hone : forall p e, last (hist (write_at p) tr) = Some e -> AdaptiveView.valid e -> forall t, 0 <= t -> AdaptiveView.clock (IntervalMap.denote m p) t = AdaptiveView.one e t).
  { intros p e El Hve t Ht. specialize (Hat p). rewrite El in Hat. cbn [first_write] in Hat.
    by rewrite (eqb_clock _ (AdaptiveView.OfEvent e) (first_write_wf m p Hid Hval) Hve Hat). }
  destruct (joins_ok l AdaptiveView.Empty I) as (x & E & Hx & Hb).
  { intros J y Hj. destruct (Hin J y Hj) as (p & e & _ & _ & ->). by apply first_write_wf. }
  exists x. split; [done|]. split; [done|]. split.
  - intros f Hf. rewrite Hb. split.
    + intros [_ Hall] e (p & Hp & El). assert (Hve : AdaptiveView.valid e) by (apply Hvalid; by exists p). apply covers_spec in Hp.
      destruct (S2 p Hp ltac:(lia)) as (J & y & Hj & HJ).
      { specialize (Hat p). rewrite El in Hat. destruct (IntervalMap.denote m p) as [|[|? []]| | |] eqn:Ed; try done. }
      destruct (S1 J y Hj) as (_ & _ & _ & _ & J3). specialize (Hall J y Hj). rewrite <- (J3 p HJ) in Hall. apply (AdaptiveView.one_below e f Hf Hve).
      by apply (below_ext _ _ _ (Hone p e El Hve)).
    + intros Hall. split; [intros t Ht; cbn; by apply Hf|]. intros J y Hj. destruct (Hin J y Hj) as (p & e & Hp & El & ->).
      assert (Hve : AdaptiveView.valid e) by (apply Hvalid; by exists p). apply (below_ext _ _ _ (Hone p e El Hve)), AdaptiveView.one_below; [done..|]. apply Hall. by exists p.
  - intros Hno. destruct l as [|[J y] l]; [by injection E as <-|]. destruct (Hin J y ltac:(by left)) as (p & e & Hp & El & _). exfalso. apply (Hno e). by exists p.
Qed.
Lemma one_init t : AdaptiveView.one Event.getInit t = 0.
Proof. unfold AdaptiveView.one. by destruct (_ =? _). Qed.
Lemma empty_clock (x : AdaptiveView.t V) t : AdaptiveView.wf x -> 0 <= t -> 0 < AdaptiveView.clock x t -> AdaptiveView.empty x = false.
Proof.
  intros Hx Ht Hpos. apply not_true_is_false. intros E. destruct x as [e|es|v|e v|]; cbn [AdaptiveView.empty AdaptiveView.clock] in *; try lia.
  all: try (apply Event.isInitializer_spec in E; subst e; rewrite one_init in Hpos; lia).
  - assert (Hle : AdaptiveView.many es t <= 0); [|lia]. clear Hpos Hx. induction es as [|e es IH]; cbn [AdaptiveView.many]; [lia|].
    cbn [forallb] in E. apply andb_true_iff in E as [E1 E2]. apply Event.isInitializer_spec in E1. subst e. specialize (IH E2).
    rewrite one_init. lia.
  - pose proof (proj1 (v_empty_ok v Hx) E t Ht). lia.
Qed.
Lemma first_writer_ok tr a e : Forall access_ok (hist access_of tr) -> first_writer tr a e -> AdaptiveView.valid e.
Proof.
  intros Hacc (p & _ & E). apply last_Some_elem_of, list_elem_of_omap in E as ([o b] & Hin & Ho).
  rewrite Forall_forall in Hacc. destruct o; try done; cbn in Ho; (destruct (covers _ p); [|done]); injection Ho as ->.
  - destruct (Hacc (a0, e, v)) as (_ & ? & _); [|done]. apply list_elem_of_omap. by exists (NAStore e a0 v val, b).
  - destruct (Hacc (a0, e, v)) as (_ & ? & _); [|done]. apply list_elem_of_omap. by exists (ATStore e a0 v effectful release, b).
Qed.
Lemma isInitialized_ok (s : ExecutionState.t V) tr a : inv s tr -> AAccess.wf a -> (forall e, first_writer tr a e -> 0 < Event.index e) ->
  exists b, isInitialized s a = Ok b /\ (b = true <-> exists e, first_writer tr a e).
Proof.
  intros Hi Ha Hpos. assert (Hv : forall e, first_writer tr a e -> AdaptiveView.valid e) by (intros e; apply (first_writer_ok tr a e (i_accesses _ _ Hi))).
  destruct (init_query _ tr a (i_init _ _ Hi) Ha Hv) as (x & E & Hx & Hb & Hemp).
  unfold isInitialized, getInitView. rewrite E. cbn [mbind res_bind]. eexists. split; [done|].
  rewrite negb_true_iff. split.
  - intros En. destruct (AdaptiveView.empty x) eqn:Ex; [done|]. destruct (decide (Exists (fun p => is_Some (last (hist (write_at p) tr))) (seqZ (AAccess.addr a) (AAccess.size a)))) as [Hex|Hno].
    + apply Exists_exists in Hex as (p & Hp%elem_of_seqZ & [e He]). exists e, p. split; [by apply covers_spec|done].
    + assert (x = AdaptiveView.Empty) as ->; [|done]. apply Hemp. intros e (p & Hp & He). apply Hno, Exists_exists. exists p.
      split; [by apply elem_of_seqZ, covers_spec|by exists e].
  - intros [e He]. apply (empty_clock x (Event.thread e) Hx); [apply (Hv e He)|].
    destruct (Z.le_gt_cases (AdaptiveView.clock x (Event.thread e)) 0) as [Hle|]; [|done]. exfalso. specialize (Hpos e He).
    assert (Hbel : AdaptiveView.below (AdaptiveView.clock x) (fun t => if t =? Event.thread e then 0 else AdaptiveView.clock x t)).
    { intros t Ht. destruct (Z.eqb_spec t (Event.thread e)) as [->|]; lia. }
    rewrite Hb in Hbel.
    + specialize (Hbel e He). cbn in Hbel. rewrite Z.eqb_refl in Hbel. lia.
    + intros t Ht. destruct (t =? Event.thread e); [lia|]. by apply AdaptiveView.av_nonneg.
Qed.
Lemma first_writer_exists tr a : (exists e, first_writer tr a e) <-> exists o p, o ∈ tr.*1 /\ covers a p = true /\ is_Some (write_at p o).
Proof.
  split.
  - intros (e & p & Hp & E). apply last_Some_elem_of, list_elem_of_omap in E as ([o b] & Hin & Ho). exists o, p. split; [|by split].
    apply list_elem_of_fmap. by exists (o, b).
  - intros (o & p & Ho & Hp & [e He]). apply list_elem_of_fmap in Ho as ([o' b] & -> & Hin).
    assert (He' : e ∈ hist (write_at p) tr) by (apply list_elem_of_omap; by exists (o', b)).
    destruct (last (hist (write_at p) tr)) as [e'|] eqn:El; [by exists e', p|]. apply last_None in El. rewrite El in He'. by apply not_elem_of_nil in He'.
Qed.
(** *** What hazard pointers protect *)
(** The address that a hazard pointer protects: the last one it was given, none after the
    pointer was overwritten by an atomic store or freed. *)
Fixpoint guarded_by (tr : trace) (h : SAddr.t) : option SAddr.t :=
  match tr with
  | [] => None
  | (Protect h' q, _) :: tr => if h' =? h then Some q else guarded_by tr h
  | (ATStore _ a _ _ _, _) :: tr =>
      if AAccess.addr a =? h then match guarded_by tr h with Some _ => Some 0 | None => None end else guarded_by tr h
  | (Free _ q _, _) :: tr => if q =? h then None else guarded_by tr h
  | _ :: tr => guarded_by tr h
  end.
Definition keeps (s s' : ExecutionState.t V) : Prop := hpProtectMap_ s' = hpProtectMap_ s.
Ltac keeps_tac := unfold keeps; intros; repeat (res_inv; try case_match; simplify_eq); done.
Lemma updateSideEffects_keeps (s : ExecutionState.t V) e s' : updateSideEffects s e = Ok s' -> keeps s s'.
Proof. unfold updateSideEffects. keeps_tac. Qed.
Lemma checkLoop_keeps (s : ExecutionState.t V) e a rel s' : checkLoopSideEffects s e a rel = Ok s' -> keeps s s'.
Proof.
  unfold checkLoopSideEffects, keeps. cbv zeta. assert (Hf : hpProtectMap_ (onFence s e rel) = hpProtectMap_ s) by (by destruct rel).
  rewrite <- Hf. generalize (onFence s e rel). intros s1 E.
  repeat (res_inv; try case_match; simplify_eq); try done; by eapply updateSideEffects_keeps in E.
Qed.
Lemma updateHpCount_keeps (s : ExecutionState.t V) h n s' : updateHpCount s h n = Ok s' -> keeps s s'.
Proof. unfold updateHpCount. keeps_tac. Qed.
Lemma recordLast_keeps (s : ExecutionState.t V) a e v s' : recordLast s a e v = Ok s' -> keeps s s'.
Proof. unfold recordLast. keeps_tac. Qed.
Lemma recordMemAccess_keeps m (s : ExecutionState.t V) a e v m' s' : recordMemAccess m s a e v = Ok (m', s') -> keeps s s'.
Proof. unfold recordMemAccess. intros. res_inv. simplify_eq. by eapply recordLast_keeps. Qed.
Lemma recordLoopAccess_keeps (s : ExecutionState.t V) e a s' : recordLoopAccess s e a = Ok s' -> keeps s s'.
Proof. unfold recordLoopAccess. keeps_tac. Qed.
Lemma markInitialized_keeps (s : ExecutionState.t V) a e v s' : markInitialized s a e v = Ok s' -> keeps s s'.
Proof. unfold markInitialized. keeps_tac. Qed.
Lemma deferred_keeps (s : ExecutionState.t V) a v s' : onDeferredValueUpdate s a v = Ok s' -> keeps s s'.
Proof.
  unfold onDeferredValueUpdate. generalize (seq 0 (Z.to_nat (AAccess.size a))). intros l. revert s. induction l as [|i l IH]; intros s E; cbn [foldM] in E.
  - by injection E as <-.
  - apply bind_ok in E as (s1 & E1 & E). unfold keeps in *. rewrite (IH s1 E). revert E1. keeps_tac.
Qed.
Lemma perform_hp (s : ExecutionState.t V) tr o b s' : (forall h, hpProtectMap_ s !! h = guarded_by tr h) -> perform s o = Ok s' ->
  forall h, hpProtectMap_ s' !! h = guarded_by ((o, b) :: tr) h.
Proof.
  intros Hs E h. destruct o; cbn [perform guarded_by] in *.
  - apply bind_ok in E as ([m s1] & E1 & E). by rewrite (recordLoopAccess_keeps _ _ _ _ E), <- Hs, <- (recordMemAccess_keeps _ _ _ _ _ _ _ E1).
  - apply bind_ok in E as ([m s1] & E1 & E). by rewrite (recordLoopAccess_keeps _ _ _ _ E), <- Hs, <- (recordMemAccess_keeps _ _ _ _ _ _ _ E1).
  - unfold onNAStore in E. apply bind_ok in E as (s1 & E1 & E). apply bind_ok in E as (s2 & E2 & E). apply bind_ok in E as (s3 & E3 & E).
    apply bind_ok in E as (s4 & E4 & E). rewrite (checkLoop_keeps _ _ _ _ _ E), <- Hs. unfold recordNAWrite in E4. apply bind_ok in E4 as (m & _ & E4).
    rewrite (recordLast_keeps _ _ _ _ _ E4). cbn. rewrite (markInitialized_keeps _ _ _ _ _ E3).
    unfold updateLastWriteType in E1. apply bind_ok in E1 as (m' & _ & [= <-]).
    destruct val as [v'|]; [by rewrite (deferred_keeps _ _ _ _ E2)|by injection E2 as <-].
  - unfold onATStore in E. apply bind_ok in E as ([m s1] & E1 & E). apply bind_ok in E as (s2 & E2 & E). apply bind_ok in E as (s3 & E3 & E).
    apply bind_ok in E as (s4 & E4 & E). assert (K3 : keeps s s3).
    { unfold keeps, updateLastWriteType in *. apply bind_ok in E3 as (m' & _ & [= <-]). cbn. rewrite (markInitialized_keeps _ _ _ _ _ E2). cbn.
      by rewrite (recordMemAccess_keeps _ _ _ _ _ _ _ E1). }
    assert (K4 : keeps s4 s') by (destruct effectful; [by apply checkLoop_keeps in E|by injection E as <-]). rewrite K4. unfold hp_protects in E4. rewrite K3, Hs in E4.
    destruct (guarded_by tr (AAccess.addr a)) as [q|] eqn:Eg; cbn [negb] in E4.
    + destruct (Z.eqb_spec (AAccess.addr a) h) as [<-|Hne]; [rewrite Eg|].
      * destruct (Z.eqb_spec q 0) as [->|Hq]; cbn [negb] in E4; [injection E4 as <-; by rewrite K3, Hs|].
        apply bind_ok in E4 as (s5 & E5 & [= <-]). cbn. by rewrite lookup_insert_eq.
      * destruct (negb (q =? 0)); [|injection E4 as <-; by rewrite K3, Hs].
        apply bind_ok in E4 as (s5 & E5 & [= <-]). cbn. rewrite lookup_insert_ne by done. by rewrite (updateHpCount_keeps _ _ _ _ E5), K3, Hs.
    + injection E4 as <-. rewrite K3, Hs. destruct (Z.eqb_spec (AAccess.addr a) h) as [E5|]; [rewrite <- E5, Eg|]; done.
  - injection E as <-. unfold onFence. destruct release; apply Hs.
  - injection E as <-. apply Hs.
  - apply bind_ok in E as ([r s1] & E1 & [= <-]). unfold onSpinStart in E1. destruct (negb _); [done|]. res_inv. by simplify_eq.
  - apply bind_ok in E as ([r s1] & E1 & [= <-]). unfold onAlloc in E1. apply bind_ok in E1 as ([r' al] & _ & E1). res_inv. by simplify_eq.
  - unfold onFree in E. apply bind_ok in E as ([iv x] & _ & E). apply bind_ok in E as (m & _ & E). apply bind_ok in E as (s1 & E1 & [= <-]). cbn.
    assert (K : keeps s s1) by (destruct (hp_protects _ _); [by apply updateHpCount_keeps in E1|by injection E1 as <-]).
    destruct (Z.eqb_spec addr h) as [<-|Hne]; [by rewrite lookup_delete_eq|]. by rewrite lookup_delete_ne, K, Hs.
  - unfold onProtect in E. apply bind_ok in E as (s1 & E1 & E).
    assert (K : keeps s s1) by (destruct (hp_protects _ _); [by apply updateHpCount_keeps in E1|by injection E1 as <-]).
    assert (K' : hpProtectMap_ s' = <[hp := prot]> (hpProtectMap_ s1)) by (destruct (negb _); [by apply updateHpCount_keeps in E|by injection E as <-]).
    rewrite K', K. destruct (Z.eqb_spec hp h) as [<-|Hne]; [by rewrite lookup_insert_eq|by rewrite lookup_insert_ne].
Qed.
Lemma run_guarded s tr : run s tr -> forall h, hpProtectMap_ s !! h = guarded_by tr h.
Proof. induction 1 as [|s tr o b s' _ IH _ E|s tr _ _]; [done| |done]. by apply (perform_hp s tr o b s'). Qed.
End spec.

(** ** The handlers and the queries of an execution *)
Section claims.
Context {V : Type} `{ViewLaws V}.

(** C17: every handler of the execution state succeeds on the operations that a program
    may do: accesses that do not wrap around, stores to memory that has been allocated,
    spins in a loop, allocations that fit in the pool of the thread, frees of memory that
    was allocated, protections of allocations or of nothing while fewer hazard pointers
    than 2^31-1 are known; non-atomic stores that record a value have at most eight
    bytes.  No assertion of the handler
    fails, no value is read that is not there and no map is indexed outside its keys; an
    allocation gets the first aligned index of the pool; and the run can go on.  The
    views are any that satisfy [ViewLaws]: vector clocks whose updates have no
    assertions, as in a release build. *)
Theorem handlers_succeed (s : ExecutionState.t V) tr o : run s tr -> permitted s tr o ->
  exists b s', perform s o = Ok s' /\ run s' ((o, b) :: tr).
Proof.
  intros Hr Hl. destruct (permitted_legal s tr o (run_inv s tr Hr) Hl) as (b & Hb).
  destruct (step_inv s tr o b (run_inv s tr Hr) Hb) as (s' & E & _). exists b, s'. split; [done|]. by apply (run_step s tr o b s').
Qed.

(** What an answer to a race query means for the accesses of a kind. *)
Definition race_answer (q : res (AdaptiveView.t V)) (tr : trace) (kind : op (V := V) -> option (AAccess.t * Event.t * V)) (a : AAccess.t) (u : V) : Prop :=
  exists x b, q = Ok x /\ AdaptiveView.containedIn x u = Ok b /\
    (b = true -> forall c e v, (c, e, v) ∈ hist kind tr -> meets c a -> seen u e) /\
    ((forall w, x <> AdaptiveView.OfView w) -> (forall c e v, (c, e, v) ∈ hist kind tr -> meets c a -> seen u e) -> b = true).
Lemma race_answer_ok (m : AdaptiveViewMap (V := V)) tr kind a u : view_map_ok m (hist kind tr) -> (forall o x, kind o = Some x -> access_of o = Some x) ->
  AAccess.wf a -> v_wf u -> closed (hist access_of tr) u -> race_answer (getMaxView m a) tr kind a u.
Proof.
  intros Hm Hk Ha Hu Hc. destruct (view_query m tr kind a u Hm Hk Ha Hu Hc) as (x & E & Hx & Hb).
  destruct (AdaptiveView.containedIn_ok x u Hx Hu) as (b & Eb & B1 & B2). exists x, b. split; [done|]. split; [done|]. rewrite <- Hb. by split.
Qed.

(** C18: a race query never overlooks an access.  For a view that is closed under what
    the accesses it contains have seen, the queries return, and if the checkers' test "is
    the recorded view contained in it" succeeds then the view contains every recorded
    access of the kind (non-atomic reads, atomic reads, atomic writes) that overlaps the
    queried one.  The converse is claimed only when the recorded answer names events: the
    containment of an explicit view is not exact.  For non-atomic writes the test
    succeeds exactly when the view contains the last writer of each byte; the writes
    that those have overwritten are not looked at. *)
Theorem race_queries_correct (s : ExecutionState.t V) tr a u : run s tr -> AAccess.wf a -> v_wf u -> closed (hist access_of tr) u ->
  race_answer (getMaxNAReadView s a) tr na_read a u /\ race_answer (getMaxAReadView s a) tr at_read a u /\
  race_answer (getMaxAWriteView s a) tr at_write a u /\
  exists x b, getMaxNAWriteEvent s a = Ok x /\ AdaptiveView.containedIn x u = Ok b /\ (b = true <-> forall e, last_writer tr a e -> seen u e).
Proof.
  intros Hr Ha Hu Hc. pose proof (run_inv s tr Hr) as Hi. split; [|split; [|split]].
  - apply race_answer_ok; [apply (i_nreads _ _ Hi)|by intros []|done..].
  - apply race_answer_ok; [apply (i_areads _ _ Hi)|by intros []|done..].
  - apply race_answer_ok; [apply (i_awrites _ _ Hi)|by intros []|done..].
  - destruct (writers_contained s tr a u Hi Ha Hu) as (es & b & E & Eb & Hb). by exists (AdaptiveView.OfEvents es), b.
Qed.

(** C21: the allocation queries answer what the run did: an address is allocated when an
    allocation covers it, freed (retired) when the last free (retirement) of an address
    of that allocation came after it; the position and the access of the allocation and
    of its free are returned, and asking for them at an address that was never
    allocated fails the assertion. *)
Theorem allocation_queries_correct (s : ExecutionState.t V) tr p : run s tr -> let x := alloc_at tr p in
  isAllocated s p = bool_decide (x <> AllocInfo_default) /\
  isFreed s p = Ok (bool_decide (is_Some (freePos x))) /\ isRetired s p = Ok (bool_decide (is_Some (freePos x)) && isRetire x) /\
  (x <> AllocInfo_default -> getAllocPos s p = Ok (pos x) /\ getAllocAccess s p = Ok (access x) /\ getFreePos s p = Ok (freePos x)) /\
  (x = AllocInfo_default -> getAllocPos s p = Abort VerifyFailed /\ getAllocAccess s p = Abort VerifyFailed /\ getFreePos s p = Abort VerifyFailed).
Proof. intros Hr. apply alloc_queries_ok, (i_allocs _ _ (run_inv s tr Hr)). Qed.

(** C22: an access is reported initialized exactly when some store of the run wrote one
    of its bytes, and the view of the initialization holds the first writers of its bytes. *)
Theorem initialization_correct (s : ExecutionState.t V) tr a : run s tr -> AAccess.wf a -> (forall e, first_writer tr a e -> 0 < Event.index e) ->
  (exists b, isInitialized s a = Ok b /\ (b = true <-> exists o p, o ∈ tr.*1 /\ covers a p = true /\ is_Some (write_at p o))) /\
  exists x, getInitView s a = Ok x /\ forall u, v_wf u ->
    AdaptiveView.below (AdaptiveView.clock x) (v_clock u) <-> forall e, first_writer tr a e -> seen u e.
Proof.
  intros Hr Ha Hpos. pose proof (run_inv s tr Hr) as Hi. split.
  - destruct (isInitialized_ok s tr a Hi Ha Hpos) as (b & E & Hb). exists b. split; [done|]. rewrite Hb. apply first_writer_exists.
  - destruct (init_query _ tr a (i_init _ _ Hi) Ha) as (x & E & _ & Hx & _); [intros e; apply (first_writer_ok tr a e (i_accesses _ _ Hi))|].
    exists x. split; [done|]. intros u Hu. apply Hx. by apply nonneg_clock.
Qed.

(** C20: the bytes that non-atomic stores put in memory are read back: when every byte of
    an access of at most 8 bytes was last stored with a value, the reconstructed value
    has, at each byte, the byte of the value of the last store to cover it. *)
Theorem na_values_roundtrip (s : ExecutionState.t V) tr a : run s tr -> AAccess.wf a -> AAccess.size a <= 8 ->
  (forall p, covers a p = true -> is_Some (head (hist (byte_at p) tr))) ->
  exists x, getNAWriteValue s a = Ok x /\ 0 <= SVal.value x < 2 ^ (AAccess.size a * 8) /\
    forall i, 0 <= i < AAccess.size a -> byte_of (SVal.value x) i = na_byte tr (AAccess.addr a + i).
Proof. intros Hr. apply getNAWriteValue_ok, (i_values _ _ (run_inv s tr Hr)). Qed.

(** C19: a mixed-access load is reconstructed byte by byte: each byte is the atomic
    write's unless a non-atomic store that the atomic view does not contain was the last
    to write it, in which case it is that store's; bytes outside the access are the
    atomic write's. *)
Theorem reconstruct_correct (s : ExecutionState.t V) tr a u z : run s tr -> AAccess.wf a -> AAccess.size a <= 8 -> v_wf u -> values_known tr a u ->
  exists x, reconstructMemValue s a u z = Ok x /\
    forall j, 0 <= j < 8 -> byte_of (SVal.value x) j = if j <? AAccess.size a then merged_byte tr u (SVal.value z) (AAccess.addr a + j) j else byte_of (SVal.value z) j.
Proof. intros Hr. apply reconstruct_ok, (run_inv s tr Hr). Qed.

(** C23: an access is protected exactly when each of its bytes lies in an allocation
    that some hazard pointer of the run currently protects: the last protection of the
    pointer gave it an address of the allocation, and the pointer was neither
    overwritten by an atomic store nor freed since. *)
Theorem protection_correct (s : ExecutionState.t V) tr a : run s tr -> AAccess.wf a ->
  exists b, isProtected s a = Ok b /\
    (b = true <-> forall p, covers a p = true -> exists h q, guarded_by tr h = Some q /\ q <> 0 /\ covers (access (alloc_at tr q)) p = true).
Proof.
  intros Hr Ha. setoid_rewrite <- (run_guarded s tr Hr). destruct (i_hp _ _ (run_inv s tr Hr)) as [Hc Hid _ Hat]. destruct (isProtected_ok s a Hc Hid Ha) as (b & E & Hb).
  exists b. split; [done|]. rewrite Hb. setoid_rewrite <- guards_pos. setoid_rewrite Hat. done.
Qed.
End claims.
(** ** A run of the execution state

    A thread allocates 16 bytes, protects them with a hazard pointer, stores to them
    with overlapping non-atomic stores; another thread reads and writes the upper half
    atomically, reads the lower half and retires the memory. *)
Definition heap : SAddr.t := 4294967304.
Definition example_ops : list (op (V := list Z) * bool) := [
  (Alloc (Event.Event 1 1) (AAccess.AAccess heap 16) 8 SD_Heap ST_Volatile AS_User, false);
  (Protect 64 heap, false);
  (NAStore (Event.Event 1 2) (AAccess.AAccess heap 8) [0; 2] (Some (SVal.ofValue 258)), true);
  (NAStore (Event.Event 1 3) (AAccess.AAccess (heap + 2) 2) [0; 3] (Some (SVal.ofValue 5)), true);
  (ATLoad (Event.Event 2 1) (AAccess.AAccess (heap + 8) 8) [0; 3; 1], true);
  (ATStore (Event.Event 2 2) (AAccess.AAccess (heap + 8) 8) [0; 3; 2] true true, true);
  (NALoad (Event.Event 2 3) (AAccess.AAccess heap 4) [0; 3; 3], true);
  (Free (Event.Event 2 4) heap true, false)].
Definition example_trace : trace (V := list Z) := rev example_ops.
Definition replay {V} `{ViewOps V} (ops : list (op (V := V))) : res (ExecutionState.t V) := foldM perform new ops.
Definition example_state : ExecutionState.t (list Z) := match replay example_ops.*1 with Ok s => s | Abort _ => new end.

Lemma run_next {V} `{ViewLaws V} (o : op (V := V)) b s tr s' : run s tr -> perform s o = Ok s' -> legal s tr o b -> run s' ((o, b) :: tr).
Proof. intros Hr Hp Hl. by apply (run_step s tr o b s'). Qed.
Ltac concrete_access :=
  split; [split_and!; by vm_compute|split; [split; by vm_compute|split; [repeat constructor; by vm_compute|done]]].
Ltac concrete_permitted := cbn [permitted];
  lazymatch goal with
  | |- alloc_legal _ _ _ _ /\ _ => split; [split_and!; first [by exists 3|by right|by vm_compute]|split; by vm_compute]
  | |- (_ \/ _) /\ _ => split; [right; split; [intros E; vm_compute in E; discriminate|reflexivity]|vm_compute; reflexivity]
  | |- alloc_at _ _ <> _ => intros E; vm_compute in E; discriminate
  | |- _ => split_and?; first [concrete_access|intros _ E; vm_compute in E; discriminate|intros _; cbn; lia]
  end.
Ltac concrete_legal := split; [concrete_permitted|intros x [= <-]; vm_compute; reflexivity].
Lemma example_run : run example_state example_trace.
Proof.
  pose proof (run_new (V := list Z)) as R.
  do 8 (lazymatch type of R with run _ ?tr =>
    let n := eval compute in (length tr) in
    let x := eval cbv [example_ops nth] in (nth n example_ops (LoopBegin Event.default, false)) in
    lazymatch x with (?o, ?b) => eapply (run_next o b) in R; [|vm_compute; reflexivity|concrete_legal] end end).
  exact R.
Qed.

Lemma heap_bytes n p : covers (AAccess.AAccess heap n) p = true -> exists i, (0 <= i < n)%Z /\ p = heap + i.
Proof. intros Hp%covers_spec. cbn in Hp. exists (p - heap). lia. Qed.
Lemma example_values p : covers (AAccess.AAccess heap 4) p = true -> is_Some (head (hist (byte_at p) example_trace)).
Proof.
  intros (i & Hi & ->)%heap_bytes. assert (i = 0 \/ i = 1 \/ i = 2 \/ i = 3) as [->|[->|[->| ->]]] by lia; (eexists; vm_compute; reflexivity).
Qed.
Lemma example_writers e : first_writer example_trace (AAccess.AAccess heap 4) e -> 0 < Event.index e.
Proof.
  intros (p & (i & Hi & ->)%heap_bytes & E). assert (i = 0 \/ i = 1 \/ i = 2 \/ i = 3) as [->|[->|[->| ->]]] by lia;
    vm_compute in E; by injection E as <-.
Qed.
Lemma example_closed : closed (hist access_of example_trace) [0; 5; 5].
Proof.
  assert (Hall : Forall (fun x : AAccess.t * Event.t * list Z => v_wf x.2 /\ ViewBase.contains_view [0; 5; 5] x.2 = true) (hist access_of example_trace)).
  { repeat constructor; by vm_compute. }
  intros a e v Hin _. rewrite Forall_forall in Hall. destruct (Hall _ Hin) as [Hv Hc].
  assert (Hu : ViewBase.wf [0; 5; 5]) by (split; [repeat constructor; by vm_compute|done]).
  exact (proj1 (ViewBase.contains_view_spec [0; 5; 5] v Hu Hv) Hc).
Qed.

(** Another thread allocates as well. *)
Lemma handlers_succeed_witness : exists b s', perform example_state (Alloc (Event.Event 2 5) (AAccess.AAccess (2 ^ 33 + 8) 24) 8 SD_Heap ST_Volatile AS_User) = Ok s' /\
  run s' ((Alloc (Event.Event 2 5) (AAccess.AAccess (2 ^ 33 + 8) 24) 8 SD_Heap ST_Volatile AS_User, b) :: example_trace).
Proof. apply (handlers_succeed example_state example_trace); [exact example_run|concrete_permitted]. Defined.
Lemma race_queries_correct_witness : race_answer (getMaxNAReadView example_state (AAccess.AAccess heap 8)) example_trace na_read (AAccess.AAccess heap 8) [0; 5; 5] /\
  race_answer (getMaxAReadView example_state (AAccess.AAccess heap 8)) example_trace at_read (AAccess.AAccess heap 8) [0; 5; 5] /\
  race_answer (getMaxAWriteView example_state (AAccess.AAccess heap 8)) example_trace at_write (AAccess.AAccess heap 8) [0; 5; 5] /\
  exists x b, getMaxNAWriteEvent example_state (AAccess.AAccess heap 8) = Ok x /\ AdaptiveView.containedIn x [0; 5; 5] = Ok b /\
    (b = true <-> forall e, last_writer example_trace (AAccess.AAccess heap 8) e -> seen [0; 5; 5] e).
Proof.
  apply (race_queries_correct example_state example_trace); [exact example_run|split_and!; by vm_compute| |exact example_closed].
  split; [repeat constructor; by vm_compute|done].
Defined.
Lemma allocation_queries_correct_witness : isAllocated example_state (heap + 8) = true /\ isFreed example_state (heap + 8) = Ok true /\
  isRetired example_state (heap + 8) = Ok true /\ getAllocPos example_state (heap + 8) = Ok (Event.Event 1 1) /\ getAllocPos example_state 64 = Abort VerifyFailed.
Proof.
  pose proof (allocation_queries_correct example_state example_trace (heap + 8) example_run) as (E1 & E2 & E3 & E4 & _).
  pose proof (allocation_queries_correct example_state example_trace 64 example_run) as (_ & _ & _ & _ & E5).
  rewrite E1, E2, E3. split; [reflexivity|]. split; [reflexivity|]. split; [reflexivity|]. split; [|by apply E5].
  apply E4. intros E. vm_compute in E. discriminate.
Defined.
Lemma initialization_correct_witness : isInitialized example_state (AAccess.AAccess heap 4) = Ok true /\
  exists x, getInitView example_state (AAccess.AAccess heap 4) = Ok x /\ forall u : list Z, v_wf u ->
    AdaptiveView.below (AdaptiveView.clock x) (v_clock u) <-> forall e, first_writer example_trace (AAccess.AAccess heap 4) e -> seen u e.
Proof.
  destruct (initialization_correct example_state example_trace (AAccess.AAccess heap 4) example_run) as [_ Hx];
    [split_and!; by vm_compute|exact example_writers|]. split; [vm_compute; reflexivity|exact Hx].
Defined.
Lemma na_values_roundtrip_witness : exists x, getNAWriteValue example_state (AAccess.AAccess heap 4) = Ok x /\ 0 <= SVal.value x < 2 ^ (4 * 8) /\
  forall i, 0 <= i < 4 -> byte_of (SVal.value x) i = na_byte example_trace (heap + i).
Proof.
  apply (na_values_roundtrip example_state example_trace (AAccess.AAccess heap 4)); [exact example_run|split_and!; by vm_compute|by vm_compute|exact example_values].
Defined.
Lemma reconstruct_correct_witness : exists x, reconstructMemValue example_state (AAccess.AAccess heap 4) [0; 2] (SVal.ofValue 7) = Ok x /\
  forall j, 0 <= j < 8 -> byte_of (SVal.value x) j =
    if j <? 4 then merged_byte example_trace [0; 2] (SVal.value (SVal.ofValue 7)) (heap + j) j else byte_of (SVal.value (SVal.ofValue 7)) j.
Proof.
  apply (reconstruct_correct example_state example_trace (AAccess.AAccess heap 4)); [exact example_run|split_and!; by vm_compute|by vm_compute| |].
  - split; [repeat constructor; by vm_compute|done].
  - intros p e Hp _ _. by apply example_values.
Defined.
Lemma protection_correct_witness : exists b, isProtected example_state (AAccess.AAccess heap 4) = Ok b /\
  (b = true <-> forall p, covers (AAccess.AAccess heap 4) p = true ->
    exists h q, guarded_by example_trace h = Some q /\ q <> 0 /\ covers (access (alloc_at example_trace q)) p = true).
Proof. apply (protection_correct example_state example_trace (AAccess.AAccess heap 4)); [exact example_run|split_and!; by vm_compute]. Defined.

(** The map of the bytes compares values without their provenance, so that bytes with
    the same value and different provenances become one segment: the provenance of the
    second store is lost. *)
Definition provenance_ops (p q : Z) : list (op (V := list Z)) := [
  Alloc (Event.Event 1 1) (AAccess.AAccess heap 16) 8 SD_Heap ST_Volatile AS_User;
  NAStore (Event.Event 1 2) (AAccess.AAccess heap 1) [0; 2] (Some (SVal.SVal 1 p));
  NAStore (Event.Event 1 3) (AAccess.AAccess (heap + 1) 1) [0; 3] (Some (SVal.SVal 1 q))].
Example provenance_lost : (s ← replay (provenance_ops 5 7); x ← getNAWriteValue s (AAccess.AAccess (heap + 1) 1); Ok (SVal.getProvenance x)) = Ok 5.
Proof. vm_compute. reflexivity. Qed.
(** An access of which only one byte was written is reported initialized. *)
Example partly_initialized : (s ← replay (provenance_ops 5 7); isInitialized s (AAccess.AAccess heap 8)) = Ok true.
Proof. vm_compute. reflexivity. Qed.
End StateSpec.
