(* ===== verification/SymExpr.v ===== *)
(** * Symbolic expressions

    Models Support/SExpr.hpp and Support/SExprVisitor.hpp: the expression nodes with
    their factory functions and [clone], the dispatch of the visitors, and the
    printer, the evaluator, the register substitutor, the concretizer and the
    transformer. *)

From stdpp Require Import pretty.
From S2P Require Import Prelude Values VSet.
Local Open Scope Z_scope.

Module SExpr.

(** The kinds, with the markers that delimit the ranges. *)
Inductive Kind :=
| Concrete | Register | Select | Concat | Extract
| LogicalKindFirst | Conjunction | Disjunction | Not | LogicalKindLast
| CastKindFirst | ZExt | SExt | Trunc | CastKindLast
| BinaryKindFirst
| Add | Sub | Mul | UDiv | SDiv | URem | SRem
| And | Or | Xor | Shl | LShr | AShr
| CmpKindFirst | Eq | Ne | Ult | Ule | Ugt | Uge | Slt | Sle | Sgt | Sge | CmpKindLast
| BinaryKindLast.
#[global] Instance Kind_eq_dec : EqDecision Kind.
Proof. solve_decision. Defined.

(** The value of an enumerator. *)
Definition code (k : Kind) : nat :=
  match k with
  | Concrete => 0 | Register => 1 | Select => 2 | Concat => 3 | Extract => 4
  | LogicalKindFirst => 5 | Conjunction => 6 | Disjunction => 7 | Not => 8 | LogicalKindLast => 9
  | CastKindFirst => 10 | ZExt => 11 | SExt => 12 | Trunc => 13 | CastKindLast => 14
  | BinaryKindFirst => 15
  | Add => 16 | Sub => 17 | Mul => 18 | UDiv => 19 | SDiv => 20 | URem => 21 | SRem => 22
  | And => 23 | Or => 24 | Xor => 25 | Shl => 26 | LShr => 27 | AShr => 28
  | CmpKindFirst => 29 | Eq => 30 | Ne => 31 | Ult => 32 | Ule => 33 | Ugt => 34 | Uge => 35
  | Slt => 36 | Sle => 37 | Sgt => 38 | Sge => 39 | CmpKindLast => 40
  | BinaryKindLast => 41
  end.

(** The [classof] of the abstract classes. *)
Definition between (a b k : Kind) : bool := ((code a <=? code k) && (code k <=? code b))%nat.
Definition isLogical := between LogicalKindFirst LogicalKindLast.
Definition isCast := between CastKindFirst CastKindLast.
Definition isBinary := between BinaryKindFirst BinaryKindLast.
Definition isCmp := between CmpKindFirst CmpKindLast.

Definition BoolWidth : Z := 1.

(** A node: its kind, its width and its kids; constants and registers have data of
    their own instead of kids. *)
Inductive t (T : Type) :=
| EConcrete (width : Z) (value : SVal.t)
| ERegister (width : Z) (reg : T) (name : string)
| ENode (kind : Kind) (width : Z) (kids : list (t T)).
Arguments EConcrete {T}.
Arguments ERegister {T}.
Arguments ENode {T}.

(** Apply a fallible function to every element. *)
Definition traverse {A B} (f : A -> res B) : list A -> res (list B) :=
  fix go l := match l with [] => Ok [] | x :: l => y ← f x; r ← go l; Ok (y :: r) end.

Section nodes.
Context {T : Type}.
Implicit Types e : t T.

Definition getKind e : Kind :=
  match e with EConcrete _ _ => Concrete | ERegister _ _ _ => Register | ENode k _ _ => k end.
Definition getWidth e : Z :=
  match e with EConcrete w _ => w | ERegister w _ _ => w | ENode _ w _ => w end.
Definition getKids e : list (t T) := match e with ENode _ _ l => l | _ => [] end.
Definition getNumKids e : nat := length (getKids e).
(** [getKid] asserts the index. *)
Definition getKid e (i : nat) : res (t T) :=
  match getKids e !! i with Some k => Ok k | None => Abort AssertFailed end.

(** *** Factory functions *)
Definition createTrue : t T := EConcrete 1 (SVal.ofValue 1).
Definition createFalse : t T := EConcrete 1 (SVal.ofValue 0).
(** A register without a name draws one from a counter. *)
Definition mkRegister (w : Z) (reg : T) (argname : string) (regCount : Z) : t T * Z :=
  if decide (argname = ""%string) then (ERegister w reg ("#s" +:+ pretty regCount), wrap 32 (regCount + 1))
  else (ERegister w reg argname, regCount).
Definition mkSelectW (w : Z) (c a b : t T) : t T := ENode Select w [c; a; b].
Definition mkSelect (c a b : t T) : t T := mkSelectW (getWidth a) c a b.
Definition mkLogical (k : Kind) (es : list (t T)) : res (t T) :=
  debug_assert (negb (bool_decide (length es = 0%nat)));; Ok (ENode k BoolWidth es).
Definition mkNot e : t T := ENode Not BoolWidth [e].
Definition mkCast (k : Kind) (w : Z) e : t T := ENode k w [e].
Definition mkBinaryW (k : Kind) (w : Z) (l r : t T) : t T := ENode k w [l; r].
Definition mkBinary (k : Kind) (l r : t T) : t T := mkBinaryW k (getWidth l) l r.
Definition mkCmp (k : Kind) (l r : t T) : t T := ENode k BoolWidth [l; r].

(** The expressions the factory functions build. *)
Definition shape (k : Kind) (n : nat) : bool :=
  match k with
  | Select => n =? 3
  | Conjunction | Disjunction => 0 <? n
  | Not | ZExt | SExt | Trunc => n =? 1
  | Add | Sub | Mul | UDiv | SDiv | URem | SRem | And | Or | Xor | Shl | LShr | AShr
  | Eq | Ne | Ult | Ule | Ugt | Uge | Slt | Sle | Sgt | Sge => n =? 2
  | _ => false
  end%nat.
Definition boolean (k : Kind) : bool :=
  match k with
  | Conjunction | Disjunction | Not | Eq | Ne | Ult | Ule | Ugt | Uge | Slt | Sle | Sgt | Sge => true
  | _ => false
  end.
Fixpoint wf e : bool :=
  match e with
  | EConcrete _ _ => true
  | ERegister _ _ name => negb (bool_decide (name = ""%string))
  | ENode k w kids => shape k (length kids) && (negb (boolean k) || (w =? BoolWidth)) && forallb wf kids
  end.

(** The overrides of [clone], given the clones of the kids: logical, comparison and
    arithmetic nodes are created anew, without the width. *)
Definition clone_select (w : Z) (kids : list (t T)) : res (t T) :=
  match kids with c :: a :: b :: _ => Ok (mkSelectW w c a b) | _ => Abort AssertFailed end.
Definition clone_logical (k : Kind) (kids : list (t T)) : res (t T) := mkLogical k kids.
Definition clone_not (kids : list (t T)) : res (t T) :=
  match kids with e :: _ => Ok (mkNot e) | _ => Abort AssertFailed end.
Definition clone_cast (k : Kind) (w : Z) (kids : list (t T)) : res (t T) :=
  match kids with e :: _ => Ok (mkCast k w e) | _ => Abort AssertFailed end.
Definition clone_arithmetic (k : Kind) (kids : list (t T)) : res (t T) :=
  match kids with l :: r :: _ => Ok (mkBinary k l r) | _ => Abort AssertFailed end.
Definition clone_comparison (k : Kind) (kids : list (t T)) : res (t T) :=
  match kids with l :: r :: _ => Ok (mkCmp k l r) | _ => Abort AssertFailed end.
Definition recreate (k : Kind) (w : Z) (kids : list (t T)) : res (t T) :=
  match k with
  | Select => clone_select w kids
  | Conjunction | Disjunction => clone_logical k kids
  | Not => clone_not kids
  | ZExt | SExt | Trunc => clone_cast k w kids
  | Add | Sub | Mul | UDiv | SDiv | URem | SRem | And | Or | Xor | Shl | LShr | AShr => clone_arithmetic k kids
  | Eq | Ne | Ult | Ule | Ugt | Uge | Slt | Sle | Sgt | Sge => clone_comparison k kids
  | _ => Abort Unreachable
  end.
Fixpoint clone e : res (t T) :=
  match e with
  | EConcrete w v => Ok (EConcrete w v)
  | ERegister w reg name => Ok (ERegister w reg name)
  | ENode k w kids => kids ← traverse clone kids; recreate k w kids
  end.

End nodes.

(** ** Dispatch of the visitors *)

(** The methods of a visitor: one per concrete class, and those of the abstract
    classes. *)
Inductive method := VKind (k : Kind) | VLogical | VCast | VBinary | VCmp | VSExpr.
#[global] Instance method_eq_dec : EqDecision method.
Proof. solve_decision. Defined.

(** The cases of [visit]. *)
Definition visited (k : Kind) : bool :=
  match k with
  | Concat | Extract | LogicalKindFirst | LogicalKindLast | CastKindFirst | CastKindLast
  | BinaryKindFirst | CmpKindFirst | CmpKindLast | BinaryKindLast => false
  | _ => true
  end.
(** The default bodies. *)
Definition delegate (m : method) : option method :=
  match m with
  | VKind (Conjunction | Disjunction) => Some VLogical
  | VKind (ZExt | SExt | Trunc) => Some VCast
  | VKind (Add | Sub | Mul | UDiv | SDiv | URem | SRem | And | Or | Xor | Shl | LShr | AShr) => Some VBinary
  | VKind (Eq | Ne | Ult | Ule | Ugt | Uge | Slt | Sle | Sgt | Sge) => Some VCmp
  | VKind _ => Some VSExpr
  | VLogical | VCast | VBinary | VCmp => Some VSExpr
  | VSExpr => None
  end.
Fixpoint run (fuel : nat) (overrides : method -> bool) (m : method) : res (option method) :=
  if overrides m then Ok (Some m)
  else match fuel, delegate m with
       | _, None => Ok None
       | O, Some _ => Abort OutOfFuel
       | S fuel, Some m' => run fuel overrides m'
       end.
Definition dispatch (overrides : method -> bool) (k : Kind) : res (option method) :=
  if visited k then run 2 overrides (VKind k) else Abort Unreachable.

(** The methods each subclass overrides. *)
Definition printer_overrides (m : method) : bool :=
  match m with VKind (ZExt | SExt | Trunc) => false | _ => true end.
Definition evaluator_overrides (m : method) : bool :=
  match m with VKind _ | VSExpr => true | _ => false end.
Definition rewriter_overrides (m : method) : bool := bool_decide (m = VSExpr).

(** ** Printer *)

(** The operator of [PRINT_BINARY_EXPR]. *)
Definition symbol (k : Kind) : string :=
  match k with
  | Add => "+" | Sub => "-" | Mul => "*" | UDiv => "/u" | SDiv => "/s" | URem => "%u" | SRem => "%s"
  | And => "&" | Or => "|" | Xor => "^" | Shl => "<<" | LShr => "<<a" | AShr => ">>a"
  | Eq => "==" | Ne => "!=" | Ult => "<u" | Ule => "<=u" | Ugt => ">u" | Uge => ">=u"
  | Slt => "<s" | Sle => "<=s" | Sgt => ">s" | Sge => ">=s"
  | _ => ""
  end%string.

Section visitors.
Context {T : Type} `{EqDecision T, !TotalOrd T}.
Implicit Types e : t T.

(** What the visitor appends to its output. *)
Fixpoint print e : res string :=
  match e with
  | EConcrete _ v => Ok (pretty (SVal.get v))
  | ERegister _ _ name => Ok name
  | ENode k w kids =>
      let joined (sep : string) :=
        (fix go l := match l with
                     | [] => Ok ""%string
                     | [x] => print x
                     | x :: l => s ← print x; r ← go l; Ok (s +:+ sep +:+ r)
                     end) kids in
      match k, kids with
      | Select, c :: a :: b :: _ =>
          c ← print c; a ← print a; b ← print b; Ok ("(" +:+ c +:+ " ? " +:+ a +:+ " : " +:+ b +:+ ")")
      | Conjunction, _ => joined " /\ "%string
      | Disjunction, _ => joined " \/ "%string
      | Not, e :: _ => s ← print e; Ok ("!" +:+ s)
      | (ZExt | SExt | Trunc), e :: _ => s ← print e; Ok ("cast" +:+ pretty w +:+ "(" +:+ s +:+ ")")
      | _, l :: r :: _ =>
          if isBinary k && visited k then l ← print l; r ← print r; Ok (l +:+ " " +:+ symbol k +:+ " " +:+ r)
          else Abort Unreachable
      | _, _ => if visited k then Abort AssertFailed else Abort Unreachable
      end
  end.

(** ** Evaluator *)

(** The members an evaluation reads: [valueMapping] gives the known registers. *)
Record env := { bruteForce : bool; val : SVal.t; valueMapping : T -> option SVal.t }.

Definition hasKnownMapping (v : env) (reg : T) : bool := bool_decide (is_Some (valueMapping v reg)).
Definition getMappingFor (v : env) (reg : T) : SVal.t := default (SVal.ofValue 42) (valueMapping v reg).

(** Remainders are computed with [/], signed division and the arithmetic shift with
    the unsigned operators. *)
Definition eval_binary (k : Kind) (a b : SVal.t) : res SVal.t :=
  match k with
  | Add => Ok (SVal.add a b) | Sub => Ok (SVal.sub a b) | Mul => Ok (SVal.mul a b)
  | UDiv | SDiv | URem | SRem => SVal.div a b
  | And => Ok (SVal.and_ a b) | Or => Ok (SVal.or_ a b) | Xor => Ok (SVal.xor_ a b)
  | Shl => SVal.shl a b | LShr | AShr => SVal.shr a b
  | _ => Abort Unreachable
  end.
Definition eval_compare (k : Kind) (a b : SVal.t) : option bool :=
  match k with
  | Eq => Some (SVal.eqb a b) | Ne => Some (SVal.neqb a b)
  | Ult => Some (SVal.ult a b) | Ule => Some (SVal.ule a b)
  | Ugt => Some (SVal.ugt a b) | Uge => Some (SVal.uge a b)
  | Slt => Some (SVal.slt a b) | Sle => Some (SVal.sle a b)
  | Sgt => Some (SVal.sgt a b) | Sge => Some (SVal.sge a b)
  | _ => None
  end.
Definition truth (b : bool) : SVal.t := SVal.ofValue (if b then 1 else 0).
Definition eval_binop (k : Kind) (a b : SVal.t) : res SVal.t :=
  match eval_compare k a b with Some c => Ok (truth c) | None => eval_binary k a b end.

(** An evaluation returns the value and the unknown registers seen so far.  The
    negation looks at the pointer to its kid, which is never null.  Operands are
    evaluated from left to right. *)
Fixpoint eval (v : env) e (u : list T) : res (SVal.t * list T) :=
  match e with
  | EConcrete _ c => Ok (c, u)
  | ERegister _ reg _ =>
      if bruteForce v then Ok (val v, u)
      else Ok (getMappingFor v reg, if hasKnownMapping v reg then u else fst (VSet.insert u reg))
  | ENode k _ kids =>
      match k with
      | Select =>
          match kids with
          | c :: a :: b :: _ => '(x, u) ← eval v c u; if SVal.getBool x then eval v a u else eval v b u
          | _ => Abort AssertFailed
          end
      | Conjunction =>
          (fix all_of l u := match l with
                             | [] => Ok (truth true, u)
                             | x :: l => '(b, u) ← eval v x u; if SVal.getBool b then all_of l u else Ok (truth false, u)
                             end) kids u
      | Disjunction =>
          (fix any_of l u := match l with
                             | [] => Ok (truth false, u)
                             | x :: l => '(b, u) ← eval v x u; if SVal.getBool b then Ok (truth true, u) else any_of l u
                             end) kids u
      | Not => match kids with _ :: _ => Ok (truth false, u) | [] => Abort AssertFailed end
      | ZExt | SExt | Trunc => match kids with x :: _ => eval v x u | [] => Abort AssertFailed end
      | _ =>
          if isBinary k && visited k then
            match kids with
            | l :: r :: _ => '(a, u) ← eval v l u; '(b, u) ← eval v r u; x ← eval_binop k a b; Ok (x, u)
            | _ => Abort AssertFailed
            end
          else Abort Unreachable
      end
  end.

(** An evaluator object keeps the unknown registers between evaluations; only the
    brute-force entry point clears them. *)
Definition evaluate_value e (x : SVal.t) (unknown : list T) : res (SVal.t * nat * list T) :=
  '(r, u) ← eval {| bruteForce := true; val := x; valueMapping := fun _ => None |} e [];
  Ok (r, length u, u).
Definition evaluate_map e (m : T -> option SVal.t) (x : SVal.t) (unknown : list T) : res (SVal.t * nat * list T) :=
  '(r, u) ← eval {| bruteForce := false; val := x; valueMapping := m |} e unknown;
  Ok (r, length u, u).

(** ** Substitutor and concretizer *)

(** [visitSExpr] of both: every kid is visited, then replaced if it is a register
    with a replacement. *)
Fixpoint replace_kids (f : T -> res (option (t T))) e : res (t T) :=
  match e with
  | ENode k w kids =>
      if visited k then
        kids ← traverse (fun x => x ← replace_kids f x;
                          match x with ERegister _ reg _ => o ← f reg; Ok (default x o) | _ => Ok x end) kids;
        Ok (ENode k w kids)
      else Abort Unreachable
  | _ => Ok e
  end.

Definition subst_with (reg : T) (r : t T) (x : T) : res (option (t T)) :=
  if decide (x = reg) then c ← clone r; Ok (Some c) else Ok None.
Definition substitute (orig : t T) (reg : T) (r : t T) : res (t T) :=
  e ← clone orig;
  match e with
  | ERegister _ x _ => if decide (x = reg) then clone r else replace_kids (subst_with reg r) e
  | _ => replace_kids (subst_with reg r) e
  end.

(** The map of the concretizer gives a value and a size; the constant takes the size
    in bytes as its width. *)
Definition concrete_with (m : T -> option (SVal.t * Z)) (x : T) : res (option (t T)) :=
  Ok (p ← m x; Some (EConcrete (snd p) (fst p))).
Definition concretize (orig : t T) (m : T -> option (SVal.t * Z)) : res (t T) :=
  e ← clone orig;
  match e with
  | ERegister _ x _ => match m x with Some (v, s) => Ok (EConcrete s v) | None => replace_kids (concrete_with m) e end
  | _ => replace_kids (concrete_with m) e
  end.

End visitors.

(** ** Transformer *)

(** The kids first, then a node of the same class; casts return their transformed
    kid. *)
Definition transform_binop {U} (k : Kind) (w : Z) (kids : list (t U)) : res (t U) :=
  match kids with l :: r :: _ => Ok (mkBinaryW k w l r) | _ => Abort AssertFailed end.
Definition transform_cmpop {U} (k : Kind) (kids : list (t U)) : res (t U) :=
  match kids with l :: r :: _ => Ok (mkCmp k l r) | _ => Abort AssertFailed end.
Definition transform_node {U} (k : Kind) (w : Z) (kids : list (t U)) : res (t U) :=
  match k with
  | Select => match kids with c :: a :: b :: _ => Ok (mkSelectW w c a b) | _ => Abort AssertFailed end
  | Conjunction | Disjunction => mkLogical k kids
  | ZExt | SExt | Trunc => match kids with x :: _ => Ok x | [] => Abort AssertFailed end
  | Not => match kids with x :: _ => Ok (mkNot x) | [] => Abort AssertFailed end
  | Add | Sub | Mul | UDiv | SDiv | URem | SRem | And | Or | Xor | Shl | LShr | AShr => transform_binop k w kids
  | Eq | Ne | Ult | Ule | Ugt | Uge | Slt | Sle | Sgt | Sge => transform_cmpop k kids
  | _ => Abort Unreachable
  end.
Fixpoint transform {T U} (f : T -> U) (e : t T) : res (t U) :=
  match e with
  | EConcrete w v => Ok (EConcrete w v)
  | ERegister w reg name => Ok (ERegister w (f reg) name)
  | ENode k w kids => kids ← traverse (transform f) kids; transform_node k w kids
  end.

(** ** Induction on expressions *)
Lemma expr_ind {T} (P : t T -> Prop) :
  (forall w v, P (EConcrete w v)) -> (forall w r n, P (ERegister w r n)) ->
  (forall k w kids, Forall P kids -> P (ENode k w kids)) -> forall e, P e.
Proof.
  intros Hc Hr Hn. fix IH 1. intros [w v|w r n|k w kids]; [apply Hc|apply Hr|]. apply Hn.
  induction kids as [|x kids IHk]; constructor; [apply IH|apply IHk].
Qed.

Lemma traverse_cons {A B} (f : A -> res B) x l : traverse f (x :: l) = (y ← f x; r ← traverse f l; Ok (y :: r)).
Proof. done. Qed.

(** Kids that satisfy the induction hypothesis. *)
Lemma traverse_kids {A B} (f : A -> res B) (P : A -> B -> Prop) (Q : A -> bool) l :
  Forall (fun x => Q x = true -> exists y, f x = Ok y /\ P x y) l -> forallb Q l = true ->
  exists l', traverse f l = Ok l' /\ Forall2 P l l'.
Proof.
  induction 1 as [|x l Hx _ IH]; intros Hq; [by exists []|]. apply andb_true_iff in Hq as [Hq Hl].
  destruct (Hx Hq) as (y & E1 & Hp), (IH Hl) as (l' & E & Hps). rewrite traverse_cons, E1. cbn -[traverse]. rewrite E.
  exists (y :: l'). split; [done|by constructor].
Qed.

Section proofs.
Context {T : Type} `{EqDecision T, !TotalOrd T}.
Implicit Types e : t T.

Lemma wf_node k w (kids : list (t T)) : wf (ENode k w kids) = true ->
  shape k (length kids) = true /\ (boolean k = true -> w = BoolWidth) /\ forallb wf kids = true.
Proof.
  cbn. rewrite !andb_true_iff. intros [[H1 H2] H3]. split_and!; try done. intros Hb. rewrite Hb in H2. cbn in H2. lia.
Qed.

(** Evaluation of a node depends on its kind and on the evaluation of its kids. *)
Definition same_eval (v v' : env) (x y : t T) : Prop := forall u, eval v x u = eval v' y u.
Lemma eval_node_ext v v' k w w' kids kids' u : Forall2 (same_eval v v') kids kids' ->
  eval v (ENode k w kids) u = eval v' (ENode k w' kids') u.
Proof.
  intros H. assert (Hall : forall u, eval v (ENode Conjunction w kids) u = eval v' (ENode Conjunction w' kids') u).
  { clear u. induction H as [|x y kids kids' Hx _ IH]; intros u; [done|]. cbn. rewrite (Hx u).
    destruct (eval v' y u) as [[b u']|]; [|done]. cbn. destruct (SVal.getBool b); [|done]. apply IH. }
  assert (Hany : forall u, eval v (ENode Disjunction w kids) u = eval v' (ENode Disjunction w' kids') u).
  { clear u. clear Hall. induction H as [|x y kids kids' Hx _ IH]; intros u; [done|]. cbn. rewrite (Hx u).
    destruct (eval v' y u) as [[b u']|]; [|done]. cbn. destruct (SVal.getBool b); [done|]. apply IH. }
  destruct k; try apply Hall; try apply Hany; try done; clear Hall Hany;
    destruct H as [|x y kids kids' Hx [|x2 y2 kids2 kids2' Hx2 Hr]]; try done; cbn; rewrite ?(Hx u); try done;
    destruct (eval v' y u) as [[b u']|]; try done; cbn; try (rewrite (Hx2 u'); done).
  destruct Hr as [|x3 y3 kids3 kids3' Hx3 Hr]; cbn; [done|]. rewrite (Hx2 u'), (Hx3 u'). done.
  by destruct Hr.
Qed.

(** A node with the kids that its kind wants. *)
Lemma recreate_ok k w (kids : list (t T)) : shape k (length kids) = true ->
  exists w', recreate k w kids = Ok (ENode k w' kids) /\ (boolean k = true -> w' = BoolWidth) /\
    (boolean k = false -> ~ isBinary k -> w' = w).
Proof.
  destruct k; try done; destruct kids as [|a [|b [|c [|d kids]]]]; try done; intros _; cbn; eexists; (split; [done|]);
    split; intros; done.
Qed.

Lemma forall2_wf (P : t T -> t T -> Prop) l l' : Forall2 (fun x y => wf y = true /\ P x y) l l' ->
  forallb wf l' = true /\ length l' = length l /\ Forall2 P l l'.
Proof.
  induction 1 as [|x y l l' [Hy Hp] _ (H1 & H2 & H3)]; [done|]. cbn. rewrite Hy, H1, H2. split_and!; [done..|by constructor].
Qed.

(** A clone is well-formed and evaluates like the original. *)
Lemma clone_spec e : wf e = true -> exists e', clone e = Ok e' /\ wf e' = true /\
  (forall v, same_eval v v e e') /\ (forall w x n, e' = ERegister w x n <-> e = ERegister w x n).
Proof.
  induction e as [w c|w r n|k w kids IH] using expr_ind; intros Hwf.
  - exists (EConcrete w c). done.
  - exists (ERegister w r n). done.
  - destruct (wf_node _ _ _ Hwf) as (Hs & Hb & Hk).
    destruct (traverse_kids clone (fun x y => wf y = true /\ forall v, same_eval v v x y) wf kids) as (l' & E & H2); [|done|].
    { eapply Forall_impl; [exact IH|]. intros x Hx Hwx. destruct (Hx Hwx) as (y & E & Hy & Hev & _). eauto. }
    destruct (forall2_wf _ _ _ H2) as (Hk' & Hlen & Hev). rewrite <- Hlen in Hs.
    destruct (recreate_ok k w l' Hs) as (w' & Er & Hb' & _). exists (ENode k w' l'). split_and!.
    + cbn -[traverse]. rewrite E. done.
    + cbn. rewrite Hs, Hk'. destruct (boolean k) eqn:Ebk; [rewrite (Hb' eq_refl)|]; done.
    + intros v u. apply eval_node_ext. eapply Forall2_impl; [exact Hev|]. intros x y Hxy. apply Hxy.
    + done.
Qed.

(** Replacing registers amounts to changing their values. *)
Lemma replace_spec f v v' e : wf e = true ->
  (forall w x n, exists o, f x = Ok o /\ (forall y, o = Some y -> wf y = true) /\
     same_eval v' v (ERegister w x n) (default (ERegister w x n) o)) ->
  exists e', replace_kids f e = Ok e' /\ wf e' = true /\
    ((forall w x n, e <> ERegister w x n) -> same_eval v' v e e') /\
    (forall w x n, e' = ERegister w x n <-> e = ERegister w x n).
Proof.
  intros Hwf Hf. induction e as [w c|w r n|k w kids IH] using expr_ind.
  - exists (EConcrete w c). done.
  - exists (ERegister w r n). split_and!; try done. intros H. by destruct (H w r n).
  - destruct (wf_node _ _ _ Hwf) as (Hs & Hb & Hk).
    set (g := fun x => x ← replace_kids f x; match x with ERegister _ reg _ => o ← f reg; Ok (default x o) | _ => Ok x end).
    destruct (traverse_kids g (fun x y => wf y = true /\ same_eval v' v x y) wf kids) as (l' & E & H2); [|done|].
    { eapply Forall_impl; [exact IH|]. intros x Hx Hwx. destruct (Hx Hwx) as (y & Ey & Hy & Hev & Hreg). unfold g. rewrite Ey.
      cbn. destruct y as [w' c|w' r n|k' w' kids'].
      - exists (EConcrete w' c). split_and!; try done. apply Hev. intros ??? ->. by destruct (Hreg w0 x0 n) as [_ ?].
      - destruct (Hf w' r n) as (o & -> & Ho & Hso). cbn. exists (default (ERegister w' r n) o). split_and!; [done| |].
        + destruct o; [by apply Ho|done].
        + by rewrite (proj1 (Hreg w' r n) eq_refl).
      - exists (ENode k' w' kids'). split_and!; try done. apply Hev. intros ??? ->. by destruct (Hreg w0 x0 n) as [_ ?]. }
    destruct (forall2_wf _ _ _ H2) as (Hk' & Hlen & Hev). exists (ENode k w l'). split_and!.
    + cbn -[traverse]. fold g. rewrite E. by destruct k.
    + cbn. rewrite Hlen, Hs, Hk'. destruct (boolean k) eqn:Ebk; [rewrite (Hb eq_refl)|]; done.
    + intros _ u. by apply eval_node_ext.
    + done.
Qed.

(** *** Widths *)

(** Arithmetic nodes as wide as their left operand. *)
Fixpoint canonical e : bool :=
  match e with
  | ENode k w kids =>
      forallb canonical kids &&
      (negb (isBinary k) || isCmp k || match kids with l :: _ => w =? getWidth l | [] => false end)
  | _ => true
  end.

Lemma recreate_canonical k w (kids : list (t T)) : shape k (length kids) = true -> (boolean k = true -> w = BoolWidth) ->
  (isBinary k = true -> isCmp k = false -> exists l r, kids = [l; r] /\ w = getWidth l) ->
  recreate k w kids = Ok (ENode k w kids).
Proof.
  destruct k; try done; destruct kids as [|a [|b [|c [|d kids]]]]; try done; intros _ Hb Hw; cbn; try done;
    try (by rewrite Hb); destruct Hw as (l & r & E & ->); try done; by injection E as -> ->.
Qed.

Lemma traverse_id (f : t T -> res (t T)) l : Forall (fun x => f x = Ok x) l -> traverse f l = Ok l.
Proof. induction 1 as [|x l Hx _ IH]; [done|]. by rewrite traverse_cons, Hx; cbn -[traverse]; rewrite IH. Qed.

Lemma clone_id e : wf e = true -> canonical e = true -> clone e = Ok e.
Proof.
  induction e as [w c|w r n|k w kids IH] using expr_ind; intros Hwf Hc; try done.
  destruct (wf_node _ _ _ Hwf) as (Hs & Hb & Hk). cbn in Hc. apply andb_true_iff in Hc as [Hck Hcw].
  cbn -[traverse]. rewrite (traverse_id clone kids).
  - cbn. apply recreate_canonical; [done..|]. intros H1 H2. rewrite H1, H2 in Hcw. cbn in Hcw.
    destruct k; try done; destruct kids as [|l [|r [|? kids]]]; try done; exists l, r; (split; [done|lia]).
  - rewrite Forall_forall in IH |- *. rewrite !forallb_forall in Hk, Hck. intros x Hx. apply IH; [done|..].
    + apply Hk. by apply list_elem_of_In.
    + apply Hck. by apply list_elem_of_In.
Qed.

Lemma clone_canonical e e' : wf e = true -> clone e = Ok e' -> canonical e' = true.
Proof.
  revert e'. induction e as [w c|w r n|k w kids IH] using expr_ind; intros e' Hwf E.
  - cbn in E. by injection E as <-.
  - cbn in E. by injection E as <-.
  - destruct (wf_node _ _ _ Hwf) as (Hs & Hb & Hk). cbn -[traverse] in E.
    destruct (traverse_kids clone (fun x y => canonical y = true) wf kids) as (l' & El & H2); [|done|].
    { rewrite Forall_forall in IH |- *. intros x Hx Hwx. destruct (clone_spec x Hwx) as (y & Ey & _). exists y. split; [done|].
      by apply (IH x Hx y). }
    rewrite El in E. cbn in E.
    assert (Hlen : length l' = length kids) by (symmetry; by eapply Forall2_length).
    assert (Hc : forallb canonical l' = true).
    { apply forallb_forall. intros y Hy. apply list_elem_of_In in Hy. apply list_elem_of_lookup in Hy as [i Hi].
      destruct (Forall2_lookup_r _ _ _ _ _ H2 Hi) as (x & _ & ?). done. }
    rewrite <- Hlen in Hs. clear - Hs Hc E. unfold recreate in E. destruct k; try done;
      destruct l' as [|a [|b [|c [|d l']]]]; try done; cbn in E; injection E as <-; cbn in Hc |- *; rewrite ?Hc; try done;
      rewrite Z.eqb_refl; by rewrite ?andb_true_r in *.
Qed.

(** ** Reference semantics *)

(** Arithmetic on 64-bit words, written on integers; no value where C++ has none. *)
Definition arith (k : Kind) (a b : Z) : option Z :=
  match k with
  | Add => Some ((a + b) mod 2 ^ 64)
  | Sub => Some ((a - b) mod 2 ^ 64)
  | Mul => Some ((a * b) mod 2 ^ 64)
  | UDiv => if b =? 0 then None else Some (a / b)
  | And => Some (Z.land a b)
  | Or => Some (Z.lor a b)
  | Xor => Some (Z.lxor a b)
  | Shl => if b <? 64 then Some ((a * 2 ^ b) mod 2 ^ 64) else None
  | LShr => if b <? 64 then Some (a / 2 ^ b) else None
  | _ => None
  end.
Definition signed (a : Z) : Z := if a <? 2 ^ 63 then a else a - 2 ^ 64.
Definition relation (k : Kind) (a b : Z) : option bool :=
  match k with
  | Eq => Some (a =? b) | Ne => Some (negb (a =? b))
  | Ult => Some (a <? b) | Ule => Some (a <=? b) | Ugt => Some (b <? a) | Uge => Some (b <=? a)
  | Slt => Some (signed a <? signed b) | Sle => Some (signed a <=? signed b)
  | Sgt => Some (signed b <? signed a) | Sge => Some (signed b <=? signed a)
  | _ => None
  end.
Fixpoint denote (rho : T -> Z) e : option Z :=
  match e with
  | EConcrete _ v => Some (SVal.get v)
  | ERegister _ x _ => Some (rho x)
  | ENode Select _ (c :: a :: b :: _) => x ← denote rho c; if x =? 0 then denote rho b else denote rho a
  | ENode Conjunction _ kids =>
      foldr (fun x r => z ← denote rho x; if z =? 0 then Some 0 else r) (Some 1) kids
  | ENode Disjunction _ kids =>
      foldr (fun x r => z ← denote rho x; if z =? 0 then r else Some 1) (Some 0) kids
  | ENode k _ (l :: r :: _) =>
      a ← denote rho l; b ← denote rho r;
      match relation k a b with Some c => Some (if c then 1 else 0) | None => arith k a b end
  | _ => None
  end.

(** The kinds whose evaluation is the arithmetic of words, over 64-bit constants. *)
Definition plain_kind (k : Kind) : bool :=
  match k with
  | Select | Conjunction | Disjunction | Add | Sub | Mul | UDiv | And | Or | Xor | Shl | LShr
  | Eq | Ne | Ult | Ule | Ugt | Uge | Slt | Sle | Sgt | Sge => true
  | _ => false
  end.
Definition word (v : SVal.t) : bool := (0 <=? SVal.value v) && (SVal.value v <? 2 ^ 64).
Fixpoint plain e : bool :=
  match e with
  | EConcrete _ v => word v
  | ERegister _ _ _ => true
  | ENode k _ kids => plain_kind k && forallb plain kids
  end.

(** The value of a register in an evaluation. *)
Definition reg_val (v : env) (x : T) : SVal.t := if bruteForce v then val v else getMappingFor v x.

Lemma word_spec c : word c = true <-> in_word 64 (SVal.value c).
Proof. unfold word, in_word. lia. Qed.
Lemma signed_spec c : word c = true -> SVal.getSigned c = signed (SVal.get c).
Proof.
  rewrite word_spec. unfold in_word, SVal.getSigned, SVal.get, signed. intros H. unfold swrap.
  rewrite wrap_small by done. change (2 ^ (64 - 1)) with (2 ^ 63). case_match; case_match; lia.
Qed.

Lemma binop_word f a b : word (SVal.binop f a b) = true.
Proof. apply word_spec. cbn. apply wrap_range. lia. Qed.
Lemma truth_word b : word (truth b) = true /\ SVal.get (truth b) = if b then 1 else 0.
Proof. by destruct b. Qed.

(** The value a computation should have. *)
Definition yields (r : res SVal.t) (z : option Z) : Prop :=
  match z with Some z => exists c, r = Ok c /\ SVal.get c = z /\ word c = true | None => r = Abort Undefined end.

Lemma compare_yields k a b : word a = true -> word b = true ->
  eval_compare k a b = relation k (SVal.get a) (SVal.get b).
Proof.
  intros Ha Hb. unfold eval_compare, relation. destruct k; try done; f_equal;
    rewrite <- ?signed_spec by done; unfold SVal.neqb, SVal.eqb, SVal.ult, SVal.ule, SVal.ugt, SVal.uge, SVal.slt, SVal.sle,
      SVal.sgt, SVal.sge, SVal.ule, SVal.ult, SVal.sle, SVal.slt, SVal.compare, SVal.compareSigned, SVal.get;
    repeat case_match; lia.
Qed.

Lemma land_word a b : in_word 64 a -> in_word 64 b -> in_word 64 (Z.land a b) /\ in_word 64 (Z.lor a b) /\ in_word 64 (Z.lxor a b).
Proof.
  intros Ha Hb. rewrite <- (wrap_small 64 a Ha), <- (wrap_small 64 b Hb). unfold wrap. rewrite <- !Z.land_ones by lia.
  assert (E : forall x, in_word 64 (Z.land x (Z.ones 64))) by (intros x; rewrite Z.land_ones by lia; apply wrap_range; lia).
  split_and!.
  - rewrite <- Z.land_assoc, (Z.land_comm (Z.ones 64)), <- (Z.land_assoc b), Z.land_diag, Z.land_assoc. apply E.
  - rewrite <- Z.land_lor_distr_l. apply E.
  - assert (Hx : Z.lxor (Z.land a (Z.ones 64)) (Z.land b (Z.ones 64)) = Z.land (Z.lxor a b) (Z.ones 64)).
    { apply Z.bits_inj'. intros n Hn. rewrite Z.lxor_spec, !Z.land_spec, Z.lxor_spec.
      by destruct (Z.testbit a n), (Z.testbit b n), (Z.testbit (Z.ones 64) n). }
    rewrite Hx. apply E.
Qed.

Lemma binary_yields k a b : word a = true -> word b = true -> plain_kind k = true -> isBinary k = true -> isCmp k = false ->
  yields (eval_binary k a b) (arith k (SVal.get a) (SVal.get b)).
Proof.
  intros Ha Hb Hp Hi Hc. pose proof Ha as Ha'. pose proof Hb as Hb'. apply word_spec in Ha', Hb'.
  destruct (land_word _ _ Ha' Hb') as (H1 & H2 & H3). unfold in_word in Ha', Hb'.
  destruct k; try done; unfold eval_binary, arith, SVal.get.
  1-3: eexists; split_and!; [done|done|apply binop_word].
  - unfold SVal.div. destruct (Z.eqb_spec (SVal.value b) 0) as [E|Hne]; [done|]. cbn.
    eexists; split_and!; [done| |apply binop_word]. cbn. apply wrap_small. unfold in_word. split; [apply Z.div_pos; lia|].
    apply Z.div_lt_upper_bound; nia.
  - eexists; split_and!; [done|by apply wrap_small|apply binop_word].
  - eexists; split_and!; [done|by apply wrap_small|apply binop_word].
  - eexists; split_and!; [done|by apply wrap_small|apply binop_word].
  - unfold SVal.shl, SVal.width. destruct (Z.ltb_spec (SVal.value b) 64) as [Hlt|]; [|done]. cbn.
    eexists; split_and!; [done| |apply binop_word]. cbn. by rewrite Z.shiftl_mul_pow2 by lia.
  - unfold SVal.shr, SVal.width. destruct (Z.ltb_spec (SVal.value b) 64) as [Hlt|]; [|done]. cbn.
    eexists; split_and!; [done| |apply binop_word]. cbn. rewrite Z.shiftr_div_pow2 by lia. apply wrap_small.
    unfold in_word. split; [apply Z.div_pos; lia|]. apply Z.div_lt_upper_bound; [lia|]. pose proof (Z.pow_pos_nonneg 2 (SVal.value b)). nia.
Qed.

(** The outcome of an evaluation. *)
Definition evaluates (v : env) e (z : option Z) : Prop := forall u,
  match z with
  | Some z => exists c u', eval v e u = Ok (c, u') /\ SVal.get c = z /\ word c = true
  | None => eval v e u = Abort Undefined
  end.

Lemma all_evaluates v rho w kids : Forall (fun x => evaluates v x (denote rho x)) kids ->
  evaluates v (ENode Conjunction w kids) (denote rho (ENode Conjunction w kids)).
Proof.
  induction 1 as [|x kids Hx _ IH]; intros u; cbn; [by exists (truth true), u|]. specialize (Hx u).
  destruct (denote rho x) as [z|]; cbn; [|by rewrite Hx]. destruct Hx as (c & u' & -> & Hz & Hw). cbn.
  change (SVal.getBool c) with (negb (SVal.get c =? 0)). rewrite Hz. destruct (z =? 0); cbn; [|apply IH].
  by exists (truth false), u'.
Qed.
Lemma any_evaluates v rho w kids : Forall (fun x => evaluates v x (denote rho x)) kids ->
  evaluates v (ENode Disjunction w kids) (denote rho (ENode Disjunction w kids)).
Proof.
  induction 1 as [|x kids Hx _ IH]; intros u; cbn; [by exists (truth false), u|]. specialize (Hx u).
  destruct (denote rho x) as [z|]; cbn; [|by rewrite Hx]. destruct Hx as (c & u' & -> & Hz & Hw). cbn.
  change (SVal.getBool c) with (negb (SVal.get c =? 0)). rewrite Hz. destruct (z =? 0); cbn; [apply IH|].
  by exists (truth true), u'.
Qed.

(** The node of a binary operation. *)
Lemma eval_two v k w l r u : isBinary k = true -> visited k = true ->
  eval v (ENode k w [l; r]) u = ('(a, u) ← eval v l u; '(b, u) ← eval v r u; x ← eval_binop k a b; Ok (x, u)).
Proof. by destruct k. Qed.
Lemma denote_two rho k w l r : isBinary k = true -> visited k = true ->
  denote rho (ENode k w [l; r]) = (a ← denote rho l; b ← denote rho r;
    match relation k a b with Some c => Some (if c then 1 else 0) | None => arith k a b end).
Proof. by destruct k. Qed.

Lemma two_evaluates v rho k w l r : isBinary k = true -> visited k = true -> plain_kind k = true ->
  evaluates v l (denote rho l) -> evaluates v r (denote rho r) ->
  evaluates v (ENode k w [l; r]) (denote rho (ENode k w [l; r])).
Proof.
  intros Hb Hv Hp Hl Hr u. rewrite eval_two, denote_two by done. specialize (Hl u).
  destruct (denote rho l) as [a|]; cbn; [|by rewrite Hl]. destruct Hl as (ca & ua & -> & Ha & Hwa). cbn. specialize (Hr ua).
  destruct (denote rho r) as [b|]; cbn; [|by rewrite Hr]. destruct Hr as (cb & ub & -> & Hb' & Hwb). cbn.
  unfold eval_binop. rewrite compare_yields, Ha, Hb' by done. destruct (relation k a b) as [c|] eqn:Er; cbn.
  - exists (truth c), ub. by destruct (truth_word c).
  - assert (Hc : isCmp k = false) by (by destruct k). pose proof (binary_yields k ca cb Hwa Hwb Hp Hb Hc) as Hy.
    rewrite Ha, Hb' in Hy. destruct (arith k a b); cbn in Hy; [|by rewrite Hy]. destruct Hy as (c & -> & Hz & Hw). cbn.
    by exists c, ub.
Qed.

Lemma eval_plain v e : wf e = true -> plain e = true -> (forall x, word (reg_val v x) = true) ->
  evaluates v e (denote (fun x => SVal.get (reg_val v x)) e).
Proof.
  intros Hwf Hpl Hv. set (rho := fun x => _). induction e as [w c|w x n|k w kids IH] using expr_ind.
  - intros u. by exists c, u.
  - intros u. cbn. specialize (Hv x). unfold rho, reg_val in *. destruct (bruteForce v); eexists _, _; done.
  - destruct (wf_node _ _ _ Hwf) as (Hs & _ & Hk). cbn in Hpl. apply andb_true_iff in Hpl as [Hp Hpk].
    assert (HF : Forall (fun x => evaluates v x (denote rho x)) kids).
    { rewrite Forall_forall in IH |- *. rewrite !forallb_forall in Hk, Hpk. intros x Hx. pose proof (proj1 (list_elem_of_In _ _) Hx).
      auto. }
    destruct (decide (k = Conjunction)) as [->|Hc]; [by apply all_evaluates|].
    destruct (decide (k = Disjunction)) as [->|Hd]; [by apply any_evaluates|].
    destruct (decide (k = Select)) as [->|Hsel].
    + destruct kids as [|c [|a [|b [|? ?]]]]; try done. rewrite !Forall_cons in HF. destruct HF as (Ec & Ea & Eb & _). intros u.
      cbn. specialize (Ec u). destruct (denote rho c) as [z|]; cbn; [|by rewrite Ec]. destruct Ec as (cc & u' & -> & Hz & Hw). cbn.
      change (SVal.getBool cc) with (negb (SVal.get cc =? 0)). rewrite Hz. destruct (z =? 0); cbn; [apply Eb|apply Ea].
    + assert (exists l r, kids = [l; r]) as (l & r & ->).
      { destruct k; try done; destruct kids as [|l [|r [|? ?]]]; try done; eauto. }
      rewrite !Forall_cons in HF. destruct HF as (El & Er & _). apply two_evaluates; try done; by destruct k.
Qed.
End proofs.

(** *** Expressions over other registers *)

(** The value of an evaluation, without the unknown registers. *)
Definition value {A B} (r : res (A * B)) : res A := match r with Ok (a, _) => Ok a | Abort f => Abort f end.

Section two_types.
Context {T U : Type} `{EqDecision T, !TotalOrd T, EqDecision U, !TotalOrd U}.

Definition same_value (v : @env T) (v' : @env U) (x : t T) (y : t U) : Prop :=
  forall u u', value (eval v x u) = value (eval v' y u').

(** Two evaluations with the same value go on the same way. *)
Lemma value_cases v v' (x : t T) (y : t U) u u' : same_value v v' x y ->
  (exists c w w', eval v x u = Ok (c, w) /\ eval v' y u' = Ok (c, w')) \/
  (exists f, eval v x u = Abort f /\ eval v' y u' = Abort f).
Proof.
  intros H. specialize (H u u'). destruct (eval v x u) as [[c w]|f], (eval v' y u') as [[c' w']|f']; cbn in H; simplify_eq;
    [left; eauto|right; eauto].
Qed.

Lemma value_node_ext v v' k w w' (kids : list (t T)) (kids' : list (t U)) : Forall2 (same_value v v') kids kids' ->
  same_value v v' (ENode k w kids) (ENode k w' kids').
Proof.
  intros H. assert (Hall : same_value v v' (ENode Conjunction w kids) (ENode Conjunction w' kids')).
  { induction H as [|x y kids kids' Hx _ IH]; intros u u'; [done|]. cbn.
    destruct (value_cases v v' x y u u' Hx) as [(c & u1 & u2 & -> & ->)|(f & -> & ->)]; [|done]. cbn.
    destruct (SVal.getBool c); [apply IH|done]. }
  assert (Hany : same_value v v' (ENode Disjunction w kids) (ENode Disjunction w' kids')).
  { clear Hall. induction H as [|x y kids kids' Hx _ IH]; intros u u'; [done|]. cbn.
    destruct (value_cases v v' x y u u' Hx) as [(c & u1 & u2 & -> & ->)|(f & -> & ->)]; [|done]. cbn.
    destruct (SVal.getBool c); [done|apply IH]. }
  intros u u'. destruct k; try apply Hall; try apply Hany; try done; clear Hall Hany;
    destruct H as [|x y kids kids' Hx [|x2 y2 kids2 kids2' Hx2 Hr]]; try done; try (apply Hx);
    try (destruct Hr as [|x3 y3 kids3 kids3' Hx3 Hr]); try done; cbn -[eval_binop];
    destruct (value_cases v v' x y u u' Hx) as [(c & u1 & u2 & -> & ->)|(f & -> & ->)]; try done; cbn -[eval_binop];
    try (destruct (SVal.getBool c); [apply Hx2|apply Hx3]);
    destruct (value_cases v v' x2 y2 u1 u2 Hx2) as [(d & u3 & u4 & -> & ->)|(f & -> & ->)]; try done; cbn -[eval_binop];
    match goal with |- context [eval_binop ?k c d] => by destruct (eval_binop k c d) end.
Qed.

Lemma transform_node_ok k w (kids : list (t U)) : shape k (length kids) = true -> forallb wf kids = true ->
  (boolean k = true -> w = BoolWidth) ->
  exists e', transform_node k w kids = Ok e' /\ wf e' = true /\
    (if isCast k then kids = [e'] else e' = ENode k w kids).
Proof.
  intros Hs Hk Hb. destruct k; try done; destruct kids as [|a [|b [|c [|d kids]]]]; try done; cbn in *;
    try (rewrite Hb by done); (eexists; split; [done|]); cbn; rewrite ?Hk; try done; rewrite andb_true_r in Hk; done.
Qed.

Lemma transform_spec (f : T -> U) (v : @env T) (v' : @env U) (e : t T) : wf e = true ->
  bruteForce v' = bruteForce v -> val v' = val v -> (forall x, valueMapping v x = valueMapping v' (f x)) ->
  exists e', transform f e = Ok e' /\ wf e' = true /\ same_value v v' e e'.
Proof.
  intros Hwf Hb Hv Hm. induction e as [w c|w x n|k w kids IH] using expr_ind.
  - by exists (EConcrete w c).
  - exists (ERegister w (f x) n). split_and!; try done. intros u u'. cbn. unfold getMappingFor. rewrite Hb, Hv, Hm.
    by destruct (bruteForce v).
  - destruct (wf_node _ _ _ Hwf) as (Hs & Hbw & Hk).
    destruct (traverse_kids (transform f) (fun x y => wf y = true /\ same_value v v' x y) wf kids) as (l' & E & H2); [|done|].
    { eapply Forall_impl; [exact IH|]. intros x Hx Hwx. destruct (Hx Hwx) as (y & ? & ? & ?). eauto. }
    assert (Hlen : length l' = length kids) by (symmetry; by eapply Forall2_length).
    assert (Hk' : forallb wf l' = true).
    { clear -H2. induction H2 as [|x y l l' [Hy _] _ IH]; [done|]. cbn. by rewrite Hy. }
    assert (Hev : Forall2 (same_value v v') kids l') by (eapply Forall2_impl; [exact H2|]; naive_solver).
    rewrite <- Hlen in Hs. destruct (transform_node_ok k w l' Hs Hk' Hbw) as (e' & Et & Hwe & He).
    exists e'. split_and!; [cbn -[traverse]; by rewrite E|done|].
    destruct (isCast k) eqn:Ec; [|rewrite He; by apply value_node_ext].
    subst l'. inversion Hev as [|x ? kids0 ? Hx Hnil]; subst. inversion Hnil; subst. intros u u'.
    rewrite <- (Hx u u'). by destruct k.
Qed.
End two_types.

(** ** Theorems *)

(** The dispatch of the visitors.  Every kind an expression can have reaches the
    evaluator's and the transformer's own method for it, so that their generic
    method, which traps, is never reached; the printer has no methods for casts and
    handles them as casts; the substitutor and the concretizer handle every node in
    their generic method; the markers and the unimplemented kinds trap. *)
Theorem dispatch_correct (k : Kind) :
  (visited k = true ->
   dispatch evaluator_overrides k = Ok (Some (VKind k)) /\
   dispatch printer_overrides k = Ok (Some (if isCast k then VCast else VKind k)) /\
   dispatch rewriter_overrides k = Ok (Some VSExpr)) /\
  (visited k = false -> forall o, dispatch o k = Abort Unreachable).
Proof. by destruct k. Qed.

Section theorems.
Context {T : Type} `{EqDecision T, !TotalOrd T}.
Implicit Types e : t T.

(** [clone] of an expression returns a well-formed expression with the same value
    in every evaluation; cloning again changes nothing, and an expression whose
    arithmetic nodes are as wide as their left operand is copied exactly. *)
Theorem clone_correct e : wf e = true ->
  exists e', clone e = Ok e' /\ wf e' = true /\ (forall v u, eval v e' u = eval v e u) /\
    clone e' = Ok e' /\ (canonical e = true -> e' = e).
Proof.
  intros Hwf. destruct (clone_spec e Hwf) as (e' & E & Hwf' & Hev & _). exists e'. split_and!; try done.
  - intros v u. symmetry. apply Hev.
  - apply clone_id; [done|]. by apply (clone_canonical e).
  - intros Hc. pose proof (clone_id e Hwf Hc). congruence.
Qed.

(** C40: on expressions built from constants, registers, selection, conjunction and
    disjunction, comparisons, and the arithmetic of unsigned words, the evaluator
    returns the value of the reference semantics on integers, with the registers
    that have no mapping standing for 42, and meets undefined behaviour exactly where
    the semantics has no value (a division by zero or a shift by 64 or more that
    short-circuiting does not skip). *)
Theorem evaluator_correct v e u : wf e = true -> plain e = true -> (forall x, word (reg_val v x) = true) ->
  match denote (fun x => SVal.get (reg_val v x)) e with
  | Some z => exists c u', eval v e u = Ok (c, u') /\ SVal.get c = z
  | None => eval v e u = Abort Undefined
  end.
Proof.
  intros Hwf Hp Hv. pose proof (eval_plain v e Hwf Hp Hv u) as H. destruct (denote _ e); [|done].
  destruct H as (c & u' & ? & ? & _). eauto.
Qed.

(** The same evaluation with another value for one register. *)
Definition with_reg (v : env) (reg : T) (c : SVal.t) : env :=
  {| bruteForce := false; val := val v;
     valueMapping := fun x => if decide (x = reg) then Some c else valueMapping v x |}.

(** substitution is semantic.  Replacing a register by an expression with a known
    value returns an expression that evaluates, in every mapping, as the original
    does with the register mapped to that value. *)
Theorem substitute_correct v e reg r c : wf e = true -> wf r = true -> bruteForce v = false ->
  (forall u, eval v r u = Ok (c, u)) ->
  exists e', substitute e reg r = Ok e' /\ wf e' = true /\ forall u, eval v e' u = eval (with_reg v reg c) e u.
Proof.
  intros He Hr Hb Hc. destruct (clone_spec e He) as (e0 & E0 & Hw0 & Hev0 & Hreg0).
  destruct (clone_spec r Hr) as (r' & Er & Hwr & Hevr & _). unfold substitute. rewrite E0. cbn -[clone replace_kids].
  assert (Hf : forall w x n, exists o, subst_with reg r x = Ok o /\ (forall y, o = Some y -> wf y = true) /\
     same_eval (with_reg v reg c) v (ERegister w x n) (default (ERegister w x n) o)).
  { intros w x n. unfold subst_with. destruct (decide (x = reg)) as [->|Hne].
    - rewrite Er. exists (Some r'). split; [done|]. split; [by intros y [= <-]|]. intros u. cbn. rewrite <- Hevr, Hc.
      unfold getMappingFor, hasKnownMapping, with_reg. cbn. by rewrite decide_True.
    - exists None. split; [done|]. split; [done|]. intros u. cbn. rewrite Hb. unfold getMappingFor, hasKnownMapping, with_reg. cbn.
      by rewrite decide_False. }
  destruct (replace_spec (subst_with reg r) v (with_reg v reg c) e0 Hw0 Hf) as (e1 & E1 & Hw1 & Hev1 & _).
  destruct e0 as [w0 c0|w x n|k w kids].
  - exists e1. split_and!; try done. intros u. by rewrite <- Hev1, Hev0.
  - destruct (Hf w x n) as (o & Eo & _ & Hso). destruct (decide (x = reg)) as [->|Hne].
    + exists r'. split_and!; try done. intros u. unfold subst_with in Eo. rewrite decide_True, Er in Eo by done.
      injection Eo as <-. rewrite (Hev0 _ u). symmetry. apply Hso.
    + exists e1. split_and!; try done. intros u. injection E1 as <-. unfold subst_with in Eo. rewrite decide_False in Eo by done.
      injection Eo as <-. rewrite (Hev0 _ u). symmetry. apply Hso.
  - exists e1. split_and!; try done. intros u. by rewrite <- Hev1, Hev0.
Qed.

(** The same evaluation with the values of a replacement map. *)
Definition with_map (v : env) (m : T -> option (SVal.t * Z)) : env :=
  {| bruteForce := false; val := val v;
     valueMapping := fun x => match m x with Some p => Some (fst p) | None => valueMapping v x end |}.

(** Concretization is semantic.  Replacing registers by the constants of a map
    returns an expression that evaluates, in every mapping, as the original does with
    those registers mapped to the values of the map. *)
Theorem concretize_correct v e m : wf e = true -> bruteForce v = false ->
  exists e', concretize e m = Ok e' /\ wf e' = true /\ forall u, eval v e' u = eval (with_map v m) e u.
Proof.
  intros He Hb. destruct (clone_spec e He) as (e0 & E0 & Hw0 & Hev0 & Hreg0). unfold concretize. rewrite E0.
  cbn -[clone replace_kids].
  assert (Hf : forall w x n, exists o, concrete_with m x = Ok o /\ (forall y, o = Some y -> wf y = true) /\
     same_eval (with_map v m) v (ERegister w x n) (default (ERegister w x n) o)).
  { intros w x n. unfold concrete_with. eexists. split; [done|]. split.
    - intros y. destruct (m x) as [[c s]|]; cbn; [by intros [= <-]|done].
    - intros u. cbn. unfold getMappingFor, hasKnownMapping, with_map. cbn.
      destruct (m x) as [[c s]|]; cbn; [done|]. by rewrite Hb. }
  destruct (replace_spec (concrete_with m) v (with_map v m) e0 Hw0 Hf) as (e1 & E1 & Hw1 & Hev1 & _).
  destruct e0 as [w0 c0|w x n|k w kids].
  - exists e1. split_and!; try done. intros u. by rewrite <- Hev1, Hev0.
  - destruct (Hf w x n) as (o & Eo & _ & Hso). unfold concrete_with in Eo. injection Eo as <-.
    destruct (m x) as [[c s]|] eqn:Em.
    + eexists. split_and!; try done. intros u. rewrite (Hev0 _ u). symmetry. apply Hso.
    + exists e1. split_and!; try done. intros u. injection E1 as <-. rewrite (Hev0 _ u). symmetry. apply Hso.
  - exists e1. split_and!; try done. intros u. by rewrite <- Hev1, Hev0.
Qed.
End theorems.


(** the transformer renames registers and keeps the meaning: it returns a
    well-formed expression whose value, by brute force or in any mapping of the new
    registers, is that of the original under the mapping composed with the renaming.
    (Casts are dropped, which the evaluator does not see.) *)
Theorem transform_correct {T U : Type} `{EqDecision T, !TotalOrd T, EqDecision U, !TotalOrd U}
    (f : T -> U) (v : @env T) (v' : @env U) (e : t T) : wf e = true ->
  bruteForce v' = bruteForce v -> val v' = val v -> (forall x, valueMapping v x = valueMapping v' (f x)) ->
  exists e', transform f e = Ok e' /\ wf e' = true /\ forall u u', value (eval v' e' u') = value (eval v e u).
Proof.
  intros Hwf Hb Hv Hm. destruct (transform_spec f v v' e Hwf Hb Hv Hm) as (e' & E & Hwe & Hs).
  exists e'. split_and!; [done..|]. intros u u'. symmetry. apply Hs.
Qed.

(** ** Examples *)

(** [(r0 + 3) * r1 == 10 || r0 <u 5], over numbered registers. *)
Definition sample : t Z :=
  ENode Disjunction 1
    [ENode Eq 1 [ENode Mul 32 [ENode Add 32 [ERegister 32 0 "r0"; EConcrete 32 (SVal.ofValue 3)]; ERegister 32 1 "r1"];
                 EConcrete 32 (SVal.ofValue 10)];
     ENode Ult 1 [ERegister 32 0 "r0"; EConcrete 32 (SVal.ofValue 5)]].
Definition sample_env : @env Z :=
  {| bruteForce := false; val := SVal.ofValue 0;
     valueMapping := fun x => if x =? 0 then Some (SVal.ofValue 7) else None |}.

Lemma clone_correct_witness : exists e', clone sample = Ok e' /\ e' = sample.
Proof.
  destruct (clone_correct sample eq_refl) as (e' & E & _ & _ & _ & Hc). exists e'. split; [done|]. by apply Hc.
Defined.
Lemma evaluator_correct_witness : exists c u, eval sample_env sample [] = Ok (c, u) /\ SVal.get c = 0.
Proof.
  apply (evaluator_correct sample_env sample []); [reflexivity..|]. intros x. unfold reg_val, getMappingFor. cbn.
  destruct (x =? 0); reflexivity.
Defined.
Lemma substitute_correct_witness : exists e', substitute sample 1 (EConcrete 32 (SVal.ofValue 1)) = Ok e' /\
  forall u, eval sample_env e' u = eval (with_reg sample_env 1 (SVal.ofValue 1)) sample u.
Proof.
  destruct (substitute_correct sample_env sample 1 (EConcrete 32 (SVal.ofValue 1)) (SVal.ofValue 1)) as (e' & E & _ & H);
    [reflexivity..|]. by exists e'.
Defined.
Lemma concretize_correct_witness : exists e', concretize sample (fun x => Some (SVal.ofValue x, 4)) = Ok e' /\
  forall u, eval sample_env e' u = eval (with_map sample_env (fun x => Some (SVal.ofValue x, 4))) sample u.
Proof.
  destruct (concretize_correct sample_env sample (fun x => Some (SVal.ofValue x, 4))) as (e' & E & _ & H); [reflexivity..|].
  by exists e'.
Defined.
Lemma transform_correct_witness : exists e', transform (fun x => x + 5) sample = Ok e' /\
  value (eval {| bruteForce := true; val := SVal.ofValue 2; valueMapping := fun _ : Z => None |} e' []) =
  value (eval {| bruteForce := true; val := SVal.ofValue 2; valueMapping := fun _ : Z => None |} sample []).
Proof.
  destruct (transform_correct (fun x => x + 5) {| bruteForce := true; val := SVal.ofValue 2; valueMapping := fun _ : Z => None |}
    {| bruteForce := true; val := SVal.ofValue 2; valueMapping := fun _ : Z => None |} sample) as (e' & E & _ & H); [done..|].
  exists e'. split; [done|]. apply H.
Defined.

(** Outside that fragment the evaluator does not compute the operation it is named
    after: a negation is always false, a remainder is a quotient, signed division and
    the arithmetic shift are unsigned, and extensions and truncations do nothing. *)
Definition const (z : Z) : t Z := EConcrete 64 (SVal.ofValue z).
Definition closed_value (e : t Z) : res Z := r ← eval sample_env e []; Ok (SVal.get (fst r)).
Lemma evaluator_flaws :
  closed_value (mkNot (const 0)) = Ok 0 /\
  closed_value (mkBinary URem (const 7) (const 2)) = Ok 3 /\
  closed_value (mkBinary SDiv (const (2 ^ 64 - 4)) (const 2)) = Ok (2 ^ 63 - 2) /\
  closed_value (mkBinary AShr (const (2 ^ 64 - 4)) (const 1)) = Ok (2 ^ 63 - 2) /\
  closed_value (mkCast Trunc 8 (const 257)) = Ok 257 /\
  closed_value (mkCast SExt 64 (EConcrete 8 (SVal.ofValue 255))) = Ok 255.
Proof. by vm_compute. Qed.

(** A mapping evaluation reports unknown registers of an earlier one. *)
Lemma unknown_is_stale :
  (p ← evaluate_map (ERegister 32 9 "r9") (fun _ => None) SVal.default [];
   q ← evaluate_map (const 1) (fun _ => None) SVal.default (snd p); Ok (snd (fst q))) = Ok 1%nat.
Proof. by vm_compute. Qed.

(** [clone] forgets an explicit width, which the transformer gives every node, and a
    logical right shift is printed as a left one. *)
Lemma clone_drops_width : clone (mkBinaryW Add 8 (const 1) (const 2)) = Ok (mkBinaryW Add 64 (const 1) (const 2)).
Proof. done. Qed.
Lemma lshr_prints_left : print (mkBinary LShr (const 1) (const 2)) = Ok "1 <<a 2"%string.
Proof. by vm_compute. Qed.
Lemma transform_drops_cast : transform (fun x => x) (mkCast Trunc 8 (const 257)) = Ok (const 257).
Proof. done. Qed.

End SExpr.
