(* ===== verification/Labels.v ===== *)
(** * Event labels

    Models Execution/EventLabel.def, EventLabel.hpp and EventLabel.cpp (the part that
    does not need the graph), EventAttr.hpp, DepInfo.hpp and LabelVisitor.hpp.  The
    C++ hierarchy discriminates on an enumeration generated from EventLabel.def, in
    which every class is a contiguous range; [classof] tests the range. *)

From S2P Require Import Prelude Values Addresses Events VSet SymExpr.

(** ** Kinds and classes (EventLabel.def) *)
Module Kind.

(** The enumerators, in the order of EventLabel.def. *)
Inductive t :=
  | ThreadStart | Init | SpinloopBlock | FaiZNEBlock | LockZNEBlock | HelpedCASBlock
  | ConfirmationBlock | BarrierBlock | ErrorBlock | UserBlock | JoinBlock | ReadOptBlock
  | ThreadKill | ThreadFinish | Read | BWaitRead | SpeculativeRead | ConfirmingRead
  | CondVarWaitRead | CasRead | LockCasRead | AbstractLockCasRead | TrylockCasRead
  | HelpedCasRead | ConfirmingCasRead | FaiRead | NoRetFaiRead | BIncFaiRead | Write
  | CondVarInitWrite | CondVarSignalWrite | CondVarBcastWrite | CondVarDestroyWrite
  | UnlockWrite | AbstractUnlockWrite | CasWrite | LockCasWrite | AbstractLockCasWrite
  | TrylockCasWrite | HelpedCasWrite | ConfirmingCasWrite | FaiWrite | NoRetFaiWrite
  | BIncFaiWrite | Malloc | Free | HpRetire | Fence | ThreadCreate | ThreadJoin | HpProtect
  | HelpingCas | Optional | LoopBegin | SpinStart | FaiZNESpinEnd | LockZNESpinEnd | Empty
  | MethodBegin | MethodEnd | Output | Error.

#[global] Instance eq_dec : EqDecision t.
Proof. solve_decision. Defined.

(** The value of an enumerator. *)
Definition code (k : t) : nat :=
  match k with
  | ThreadStart => 0 | Init => 1 | SpinloopBlock => 2 | FaiZNEBlock => 3 | LockZNEBlock => 4
  | HelpedCASBlock => 5 | ConfirmationBlock => 6 | BarrierBlock => 7 | ErrorBlock => 8
  | UserBlock => 9 | JoinBlock => 10 | ReadOptBlock => 11 | ThreadKill => 12
  | ThreadFinish => 13 | Read => 14 | BWaitRead => 15 | SpeculativeRead => 16
  | ConfirmingRead => 17 | CondVarWaitRead => 18 | CasRead => 19 | LockCasRead => 20
  | AbstractLockCasRead => 21 | TrylockCasRead => 22 | HelpedCasRead => 23
  | ConfirmingCasRead => 24 | FaiRead => 25 | NoRetFaiRead => 26 | BIncFaiRead => 27
  | Write => 28 | CondVarInitWrite => 29 | CondVarSignalWrite => 30 | CondVarBcastWrite => 31
  | CondVarDestroyWrite => 32 | UnlockWrite => 33 | AbstractUnlockWrite => 34 | CasWrite => 35
  | LockCasWrite => 36 | AbstractLockCasWrite => 37 | TrylockCasWrite => 38
  | HelpedCasWrite => 39 | ConfirmingCasWrite => 40 | FaiWrite => 41 | NoRetFaiWrite => 42
  | BIncFaiWrite => 43 | Malloc => 44 | Free => 45 | HpRetire => 46 | Fence => 47
  | ThreadCreate => 48 | ThreadJoin => 49 | HpProtect => 50 | HelpingCas => 51 | Optional => 52
  | LoopBegin => 53 | SpinStart => 54 | FaiZNESpinEnd => 55 | LockZNESpinEnd => 56
  | Empty => 57 | MethodBegin => 58 | MethodEnd => 59 | Output => 60 | Error => 61
  end.

Definition all : list t :=
  [ThreadStart; Init; SpinloopBlock; FaiZNEBlock; LockZNEBlock; HelpedCASBlock;
   ConfirmationBlock; BarrierBlock; ErrorBlock; UserBlock; JoinBlock; ReadOptBlock; ThreadKill;
   ThreadFinish; Read; BWaitRead; SpeculativeRead; ConfirmingRead; CondVarWaitRead; CasRead;
   LockCasRead; AbstractLockCasRead; TrylockCasRead; HelpedCasRead; ConfirmingCasRead; FaiRead;
   NoRetFaiRead; BIncFaiRead; Write; CondVarInitWrite; CondVarSignalWrite; CondVarBcastWrite;
   CondVarDestroyWrite; UnlockWrite; AbstractUnlockWrite; CasWrite; LockCasWrite;
   AbstractLockCasWrite; TrylockCasWrite; HelpedCasWrite; ConfirmingCasWrite; FaiWrite;
   NoRetFaiWrite; BIncFaiWrite; Malloc; Free; HpRetire; Fence; ThreadCreate; ThreadJoin;
   HpProtect; HelpingCas; Optional; LoopBegin; SpinStart; FaiZNESpinEnd; LockZNESpinEnd; Empty;
   MethodBegin; MethodEnd; Output; Error].

Lemma all_spec k : In k all.
Proof. destruct k; cbn; tauto. Qed.

(** A test on every kind decides a statement about all of them. *)
Lemma forall_kinds (f : t -> bool) : forallb f all = true -> forall k, f k = true.
Proof. intros H k. rewrite forallb_forall in H. apply H, all_spec. Qed.

End Kind.

(** ** Classes: DEFINE_CLASSOF_RANGE and DEFINE_STANDARD_MEMBERS *)
Module Class.
Import Kind.

(** The classes with a FIRST_LABEL/LAST_LABEL pair. *)
Inductive range_class :=
  | CThreadStart | CTerminator | CBlock | CMem | CMemAccess | CRead | CCasRead | CLockCasRead
  | CFaiRead | CWrite | CUnlockWrite | CCasWrite | CLockCasWrite | CFaiWrite | CMemLifecycle
  | CMalloc | CFree | CFence | COther.

#[global] Instance range_class_eq_dec : EqDecision range_class.
Proof. solve_decision. Defined.

(** FIRST_##name and LAST_##name. *)
Definition first_label (c : range_class) : Kind.t :=
  match c with
  | CThreadStart => ThreadStart | CTerminator => SpinloopBlock | CBlock => SpinloopBlock
  | CMem => Read | CMemAccess => Read | CRead => Read | CCasRead => CasRead
  | CLockCasRead => LockCasRead | CFaiRead => FaiRead | CWrite => Write
  | CUnlockWrite => UnlockWrite | CCasWrite => CasWrite | CLockCasWrite => LockCasWrite
  | CFaiWrite => FaiWrite | CMemLifecycle => Malloc | CMalloc => Malloc | CFree => Free
  | CFence => Fence | COther => ThreadCreate
  end.
Definition last_label (c : range_class) : Kind.t :=
  match c with
  | CThreadStart => Init | CTerminator => ThreadFinish | CBlock => ReadOptBlock
  | CMem => HpRetire | CMemAccess => BIncFaiWrite | CRead => BIncFaiRead
  | CCasRead => ConfirmingCasRead | CLockCasRead => AbstractLockCasRead
  | CFaiRead => BIncFaiRead | CWrite => BIncFaiWrite | CUnlockWrite => AbstractUnlockWrite
  | CCasWrite => ConfirmingCasWrite | CLockCasWrite => AbstractLockCasWrite
  | CFaiWrite => BIncFaiWrite | CMemLifecycle => HpRetire | CMalloc => Malloc
  | CFree => HpRetire | CFence => Fence | COther => Error
  end.

(** [classofKind] of a range. *)
Definition classofKind (c : range_class) (k : Kind.t) : bool :=
  (code (first_label c) <=? code k) && (code k <=? code (last_label c)).

Definition isRead := classofKind CRead.
Definition isWrite := classofKind CWrite.
Definition isMemAccess := classofKind CMemAccess.
Definition isMem := classofKind CMem.
Definition isFree := classofKind CFree.
Definition isBlock := classofKind CBlock.
Definition isThreadStart := classofKind CThreadStart.
(** A class that is one kind. *)
Definition isKind (k' k : Kind.t) : bool := bool_decide (k = k').

(** The static predicates of EventLabel and ReadLabel. *)
Definition isDependable (k : Kind.t) : bool := isRead k || isKind Malloc k || isKind Optional k.
Definition returnsValue (k : Kind.t) : bool :=
  isThreadStart k || isRead k || isKind ThreadJoin k || isKind Optional k.
Definition accessesValue (k : Kind.t) : bool := isKind Init k || isMemAccess k.
Definition hasLocation (k : Kind.t) : bool := isMemAccess k.
Definition isConfirming (k : Kind.t) : bool := isKind ConfirmingRead k || isKind ConfirmingCasRead k.
(** [WriteLabel::isRMW]. *)
Definition isRMWWrite (k : Kind.t) : bool := classofKind CCasWrite k || classofKind CFaiWrite k.
Definition isRMWReadKind (k : Kind.t) : bool := classofKind CCasRead k || classofKind CFaiRead k.

(** The superclass of a class, as the C++ declarations have it
    ([class CasReadLabel : public ReadLabel] and so on). *)
Definition super (c : range_class) : option range_class :=
  match c with
  | CBlock => Some CTerminator
  | CMemAccess => Some CMem
  | CRead => Some CMemAccess
  | CCasRead => Some CRead
  | CLockCasRead => Some CCasRead
  | CFaiRead => Some CRead
  | CWrite => Some CMemAccess
  | CUnlockWrite => Some CWrite
  | CCasWrite => Some CWrite
  | CLockCasWrite => Some CCasWrite
  | CFaiWrite => Some CWrite
  | CMemLifecycle => Some CMem
  | CMalloc => Some CMemLifecycle
  | CFree => Some CMemLifecycle
  | CThreadStart | CTerminator | CMem | CFence | COther => None
  end.

(** The chain of superclasses, itself included. *)
Fixpoint ancestors (fuel : nat) (c : range_class) : list range_class :=
  match fuel with
  | 0 => []
  | S fuel => c :: match super c with Some c' => ancestors fuel c' | None => [] end
  end.
Definition all_ranges : list range_class :=
  [CThreadStart; CTerminator; CBlock; CMem; CMemAccess; CRead; CCasRead; CLockCasRead;
   CFaiRead; CWrite; CUnlockWrite; CCasWrite; CLockCasWrite; CFaiWrite; CMemLifecycle; CMalloc;
   CFree; CFence; COther].

(** the ranges of EventLabel.def implement the class hierarchy.  A cast
    to a class succeeds exactly when the cast to its superclass does not fail
    first; two classes share a kind only when one derives from the other; every
    range is non-empty; and every kind belongs to exactly one of the five
    top-level classes. *)
Theorem ranges_are_hierarchy :
  (forall c c' k, super c = Some c' -> classofKind c k = true -> classofKind c' k = true) /\
  (forall c c', (exists k, classofKind c k = true /\ classofKind c' k = true) <->
     c ∈ ancestors 5 c' \/ c' ∈ ancestors 5 c) /\
  (forall c, code (first_label c) <= code (last_label c)) /\
  (forall k, exists! c, super c = None /\ classofKind c k = true).
Proof.
  split_and!.
  - intros c c' k E. revert k. destruct c; injection E as <- || discriminate E;
      intros []; vm_compute; congruence.
  - intros c c'.
    assert (bool_decide (Exists (fun k => classofKind c k && classofKind c' k = true) all) =
      bool_decide (c ∈ ancestors 5 c' \/ c' ∈ ancestors 5 c)) as E.
    { destruct c, c'; vm_compute; reflexivity. }
    rewrite <- (bool_decide_eq_true (_ \/ _)), <- E, bool_decide_eq_true, Exists_exists. split.
    + intros (k & H1 & H2). exists k. rewrite H1, H2. split; [|done]. apply list_elem_of_In, all_spec.
    + intros (k & _ & [H1 H2]%andb_true_iff). eauto.
  - intros []; vm_compute; lia.
  - intros k. destruct k;
      (first [exists CThreadStart; split; [done|]; intros [] [? H]; vm_compute in H; done
             |exists CTerminator; split; [done|]; intros [] [? H]; vm_compute in H; done
             |exists CMem; split; [done|]; intros [] [? H]; vm_compute in H; done
             |exists CFence; split; [done|]; intros [] [? H]; vm_compute in H; done
             |exists COther; split; [done|]; intros [] [? H]; vm_compute in H; done]).
Qed.

End Class.

(** ** The visitor (LabelVisitor.hpp) *)
Module LabelVisitor.
Import Kind Class.

(** The handlers: one per kind, and those of the two abstract classes and of
    [EventLabel]. *)
Inductive handler := HKind (k : Kind.t) | HMemAccess | HBlock | HEvent.

#[global] Instance handler_eq_dec : EqDecision handler.
Proof. solve_decision. Defined.

(** The default body of every handler: [DELEGATE_LABEL(...)], or nothing for
    [visitEventLabel]. *)
Definition delegate (h : handler) : option handler :=
  match h with
  | HKind ThreadStart | HKind ThreadKill | HKind ThreadFinish | HKind Fence | HKind Malloc |
      HKind Free | HKind ThreadCreate | HKind ThreadJoin | HKind HpProtect | HKind HelpingCas |
      HKind Optional | HKind LoopBegin | HKind SpinStart | HKind FaiZNESpinEnd |
      HKind LockZNESpinEnd | HKind Empty | HKind MethodBegin | HKind MethodEnd | HKind Output |
      HKind Error | HMemAccess | HBlock => Some HEvent
  | HKind Init => Some (HKind ThreadStart)
  | HKind SpinloopBlock | HKind FaiZNEBlock | HKind LockZNEBlock | HKind HelpedCASBlock |
      HKind ConfirmationBlock | HKind BarrierBlock | HKind ErrorBlock | HKind UserBlock |
      HKind JoinBlock | HKind ReadOptBlock => Some HBlock
  | HKind Read | HKind Write => Some HMemAccess
  | HKind BWaitRead | HKind CondVarWaitRead | HKind SpeculativeRead | HKind ConfirmingRead |
      HKind CasRead | HKind FaiRead => Some (HKind Read)
  | HKind LockCasRead | HKind TrylockCasRead | HKind HelpedCasRead |
      HKind ConfirmingCasRead => Some (HKind CasRead)
  | HKind AbstractLockCasRead => Some (HKind LockCasRead)
  | HKind NoRetFaiRead | HKind BIncFaiRead => Some (HKind FaiRead)
  | HKind UnlockWrite | HKind CondVarInitWrite | HKind CondVarSignalWrite |
      HKind CondVarBcastWrite | HKind CondVarDestroyWrite | HKind CasWrite |
      HKind FaiWrite => Some (HKind Write)
  | HKind AbstractUnlockWrite => Some (HKind UnlockWrite)
  | HKind LockCasWrite | HKind TrylockCasWrite | HKind HelpedCasWrite |
      HKind ConfirmingCasWrite => Some (HKind CasWrite)
  | HKind AbstractLockCasWrite => Some (HKind LockCasWrite)
  | HKind NoRetFaiWrite | HKind BIncFaiWrite => Some (HKind FaiWrite)
  | HKind HpRetire => Some (HKind Free)
  | HEvent => None
  end.

(** [visit]: the switch of [visit] enters at the handler of the kind; a handler the
    subclass overrides is final, the others delegate.  The fuel bounds the depth
    of the hierarchy. *)
Fixpoint run (fuel : nat) (overrides : handler -> bool) (h : handler) : res (option handler) :=
  if overrides h then Ok (Some h)
  else match fuel, delegate h with
       | _, None => Ok None
       | 0, Some _ => Abort OutOfFuel
       | S fuel, Some h' => run fuel overrides h'
       end.
Definition visit (overrides : handler -> bool) (k : Kind.t) : res (option handler) :=
  run 6 overrides (HKind k).

(** The handlers that stand for a class: the kind that gives a class its name, or
    an abstract class. *)
Definition handler_class (h : handler) : option (Kind.t -> bool) :=
  match h with
  | HKind ThreadStart => Some (classofKind CThreadStart)
  | HKind Read => Some (classofKind CRead)
  | HKind CasRead => Some (classofKind CCasRead)
  | HKind LockCasRead => Some (classofKind CLockCasRead)
  | HKind FaiRead => Some (classofKind CFaiRead)
  | HKind Write => Some (classofKind CWrite)
  | HKind UnlockWrite => Some (classofKind CUnlockWrite)
  | HKind CasWrite => Some (classofKind CCasWrite)
  | HKind LockCasWrite => Some (classofKind CLockCasWrite)
  | HKind FaiWrite => Some (classofKind CFaiWrite)
  | HKind Free => Some (classofKind CFree)
  | HKind k => Some (isKind k)
  | HMemAccess => Some (classofKind CMemAccess)
  | HBlock => Some (classofKind CBlock)
  | HEvent => Some (fun _ => true)
  end.

(** the hand-written delegation of the visitor agrees with the ranges of
    EventLabel.def.  A subclass that overrides a single handler is called for
    exactly the kinds of that handler's class, and a subclass that overrides
    nothing is called for none. *)
Theorem visit_agrees_with_classes :
  (forall h k, visit (fun h' => bool_decide (h' = h)) k =
     Ok (if default (fun _ => false) (handler_class h) k then Some h else None)) /\
  (forall k, visit (fun _ => false) k = Ok None).
Proof.
  split; [|intros []; reflexivity].
  intros [k'| | |] k; [destruct k'; destruct k; vm_compute; reflexivity|destruct k; vm_compute; reflexivity..].
Qed.

End LabelVisitor.

(** ** Names of kinds (the formatter of EventLabelKind) *)
Module KindPrinter.
Import Kind.

(** [None] is the default branch: "UNKNOWN", and a trap in debug builds. *)
Definition str (k : Kind.t) : option string :=
  match k with
  | ThreadStart => Some "THREAD_START"
  | Init => Some "INIT"
  | SpinloopBlock => Some "BLOCK[spinloop]"
  | FaiZNEBlock => Some "BLOCK[Fai-zne]"
  | LockZNEBlock => Some "BLOCK[Lock-zne]"
  | HelpedCASBlock => Some "BLOCK[helped-cas]"
  | ConfirmationBlock => Some "BLOCK[conf]"
  | BarrierBlock => Some "BLOCK[barrier]"
  | ErrorBlock => Some "BLOCK[error]"
  | UserBlock => Some "BLOCK[user]"
  | JoinBlock => Some "BLOCK[join]"
  | ReadOptBlock => Some "BLOCK[read-opt]"
  | ThreadKill => Some "KILL"
  | ThreadFinish => Some "THREAD_END"
  | Read | BWaitRead | SpeculativeRead | ConfirmingRead | CondVarWaitRead => Some "R"
  | CasRead | LockCasRead | AbstractLockCasRead | TrylockCasRead | HelpedCasRead |
      ConfirmingCasRead => Some "CR"
  | FaiRead | NoRetFaiRead | BIncFaiRead => Some "UR"
  | Write | CondVarInitWrite | CondVarSignalWrite | CondVarBcastWrite | CondVarDestroyWrite |
      UnlockWrite => Some "W"
  | CasWrite | LockCasWrite | AbstractLockCasWrite | TrylockCasWrite | HelpedCasWrite |
      ConfirmingCasWrite => Some "CW"
  | FaiWrite | NoRetFaiWrite | BIncFaiWrite => Some "UW"
  | Malloc => Some "MALLOC"
  | Free => Some "FREE"
  | HpRetire => Some "HP_RETIRE"
  | Fence => Some "F"
  | ThreadCreate => Some "THREAD_CREATE"
  | ThreadJoin => Some "THREAD_JOIN"
  | HpProtect => Some "HP_PROTECT"
  | HelpingCas => Some "HELPING_CAS"
  | Optional => Some "OPTIONAL"
  | LoopBegin => Some "LOOP_BEGIN"
  | SpinStart => Some "SPIN_START"
  | FaiZNESpinEnd | LockZNESpinEnd => Some "ZNE_SPIN_END"
  | Empty => Some "EMPTY"
  | MethodBegin => Some "METHOD_BEGIN"
  | MethodEnd => Some "METHOD_END"
  | Output => Some "OUTPUT"
  | Error => Some "ERROR"
  | _ => None
  end%string.

(** [format] in a debug build, where the default branch
    ([PRINT_BUGREPORT_INFO_ONCE]) is [UNREACHABLE]; a release build prints
    "UNKNOWN" there. *)
Definition format (k : Kind.t) : res string :=
  match str k with Some s => Ok s | None => Abort Unreachable end.

(** The formatter handles every kind but that of an abstract unlock. *)
Lemma format_unknown k : format k = Abort Unreachable <-> k = AbstractUnlockWrite.
Proof. destruct k; vm_compute; split; congruence. Qed.

End KindPrinter.

(** ** Labels (EventLabel.hpp) *)
Module EventLabel.
Import Kind Class.

(** Labels are heap objects that point to each other (reads-from, readers,
    create and join edges); [lid] is the identity of such an object. *)
Definition lid := nat.

(** Execution/EventAttr.hpp: write attributes are bit masks. *)
Definition WriteAttr_None : Z := 0.
Definition WriteAttr_Local : Z := 1.
Definition WriteAttr_Final : Z := 2.
Definition WriteAttr_WWRacy : Z := 4.
Definition WriteAttr_Complete : Z := 8.

(** Execution/DepInfo.hpp. *)
Record EventDeps := {
  addrDeps : list Event.t; dataDeps : list Event.t; ctrlDeps : list Event.t;
  addrPoDeps : list Event.t; casDeps : list Event.t
}.
Definition noDeps : EventDeps := Build_EventDeps [] [] [] [] [].
(** [DepInfo::update] and [DepInfo::contains]. *)
Definition dep_update (d d' : list Event.t) : res (list Event.t) :=
  r ← VSet.insert_set d d'; Ok r.1.
Definition dep_contains (d : list Event.t) (e : Event.t) : bool := negb (VSet.count d e =? 0).

(** Support/ThreadInfo.hpp (the name is not used by the graph). *)
Record ThreadInfo := { ti_id : Z; ti_parentId : Z; ti_funId : Z; ti_arg : SVal.t; ti_symmId : Z }.
Definition noThreadInfo : ThreadInfo := Build_ThreadInfo 0 (-1) 0 SVal.default (-1).

(** Execution/LoadAnnotation.hpp: the condition of the assume that a load is for. *)
Inductive AssumeType := AUser | ABarrier | ASpinloop.
Record Annotation := { annot_type : AssumeType; annot_expr : SExpr.t Z }.

(** One record for all classes: the fields below a comment belong to the class it
    names, and an operation reaches them only after the cast that the code
    performs.  Saved views are kept elsewhere ([Calc]). *)
Record t := Label {
  (* EventLabel *)
  kind : Kind.t;
  position : Event.t;
  ordering : MemOrdering.t;
  deps : EventDeps;
  stamp : option Stamp.t;
  parent : bool;
  revisitable : bool;
  (* ThreadStartLabel *)
  createId : Event.t;
  createLab : option lid;
  threadInfo : ThreadInfo;
  symmPredTid : Z;
  symmSuccTid : Z;
  (* InitLabel *)
  initRfs : gmap Z (list lid);
  (* ThreadFinishLabel, ThreadJoinLabel and JoinBlockLabel *)
  parentJoin : option lid;
  retVal : SVal.t;
  childId : Z;
  (* MemLabel and MemAccessLabel *)
  access : AAccess.t;
  maximal : bool;
  (* ReadLabel, FaiReadLabel, CasReadLabel *)
  readsFrom : option lid;
  binOp : RMW.RMWBinOp;
  opValue : SVal.t;
  expected : SVal.t;
  swapValue : SVal.t;
  (* WriteLabel; the attributes are also those of the RMW reads *)
  value : SVal.t;
  wattr : Z;
  readerList : list lid;
  (* MethodBeginLabel and MethodEndLabel *)
  linPreds : list lid;
  linSuccs : list lid;
  (* HpProtectLabel *)
  hpAddr : SAddr.t;
  protAddr : SAddr.t;
  (* MallocLabel *)
  alignment : Z;
  sdur : StorageDuration;
  stype : StorageType;
  spc : AddressSpace;
  (* ReadLabel *)
  annot : option Annotation;
  (* OptionalLabel *)
  expandable : bool;
  expanded : bool;
  (* the name of MallocLabel, MethodBeginLabel and MethodEndLabel, the message of
     OutputLabel and ErrorLabel *)
  text : string;
  (* the argument of MethodBeginLabel, the result of MethodEndLabel *)
  methodVal : Z
}.

(** A label of kind [k] with every field at its default member initializer. *)
Definition base (k : Kind.t) (p : Event.t) (o : MemOrdering.t) (d : EventDeps) : t :=
  Label k p o d None false true
    Event.default None noThreadInfo (-1)%Z (-1)%Z ∅ None SVal.default 0%Z
    (AAccess.AAccess 0%Z 0%Z) true None RMW.Xchg SVal.default SVal.default SVal.default
    SVal.default WriteAttr_None [] [] [] 0%Z 0%Z 0%Z SD_Static ST_Volatile AS_User
    None true false ""%string 0%Z.

Definition with_stamp (x : option Stamp.t) (l : t) : t :=
  Label (kind l) (position l) (ordering l) (deps l) x (parent l) (revisitable l) (createId l)
    (createLab l) (threadInfo l) (symmPredTid l) (symmSuccTid l) (initRfs l) (parentJoin l)
    (retVal l) (childId l) (access l) (maximal l) (readsFrom l) (binOp l) (opValue l)
    (expected l) (swapValue l) (value l) (wattr l) (readerList l) (linPreds l) (linSuccs l)
    (hpAddr l) (protAddr l) (alignment l) (sdur l) (stype l) (spc l)
    (annot l) (expandable l) (expanded l) (text l) (methodVal l).
Definition setParent (x : bool) (l : t) : t :=
  Label (kind l) (position l) (ordering l) (deps l) (stamp l) x (revisitable l) (createId l)
    (createLab l) (threadInfo l) (symmPredTid l) (symmSuccTid l) (initRfs l) (parentJoin l)
    (retVal l) (childId l) (access l) (maximal l) (readsFrom l) (binOp l) (opValue l)
    (expected l) (swapValue l) (value l) (wattr l) (readerList l) (linPreds l) (linSuccs l)
    (hpAddr l) (protAddr l) (alignment l) (sdur l) (stype l) (spc l)
    (annot l) (expandable l) (expanded l) (text l) (methodVal l).
Definition setRevisitStatus (x : bool) (l : t) : t :=
  Label (kind l) (position l) (ordering l) (deps l) (stamp l) (parent l) x (createId l)
    (createLab l) (threadInfo l) (symmPredTid l) (symmSuccTid l) (initRfs l) (parentJoin l)
    (retVal l) (childId l) (access l) (maximal l) (readsFrom l) (binOp l) (opValue l)
    (expected l) (swapValue l) (value l) (wattr l) (readerList l) (linPreds l) (linSuccs l)
    (hpAddr l) (protAddr l) (alignment l) (sdur l) (stype l) (spc l)
    (annot l) (expandable l) (expanded l) (text l) (methodVal l).
Definition setCreate (x : option lid) (l : t) : t :=
  Label (kind l) (position l) (ordering l) (deps l) (stamp l) (parent l) (revisitable l)
    (createId l) x (threadInfo l) (symmPredTid l) (symmSuccTid l) (initRfs l) (parentJoin l)
    (retVal l) (childId l) (access l) (maximal l) (readsFrom l) (binOp l) (opValue l)
    (expected l) (swapValue l) (value l) (wattr l) (readerList l) (linPreds l) (linSuccs l)
    (hpAddr l) (protAddr l) (alignment l) (sdur l) (stype l) (spc l)
    (annot l) (expandable l) (expanded l) (text l) (methodVal l).
Definition with_createId (x : Event.t) (l : t) : t :=
  Label (kind l) (position l) (ordering l) (deps l) (stamp l) (parent l) (revisitable l) x
    (createLab l) (threadInfo l) (symmPredTid l) (symmSuccTid l) (initRfs l) (parentJoin l)
    (retVal l) (childId l) (access l) (maximal l) (readsFrom l) (binOp l) (opValue l)
    (expected l) (swapValue l) (value l) (wattr l) (readerList l) (linPreds l) (linSuccs l)
    (hpAddr l) (protAddr l) (alignment l) (sdur l) (stype l) (spc l)
    (annot l) (expandable l) (expanded l) (text l) (methodVal l).
Definition with_threadInfo (x : ThreadInfo) (l : t) : t :=
  Label (kind l) (position l) (ordering l) (deps l) (stamp l) (parent l) (revisitable l)
    (createId l) (createLab l) x (symmPredTid l) (symmSuccTid l) (initRfs l) (parentJoin l)
    (retVal l) (childId l) (access l) (maximal l) (readsFrom l) (binOp l) (opValue l)
    (expected l) (swapValue l) (value l) (wattr l) (readerList l) (linPreds l) (linSuccs l)
    (hpAddr l) (protAddr l) (alignment l) (sdur l) (stype l) (spc l)
    (annot l) (expandable l) (expanded l) (text l) (methodVal l).
Definition setSymmPredTid (x : Z) (l : t) : t :=
  Label (kind l) (position l) (ordering l) (deps l) (stamp l) (parent l) (revisitable l)
    (createId l) (createLab l) (threadInfo l) x (symmSuccTid l) (initRfs l) (parentJoin l)
    (retVal l) (childId l) (access l) (maximal l) (readsFrom l) (binOp l) (opValue l)
    (expected l) (swapValue l) (value l) (wattr l) (readerList l) (linPreds l) (linSuccs l)
    (hpAddr l) (protAddr l) (alignment l) (sdur l) (stype l) (spc l)
    (annot l) (expandable l) (expanded l) (text l) (methodVal l).
Definition setSymmSuccTid (x : Z) (l : t) : t :=
  Label (kind l) (position l) (ordering l) (deps l) (stamp l) (parent l) (revisitable l)
    (createId l) (createLab l) (threadInfo l) (symmPredTid l) x (initRfs l) (parentJoin l)
    (retVal l) (childId l) (access l) (maximal l) (readsFrom l) (binOp l) (opValue l)
    (expected l) (swapValue l) (value l) (wattr l) (readerList l) (linPreds l) (linSuccs l)
    (hpAddr l) (protAddr l) (alignment l) (sdur l) (stype l) (spc l)
    (annot l) (expandable l) (expanded l) (text l) (methodVal l).
Definition with_initRfs (x : gmap Z (list lid)) (l : t) : t :=
  Label (kind l) (position l) (ordering l) (deps l) (stamp l) (parent l) (revisitable l)
    (createId l) (createLab l) (threadInfo l) (symmPredTid l) (symmSuccTid l) x (parentJoin l)
    (retVal l) (childId l) (access l) (maximal l) (readsFrom l) (binOp l) (opValue l)
    (expected l) (swapValue l) (value l) (wattr l) (readerList l) (linPreds l) (linSuccs l)
    (hpAddr l) (protAddr l) (alignment l) (sdur l) (stype l) (spc l)
    (annot l) (expandable l) (expanded l) (text l) (methodVal l).
Definition setParentJoin (x : option lid) (l : t) : t :=
  Label (kind l) (position l) (ordering l) (deps l) (stamp l) (parent l) (revisitable l)
    (createId l) (createLab l) (threadInfo l) (symmPredTid l) (symmSuccTid l) (initRfs l) x
    (retVal l) (childId l) (access l) (maximal l) (readsFrom l) (binOp l) (opValue l)
    (expected l) (swapValue l) (value l) (wattr l) (readerList l) (linPreds l) (linSuccs l)
    (hpAddr l) (protAddr l) (alignment l) (sdur l) (stype l) (spc l)
    (annot l) (expandable l) (expanded l) (text l) (methodVal l).
Definition with_retVal (x : SVal.t) (l : t) : t :=
  Label (kind l) (position l) (ordering l) (deps l) (stamp l) (parent l) (revisitable l)
    (createId l) (createLab l) (threadInfo l) (symmPredTid l) (symmSuccTid l) (initRfs l)
    (parentJoin l) x (childId l) (access l) (maximal l) (readsFrom l) (binOp l) (opValue l)
    (expected l) (swapValue l) (value l) (wattr l) (readerList l) (linPreds l) (linSuccs l)
    (hpAddr l) (protAddr l) (alignment l) (sdur l) (stype l) (spc l)
    (annot l) (expandable l) (expanded l) (text l) (methodVal l).
Definition with_childId (x : Z) (l : t) : t :=
  Label (kind l) (position l) (ordering l) (deps l) (stamp l) (parent l) (revisitable l)
    (createId l) (createLab l) (threadInfo l) (symmPredTid l) (symmSuccTid l) (initRfs l)
    (parentJoin l) (retVal l) x (access l) (maximal l) (readsFrom l) (binOp l) (opValue l)
    (expected l) (swapValue l) (value l) (wattr l) (readerList l) (linPreds l) (linSuccs l)
    (hpAddr l) (protAddr l) (alignment l) (sdur l) (stype l) (spc l)
    (annot l) (expandable l) (expanded l) (text l) (methodVal l).
Definition with_access (x : AAccess.t) (l : t) : t :=
  Label (kind l) (position l) (ordering l) (deps l) (stamp l) (parent l) (revisitable l)
    (createId l) (createLab l) (threadInfo l) (symmPredTid l) (symmSuccTid l) (initRfs l)
    (parentJoin l) (retVal l) (childId l) x (maximal l) (readsFrom l) (binOp l) (opValue l)
    (expected l) (swapValue l) (value l) (wattr l) (readerList l) (linPreds l) (linSuccs l)
    (hpAddr l) (protAddr l) (alignment l) (sdur l) (stype l) (spc l)
    (annot l) (expandable l) (expanded l) (text l) (methodVal l).
Definition setAddedMax (x : bool) (l : t) : t :=
  Label (kind l) (position l) (ordering l) (deps l) (stamp l) (parent l) (revisitable l)
    (createId l) (createLab l) (threadInfo l) (symmPredTid l) (symmSuccTid l) (initRfs l)
    (parentJoin l) (retVal l) (childId l) (access l) x (readsFrom l) (binOp l) (opValue l)
    (expected l) (swapValue l) (value l) (wattr l) (readerList l) (linPreds l) (linSuccs l)
    (hpAddr l) (protAddr l) (alignment l) (sdur l) (stype l) (spc l)
    (annot l) (expandable l) (expanded l) (text l) (methodVal l).
Definition setRfNoCascade (x : option lid) (l : t) : t :=
  Label (kind l) (position l) (ordering l) (deps l) (stamp l) (parent l) (revisitable l)
    (createId l) (createLab l) (threadInfo l) (symmPredTid l) (symmSuccTid l) (initRfs l)
    (parentJoin l) (retVal l) (childId l) (access l) (maximal l) x (binOp l) (opValue l)
    (expected l) (swapValue l) (value l) (wattr l) (readerList l) (linPreds l) (linSuccs l)
    (hpAddr l) (protAddr l) (alignment l) (sdur l) (stype l) (spc l)
    (annot l) (expandable l) (expanded l) (text l) (methodVal l).
Definition with_binOp (x : RMW.RMWBinOp) (l : t) : t :=
  Label (kind l) (position l) (ordering l) (deps l) (stamp l) (parent l) (revisitable l)
    (createId l) (createLab l) (threadInfo l) (symmPredTid l) (symmSuccTid l) (initRfs l)
    (parentJoin l) (retVal l) (childId l) (access l) (maximal l) (readsFrom l) x (opValue l)
    (expected l) (swapValue l) (value l) (wattr l) (readerList l) (linPreds l) (linSuccs l)
    (hpAddr l) (protAddr l) (alignment l) (sdur l) (stype l) (spc l)
    (annot l) (expandable l) (expanded l) (text l) (methodVal l).
Definition with_opValue (x : SVal.t) (l : t) : t :=
  Label (kind l) (position l) (ordering l) (deps l) (stamp l) (parent l) (revisitable l)
    (createId l) (createLab l) (threadInfo l) (symmPredTid l) (symmSuccTid l) (initRfs l)
    (parentJoin l) (retVal l) (childId l) (access l) (maximal l) (readsFrom l) (binOp l) x
    (expected l) (swapValue l) (value l) (wattr l) (readerList l) (linPreds l) (linSuccs l)
    (hpAddr l) (protAddr l) (alignment l) (sdur l) (stype l) (spc l)
    (annot l) (expandable l) (expanded l) (text l) (methodVal l).
Definition with_expected (x : SVal.t) (l : t) : t :=
  Label (kind l) (position l) (ordering l) (deps l) (stamp l) (parent l) (revisitable l)
    (createId l) (createLab l) (threadInfo l) (symmPredTid l) (symmSuccTid l) (initRfs l)
    (parentJoin l) (retVal l) (childId l) (access l) (maximal l) (readsFrom l) (binOp l)
    (opValue l) x (swapValue l) (value l) (wattr l) (readerList l) (linPreds l) (linSuccs l)
    (hpAddr l) (protAddr l) (alignment l) (sdur l) (stype l) (spc l)
    (annot l) (expandable l) (expanded l) (text l) (methodVal l).
Definition with_swapValue (x : SVal.t) (l : t) : t :=
  Label (kind l) (position l) (ordering l) (deps l) (stamp l) (parent l) (revisitable l)
    (createId l) (createLab l) (threadInfo l) (symmPredTid l) (symmSuccTid l) (initRfs l)
    (parentJoin l) (retVal l) (childId l) (access l) (maximal l) (readsFrom l) (binOp l)
    (opValue l) (expected l) x (value l) (wattr l) (readerList l) (linPreds l) (linSuccs l)
    (hpAddr l) (protAddr l) (alignment l) (sdur l) (stype l) (spc l)
    (annot l) (expandable l) (expanded l) (text l) (methodVal l).
Definition setVal (x : SVal.t) (l : t) : t :=
  Label (kind l) (position l) (ordering l) (deps l) (stamp l) (parent l) (revisitable l)
    (createId l) (createLab l) (threadInfo l) (symmPredTid l) (symmSuccTid l) (initRfs l)
    (parentJoin l) (retVal l) (childId l) (access l) (maximal l) (readsFrom l) (binOp l)
    (opValue l) (expected l) (swapValue l) x (wattr l) (readerList l) (linPreds l) (linSuccs l)
    (hpAddr l) (protAddr l) (alignment l) (sdur l) (stype l) (spc l)
    (annot l) (expandable l) (expanded l) (text l) (methodVal l).
Definition with_wattr (x : Z) (l : t) : t :=
  Label (kind l) (position l) (ordering l) (deps l) (stamp l) (parent l) (revisitable l)
    (createId l) (createLab l) (threadInfo l) (symmPredTid l) (symmSuccTid l) (initRfs l)
    (parentJoin l) (retVal l) (childId l) (access l) (maximal l) (readsFrom l) (binOp l)
    (opValue l) (expected l) (swapValue l) (value l) x (readerList l) (linPreds l) (linSuccs l)
    (hpAddr l) (protAddr l) (alignment l) (sdur l) (stype l) (spc l)
    (annot l) (expandable l) (expanded l) (text l) (methodVal l).
Definition with_readerList (x : list lid) (l : t) : t :=
  Label (kind l) (position l) (ordering l) (deps l) (stamp l) (parent l) (revisitable l)
    (createId l) (createLab l) (threadInfo l) (symmPredTid l) (symmSuccTid l) (initRfs l)
    (parentJoin l) (retVal l) (childId l) (access l) (maximal l) (readsFrom l) (binOp l)
    (opValue l) (expected l) (swapValue l) (value l) (wattr l) x (linPreds l) (linSuccs l)
    (hpAddr l) (protAddr l) (alignment l) (sdur l) (stype l) (spc l)
    (annot l) (expandable l) (expanded l) (text l) (methodVal l).
Definition with_linPreds (x : list lid) (l : t) : t :=
  Label (kind l) (position l) (ordering l) (deps l) (stamp l) (parent l) (revisitable l)
    (createId l) (createLab l) (threadInfo l) (symmPredTid l) (symmSuccTid l) (initRfs l)
    (parentJoin l) (retVal l) (childId l) (access l) (maximal l) (readsFrom l) (binOp l)
    (opValue l) (expected l) (swapValue l) (value l) (wattr l) (readerList l) x (linSuccs l)
    (hpAddr l) (protAddr l) (alignment l) (sdur l) (stype l) (spc l)
    (annot l) (expandable l) (expanded l) (text l) (methodVal l).
Definition with_linSuccs (x : list lid) (l : t) : t :=
  Label (kind l) (position l) (ordering l) (deps l) (stamp l) (parent l) (revisitable l)
    (createId l) (createLab l) (threadInfo l) (symmPredTid l) (symmSuccTid l) (initRfs l)
    (parentJoin l) (retVal l) (childId l) (access l) (maximal l) (readsFrom l) (binOp l)
    (opValue l) (expected l) (swapValue l) (value l) (wattr l) (readerList l) (linPreds l) x
    (hpAddr l) (protAddr l) (alignment l) (sdur l) (stype l) (spc l)
    (annot l) (expandable l) (expanded l) (text l) (methodVal l).

(** *** Accessors *)
Definition getPos (l : t) : Event.t := position l.
Definition getThread (l : t) : Z := Event.thread (position l).
Definition getIndex (l : t) : Z := Event.index (position l).
Definition with_hpAddr (x : SAddr.t) (l : t) : t :=
  Label (kind l) (position l) (ordering l) (deps l) (stamp l) (parent l) (revisitable l)
    (createId l) (createLab l) (threadInfo l) (symmPredTid l) (symmSuccTid l) (initRfs l)
    (parentJoin l) (retVal l) (childId l) (access l) (maximal l) (readsFrom l) (binOp l)
    (opValue l) (expected l) (swapValue l) (value l) (wattr l) (readerList l) (linPreds l)
    (linSuccs l) x (protAddr l) (alignment l) (sdur l) (stype l) (spc l)
    (annot l) (expandable l) (expanded l) (text l) (methodVal l).
Definition with_protAddr (x : SAddr.t) (l : t) : t :=
  Label (kind l) (position l) (ordering l) (deps l) (stamp l) (parent l) (revisitable l)
    (createId l) (createLab l) (threadInfo l) (symmPredTid l) (symmSuccTid l) (initRfs l)
    (parentJoin l) (retVal l) (childId l) (access l) (maximal l) (readsFrom l) (binOp l)
    (opValue l) (expected l) (swapValue l) (value l) (wattr l) (readerList l) (linPreds l)
    (linSuccs l) (hpAddr l) x (alignment l) (sdur l) (stype l) (spc l)
    (annot l) (expandable l) (expanded l) (text l) (methodVal l).
Definition with_alignment (x : Z) (l : t) : t :=
  Label (kind l) (position l) (ordering l) (deps l) (stamp l) (parent l) (revisitable l)
    (createId l) (createLab l) (threadInfo l) (symmPredTid l) (symmSuccTid l) (initRfs l)
    (parentJoin l) (retVal l) (childId l) (access l) (maximal l) (readsFrom l) (binOp l)
    (opValue l) (expected l) (swapValue l) (value l) (wattr l) (readerList l) (linPreds l)
    (linSuccs l) (hpAddr l) (protAddr l) x (sdur l) (stype l) (spc l)
    (annot l) (expandable l) (expanded l) (text l) (methodVal l).
Definition with_sdur (x : StorageDuration) (l : t) : t :=
  Label (kind l) (position l) (ordering l) (deps l) (stamp l) (parent l) (revisitable l)
    (createId l) (createLab l) (threadInfo l) (symmPredTid l) (symmSuccTid l) (initRfs l)
    (parentJoin l) (retVal l) (childId l) (access l) (maximal l) (readsFrom l) (binOp l)
    (opValue l) (expected l) (swapValue l) (value l) (wattr l) (readerList l) (linPreds l)
    (linSuccs l) (hpAddr l) (protAddr l) (alignment l) x (stype l) (spc l)
    (annot l) (expandable l) (expanded l) (text l) (methodVal l).
Definition with_stype (x : StorageType) (l : t) : t :=
  Label (kind l) (position l) (ordering l) (deps l) (stamp l) (parent l) (revisitable l)
    (createId l) (createLab l) (threadInfo l) (symmPredTid l) (symmSuccTid l) (initRfs l)
    (parentJoin l) (retVal l) (childId l) (access l) (maximal l) (readsFrom l) (binOp l)
    (opValue l) (expected l) (swapValue l) (value l) (wattr l) (readerList l) (linPreds l)
    (linSuccs l) (hpAddr l) (protAddr l) (alignment l) (sdur l) x (spc l)
    (annot l) (expandable l) (expanded l) (text l) (methodVal l).
Definition with_spc (x : AddressSpace) (l : t) : t :=
  Label (kind l) (position l) (ordering l) (deps l) (stamp l) (parent l) (revisitable l)
    (createId l) (createLab l) (threadInfo l) (symmPredTid l) (symmSuccTid l) (initRfs l)
    (parentJoin l) (retVal l) (childId l) (access l) (maximal l) (readsFrom l) (binOp l)
    (opValue l) (expected l) (swapValue l) (value l) (wattr l) (readerList l) (linPreds l)
    (linSuccs l) (hpAddr l) (protAddr l) (alignment l) (sdur l) (stype l) x
    (annot l) (expandable l) (expanded l) (text l) (methodVal l).
Definition with_annot (x : option Annotation) (l : t) : t :=
  Label (kind l) (position l) (ordering l) (deps l) (stamp l) (parent l) (revisitable l)
    (createId l) (createLab l) (threadInfo l) (symmPredTid l) (symmSuccTid l) (initRfs l)
    (parentJoin l) (retVal l) (childId l) (access l) (maximal l) (readsFrom l) (binOp l)
    (opValue l) (expected l) (swapValue l) (value l) (wattr l) (readerList l) (linPreds l)
    (linSuccs l) (hpAddr l) (protAddr l) (alignment l) (sdur l) (stype l) (spc l)
    x (expandable l) (expanded l) (text l) (methodVal l).
Definition setExpandable (x : bool) (l : t) : t :=
  Label (kind l) (position l) (ordering l) (deps l) (stamp l) (parent l) (revisitable l)
    (createId l) (createLab l) (threadInfo l) (symmPredTid l) (symmSuccTid l) (initRfs l)
    (parentJoin l) (retVal l) (childId l) (access l) (maximal l) (readsFrom l) (binOp l)
    (opValue l) (expected l) (swapValue l) (value l) (wattr l) (readerList l) (linPreds l)
    (linSuccs l) (hpAddr l) (protAddr l) (alignment l) (sdur l) (stype l) (spc l)
    (annot l) x (expanded l) (text l) (methodVal l).
Definition setExpanded (x : bool) (l : t) : t :=
  Label (kind l) (position l) (ordering l) (deps l) (stamp l) (parent l) (revisitable l)
    (createId l) (createLab l) (threadInfo l) (symmPredTid l) (symmSuccTid l) (initRfs l)
    (parentJoin l) (retVal l) (childId l) (access l) (maximal l) (readsFrom l) (binOp l)
    (opValue l) (expected l) (swapValue l) (value l) (wattr l) (readerList l) (linPreds l)
    (linSuccs l) (hpAddr l) (protAddr l) (alignment l) (sdur l) (stype l) (spc l)
    (annot l) (expandable l) x (text l) (methodVal l).
Definition with_text (x : string) (l : t) : t :=
  Label (kind l) (position l) (ordering l) (deps l) (stamp l) (parent l) (revisitable l)
    (createId l) (createLab l) (threadInfo l) (symmPredTid l) (symmSuccTid l) (initRfs l)
    (parentJoin l) (retVal l) (childId l) (access l) (maximal l) (readsFrom l) (binOp l)
    (opValue l) (expected l) (swapValue l) (value l) (wattr l) (readerList l) (linPreds l)
    (linSuccs l) (hpAddr l) (protAddr l) (alignment l) (sdur l) (stype l) (spc l)
    (annot l) (expandable l) (expanded l) x (methodVal l).
Definition with_methodVal (x : Z) (l : t) : t :=
  Label (kind l) (position l) (ordering l) (deps l) (stamp l) (parent l) (revisitable l)
    (createId l) (createLab l) (threadInfo l) (symmPredTid l) (symmSuccTid l) (initRfs l)
    (parentJoin l) (retVal l) (childId l) (access l) (maximal l) (readsFrom l) (binOp l)
    (opValue l) (expected l) (swapValue l) (value l) (wattr l) (readerList l) (linPreds l)
    (linSuccs l) (hpAddr l) (protAddr l) (alignment l) (sdur l) (stype l) (spc l)
    (annot l) (expandable l) (expanded l) (text l) x.
Definition getAddr (l : t) : SAddr.t := AAccess.addr (access l).
Definition getSize (l : t) : ASize.t := AAccess.size (access l).
Definition hasStamp (l : t) : bool := bool_decide (is_Some (stamp l)).
Definition isNotAtomic (l : t) : bool := bool_decide (ordering l = MemOrdering.NotAtomic).
Definition isAtLeastAcquire (l : t) : bool :=
  MemOrdering.isAtLeastOrStrongerThan (ordering l) MemOrdering.Acquire.
Definition isAtLeastRelease (l : t) : bool :=
  MemOrdering.isAtLeastOrStrongerThan (ordering l) MemOrdering.Release.
Definition isSC (l : t) : bool := bool_decide (ordering l = MemOrdering.SequentiallyConsistent).
Definition isStable (l : t) : bool := negb (revisitable l) || (isMemAccess (kind l) && negb (maximal l)).
(** [MemLabel::contains]: unlike [AAccess::contains] it does not compare storage. *)
Definition mem_contains (l : t) (a : SAddr.t) : bool :=
  ((getAddr l <=? a) && (a <? SAddr.addSize (getAddr l) (getSize l)))%Z.
Definition setAttr (a : Z) (l : t) : t := with_wattr (Z.lor (wattr l) a) l.
Definition hasAttr (l : t) (a : Z) : bool := negb (Z.land (wattr l) a =? 0)%Z.

(** *** Constructors, by class; the kind is an argument as in the protected
    constructors of the code *)
Definition mkThreadStart (p createId : Event.t) (create : option lid) (ti : ThreadInfo) (symm : Z) : t :=
  setSymmPredTid symm (with_threadInfo ti (setCreate create (with_createId createId
    (base ThreadStart p MemOrdering.Acquire noDeps)))).
Definition mkInit : t :=
  with_createId Event.getInit (base Init Event.getInit MemOrdering.Acquire noDeps).
Definition mkBlock (k : Kind.t) (p : Event.t) : t := base k p MemOrdering.NotAtomic noDeps.
Definition mkJoinBlock (p : Event.t) (child : Z) : t := with_childId child (mkBlock JoinBlock p).
Definition mkReadOptBlock (p : Event.t) (a : SAddr.t) : t :=
  with_access (AAccess.AAccess a 0%Z) (mkBlock ReadOptBlock p).
Definition mkThreadKill (p : Event.t) : t := base ThreadKill p MemOrdering.NotAtomic noDeps.
Definition mkThreadFinish (p : Event.t) (ret : SVal.t) : t :=
  with_retVal ret (base ThreadFinish p MemOrdering.Release noDeps).
Definition mkRead (k : Kind.t) (p : Event.t) (o : MemOrdering.t) (a : SAddr.t) (s : ASize.t)
    (rf : option lid) (an : option Annotation) (d : EventDeps) : t :=
  with_annot an (setRfNoCascade rf (with_access (AAccess.AAccess a s) (base k p o d))).
Definition mkFaiRead (k : Kind.t) (p : Event.t) (o : MemOrdering.t) (a : SAddr.t) (s : ASize.t)
    (op : RMW.RMWBinOp) (v : SVal.t) (attr : Z) (rf : option lid) (an : option Annotation) (d : EventDeps) : t :=
  with_wattr attr (with_opValue v (with_binOp op (mkRead k p o a s rf an d))).
Definition mkCasRead (k : Kind.t) (p : Event.t) (o : MemOrdering.t) (a : SAddr.t) (s : ASize.t)
    (exp swap : SVal.t) (attr : Z) (rf : option lid) (an : option Annotation) (d : EventDeps) : t :=
  with_wattr attr (with_swapValue swap (with_expected exp (mkRead k p o a s rf an d))).
Definition mkWrite (k : Kind.t) (p : Event.t) (o : MemOrdering.t) (a : SAddr.t) (s : ASize.t)
    (v : SVal.t) (attr : Z) (d : EventDeps) : t :=
  with_wattr attr (setVal v (with_access (AAccess.AAccess a s) (base k p o d))).
(** The attribute argument of this constructor is not passed on. *)
Definition mkTrylockCasWrite (p : Event.t) (o : MemOrdering.t) (a : SAddr.t) (s : ASize.t)
    (v : SVal.t) (attr : Z) (d : EventDeps) : t :=
  mkWrite TrylockCasWrite p o a s v WriteAttr_None d.
Definition mkMemLifecycle (k : Kind.t) (p : Event.t) (a : SAddr.t) (s : ASize.t) (d : EventDeps) : t :=
  with_access (AAccess.AAccess a s) (base k p MemOrdering.NotAtomic d).
Definition mkMalloc (p : Event.t) (a : SAddr.t) (s : ASize.t) (al : Z) (sd : StorageDuration) (st : StorageType)
    (sp : AddressSpace) (name : string) (d : EventDeps) : t :=
  with_text name (with_spc sp (with_stype st (with_sdur sd (with_alignment al (mkMemLifecycle Malloc p a s d))))).
Definition mkHpProtect (p : Event.t) (o : MemOrdering.t) (hp prot : SAddr.t) (d : EventDeps) : t :=
  with_protAddr prot (with_hpAddr hp (base HpProtect p o d)).
Definition mkFence (p : Event.t) (o : MemOrdering.t) (d : EventDeps) : t := base Fence p o d.
Definition mkThreadCreate (p : Event.t) (child : ThreadInfo) (d : EventDeps) : t :=
  with_threadInfo child (with_childId (ti_id child) (base ThreadCreate p MemOrdering.Release d)).
Definition mkThreadJoin (p : Event.t) (child : Z) (d : EventDeps) : t :=
  with_childId child (base ThreadJoin p MemOrdering.Acquire d).
Definition mkHelpingCas (p : Event.t) (o : MemOrdering.t) (a : SAddr.t) (s : ASize.t) (exp swap : SVal.t) (d : EventDeps) : t :=
  with_swapValue swap (with_expected exp (with_access (AAccess.AAccess a s) (base HelpingCas p o d))).
Definition mkOptional (p : Event.t) (d : EventDeps) : t := base Optional p MemOrdering.NotAtomic d.
(** [LoopBeginLabel], [SpinStartLabel], [FaiZNESpinEndLabel] and [LockZNESpinEndLabel]. *)
Definition mkDummy (k : Kind.t) (p : Event.t) : t := base k p MemOrdering.NotAtomic noDeps.
(** [MethodBeginLabel] and [MethodEndLabel]. *)
Definition mkMethod (k : Kind.t) (p : Event.t) (name : string) (x : Z) : t :=
  with_methodVal x (with_text name (base k p MemOrdering.NotAtomic noDeps)).
(** [OutputLabel] and [ErrorLabel]. *)
Definition mkMessage (k : Kind.t) (p : Event.t) (msg : string) : t :=
  with_text msg (base k p MemOrdering.NotAtomic noDeps).
Definition mkEmpty (p : Event.t) : t := base Empty p MemOrdering.NotAtomic noDeps.

(** [reset], with the overrides of the subclasses: every graph-related field goes
    back to its default. *)
Definition reset (l : t) : t :=
  let l := setRevisitStatus true (with_stamp None (setParent false l)) in
  let l := if isThreadStart (kind l) then setCreate None l else l in
  let l := if isKind ThreadFinish (kind l) then setParentJoin None l else l in
  let l := if isMemAccess (kind l) then setAddedMax true l else l in
  let l := if isRead (kind l) then setRfNoCascade None l else l in
  let l := if isWrite (kind l) then with_readerList [] l else l in
  let l := if isKind MethodBegin (kind l) then with_linPreds [] l else l in
  if isKind MethodEnd (kind l) then with_linSuccs [] l else l.

(** [createAssumeBlock]. *)
Definition createAssumeBlock (p : Event.t) (ty : AssumeType) : t :=
  match ty with
  | AUser => mkBlock UserBlock p
  | ABarrier => mkBlock BarrierBlock p
  | ASpinloop => mkBlock SpinloopBlock p
  end.

(** [valueMakesRMWSucceed]. *)
Definition valueMakesRMWSucceed (l : t) (v : SVal.t) : bool :=
  if classofKind CFaiRead (kind l) then true
  else if negb (classofKind CCasRead (kind l)) then false
  else SVal.eqb v (expected l).

(** [valueMakesAssumeSucceed]: the annotation evaluates to a value other than 0. *)
Definition valueMakesAssumeSucceed (l : t) (v : SVal.t) : res bool :=
  match annot l with
  | None => Ok false
  | Some an => r ← SExpr.evaluate_value (annot_expr an) v []; Ok (SVal.getBool r.1.1)
  end.

(** A trylock write never carries the attributes it is given, while every other
    write of the hierarchy does. *)
Lemma trylock_drops_attr p o a s v attr d :
  wattr (mkTrylockCasWrite p o a s v attr d) = WriteAttr_None /\
  wattr (mkWrite LockCasWrite p o a s v attr d) = attr.
Proof. done. Qed.

End EventLabel.
