(* ===== verification/Graph.v ===== *)
(** * Execution graphs

    Models Execution/ExecutionGraph.{hpp,cpp} and the parts of EventLabel.cpp that
    change the graph.  Labels live in a store and are known by their identity, the
    way the code holds pointers: [events] owns them, and the intrusive lists
    (program order, insertion order, coherence, readers) link the same objects.
    An intrusive list is the list of the identities it links; unlinking a node
    removes it from whichever list holds it. *)

From S2P Require Import Prelude Values Addresses Events VSet Views Labels.
Import EventLabel.
Local Open Scope Z_scope.

Module Graph.

Record t := Graph {
  store : gmap lid EventLabel.t;
  events : list (list lid);
  timestamp : Stamp.t;
  coherence : gmap Z (list lid);
  insertionOrder : list lid;
  poLists : list (list lid);
  accessMap_ : gmap Z (list lid);
  initVals_ : gmap Z SVal.t
}.

Definition set_store f g := Graph (f (store g)) (events g) (timestamp g) (coherence g)
  (insertionOrder g) (poLists g) (accessMap_ g) (initVals_ g).
Definition set_events x g := Graph (store g) x (timestamp g) (coherence g)
  (insertionOrder g) (poLists g) (accessMap_ g) (initVals_ g).
Definition set_timestamp x g := Graph (store g) (events g) x (coherence g)
  (insertionOrder g) (poLists g) (accessMap_ g) (initVals_ g).
Definition set_coherence x g := Graph (store g) (events g) (timestamp g) x
  (insertionOrder g) (poLists g) (accessMap_ g) (initVals_ g).
Definition set_insertionOrder x g := Graph (store g) (events g) (timestamp g) (coherence g)
  x (poLists g) (accessMap_ g) (initVals_ g).
Definition set_poLists x g := Graph (store g) (events g) (timestamp g) (coherence g)
  (insertionOrder g) x (accessMap_ g) (initVals_ g).
Definition set_accessMap x g := Graph (store g) (events g) (timestamp g) (coherence g)
  (insertionOrder g) (poLists g) x (initVals_ g).

(** *** Pointers *)
Definition label (g : t) (i : lid) : res EventLabel.t := deref (store g !! i).
(** Write through a pointer. *)
Definition upd (i : lid) (f : EventLabel.t -> EventLabel.t) (g : t) : t :=
  set_store (alter f i) g.
(** Unlink a node from an intrusive list. *)
Definition unlink (i : lid) (l : list lid) : list lid := filter (.≠ i) l.

(** [dyn_cast<C>(lab)] on a non-null pointer. *)
Definition dyn_cast (c : Kind.t -> bool) (g : t) (i : lid) : res (option lid) :=
  l ← label g i; Ok (if c (kind l) then Some i else None).
(** [dyn_cast_if_present<C>(lab)]. *)
Definition dyn_cast_if_present (c : Kind.t -> bool) (g : t) (o : option lid) : res (option lid) :=
  match o with Some i => dyn_cast c g i | None => Ok None end.

(** *** Basic getters *)
Definition getNumThreads (g : t) : Z := Z.of_nat (length (events g)).
Definition getThreadSize (g : t) (tid : Z) : res Z := th ← vec_at (events g) tid; Ok (Z.of_nat (length th)).
Definition isThreadEmpty (g : t) (tid : Z) : res bool := th ← vec_at (events g) tid; Ok (bool_decide (th = [])).

Definition getEventLabel (g : t) (e : Event.t) : res lid :=
  th ← vec_at (events g) (Event.thread e); vec_at th (Event.index e).
Definition getInitLabel (g : t) : res lid := getEventLabel g (Event.Event 0 0).
Definition getReadLabel (g : t) (e : Event.t) : res (option lid) :=
  i ← getEventLabel g e; dyn_cast Class.isRead g i.
Definition getWriteLabel (g : t) (e : Event.t) : res (option lid) :=
  i ← getEventLabel g e; dyn_cast Class.isWrite g i.
Definition getFirstThreadLabel (g : t) (tid : Z) : res (option lid) :=
  i ← getEventLabel g (Event.Event tid 0); dyn_cast Class.isThreadStart g i.
Definition getLastThreadLabel (g : t) (tid : Z) : res (option lid) := po ← vec_at (poLists g) tid; Ok (last po).
Definition isThreadBlocked (g : t) (tid : Z) : res bool :=
  e ← isThreadEmpty g tid;
  if (e : bool) then Ok false else
  l ← getLastThreadLabel g tid; i ← deref l; c ← dyn_cast Class.isBlock g i; Ok (bool_decide (is_Some c)).

Definition containsPos (g : t) (e : Event.t) : bool :=
  (0 <=? Event.thread e) && (Event.thread e <? getNumThreads g) && (0 <=? Event.index e) &&
  match events g !! Z.to_nat (Event.thread e) with
  | Some th => Event.index e <? Z.of_nat (length th)
  | None => false
  end.
Definition containsLab (g : t) (i : lid) : res bool :=
  l ← label g i;
  if containsPos g (position l) then j ← getEventLabel g (position l); Ok (bool_decide (i = j)) else Ok false.
Definition containsPosNonEmpty (g : t) (e : Event.t) : res bool :=
  if containsPos g e then
    i ← getEventLabel g e; l ← label g i; Ok (negb (Class.isKind Kind.Empty (kind l)))
  else Ok false.
Definition containsLoc (g : t) (a : SAddr.t) : bool := bool_decide (is_Some (coherence g !! a)).
Definition isLocEmpty (g : t) (a : SAddr.t) : bool :=
  match coherence g !! a with None => true | Some l => bool_decide (l = []) end.
Definition hasLocMoreThanOneStore (g : t) (a : SAddr.t) : bool :=
  match coherence g !! a with Some (_ :: _ :: _) => true | _ => false end.

(** [coherence.at(addr)] throws on an untracked location. *)
Definition at_loc (m : gmap Z (list lid)) (a : SAddr.t) : res (list lid) :=
  match m !! a with Some l => Ok l | None => Abort OutOfRange end.
Definition co_max (g : t) (a : SAddr.t) : res lid :=
  l ← at_loc (coherence g) a;
  match last l with Some w => Ok w | None => getInitLabel g end.

(** [m[addr]] inserts an empty list. *)
Definition touch (a : SAddr.t) (m : gmap Z (list lid)) : gmap Z (list lid) :=
  match m !! a with Some _ => m | None => <[a := []]> m end.
Definition list_at (m : gmap Z (list lid)) (a : SAddr.t) : list lid := default [] (m !! a).

(** *** Adding labels *)
Definition addNewThread (g : t) : t :=
  set_poLists (poLists g ++ [[]]) (set_events (events g ++ [[]]) g).

Definition trackCoherenceAtLoc (a : SAddr.t) (g : t) : res t :=
  let g := set_coherence (touch a (coherence g)) g in
  i ← getInitLabel g;
  let g := upd i (fun l => with_initRfs (touch a (initRfs l)) l) g in
  Ok (set_accessMap (touch a (accessMap_ g)) g).

(** [trackCoherenceAtLoc] followed by [accessMap_[addr].push_back]. *)
Definition track_access (i : lid) (a : SAddr.t) (g : t) : res t :=
  g ← trackCoherenceAtLoc a g;
  Ok (set_accessMap (<[a := list_at (accessMap_ g) a ++ [i]]> (accessMap_ g)) g).

(** The list with [old] unlinked and [new] linked where it was. *)
Fixpoint replace_node (old new : lid) (l : list lid) : list lid :=
  match l with
  | [] => []
  | x :: l => if decide (x = old) then new :: l else x :: replace_node old new l
  end.

(** The last part of [addLabelToGraph], where the label is linked: it overwrites
    the place holder at its position, or goes to the end of its thread.
    Overwriting the owning pointer destroys the label it held. *)
Definition link_label (i : lid) (pos : Event.t) (g : t) : res t :=
  last ← getLastThreadLabel g (Event.thread pos);
  lastIdx ← match last with Some j => lj ← label g j; Ok (Some (getIndex lj)) | None => Ok None end;
  th ← vec_at (events g) (Event.thread pos);
  po ← vec_at (poLists g) (Event.thread pos);
  if (match lastIdx with Some x => Event.index pos <? x | None => false end) then
    old ← getEventLabel g pos;
    lo ← label g old;
    debug_assert (Class.isKind Kind.Empty (kind lo));;
    th ← vec_set th (Event.index pos) i;
    evs ← vec_set (events g) (Event.thread pos) th;
    pos' ← vec_set (poLists g) (Event.thread pos) (replace_node old i po);
    Ok (set_store (delete old)
      (set_poLists pos' (set_insertionOrder (unlink old (insertionOrder g) ++ [i]) (set_events evs g))))
  else
    evs ← vec_set (events g) (Event.thread pos) (th ++ [i]);
    pos' ← vec_set (poLists g) (Event.thread pos) (po ++ [i]);
    Ok (set_poLists pos' (set_insertionOrder (insertionOrder g ++ [i]) (set_events evs g))).

(** [addLabelToGraph]: [i] is the label handed over, already in the store but not
    in the graph. *)
Definition addLabelToGraph (i : lid) (g : t) : res t :=
  let g := upd i (setParent true) g in
  l ← label g i;
  let g := if hasStamp l then g
           else set_timestamp (Stamp.incr (timestamp g)) (upd i (with_stamp (Some (timestamp g))) g) in
  g ← (if Class.isMemAccess (kind l) then track_access i (getAddr l) g else Ok g);
  g ← (if Class.isFree (kind l) then track_access i (getAddr l) g else Ok g);
  link_label i (position l) g.

(** The constructor: one thread holding the initializer. *)
Definition new_graph (i : lid) : res t :=
  addLabelToGraph i
    (addNewThread (Graph {[ i := mkInit ]} [] 0 ∅ [] [] ∅ ∅)).

(** *** Reads-from *)

(** [WriteLabel::addReader] and [InitLabel::addReader]; the assertions compare
    positions. *)
Definition no_reader_at (g : t) (p : Event.t) (l : list lid) : res bool :=
  foldM (fun b j => lj ← label g j; Ok (b && negb (bool_decide (position lj = p)))) true l.
Definition write_addReader (w r : lid) (g : t) : res t :=
  lw ← label g w; lr ← label g r;
  b ← no_reader_at g (position lr) (readerList lw);
  debug_assert b;;
  Ok (upd w (fun l => with_readerList (readerList l ++ [r]) l) g).
Definition init_addReader (i r : lid) (g : t) : res t :=
  li ← label g i; lr ← label g r;
  b ← no_reader_at g (position lr) (list_at (initRfs li) (getAddr lr));
  debug_assert b;;
  Ok (upd i (fun l => with_initRfs (<[getAddr lr := list_at (initRfs l) (getAddr lr) ++ [r]]> (initRfs l)) l) g).
(** [removeReader] with the predicate [&oLab == this]. *)
Definition write_removeReader (w r : lid) (g : t) : t :=
  upd w (fun l => with_readerList (unlink r (readerList l)) l) g.
Definition init_removeReader (i : lid) (a : SAddr.t) (r : lid) (g : t) : t :=
  upd i (fun l => with_initRfs (<[a := unlink r (list_at (initRfs l) a)]> (initRfs l)) l) g.

(** [ReadLabel::setRf]. *)
Definition setRf (r : lid) (rf : option lid) (g : t) : res t :=
  lr ← label g r;
  let g := upd r (setRfNoCascade rf) g in
  g ← match readsFrom lr with
      | None => Ok g
      | Some o =>
          lo ← label g o;
          if Class.isWrite (kind lo) then Ok (write_removeReader o r g)
          else if Class.isKind Kind.Init (kind lo) then Ok (init_removeReader o (getAddr lr) r g)
          else Abort Unreachable
      end;
  match rf with
  | None => Ok g
  | Some w =>
      lw ← label g w;
      g ← (if Class.isWrite (kind lw) then write_addReader w r g
           else if Class.isKind Kind.Init (kind lw) then init_addReader w r g
           else Abort Unreachable);
      m ← co_max g (getAddr lr);
      Ok (upd r (setAddedMax (bool_decide (m = w))) g)
  end.

(** *** Coherence *)

(** Link [w] after [p], which has to be linked. *)
Fixpoint insert_after (p w : lid) (l : list lid) : res (list lid) :=
  match l with
  | [] => Abort Undefined
  | x :: l => if decide (x = p) then Ok (x :: w :: l) else l' ← insert_after p w l; Ok (x :: l')
  end.

(** [WriteLabel::addCo]. *)
Definition addCo (w pred : lid) (g : t) : res t :=
  lw ← label g w;
  p ← dyn_cast Class.isWrite g pred;
  let coh := list_at (coherence g) (getAddr lw) in
  coh ← match p with Some p => insert_after p w coh | None => Ok (w :: coh) end;
  Ok (set_coherence (<[getAddr lw := coh]> (coherence g)) g).

(** [WriteLabel::moveCo]; unlinking a node that is not linked dereferences null. *)
Definition moveCo (w pred : lid) (g : t) : res t :=
  lw ← label g w;
  let coh := list_at (coherence g) (getAddr lw) in
  defined (bool_decide (w ∈ coh));;
  let g := set_coherence (<[getAddr lw := unlink w coh]> (coherence g)) g in
  g ← addCo w pred g;
  m ← deref (last (list_at (coherence g) (getAddr lw)));
  Ok (upd w (setAddedMax (bool_decide (w = m))) g).

(** *** Removing the last label of a thread *)

(** The readers of a write lose their source. *)
Definition clear_readers (rs : list lid) (g : t) : t := foldl (fun g r => upd r (setRfNoCascade None) g) g rs.

(** The reads-from edges of [lab] go. *)
Definition release (lab : lid) (l : EventLabel.t) (g : t) : res t :=
  g ← (if Class.isRead (kind l) then
         match readsFrom l with
         | None => Ok g
         | Some o =>
             lo ← label g o;
             let g := if Class.isWrite (kind lo) then write_removeReader o lab g else g in
             Ok (if Class.isKind Kind.Init (kind lo) then init_removeReader o (getAddr l) lab g else g)
         end
       else Ok g);
  Ok (if Class.isWrite (kind l) then clear_readers (readerList l) g else g).

Definition drop_access (lab : lid) (a : SAddr.t) (g : t) : t :=
  set_accessMap (<[a := unlink lab (list_at (accessMap_ g) a)]> (accessMap_ g)) g.

(** The links from the labels of other threads: a creation looks at the first
    label of its own thread, a join at the last one of its child. *)
Definition forget_thread (l : EventLabel.t) (g : t) : res t :=
  g ← (if Class.isKind Kind.ThreadCreate (kind l) then
         ts ← getFirstThreadLabel g (getThread l);
         Ok (match ts with Some i => upd i (setCreate None) g | None => g end)
       else Ok g);
  if Class.isKind Kind.ThreadJoin (kind l) then
    e ← getLastThreadLabel g (childId l);
    e ← dyn_cast_if_present (Class.isKind Kind.ThreadFinish) g e;
    Ok (match e with Some i => upd i (setParentJoin None) g | None => g end)
  else Ok g.

Definition removeLast (thread : Z) (g : t) : res (t * lid) :=
  lastp ← getLastThreadLabel g thread;
  lab ← deref lastp;
  l ← label g lab;
  g ← release lab l g;
  let g := if Class.isMemAccess (kind l) then drop_access lab (getAddr l) g else g in
  let g := if Class.isFree (kind l) then drop_access lab (getAddr l) g else g in
  g ← forget_thread l g;
  let g := set_insertionOrder (unlink lab (insertionOrder g)) g in
  po ← vec_at (poLists g) (getThread l);
  pos' ← vec_set (poLists g) (getThread l) (unlink lab po);
  let g := upd lab (setParent false) (set_poLists pos' g) in
  th ← vec_at (events g) thread;
  popped ← deref (last th);
  evs ← vec_set (events g) thread (removelast th);
  Ok (set_events evs g, popped).

(** ** Well-formed graphs *)

(** The labels the graph owns. *)
Definition in_graph (g : t) (i : lid) : Prop := i ∈ concat (events g).

(** The readers that [w] lists for an address: writes keep one list, the
    initializer one per location. *)
Definition readers_at (l : EventLabel.t) (a : SAddr.t) : list lid :=
  if Class.isWrite (kind l) then readerList l
  else if Class.isKind Kind.Init (kind l) then list_at (initRfs l) a else [].

(** Labels recorded in [accessMap_]. *)
Definition tracked (l : EventLabel.t) : bool := Class.isMemAccess (kind l) || Class.isFree (kind l).

Record wf (g : t) : Prop := {
  (* program order lists the owned labels *)
  wf_po : poLists g = events g;
  (* a label knows its position *)
  wf_pos t th k i : events g !! t = Some th -> th !! k = Some i ->
    exists l, store g !! i = Some l /\ position l = Event.Event (Z.of_nat t) (Z.of_nat k);
  (* every label has been inserted once *)
  wf_io : insertionOrder g ≡ₚ concat (events g);
  (* the initializer *)
  wf_init : exists i l, getInitLabel g = Ok i /\ store g !! i = Some l /\ kind l = Kind.Init;
  (* reads-from and readers agree *)
  wf_rf r lr w : in_graph g r -> store g !! r = Some lr -> Class.isRead (kind lr) = true ->
    readsFrom lr = Some w -> in_graph g w /\ exists lw, store g !! w = Some lw /\ r ∈ readers_at lw (getAddr lr);
  wf_readers w lw a r : in_graph g w -> store g !! w = Some lw -> r ∈ readers_at lw a ->
    in_graph g r /\ exists lr, store g !! r = Some lr /\ Class.isRead (kind lr) = true /\
      readsFrom lr = Some w /\ (kind lw = Kind.Init -> getAddr lr = a);
  wf_readers_nodup w lw a : in_graph g w -> store g !! w = Some lw -> NoDup (readers_at lw a);
  (* coherence orders writes to the location *)
  wf_co a w : w ∈ list_at (coherence g) a ->
    in_graph g w /\ exists lw, store g !! w = Some lw /\ Class.isWrite (kind lw) = true /\ getAddr lw = a;
  wf_co_nodup a : NoDup (list_at (coherence g) a);
  (* accesses are recorded, at tracked locations *)
  wf_acc a x : x ∈ list_at (accessMap_ g) a <->
    in_graph g x /\ exists l, store g !! x = Some l /\ tracked l = true /\ getAddr l = a;
  wf_loc x l : in_graph g x -> store g !! x = Some l -> tracked l = true -> is_Some (coherence g !! getAddr l)
}.

(** *** Lists of lists *)
Lemma concat_insert {A} (ll : list (list A)) t th th' : ll !! t = Some th ->
  exists l1 l2, concat ll = l1 ++ th ++ l2 /\ concat (<[t := th']> ll) = l1 ++ th' ++ l2.
Proof.
  intros Ht. exists (concat (take t ll)), (concat (drop (S t) ll)). split.
  - rewrite <- (take_drop_middle ll t th Ht) at 1. by rewrite concat_app.
  - rewrite insert_take_drop by (by eapply lookup_lt_Some). by rewrite concat_app.
Qed.

Lemma elem_concat {A} (ll : list (list A)) x :
  x ∈ concat ll <-> exists t th k, ll !! t = Some th /\ th !! k = Some x.
Proof.
  rewrite list_elem_of_In, in_concat. split.
  - intros (th & Hth & Hx). apply list_elem_of_In, list_elem_of_lookup in Hth as [t Ht].
    apply list_elem_of_In, list_elem_of_lookup in Hx as [k Hk]. eauto.
  - intros (t & th & k & Ht & Hk). exists th. split; apply list_elem_of_In, list_elem_of_lookup; eauto.
Qed.

Lemma vec_at_ok {A} (v : list A) n x : v !! n = Some x -> vec_at v (Z.of_nat n) = Ok x.
Proof. intros E. unfold vec_at. rewrite decide_False by lia. by rewrite Nat2Z.id, E. Qed.
Lemma vec_at_inv {A} (v : list A) i x : vec_at v i = Ok x -> 0 <= i /\ v !! Z.to_nat i = Some x.
Proof. unfold vec_at. case_decide; [done|]. intros E. res_inv. split; [lia|done]. Qed.
Lemma vec_set_ok {A} (v : list A) n x y : v !! n = Some y -> vec_set v (Z.of_nat n) x = Ok (<[n := x]> v).
Proof.
  intros E. apply lookup_lt_Some in E. unfold vec_set. rewrite decide_True by lia. by rewrite Nat2Z.id.
Qed.

(** Labels that know their positions are not listed twice. *)
Lemma placed_nodup (g : t) n ll : (forall t th k i, ll !! t = Some th -> th !! k = Some i ->
   exists l, store g !! i = Some l /\ position l = Event.Event (Z.of_nat (n + t)) (Z.of_nat k)) -> NoDup (concat ll).
Proof.
  revert n. induction ll as [|th ll IH]; intros n Hp; cbn; [constructor|].
  rewrite NoDup_app. split_and!.
  - apply NoDup_alt. intros k k' i Hk Hk'. destruct (Hp 0%nat th k i eq_refl Hk) as (l & Hl & E).
    destruct (Hp 0%nat th k' i eq_refl Hk') as (l' & Hl' & E'). simplify_eq. rewrite E in E'.
    injection E' as E'. lia.
  - intros i Hi Hc. apply list_elem_of_lookup in Hi as [k Hk]. apply elem_concat in Hc as (t & th' & k' & Ht & Hk').
    destruct (Hp 0%nat th k i eq_refl Hk) as (l & Hl & E).
    destruct (Hp (S t) th' k' i Ht Hk') as (l' & Hl' & E'). simplify_eq. rewrite E in E'. injection E' as E' _. lia.
  - apply (IH (S n)). intros t th' k i Ht Hk. destruct (Hp (S t) th' k i Ht Hk) as (l & ? & E).
    exists l. split; [done|]. rewrite E. f_equal; lia.
Qed.

(** *** Consequences of the invariant *)
Section wf.
Context (g : t) (Hg : wf g).

Lemma in_graph_pos i : in_graph g i ->
  exists t th k l, events g !! t = Some th /\ th !! k = Some i /\ store g !! i = Some l /\
    position l = Event.Event (Z.of_nat t) (Z.of_nat k).
Proof.
  intros (t & th & k & Ht & Hk)%elem_concat. destruct (wf_pos g Hg t th k i Ht Hk) as (l & Hl & Hp).
  by exists t, th, k, l.
Qed.

Lemma getEventLabel_pos t th k i : events g !! t = Some th -> th !! k = Some i ->
  getEventLabel g (Event.Event (Z.of_nat t) (Z.of_nat k)) = Ok i.
Proof. intros Ht Hk. unfold getEventLabel. cbn. rewrite (vec_at_ok _ _ _ Ht). cbn. by apply vec_at_ok. Qed.

(** A position holds one label. *)
Lemma pos_inj i j li lj : in_graph g i -> in_graph g j -> store g !! i = Some li -> store g !! j = Some lj ->
  position li = position lj -> i = j.
Proof.
  intros Hi Hj Hli Hlj E. destruct (in_graph_pos i Hi) as (t & th & k & l & Ht & Hk & Hl & Hp).
  destruct (in_graph_pos j Hj) as (t' & th' & k' & l' & Ht' & Hk' & Hl' & Hp'). simplify_eq.
  rewrite Hp, Hp' in E. injection E as E1 E2. assert (t = t') by lia. assert (k = k') by lia. by simplify_eq.
Qed.

Lemma in_graph_store i : in_graph g i -> exists l, store g !! i = Some l.
Proof. intros (?&?&?&l&?&?&?&?)%in_graph_pos. by exists l. Qed.

Lemma concat_nodup : NoDup (concat (events g)).
Proof. by apply (placed_nodup g 0%nat), wf_pos. Qed.
End wf.

(** *** Changes of the store that keep the structure *)
Definition same_struct (g g' : t) : Prop :=
  events g' = events g /\ poLists g' = poLists g /\ insertionOrder g' = insertionOrder g /\
  coherence g' = coherence g /\ accessMap_ g' = accessMap_ g.
Definition same_static (l l' : EventLabel.t) : Prop :=
  kind l' = kind l /\ position l' = position l /\ access l' = access l.
Definition store_sim (g g' : t) : Prop :=
  forall i, option_Forall2 same_static (store g !! i) (store g' !! i).

Lemma store_sim_lookup g g' i l : store_sim g g' -> store g !! i = Some l ->
  exists l', store g' !! i = Some l' /\ same_static l l'.
Proof. intros H E. specialize (H i). rewrite E in H. inversion H; eauto. Qed.
Lemma store_sim_inv g g' i l' : store_sim g g' -> store g' !! i = Some l' ->
  exists l, store g !! i = Some l /\ same_static l l'.
Proof. intros H E. specialize (H i). rewrite E in H. inversion H; eauto. Qed.

Lemma tracked_static l l' : same_static l l' -> tracked l' = tracked l.
Proof. intros (H & _ & _). unfold tracked. by rewrite H. Qed.
Lemma addr_static l l' : same_static l l' -> getAddr l' = getAddr l.
Proof. intros (_ & _ & H). unfold getAddr. by rewrite H. Qed.

(** Only the reads-from clauses are left to prove. *)
Record rf_wf (g : t) : Prop := {
  rf_fwd r lr w : in_graph g r -> store g !! r = Some lr -> Class.isRead (kind lr) = true ->
    readsFrom lr = Some w -> in_graph g w /\ exists lw, store g !! w = Some lw /\ r ∈ readers_at lw (getAddr lr);
  rf_bwd w lw a r : in_graph g w -> store g !! w = Some lw -> r ∈ readers_at lw a ->
    in_graph g r /\ exists lr, store g !! r = Some lr /\ Class.isRead (kind lr) = true /\
      readsFrom lr = Some w /\ (kind lw = Kind.Init -> getAddr lr = a);
  rf_nodup w lw a : in_graph g w -> store g !! w = Some lw -> NoDup (readers_at lw a)
}.

Lemma wf_rf_wf g : wf g -> rf_wf g.
Proof. intros []. by split. Qed.

Lemma wf_restore g g' : wf g -> same_struct g g' -> store_sim g g' -> rf_wf g' -> wf g'.
Proof.
  intros Hg (Ee & Ep & Ei & Ec & Ea) Hs [R1 R2 R3]. destruct Hg as [H1 H2 H3 H4 _ _ _ H8 H9 H10 H11].
  split; try done; unfold in_graph, getInitLabel, getEventLabel in *; rewrite ?Ee, ?Ep, ?Ei, ?Ec, ?Ea; try done.
  - intros t th k i Ht Hk. destruct (H2 t th k i Ht Hk) as (l & Hl & Hp).
    destruct (store_sim_lookup g g' i l Hs Hl) as (l' & Hl' & _ & E & _). exists l'. by rewrite E.
  - destruct H4 as (i & l & Hi & Hl & Hk). destruct (store_sim_lookup g g' i l Hs Hl) as (l' & Hl' & E & _).
    exists i, l'. by rewrite E.
  - intros a w Hw. destruct (H8 a w Hw) as (Hin & lw & Hl & Hk & Had). split; [done|].
    destruct (store_sim_lookup g g' w lw Hs Hl) as (l' & Hl' & Hst). exists l'.
    split_and!; [done| |by rewrite (addr_static _ _ Hst)]. destruct Hst as (-> & _). done.
  - intros a x. rewrite H10. split; intros (Hin & l & Hl & Htr & Had); (split; [done|]).
    + destruct (store_sim_lookup g g' x l Hs Hl) as (l' & Hl' & Hst). exists l'.
      by rewrite (tracked_static _ _ Hst), (addr_static _ _ Hst).
    + destruct (store_sim_inv g g' x l Hs Hl) as (l' & Hl' & Hst). exists l'.
      by rewrite <- (tracked_static _ _ Hst), <- (addr_static _ _ Hst).
  - intros x l Hx Hl Htr. destruct (store_sim_inv g g' x l Hs Hl) as (l' & Hl' & Hst).
    rewrite (addr_static _ _ Hst). apply (H11 x l'); [done..|]. by rewrite <- (tracked_static _ _ Hst).
Qed.

(** Dropping a read from the reads-from relation. *)
Lemma rf_del g g' r : wf g -> same_struct g g' -> store_sim g g' ->
  (forall i l l', store g !! i = Some l -> store g' !! i = Some l' ->
     readsFrom l' = (if decide (i = r) then None else readsFrom l) /\
     forall a, in_graph g i -> readers_at l' a = unlink r (readers_at l a)) ->
  wf g'.
Proof.
  intros Hg Hst Hs H. apply (wf_restore g g' Hg Hst Hs). destruct Hst as (Ee & _).
  split; unfold in_graph; rewrite Ee; fold (in_graph g).
  - intros x lx' w Hx Hlx' Hk Hw. destruct (store_sim_inv g g' x lx' Hs Hlx') as (lx & Hlx & Hsx).
    destruct (H x lx lx' Hlx Hlx') as [Hrf _]. rewrite Hw in Hrf. case_decide as D; [done|].
    destruct Hsx as (Ekx & _ & Eax). rewrite Ekx in Hk.
    destruct (wf_rf g Hg x lx w Hx Hlx Hk (eq_sym Hrf)) as (Hinw & lw & Hlw & Hr).
    split; [done|]. destruct (store_sim_lookup g g' w lw Hs Hlw) as (lw' & Hlw' & _). exists lw'. split; [done|].
    destruct (H w lw lw' Hlw Hlw') as [_ Hrd]. rewrite Hrd by done. unfold unlink. apply list_elem_of_filter.
    unfold getAddr. rewrite Eax. done.
  - intros w lw' a x Hw Hlw' Hx. destruct (store_sim_inv g g' w lw' Hs Hlw') as (lw & Hlw & Hsw).
    destruct (H w lw lw' Hlw Hlw') as [_ Hrd]. rewrite Hrd in Hx by done.
    apply list_elem_of_filter in Hx as [Hne Hx].
    destruct (wf_readers g Hg w lw a x Hw Hlw Hx) as (Hin & lx & Hlx & Hk & Hrf & Ha). split; [done|].
    destruct (store_sim_lookup g g' x lx Hs Hlx) as (lx' & Hlx' & Hsx). exists lx'.
    destruct (H x lx lx' Hlx Hlx') as [E _]. rewrite decide_False in E by done.
    split_and!; [done| |by rewrite E|].
    + destruct Hsx as (-> & _). done.
    + rewrite (addr_static _ _ Hsx). destruct Hsw as (-> & _). done.
  - intros w lw' a Hw Hlw'. destruct (store_sim_inv g g' w lw' Hs Hlw') as (lw & Hlw & _).
    destruct (H w lw lw' Hlw Hlw') as [_ Hrd]. rewrite Hrd by done.
    apply NoDup_filter. by eapply (wf_readers_nodup g Hg).
Qed.

(** Adding a read that reads from nothing yet. *)
Lemma rf_ins g g' r lr w lw : wf g -> same_struct g g' -> store_sim g g' ->
  in_graph g r -> store g !! r = Some lr -> Class.isRead (kind lr) = true -> readsFrom lr = None ->
  in_graph g w -> store g !! w = Some lw -> Class.isWrite (kind lw) = true \/ kind lw = Kind.Init ->
  (forall i l l', store g !! i = Some l -> store g' !! i = Some l' ->
     readsFrom l' = (if decide (i = r) then Some w else readsFrom l) /\
     forall a, in_graph g i -> readers_at l' a =
       readers_at l a ++ (if decide (i = w /\ (kind lw = Kind.Init -> a = getAddr lr)) then [r] else [])) ->
  wf g'.
Proof.
  intros Hg Hst Hs Hinr Hlr Hkr Hrf0 Hinw Hlw Hkw H. apply (wf_restore g g' Hg Hst Hs). destruct Hst as (Ee & _).
  assert (Hnone : forall x lx a, in_graph g x -> store g !! x = Some lx -> r ∉ readers_at lx a).
  { intros x lx a Hx Hlx Hr. destruct (wf_readers g Hg x lx a r Hx Hlx Hr) as (_ & l & Hl & _ & E & _). congruence. }
  split; unfold in_graph; rewrite Ee; fold (in_graph g).
  - intros x lx' w' Hx Hlx' Hk Hw. destruct (store_sim_inv g g' x lx' Hs Hlx') as (lx & Hlx & Hsx).
    destruct (H x lx lx' Hlx Hlx') as [Hrf _]. rewrite Hw in Hrf. rewrite (addr_static _ _ Hsx).
    case_decide as D.
    + injection Hrf as ->. subst x. split; [done|].
      destruct (store_sim_lookup g g' w lw Hs Hlw) as (lw' & Hlw' & _). exists lw'. split; [done|].
      destruct (H w lw lw' Hlw Hlw') as [_ ->]; [|done]. apply elem_of_app. right. simplify_eq.
      rewrite decide_True by done. by left.
    + destruct Hsx as (Ekx & _). rewrite Ekx in Hk.
      destruct (wf_rf g Hg x lx w' Hx Hlx Hk (eq_sym Hrf)) as (Hin' & lw0 & Hlw0 & Hr).
      split; [done|]. destruct (store_sim_lookup g g' w' lw0 Hs Hlw0) as (lw' & Hlw' & _). exists lw'. split; [done|].
      destruct (H w' lw0 lw' Hlw0 Hlw') as [_ ->]; [|done]. apply elem_of_app. by left.
  - intros x lx' a y Hx Hlx' Hy. destruct (store_sim_inv g g' x lx' Hs Hlx') as (lx & Hlx & Hsx).
    destruct (H x lx lx' Hlx Hlx') as [_ Hrd]. rewrite Hrd in Hy by done. apply elem_of_app in Hy as [Hy|Hy].
    + destruct (wf_readers g Hg x lx a y Hx Hlx Hy) as (Hin & ly & Hly & Hk & Hrf & Ha). split; [done|].
      destruct (store_sim_lookup g g' y ly Hs Hly) as (ly' & Hly' & Hsy). exists ly'.
      destruct (H y ly ly' Hly Hly') as [E _]. rewrite decide_False in E by (intros ->; congruence).
      split_and!; [done| |by rewrite E|].
      * destruct Hsy as (-> & _). done.
      * rewrite (addr_static _ _ Hsy). destruct Hsx as (-> & _). done.
    + destruct (decide (_ /\ _)) as [D|]; [|by apply not_elem_of_nil in Hy]. apply list_elem_of_singleton in Hy as ->.
      destruct D as [-> Ha]. simplify_eq. split; [done|].
      destruct (store_sim_lookup g g' r lr Hs Hlr) as (lr' & Hlr' & Hsr). exists lr'.
      destruct (H r lr lr' Hlr Hlr') as [E _]. rewrite decide_True in E by done.
      split_and!; [done| |done|].
      * destruct Hsr as (-> & _). done.
      * rewrite (addr_static _ _ Hsr). destruct Hsx as (-> & _). intros Hi. symmetry. auto.
  - intros x lx' a Hx Hlx'. destruct (store_sim_inv g g' x lx' Hs Hlx') as (lx & Hlx & _).
    destruct (H x lx lx' Hlx Hlx') as [_ Hrd]. rewrite Hrd by done.
    apply NoDup_app. split_and!; [by eapply (wf_readers_nodup g Hg)| |destruct (decide (_ /\ _)); [apply NoDup_singleton|constructor]].
    intros y Hy Hy'. destruct (decide (_ /\ _)); [|by apply not_elem_of_nil in Hy'].
    apply list_elem_of_singleton in Hy' as ->. by eapply Hnone.
Qed.

(** *** Reads-from *)
Lemma upd_lookup i f g j :
  store (upd i f g) !! j = if decide (i = j) then f <$> store g !! j else store g !! j.
Proof. unfold upd. cbn. case_decide; [subst; apply lookup_alter_eq|by apply lookup_alter_ne]. Qed.

Lemma upd_sim i f g : (forall l, same_static l (f l)) -> store_sim g (upd i f g).
Proof.
  intros Hf j. rewrite upd_lookup. destruct (store g !! j); cbn; case_decide; cbn; constructor; [apply Hf|done].
Qed.
Lemma sim_refl g : store_sim g g.
Proof. intros i. destruct (store g !! i); by constructor. Qed.
Lemma sim_trans g1 g2 g3 : store_sim g1 g2 -> store_sim g2 g3 -> store_sim g1 g3.
Proof.
  intros H1 H2 i. specialize (H1 i). specialize (H2 i). inversion H1; inversion H2; simplify_eq; try congruence;
    try (rewrite <- H0 in *; congruence); constructor.
  unfold same_static in *. naive_solver congruence.
Qed.

Lemma list_at_insert m a l a' : list_at (<[a := l]> m) a' = if decide (a = a') then l else list_at m a'.
Proof.
  unfold list_at. case_decide; [subst; by rewrite lookup_insert_eq|by rewrite lookup_insert_ne].
Qed.
Lemma list_at_touch a m a' : list_at (touch a m) a' = list_at m a'.
Proof.
  unfold touch. destruct (m !! a) eqn:E; [done|]. rewrite list_at_insert. case_decide; [|done].
  subst. unfold list_at. by rewrite E.
Qed.

Lemma unlink_notin i l : i ∉ l -> unlink i l = l.
Proof. intros H. apply list_filter_all. intros x Hx ->. done. Qed.
Lemma elem_unlink i l x : x ∈ unlink i l <-> x ∈ l /\ x <> i.
Proof. unfold unlink. rewrite list_elem_of_filter. tauto. Qed.

Lemma unlink_perm i l l' : l ≡ₚ i :: l' -> NoDup (i :: l') -> unlink i l ≡ₚ l'.
Proof.
  intros Hp [Hi Hnd]%NoDup_cons. unfold unlink. rewrite Hp, filter_cons_False by naive_solver.
  by rewrite (list_filter_all (.≠ i) l') by (intros x Hx ->; done).
Qed.

Lemma kind_disjoint k : Class.isRead k = true -> Class.isWrite k = false /\ k <> Kind.Init.
Proof. by destruct k. Qed.
Lemma write_not_init k : Class.isWrite k = true -> k <> Kind.Init.
Proof. by destruct k. Qed.
Lemma isKind_spec k k' : Class.isKind k' k = true <-> k = k'.
Proof. apply bool_decide_eq_true. Qed.

(** What [setRf] does before the new edge: the read is gone from the old list. *)
Definition drop_reader (o r : lid) (a : SAddr.t) (lo : EventLabel.t) (g : t) : t :=
  if Class.isWrite (kind lo) then write_removeReader o r g else init_removeReader o a r g.

Lemma drop_reader_struct o r a lo g : same_struct g (drop_reader o r a lo g).
Proof. unfold drop_reader. by destruct (Class.isWrite _). Qed.

(** The store after it, label by label. *)
Lemma drop_reader_lookup o r a lo g i :
  store g !! o = Some lo ->
  store (drop_reader o r a lo g) !! i =
    if decide (o = i) then
      Some (if Class.isWrite (kind lo) then with_readerList (unlink r (readerList lo)) lo
            else with_initRfs (<[a := unlink r (list_at (initRfs lo) a)]> (initRfs lo)) lo)
    else store g !! i.
Proof.
  intros Hlo. unfold drop_reader, write_removeReader, init_removeReader.
  destruct (Class.isWrite (kind lo)); rewrite upd_lookup; case_decide; try done; subst; by rewrite Hlo.
Qed.

Lemma unset_wf g r lr o lo : wf g -> in_graph g r -> store g !! r = Some lr -> Class.isRead (kind lr) = true ->
  readsFrom lr = Some o -> store g !! o = Some lo ->
  wf (upd r (setRfNoCascade None) (drop_reader o r (getAddr lr) lo g)).
Proof.
  intros Hg Hr Hlr Hk Hrf Hlo. set (g' := upd _ _ _).
  destruct (wf_rf g Hg r lr o Hr Hlr Hk Hrf) as (Hino & lo' & Hlo' & Hin). simplify_eq.
  assert (Hko : Class.isWrite (kind lo) = false -> kind lo = Kind.Init).
  { intros E. unfold readers_at in Hin. rewrite E in Hin. destruct (Class.isKind Kind.Init (kind lo)) eqn:E';
      [by apply isKind_spec|by apply not_elem_of_nil in Hin]. }
  assert (Hor : o <> r).
  { intros ->. simplify_eq. destruct (kind_disjoint _ Hk) as [H1 H2]. auto. }
  assert (Hst : forall i l l', store g !! i = Some l -> store g' !! i = Some l' ->
    l' = if decide (i = r) then setRfNoCascade None l else
         if decide (i = o) then (if Class.isWrite (kind lo) then with_readerList (unlink r (readerList lo)) lo
            else with_initRfs (<[getAddr lr := unlink r (list_at (initRfs lo) (getAddr lr))]> (initRfs lo)) lo)
         else l).
  { intros i l l' Hl Hl'. unfold g' in Hl'. rewrite upd_lookup, (drop_reader_lookup _ _ _ _ _ _ Hlo) in Hl'.
    destruct (decide (i = r)) as [->|].
    - rewrite decide_True, decide_False, Hl in Hl' by done. cbn in Hl'. congruence.
    - rewrite decide_False in Hl' by congruence. destruct (decide (i = o)) as [->|].
      + rewrite decide_True in Hl' by done. congruence.
      + rewrite decide_False in Hl' by congruence. congruence. }
  apply (rf_del g g' r Hg).
  - apply drop_reader_struct.
  - intros i. unfold g'. rewrite upd_lookup, (drop_reader_lookup _ _ _ _ _ _ Hlo).
    case_decide; case_decide; simplify_eq; rewrite ?Hlr, ?Hlo; try (constructor; done).
    + constructor. by destruct (Class.isWrite _).
    + destruct (store g !! i); by constructor.
  - intros i l l' Hl Hl'. rewrite (Hst i l l' Hl Hl'). clear Hst Hl'.
    destruct (decide (i = r)) as [->|Hir].
    + split; [done|]. intros a _. simplify_eq. unfold readers_at. cbn.
      destruct (kind_disjoint _ Hk) as [-> E]. by destruct (Class.isKind Kind.Init (kind lr)) eqn:E'; [apply isKind_spec in E'|].
    + destruct (decide (i = o)) as [->|Hio].
      * assert (l = lo) as -> by congruence. destruct (Class.isWrite (kind lo)) eqn:Ew.
        -- split; [done|]. intros a _. unfold readers_at. cbn. by rewrite Ew.
        -- split; [done|]. intros a _. specialize (Hko eq_refl). unfold readers_at. cbn. rewrite Ew.
           rewrite (proj2 (isKind_spec _ _) Hko), list_at_insert. case_decide as Ea; [by subst|].
           symmetry. apply unlink_notin. intros Hra.
           destruct (wf_readers g Hg o lo a r Hino Hlo) as (_ & l2 & Hl2 & _ & _ & Hia).
           { unfold readers_at. by rewrite Ew, (proj2 (isKind_spec _ _) Hko). }
           simplify_eq. by apply Ea, Hia.
      * split; [done|]. intros a Hi. symmetry. apply unlink_notin. intros Hra.
        destruct (wf_readers g Hg i l a r Hi Hl Hra) as (_ & l2 & Hl2 & _ & E & _). simplify_eq.
Qed.

(** Updates of the store as functions. *)
Lemma upd_upd i f h g : upd i f (upd i h g) = upd i (f ∘ h) g.
Proof. unfold upd, set_store. cbn. f_equal. apply map_eq. intros k.
  destruct (decide (i = k)) as [->|]; [|by rewrite !lookup_alter_ne]. rewrite !lookup_alter_eq. by destruct (store g !! k).
Qed.
Lemma upd_comm i j f h g : i <> j -> upd i f (upd j h g) = upd j h (upd i f g).
Proof. intros Hij. unfold upd, set_store. cbn. f_equal. apply map_eq. intros k.
  destruct (decide (i = k)) as [->|]; rewrite ?lookup_alter_eq, ?lookup_alter_ne by done;
  destruct (decide (j = k)) as [->|]; rewrite ?lookup_alter_eq, ?lookup_alter_ne by done; done.
Qed.
Lemma upd_id i f g : (forall l, store g !! i = Some l -> f l = l) -> upd i f g = g.
Proof. intros H. unfold upd, set_store. rewrite alter_id by done. by destruct g. Qed.
Lemma drop_reader_upd o r a lo f g : o <> r -> drop_reader o r a lo (upd r f g) = upd r f (drop_reader o r a lo g).
Proof. intros H. unfold drop_reader, write_removeReader, init_removeReader. destruct (Class.isWrite _); by apply upd_comm. Qed.
Lemma label_ok g i l : store g !! i = Some l -> label g i = Ok l.
Proof. unfold label. by intros ->. Qed.
Lemma foldM_const {A S} (f : S -> A -> res S) s l : (forall x, x ∈ l -> f s x = Ok s) -> foldM f s l = Ok s.
Proof.
  induction l as [|x l IH]; intros H; [done|]. cbn. rewrite H by (by left). cbn. apply IH. intros. apply H. by right.
Qed.

Lemma no_reader_at_ok g p l : (forall j, j ∈ l -> exists lj, store g !! j = Some lj /\ position lj <> p) ->
  no_reader_at g p l = Ok true.
Proof.
  intros H. apply foldM_const. intros j Hj. destruct (H j Hj) as (lj & Hlj & Hp).
  rewrite (label_ok _ _ _ Hlj). cbn. by rewrite bool_decide_false.
Qed.

(** The labels that can be read from. *)
Definition source_ok (g : t) (w : lid) : Prop :=
  in_graph g w /\ exists lw, store g !! w = Some lw /\ (Class.isWrite (kind lw) = true \/ kind lw = Kind.Init).

(** Linking a read behind a write or the initializer. *)
Definition link_reader (r : lid) (a : SAddr.t) (k : Kind.t) (l : EventLabel.t) : EventLabel.t :=
  if Class.isWrite k then with_readerList (readerList l ++ [r]) l
  else with_initRfs (<[a := list_at (initRfs l) a ++ [r]]> (initRfs l)) l.

Lemma link_wf g r lr w lw f : wf g -> in_graph g r -> store g !! r = Some lr -> Class.isRead (kind lr) = true ->
  readsFrom lr = None -> in_graph g w -> store g !! w = Some lw ->
  Class.isWrite (kind lw) = true \/ kind lw = Kind.Init ->
  (forall l, same_static l (f l) /\ readsFrom (f l) = Some w) ->
  wf (upd w (link_reader r (getAddr lr) (kind lw)) (upd r f g)).
Proof.
  intros Hg Hr Hlr Hk Hrf Hw Hlw Hkw Hf.
  assert (Hwr : w <> r).
  { intros ->. simplify_eq. destruct (kind_disjoint _ Hk) as [E1 E2]. destruct Hkw; congruence. }
  assert (Hlink : forall l, same_static l (link_reader r (getAddr lr) (kind lw) l) /\
                    readsFrom (link_reader r (getAddr lr) (kind lw) l) = readsFrom l).
  { intros l. unfold link_reader. by destruct (Class.isWrite _). }
  apply (rf_ins g _ r lr w lw Hg); try done.
  - eapply sim_trans; apply upd_sim; intros l; [apply Hf|apply Hlink].
  - intros i l l' Hl. rewrite upd_lookup, upd_lookup. rewrite Hl. cbn.
    destruct (decide (i = r)) as [->|Hir].
    + rewrite decide_False, decide_True by done. intros [= <-]. destruct (Hf l) as [(Ek & _) Ef]. split; [done|].
      intros a _. rewrite decide_False by naive_solver. simplify_eq. unfold readers_at. rewrite Ek.
      destruct (kind_disjoint _ Hk) as [-> E]. by destruct (Class.isKind Kind.Init _) eqn:E'; [apply isKind_spec in E'|].
    + rewrite (decide_False (P := r = i)) by done. destruct (decide (w = i)) as [<-|Hwi].
      * cbn. intros [= <-]. simplify_eq. split; [by apply Hlink|]. intros a _. unfold readers_at, link_reader.
        destruct Hkw as [E|E].
        -- rewrite E. cbn. rewrite E. by rewrite decide_True by (split; [done|intros E'; by destruct (write_not_init _ E E')]).
        -- rewrite E. cbn. rewrite E. cbn. rewrite list_at_insert. case_decide.
           ++ subst. by rewrite decide_True.
           ++ rewrite decide_False by naive_solver. by rewrite app_nil_r.
      * intros [= <-]. split; [done|]. intros a _. rewrite decide_False by naive_solver. by rewrite app_nil_r.
Qed.

(** [setRf], in terms of unlinking and linking. *)
Lemma co_max_ok g x l : wf g -> in_graph g x -> store g !! x = Some l -> tracked l = true ->
  exists m, co_max g (getAddr l) = Ok m.
Proof.
  intros Hg Hx Hl Htr. destruct (wf_loc g Hg x l Hx Hl Htr) as [c Hc]. unfold co_max, at_loc. rewrite Hc. cbn.
  destruct (wf_init g Hg) as (i & ? & Hi & _). destruct (last c); eauto.
Qed.
Lemma tracked_read l : Class.isRead (kind l) = true -> tracked l = true.
Proof. unfold tracked. by destruct (kind l). Qed.

Lemma addReader_ok g r lr w lw f : wf g -> in_graph g r -> store g !! r = Some lr -> Class.isRead (kind lr) = true ->
  readsFrom lr = None -> in_graph g w -> store g !! w = Some lw ->
  Class.isWrite (kind lw) = true \/ kind lw = Kind.Init -> (forall l, same_static l (f l)) ->
  let g1 := upd r f g in
  (l ← label g1 w; if Class.isWrite (kind l) then write_addReader w r g1
   else if Class.isKind Kind.Init (kind l) then init_addReader w r g1 else Abort Unreachable) =
  Ok (upd w (link_reader r (getAddr lr) (kind lw)) g1).
Proof.
  intros Hg Hr Hlr Hk Hrf Hw Hlw Hkw Hf g1.
  assert (Hwr : r <> w).
  { intros ->. simplify_eq. destruct (kind_disjoint _ Hk) as [E1 E2]. destruct Hkw; congruence. }
  assert (Hlw1 : store g1 !! w = Some lw) by (unfold g1; by rewrite upd_lookup, decide_False).
  assert (Hlr1 : store g1 !! r = Some (f lr)) by (unfold g1; by rewrite upd_lookup, decide_True, Hlr).
  assert (Hnr : forall a, no_reader_at g1 (position (f lr)) (readers_at lw a) = Ok true).
  { intros a. apply no_reader_at_ok. intros j Hj. destruct (Hf lr) as (_ & -> & _).
    destruct (wf_readers g Hg w lw a j Hw Hlw Hj) as (Hinj & lj & Hlj & _ & Hjrf & _).
    assert (r <> j) by congruence. exists lj. unfold g1. rewrite upd_lookup, decide_False by done. split; [done|].
    intros E. by apply (pos_inj g Hg j r) with lj lr in E. }
  rewrite (label_ok _ _ _ Hlw1). cbn. unfold write_addReader, init_addReader, link_reader.
  rewrite (label_ok _ _ _ Hlw1), (label_ok _ _ _ Hlr1). cbn. specialize (Hnr (getAddr lr)). unfold readers_at in Hnr.
  rewrite (addr_static _ _ (Hf lr)). destruct Hkw as [E|E]; rewrite E in *; [by rewrite Hnr|].
  change (no_reader_at g1 (position (f lr)) (list_at (initRfs lw) (getAddr lr)) = Ok true) in Hnr. cbn -[no_reader_at].
  by rewrite Hnr.
Qed.

(** The graph once the read has left its old writer. *)
Definition unset (r : lid) (lr : EventLabel.t) (g : t) : t :=
  match readsFrom lr with
  | None => g
  | Some o => match store g !! o with Some lo => drop_reader o r (getAddr lr) lo g | None => g end
  end.

Lemma unset_spec g r lr f : wf g -> in_graph g r -> store g !! r = Some lr -> Class.isRead (kind lr) = true ->
  let d := unset r lr g in
  wf (upd r (setRfNoCascade None) d) /\ same_struct g d /\
  match readsFrom lr with
  | None => Ok (upd r f g)
  | Some o =>
      lo ← label (upd r f g) o;
      if Class.isWrite (kind lo) then Ok (write_removeReader o r (upd r f g))
      else if Class.isKind Kind.Init (kind lo) then Ok (init_removeReader o (getAddr lr) r (upd r f g))
      else Abort Unreachable
  end = Ok (upd r f d).
Proof.
  intros Hg Hr Hlr Hk. unfold unset. destruct (readsFrom lr) as [o|] eqn:Hrf; cbn.
  - destruct (wf_rf g Hg r lr o Hr Hlr Hk Hrf) as (Ho & lo & Hlo & Hin). rewrite Hlo.
    split_and!; [by apply unset_wf|apply drop_reader_struct|].
    assert (Hor : o <> r).
    { intros ->. simplify_eq. unfold readers_at in Hin. destruct (kind_disjoint _ Hk) as [E1 E2]. rewrite E1 in Hin.
      by destruct (Class.isKind _ _) eqn:E3; [apply isKind_spec in E3|apply not_elem_of_nil in Hin]. }
    rewrite (label_ok _ o lo) by (by rewrite upd_lookup, decide_False). cbn.
    rewrite <- drop_reader_upd by done. unfold drop_reader. destruct (Class.isWrite _) eqn:Ew; [done|].
    unfold readers_at in Hin. rewrite Ew in Hin. by destruct (Class.isKind _ _); [|apply not_elem_of_nil in Hin].
  - rewrite upd_id; [done|]. intros l Hl. simplify_eq. rewrite <- Hrf. by destruct lr.
Qed.

Lemma struct_trans g1 g2 g3 : same_struct g1 g2 -> same_struct g2 g3 -> same_struct g1 g3.
Proof. unfold same_struct. intros (->&->&->&->&->) (->&->&->&->&->). done. Qed.
Lemma co_max_struct g g' a : same_struct g g' -> co_max g' a = co_max g a.
Proof. intros (E & _ & _ & Ec & _). unfold co_max, getInitLabel, getEventLabel. by rewrite E, Ec. Qed.

(** The labels a change of reads-from leaves alone, apart from reader lists. *)
Definition rf_frame (r : lid) (g g' : t) : Prop :=
  forall i l, i <> r -> store g !! i = Some l ->
    exists l', store g' !! i = Some l' /\ same_static l l' /\ readsFrom l' = readsFrom l /\
      stamp l' = stamp l /\ value l' = value l /\ maximal l' = maximal l.

Lemma rf_frame_trans r g1 g2 g3 : rf_frame r g1 g2 -> rf_frame r g2 g3 -> rf_frame r g1 g3.
Proof.
  intros H1 H2 i l Hi Hl. destruct (H1 i l Hi Hl) as (l2 & Hl2 & (?&?&?) & ?&?&?&?).
  destruct (H2 i l2 Hi Hl2) as (l3 & Hl3 & (?&?&?) & ?&?&?&?). exists l3. unfold same_static. split_and!; congruence.
Qed.
Lemma upd_self_frame r f g : rf_frame r g (upd r f g).
Proof. intros i l Hi Hl. exists l. by rewrite upd_lookup, decide_False. Qed.
Lemma upd_frame r i f g : (forall l, same_static l (f l) /\ readsFrom (f l) = readsFrom l /\
    stamp (f l) = stamp l /\ value (f l) = value l /\ maximal (f l) = maximal l) -> rf_frame r g (upd i f g).
Proof.
  intros Hf j l _ Hl. rewrite upd_lookup, Hl. destruct (decide (i = j)); cbn; [exists (f l)|exists l]; [|done].
  by split; [|apply Hf].
Qed.
Lemma unset_frame r lr g : rf_frame r g (unset r lr g).
Proof.
  assert (rf_frame r g g) by (intros i l _ Hl; by exists l).
  unfold unset. destruct (readsFrom lr) as [o|]; [|done]. destruct (store g !! o) as [lo|]; [|done].
  unfold drop_reader. destruct (Class.isWrite _); by apply upd_frame.
Qed.
Lemma link_frame r w a k g : rf_frame r g (upd w (link_reader r a k) g).
Proof. apply upd_frame. intros l. unfold link_reader. by destruct (Class.isWrite k). Qed.

Lemma unset_self r lr g : wf g -> in_graph g r -> store g !! r = Some lr -> Class.isRead (kind lr) = true ->
  exists l, store (unset r lr g) !! r = Some l /\ same_static lr l.
Proof.
  intros Hg Hr Hlr Hk. unfold unset. destruct (readsFrom lr) as [o|]; [|by exists lr].
  destruct (store g !! o) as [lo|] eqn:Hlo; [|by exists lr]. rewrite (drop_reader_lookup _ _ _ _ _ _ Hlo).
  case_decide; [subst|by exists lr]. rewrite Hlr in Hlo. injection Hlo as <-.
  destruct (Class.isWrite (kind lr)); by eexists.
Qed.

(** [setRf] succeeds, keeps the graph well-formed, and makes the read read from
    the given label only. *)
Lemma setRf_spec g r lr rf : wf g -> in_graph g r -> store g !! r = Some lr -> Class.isRead (kind lr) = true ->
  (forall w, rf = Some w -> source_ok g w) ->
  exists g' lr', setRf r rf g = Ok g' /\ wf g' /\ same_struct g g' /\ rf_frame r g g' /\
    store g' !! r = Some lr' /\ same_static lr lr' /\ readsFrom lr' = rf /\
    forall w, rf = Some w -> (maximal lr' = true <-> co_max g (getAddr lr) = Ok w).
Proof.
  intros Hg Hr Hlr Hk Hrf. set (d := unset r lr g).
  destruct (unset_spec g r lr (setRfNoCascade rf) Hg Hr Hlr Hk) as (Hwf & Hst & Hun). fold d in Hwf, Hst, Hun.
  destruct (unset_self r lr g Hg Hr Hlr Hk) as (ld & Hld & Hsd). fold d in Hld.
  unfold setRf. rewrite (label_ok _ _ _ Hlr). cbn -[label write_addReader init_addReader]. rewrite Hun. cbn -[label write_addReader init_addReader].
  destruct rf as [w|].
  - destruct (Hrf w eq_refl) as (Hw & lw & Hlw & Hkw).
    assert (Hwr : w <> r).
    { intros ->. simplify_eq. destruct (kind_disjoint _ Hk) as [E1 E2]. destruct Hkw; congruence. }
    set (gm := upd r (setRfNoCascade None) d) in *.
    assert (Hgm : same_struct g gm) by done.
    destruct (rf_frame_trans _ _ _ _ (unset_frame r lr g) (upd_self_frame r (setRfNoCascade None) _) w lw Hwr Hlw)
      as (lw' & Hlw' & Hsw & _). fold d gm in Hlw'.
    assert (Hlm : store gm !! r = Some (setRfNoCascade None ld)) by (unfold gm; by rewrite upd_lookup, decide_True, Hld).
    assert (Had : getAddr (setRfNoCascade None ld) = getAddr lr) by (by apply (addr_static lr)).
    assert (Hin : forall x, in_graph gm x <-> in_graph g x) by (intros x; unfold in_graph; by destruct Hgm as (-> & _)).
    assert (Hkw' : Class.isWrite (kind lw') = true \/ kind lw' = Kind.Init) by (by destruct Hsw as (-> & _)).
    assert (Hkr : Class.isRead (kind (setRfNoCascade None ld)) = true) by (cbn; by destruct Hsd as (-> & _)).
    pose proof (addReader_ok gm r _ w lw' (setRfNoCascade (Some w)) Hwf (proj2 (Hin r) Hr) Hlm Hkr eq_refl
      (proj2 (Hin w) Hw) Hlw' Hkw' ltac:(done)) as Hadd.
    cbv zeta in Hadd. rewrite Had in Hadd.
    assert (Egm : upd r (setRfNoCascade (Some w)) gm = upd r (setRfNoCascade (Some w)) d) by (unfold gm; by rewrite upd_upd).
    rewrite Egm in Hadd. cbn -[label write_addReader init_addReader] in Hadd.
    destruct (label _ w) as [l1|]; [|done]. cbn -[label write_addReader init_addReader] in Hadd |- *.
    rewrite Hadd. cbn -[co_max]. rewrite (co_max_struct g) by done.
    destruct (co_max_ok g r lr Hg Hr Hlr (tracked_read _ Hk)) as [m Hm]. rewrite Hm. cbn.
    eexists _, _. split; [done|]. rewrite upd_comm by done.
    split_and!.
    + rewrite <- Egm, upd_upd. rewrite <- Had. destruct Hsw as (E & _). rewrite <- ?E.
      by apply link_wf; try done; apply Hin.
    + done.
    + eapply rf_frame_trans; [apply unset_frame|]. eapply rf_frame_trans; [apply upd_self_frame|].
      eapply rf_frame_trans; [|apply link_frame]. eapply rf_frame_trans; [|apply upd_self_frame].
      intros i l Hi Hl. by exists l.
    + by rewrite upd_lookup, decide_False, upd_lookup, decide_True, upd_lookup, decide_True, Hld.
    + done.
    + done.
    + intros w' [= ->]. cbn. rewrite bool_decide_eq_true. split; [by intros ->|by intros [= ->]].
  - exists (upd r (setRfNoCascade None) d), (setRfNoCascade None ld). split_and!; try done.
    + eapply rf_frame_trans; [apply unset_frame|apply upd_self_frame].
    + by rewrite upd_lookup, decide_True, Hld.
Qed.

(** *** Coherence *)

(** Writing fields that take no part in the invariant. *)
Definition inert (f : EventLabel.t -> EventLabel.t) : Prop :=
  forall l, same_static l (f l) /\ readsFrom (f l) = readsFrom l /\ forall a, readers_at (f l) a = readers_at l a.

Lemma wf_upd_inert g i f : wf g -> inert f -> wf (upd i f g).
Proof.
  intros Hg Hf. set (g' := upd i f g).
  assert (Hs : store_sim g g') by (apply upd_sim; intros l; apply Hf).
  assert (H : forall j l', store g' !! j = Some l' -> exists l, store g !! j = Some l /\ same_static l l' /\
            readsFrom l' = readsFrom l /\ forall a, readers_at l' a = readers_at l a).
  { intros j l'. unfold g'. rewrite upd_lookup. destruct (store g !! j) as [l|]; case_decide; try done; intros [= <-].
    - exists l. split; [done|apply Hf].
    - by exists l. }
  apply (wf_restore g g' Hg); [done..|]. split; unfold in_graph; cbn; fold (in_graph g).
  - intros r lr' w Hr Hlr Hk Hrf. destruct (H _ _ Hlr) as (lr & Hlr0 & Hst & Erf & _). rewrite Erf in Hrf.
    destruct (wf_rf g Hg r lr w Hr Hlr0) as (Hw & lw & Hlw & Hin); [|done|].
    { by destruct Hst as (<- & _). }
    split; [done|]. destruct (store_sim_lookup g g' w lw Hs Hlw) as (lw' & Hlw' & _). exists lw'. split; [done|].
    destruct (H _ _ Hlw') as (lw0 & Hlw0 & _ & _ & ->). rewrite (addr_static _ _ Hst). by simplify_eq.
  - intros w lw' a r Hw Hlw Hr. destruct (H _ _ Hlw) as (lw & Hlw0 & Hst & _ & Erd). rewrite Erd in Hr.
    destruct (wf_readers g Hg w lw a r Hw Hlw0 Hr) as (Hin & lr & Hlr & Hk & Hrf & Ha). split; [done|].
    destruct (store_sim_lookup g g' r lr Hs Hlr) as (lr' & Hlr' & _). exists lr'.
    destruct (H _ _ Hlr') as (lr0 & Hlr0 & Hst' & Erf & _). simplify_eq.
    rewrite Erf, (addr_static _ _ Hst'). destruct Hst' as (-> & _), Hst as (-> & _). done.
  - intros w lw' a Hw Hlw. destruct (H _ _ Hlw) as (lw & Hlw0 & _ & _ & ->). by apply (wf_readers_nodup g Hg w).
Qed.

(** Only the coherence order changes. *)
Lemma wf_coherence g a c : wf g -> NoDup c ->
  (forall w, w ∈ c -> in_graph g w /\ exists lw, store g !! w = Some lw /\ Class.isWrite (kind lw) = true /\ getAddr lw = a) ->
  wf (set_coherence (<[a := c]> (coherence g)) g).
Proof.
  intros Hg Hnd Hc. destruct Hg as [H1 H2 H3 H4 H5 H6 H7 H8 H9 H10 H11]. split; try done; cbn.
  - intros a' w. rewrite list_at_insert. case_decide; [subst; apply Hc|apply H8].
  - intros a'. rewrite list_at_insert. by case_decide.
  - intros x l Hx Hl Htr. destruct (decide (a = getAddr l)) as [->|]; [by rewrite lookup_insert_eq|].
    rewrite lookup_insert_ne by done. by apply (H11 x).
Qed.

Lemma insert_after_ok p w l1 l2 : p ∉ l1 -> insert_after p w (l1 ++ p :: l2) = Ok (l1 ++ p :: w :: l2).
Proof.
  induction l1 as [|x l1 IH]; intros Hp; cbn; [by rewrite decide_True|].
  apply not_elem_of_cons in Hp as [Hx Hp]. rewrite decide_False by done. by rewrite IH.
Qed.

(** Where a write goes: first, or right behind its predecessor. *)
Inductive placed (w : lid) : option lid -> list lid -> list lid -> Prop :=
| placed_first c : placed w None c (w :: c)
| placed_after p l1 l2 : placed w (Some p) (l1 ++ p :: l2) (l1 ++ p :: w :: l2).

Lemma placed_perm w p c c' : placed w p c c' -> c' ≡ₚ w :: c.
Proof. intros [?|p' l1 l2]; [done|]. rewrite (Permutation_middle l1 (p' :: l2) w). apply Permutation_app_head, perm_swap. Qed.

(** The predecessor named by a pointer. *)
Definition co_pred (g : t) (pred : lid) (a : SAddr.t) (p : option lid) : Prop :=
  exists lp, store g !! pred = Some lp /\
    if Class.isWrite (kind lp) then p = Some pred /\ pred ∈ list_at (coherence g) a else p = None.

Lemma addCo_spec g w lw pred p : wf g -> in_graph g w -> store g !! w = Some lw -> Class.isWrite (kind lw) = true ->
  w ∉ list_at (coherence g) (getAddr lw) -> co_pred g pred (getAddr lw) p ->
  exists c, addCo w pred g = Ok (set_coherence (<[getAddr lw := c]> (coherence g)) g) /\
    placed w p (list_at (coherence g) (getAddr lw)) c /\
    wf (set_coherence (<[getAddr lw := c]> (coherence g)) g).
Proof.
  intros Hg Hw Hlw Hk Hni (lp & Hlp & Hp). set (c0 := list_at _ _) in *.
  assert (exists c, addCo w pred g = Ok (set_coherence (<[getAddr lw := c]> (coherence g)) g) /\ placed w p c0 c)
    as (c & Ec & Hpl).
  { unfold addCo, dyn_cast. rewrite (label_ok _ _ _ Hlw), (label_ok _ _ _ Hlp). cbn.
    destruct (Class.isWrite (kind lp)).
    - destruct Hp as [-> Hp]. apply list_elem_of_split in Hp as (l1 & l2 & E).
      pose proof (wf_co_nodup g Hg (getAddr lw)) as Hnd. fold c0 in Hnd. rewrite E in Hnd |- *.
      exists (l1 ++ pred :: w :: l2). fold c0. rewrite E, insert_after_ok; [split; [done|constructor]|].
      apply NoDup_app in Hnd as (_ & Hd & _). intros Hx. apply (Hd _ Hx). by left.
    - subst p. exists (w :: c0). split; [done|constructor]. }
  exists c. split_and!; [done..|]. pose proof (placed_perm _ _ _ _ Hpl) as Hperm. apply wf_coherence; [done| |].
  - rewrite Hperm. constructor; [done|]. apply (wf_co_nodup g Hg).
  - intros x. rewrite Hperm. intros [->|Hx]%elem_of_cons; [by split; [|exists lw]|by apply (wf_co g Hg)].
Qed.

Lemma moveCo_spec g w lw pred p : wf g -> store g !! w = Some lw ->
  w ∈ list_at (coherence g) (getAddr lw) -> pred <> w -> co_pred g pred (getAddr lw) p ->
  exists g' c lw', moveCo w pred g = Ok g' /\ wf g' /\
    coherence g' = <[getAddr lw := c]> (coherence g) /\
    placed w p (unlink w (list_at (coherence g) (getAddr lw))) c /\
    store g' !! w = Some lw' /\ (maximal lw' = true <-> last c = Some w).
Proof.
  intros Hg Hlw Hin Hne Hp. set (a := getAddr lw) in *. set (c0 := unlink w _).
  destruct (wf_co g Hg a w Hin) as (Hw & l & Hl & Hk & _). rewrite Hlw in Hl. injection Hl as <-.
  set (g1 := set_coherence (<[a := c0]> (coherence g)) g).
  assert (Hg1 : wf g1).
  { apply wf_coherence; [done|apply NoDup_filter, (wf_co_nodup g Hg)|].
    intros x [Hx _]%elem_unlink. by apply (wf_co g Hg). }
  assert (Hat : list_at (coherence g1) a = c0) by (cbn; by rewrite list_at_insert, decide_True).
  destruct (addCo_spec g1 w lw pred p Hg1) as (c & Ec & Hpl & Hwf); try done.
  { fold a. rewrite Hat. unfold c0. rewrite elem_unlink. tauto. }
  { destruct Hp as (lp & Hlp & Hp). exists lp. split; [done|]. destruct (Class.isWrite _); [|done]. destruct Hp as [-> Hp].
    split; [done|]. fold a. rewrite Hat. by apply elem_unlink. }
  fold a in Ec, Hpl, Hwf. rewrite Hat in Hpl. unfold moveCo. rewrite (label_ok _ _ _ Hlw). cbn -[addCo]. fold a.
  rewrite bool_decide_true by done. cbn -[addCo]. fold a c0 g1. rewrite Ec. cbn. rewrite list_at_insert, decide_True by done.
  destruct (last c) as [m|] eqn:Hm; cbn; [|by apply last_None in Hm as ->; inversion Hpl as [|? l1]; destruct l1].
  exists (upd w (setAddedMax (bool_decide (w = m))) (set_coherence (<[a := c]> (<[a := c0]> (coherence g))) g)), c,
    (setAddedMax (bool_decide (w = m)) lw).
  split_and!; [done| |by cbn; rewrite insert_insert_eq|done|rewrite upd_lookup, decide_True by done; cbn; by rewrite Hlw|].
  - by apply (wf_upd_inert _ _ _ Hwf).
  - cbn. rewrite bool_decide_eq_true, Hm. split; [by intros ->|by intros [= ->]].
Qed.

Lemma init_head g x : getInitLabel g = Ok x <-> exists th, events g !! 0%nat = Some th /\ th !! 0%nat = Some x.
Proof.
  unfold getInitLabel, getEventLabel. cbn. split.
  - intros Hx. destruct (vec_at (events g) 0) as [t0|] eqn:E; [|done].
    apply vec_at_inv in E as [_ E]. apply vec_at_inv in Hx as [_ Hx]. eauto.
  - intros (th & E & Hx). change 0 with (Z.of_nat 0). rewrite (vec_at_ok _ 0%nat th E). cbn. by apply (vec_at_ok _ 0%nat).
Qed.

Lemma init_in g x : getInitLabel g = Ok x -> in_graph g x.
Proof.
  intros (th & E & Hx)%init_head. apply elem_concat. eauto.
Qed.

(** *** Adding a label *)

(** A label that is linked to nothing. *)
Definition clean (l : EventLabel.t) : Prop :=
  (Class.isRead (kind l) = true -> readsFrom l = None) /\ forall a, readers_at l a = [].

(** The store may change outside the graph. *)
Lemma wf_outside g f : wf g -> (forall x, in_graph g x -> f (store g) !! x = store g !! x) -> wf (set_store f g).
Proof.
  intros Hg Hf. pose proof (fun x H => in_graph_store g Hg x H) as Hdom.
  destruct Hg as [H1 H2 H3 H4 H5 H6 H7 H8 H9 H10 H11].
  assert (Hpos : forall t th k x, events g !! t = Some th -> th !! k = Some x -> in_graph g x)
    by (intros; apply elem_concat; eauto).
  split; try done; cbn; unfold in_graph in *; cbn in *.
  - intros t th k x Ht Hk. rewrite Hf by eauto. eauto.
  - destruct H4 as (x & l & Hx & Hl & Hk). exists x, l. split_and!; [done| |done]. rewrite Hf; [done|].
    by apply init_in.
  - intros r lr w Hr Hlr Hk Hrf. rewrite Hf in Hlr by done. destruct (H5 r lr w Hr Hlr Hk Hrf) as (Hw & lw & Hlw & Hin).
    split; [done|]. exists lw. by rewrite Hf.
  - intros w lw a r Hw Hlw Hr. rewrite Hf in Hlw by done. destruct (H6 w lw a r Hw Hlw Hr) as (Hin & lr & Hlr & Hx).
    split; [done|]. exists lr. by rewrite Hf.
  - intros w lw a Hw Hlw. rewrite Hf in Hlw by done. by eapply H7.
  - intros a w Hw. destruct (H8 a w Hw) as (Hin & lw & Hlw). split; [done|]. exists lw. by rewrite Hf.
  - intros a x. rewrite H10. split; intros (Hin & l & Hl); (split; [done|]); exists l; by rewrite Hf in *.
  - intros x l Hx Hl. rewrite Hf in Hl by done. by apply (H11 x).
Qed.

(** [i] joins the graph; [old], if any, is an Empty label that leaves it. *)
Record joins (g g' : t) (i : lid) (old : lid -> Prop) : Prop := {
  j_in x : in_graph g' x <-> x = i \/ (in_graph g x /\ ~ old x);
  j_store x : in_graph g' x -> store g' !! x = store g !! x;
  j_old x : old x -> exists lx, store g !! x = Some lx /\ kind lx = Kind.Empty;
  j_init : getInitLabel g' = getInitLabel g;
  j_po : poLists g' = events g';
  j_pos t th k x : events g' !! t = Some th -> th !! k = Some x ->
    exists lx, store g' !! x = Some lx /\ position lx = Event.Event (Z.of_nat t) (Z.of_nat k);
  j_io : insertionOrder g' ≡ₚ concat (events g');
  j_co : coherence g' = coherence g
}.

Lemma join_wf g g' i l old : wf g -> joins g g' i old -> ~ in_graph g i -> store g !! i = Some l -> clean l ->
  (tracked l = true -> is_Some (coherence g !! getAddr l)) ->
  (forall a x, x ∈ list_at (accessMap_ g') a <-> (x ∈ list_at (accessMap_ g) a \/ (x = i /\ tracked l = true /\ getAddr l = a))) ->
  wf g'.
Proof.
  intros Hg [Jin Jst Jold Jinit Jpo Jpos Jio Jco] Hi Hl [Crf Crd] Hloc Hacc.
  assert (Hne : forall x, in_graph g x -> x <> i) by (intros x Hx ->; done).
  assert (Hold : forall x lx, store g !! x = Some lx -> (Class.isWrite (kind lx) = true \/ kind lx = Kind.Init \/ tracked lx = true) -> ~ old x).
  { intros x lx Hlx Hk Ho. destruct (Jold x Ho) as (lx' & Hlx' & E). simplify_eq. unfold tracked in Hk. rewrite E in Hk.
    naive_solver. }
  assert (Hrdk : forall lx a r, r ∈ readers_at lx a -> Class.isWrite (kind lx) = true \/ kind lx = Kind.Init \/ tracked lx = true).
  { intros lx a r Hr. unfold readers_at in Hr. destruct (Class.isWrite _); [by left|]. right; left.
    destruct (Class.isKind _ _) eqn:E; [by apply isKind_spec|by apply not_elem_of_nil in Hr]. }
  split; try done.
  - destruct (wf_init g Hg) as (x & lx & Hx & Hlx & Hk). exists x, lx. rewrite Jinit. split_and!; [done| |done].
    rewrite Jst; [done|]. apply Jin. right. split; [|eapply Hold; naive_solver].
    by apply init_in.
  - intros r lr w Hr Hlr Hk Hrf. rewrite Jst in Hlr by done. apply Jin in Hr as [->|[Hr Hor]].
    { simplify_eq. by rewrite Crf in Hrf. }
    destruct (wf_rf g Hg r lr w Hr Hlr Hk Hrf) as (Hw & lw & Hlw & Hin).
    assert (in_graph g' w) by (apply Jin; right; eauto). split; [done|]. exists lw. by rewrite Jst.
  - intros w lw a r Hw Hlw Hr. rewrite Jst in Hlw by done. apply Jin in Hw as [->|[Hw _]].
    { simplify_eq. rewrite Crd in Hr. by apply not_elem_of_nil in Hr. }
    destruct (wf_readers g Hg w lw a r Hw Hlw Hr) as (Hin & lr & Hlr & Hk & Hx).
    assert (in_graph g' r) by (apply Jin; right; split; [done|]; apply (Hold _ lr Hlr); right; right; by apply tracked_read).
    split; [done|]. exists lr. by rewrite Jst.
  - intros w lw a Hw Hlw. rewrite Jst in Hlw by done. apply Jin in Hw as [->|[Hw _]]; [|by eapply (wf_readers_nodup g Hg)].
    simplify_eq. rewrite Crd. constructor.
  - intros a w. rewrite Jco. intros Hw. destruct (wf_co g Hg a w Hw) as (Hin & lw & Hlw & Hk & Ha).
    assert (in_graph g' w) by (apply Jin; right; split; [done|]; apply (Hold _ lw Hlw); by left).
    split; [done|]. exists lw. by rewrite Jst.
  - intros a. rewrite Jco. apply (wf_co_nodup g Hg).
  - intros a x. rewrite Hacc, (wf_acc g Hg a x). split.
    + intros [(Hx & lx & Hlx & Htr & Ha)|(-> & Htr & Ha)].
      * assert (in_graph g' x) by (apply Jin; right; split; [done|]; apply (Hold _ lx Hlx); by right; right).
        split; [done|]. exists lx. by rewrite Jst.
      * assert (in_graph g' i) by (apply Jin; by left). split; [done|]. exists l. by rewrite Jst.
    + intros (Hx & lx & Hlx & Htr & Ha). rewrite Jst in Hlx by done. apply Jin in Hx as [->|[Hx _]].
      * right. simplify_eq. done.
      * left. split; [done|]. by exists lx.
  - intros x lx Hx Hlx Htr. rewrite Jco. rewrite Jst in Hlx by done. apply Jin in Hx as [->|[Hx _]].
    + simplify_eq. by apply Hloc.
    + by eapply (wf_loc g Hg).
Qed.

(** What tracking a location leaves alone. *)
Definition same_order (g g' : t) : Prop :=
  events g' = events g /\ poLists g' = poLists g /\ insertionOrder g' = insertionOrder g /\ timestamp g' = timestamp g.

Lemma is_Some_touch (a : SAddr.t) m (a' : SAddr.t) : is_Some (m !! a') -> is_Some (touch a m !! a').
Proof.
  intros [y Hy]. unfold touch. destruct (m !! a) eqn:E; [by eexists|]. exists y. rewrite lookup_insert_ne; [done|].
  intros ->. rewrite Hy in E. done.
Qed.
Lemma touch_self a m : is_Some (touch a m !! a).
Proof. unfold touch. destruct (m !! a) eqn:E; [by rewrite E|by rewrite lookup_insert_eq]. Qed.

Lemma trackCoherenceAtLoc_spec g a : wf g ->
  exists g', trackCoherenceAtLoc a g = Ok g' /\ wf g' /\ is_Some (coherence g' !! a) /\ same_order g g' /\
    (forall x, ~ in_graph g x -> store g' !! x = store g !! x) /\ store_sim g g' /\
    forall a', list_at (coherence g') a' = list_at (coherence g) a' /\ list_at (accessMap_ g') a' = list_at (accessMap_ g) a'.
Proof.
  intros Hg. destruct (wf_init g Hg) as (x & l & Hx & Hl & Hk). set (f := fun l => with_initRfs (touch a (initRfs l)) l).
  exists (set_accessMap (touch a (accessMap_ g)) (upd x f (set_coherence (touch a (coherence g)) g))).
  assert (Hwf : wf (upd x f g)).
  { apply wf_upd_inert; [done|]. intros l'. split_and!; [done..|]. intros a'. unfold readers_at. cbn. by rewrite list_at_touch. }
  split_and!; try done.
  - unfold trackCoherenceAtLoc. cbn -[getInitLabel]. unfold getInitLabel, getEventLabel in *. cbn in *. by rewrite Hx.
  - destruct Hwf as [H1 H2 H3 H4 H5 H6 H7 H8 H9 H10 H11]. split; try done; cbn in *.
    + intros a'. setoid_rewrite list_at_touch. apply H8.
    + intros a'. rewrite list_at_touch. apply H9.
    + intros a'. setoid_rewrite list_at_touch. apply H10.
    + intros y l' Hy Hl' Htr. apply is_Some_touch. by apply (H11 y).
  - apply touch_self.
  - intros y Hy. cbn. rewrite lookup_alter_ne; [done|]. intros ->. by apply init_in in Hx.
  - by apply (upd_sim x f g).
  - intros a'. cbn. by rewrite !list_at_touch.
Qed.

(** The tracking part of [addLabelToGraph]. *)
Lemma track_phase g i l : wf g -> ~ in_graph g i -> store g !! i = Some l ->
  exists gt acc,
    (g ← (if Class.isMemAccess (kind l) then track_access i (getAddr l) g else Ok g);
     if Class.isFree (kind l) then track_access i (getAddr l) g else Ok g) = Ok (set_accessMap acc gt) /\
    wf gt /\ same_order g gt /\ store gt !! i = Some l /\ store_sim g gt /\
    (forall x, ~ in_graph g x -> store gt !! x = store g !! x) /\
    (forall a, list_at (coherence gt) a = list_at (coherence g) a) /\
    (tracked l = true -> is_Some (coherence gt !! getAddr l)) /\
    (forall a x, x ∈ list_at acc a <-> (x ∈ list_at (accessMap_ gt) a \/ (x = i /\ tracked l = true /\ getAddr l = a))).
Proof.
  intros Hg Hi Hl. destruct (tracked l) eqn:Htr.
  - destruct (trackCoherenceAtLoc_spec g (getAddr l) Hg) as (gt & Et & Hwf & Hloc & Hord & Hst & Hsim & Hli).
    exists gt, (<[getAddr l := list_at (accessMap_ gt) (getAddr l) ++ [i]]> (accessMap_ gt)).
    split_and!; try done; [|by rewrite Hst|apply Hli|].
    + unfold tracked in Htr. unfold track_access.
      destruct (kind l); try done; cbn -[trackCoherenceAtLoc]; by rewrite Et.
    + intros a x. rewrite list_at_insert. case_decide as E.
      * subst a. rewrite elem_of_app, list_elem_of_singleton. naive_solver.
      * naive_solver.
  - exists g, (accessMap_ g). unfold tracked in Htr. apply orb_false_iff in Htr as [-> ->]. cbn.
    split_and!; try done; [by destruct g|apply sim_refl|naive_solver].
Qed.

Lemma elem_insert_concat {A} (ll : list (list A)) t th th' x : ll !! t = Some th -> NoDup (concat ll) ->
  (x ∈ concat (<[t := th']> ll) <-> x ∈ th' \/ (x ∈ concat ll /\ x ∉ th)).
Proof.
  intros Ht Hnd. destruct (concat_insert ll t th th' Ht) as (l1 & l2 & E1 & ->). rewrite E1 in Hnd |- *.
  rewrite !elem_of_app. rewrite NoDup_app in Hnd. setoid_rewrite elem_of_app in Hnd. rewrite NoDup_app in Hnd.
  destruct Hnd as (_ & H1 & _ & H2 & _). naive_solver.
Qed.

Lemma replace_node_insert l old new k : l !! k = Some old -> NoDup l -> replace_node old new l = <[k := new]> l.
Proof.
  revert k. induction l as [|x l IH]; intros [|k] Hk Hnd; cbn in *; simplify_eq; [by rewrite decide_True|].
  apply NoDup_cons in Hnd as [Hx Hnd]. rewrite decide_False; [by f_equal; apply IH|].
  intros ->. apply Hx, list_elem_of_lookup. eauto.
Qed.

(** The positions after one thread has changed. *)
Lemma pos_insert (g g' : t) t th th' : wf g -> events g !! t = Some th -> events g' = <[t := th']> (events g) ->
  (forall x, in_graph g x -> x ∉ th -> store g' !! x = store g !! x) ->
  (forall k x, th' !! k = Some x -> exists lx, store g' !! x = Some lx /\ position lx = Event.Event (Z.of_nat t) (Z.of_nat k)) ->
  forall t' th0 k x, events g' !! t' = Some th0 -> th0 !! k = Some x ->
    exists lx, store g' !! x = Some lx /\ position lx = Event.Event (Z.of_nat t') (Z.of_nat k).
Proof.
  intros Hg Ht Ee Hst Hth t' th0 k x Ht' Hk. rewrite Ee in Ht'. destruct (decide (t = t')) as [->|Hne].
  - rewrite list_lookup_insert_eq in Ht' by (by eapply lookup_lt_Some). simplify_eq. eauto.
  - rewrite list_lookup_insert_ne in Ht' by done. destruct (wf_pos g Hg t' th0 k x Ht' Hk) as (lx & Hlx & Hp).
    exists lx. rewrite Hst; [done|apply elem_concat; eauto|]. intros (k' & Hk')%list_elem_of_lookup.
    destruct (wf_pos g Hg t th k' x Ht Hk') as (? & ? & Hp'). simplify_eq. rewrite Hp in Hp'. injection Hp'. lia.
Qed.

Lemma init_insert g g' t th th' x : getInitLabel g = Ok x -> events g !! t = Some th ->
  events g' = <[t := th']> (events g) -> (t = 0%nat -> th' !! 0%nat = th !! 0%nat) -> getInitLabel g' = Ok x.
Proof.
  rewrite !init_head. intros (t0 & E & Hx) Ht Ee H0. rewrite Ee. destruct (decide (t = 0%nat)) as [->|Hne].
  - exists th'. rewrite list_lookup_insert_eq by (by eapply lookup_lt_Some). simplify_eq. by rewrite H0.
  - exists t0. by rewrite list_lookup_insert_ne.
Qed.

Lemma thread_nodup g t th : wf g -> events g !! t = Some th -> NoDup th.
Proof.
  intros Hg Ht. pose proof (concat_nodup g Hg) as Hnd. destruct (concat_insert _ t th th Ht) as (l1 & l2 & E & _).
  rewrite E in Hnd. apply NoDup_app in Hnd as (_ & _ & Hnd). by apply NoDup_app in Hnd as (Hnd & _).
Qed.

Lemma joins_append g i l t th acc : wf g -> ~ in_graph g i -> store g !! i = Some l -> events g !! t = Some th ->
  position l = Event.Event (Z.of_nat t) (Z.of_nat (length th)) ->
  joins g (set_poLists (<[t := th ++ [i]]> (poLists g)) (set_insertionOrder (insertionOrder g ++ [i])
    (set_events (<[t := th ++ [i]]> (events g)) (set_accessMap acc g)))) i (fun _ => False).
Proof.
  intros Hg Hi Hl Ht Hp. set (g' := set_poLists _ _). split; try done; cbn.
  - intros x. unfold in_graph in *. cbn. rewrite (elem_insert_concat _ t th) by (done || by apply concat_nodup).
    rewrite elem_of_app, list_elem_of_singleton. destruct (decide (x ∈ th)) as [Hx|Hx]; [|naive_solver].
    assert (x ∈ concat (events g)); [|naive_solver]. apply list_elem_of_lookup in Hx as [k Hk]. apply elem_concat; eauto.
  - destruct (wf_init g Hg) as (x & lx & Hx & _). rewrite Hx. eapply init_insert; [exact Hx|exact Ht|done|].
    intros ->. rewrite lookup_app_l; [done|]. apply init_head in Hx as (th0 & Ht0 & Hx). simplify_eq. by eapply lookup_lt_Some.
  - by rewrite (wf_po g Hg).
  - apply (pos_insert g g' t th (th ++ [i])); [done..|]. cbn. intros k x Hk. apply lookup_app_Some in Hk as [Hk|[Hlen Hk]].
    + by eapply (wf_pos g Hg).
    + destruct (k - length th)%nat eqn:E; cbn in Hk; [|done]. simplify_eq. exists l. rewrite Hp. split; [done|].
      f_equal. lia.
  - destruct (concat_insert _ t th (th ++ [i]) Ht) as (l1 & l2 & E1 & ->). rewrite (wf_io g Hg), E1.
    rewrite <- !app_assoc. do 2 apply Permutation_app_head. apply Permutation_app_comm.
Qed.

Lemma joins_replace g i l t th k old lo acc : wf g -> ~ in_graph g i -> store g !! i = Some l ->
  events g !! t = Some th -> th !! k = Some old -> store g !! old = Some lo -> kind lo = Kind.Empty ->
  position l = Event.Event (Z.of_nat t) (Z.of_nat k) ->
  joins g (set_store (delete old) (set_poLists (<[t := replace_node old i th]> (poLists g))
    (set_insertionOrder (unlink old (insertionOrder g) ++ [i])
      (set_events (<[t := <[k := i]> th]> (events g)) (set_accessMap acc g))))) i (eq old).
Proof.
  intros Hg Hi Hl Ht Hk Hlo Hempty Hp. pose proof (thread_nodup g t th Hg Ht) as Hnd.
  pose proof (lookup_lt_Some _ _ _ Hk) as Hlt.
  assert (Hold : in_graph g old) by (apply elem_concat; eauto).
  assert (Hio : i <> old) by congruence.
  assert (Hin : forall x, x ∈ concat (<[t := <[k := i]> th]> (events g)) <-> x = i \/ (in_graph g x /\ old <> x)).
  { intros x. rewrite (elem_insert_concat _ t th) by (done || by apply concat_nodup). fold (in_graph g x).
    assert (Hx : x ∈ <[k := i]> th <-> x = i \/ (x ∈ th /\ old <> x)).
    { rewrite <- (take_drop_middle th k old Hk) in Hnd |- *. set (a := take k th) in *. set (b := drop (S k) th) in *.
      assert (Ea : length a = k) by (apply length_take_le; lia).
      rewrite insert_app_r_alt, Ea, Nat.sub_diag by lia. cbn. rewrite !elem_of_app, !elem_of_cons.
      apply NoDup_app in Hnd as (_ & H1 & [H2 _]%NoDup_cons). setoid_rewrite elem_of_cons in H1. naive_solver. }
    assert (x ∈ th -> in_graph g x) by (intros (k' & Hk')%list_elem_of_lookup; apply elem_concat; eauto).
    assert (Ho : old ∈ th) by (apply list_elem_of_lookup; eauto). rewrite Hx. destruct (decide (x ∈ th)); naive_solver. }
  set (g' := set_store _ _). split; try done; cbn.
  - intros x Hx. apply lookup_delete_ne. apply Hin in Hx as [->|[_ Hx]]; done.
  - intros x <-. eauto.
  - destruct (wf_init g Hg) as (x & lx & Hx & Hlx & Hkx). rewrite Hx. eapply init_insert; [exact Hx|exact Ht|done|].
    intros ->. destruct k as [|k]; [|by rewrite list_lookup_insert_ne by lia].
    apply init_head in Hx as (th0 & Ht0 & Hx). simplify_eq. congruence.
  - by rewrite (wf_po g Hg), (replace_node_insert _ _ _ k).
  - apply (pos_insert g g' t th (<[k := i]> th)); [done..| |]; cbn.
    + intros x Hx Hnx. apply lookup_delete_ne. intros ->. apply Hnx, list_elem_of_lookup. eauto.
    + intros k' x Hk'. destruct (decide (k = k')) as [<-|Hne].
      * rewrite list_lookup_insert_eq in Hk' by done. simplify_eq. exists l. by rewrite lookup_delete_ne.
      * rewrite list_lookup_insert_ne in Hk' by done. destruct (wf_pos g Hg t th k' x Ht Hk') as (lx & Hlx & E).
        exists lx. rewrite lookup_delete_ne; [done|]. intros ->. apply Hne. by eapply NoDup_lookup.
  - destruct (concat_insert _ t th (<[k := i]> th) Ht) as (l1 & l2 & E1 & ->).
    pose proof (concat_nodup g Hg) as Hndc. rewrite insert_take_drop by done. rewrite <- app_assoc. cbn.
    rewrite <- (take_drop_middle th k old Hk) in E1. rewrite <- app_assoc in E1. cbn in E1.
    set (a := take k th) in *. set (b := drop (S k) th) in *.
    assert (Hp' : insertionOrder g ≡ₚ old :: l1 ++ a ++ b ++ l2) by (rewrite (wf_io g Hg), E1; solve_Permutation).
    rewrite (unlink_perm _ _ _ Hp') by (rewrite <- Hp', (wf_io g Hg); done). solve_Permutation.
Qed.

(** Where a label may go: at the end of its thread, or where an Empty label holds a
    place in the middle of it. *)
Inductive slot (g : t) (t : nat) (th : list lid) : nat -> (lid -> Prop) -> Prop :=
| slot_end : slot g t th (length th) (fun _ => False)
| slot_hole k old lo : (S k < length th)%nat -> th !! k = Some old -> store g !! old = Some lo ->
    kind lo = Kind.Empty -> slot g t th k (eq old).

(** The label as the graph keeps it. *)
Definition owned (ts : Stamp.t) (l : EventLabel.t) : EventLabel.t :=
  if hasStamp l then setParent true l else with_stamp (Some ts) (setParent true l).
Definition nextTimestamp (ts : Stamp.t) (l : EventLabel.t) : Stamp.t :=
  if hasStamp l then ts else Stamp.incr ts.

(** Assigning the stamp. *)
Lemma stamp_phase g i l : wf g -> ~ in_graph g i -> store g !! i = Some l ->
  let g1 := upd i (setParent true) g in
  let g2 := if hasStamp (setParent true l) then g1
            else set_timestamp (Stamp.incr (timestamp g1)) (upd i (with_stamp (Some (timestamp g1))) g1) in
  wf g2 /\ same_struct g g2 /\ timestamp g2 = nextTimestamp (timestamp g) l /\
  store g2 !! i = Some (owned (timestamp g) l) /\ (forall x, x <> i -> store g2 !! x = store g !! x).
Proof.
  intros Hg Hi Hl g1 g2.
  assert (Hw1 : forall f, wf (upd i f g)).
  { intros f. apply wf_outside; [done|]. intros x Hx. apply lookup_alter_ne. by intros ->. }
  unfold g2, g1, nextTimestamp, owned. change (hasStamp (setParent true l)) with (hasStamp l). destruct (hasStamp l).
  - split_and!; [apply Hw1|done|done|by cbn; rewrite lookup_alter_eq, Hl|intros x Hx; by apply lookup_alter_ne].
  - rewrite upd_upd. split_and!; [|done|done|by cbn; rewrite lookup_alter_eq, Hl|intros x Hx; by apply lookup_alter_ne].
    by destruct (Hw1 (with_stamp (Some (timestamp g)) ∘ setParent true)).
Qed.

Lemma owned_static ts l : same_static l (owned ts l) /\ readsFrom (owned ts l) = readsFrom l /\
  forall a, readers_at (owned ts l) a = readers_at l a.
Proof. unfold owned. by destruct (hasStamp l). Qed.

Lemma slot_struct g g' t th k old : same_order g g' -> store_sim g g' -> slot g t th k old -> slot g' t th k old.
Proof.
  intros _ Hs [|k' o lo ? ? Hlo ?]; [constructor|]. destruct (store_sim_lookup g g' o lo Hs Hlo) as (lo' & ? & E & _).
  apply (slot_hole _ _ _ _ _ lo'); congruence.
Qed.

Lemma link_label_ok g i l t th k old acc : wf g -> ~ in_graph g i -> store g !! i = Some l ->
  events g !! t = Some th -> slot g t th k old -> position l = Event.Event (Z.of_nat t) (Z.of_nat k) ->
  exists g', link_label i (position l) (set_accessMap acc g) = Ok g' /\ joins g g' i old /\
    accessMap_ g' = acc /\ timestamp g' = timestamp g /\ last (insertionOrder g') = Some i /\
    getEventLabel g' (position l) = Ok i.
Proof.
  intros Hg Hi Hl Ht Hslot Hp. pose proof Ht as Hpo. rewrite <- (wf_po g Hg) in Hpo.
  unfold link_label, getLastThreadLabel. rewrite Hp. cbn -[getEventLabel label].
  rewrite (vec_at_ok _ _ _ Hpo), (vec_at_ok _ _ _ Ht). cbn -[getEventLabel label].
  assert (Hlast : (match last th with Some j => lj ← label (set_accessMap acc g) j; Ok (Some (getIndex lj)) | None => Ok None end)
    = Ok (match th with [] => None | _ => Some (Z.of_nat (length th) - 1) end)).
  { destruct (last th) as [j|] eqn:E; [|by apply last_None in E as ->].
    rewrite last_lookup in E. destruct (wf_pos g Hg t th _ j Ht E) as (lj & Hlj & Hpj). unfold label. cbn. rewrite Hlj. cbn.
    unfold getIndex. rewrite Hpj. cbn. destruct th; [done|]. do 2 f_equal. cbn. lia. }
  assert (Hb : forall n, match (match th with [] => None | _ => Some (Z.of_nat (length th) - 1) end) with
    Some x => Z.of_nat n <? x | None => false end = (Z.of_nat n <? Z.of_nat (length th) - 1)) by (intros; destruct th; cbn; lia).
  rewrite Hlast. cbn -[getEventLabel label]. rewrite Hb. clear Hb.
  destruct Hslot as [|k o lo Hlt Hk Hlo Hempty].
  - rewrite (proj2 (Z.ltb_ge _ _)) by lia.
    rewrite (vec_set_ok _ _ _ _ Ht). cbn. rewrite (vec_set_ok _ _ _ _ Hpo). eexists. split; [done|].
    split_and!; [by apply (joins_append g i l t th acc)|done|done|by apply last_snoc|].
    apply getEventLabel_pos with (th ++ [i]); cbn; [apply list_lookup_insert_eq; by eapply lookup_lt_Some|].
    by rewrite lookup_app_r, Nat.sub_diag by lia.
  - rewrite (proj2 (Z.ltb_lt _ _)) by lia.
    rewrite (getEventLabel_pos (set_accessMap acc g) t th k o) by done. cbn. unfold label. cbn. rewrite Hlo. cbn.
    rewrite Hempty. cbn. rewrite (vec_set_ok _ _ _ _ Hk). cbn. rewrite (vec_set_ok _ _ _ _ Ht). cbn.
    rewrite (vec_set_ok _ _ _ _ Hpo). eexists. split; [done|].
    split_and!; [by apply (joins_replace g i l t th k o lo acc)|done|done|by apply last_snoc|].
    apply getEventLabel_pos with (<[k := i]> th); cbn; apply list_lookup_insert_eq; by eapply lookup_lt_Some.
Qed.

Lemma addLabelToGraph_spec g i l t th k old : wf g -> ~ in_graph g i -> store g !! i = Some l -> clean l ->
  events g !! t = Some th -> slot g t th k old -> position l = Event.Event (Z.of_nat t) (Z.of_nat k) ->
  exists g', addLabelToGraph i g = Ok g' /\ wf g' /\
    getEventLabel g' (position l) = Ok i /\ store g' !! i = Some (owned (timestamp g) l) /\
    timestamp g' = nextTimestamp (timestamp g) l /\ last (insertionOrder g') = Some i /\
    (forall x, in_graph g' x <-> x = i \/ (in_graph g x /\ ~ old x)) /\
    (forall a, list_at (coherence g') a = list_at (coherence g) a).
Proof.
  intros Hg Hi Hl Hc Ht Hslot Hp. destruct (stamp_phase g i l Hg Hi Hl) as (Hg2 & Hst & Hts & Hl2 & Hne).
  unfold addLabelToGraph. rewrite (label_ok _ i (setParent true l)) by (by rewrite upd_lookup, decide_True, Hl).
  cbn -[link_label]. cbv zeta in Hg2, Hst, Hts, Hl2, Hne.
  change (hasStamp (setParent true l)) with (hasStamp l) in *. change (getAddr (setParent true l)) with (getAddr l).
  set (g2 := if hasStamp l then _ else _) in *.
  assert (Hi2 : ~ in_graph g2 i) by (unfold in_graph; by destruct Hst as (-> & _)).
  destruct (owned_static (timestamp g) l) as (Hos & Horf & Hord).
  destruct (track_phase g2 i _ Hg2 Hi2 Hl2) as (gt & acc & Et & Hgt & Hord2 & Hlt & Hsim & Hout & Hco & Hloc & Hacc).
  rewrite (addr_static _ _ Hos) in *. pose proof Hos as (Ek & Ep & _). rewrite Ek in Et.
  destruct (if Class.isMemAccess (kind l) then _ else _) as [gx|] eqn:Ex; [|done]. cbn -[link_label] in Et |- *.
  rewrite Et. cbn -[link_label].
  assert (Eev : events gt = events g) by (destruct Hord2 as (-> & _), Hst as (-> & _); done).
  destruct (link_label_ok gt i (owned (timestamp g) l) t th k old acc) as (g' & El & Hj & Ha & Htm & Hlast & Hget); try done.
  { unfold in_graph. by rewrite Eev. }
  { by rewrite Eev. }
  { destruct Hslot as [|k o lo ? ? Hlo ?]; [constructor|].
    assert (o <> i) by (intros ->; apply Hi, elem_concat; eauto).
    destruct (store_sim_lookup g2 gt o lo Hsim) as (lo' & ? & E & _); [by rewrite Hne|].
    apply (slot_hole _ _ _ _ _ lo'); congruence. }
  { by rewrite Ep. }
  rewrite Ep in El, Hget. exists g'. split_and!; [done| |done| | |done| |].
  - apply (join_wf gt g' i (owned (timestamp g) l) old); try done.
    + unfold in_graph. by rewrite Eev.
    + destruct Hc as [C1 C2]. split; [by rewrite Horf, Ek|]. intros a. by rewrite Hord.
    + rewrite (addr_static _ _ Hos). done.
    + intros a x. rewrite Ha, Hacc, (addr_static _ _ Hos). done.
  - rewrite (j_store _ _ _ _ Hj); [done|]. apply (j_in _ _ _ _ Hj). by left.
  - destruct Hord2 as (_ & _ & _ & E). rewrite Htm, E. done.
  - intros x. rewrite (j_in _ _ _ _ Hj). unfold in_graph. by rewrite Eev.
  - intros a. rewrite (j_co _ _ _ _ Hj), Hco. by destruct Hst as (_ & _ & _ & -> & _).
Qed.

(** *** New graphs and threads *)
Lemma addNewThread_wf g : wf g -> wf (addNewThread g).
Proof.
  intros Hg. assert (E : concat (events (addNewThread g)) = concat (events g)).
  { cbn. rewrite concat_app. cbn. by rewrite app_nil_r. }
  destruct Hg as [H1 H2 H3 H4 H5 H6 H7 H8 H9 H10 H11].
  split; unfold in_graph in *; rewrite ?E; try done.
  - cbn. by rewrite H1.
  - intros t th k i Ht Hk. cbn in Ht. apply lookup_app_Some in Ht as [Ht|[_ Ht]]; [eauto|].
    by destruct (t - _)%nat; cbn in Ht; simplify_eq.
  - destruct H4 as (i & l & Hi & Hl). exists i, l. split; [|done]. apply init_head. apply init_head in Hi as (th & Ht & Hk).
    exists th. split; [|done]. cbn. apply lookup_app_Some. by left.
Qed.

(** The graph the constructor makes. *)
Definition initial (i : lid) : t :=
  Graph {[ i := owned 0 mkInit ]} [[i]] 1 ∅ [i] [[i]] ∅ ∅.

Lemma new_graph_initial i : new_graph i = Ok (initial i).
Proof.
  unfold new_graph, addLabelToGraph. rewrite (label_ok _ i (setParent true mkInit)).
  2:{ rewrite upd_lookup, decide_True by done. cbn. by rewrite lookup_singleton_eq. }
  cbn. unfold upd, set_store, set_timestamp, set_insertionOrder, set_poLists, set_events. cbn. unfold initial.
  set (m := alter _ i _). assert (m = {[i := owned 0 mkInit]}) as ->; [|done].
  apply map_eq. intros k. destruct (decide (i = k)) as [->|Hk]; unfold m.
  - by rewrite !lookup_alter_eq, !lookup_singleton_eq.
  - by rewrite !lookup_alter_ne, !lookup_singleton_ne.
Qed.

Lemma initial_in i x : in_graph (initial i) x <-> x = i.
Proof. unfold in_graph. cbn. apply list_elem_of_singleton. Qed.

Lemma initial_wf i : wf (initial i).
Proof.
  assert (Hs : store (initial i) !! i = Some (owned 0 mkInit)) by apply lookup_singleton_eq.
  split; try done.
  - intros [|t] th k x Ht Hk; [|done]. simpl in Ht. simplify_eq. destruct k as [|k]; [|done]. simpl in Hk. simplify_eq.
    eauto.
  - exists i, (owned 0 mkInit). done.
  - intros r lr w Hr Hlr Hk. apply initial_in in Hr as ->. rewrite Hs in Hlr. by simplify_eq.
  - intros w lw a r Hw Hlw Hr. apply initial_in in Hw as ->. rewrite Hs in Hlw. simplify_eq. cbn in Hr. by apply not_elem_of_nil in Hr.
  - intros w lw a Hw Hlw. apply initial_in in Hw as ->. rewrite Hs in Hlw. simplify_eq. cbn. constructor.
  - intros a w Hw. cbn in Hw. by apply not_elem_of_nil in Hw.
  - intros a. cbn. constructor.
  - intros a x. cbn -[initial]. split; [by intros ?%not_elem_of_nil|]. intros (Hx & l & Hl & Htr & _). apply initial_in in Hx as ->.
    rewrite Hs in Hl. by simplify_eq.
  - intros x l Hx Hl Htr. apply initial_in in Hx as ->. rewrite Hs in Hl. by simplify_eq.
Qed.

(** *** Removing the last label *)

(** A clean label leaves the graph. *)
Lemma leave_wf g g' i l t th : wf g -> events g !! t = Some (th ++ [i]) -> store g !! i = Some l -> clean l ->
  kind l <> Kind.Init -> (forall a, i ∉ list_at (coherence g) a) ->
  events g' = <[t := th]> (events g) -> poLists g' = events g' -> insertionOrder g' = unlink i (insertionOrder g) ->
  coherence g' = coherence g -> (forall a, list_at (accessMap_ g') a = unlink i (list_at (accessMap_ g) a)) ->
  (forall x, x <> i -> store g' !! x = store g !! x) ->
  wf g' /\ forall x, in_graph g' x <-> in_graph g x /\ x <> i.
Proof.
  intros Hg Ht Hl [Crf Crd] Hki Hco Ee Ep Ei Ec Ea Hst.
  pose proof (concat_nodup g Hg) as Hnd. pose proof (thread_nodup g t _ Hg Ht) as Hndt.
  assert (Hin : forall x, in_graph g' x <-> in_graph g x /\ x <> i).
  { intros x. unfold in_graph. rewrite Ee, (elem_insert_concat _ t (th ++ [i])) by done.
    rewrite elem_of_app, list_elem_of_singleton. apply NoDup_app in Hndt as (_ & Hd & _).
    assert (x ∈ th -> x ∈ concat (events g)).
    { intros (k & Hk)%list_elem_of_lookup. apply elem_concat. exists t, (th ++ [i]), k. split; [done|].
      apply lookup_app_Some. by left. }
    assert (i ∉ th) by (intros Hx; apply (Hd i Hx); by left). destruct (decide (x ∈ th)); naive_solver. }
  split; [|done].
  assert (Hrd : forall w lw a r, in_graph g w -> store g !! w = Some lw -> r ∈ readers_at lw a -> w <> i).
  { intros w lw a r Hw Hlw Hr ->. simplify_eq. rewrite Crd in Hr. by apply not_elem_of_nil in Hr. }
  split; try done.
  - apply (pos_insert g g' t (th ++ [i]) th); try done.
    + intros x Hx Hn. apply Hst. intros ->. apply Hn, elem_of_app. right. by left.
    + intros k x Hk. destruct (wf_pos g Hg t (th ++ [i]) k x Ht) as (lx & Hlx & Hp); [apply lookup_app_Some; by left|].
      exists lx. rewrite Hst; [done|]. intros ->. apply NoDup_app in Hndt as (_ & Hd & _). apply (Hd i); [|by left].
      apply list_elem_of_lookup. eauto.
  - rewrite Ei, Ee. destruct (concat_insert _ t (th ++ [i]) th Ht) as (l1 & l2 & E1 & ->).
    assert (Hp : insertionOrder g ≡ₚ i :: l1 ++ th ++ l2) by (rewrite (wf_io g Hg), E1; solve_Permutation).
    apply (unlink_perm _ _ _ Hp). by rewrite <- Hp, (wf_io g Hg).
  - destruct (wf_init g Hg) as (x & lx & Hx & Hlx & Hk). exists x, lx. assert (x <> i) by congruence.
    split_and!; [|by rewrite Hst|done]. eapply init_insert; [exact Hx|exact Ht|done|]. intros ->.
    apply init_head in Hx as (th0 & Ht0 & Hx). simplify_eq. destruct th; simpl in *; [|done]. congruence.
  - intros r lr w Hr Hlr Hk Hrf. apply Hin in Hr as [Hr Hne]. rewrite Hst in Hlr by done.
    destruct (wf_rf g Hg r lr w Hr Hlr Hk Hrf) as (Hw & lw & Hlw & Hx). pose proof (Hrd w lw _ r Hw Hlw Hx).
    split; [by apply Hin|]. exists lw. by rewrite Hst.
  - intros w lw a r Hw Hlw Hr. apply Hin in Hw as [Hw Hne]. rewrite Hst in Hlw by done.
    destruct (wf_readers g Hg w lw a r Hw Hlw Hr) as (Hx & lr & Hlr & Hk & Hrf & Ha).
    assert (r <> i) by (intros ->; simplify_eq; by rewrite Crf in Hrf). split; [by apply Hin|]. exists lr. by rewrite Hst.
  - intros w lw a Hw Hlw. apply Hin in Hw as [Hw Hne]. rewrite Hst in Hlw by done. by eapply (wf_readers_nodup g Hg).
  - intros a w. rewrite Ec. intros Hw. assert (w <> i) by (intros ->; by apply (Hco a)).
    destruct (wf_co g Hg a w Hw) as (Hx & lw & Hlw). split; [by apply Hin|]. exists lw. by rewrite Hst.
  - intros a. rewrite Ec. apply (wf_co_nodup g Hg).
  - intros a x. rewrite Ea, elem_unlink, (wf_acc g Hg a x), Hin. split.
    + intros [(Hx & lx & Hlx) Hne]. split; [done|]. exists lx. by rewrite Hst.
    + intros ([Hx Hne] & lx & Hlx). rewrite Hst in Hlx by done. eauto.
  - intros x lx Hx Hlx. rewrite Ec. apply Hin in Hx as [Hx Hne]. rewrite Hst in Hlx by done. by eapply (wf_loc g Hg).
Qed.

Lemma clear_readers_comm w f rs g : w ∉ rs -> clear_readers rs (upd w f g) = upd w f (clear_readers rs g).
Proof.
  revert g. induction rs as [|r rs IH]; intros g Hw; [done|]. apply not_elem_of_cons in Hw as [Hr Hw]. cbn.
  rewrite (upd_comm r w) by done. by apply IH.
Qed.

Lemma clear_readers_wf rs g w lw : wf g -> in_graph g w -> store g !! w = Some lw -> Class.isWrite (kind lw) = true ->
  readerList lw = rs -> wf (upd w (with_readerList []) (clear_readers rs g)).
Proof.
  revert g lw. induction rs as [|r rs IH]; intros g lw Hg Hw Hlw Hk Hrs.
  - cbn. rewrite upd_id; [done|]. intros l Hl. simplify_eq. rewrite <- Hrs. by destruct lw.
  - assert (Hrd : readers_at lw (getAddr lw) = r :: rs) by (unfold readers_at; by rewrite Hk).
    destruct (wf_readers g Hg w lw (getAddr lw) r Hw Hlw) as (Hr & lr & Hlr & Hkr & Hrf & _); [rewrite Hrd; by left|].
    assert (Hall : forall x, x ∈ r :: rs -> w <> x).
    { intros x Hx ->. rewrite <- Hrd in Hx. destruct (wf_readers g Hg x lw _ x Hw Hlw Hx) as (_ & lx & Hlx & Hkx & _).
      simplify_eq. destruct (kind_disjoint _ Hkx). congruence. }
    pose proof (wf_readers_nodup g Hg w lw (getAddr lw) Hw Hlw) as Hnd. rewrite Hrd in Hnd. apply NoDup_cons in Hnd as [Hnr _].
    pose proof (unset_wf g r lr w lw Hg Hr Hlr Hkr Hrf Hlw) as Hwf. unfold drop_reader in Hwf. rewrite Hk in Hwf.
    assert (Hne : w <> r) by (apply Hall; by left).
    eapply (IH _ (with_readerList rs lw)) in Hwf; [|done| |done|done].
    + unfold write_removeReader in Hwf. rewrite (upd_comm r w) in Hwf by done.
      rewrite clear_readers_comm, upd_upd in Hwf by (intros Hx; by apply (Hall w); [right|]). exact Hwf.
    + unfold write_removeReader. rewrite upd_lookup, decide_False, upd_lookup, decide_True, Hlw by done. cbn.
      rewrite Hrs. unfold unlink. rewrite filter_cons_False by naive_solver.
      by rewrite (list_filter_all (.≠ r) rs) by (intros x Hx ->; done).
Qed.

Lemma clear_readers_lookup rs g x : store (clear_readers rs g) !! x =
  if decide (x ∈ rs) then setRfNoCascade None <$> store g !! x else store g !! x.
Proof.
  revert g. induction rs as [|r rs IH]; intros g; cbn; [by rewrite decide_False by apply not_elem_of_nil|].
  fold (clear_readers rs (upd r (setRfNoCascade None) g)). rewrite IH, upd_lookup.
  destruct (decide (r = x)) as [->|].
  - rewrite (decide_True (P := x ∈ x :: rs)) by (by left). destruct (decide (x ∈ rs)); [|done]. by destruct (store g !! x).
  - destruct (decide (x ∈ rs)); [rewrite decide_True by (by right)|rewrite decide_False by (rewrite elem_of_cons; naive_solver)]; done.
Qed.
Lemma clear_readers_struct rs g : same_struct g (clear_readers rs g).
Proof. revert g. induction rs as [|r rs IH]; intros g; [done|]. cbn. eapply struct_trans; [|apply IH]. done. Qed.

(** What removing [i] does to the other labels. *)
Definition survives (i : lid) (g g' : t) : Prop :=
  forall x lx, in_graph g x -> x <> i -> store g !! x = Some lx ->
    exists lx', store g' !! x = Some lx' /\ same_static lx lx' /\
      (Class.isRead (kind lx) = true ->
       readsFrom lx' = if decide (readsFrom lx = Some i) then None else readsFrom lx).

(** [gq] is [g] with a clean label at [i]. *)
Record cleaned (i : lid) (l : EventLabel.t) (g gq : t) : Prop := {
  cl_wf : wf gq;
  cl_events : events gq = events g;
  cl_po : poLists gq = poLists g;
  cl_io : insertionOrder gq = insertionOrder g;
  cl_co : coherence gq = coherence g;
  cl_store x : x <> i -> store g !! x = store gq !! x;
  cl_dom : is_Some (store g !! i);
  cl_lab : exists lq, store gq !! i = Some lq /\ same_static l lq /\ clean lq
}.

Lemma nonwrite_readers l a : Class.isWrite (kind l) = false -> kind l <> Kind.Init -> readers_at l a = [].
Proof.
  intros E1 E2. unfold readers_at. rewrite E1. by destruct (Class.isKind _ _) eqn:E; [apply isKind_spec in E|].
Qed.

Lemma release_read g i l : wf g -> in_graph g i -> store g !! i = Some l -> Class.isRead (kind l) = true ->
  exists g1 gq, release i l g = Ok g1 /\ cleaned i l g1 gq /\ same_struct g g1 /\ survives i g g1 /\
    accessMap_ gq = accessMap_ g.
Proof.
  intros Hg Hi Hl Hr. destruct (kind_disjoint _ Hr) as [Hw Hin].
  destruct (unset_spec g i l id Hg Hi Hl Hr) as (Hwf & Hst & _).
  destruct (unset_self i l g Hg Hi Hl Hr) as (l2 & Hl2 & Hs2).
  exists (unset i l g), (upd i (setRfNoCascade None) (unset i l g)). split_and!.
  - unfold release. rewrite Hr, Hw. unfold unset. destruct (readsFrom l) as [o|] eqn:Hrf; [|done].
    destruct (wf_rf g Hg i l o Hi Hl Hr Hrf) as (Ho & lo & Hlo & Hx). rewrite (label_ok _ _ _ Hlo), Hlo. cbn.
    unfold drop_reader, readers_at in *. destruct (Class.isWrite (kind lo)) eqn:E.
    + destruct (Class.isKind Kind.Init (kind lo)) eqn:E2; [|done]. apply isKind_spec in E2. by destruct (write_not_init _ E).
    + by destruct (Class.isKind Kind.Init (kind lo)); [|apply not_elem_of_nil in Hx].
  - split; try done.
    + intros x Hx. by rewrite upd_lookup, decide_False.
    + exists (setRfNoCascade None l2). rewrite upd_lookup, decide_True, Hl2 by done. split_and!; [done|by destruct Hs2|].
      split; [done|]. intros a. apply nonwrite_readers; cbn; by destruct Hs2 as (-> & _).
  - done.
  - intros x lx Hx Hne Hlx. destruct (unset_frame i l g x lx Hne Hlx) as (lx' & Hlx' & Hs & Erf & _). exists lx'.
    split_and!; [done..|]. intros Hk. rewrite Erf. case_decide as E; [|done].
    destruct (wf_rf g Hg x lx i Hx Hlx Hk E) as (_ & li & Hli & Hx'). simplify_eq.
    rewrite nonwrite_readers in Hx' by done. by apply not_elem_of_nil in Hx'.
  - by destruct Hst as (_ & _ & _ & _ & <-).
Qed.

Lemma release_spec g i l : wf g -> in_graph g i -> store g !! i = Some l -> kind l <> Kind.Init ->
  exists g1 gq, release i l g = Ok g1 /\ cleaned i l g1 gq /\ same_struct g g1 /\ survives i g g1 /\
    accessMap_ gq = accessMap_ g.
Proof.
  intros Hg Hi Hl Hin. destruct (Class.isRead (kind l)) eqn:Hr; [by apply release_read|].
  unfold release. rewrite Hr. cbn. destruct (Class.isWrite (kind l)) eqn:Hw.
  - pose proof (clear_readers_wf (readerList l) g i l Hg Hi Hl Hw eq_refl) as Hwf.
    assert (Hni : forall a, readers_at l a = readerList l) by (intros a; unfold readers_at; by rewrite Hw).
    assert (Hnotin : i ∉ readerList l).
    { rewrite <- (Hni 0). intros Hx. destruct (wf_readers g Hg i l 0 i Hi Hl Hx) as (_ & l' & ? & ? & _). congruence. }
    exists (clear_readers (readerList l) g), (upd i (with_readerList []) (clear_readers (readerList l) g)).
    split; [done|]. split_and!; [|apply clear_readers_struct| |apply clear_readers_struct].
    + split; [exact Hwf|done..| | |].
      * intros x Hx. by rewrite upd_lookup, decide_False.
      * by rewrite clear_readers_lookup, decide_False, Hl.
      * exists (with_readerList [] l). rewrite upd_lookup, decide_True, clear_readers_lookup, decide_False, Hl by done.
        split_and!; [done..|]. split; cbn; [by rewrite Hr|]. intros a. unfold readers_at. cbn. by rewrite Hw.
    + intros x lx Hx Hne Hlx. rewrite clear_readers_lookup, Hlx. case_decide as Hin'; cbn; eexists; (split_and!; [done..|]).
      * rewrite <- (Hni 0) in Hin'. destruct (wf_readers g Hg i l 0 x Hi Hl Hin') as (_ & ? & ? & _ & E & _). simplify_eq.
        intros _. by rewrite decide_True.
      * intros Hk. case_decide as E; [|done]. destruct Hin'.
        destruct (wf_rf g Hg x lx i Hx Hlx Hk E) as (_ & li & Hli & Hx'). simplify_eq. by rewrite Hni in Hx'.
  - exists g, g. split; [done|]. split_and!; try done.
    + split; try done. exists l. split_and!; [done..|]. split; [by rewrite Hr|]. intros a. by apply nonwrite_readers.
    + intros x lx Hx Hne Hlx. exists lx. split_and!; [done..|]. intros Hk. case_decide as E; [|done].
      destruct (wf_rf g Hg x lx i Hx Hlx Hk E) as (_ & li & Hli & Hx'). simplify_eq.
      rewrite nonwrite_readers in Hx' by done. by apply not_elem_of_nil in Hx'.
Qed.

(** Forgetting a thread writes fields outside the invariant. *)
Lemma cleaned_inert i l g gq j f : cleaned i l g gq -> inert f -> cleaned i l (upd j f g) (upd j f gq).
Proof.
  intros [H1 H2 H3 H4 H5 H6 [l1 Hl1] (lq & Hlq & Hs & [C1 C2])] Hf. split; try done.
  - by apply wf_upd_inert.
  - intros x Hx. rewrite !upd_lookup. by rewrite H6.
  - rewrite upd_lookup, Hl1. by case_decide.
  - rewrite upd_lookup, Hlq. destruct (decide (j = i)); cbn; [|by exists lq; split_and!; [| |split]].
    destruct (Hf lq) as (Hs' & Erf & Erd). exists (f lq). split; [done|]. destruct Hs as (?&?&?), Hs' as (Ek&?&?).
    split; [unfold same_static; split_and!; congruence|]. split; [rewrite Ek, Erf; done|]. intros a. by rewrite Erd.
Qed.
Lemma survives_inert i g g' j f : survives i g g' -> inert f -> survives i g (upd j f g').
Proof.
  intros H Hf x lx Hx Hne Hlx. destruct (H x lx Hx Hne Hlx) as (lx' & Hlx' & (?&?&?) & Hrf). rewrite upd_lookup, Hlx'.
  destruct (decide (j = x)); cbn; [|by exists lx'; split_and!]. destruct (Hf lx') as ((?&?&?) & Erf & _).
  exists (f lx'). split; [done|]. split; [unfold same_static; split_and!; congruence|]. by rewrite Erf.
Qed.

(** The thread a join waits for is in the graph. *)
Definition join_ok (g : t) (l : EventLabel.t) : Prop :=
  kind l = Kind.ThreadJoin -> 0 <= childId l < getNumThreads g.

Lemma cleaned_label i l g gq x : cleaned i l g gq -> in_graph g x -> exists lx, store g !! x = Some lx.
Proof.
  intros H Hx. destruct (decide (x = i)) as [->|Hne]; [apply (cl_dom _ _ _ _ H)|]. rewrite (cl_store _ _ _ _ H) by done.
  apply (in_graph_store gq (cl_wf _ _ _ _ H)). unfold in_graph. by rewrite (cl_events _ _ _ _ H).
Qed.

Lemma forget_thread_spec g g1 gq i l t th : cleaned i l g1 gq -> survives i g g1 -> events g1 !! t = Some (th ++ [i]) ->
  getThread l = Z.of_nat t -> join_ok g1 l ->
  exists g2 gq2, forget_thread l g1 = Ok g2 /\ cleaned i l g2 gq2 /\ same_struct g1 g2 /\ survives i g g2 /\
    accessMap_ gq2 = accessMap_ gq.
Proof.
  intros Hc Hs Ht Hp Hj. unfold forget_thread. destruct (Class.isKind Kind.ThreadCreate (kind l)) eqn:Ek.
  - apply isKind_spec in Ek. rewrite Ek. change (Class.isKind Kind.ThreadJoin Kind.ThreadCreate) with false. rewrite Hp.
    assert (exists x, (th ++ [i]) !! 0%nat = Some x) as [x Hx] by (destruct th; simpl; eauto).
    destruct (cleaned_label _ _ _ _ x Hc) as [lx Hlx]; [apply elem_concat; eauto|].
    unfold getFirstThreadLabel, dyn_cast. change 0 with (Z.of_nat 0).
    rewrite (getEventLabel_pos g1 t _ 0%nat x Ht Hx). cbn -[label]. rewrite (label_ok _ _ _ Hlx). cbn -[Class.isThreadStart].
    unfold Class.isThreadStart; destruct (_ <=? _)%nat; eexists _, _; (split; [done|]).
    + split_and!; [by apply cleaned_inert|done|by apply survives_inert|done].
    + done.
  - cbn. destruct (Class.isKind Kind.ThreadJoin (kind l)) eqn:Ek'; [|by exists g1, gq]. apply isKind_spec in Ek'.
    specialize (Hj Ek'). destruct (lookup_lt_is_Some_2 (events g1) (Z.to_nat (childId l))) as [cth Hcth].
    { unfold getNumThreads in Hj. lia. }
    unfold getLastThreadLabel. rewrite <- (cl_po _ _ _ _ Hc), (wf_po gq (cl_wf _ _ _ _ Hc)), (cl_events _ _ _ _ Hc).
    rewrite <- (Z2Nat.id (childId l)), (vec_at_ok _ _ _ Hcth) by lia. cbn -[label]. destruct (last cth) as [x|] eqn:Hx; cbn.
    + destruct (cleaned_label _ _ _ _ x Hc) as [lx Hlx]; [rewrite last_lookup in Hx; apply elem_concat; eauto|].
      unfold dyn_cast. rewrite (label_ok _ _ _ Hlx). cbn -[Class.isKind].
      destruct (Class.isKind Kind.ThreadFinish (kind lx)); eexists _, _; (split; [done|]); [|done].
      split_and!; [by apply cleaned_inert|done|by apply survives_inert|done].
    + by exists g1, gq.
Qed.

Lemma drop_access_at i a g a' : list_at (accessMap_ (drop_access i a g)) a' =
  if decide (a = a') then unlink i (list_at (accessMap_ g) a) else list_at (accessMap_ g) a'.
Proof. unfold drop_access. cbn. by rewrite list_at_insert. Qed.

(** The access lists after the label has left. *)
Lemma drop_access_spec g i l (g1 := if Class.isMemAccess (kind l) then drop_access i (getAddr l) g else g)
    (g2 := if Class.isFree (kind l) then drop_access i (getAddr l) g1 else g1) :
  (exists lg, wf lg /\ accessMap_ lg = accessMap_ g /\ in_graph lg i /\ exists l', store lg !! i = Some l' /\ same_static l l') ->
  (forall a, list_at (accessMap_ g2) a = unlink i (list_at (accessMap_ g) a)) /\
  exists acc, g2 = set_accessMap acc g.
Proof.
  intros (lg & Hwf & Ea & Hi & l' & Hl' & Hs). split; [intros a|].
  2:{ exists (accessMap_ g2). unfold g2, g1. destruct (Class.isMemAccess _), (Class.isFree _); by destruct g. }
  assert (Hn : tracked l = false \/ a <> getAddr l -> unlink i (list_at (accessMap_ g) a) = list_at (accessMap_ g) a).
  { intros H. apply unlink_notin. rewrite <- Ea, (wf_acc lg Hwf). intros (_ & l2 & Hl2 & Htr & Had). simplify_eq.
    rewrite (tracked_static _ _ Hs), (addr_static _ _ Hs) in *. destruct H; congruence. }
  unfold g2, g1, tracked in *. destruct (Class.isMemAccess (kind l)) eqn:E1, (Class.isFree (kind l)) eqn:E2; rewrite ?drop_access_at.
  - by destruct (kind l).
  - case_decide; [by subst|]. symmetry. auto.
  - case_decide; [by subst|]. symmetry. auto.
  - symmetry. auto.
Qed.

Lemma removelast_snoc {A} (l : list A) x : removelast (l ++ [x]) = l.
Proof. rewrite removelast_app by done. cbn. by rewrite app_nil_r. Qed.
Lemma unlink_last th i : NoDup (th ++ [i]) -> unlink i (th ++ [i]) = th.
Proof.
  intros (_ & Hd & _)%NoDup_app. unfold unlink. rewrite filter_app. cbn. rewrite decide_False by naive_solver.
  rewrite app_nil_r. apply list_filter_all. intros x Hx ->. apply (Hd i Hx). by left.
Qed.

(** [removeLast] takes the last label away and leaves a well-formed graph; the
    reads from it read from nothing. *)
Lemma removeLast_spec g t th i l : wf g -> events g !! t = Some (th ++ [i]) -> store g !! i = Some l ->
  kind l <> Kind.Init -> (forall a, i ∉ list_at (coherence g) a) -> join_ok g l ->
  exists g', removeLast (Z.of_nat t) g = Ok (g', i) /\ wf g' /\
    (forall x, in_graph g' x <-> in_graph g x /\ x <> i) /\ survives i g g' /\
    events g' = <[t := th]> (events g) /\ coherence g' = coherence g.
Proof.
  intros Hg Ht Hl Hk Hco Hj.
  assert (Hi : in_graph g i).
  { apply elem_concat. exists t, (th ++ [i]), (length th). split; [done|]. by rewrite lookup_app_r, Nat.sub_diag by lia. }
  destruct (wf_pos g Hg t (th ++ [i]) (length th) i Ht) as (l0 & Hl0 & Hp).
  { by rewrite lookup_app_r, Nat.sub_diag by lia. }
  rewrite Hl in Hl0. injection Hl0 as <-.
  assert (Hth : getThread l = Z.of_nat t) by (unfold getThread; by rewrite Hp).
  destruct (release_spec g i l Hg Hi Hl Hk) as (g1 & gq & Er & Hc & Hst & Hsv & Eaq).
  pose proof Hst as (Ee & Ep & Eio & Eco & Eacc).
  pose proof Ht as Hpo. rewrite <- (wf_po g Hg) in Hpo.
  unfold removeLast, getLastThreadLabel. rewrite (vec_at_ok _ _ _ Hpo). cbn -[release label]. rewrite last_snoc. cbn -[release label].
  rewrite (label_ok _ _ _ Hl). cbn -[release]. rewrite Er. cbn -[forget_thread].
  destruct (drop_access_spec g1 i l) as [Hda [acc Eg2]].
  { exists g. split_and!; [done..|]. by exists l. }
  cbv zeta in *. set (g2 := if Class.isFree (kind l) then _ else _) in *.
  assert (Hc2 : cleaned i l g2 gq) by (rewrite Eg2; by destruct Hc).
  destruct (forget_thread_spec g g2 gq i l t th Hc2) as (g3 & gq3 & Ef & Hc3 & Hst3 & Hsv3 & Eaq3).
  { by rewrite Eg2. }
  { rewrite Eg2. cbn. by rewrite Ee. }
  { done. }
  { unfold join_ok, getNumThreads in *. rewrite Eg2. cbn. by rewrite Ee. }
  rewrite Ef. cbn. pose proof Hst3 as (Ee3 & Ep3 & Eio3 & Eco3 & Eacc3).
  assert (Hev : events g3 = events g) by (rewrite Ee3, Eg2; cbn; done).
  assert (Hpos : poLists g3 = poLists g) by (rewrite Ep3, Eg2; cbn; done).
  rewrite Hth, Hpos, (vec_at_ok _ _ _ Hpo). cbn. rewrite (vec_set_ok _ _ _ _ Hpo). cbn.
  rewrite Hev, (vec_at_ok _ _ _ Ht). cbn. rewrite last_snoc. cbn. rewrite (vec_set_ok _ _ _ _ Ht). cbn.
  rewrite removelast_snoc, unlink_last by (by eapply thread_nodup). eexists. split; [done|].
  destruct (cl_lab _ _ _ _ Hc3) as (lq & Hlq & Hsq & Hcq). set (g' := set_events _ _).
  destruct (leave_wf gq3 g' i lq t th) as [Hwf Hin]; try done.
  - apply (cl_wf _ _ _ _ Hc3).
  - by rewrite (cl_events _ _ _ _ Hc3), Hev.
  - by destruct Hsq as (-> & _).
  - intros a. rewrite (cl_co _ _ _ _ Hc3), Eco3, Eg2. cbn. by rewrite Eco.
  - cbn. by rewrite (cl_events _ _ _ _ Hc3), Hev.
  - cbn. by rewrite (wf_po g Hg).
  - cbn. by rewrite (cl_io _ _ _ _ Hc3).
  - cbn. by rewrite (cl_co _ _ _ _ Hc3).
  - intros a. cbn. rewrite Eacc3, Hda, Eaq3, Eaq, Eacc. done.
  - intros x Hx. cbn. rewrite lookup_alter_ne by done. by apply (cl_store _ _ _ _ Hc3).
  - split_and!; [done| | |done|].
    + intros x. rewrite Hin. unfold in_graph. by rewrite (cl_events _ _ _ _ Hc3), Hev.
    + intros x lx Hx Hne Hlx. destruct (Hsv3 x lx Hx Hne Hlx) as (lx' & ? & ?). exists lx'. cbn.
      by rewrite lookup_alter_ne.
    + cbn. by rewrite Eco3, Eg2.
Qed.

(** ** Graphs that can be built *)

(** A new object, before it is handed to the graph. *)
Definition alloc (i : lid) (l : EventLabel.t) (g : t) : t := set_store (insert i l) g.

(** One modification of the graph, used the way its callers use it. *)
Inductive step (g : t) : t -> Prop :=
| step_thread : step g (addNewThread g)
| step_add i l t th k old g' : store g !! i = None -> clean l -> events g !! t = Some th -> slot g t th k old ->
    position l = Event.Event (Z.of_nat t) (Z.of_nat k) -> addLabelToGraph i (alloc i l g) = Ok g' -> step g g'
| step_setRf r lr rf g' : in_graph g r -> store g !! r = Some lr -> Class.isRead (kind lr) = true ->
    (forall w, rf = Some w -> source_ok g w) -> setRf r rf g = Ok g' -> step g g'
| step_addCo w lw pred p g' : in_graph g w -> store g !! w = Some lw -> Class.isWrite (kind lw) = true ->
    w ∉ list_at (coherence g) (getAddr lw) -> co_pred g pred (getAddr lw) p -> addCo w pred g = Ok g' -> step g g'
| step_moveCo w lw pred p g' : store g !! w = Some lw -> w ∈ list_at (coherence g) (getAddr lw) -> pred <> w ->
    co_pred g pred (getAddr lw) p -> moveCo w pred g = Ok g' -> step g g'
| step_removeLast t th i l g' : events g !! t = Some (th ++ [i]) -> store g !! i = Some l -> kind l <> Kind.Init ->
    (forall a, i ∉ list_at (coherence g) a) -> join_ok g l -> removeLast (Z.of_nat t) g = Ok (g', i) -> step g g'.

Definition reachable (g : t) : Prop := exists i g0, new_graph i = Ok g0 /\ rtc step g0 g.

Lemma alloc_wf g i l : wf g -> store g !! i = None -> wf (alloc i l g) /\ ~ in_graph (alloc i l g) i /\
  store (alloc i l g) !! i = Some l.
Proof.
  intros Hg Hi. assert (Hn : ~ in_graph g i) by (intros Hx; destruct (in_graph_store g Hg i Hx); congruence).
  split_and!; [|done|apply lookup_insert_eq]. apply wf_outside; [done|]. intros x Hx. apply lookup_insert_ne. by intros ->.
Qed.

Lemma slot_alloc g i l t th k old : wf g -> store g !! i = None -> events g !! t = Some th -> slot g t th k old ->
  slot (alloc i l g) t th k old.
Proof.
  intros Hg Hi Ht [|k' o lo ? ? Hlo ?]; [constructor|]. apply (slot_hole _ _ _ _ _ lo); try done.
  cbn. rewrite lookup_insert_ne; [done|]. congruence.
Qed.

Lemma step_wf g g' : wf g -> step g g' -> wf g'.
Proof.
  intros Hg [|i l t th k old g2 Hi Hc Ht Hs Hp E|r lr rf g2 Hr Hlr Hk Hrf E|w lw pred p g2 Hw Hlw Hk Hn Hp E
            |w lw pred p g2 Hlw Hin Hne Hp E|t th i l g2 Ht Hl Hk Hco Hj E].
  - by apply addNewThread_wf.
  - destruct (alloc_wf g i l Hg Hi) as (Ha & Hn & Hl).
    destruct (addLabelToGraph_spec (alloc i l g) i l t th k old Ha Hn Hl Hc Ht) as (g3 & E' & Hwf & _);
      [by apply slot_alloc|done|congruence].
  - destruct (setRf_spec g r lr rf Hg Hr Hlr Hk Hrf) as (g3 & l' & E' & Hwf & _). congruence.
  - destruct (addCo_spec g w lw pred p Hg Hw Hlw Hk Hn Hp) as (c & E' & _ & Hwf). congruence.
  - destruct (moveCo_spec g w lw pred p Hg Hlw Hin Hne Hp) as (g3 & c & l' & E' & Hwf & _). congruence.
  - destruct (removeLast_spec g t th i l Hg Ht Hl Hk Hco Hj) as (g3 & E' & Hwf & _). congruence.
Qed.

(** A graph built step by step, for the examples: the initializer (label 1), a write
    and a read of one location, the read reading from the write. *)
Definition demo_addr : SAddr.t := 4096.
Definition demo_write : EventLabel.t :=
  mkWrite Kind.Write (Event.Event 0 1) MemOrdering.Release demo_addr 4 (SVal.ofValue 42) WriteAttr_None noDeps.
Definition demo_read : EventLabel.t :=
  mkRead Kind.Read (Event.Event 0 2) MemOrdering.Acquire demo_addr 4 None None noDeps.
Definition run (r : res t) : t := match r with Ok g => g | Abort _ => initial 1%nat end.
Definition demo1 : t := run (addLabelToGraph 2%nat (alloc 2%nat demo_write (initial 1%nat))).
Definition demo2 : t := run (addLabelToGraph 3%nat (alloc 3%nat demo_read demo1)).
Definition demo3 : t := run (addCo 2%nat 1%nat demo2).
Definition demo4 : t := run (setRf 3%nat (Some 2%nat) demo3).

Lemma elem_of_check (x : lid) (l : list lid) : bool_decide (x ∈ l) = true -> x ∈ l.
Proof. apply bool_decide_eq_true. Qed.
Lemma not_elem_of_check (x : lid) (l : list lid) : bool_decide (x ∈ l) = false -> x ∉ l.
Proof. apply bool_decide_eq_false. Qed.
(** Evaluate a closed side condition. *)
Ltac check := vm_compute; done.
Ltac check_in := apply elem_of_check; vm_compute; reflexivity.

Lemma write_clean : clean demo_write.
Proof. by split. Qed.
Lemma read_clean : clean demo_read.
Proof. by split. Qed.

Lemma demo_steps : step (initial 1%nat) demo1 /\ step demo1 demo2 /\ step demo2 demo3 /\ step demo3 demo4.
Proof.
  split_and!.
  - apply (step_add _ 2%nat demo_write 0%nat [1%nat] 1%nat (fun _ => False)); first [check|apply write_clean|apply (slot_end _ _ [1%nat])].
  - apply (step_add _ 3%nat demo_read 0%nat [1%nat; 2%nat] 2%nat (fun _ => False)); 
      first [check|apply read_clean|apply (slot_end _ _ [1%nat; 2%nat])].
  - eapply (step_addCo _ 2%nat _ 1%nat None); try check; [check_in|by apply not_elem_of_check; vm_compute|].
    eexists. split; vm_compute; reflexivity.
  - eapply (step_setRf _ 3%nat _ (Some 2%nat)); try check; [check_in|].
    intros w [= <-]. split; [check_in|]. eexists. split; [vm_compute; reflexivity|by left].
Qed.
Lemma demo_wf : wf demo1 /\ wf demo2 /\ wf demo3 /\ wf demo4.
Proof.
  destruct demo_steps as (H1 & H2 & H3 & H4).
  pose proof (step_wf _ _ (initial_wf 1%nat) H1) as W1. pose proof (step_wf _ _ W1 H2) as W2.
  pose proof (step_wf _ _ W2 H3) as W3. pose proof (step_wf _ _ W3 H4) as W4. by split_and!.
Qed.

(** ** Theorems *)

(** C24: every graph that can be built from the constructor by adding threads and
    labels, redirecting reads, placing and moving writes in coherence, and removing
    the last label of a thread is well-formed: program order, positions and
    insertion order describe the same labels, reads-from and the readers lists are
    converse, coherence orders the writes of a location, and every access is
    recorded at its location. *)
Theorem reachable_wf (g : t) : reachable g -> wf g.
Proof.
  intros (i & g0 & E & H). rewrite new_graph_initial in E. injection E as <-.
  pose proof (initial_wf i) as Hwf. induction H as [|g1 g2 g3 Hs _ IH]; [done|]. apply IH. by eapply step_wf.
Qed.
Lemma reachable_wf_witness : wf demo4.
Proof.
  apply reachable_wf. exists 1%nat, (initial 1%nat). split; [apply new_graph_initial|].
  destruct demo_steps as (H1 & H2 & H3 & H4).
  eapply rtc_l; [exact H1|]. eapply rtc_l; [exact H2|]. eapply rtc_l; [exact H3|]. by apply rtc_once.
Defined.

(** C25: [setRf] on a read of a well-formed graph returns; afterwards the read reads
    from the given write, from the initializer or from nothing, it is in the readers
    list of that label and of no other, the other labels keep their sources, and the
    read is marked as added maximally exactly when its source is the coherence
    maximum of its location. *)
Theorem setRf_correct (g : t) (r : lid) (lr : EventLabel.t) (rf : option lid) :
  wf g -> in_graph g r -> store g !! r = Some lr -> Class.isRead (kind lr) = true ->
  (forall w, rf = Some w -> source_ok g w) ->
  exists g' lr', setRf r rf g = Ok g' /\ wf g' /\ same_struct g g' /\ rf_frame r g g' /\
    store g' !! r = Some lr' /\ same_static lr lr' /\ readsFrom lr' = rf /\
    (forall w lw a, in_graph g' w -> store g' !! w = Some lw ->
       (r ∈ readers_at lw a <-> rf = Some w /\ (kind lw = Kind.Init -> a = getAddr lr))) /\
    forall w, rf = Some w -> (maximal lr' = true <-> co_max g (getAddr lr) = Ok w).
Proof.
  intros Hg Hr Hlr Hk Hrf. destruct (setRf_spec g r lr rf Hg Hr Hlr Hk Hrf) as (g' & lr' & E & Hwf & Hst & Hfr & Hlr' & Hs & E' & Hm).
  exists g', lr'. split_and!; try done. intros w lw a Hw Hlw. split.
  - intros Hin. destruct (wf_readers g' Hwf w lw a r Hw Hlw Hin) as (_ & l & Hl & _ & E2 & Ha). simplify_eq.
    split; [done|]. rewrite <- (addr_static _ _ Hs). intros Hi. symmetry. auto.
  - intros [-> Ha]. destruct (wf_rf g' Hwf r lr' w) as (_ & lw' & Hlw' & Hin); [|done| |done|].
    + unfold in_graph. by destruct Hst as (-> & _).
    + by destruct Hs as (-> & _).
    + simplify_eq. rewrite (addr_static _ _ Hs) in Hin. unfold readers_at in *. destruct (Class.isWrite (kind lw)); [done|].
      destruct (Class.isKind Kind.Init (kind lw)) eqn:Ek; [|done]. apply isKind_spec in Ek. by rewrite Ha.
Qed.
Lemma setRf_correct_witness : exists g', setRf 3%nat (Some 2%nat) demo3 = Ok g' /\ wf g'.
Proof.
  destruct (setRf_correct demo3 3%nat _ (Some 2%nat) (proj1 (proj2 (proj2 demo_wf))) ltac:(check_in) eq_refl eq_refl)
    as (g' & lr' & E & Hwf & _); [|by exists g'].
  intros w [= <-]. split; [check_in|]. eexists. split; [vm_compute; reflexivity|by left].
Defined.

(** C26: [addLabelToGraph] returns on a new label whose position is the end of its
    thread or an Empty label in the middle of it; the graph stays well-formed, the
    position holds the label, an Empty label it replaces is gone, every other label
    stays, the label is the last in insertion order, and it gets the next stamp
    unless it already has one. *)
Theorem addLabelToGraph_correct (g : t) (i : lid) (l : EventLabel.t) (t : nat) (th : list lid) (k : nat) (old : lid -> Prop) :
  wf g -> ~ in_graph g i -> store g !! i = Some l -> clean l ->
  events g !! t = Some th -> slot g t th k old -> position l = Event.Event (Z.of_nat t) (Z.of_nat k) ->
  exists g', addLabelToGraph i g = Ok g' /\ wf g' /\
    getEventLabel g' (position l) = Ok i /\ store g' !! i = Some (owned (timestamp g) l) /\
    timestamp g' = nextTimestamp (timestamp g) l /\ last (insertionOrder g') = Some i /\
    (forall x, in_graph g' x <-> x = i \/ (in_graph g x /\ ~ old x)) /\
    (forall a, list_at (coherence g') a = list_at (coherence g) a).
Proof. apply addLabelToGraph_spec. Qed.
Lemma addLabelToGraph_correct_witness :
  exists g', addLabelToGraph 3%nat (alloc 3%nat demo_read demo1) = Ok g' /\ wf g' /\ timestamp g' = 3.
Proof.
  destruct (alloc_wf demo1 3%nat demo_read) as (Hwf & Hn & Hs); [apply demo_wf|check|].
  destruct (addLabelToGraph_correct (alloc 3%nat demo_read demo1) 3%nat demo_read 0%nat [1%nat; 2%nat] 2%nat (fun _ => False)
     Hwf Hn Hs read_clean ltac:(check) (slot_end _ _ [1%nat; 2%nat]) eq_refl) as (g' & E & Hw & _ & _ & Ht & _).
  exists g'. split_and!; [done..|]. rewrite Ht. check.
Defined.

(** C27: [addCo] inserts a write into the coherence order of its location right after
    the given write, or first when the predecessor is not a write, and keeps the
    order of the others; [moveCo] takes it out and places it the same way, and marks
    it as added maximally exactly when it has become the last one.  Both return and
    keep the graph well-formed. *)
Theorem coherence_operations (g : t) (w : lid) (lw : EventLabel.t) (pred : lid) (p : option lid) :
  wf g -> in_graph g w -> store g !! w = Some lw -> Class.isWrite (kind lw) = true -> co_pred g pred (getAddr lw) p ->
  (w ∉ list_at (coherence g) (getAddr lw) ->
   exists c, addCo w pred g = Ok (set_coherence (<[getAddr lw := c]> (coherence g)) g) /\
     placed w p (list_at (coherence g) (getAddr lw)) c /\
     wf (set_coherence (<[getAddr lw := c]> (coherence g)) g)) /\
  (w ∈ list_at (coherence g) (getAddr lw) -> pred <> w ->
   exists g' c lw', moveCo w pred g = Ok g' /\ wf g' /\ coherence g' = <[getAddr lw := c]> (coherence g) /\
     placed w p (unlink w (list_at (coherence g) (getAddr lw))) c /\
     store g' !! w = Some lw' /\ (maximal lw' = true <-> last c = Some w)).
Proof. intros Hg Hw Hlw Hk Hp. split; intros; [by apply addCo_spec|by eapply moveCo_spec]. Qed.
Lemma coherence_operations_witness : exists g' c, moveCo 2%nat 1%nat demo4 = Ok g' /\ wf g' /\ placed 2%nat None [] c.
Proof.
  destruct (coherence_operations demo4 2%nat _ 1%nat None (proj2 (proj2 (proj2 demo_wf))) ltac:(check_in) eq_refl eq_refl)
    as [_ H]; [by eexists; split; vm_compute|].
  destruct H as (g' & c & l' & E & Hw & _ & Hp & _); [check_in|done|]. exists g', c. split_and!; [done..|]. exact Hp.
Defined.

(** [removeLast] on a thread whose last label is neither the initializer nor in
    coherence returns that label; the graph stays well-formed, all other labels stay,
    and the reads that read from it read from nothing while all other reads keep
    their source. *)
Theorem removeLast_correct (g : t) (t : nat) (th : list lid) (i : lid) (l : EventLabel.t) :
  wf g -> events g !! t = Some (th ++ [i]) -> store g !! i = Some l ->
  kind l <> Kind.Init -> (forall a, i ∉ list_at (coherence g) a) -> join_ok g l ->
  exists g', removeLast (Z.of_nat t) g = Ok (g', i) /\ wf g' /\
    (forall x, in_graph g' x <-> in_graph g x /\ x <> i) /\ survives i g g' /\
    events g' = <[t := th]> (events g) /\ coherence g' = coherence g.
Proof. apply removeLast_spec. Qed.
Lemma removeLast_correct_witness : exists g', removeLast 0 demo4 = Ok (g', 3%nat) /\ wf g' /\ ~ in_graph g' 3%nat.
Proof.
  destruct (removeLast_correct demo4 0%nat [1%nat; 2%nat] 3%nat _ (proj2 (proj2 (proj2 demo_wf))) eq_refl eq_refl ltac:(done))
    as (g' & E & Hw & Hin & _); [| |exists g'; split_and!; [done..|]; rewrite Hin; tauto].
  - intros a. destruct (decide (a = demo_addr)) as [->|Hne]; [by apply not_elem_of_check; vm_compute|].
    assert (coherence demo4 = {[ demo_addr := [2%nat] ]}) as -> by (vm_compute; reflexivity).
    unfold list_at. rewrite lookup_singleton_ne by done. apply not_elem_of_nil.
  - intros E. vm_compute in E. done.
Defined.

(** A creation that is removed leaves the child with a link to it: the first label
    looked up is the one of the creating thread. *)
Definition create_demo : res (t * EventLabel.t) :=
  g ← new_graph 1%nat;
  g ← addLabelToGraph 2%nat (alloc 2%nat (mkThreadCreate (Event.Event 0 1) (Build_ThreadInfo 1 0 0 SVal.default (-1)) noDeps) g);
  g ← addLabelToGraph 3%nat (alloc 3%nat (mkThreadStart (Event.Event 1 0) (Event.Event 0 1) (Some 2%nat) noThreadInfo (-1)) (addNewThread g));
  '(g, _) ← removeLast 0 g;
  l ← label g 3%nat; Ok (g, l).
Lemma removeLast_keeps_create : match create_demo with Ok (g, l) => createLab l = Some 2%nat /\ ~ in_graph g 2%nat | Abort _ => False end.
Proof. vm_compute. split; [done|]. apply not_elem_of_check. by vm_compute. Qed.

End Graph.
