(* ===== verification/Relations.v ===== *)
(** * Relations of the execution graph

    Models the traversals of Execution/ExecutionGraph.hpp (program order, coherence,
    reads-from, from-reads, detours, thread creation and join, same-location
    accesses), [ReadLabel::isRMW], [readsExt], [readsInt], and
    [ExecutionGraph::validate].  A range is the list of the labels it visits, in the
    order it visits them. *)

From S2P Require Import Prelude Values Addresses Events VSet Views Labels Graph.
Import EventLabel Graph.
Local Open Scope Z_scope.

Module Relations.

(** Iterators over an intrusive list, from the node after [i] to the end; on a
    node that is not linked there the iteration follows a null pointer. *)
Fixpoint suffix_after (i : lid) (l : list lid) : res (list lid) :=
  match l with
  | [] => Abort Undefined
  | x :: l => if decide (x = i) then Ok l else suffix_after i l
  end.

(** [std::views::filter] with a predicate that looks at labels. *)
Fixpoint filterM (f : lid -> res bool) (l : list lid) : res (list lid) :=
  match l with
  | [] => Ok []
  | x :: l => b ← f x; r ← filterM f l; Ok (if (b : bool) then x :: r else r)
  end.

(** [std::ranges::any_of] stops at the first label that satisfies the predicate. *)
Fixpoint anyM (f : lid -> res bool) (l : list lid) : res bool :=
  match l with
  | [] => Ok false
  | x :: l => b ← f x; if (b : bool) then Ok true else anyM f l
  end.

Section traversals.
Context (g : Graph.t).

(** *** Threads and labels *)
Definition labels : list lid := insertionOrder g.
Definition rlabels : list lid := rev (insertionOrder g).
Definition other_labels (i : lid) : res (list lid) :=
  l ← label g i; filterM (fun j => lj ← label g j; Ok (negb (bool_decide (position lj = position l)))) labels.
Definition thr_ids : list Z := map Z.of_nat (seq 0 (length (events g))).
Definition isBlocked : res bool :=
  foldM (fun (b : bool) tid => if b then Ok true else isThreadBlocked g tid) false thr_ids.

(** *** Program order *)
Definition po (tid : Z) : res (list lid) := vec_at (poLists g) tid.
Definition po_succs (i : lid) : res (list lid) :=
  l ← label g i; p ← po (getThread l); suffix_after i p.
Definition po_preds (i : lid) : res (list lid) :=
  l ← label g i; p ← po (getThread l); suffix_after i (rev p).
Definition po_imm_pred (i : lid) : res (option lid) :=
  l ← label g i; p ← po (getThread l);
  if decide (head p = Some i) then Ok None else q ← suffix_after i (rev p); Ok (head q).
Definition po_imm_succ (i : lid) : res (option lid) :=
  l ← label g i; p ← po (getThread l);
  if decide (head (rev p) = Some i) then Ok None else q ← suffix_after i p; Ok (head q).

(** *** Program order, same location *)
Definition isSameLoc (a b : lid) : res bool :=
  la ← label g a; lb ← label g b;
  Ok (Class.isMemAccess (kind la) && Class.isMemAccess (kind lb) && bool_decide (getAddr la = getAddr lb)).
Definition poloc_succs (i : lid) : res (list lid) :=
  l ← label g i; if Class.isMemAccess (kind l) then s ← po_succs i; filterM (isSameLoc i) s else Ok [].
Definition poloc_preds (i : lid) : res (list lid) :=
  l ← label g i; if Class.isMemAccess (kind l) then s ← po_preds i; filterM (isSameLoc i) s else Ok [].
Definition poloc_imm_succ (i : lid) : res (option lid) := s ← poloc_succs i; Ok (head s).
Definition poloc_imm_pred (i : lid) : res (option lid) := s ← poloc_preds i; Ok (head s).

(** *** Detours *)
Definition DetourSuccFilter (i : lid) (pos : Event.t) (o : lid) : res bool :=
  b ← isSameLoc i o;
  if negb b then Ok false else
  lo ← label g o;
  if Class.isRead (kind lo) then
    match readsFrom lo with
    | None => Ok false
    | Some w => lw ← label g w; Ok (negb (bool_decide (position lw = pos)))
    end
  else Ok false.
Definition DetourPredFilter (i : lid) (wPos : Event.t) (s : lid) : res bool :=
  b ← isSameLoc i s;
  if negb b then Ok false else
  ls ← label g s; Ok (Class.isWrite (kind ls) && negb (bool_decide (position ls = wPos))).
Definition detour_succs (i : lid) : res (list lid) :=
  l ← label g i;
  if Class.isWrite (kind l) then s ← po_succs i; filterM (DetourSuccFilter i (position l)) s else Ok [].
Definition detour_preds (i : lid) : res (list lid) :=
  l ← label g i;
  if Class.isRead (kind l) then
    wPos ← match readsFrom l with Some w => lw ← label g w; Ok (position lw) | None => Ok Event.getInit end;
    s ← po_preds i; filterM (DetourPredFilter i wPos) s
  else Ok [].

(** *** Preserved program order: the events a label depends on *)
Fixpoint labels_of (es : list Event.t) : res (list lid) :=
  match es with [] => Ok [] | e :: es => i ← getEventLabel g e; r ← labels_of es; Ok (i :: r) end.
Definition data_preds (i : lid) : res (list lid) := l ← label g i; labels_of (dataDeps (deps l)).
Definition addr_preds (i : lid) : res (list lid) := l ← label g i; labels_of (addrDeps (deps l)).
Definition ctrl_preds (i : lid) : res (list lid) := l ← label g i; labels_of (ctrlDeps (deps l)).

(** *** Thread creation and join *)
Definition tc_succ (i : lid) : res (option lid) :=
  l ← label g i; if Class.isKind Kind.ThreadCreate (kind l) then getFirstThreadLabel g (childId l) else Ok None.
Definition tc_pred (i : lid) : res (option lid) :=
  l ← label g i; Ok (if Class.isThreadStart (kind l) then createLab l else None).
Definition tj_succ (i : lid) : res (option lid) :=
  l ← label g i; Ok (if Class.isKind Kind.ThreadFinish (kind l) then parentJoin l else None).
Definition tj_pred (i : lid) : res (option lid) :=
  l ← label g i;
  if Class.isKind Kind.ThreadJoin (kind l) then
    e ← getLastThreadLabel g (childId l); dyn_cast_if_present (Class.isKind Kind.ThreadFinish) g e
  else Ok None.

(** *** Reads-from *)
Definition rf_succs (i : lid) : res (list lid) :=
  l ← label g i; Ok (if Class.isWrite (kind l) then readerList l else []).
Definition rf_pred (i : lid) : res (option lid) :=
  l ← label g i; Ok (if Class.isRead (kind l) then readsFrom l else None).
Definition readsExt (l : EventLabel.t) : res bool :=
  match readsFrom l with
  | None => Ok false
  | Some w => lw ← label g w;
      Ok (negb (Event.isInitializer (position lw)) && negb (getThread lw =? getThread l))
  end.
Definition readsInt (l : EventLabel.t) : res bool :=
  match readsFrom l with
  | None => Ok false
  | Some w => lw ← label g w; Ok (Event.isInitializer (position lw) || (getThread lw =? getThread l))
  end.
Definition same_thread (l : EventLabel.t) (j : lid) : res bool := lj ← label g j; Ok (getThread lj =? getThread l).
Definition rfe_succs (i : lid) : res (list lid) :=
  l ← label g i; s ← rf_succs i; filterM (fun j => b ← same_thread l j; Ok (negb b)) s.
Definition rfi_succs (i : lid) : res (list lid) := l ← label g i; s ← rf_succs i; filterM (same_thread l) s.
Definition rfe_pred (i : lid) : res (option lid) :=
  l ← label g i; if Class.isRead (kind l) then b ← readsExt l; Ok (if (b : bool) then readsFrom l else None) else Ok None.
Definition rfi_pred (i : lid) : res (option lid) :=
  l ← label g i; if Class.isRead (kind l) then b ← readsInt l; Ok (if (b : bool) then readsFrom l else None) else Ok None.

(** *** Coherence *)
Definition co (a : SAddr.t) : res (list lid) := at_loc (coherence g) a.
Definition rco (a : SAddr.t) : res (list lid) := l ← at_loc (coherence g) a; Ok (rev l).
Definition isInCo (i : lid) (l : EventLabel.t) : bool := bool_decide (i ∈ list_at (coherence g) (getAddr l)).
Definition co_succs (i : lid) : res (list lid) :=
  l ← label g i; if Class.isWrite (kind l) then c ← co (getAddr l); suffix_after i c else Ok [].
Definition co_preds (i : lid) : res (list lid) :=
  l ← label g i;
  verify (negb (Class.isWrite (kind l)) || isInCo i l);;
  if Class.isWrite (kind l) then c ← co (getAddr l); suffix_after i (rev c) else Ok [].
Definition co_imm_succ (i : lid) : res (option lid) := s ← co_succs i; Ok (head s).
Definition co_imm_pred (i : lid) : res (option lid) := s ← co_preds i; Ok (head s).

(** *** From-reads; a read without a source is a null pointer to [dyn_cast] *)
Definition fr_succs (i : lid) : res (list lid) :=
  l ← label g i;
  if Class.isRead (kind l) then
    w ← deref (readsFrom l); lw ← label g w; c ← co (getAddr l);
    if Class.isWrite (kind lw) then suffix_after w c else Ok c
  else Ok [].
Definition fr_imm_succ (i : lid) : res (option lid) := s ← fr_succs i; Ok (head s).
Definition fr_imm_preds (i : lid) : res (list lid) :=
  l ← label g i;
  if Class.isWrite (kind l) then
    c ← co (getAddr l); p ← suffix_after i (rev c);
    match p with
    | [] => n ← getInitLabel g; ln ← label g n; at_loc (initRfs ln) (getAddr l)
    | w :: _ => lw ← label g w; Ok (readerList lw)
    end
  else Ok [].

(** *** Methods and same-location accesses *)
Definition lin_succs (i : lid) : res (list lid) :=
  l ← label g i; Ok (if Class.isKind Kind.MethodEnd (kind l) then linSuccs l else []).
Definition lin_preds (i : lid) : res (list lid) :=
  l ← label g i; Ok (if Class.isKind Kind.MethodBegin (kind l) then linPreds l else []).
Definition samelocs (i : lid) : res (list lid) :=
  l ← label g i;
  if Class.isMem (kind l) then a ← at_loc (accessMap_ g) (getAddr l); Ok (unlink i a) else Ok [].

(** *** Read-modify-writes *)
Definition read_isRMW (i : lid) : res bool :=
  l ← label g i;
  if negb (Class.isRMWReadKind (kind l)) then Ok false else
  n ← po_imm_succ i;
  n ← dyn_cast_if_present Class.isWrite g n;
  match n with
  | None => Ok false
  | Some j => lj ← label g j; Ok (Class.isRMWWrite (kind lj) && bool_decide (getAddr lj = getAddr l))
  end.

(** *** Checking a graph *)
Definition validate_read (i : lid) (l : EventLabel.t) : res () :=
  if Class.isRead (kind l) then
    match readsFrom l with
    | None => Ok ()
    | Some w =>
        c ← containsLab g w;
        if negb c then Abort Unreachable else
        lw ← label g w;
        if Class.isWrite (kind lw) && bool_decide (i ∉ readerList lw) then Abort Unreachable else Ok ()
    end
  else Ok ().
Definition reader_gone (j : lid) : res bool := lj ← label g j; c ← containsPosNonEmpty g (position lj); Ok (negb c).
Definition reader_elsewhere (i j : lid) : res bool := lj ← label g j; Ok (negb (bool_decide (readsFrom lj = Some i))).
Definition validate_write (i : lid) (l : EventLabel.t) : res () :=
  if Class.isWrite (kind l) then
    n ← (if Class.isRMWWrite (kind l) then rs ← filterM read_isRMW (readerList l); Ok (length rs) else Ok 0%nat);
    if (1 <? n)%nat then Abort Unreachable else
    b ← anyM reader_gone (readerList l);
    if (b : bool) then Abort Unreachable else
    b ← anyM (reader_elsewhere i) (readerList l);
    if (b : bool) then Abort Unreachable else
    b ← anyM reader_gone (readerList l);
    if (b : bool) then Abort Unreachable else Ok ()
  else Ok ().
Definition validate : res () :=
  foldM (fun _ i =>
    l ← label g i;
    validate_read i l;;
    if Class.isRead (kind l) && bool_decide (readsFrom l = None) then Ok () else validate_write i l) () labels.

End traversals.

(** ** Ranges *)
Lemma suffix_after_ok i l1 l2 : i ∉ l1 -> suffix_after i (l1 ++ i :: l2) = Ok l2.
Proof.
  induction l1 as [|x l1 IH]; intros Hi; cbn; [by rewrite decide_True|].
  apply not_elem_of_cons in Hi as [Hx Hi]. rewrite decide_False by done. auto.
Qed.
Lemma suffix_after_rev i l1 l2 : i ∉ l2 -> suffix_after i (rev (l1 ++ i :: l2)) = Ok (rev l1).
Proof.
  intros Hi. rewrite rev_app_distr. cbn. rewrite <- app_assoc. apply suffix_after_ok. by rewrite elem_of_rev.
Qed.
Lemma filterM_ok (f : lid -> res bool) (P : lid -> Prop) `{!forall x, Decision (P x)} l :
  (forall x, x ∈ l -> f x = Ok (bool_decide (P x))) -> filterM f l = Ok (filter P l).
Proof.
  induction l as [|x l IH]; intros Hf; [done|]. cbn [filterM]. rewrite Hf by (by left).
  rewrite filter_cons. destruct (decide (P x)); [rewrite bool_decide_true by done|rewrite bool_decide_false by done];
    cbn; by rewrite IH by (intros; apply Hf; by right).
Qed.
Lemma anyM_cases f l : (forall x, x ∈ l -> exists b, f x = Ok b) ->
  (anyM f l = Ok true /\ exists x, x ∈ l /\ f x = Ok true) \/ (anyM f l = Ok false /\ forall x, x ∈ l -> f x = Ok false).
Proof.
  induction l as [|x l IH]; intros H; [right; split; [done|intros x []%not_elem_of_nil]|]. cbn [anyM].
  destruct (H x ltac:(by left)) as [[] E]; rewrite E; cbn; [left; split; [done|]; exists x; split; [by left|done]|].
  destruct IH as [(E' & y & Hy & Ey)|(E' & Hall)]; [intros y Hy; apply H; by right|left|right]; (split; [done|]).
  - exists y. split; [by right|done].
  - intros y [->|Hy]%elem_of_cons; [done|by apply Hall].
Qed.
(** At most one place of a list has the property. *)
Lemma filter_once (f : lid -> bool) (l : list lid) : (length (filter (fun x => f x = true) l) <= 1)%nat <->
  forall p q x y, l !! p = Some x -> l !! q = Some y -> f x = true -> f y = true -> p = q.
Proof.
  induction l as [|z l IH]; [split; [intros _ p q x y H; by rewrite lookup_nil in H|cbn; lia]|]. rewrite filter_cons. case_decide as Hz.
  - split.
    + intros Hlen p q x y Hp Hq Hx Hy. assert (Hnil : filter (fun x => f x = true) l = []) by (apply length_zero_iff_nil; cbn in Hlen; lia).
      assert (Hno : forall n w, l !! n = Some w -> f w = true -> False).
      { intros n w Hn Hw. apply list_elem_of_lookup_2 in Hn. assert (w ∈ filter (fun x => f x = true) l) as H by (by apply list_elem_of_filter). by rewrite Hnil, elem_of_nil in H. }
      destruct p, q; cbn in Hp, Hq; try done; exfalso; eauto.
    + intros Hall. destruct (filter (fun x => f x = true) l) as [|y r] eqn:E; [done|]. exfalso.
      assert (y ∈ filter (fun x => f x = true) l) as [Hy [n Hn]%list_elem_of_lookup]%list_elem_of_filter by (rewrite E; by left).
      by specialize (Hall 0%nat (S n) z y eq_refl Hn Hz Hy).
  - rewrite IH. split.
    + intros Hall p q x y Hp Hq Hx Hy. destruct p as [|p], q as [|q]; cbn in Hp, Hq; simplify_eq; try done. f_equal. eauto.
    + intros Hall p q x y Hp Hq Hx Hy. by specialize (Hall (S p) (S q) x y Hp Hq Hx Hy) as [= ->].
Qed.
Lemma anyM_false f l : (forall x, x ∈ l -> f x = Ok false) -> anyM f l = Ok false.
Proof.
  induction l as [|x l IH]; intros H; [done|]. cbn. rewrite H by (by left). cbn. apply IH. intros. apply H. by right.
Qed.

(** A list split at one of its elements. *)
Lemma split_nodup (l1 l2 : list lid) i : NoDup (l1 ++ i :: l2) -> (i ∉ l1) /\ (i ∉ l2).
Proof. intros (_ & H & [Hi _]%NoDup_cons)%NoDup_app. split; [|done]. intros Hx. apply (H i Hx). by left. Qed.

(** The labels of the threads know their positions. *)
Record laid_out (g : Graph.t) : Prop := {
  lo_po : poLists g = events g;
  lo_pos t th k i : events g !! t = Some th -> th !! k = Some i -> exists l, store g !! i = Some l /\ position l = Event.Event (Z.of_nat t) (Z.of_nat k)
}.
Lemma wf_laid_out g : wf g -> laid_out g.
Proof. intros Hg. split; [apply (wf_po g Hg)|apply (wf_pos g Hg)]. Qed.

Section order.
Context (g : Graph.t) (Hg : laid_out g).
(** *** Program order *)
Lemma po_at i l t th k : store g !! i = Some l -> events g !! t = Some th -> th !! k = Some i ->
  label g i = Ok l /\ po g (getThread l) = Ok th /\ th = take k th ++ i :: drop (S k) th /\
  (i ∉ take k th) /\ (i ∉ drop (S k) th).
Proof.
  intros Hl Ht Hk. destruct (lo_pos g Hg t th k i Ht Hk) as (l' & Hl' & Hp). simplify_eq.
  pose proof (take_drop_middle th k i Hk) as E. assert (NoDup th) as Hnd.
  { pose proof (placed_nodup g 0%nat _ (lo_pos g Hg)) as Hn. destruct (concat_insert _ t th th Ht) as (l1 & l2 & E1 & _).
    rewrite E1 in Hn. apply NoDup_app in Hn as (_ & _ & Hn). by apply NoDup_app in Hn as (Hn & _). }
  rewrite <- E in Hnd.
  split_and!.
  - by apply label_ok.
  - unfold po, getThread. rewrite Hp. cbn. rewrite (lo_po g Hg). by apply vec_at_ok.
  - done.
  - by destruct (split_nodup _ _ _ Hnd).
  - by destruct (split_nodup _ _ _ Hnd).
Qed.

Lemma po_succs_at i l t th k : store g !! i = Some l -> events g !! t = Some th -> th !! k = Some i ->
  po_succs g i = Ok (drop (S k) th).
Proof.
  intros Hl Ht Hk. destruct (po_at i l t th k Hl Ht Hk) as (E1 & E2 & E3 & H1 & H2).
  unfold po_succs. rewrite E1. cbn -[po]. rewrite E2. cbn. rewrite E3 at 1. by apply suffix_after_ok.
Qed.
Lemma po_preds_at i l t th k : store g !! i = Some l -> events g !! t = Some th -> th !! k = Some i ->
  po_preds g i = Ok (rev (take k th)).
Proof.
  intros Hl Ht Hk. destruct (po_at i l t th k Hl Ht Hk) as (E1 & E2 & E3 & H1 & H2).
  unfold po_preds. rewrite E1. cbn -[po]. rewrite E2. cbn. rewrite E3 at 1. by apply suffix_after_rev.
Qed.
Lemma po_imm_succ_at i l t th k : store g !! i = Some l -> events g !! t = Some th -> th !! k = Some i ->
  po_imm_succ g i = Ok (th !! S k).
Proof.
  intros Hl Ht Hk. destruct (po_at i l t th k Hl Ht Hk) as (E1 & E2 & E3 & H1 & H2).
  unfold po_imm_succ. rewrite E1. cbn -[po]. rewrite E2. cbn.
  assert (Eh : th !! S k = head (drop (S k) th)) by (by rewrite head_lookup, lookup_drop, Nat.add_0_r). rewrite Eh.
  destruct (decide (head (rev th) = Some i)) as [Hlast|Hlast].
  - destruct (drop (S k) th) as [|x r] eqn:E; [done|]. exfalso. rewrite E3 in Hlast.
    rewrite rev_app_distr in Hlast. cbn in Hlast.
    assert (Hx : last (x :: r) = Some i).
    { rewrite <- head_reverse. unfold reverse. rewrite <- rev_alt. cbn. by destruct (rev r). }
    apply H2. apply last_Some_elem_of in Hx. done.
  - rewrite E3 at 1. rewrite suffix_after_ok by done. cbn. done.
Qed.
Lemma po_imm_pred_at i l t th k : store g !! i = Some l -> events g !! t = Some th -> th !! k = Some i ->
  po_imm_pred g i = Ok (if decide (k = 0%nat) then None else th !! Nat.pred k).
Proof.
  intros Hl Ht Hk. destruct (po_at i l t th k Hl Ht Hk) as (E1 & E2 & E3 & H1 & H2).
  unfold po_imm_pred. rewrite E1. cbn -[po]. rewrite E2. cbn. 
  destruct (decide (head th = Some i)) as [Hh|Hh].
  - destruct k as [|k]; [done|]. exfalso. destruct th; [done|]. cbn in Hh, H1. simplify_eq. apply H1. by left.
  - rewrite decide_False by (intros ->; by destruct th). rewrite E3 at 1. rewrite suffix_after_rev by done. cbn.
    destruct k as [|k]; [by destruct th|]. cbn.
    apply lookup_lt_Some in Hk as Hlt. destruct (lookup_lt_is_Some_2 th k) as [y Hy]; [lia|].
    by rewrite (take_S_r _ _ y Hy), rev_app_distr, Hy.
Qed.

End order.

Section facts.
Context (g : Graph.t) (Hg : wf g).
(** *** Program order *)
Lemma po_succs_ok i l t th k : store g !! i = Some l -> events g !! t = Some th -> th !! k = Some i -> po_succs g i = Ok (drop (S k) th).
Proof. apply po_succs_at, wf_laid_out, Hg. Qed.
Lemma po_preds_ok i l t th k : store g !! i = Some l -> events g !! t = Some th -> th !! k = Some i -> po_preds g i = Ok (rev (take k th)).
Proof. apply po_preds_at, wf_laid_out, Hg. Qed.
Lemma po_imm_succ_ok i l t th k : store g !! i = Some l -> events g !! t = Some th -> th !! k = Some i -> po_imm_succ g i = Ok (th !! S k).
Proof. apply po_imm_succ_at, wf_laid_out, Hg. Qed.
Lemma po_imm_pred_ok i l t th k : store g !! i = Some l -> events g !! t = Some th -> th !! k = Some i -> po_imm_pred g i = Ok (if decide (k = 0%nat) then None else th !! Nat.pred k).
Proof. apply po_imm_pred_at, wf_laid_out, Hg. Qed.

(** *** Coherence *)
Lemma co_at a w : w ∈ list_at (coherence g) a -> exists l l1 l2, store g !! w = Some l /\ Class.isWrite (kind l) = true /\
  getAddr l = a /\ co g a = Ok (l1 ++ w :: l2) /\ (w ∉ l1) /\ (w ∉ l2).
Proof.
  intros Hw. destruct (wf_co g Hg a w Hw) as (_ & l & Hl & Hk & Ha). pose proof (wf_co_nodup g Hg a) as Hnd.
  apply list_elem_of_split in Hw as (l1 & l2 & E). rewrite E in Hnd. exists l, l1, l2.
  destruct (split_nodup _ _ _ Hnd) as [H1 H2]. split_and!; try done.
  unfold co, at_loc, list_at in *. destruct (coherence g !! a); cbn in E; [by subst|by destruct l1].
Qed.

Lemma co_ranges a w l1 l2 : w ∈ list_at (coherence g) a -> co g a = Ok (l1 ++ w :: l2) -> (w ∉ l1) -> (w ∉ l2) ->
  co_succs g w = Ok l2 /\ co_preds g w = Ok (rev l1).
Proof.
  intros Hw Hco H1 H2. destruct (co_at a w Hw) as (l & _ & _ & Hl & Hk & Ha & _).
  unfold co_succs, co_preds, isInCo. rewrite (label_ok _ _ _ Hl). cbn -[co]. rewrite Hk, Ha, Hco. cbn.
  rewrite bool_decide_true by done. cbn. by rewrite suffix_after_ok, suffix_after_rev.
Qed.

(** *** From-reads *)

(** A read whose source is the initializer or has a place in the coherence order. *)
Definition fr_ready (r : lid) (lr : EventLabel.t) (w : lid) (lw : EventLabel.t) : Prop :=
  in_graph g r /\ store g !! r = Some lr /\ Class.isRead (kind lr) = true /\ readsFrom lr = Some w /\
  store g !! w = Some lw /\
  if Class.isWrite (kind lw) then w ∈ list_at (coherence g) (getAddr lr) else getInitLabel g = Ok w.

Lemma fr_succs_ok r lr w lw : fr_ready r lr w lw ->
  exists l1 l2, co g (getAddr lr) = Ok (l1 ++ l2) /\ fr_succs g r = Ok l2 /\
    (if Class.isWrite (kind lw) then last l1 = Some w /\ NoDup l1 else l1 = []).
Proof.
  intros (Hr & Hlr & Hk & Hrf & Hlw & Hw). unfold fr_succs. rewrite (label_ok _ _ _ Hlr). cbn -[co]. rewrite Hk, Hrf.
  cbn -[co]. rewrite (label_ok _ _ _ Hlw). cbn -[co]. destruct (Class.isWrite (kind lw)) eqn:Ek.
  - destruct (co_at _ w Hw) as (l & l1 & l2 & Hl & _ & _ & Hco & H1 & H2). exists (l1 ++ [w]), l2.
    rewrite <- app_assoc, Hco. cbn. rewrite suffix_after_ok by done. split_and!; [done..|by rewrite last_snoc|].
    pose proof (wf_co_nodup g Hg (getAddr lr)) as Hnd. unfold co, at_loc, list_at in *.
    destruct (coherence g !! getAddr lr); [|done]. injection Hco as ->. cbn in Hnd.
    change (w :: l2) with ([w] ++ l2) in Hnd. rewrite app_assoc in Hnd. by apply NoDup_app in Hnd as [Hnd _].
  - destruct (wf_loc g Hg r lr Hr Hlr (tracked_read _ Hk)) as [c Hc]. exists [], c. unfold co, at_loc. rewrite Hc. done.
Qed.

(** *** Accesses of a location *)
Lemma acc_tracked x l : in_graph g x -> store g !! x = Some l -> tracked l = true ->
  at_loc (accessMap_ g) (getAddr l) = Ok (list_at (accessMap_ g) (getAddr l)).
Proof.
  intros Hx Hl Htr. assert (Hin : x ∈ list_at (accessMap_ g) (getAddr l)) by (apply (wf_acc g Hg); eauto).
  unfold at_loc, list_at in *. destruct (accessMap_ g !! getAddr l); [done|by apply not_elem_of_nil in Hin].
Qed.

End facts.


(** ** Theorems *)

(** The threads and positions of labels. *)
Definition at_pos (g : Graph.t) (i : lid) (t k : nat) : Prop :=
  exists th, events g !! t = Some th /\ th !! k = Some i.

(** in a well-formed graph the program-order ranges of a label return; its
    successors are the labels of its thread with a larger index and its predecessors
    those with a smaller one, each enumerated by distance, and the immediate ones
    are the neighbours at the next and the previous index. *)
Theorem po_relations (g : Graph.t) (i : lid) (t k : nat) : wf g -> at_pos g i t k ->
  exists succs preds s p,
    po_succs g i = Ok succs /\ (forall d x, succs !! d = Some x <-> at_pos g x t (S k + d)) /\
    po_preds g i = Ok preds /\ (forall d x, preds !! d = Some x <-> (d < k)%nat /\ at_pos g x t (k - S d)) /\
    po_imm_succ g i = Ok s /\ (forall x, s = Some x <-> at_pos g x t (S k)) /\
    po_imm_pred g i = Ok p /\ (forall x, p = Some x <-> (0 < k)%nat /\ at_pos g x t (k - 1)).
Proof.
  intros Hg (th & Ht & Hk). destruct (wf_pos g Hg t th k i Ht Hk) as (l & Hl & _).
  assert (Hat : forall x n, at_pos g x t n <-> th !! n = Some x).
  { intros x n. split; [intros (th' & Ht' & H); by simplify_eq|intros H; by exists th]. }
  apply lookup_lt_Some in Hk as Hlt.
  exists (drop (S k) th), (rev (take k th)), (th !! S k), (if decide (k = 0%nat) then None else th !! Nat.pred k).
  split_and!.
  - by eapply po_succs_ok.
  - intros d x. by rewrite Hat, lookup_drop.
  - by eapply po_preds_ok.
  - intros d x. rewrite Hat, rev_alt. change (rev_append (take k th) []) with (reverse (take k th)).
    rewrite reverse_lookup_Some, length_take_le by lia. split.
    + intros [H Hd]. rewrite lookup_take_lt in H by lia. done.
    + intros [Hd H]. by rewrite lookup_take_lt by lia.
  - by eapply po_imm_succ_ok.
  - intros x. by rewrite Hat.
  - by eapply po_imm_pred_ok.
  - intros x. rewrite Hat. destruct (decide (k = 0%nat)) as [->|Hk0]; [split; [done|lia]|].
    rewrite Nat.sub_1_r. split; [split; [lia|done]|by intros [_ ?]].
Qed.
Lemma po_relations_witness : exists preds, po_preds demo4 3%nat = Ok preds /\ preds !! 1%nat = Some 1%nat.
Proof.
  destruct (po_relations demo4 3%nat 0%nat 2%nat) as (succs & preds & s & p & _ & _ & E & H & _).
  - apply demo_wf.
  - exists [1%nat; 2%nat; 3%nat]. split; vm_compute; reflexivity.
  - exists preds. split; [done|]. apply H. split; [lia|]. exists [1%nat; 2%nat; 3%nat]. split; vm_compute; reflexivity.
Defined.

(** in a well-formed graph the coherence ranges of a write that has been placed
    in coherence return and split the order of its location at the write: the
    successors follow it, the predecessors precede it and are enumerated backwards,
    the immediate ones are its neighbours, and [co_max] is the last write. *)
Theorem co_relations (g : Graph.t) (a : SAddr.t) (w : lid) : wf g -> w ∈ list_at (coherence g) a ->
  exists l1 l2, co g a = Ok (l1 ++ w :: l2) /\ (w ∉ l1) /\ (w ∉ l2) /\
    co_succs g w = Ok l2 /\ co_preds g w = Ok (rev l1) /\ co_imm_succ g w = Ok (head l2) /\
    co_imm_pred g w = Ok (last l1) /\ co_max g a = Ok (default w (last l2)).
Proof.
  intros Hg Hw. destruct (co_at g Hg a w Hw) as (l & l1 & l2 & Hl & Hk & Ha & Hco & H1 & H2).
  destruct (co_ranges g Hg a w l1 l2 Hw Hco H1 H2) as [Es Ep]. exists l1, l2. split_and!; try done.
  - unfold co_imm_succ. by rewrite Es.
  - unfold co_imm_pred. rewrite Ep. cbn. rewrite rev_alt. change (rev_append l1 []) with (reverse l1). by rewrite head_reverse.
  - unfold co in Hco. unfold co_max. rewrite Hco. cbn. rewrite last_app, last_cons. by destruct (last l2).
Qed.
Lemma co_relations_witness : exists l1 l2, co demo4 demo_addr = Ok (l1 ++ 2%nat :: l2) /\ co_succs demo4 2%nat = Ok l2.
Proof.
  destruct (co_relations demo4 demo_addr 2%nat (proj2 (proj2 (proj2 demo_wf))) ltac:(check_in)) as (l1 & l2 & E & _ & _ & Es & _).
  by exists l1, l2.
Defined.

(** The locations of the coherence map have a list of readers of the initial value. *)
Definition init_tracked (g : Graph.t) : Prop :=
  forall n ln a, getInitLabel g = Ok n -> store g !! n = Some ln -> is_Some (coherence g !! a) -> is_Some (initRfs ln !! a).

Lemma at_loc_ok (m : gmap Z (list lid)) (a : SAddr.t) : is_Some (m !! a) -> at_loc m a = Ok (list_at m a).
Proof. intros [c Hc]. unfold at_loc, list_at. destruct (m !! a); [done|]. congruence. Qed.
Lemma co_list_at g a c : co g a = Ok c -> list_at (coherence g) a = c /\ is_Some (coherence g !! a).
Proof. unfold co, at_loc, list_at. destruct (coherence g !! a); [|done]. intros [= ->]. split; [done|by eexists]. Qed.

(** The readers of the co-predecessor of a write. *)
Lemma fr_imm_preds_ok g a w l1 l2 : wf g -> init_tracked g -> w ∈ list_at (coherence g) a ->
  co g a = Ok (l1 ++ w :: l2) -> (w ∉ l1) -> (w ∉ l2) ->
  exists p lp preds, match last l1 with Some p' => p = p' | None => getInitLabel g = Ok p end /\
    store g !! p = Some lp /\ fr_imm_preds g w = Ok preds /\ preds = readers_at lp a /\ in_graph g p.
Proof.
  intros Hg Hit Hw Hco H1 H2. destruct (co_at g Hg a w Hw) as (l & _ & _ & Hl & Hk & Ha & _).
  destruct (co_list_at g a _ Hco) as [Hc Hs].
  unfold fr_imm_preds. rewrite (label_ok _ _ _ Hl). cbn -[co]. rewrite Hk, Ha, Hco. cbn. rewrite suffix_after_rev by done. cbn.
  rewrite rev_alt. change (rev_append l1 []) with (reverse l1).
  destruct (last l1) as [p|] eqn:Hlast.
  - assert (Hp : p ∈ list_at (coherence g) a).
    { rewrite Hc. apply elem_of_app. left. by apply last_Some_elem_of. }
    destruct (wf_co g Hg a p Hp) as (Hin & lp & Hlp & Hkp & Hap). exists p, lp, (readerList lp).
    rewrite <- head_reverse in Hlast. destruct (reverse l1) as [|? ?]; cbn in Hlast; [done|]. simplify_eq.
    rewrite (label_ok _ _ _ Hlp). unfold readers_at. rewrite Hkp. done.
  - apply last_None in Hlast as ->. destruct (wf_init g Hg) as (n & ln & Hn & Hln & Hkn). exists n, ln, (list_at (initRfs ln) a).
    unfold reverse. cbn -[getInitLabel label at_loc]. rewrite Hn. cbn -[label at_loc]. rewrite (label_ok _ _ _ Hln). cbn -[at_loc].
    rewrite (at_loc_ok _ _ (Hit n ln a Hn Hln Hs)). unfold readers_at. rewrite Hkn.
    split_and!; try done. by apply init_in.
Qed.

Lemma split_unique (d1 d2 e1 e2 : list lid) x : d1 ++ x :: d2 = e1 ++ x :: e2 -> NoDup (d1 ++ x :: d2) -> d1 = e1 /\ d2 = e2.
Proof.
  revert e1. induction d1 as [|y d1 IH]; intros [|z e1] E Hnd; cbn in *.
  - by injection E.
  - injection E as <- ->. apply NoDup_cons in Hnd as [H _]. destruct H. apply elem_of_app. right. by left.
  - injection E as -> <-. apply NoDup_cons in Hnd as [H _]. destruct H. apply elem_of_app. right. by left.
  - injection E as -> E. apply NoDup_cons in Hnd as [_ Hnd]. destruct (IH e1 E Hnd) as [-> ->]. done.
Qed.

(** from-reads is the composition of the converse of reads-from with coherence:
    a read is among the immediate predecessors of a write exactly when that write
    is its immediate successor, i.e. the first write of the location after the one
    (or the initial value) it reads from. *)
Theorem fr_duality (g : Graph.t) (r w0 w : lid) (lr lw0 : EventLabel.t) (a : SAddr.t) :
  wf g -> init_tracked g -> fr_ready g r lr w0 lw0 -> w ∈ list_at (coherence g) a ->
  exists s preds, fr_imm_succ g r = Ok s /\ fr_imm_preds g w = Ok preds /\ (r ∈ preds <-> s = Some w).
Proof.
  intros Hg Hit Hf Hw. destruct (fr_succs_ok g Hg r lr w0 lw0 Hf) as (c1 & c2 & Hc & Es & Hlast).
  destruct Hf as (Hr & Hlr & Hk & Hrf & Hlw0 & Hw0). destruct (wf_rf g Hg r lr w0 Hr Hlr Hk Hrf) as (Hin0 & lw & Hlw & Hin).
  assert (lw = lw0) as -> by congruence.
  destruct (co_at g Hg a w Hw) as (l & l1 & l2 & Hl & Hkw & Ha & Hco & H1 & H2).
  destruct (fr_imm_preds_ok g a w l1 l2 Hg Hit Hw Hco H1 H2) as (p & lp & preds & Hp & Hlp & Ep & -> & Hinp).
  destruct (co_list_at g a _ Hco) as [Hca _]. pose proof (wf_co_nodup g Hg a) as Hnd. rewrite Hca in Hnd.
  exists (head c2), (readers_at lp a). unfold fr_imm_succ. rewrite Es. split_and!; [done..|]. split.
  - intros Hx. destruct (wf_readers g Hg p lp _ r Hinp Hlp Hx) as (_ & lr' & Hlr' & _ & Hrf' & Hai).
    assert (lr' = lr) as -> by congruence. assert (p = w0) as -> by congruence. assert (lp = lw0) as -> by congruence.
    destruct (Class.isWrite (kind lw0)) eqn:Ek.
    + destruct (last l1) as [p'|] eqn:E1; [subst p'|destruct (wf_init g Hg) as (n & ln & Hn & Hln & Hkn);
        assert (ln = lw0) as -> by congruence; by rewrite Hkn in Ek].
      destruct (last_snoc_inv _ _ E1) as [e1 ->]. destruct Hlast as [[d1 ->]%last_snoc_inv _].
      assert (Hp' : w0 ∈ list_at (coherence g) a) by (rewrite Hca, !elem_of_app; left; right; by left).
      destruct (wf_co g Hg _ _ Hw0) as (_ & la & Hla & _ & Ea). destruct (wf_co g Hg _ _ Hp') as (_ & lb & Hlb & _ & Eb).
      assert (Eab : getAddr lr = a) by congruence. rewrite Eab, Hco, <- !app_assoc in Hc. injection Hc as Hc.
      rewrite <- app_assoc in Hnd. by destruct (split_unique _ _ _ _ _ Hc Hnd) as [_ <-].
    + assert (Eab : getAddr lr = a).
      { apply Hai. unfold readers_at in Hx. rewrite Ek in Hx. destruct (Class.isKind Kind.Init (kind lw0)) eqn:E;
          [by apply isKind_spec|by apply not_elem_of_nil in Hx]. }
      rewrite Eab, Hco, Hlast in Hc. cbn in Hc. injection Hc as <-.
      destruct (last l1) as [p'|] eqn:E1; [|by apply last_None in E1 as ->]. subst p'.
      destruct (wf_co g Hg a w0) as (_ & lb & Hlb & Hkb & _); [|congruence].
      rewrite Hca. apply elem_of_app. left. by apply last_Some_elem_of.
  - intros Hs. destruct c2 as [|w' c2]; [done|]. cbn in Hs. injection Hs as ->.
    destruct (co_list_at g _ _ Hc) as [Hcr _].
    assert (Ea : getAddr lr = a).
    { destruct (wf_co g Hg (getAddr lr) w) as (_ & lb & Hlb & _ & Eb); [|congruence]. rewrite Hcr. apply elem_of_app. right. by left. }
    rewrite Ea in *. assert (c1 = l1) as ->.
    { rewrite Hca in Hcr. by destruct (split_unique _ _ _ _ _ Hcr Hnd). }
    destruct (Class.isWrite (kind lw0)) eqn:Ek.
    + destruct Hlast as [Hlast _]. rewrite Hlast in Hp. subst p. by assert (lp = lw0) as -> by congruence.
    + subst l1. cbn in Hp. assert (p = w0) as -> by congruence. by assert (lp = lw0) as -> by congruence.
Qed.

Lemma demo_init_tracked : init_tracked demo4.
Proof.
  intros n ln a Hn Hln Ha. assert (n = 1%nat) as -> by (vm_compute in Hn; congruence).
  assert (E : coherence demo4 = {[ demo_addr := [2%nat] ]}) by (vm_compute; reflexivity). rewrite E in Ha.
  assert (a = demo_addr) as -> by (destruct Ha as [c Hc]; by apply lookup_singleton_Some in Hc as [<- _]).
  vm_compute in Hln. injection Hln as <-. vm_compute. by eexists.
Qed.
Lemma fr_duality_witness : exists s preds, fr_imm_succ demo4 3%nat = Ok s /\ fr_imm_preds demo4 2%nat = Ok preds /\ (3%nat ∈ preds <-> s = Some 2%nat).
Proof.
  eapply (fr_duality demo4 3%nat 2%nat 2%nat _ _ demo_addr (proj2 (proj2 (proj2 demo_wf))) demo_init_tracked); [|check_in].
  repeat apply conj; [check_in|vm_compute; reflexivity..|]. cbn -[demo4]. check_in.
Defined.

(** [samelocs] of an access or a deallocation of a well-formed graph returns, and
    enumerates exactly the other accesses and deallocations of its address. *)
Theorem samelocs_correct (g : Graph.t) (i : lid) (l : EventLabel.t) :
  wf g -> in_graph g i -> store g !! i = Some l -> tracked l = true ->
  exists c, samelocs g i = Ok c /\
    forall x, x ∈ c <-> x <> i /\ in_graph g x /\ exists lx, store g !! x = Some lx /\ tracked lx = true /\ getAddr lx = getAddr l.
Proof.
  intros Hg Hi Hl Htr. exists (unlink i (list_at (accessMap_ g) (getAddr l))). split.
  - unfold samelocs. rewrite (label_ok _ _ _ Hl). cbn -[at_loc]. rewrite (acc_tracked g Hg i l Hi Hl Htr). cbn.
    unfold tracked in Htr. by destruct (kind l).
  - intros x. rewrite elem_unlink, (wf_acc g Hg). naive_solver.
Qed.
Lemma samelocs_correct_witness : exists c, samelocs demo4 2%nat = Ok c /\ 3%nat ∈ c.
Proof.
  destruct (samelocs_correct demo4 2%nat _ (proj2 (proj2 (proj2 demo_wf))) ltac:(check_in) eq_refl eq_refl) as (c & E & H).
  exists c. split; [done|]. apply H. split; [done|]. split; [check_in|]. eexists. split; vm_compute; done.
Defined.

(** ** Validation *)
(** The read of a read-modify-write, whose write is the next label of the thread. *)
Definition rmw_pair (g : Graph.t) (r : lid) : Prop :=
  exists t k w l lw, at_pos g r t k /\ at_pos g w t (S k) /\ store g !! r = Some l /\ store g !! w = Some lw /\
    Class.isRMWReadKind (kind l) = true /\ Class.isWrite (kind lw) = true /\ Class.isRMWWrite (kind lw) = true /\ getAddr lw = getAddr l.
(** The links between reads and writes: the source of a read is in the graph and lists
    it; the readers that a write lists are labels of the graph that read from it, and at
    most one reader of the write of a read-modify-write belongs to another one. *)
Definition source_linked (g : Graph.t) (r : lid) (l : EventLabel.t) : Prop :=
  Class.isRead (kind l) = true -> forall w, readsFrom l = Some w ->
    in_graph g w /\ forall lw, store g !! w = Some lw -> Class.isWrite (kind lw) = true -> r ∈ readerList lw.
Definition readers_linked (g : Graph.t) (w : lid) (l : EventLabel.t) : Prop :=
  Class.isWrite (kind l) = true -> forall r, r ∈ readerList l ->
    in_graph g r /\ exists lr, store g !! r = Some lr /\ kind lr <> Kind.Empty /\ readsFrom lr = Some w.
Definition read_once (g : Graph.t) (l : EventLabel.t) : Prop :=
  Class.isRMWWrite (kind l) = true -> forall p q r s, readerList l !! p = Some r -> readerList l !! q = Some s -> rmw_pair g r -> rmw_pair g s -> p = q.
Definition links_sound (g : Graph.t) : Prop :=
  forall i l, in_graph g i -> store g !! i = Some l -> source_linked g i l /\ readers_linked g i l /\ read_once g l.
(** The labels that links mention exist; a label with a position of the graph is there. *)
Record reachable_labels (g : Graph.t) : Prop := {
  rl_sources i l w : in_graph g i -> store g !! i = Some l -> Class.isRead (kind l) = true -> readsFrom l = Some w -> is_Some (store g !! w);
  rl_readers i l r : in_graph g i -> store g !! i = Some l -> Class.isWrite (kind l) = true -> r ∈ readerList l -> is_Some (store g !! r);
  rl_own i l : store g !! i = Some l -> containsPos g (position l) = true -> in_graph g i
}.
Definition readers_inside (g : Graph.t) : Prop := forall i l r, in_graph g i -> store g !! i = Some l -> Class.isWrite (kind l) = true -> r ∈ readerList l -> in_graph g r.

Lemma rmw_is_write k : Class.isRMWWrite k = true -> Class.isWrite k = true.
Proof. by destruct k. Qed.
Lemma write_not_read k : Class.isWrite k = true -> Class.isRead k = false.
Proof. by destruct k. Qed.
Section validation.
Context (g : Graph.t) (Hg : laid_out g).

Lemma cell_label i t k l : at_pos g i t k -> store g !! i = Some l ->
  in_graph g i /\ position l = Event.Event (Z.of_nat t) (Z.of_nat k) /\ containsPos g (position l) = true /\ getEventLabel g (position l) = Ok i.
Proof.
  intros (th & Ht & Hk) Hl. destruct (lo_pos g Hg t th k i Ht Hk) as (l' & Hl' & Hp). simplify_eq. split; [apply elem_concat; eauto|]. rewrite Hp. split; [done|].
  split; [|by eapply getEventLabel_pos]. unfold containsPos, getNumThreads. cbn. rewrite Nat2Z.id, Ht. apply lookup_lt_Some in Ht, Hk. lia.
Qed.
Lemma cell_of i : in_graph g i -> exists t k l, at_pos g i t k /\ store g !! i = Some l.
Proof.
  intros (t & th & k & Ht & Hk)%elem_concat. destruct (lo_pos g Hg t th k i Ht Hk) as (l & Hl & _). exists t, k, l. split; [by exists th|done].
Qed.
Lemma containsLab_ok i l : store g !! i = Some l -> exists b, containsLab g i = Ok b /\ (b = true <-> in_graph g i).
Proof.
  intros Hl. unfold containsLab. rewrite (label_ok _ _ _ Hl). cbn. destruct (containsPos g (position l)) eqn:Ec.
  - unfold containsPos, getEventLabel in *. destruct (position l) as [tz kz] eqn:Ep. cbn in *. rewrite !andb_true_iff, !Z.leb_le, !Z.ltb_lt in Ec.
    destruct Ec as (((H1 & H2) & H3) & H4). destruct (events g !! Z.to_nat tz) as [th|] eqn:Et; [|done]. apply Z.ltb_lt in H4.
    destruct (lookup_lt_is_Some_2 th (Z.to_nat kz)) as [j Hj]; [lia|].
    unfold vec_at. rewrite decide_False, Et by lia. cbn. rewrite decide_False, Hj by lia. cbn. eexists. split; [done|]. rewrite bool_decide_eq_true. split.
    + intros ->. apply elem_concat. eauto.
    + intros Hi. destruct (cell_of i Hi) as (t & k & l' & Hat & Hl'). simplify_eq. destruct (cell_label i t k l Hat Hl) as (_ & Hp & _). rewrite Hp in Ep. injection Ep as <- <-.
      rewrite !Nat2Z.id in *. destruct Hat as (th' & Ht' & Hk'). by simplify_eq.
  - exists false. split; [done|]. split; [done|]. intros Hi. destruct (cell_of i Hi) as (t & k & l' & Hat & Hl'). simplify_eq.
    destruct (cell_label i t k l Hat Hl) as (_ & _ & Hc & _). congruence.
Qed.
Lemma read_isRMW_ok r : in_graph g r -> exists b, read_isRMW g r = Ok b /\ (b = true <-> rmw_pair g r).
Proof.
  intros Hr. destruct (cell_of r Hr) as (t & k & l & Hat & Hl). pose proof Hat as (th & Ht & Hk).
  unfold read_isRMW. rewrite (label_ok _ _ _ Hl). cbn -[po_imm_succ]. destruct (Class.isRMWReadKind (kind l)) eqn:Ek; cbn -[po_imm_succ].
  2:{ exists false. split; [done|]. split; [done|]. intros (?&?&?&l'&?&_&_&?&_&?&_). congruence. }
  rewrite (po_imm_succ_at g Hg r l t th k Hl Ht Hk). cbn.
  assert (Hpair : forall w lw, th !! S k = Some w -> store g !! w = Some lw ->
    rmw_pair g r <-> Class.isWrite (kind lw) = true /\ Class.isRMWWrite (kind lw) = true /\ getAddr lw = getAddr l).
  { intros w lw Hw Hlw. split.
    - intros (t' & k' & w' & l' & lw' & Hat' & (th' & Ht' & Hk') & Hl' & Hlw' & _ & H1 & H2 & H3). simplify_eq.
      destruct (cell_label r t k l Hat Hl) as (_ & Hp & _). destruct (cell_label r t' k' l Hat' Hl) as (_ & Hp' & _). rewrite Hp' in Hp. injection Hp as Et Ek'.
      apply Nat2Z.inj in Et, Ek'. subst. by simplify_eq.
    - intros (H1 & H2 & H3). exists t, k, w, l, lw. split_and!; try done. by exists th. }
  destruct (th !! S k) as [w|] eqn:Ew.
  - destruct (lo_pos g Hg t th (S k) w Ht Ew) as (lw & Hlw & _). specialize (Hpair w lw eq_refl Hlw).
    unfold dyn_cast_if_present, dyn_cast. cbn. rewrite (label_ok _ _ _ Hlw). cbn. destruct (Class.isWrite (kind lw)) eqn:E1; cbn.
    + rewrite (label_ok _ _ _ Hlw). cbn. eexists. split; [done|]. rewrite Hpair, andb_true_iff, bool_decide_eq_true. tauto.
    + exists false. split; [done|]. rewrite Hpair. split; [done|by intros [? _]].
  - exists false. split; [done|]. split; [done|]. intros (t' & k' & w' & l' & lw' & Hat' & (th' & Ht' & Hk') & Hl' & _). simplify_eq.
    destruct (cell_label r t k l Hat Hl) as (_ & Hp & _). destruct (cell_label r t' k' l Hat' Hl) as (_ & Hp' & _). rewrite Hp' in Hp. injection Hp as Et Ek'.
    apply Nat2Z.inj in Et, Ek'. subst. by simplify_eq.
Qed.
(** A check that passes exactly when the property holds, and reports otherwise. *)
Definition checks (r : res ()) (P : Prop) : Prop := r = Ok () /\ P \/ r = Abort Unreachable /\ ~ P.
Lemma validate_read_checks i l : (Class.isRead (kind l) = true -> forall w, readsFrom l = Some w -> is_Some (store g !! w)) -> checks (validate_read g i l) (source_linked g i l).
Proof.
  intros Hs. unfold validate_read, source_linked. destruct (Class.isRead (kind l)); [|left; by split].
  destruct (readsFrom l) as [w|]; [|left; by split]. destruct (Hs eq_refl w eq_refl) as [lw Hlw].
  destruct (containsLab_ok w lw Hlw) as (b & E & Hb). rewrite E. destruct b; cbn.
  - rewrite (label_ok _ _ _ Hlw). cbn. destruct (Class.isWrite (kind lw)) eqn:Ew; cbn; [case_bool_decide as Hin; cbn|].
    + right. split; [done|]. intros H. apply Hin. destruct (H eq_refl w eq_refl) as [_ H']. by apply H'.
    + left. split; [done|]. intros _ w' [= <-]. split; [by apply Hb|]. intros lw' E' _. simplify_eq. by destruct (decide (i ∈ readerList lw)).
    + left. split; [done|]. intros _ w' [= <-]. split; [by apply Hb|]. intros lw' E' Ew'. simplify_eq. congruence.
  - right. split; [done|]. intros H. destruct (H eq_refl w eq_refl) as [H' _]. apply Hb in H'. done.
Qed.
Lemma reader_gone_ok r lr : in_graph g r -> store g !! r = Some lr -> reader_gone g r = Ok (bool_decide (kind lr = Kind.Empty)).
Proof.
  intros Hr Hlr. destruct (cell_of r Hr) as (t & k & l & Hat & _). destruct (cell_label r t k lr Hat Hlr) as (_ & _ & Hc & Hp).
  unfold reader_gone, containsPosNonEmpty. rewrite (label_ok _ _ _ Hlr). cbn. rewrite Hc, Hp. cbn. rewrite (label_ok _ _ _ Hlr). cbn.
  by rewrite negb_involutive.
Qed.
Definition rmwb (r : lid) : bool := match read_isRMW g r with Ok b => b | Abort _ => false end.
Lemma rmwb_spec r : in_graph g r -> rmwb r = true <-> rmw_pair g r.
Proof. intros Hr. unfold rmwb. by destruct (read_isRMW_ok r Hr) as (b & -> & Hb). Qed.
Lemma read_once_count l : Class.isRMWWrite (kind l) = true -> (forall r, r ∈ readerList l -> in_graph g r) ->
  exists rs, filterM (read_isRMW g) (readerList l) = Ok rs /\ ((length rs <= 1)%nat <-> read_once g l).
Proof.
  intros Hk Hin. exists (filter (fun r => rmwb r = true) (readerList l)). split.
  - apply filterM_ok. intros r Hr. unfold rmwb. destruct (read_isRMW_ok r (Hin r Hr)) as ([] & -> & _); [by rewrite bool_decide_true|by rewrite bool_decide_false].
  - rewrite filter_once. unfold read_once. split.
    + intros H _ p q r s Hp Hq Hr Hs. apply (H p q r s Hp Hq); apply rmwb_spec; try done; apply Hin; by eapply list_elem_of_lookup_2.
    + intros H p q r s Hp Hq Hr Hs. apply (H Hk p q r s Hp Hq); apply rmwb_spec; try done; apply Hin; by eapply list_elem_of_lookup_2.
Qed.
Lemma validate_write_checks i l : (Class.isWrite (kind l) = true -> forall r, r ∈ readerList l -> in_graph g r) -> checks (validate_write g i l) (readers_linked g i l /\ read_once g l).
Proof.
  intros Hin. unfold validate_write. destruct (Class.isWrite (kind l)) eqn:Ew.
  2:{ left. split; [done|]. split; intros H; exfalso; [congruence|]. by rewrite (rmw_is_write _ H) in Ew. }
  specialize (Hin eq_refl).
  assert (exists n, (if Class.isRMWWrite (kind l) then rs ← filterM (read_isRMW g) (readerList l); Ok (length rs) else Ok 0%nat) = Ok n /\ ((n <= 1)%nat <-> read_once g l)) as (n & -> & Hn).
  { destruct (Class.isRMWWrite (kind l)) eqn:Ek; [|exists 0%nat; split; [done|]; split; [|lia]; intros _ H; congruence].
    destruct (read_once_count l Ek Hin) as (rs & -> & Hrs). by exists (length rs). }
  cbn [mbind res_bind]. destruct (Nat.ltb_spec 1 n) as [Hlt|Hle]; [right; split; [done|]; intros [_ H%Hn]; lia|]. apply Hn in Hle.
  assert (forall r, r ∈ readerList l -> exists lr, store g !! r = Some lr /\ reader_gone g r = Ok (bool_decide (kind lr = Kind.Empty)) /\
    reader_elsewhere g i r = Ok (negb (bool_decide (readsFrom lr = Some i)))) as Hr.
  { intros r H. destruct (cell_of r (Hin r H)) as (t & k & lr & _ & Hlr). exists lr. split; [done|]. split; [by apply reader_gone_ok; [apply Hin|]|].
    unfold reader_elsewhere. by rewrite (label_ok _ _ _ Hlr). }
  destruct (anyM_cases (reader_gone g) (readerList l)) as [(-> & r & Hrl & Er)|(-> & Hgone)]; [intros r H; destruct (Hr r H) as (? & _ & -> & _); eauto|right; split; [done|]|].
  { intros [H _]. destruct (Hr r Hrl) as (lr & Elr & E & _). destruct (H Ew r Hrl) as (_ & lr' & Elr' & Hne & _). simplify_eq. rewrite E, bool_decide_false in Er; [done|]. done. }
  cbn. destruct (anyM_cases (reader_elsewhere g i) (readerList l)) as [(-> & r & Hrl & Er)|(-> & Helse)]; [intros r H; destruct (Hr r H) as (? & _ & _ & ->); eauto|right; split; [done|]|left; split; [done|]].
  { intros [H _]. destruct (Hr r Hrl) as (lr & Elr & _ & E). destruct (H Ew r Hrl) as (_ & lr' & Elr' & _ & Hrf). simplify_eq. rewrite E, bool_decide_true in Er; done. }
  split; [|done]. intros _ r Hrl. split; [by apply Hin|]. destruct (Hr r Hrl) as (lr & Elr & E1 & E2). exists lr. split; [done|].
  specialize (Hgone r Hrl). specialize (Helse r Hrl). rewrite E1 in Hgone. rewrite E2 in Helse. injection Hgone as H1%bool_decide_eq_false. injection Helse as H2%negb_false_iff%bool_decide_eq_true. done.
Qed.
(** Listed readers that are not in the graph do not get through. *)
Lemma anyM_false_inv f l : anyM f l = Ok false -> forall x, x ∈ l -> f x = Ok false.
Proof.
  induction l as [|y l IH]; intros E x Hx; [by apply not_elem_of_nil in Hx|]. cbn in E. destruct (f y) as [[]|] eqn:Ey; try done. cbn in E.
  apply elem_of_cons in Hx as [->|Hx]; [done|by apply IH].
Qed.
Lemma validate_write_inside i l : (forall j lj, store g !! j = Some lj -> containsPos g (position lj) = true -> in_graph g j) ->
  Class.isWrite (kind l) = true -> validate_write g i l = Ok () -> forall r, r ∈ readerList l -> in_graph g r.
Proof.
  intros Hown Hk E r Hr. unfold validate_write in E. rewrite Hk in E. apply bind_ok in E as (n & _ & E). destruct (1 <? n)%nat; [done|].
  apply bind_ok in E as ([] & E1 & E); [done|]. pose proof (anyM_false_inv _ _ E1 r Hr) as Hg1. unfold reader_gone in Hg1.
  apply bind_ok in Hg1 as (lr & Hlr & Hg1). unfold label in Hlr. destruct (store g !! r) as [lr'|] eqn:Es; [|done]. cbn in Hlr. injection Hlr as ->.
  apply (Hown r lr Es). unfold containsPosNonEmpty in Hg1. by destruct (containsPos g (position lr)).
Qed.
End validation.

Lemma foldM_each {A} (f : A -> res ()) (l : list A) : (forall x, x ∈ l -> f x = Ok () \/ f x = Abort Unreachable) ->
  foldM (fun _ x => f x) () l = Ok () /\ (forall x, x ∈ l -> f x = Ok ()) \/ foldM (fun _ x => f x) () l = Abort Unreachable /\ exists x, x ∈ l /\ f x = Abort Unreachable.
Proof.
  induction l as [|x l IH]; intros H; [left; split; [done|intros x []%not_elem_of_nil]|]. cbn.
  destruct (H x ltac:(by left)) as [E|E]; rewrite E; cbn; [|right; split; [done|]; exists x; split; [by left|done]].
  destruct IH as [[-> Hl]|(-> & y & Hy & Ey)]; [intros y Hy; apply H; by right|left|right]; (split; [done|]).
  - intros y [->|Hy]%elem_of_cons; [done|by apply Hl].
  - exists y. split; [by right|done].
Qed.
Lemma foldM_ok_inv {A} (f : A -> res ()) (l : list A) : foldM (fun _ x => f x) () l = Ok () -> forall x, x ∈ l -> f x = Ok ().
Proof.
  induction l as [|x l IH]; intros E y Hy; [by apply not_elem_of_nil in Hy|]. cbn in E. apply bind_ok in E as ([] & E1 & E).
  apply elem_of_cons in Hy as [->|Hy]; [done|by apply IH].
Qed.
(** The checks of one label. *)
Definition validate_label (g : Graph.t) (i : lid) : res () :=
  l ← label g i; validate_read g i l;;
  if Class.isRead (kind l) && bool_decide (readsFrom l = None) then Ok () else validate_write g i l.
Lemma validate_label_checks g i l : laid_out g -> reachable_labels g -> readers_inside g -> in_graph g i -> store g !! i = Some l ->
  checks (validate_label g i) (source_linked g i l /\ readers_linked g i l /\ read_once g l).
Proof.
  intros Hg Hr Hin Hi Hl. unfold validate_label. rewrite (label_ok _ _ _ Hl). cbn.
  destruct (validate_read_checks g Hg i l) as [[-> Hs]|[-> Hs]]; [intros Hk w; by apply (rl_sources g Hr i)| |right; split; [done|tauto]]. cbn.
  destruct (validate_write_checks g Hg i l) as [[E Hw]|[E Hw]]; [intros Hk r; by apply (Hin i)|..].
  - left. split; [|done]. by destruct (_ && _).
  - right. split; [|tauto]. destruct (Class.isRead (kind l)) eqn:Ek; [|done]. exfalso. apply Hw.
    split; intros H; exfalso; [by rewrite (write_not_read _ H) in Ek|by rewrite (write_not_read _ (rmw_is_write _ H)) in Ek].
Qed.
Lemma validate_label_inside g i l : reachable_labels g -> store g !! i = Some l -> Class.isWrite (kind l) = true -> validate_label g i = Ok () ->
  forall r, r ∈ readerList l -> in_graph g r.
Proof.
  intros Hr Hl Hk E. unfold validate_label in E. rewrite (label_ok _ _ _ Hl) in E. cbn in E. apply bind_ok in E as ([] & _ & E).
  rewrite (write_not_read _ Hk) in E. by apply (validate_write_inside g i l (rl_own g Hr)).
Qed.
Lemma validate_sound g : laid_out g -> reachable_labels g -> insertionOrder g ≡ₚ concat (events g) -> validate g = Ok () <-> links_sound g.
Proof.
  intros Hg Hr Hio. change (validate g) with (foldM (fun _ i => validate_label g i) () (insertionOrder g)). split.
  - intros E. assert (Hall : forall i, in_graph g i -> validate_label g i = Ok ()) by (intros i Hi; apply (foldM_ok_inv _ _ E); by rewrite Hio).
    assert (readers_inside g) as Hin by (intros i l r Hi Hl Hk Hrl; by apply (validate_label_inside g i l Hr Hl Hk (Hall i Hi))).
    intros i l Hi Hl. destruct (validate_label_checks g i l Hg Hr Hin Hi Hl) as [[_ H]|[E' _]]; [done|]. by rewrite Hall in E'.
  - intros Hs. assert (readers_inside g) as Hin by (intros i l r Hi Hl Hk Hrl; destruct (Hs i l Hi Hl) as (_ & H & _); by destruct (H Hk r Hrl)).
    apply foldM_const. intros i Hi. rewrite Hio in Hi. destruct (cell_of g Hg i Hi) as (t & k & l & _ & Hl).
    destruct (validate_label_checks g i l Hg Hr Hin Hi Hl) as [[E _]|[_ H]]; [done|]. by destruct (H (Hs i l Hi Hl)).
Qed.

(** C30: [validate] accepts a graph exactly when the links between reads and writes are
    sound: the source of each read is in the graph and, if it is a write, lists the
    read; the readers that a write lists are labels of the graph that read from it; and
    at most one read-modify-write reads from the write of another.  A graph whose links
    break this, with readers that are still labels of the graph, is reported.  The labels
    of the graph know their positions, and no link points to a label that does not exist. *)
Theorem validate_correct (g : Graph.t) : laid_out g -> reachable_labels g -> insertionOrder g ≡ₚ concat (events g) ->
  (validate g = Ok () <-> links_sound g) /\ (readers_inside g -> ~ links_sound g -> validate g = Abort Unreachable).
Proof.
  intros Hg Hr Hio. pose proof (validate_sound g Hg Hr Hio) as Hs. split; [done|]. intros Hin Hn.
  change (validate g) with (foldM (fun _ i => validate_label g i) () (insertionOrder g)) in *.
  destruct (foldM_each (validate_label g) (insertionOrder g)) as [[E _]|[E _]]; [|by destruct (Hn (proj1 Hs E))|done].
  intros i Hi. rewrite Hio in Hi. destruct (cell_of g Hg i Hi) as (t & k & l & _ & Hl).
  destruct (validate_label_checks g i l Hg Hr Hin Hi Hl) as [[E _]|[E _]]; [by left|by right].
Qed.

(** A graph that the operations build has sound links as long as it is atomic. *)
Lemma wf_links_sound (g : Graph.t) : wf g -> (forall i l, in_graph g i -> store g !! i = Some l -> read_once g l) -> links_sound g.
Proof.
  intros Hg Ha i l Hi Hl. split; [|split; [|by apply (Ha i)]].
  - intros Hk w Hrf. destruct (wf_rf g Hg i l w Hi Hl Hk Hrf) as (Hw & lw & Hlw & Hin). split; [done|]. intros lw' Hlw' Hkw. simplify_eq.
    unfold readers_at in Hin. by rewrite Hkw in Hin.
  - intros Hk r Hr. destruct (wf_readers g Hg i l 0 r Hi Hl) as (Hrg & lr & Hlr & Hkr & Hrf & _); [unfold readers_at; by rewrite Hk|].
    split; [done|]. exists lr. split_and!; try done. by intros E; rewrite E in Hkr.
Qed.

(** A write that forgets its readers. *)
Section forgetful.
Context (g : Graph.t) (Hg : wf g) (w : lid).
Definition forgetful : Graph.t := upd w (with_readerList []) g.
Lemma forgetful_lookup i l : store forgetful !! i = Some l -> exists l0, store g !! i = Some l0 /\ position l = position l0 /\ kind l = kind l0 /\
  readsFrom l = readsFrom l0 /\ (readerList l = readerList l0 \/ readerList l = []).
Proof.
  unfold forgetful. rewrite upd_lookup. case_decide; [|intros E; exists l; split_and!; try done; by left]. destruct (store g !! i) as [l0|]; [|done].
  intros [= <-]. exists l0. split_and!; try done. by right.
Qed.
Lemma forgetful_exists i l0 : store g !! i = Some l0 -> is_Some (store forgetful !! i).
Proof. unfold forgetful. rewrite upd_lookup. intros ->. case_decide; eauto. Qed.
Lemma forgetful_laid_out : laid_out forgetful.
Proof.
  split; [apply (wf_po _ Hg)|]. intros t th k i Ht Hk. destruct (wf_pos _ Hg t th k i Ht Hk) as (l & Hl & Hp).
  destruct (forgetful_exists i l Hl) as [l' Hl']. exists l'. split; [done|]. destruct (forgetful_lookup i l' Hl') as (l0 & E & -> & _). by simplify_eq.
Qed.
Lemma forgetful_order : insertionOrder forgetful ≡ₚ concat (events forgetful).
Proof. apply (wf_io _ Hg). Qed.
Lemma forgetful_inside : readers_inside forgetful.
Proof.
  intros i l r Hi Hl Hk Hr. destruct (forgetful_lookup i l Hl) as (l0 & E & _ & Ek & _ & [Er|Er]); rewrite Er in Hr; [|by apply not_elem_of_nil in Hr].
  rewrite Ek in Hk. destruct (wf_readers _ Hg i l0 0 r Hi E) as [H _]; [unfold readers_at; by rewrite Hk|exact H].
Qed.
Lemma forgetful_reachable : (forall i l, store forgetful !! i = Some l -> in_graph g i) -> reachable_labels forgetful.
Proof.
  intros Hown. split.
  - intros i l v Hi Hl Hk Hrf. destruct (forgetful_lookup i l Hl) as (l0 & E & _ & Ek & Er & _). rewrite Ek in Hk. rewrite Er in Hrf.
    destruct (wf_rf _ Hg i l0 v Hi E Hk Hrf) as (_ & lw & Hlw & _). by apply forgetful_exists in Hlw.
  - intros i l r Hi Hl Hk Hr. destruct (in_graph_store g Hg r) as [lr Hlr]; [by apply (forgetful_inside i l)|]. by apply forgetful_exists in Hlr.
  - intros i l Hl _. by apply (Hown i l).
Qed.
(** It is found out if it had a reader. *)
Lemma forgetful_unsound r lr lw : in_graph g r -> store g !! r = Some lr -> r <> w -> Class.isRead (kind lr) = true -> readsFrom lr = Some w ->
  store g !! w = Some lw -> Class.isWrite (kind lw) = true -> ~ links_sound forgetful.
Proof.
  intros Hr Hlr Hne Hk Hrf Hlw Hkw Hs. assert (store forgetful !! r = Some lr) as E by (unfold forgetful; by rewrite upd_lookup, decide_False).
  destruct (Hs r lr Hr E) as (H & _). destruct (H Hk w Hrf) as [_ H'].
  assert (store forgetful !! w = Some (with_readerList [] lw)) as Ew by (unfold forgetful; by rewrite upd_lookup, decide_True, Hlw).
  specialize (H' _ Ew Hkw). by apply not_elem_of_nil in H'.
Qed.
End forgetful.

(** The write of the demonstration forgets its reader. *)
Definition broken : Graph.t := forgetful demo4 2%nat.
Lemma broken_owned : bool_decide (map_Forall (fun i _ => i ∈ concat (events demo4)) (store broken)) = true.
Proof. vm_compute. reflexivity. Qed.
Lemma demo4_links : exists lr lw, store demo4 !! 3%nat = Some lr /\ Class.isRead (kind lr) = true /\ readsFrom lr = Some 2%nat /\
  store demo4 !! 2%nat = Some lw /\ Class.isWrite (kind lw) = true.
Proof. eexists _, _. split_and!; vm_compute; reflexivity. Qed.
Lemma demo4_reader : in_graph demo4 3%nat.
Proof. check_in. Qed.
Lemma validate_correct_witness : validate broken = Abort Unreachable.
Proof.
  destruct demo_wf as (_ & _ & _ & Hg). destruct demo4_links as (lr & lw & H1 & H2 & H3 & H4 & H5). apply (validate_correct broken).
  - exact (forgetful_laid_out demo4 Hg 2%nat).
  - exact (forgetful_reachable demo4 Hg 2%nat (proj1 (bool_decide_eq_true _) broken_owned)).
  - exact (forgetful_order demo4 Hg 2%nat).
  - exact (forgetful_inside demo4 Hg 2%nat).
  - exact (forgetful_unsound demo4 2%nat 3%nat lr lw demo4_reader H1 ltac:(discriminate) H2 H3 H4 H5).
Defined.
(** The demonstration itself is accepted. *)
Lemma validate_accepts : validate demo4 = Ok ().
Proof. vm_compute. reflexivity. Qed.

(** ** Initial values *)

(** [setInitVal]: [insert] leaves an existing value alone and reports whether it
    inserted. *)
Definition setInitVal (a : SAddr.t) (v : SVal.t) (m : gmap Z SVal.t) : res (gmap Z SVal.t) :=
  let '(m', w, inserted) := match m !! a with Some w => (m, w, false) | None => (<[a := v]> m, v, true) end in
  verify (negb (inserted && negb (SVal.get w =? SVal.get v) && negb (SVal.getProvenance w =? SVal.getProvenance v)));;
  Ok m'.

(** The check for a second, different initial value cannot fail, and the second value
    is dropped. *)
Lemma setInitVal_ignores_conflict a v w m : m !! a = Some w -> setInitVal a v m = Ok m.
Proof. intros E. unfold setInitVal. by rewrite E. Qed.

End Relations.
