(* ===== verification/Cut.v ===== *)
(** * Cutting a graph back to an earlier moment

    Models [getViewFromStamp], [getPredsView], [removeAfter] and [cutToStamp] of
    Execution/ExecutionGraph.{hpp,cpp}, which the driver uses to go back to the
    graph as it was when a label was added.  The code works on any vector clock
    (ADT/VectorClock.hpp); the class [VectorClock] is that interface, [View]
    implements it. *)

From S2P Require Import Prelude Values Addresses Events VSet Views Labels Graph.
Import EventLabel Graph.
Local Open Scope Z_scope.

(** The observers of the abstract class VectorClock. *)
Class VectorClock (V : Type) := {
  vc_size : V -> res Z;
  vc_getMax : V -> Z -> res Z;
  vc_contains : V -> Event.t -> res bool
}.

(** What a clock promises whose contents are the prefixes [f] of the threads. *)
Record prefix_clock `{VectorClock V} (v : V) (f : Z -> Z) : Prop := {
  pc_size : exists n, vc_size v = Ok n /\ 0 <= n /\ (forall t, n <= t -> f t = 0) /\ (n = 0 \/ 0 < f (n - 1));
  pc_getMax t : 0 <= t -> vc_getMax v t = Ok (f t);
  pc_contains e : 0 <= Event.thread e -> vc_contains v e = Ok (Event.index e <=? f (Event.thread e));
  pc_nonneg t : 0 <= t -> 0 <= f t
}.

#[global] Instance View_clock : VectorClock (View.store * View.vid) := {|
  vc_size v := View.size v.1 v.2;
  vc_getMax v := View.getMax v.1 v.2;
  vc_contains v := View.contains v.1 v.2
|}.

Module Cut.

Definition getStamp (l : EventLabel.t) : res Stamp.t := deref (stamp l).

(** The loop that erases from a list what satisfies [cond]. *)
Fixpoint erase_if {A} (cond : A -> res bool) (l : list A) : res (list A) :=
  match l with
  | [] => Ok []
  | x :: l => b ← cond x; l ← erase_if cond l; Ok (if (b : bool) then l else x :: l)
  end.

Section clock.
Context {V : Type} `{VectorClock V} (preds : V).

Definition outside (g : t) (i : lid) : res bool :=
  l ← label g i; b ← vc_contains preds (position l); Ok (negb b).

(** [for (auto j = 0U; j <= preds.getMax(i); j++)], over the labels of thread [i];
    the comparison is unsigned. *)
Definition for_prefix {S} (body : S -> Event.t -> res S) (s : S) (i : Z) : res S :=
  m ← vc_getMax preds i;
  foldM (fun s j => body s (Event.Event i j)) s (seqZ 0 (wrap 32 m + 1)).

(** *** removeAfter *)
Definition keep_loc (g : t) (keep : list Z) (e : Event.t) : res (list Z) :=
  i ← getEventLabel g e; l ← label g i;
  Ok (if Class.isMemAccess (kind l) then (VSet.insert keep (getAddr l : Z)).1 else keep).
Definition keep_locs (g : t) : res (list Z) :=
  n ← vc_size preds; foldM (for_prefix (keep_loc g)) [] (seqZ 0 n).

(** The body of the loop over [coherence], at one entry. *)
Definition cut_loc (keep : list Z) (g : t) (entry : Z * list lid) : res t :=
  let '(a, ws) := entry in
  i ← getInitLabel g;
  if (VSet.count keep a =? 0)%nat then
    Ok (set_coherence (delete a (coherence g)) (set_accessMap (delete a (accessMap_ g))
      (upd i (fun l => with_initRfs (delete a (initRfs l)) l) g)))
  else
    ws ← erase_if (outside g) ws;
    let g := set_coherence (<[a := ws]> (coherence g)) g in
    li ← label g i;
    rs ← erase_if (outside g) (list_at (initRfs li) a);
    let g := upd i (fun l => with_initRfs (<[a := rs]> (initRfs l)) l) g in
    acc ← erase_if (outside g) (list_at (accessMap_ g) a);
    Ok (set_accessMap (<[a := acc]> (accessMap_ g)) g).

Definition removeAfter (g : t) : res t :=
  keep ← keep_locs g; foldM (cut_loc keep) g (map_to_list (coherence g)).

(** *** cutToStamp *)

(** A label outside the view leaves the insertion order and program order. *)
Definition unlink_outside (g : t) (i : lid) : res t :=
  l ← label g i; b ← vc_contains preds (position l);
  if (b : bool) then Ok g else
  po ← vec_at (poLists g) (getThread l);
  pos' ← vec_set (poLists g) (getThread l) (unlink i po);
  Ok (set_insertionOrder (unlink i (insertionOrder g)) (set_poLists pos' g)).

(** A pointer is reset when it leads outside the view. *)
Definition forget_pointer (o : option lid) (reset : EventLabel.t -> EventLabel.t) (i : lid) (g : t) : res t :=
  match o with
  | None => Ok g
  | Some j => b ← outside g j; Ok (if (b : bool) then upd i reset g else g)
  end.
(** The pointers of one label that is kept. *)
Definition forget_outside (g : t) (e : Event.t) : res t :=
  i ← getEventLabel g e; l ← label g i;
  g ← (if Class.isWrite (kind l) then
         rs ← erase_if (outside g) (readerList l); Ok (upd i (with_readerList rs) g)
       else Ok g);
  g ← (if Class.isRead (kind l) then forget_pointer (readsFrom l) (setRfNoCascade None) i g else Ok g);
  g ← (if Class.isThreadStart (kind l) then forget_pointer (createLab l) (setCreate None) i g else Ok g);
  g ← (if Class.isKind Kind.ThreadFinish (kind l) then forget_pointer (parentJoin l) (setParentJoin None) i g
       else Ok g);
  g ← (if Class.isKind Kind.MethodBegin (kind l) then
         ps ← erase_if (outside g) (linPreds l); Ok (upd i (with_linPreds ps) g)
       else Ok g);
  if Class.isKind Kind.MethodEnd (kind l) then
    ss ← erase_if (outside g) (linSuccs l); Ok (upd i (with_linSuccs ss) g)
  else Ok g.

(** Destroying the owner destroys the label. *)
Definition destroy (xs : list lid) (g : t) : t := set_store (fun s => foldr delete s xs) g.

(** [thr.erase(thr.begin() + preds->getMax(i) + 1, thr.end())]. *)
Definition truncate (g : t) (i : Z) : res t :=
  th ← vec_at (events g) i;
  m ← vc_getMax preds i;
  defined ((0 <=? m) && (m + 1 <=? Z.of_nat (length th)));;
  evs ← vec_set (events g) i (take (Z.to_nat (m + 1)) th);
  Ok (destroy (drop (Z.to_nat (m + 1)) th) (set_events evs g)).

End clock.

(** The begin of a thread with no creator, and with it the thread. *)
Definition remove_begin (i : Z) (b : lid) (l : EventLabel.t) (g : t) : res t :=
  g ← (if symmPredTid l =? -1 then Ok g else
         o ← getFirstThreadLabel g (symmPredTid l); s ← deref o;
         Ok (upd s (setSymmSuccTid (-1)) g));
  let g := set_insertionOrder (unlink b (insertionOrder g)) g in
  po ← vec_at (poLists g) i;
  th ← vec_at (events g) i;
  Ok (destroy th (set_poLists (delete (Z.to_nat i) (poLists g)) (set_events (delete (Z.to_nat i) (events g)) g))).

(** The loop over the threads from the last one, while they hold only a begin. *)
Fixpoint remove_begins (ids : list Z) (g : t) : res t :=
  match ids with
  | [] => Ok g
  | i :: ids =>
      n ← getThreadSize g i;
      if negb (n =? 1) then Ok g else
      o ← getFirstThreadLabel g i; b ← deref o; l ← label g b;
      if Class.isKind Kind.Init (kind l) then Ok g else
      g ← match createLab l with None => remove_begin i b l g | Some _ => Ok g end;
      remove_begins ids g
  end.

(** [nextStamp] for every label in insertion order. *)
Definition restamp (g : t) (i : lid) : t :=
  set_timestamp (Stamp.incr (timestamp g)) (upd i (with_stamp (Some (timestamp g))) g).
Definition fix_stamps (g : t) : t := foldl restamp (set_timestamp 0 g) (insertionOrder g).

(** [cutToStamp] after the view is known: the labels outside the view, then the
    threads that have become empty but for their begins, then the stamps. *)
Definition cut_labels {V} `{VectorClock V} (preds : V) (g : t) : res t :=
  g ← removeAfter preds g;
  g ← foldM (unlink_outside preds) g (insertionOrder g);
  g ← foldM (for_prefix preds (forget_outside preds)) g (seqZ 0 (getNumThreads g));
  foldM (truncate preds) g (seqZ 0 (getNumThreads g)).
Definition cut {V} `{VectorClock V} (preds : V) (g : t) : res t :=
  g ← cut_labels preds g;
  g ← remove_begins (reverse (seqZ 0 (getNumThreads g))) g;
  Ok (fix_stamps g).

(** [getViewFromStamp]; [v] is the new view. *)
Definition last_stamped (st : Stamp.t) (g : t) (i : Z) : list Z -> res (option Z) :=
  fix go js := match js with
  | [] => Ok None
  | j :: js =>
      x ← getEventLabel g (Event.Event i j); l ← label g x; s ← getStamp l;
      if s <=? st then Ok (Some j) else go js
  end.
Definition getViewFromStamp (dbg : bool) (st : Stamp.t) (g : t) (vs : View.store) (v : View.vid) : res View.store :=
  foldM (fun vs i =>
    n ← getThreadSize g i;
    o ← last_stamped st g i (reverse (seqZ 0 n));
    match o with Some j => View.setMax dbg vs v (Event.Event i j) | None => Ok vs end)
    (View.create vs v) (seqZ 0 (getNumThreads g)).
(** [getPredsView]. *)
Definition getPredsView (dbg : bool) (e : Event.t) (g : t) (vs : View.store) (v : View.vid) : res View.store :=
  x ← getEventLabel g e; l ← label g x; st ← getStamp l; getViewFromStamp dbg st g vs v.

Definition cutToStamp (dbg : bool) (st : Stamp.t) (g : t) (vs : View.store) (v : View.vid) : res t :=
  vs ← getViewFromStamp dbg st g vs v; cut (vs, v) g.

(** ** Specification: the restriction of a graph to some of its labels *)
Definition only (K : lid -> bool) (l : list lid) : list lid := filter (fun x => K x = true) l.
Definition only_source (K : lid -> bool) (o : option lid) : option lid :=
  r ← o; if K r then Some r else None.

(** The contents of a label besides its links, its stamp and its symmetric successor. *)
Definition payload (l : EventLabel.t) :=
  (ordering l, deps l, revisitable l, (createId l, threadInfo l, symmPredTid l), (retVal l, childId l), maximal l,
   (binOp l, opValue l, expected l, swapValue l), (value l, wattr l),
   (hpAddr l, protAddr l), (alignment l, sdur l, stype l, spc l), (annot l, expandable l, expanded l, text l, methodVal l)).

(** [l'] is [l] with the links to other labels restricted to [K]. *)
Record restricted (K : lid -> bool) (l l' : EventLabel.t) : Prop := {
  rs_static : same_static l l';
  rs_payload : payload l' = payload l;
  rs_rf : Class.isRead (kind l) = true -> readsFrom l' = only_source K (readsFrom l);
  rs_readers a : readers_at l' a = only K (readers_at l a);
  rs_create : Class.isThreadStart (kind l) = true -> createLab l' = only_source K (createLab l);
  rs_join : kind l = Kind.ThreadFinish -> parentJoin l' = only_source K (parentJoin l);
  rs_preds : kind l = Kind.MethodBegin -> linPreds l' = only K (linPreds l);
  rs_succs : kind l = Kind.MethodEnd -> linSuccs l' = only K (linSuccs l)
}.

(** [g'] consists of prefixes of the first threads of [g], those of the labels in
    [K], and keeps all that is known of them. *)
Record restricts (K : lid -> bool) (g g' : t) : Prop := {
  r_events t th' : events g' !! t = Some th' -> exists th m, events g !! t = Some th /\ th' = take m th;
  r_in x : in_graph g' x <-> in_graph g x /\ K x = true;
  r_po : poLists g' = events g';
  r_io : insertionOrder g' = only K (insertionOrder g);
  r_init : getInitLabel g' = getInitLabel g;
  r_store x l : in_graph g x -> K x = true -> store g !! x = Some l ->
    exists l', store g' !! x = Some l' /\ restricted K l l';
  r_co a : list_at (coherence g') a = only K (list_at (coherence g) a);
  r_acc a : list_at (accessMap_ g') a = only K (list_at (accessMap_ g) a);
  r_loc x l : in_graph g x -> K x = true -> store g !! x = Some l -> tracked l = true ->
    is_Some (coherence g' !! getAddr l);
  r_gone x : in_graph g x -> K x = false -> store g' !! x = None
}.

Lemma elem_only K l x : x ∈ only K l <-> x ∈ l /\ K x = true.
Proof. unfold only. rewrite list_elem_of_filter. tauto. Qed.
Lemma only_nodup K l : NoDup l -> NoDup (only K l).
Proof. apply NoDup_filter. Qed.
Lemma only_perm K l l' : l ≡ₚ l' -> only K l ≡ₚ only K l'.
Proof. intros E. unfold only. by rewrite E. Qed.
Lemma only_source_some K o w : only_source K o = Some w <-> o = Some w /\ K w = true.
Proof. destruct o as [r|]; cbn; [|naive_solver]. destruct (K r) eqn:E; naive_solver congruence. Qed.

(** A label of the restriction comes from one of the graph. *)
Lemma r_store_inv K g g' x l' : wf g -> restricts K g g' -> in_graph g' x -> store g' !! x = Some l' ->
  exists l, in_graph g x /\ K x = true /\ store g !! x = Some l /\ restricted K l l'.
Proof.
  intros Hg Hr [Hx HK]%(r_in K g g' Hr) Hl'. destruct (in_graph_store g Hg x Hx) as [l Hl].
  destruct (r_store K g g' Hr x l Hx HK Hl) as (l2 & E & ?). exists l. by simplify_eq.
Qed.

Section restrict.
Context (K : lid -> bool) (g g' : t) (Hg : wf g) (Hr : restricts K g g').

Lemma restricts_pos t th k i : events g' !! t = Some th -> th !! k = Some i ->
  exists l, store g' !! i = Some l /\ position l = Event.Event (Z.of_nat t) (Z.of_nat k).
Proof.
  intros Ht Hk. assert (Hi : in_graph g' i) by (apply elem_concat; eauto).
  destruct (in_graph_pos g Hg i) as (t0 & th0 & k0 & l & Ht0 & Hk0 & Hl & Hp); [by apply (r_in _ _ _ Hr)|].
  destruct (r_events _ _ _ Hr t th Ht) as (th1 & m & Ht1 & ->). apply lookup_take_Some in Hk as [Hk _].
  destruct (wf_pos g Hg t th1 k i Ht1 Hk) as (l1 & Hl1 & Hp1). simplify_eq.
  apply (r_in _ _ _ Hr) in Hi as [Hi HK].
  destruct (r_store _ _ _ Hr i l Hi HK Hl) as (l' & Hl' & [(_ & E & _) _ _ _ _ _ _ _]). exists l'. by rewrite E.
Qed.

Lemma restricts_io : insertionOrder g' ≡ₚ concat (events g').
Proof.
  rewrite (r_io _ _ _ Hr). apply NoDup_Permutation.
  - apply only_nodup. rewrite (wf_io g Hg). by apply concat_nodup.
  - apply (placed_nodup g' 0%nat), restricts_pos.
  - intros x. rewrite elem_only, (wf_io g Hg). symmetry. apply (r_in _ _ _ Hr).
Qed.

Lemma restricts_rf : rf_wf g'.
Proof.
  split.
  - intros r lr' w Hin Hlr Hk Hrf. destruct (r_store_inv K g g' r lr' Hg Hr Hin Hlr) as (lr & Hx & HK & Hl & [Hs _ Hsrc _ _ _ _ _]).
    rewrite (proj1 Hs) in Hk. rewrite Hsrc in Hrf by done. apply only_source_some in Hrf as [Hrf HKw].
    destruct (wf_rf g Hg r lr w Hx Hl Hk Hrf) as (Hw & lw & Hlw & Hin').
    split; [by apply (r_in _ _ _ Hr)|]. destruct (r_store _ _ _ Hr w lw Hw HKw Hlw) as (lw' & Hlw' & [_ _ _ Hrd _ _ _ _]).
    exists lw'. split; [done|]. rewrite Hrd, elem_only. by rewrite (addr_static _ _ Hs).
  - intros w lw' a r Hw Hlw Hin. destruct (r_store_inv K g g' w lw' Hg Hr Hw Hlw) as (lw & Hx & HK & Hl & [Hs _ _ Hrd _ _ _ _]).
    rewrite Hrd in Hin. apply elem_only in Hin as [Hin HKr].
    destruct (wf_readers g Hg w lw a r Hx Hl Hin) as (Hrg & lr & Hlr & Hk & Hrf & Ha).
    split; [by apply (r_in _ _ _ Hr)|]. destruct (r_store _ _ _ Hr r lr Hrg HKr Hlr) as (lr' & Hlr' & [Hs' _ Hsrc _ _ _ _ _]).
    exists lr'. rewrite Hsrc, (addr_static _ _ Hs'), (proj1 Hs'), (proj1 Hs) by done. split_and!; try done.
    by apply only_source_some.
  - intros w lw' a Hw Hlw. destruct (r_store_inv K g g' w lw' Hg Hr Hw Hlw) as (lw & Hx & _ & Hl & Hres). rewrite (rs_readers _ _ _ Hres).
    apply only_nodup. by apply (wf_readers_nodup g Hg w).
Qed.

(** A restriction of a well-formed graph is well-formed. *)
Lemma restricts_wf : wf g'.
Proof.
  destruct restricts_rf. split; try done.
  - apply (r_po _ _ _ Hr).
  - apply restricts_pos.
  - apply restricts_io.
  - destruct (wf_init g Hg) as (i & l & Hi & Hl & Hk). pose proof Hi as Hi'. rewrite <- (r_init _ _ _ Hr) in Hi'.
    destruct (proj1 (r_in _ _ _ Hr i) (init_in g' i Hi')) as [Hin HK].
    destruct (r_store _ _ _ Hr i l Hin HK Hl) as (l' & Hl' & [(E & _) _ _ _ _ _ _ _]). exists i, l'. by rewrite E.
  - intros a w. rewrite (r_co _ _ _ Hr), elem_only. intros [Hw HK].
    destruct (wf_co g Hg a w Hw) as (Hin & lw & Hl & Hk & Ha). split; [by apply (r_in _ _ _ Hr)|].
    destruct (r_store _ _ _ Hr w lw Hin HK Hl) as (l' & Hl' & [Hs _ _ _ _ _ _ _]). exists l'.
    rewrite (addr_static _ _ Hs). split_and!; [done|by rewrite (proj1 Hs)|done].
  - intros a. rewrite (r_co _ _ _ Hr). apply only_nodup, (wf_co_nodup g Hg).
  - intros a x. rewrite (r_acc _ _ _ Hr), elem_only, (wf_acc g Hg). split.
    + intros [(Hin & l & Hl & Ht & Ha) HK]. split; [by apply (r_in _ _ _ Hr)|].
      destruct (r_store _ _ _ Hr x l Hin HK Hl) as (l' & Hl' & [Hs _ _ _ _ _ _ _]). exists l'.
      by rewrite (tracked_static _ _ Hs), (addr_static _ _ Hs).
    + intros (Hin & l' & Hl' & Ht & Ha). destruct (r_store_inv K g g' x l' Hg Hr Hin Hl') as (l & Hx & HK & Hl & [Hs _ _ _ _ _ _ _]).
      split; [|done]. split; [done|]. exists l. by rewrite <- (tracked_static _ _ Hs), <- (addr_static _ _ Hs).
  - intros x l' Hin Hl' Ht. destruct (r_store_inv K g g' x l' Hg Hr Hin Hl') as (l & Hx & HK & Hl & [Hs _ _ _ _ _ _ _]).
    rewrite (addr_static _ _ Hs). apply (r_loc _ _ _ Hr x l); try done. by rewrite <- (tracked_static _ _ Hs).
Qed.
End restrict.

(** Restricting twice. *)
Lemma only_only K1 K2 l : only K2 (only K1 l) = only (fun x => K1 x && K2 x) l.
Proof.
  unfold only. rewrite list_filter_filter. apply list_filter_iff'. intros x _. cbn. rewrite andb_true_iff. tauto.
Qed.
Lemma only_source_twice K1 K2 o : only_source K2 (only_source K1 o) = only_source (fun x => K1 x && K2 x) o.
Proof. destruct o as [x|]; cbn; [|done]. destruct (K1 x) eqn:E1; cbn; [|done]. by rewrite ?E1. Qed.

Lemma restricted_trans K1 K2 l1 l2 l3 : restricted K1 l1 l2 -> restricted K2 l2 l3 ->
  restricted (fun x => K1 x && K2 x) l1 l3.
Proof.
  intros [S1 P1 F1 D1 C1 J1 B1 E1] [S2 P2 F2 D2 C2 J2 B2 E2]. pose proof (proj1 S1) as Hk. split.
  - destruct S1 as (?&?&?), S2 as (?&?&?). split_and!; congruence.
  - congruence.
  - intros E. by rewrite F2, F1, only_source_twice by congruence.
  - intros a. by rewrite D2, D1, only_only.
  - intros E. by rewrite C2, C1, only_source_twice by congruence.
  - intros E. by rewrite J2, J1, only_source_twice by congruence.
  - intros E. by rewrite B2, B1, only_only by congruence.
  - intros E. by rewrite E2, E1, only_only by congruence.
Qed.

Lemma restricts_trans K1 K2 g1 g2 g3 : wf g1 -> restricts K1 g1 g2 -> restricts K2 g2 g3 ->
  (forall x, store g2 !! x = None -> ~ in_graph g2 x -> store g3 !! x = None) ->
  restricts (fun x => K1 x && K2 x) g1 g3.
Proof.
  intros Hg H1 H2 H3.
  assert (Hin : forall x, in_graph g3 x <-> in_graph g1 x /\ (K1 x && K2 x) = true)
    by (intros x; rewrite (r_in _ _ _ H2), (r_in _ _ _ H1), andb_true_iff; tauto).
  assert (Hst : forall x l, in_graph g1 x -> (K1 x && K2 x) = true -> store g1 !! x = Some l ->
    exists l2 l3, in_graph g2 x /\ K2 x = true /\ store g2 !! x = Some l2 /\ restricted K1 l l2 /\
      store g3 !! x = Some l3 /\ restricted K2 l2 l3).
  { intros x l Hx [HK1 HK2]%andb_true_iff Hl. destruct (r_store _ _ _ H1 x l Hx HK1 Hl) as (l2 & Hl2 & R1).
    assert (in_graph g2 x) by (by apply (r_in _ _ _ H1)).
    destruct (r_store _ _ _ H2 x l2) as (l3 & ? & ?); [done..|]. by exists l2, l3. }
  split; try done.
  - intros t th (th2 & m & Ht2 & ->)%(r_events _ _ _ H2). apply (r_events _ _ _ H1) in Ht2 as (th1 & m1 & Ht1 & ->).
    exists th1, (m `min` m1)%nat. by rewrite take_take.
  - apply (r_po _ _ _ H2).
  - by rewrite (r_io _ _ _ H2), (r_io _ _ _ H1), only_only.
  - by rewrite (r_init _ _ _ H2), (r_init _ _ _ H1).
  - intros x l Hx HK Hl. destruct (Hst x l Hx HK Hl) as (l2 & l3 & _ & _ & _ & R1 & Hl3 & R2).
    exists l3. split; [done|]. by eapply restricted_trans.
  - intros a. by rewrite (r_co _ _ _ H2), (r_co _ _ _ H1), only_only.
  - intros a. by rewrite (r_acc _ _ _ H2), (r_acc _ _ _ H1), only_only.
  - intros x l Hx HK Hl Ht. destruct (Hst x l Hx HK Hl) as (l2 & l3 & Hx2 & HK2 & Hl2 & [S1 _ _ _ _ _ _ _] & _).
    rewrite <- (addr_static _ _ S1). apply (r_loc _ _ _ H2 x l2); try done. by rewrite (tracked_static _ _ S1).
  - intros x Hx HK. destruct (K1 x) eqn:E1; [apply (r_gone _ _ _ H2); [by apply (r_in _ _ _ H1)|done]|].
    apply H3; [by apply (r_gone _ _ _ H1)|]. intros [_ Hn]%(r_in _ _ _ H1). congruence.
Qed.

(** The links of a label to other labels. *)
Definition links (l : EventLabel.t) : list lid :=
  (if Class.isWrite (kind l) then readerList l else []) ++
  (if Class.isRead (kind l) then option_list (readsFrom l) else []) ++
  (if Class.isThreadStart (kind l) then option_list (createLab l) else []) ++
  (if Class.isKind Kind.ThreadFinish (kind l) then option_list (parentJoin l) else []) ++
  (if Class.isKind Kind.MethodBegin (kind l) then linPreds l else []) ++
  (if Class.isKind Kind.MethodEnd (kind l) then linSuccs l else []).

(** What is written to a label [l] to restrict its links to [K]. *)
Definition prune_pointer (K : lid -> bool) (o : option lid) (reset : EventLabel.t -> EventLabel.t) :
    EventLabel.t -> EventLabel.t :=
  match o with Some j => if K j then id else reset | None => id end.
Definition prune (K : lid -> bool) (l : EventLabel.t) : EventLabel.t -> EventLabel.t :=
  (if Class.isKind Kind.MethodEnd (kind l) then with_linSuccs (only K (linSuccs l)) else id) ∘
  (if Class.isKind Kind.MethodBegin (kind l) then with_linPreds (only K (linPreds l)) else id) ∘
  (if Class.isKind Kind.ThreadFinish (kind l) then prune_pointer K (parentJoin l) (setParentJoin None) else id) ∘
  (if Class.isThreadStart (kind l) then prune_pointer K (createLab l) (setCreate None) else id) ∘
  (if Class.isRead (kind l) then prune_pointer K (readsFrom l) (setRfNoCascade None) else id) ∘
  (if Class.isWrite (kind l) then with_readerList (only K (readerList l)) else id).

Lemma prune_static K l l' : same_static l' (prune K l l').
Proof. unfold prune, prune_pointer. repeat case_match; by repeat split. Qed.
Lemma prune_payload K l l' : payload (prune K l l') = payload l'.
Proof. unfold prune, prune_pointer. repeat case_match; reflexivity. Qed.
Lemma prune_initRfs K l l' : initRfs (prune K l l') = initRfs l'.
Proof. unfold prune, prune_pointer. repeat case_match; reflexivity. Qed.
Lemma prune_readerList K l : readerList (prune K l l) = if Class.isWrite (kind l) then only K (readerList l) else readerList l.
Proof. unfold prune, prune_pointer. repeat case_match; reflexivity. Qed.

(** Evaluate [prune] at the field [o], the class of the label being known by [E]. *)
Ltac prune_field E o :=
  unfold prune, prune_pointer; rewrite E; destruct o as [j|] eqn:Ej;
  cbn [only_source mbind option_bind]; [destruct (_ j)|]; repeat case_match; first [reflexivity|exact Ej].
Lemma prune_readsFrom K l : Class.isRead (kind l) = true -> readsFrom (prune K l l) = only_source K (readsFrom l).
Proof. intros E. prune_field E (readsFrom l). Qed.
Lemma prune_createLab K l : Class.isThreadStart (kind l) = true -> createLab (prune K l l) = only_source K (createLab l).
Proof. intros E. prune_field E (createLab l). Qed.
Lemma prune_parentJoin K l : kind l = Kind.ThreadFinish -> parentJoin (prune K l l) = only_source K (parentJoin l).
Proof. intros E%isKind_spec. prune_field E (parentJoin l). Qed.
Lemma prune_linPreds K l : kind l = Kind.MethodBegin -> linPreds (prune K l l) = only K (linPreds l).
Proof. intros E%isKind_spec. unfold prune, prune_pointer. rewrite E. repeat case_match; reflexivity. Qed.
Lemma prune_linSuccs K l : kind l = Kind.MethodEnd -> linSuccs (prune K l l) = only K (linSuccs l).
Proof. intros E%isKind_spec. unfold prune, prune_pointer. rewrite E. repeat case_match; reflexivity. Qed.

Lemma prune_restricted K l m : (kind l = Kind.Init -> forall a, list_at m a = only K (list_at (initRfs l) a)) ->
  restricted K l (prune K (with_initRfs m l) (with_initRfs m l)).
Proof.
  intros Hm. set (l1 := with_initRfs m l). split.
  - apply (prune_static K l1 l1).
  - apply (prune_payload K l1 l1).
  - apply (prune_readsFrom K l1).
  - intros a. pose proof (proj1 (prune_static K l1 l1)) as Hk. change (kind l1) with (kind l) in Hk.
    unfold readers_at. rewrite Hk, prune_initRfs, prune_readerList. cbn.
    destruct (Class.isWrite (kind l)); [done|]. destruct (Class.isKind _ _) eqn:E; [|done].
    apply Hm. by apply isKind_spec.
  - apply (prune_createLab K l1).
  - apply (prune_parentJoin K l1).
  - apply (prune_linPreds K l1).
  - apply (prune_linSuccs K l1).
Qed.

(** ** The loops *)

(** The labels of a graph in the prefixes [f]. *)
Definition inside (f : Z -> Z) (g : t) (x : lid) : bool :=
  match store g !! x with
  | Some l => Event.index (position l) <=? f (Event.thread (position l))
  | None => false
  end.
(** The prefixes end in their threads. *)
Definition fits (f : Z -> Z) (g : t) : Prop :=
  (forall t th, events g !! t = Some th -> f (Z.of_nat t) < Z.of_nat (length th) < 2 ^ 32) /\
  forall t, Z.of_nat (length (events g)) <= t -> f t = 0.
(** The events in the prefixes of the first [n] threads, in the order of the loops. *)
Definition prefix_events (f : Z -> Z) (n : Z) : list Event.t :=
  flat_map (fun i => map (Event.Event i) (seqZ 0 (f i + 1))) (seqZ 0 n).

Lemma elem_prefix_events f n e :
  e ∈ prefix_events f n <-> 0 <= Event.thread e < n /\ 0 <= Event.index e <= f (Event.thread e).
Proof.
  unfold prefix_events. rewrite list_elem_of_In, in_flat_map. split.
  - intros (i & Hi & Hj). apply list_elem_of_In, elem_of_seqZ in Hi. apply in_map_iff in Hj as (j & <- & Hj).
    apply list_elem_of_In, elem_of_seqZ in Hj. cbn. lia.
  - intros [Ht Hi]. exists (Event.thread e). split; [apply list_elem_of_In, elem_of_seqZ; lia|].
    apply in_map_iff. exists (Event.index e). split; [by destruct e|]. apply list_elem_of_In, elem_of_seqZ. lia.
Qed.

Lemma prefix_events_nodup f n : NoDup (prefix_events f n).
Proof.
  unfold prefix_events. generalize (NoDup_seqZ 0 n). generalize (seqZ 0 n). intros l. induction l as [|i l IH]; cbn.
  { constructor. }
  intros [Hi Hl]%NoDup_cons. apply NoDup_app. split_and!.
  - apply (NoDup_fmap_2_strong (Event.Event i)); [congruence|apply NoDup_seqZ].
  - intros e He (i' & Hi' & He')%list_elem_of_In%in_flat_map.
    apply list_elem_of_In, in_map_iff in He as (j & <- & _). apply in_map_iff in He' as (j' & [= -> _] & _).
    by apply Hi, list_elem_of_In.
  - by apply IH.
Qed.

Lemma erase_if_ok (cond : lid -> res bool) K l : (forall x, x ∈ l -> cond x = Ok (negb (K x))) ->
  erase_if cond l = Ok (only K l).
Proof.
  unfold only. induction l as [|x l IH]; intros Hc; [done|].
  cbn [erase_if]. rewrite Hc, IH by set_solver. cbn [mbind res_bind]. rewrite filter_cons. by destruct (K x).
Qed.

Section loops.
Context {V : Type} `{VectorClock V} (v : V) (f : Z -> Z) (Hv : prefix_clock v f).
Context (g : t) (Hg : wf g) (Hf : fits f g).
#[local] Abbreviation K := (inside f g).

Lemma for_prefix_ok {S} (body : S -> Event.t -> res S) (s : S) i : 0 <= i < Z.of_nat (length (events g)) ->
  for_prefix v body s i = foldM body s (map (Event.Event i) (seqZ 0 (f i + 1))).
Proof.
  intros Hi. unfold for_prefix. rewrite (pc_getMax v f Hv) by lia. cbn [mbind res_bind].
  destruct (lookup_lt_is_Some_2 (events g) (Z.to_nat i)) as [th Hth]; [lia|].
  pose proof (proj1 Hf _ _ Hth) as Hlen. rewrite Z2Nat.id in Hlen by lia. pose proof (pc_nonneg v f Hv i ltac:(lia)).
  rewrite wrap_small by (unfold in_word; lia). generalize (seqZ 0 (f i + 1)). intros js. revert s.
  induction js as [|j js IH]; intros s; [done|]. cbn. destruct (body s _); cbn; auto.
Qed.

Lemma for_prefixes {S} (body : S -> Event.t -> res S) (s : S) n : n <= Z.of_nat (length (events g)) ->
  foldM (for_prefix v body) s (seqZ 0 n) = foldM body s (prefix_events f n).
Proof.
  intros Hn. unfold prefix_events. assert (forall i, i ∈ seqZ 0 n -> 0 <= i < Z.of_nat (length (events g))) as Hi
    by (intros i ?%elem_of_seqZ; lia).
  revert s Hi. generalize (seqZ 0 n). intros l. induction l as [|i l IH]; intros s Hi; [done|].
  cbn [flat_map foldM]. rewrite foldM_app, for_prefix_ok by (apply Hi; by left).
  destruct (foldM body s _) as [s'|]; [|done]. cbn [mbind res_bind]. apply IH. intros j Hj. apply Hi. by right.
Qed.

(** The labels the loops visit. *)
Lemma prefix_label e : e ∈ prefix_events f (getNumThreads g) ->
  exists x l, getEventLabel g e = Ok x /\ in_graph g x /\ store g !! x = Some l /\ position l = e /\ K x = true.
Proof.
  intros [Ht Hi]%elem_prefix_events. unfold getNumThreads in Ht.
  destruct (lookup_lt_is_Some_2 (events g) (Z.to_nat (Event.thread e))) as [th Hth]; [lia|].
  pose proof (proj1 Hf _ _ Hth) as Hlen. rewrite Z2Nat.id in Hlen by lia.
  destruct (lookup_lt_is_Some_2 th (Z.to_nat (Event.index e))) as [x Hx]; [lia|].
  destruct (wf_pos g Hg _ _ _ _ Hth Hx) as (l & Hl & Hp). rewrite !Z2Nat.id in Hp by lia.
  exists x, l. split_and!; [|by apply elem_concat; eauto|done|by destruct e|].
  - pose proof (getEventLabel_pos g _ _ _ _ Hth Hx) as E. rewrite !Z2Nat.id in E by lia. by destruct e.
  - unfold inside. rewrite Hl, Hp. cbn. lia.
Qed.

Lemma inside_prefix x l : in_graph g x -> store g !! x = Some l ->
  K x = true <-> position l ∈ prefix_events f (getNumThreads g).
Proof.
  intros Hx Hl. unfold inside. rewrite Hl, elem_prefix_events.
  destruct (in_graph_pos g Hg x Hx) as (t & th & k & l' & Ht & _ & Hl' & Hp). simplify_eq. rewrite Hp. cbn.
  apply lookup_lt_Some in Ht. unfold getNumThreads. lia.
Qed.

Lemma outside_ok g1 x : store_sim g g1 -> in_graph g x -> outside v g1 x = Ok (negb (K x)).
Proof.
  intros Hs Hx. destruct (in_graph_pos g Hg x Hx) as (t & th & k & l & Ht & _ & Hl & Hp).
  destruct (store_sim_lookup g g1 x l Hs Hl) as (l1 & Hl1 & _ & E & _). unfold outside, inside.
  rewrite (label_ok _ _ _ Hl1), Hl. cbn [mbind res_bind]. rewrite E, Hp, (pc_contains v f Hv) by (cbn; lia). done.
Qed.
Lemma erase_outside g1 l : store_sim g g1 -> (forall x, x ∈ l -> in_graph g x) ->
  erase_if (outside v g1) l = Ok (only K l).
Proof. intros Hs Hl. apply erase_if_ok. intros x Hx. apply outside_ok; auto. Qed.

(** *** removeAfter *)

(** A label of [K] accesses location [a]. *)
Definition accessed (a : Z) : Prop :=
  exists x l, in_graph g x /\ K x = true /\ store g !! x = Some l /\ Class.isMemAccess (kind l) = true /\ getAddr l = a.
(** Threads start with a begin. *)
Definition begins : Prop :=
  forall t th, events g !! t = Some th ->
    exists x l, th !! 0%nat = Some x /\ store g !! x = Some l /\ Class.isThreadStart (kind l) = true.

Lemma keep_fold es : (forall e, e ∈ es -> e ∈ prefix_events f (getNumThreads g)) -> forall keep0, increasing keep0 ->
  exists keep, foldM (keep_loc g) keep0 es = Ok keep /\ increasing keep /\
    forall a, a ∈ keep <-> a ∈ keep0 \/ exists x l, position l ∈ es /\ in_graph g x /\ store g !! x = Some l /\
      Class.isMemAccess (kind l) = true /\ getAddr l = a.
Proof.
  induction es as [|e es IH]; intros He keep0 Hk0.
  { exists keep0. split_and!; [done..|]. intros a. split; [by left|]. intros [?|(x & l & Hin & _)]; [done|]. by apply not_elem_of_nil in Hin. }
  destruct (prefix_label e) as (x & l & Hx & Hin & Hl & <- & _); [apply He; by left|].
  set (keep1 := if Class.isMemAccess (kind l) then (VSet.insert keep0 (getAddr l : Z)).1 else keep0).
  assert (keep_loc g keep0 (position l) = Ok keep1) as E
    by (unfold keep_loc; rewrite Hx; cbn [mbind res_bind]; by rewrite (label_ok _ _ _ Hl)).
  cbn [foldM]. rewrite E. cbn [mbind res_bind].
  destruct (IH (fun e' H' => He e' (list_elem_of_further _ _ _ H')) keep1) as (keep & -> & Hk & Ha).
  { unfold keep1. destruct (Class.isMemAccess _); [by apply VSet.insert_increasing|done]. }
  exists keep. split_and!; [done..|]. intros a. rewrite Ha. clear Ha IH.
  assert (a ∈ keep1 <-> a ∈ keep0 \/ (Class.isMemAccess (kind l) = true /\ getAddr l = a)) as ->.
  { unfold keep1. destruct (Class.isMemAccess _); [rewrite VSet.elem_insert|]; naive_solver. }
  split.
  - intros [[?|[??]]|(y & ly & Hp & ?)]; [by left|right; exists x, l|right; exists y, ly]; (split; [|done]); [by left|by right].
  - intros [?|(y & ly & [Hp|Hp]%elem_of_cons & Hy & Hly & Hm & Hay)]; [by left; left| |right; by exists y, ly].
    assert (y = x) as -> by (by eapply pos_inj). simplify_eq. left. by right.
Qed.

Lemma keep_locs_ok : begins -> exists keep, keep_locs v g = Ok keep /\ increasing keep /\ forall a, a ∈ keep <-> accessed a.
Proof.
  intros Hb. unfold keep_locs. destruct (pc_size v f Hv) as (n & -> & Hn & Hout & Hlast). cbn [mbind res_bind].
  assert (n <= getNumThreads g) as Hle.
  { destruct Hlast as [->|Hlast]; [unfold getNumThreads; lia|]. destruct (decide (n <= getNumThreads g)); [done|].
    rewrite (proj2 Hf) in Hlast by (unfold getNumThreads in *; lia). lia. }
  rewrite for_prefixes by done. destruct (keep_fold (prefix_events f n)) with (keep0 := @nil Z) as (keep & -> & Hk & Ha).
  { intros e. rewrite !elem_prefix_events. lia. }
  { constructor. }
  exists keep. split_and!; [done..|]. intros a. rewrite Ha. unfold accessed. split.
  - intros [Hin|(x & l & Hp & Hx & Hl & ?)]; [by apply not_elem_of_nil in Hin|]. exists x, l. split_and!; try tauto.
    apply (inside_prefix x l Hx Hl). rewrite elem_prefix_events in *. lia.
  - intros (x & l & Hx & HK & Hl & Hm & Hal). right. exists x, l. split_and!; try done.
    rewrite (inside_prefix x l Hx Hl) in HK. rewrite elem_prefix_events in *.
    split; [|lia]. destruct (decide (Event.thread (position l) < n)); [lia|]. exfalso.
    destruct (in_graph_pos g Hg x Hx) as (t & th & k & l' & Ht & Hxk & Hl' & Hp). simplify_eq.
    rewrite Hp in *. cbn in *. rewrite Hout in HK by lia. assert (k = 0%nat) as -> by lia.
    destruct (Hb t th Ht) as (y & ly & Hy & Hly & Hs). simplify_eq. by destruct (kind l).
Qed.

(** A list at location [a] after the entries [done] have been processed. *)
Definition cut_list (keep done : list Z) (a : Z) (l : list lid) : list lid :=
  if decide (a ∈ done) then if decide (a ∈ keep) then only K l else [] else l.

Record cut_state (keep done : list Z) (g1 : t) : Prop := {
  cs_events : events g1 = events g;
  cs_po : poLists g1 = poLists g;
  cs_io : insertionOrder g1 = insertionOrder g;
  cs_co a : list_at (coherence g1) a = cut_list keep done a (list_at (coherence g) a);
  cs_loc a : is_Some (coherence g !! a) -> a ∈ keep \/ a ∉ done -> is_Some (coherence g1 !! a);
  cs_acc a : list_at (accessMap_ g1) a = cut_list keep done a (list_at (accessMap_ g) a);
  cs_store x : getInitLabel g <> Ok x -> store g1 !! x = store g !! x;
  cs_init x l : getInitLabel g = Ok x -> store g !! x = Some l -> exists m, store g1 !! x = Some (with_initRfs m l) /\
    forall a, list_at m a = cut_list keep done a (list_at (initRfs l) a)
}.

Lemma cs_sim keep done g1 : cut_state keep done g1 -> store_sim g g1.
Proof.
  intros Hc x. destruct (decide (getInitLabel g = Ok x)) as [Hx|Hx].
  - destruct (in_graph_store g Hg x (init_in g x Hx)) as [l Hl]. destruct (cs_init _ _ _ Hc x l Hx Hl) as (m & -> & _).
    rewrite Hl. by constructor.
  - rewrite (cs_store _ _ _ Hc x Hx). destruct (store g !! x); by constructor.
Qed.
(** The entry of a location is kept with its list restricted, or dropped. *)
Definition put (a : Z) (o : option (list lid)) (m : gmap Z (list lid)) : gmap Z (list lid) :=
  match o with Some l => <[a := l]> m | None => delete a m end.
Definition cut_at (keep : list Z) (a : Z) (l : list lid) : option (list lid) :=
  if decide (a ∈ keep) then Some (only K l) else None.

Lemma list_at_put a o m a' : list_at (put a o m) a' = if decide (a = a') then default [] o else list_at m a'.
Proof.
  destruct o as [l|]; cbn; [apply list_at_insert|].
  unfold list_at. case_decide; [subst; by rewrite lookup_delete_eq|by rewrite lookup_delete_ne].
Qed.
Lemma cut_list_cons keep done a a' l :
  cut_list keep (a :: done) a' l = if decide (a = a') then default [] (cut_at keep a l) else cut_list keep done a' l.
Proof.
  unfold cut_list, cut_at. destruct (decide (a = a')) as [->|Hne].
  - rewrite decide_True by left. by case_decide.
  - destruct (decide (a' ∈ done)); [rewrite decide_True by (by right)|rewrite decide_False by set_solver]; done.
Qed.

Lemma count_zero keep a : increasing keep -> (VSet.count keep a =? 0)%nat = true <-> a ∉ keep.
Proof.
  intros Hk. rewrite <- (VSet.contains_spec keep a Hk). unfold VSet.count, VSet.contains.
  by destruct (VSet.find keep a).
Qed.

(** The body of the loop, once its parts are computed. *)
Definition cut_entry (keep : list Z) (a : Z) (x : lid) (l : EventLabel.t) (g1 : t) : t :=
  set_coherence (put a (cut_at keep a (list_at (coherence g) a)) (coherence g1))
    (set_accessMap (put a (cut_at keep a (list_at (accessMap_ g) a)) (accessMap_ g1))
      (upd x (fun l' => with_initRfs (put a (cut_at keep a (list_at (initRfs l) a)) (initRfs l')) l') g1)).

Lemma cut_entry_state keep done g1 a x l : cut_state keep done g1 -> a ∉ done ->
  getInitLabel g = Ok x -> store g !! x = Some l -> cut_state keep (a :: done) (cut_entry keep a x l g1).
Proof.
  intros Hc Ha Hx Hl. split; cbn; [by apply Hc..| | | | |].
  - intros a'. rewrite cut_list_cons, <- (cs_co _ _ _ Hc), list_at_put. case_decide; by subst.
  - intros a' Hs Hor. unfold cut_at. destruct (decide (a = a')) as [->|Hne].
    + rewrite decide_True by set_solver. cbn. by rewrite lookup_insert_eq.
    + assert (forall o, put a o (coherence g1) !! a' = coherence g1 !! a') as ->
        by (intros []; cbn; by rewrite ?lookup_insert_ne, ?lookup_delete_ne).
      apply (cs_loc _ _ _ Hc); [done|set_solver].
  - intros a'. rewrite cut_list_cons, <- (cs_acc _ _ _ Hc), list_at_put. case_decide; by subst.
  - intros y Hy. rewrite lookup_alter_ne by congruence. by apply (cs_store _ _ _ Hc).
  - intros y ly Hy Hly. assert (y = x) as -> by congruence. simplify_eq.
    destruct (cs_init _ _ _ Hc x l Hy Hl) as (m & Hm & Hat).
    rewrite lookup_alter_eq, Hm. cbn. eexists. split; [reflexivity|].
    intros a'. rewrite cut_list_cons, <- Hat, list_at_put. case_decide; by subst.
Qed.

Lemma cut_loc_ok keep done g1 a ws x l : increasing keep -> cut_state keep done g1 -> a ∉ done ->
  coherence g !! a = Some ws -> getInitLabel g = Ok x -> store g !! x = Some l -> kind l = Kind.Init ->
  cut_loc v keep g1 (a, ws) = Ok (cut_entry keep a x l g1).
Proof.
  intros Hk Hc Ha Hws Hx Hl Hi.
  assert (list_at (coherence g) a = ws) as Hco by exact (f_equal (default []) Hws).
  assert (getInitLabel g1 = Ok x) as Hx1
    by (rewrite <- Hx; unfold getInitLabel, getEventLabel; by rewrite (cs_events _ _ _ Hc)).
  destruct (cs_init _ _ _ Hc x l Hx Hl) as (m & Hm & Hat). pose proof (cs_sim _ _ _ Hc) as Hs.
  assert (forall l0, cut_list keep done a l0 = l0) as Hcl by (intros; unfold cut_list; by rewrite decide_False).
  unfold cut_loc, cut_entry. rewrite Hx1. cbn [mbind res_bind].
  destruct (VSet.count keep a =? 0)%nat eqn:E.
  { apply (count_zero keep a Hk) in E. unfold cut_at. by rewrite !decide_False by done. }
  assert (a ∈ keep) as Hin.
  { destruct (decide (a ∈ keep)) as [|Hn]; [done|]. apply (count_zero keep a Hk) in Hn. congruence. }
  unfold cut_at. rewrite !decide_True by done. cbn [put]. rewrite Hco.
  rewrite erase_outside by (done || (intros w Hw; rewrite <- Hco in Hw; by destruct (wf_co g Hg a w Hw))).
  cbn [mbind res_bind]. rewrite (label_ok _ x (with_initRfs m l)) by exact Hm. cbn [mbind res_bind initRfs with_initRfs].
  rewrite Hat, Hcl, erase_outside; [cbn [mbind res_bind]|done|].
  2: { intros y Hy. destruct (wf_readers g Hg x l a y (init_in g x Hx) Hl) as [? _]; [|done].
       unfold readers_at. by rewrite Hi. }
  change (accessMap_ (upd _ _ _)) with (accessMap_ g1).
  rewrite (cs_acc _ _ _ Hc), Hcl, erase_outside; [done| |].
  - eapply sim_trans; [exact Hs|].
    by apply (upd_sim x (fun l' => with_initRfs (<[a := only K (list_at (initRfs l) a)]> (initRfs l')) l') g1).
  - intros y Hy. by apply (wf_acc g Hg) in Hy as [? _].
Qed.

Lemma cut_locs keep ls : increasing keep -> NoDup ls.*1 -> (forall a ws, (a, ws) ∈ ls -> coherence g !! a = Some ws) ->
  forall done g1, cut_state keep done g1 -> (forall a, a ∈ done -> a ∉ ls.*1) ->
  exists g2 done', foldM (cut_loc v keep) g1 ls = Ok g2 /\ cut_state keep done' g2 /\
    forall a, a ∈ done' <-> a ∈ done \/ a ∈ ls.*1.
Proof.
  intros Hk. destruct (wf_init g Hg) as (x & l & Hx & Hl & Hi).
  induction ls as [|[a ws] ls IH]; intros Hnd Hls done g1 Hc Hd.
  { exists g1, done. split_and!; [done..|set_solver]. }
  rewrite fmap_cons in *. cbn [fst] in *. apply NoDup_cons in Hnd as [Ha Hnd].
  assert (a ∉ done) as Hn by (intros Hin; apply (Hd a Hin); left).
  pose proof (cut_loc_ok keep done g1 a ws x l Hk Hc Hn (Hls a ws ltac:(left)) Hx Hl Hi) as E1.
  cbn [foldM]. rewrite E1. cbn [mbind res_bind].
  destruct (IH Hnd (fun a' ws' H' => Hls a' ws' (list_elem_of_further _ _ _ H')) (a :: done) (cut_entry keep a x l g1))
    as (g2 & done' & E & Hc2 & Hd2).
  - by apply cut_entry_state.
  - intros a' [->|Hin]%elem_of_cons; [done|]. intros Hin'. apply (Hd a' Hin). by right.
  - exists g2, done'. split_and!; [done..|]. set_solver.
Qed.

(** A kept deallocation is not the only kept label of its location. *)
Definition frees_accessed : Prop :=
  forall x l, in_graph g x -> K x = true -> store g !! x = Some l -> Class.isFree (kind l) = true -> accessed (getAddr l).

Lemma tracked_accessed x l : frees_accessed -> in_graph g x -> K x = true -> store g !! x = Some l ->
  tracked l = true -> accessed (getAddr l).
Proof.
  intros Hfree Hx HK Hl Ht. unfold tracked in Ht. apply orb_true_iff in Ht as [Ht|Ht]; [by exists x, l|]. by apply (Hfree x l).
Qed.

Lemma cut_list_only keep done a l : frees_accessed -> (forall a, a ∈ keep <-> accessed a) ->
  (forall a, a ∈ done <-> is_Some (coherence g !! a)) ->
  (forall x, x ∈ l -> in_graph g x /\ exists lx, store g !! x = Some lx /\ tracked lx = true /\ getAddr lx = a) ->
  cut_list keep done a l = only K l.
Proof.
  intros Hfree Hk Hd Hl. unfold cut_list. case_decide as Hn.
  - case_decide as Hnk; [done|]. symmetry. apply list_filter_none. intros x Hx HK.
    destruct (Hl x Hx) as (Hg0 & lx & Hlx & Ht & <-). apply Hnk, Hk. by eapply tracked_accessed.
  - destruct l as [|x l]; [done|]. exfalso. destruct (Hl x ltac:(left)) as (Hg0 & lx & Hlx & Ht & <-).
    apply Hn, Hd. by eapply wf_loc.
Qed.

(** The initializer is the only label of its kind. *)
Definition one_init : Prop :=
  forall x l, in_graph g x -> store g !! x = Some l -> kind l = Kind.Init -> getInitLabel g = Ok x.

(** What [removeAfter] achieves. *)
Record removed (g1 : t) : Prop := {
  rm_events : events g1 = events g;
  rm_po : poLists g1 = poLists g;
  rm_io : insertionOrder g1 = insertionOrder g;
  rm_co a : list_at (coherence g1) a = only K (list_at (coherence g) a);
  rm_acc a : list_at (accessMap_ g1) a = only K (list_at (accessMap_ g) a);
  rm_loc x l : in_graph g x -> K x = true -> store g !! x = Some l -> tracked l = true ->
    is_Some (coherence g1 !! getAddr l);
  rm_sim : store_sim g g1;
  rm_store x l : in_graph g x -> store g !! x = Some l -> exists m, store g1 !! x = Some (with_initRfs m l) /\
    (kind l = Kind.Init -> forall a, list_at m a = only K (list_at (initRfs l) a))
}.

Lemma with_initRfs_id l : with_initRfs (initRfs l) l = l.
Proof. by destruct l. Qed.

Lemma removeAfter_ok : begins -> one_init -> frees_accessed -> exists g1, removeAfter v g = Ok g1 /\ removed g1.
Proof.
  intros Hb Hone Hfree. unfold removeAfter. destruct (keep_locs_ok Hb) as (keep & -> & Hki & Hk). cbn [mbind res_bind].
  assert (cut_state keep [] g) as Hc0.
  { split; try done. intros x l Hx Hl. exists (initRfs l). by rewrite with_initRfs_id. }
  destruct (cut_locs keep (map_to_list (coherence g)) Hki (NoDup_fst_map_to_list _)
    (fun a ws => proj1 (elem_of_map_to_list _ a ws)) [] g Hc0) as (g1 & done & -> & Hc & Hd); [set_solver|].
  assert (forall a, a ∈ done <-> is_Some (coherence g !! a)) as Hdom.
  { intros a. rewrite Hd, list_elem_of_fmap. split.
    - intros [?|([a' ws] & -> & Hin%elem_of_map_to_list)]; [set_solver|by exists ws].
    - intros [ws Hws]. right. exists (a, ws). split; [done|]. by apply elem_of_map_to_list. }
  exists g1. split; [done|]. split.
  - apply (cs_events _ _ _ Hc).
  - apply (cs_po _ _ _ Hc).
  - apply (cs_io _ _ _ Hc).
  - intros a. rewrite (cs_co _ _ _ Hc). apply cut_list_only; try done. intros x Hx.
    destruct (wf_co g Hg a x Hx) as (Hin & lx & Hlx & Hw & Ha). split; [done|]. exists lx. split_and!; try done.
    unfold tracked. by destruct (kind lx).
  - intros a. rewrite (cs_acc _ _ _ Hc). apply cut_list_only; try done. intros x Hx. by apply (wf_acc g Hg).
  - intros x l Hx HK Hl Ht. apply (cs_loc _ _ _ Hc); [by eapply wf_loc|left]. apply Hk. by eapply tracked_accessed.
  - by eapply cs_sim.
  - intros x l Hx Hl. destruct (decide (getInitLabel g = Ok x)) as [Hi|Hi].
    + destruct (cs_init _ _ _ Hc x l Hi Hl) as (m & Hm & Hat). exists m. split; [done|]. intros Hk0 a. rewrite Hat.
      apply cut_list_only; try done. intros r Hr. destruct (wf_readers g Hg x l a r Hx Hl) as (Hin & lr & Hlr & Hrd & _ & Ha).
      { unfold readers_at. by rewrite Hk0. }
      split; [done|]. exists lr. rewrite Ha by done. split_and!; try done. by apply tracked_read.
    + exists (initRfs l). rewrite with_initRfs_id, (cs_store _ _ _ Hc) by done. split; [done|]. intros Hk0.
      destruct Hi. by apply (Hone x l).
Qed.

(** *** Insertion order and program order *)

(** The lists without the labels of [ls] outside [K]. *)
Definition spared (ls : list lid) (l : list lid) : list lid := filter (fun x => K x = true \/ x ∉ ls) l.

Lemma spared_cons x ls l : spared (x :: ls) l = spared ls (if K x then l else unlink x l).
Proof.
  unfold spared, unlink. destruct (K x) eqn:E.
  - apply list_filter_iff'. intros y _. rewrite not_elem_of_cons. destruct (decide (y = x)) as [->|]; tauto.
  - rewrite list_filter_filter. apply list_filter_iff'. intros y _. rewrite not_elem_of_cons. split; [|tauto].
    intros [Hy|?]; [|tauto]. split; [tauto|congruence].
Qed.
Lemma spared_all ls l : (forall x, x ∈ l -> x ∈ ls) -> spared ls l = only K l.
Proof. intros Hl. apply list_filter_iff'. intros x Hx. specialize (Hl x Hx). tauto. Qed.

(** Every label is listed in its own thread. *)
Definition own_thread (pos : list (list lid)) : Prop :=
  forall t po x, pos !! t = Some po -> x ∈ po ->
    exists l, store g !! x = Some l /\ Event.thread (position l) = Z.of_nat t.

Lemma unlink_thread pos x l t po : own_thread pos -> store g !! x = Some l -> Event.thread (position l) = Z.of_nat t ->
  pos !! t = Some po -> <[t := unlink x po]> pos = map (unlink x) pos.
Proof.
  intros Ho Hl Ht Hpo. apply list_eq. intros t'. rewrite list_lookup_fmap.
  destruct (decide (t = t')) as [<-|Hne].
  - rewrite list_lookup_insert_eq by (by eapply lookup_lt_Some). by rewrite Hpo.
  - rewrite list_lookup_insert_ne by done. destruct (pos !! t') as [po'|] eqn:E; [|done]. cbn. f_equal. symmetry.
    apply unlink_notin. intros Hx. destruct (Ho t' po' x E Hx) as (l' & Hl' & Ht'). simplify_eq. lia.
Qed.

Lemma own_thread_unlink pos x : own_thread pos -> own_thread (map (unlink x) pos).
Proof.
  intros Ho t po y Ht Hy. apply list_lookup_fmap_Some in Ht as (po0 & -> & Ht).
  apply elem_unlink in Hy as [Hy _]. by apply (Ho t po0).
Qed.

Lemma unlink_outside_fold ls : (forall x, x ∈ ls -> in_graph g x) -> forall g1, store_sim g g1 ->
  own_thread (poLists g1) -> length (poLists g1) = length (events g) ->
  foldM (unlink_outside v) g1 ls =
    Ok (set_insertionOrder (spared ls (insertionOrder g1)) (set_poLists (map (spared ls) (poLists g1)) g1)).
Proof.
  induction ls as [|x ls IH]; intros Hls g1 Hs Ho Hlen.
  { cbn. assert (forall l, spared [] l = l) as E.
    { intros l. apply list_filter_all. intros y _. right. apply not_elem_of_nil. }
    rewrite E. assert (map (spared []) (poLists g1) = poLists g1) as -> by (rewrite (map_ext _ id) by exact E; apply map_id).
    by destruct g1. }
  pose proof (Hls x ltac:(by left)) as Hx.
  destruct (in_graph_pos g Hg x Hx) as (t & th & k & l & Ht & _ & Hl & Hp).
  destruct (store_sim_lookup g g1 x l Hs Hl) as (l1 & Hl1 & _ & E & _).
  assert (unlink_outside v g1 x = Ok (if K x then g1 else
    set_insertionOrder (unlink x (insertionOrder g1)) (set_poLists (map (unlink x) (poLists g1)) g1))) as Estep.
  { unfold unlink_outside. rewrite (label_ok _ _ _ Hl1). cbn [mbind res_bind].
    rewrite E, Hp, (pc_contains v f Hv) by (cbn; lia). cbn [mbind res_bind Event.thread Event.index].
    assert (K x = (Z.of_nat k <=? f (Z.of_nat t))) as -> by (unfold inside; by rewrite Hl, Hp).
    destruct (_ <=? _); [done|]. apply lookup_lt_Some in Ht. rewrite <- Hlen in Ht.
    destruct (lookup_lt_is_Some_2 _ _ Ht) as [po Hpo]. unfold getThread. rewrite E, Hp. cbn [Event.thread].
    rewrite (vec_at_ok _ _ _ Hpo). cbn [mbind res_bind]. rewrite (vec_set_ok _ _ _ _ Hpo). cbn [mbind res_bind].
    by rewrite (unlink_thread _ x l t po) by (done || by rewrite Hp). }
  cbn [foldM]. rewrite Estep. cbn [mbind res_bind]. rewrite IH; clear IH Estep.
  - f_equal. pose proof (spared_cons x ls) as E1. destruct (K x); rewrite E1, (map_ext _ _ E1); cbn; by rewrite ?map_map.
  - intros y Hy. apply Hls. by right.
  - by destruct (K x).
  - destruct (K x); [done|]. by apply own_thread_unlink.
  - destruct (K x); [done|]. cbn. by rewrite length_map.
Qed.

Lemma unlink_all g1 : removed g1 -> foldM (unlink_outside v) g1 (insertionOrder g1) =
  Ok (set_insertionOrder (only K (insertionOrder g)) (set_poLists (map (only K) (events g)) g1)).
Proof.
  intros Hr. rewrite unlink_outside_fold.
  - rewrite (rm_io _ Hr), (rm_po _ Hr), (wf_po g Hg), spared_all by done. do 2 f_equal.
    f_equal. apply map_ext_in. intros po Hpo%list_elem_of_In. apply spared_all. intros x Hx.
    rewrite (wf_io g Hg). apply list_elem_of_lookup in Hpo as [t Ht]. apply list_elem_of_lookup in Hx as [k Hk].
    apply elem_concat. eauto.
  - intros x. by rewrite (rm_io _ Hr), (wf_io g Hg).
  - apply (rm_sim _ Hr).
  - rewrite (rm_po _ Hr), (wf_po g Hg). intros t po x Ht Hx. apply list_elem_of_lookup in Hx as [k Hk].
    destruct (wf_pos g Hg t po k x Ht Hk) as (l & Hl & Hp). exists l. by rewrite Hp.
  - by rewrite (rm_po _ Hr), (wf_po g Hg).
Qed.

(** *** The links of the labels that stay *)
Lemma upd_skip x g1 : upd x id g1 = g1.
Proof. apply upd_id. by intros. Qed.
Lemma forget_pointer_ok g1 o reset x : store_sim g g1 -> (forall j, o = Some j -> in_graph g j) ->
  forget_pointer v o reset x g1 = Ok (upd x (prune_pointer K o reset) g1).
Proof.
  intros Hs Ho. destruct o as [j|]; cbn; [|by rewrite upd_skip].
  rewrite outside_ok by (done || by apply Ho). cbn. destruct (K j); [by rewrite upd_skip|done].
Qed.
Lemma prune_pointer_ok (c : bool) g1 o reset x : store_sim g g1 -> (c = true -> forall j, o = Some j -> in_graph g j) ->
  (if c then forget_pointer v o reset x g1 else Ok g1) = Ok (upd x (if c then prune_pointer K o reset else id) g1).
Proof. intros Hs Ho. destruct c; [apply forget_pointer_ok; auto|by rewrite upd_skip]. Qed.
Lemma prune_list_ok (c : bool) g1 l (w : list lid -> EventLabel.t -> EventLabel.t) x : store_sim g g1 ->
  (c = true -> forall j, j ∈ l -> in_graph g j) ->
  (if c then rs ← erase_if (outside v g1) l; Ok (upd x (w rs) g1) else Ok g1) =
    Ok (upd x (if c then w (only K l) else id) g1).
Proof.
  intros Hs Ho. destruct c; [|by rewrite upd_skip]. rewrite erase_outside by auto. done.
Qed.

Lemma upd_sim_trans g1 x p : store_sim g g1 -> (forall l, same_static l (p l)) -> store_sim g (upd x p g1).
Proof. intros Hs Hp. eapply sim_trans; [exact Hs|by apply upd_sim]. Qed.

(** The similarity of a graph that is pruned in part, and the links that are in the graph. *)
Ltac pruned :=
  repeat (apply upd_sim_trans; [|intros; unfold prune_pointer; repeat case_match; by repeat split]); assumption.
Ltac linked Hin :=
  let E := fresh in let j := fresh in let Hj := fresh in
  intros E j Hj; apply Hin; rewrite E, ?Hj; set_solver.

Lemma forget_outside_ok g1 e x l : store_sim g g1 -> getEventLabel g1 e = Ok x -> store g1 !! x = Some l ->
  (forall j, j ∈ links l -> in_graph g j) -> forget_outside v g1 e = Ok (upd x (prune K l) g1).
Proof.
  intros Hs Hx Hl Hin. unfold forget_outside. rewrite Hx. cbn [mbind res_bind]. rewrite (label_ok _ _ _ Hl).
  cbn [mbind res_bind]. unfold links in Hin. unfold prune.
  rewrite prune_list_ok; [cbn [mbind res_bind]|pruned|linked Hin].
  do 3 (rewrite prune_pointer_ok; [cbn [mbind res_bind]|pruned|linked Hin]).
  do 2 (rewrite prune_list_ok; [cbn [mbind res_bind]|pruned|linked Hin]).
  by rewrite !upd_upd.
Qed.

Lemma forget_fold es : NoDup es -> (forall e, e ∈ es -> e ∈ prefix_events f (getNumThreads g)) ->
  forall g1, events g1 = events g -> store_sim g g1 ->
  (forall x l, in_graph g x -> store g1 !! x = Some l -> position l ∈ es -> forall j, j ∈ links l -> in_graph g j) ->
  exists g2, foldM (forget_outside v) g1 es = Ok g2 /\ same_struct g1 g2 /\ store_sim g g2 /\
    forall x l, in_graph g x -> store g1 !! x = Some l ->
      store g2 !! x = Some (if decide (position l ∈ es) then prune K l l else l).
Proof.
  induction es as [|e es IH]; intros Hnd Hes g1 Hev Hs Hlk.
  { exists g1. split_and!; try done. }
  apply NoDup_cons in Hnd as [He Hnd].
  destruct (prefix_label e) as (x & l & Hx & Hin & Hl & Hp & _); [apply Hes; by left|].
  destruct (store_sim_lookup g g1 x l Hs Hl) as (l1 & Hl1 & Hst). pose proof (proj1 (proj2 Hst)) as Hp1.
  rewrite Hp in Hp1. assert (getEventLabel g1 e = Ok x) as Hx1 by (rewrite <- Hx; unfold getEventLabel; by rewrite Hev).
  pose proof (forget_outside_ok g1 e x l1 Hs Hx1 Hl1) as E. cbn [foldM]. rewrite E; [|eapply Hlk; [done..|rewrite Hp1; by left]].
  clear E. cbn [mbind res_bind].
  destruct (IH Hnd (fun e' H' => Hes e' (list_elem_of_further _ _ _ H')) (upd x (prune K l1) g1) Hev) as (g2 & -> & Hss & Hs2 & Hst2).
  - apply upd_sim_trans; [done|]. apply prune_static.
  - intros y ly Hy. rewrite upd_lookup. case_decide as Hxy.
    + subst y. rewrite Hl1. cbn. intros [= <-]. rewrite (proj1 (proj2 (prune_static K l1 l1))), Hp1. done.
    + intros Hly Hpy. apply (Hlk y ly); [done..|by right].
  - exists g2. split_and!; [done|done|done|]. intros y ly Hy Hly. destruct (decide (x = y)) as [<-|Hxy].
    + assert (ly = l1) as -> by congruence.
      rewrite (Hst2 x (prune K l1 l1)); [|done|by rewrite upd_lookup, decide_True, Hl1].
      rewrite (proj1 (proj2 (prune_static K l1 l1))), Hp1, decide_False by done. by rewrite decide_True by left.
    + rewrite (Hst2 y ly); [|done|by rewrite upd_lookup, decide_False].
      f_equal. destruct (decide (position ly ∈ es)) as [Hi|Hi]; [by rewrite decide_True by (by right)|].
      rewrite decide_False; [done|]. intros [Heq|?]%elem_of_cons; [|done]. apply Hxy.
      destruct (in_graph_store g Hg y Hy) as [ly0 Hly0].
      destruct (store_sim_lookup g g1 y ly0 Hs Hly0) as (ly1 & Hly1 & _ & Hp2 & _). simplify_eq.
      eapply (pos_inj g Hg x y); try done. congruence.
Qed.

(** *** The threads *)
Lemma destroy_lookup xs g1 x : store (destroy xs g1) !! x = if decide (x ∈ xs) then None else store g1 !! x.
Proof.
  unfold destroy. cbn. induction xs as [|y xs IH]; cbn; [done|].
  destruct (decide (x = y)) as [->|Hne]; [by rewrite lookup_delete_eq, decide_True by left|].
  rewrite lookup_delete_ne, IH by done.
  destruct (decide (x ∈ xs)); [by rewrite decide_True by (by right)|by rewrite decide_False by set_solver].
Qed.

Lemma filter_take (P : lid -> Prop) `{!forall x, Decision (P x)} l : forall m,
  (forall k x, l !! k = Some x -> P x <-> (k < m)%nat) -> filter P l = take m l.
Proof.
  induction l as [|x l IH]; intros m Hm; [by destruct m|]. pose proof (Hm 0%nat x eq_refl) as Hx.
  destruct m as [|m].
  - rewrite filter_cons_False by (rewrite Hx; lia). apply (IH 0%nat). intros k y Hy. rewrite (Hm (S k) y Hy). lia.
  - rewrite filter_cons_True by (apply Hx; lia). cbn. f_equal. apply IH. intros k y Hy. rewrite (Hm (S k) y Hy). lia.
Qed.

(** The labels of a thread in [K] are its prefix. *)
Lemma inside_at t th k x : events g !! t = Some th -> th !! k = Some x ->
  K x = true <-> (k < Z.to_nat (f (Z.of_nat t) + 1))%nat.
Proof.
  intros Ht Hk. destruct (wf_pos g Hg t th k x Ht Hk) as (l & Hl & Hp). unfold inside. rewrite Hl, Hp. cbn.
  pose proof (pc_nonneg v f Hv (Z.of_nat t)). lia.
Qed.
Lemma only_thread t th : events g !! t = Some th -> only K th = take (Z.to_nat (f (Z.of_nat t) + 1)) th.
Proof. intros Ht. apply filter_take. intros k x Hk. by apply (inside_at t th). Qed.

Lemma cut_threads_ok g1 t th : events g !! t = Some th -> events g1 !! t = Some th ->
  exists xs, truncate v g1 (Z.of_nat t) = Ok (destroy xs (set_events (<[t := only K th]> (events g1)) g1)) /\
    forall x, x ∈ xs <-> x ∈ th /\ K x = false.
Proof.
  intros Ht Ht1. pose proof (proj1 Hf t th Ht). pose proof (pc_nonneg v f Hv (Z.of_nat t) ltac:(lia)).
  set (m := Z.to_nat (f (Z.of_nat t) + 1)). exists (drop m th). split.
  - unfold truncate. rewrite (vec_at_ok _ _ _ Ht1). cbn [mbind res_bind]. rewrite (pc_getMax v f Hv) by lia.
    cbn [mbind res_bind]. assert ((0 <=? f (Z.of_nat t)) && (f (Z.of_nat t) + 1 <=? Z.of_nat (length th)) = true) as -> by lia.
    cbn [defined mbind res_bind]. rewrite (vec_set_ok _ _ _ _ Ht1). cbn [mbind res_bind].
    by rewrite (only_thread t th Ht).
  - intros x. rewrite !list_elem_of_lookup. split.
    + intros (k & Hk). rewrite lookup_drop in Hk. split; [by exists (m + k)%nat|].
      pose proof (inside_at t th _ x Ht Hk). destruct (K x); [lia|done].
    + intros ((k & Hk) & HK). exists (k - m)%nat. rewrite lookup_drop.
      pose proof (inside_at t th k x Ht Hk) as Hi. rewrite HK in Hi.
      replace (m + (k - m))%nat with k; [done|]. destruct (decide (k < m)%nat); [|lia]. by apply Hi in l.
Qed.

Record truncated (ls : list Z) (g1 g2 : t) : Prop := {
  tr_events t : events g2 !! t = if decide (Z.of_nat t ∈ ls) then only K <$> events g1 !! t else events g1 !! t;
  tr_po : poLists g2 = poLists g1;
  tr_io : insertionOrder g2 = insertionOrder g1;
  tr_co : coherence g2 = coherence g1;
  tr_acc : accessMap_ g2 = accessMap_ g1;
  tr_store x l : in_graph g x -> store g !! x = Some l ->
    store g2 !! x = if decide (K x = false /\ Event.thread (position l) ∈ ls) then None else store g1 !! x
}.

Lemma truncate_fold ls : NoDup ls -> (forall i, i ∈ ls -> 0 <= i < getNumThreads g) -> forall g1,
  (forall t, Z.of_nat t ∈ ls -> events g1 !! t = events g !! t) ->
  exists g2, foldM (truncate v) g1 ls = Ok g2 /\ truncated ls g1 g2.
Proof.
  induction ls as [|i ls IH]; intros Hnd Hls g1 Hev.
  { exists g1. split; [done|]. split; try done. intros x l _ _. rewrite decide_False; [done|]. intros [_ Hin]. by apply not_elem_of_nil in Hin. }
  apply NoDup_cons in Hnd as [Hi Hnd]. pose proof (Hls i ltac:(by left)) as Hi0. unfold getNumThreads in Hi0.
  destruct (lookup_lt_is_Some_2 (events g) (Z.to_nat i)) as [th Hth]; [lia|].
  assert (i = Z.of_nat (Z.to_nat i)) as Ei by lia. set (t0 := Z.to_nat i) in *. clearbody t0. subst i.
  destruct (cut_threads_ok g1 t0 th Hth) as (xs & E & Hxs); [rewrite Hev; [done|by left]|].
  cbn [foldM]. rewrite E. cbn [mbind res_bind]. set (g1' := destroy _ _). clear E.
  destruct (IH Hnd (fun i H' => Hls i (list_elem_of_further _ _ _ H')) g1') as (g2 & -> & Htr).
  { intros t Ht. cbn. rewrite list_lookup_insert_ne; [apply Hev; by right|]. intros ->. done. }
  exists g2. split; [done|]. split; try (by apply Htr).
  - intros t. rewrite (tr_events _ _ _ Htr). cbn. destruct (decide (t = t0)) as [->|Hne].
    + rewrite decide_False by done. rewrite decide_True by left.
      rewrite (Hev t0) by left. rewrite Hth. cbn. apply list_lookup_insert_eq.
      eapply lookup_lt_Some. rewrite (Hev t0) by left. exact Hth.
    + rewrite list_lookup_insert_ne by done. destruct (decide (Z.of_nat t ∈ ls)); [by rewrite decide_True by (by right)|].
      rewrite decide_False; [done|]. intros [?|?]%elem_of_cons; [lia|done].
  - intros x l Hx Hl. rewrite (tr_store _ _ _ Htr x l Hx Hl). unfold g1'. rewrite destroy_lookup. cbn.
    destruct (in_graph_pos g Hg x Hx) as (t & th' & k & l' & Ht & Hk & Hl' & Hp). simplify_eq. rewrite Hp. cbn.
    destruct (decide (t = t0)) as [->|Hne].
    + simplify_eq. assert (x ∈ th) as Hin by (apply list_elem_of_lookup; eauto).
      rewrite decide_False by tauto. destruct (K x) eqn:EK.
      * rewrite decide_False by (rewrite Hxs; intros [_ ?]; congruence). by rewrite decide_False by (intros [? _]; congruence).
      * rewrite decide_True by (by rewrite Hxs). rewrite decide_True; [done|]. split; [done|by left].
    + assert (x ∉ xs) as Hn.
      { rewrite Hxs. intros [Hin _]. apply list_elem_of_lookup in Hin as [k' Hk'].
        destruct (wf_pos g Hg t0 th k' x Hth Hk') as (l2 & Hl2 & Hp2). simplify_eq. rewrite Hp in Hp2.
        injection Hp2 as ? ?. lia. }
      rewrite (decide_False (P := x ∈ xs)) by done.
      apply decide_ext. rewrite elem_of_cons. split; [tauto|]. intros [? [?|?]]; [lia|done].
Qed.

(** The links that no clause of [wf] is about lead to labels of the graph; none has
    the type of a begin. *)
Definition no_dangling : Prop :=
  forall x l j, in_graph g x -> store g !! x = Some l -> j ∈ links l -> Class.isRead (kind l) = false ->
    Class.isWrite (kind l) = false ->
    in_graph g j /\ exists lj, store g !! j = Some lj /\ Class.isThreadStart (kind lj) = false.

Lemma links_in x l j : no_dangling -> in_graph g x -> store g !! x = Some l -> j ∈ links l -> in_graph g j.
Proof.
  intros Hd Hx Hl Hj. destruct (Class.isRead (kind l)) eqn:Er.
  { assert (readsFrom l = Some j) as Hrf.
    { unfold links in Hj. rewrite Er in Hj. destruct (kind l); try discriminate Er; cbn in Hj;
        destruct (readsFrom l); cbn in Hj; rewrite ?elem_of_cons, ?elem_of_nil in Hj; naive_solver. }
    by destruct (wf_rf g Hg x l j Hx Hl Er Hrf). }
  destruct (Class.isWrite (kind l)) eqn:Ew; [|by apply (Hd x l j)].
  assert (j ∈ readerList l) as Hin.
  { unfold links in Hj. rewrite Ew in Hj. destruct (kind l); try discriminate Ew; cbn in Hj; by rewrite app_nil_r in Hj. }
  destruct (wf_readers g Hg x l 0 j Hx Hl) as [? _]; [|done]. unfold readers_at. by rewrite Ew.
Qed.

Lemma truncated_events g1 g2 : events g1 = events g -> truncated (seqZ 0 (getNumThreads g)) g1 g2 ->
  events g2 = map (only K) (events g).
Proof.
  intros Hev Htr. apply list_eq. intros t. rewrite (tr_events _ _ _ Htr), Hev, list_lookup_fmap.
  case_decide as Hn; [done|]. rewrite elem_of_seqZ in Hn. unfold getNumThreads in Hn.
  by rewrite lookup_ge_None_2 by lia.
Qed.

Lemma elem_concat_only ll x : x ∈ concat (map (only K) ll) <-> x ∈ concat ll /\ K x = true.
Proof.
  rewrite !list_elem_of_In, !in_concat. split.
  - intros (th' & (th & <- & Hth)%in_map_iff & Hx%list_elem_of_In%elem_only). split; [|tauto].
    exists th. split; [done|]. apply list_elem_of_In. tauto.
  - intros ((th & Hth & Hx) & HK). exists (only K th). split; [by apply in_map|].
    apply list_elem_of_In, elem_only. split; [by apply list_elem_of_In|done].
Qed.

Lemma init_cut g' : events g' = map (only K) (events g) -> getInitLabel g' = getInitLabel g.
Proof.
  intros He. destruct (wf_init g Hg) as (x & l & Hx & Hl & _). rewrite Hx. apply init_head.
  apply init_head in Hx as (th & Hth & H0). exists (only K th). rewrite He, list_lookup_fmap, Hth.
  split; [done|]. rewrite (only_thread 0 th Hth). pose proof (pc_nonneg v f Hv (Z.of_nat 0) ltac:(lia)).
  rewrite lookup_take_lt by lia. done.
Qed.

Lemma cut_labels_restricts g1 g2 g3 g4 : removed g1 ->
  g2 = set_insertionOrder (only K (insertionOrder g)) (set_poLists (map (only K) (events g)) g1) ->
  same_struct g2 g3 ->
  (forall x l, in_graph g x -> store g2 !! x = Some l ->
     store g3 !! x = Some (if decide (position l ∈ prefix_events f (getNumThreads g)) then prune K l l else l)) ->
  truncated (seqZ 0 (getNumThreads g)) g3 g4 -> events g4 = map (only K) (events g) ->
  restricts K g g4.
Proof.
  intros Hr1 -> (Hev3 & Hpo3 & Hio3 & Hco3 & Hacc3) Hst3 Htr Hev4.
  assert (forall x l, in_graph g x -> store g !! x = Some l -> exists m, store g3 !! x = Some (if K x
            then prune K (with_initRfs m l) (with_initRfs m l) else with_initRfs m l) /\
            (kind l = Kind.Init -> forall a, list_at m a = only K (list_at (initRfs l) a))) as Hst.
  { intros x l Hx Hl. destruct (rm_store _ Hr1 x l Hx Hl) as (m & Hm & Hmi). exists m. split; [|done].
    rewrite (Hst3 x _ Hx Hm). f_equal. pose proof (inside_prefix x l Hx Hl) as Hi.
    change (position (with_initRfs m l)) with (position l).
    case_decide as Hp; [by rewrite (proj2 Hi Hp)|]. destruct (K x); [|done]. destruct Hp. by apply Hi. }
  split.
  - intros t th' Ht. rewrite Hev4 in Ht. apply list_lookup_fmap_Some in Ht as (th & -> & Ht).
    exists th. eexists. split; [done|]. by apply only_thread.
  - intros x. unfold in_graph. rewrite Hev4. apply elem_concat_only.
  - rewrite (tr_po _ _ _ Htr), Hpo3, Hev4. done.
  - by rewrite (tr_io _ _ _ Htr), Hio3.
  - by apply init_cut.
  - intros x l Hx HK Hl. destruct (Hst x l Hx Hl) as (m & Hm & Hmi). rewrite HK in Hm. eexists.
    rewrite (tr_store _ _ _ Htr x l Hx Hl), decide_False by (intros [? _]; congruence).
    split; [exact Hm|]. by apply prune_restricted.
  - intros a. rewrite (tr_co _ _ _ Htr), Hco3. apply (rm_co _ Hr1).
  - intros a. rewrite (tr_acc _ _ _ Htr), Hacc3. apply (rm_acc _ Hr1).
  - intros x l Hx HK Hl Ht. rewrite (tr_co _ _ _ Htr), Hco3. by apply (rm_loc _ Hr1 x l).
  - intros x Hx HK. destruct (in_graph_pos g Hg x Hx) as (t & th & k & l & Ht & _ & Hl & Hp).
    rewrite (tr_store _ _ _ Htr x l Hx Hl), decide_True; [done|]. split; [done|]. rewrite Hp. cbn.
    apply lookup_lt_Some in Ht. apply elem_of_seqZ. unfold getNumThreads. lia.
Qed.

Lemma cut_labels_ok : begins -> one_init -> frees_accessed -> no_dangling ->
  exists g', cut_labels v g = Ok g' /\ restricts K g g' /\ events g' = map (only K) (events g).
Proof.
  intros Hb Hone Hfree Hdang. unfold cut_labels.
  destruct (removeAfter_ok Hb Hone Hfree) as (g1 & -> & Hr1). cbn [mbind res_bind].
  rewrite (unlink_all g1 Hr1). cbn [mbind res_bind].
  set (g2 := set_insertionOrder _ _).
  assert (events g2 = events g) as Hev2 by apply (rm_events _ Hr1).
  assert (getNumThreads g2 = getNumThreads g) as -> by (unfold getNumThreads; by rewrite Hev2).
  rewrite for_prefixes by done.
  destruct (forget_fold (prefix_events f (getNumThreads g)) (prefix_events_nodup _ _) (fun _ H => H) g2 Hev2 (rm_sim _ Hr1))
    as (g3 & -> & (Hev3 & Hpo3 & Hio3 & Hco3 & Hacc3) & Hs3 & Hst3).
  { intros x l2 Hx Hl2 _ j Hj. destruct (in_graph_store g Hg x Hx) as [l Hl].
    destruct (rm_store _ Hr1 x l Hx Hl) as (m & Hm & _). change (store g1 !! x = Some l2) in Hl2. simplify_eq.
    by apply (links_in x l). }
  cbn [mbind res_bind]. assert (events g3 = events g) as Hev by congruence.
  assert (getNumThreads g3 = getNumThreads g) as -> by (unfold getNumThreads; by rewrite Hev).
  destruct (truncate_fold (seqZ 0 (getNumThreads g)) (NoDup_seqZ _ _)) with (g1 := g3) as (g4 & -> & Htr).
  { intros i Hi%elem_of_seqZ. lia. }
  { intros t _. by rewrite Hev. }
  pose proof (truncated_events g3 g4 Hev Htr) as Hev4.
  exists g4. split; [done|]. split; [|done].
  by apply (cut_labels_restricts g1 g2 g3).
Qed.

End loops.

(** *** The begins *)
Section begins.
Context (g1 : t) (Hg1 : wf g1) (Hb : begins g1).

(** Threads from [n] on, a begin each, have been removed. *)
Record begun (n : nat) (g2 : t) : Prop := {
  bg_events : events g2 = take n (events g1);
  bg_po : poLists g2 = take n (events g1);
  bg_io : insertionOrder g2 = filter (.∉ concat (drop n (events g1))) (insertionOrder g1);
  bg_co : coherence g2 = coherence g1;
  bg_acc : accessMap_ g2 = accessMap_ g1;
  bg_store x l : store g1 !! x = Some l -> x ∉ concat (drop n (events g1)) ->
    exists s, store g2 !! x = Some (setSymmSuccTid s l);
  bg_gone x : x ∈ concat (drop n (events g1)) -> store g2 !! x = None;
  bg_none x : store g1 !! x = None -> store g2 !! x = None
}.

(** The thread [t] is a begin without creator, whose symmetric predecessor is an earlier thread. *)
Definition orphan (t : nat) : Prop :=
  exists b l, events g1 !! t = Some [b] /\ store g1 !! b = Some l /\ Class.isThreadStart (kind l) = true /\
    kind l <> Kind.Init /\ createLab l = None /\ (symmPredTid l = -1 \/ 0 <= symmPredTid l < Z.of_nat t).
(** The loop does not remove the thread [t]. *)
Definition stuck (t : nat) : Prop :=
  exists b th l, events g1 !! t = Some (b :: th) /\ store g1 !! b = Some l /\
    (th <> [] \/ kind l = Kind.Init \/ createLab l <> None).

Lemma setSymmSuccTid_id l : setSymmSuccTid (symmSuccTid l) l = l.
Proof. by destruct l. Qed.

Lemma in_thread t th x : events g1 !! t = Some th -> x ∈ th -> in_graph g1 x.
Proof. intros Ht Hx. apply list_elem_of_lookup in Hx as [k Hk]. apply elem_concat. eauto. Qed.
Lemma thread_not_dropped n t th x : events g1 !! t = Some th -> x ∈ th -> (t < n)%nat -> x ∉ concat (drop n (events g1)).
Proof.
  intros Ht Hx Hn Hin. apply list_elem_of_lookup in Hx as [k Hk].
  apply elem_concat in Hin as (t' & th' & k' & Ht' & Hk'). rewrite lookup_drop in Ht'.
  destruct (wf_pos g1 Hg1 _ _ _ _ Ht Hk) as (l & Hl & Hp). destruct (wf_pos g1 Hg1 _ _ _ _ Ht' Hk') as (l' & Hl' & Hp').
  simplify_eq. rewrite Hp in Hp'. injection Hp' as ? ?. lia.
Qed.

Lemma begun_start : begun (length (events g1)) g1.
Proof.
  split; rewrite ?drop_all, ?take_ge by done; try done.
  - apply (wf_po g1 Hg1).
  - symmetry. apply list_filter_all. intros x _. apply not_elem_of_nil.
  - intros x l Hl _. exists (symmSuccTid l). by rewrite setSymmSuccTid_id.
  - intros x Hx. by apply not_elem_of_nil in Hx.
Qed.

(** The begin of a thread that is left. *)
Lemma begun_first n g2 t b th l : begun n g2 -> (t < n)%nat -> events g1 !! t = Some (b :: th) -> store g1 !! b = Some l ->
  getThreadSize g2 (Z.of_nat t) = Ok (Z.of_nat (S (length th))) /\
  exists s, store g2 !! b = Some (setSymmSuccTid s l) /\
  getFirstThreadLabel g2 (Z.of_nat t) = Ok (if Class.isThreadStart (kind l) then Some b else None).
Proof.
  intros Hbg Hn Ht Hl. assert (events g2 !! t = Some (b :: th)) as Ht2 by (rewrite (bg_events _ _ Hbg), lookup_take_lt by done; done).
  destruct (bg_store _ _ Hbg b l Hl) as (s & Hs); [by eapply thread_not_dropped; [done|left|done]|].
  unfold getThreadSize, getFirstThreadLabel, getEventLabel. cbn [Event.thread Event.index]. rewrite (vec_at_ok _ _ _ Ht2).
  cbn [mbind res_bind]. split; [done|]. exists s. split; [done|].
  change 0 with (Z.of_nat 0). rewrite (vec_at_ok _ 0%nat b) by done. cbn [mbind res_bind].
  unfold dyn_cast. by rewrite (label_ok _ _ _ Hs).
Qed.

Lemma stuck_loop n g2 : begun n g2 -> forall m, (m <= n)%nat -> (forall t, (t < m)%nat -> stuck t) ->
  remove_begins (reverse (seqZ 0 (Z.of_nat m))) g2 = Ok g2.
Proof.
  intros Hbg m. induction m as [|m IH]; intros Hm Hst; [done|].
  rewrite seqZ_S, reverse_app. cbn [reverse rev_append app remove_begins].
  destruct (Hst m ltac:(lia)) as (b & th & l & Ht & Hl & Hor).
  destruct (Hb m _ Ht) as (x & lx & Hx & Hlx & Hk). injection Hx as <-. simplify_eq.
  destruct (begun_first n g2 m b th l Hbg ltac:(lia) Ht Hl) as (Es & s & Hs & Ef). rewrite Z.add_0_l.
  cbn [reverse rev_append app remove_begins]. rewrite Es. cbn [mbind res_bind].
  destruct (Z.of_nat (S (length th)) =? 1) eqn:E1; [|done]. cbn [negb]. rewrite Ef, Hk. cbn [deref mbind res_bind].
  rewrite (label_ok _ _ _ Hs). cbn [mbind res_bind]. change (kind (setSymmSuccTid s l)) with (kind l).
  change (createLab (setSymmSuccTid s l)) with (createLab l).
  destruct (Class.isKind _ _) eqn:Ei; [done|]. destruct (createLab l) eqn:Ec; [cbn; apply IH; [lia|auto with lia]|].
  destruct Hor as [Hne|[Hi|Hc]]; [destruct th; [done|cbn in E1; lia]| |done].
  apply (isKind_spec _ Kind.Init) in Hi. congruence.
Qed.

Lemma begun_upd n g2 c s : begun n g2 -> begun n (upd c (setSymmSuccTid s) g2).
Proof.
  intros [B1 B2 B3 B4 B5 B6 B7 B8]. split; try done.
  - intros x l Hl Hx. destruct (B6 x l Hl Hx) as (s' & Hs'). rewrite upd_lookup, Hs'. case_decide; [by exists s|by exists s'].
  - intros x Hx. rewrite upd_lookup, (B7 x Hx). by case_decide.
  - intros x Hx. rewrite upd_lookup, (B8 x Hx). by case_decide.
Qed.

Lemma drop_orphan n b : events g1 !! n = Some [b] ->
  concat (drop n (events g1)) = b :: concat (drop (S n) (events g1)).
Proof. intros Hn. by rewrite (drop_S _ _ _ Hn). Qed.

Lemma delete_last {A} (ll : list A) n : delete n (take (S n) ll) = take n ll.
Proof.
  rewrite delete_take_drop, take_take, Nat.min_l by lia.
  rewrite (drop_ge (take (S n) ll)) by (rewrite length_take; lia). by rewrite app_nil_r.
Qed.

(** Removing the last thread, after the link to it is reset. *)
Lemma begun_delete n g2 b : begun (S n) g2 -> events g1 !! n = Some [b] ->
  begun n (destroy [b] (set_poLists (delete n (poLists g2)) (set_events (delete n (events g2))
    (set_insertionOrder (unlink b (insertionOrder g2)) g2)))).
Proof.
  intros [B1 B2 B3 B4 B5 B6 B7 B8] Hn. split; cbn; rewrite ?(drop_orphan n b Hn).
  - by rewrite B1, delete_last.
  - by rewrite B2, delete_last.
  - rewrite B3. unfold unlink. rewrite list_filter_filter. apply list_filter_iff'.
    intros x _. rewrite not_elem_of_cons. tauto.
  - done.
  - done.
  - intros x l Hl [Hxb Hx]%not_elem_of_cons. rewrite lookup_delete_ne by done. by apply B6.
  - intros x [->|Hx]%elem_of_cons; [by rewrite lookup_delete_eq|].
    destruct (decide (x = b)) as [->|]; [by rewrite lookup_delete_eq|]. rewrite lookup_delete_ne by done. by apply B7.
  - intros x Hx. destruct (decide (x = b)) as [->|]; [by rewrite lookup_delete_eq|].
    rewrite lookup_delete_ne by done. by apply B8.
Qed.

Lemma remove_begin_ok n g2 b l s : begun (S n) g2 -> events g1 !! n = Some [b] ->
  (symmPredTid l = -1 \/ 0 <= symmPredTid l < Z.of_nat n) ->
  exists g3, remove_begin (Z.of_nat n) b (setSymmSuccTid s l) g2 = Ok g3 /\ begun n g3.
Proof.
  intros Hbg Hn Hsy. unfold remove_begin. change (symmPredTid (setSymmSuccTid s l)) with (symmPredTid l).
  assert (exists g2', (if symmPredTid l =? -1 then Ok g2 else
      o ← getFirstThreadLabel g2 (symmPredTid l); c ← deref o; Ok (upd c (setSymmSuccTid (-1)) g2)) = Ok g2' /\
      begun (S n) g2') as (g2' & -> & Hbg').
  { destruct (Z.eqb_spec (symmPredTid l) (-1)); [by exists g2|]. destruct Hsy as [|Hsy]; [done|].
    destruct (lookup_lt_is_Some_2 (events g1) (Z.to_nat (symmPredTid l))) as [th Hth].
    { apply lookup_lt_Some in Hn. lia. }
    destruct (Hb _ _ Hth) as (c & lc & Hc & Hlc & Hk). destruct th as [|c' th]; [done|]. injection Hc as ->.
    destruct (begun_first (S n) g2 (Z.to_nat (symmPredTid l)) c th lc Hbg ltac:(lia) Hth Hlc) as (_ & _ & _ & Ef).
    rewrite Z2Nat.id in Ef by lia. rewrite Ef, Hk. cbn. eexists. split; [done|]. by apply begun_upd. }
  cbn [mbind res_bind].
  assert (take (S n) (events g1) !! n = Some [b]) as Ht by (rewrite lookup_take_lt by lia; done).
  rewrite (vec_at_ok _ n [b]) by (cbn; by rewrite ?(bg_po _ _ Hbg'), ?(bg_events _ _ Hbg')). cbn [mbind res_bind].
  rewrite (vec_at_ok _ n [b]) by (cbn; by rewrite ?(bg_po _ _ Hbg'), ?(bg_events _ _ Hbg')). cbn [mbind res_bind].
  eexists. split; [done|]. rewrite Nat2Z.id. exact (begun_delete n g2' b Hbg' Hn).
Qed.

Lemma remove_begins_ok n g2 : (forall t, (t < n)%nat -> stuck t) -> forall d, begun (n + d) g2 ->
  (forall t, (n <= t < n + d)%nat -> orphan t) ->
  exists g3, remove_begins (reverse (seqZ 0 (Z.of_nat (n + d)))) g2 = Ok g3 /\ begun n g3.
Proof.
  intros Hst d. revert g2. induction d as [|d IH]; intros g2 Hbg Ho.
  { rewrite Nat.add_0_r in *. exists g2. split; [|done]. by apply (stuck_loop n g2). }
  replace (n + S d)%nat with (S (n + d)) in * by lia. rewrite seqZ_S, reverse_app.
  destruct (Ho (n + d)%nat ltac:(lia)) as (b & l & Ht & Hl & Hk & Hki & Hc & Hsy).
  destruct (begun_first (S (n + d)) g2 (n + d) b [] l Hbg ltac:(lia) Ht Hl) as (Es & s & Hs & Ef).
  destruct (remove_begin_ok _ g2 b l s Hbg Ht Hsy) as (g3 & E3 & Hbg3).
  rewrite Z.add_0_l. cbn [reverse rev_append app remove_begins]. rewrite Es. cbn [mbind res_bind].
  replace (Z.of_nat (S (length (@nil lid))) =? 1) with true by done. cbn [negb]. rewrite Ef, Hk. cbn [deref mbind res_bind].
  rewrite (label_ok _ _ _ Hs). cbn [mbind res_bind]. change (kind (setSymmSuccTid s l)) with (kind l).
  change (createLab (setSymmSuccTid s l)) with (createLab l). rewrite Hc.
  destruct (Class.isKind _ _) eqn:Ei; [by apply isKind_spec in Ei|]. rewrite E3. cbn [mbind res_bind].
  apply IH; [done|]. intros t ?. apply Ho. lia.
Qed.

(** *** Nothing refers to the begins that go *)
Section gone.
Context (n : nat) (Hn : (0 < n <= length (events g1))%nat) (Ho : forall t, (n <= t < length (events g1))%nat -> orphan t).
Context (Hd : no_dangling g1) (K2 : lid -> bool).
Context (HK : forall x l, in_graph g1 x -> store g1 !! x = Some l -> K2 x = (Event.thread (position l) <? Z.of_nat n)).

Lemma dropped_iff x : in_graph g1 x -> x ∈ concat (drop n (events g1)) <-> K2 x = false.
Proof.
  intros Hx. destruct (in_graph_pos g1 Hg1 x Hx) as (t & th & k & l & Ht & Hk & Hl & Hp).
  rewrite (HK x l Hx Hl), Hp. cbn. split.
  - intros Hin. destruct (decide (t < n)%nat) as [Hlt|]; [|lia]. destruct (thread_not_dropped n t th x Ht) in Hin; [|done|done].
    apply list_elem_of_lookup. eauto.
  - intros ?. apply elem_concat. exists (t - n)%nat, th, k. rewrite lookup_drop. replace (n + (t - n))%nat with t by lia. done.
Qed.

Lemma not_begin x l : in_graph g1 x -> store g1 !! x = Some l ->
  Class.isThreadStart (kind l) = false \/ kind l = Kind.Init -> K2 x = true.
Proof.
  intros Hx Hl Hk. destruct (K2 x) eqn:E; [done|]. exfalso.
  destruct (in_graph_pos g1 Hg1 x Hx) as (t & th & k & l' & Ht & Hkx & Hl' & Hp). simplify_eq.
  rewrite (HK x l Hx Hl), Hp in E. cbn in E. destruct (Ho t) as (b & lb & Hb' & Hlb & Hs & Hi & _).
  { apply lookup_lt_Some in Ht. lia. }
  simplify_eq. destruct k as [|k]; [|done]. cbn in Hkx. simplify_eq. destruct Hk; congruence.
Qed.

Lemma reader_below x l a r : in_graph g1 x -> store g1 !! x = Some l -> r ∈ readers_at l a -> K2 r = true.
Proof.
  intros Hx Hl Hr. destruct (wf_readers g1 Hg1 x l a r Hx Hl Hr) as (Hin & lr & Hlr & Hk & _).
  apply (not_begin r lr); try done. left. by destruct (kind lr).
Qed.
Lemma source_below x l w : in_graph g1 x -> store g1 !! x = Some l -> Class.isRead (kind l) = true ->
  readsFrom l = Some w -> K2 w = true.
Proof.
  intros Hx Hl Hk Hrf. destruct (wf_rf g1 Hg1 x l w Hx Hl Hk Hrf) as (Hw & lw & Hlw & Hin).
  apply (not_begin w lw); try done. unfold readers_at in Hin. destruct (Class.isWrite (kind lw)) eqn:E; [left; by destruct (kind lw)|].
  destruct (Class.isKind _ _) eqn:Ei; [right; by apply isKind_spec in Ei|by apply not_elem_of_nil in Hin].
Qed.
Lemma link_below x l j : in_graph g1 x -> store g1 !! x = Some l -> j ∈ links l -> Class.isRead (kind l) = false ->
  Class.isWrite (kind l) = false -> K2 j = true.
Proof. intros Hx Hl Hj Hr Hw. destruct (Hd x l j) as (Hin & lj & Hlj & Hk); try done. apply (not_begin j lj); auto. Qed.

Lemma only_all l : (forall x, x ∈ l -> K2 x = true) -> only K2 l = l.
Proof. apply list_filter_all. Qed.
Lemma only_source_all o : (forall x, o = Some x -> K2 x = true) -> only_source K2 o = o.
Proof. intros H. destruct o as [x|]; cbn; [|done]. by rewrite H. Qed.

Lemma begun_restricted x l s : in_graph g1 x -> store g1 !! x = Some l -> restricted K2 l (setSymmSuccTid s l).
Proof.
  intros Hx Hl. split; try done.
  - intros Hk. symmetry. apply only_source_all. intros w. by apply (source_below x l w).
  - intros a. change (readers_at (setSymmSuccTid s l) a) with (readers_at l a). symmetry. apply only_all.
    intros r. by apply (reader_below x l a r).
  - intros Hk. symmetry. apply only_source_all. intros j Hj. change (createLab l = Some j) in Hj. apply (link_below x l j Hx Hl).
    + unfold links. rewrite Hk, Hj. set_solver.
    + by destruct (kind l).
    + by destruct (kind l).
  - intros Hk. symmetry. apply only_source_all. intros j Hj. change (parentJoin l = Some j) in Hj.
    apply (link_below x l j Hx Hl); [|by rewrite Hk..]. unfold links. rewrite Hk, Hj. cbn. set_solver.
  - intros Hk. symmetry. apply only_all. intros j Hj. apply (link_below x l j Hx Hl); [|by rewrite Hk..].
    unfold links. rewrite Hk. cbn. by rewrite app_nil_r.
  - intros Hk. symmetry. apply only_all. intros j Hj. apply (link_below x l j Hx Hl); [|by rewrite Hk..].
    unfold links. rewrite Hk. done.
Qed.

Lemma begun_restricts g3 : begun n g3 -> restricts K2 g1 g3.
Proof.
  intros Hbg. assert (Hin : forall x, in_graph g3 x <-> in_graph g1 x /\ K2 x = true).
  { intros x. unfold in_graph at 1. rewrite (bg_events _ _ Hbg). split.
    - intros (t & th & k & Ht & Hk)%elem_concat. apply lookup_take_Some in Ht as [Ht Hlt].
      assert (in_graph g1 x) as Hx by (apply elem_concat; eauto). split; [done|].
      destruct (K2 x) eqn:E; [done|]. apply (dropped_iff x Hx) in E.
      destruct (thread_not_dropped n t th x Ht) in E; [|done|done]. apply list_elem_of_lookup. eauto.
    - intros [Hx HKx]. pose proof Hx as Hx'. unfold in_graph in Hx'. rewrite <- (take_drop n (events g1)), concat_app, elem_of_app in Hx'.
      destruct Hx' as [?|Hx']; [done|]. apply (dropped_iff x Hx) in Hx'. congruence. }
  assert (forall l, (forall x, x ∈ l -> in_graph g1 x /\ exists lx, store g1 !! x = Some lx /\ tracked lx = true) -> only K2 l = l) as Htr.
  { intros l Hl. apply only_all. intros x Hx. destruct (Hl x Hx) as (Hxg & lx & Hlx & Ht).
    apply (not_begin x lx); try done. left. unfold tracked in Ht. by destruct (kind lx). }
  split.
  - intros t th. rewrite (bg_events _ _ Hbg). intros [Ht _]%lookup_take_Some. exists th, (length th).
    by rewrite take_ge.
  - done.
  - by rewrite (bg_po _ _ Hbg), (bg_events _ _ Hbg).
  - rewrite (bg_io _ _ Hbg). apply list_filter_iff'. intros x. rewrite (wf_io g1 Hg1). intros Hx.
    rewrite (dropped_iff x Hx). by destruct (K2 x).
  - destruct (wf_init g1 Hg1) as (i & li & Hi & _). rewrite Hi. apply init_head in Hi as (th & Hth & H0).
    apply init_head. exists th. rewrite (bg_events _ _ Hbg), lookup_take_lt by lia. done.
  - intros x l Hx HKx Hl. destruct (bg_store _ _ Hbg x l Hl) as (s & Hs).
    { rewrite (dropped_iff x Hx). congruence. }
    exists (setSymmSuccTid s l). split; [done|]. by apply (begun_restricted x).
  - intros a. rewrite (bg_co _ _ Hbg). symmetry. apply Htr. intros x Hx.
    destruct (wf_co g1 Hg1 a x Hx) as (Hxg & lx & Hlx & Hw & _). split; [done|]. exists lx. split; [done|].
    unfold tracked. by destruct (kind lx).
  - intros a. rewrite (bg_acc _ _ Hbg). symmetry. apply Htr. intros x Hx.
    apply (wf_acc g1 Hg1) in Hx as (Hxg & lx & Hlx & Ht & _). eauto.
  - intros x l Hx HKx Hl Ht. rewrite (bg_co _ _ Hbg). by apply (wf_loc g1 Hg1 x l).
  - intros x Hx HKx. apply (bg_gone _ _ Hbg). by apply dropped_iff.
Qed.
End gone.

End begins.

(** *** Stamps *)
Lemma restamp_fold ls : NoDup ls -> forall n g1, timestamp g1 = wrap 32 n ->
  same_struct g1 (foldl restamp g1 ls) /\
  timestamp (foldl restamp g1 ls) = wrap 32 (n + Z.of_nat (length ls)) /\
  (forall x, x ∉ ls -> store (foldl restamp g1 ls) !! x = store g1 !! x) /\
  forall k x l, ls !! k = Some x -> store g1 !! x = Some l ->
    store (foldl restamp g1 ls) !! x = Some (with_stamp (Some (wrap 32 (n + Z.of_nat k))) l).
Proof.
  induction ls as [|y ls IH]; intros Hnd n g1 Ht; cbn [foldl].
  { split_and!; try done. by rewrite Z.add_0_r. }
  apply NoDup_cons in Hnd as [Hy Hnd].
  destruct (IH Hnd (n + 1) (restamp g1 y)) as (Hs & Ht' & Hout & Hin).
  { cbn. unfold Stamp.incr, Stamp.add. rewrite Ht. replace (wrap 32 n + 1) with (wrap 32 n + wrap 32 1) by done.
    by rewrite wrap_add by lia. }
  split_and!.
  - done.
  - rewrite Ht'. f_equal. cbn [length]. lia.
  - intros x [Hxy Hx]%not_elem_of_cons. rewrite Hout by done. cbn. by rewrite lookup_alter_ne.
  - intros [|k] x l Hk Hl; cbn in Hk.
    + injection Hk as <-. rewrite Hout by done. cbn. rewrite lookup_alter_eq, Hl, Ht. cbn. by rewrite Z.add_0_r.
    + replace (n + Z.of_nat (S k)) with (n + 1 + Z.of_nat k) by lia. apply (Hin k x l Hk).
      cbn. rewrite lookup_alter_ne; [done|]. intros ->. apply Hy, list_elem_of_lookup. eauto.
Qed.

Lemma restricted_stamp K l l' s : restricted K l l' -> restricted K l (with_stamp s l').
Proof. intros []. by split. Qed.

Lemma fix_stamps_ok K g g1 (g2 := fix_stamps g1) : wf g -> restricts K g g1 -> restricts K g g2 /\
  timestamp g2 = wrap 32 (Z.of_nat (length (insertionOrder g2))) /\
  forall k x, insertionOrder g2 !! k = Some x ->
    exists l, store g2 !! x = Some l /\ stamp l = Some (wrap 32 (Z.of_nat k)).
Proof.
  intros Hg Hr. pose proof (restricts_wf K g g1 Hg Hr) as Hg1.
  destruct (restamp_fold (insertionOrder g1)) with (n := 0) (g1 := set_timestamp 0 g1)
    as ((Ee & Ep & Ei & Ec & Ea) & Ht & Hout & Hin); [rewrite (wf_io g1 Hg1); by apply concat_nodup|done|].
  fold (fix_stamps g1) in Ee, Ep, Ei, Ec, Ea, Ht, Hout, Hin. fold g2 in Ee, Ep, Ei, Ec, Ea, Ht, Hout, Hin.
  cbn in Ee, Ep, Ei, Ec, Ea, Ht, Hout, Hin.
  assert (Hio : forall x, x ∈ insertionOrder g1 <-> in_graph g1 x) by (intros x; by rewrite (wf_io g1 Hg1)).
  split_and!.
  - split; unfold in_graph, getInitLabel, getEventLabel; rewrite ?Ee, ?Ep, ?Ei, ?Ec, ?Ea; try by apply Hr.
    + intros x l Hx HK Hl. destruct (r_store _ _ _ Hr x l Hx HK Hl) as (l' & Hl' & R).
      assert (x ∈ insertionOrder g1) as Hin' by (apply Hio, (r_in _ _ _ Hr); done).
      apply list_elem_of_lookup in Hin' as [k Hk]. eexists. split; [by apply (Hin k x l')|]. by apply restricted_stamp.
    + intros x Hx HK. rewrite Hout; [by apply (r_gone _ _ _ Hr)|]. rewrite Hio, (r_in _ _ _ Hr). intros [_ ?]. congruence.
  - by rewrite Ei.
  - intros k x Hk. rewrite Ei in Hk. destruct (in_graph_store g1 Hg1 x) as [l Hl].
    { apply Hio, list_elem_of_lookup. eauto. }
    eexists. split; [by apply (Hin k x l)|done].
Qed.

(** ** Cutting to a clock *)

Definition below (n : nat) (g : t) (x : lid) : bool :=
  match store g !! x with Some l => Event.thread (position l) <? Z.of_nat n | None => false end.
(** The labels that stay: those in the prefixes [f] of the first [n] threads. *)
Definition stays (f : Z -> Z) (n : nat) (g : t) (x : lid) : bool := inside f g x && below n g x.

(** The graphs the code cuts: the threads from [n] on, and no earlier ones, lose all
    but their begin, and the creation of it. *)
Record cuttable (f : Z -> Z) (n : nat) (g : t) : Prop := {
  ct_fits : fits f g;
  ct_begins : begins g;
  ct_init : one_init g;
  ct_frees : frees_accessed f g;
  ct_links : no_dangling g;
  ct_n : (0 < n <= length (events g))%nat;
  ct_gone t b th l : (n <= t)%nat -> events g !! t = Some (b :: th) -> store g !! b = Some l ->
    f (Z.of_nat t) = 0 /\ only_source (inside f g) (createLab l) = None /\
    (symmPredTid l = -1 \/ 0 <= symmPredTid l < Z.of_nat t);
  ct_stay t b th l : (0 < t < n)%nat -> events g !! t = Some (b :: th) -> store g !! b = Some l ->
    0 < f (Z.of_nat t) \/ only_source (inside f g) (createLab l) <> None
}.

Lemma restricted_links K l l' j : restricted K l l' -> Class.isRead (kind l) = false -> Class.isWrite (kind l) = false ->
  j ∈ links l' -> j ∈ links l /\ K j = true.
Proof.
  intros [S1 _ _ _ C1 J1 B1 E1] Hr Hw. unfold links. rewrite (proj1 S1), Hr, Hw. cbn [app].
  rewrite !elem_of_app.
  assert (forall o, j ∈ option_list (only_source K o) -> j ∈ option_list o /\ K j = true) as Ho.
  { intros [x|]; cbn; [|by intros ?%not_elem_of_nil]. destruct (K x) eqn:E; cbn; [|by intros ?%not_elem_of_nil].
    intros ->%list_elem_of_singleton. split; [by left|done]. }
  intros [Hj|[Hj|[Hj|Hj]]].
  - destruct (Class.isThreadStart (kind l)); [|by apply not_elem_of_nil in Hj]. rewrite C1 in Hj by done.
    apply Ho in Hj. tauto.
  - destruct (Class.isKind Kind.ThreadFinish (kind l)) eqn:E; [|by apply not_elem_of_nil in Hj].
    apply isKind_spec in E. rewrite J1 in Hj by done. apply Ho in Hj. tauto.
  - destruct (Class.isKind Kind.MethodBegin (kind l)) eqn:E; [|by apply not_elem_of_nil in Hj].
    apply isKind_spec in E. rewrite B1 in Hj by done. apply elem_only in Hj. tauto.
  - destruct (Class.isKind Kind.MethodEnd (kind l)) eqn:E; [|by apply not_elem_of_nil in Hj].
    apply isKind_spec in E. rewrite E1 in Hj by done. apply elem_only in Hj. tauto.
Qed.

Lemma restricts_no_dangling K g g' : wf g -> restricts K g g' -> no_dangling g -> no_dangling g'.
Proof.
  intros Hg Hr Hd x l' j Hx Hl' Hj Hrd Hw.
  destruct (r_store_inv K g g' x l' Hg Hr Hx Hl') as (l & Hx0 & HK & Hl & R).
  rewrite (proj1 (rs_static _ _ _ R)) in Hrd, Hw. destruct (restricted_links K l l' j R Hrd Hw Hj) as [Hj0 HKj].
  destruct (Hd x l j) as (Hin & lj & Hlj & Hk); try done. split; [by apply (r_in _ _ _ Hr)|].
  destruct (r_store _ _ _ Hr j lj Hin HKj Hlj) as (lj' & Hlj' & Rj). exists lj'.
  by rewrite (proj1 (rs_static _ _ _ Rj)).
Qed.

Section cut.
Context {V : Type} `{VectorClock V} (v : V) (f : Z -> Z) (Hv : prefix_clock v f).
Context (n : nat) (g : t) (Hg : wf g) (Hc : cuttable f n g).
#[local] Abbreviation K := (inside f g).
Context (g1 : t) (Hr : restricts K g g1) (Hev : events g1 = map (only K) (events g)).

(** The begin of a thread survives the cut. *)
Lemma cut_begin t th : events g !! t = Some th -> exists b th' l l',
  th = b :: th' /\ store g !! b = Some l /\ Class.isThreadStart (kind l) = true /\
  events g1 !! t = Some (b :: take (Z.to_nat (f (Z.of_nat t))) th') /\ store g1 !! b = Some l' /\ restricted K l l' /\
  in_graph g b.
Proof.
  intros Ht. destruct (ct_begins _ _ _ Hc t th Ht) as (b & l & Hb & Hl & Hk). destruct th as [|b' th]; [done|].
  injection Hb as ->. assert (in_graph g b) as Hin by (apply elem_concat; exists t, (b :: th), 0%nat; done).
  pose proof (pc_nonneg v f Hv (Z.of_nat t) ltac:(lia)) as Hf.
  assert (K b = true) as HK by (apply (inside_at v f Hv g Hg t (b :: th) 0 b Ht eq_refl); lia).
  destruct (r_store _ _ _ Hr b l Hin HK Hl) as (l' & Hl' & R). exists b, th, l, l'. split_and!; try done.
  rewrite Hev, list_lookup_fmap, Ht. cbn [fmap option_fmap option_map]. f_equal.
  rewrite (only_thread v f Hv g Hg t _ Ht). rewrite Z2Nat.inj_add by lia.
  change (Z.to_nat 1) with 1%nat. by rewrite Nat.add_comm.
Qed.

Lemma cut_orphans t : (n <= t < length (events g1))%nat -> orphan g1 t.
Proof.
  intros Ht. rewrite Hev, length_map in Ht. destruct (lookup_lt_is_Some_2 (events g) t) as [th Hth]; [lia|].
  destruct (cut_begin t th Hth) as (b & th' & l & l' & -> & Hl & Hk & Ht1 & Hl' & R & Hin).
  destruct (ct_gone _ _ _ Hc t b th' l ltac:(lia) Hth Hl) as (Hf & Hcr & Hsy). exists b, l'.
  rewrite Hf in Ht1. split; [done|]. split; [done|].
  rewrite (proj1 (rs_static _ _ _ R)), (rs_create _ _ _ R Hk).
  assert (symmPredTid l' = symmPredTid l) as -> by (pose proof (rs_payload _ _ _ R); unfold payload in *; congruence).
  split_and!; try done. intros Hi. pose proof (ct_init _ _ _ Hc b l Hin Hl Hi) as Hib.
  apply init_head in Hib as (th0 & Hth0 & H0). destruct (wf_pos g Hg _ _ _ _ Hth0 H0) as (l0 & Hl0 & Hp0).
  destruct (wf_pos g Hg t (b :: th') 0 b Hth eq_refl) as (l1 & Hl1 & Hp1). simplify_eq. rewrite Hp0 in Hp1.
  injection Hp1 as ?. pose proof (ct_n _ _ _ Hc). lia.
Qed.

Lemma cut_stuck t : (t < n)%nat -> stuck g1 t.
Proof.
  intros Ht. pose proof (ct_n _ _ _ Hc) as Hn.
  destruct (lookup_lt_is_Some_2 (events g) t) as [th Hth]; [lia|].
  destruct (cut_begin t th Hth) as (b & th' & l & l' & -> & Hl & Hk & Ht1 & Hl' & R & Hin).
  exists b, (take (Z.to_nat (f (Z.of_nat t))) th'), l'. split_and!; [done..|].
  rewrite (proj1 (rs_static _ _ _ R)), (rs_create _ _ _ R Hk). destruct t as [|t].
  - right; left. destruct (wf_init g Hg) as (i & li & Hi & Hli & Hki). apply init_head in Hi as (th0 & Hth0 & H0).
    rewrite Hth in Hth0. injection Hth0 as <-. injection H0 as ->. congruence.
  - destruct (ct_stay _ _ _ Hc (S t) b th' l) as [Hf|Hcr]; [lia|done|done| |by right; right].
    left. destruct (ct_fits _ _ _ Hc) as [Hlen _]. specialize (Hlen _ _ Hth). cbn [length] in Hlen.
    intros Hn0%(f_equal length). rewrite length_take in Hn0. cbn [length] in Hn0. lia.
Qed.

Lemma restricts_begins : begins g1.
Proof.
  intros t th Ht. assert (is_Some (events g !! t)) as [th0 Ht0].
  { rewrite Hev, list_lookup_fmap in Ht. destruct (events g !! t); [by eexists|done]. }
  destruct (cut_begin t th0 Ht0) as (b & th' & l & l' & -> & Hl & Hk & Ht1 & Hl' & R & Hin).
  rewrite Ht in Ht1. injection Ht1 as ->. exists b, l'. split_and!; [done..|]. by rewrite (proj1 (rs_static _ _ _ R)).
Qed.

Lemma remove_begins_restricts : exists g2,
  remove_begins (reverse (seqZ 0 (getNumThreads g1))) g1 = Ok g2 /\ restricts (stays f n g) g g2.
Proof.
  pose proof (restricts_wf K g g1 Hg Hr) as Hg1. pose proof (ct_n _ _ _ Hc) as Hn.
  assert (length (events g1) = length (events g)) as Hlen by (by rewrite Hev, length_map).
  destruct (remove_begins_ok g1 Hg1 restricts_begins n g1 cut_stuck (length (events g1) - n)) as (g2 & E & Hbg).
  { replace (n + (length (events g1) - n))%nat with (length (events g1)) by lia. by apply begun_start. }
  { intros t Ht. apply cut_orphans. lia. }
  exists g2. split.
  { rewrite <- E. unfold getNumThreads. do 3 f_equal. lia. }
  unfold stays. apply (restricts_trans K (below n g) g g1 g2 Hg Hr).
  - apply (begun_restricts g1 Hg1 restricts_begins n); try done; [lia|apply cut_orphans|exact (restricts_no_dangling K g g1 Hg Hr (ct_links f n g Hc))|].
    intros x l' Hx Hl'. destruct (r_store_inv K g g1 x l' Hg Hr Hx Hl') as (l & Hx0 & HK & Hl & R).
    unfold below. rewrite Hl. by destruct (rs_static _ _ _ R) as (_ & -> & _).
  - intros x Hx _. by apply (bg_none _ _ _ Hbg).
Qed.
End cut.

Lemma cut_spec {V} `{VectorClock V} (v : V) f n g : prefix_clock v f -> wf g -> cuttable f n g ->
  exists g', cut v g = Ok g' /\ restricts (stays f n g) g g' /\
    timestamp g' = wrap 32 (Z.of_nat (length (insertionOrder g'))) /\
    forall k x, insertionOrder g' !! k = Some x ->
      exists l, store g' !! x = Some l /\ stamp l = Some (wrap 32 (Z.of_nat k)).
Proof.
  intros Hv Hg Hc.
  destruct (cut_labels_ok v f Hv g Hg (ct_fits _ _ _ Hc) (ct_begins _ _ _ Hc) (ct_init _ _ _ Hc) (ct_frees _ _ _ Hc)
    (ct_links _ _ _ Hc)) as (g1 & E1 & Hr & Hev).
  destruct (remove_begins_restricts v f Hv n g Hg Hc g1 Hr Hev) as (g2 & E2 & Hr2).
  exists (fix_stamps g2). split; [|by apply fix_stamps_ok].
  unfold cut. rewrite E1. cbn [mbind res_bind]. by rewrite E2.
Qed.

(** ** The view of a stamp *)
Lemma view_prefix_clock vs v x : View.wf vs -> View.views vs !! v = Some x ->
  prefix_clock (vs, v) (View.clk vs v).
Proof.
  intros Hs Hx. split; cbn.
  - destruct (View.clk_size vs v x 0 Hs Hx) as (n & E & Hn & _). exists n. split_and!; [done|done| |].
    + intros t Ht. destruct (View.clk_size vs v x t Hs Hx) as (n' & E' & _ & Hz).
      rewrite E in E'. injection E' as <-. by apply Hz.
    + by apply (View.clk_size_tight vs v x).
  - intros t Ht. by apply (View.getMax_ok vs v x).
  - intros e He. by apply (View.contains_ok vs v x).
  - intros t Ht. unfold View.clk. rewrite Hx. unfold View.view_clock.
    pose proof (View.base_clock_nonneg vs (View.base_ x) t Hs). lia.
Qed.

Lemma prefix_clock_ext {V} `{VectorClock V} (v : V) f f' : (forall t, 0 <= t -> f t = f' t) ->
  prefix_clock v f -> prefix_clock v f'.
Proof.
  intros E [(n & En & Hn & Hz & Hl) Hm Hc Hp]. split.
  - exists n. split_and!; [done|done| |].
    + intros t Ht. rewrite <- E by lia. auto.
    + destruct (decide (n = 0)); [by left|]. rewrite <- E by lia. tauto.
  - intros t Ht. rewrite <- E by done. auto.
  - intros e He. rewrite <- E by done. auto.
  - intros t Ht. rewrite <- E by done. auto.
Qed.

(** The label was added no later than [st]. *)
Definition stamped (st : Stamp.t) (g : t) (x : lid) : bool :=
  match store g !! x with Some l => match stamp l with Some s => s <=? st | None => false end | None => false end.
(** The last index of a list where [P] holds, -1 if there is none. *)
Fixpoint last_index (P : lid -> bool) (th : list lid) : Z :=
  match th with
  | [] => -1
  | x :: th => let r := last_index P th in if 0 <=? r then r + 1 else if P x then 0 else -1
  end.
Definition stamp_clock (st : Stamp.t) (g : t) (t : Z) : Z :=
  match events g !! Z.to_nat t with Some th => Z.max 0 (last_index (stamped st g) th) | None => 0 end.

Lemma last_index_snoc P th x :
  last_index P (th ++ [x]) = if P x then Z.of_nat (length th) else last_index P th.
Proof.
  induction th as [|y th IH]; cbn [app last_index length]; [done|]. rewrite IH.
  destruct (P x); [|done]. replace (0 <=? Z.of_nat (length th)) with true by lia. lia.
Qed.
Lemma last_index_bound P th : -1 <= last_index P th < Z.of_nat (length th) \/ th = [] /\ last_index P th = -1.
Proof.
  induction th as [|y th IH]; [by right|left]. cbn [last_index length].
  destruct (0 <=? last_index P th) eqn:E; [|destruct (P y)]; lia.
Qed.

(** All labels have stamps. *)
Definition all_stamped (g : t) : Prop :=
  forall x l, in_graph g x -> store g !! x = Some l -> is_Some (stamp l).

Lemma last_stamped_ok st g t th : wf g -> all_stamped g -> events g !! t = Some th ->
  forall m, (m <= length th)%nat ->
  last_stamped st g (Z.of_nat t) (reverse (seqZ 0 (Z.of_nat m))) =
    Ok (let r := last_index (stamped st g) (take m th) in if 0 <=? r then Some r else None).
Proof.
  intros Hg Hs Ht m. induction m as [|m IH]; intros Hm; [done|].
  destruct (lookup_lt_is_Some_2 th m) as [x Hx]; [lia|]. destruct (wf_pos g Hg t th m x Ht Hx) as (l & Hl & Hp).
  destruct (Hs x l) as [s Hst]; [apply elem_concat; eauto|done|].
  rewrite seqZ_S, reverse_app, Z.add_0_l. cbn [reverse rev_append app last_stamped].
  pose proof (getEventLabel_pos g t th m x Ht Hx) as Ex. rewrite Ex.
  cbn [mbind res_bind]. rewrite (label_ok _ _ _ Hl). cbn [mbind res_bind]. unfold getStamp. rewrite Hst. cbn [deref mbind res_bind].
  rewrite (take_S_r _ _ _ Hx), last_index_snoc, length_take, Nat.min_l by lia.
  assert (stamped st g x = (s <=? st)) as -> by (unfold stamped; by rewrite Hl, Hst).
  destruct (s <=? st) eqn:E.
  - cbn zeta. replace (0 <=? Z.of_nat m) with true by lia. done.
  - apply IH. lia.
Qed.

(** [getViewFromStamp] after [m] threads. *)
Lemma getViewFromStamp_fold dbg st g vs v : wf g -> all_stamped g -> View.wf vs ->
  forall m, (m <= length (events g))%nat -> exists vs',
  foldM (fun vs i =>
    n ← getThreadSize g i; o ← last_stamped st g i (reverse (seqZ 0 n));
    match o with Some j => View.setMax dbg vs v (Event.Event i j) | None => Ok vs end)
    (View.create vs v) (seqZ 0 (Z.of_nat m)) = Ok vs' /\
  View.building vs' v /\
  View.good vs v (fun t => if decide (t < Z.of_nat m) then stamp_clock st g t else 0) vs'.
Proof.
  intros Hg Hs Hvs m. induction m as [|m IH]; intros Hm.
  { destruct (View.create_building vs v Hvs) as [Hb Hgood]. exists (View.create vs v). split_and!; [done..|].
    eapply View.good_ext; [|exact Hgood]. intros t Ht. by rewrite decide_False by lia. }
  destruct IH as (vs1 & E & Hb & Hgood); [lia|]. rewrite seqZ_S, foldM_app, E. cbn [mbind res_bind foldM]. rewrite Z.add_0_l.
  destruct (lookup_lt_is_Some_2 (events g) m) as [th Hth]; [lia|].
  unfold getThreadSize. rewrite (vec_at_ok _ _ _ Hth). cbn [mbind res_bind].
  rewrite (last_stamped_ok st g m th Hg Hs Hth (length th) ltac:(lia)), take_ge by lia. cbn [mbind res_bind].
  assert (stamp_clock st g (Z.of_nat m) = Z.max 0 (last_index (stamped st g) th)) as Em
    by (unfold stamp_clock; by rewrite Nat2Z.id, Hth).
  assert (forall f, (forall t, 0 <= t -> f t = if decide (t = Z.of_nat m) then stamp_clock st g t
             else if decide (t < Z.of_nat m) then stamp_clock st g t else 0) ->
          forall t, 0 <= t -> f t = if decide (t < Z.of_nat (S m)) then stamp_clock st g t else 0) as Hx.
  { intros f Hf t Ht. rewrite Hf by done. repeat case_decide; try done; lia. }
  destruct (0 <=? last_index (stamped st g) th) eqn:E0.
  - destruct (View.setMax_building dbg vs1 v (Event.Event (Z.of_nat m) (last_index (stamped st g) th)))
      as (vs2 & -> & Hg2 & Hb2); [apply Hgood|done|cbn; lia|cbn; lia|]. cbn [mbind res_bind]. exists vs2.
    split_and!; [done..|]. eapply View.good_trans; [exact Hgood|]. eapply View.good_ext; [|exact Hg2].
    apply Hx. intros t Ht. unfold View.setf. cbn. case_decide; [subst; lia|].
    destruct Hgood as (_ & _ & Hclk & _). by rewrite Hclk.
  - exists vs1. split_and!; [done..|]. eapply View.good_ext; [|exact Hgood].
    apply Hx. intros t Ht. cbn beta. destruct (decide (t = Z.of_nat m)) as [->|]; [|done].
    rewrite decide_False by lia. lia.
Qed.

Lemma getViewFromStamp_spec dbg st g vs v : wf g -> all_stamped g -> View.wf vs -> exists vs',
  getViewFromStamp dbg st g vs v = Ok vs' /\ View.wf vs' /\ prefix_clock (vs', v) (stamp_clock st g) /\
  forall w, w <> v -> View.views vs' !! w = View.views vs !! w /\ forall t, View.clk vs' w t = View.clk vs w t.
Proof.
  intros Hg Hs Hvs. destruct (getViewFromStamp_fold dbg st g vs v Hg Hs Hvs (length (events g)) ltac:(lia))
    as (vs' & E & _ & Hwf & [x Hx] & Hclk & Hv & Hc).
  exists vs'. split_and!; [exact E|done| |by split; auto].
  apply (prefix_clock_ext _ (View.clk vs' v)); [|by apply (view_prefix_clock vs' v x)].
  intros t Ht. rewrite Hclk by done. case_decide; [done|]. unfold stamp_clock. by rewrite lookup_ge_None_2 by lia.
Qed.

(** Labels are added to a thread in the order of their stamps. *)
Definition stamps_grow (g : t) : Prop :=
  forall t th k k' x x' st, events g !! t = Some th -> th !! k = Some x -> th !! k' = Some x' -> (k <= k')%nat ->
    stamped st g x' = true -> stamped st g x = true.

Lemma last_index_spec P th k x : th !! k = Some x ->
  (forall k' y, th !! k' = Some y -> (k <= k')%nat -> P y = true -> P x = true) ->
  Z.of_nat k <= last_index P th <-> P x = true.
Proof.
  revert k. induction th as [|y th IH]; intros k Hk Hm; [done|]. cbn [last_index]. destruct k as [|k].
  - injection Hk as ->. destruct (0 <=? last_index P th) eqn:E; [|destruct (P x); lia].
    split; [|lia]. intros _. clear IH. assert (exists k' y, th !! k' = Some y /\ P y = true) as (k' & y & Hk' & Hy).
    { revert E. clear Hm. induction th as [|z th IH]; cbn; [done|]. destruct (0 <=? last_index P th) eqn:E'.
      - destruct IH as (k' & y & ? & ?); [done|]. intros _. by exists (S k'), y.
      - destruct (P z) eqn:Ez; [|done]. intros _. by exists 0%nat, z. }
    by apply (Hm (S k') y); [|lia|].
  - cbn in Hk. rewrite <- (IH k Hk) by (intros k' z Hk' Hle; apply (Hm (S k') z Hk'); lia).
    destruct (0 <=? last_index P th) eqn:E; [lia|]. destruct (P y); lia.
Qed.

(** What is inside the view of a stamp: the labels added by then, and the begins. *)
Lemma inside_stamp st g x l : wf g -> stamps_grow g -> in_graph g x -> store g !! x = Some l ->
  inside (stamp_clock st g) g x = true <-> stamped st g x = true \/ Event.index (position l) = 0.
Proof.
  intros Hg Hs Hx Hl. destruct (in_graph_pos g Hg x Hx) as (t & th & k & l' & Ht & Hk & Hl' & Hp). simplify_eq.
  unfold inside. rewrite Hl, Hp. cbn. unfold stamp_clock. rewrite Nat2Z.id, Ht.
  rewrite <- (last_index_spec (stamped st g) th k x Hk) by (intros k' y Hy Hle; by apply (Hs t th k k' x y)). lia.
Qed.

(** *** An example: a thread is created and writes; the cut goes back to before that *)
Definition cut_demo : t := run (
  g ← addLabelToGraph 2%nat (alloc 2%nat (mkThreadCreate (Event.Event 0 1) (Build_ThreadInfo 1 0 0 SVal.default (-1)) noDeps) (initial 1%nat));
  g ← addLabelToGraph 3%nat (alloc 3%nat (mkThreadStart (Event.Event 1 0) (Event.Event 0 1) (Some 2%nat) noThreadInfo (-1)) (addNewThread g));
  g ← addLabelToGraph 4%nat (alloc 4%nat (mkWrite Kind.Write (Event.Event 1 1) MemOrdering.Release demo_addr 4 (SVal.ofValue 42) WriteAttr_None noDeps) g);
  g ← addCo 4%nat 1%nat g;
  g ← addLabelToGraph 5%nat (alloc 5%nat (mkRead Kind.Read (Event.Event 0 2) MemOrdering.Acquire demo_addr 4 None None noDeps) g);
  setRf 5%nat (Some 4%nat) g).

(** Statements about the labels of a concrete graph, by evaluation. *)
Definition all_labels (P : lid -> EventLabel.t -> bool) (g : t) : bool :=
  forallb (fun x => match store g !! x with Some l => P x l | None => false end) (concat (events g)).
Lemma all_labels_spec P g : all_labels P g = true ->
  forall x l, in_graph g x -> store g !! x = Some l -> P x l = true.
Proof.
  unfold all_labels. rewrite forallb_forall. intros Hall x l Hx Hl.
  specialize (Hall x (proj1 (list_elem_of_In _ _) Hx)). by rewrite Hl in Hall.
Qed.
Definition link_ok (g : t) (j : lid) : bool :=
  bool_decide (j ∈ concat (events g)) &&
  match store g !! j with Some l => negb (Class.isThreadStart (kind l)) | None => false end.

Lemma cut_demo_wf : wf cut_demo.
Proof.
  assert (reachable cut_demo) as (i & g0 & E & Hs).
  { exists 1%nat, (initial 1%nat). split; [apply new_graph_initial|].
    eapply rtc_l; [eapply (step_add _ 2%nat (mkThreadCreate (Event.Event 0 1) (Build_ThreadInfo 1 0 0 SVal.default (-1)) noDeps)
      0%nat [1%nat] 1%nat (fun _ => False)); first [check|by split|apply (slot_end _ _ [1%nat])]|].
    eapply rtc_l; [apply step_thread|].
    eapply rtc_l; [eapply (step_add _ 3%nat (mkThreadStart (Event.Event 1 0) (Event.Event 0 1) (Some 2%nat) noThreadInfo (-1))
      1%nat [] 0%nat (fun _ => False)); first [check|by split|apply (slot_end _ _ [])]|].
    eapply rtc_l; [eapply (step_add _ 4%nat (mkWrite Kind.Write (Event.Event 1 1) MemOrdering.Release demo_addr 4 (SVal.ofValue 42) WriteAttr_None noDeps)
      1%nat [3%nat] 1%nat (fun _ => False)); first [check|by split|apply (slot_end _ _ [3%nat])]|].
    eapply rtc_l; [eapply (step_addCo _ 4%nat _ 1%nat None); try check; [check_in|by apply not_elem_of_check; vm_compute|];
      eexists; split; vm_compute; reflexivity|].
    eapply rtc_l; [eapply (step_add _ 5%nat (mkRead Kind.Read (Event.Event 0 2) MemOrdering.Acquire demo_addr 4 None None noDeps)
      0%nat [1%nat; 2%nat] 2%nat (fun _ => False)); first [check|by split|apply (slot_end _ _ [1%nat; 2%nat])]|].
    apply rtc_once. eapply (step_setRf _ 5%nat _ (Some 4%nat)); try check; [check_in|].
    intros w [= <-]. split; [check_in|]. eexists. split; [vm_compute; reflexivity|by left]. }
  rewrite new_graph_initial in E. injection E as <-.
  pose proof (initial_wf i) as Hwf. induction Hs as [|g1 g2 g3 Hs _ IH]; [done|]. apply IH. by eapply step_wf.
Qed.

Lemma cut_demo_events : events cut_demo = [[1; 2; 5]; [3; 4]]%nat.
Proof. check. Qed.
Lemma cut_demo_threads t th : events cut_demo !! t = Some th ->
  t = 0%nat /\ th = [1; 2; 5]%nat \/ t = 1%nat /\ th = [3; 4]%nat.
Proof.
  rewrite cut_demo_events. destruct t as [|[|t]]; cbn; intros Ht; [left|right|done]; split; congruence.
Qed.

Lemma cut_demo_cuttable : cuttable (stamp_clock 0 cut_demo) 1 cut_demo.
Proof.
  split.
  - split; [|intros t Ht; unfold stamp_clock; by rewrite lookup_ge_None_2 by lia].
    intros t th [[-> ->]|[-> ->]]%cut_demo_threads; check.
  - intros t th [[-> ->]|[-> ->]]%cut_demo_threads; eexists _, _; split_and!; vm_compute; reflexivity.
  - intros x l Hx Hl Hi. apply isKind_spec in Hi.
    pose proof (all_labels_spec (fun x l => negb (Class.isKind Kind.Init (kind l)) || bool_decide (getInitLabel cut_demo = Ok x))
      cut_demo ltac:(check) x l Hx Hl) as H. cbv beta in H. rewrite Hi in H. by apply bool_decide_eq_true in H.
  - intros x l Hx _ Hl Hk.
    pose proof (all_labels_spec (fun x l => negb (Class.isFree (kind l))) cut_demo ltac:(check) x l Hx Hl) as H.
    cbv beta in H. by rewrite Hk in H.
  - intros x l j Hx Hl Hj Hr Hw.
    pose proof (all_labels_spec (fun x l => Class.isRead (kind l) || Class.isWrite (kind l) || forallb (link_ok cut_demo) (links l))
      cut_demo ltac:(check) x l Hx Hl) as H. cbv beta in H. rewrite Hr, Hw in H. cbn [orb] in H. rewrite forallb_forall in H.
    specialize (H j (proj1 (list_elem_of_In _ _) Hj)). unfold link_ok in H. apply andb_true_iff in H as [H1 H2].
    split; [by apply bool_decide_eq_true in H1|]. destruct (store cut_demo !! j) as [lj|]; [|done].
    exists lj. split; [done|]. by apply negb_true_iff.
  - vm_compute. lia.
  - intros t b th l Hle [[-> E]|[-> E]]%cut_demo_threads Hl; [lia|]. injection E as -> ->.
    assert (store cut_demo !! 3%nat = Some l) as Hl' by exact Hl. clear Hl. vm_compute in Hl'. injection Hl' as <-.
    split_and!; [check..|by left].
  - intros t b th l Ht. lia.
Qed.

Lemma stamped_at st g x n : (l ← store g !! x; stamp l) = Some n -> stamped st g x = (n <=? st).
Proof. unfold stamped. destruct (store g !! x) as [l|]; cbn; [|done]. by intros ->. Qed.

Lemma cut_demo_stamps : all_stamped cut_demo /\ stamps_grow cut_demo.
Proof.
  split.
  - intros x l Hx Hl. pose proof (all_labels_spec (fun x l => hasStamp l) cut_demo ltac:(check) x l Hx Hl) as H.
    by apply bool_decide_eq_true in H.
  - intros t th k k' x x' st Ht Hk Hk' Hle.
    assert (exists n, stamped st cut_demo x = (n <=? st) /\ exists n', stamped st cut_demo x' = (n' <=? st) /\ n <= n')
      as (n & -> & n' & -> & ?); [|lia].
    apply cut_demo_threads in Ht as [[-> ->]|[-> ->]].
    + destruct k' as [|[|[|k']]]; cbn in Hk'; simplify_eq; destruct k as [|[|[|k]]]; cbn in Hk; simplify_eq; try lia;
        (eexists; split; [apply stamped_at; vm_compute; reflexivity|]; eexists; split; [apply stamped_at; vm_compute; reflexivity|]); lia.
    + destruct k' as [|[|k']]; cbn in Hk'; simplify_eq; destruct k as [|[|k]]; cbn in Hk; simplify_eq; try lia;
        (eexists; split; [apply stamped_at; vm_compute; reflexivity|]; eexists; split; [apply stamped_at; vm_compute; reflexivity|]); lia.
Qed.

(** ** Theorems *)

(** a graph that is cut to any clock implementing prefixes of its threads is the
    restriction of the graph to these prefixes: exactly their labels stay, in the
    same positions and orders, with the same contents; the links between them stay,
    the links to removed labels are reset; coherence, readers, recorded accesses and
    insertion order are restricted; the threads left without a creator are gone; the
    result is well-formed, and its stamps are 0, 1, 2, ... in insertion order. *)
Theorem cut_correct {V : Type} `{VectorClock V} (v : V) (f : Z -> Z) (n : nat) (g : t) :
  prefix_clock v f -> wf g -> cuttable f n g ->
  exists g', cut v g = Ok g' /\ wf g' /\ restricts (stays f n g) g g' /\
    timestamp g' = wrap 32 (Z.of_nat (length (insertionOrder g'))) /\
    forall k x, insertionOrder g' !! k = Some x ->
      exists l, store g' !! x = Some l /\ stamp l = Some (wrap 32 (Z.of_nat k)).
Proof.
  intros Hv Hg Hc. destruct (cut_spec v f n g Hv Hg Hc) as (g' & E & Hr & Ht & Hs).
  exists g'. split_and!; try done. by apply (restricts_wf (stays f n g) g g').
Qed.

Lemma cut_correct_witness : exists v g', prefix_clock v (stamp_clock 0 cut_demo) /\ cut v cut_demo = Ok g' /\ wf g'.
Proof.
  destruct (getViewFromStamp_spec true 0 cut_demo View.empty_store 1%positive cut_demo_wf (proj1 cut_demo_stamps)
    (proj1 View.empty_store_ok)) as (vs & _ & _ & Hv & _).
  destruct (cut_correct _ _ 1 cut_demo Hv cut_demo_wf cut_demo_cuttable) as (g' & E & Hwf & _).
  exists (vs, 1%positive), g'. split_and!; [exact Hv|exact E|exact Hwf].
Defined.

(** C28: [cutToStamp] goes back to the moment [st].  On a well-formed graph whose labels
    were stamped in program order, and that is [cuttable] at the moment, the labels that
    stay are those added no later than [st], and the begins of the threads that were
    created by then; the result is well-formed and the restriction of the graph to them.
    A graph is cuttable if each thread has its begin, links point to labels of the graph,
    the threads that were created later are the last ones, and every deallocation that
    stays is at an address with an access that stays: where it is not,
    [cut_forgets_free] shows that the result records less than the restriction.  The
    view is built by [getViewFromStamp] in any view store, with or without assertions. *)
Theorem cutToStamp_correct (dbg : bool) (st : Stamp.t) (g : t) (vs : View.store) (v : View.vid) (n : nat) :
  wf g -> View.wf vs -> all_stamped g -> stamps_grow g -> cuttable (stamp_clock st g) n g ->
  exists g', cutToStamp dbg st g vs v = Ok g' /\ wf g' /\ restricts (stays (stamp_clock st g) n g) g g' /\
    forall x l, store g !! x = Some l ->
      (in_graph g' x <-> in_graph g x /\ Event.thread (position l) < Z.of_nat n /\
                        (stamped st g x = true \/ Event.index (position l) = 0)).
Proof.
  intros Hg Hvs Hs Hgrow Hc.
  destruct (getViewFromStamp_spec dbg st g vs v Hg Hs Hvs) as (vs' & E & _ & Hv & _).
  destruct (cut_spec (vs', v) _ n g Hv Hg Hc) as (g' & E' & Hr & _).
  exists g'. unfold cutToStamp. rewrite E. split_and!; [done|by apply (restricts_wf (stays (stamp_clock st g) n g) g g')|done|].
  intros x l Hl. rewrite (r_in _ _ _ Hr). unfold stays, below. rewrite Hl, andb_true_iff. split.
  - intros (Hx & Hi & Hb). apply (inside_stamp st g x l Hg Hgrow Hx Hl) in Hi. split_and!; [done|lia|done].
  - intros (Hx & Hb & Hi). apply (inside_stamp st g x l Hg Hgrow Hx Hl) in Hi. split_and!; [done|done|lia].
Qed.
Lemma cutToStamp_correct_witness : exists g', cutToStamp true 0 cut_demo View.empty_store 1%positive = Ok g' /\ wf g'.
Proof.
  destruct (cutToStamp_correct true 0 cut_demo View.empty_store 1%positive 1 cut_demo_wf (proj1 View.empty_store_ok)
    (proj1 cut_demo_stamps) (proj2 cut_demo_stamps) cut_demo_cuttable) as (g' & E & Hwf & _).
  exists g'. split; [exact E|exact Hwf].
Defined.

(** A deallocation that stays while all accesses to its location go: the recorded
    accesses of the location are erased with it. *)
Definition free_demo : t := run (
  g ← addLabelToGraph 2%nat (alloc 2%nat (mkMemLifecycle Kind.Free (Event.Event 0 1) demo_addr 4 noDeps) (initial 1%nat));
  addLabelToGraph 3%nat (alloc 3%nat (mkWrite Kind.Write (Event.Event 0 2) MemOrdering.Release demo_addr 4 (SVal.ofValue 42) WriteAttr_None noDeps) g)).
Lemma cut_forgets_free :
  (g ← cutToStamp true 1 free_demo View.empty_store 1%positive; Ok (events g, accessMap_ g !! demo_addr)) = Ok ([[1; 2]%nat], None).
Proof. check. Qed.

End Cut.
