(* ===== verification/Copy.v ===== *)
(** * Copying a part of a graph

    Models [copyGraphUpTo] and [getCopyUpTo] of Execution/ExecutionGraph.cpp, with which
    the driver makes the graph of a backward revisit.  Labels are cloned, so that the
    pointers of a clone lead into the old graph until the last phase redirects them.  A
    clone has, in the store of the new graph, the identity that its original has in the
    store of the old one. *)

From S2P Require Import Prelude Values Addresses Events VSet Views Labels Graph Relations Cut.
Import EventLabel Graph Cut.
Local Open Scope Z_scope.

Module Copy.

(** The copy constructors of intrusive lists make empty ones. *)
Definition clone (l : EventLabel.t) : EventLabel.t :=
  with_readerList [] (with_initRfs ((fun _ => []) <$> initRfs l) l).

Section copy.
Context {V : Type} `{VectorClock V} (this : Graph.t) (v : V).

(** ** Adding clones *)
Definition add_clone (e : Event.t) (other : Graph.t) : res (Graph.t * lid) :=
  i ← getEventLabel this e; l ← label this i;
  other ← addLabelToGraph i (alloc i (clone l) other); Ok (other, i).
(** The place holder for an event that a clock with holes does not contain. *)
Definition add_hole (e : Event.t) (other : Graph.t) : res Graph.t :=
  i ← getEventLabel this e; addLabelToGraph i (alloc i (mkEmpty e) other).
Definition copy_event (other : Graph.t) (e : Event.t) : res Graph.t :=
  b ← vc_contains v e;
  if negb b then add_hole e other else
  '(other, i) ← add_clone e other;
  l ← label other i;
  other ← (if Class.isWrite (kind l) then
      rs ← erase_if (outside v this) (readerList l); Ok (upd i (with_readerList rs) other)
    else Ok other);
  if Class.isMemAccess (kind l) then trackCoherenceAtLoc (getAddr l) other else Ok other.
Definition copy_thread (other : Graph.t) (i : Z) : res Graph.t :=
  other ← (if i =? 0 then Ok other else r ← add_clone (Event.Event i 0) other; Ok r.1);
  m ← vc_getMax v i;
  foldM (fun other j => copy_event other (Event.Event i j)) other (seqZ 1 m).
(** [events.resize(n)] *)
Definition resize {A} (n : Z) (l : list (list A)) : list (list A) := take (Z.to_nat n) (l ++ replicate (Z.to_nat n - length l) []).

(** ** Begins of threads that have not been created *)
Fixpoint clean_begins (ids : list Z) (other : Graph.t) : res Graph.t :=
  match ids with
  | [] => Ok other
  | i :: ids =>
      n ← getThreadSize other i;
      if negb (n =? 1) then Ok other else
      o ← getFirstThreadLabel other i; b ← deref o; l ← label other b;
      if Class.isKind Kind.Init (kind l) then Ok other else
      gone ← match createLab l with
        | None => Ok true
        | Some c => lc ← label this c; Ok (negb (containsPos other (position lc)))
        end;
      other ← (if (gone : bool) then
          other ← remove_begin i b l other;
          ok ← (if getNumThreads other - 1 <=? i then Ok true else n ← getThreadSize other (i + 1); Ok (n <=? 0));
          verify ok;; Ok other
        else Ok other);
      clean_begins ids other
  end.

(** ** Insertion order *)
Definition reinsert (other : Graph.t) (x : lid) : res Graph.t :=
  l ← label this x;
  if containsPos other (position l) then
    y ← getEventLabel other (position l);
    Ok (set_timestamp (Stamp.incr (timestamp other)) (upd y (with_stamp (Some (timestamp other)))
      (set_insertionOrder (insertionOrder other ++ [y]) other)))
  else Ok other.

(** ** Pointers *)
(** The label of the new graph that stands for a label of the old one. *)
Definition counterpart (other : Graph.t) (j : lid) : res lid := l ← label this j; getEventLabel other (position l).
Definition redirect (other : Graph.t) (o : option lid) : res (option lid) :=
  match o with
  | None => Ok None
  | Some j => b ← outside v this j; if (b : bool) then Ok None else y ← counterpart other j; Ok (Some y)
  end.
Definition redirect_as (c : Kind.t -> bool) (other : Graph.t) (o : option lid) : res (option lid) :=
  r ← redirect other o; dyn_cast_if_present c other r.
(** [linPreds_.push_back], with the assertion that it is new. *)
Definition add_linked (c : Kind.t -> bool) (get : EventLabel.t -> list lid) (set : list lid -> EventLabel.t -> EventLabel.t) (x : lid)
    (other : Graph.t) (j : lid) : res Graph.t :=
  b ← outside v this j;
  if (b : bool) then Ok other else
  y ← counterpart other j; y ← dyn_cast c other y; y ← deref y;
  l ← label other x;
  debug_assert (bool_decide (y ∉ get l));;
  Ok (upd x (set (get l ++ [y])) other).
Definition copy_reader (w : lid) (other : Graph.t) (r : lid) : res Graph.t :=
  b ← outside v this r;
  if (b : bool) then Ok other else
  l ← label this r; o ← getReadLabel other (position l); y ← deref o; write_addReader w y other.

(** The label in the old graph with the class that its clone has. *)
Definition original (c : Kind.t -> bool) (e : Event.t) : res EventLabel.t :=
  i ← getEventLabel this e; o ← dyn_cast c this i; o ← deref o; label this o.
Definition fix_pointers (other : Graph.t) (x : lid) : res Graph.t :=
  l ← label other x;
  other ← (if Class.isRead (kind l) then
      match readsFrom l with
      | None => Ok other
      | Some _ => o ← redirect other (readsFrom l); Ok (upd x (setRfNoCascade o) other)
      end
    else Ok other);
  other ← (if Class.isWrite (kind l) then
      lo ← original Class.isWrite (position l);
      foldM (copy_reader x) (upd x (with_readerList []) other) (readerList lo)
    else Ok other);
  other ← (if Class.isThreadStart (kind l) then
      match createLab l with
      | None => Ok other
      | Some _ => o ← redirect_as (Class.isKind Kind.ThreadCreate) other (createLab l); Ok (upd x (setCreate o) other)
      end
    else Ok other);
  other ← (if Class.isKind Kind.ThreadFinish (kind l) then
      match parentJoin l with
      | None => Ok other
      | Some _ => o ← redirect_as (Class.isKind Kind.ThreadJoin) other (parentJoin l); Ok (upd x (setParentJoin o) other)
      end
    else Ok other);
  other ← (if Class.isKind Kind.MethodBegin (kind l) then
      lo ← original (Class.isKind Kind.MethodBegin) (position l);
      foldM (add_linked (Class.isKind Kind.MethodEnd) linPreds with_linPreds x) (upd x (with_linPreds []) other) (linPreds lo)
    else Ok other);
  if Class.isKind Kind.MethodEnd (kind l) then
    lo ← original (Class.isKind Kind.MethodEnd) (position l);
    foldM (add_linked (Class.isKind Kind.MethodBegin) linSuccs with_linSuccs x) (upd x (with_linSuccs []) other) (linSuccs lo)
  else Ok other.

(** ** Coherence, readers of the initializer, accesses, initial values *)
Definition if_inside (x : lid) (other : Graph.t) (k : Event.t -> res Graph.t) : res Graph.t :=
  l ← label this x; b ← vc_contains v (position l); if (b : bool) then k (position l) else Ok other.
Definition copy_write (other : Graph.t) (w : lid) : res Graph.t :=
  if_inside w other (fun e =>
    o ← getWriteLabel other e; y ← deref o;
    l ← label this w; m ← co_max other (getAddr l); addCo y m other).
Definition copy_init_reader (other : Graph.t) (r : lid) : res Graph.t :=
  if_inside r other (fun e =>
    o ← getReadLabel other e; y ← deref o; i ← getInitLabel other; init_addReader i y other).
Definition copy_access (a : SAddr.t) (other : Graph.t) (x : lid) : res Graph.t :=
  if_inside x other (fun e =>
    y ← getEventLabel other e;
    Ok (set_accessMap (<[a := list_at (accessMap_ other) a ++ [y]]> (accessMap_ other)) other)).
Definition set_initVals m (g : Graph.t) : Graph.t := Graph (store g) (events g) (timestamp g) (coherence g)
  (insertionOrder g) (poLists g) (accessMap_ g) m.
(** [insert] keeps what is there. *)
Definition copy_initVal (other : Graph.t) (entry : Z * SVal.t) : Graph.t :=
  if containsLoc other entry.1 then
    set_initVals (match initVals_ other !! entry.1 with Some _ => initVals_ other | None => <[entry.1 := entry.2]> (initVals_ other) end) other
  else other.

Definition copyGraphUpTo (other : Graph.t) : res Graph.t :=
  let other := set_poLists (resize (getNumThreads this) (poLists other)) (set_events (resize (getNumThreads this) (events other)) other) in
  other ← foldM copy_thread other (seqZ 0 (getNumThreads this));
  other ← clean_begins (reverse (seqZ 0 (getNumThreads other))) other;
  other ← foldM reinsert (set_timestamp 0 (set_insertionOrder [] other)) (insertionOrder this);
  other ← foldM fix_pointers other (insertionOrder other);
  other ← foldM (fun other e => foldM copy_write other e.2) other (map_to_list (coherence this));
  other ← foldM (fun other e =>
      i ← getInitLabel this; li ← label this i; rs ← at_loc (initRfs li) e.1; foldM copy_init_reader other rs)
    other (map_to_list (coherence this));
  other ← foldM (fun other e => xs ← at_loc (accessMap_ this) e.1; foldM (copy_access e.1) other xs)
    other (map_to_list (coherence this));
  Ok (foldl copy_initVal other (map_to_list (initVals_ this))).
(** [getCopyUpTo]: the constructor adds an initializer. *)
Definition getCopyUpTo : res Graph.t :=
  i ← getInitLabel this; other ← new_graph i; copyGraphUpTo other.
End copy.
End Copy.
