(* ===== verification/Search.v ===== *)
(** * The depth-first searches of the consistency checkers

    The checkers of Execution/Consistency search the product of an execution graph
    with an automaton.  Every state of the automaton is a member function
    [visit..._q(lab)]; the functions call each other along the edges of the
    automaton and share, per state, a vector of visit marks indexed by the stamps
    of the labels, and a counter of the accepting states on the call stack.  This
    file models that scheme once, over an abstract type of nodes, and proves what a
    search decides; [Automata] instantiates it with states and labels. *)

From stdpp Require Import relations.
From S2P Require Import Prelude.
Local Open Scope Z_scope.

Module Search.

(** [enum class NodeStatus : unsigned char { unseen, entered, left }] *)
Inductive NodeStatus := unseen | entered | left.
#[global] Instance NodeStatus_eq_dec : EqDecision NodeStatus.
Proof. solve_decision. Defined.

Record NodeVisitStatus := NodeVisit { count : Z; status : NodeStatus }.
(** [NodeVisitStatus() = default] *)
Definition fresh : NodeVisitStatus := NodeVisit 0 unseen.

(** What the member functions share: [visited..Accepting], and the vectors
    [visited.._q], all of one size; an entry that was not written is [fresh]. *)
Record memo := Memo { Accepting : Z; size : Z; visited : gmap (nat * Z) NodeVisitStatus }.
Definition set_Accepting (a : Z) (m : memo) : memo := Memo a (size m) (visited m).

(** Indexing a vector. *)
Definition node_at (m : memo) (k : nat * Z) : res NodeVisitStatus :=
  if (0 <=? k.2) && (k.2 <? size m) then Ok (default fresh (visited m !! k)) else Abort Undefined.
Definition set_node (m : memo) (k : nat * Z) (v : NodeVisitStatus) : res memo :=
  if (0 <=? k.2) && (k.2 <? size m) then Ok (Memo (Accepting m) (size m) (<[k := v]> (visited m))) else Abort Undefined.

(** A sequence of steps, any of which may end the whole visit with [return false]. *)
Fixpoint each {A S} (f : A -> S -> res (option S)) (l : list A) (s : S) : res (option S) :=
  match l with
  | [] => Ok (Some s)
  | x :: l => r ← f x s; match r with None => Ok None | Some s => each f l s end
  end.

Lemma each_ext {A S} (f h : A -> S -> res (option S)) l s : (forall x s, f x s = h x s) -> each f l s = each h l s.
Proof. intros E. revert s. induction l as [|x l IH]; intros s; [done|]. cbn. rewrite E. destruct (h x s) as [[s'|]|]; cbn; [apply IH|done..]. Qed.
Lemma each_app {A S} (f : A -> S -> res (option S)) l1 l2 s :
  each f (l1 ++ l2) s = (r ← each f l1 s; match r with None => Ok None | Some s => each f l2 s end).
Proof.
  revert s. induction l1 as [|x l1 IH]; intros s; [done|]. cbn.
  destruct (f x s) as [[s'|]|]; cbn; [apply IH|done..].
Qed.

(** One loop of a visit: the candidates it runs through; each may be filtered out by
    the guard on the target.  Guards and traversals may fail. *)
Definition loop (X : Type) := res (list (res (option X))).
Definition on_some {X S} (f : X -> S -> res (option S)) (o : res (option X)) (s : S) : res (option S) :=
  o ← o; match o with None => Ok (Some s) | Some x => f x s end.
Definition run_loop {X S} (f : X -> S -> res (option S)) (b : loop X) (s : S) : res (option S) :=
  ps ← b; each (on_some f) ps s.

(** The candidates, when nothing fails. *)
Fixpoint somes {X} (l : list (res (option X))) : res (list X) :=
  match l with
  | [] => Ok []
  | x :: l => o ← x; r ← somes l; Ok (match o with Some p => p :: r | None => r end)
  end.
Fixpoint flat {X} (bs : list (loop X)) : res (list X) :=
  match bs with
  | [] => Ok []
  | b :: bs => ps ← b; l ← somes ps; r ← flat bs; Ok (l ++ r)
  end.
Lemma each_somes {X S} (f : X -> S -> res (option S)) l ms s : somes l = Ok ms -> each (on_some f) l s = each f ms s.
Proof.
  revert ms s. induction l as [|y l IH]; intros ms s; cbn [somes]; [by intros [= <-]|].
  destruct y as [o|]; cbn [mbind res_bind]; [|done]. destruct (somes l) as [r|]; cbn [mbind res_bind]; [|done]. intros [= <-].
  destruct o as [x|]; [|by apply (IH r s)].
  cbn [each on_some mbind res_bind]. destruct (f x s) as [[s'|]|]; [by apply IH|done..].
Qed.
Lemma each_flat {X S} (f : X -> S -> res (option S)) bs ms s : flat bs = Ok ms -> each (run_loop f) bs s = each f ms s.
Proof.
  revert ms s. induction bs as [|b bs IH]; intros ms s; cbn [flat]; [by intros [= <-]|].
  destruct b as [ps|]; cbn [mbind res_bind]; [|done].
  destruct (somes ps) as [l|] eqn:El; cbn [mbind res_bind]; [|done].
  destruct (flat bs) as [r|]; cbn [mbind res_bind]; [|done]. intros [= <-].
  cbn [each]. rewrite each_app.
  change (run_loop f (Ok ps) s) with (each (on_some f) ps s). rewrite (each_somes f ps l s El).
  destruct (each _ l s) as [[s'|]|]; cbn [mbind res_bind]; [by apply IH|done..].
Qed.

Lemma filter_le {A} (P Q : A -> Prop) `{!forall x, Decision (P x), !forall x, Decision (Q x)} (l : list A) :
  (forall x, x ∈ l -> P x -> Q x) -> (length (filter P l) <= length (filter Q l))%nat.
Proof.
  induction l as [|x l IH]; intros Hl; [done|]. rewrite !filter_cons.
  assert (length (filter P l) <= length (filter Q l))%nat by (apply IH; intros y Hy; apply Hl; by right).
  pose proof (Hl x ltac:(by left)). repeat case_decide; cbn; try lia. naive_solver.
Qed.
Lemma filter_lt {A} (P Q : A -> Prop) `{!forall x, Decision (P x), !forall x, Decision (Q x)} (l : list A) y :
  (forall x, x ∈ l -> P x -> Q x) -> y ∈ l -> ~ P y -> Q y -> (length (filter P l) < length (filter Q l))%nat.
Proof.
  induction l as [|x l IH]; intros Hl Hy HP HQ; [by apply not_elem_of_nil in Hy|]. rewrite !filter_cons.
  assert (length (filter P l) <= length (filter Q l))%nat by (apply filter_le; intros z Hz; apply Hl; by right).
  pose proof (Hl x ltac:(by left)). apply elem_of_cons in Hy as [->|Hy].
  - rewrite decide_False, decide_True by done. cbn. lia.
  - specialize (IH ltac:(intros z Hz; apply Hl; by right) Hy HP HQ). repeat case_decide; cbn; try lia. naive_solver.
Qed.
(** Walks along a relation are walks along another that it implies on a closed set. *)
Lemma rtc_on {X} (P : X -> Prop) (R T : X -> X -> Prop) : (forall a b, P a -> R a b -> T a b /\ P b) ->
  forall a b, P a -> rtc R a b -> rtc T a b /\ P b.
Proof.
  intros HR a b Ha Hr. induction Hr as [a|a c b H _ IH]; [done|]. destruct (HR a c Ha H) as [HT Hc].
  destruct (IH Hc) as [HT' Hb]. split; [by eapply rtc_l|done].
Qed.
Lemma tc_on {X} (P : X -> Prop) (R T : X -> X -> Prop) : (forall a b, P a -> R a b -> T a b /\ P b) ->
  forall a b, P a -> tc R a b -> tc T a b /\ P b.
Proof.
  intros HR a b Ha Hr. induction Hr as [a b H|a c b H _ IH].
  - destruct (HR a b Ha H) as [HT Hb]. split; [by apply tc_once|done].
  - destruct (HR a c Ha H) as [HT Hc]. destruct (IH Hc) as [HT' Hb]. split; [by eapply tc_l|done].
Qed.
(** A path either avoids a point or passes it. *)
Definition away {X} (R : X -> X -> Prop) (x a b : X) : Prop := R a b /\ a <> x /\ b <> x.
Lemma tc_avoids {X} `{EqDecision X} (R : X -> X -> Prop) x a b : tc R a b -> tc (away R x) a b \/ (rtc R a x /\ rtc R x b).
Proof.
  intros H. induction H as [a b H|a c b H Hc IH].
  - destruct (decide (a = x)) as [->|Ha]; [right; split; [done|by apply rtc_once]|].
    destruct (decide (b = x)) as [->|Hb]; [right; split; [by apply rtc_once|done]|]. left. by apply tc_once.
  - destruct IH as [IH|[H1 H2]]; [|right; split; [by eapply rtc_l|done]].
    destruct (decide (a = x)) as [->|Ha]; [right; split; [done|by eapply rtc_l, tc_rtc]|].
    destruct (decide (c = x)) as [->|Hc']; [right; split; [by apply rtc_once|by apply tc_rtc]|].
    left. by eapply tc_l.
Qed.
Lemma tc_away {X} (R : X -> X -> Prop) x a b : tc (away R x) a b -> tc R a b.
Proof. intros H. induction H as [a b (H & _)|a c b (H & _) _ IH]; [by apply tc_once|by eapply tc_l]. Qed.
Lemma away_acyclic {X} (R : X -> X -> Prop) x a : ~ tc R a a -> ~ tc (away R x) a a.
Proof. intros Hn Ht. apply Hn. by eapply tc_away. Qed.
Lemma tc_through {X} `{EqDecision X} (R : X -> X -> Prop) x a : ~ tc (away R x) a a -> tc R a a -> tc R x x.
Proof.
  intros Hn Ht. destruct (tc_avoids R x a a Ht) as [?|[H1 H2]]; [done|].
  apply rtc_tc in H1 as [->|H1]; [done|]. eapply tc_rtc_l; eassumption.
Qed.

(** *** Vectors of marks *)
Section marks.
Context {N : Type} (key : N -> res (nat * Z)) (tabled : N -> bool).

(** The nodes of [U] with a vector have their own entries, within its size. *)
Record indexed (U : list N) (sz : Z) : Prop := {
  i_key n : n ∈ U -> tabled n = true -> exists k, key n = Ok k /\ 0 <= k.2 < sz;
  i_inj n n' k : n ∈ U -> n' ∈ U -> tabled n = true -> tabled n' = true -> key n = Ok k -> key n' = Ok k -> n = n'
}.

Context (U : list N) (sz : Z) (HI : indexed U sz).

Definition key' (n : N) : nat * Z := match key n with Ok k => k | Abort _ => (0%nat, 0) end.
Definition mark (m : memo) (n : N) : NodeVisitStatus := default fresh (visited m !! key' n).

Lemma key_ok n : n ∈ U -> tabled n = true -> key n = Ok (key' n) /\ (0 <=? (key' n).2) && ((key' n).2 <? sz) = true.
Proof. intros Hn Ht. destruct (i_key _ _ HI n Hn Ht) as (k & Hk & Hr). unfold key'. rewrite Hk. split; [done|lia]. Qed.
Lemma key_inj n n' : n ∈ U -> n' ∈ U -> tabled n = true -> tabled n' = true -> key' n = key' n' -> n = n'.
Proof.
  intros Hn Hn' Ht Ht' E. apply (i_inj _ _ HI n n' (key' n)); [done..|by apply key_ok|].
  rewrite E. by apply key_ok.
Qed.
Lemma node_at_ok m n : size m = sz -> n ∈ U -> tabled n = true -> node_at m (key' n) = Ok (mark m n).
Proof. intros Hs Hn Ht. unfold node_at. rewrite Hs. by rewrite (proj2 (key_ok n Hn Ht)). Qed.

Definition put (n : N) (v : NodeVisitStatus) (m : memo) : memo := Memo (Accepting m) (size m) (<[key' n := v]> (visited m)).
Lemma set_node_ok m n v : sz = size m -> n ∈ U -> tabled n = true -> set_node m (key' n) v = Ok (put n v m).
Proof. intros Hs Hn Ht. unfold set_node. pose proof (proj2 (key_ok n Hn Ht)) as E. rewrite Hs in E. by rewrite E. Qed.
Lemma mark_put n v m n' : n ∈ U -> n' ∈ U -> tabled n = true -> tabled n' = true ->
  mark (put n v m) n' = v /\ n = n' \/ mark (put n v m) n' = mark m n' /\ n <> n'.
Proof.
  intros Hn Hn' Ht Ht'. unfold mark, put. cbn. destruct (decide (key' n = key' n')) as [E|E].
  - rewrite E, lookup_insert_eq. left. split; [done|by apply key_inj].
  - rewrite lookup_insert_ne by done. right. split; [done|by intros ->].
Qed.

(** Nodes whose visit has not begun. *)
Definition todo (m : memo) : nat := length (filter (fun n => tabled n = true /\ status (mark m n) = unseen) U).
Definition grows (m m' : memo) : Prop :=
  forall n, n ∈ U -> tabled n = true -> status (mark m n) <> unseen -> status (mark m' n) <> unseen.
Lemma grows_trans m1 m2 m3 : grows m1 m2 -> grows m2 m3 -> grows m1 m3.
Proof. unfold grows. eauto. Qed.

Lemma todo_grows m m' : grows m m' -> (todo m' <= todo m)%nat.
Proof.
  intros Hg. apply filter_le. intros n Hn [Ht Hs]. split; [done|].
  destruct (decide (status (mark m n) = unseen)) as [|E]; [done|]. by destruct (Hg n Hn Ht E).
Qed.
Lemma todo_put n v m : n ∈ U -> tabled n = true -> status (mark m n) = unseen -> status v <> unseen ->
  (todo (put n v m) < todo m)%nat.
Proof.
  intros Hn Ht Hs Hv. apply (filter_lt _ _ _ n).
  - intros n' Hn' [Ht' Hs']. split; [done|]. by destruct (mark_put n v m n') as [[E ->]|[<- _]]; try done; rewrite E in Hs'.
  - done.
  - intros [_ Hs']. destruct (mark_put n v m n) as [[E _]|[_ ?]]; try done. by rewrite E in Hs'.
  - done.
Qed.
Lemma grows_put n v m : n ∈ U -> tabled n = true -> status v <> unseen -> grows m (put n v m).
Proof.
  intros Hn Ht Hv n' Hn' Ht' Hs. by destruct (mark_put n v m n') as [[-> ->]|[-> _]].
Qed.

Lemma todo_le m : (todo m <= length U)%nat.
Proof. apply length_filter. Qed.
End marks.
Arguments key_ok {N key tabled U sz} HI.
Arguments key_inj {N key tabled U sz} HI.
Arguments node_at_ok {N key tabled U sz} HI.
Arguments set_node_ok {N key tabled U sz} HI.
Arguments mark_put {N key tabled U sz} HI.
Arguments todo_put {N key tabled U sz} HI.
Arguments grows_put {N key tabled U sz} HI.
Arguments grows_trans {N key tabled U}.
Arguments todo_grows {N key tabled U}.
Arguments todo_le {N key tabled U}.

Section search.
Context {N : Type} (key : N -> res (nat * Z)) (tabled accepting : N -> bool).

(** The loops of a visit; a candidate carries the constant of the test
    [Accepting > node.count || strict]. *)
Context (branches : N -> list (loop (N * bool))).

(** The first lines of a visit: a state without a vector has none. *)
Definition enter (n : N) (m : memo) : res memo :=
  let m := if accepting n then set_Accepting (wrap 32 (Accepting m + 1)) m else m in
  if tabled n then k ← key n; set_node m k (NodeVisit (Accepting m) entered) else Ok m.
(** The last lines. *)
Definition leave (n : N) (m : memo) : res memo :=
  let m := if accepting n then set_Accepting (wrap 32 (Accepting m - 1)) m else m in
  if tabled n then k ← key n; set_node m k (NodeVisit (Accepting m) left) else Ok m.
(** The body of a loop. *)
Definition arrive (visit : N -> memo -> res (option memo)) (ps : N * bool) (m : memo) : res (option memo) :=
  let (p, strict) := ps in
  if tabled p then
    k ← key p; v ← node_at m k;
    match status v with
    | unseen => visit p m
    | entered => if (count v <? Accepting m) || strict then Ok None else Ok (Some m)
    | left => Ok (Some m)
    end
  else visit p m.

(** A visit; [None] is [return false]. *)
Fixpoint visit (fuel : nat) (n : N) (m : memo) : res (option memo) :=
  match fuel with
  | O => Abort OutOfFuel
  | S fuel =>
      m ← enter n m;
      r ← each (run_loop (arrive (visit fuel))) (branches n) m;
      match r with None => Ok None | Some m => m ← leave n m; Ok (Some m) end
  end.

(** A root of the search: a visit, unless the vector says it happened. *)
Definition root (fuel : nat) (n : N) (m : memo) : res (option memo) :=
  if tabled n then
    k ← key n; v ← node_at m k; if decide (status v = unseen) then visit fuel n m else Ok (Some m)
  else visit fuel n m.
Definition roots (fuel : nat) (ns : list N) (sz : Z) : res bool :=
  r ← each (root fuel) ns (Memo 0 sz ∅); Ok (bool_decide (is_Some r)).

(** ** What a search decides *)

(** The moves out of a node, when nothing fails. *)
Definition moves (n : N) : list (N * bool) := match flat (branches n) with Ok l => l | Abort _ => [] end.
Definition edge (a b : N) : Prop := exists s, (b, s) ∈ moves a.
(** Edges between nodes that do not accept. *)
Definition plain (a b : N) : Prop := edge a b /\ accepting a = false /\ accepting b = false.

(** The nodes of the search, its marks and its counter. *)
Record searchable (U : list N) (sz : Z) : Prop := {
  s_ok n : n ∈ U -> exists l, flat (branches n) = Ok l;
  s_closed n p s : n ∈ U -> (p, s) ∈ moves n -> p ∈ U;
  (* a state without a vector only leads to states with one *)
  s_pass n p s : n ∈ U -> tabled n = false -> (p, s) ∈ moves n -> tabled p = true;
  s_strict n p s : n ∈ U -> (p, s) ∈ moves n -> s = accepting p;
  s_accepting n : n ∈ U -> accepting n = true -> tabled n = true;
  s_indexed : indexed key tabled U sz;
  (* the counter does not wrap *)
  s_word l : NoDup l -> (forall n, n ∈ l -> n ∈ U /\ accepting n = true) -> Z.of_nat (length l) < 2 ^ 32
}.

(** *** The invariant of the search *)
Section proof.
Context (U : list N) (sz : Z) (HU : searchable U sz) (starts : list N).
#[local] Abbreviation HI := (s_indexed _ _ HU).
#[local] Abbreviation mark := (mark key).
#[local] Abbreviation put := (put key).
#[local] Abbreviation todo := (todo key tabled U).
#[local] Abbreviation grows := (grows key tabled U).

(** The accepting nodes of a call stack, the innermost call first. *)
Fixpoint acc (stk : list N) : nat := match stk with [] => 0 | n :: stk => (if accepting n then 1 else 0) + acc stk end.
Lemma acc_app s1 s2 : acc (s1 ++ s2) = (acc s1 + acc s2)%nat.
Proof. induction s1; cbn; lia. Qed.
(** Each call is made along an edge. *)
Fixpoint calls (stk : list N) : Prop :=
  match stk with n :: (c :: _) as t => edge c n /\ calls t | _ => True end.

Definition no_plain_cycle : Prop := forall n, n ∈ U -> ~ tc plain n n.
(** No infinite walk starts from [n]. *)
Definition finite_from (n : N) : Prop := Acc (fun b a => edge a b) n.

Definition reached (n : N) : Prop := exists r, r ∈ starts /\ rtc edge r n.

Record searching (m : memo) (stk : list N) : Prop := {
  h_size : size m = sz;
  h_stk n : n ∈ stk -> n ∈ U;
  h_reached n : n ∈ stk -> reached n;
  h_calls : calls stk;
  h_nodup : NoDup (filter (fun n => tabled n = true) stk);
  h_acc : Accepting m = Z.of_nat (acc stk);
  h_entered n : n ∈ U -> tabled n = true -> status (mark m n) = entered -> n ∈ stk;
  h_count s1 n s2 : stk = s1 ++ n :: s2 -> tabled n = true -> mark m n = NodeVisit (Z.of_nat (acc (n :: s2))) entered;
  h_left n : n ∈ U -> tabled n = true -> status (mark m n) = left -> no_plain_cycle -> finite_from n
}.

Lemma calls_rtc s1 t s2 : calls (s1 ++ t :: s2) -> forall a, a ∈ s1 ++ [t] -> rtc edge t a.
Proof.
  induction s1 as [|x s1 IH]; intros Hc a Ha.
  - apply list_elem_of_singleton in Ha as ->. done.
  - cbn in Ha. destruct s1 as [|y s1].
    + destruct Hc as [He _]. cbn in Ha. apply elem_of_cons in Ha as [->|Ha]; [by apply rtc_once|].
      apply list_elem_of_singleton in Ha as ->. done.
    + destruct Hc as [He Hc]. apply elem_of_cons in Ha as [->|Ha]; [|by apply IH].
      eapply rtc_r; [|exact He]. apply IH; [done|by left].
Qed.
Lemma calls_to_head s1 : forall x t, calls (x :: s1 ++ t) -> forall a, a ∈ x :: s1 -> rtc edge a x.
Proof.
  induction s1 as [|y s1 IH]; intros x t Hc a Ha.
  - apply list_elem_of_singleton in Ha as ->. done.
  - destruct Hc as [He Hc]. apply elem_of_cons in Ha as [->|Ha]; [done|].
    eapply rtc_r; [by apply (IH y t)|done].
Qed.
Lemma calls_plain s1 t s2 : calls (s1 ++ t :: s2) -> accepting t = false -> acc s1 = 0%nat ->
  match s1 with [] => True | x :: _ => tc plain t x end.
Proof.
  intros Hc Ht. induction s1 as [|x s1 IH]; [done|]. intros Ha. cbn in Ha.
  assert (Hx : accepting x = false) by (destruct (accepting x); [lia|done]).
  destruct s1 as [|y s1].
  - destruct Hc as [He _]. by apply tc_once.
  - destruct Hc as [He Hc]. eapply tc_r; [apply IH; [done|cbn in *; lia]|]. split_and!; [done| |done].
    cbn in Ha. destruct (accepting y); [lia|done].
Qed.

Lemma acc_length stk : acc stk = length (filter (fun n => accepting n = true) stk).
Proof. induction stk as [|n stk IH]; [done|]. cbn [acc]. rewrite filter_cons. destruct (accepting n); case_decide; cbn; lia. Qed.
Lemma acc_small stk : (forall n, n ∈ stk -> n ∈ U) -> NoDup (filter (fun n => tabled n = true) stk) -> Z.of_nat (acc stk) < 2 ^ 32.
Proof.
  intros Hs Hnd. rewrite acc_length. apply (s_word _ _ HU).
  - induction stk as [|n stk IH]; [constructor|]. rewrite filter_cons in *. destruct (decide (accepting n = true)) as [Ha|Ha].
    + rewrite decide_True in Hnd by (apply (s_accepting _ _ HU); [apply Hs; by left|done]).
      apply NoDup_cons in Hnd as [Hn Hnd]. apply NoDup_cons. split.
      * intros [Ha' Hin]%list_elem_of_filter. apply Hn, list_elem_of_filter. split; [|done].
        apply (s_accepting _ _ HU); [apply Hs; by left|done].
      * apply IH; [|done]. intros n' Hn'. apply Hs. by right.
    + apply IH; [|by case_decide; [apply NoDup_cons in Hnd as [_ ?]|]]. intros n' Hn'. apply Hs. by right.
  - intros n [Ha Hn]%list_elem_of_filter. eauto.
Qed.

(** *** Entering and leaving *)
Definition counted (d : Z) (n : N) (m : memo) : memo :=
  if accepting n then set_Accepting (Accepting m + d) m else m.
Lemma mark_counted d n m n' : mark (counted d n m) n' = mark m n'.
Proof. unfold counted. by destruct (accepting n). Qed.
Lemma size_counted d n m : size (counted d n m) = size m.
Proof. unfold counted. by destruct (accepting n). Qed.

Definition can_enter (m : memo) (stk : list N) (n : N) : Prop :=
  n ∈ U /\ reached n /\ (tabled n = true -> status (mark m n) = unseen) /\ calls (n :: stk).

Lemma enter_ok m stk n : searching m stk -> can_enter m stk n ->
  exists m', enter n m = Ok m' /\ searching m' (n :: stk) /\ grows m m' /\
    (if tabled n then todo m' < todo m else todo m' <= todo m)%nat.
Proof.
  intros Hm (Hn & Hr & Hun & Hc).
  assert (Hnd : NoDup (filter (fun n => tabled n = true) (n :: stk))).
  { rewrite filter_cons. case_decide as Ht; [|apply (h_nodup _ _ Hm)]. apply NoDup_cons. split; [|apply (h_nodup _ _ Hm)].
    intros [_ Hin]%list_elem_of_filter. apply list_elem_of_split in Hin as (s1 & s2 & ->).
    by rewrite (h_count _ _ Hm s1 n s2 eq_refl Ht) in Hun; specialize (Hun Ht). }
  assert (Hin : forall n', n' ∈ n :: stk -> n' ∈ U).
  { intros n' [->|Hn']%elem_of_cons; [done|by apply (h_stk _ _ Hm)]. }
  assert (Hreach : forall n', n' ∈ n :: stk -> reached n').
  { intros n' [->|Hn']%elem_of_cons; [done|by apply (h_reached _ _ Hm)]. }
  pose proof (acc_small (n :: stk) Hin Hnd) as Hw. cbn [acc] in Hw.
  assert (Ha : (if accepting n then set_Accepting (wrap 32 (Accepting m + 1)) m else m) = counted 1 n m).
  { unfold counted. rewrite (h_acc _ _ Hm). destruct (accepting n); [|done]. f_equal. rewrite wrap_small; [done|]. unfold in_word. lia. }
  assert (Hacc : Accepting (counted 1 n m) = Z.of_nat (acc (n :: stk))).
  { unfold counted. cbn [acc]. pose proof (h_acc _ _ Hm). destruct (accepting n); cbn [set_Accepting Accepting]; lia. }
  unfold enter. cbn zeta. rewrite Ha. destruct (tabled n) eqn:Ht.
  - rewrite (proj1 (key_ok HI n Hn Ht)). cbn [mbind res_bind].
    rewrite (set_node_ok HI) by (rewrite ?size_counted, ?(h_size _ _ Hm); done).
    set (v := NodeVisit (Accepting (counted 1 n m)) entered). exists (put n v (counted 1 n m)).
    assert (Hmk : forall n', n' ∈ U -> tabled n' = true -> mark (put n v (counted 1 n m)) n' = v /\ n = n' \/
      mark (put n v (counted 1 n m)) n' = mark m n' /\ n <> n').
    { intros n' Hn' Ht'. rewrite <- (mark_counted 1 n m n'). by apply (mark_put HI). }
    split_and!; [done| | |].
    + split; [by cbn; rewrite size_counted; apply (h_size _ _ Hm)|done|done|done|done|done|..].
      * intros n' Hn' Ht' Hs. destruct (Hmk n' Hn' Ht') as [[_ ->]|[E _]]; [by left|]. right.
        rewrite E in Hs. by apply (h_entered _ _ Hm).
      * intros s1 n' s2 E Ht'. destruct s1 as [|x s1]; cbn in E; injection E as <- E.
        -- destruct (Hmk n Hn Ht) as [[-> _]|[_ ?]]; [|done]. subst s2. unfold v. by rewrite Hacc.
        -- rewrite <- (h_count _ _ Hm s1 n' s2 E Ht').
           assert (Hn' : n' ∈ stk) by (rewrite E; apply elem_of_app; right; by left).
           destruct (Hmk n' (h_stk _ _ Hm n' Hn') Ht') as [[_ <-]|[-> _]]; [|done].
           rewrite filter_cons, decide_True in Hnd by done. apply NoDup_cons in Hnd as [Hnd _].
           destruct Hnd. by apply list_elem_of_filter.
      * intros n' Hn' Ht' Hs. destruct (Hmk n' Hn' Ht') as [[E _]|[E _]]; rewrite E in Hs; [done|]. by apply (h_left _ _ Hm).
    + intros n' Hn' Ht' Hs. by destruct (Hmk n' Hn' Ht') as [[-> _]|[-> _]].
    + eapply Nat.lt_le_trans; [apply (todo_put HI); [done..| |done]|].
      * rewrite mark_counted. by apply Hun.
      * unfold todo. apply filter_le. intros n' _. by rewrite mark_counted.
  - assert (accepting n = false) as Hna.
    { destruct (accepting n) eqn:E; [|done]. by rewrite (s_accepting _ _ HU n Hn E) in Ht. }
    unfold counted in *. rewrite Hna in *. exists m. split_and!; [done| |by intros ?|lia].
    destruct Hm. split; try done.
    + intros n' Hn' Ht' Hs. right. auto.
    + intros s1 n' s2 E Ht'. destruct s1 as [|x s1]; cbn in E; injection E as <- E; [congruence|]. eauto.
Qed.

Lemma leave_ok m stk n : searching m (n :: stk) -> (no_plain_cycle -> finite_from n) ->
  exists m', leave n m = Ok m' /\ searching m' stk /\ grows m m'.
Proof.
  intros Hm Hfin. pose proof (h_stk _ _ Hm n ltac:(by left)) as Hn.
  pose proof (acc_small (n :: stk) (h_stk _ _ Hm) (h_nodup _ _ Hm)) as Hw. cbn [acc] in Hw.
  pose proof (h_acc _ _ Hm) as Hacc. cbn [acc] in Hacc.
  assert (Ha : (if accepting n then set_Accepting (wrap 32 (Accepting m - 1)) m else m) = counted (-1) n m).
  { unfold counted. destruct (accepting n); [|done]. f_equal. rewrite wrap_small; [done|]. unfold in_word. lia. }
  assert (Hacc' : Accepting (counted (-1) n m) = Z.of_nat (acc stk)).
  { unfold counted. destruct (accepting n); cbn [set_Accepting Accepting]; lia. }
  assert (Hstk : forall n', n' ∈ stk -> n' ∈ U) by (intros n' Hn'; apply (h_stk _ _ Hm); by right).
  assert (Hreach : forall n', n' ∈ stk -> reached n') by (intros n' Hn'; apply (h_reached _ _ Hm); by right).
  assert (Hcalls : calls stk) by (pose proof (h_calls _ _ Hm) as Hc; destruct stk; [done|apply Hc]).
  unfold leave. cbn zeta. rewrite Ha. pose proof (h_nodup _ _ Hm) as Hnd. rewrite filter_cons in Hnd. destruct (tabled n) eqn:Ht.
  - rewrite (proj1 (key_ok HI n Hn Ht)). cbn [mbind res_bind].
    rewrite (set_node_ok HI) by (rewrite ?size_counted, ?(h_size _ _ Hm); done).
    set (v := NodeVisit (Accepting (counted (-1) n m)) left). exists (put n v (counted (-1) n m)).
    assert (Hmk : forall n', n' ∈ U -> tabled n' = true -> mark (put n v (counted (-1) n m)) n' = v /\ n = n' \/
      mark (put n v (counted (-1) n m)) n' = mark m n' /\ n <> n').
    { intros n' Hn' Ht'. rewrite <- (mark_counted (-1) n m n'). by apply (mark_put HI). }
    rewrite decide_True in Hnd by done. apply NoDup_cons in Hnd as [Hnin Hnd].
    split_and!; [done| |].
    + split; [by cbn; rewrite size_counted; apply (h_size _ _ Hm)|done..| | |].
      * intros n' Hn' Ht' Hs. destruct (Hmk n' Hn' Ht') as [[E _]|[E Hne]]; rewrite E in Hs; [done|].
        apply (h_entered _ _ Hm) in Hs; [|done..]. by apply elem_of_cons in Hs as [?|?].
      * intros s1 n' s2 E Ht'. pose proof (h_count _ _ Hm (n :: s1) n' s2 ltac:(by rewrite E) Ht') as Ec.
        assert (Hn' : n' ∈ stk) by (rewrite E; apply elem_of_app; right; by left).
        destruct (Hmk n' (Hstk n' Hn') Ht') as [[_ <-]|[-> _]]; [|done].
        destruct Hnin. by apply list_elem_of_filter.
      * intros n' Hn' Ht' Hs. destruct (Hmk n' Hn' Ht') as [[_ <-]|[E _]]; [done|]. rewrite E in Hs. by apply (h_left _ _ Hm).
    + intros n' Hn' Ht' Hs. by destruct (Hmk n' Hn' Ht') as [[-> _]|[-> _]].
  - assert (accepting n = false) as Hna.
    { destruct (accepting n) eqn:E; [|done]. by rewrite (s_accepting _ _ HU n Hn E) in Ht. }
    unfold counted in *. rewrite Hna in *. exists m. split_and!; [done| |by intros ?].
    rewrite decide_False in Hnd by congruence. destruct Hm. split; try done.
    + intros n' Hn' Ht' Hs. apply h_entered0 in Hs; [|done..]. apply elem_of_cons in Hs as [->|?]; [congruence|done].
    + intros s1 n' s2 E Ht'. apply (h_count0 (n :: s1)); [by rewrite E|done].
Qed.

(** *** Visits *)
Definition accepting_cycle : Prop := exists a, a ∈ U /\ reached a /\ accepting a = true /\ tc edge a a.

Definition outcome (m : memo) (stk : list N) (ns : list N) (r : option memo) : Prop :=
  match r with
  | None => accepting_cycle
  | Some m' => searching m' stk /\ grows m m' /\ (no_plain_cycle -> forall n, n ∈ ns -> finite_from n)
  end.

(** A move to a node of the call stack closes a cycle; the test on the counters
    says whether the cycle accepts. *)
Lemma back_edge m stk n p s : searching m (n :: stk) -> (p, s) ∈ moves n -> tabled p = true -> p ∈ n :: stk ->
  if (count (mark m p) <? Accepting m) || s then accepting_cycle else ~ no_plain_cycle.
Proof.
  intros Hm Hp Ht Hin. pose proof (h_stk _ _ Hm n ltac:(by left)) as Hn.
  assert (He : edge n p) by (by exists s). pose proof (s_strict _ _ HU n p s Hn Hp) as Hs.
  apply list_elem_of_split in Hin as (s1 & s2 & E). pose proof (h_calls _ _ Hm) as Hc.
  rewrite (h_count _ _ Hm s1 p s2 E Ht), (h_acc _ _ Hm), E, acc_app. cbn [count].
  assert (Hpn : forall a, a ∈ s1 ++ [p] -> rtc edge p a) by (rewrite E in Hc; by apply (calls_rtc _ _ s2)).
  assert (Hn1 : n ∈ s1 ++ [p]) by (destruct s1; injection E as <- _; by left).
  destruct (Z.of_nat (acc (p :: s2)) <? Z.of_nat (acc s1 + acc (p :: s2))) eqn:Ec; cbn [orb].
  - assert (exists a, a ∈ s1 /\ accepting a = true) as (a & Ha & Haa).
    { apply Z.ltb_lt in Ec. clear -Ec. induction s1 as [|x s1 IH]; cbn in Ec; [lia|].
      destruct (accepting x) eqn:Ex; [exists x; by split; [left|]|]. destruct IH as (a & Ha & ?); [cbn; lia|]. exists a. by split; [right|]. }
    assert (Hstk : a ∈ n :: stk) by (rewrite E; apply elem_of_app; by left).
    exists a. split; [by apply (h_stk _ _ Hm)|]. split; [by apply (h_reached _ _ Hm)|]. split; [done|].
    eapply tc_rtc_l; [|eapply tc_rtc_r; [by apply tc_once|apply Hpn, elem_of_app; by left]].
    destruct s1 as [|x s1]; [by apply not_elem_of_nil in Ha|]. injection E as <- E. rewrite E in Hc. by apply (calls_to_head s1 n (p :: s2)).
  - subst s. destruct (accepting p) eqn:Hap.
    + exists p. split; [by apply (s_closed _ _ HU n p true)|].
      split; [apply (h_reached _ _ Hm); rewrite E; apply elem_of_app; right; by left|]. split; [done|]. eapply tc_rtc_l; [by apply Hpn|by apply tc_once].
    + intros Hnc. apply (Hnc p); [by apply (s_closed _ _ HU n p false)|]. rewrite E in Hc.
      pose proof (calls_plain s1 p s2 Hc Hap ltac:(lia)) as Hpl. destruct s1 as [|x s1].
      * injection E as -> _. by apply tc_once.
      * injection E as <- _. eapply tc_r; [exact Hpl|]. split_and!; [done| |done]. cbn in Ec. destruct (accepting n); [lia|done].
Qed.

Lemma arrive_ok v b m stk n p s : searching m (n :: stk) -> (p, s) ∈ moves n -> (todo m <= b)%nat ->
  (forall m, searching m (n :: stk) -> can_enter m (n :: stk) p -> (todo m <= b)%nat ->
    exists r, v p m = Ok r /\ outcome m (n :: stk) [p] r) ->
  exists r, arrive v (p, s) m = Ok r /\ outcome m (n :: stk) [p] r.
Proof.
  intros Hm Hp Hb Hv. pose proof (h_stk _ _ Hm n ltac:(by left)) as Hn.
  pose proof (s_closed _ _ HU n p s Hn Hp) as HpU.
  assert (Hr : reached p).
  { destruct (h_reached _ _ Hm n ltac:(by left)) as (r & ? & ?). exists r. split; [done|]. eapply rtc_r; [done|by exists s]. }
  assert (Hc : calls (p :: n :: stk)) by (split; [by exists s|apply (h_calls _ _ Hm)]).
  unfold arrive. destruct (tabled p) eqn:Ht; [|apply Hv; [done|split; [done|split; [done|split; [congruence|done]]]|done]].
  rewrite (proj1 (key_ok HI p HpU Ht)). cbn [mbind res_bind]. rewrite (node_at_ok HI) by (first [apply (h_size _ _ Hm)|done]). cbn [mbind res_bind].
  destruct (status (mark m p)) eqn:Es.
  - apply Hv; [done|split; [done|split; [done|split; [congruence|done]]]|done].
  - pose proof (back_edge m stk n p s Hm Hp Ht (h_entered _ _ Hm p HpU Ht Es)) as Hbe.
    destruct ((count (mark m p) <? Accepting m) || s); [by exists None|]. exists (Some m).
    split; [done|]. split; [done|]. split; [by intros ?|]. intros Hnc. by destruct Hbe.
  - exists (Some m). split; [done|]. split; [done|]. split; [by intros ?|].
    intros Hnc n' ->%list_elem_of_singleton. by apply (h_left _ _ Hm).
Qed.

Lemma visit_ok fuel : forall n m stk, searching m stk -> can_enter m stk n ->
  (2 * todo m + (if tabled n then 0 else 1) <= fuel)%nat ->
  exists r, visit fuel n m = Ok r /\ outcome m stk [n] r.
Proof.
  induction fuel as [|fuel IH]; intros n m stk Hm Hce Hf.
  - destruct Hce as (Hn & _ & Hun & _). destruct (tabled n) eqn:Ht; [|lia]. exfalso.
    assert (0 < todo m)%nat; [|lia]. eapply Nat.lt_le_trans; [|apply (todo_put HI n (NodeVisit 0 left) m); auto; done]. lia.
  - cbn [visit]. pose proof (proj1 Hce) as Hn. destruct (enter_ok m stk n Hm Hce) as (m1 & -> & Hm1 & Hg1 & Htd). cbn [mbind res_bind].
    destruct (s_ok _ _ HU n Hn) as [ms Hms]. rewrite (each_flat _ _ ms _ Hms).
    assert (Hmv : forall x, x ∈ ms -> x ∈ moves n) by (unfold moves; by rewrite Hms).
    assert (Hall : forall m1, searching m1 (n :: stk) -> (todo m1 <= todo m - (if tabled n then 1 else 0))%nat ->
      exists r, each (arrive (visit fuel)) ms m1 = Ok r /\ outcome m1 (n :: stk) (map fst ms) r).
    { clear Hms m1 Hm1 Hg1 Htd. induction ms as [|[p s] ms IHms]; intros m1 Hm1 Htd; cbn [each].
      - exists (Some m1). split; [done|]. split; [done|]. split; [by intros ?|]. by intros _ ? ?%not_elem_of_nil.
      - pose proof (Hmv (p, s) ltac:(by left)) as Hp.
        destruct (arrive_ok (visit fuel) (todo m - (if tabled n then 1 else 0)) m1 stk n p s Hm1 Hp Htd) as (r & Hr & Ho).
        { intros m2 Hm2 Hce2 Ht2. apply IH; [done..|].
          pose proof (s_pass _ _ HU n p s Hn) as Hpass. destruct (tabled n) eqn:Ht; [|rewrite Hpass by done; lia].
          destruct (tabled p); [lia|]. assert (0 < todo m)%nat; [|lia].
          eapply Nat.lt_le_trans; [|apply (todo_put HI n (NodeVisit 0 left) m); [done|done| |done]; by apply Hce]. lia. }
        rewrite Hr. cbn [mbind res_bind]. destruct r as [m2|]; [|by exists None].
        destruct Ho as (Hm2 & Hg2 & Hf2). destruct (IHms ltac:(intros x Hx; apply Hmv; by right) m2 Hm2) as (r & -> & Ho).
        { pose proof (todo_grows _ _ Hg2). lia. }
        exists r. split; [done|]. destruct r as [m3|]; [|done]. destruct Ho as (Hm3 & Hg3 & Hf3).
        split; [done|]. split; [by apply (grows_trans _ m2)|]. intros Hnc n' [->|Hn']%elem_of_cons; [apply Hf2; [done|by left]|by apply Hf3]. }
    destruct (Hall m1 Hm1) as (r & -> & Ho); [destruct (tabled n); lia|]. cbn [mbind res_bind].
    destruct r as [m2|]; [|by exists None]. destruct Ho as (Hm2 & Hg2 & Hf2).
    assert (Hfin : no_plain_cycle -> finite_from n).
    { intros Hnc. constructor. intros p [s Hp]. apply Hf2; [done|]. unfold moves in Hp. rewrite Hms in Hp.
      apply list_elem_of_In, in_map_iff. exists (p, s). by split; [|apply list_elem_of_In]. }
    destruct (leave_ok m2 stk n Hm2 Hfin) as (m3 & -> & Hm3 & Hg3). cbn [mbind res_bind]. exists (Some m3).
    split; [done|]. split; [done|]. split; [by eapply grows_trans, grows_trans|].
    by intros ? ? ->%list_elem_of_singleton; apply Hfin.
Qed.

(** *** Searches *)
Lemma searching_start : searching (Memo 0 sz ∅) [].
Proof.
  split; try done.
  - by intros ? ?%not_elem_of_nil.
  - by intros ? ?%not_elem_of_nil.
  - constructor.
  - by intros [] ? ?.
Qed.

Lemma root_ok fuel m n : searching m [] -> n ∈ U -> n ∈ starts -> (2 * length U + 1 <= fuel)%nat ->
  exists r, root fuel n m = Ok r /\ outcome m [] [n] r.
Proof.
  intros Hm Hn Hr Hf. pose proof (todo_le (key := key) (tabled := tabled) (U := U) m).
  assert (Hv : (tabled n = true -> status (mark m n) = unseen) -> exists r, visit fuel n m = Ok r /\ outcome m [] [n] r).
  { intros Hs. apply visit_ok; [done|split_and!; [done|by exists n|done..]|]. destruct (tabled n); lia. }
  unfold root. destruct (tabled n) eqn:Ht; [|by apply Hv].
  rewrite (proj1 (key_ok HI n Hn Ht)). cbn [mbind res_bind]. rewrite (node_at_ok HI) by (first [apply (h_size _ _ Hm)|done]). cbn [mbind res_bind].
  case_decide as E; [by apply Hv|]. exists (Some m). split; [done|]. split; [done|]. split; [by intros ?|].
  intros Hnc n' ->%list_elem_of_singleton. destruct (status (mark m n)) eqn:Es; [done| |by apply (h_left _ _ Hm)].
  by pose proof (h_entered _ _ Hm n Hn Ht Es) as []%not_elem_of_nil.
Qed.

(** A search with enough fuel returns; [false] says that some cycle accepts; [true]
    says, when every cycle accepts, that no infinite walk starts from the roots. *)
Theorem roots_ok fuel : (forall n, n ∈ starts -> n ∈ U) -> (2 * length U + 1 <= fuel)%nat ->
  exists b, roots fuel starts sz = Ok b /\
    if b then no_plain_cycle -> forall n, n ∈ starts -> finite_from n else accepting_cycle.
Proof.
  intros Hns Hf. assert (forall ns, (forall n, n ∈ ns -> n ∈ starts) -> forall m, searching m [] -> exists r, each (root fuel) ns m = Ok r /\ outcome m [] ns r) as Hall.
  { intros ns. induction ns as [|n ns IH]; intros Hin m Hm; cbn [each].
    - exists (Some m). split; [done|]. split; [done|]. split; [by intros ?|]. by intros _ ? ?%not_elem_of_nil.
    - destruct (root_ok fuel m n Hm) as (r & -> & Ho); [apply Hns, Hin; by left|apply Hin; by left|done|]. cbn [mbind res_bind].
      destruct r as [m2|]; [|by exists None]. destruct Ho as (Hm2 & Hg2 & Hf2).
      destruct (IH ltac:(intros x Hx; apply Hin; by right) m2 Hm2) as (r & -> & Ho). exists r. split; [done|].
      destruct r as [m3|]; [|done]. destruct Ho as (Hm3 & Hg3 & Hf3). split; [done|].
      split; [by apply (grows_trans _ m2)|]. intros Hnc n' [->|Hn']%elem_of_cons; [apply Hf2; [done|by left]|by apply Hf3]. }
  unfold roots. destruct (Hall starts ltac:(done) _ searching_start) as (r & -> & Ho). cbn [mbind res_bind]. eexists. split; [done|].
  destruct r as [m|]; [|done]. rewrite bool_decide_true by (by eexists). apply Ho.
Qed.
Lemma finite_acyclic a : finite_from a -> ~ tc edge a a.
Proof.
  intros Ha. induction Ha as [a _ IH]. intros Hc. assert (exists b, edge a b /\ rtc edge b a) as (b & He & Hb).
  { inversion Hc as [? ? He|? b ? He Hb]; subst; [by exists a|]. exists b. split; [done|by apply tc_rtc]. }
  apply (IH b He). eapply tc_rtc_l; [exact Hb|by apply tc_once].
Qed.
Lemma finite_rtc r a : rtc edge r a -> finite_from r -> finite_from a.
Proof. intros Hr. induction Hr as [|r b a He _ IH]; [done|]. intros Hf. apply IH. by apply Hf. Qed.

(** When every cycle accepts, the search decides whether its roots lead to one. *)
Theorem roots_decide fuel : (forall n, n ∈ starts -> n ∈ U) -> (2 * length U + 1 <= fuel)%nat -> no_plain_cycle ->
  exists b, roots fuel starts sz = Ok b /\ (b = false <-> accepting_cycle).
Proof.
  intros Hs Hf Hnc. destruct (roots_ok fuel Hs Hf) as (b & -> & Hb). exists b. split; [done|].
  split; [by intros ->|]. intros (a & _ & (r & Hr & Hra) & _ & Ha). destruct b; [|done]. exfalso.
  apply (finite_acyclic a); [|done]. apply (finite_rtc r a); [done|by apply Hb].
Qed.

End proof.
End search.

(** ** Walks

    The other visits run through everything that the automaton reaches and act on
    the way: they test labels, or collect views.  They mark the states that have a
    vector and never look at the counter. *)
Section walk.
Context {N A S : Type} (key : N -> res (nat * Z)) (tabled : N -> bool).
Context (act : A -> S -> res (option S)).
(** What a visit does first, and its loops; the actions of a move come before the call. *)
Context (entry : N -> list A) (loops : N -> list (loop (list A * N))).

(** [if (visited[..] != NodeStatus::unseen) return true;] *)
Definition seen (n : N) (m : memo) : res bool :=
  if tabled n then k ← key n; v ← node_at m k; Ok (negb (bool_decide (status v = unseen))) else Ok false.
Definition write (n : N) (st : NodeStatus) (m : memo) : res memo :=
  if tabled n then k ← key n; set_node m k (NodeVisit 0 st) else Ok m.
Definition step_to (walk : N -> memo * S -> res (option (memo * S))) (mv : list A * N) (ms : memo * S) :
    res (option (memo * S)) :=
  r ← each act mv.1 ms.2;
  match r with
  | None => Ok None
  | Some s => b ← seen mv.2 ms.1; if (b : bool) then Ok (Some (ms.1, s)) else walk mv.2 (ms.1, s)
  end.

(** [None] is [return false]. *)
Fixpoint walk (fuel : nat) (n : N) (ms : memo * S) : res (option (memo * S)) :=
  match fuel with
  | O => Abort OutOfFuel
  | Datatypes.S fuel =>
      b ← seen n ms.1;
      if (b : bool) then Ok (Some ms) else
      m ← write n entered ms.1;
      r ← each act (entry n) ms.2;
      match r with
      | None => Ok None
      | Some s =>
          r ← each (run_loop (step_to (walk fuel))) (loops n) (m, s);
          match r with None => Ok None | Some ms => m ← write n left ms.1; Ok (Some (m, ms.2)) end
      end
  end.

(** ** What a walk does *)
Definition wmoves (n : N) : list (list A * N) := match flat (loops n) with Ok l => l | Abort _ => [] end.
Definition leads (a b : N) : Prop := exists acts, (acts, b) ∈ wmoves a.
(** The actions of a node, on entry and on its moves. *)
Definition does (n : N) (a : A) : Prop := a ∈ entry n \/ exists acts p, (acts, p) ∈ wmoves n /\ a ∈ acts.

(** The states without a vector are passed in the order of a rank. *)
Context (U : list N) (sz : Z) (rank : N -> nat) (depth : nat).
Record walkable : Prop := {
  w_ok n : n ∈ U -> exists l, flat (loops n) = Ok l;
  w_closed n acts p : n ∈ U -> (acts, p) ∈ wmoves n -> p ∈ U;
  w_pass n acts p : n ∈ U -> tabled n = false -> (acts, p) ∈ wmoves n -> tabled p = true \/ (rank p < rank n)%nat;
  w_depth n : n ∈ U -> tabled n = false -> (rank n < depth)%nat;
  w_indexed : indexed key tabled U sz
}.
Context (HU : walkable).
#[local] Abbreviation HI := (w_indexed HU).
#[local] Abbreviation mark := (mark key).
#[local] Abbreviation put := (put key).
#[local] Abbreviation todo := (todo key tabled U).
#[local] Abbreviation grows := (grows key tabled U).

(** The marks do not depend on the collected state: a walk executes a trace of
    actions and updates the marks. *)
Definition traces (f : memo * S -> res (option (memo * S))) (m : memo) (tr : list A) (m' : memo) : Prop :=
  forall s, f (m, s) = (r ← each act tr s; Ok (option_map (pair m') r)).

Lemma traces_nil m : traces (fun ms => Ok (Some ms)) m [] m.
Proof. done. Qed.
Lemma traces_seq f h m tr1 m1 tr2 m2 : traces f m tr1 m1 -> traces h m1 tr2 m2 ->
  traces (fun ms => r ← f ms; match r with None => Ok None | Some ms => h ms end) m (tr1 ++ tr2) m2.
Proof.
  intros Hf Hh s. rewrite Hf, each_app. destruct (each act tr1 s) as [[s'|]|]; cbn [mbind res_bind option_map]; [apply Hh|done..].
Qed.
Lemma traces_act acts f m tr m' : traces f m tr m' ->
  traces (fun ms => r ← each act acts ms.2; match r with None => Ok None | Some s => f (ms.1, s) end) m (acts ++ tr) m'.
Proof.
  intros Hf s. rewrite each_app. cbn [fst snd]. destruct (each act acts s) as [[s'|]|]; cbn [mbind res_bind]; [apply Hf|done..].
Qed.

(** Through states without a vector. *)
Definition via (n x : N) : Prop := rtc (fun a b => leads a b /\ tabled b = false) n x.
(** Everything that [n] does, up to the next states with a vector, is done; those
    states have been entered. *)
Definition full (m : memo) (T : list A) (n : N) : Prop := forall x, via n x ->
  (forall a, does x a -> a ∈ T) /\ forall y, leads x y -> tabled y = true -> status (mark m y) <> unseen.
Definition covered (m : memo) (T : list A) (n : N) : Prop :=
  if tabled n then status (mark m n) <> unseen else full m T n.
Definition all_full (m : memo) (T : list A) : Prop :=
  forall n, n ∈ U -> tabled n = true -> status (mark m n) = left -> full m T n.

Record passes (n : N) (l : list (list A * N)) (m : memo) (tr : list A) (m' : memo) : Prop := {
  p_size : size m' = sz;
  p_grows : grows m m';
  p_entered x : x ∈ U -> tabled x = true -> status (mark m' x) = entered -> status (mark m x) = entered;
  p_sound a : a ∈ tr -> exists x, rtc leads n x /\ does x a;
  p_full T : all_full m T -> all_full m' (T ++ tr) /\
    forall acts p, (acts, p) ∈ l -> (forall a, a ∈ acts -> a ∈ T ++ tr) /\ covered m' (T ++ tr) p
}.

Lemma full_mono m m' T T' n : n ∈ U -> grows m m' -> (forall a, a ∈ T -> a ∈ T') -> full m T n -> full m' T' n.
Proof.
  intros Hn Hg HT Hf x Hx. destruct (Hf x Hx) as [Hd Hl]. split; [by intros a Ha; apply HT, Hd|].
  intros y Hy Ht. apply Hg; [|done|by apply Hl]. destruct Hy as [acts Hy]. apply (w_closed HU x acts); [|done].
  clear Hd Hl Hy Hf. induction Hx as [|n' n'' x [[acts' He] _] _ IH]; [done|]. apply IH. by apply (w_closed HU n' acts').
Qed.
Lemma covered_mono m m' T T' n : n ∈ U -> grows m m' -> (forall a, a ∈ T -> a ∈ T') -> covered m T n -> covered m' T' n.
Proof.
  intros Hn Hg HT. unfold covered. destruct (tabled n) eqn:Ht; [by apply Hg|by apply full_mono].
Qed.
Lemma full_intro m T n : (forall a, a ∈ entry n -> a ∈ T) ->
  (forall acts p, (acts, p) ∈ wmoves n -> (forall a, a ∈ acts -> a ∈ T) /\ covered m T p) -> full m T n.
Proof.
  intros He Hm x Hx. inversion Hx as [|? p ? [[acts Hp] Ht] Hx']; subst.
  - split.
    + intros a [Ha|(acts & p & Hp & Ha)]; [by apply He|by apply (Hm acts p)].
    + intros y [acts Hy] Ht. destruct (Hm acts y Hy) as [_ Hc]. unfold covered in Hc. by rewrite Ht in Hc.
  - destruct (Hm acts p Hp) as [_ Hc]. unfold covered in Hc. rewrite Ht in Hc. by apply Hc.
Qed.

Lemma all_full_mono m T T' : (forall a, a ∈ T -> a ∈ T') -> all_full m T -> all_full m T'.
Proof. intros HT Hf n Hn Ht Hs. eapply full_mono; [done|by intros ?|done|by apply Hf]. Qed.

Lemma passes_nil n m : size m = sz -> passes n [] m [] m.
Proof.
  intros Hs. split; [done|by intros ?|done|by intros ? ?%not_elem_of_nil|]. intros T HT. rewrite app_nil_r.
  split; [done|]. by intros ? ? ?%not_elem_of_nil.
Qed.
Lemma passes_seq n l1 l2 m tr1 m1 tr2 m2 : (forall acts p, (acts, p) ∈ l1 -> p ∈ U) ->
  passes n l1 m tr1 m1 -> passes n l2 m1 tr2 m2 -> passes n (l1 ++ l2) m (tr1 ++ tr2) m2.
Proof.
  intros Hl H1 H2. split; [apply H2|eapply grows_trans; [apply H1|apply H2]| | |].
  - intros x Hx Ht Hs. apply (p_entered _ _ _ _ _ H1), (p_entered _ _ _ _ _ H2); done.
  - intros a [Ha|Ha]%elem_of_app; [by apply (p_sound _ _ _ _ _ H1)|by apply (p_sound _ _ _ _ _ H2)].
  - intros T HT. destruct (p_full _ _ _ _ _ H1 T HT) as [HT1 Hc1]. destruct (p_full _ _ _ _ _ H2 _ HT1) as [HT2 Hc2].
    rewrite app_assoc. split; [done|]. intros acts p [Hp|Hp]%elem_of_app; [|by apply Hc2].
    destruct (Hc1 acts p Hp) as [Ha Hc]. split.
    + intros a Hin. apply elem_of_app. left. by apply Ha.
    + eapply covered_mono; [by eapply Hl|apply H2| |done]. intros a Hin. apply elem_of_app. by left.
Qed.

Record walked (n : N) (m : memo) (tr : list A) (m' : memo) : Prop := {
  k_size : size m' = sz;
  k_grows : grows m m';
  k_entered x : x ∈ U -> tabled x = true -> status (mark m' x) = entered -> status (mark m x) = entered;
  k_sound a : a ∈ tr -> exists x, rtc leads n x /\ does x a;
  k_full T : all_full m T -> all_full m' (T ++ tr) /\ covered m' (T ++ tr) n
}.

Lemma seen_ok m n : size m = sz -> n ∈ U ->
  seen n m = Ok (tabled n && negb (bool_decide (status (mark m n) = unseen))).
Proof.
  intros Hs Hn. unfold seen. destruct (tabled n) eqn:Ht; [|done].
  rewrite (proj1 (key_ok HI n Hn Ht)). cbn [mbind res_bind]. by rewrite (node_at_ok HI).
Qed.
Definition written (n : N) (st : NodeStatus) (m : memo) : memo := if tabled n then put n (NodeVisit 0 st) m else m.
Lemma write_ok m n st : size m = sz -> n ∈ U -> write n st m = Ok (written n st m) /\ size (written n st m) = sz.
Proof.
  intros Hs Hn. unfold write, written. destruct (tabled n) eqn:Ht; [|done].
  rewrite (proj1 (key_ok HI n Hn Ht)). cbn [mbind res_bind]. by rewrite (set_node_ok HI).
Qed.
Lemma mark_written m n st x : n ∈ U -> x ∈ U -> tabled x = true ->
  status (mark (written n st m) x) = st /\ n = x \/ mark (written n st m) x = mark m x /\ n <> x.
Proof.
  intros Hn Hx Ht. unfold written. destruct (tabled n) eqn:Htn.
  - destruct (mark_put HI n (NodeVisit 0 st) m x) as [[-> ->]|[-> ?]]; auto.
  - right. split; [done|]. by intros ->; rewrite Ht in Htn.
Qed.
Lemma grows_written m n st : n ∈ U -> st <> unseen -> grows m (written n st m).
Proof. intros Hn Hst x Hx Ht Hs. by destruct (mark_written m n st x) as [[-> _]|[-> _]]. Qed.

Lemma step_to_ok v m n acts p : size m = sz -> (acts, p) ∈ wmoves n -> p ∈ U ->
  (tabled p && negb (bool_decide (status (mark m p) = unseen)) = false ->
    exists tr m', traces (v p) m tr m' /\ walked p m tr m') ->
  exists tr m', traces (step_to v (acts, p)) m tr m' /\ passes n [(acts, p)] m tr m'.
Proof.
  intros Hs Hp HpU Hv.
  assert (Hstep : exists tr m', traces (fun ms => b ← seen p ms.1; if (b : bool) then Ok (Some ms) else v p ms) m tr m' /\ walked p m tr m').
  { destruct (tabled p && negb (bool_decide (status (mark m p) = unseen))) eqn:E.
    - exists [], m. split.
      + intros s. cbn [fst]. rewrite seen_ok by done. by rewrite E.
      + split; [done|by intros ?|done|by intros ? ?%not_elem_of_nil|]. intros T HT. rewrite app_nil_r. split; [done|].
        apply andb_prop in E as [Ht E]. unfold covered. rewrite Ht. by case_bool_decide.
    - destruct (Hv eq_refl) as (tr & m' & Htr & Hw). exists tr, m'. split; [|done]. intros s. cbn [fst]. rewrite seen_ok by done. rewrite E. apply Htr. }
  clear Hv. destruct Hstep as (tr & m' & Htr & Hw). exists (acts ++ tr), m'. split.
  { intros s. apply (traces_act acts _ m tr m' Htr s). }
  split; [apply Hw|apply Hw|apply Hw| |].
  - intros a [Ha|Ha]%elem_of_app.
    + exists n. split; [done|]. right. eauto.
    + destruct (k_sound _ _ _ _ Hw a Ha) as (x & Hx & Hd). exists x. split; [|done]. eapply rtc_l; [|done]. by exists acts.
  - intros T HT. destruct (k_full _ _ _ _ Hw (T ++ acts)) as [HT' Hc].
    { eapply all_full_mono; [|done]. intros a Ha. apply elem_of_app. by left. }
    rewrite <- app_assoc in HT', Hc. split; [done|]. intros acts' p' Hin. apply list_elem_of_singleton in Hin as [= -> ->].
    split; [|done]. intros a Ha. rewrite !elem_of_app. auto.
Qed.

Definition need (n : N) (m : memo) : nat := (1 + depth) * todo m + (if tabled n then 0 else 1 + rank n).

Lemma moves_ok v n l : (forall acts p, (acts, p) ∈ l -> (acts, p) ∈ wmoves n /\ p ∈ U) -> forall b m, size m = sz -> (todo m <= b)%nat ->
  (forall m acts p, size m = sz -> (todo m <= b)%nat -> (acts, p) ∈ l ->
    tabled p && negb (bool_decide (status (mark m p) = unseen)) = false ->
    exists tr m', traces (v p) m tr m' /\ walked p m tr m') ->
  exists tr m', traces (each (step_to v) l) m tr m' /\ passes n l m tr m'.
Proof.
  intros Hl b. induction l as [|[acts p] l IH]; intros m Hs Hb Hv.
  - exists [], m. split; [done|by apply passes_nil].
  - destruct (Hl acts p) as [Hp HpU]; [by left|].
    destruct (step_to_ok v m n acts p Hs Hp HpU) as (tr1 & m1 & Ht1 & Hp1).
    { intros E. apply (Hv m acts p); [done..|by left|done]. }
    destruct (IH ltac:(intros ? ? ?; apply Hl; by right) m1) as (tr2 & m2 & Ht2 & Hp2).
    + apply Hp1.
    + etrans; [apply todo_grows, (p_grows _ _ _ _ _ Hp1)|done].
    + intros m' acts' p' Hs' Hb' Hin. intros E. apply (Hv m' acts' p'); [done..|by right|done].
    + exists (tr1 ++ tr2), m2. split; [exact (traces_seq _ _ _ _ m1 _ _ Ht1 Ht2)|].
      apply (passes_seq n [(acts, p)] l m tr1 m1); [|done..]. by intros acts' p' [= -> ->]%list_elem_of_singleton.
Qed.

(** The part of a walk that follows the check of the mark. *)
Lemma body_ok n m m2 tr : size m = sz -> n ∈ U -> tabled n && negb (bool_decide (status (mark m n) = unseen)) = false ->
  passes n (wmoves n) (written n entered m) tr m2 -> walked n m (entry n ++ tr) (written n left m2).
Proof.
  intros Hs Hn Hun Hp. split.
  - by apply write_ok; [apply Hp|].
  - eapply grows_trans; [by apply (grows_written _ n entered)|]. eapply grows_trans; [apply Hp|by apply grows_written].
  - intros x Hx Ht E. destruct (mark_written m2 n left x) as [[E' _]|[E' Hne]]; [done..|by rewrite E' in E|].
    rewrite E' in E. apply (p_entered _ _ _ _ _ Hp) in E; [|done..].
    destruct (mark_written m n entered x) as [[_ ->]|[E2 _]]; [done..|by rewrite <- E2].
  - intros a [Ha|Ha]%elem_of_app; [|by apply (p_sound _ _ _ _ _ Hp)]. exists n. split; [done|by left].
  - intros T HT. destruct (p_full _ _ _ _ _ Hp (T ++ entry n)) as [HT2 Hc].
    { intros x Hx Ht E. destruct (mark_written m n entered x) as [[E' _]|[E' _]]; [done..|by rewrite E' in E|].
      apply (full_mono m _ T); [done|by apply grows_written| |apply HT; [done..|by rewrite <- E']].
      intros a Ha. apply elem_of_app. by left. }
    rewrite <- app_assoc in HT2, Hc.
    assert (Hf : full (written n left m2) (T ++ entry n ++ tr) n).
    { apply full_intro; [intros a Ha; rewrite !elem_of_app; auto|]. intros acts p Hin. destruct (Hc acts p Hin) as [Ha Hc'].
      split; [done|]. apply (covered_mono m2 _ (T ++ entry n ++ tr)); [|by apply grows_written|done|done]. by apply (w_closed HU n acts). }
    split.
    + intros x Hx Ht E. destruct (mark_written m2 n left x) as [[_ <-]|[E' _]]; [done..|]. rewrite E' in E.
      apply (full_mono m2 _ (T ++ entry n ++ tr)); [done|by apply grows_written|done|by apply HT2].
    + unfold covered. destruct (tabled n) eqn:Ht; [|done].
      by destruct (mark_written m2 n left n) as [[-> _]|[_ ?]].
Qed.

Lemma need_step n acts p m m1 : size m = sz -> n ∈ U -> tabled n && negb (bool_decide (status (mark m n) = unseen)) = false ->
  (acts, p) ∈ wmoves n -> (todo m1 <= todo (written n entered m))%nat -> (need p m1 < need n m)%nat.
Proof.
  intros Hs Hn Hun Hp Htd. pose proof (w_closed HU n acts p Hn Hp) as HpU. unfold need.
  pose proof (w_pass HU n acts p Hn) as Hpass. pose proof (w_depth HU p HpU) as Hd. unfold written in Htd.
  destruct (tabled n) eqn:Ht.
  - cbn in Hun. case_bool_decide as Es; [|done]. pose proof (todo_put HI n (NodeVisit 0 entered) m Hn Ht Es ltac:(done)).
    destruct (tabled p); [nia|]. specialize (Hd eq_refl). nia.
  - destruct (tabled p); [nia|]. destruct (Hpass eq_refl Hp); [done|]. nia.
Qed.

Lemma walk_ok fuel : forall n m, size m = sz -> n ∈ U -> (need n m < fuel)%nat ->
  exists tr m', traces (walk fuel n) m tr m' /\ walked n m tr m'.
Proof.
  induction fuel as [|fuel IH]; intros n m Hs Hn Hf; [lia|].
  destruct (tabled n && negb (bool_decide (status (mark m n) = unseen))) eqn:E.
  - exists [], m. split.
    + intros s. cbn [walk fst]. rewrite seen_ok by done. by rewrite E.
    + split; [done|by intros ?|done|by intros ? ?%not_elem_of_nil|]. intros T HT. rewrite app_nil_r. split; [done|].
      apply andb_prop in E as [Ht E]. unfold covered. rewrite Ht. by case_bool_decide.
  - destruct (w_ok HU n Hn) as [l Hl].
    assert (Hm : wmoves n = l) by (unfold wmoves; by rewrite Hl).
    destruct (write_ok m n entered Hs Hn) as [Hw1 Hs1].
    destruct (moves_ok (walk fuel) n l) with (b := todo (written n entered m)) (m := written n entered m) as (tr & m2 & Htr & Hp); [|done..| |].
    { intros acts p Hp. rewrite Hm. split; [done|]. apply (w_closed HU n acts); [done|by rewrite Hm]. }
    { intros m1 acts p Hs' Hb Hp _. rewrite <- Hm in Hp. apply IH; [done|by apply (w_closed HU n acts)|].
      pose proof (need_step n acts p m m1 Hs Hn E Hp Hb). lia. }
    exists (entry n ++ tr), (written n left m2). split; [|apply body_ok; [done..|by rewrite Hm]].
    intros s. cbn [walk fst snd]. rewrite seen_ok by done. rewrite E. cbn [mbind res_bind]. rewrite Hw1. cbn [mbind res_bind].
    rewrite each_app. destruct (each act (entry n) s) as [[s'|]|]; cbn [mbind res_bind]; [|done..].
    rewrite (each_flat _ (loops n) l _ Hl), Htr.
    destruct (each act tr s') as [[s2|]|]; cbn [mbind res_bind option_map]; [|done..].
    cbn [fst snd]. destruct (write_ok m2 n left (p_size _ _ _ _ _ Hp) Hn) as [-> _]. done.
Qed.

(** A walk from fresh marks with enough fuel runs a sequence of actions: exactly
    those of the nodes that the root leads to. *)
Theorem walk_from n fuel : n ∈ U -> ((1 + depth) * (1 + length U) < fuel)%nat ->
  exists tr m', (forall s, walk fuel n (Memo 0 sz ∅, s) = (r ← each act tr s; Ok (option_map (pair m') r))) /\
    forall a, a ∈ tr <-> exists x, rtc leads n x /\ does x a.
Proof.
  intros Hn Hf. assert (Hfresh : forall x, mark (Memo 0 sz ∅) x = fresh) by (intros x; unfold mark; cbn; by rewrite lookup_empty).
  destruct (walk_ok fuel n (Memo 0 sz ∅)) as (tr & m' & Htr & Hw); [done..| |].
  { unfold need. pose proof (todo_le (key := key) (tabled := tabled) (U := U) (Memo 0 sz ∅)).
    pose proof (w_depth HU n Hn) as Hd. destruct (tabled n); [nia|]. specialize (Hd eq_refl). nia. }
  exists tr, m'. split; [exact Htr|]. intros a. split; [by apply (k_sound _ _ _ _ Hw)|]. intros (x & Hx & Ha).
  destruct (k_full _ _ _ _ Hw []) as [Hall Hc].
  { intros y Hy Ht E. by rewrite Hfresh in E. }
  cbn [app] in Hall, Hc.
  assert (Hcov : forall y, y ∈ U -> covered m' tr y -> full m' tr y).
  { intros y Hy Hcy. unfold covered in Hcy. destruct (tabled y) eqn:Ht; [|done]. apply Hall; [done..|].
    destruct (status (mark m' y)) eqn:E; [done| |done].
    apply (k_entered _ _ _ _ Hw) in E; [|done..]. by rewrite Hfresh in E. }
  clear Hw Htr Hall Hf. induction Hx as [n|n p x [acts Hp] Hx IH].
  - destruct (Hcov n Hn Hc n) as [Hd _]; [apply rtc_refl|by apply Hd].
  - pose proof (w_closed HU n acts p Hn Hp) as HpU. apply IH; [done..|].
    destruct (Hcov n Hn Hc n) as [_ Hl]; [apply rtc_refl|]. unfold covered. destruct (tabled p) eqn:Ht; [apply Hl; [by exists acts|done]|].
    intros y Hy. apply (Hcov n Hn Hc y). eapply rtc_l; [split; [by exists acts|done]|done].
Qed.

End walk.

(** ** Orders *)
Section order.
Context {X : Type}.

Definition before (l : list X) (x y : X) : Prop := exists l1 l2 l3, l = l1 ++ x :: l2 ++ y :: l3.

Lemma before_snoc_old l z x y : before l x y -> before (l ++ [z]) x y.
Proof. intros (l1 & l2 & l3 & ->). exists l1, l2, (l3 ++ [z]). by rewrite <- !app_assoc, app_comm_cons, <- !app_assoc. Qed.
Lemma before_snoc l x y : x ∈ l -> before (l ++ [y]) x y.
Proof. intros (l1 & l2 & ->)%list_elem_of_split. exists l1, l2, []. by rewrite <- app_assoc. Qed.
Lemma before_lookup l x y : before l x y <-> exists i j, l !! i = Some x /\ l !! j = Some y /\ (i < j)%nat.
Proof.
  split.
  - intros (l1 & l2 & l3 & ->). exists (length l1), (length l1 + S (length l2))%nat. split_and!; [|..|lia].
    + by rewrite list_lookup_middle.
    + rewrite lookup_app_r by lia. replace (length l1 + S (length l2) - length l1)%nat with (S (length l2)) by lia.
      change ((l2 ++ y :: l3) !! length l2 = Some y). by apply list_lookup_middle.
  - intros (i & j & Hi & Hj & Hlt). exists (take i l), (take (j - S i) (drop (S i) l)), (drop (S j) l).
    rewrite <- (take_drop i l) at 1. f_equal. rewrite (drop_S l x i Hi). f_equal.
    rewrite <- (take_drop (j - S i) (drop (S i) l)) at 1. f_equal. rewrite drop_drop.
    replace (S i + (j - S i))%nat with j by lia. by apply drop_S.
Qed.
Lemma before_trans l x y z : NoDup l -> before l x y -> before l y z -> before l x z.
Proof.
  rewrite !before_lookup. intros Hnd (i & j & Hi & Hj & ?) (j' & k & Hj' & Hk & ?). exists i, k. split_and!; [done..|].
  rewrite (NoDup_lookup l j j' y Hnd Hj Hj') in *. lia.
Qed.
Lemma before_irrefl l x : NoDup l -> ~ before l x x.
Proof. rewrite before_lookup. intros Hnd (i & j & Hi & Hj & ?). rewrite (NoDup_lookup l i j x Hnd Hi Hj) in *. lia. Qed.
Lemma before_total l x y : x ∈ l -> y ∈ l -> x = y \/ before l x y \/ before l y x.
Proof.
  rewrite !before_lookup. intros [i Hi]%list_elem_of_lookup [j Hj]%list_elem_of_lookup.
  destruct (lt_eq_lt_dec i j) as [[?| ->]|?]; [right; left|left; congruence|right; right]; eauto 10.
Qed.
Lemma before_in l x y : before l x y -> x ∈ l /\ y ∈ l.
Proof. intros (l1 & l2 & l3 & ->). rewrite !elem_of_app, !elem_of_cons, !elem_of_app, !elem_of_cons. tauto. Qed.

(** A list whose neighbours are in order is in order. *)
Lemma before_chain (c l : list X) : NoDup l -> (forall c1 x y c2, c = c1 ++ x :: y :: c2 -> before l x y) ->
  forall x y, before c x y -> before l x y.
Proof.
  intros Hnd Hc x y (c1 & c2 & c3 & ->). revert c1 x Hc. induction c2 as [|z c2 IH]; intros c1 x Hc.
  - by apply (Hc c1 x y c3).
  - apply (before_trans l x z y Hnd); [by apply (Hc c1 x z (c2 ++ y :: c3))|].
    apply (IH (c1 ++ [x]) z). intros d1 x' y' d2 E. apply (Hc d1 x' y' d2). rewrite <- E. by rewrite <- app_assoc.
Qed.

End order.

Section sort.
Context {X : Type} `{EqDecision X} (succs : X -> list X).

(** A finite set without infinite walks can be listed in order. *)
Lemma sink (l : list X) x : Acc (fun b a => b ∈ succs a) x -> x ∈ l -> exists y, y ∈ l /\ forall z, z ∈ succs y -> z ∉ l.
Proof.
  intros Ha. induction Ha as [x _ IH]. intros Hx. destruct (decide (Exists (fun z => z ∈ l) (succs x))) as [He|He].
  - apply Exists_exists in He as (z & Hz & Hl). by apply (IH z).
  - exists x. split; [done|]. intros z Hz Hl. apply He, Exists_exists. by exists z.
Qed.
Lemma topological (l : list X) : NoDup l -> (forall x, x ∈ l -> Acc (fun b a => b ∈ succs a) x) ->
  exists o, o ≡ₚ l /\ forall x y, x ∈ l -> y ∈ l -> y ∈ succs x -> before o x y.
Proof.
  remember (length l) as n eqn:En. revert l En. induction n as [|n IH]; intros l En Hnd Ha.
  - destruct l; [|done]. exists []. split; [done|]. by intros ? ? ?%not_elem_of_nil.
  - destruct l as [|x0 l0] eqn:El; [done|]. rewrite <- El in *.
    destruct (sink l x0) as (y & Hy & Hsink); [apply Ha; rewrite El; by left|rewrite El; by left|].
    apply elem_of_Permutation in Hy as [l' Hl']. pose proof Hnd as Hnd'. rewrite Hl' in Hnd'. apply NoDup_cons in Hnd' as [Hy Hnd'].
    destruct (IH l') as (o & Ho & Hb); [rewrite Hl' in En; cbn in En; lia|done|intros x Hx; apply Ha; rewrite Hl'; by right|].
    exists (o ++ [y]). split; [rewrite Ho, Hl'; apply Permutation_app_comm|]. intros x z Hx Hz Hxz.
    pose proof Hx as Hx'. pose proof Hz as Hz'. rewrite Hl' in Hx, Hz. apply elem_of_cons in Hx as [->|Hx]; [by destruct (Hsink z)|].
    apply elem_of_cons in Hz as [->|Hz]; [apply before_snoc; by rewrite Ho|]. apply before_snoc_old. by apply Hb.
Qed.
End sort.
End Search.
