(* ===== verification/Automata.v ===== *)
(** * The automata of the consistency checkers

    The checkers in Execution/Consistency/{SC,TSO,RA,RC11,IMM}Checker.cpp consist of
    member functions [visit<Property>_<q>(lab)], one per state [q] of an automaton.
    The body of such a function is a sequence of loops

      if (guards on lab) for (pLab in g.relation(lab)) if (guards on pLab) { visit state q' on pLab }

    which is modelled by an [edge]; a function is a [state], the list of its edges.
    The files [SCChecker] to [IMMChecker] hold the functions; this file gives them
    their meaning through [Search] and proves the facts that all checkers share. *)

From stdpp Require Import relations.
From S2P Require Import Prelude Values Addresses Events VSet Views Labels Graph Relations Cut Search.
Import EventLabel Graph.
Local Open Scope Z_scope.

Module Automaton.
Import Search.

Definition guard := Graph.t -> lid -> res bool.
Definition relation := Graph.t -> lid -> res (list lid).

(** ** Guards *)
Definition test (f : EventLabel.t -> bool) : guard := fun g i => l ← label g i; Ok (f l).
(** [genmc::isa<Label>(lab)] *)
Definition isa (c : Kind.t -> bool) : guard := test (fun l => c (kind l)).
Definition neg (c : guard) : guard := fun g i => b ← c g i; Ok (negb b).
Definition isSC : guard := test EventLabel.isSC.
Definition isAtLeastAcquire : guard := test EventLabel.isAtLeastAcquire.
Definition isAtLeastRelease : guard := test EventLabel.isAtLeastRelease.
Definition isNotAtomic : guard := test EventLabel.isNotAtomic.
Definition isDependable : guard := isa Class.isDependable.
Definition isRead : guard := isa Class.isRead.
Definition isWrite : guard := isa Class.isWrite.
Definition isFence : guard := isa (Class.isKind Kind.Fence).
Definition isThreadCreate : guard := isa (Class.isKind Kind.ThreadCreate).
Definition isThreadJoin : guard := isa (Class.isKind Kind.ThreadJoin).
Definition isThreadStart : guard := isa Class.isThreadStart.
Definition isThreadFinish : guard := isa (Class.isKind Kind.ThreadFinish).
Definition isAbstractLockCasRead : guard := isa (Class.isKind Kind.AbstractLockCasRead).
(** A read that is an RMW, or a write that is. *)
Definition isRMW : guard := fun g i =>
  l ← label g i;
  a ← (if Class.isRead (kind l) then Relations.read_isRMW g i else Ok false);
  Ok (a || (Class.isWrite (kind l) && Class.isRMWWrite (kind l))).

(** [c1 && c2 && ...] *)
Fixpoint holds (cs : list guard) (g : Graph.t) (i : lid) : res bool :=
  match cs with
  | [] => Ok true
  | c :: cs => b ← c g i; if (b : bool) then holds cs g i else Ok false
  end.

(** ** Traversals *)
(** [if (auto pLab = g.f(lab); pLab)] *)
Definition one (f : Graph.t -> lid -> res (option lid)) : relation := fun g i => o ← f g i; Ok (option_list o).
Definition tc_succ : relation := one Relations.tc_succ.
Definition tc_pred : relation := one Relations.tc_pred.
Definition tj_succ : relation := one Relations.tj_succ.
Definition tj_pred : relation := one Relations.tj_pred.
Definition rf_pred : relation := one Relations.rf_pred.
Definition rfi_pred : relation := one Relations.rfi_pred.
Definition rfe_pred : relation := one Relations.rfe_pred.
Definition co_imm_succ : relation := one Relations.co_imm_succ.
Definition co_imm_pred : relation := one Relations.co_imm_pred.
Definition fr_imm_succ : relation := one Relations.fr_imm_succ.
Definition po_imm_succ : relation := one Relations.po_imm_succ.
Definition po_imm_pred : relation := one Relations.po_imm_pred.
Definition poloc_imm_pred : relation := one Relations.poloc_imm_pred.
(** [for (auto &tmp : g.f(lab)) if (auto *pLab = &tmp; true)] *)
Definition rf_succs : relation := Relations.rf_succs.
Definition rfe_succs : relation := Relations.rfe_succs.
Definition lin_succs : relation := Relations.lin_succs.
Definition lin_preds : relation := Relations.lin_preds.
Definition fr_imm_preds : relation := Relations.fr_imm_preds.
Definition addr_preds : relation := Relations.addr_preds.
Definition data_preds : relation := Relations.data_preds.
Definition ctrl_preds : relation := Relations.ctrl_preds.
Definition detour_preds : relation := Relations.detour_preds.
Definition other_labels : relation := Relations.other_labels.
(** [if (auto pLab = lab; true)] *)
Definition self : relation := fun _ i => Ok [i].

(** ** Loops *)
(** The candidates of a loop; [f] builds what the visit uses. *)
Definition candidates {X} (g : Graph.t) (cs : list guard) (R : relation) (ds : list guard) (f : lid -> X) (i : lid) : loop X :=
  b ← holds cs g i;
  if (b : bool) then
    ps ← R g i; Ok (map (fun p => c ← holds ds g p; Ok (if (c : bool) then Some (f p) else None)) ps)
  else Ok [].

(** Visits that mark nothing: each candidate is visited until one visit returns false. *)
Definition visit_each (c : loop lid) (f : lid -> res bool) : res bool :=
  r ← run_loop (fun p s => b ← f p; Ok (if (b : bool) then Some s else None)) c tt; Ok (bool_decide (is_Some r)).
(** [for (i...) if (lhs[i] && !rhs[i]) return false;] *)
Definition covered_by (lhs rhs : list bool) : bool := forallb (fun lr : bool * bool => negb (lr.1 && negb lr.2)) (zip lhs rhs).

(** ** Automata that search for cycles *)
Record edge := Edge {
  from : list guard;      (* on [lab] *)
  along : relation;
  into : list guard;      (* on [pLab] *)
  to : nat;
  strict : bool           (* the constant of [Accepting > node.count || strict] *)
}.
Record state := State {
  accepting : bool;       (* it counts in [visited..Accepting] *)
  vector : bool;          (* it has a vector of marks *)
  edges : list edge
}.
Abbreviation automaton := (list state).
Definition at_state (A : automaton) (q : nat) : state := default (State false false []) (A !! q).

Section run.
Context (A : automaton) (g : Graph.t).
(** The entry of a vector: [visited.._q[lab->getStamp().get()]]. *)
Definition entry_of (n : nat * lid) : res (nat * Z) := l ← label g n.2; st ← Cut.getStamp l; Ok (n.1, Stamp.get st).
Definition has_vector (n : nat * lid) : bool := vector (at_state A n.1).
Definition is_accepting (n : nat * lid) : bool := accepting (at_state A n.1).
Definition loops_of (n : nat * lid) : list (loop ((nat * lid) * bool)) := 
  map (fun e => candidates g (from e) (along e) (into e) (fun p => ((to e, p), strict e)) n.2) (edges (at_state A n.1)).

(** [g.getMaxStamp().get() + 1] *)
Definition vector_size : Z := wrap 32 (Stamp.get (timestamp g) + 1).
(** States times labels. *)
Definition nodes : list (nat * lid) := list_prod (seq 0 (length A)) (concat (events g)).
Definition cycle_fuel : nat := 2 * length nodes + 1.

Definition search (ns : list (nat * lid)) : res bool :=
  roots entry_of has_vector is_accepting loops_of cycle_fuel ns vector_size.
(** [visit<Property>(lab)]: clear the vectors, then visit the listed states. *)
Definition visitFrom (qs : list nat) (i : lid) : res bool := search (map (fun q => (q, i)) qs).
(** [visit<Property>Full(g)]: clear the vectors, then visit one state on all labels. *)
Definition visitFull (q : nat) : res bool := search (map (fun i => (q, i)) (Relations.labels g)).
End run.

(** ** Automata that walk *)
(** The actions of an edge run on [pLab] before the call, those of a state on [lab]
    when it is entered. *)
Record wedge (X : Type) := WEdge { w_from : list guard; w_along : relation; w_into : list guard; w_acts : list X; w_to : nat }.
Arguments WEdge {X}.
Arguments w_from {X}.
Arguments w_along {X}.
Arguments w_into {X}.
Arguments w_acts {X}.
Arguments w_to {X}.
Record wstate (X : Type) := WState { w_entry : list X; w_vector : bool; w_edges : list (wedge X) }.
Arguments WState {X}.
Arguments w_entry {X}.
Arguments w_vector {X}.
Arguments w_edges {X}.

Section walk.
Context {X S : Type} (A : list (wstate X)) (act : X * lid -> S -> res (option S)) (g : Graph.t).
Definition wstate_at (q : nat) : wstate X := default (WState [] false []) (A !! q).
Definition walk_vector (n : nat * lid) : bool := w_vector (wstate_at n.1).
Definition walk_entry (n : nat * lid) : list (X * lid) := map (fun x => (x, n.2)) (w_entry (wstate_at n.1)).
Definition walk_loops (n : nat * lid) : list (loop (list (X * lid) * (nat * lid))) :=
  map (fun e => candidates g (w_from e) (w_along e) (w_into e) (fun p => (map (fun x => (x, p)) (w_acts e), (w_to e, p))) n.2)
    (w_edges (wstate_at n.1)).
Definition walk_nodes : list (nat * lid) := list_prod (seq 0 (length A)) (concat (events g)).
Definition walk_fuel : nat := (2 + length A) * (1 + length walk_nodes) + 1.

(** Clear the vectors and visit [q] on [i]; [None] is [return false]. *)
Definition visitWalk (q : nat) (i : lid) (s : S) : res (option S) :=
  r ← walk (entry_of g) walk_vector act walk_entry walk_loops walk_fuel (q, i) (Memo 0 (vector_size g) ∅, s);
  Ok (option_map snd r).
End walk.

(** *** Coherence of linearizations: [visitCoherenceRelinche] *)
(** [if (lab == initLab) return false;] *)
Definition at_init (i : lid) (x : unit * lid) (s : unit) : res (option unit) :=
  Ok (if decide (x.2 = i) then None else Some s).
(** Every begin of a method starts a walk of its own. *)
Definition visitMethods (A : list (wstate unit)) (q : nat) (g : Graph.t) : res bool :=
  r ← each (fun i s => b ← isa (Class.isKind Kind.MethodBegin) g i;
              if negb b then Ok (Some s) else visitWalk A (at_init i) g q i s) (Relations.labels g) tt;
  Ok (bool_decide (is_Some r)).

(** ** What the automata need from the graph *)
Definition total_guard (g : Graph.t) (c : guard) : Prop := forall i, in_graph g i -> exists b, c g i = Ok b.
Definition total_rel (g : Graph.t) (R : relation) : Prop :=
  forall i, in_graph g i -> exists ps, R g i = Ok ps /\ forall p, p ∈ ps -> in_graph g p.
Record total_edge (g : Graph.t) (e : edge) : Prop := {
  t_from : Forall (total_guard g) (from e);
  t_along : total_rel g (along e);
  t_into : Forall (total_guard g) (into e)
}.
Definition total (g : Graph.t) (A : automaton) : Prop := Forall (fun st => Forall (total_edge g) (edges st)) A.

(** The labels have different stamps below the next one, and their number leaves
    room for one more. *)
Record stamped (g : Graph.t) : Prop := {
  st_some i l : in_graph g i -> store g !! i = Some l -> exists s, stamp l = Some s /\ 0 <= s <= timestamp g;
  st_inj i j li lj : in_graph g i -> in_graph g j -> store g !! i = Some li -> store g !! j = Some lj ->
    stamp li = stamp lj -> i = j;
  st_room : 0 <= timestamp g /\ timestamp g + 1 < 2 ^ 32
}.

(** One state accepts and has a vector; targets exist, only states with a vector
    follow one without, and [strict] says that the target accepts. *)
Definition table_ok (A : automaton) (qa : nat) : bool :=
  vector (at_state A qa) &&
  forallb (fun q => let st := at_state A q in
    eqb (accepting st) (q =? qa)%nat &&
    forallb (fun e => (to e <? length A)%nat && (vector st || vector (at_state A (to e))) &&
      eqb (strict e) (to e =? qa)%nat) (edges st)) (seq 0 (length A)).

(** ** Loops over a graph *)
Section loops.
Context (g : Graph.t).
Lemma holds_total cs i : Forall (total_guard g) cs -> in_graph g i -> exists b, holds cs g i = Ok b.
Proof.
  intros Hc Hi. induction Hc as [|c cs Hc _ IH]; [by exists true|]. cbn. destruct (Hc i Hi) as [b ->]. cbn.
  destruct b; [done|by exists false].
Qed.

Definition connects (cs : list guard) (R : relation) (ds : list guard) (i j : lid) : Prop :=
  holds cs g i = Ok true /\ (exists ps, R g i = Ok ps /\ j ∈ ps) /\ holds ds g j = Ok true.

Lemma somes_map {X} ds (f : lid -> X) ps : Forall (total_guard g) ds -> (forall p, p ∈ ps -> in_graph g p) ->
  exists l, somes (map (fun p => c ← holds ds g p; Ok (if (c : bool) then Some (f p) else None)) ps) = Ok l /\
    forall x, x ∈ l <-> exists p, p ∈ ps /\ holds ds g p = Ok true /\ x = f p.
Proof.
  intros Hd. induction ps as [|p ps IH]; intros Hps; cbn.
  - exists []. split; [done|]. intros x. split; [by intros ?%not_elem_of_nil|]. by intros (p & ?%not_elem_of_nil & _).
  - destruct (holds_total ds p Hd) as [b Eb]; [apply Hps; by left|]. rewrite Eb. cbn.
    destruct IH as (l & -> & Hl); [intros q Hq; apply Hps; by right|]. cbn. eexists. split; [done|]. intros x.
    destruct b; [rewrite elem_of_cons|]; rewrite Hl; split.
    + intros [->|(q & ? & ?)]; [exists p; split; [by left|done]|exists q; split; [by right|done]].
    + intros (q & [->|Hq]%elem_of_cons & ? & ->); [by left|right; eauto].
    + intros (q & ? & ?). exists q. split; [by right|done].
    + intros (q & [->|Hq]%elem_of_cons & E & ->); [congruence|eauto].
Qed.
Lemma candidates_ok {X} cs R ds (f : lid -> X) i : in_graph g i ->
  Forall (total_guard g) cs -> total_rel g R -> Forall (total_guard g) ds ->
  exists ps l, candidates g cs R ds f i = Ok ps /\ somes ps = Ok l /\
    forall x, x ∈ l <-> exists p, connects cs R ds i p /\ x = f p.
Proof.
  intros Hi Hc HR Hd. unfold candidates, connects. destruct (holds_total cs i Hc Hi) as [b ->]. cbn. destruct b.
  - destruct (HR i Hi) as (ps & -> & Hps). cbn. destruct (somes_map ds f ps Hd Hps) as (l & Hl & Hx).
    eexists _, l. split; [done|]. split; [done|]. intros x. rewrite Hx. split.
    + intros (p & ? & ? & ->). exists p. by eauto 10.
    + intros (p & (_ & (? & [= <-] & ?) & ?) & ->). eauto.
  - exists [], []. split; [done|]. split; [done|]. intros x. split; [by intros ?%not_elem_of_nil|]. by intros (p & (? & _) & _).
Qed.
Lemma flat_ok {X E} (bs : E -> loop X) (P : E -> X -> Prop) es :
  (forall e, e ∈ es -> exists ps l, bs e = Ok ps /\ somes ps = Ok l /\ forall x, x ∈ l <-> P e x) ->
  exists l, flat (map bs es) = Ok l /\ forall x, x ∈ l <-> exists e, e ∈ es /\ P e x.
Proof.
  induction es as [|e es IH]; intros He; cbn.
  - exists []. split; [done|]. intros x. split; [by intros ?%not_elem_of_nil|]. by intros (p & ?%not_elem_of_nil & _).
  - destruct (He e) as (ps & l & -> & Hl & Hx); [by left|]. cbn. rewrite Hl. cbn.
    destruct IH as (l' & -> & Hx'); [intros e' He'; apply He; by right|]. cbn. eexists. split; [done|]. intros x.
    rewrite elem_of_app, Hx, Hx'. split.
    + intros [HP|(e' & ? & ?)]; [exists e; split; [by left|done]|exists e'; split; [by right|done]].
    + intros (e' & [->|He']%elem_of_cons & HP); [by left|right; eauto].
Qed.

(** The entries of the labels in the vectors. *)
Lemma stamps_index (tabled : nat * lid -> bool) U : stamped g -> wf g -> (forall n, n ∈ U -> in_graph g n.2) ->
  indexed (entry_of g) tabled U (vector_size g).
Proof.
  intros Hst Hg HU. assert (Hsz : vector_size g = timestamp g + 1).
  { unfold vector_size, Stamp.get. rewrite wrap_small; [done|]. pose proof (st_room g Hst). unfold in_word. lia. }
  assert (Hk : forall n, n ∈ U -> exists l s, store g !! n.2 = Some l /\ stamp l = Some s /\ 0 <= s <= timestamp g /\
    entry_of g n = Ok (n.1, s)).
  { intros n Hn. destruct (in_graph_store g Hg n.2 (HU n Hn)) as [l Hl]. destruct (st_some g Hst n.2 l (HU n Hn) Hl) as (s & Hs & ?).
    exists l, s. split; [done|]. split; [done|]. split; [done|]. unfold entry_of, Cut.getStamp. by rewrite (label_ok _ _ _ Hl); cbn; rewrite Hs. }
  split.
  - intros n Hn _. destruct (Hk n Hn) as (l & s & _ & _ & ? & E). exists (n.1, s). split; [done|]. cbn. lia.
  - intros n n' k Hn Hn' _ _ E E'. destruct (Hk n Hn) as (l & s & Hl & Hs & _ & E1). destruct (Hk n' Hn') as (l' & s' & Hl' & Hs' & _ & E2).
    rewrite E1 in E. rewrite E2 in E'. injection E as <-. injection E' as E'1 E'2. destruct n as [q i], n' as [q' i']. cbn in *.
    f_equal; [done|]. apply (st_inj g Hst i i' l l'); [by apply (HU (q, i))|by apply (HU (q', i'))|done..|congruence].
Qed.

Lemma word_bound (l : list Z) n : NoDup l -> (forall x, x ∈ l -> 0 <= x < n) -> Z.of_nat (length l) <= Z.max 0 n.
Proof.
  intros Hnd Hl. assert (l ⊆+ seqZ 0 n) as Hs by (apply NoDup_submseteq; [done|]; intros x Hx; apply elem_of_seqZ; auto with lia).
  apply submseteq_length in Hs. rewrite length_seqZ in Hs. lia.
Qed.
Definition stamp_of (i : lid) : Z := match store g !! i with Some l => default 0 (stamp l) | None => 0 end.
Lemma stamps_bound l : stamped g -> wf g -> NoDup l -> (forall i, i ∈ l -> in_graph g i) -> Z.of_nat (length l) < 2 ^ 32.
Proof.
  intros Hst Hg Hnd Hl. rewrite <- (length_fmap stamp_of l).
  assert (Hs : forall i, i ∈ l -> exists li, store g !! i = Some li /\ stamp li = Some (stamp_of i) /\ 0 <= stamp_of i <= timestamp g).
  { intros i Hi. destruct (in_graph_store g Hg i (Hl i Hi)) as [li Hli]. destruct (st_some g Hst i li (Hl i Hi) Hli) as (s & E & ?).
    exists li. unfold stamp_of. rewrite Hli, E. done. }
  pose proof (st_room g Hst). eapply Z.le_lt_trans; [apply (word_bound _ (timestamp g + 1))|lia].
  - apply NoDup_fmap_2_strong; [|done]. intros i j Hi Hj E. destruct (Hs i Hi) as (li & Hli & Ei & _), (Hs j Hj) as (lj & Hlj & Ej & _).
    apply (st_inj g Hst i j li lj); [by apply Hl|by apply Hl|done..|congruence].
  - intros x Hx. apply list_elem_of_fmap in Hx as (i & -> & Hi). destruct (Hs i Hi) as (_ & _ & _ & ?). lia.
Qed.
End loops.

(** ** The product of an automaton and a graph *)

Lemma elem_of_nodes A g q i : (q, i) ∈ nodes A g <-> (q < length A)%nat /\ in_graph g i.
Proof.
  unfold nodes. rewrite list_elem_of_In, in_prod_iff, in_seq, <- list_elem_of_In. unfold in_graph. split; intros [? ?]; split; try done; lia.
Qed.

Section product.
Context (A : automaton) (qa : nat) (g : Graph.t).

(** An edge of the automaton read on labels. *)
Definition moves_along (e : edge) (i j : lid) : Prop := connects g (from e) (along e) (into e) i j.
Definition moves (a b : nat * lid) : Prop :=
  exists e, e ∈ edges (at_state A a.1) /\ to e = b.1 /\ moves_along e a.2 b.2.
Definition plain_moves (a b : nat * lid) : Prop :=
  moves a b /\ is_accepting A a = false /\ is_accepting A b = false.

Context (Hg : wf g) (Hst : stamped g) (HA : table_ok A qa = true) (Ht : total g A).

Lemma at_state_in q : (q < length A)%nat -> at_state A q ∈ A.
Proof. intros Hq. destruct (lookup_lt_is_Some_2 A q Hq) as [st E]. unfold at_state. rewrite E. by eapply list_elem_of_lookup_2. Qed.
Lemma edges_in q e : e ∈ edges (at_state A q) -> (q < length A)%nat.
Proof.
  intros He. unfold at_state in He. destruct (A !! q) eqn:E; [by eapply lookup_lt_Some|]. by apply not_elem_of_nil in He.
Qed.
Lemma table_state q : (q < length A)%nat -> accepting (at_state A q) = (q =? qa)%nat /\
  forall e, e ∈ edges (at_state A q) -> (to e < length A)%nat /\
    (vector (at_state A q) = false -> vector (at_state A (to e)) = true) /\ strict e = (to e =? qa)%nat.
Proof.
  intros Hq. unfold table_ok in HA. apply andb_prop in HA as [_ H]. rewrite forallb_forall in H.
  specialize (H q). cbv zeta in H. apply andb_prop in H as [H1 H2]; [|apply in_seq; lia].
  split; [by apply eqb_prop|]. intros e He. rewrite forallb_forall in H2. specialize (H2 e (proj1 (list_elem_of_In _ _) He)).
  apply andb_prop in H2 as [H H3]. apply andb_prop in H as [H0 H2]. split; [by apply Nat.ltb_lt|]. split.
  - intros E. by rewrite E in H2.
  - by apply eqb_prop.
Qed.
Lemma accepting_iff n : n ∈ nodes A g -> is_accepting A n = true <-> n.1 = qa.
Proof.
  destruct n as [q i]. intros [Hq _]%elem_of_nodes. unfold is_accepting. cbn. rewrite (proj1 (table_state q Hq)). apply Nat.eqb_eq.
Qed.
Lemma table_edge q e : e ∈ edges (at_state A q) -> (to e < length A)%nat /\
  (vector (at_state A q) = false -> vector (at_state A (to e)) = true) /\ strict e = accepting (at_state A (to e)).
Proof.
  intros He. destruct (table_state q (edges_in q e He)) as [_ H]. destruct (H e He) as (Hq & Hv & Hs).
  split; [done|]. split; [done|]. by rewrite (proj1 (table_state (to e) Hq)).
Qed.
Lemma total_at q e : e ∈ edges (at_state A q) -> total_edge g e.
Proof.
  intros He. unfold total in Ht. rewrite Forall_forall in Ht. specialize (Ht _ (at_state_in q (edges_in q e He))).
  rewrite Forall_forall in Ht. by apply Ht.
Qed.


Lemma connects_in cs R ds i j : total_rel g R -> in_graph g i -> connects g cs R ds i j -> in_graph g j.
Proof. intros HR Hi (_ & (ps & E & Hj) & _). destruct (HR i Hi) as (ps' & E' & Hps). rewrite E in E'. injection E' as <-. by apply Hps. Qed.

Lemma loops_ok n : in_graph g n.2 -> exists l, flat (loops_of A g n) = Ok l /\
  forall x, x ∈ l <-> exists e, e ∈ edges (at_state A n.1) /\ exists p, moves_along e n.2 p /\ x = ((to e, p), strict e).
Proof.
  intros Hn. apply flat_ok. intros e He. destruct (total_at n.1 e He). by apply candidates_ok.
Qed.
Lemma edge_moves n p : in_graph g n.2 -> Search.edge (loops_of A g) n p <-> moves n p.
Proof.
  intros Hn. destruct (loops_ok n Hn) as (l & Hl & Hx). unfold Search.edge, Search.moves. rewrite Hl. split.
  - intros [s (e & He & j & Hm & [= -> ->])%Hx]. by exists e.
  - intros (e & He & E & Hm). exists (strict e). apply Hx. exists e. split; [done|]. exists p.2. split; [done|].
    rewrite E. by destruct p.
Qed.

Lemma product_searchable :
  searchable (entry_of g) (has_vector A) (is_accepting A) (loops_of A g) (nodes A g) (vector_size g).
Proof.
  assert (Hn : forall n, n ∈ nodes A g -> (n.1 < length A)%nat /\ in_graph g n.2) by (intros [q i]; apply elem_of_nodes).
  assert (Hmv : forall n p s, n ∈ nodes A g -> (p, s) ∈ Search.moves (loops_of A g) n ->
    exists e, e ∈ edges (at_state A n.1) /\ moves_along e n.2 p.2 /\ to e = p.1 /\ strict e = s).
  { intros n p s Hin Hp. destruct (loops_ok n) as (l & Hl & Hx); [by apply Hn|]. unfold Search.moves in Hp. rewrite Hl in Hp.
    apply Hx in Hp as (e & He & j & Hm & [= -> ->]). by exists e. }
  split.
  - intros n Hin. destruct (loops_ok n) as (l & Hl & _); [by apply Hn|]. eauto.
  - intros n p s Hin Hp. destruct (Hmv n p s Hin Hp) as (e & He & Hm & Eto & _). destruct p as [q j]. cbn in *. subst q.
    apply elem_of_nodes. split; [by apply (table_edge n.1)|]. eapply connects_in; [by eapply t_along, total_at|by apply Hn|exact Hm].
  - intros n p s Hin Hv Hp. destruct (Hmv n p s Hin Hp) as (e & He & _ & Eto & _). unfold has_vector. rewrite <- Eto.
    by apply (table_edge n.1 e He).
  - intros n p s Hin Hp. destruct (Hmv n p s Hin Hp) as (e & He & _ & Eto & <-). unfold is_accepting. rewrite <- Eto.
    by apply (table_edge n.1 e He).
  - intros n Hin Ha. apply accepting_iff in Ha; [|done]. unfold has_vector. rewrite Ha. unfold table_ok in HA.
    by apply andb_prop in HA as [? _].
  - apply stamps_index; [done..|]. intros n Hin. by apply Hn.
  - intros l Hnd Hl. rewrite <- (length_fmap snd l). apply (stamps_bound g); [done..| |].
    + apply NoDup_fmap_2_strong; [|done]. intros [q i] [q' i'] Hx Hy E. cbn in E. subst i'.
      destruct (Hl _ Hx) as [Hx1 Hx2], (Hl _ Hy) as [Hy1 Hy2]. apply accepting_iff in Hx2, Hy2; [|done..]. cbn in *. congruence.
    + intros i Hi. apply list_elem_of_fmap in Hi as (n & -> & Hin). apply Hn. by apply Hl.
Qed.

(** The search on the product, in terms of its moves. *)
Definition leads_to_cycle (ns : list (nat * lid)) : Prop :=
  exists r i, r ∈ ns /\ rtc moves r (qa, i) /\ tc moves (qa, i) (qa, i).
Definition plain_acyclic : Prop := forall n, n ∈ nodes A g -> ~ tc plain_moves n n.

Lemma moves_in a b : in_graph g a.2 -> moves a b -> in_graph g b.2.
Proof. intros Ha (e & He & _ & Hm). eapply connects_in; [by eapply t_along, total_at|done|exact Hm]. Qed.
#[local] Abbreviation E := (Search.edge (loops_of A g)).
Lemma moves_edges a b : in_graph g a.2 -> E a b -> moves a b /\ in_graph g b.2.
Proof. intros Ha H. apply edge_moves in H; [|done]. split; [done|by apply (moves_in a)]. Qed.
Lemma edges_moves a b : in_graph g a.2 -> moves a b -> E a b /\ in_graph g b.2.
Proof. intros Ha H. split; [by apply edge_moves|by apply (moves_in a)]. Qed.

Lemma plain_search : plain_acyclic -> no_plain_cycle (is_accepting A) (loops_of A g) (nodes A g).
Proof.
  intros Hp n Hn Hc. apply (Hp n Hn). apply (tc_on (fun n => in_graph g n.2) (plain (is_accepting A) (loops_of A g))); [| |done].
  - intros a c Ha (He & Haa & Hac). destruct (moves_edges a c Ha He). by split.
  - destruct n as [q i]. by apply elem_of_nodes in Hn as [_ ?].
Qed.

Lemma search_returns ns : (forall n, n ∈ ns -> n ∈ nodes A g) ->
  exists b, search A g ns = Ok b /\ (b = false -> leads_to_cycle ns).
Proof.
  intros Hns. assert (Hin : forall n, n ∈ nodes A g -> in_graph g n.2) by (intros [q i] [_ ?]%elem_of_nodes; done).
  destruct (roots_ok _ _ _ _ (nodes A g) (vector_size g) product_searchable ns (cycle_fuel A g)) as (b & Hb & Hc); [done|done|].
  exists b. split; [done|]. intros ->. destruct Hc as (a & Ha & (r & Hr & Hra) & Hacc & Hcyc).
  apply accepting_iff in Hacc; [|done]. destruct a as [q i]. cbn in Hacc. subst q.
  exists r, i. split; [done|]. split.
  - by apply (rtc_on _ _ _ moves_edges); [apply Hin, Hns|].
  - by apply (tc_on _ _ _ moves_edges); [apply (Hin (qa, i))|].
Qed.
Lemma search_decides ns : (forall n, n ∈ ns -> n ∈ nodes A g) -> plain_acyclic ->
  exists b, search A g ns = Ok b /\ (b = false <-> leads_to_cycle ns).
Proof.
  intros Hns Hp. assert (Hin : forall n, n ∈ nodes A g -> in_graph g n.2) by (intros [q i] [_ ?]%elem_of_nodes; done).
  destruct (roots_decide _ _ _ _ (nodes A g) (vector_size g) product_searchable ns (cycle_fuel A g)) as (b & Hb & Hc); [done|done|by apply plain_search|].
  destruct (search_returns ns Hns) as (b' & Hb' & Hl). unfold search in *. rewrite Hb in Hb'. injection Hb' as <-.
  exists b. split; [done|]. split; [done|]. intros (r & i & Hr & Hra & Hcyc). apply Hc.
  destruct (rtc_on _ _ _ edges_moves _ _ (Hin _ (Hns _ Hr)) Hra) as [Hra' Hi].
  assert (Hn : (qa, i) ∈ nodes A g).
  { apply elem_of_nodes. split; [|done]. inversion Hcyc as [? ? H|? ? ? H _]; subst; destruct H as (e & He & _); by apply edges_in in He. }
  exists (qa, i). split; [done|]. split; [by exists r|]. split; [by apply accepting_iff|].
  by apply (tc_on _ _ _ edges_moves); [done|].
Qed.

(** Cycles that avoid the accepting state stay within one rank; there they follow an
    acyclic relation on the labels. *)
Lemma plain_ranked (rank : nat -> nat) (R : nat -> lid -> lid -> Prop) :
  (forall q e i j, e ∈ edges (at_state A q) -> q <> qa -> to e <> qa -> in_graph g i -> moves_along e i j ->
    (rank (to e) < rank q)%nat \/ rank (to e) = rank q /\ R (rank q) i j) ->
  (forall k i, in_graph g i -> ~ tc (R k) i i) -> plain_acyclic.
Proof.
  intros HR Hac n Hn Hc. destruct n as [q i]. pose proof Hn as [Hq Hi]%elem_of_nodes.
  assert (Hone : forall a b, a ∈ nodes A g -> plain_moves a b ->
    (rank b.1 < rank a.1 \/ rank b.1 = rank a.1 /\ R (rank a.1) a.2 b.2)%nat /\ b ∈ nodes A g).
  { intros a b Ha ((e & He & Hto & Hm) & Hna & Hnb).
    assert (Hb : b ∈ nodes A g).
    { destruct a as [qa' ia], b as [qb ib]. apply elem_of_nodes. apply elem_of_nodes in Ha as [_ Ha]. cbn in *. subst qb.
      split; [by apply (table_edge qa')|by apply (moves_in (qa', ia) (to e, ib)); [|exists e]]. }
    split; [|done]. rewrite <- Hto. apply HR; [done|..|done].
    - intros E. assert (is_accepting A a = true) by (by apply accepting_iff). congruence.
    - intros E. assert (is_accepting A b = true) by (apply accepting_iff; [done|congruence]). congruence.
    - destruct a. by apply elem_of_nodes in Ha as [_ ?]. }
  assert (Htc : forall a b, a ∈ nodes A g -> tc plain_moves a b ->
    (rank b.1 < rank a.1 \/ rank b.1 = rank a.1 /\ tc (R (rank a.1)) a.2 b.2)%nat).
  { intros a b Ha Ht'. induction Ht' as [a b H|a c b H _ IH].
    - destruct (Hone a b Ha H) as [[?|[? ?]] _]; [by left|right]. split; [done|by apply tc_once].
    - destruct (Hone a c Ha H) as [Hac' Hcn]. specialize (IH Hcn). destruct Hac' as [?|[E Hr]], IH as [?|[E' Hr']]; try (left; lia).
      right. split; [congruence|]. eapply tc_l; [exact Hr|]. by rewrite <- E. }
  destruct (Htc _ _ Hn Hc) as [?|[_ H]]; [lia|]. by apply (Hac _ i Hi) in H.
Qed.

Lemma search_finite ns : (forall n, n ∈ ns -> n ∈ nodes A g) -> plain_acyclic -> search A g ns = Ok true ->
  forall n, n ∈ ns -> Acc (fun b a => moves a b) n.
Proof.
  intros Hns Hp Hs. assert (Hin : forall n, n ∈ nodes A g -> in_graph g n.2) by (intros [q i] [_ ?]%elem_of_nodes; done).
  destruct (roots_ok _ _ _ _ (nodes A g) (vector_size g) product_searchable ns (cycle_fuel A g)) as (b & Hb & Hf); [done|done|].
  unfold search in Hs. rewrite Hb in Hs. injection Hs as ->. intros n Hn. specialize (Hf (plain_search Hp) n Hn).
  pose proof (Hin n (Hns n Hn)) as Hi. clear -Hf Hi Hg Hst HA Ht. induction Hf as [n _ IH]. constructor. intros m Hm.
  destruct (edges_moves n m Hi Hm) as [He Hj]. by apply IH.
Qed.

(** The start nodes of the two visits. *)
Lemma full_starts n : n ∈ map (fun i => (qa, i)) (Relations.labels g) <-> n.1 = qa /\ in_graph g n.2.
Proof.
  destruct n as [q i]. rewrite list_elem_of_In, in_map_iff. cbn. unfold in_graph, Relations.labels. split.
  - intros (j & [= <- <-] & Hj%list_elem_of_In). by rewrite (wf_io g Hg) in Hj.
  - intros [Eq Hi]. subst q. exists i. split; [done|]. apply list_elem_of_In. by rewrite (wf_io g Hg).
Qed.
Lemma full_nodes n : (qa < length A)%nat -> n ∈ map (fun i => (qa, i)) (Relations.labels g) -> n ∈ nodes A g.
Proof. intros Hq [Eq Hi]%full_starts. destruct n as [q i]. cbn in Eq, Hi. subst q. by apply elem_of_nodes. Qed.
Lemma from_starts (qs : list nat) (i : lid) n : n ∈ map (fun q => (q, i)) qs <-> n.1 ∈ qs /\ n.2 = i.
Proof.
  destruct n as [q j]. rewrite list_elem_of_In, in_map_iff. cbn. split.
  - intros (q' & [= <- <-] & Hq'%list_elem_of_In). done.
  - intros [Hq' Ej]. subst j. exists q. by split; [|apply list_elem_of_In].
Qed.
Lemma from_nodes (qs : list nat) (i : lid) n : Forall (fun q => (q < length A)%nat) qs -> in_graph g i -> n ∈ map (fun q => (q, i)) qs -> n ∈ nodes A g.
Proof.
  rewrite Forall_forall. intros Hq Hi [Hn Ei]%from_starts. destruct n as [q j]. cbn in Hn, Ei. subst j.
  apply elem_of_nodes. split; [by apply Hq|done].
Qed.
(** What reaches an accepting cycle from the start nodes. *)
Lemma full_leads : leads_to_cycle (map (fun i => (qa, i)) (Relations.labels g)) <-> exists i, in_graph g i /\ tc moves (qa, i) (qa, i).
Proof.
  split.
  - intros (r & i & [_ Hr]%full_starts & Hra & Hcyc). exists i. split; [|done]. by apply (rtc_on _ _ _ edges_moves r (qa, i)).
  - intros (i & Hi & Hcyc). exists (qa, i), i. split; [by apply full_starts|]. done.
Qed.
Definition reaches_cycle (qs : list nat) (i : lid) : Prop := exists q j, q ∈ qs /\ rtc moves (q, i) (qa, j) /\ tc moves (qa, j) (qa, j).
Lemma from_leads qs i : leads_to_cycle (map (fun q => (q, i)) qs) <-> reaches_cycle qs i.
Proof.
  split.
  - intros ([q i'] & j & [Hr Ei]%from_starts & ? & ?). cbn in Hr, Ei. subst i'. by exists q, j.
  - intros (q & j & ? & ? & ?). exists (q, i), j. by split; [apply from_starts|].
Qed.

(** Visits return, and [false] shows a cycle. *)
Lemma visitFull_returns : (qa < length A)%nat ->
  exists b, visitFull A g qa = Ok b /\ (b = false -> exists i, in_graph g i /\ tc moves (qa, i) (qa, i)).
Proof.
  intros Hq. setoid_rewrite <- full_leads. apply search_returns. intros n. by apply full_nodes.
Qed.
Lemma visitFrom_returns qs i : Forall (fun q => (q < length A)%nat) qs -> in_graph g i ->
  exists b, visitFrom A g qs i = Ok b /\ (b = false -> reaches_cycle qs i).
Proof.
  intros Hq Hi. setoid_rewrite <- from_leads. apply search_returns. intros n. by apply from_nodes.
Qed.
(** Visiting the accepting state on all labels decides whether there is a cycle
    through it. *)
Lemma visitFull_decides : (qa < length A)%nat -> plain_acyclic ->
  exists b, visitFull A g qa = Ok b /\ (b = false <-> exists i, in_graph g i /\ tc moves (qa, i) (qa, i)).
Proof.
  intros Hq Hp. setoid_rewrite <- full_leads. apply search_decides; [|done]. intros n. by apply full_nodes.
Qed.
Lemma visitFull_finite : (qa < length A)%nat -> plain_acyclic -> visitFull A g qa = Ok true ->
  forall i, in_graph g i -> Acc (fun b a => moves a b) (qa, i).
Proof.
  intros Hq Hp Hv i Hi. apply (search_finite (map (fun i => (qa, i)) (Relations.labels g))); [|done|exact Hv|].
  - intros n Hn. rewrite list_elem_of_In, in_map_iff in Hn. destruct Hn as (j & <- & Hj%list_elem_of_In).
    apply elem_of_nodes. split; [done|]. unfold in_graph. unfold Relations.labels in Hj. by rewrite (wf_io g Hg) in Hj.
  - rewrite list_elem_of_In, in_map_iff. exists i. split; [done|]. apply list_elem_of_In. unfold Relations.labels. by rewrite (wf_io g Hg).
Qed.
(** Visiting some states on a label decides whether they lead to such a cycle. *)
Lemma visitFrom_decides qs i : Forall (fun q => (q < length A)%nat) qs -> in_graph g i -> plain_acyclic ->
  exists b, visitFrom A g qs i = Ok b /\ (b = false <-> reaches_cycle qs i).
Proof.
  intros Hq Hi Hp. setoid_rewrite <- from_leads. apply search_decides; [|done]. intros n. by apply from_nodes.
Qed.
End product.

(** ** The product of a walking automaton and a graph *)
Section walks.
Context {X S : Type} (A : list (wstate X)) (act : X * lid -> S -> res (option S)) (g : Graph.t).

Definition walk_edge (e : wedge X) (i j : lid) : Prop := connects g (w_from e) (w_along e) (w_into e) i j.
Definition walks (a b : nat * lid) : Prop := exists e, e ∈ w_edges (wstate_at A a.1) /\ w_to e = b.1 /\ walk_edge e a.2 b.2.
(** [x] is run on [j] when the walk passes [a]. *)
Definition runs (a : nat * lid) (x : X) (j : lid) : Prop :=
  (x ∈ w_entry (wstate_at A a.1) /\ j = a.2) \/
  exists e, e ∈ w_edges (wstate_at A a.1) /\ x ∈ w_acts e /\ walk_edge e a.2 j.

(** Targets exist, and the states without a vector are passed in the order of [rank]. *)
Definition walk_ok (rank : nat -> nat) : bool :=
  forallb (fun q => let st := wstate_at A q in (rank q <=? length A)%nat &&
    forallb (fun e => (w_to e <? length A)%nat &&
      (w_vector st || w_vector (wstate_at A (w_to e)) || (rank (w_to e) <? rank q)%nat)) (w_edges st)) (seq 0 (length A)).
Record total_wedge (e : wedge X) : Prop := {
  tw_from : Forall (total_guard g) (w_from e);
  tw_along : total_rel g (w_along e);
  tw_into : Forall (total_guard g) (w_into e)
}.
Definition walk_total : Prop := Forall (fun st => Forall total_wedge (w_edges st)) A.

Context (rank : nat -> nat) (Hg : wf g) (Hst : stamped g) (HA : walk_ok rank = true) (Ht : walk_total).

Lemma wedges_in q e : e ∈ w_edges (wstate_at A q) -> (q < length A)%nat /\ total_wedge e /\ (w_to e < length A)%nat /\
  (w_vector (wstate_at A q) = false -> w_vector (wstate_at A (w_to e)) = true \/ (rank (w_to e) < rank q)%nat).
Proof.
  intros He. assert (Hq : (q < length A)%nat).
  { unfold wstate_at in He. destruct (A !! q) eqn:E; [by eapply lookup_lt_Some|]. by apply not_elem_of_nil in He. }
  split; [done|]. split.
  - unfold walk_total in Ht. rewrite Forall_forall in Ht. destruct (lookup_lt_is_Some_2 A q Hq) as [st E].
    specialize (Ht st (list_elem_of_lookup_2 _ _ _ E)). rewrite Forall_forall in Ht. apply Ht. unfold wstate_at in He. by rewrite E in He.
  - unfold walk_ok in HA. rewrite forallb_forall in HA. specialize (HA q). cbv zeta in HA.
    apply andb_prop in HA as [_ H]; [|apply in_seq; lia]. rewrite forallb_forall in H.
    specialize (H e (proj1 (list_elem_of_In _ _) He)). apply andb_prop in H as [H1 H2]. split; [by apply Nat.ltb_lt|].
    intros E. rewrite E in H2. cbn in H2. apply orb_prop in H2 as [?|H2]; [by left|right; by apply Nat.ltb_lt].
Qed.
Lemma elem_of_walk_nodes q i : (q, i) ∈ walk_nodes A g <-> (q < length A)%nat /\ in_graph g i.
Proof.
  unfold walk_nodes. rewrite list_elem_of_In, in_prod_iff, in_seq, <- list_elem_of_In. unfold in_graph. split; intros [? ?]; split; try done; lia.
Qed.

Lemma walk_loops_ok n : in_graph g n.2 -> exists l, flat (walk_loops A g n) = Ok l /\
  forall x, x ∈ l <-> exists e, e ∈ w_edges (wstate_at A n.1) /\ exists p, walk_edge e n.2 p /\
    x = (map (fun x => (x, p)) (w_acts e), (w_to e, p)).
Proof.
  intros Hn. apply flat_ok. intros e He. destruct (wedges_in n.1 e He) as (_ & [] & _). by apply candidates_ok.
Qed.
Lemma walk_edge_in q e i j : e ∈ w_edges (wstate_at A q) -> in_graph g i -> walk_edge e i j -> in_graph g j.
Proof. intros He Hi Hm. destruct (wedges_in q e He) as (_ & [] & _). by eapply connects_in. Qed.
Lemma wmoves_spec n acts p : in_graph g n.2 -> (acts, p) ∈ wmoves (walk_loops A g) n <->
  exists e, e ∈ w_edges (wstate_at A n.1) /\ w_to e = p.1 /\ walk_edge e n.2 p.2 /\ acts = map (fun x => (x, p.2)) (w_acts e).
Proof.
  intros Hn. destruct (walk_loops_ok n Hn) as (l & Hl & Hx). unfold wmoves. rewrite Hl, Hx. split.
  - intros (e & He & j & Hm & [= -> ->]). by exists e.
  - intros (e & He & E & Hm & ->). exists e. split; [done|]. exists p.2. split; [done|]. rewrite E. by destruct p.
Qed.

Lemma walk_walkable : walkable (entry_of g) (walk_vector A) (walk_loops A g) (walk_nodes A g) (vector_size g)
  (fun n => rank n.1) (1 + length A).
Proof.
  assert (Hn : forall n, n ∈ walk_nodes A g -> (n.1 < length A)%nat /\ in_graph g n.2) by (intros [q i]; apply elem_of_walk_nodes).
  split.
  - intros n Hin. destruct (walk_loops_ok n) as (l & Hl & _); [by apply Hn|]. eauto.
  - intros n acts [q j] Hin (e & He & Eto & Hm & _)%wmoves_spec; [|by apply Hn]. cbn in *. subst q.
    apply elem_of_walk_nodes. split; [by apply (wedges_in n.1)|]. by eapply walk_edge_in; [|apply Hn|].
  - intros n acts p Hin Hv (e & He & Eto & _)%wmoves_spec; [|by apply Hn]. unfold walk_vector. rewrite <- Eto.
    by apply (wedges_in n.1 e He).
  - intros n Hin _. destruct (Hn n Hin) as [Hq _]. unfold walk_ok in HA. rewrite forallb_forall in HA.
    specialize (HA n.1). cbv zeta in HA. apply andb_prop in HA as [H _]; [|apply in_seq; lia]. apply Nat.leb_le in H. lia.
  - apply stamps_index; [done..|]. intros n Hin. by apply Hn.
Qed.

Lemma leads_walks a b : in_graph g a.2 -> leads (walk_loops A g) a b -> walks a b /\ in_graph g b.2.
Proof.
  intros Ha [acts (e & He & Eto & Hm & _)%wmoves_spec]; [|done]. split; [by exists e|]. by eapply walk_edge_in.
Qed.
Lemma walks_leads a b : in_graph g a.2 -> walks a b -> leads (walk_loops A g) a b /\ in_graph g b.2.
Proof.
  intros Ha (e & He & Eto & Hm). split; [|by eapply walk_edge_in]. eexists. apply wmoves_spec; [done|]. by exists e.
Qed.
Lemma does_runs a x j : in_graph g a.2 -> does (walk_entry A) (walk_loops A g) a (x, j) <-> runs a x j.
Proof.
  intros Ha. unfold does, runs. assert (Hm : forall (l : list X) k, (x, j) ∈ map (fun x => (x, k)) l <-> x ∈ l /\ j = k).
  { intros l k. rewrite list_elem_of_In, in_map_iff. split.
    - intros (y & [= <- <-] & Hy). by rewrite list_elem_of_In.
    - intros [Hx ->]. exists x. by rewrite <- list_elem_of_In. }
  unfold walk_entry. rewrite Hm. apply or_iff_compat_l. split.
  - intros (acts & p & (e & He & Eto & Hw & ->)%wmoves_spec & [Hx ->]%Hm); [|done]. by exists e.
  - intros (e & He & Hx & Hw). exists (map (fun x => (x, j)) (w_acts e)), (w_to e, j). rewrite wmoves_spec, Hm by done.
    split; [|done]. by exists e.
Qed.

(** A walk runs a sequence of actions: those of everything it reaches. *)
Lemma visitWalk_runs q i : (q < length A)%nat -> in_graph g i ->
  exists tr, (forall s, visitWalk A act g q i s = each act tr s) /\
    forall x j, (x, j) ∈ tr <-> exists a, rtc walks (q, i) a /\ runs a x j.
Proof.
  intros Hq Hi. destruct (walk_from _ _ act (walk_entry A) (walk_loops A g) (walk_nodes A g) (vector_size g)
    (fun n => rank n.1) (1 + length A) walk_walkable (q, i) (walk_fuel A g)) as (tr & m' & Htr & Hr).
  { by apply elem_of_walk_nodes. }
  { unfold walk_fuel. lia. }
  exists tr. split.
  - intros s. unfold visitWalk. rewrite Htr. by destruct (each act tr s) as [[s'|]|].
  - intros x j. rewrite Hr. split.
    + intros (a & Ha & Hd). destruct (rtc_on _ _ _ leads_walks (q, i) a Hi Ha) as [Hw Hin].
      exists a. split; [done|]. by apply does_runs.
    + intros (a & Ha & Hd). destruct (rtc_on _ _ _ walks_leads (q, i) a Hi Ha) as [Hw Hin].
      exists a. split; [done|]. by apply does_runs.
Qed.
End walks.

Lemma each_tests {X} (f : X -> res bool) l : (forall x, x ∈ l -> exists b, f x = Ok b) ->
  each (fun x s => b ← f x; Ok (if (b : bool) then None else Some s)) l tt =
    Ok (if bool_decide (Exists (fun x => f x = Ok true) l) then None else Some tt).
Proof.
  induction l as [|x l IH]; intros Hf; [done|]. cbn [each]. destruct (Hf x) as [b Eb]; [by left|]. rewrite Eb. cbn [mbind res_bind].
  destruct b.
  - by rewrite bool_decide_true by (left; done).
  - rewrite IH by (intros y Hy; apply Hf; by right). f_equal. erewrite bool_decide_ext; [done|].
    rewrite Exists_cons. split; [by right|intros [?|?]; [congruence|done]].
Qed.

(** The walk of a label returns false when it comes back to it. *)
Section coherent.
Context (A : list (wstate unit)) (g : Graph.t) (rank : nat -> nat) (q : nat).
Context (Hg : wf g) (Hst : stamped g) (HA : walk_ok A rank = true) (Ht : walk_total A g) (Hq : (q < length A)%nat).

Definition comes_back (i : lid) : Prop := exists a, rtc (walks A g) (q, i) a /\ runs A g a tt i.
Lemma visitWalk_init i : in_graph g i -> exists b : bool,
  visitWalk A (at_init i) g q i tt = Ok (if b then None else Some tt) /\ (b = true <-> comes_back i).
Proof.
  intros Hi. destruct (visitWalk_runs A (at_init i) g rank Hg Hst HA Ht q i Hq Hi) as (tr & Htr & Hr).
  exists (bool_decide (Exists (fun x : unit * lid => Ok (bool_decide (x.2 = i)) = Ok true) tr)). split.
  - rewrite Htr. rewrite <- (each_tests (fun x : unit * lid => Ok (bool_decide (x.2 = i)))) by eauto.
    apply each_ext. intros x []. unfold at_init. cbn [mbind res_bind]. by case_decide; [rewrite bool_decide_true|rewrite bool_decide_false].
  - rewrite bool_decide_eq_true, Exists_exists. unfold comes_back. split.
    + intros ([[] j] & Hj & [= Ej%bool_decide_eq_true]). cbn in Ej. subst j. by apply Hr.
    + intros Hc. exists (tt, i). split; [by apply Hr|]. cbn. by rewrite bool_decide_true.
Qed.
Lemma visitMethods_decides : exists b, visitMethods A q g = Ok b /\
  (b = true <-> forall i l, in_graph g i -> store g !! i = Some l -> kind l = Kind.MethodBegin -> ~ comes_back i).
Proof.
  unfold visitMethods. assert (Hl : forall i, i ∈ Relations.labels g <-> in_graph g i) by (intros i; unfold Relations.labels; by rewrite (wf_io g Hg)).
  set (f := fun i s => b ← isa (Class.isKind Kind.MethodBegin) g i; if negb b then Ok (Some s) else visitWalk A (at_init i) g q i s).
  assert (Hall : forall l, (forall i, i ∈ l -> in_graph g i) -> exists b : bool, each f l tt = Ok (if b then Some tt else None) /\
    (b = true <-> forall i li, i ∈ l -> store g !! i = Some li -> kind li = Kind.MethodBegin -> ~ comes_back i)).
  { intros l. induction l as [|i l IH]; intros Hin; cbn [each].
    - exists true. split; [done|]. split; [|done]. by intros _ i li ?%not_elem_of_nil.
    - assert (Hi : in_graph g i) by (apply Hin; by left). destruct (in_graph_store g Hg i Hi) as [li Hli].
      destruct IH as (b & Eb & Hb); [intros j Hj; apply Hin; by right|].
      assert (f i tt = (if negb (Class.isKind Kind.MethodBegin (kind li)) then Ok (Some tt) else visitWalk A (at_init i) g q i tt)) as ->.
      { unfold f, isa, test. by rewrite (label_ok _ _ _ Hli). }
      assert (Hone : exists c : bool, (if negb (Class.isKind Kind.MethodBegin (kind li)) then Ok (Some tt) else visitWalk A (at_init i) g q i tt) =
        Ok (if c then Some tt else None) /\ (c = true <-> (kind li = Kind.MethodBegin -> ~ comes_back i))).
      { destruct (Class.isKind Kind.MethodBegin (kind li)) eqn:Ek; cbn [negb].
        - apply isKind_spec in Ek. destruct (visitWalk_init i Hi) as (c & -> & Hc). exists (negb c). split; [by destruct c|].
          destruct c; cbn; [|by rewrite <- Hc]. split; [done|]. intros H. destruct (H Ek). by apply Hc.
        - exists true. split; [done|]. split; [|done]. intros _ E. by rewrite (proj2 (isKind_spec _ _) E) in Ek. }
      destruct Hone as (c & -> & Hc). cbn [mbind res_bind]. destruct c.
      + exists b. split; [done|]. rewrite Hb. split; [|intros H j lj Hj; apply H; by right].
        intros H j lj [->|Hj]%elem_of_cons Hlj; [|by apply (H j lj)]. simplify_eq. by apply Hc.
      + exists false. split; [done|]. split; [done|]. intros H. apply Hc. apply (H i li); [by left|done]. }
  destruct (Hall (Relations.labels g)) as (b & Eb & Hb); [intros i; apply Hl|]. rewrite Eb. cbn [mbind res_bind].
  exists b. split; [by destruct b|]. rewrite Hb. split; intros H i l Hi; apply H; by apply Hl.
Qed.
End coherent.
End Automaton.
