(* ===== verification/Checkable.v ===== *)
(** * Graphs that the checkers accept

    The checkers dereference the links of the labels without looking: a graph is
    [checkable] when nothing they follow is missing.  On such graphs every guard and
    every traversal of [Automata] returns, and stays in the graph; the hint database
    [checker] holds these facts. *)

From stdpp Require Import relations.
From S2P Require Import Prelude Values Addresses Events VSet Views Labels Graph Relations Cut Search Automata.
Import EventLabel Graph.
Local Open Scope Z_scope.

Module Checkable.
Import Search Automaton.

Definition at_event (g : Graph.t) (e : Event.t) : Prop := exists x, getEventLabel g e = Ok x.

(** The links of the labels lead to labels. *)
Record linked (g : Graph.t) : Prop := {
  lk_wf : wf g;
  lk_stamped : stamped g;
  (* links stay in the graph *)
  lk_links i l j : in_graph g i -> store g !! i = Some l -> j ∈ Cut.links l -> in_graph g j;
  (* created threads have begun, joined threads have labels *)
  lk_started i l : in_graph g i -> store g !! i = Some l ->
    Class.isKind Kind.ThreadCreate (kind l) = true \/ Class.isKind Kind.ThreadJoin (kind l) = true ->
    at_event g (Event.Event (childId l) 0)
}.
(** Every label has been added completely. *)
Record checkable (g : Graph.t) : Prop := {
  ck_linked : linked g;
  (* writes have a place in the coherence order *)
  ck_placed i l : in_graph g i -> store g !! i = Some l -> Class.isWrite (kind l) = true ->
    i ∈ list_at (coherence g) (getAddr l);
  (* reads have a source at their location *)
  ck_source i l : in_graph g i -> store g !! i = Some l -> Class.isRead (kind l) = true ->
    exists w lw, readsFrom l = Some w /\ store g !! w = Some lw /\
      if Class.isWrite (kind lw) then w ∈ list_at (coherence g) (getAddr l) else getInitLabel g = Ok w;
  ck_init : Relations.init_tracked g;
  (* dependencies are events of the graph *)
  ck_deps i l e : in_graph g i -> store g !! i = Some l ->
    e ∈ addrDeps (deps l) ++ dataDeps (deps l) ++ ctrlDeps (deps l) -> at_event g e
}.
Coercion ck_linked : checkable >-> linked.
Definition ck_wf g (Hc : checkable g) : wf g := lk_wf g Hc.
Definition ck_stamped g (Hc : checkable g) : stamped g := lk_stamped g Hc.

Lemma at_event_in g e x : getEventLabel g e = Ok x -> in_graph g x.
Proof.
  unfold getEventLabel. intros H. destruct (vec_at (events g) (Event.thread e)) as [th|] eqn:E; cbn in H; [|done].
  apply vec_at_inv in E as [_ E]. apply vec_at_inv in H as [_ H]. apply elem_concat. eauto.
Qed.

(** A range that filters its candidates. *)
Lemma filterM_total f l : (forall x, x ∈ l -> exists b, f x = Ok b) ->
  exists l', Relations.filterM f l = Ok l' /\ forall x, x ∈ l' <-> x ∈ l /\ f x = Ok true.
Proof.
  induction l as [|x l IH]; intros Hf; cbn.
  - exists []. split; [done|]. intros x. split; [by intros ?%not_elem_of_nil|by intros [? _]].
  - destruct (Hf x) as [b Eb]; [by left|]. destruct IH as (l' & -> & Hl); [intros y Hy; apply Hf; by right|].
    rewrite Eb. cbn. eexists. split; [done|]. intros y. destruct b.
    + rewrite !elem_of_cons, Hl. split; [intros [->|[? ?]]; auto|intros [[->|?] ?]; auto].
    + rewrite elem_of_cons, Hl. split; [intros [? ?]; auto|intros [[->|?] ?]; [congruence|auto]].
Qed.

Lemma filterM_in f l l' x : Relations.filterM f l = Ok l' -> x ∈ l' -> x ∈ l.
Proof.
  revert l'. induction l as [|y l IH]; intros l' H Hx; cbn in H; [by injection H as <-|].
  destruct (f y) as [b|]; cbn [mbind res_bind] in H; [|done]. destruct (Relations.filterM f l) as [r|] eqn:Er; cbn [mbind res_bind] in H; [|done].
  injection H as <-. destruct b; [apply elem_of_cons in Hx as [->|Hx]; [by left|]|]; right; by apply (IH r).
Qed.

(** A test that decides a property of the elements of a list. *)
Definition decides (f : lid -> res bool) (P : lid -> Prop) (l : list lid) : Prop :=
  forall x, x ∈ l -> exists b, f x = Ok b /\ (b = true <-> P x).
Lemma decides_cons f P x l : decides f P (x :: l) -> (exists b, f x = Ok b /\ (b = true <-> P x)) /\ decides f P l.
Proof. intros H. split; [apply H; by left|]. intros y Hy. apply H. by right. Qed.
Lemma anyM_decides f P l : decides f P l -> exists b, Relations.anyM f l = Ok b /\ (b = true <-> exists x, x ∈ l /\ P x).
Proof.
  induction l as [|x l IH]; intros Hf; cbn [Relations.anyM].
  - exists false. split; [done|]. split; [done|]. by intros (x & ?%not_elem_of_nil & _).
  - apply decides_cons in Hf as [(b & -> & Hb) Hf]. cbn [mbind res_bind]. destruct (IH Hf) as (c & -> & Hc). destruct b.
    + exists true. split; [done|]. split; [|done]. intros _. exists x. split; [by left|by apply Hb].
    + exists c. split; [done|]. rewrite Hc. setoid_rewrite elem_of_cons. split; [intros (y & ? & ?); eauto|].
      intros (y & [->|Hy] & HP); [by apply Hb in HP|eauto].
Qed.
Lemma filterM_decides f P l : decides f P l -> exists l', Relations.filterM f l = Ok l' /\ forall x, x ∈ l' <-> x ∈ l /\ P x.
Proof.
  intros Hf. destruct (filterM_total f l) as (l' & E & Hl); [intros x Hx; destruct (Hf x Hx) as (b & ? & _); by exists b|].
  exists l'. split; [done|]. intros x. rewrite Hl. split; intros [Hx H]; (split; [done|]); destruct (Hf x Hx) as (b & Eb & Hb); rewrite Eb in *.
  - apply Hb. congruence.
  - f_equal. by apply Hb.
Qed.
Lemma head_in {X} (l : list X) x : head l = Some x -> x ∈ l.
Proof. destruct l; [done|]. intros [= ->]. by left. Qed.

Section linked.
Context (g : Graph.t) (Hc : linked g).
#[local] Abbreviation Hg := (lk_wf g Hc).

(** *** Guards *)
Lemma test_total f : total_guard g (test f).
Proof. intros i Hi. destruct (in_graph_store g Hg i Hi) as [l Hl]. unfold test. rewrite (label_ok _ _ _ Hl). by eexists. Qed.
Lemma isa_total c : total_guard g (isa c).
Proof. apply test_total. Qed.
Lemma neg_total c : total_guard g c -> total_guard g (neg c).
Proof. intros H i Hi. unfold neg. destruct (H i Hi) as [b ->]. by eexists. Qed.

Lemma po_imm_succ_in i : in_graph g i -> exists o, Relations.po_imm_succ g i = Ok o /\ forall p, o = Some p -> in_graph g p.
Proof.
  intros Hi. destruct (in_graph_pos g Hg i Hi) as (t & th & k & l & Ht & Hk & Hl & _).
  rewrite (Relations.po_imm_succ_ok g Hg i l t th k Hl Ht Hk). eexists. split; [done|]. intros p Hp. apply elem_concat. eauto.
Qed.
Lemma read_isRMW_total i : in_graph g i -> exists b, Relations.read_isRMW g i = Ok b.
Proof.
  intros Hi. destruct (in_graph_store g Hg i Hi) as [l Hl].
  unfold Relations.read_isRMW. rewrite (label_ok _ _ _ Hl). cbn [mbind res_bind]. destruct (negb _); [by eexists|].
  destruct (po_imm_succ_in i Hi) as (o & -> & Ho). cbn [mbind res_bind]. destruct o as [j|]; cbn [dyn_cast_if_present]; [|by eexists].
  destruct (in_graph_store g Hg j (Ho j eq_refl)) as [lj Hlj]. unfold dyn_cast. rewrite (label_ok _ _ _ Hlj). cbn [mbind res_bind].
  destruct (Class.isWrite (kind lj)); [|by eexists]. rewrite (label_ok _ _ _ Hlj). by eexists.
Qed.
Lemma isRMW_total : total_guard g isRMW.
Proof.
  intros i Hi. destruct (in_graph_store g Hg i Hi) as [l Hl]. unfold isRMW. rewrite (label_ok _ _ _ Hl). cbn [mbind res_bind].
  destruct (read_isRMW_total i Hi) as [b Eb]. destruct (Class.isRead (kind l)); [rewrite Eb|]; by eexists.
Qed.

(** *** Traversals *)
Lemma one_total f : (forall i l, in_graph g i -> store g !! i = Some l -> exists o, f g i = Ok o /\ forall p, o = Some p -> in_graph g p) ->
  total_rel g (one f).
Proof.
  intros H i Hi. destruct (in_graph_store g Hg i Hi) as [l Hl]. destruct (H i l Hi Hl) as (o & E & Ho). unfold one. rewrite E.
  eexists. split; [done|]. intros p Hp. apply Ho. destruct o as [q|]; [|by apply not_elem_of_nil in Hp].
  by apply list_elem_of_singleton in Hp as ->.
Qed.
Lemma many_total (R : relation) : (forall i l, in_graph g i -> store g !! i = Some l -> exists ps, R g i = Ok ps /\ forall p, p ∈ ps -> in_graph g p) ->
  total_rel g R.
Proof. intros H i Hi. destruct (in_graph_store g Hg i Hi) as [l Hl]. by apply (H i l). Qed.

Lemma links_read i l w : in_graph g i -> store g !! i = Some l -> Class.isRead (kind l) = true -> readsFrom l = Some w -> in_graph g w.
Proof.
  intros Hi Hl Hk Hw. apply (lk_links g Hc i l w Hi Hl). unfold Cut.links. rewrite Hk, Hw. rewrite !elem_of_app. right. left. by left.
Qed.

Lemma po_imm_succ_total : total_rel g po_imm_succ.
Proof. apply one_total. intros i l Hi _. by apply po_imm_succ_in. Qed.
Lemma po_imm_pred_total : total_rel g po_imm_pred.
Proof.
  apply one_total. intros i l Hi Hl. destruct (in_graph_pos g Hg i Hi) as (t & th & k & l' & Ht & Hk & Hl' & _). simplify_eq.
  rewrite (Relations.po_imm_pred_ok g Hg i l t th k Hl Ht Hk). eexists. split; [done|]. intros p Hp. case_decide; [done|].
  apply elem_concat. eauto.
Qed.
Lemma po_preds_in i : in_graph g i -> exists ps, Relations.po_preds g i = Ok ps /\ forall p, p ∈ ps -> in_graph g p.
Proof.
  intros Hi. destruct (in_graph_pos g Hg i Hi) as (t & th & k & l & Ht & Hk & Hl & _).
  rewrite (Relations.po_preds_ok g Hg i l t th k Hl Ht Hk). eexists. split; [done|]. intros p Hp. rewrite elem_of_rev in Hp.
  apply elem_of_take in Hp as (k' & Hk' & _). apply elem_concat. eauto.
Qed.
Lemma tc_succ_total : total_rel g tc_succ.
Proof.
  apply one_total. intros i l Hi Hl. unfold Relations.tc_succ. rewrite (label_ok _ _ _ Hl). cbn [mbind res_bind].
  destruct (Class.isKind Kind.ThreadCreate (kind l)) eqn:Ek; [|by eexists].
  destruct (lk_started g Hc i l Hi Hl ltac:(by left)) as [x Hx]. pose proof (at_event_in g _ x Hx) as Hin.
  unfold getFirstThreadLabel. rewrite Hx. cbn [mbind res_bind]. unfold dyn_cast.
  destruct (in_graph_store g Hg x Hin) as [lx Hlx]. rewrite (label_ok _ _ _ Hlx). cbn [mbind res_bind]. eexists. split; [done|].
  intros p. by destruct (Class.isThreadStart _); intros [= <-].
Qed.
Lemma tc_pred_total : total_rel g tc_pred.
Proof.
  apply one_total. intros i l Hi Hl. unfold Relations.tc_pred. rewrite (label_ok _ _ _ Hl). eexists. split; [done|].
  intros p. destruct (Class.isThreadStart (kind l)) eqn:Ek; [|done]. intros Hp. apply (lk_links g Hc i l p Hi Hl).
  unfold Cut.links. rewrite Ek, Hp, !elem_of_app. do 2 right. left. by left.
Qed.
Lemma tj_succ_total : total_rel g tj_succ.
Proof.
  apply one_total. intros i l Hi Hl. unfold Relations.tj_succ. rewrite (label_ok _ _ _ Hl). eexists. split; [done|].
  intros p. destruct (Class.isKind Kind.ThreadFinish (kind l)) eqn:Ek; [|done]. intros Hp. apply (lk_links g Hc i l p Hi Hl).
  unfold Cut.links. rewrite Ek, Hp, !elem_of_app. do 3 right. left. by left.
Qed.
Lemma tj_pred_total : total_rel g tj_pred.
Proof.
  apply one_total. intros i l Hi Hl. unfold Relations.tj_pred. rewrite (label_ok _ _ _ Hl). cbn [mbind res_bind].
  destruct (Class.isKind Kind.ThreadJoin (kind l)) eqn:Ek; [|by eexists].
  destruct (lk_started g Hc i l Hi Hl ltac:(by right)) as [x Hx]. unfold getEventLabel in Hx. cbn in Hx.
  destruct (vec_at (events g) (childId l)) as [th|] eqn:E; cbn in Hx; [|done]. apply vec_at_inv in E as [H0 E].
  unfold getLastThreadLabel. rewrite (wf_po g Hg). rewrite <- (Z2Nat.id (childId l)) by done. rewrite (vec_at_ok _ _ _ E). cbn [mbind res_bind].
  destruct (last th) as [j|] eqn:Ej; cbn [dyn_cast_if_present]; [|by eexists]. apply last_Some_elem_of in Ej.
  assert (Hj : in_graph g j) by (apply list_elem_of_lookup in Ej as [k Hk]; apply elem_concat; eauto).
  destruct (in_graph_store g Hg j Hj) as [lj Hlj]. unfold dyn_cast. rewrite (label_ok _ _ _ Hlj). eexists. split; [done|].
  intros p. by destruct (Class.isKind _ (kind lj)); intros [= <-].
Qed.
Lemma lin_succs_total : total_rel g lin_succs.
Proof.
  apply many_total. intros i l Hi Hl. unfold lin_succs, Relations.lin_succs. rewrite (label_ok _ _ _ Hl). eexists. split; [done|].
  intros p. destruct (Class.isKind Kind.MethodEnd (kind l)) eqn:Ek; [|by intros ?%not_elem_of_nil]. intros Hp.
  apply (lk_links g Hc i l p Hi Hl). unfold Cut.links. rewrite Ek, !elem_of_app. by do 5 right.
Qed.
Lemma lin_preds_total : total_rel g lin_preds.
Proof.
  apply many_total. intros i l Hi Hl. unfold lin_preds, Relations.lin_preds. rewrite (label_ok _ _ _ Hl). eexists. split; [done|].
  intros p. destruct (Class.isKind Kind.MethodBegin (kind l)) eqn:Ek; [|by intros ?%not_elem_of_nil]. intros Hp.
  apply (lk_links g Hc i l p Hi Hl). unfold Cut.links. rewrite Ek, !elem_of_app. do 4 right. by left.
Qed.
Lemma rf_succs_in i l : in_graph g i -> store g !! i = Some l ->
  exists ps, Relations.rf_succs g i = Ok ps /\ forall p, p ∈ ps -> in_graph g p.
Proof.
  intros Hi Hl. unfold Relations.rf_succs. rewrite (label_ok _ _ _ Hl). eexists. split; [done|].
  intros p. destruct (Class.isWrite (kind l)) eqn:Ek; [|by intros ?%not_elem_of_nil]. intros Hp.
  apply (wf_readers g Hg i l (getAddr l) p Hi Hl). unfold readers_at. by rewrite Ek.
Qed.
Lemma rf_succs_total : total_rel g rf_succs.
Proof. apply many_total. exact rf_succs_in. Qed.
Lemma same_thread_total l j : in_graph g j -> exists b, Relations.same_thread g l j = Ok b.
Proof. intros Hj. destruct (in_graph_store g Hg j Hj) as [lj Hlj]. unfold Relations.same_thread. rewrite (label_ok _ _ _ Hlj). by eexists. Qed.
Lemma rfe_succs_total : total_rel g rfe_succs.
Proof.
  apply many_total. intros i l Hi Hl. unfold rfe_succs, Relations.rfe_succs. rewrite (label_ok _ _ _ Hl). cbn [mbind res_bind].
  destruct (rf_succs_in i l Hi Hl) as (ps & -> & Hps). cbn [mbind res_bind].
  destruct (filterM_total (fun j => b ← Relations.same_thread g l j; Ok (negb b)) ps) as (l' & -> & Hl').
  { intros x Hx. destruct (same_thread_total l x (Hps x Hx)) as [b ->]. by eexists. }
  eexists. split; [done|]. intros p [Hp _]%Hl'. by apply Hps.
Qed.
Lemma rf_pred_total : total_rel g rf_pred.
Proof.
  apply one_total. intros i l Hi Hl. unfold Relations.rf_pred. rewrite (label_ok _ _ _ Hl). eexists. split; [done|].
  intros p. destruct (Class.isRead (kind l)) eqn:Ek; [|done]. by apply (links_read i l).
Qed.
Lemma reads_total i l : in_graph g i -> store g !! i = Some l -> Class.isRead (kind l) = true ->
  exists b c, Relations.readsInt g l = Ok b /\ Relations.readsExt g l = Ok c.
Proof.
  intros Hi Hl Hk. unfold Relations.readsInt, Relations.readsExt. destruct (readsFrom l) as [w|] eqn:Ew; [|by eexists _, _].
  destruct (in_graph_store g Hg w (links_read i l w Hi Hl Hk Ew)) as [lw Hlw]. rewrite (label_ok _ _ _ Hlw). by eexists _, _.
Qed.
Lemma rfi_pred_total : total_rel g rfi_pred.
Proof.
  apply one_total. intros i l Hi Hl. unfold Relations.rfi_pred. rewrite (label_ok _ _ _ Hl). cbn [mbind res_bind].
  destruct (Class.isRead (kind l)) eqn:Ek; [|by eexists].
  destruct (reads_total i l Hi Hl Ek) as (b & _ & -> & _). cbn [mbind res_bind].
  eexists. split; [done|]. intros p. destruct b; [|done]. by apply (links_read i l).
Qed.
Lemma rfe_pred_total : total_rel g rfe_pred.
Proof.
  apply one_total. intros i l Hi Hl. unfold Relations.rfe_pred. rewrite (label_ok _ _ _ Hl). cbn [mbind res_bind].
  destruct (Class.isRead (kind l)) eqn:Ek; [|by eexists].
  destruct (reads_total i l Hi Hl Ek) as (_ & b & _ & ->). cbn [mbind res_bind].
  eexists. split; [done|]. intros p. destruct b; [|done]. by apply (links_read i l).
Qed.

Lemma isSameLoc_total i j : in_graph g i -> in_graph g j -> exists b, Relations.isSameLoc g i j = Ok b.
Proof.
  intros Hi Hj. destruct (in_graph_store g Hg i Hi) as [l Hl], (in_graph_store g Hg j Hj) as [lj Hlj].
  unfold Relations.isSameLoc. rewrite (label_ok _ _ _ Hl). cbn [mbind res_bind]. rewrite (label_ok _ _ _ Hlj). by eexists.
Qed.
Lemma poloc_imm_pred_total : total_rel g poloc_imm_pred.
Proof.
  apply one_total. intros i l Hi Hl. unfold Relations.poloc_imm_pred, Relations.poloc_preds. rewrite (label_ok _ _ _ Hl). cbn [mbind res_bind].
  destruct (Class.isMemAccess (kind l)); [|by eexists]. destruct (po_preds_in i Hi) as (ps & -> & Hps). cbn [mbind res_bind].
  destruct (filterM_total (Relations.isSameLoc g i) ps) as (l' & -> & Hl'); [intros x Hx; apply isSameLoc_total; auto|].
  eexists. split; [done|]. intros p Hp%head_in. apply Hl' in Hp as [Hp _]. by apply Hps.
Qed.
Lemma detour_preds_total : total_rel g detour_preds.
Proof.
  apply many_total. intros i l Hi Hl. unfold detour_preds, Relations.detour_preds. rewrite (label_ok _ _ _ Hl). cbn [mbind res_bind].
  destruct (Class.isRead (kind l)) eqn:Ek; [|eexists; split; [done|by intros p ?%not_elem_of_nil]].
  assert (exists e, match readsFrom l with Some w => lw ← label g w; Ok (position lw) | None => Ok Event.getInit end = Ok e) as [e ->].
  { destruct (readsFrom l) as [w|] eqn:Ew; [|by eexists].
    destruct (in_graph_store g Hg w (links_read i l w Hi Hl Ek Ew)) as [lw Hlw]. rewrite (label_ok _ _ _ Hlw). by eexists. }
  cbn [mbind res_bind]. destruct (po_preds_in i Hi) as (ps & -> & Hps). cbn [mbind res_bind].
  destruct (filterM_total (Relations.DetourPredFilter g i e) ps) as (l' & -> & Hl').
  { intros x Hx. unfold Relations.DetourPredFilter. destruct (isSameLoc_total i x Hi (Hps x Hx)) as [b ->]. cbn [mbind res_bind].
    destruct (negb b); [by eexists|]. destruct (in_graph_store g Hg x (Hps x Hx)) as [lx Hlx]. rewrite (label_ok _ _ _ Hlx). by eexists. }
  eexists. split; [done|]. intros p [Hp _]%Hl'. by apply Hps.
Qed.
Lemma labels_of_total es : (forall e, e ∈ es -> at_event g e) ->
  exists ps, Relations.labels_of g es = Ok ps /\ forall p, p ∈ ps -> in_graph g p.
Proof.
  induction es as [|e es IH]; intros He; cbn.
  - exists []. split; [done|]. by intros p ?%not_elem_of_nil.
  - destruct (He e) as [x Hx]; [by left|]. rewrite Hx. cbn. destruct IH as (ps & -> & Hps); [intros e' He'; apply He; by right|].
    eexists. split; [done|]. intros p [->|Hp]%elem_of_cons; [by apply at_event_in in Hx|by apply Hps].
Qed.
Lemma other_labels_total : total_rel g other_labels.
Proof.
  apply many_total. intros i l Hi Hl. unfold other_labels, Relations.other_labels. rewrite (label_ok _ _ _ Hl). cbn [mbind res_bind].
  assert (Hin : forall x, x ∈ Relations.labels g -> in_graph g x).
  { intros x Hx. unfold Relations.labels in Hx. by rewrite (wf_io g Hg) in Hx. }
  destruct (filterM_total (fun j => lj ← label g j; Ok (negb (bool_decide (position lj = position l)))) (Relations.labels g)) as (l' & -> & Hl').
  { intros x Hx. destruct (in_graph_store g Hg x (Hin x Hx)) as [lx Hlx]. rewrite (label_ok _ _ _ Hlx). by eexists. }
  eexists. split; [done|]. intros p [Hp _]%Hl'. by apply Hin.
Qed.
Lemma self_total : total_rel g self.
Proof. apply many_total. intros i l Hi _. eexists. split; [done|]. by intros p ->%list_elem_of_singleton. Qed.
End linked.

Section total.
Context (g : Graph.t) (Hc : checkable g).
#[local] Abbreviation Hg := (ck_wf g Hc).
Lemma co_parts i l : in_graph g i -> store g !! i = Some l -> Class.isWrite (kind l) = true ->
  exists l1 l2, Relations.co_succs g i = Ok l2 /\ Relations.co_preds g i = Ok (rev l1) /\
    forall p, p ∈ l1 ++ l2 -> in_graph g p.
Proof.
  intros Hi Hl Hk. pose proof (ck_placed g Hc i l Hi Hl Hk) as Hp.
  destruct (Relations.co_at g Hg (getAddr l) i Hp) as (_ & l1 & l2 & _ & _ & _ & Hco & H1 & H2).
  destruct (Relations.co_ranges g Hg (getAddr l) i l1 l2 Hp Hco H1 H2) as [Hs Hpr]. exists l1, l2. split; [done|]. split; [done|].
  intros p Hin. apply (wf_co g Hg (getAddr l) p). destruct (Relations.co_list_at g _ _ Hco) as [-> _].
  rewrite elem_of_app in *. destruct Hin; [by left|by right; right].
Qed.
Lemma co_imm_succ_total : total_rel g co_imm_succ.
Proof.
  apply (one_total g Hc). intros i l Hi Hl. unfold Relations.co_imm_succ. destruct (Class.isWrite (kind l)) eqn:Ek.
  - destruct (co_parts i l Hi Hl Ek) as (l1 & l2 & -> & _ & Hin). eexists. split; [done|]. intros p Hp%head_in.
    apply Hin, elem_of_app. by right.
  - unfold Relations.co_succs. rewrite (label_ok _ _ _ Hl). cbn [mbind res_bind]. rewrite Ek. by eexists.
Qed.
Lemma co_imm_pred_total : total_rel g co_imm_pred.
Proof.
  apply (one_total g Hc). intros i l Hi Hl. unfold Relations.co_imm_pred. destruct (Class.isWrite (kind l)) eqn:Ek.
  - destruct (co_parts i l Hi Hl Ek) as (l1 & l2 & _ & -> & Hin). eexists. split; [done|]. intros p Hp%head_in.
    rewrite elem_of_rev in Hp. apply Hin, elem_of_app. by left.
  - unfold Relations.co_preds. rewrite (label_ok _ _ _ Hl). cbn [mbind res_bind]. rewrite Ek. by eexists.
Qed.
Lemma fr_ready_ok i l : in_graph g i -> store g !! i = Some l -> Class.isRead (kind l) = true ->
  exists w lw, Relations.fr_ready g i l w lw.
Proof. intros Hi Hl Hk. destruct (ck_source g Hc i l Hi Hl Hk) as (w & lw & ? & ? & ?). by exists w, lw. Qed.
Lemma fr_imm_succ_total : total_rel g fr_imm_succ.
Proof.
  apply (one_total g Hc). intros i l Hi Hl. unfold Relations.fr_imm_succ. destruct (Class.isRead (kind l)) eqn:Ek.
  - destruct (fr_ready_ok i l Hi Hl Ek) as (w & lw & Hr). destruct (Relations.fr_succs_ok g Hg i l w lw Hr) as (l1 & l2 & Hco & -> & _).
    eexists. split; [done|]. intros p Hp%head_in. apply (wf_co g Hg (getAddr l) p).
    destruct (Relations.co_list_at g _ _ Hco) as [-> _]. apply elem_of_app. by right.
  - unfold Relations.fr_succs. rewrite (label_ok _ _ _ Hl). cbn [mbind res_bind]. rewrite Ek. by eexists.
Qed.
Lemma fr_imm_preds_total : total_rel g fr_imm_preds.
Proof.
  apply (many_total g Hc). intros i l Hi Hl. unfold fr_imm_preds. destruct (Class.isWrite (kind l)) eqn:Ek.
  - pose proof (ck_placed g Hc i l Hi Hl Ek) as Hp.
    destruct (Relations.co_at g Hg (getAddr l) i Hp) as (_ & l1 & l2 & _ & _ & _ & Hco & H1 & H2).
    destruct (Relations.fr_imm_preds_ok g (getAddr l) i l1 l2 Hg (ck_init g Hc) Hp Hco H1 H2) as (p & lp & ps & _ & Hlp & -> & -> & Hin).
    eexists. split; [done|]. intros r Hr. by apply (wf_readers g Hg p lp (getAddr l) r).
  - unfold Relations.fr_imm_preds. rewrite (label_ok _ _ _ Hl). cbn [mbind res_bind]. rewrite Ek. eexists. split; [done|].
    by intros p ?%not_elem_of_nil.
Qed.
Lemma addr_preds_total : total_rel g addr_preds.
Proof.
  apply (many_total g Hc). intros i l Hi Hl. unfold addr_preds, Relations.addr_preds. rewrite (label_ok _ _ _ Hl). cbn [mbind res_bind].
  apply (labels_of_total g). intros e He. apply (ck_deps g Hc i l e Hi Hl). rewrite !elem_of_app. by left.
Qed.
Lemma data_preds_total : total_rel g data_preds.
Proof.
  apply (many_total g Hc). intros i l Hi Hl. unfold data_preds, Relations.data_preds. rewrite (label_ok _ _ _ Hl). cbn [mbind res_bind].
  apply (labels_of_total g). intros e He. apply (ck_deps g Hc i l e Hi Hl). rewrite !elem_of_app. right. by left.
Qed.
Lemma ctrl_preds_total : total_rel g ctrl_preds.
Proof.
  apply (many_total g Hc). intros i l Hi Hl. unfold ctrl_preds, Relations.ctrl_preds. rewrite (label_ok _ _ _ Hl). cbn [mbind res_bind].
  apply (labels_of_total g). intros e He. apply (ck_deps g Hc i l e Hi Hl). rewrite !elem_of_app. by do 2 right.
Qed.
End total.

Create HintDb checker.
#[export] Hint Resolve ck_linked : checker.
#[export] Hint Resolve test_total isa_total neg_total isRMW_total : checker.
#[export] Hint Resolve tc_succ_total tc_pred_total tj_succ_total tj_pred_total lin_succs_total lin_preds_total : checker.
#[export] Hint Resolve rf_succs_total rfe_succs_total rf_pred_total rfi_pred_total rfe_pred_total : checker.
#[export] Hint Resolve co_imm_succ_total co_imm_pred_total fr_imm_succ_total fr_imm_preds_total : checker.
#[export] Hint Resolve po_imm_succ_total po_imm_pred_total poloc_imm_pred_total detour_preds_total : checker.
#[export] Hint Resolve addr_preds_total data_preds_total ctrl_preds_total other_labels_total self_total : checker.

(** Every edge of a table is made of such guards and traversals. *)
Ltac table_total :=
  lazymatch goal with
  | |- total _ _ => unfold total; table_total
  | |- walk_total _ _ => unfold walk_total; table_total
  | |- Forall ?P ?l =>
      let l' := eval hnf in l in change (Forall P l');
      lazymatch l' with
      | [] => apply Forall_nil_2
      | _ :: _ => apply Forall_cons_2; [cbv beta; table_total|table_total]
      end
  | |- total_edge _ _ => split; cbn [from along into]; table_total
  | |- total_wedge _ _ => split; cbn [w_from w_along w_into]; table_total
  | |- _ => eauto with checker
  end.

(** *** Edges in terms of threads, coherence and reads-from *)
Import Search.
Section edges.
Context (g : Graph.t) (Hc : checkable g).
#[local] Abbreviation Hg := (ck_wf g Hc).

Lemma one_some f i j : f g i = Ok (Some j) -> exists ps, one f g i = Ok ps /\ j ∈ ps.
Proof. intros E. exists [j]. unfold one. rewrite E. split; [done|by left]. Qed.
Lemma one_inv f i j ps : one f g i = Ok ps -> j ∈ ps -> f g i = Ok (Some j).
Proof.
  unfold one. destruct (f g i) as [[k|]|]; cbn; [|by intros [= <-] ?%not_elem_of_nil|done].
  by intros [= <-] ->%list_elem_of_singleton.
Qed.

Lemma po_edge th k i j : th ∈ events g -> th !! k = Some i -> th !! S k = Some j -> Relations.po_imm_succ g i = Ok (Some j).
Proof.
  intros [t Ht]%list_elem_of_lookup Hi Hj. destruct (wf_pos g Hg t th k i Ht Hi) as (l & Hl & _).
  by rewrite (Relations.po_imm_succ_ok g Hg i l t th k Hl Ht Hi), Hj.
Qed.
Lemma po_edge_inv i j : in_graph g i -> Relations.po_imm_succ g i = Ok (Some j) ->
  exists th k, th ∈ events g /\ th !! k = Some i /\ th !! S k = Some j.
Proof.
  intros Hi E. destruct (in_graph_pos g Hg i Hi) as (t & th & k & l & Ht & Hk & Hl & _).
  rewrite (Relations.po_imm_succ_ok g Hg i l t th k Hl Ht Hk) in E. injection E as E. exists th, k. split; [by eapply list_elem_of_lookup_2|done].
Qed.

(** The coherence order around a write. *)
Lemma co_split a w : w ∈ list_at (coherence g) a -> exists l1 l2, list_at (coherence g) a = l1 ++ w :: l2 /\
  (w ∉ l1) /\ Relations.co_succs g w = Ok l2.
Proof.
  intros Hw. destruct (Relations.co_at g Hg a w Hw) as (l & l1 & l2 & _ & _ & _ & Hco & H1 & H2).
  destruct (Relations.co_ranges g Hg a w l1 l2 Hw Hco H1 H2) as [Hs _]. destruct (Relations.co_list_at g a _ Hco) as [E _].
  by exists l1, l2.
Qed.
Lemma co_edge a c1 w w' c2 : list_at (coherence g) a = c1 ++ w :: w' :: c2 -> Relations.co_imm_succ g w = Ok (Some w').
Proof.
  intros E. assert (Hw : w ∈ list_at (coherence g) a) by (rewrite E; apply elem_of_app; right; by left).
  destruct (co_split a w Hw) as (l1 & l2 & E' & _ & Hs). unfold Relations.co_imm_succ. rewrite Hs. cbn.
  pose proof (wf_co_nodup g Hg a) as Hnd. rewrite E in E', Hnd.
  by destruct (Relations.split_unique c1 (w' :: c2) l1 l2 w E' Hnd) as [_ <-].
Qed.
Lemma co_edge_inv w w' : in_graph g w -> Relations.co_imm_succ g w = Ok (Some w') -> exists a, before (list_at (coherence g) a) w w'.
Proof.
  intros Hw E. destruct (in_graph_store g Hg w Hw) as [l Hl]. unfold Relations.co_imm_succ in E.
  destruct (Class.isWrite (kind l)) eqn:Ek.
  - destruct (co_split (getAddr l) w (ck_placed g Hc w l Hw Hl Ek)) as (l1 & l2 & El & _ & Hs). rewrite Hs in E. cbn in E.
    exists (getAddr l). rewrite El. destruct l2 as [|x l2]; [done|]. injection E as ->. by exists l1, [], l2.
  - unfold Relations.co_succs in E. rewrite (label_ok _ _ _ Hl) in E. cbn [mbind res_bind] in E. by rewrite Ek in E.
Qed.

(** From-reads: the first write after the source. *)
Lemma fr_first r lr w lw : in_graph g r -> store g !! r = Some lr -> Class.isRead (kind lr) = true ->
  readsFrom lr = Some w -> store g !! w = Some lw ->
  exists l1 l2, list_at (coherence g) (getAddr lr) = l1 ++ l2 /\ Relations.fr_imm_succ g r = Ok (head l2) /\
    (if Class.isWrite (kind lw) then last l1 = Some w else l1 = []).
Proof.
  intros Hr Hlr Hk Hw Hlw. destruct (fr_ready_ok g Hc r lr Hr Hlr Hk) as (w' & lw' & Hrd).
  destruct (Relations.fr_succs_ok g Hg r lr w' lw' Hrd) as (l1 & l2 & Hco & Hfr & Hl1).
  destruct Hrd as (_ & _ & _ & Hw' & Hlw' & _). simplify_eq. destruct (Relations.co_list_at g _ _ Hco) as [E _].
  exists l1, l2. unfold Relations.fr_imm_succ. rewrite Hfr. split; [done|]. split; [done|]. destruct (Class.isWrite (kind lw)); [|done]. by destruct Hl1.
Qed.

(** Program order: the labels of a thread, in order. *)
Definition po (i j : lid) : Prop := exists th, th ∈ events g /\ before th i j.
Lemma po_succ_po i j : in_graph g i -> Relations.po_imm_succ g i = Ok (Some j) -> po i j.
Proof.
  intros Hi E. destruct (po_edge_inv i j Hi E) as (th & k & Hth & Hk & Hk'). exists th. split; [done|].
  apply before_lookup. exists k, (S k). split_and!; [done..|lia].
Qed.
Lemma po_trans i j k : po i j -> po j k -> po i k.
Proof.
  intros (th & Hth & Hij) (th' & Hth' & Hjk). pose proof (before_in _ _ _ Hij) as [_ Hj]. pose proof (before_in _ _ _ Hjk) as [Hj' _].
  assert (th = th') as <-.
  { apply list_elem_of_lookup in Hth as [t Ht], Hth' as [t' Ht']. apply list_elem_of_lookup in Hj as [n Hn], Hj' as [n' Hn'].
    destruct (wf_pos g Hg t th n j Ht Hn) as (l & Hl & Hp). destruct (wf_pos g Hg t' th' n' j Ht' Hn') as (l' & Hl' & Hp').
    simplify_eq. rewrite Hp in Hp'. injection Hp' as E _. assert (t = t') by lia. congruence. }
  exists th. split; [done|]. apply (before_trans th i j k); [|done..].
  apply list_elem_of_lookup in Hth as [t Ht]. by apply (thread_nodup g t th Hg).
Qed.
Lemma po_irrefl i : ~ po i i.
Proof.
  intros (th & [t Ht]%list_elem_of_lookup & Hi). by apply (before_irrefl th i) in Hi; [|apply (thread_nodup g t th Hg)].
Qed.
Lemma po_in i j : po i j -> in_graph g i /\ in_graph g j.
Proof.
  intros (th & [t Ht]%list_elem_of_lookup & [[n Hn]%list_elem_of_lookup [m Hm]%list_elem_of_lookup]%before_in).
  split; apply elem_concat; eauto.
Qed.
(** A later label of the thread is reached step by step. *)
Lemma po_first i j : po i j -> exists k, Relations.po_imm_succ g i = Ok (Some k) /\ (k = j \/ po k j).
Proof.
  intros (th & Hth & (n & m & Hn & Hm & Hlt)%before_lookup). destruct (lookup_lt_is_Some_2 th (S n)) as [k Hk].
  { apply lookup_lt_Some in Hm. lia. }
  exists k. split; [by apply (po_edge th n)|]. destruct (decide (m = S n)) as [->|]; [left; congruence|right].
  exists th. split; [done|]. apply before_lookup. exists (S n), m. split_and!; [done..|lia].
Qed.
Lemma po_ind_first (P : lid -> Prop) j :
  (forall i, in_graph g i -> Relations.po_imm_succ g i = Ok (Some j) -> P i) ->
  (forall i k, in_graph g i -> Relations.po_imm_succ g i = Ok (Some k) -> po k j -> P k -> P i) -> forall i, po i j -> P i.
Proof.
  intros H1 H2 i (th & Hth & (n & m & Hn & Hm & Hlt)%before_lookup).
  assert (Hin : forall n i, th !! n = Some i -> in_graph g i).
  { intros n' i' Hn'. apply list_elem_of_lookup in Hth as [t Ht]. apply elem_concat. eauto. }
  remember (m - S n)%nat as d eqn:Ed. revert n i Hn Hlt Ed. induction d as [|d IH]; intros n i Hn Hlt Ed.
  - apply H1; [by apply (Hin n)|]. apply (po_edge th n); [done..|]. by replace (S n) with m by lia.
  - destruct (lookup_lt_is_Some_2 th (S n)) as [k Hk]; [apply lookup_lt_Some in Hm; lia|].
    apply (H2 i k); [by apply (Hin n)|by apply (po_edge th n)| |by apply (IH (S n)); [|lia..]].
    exists th. split; [done|]. apply before_lookup. exists (S n), m. split_and!; [done..|lia].
Qed.
End edges.

(** Labels with a property. *)
Definition lab_is (g : Graph.t) (c : EventLabel.t -> bool) (i : lid) : Prop := exists l, store g !! i = Some l /\ c l = true.
Lemma holds_test g f cs i : holds (test f :: cs) g i = Ok true <-> lab_is g f i /\ holds cs g i = Ok true.
Proof.
  cbn. unfold test, label. split.
  - destruct (store g !! i) as [l|] eqn:El; cbn; [|done]. destruct (f l) eqn:E; [|done]. intros ?. split; [by exists l|done].
  - intros [(l & -> & E) ?]. cbn. by rewrite E.
Qed.
Lemma holds_nil g i : holds [] g i = Ok true <-> True.
Proof. done. Qed.

(** *** The shortcut of a check *)
(** A loop that gives up on the first candidate. *)
Lemma visit_each_none g (R : relation) ds i : Forall (total_guard g) ds -> total_rel g R -> in_graph g i ->
  exists b, visit_each (candidates g [] R ds (fun p => p) i) (fun _ => Ok false) = Ok b /\
    (b = true <-> forall p, ~ connects g [] R ds i p).
Proof.
  intros Hd HR Hi. destruct (candidates_ok g [] R ds (fun p => p) i Hi) as (ps & l & Hps & Hl & Hx); [constructor|done..|].
  unfold visit_each, run_loop. rewrite Hps. cbn [mbind res_bind]. rewrite (each_somes _ ps l tt Hl).
  destruct l as [|x l]; cbn [each mbind res_bind].
  - exists true. split; [done|]. split; [|done]. intros _ p Hp. apply (not_elem_of_nil p). apply Hx. by exists p.
  - exists false. split; [done|]. split; [done|]. intros H. destruct (proj1 (Hx x) ltac:(by left)) as (p & Hp & _). by destruct (H p).
Qed.
Lemma covered_false n : covered_by (replicate n false) (replicate n false) = true.
Proof. induction n as [|n IH]; [done|]. exact IH. Qed.

(** ** Checking a concrete graph *)
Definition implies (b c : bool) : bool := negb b || c.
Definition label_check (g : Graph.t) (i : lid) (l : EventLabel.t) : bool :=
  match stamp l with Some s => (0 <=? s) && (s <=? timestamp g) | None => false end &&
  forallb (fun j => bool_decide (j ∈ concat (events g))) (Cut.links l) &&
  implies (Class.isKind Kind.ThreadCreate (kind l) || Class.isKind Kind.ThreadJoin (kind l))
    (is_ok (getEventLabel g (Event.Event (childId l) 0))) &&
  implies (Class.isWrite (kind l)) (bool_decide (i ∈ list_at (coherence g) (getAddr l))) &&
  implies (Class.isRead (kind l))
    match readsFrom l with
    | Some w => match store g !! w with
        | Some lw => if Class.isWrite (kind lw) then bool_decide (w ∈ list_at (coherence g) (getAddr l))
                     else bool_decide (getInitLabel g = Ok w)
        | None => false
        end
    | None => false
    end &&
  forallb (fun e => is_ok (getEventLabel g e)) (addrDeps (deps l) ++ dataDeps (deps l) ++ ctrlDeps (deps l)).
Definition graph_check (g : Graph.t) : bool :=
  Cut.all_labels (label_check g) g &&
  bool_decide (NoDup (map (stamp_of g) (concat (events g)))) &&
  (0 <=? timestamp g) && (timestamp g + 1 <? 2 ^ 32) &&
  match getInitLabel g with
  | Ok n => match store g !! n with
      | Some ln => forallb (fun e => bool_decide (is_Some (initRfs ln !! e.1))) (map_to_list (coherence g))
      | None => false
      end
  | Abort _ => false
  end.

Lemma in_graph_check g i : bool_decide (i ∈ concat (events g)) = true -> in_graph g i.
Proof. by intros H%bool_decide_eq_true. Qed.
Lemma implies_spec b c : implies b c = true -> b = true -> c = true.
Proof. by destruct b, c. Qed.
Lemma is_ok_event g e : is_ok (getEventLabel g e) = true -> at_event g e.
Proof. unfold at_event. destruct (getEventLabel g e); [by eexists|done]. Qed.

Lemma graph_check_sound g : wf g -> graph_check g = true -> checkable g.
Proof.
  intros Hg H. unfold graph_check in H. rewrite !andb_true_iff in H. destruct H as [[[[Hl Hnd] Ht0] Ht1] Hi].
  assert (Hlab : forall i l, in_graph g i -> store g !! i = Some l -> label_check g i l = true) by (by apply Cut.all_labels_spec).
  apply bool_decide_eq_true in Hnd.
  assert (Hall : forall i l, in_graph g i -> store g !! i = Some l -> exists s, stamp l = Some s /\ 0 <= s <= timestamp g).
  { intros i l Hin Hli. specialize (Hlab i l Hin Hli). unfold label_check in Hlab. rewrite !andb_true_iff in Hlab.
    destruct Hlab as [[[[[Hs _] _] _] _] _]. destruct (stamp l) as [s|]; [|done]. exists s. split; [done|]. lia. }
  split; [split; [done|..]|..].
  - split; [done| |lia]. intros i j li lj Hin Hj Hli Hlj E.
    destruct (Hall i li Hin Hli) as (s & Es & _). apply list_elem_of_lookup in Hin as [k Hk], Hj as [k' Hk'].
    assert (k = k') as <-; [|congruence]. apply (NoDup_lookup _ k k' s Hnd); rewrite list_lookup_fmap.
    + rewrite Hk. cbn. unfold stamp_of. by rewrite Hli, Es.
    + rewrite Hk'. cbn. unfold stamp_of. by rewrite Hlj, <- E, Es.
  - intros i l j Hin Hli Hj. specialize (Hlab i l Hin Hli). unfold label_check in Hlab. rewrite !andb_true_iff in Hlab.
    destruct Hlab as [[[[[_ H] _] _] _] _]. rewrite forallb_forall in H. specialize (H j (proj1 (list_elem_of_In _ _) Hj)).
    by apply bool_decide_eq_true in H.
  - intros i l Hin Hli Hk. specialize (Hlab i l Hin Hli). unfold label_check in Hlab. rewrite !andb_true_iff in Hlab.
    destruct Hlab as [[[[_ H] _] _] _]. apply is_ok_event, (implies_spec _ _ H). apply orb_true_iff. tauto.
  - intros i l Hin Hli Hk. specialize (Hlab i l Hin Hli). unfold label_check in Hlab. rewrite !andb_true_iff in Hlab.
    destruct Hlab as [[[_ H] _] _]. by apply (implies_spec _ _ H), bool_decide_eq_true in Hk.
  - intros i l Hin Hli Hk. specialize (Hlab i l Hin Hli). unfold label_check in Hlab. rewrite !andb_true_iff in Hlab.
    destruct Hlab as [[_ H] _]. apply (implies_spec _ _ H) in Hk. destruct (readsFrom l) as [w|]; [|done].
    destruct (store g !! w) as [lw|] eqn:Elw; [|done]. exists w, lw. split; [done|]. split; [done|].
    by destruct (Class.isWrite (kind lw)); apply bool_decide_eq_true in Hk.
  - intros n ln a Hn Hln [c Ha]. rewrite Hn, Hln in Hi. rewrite forallb_forall in Hi.
    specialize (Hi ((a : Z), c)). apply (bool_decide_eq_true (is_Some (initRfs ln !! a))). apply Hi.
    apply list_elem_of_In, elem_of_map_to_list. exact Ha.
  - intros i l e Hin Hli He. specialize (Hlab i l Hin Hli). unfold label_check in Hlab. rewrite !andb_true_iff in Hlab.
    destruct Hlab as [_ H]. rewrite forallb_forall in H. apply is_ok_event, H. by apply list_elem_of_In.
Qed.
End Checkable.
