(* ===== verification/Scripts.v ===== *)
(** * Building concrete graphs

    A script is a list of the operations by which the driver builds a graph.
    Running it checks the side conditions of the operations, so that the result is
    well-formed and, by one more evaluation, checkable.  The litmus tests at the end
    are the graphs on which the theorems about the checkers are instantiated. *)

From stdpp Require Import relations.
From S2P Require Import Prelude Values Addresses Events VSet Views Labels Graph Relations Cut Search Automata Checkable.
Import EventLabel Graph.
Local Open Scope Z_scope.

Module Script.
Import Checkable.

Inductive cmd :=
  | Thread
  | Add (i : lid) (l : EventLabel.t)    (* at the end of its thread *)
  | Rf (r w : lid)
  | Co (w pred : lid).
Arguments Add i%_nat_scope l.
Arguments Rf (r w)%_nat_scope.
Arguments Co (w pred)%_nat_scope.

Definition ensure (b : bool) : option unit := if b then Some tt else None.
Definition result {A} (r : res A) : option A := match r with Ok a => Some a | Abort _ => None end.
Definition unlinked (l : EventLabel.t) : bool :=
  implies (Class.isRead (kind l)) (bool_decide (readsFrom l = None)) &&
  bool_decide (readerList l = []) && bool_decide (initRfs l = ∅).

Definition exec (c : cmd) (g : Graph.t) : option Graph.t :=
  match c with
  | Thread => Some (addNewThread g)
  | Add i l =>
      th ← events g !! Z.to_nat (getThread l);
      ensure (bool_decide (store g !! i = None) && unlinked l &&
        bool_decide (position l = Event.Event (Z.of_nat (Z.to_nat (getThread l))) (Z.of_nat (length th))));;
      result (addLabelToGraph i (alloc i l g))
  | Rf r w =>
      lr ← store g !! r; lw ← store g !! w;
      ensure (bool_decide (r ∈ concat (events g)) && bool_decide (w ∈ concat (events g)) && Class.isRead (kind lr) &&
        (Class.isWrite (kind lw) || bool_decide (kind lw = Kind.Init)));;
      result (setRf r (Some w) g)
  | Co w pred =>
      lw ← store g !! w; lp ← store g !! pred;
      ensure (bool_decide (w ∈ concat (events g)) && Class.isWrite (kind lw) &&
        bool_decide (w ∉ list_at (coherence g) (getAddr lw)) &&
        implies (Class.isWrite (kind lp)) (bool_decide (pred ∈ list_at (coherence g) (getAddr lw))));;
      result (addCo w pred g)
  end.

Lemma unlinked_clean l : unlinked l = true -> clean l.
Proof.
  unfold unlinked. rewrite !andb_true_iff, !bool_decide_eq_true. intros [[H1 H2] H3]. split.
  - intros Hk. by apply (implies_spec _ _ H1), bool_decide_eq_true in Hk.
  - intros a. unfold readers_at. rewrite H2, H3. destruct (Class.isWrite (kind l)); [done|].
    destruct (Class.isKind Kind.Init (kind l)); [|done]. unfold list_at. by rewrite lookup_empty.
Qed.

Ltac opt_inv H :=
  repeat (first
    [ progress cbn [mbind option_bind] in H
    | let x := fresh "v" in let E := fresh "E" in
      match type of H with (match ?m with Some _ => _ | None => None end) = Some _ => destruct m as [x|] eqn:E; [|discriminate H] end ]).

Lemma ensure_true b u : ensure b = Some u -> b = true.
Proof. by destruct b. Qed.
Lemma result_ok {A} (r : res A) a : result r = Some a -> r = Ok a.
Proof. destruct r; cbn; congruence. Qed.

Lemma exec_wf c g g' : wf g -> exec c g = Some g' -> wf g'.
Proof.
  intros Hg H. apply (step_wf g g' Hg). destruct c as [|i l|r w|w pred]; cbn [exec] in H.
  - injection H as <-. apply step_thread.
  - destruct (events g !! Z.to_nat (getThread l)) as [th|] eqn:Et; [|done]. cbn in H.
    destruct (ensure _) eqn:E; [|done]. cbn in H. apply ensure_true in E. apply result_ok in H.
    rewrite !andb_true_iff, !bool_decide_eq_true in E. destruct E as [[Hs Hu] Hp].
    apply (step_add g i l (Z.to_nat (getThread l)) th (length th) (fun _ => False)); [done|by apply unlinked_clean|done|apply slot_end|done..].
  - destruct (store g !! r) as [lr|] eqn:Er; [|done]. destruct (store g !! w) as [lw|] eqn:Ew; [|done]. cbn in H.
    destruct (ensure _) eqn:E; [|done]. cbn in H. apply ensure_true in E. apply result_ok in H.
    rewrite !andb_true_iff, !bool_decide_eq_true in E. destruct E as [[[Hr Hw] Hk] Hs].
    apply (step_setRf g r lr (Some w)); [done..| |done]. intros w' [= <-]. split; [done|]. exists lw. split; [done|].
    apply orb_true_iff in Hs as [?|Hs]; [by left|right]. by apply bool_decide_eq_true in Hs.
  - destruct (store g !! w) as [lw|] eqn:Ew; [|done]. destruct (store g !! pred) as [lp|] eqn:Ep; [|done]. cbn in H.
    destruct (ensure _) eqn:E; [|done]. cbn in H. apply ensure_true in E. apply result_ok in H.
    rewrite !andb_true_iff, !bool_decide_eq_true in E. destruct E as [[[Hw Hk] Hn] Hp].
    apply (step_addCo g w lw pred (if Class.isWrite (kind lp) then Some pred else None)); [done..| |done].
    exists lp. split; [done|]. destruct (Class.isWrite (kind lp)) eqn:Ekp; [|done]. split; [done|].
    by apply bool_decide_eq_true in Hp.
Qed.

Fixpoint run_script (cs : list cmd) (g : Graph.t) : option Graph.t :=
  match cs with [] => Some g | c :: cs => g ← exec c g; run_script cs g end.
Definition script (cs : list cmd) : Graph.t := default (initial 1%nat) (run_script cs (initial 1%nat)).

Lemma script_wf cs : wf (script cs).
Proof.
  unfold script. enough (forall g, wf g -> wf (default (initial 1%nat) (run_script cs g))) as H by apply H, initial_wf.
  induction cs as [|c cs IH]; intros g Hg; [done|]. cbn. destruct (exec c g) as [g'|] eqn:E; cbn; [|apply initial_wf].
  apply IH. by eapply exec_wf.
Qed.
Lemma script_checkable cs : graph_check (script cs) = true -> checkable (script cs).
Proof. apply graph_check_sound, script_wf. Qed.

(** ** Litmus tests *)
Definition loc_x : SAddr.t := 4096.
Definition loc_y : SAddr.t := 8192.
Definition write (t k : Z) (o : MemOrdering.t) (a : SAddr.t) (v : Z) : EventLabel.t :=
  mkWrite Kind.Write (Event.Event t k) o a 4 (SVal.ofValue v) WriteAttr_None noDeps.
Definition read (t k : Z) (o : MemOrdering.t) (a : SAddr.t) : EventLabel.t :=
  mkRead Kind.Read (Event.Event t k) o a 4 None None noDeps.
Definition fence (t k : Z) (o : MemOrdering.t) : EventLabel.t := mkFence (Event.Event t k) o noDeps.
(** The main thread creates the second one. *)
Definition spawn : list cmd := [
  Add 2 (mkThreadCreate (Event.Event 0 1) (Build_ThreadInfo 1 0 0 SVal.default (-1)) noDeps);
  Thread;
  Add 3 (mkThreadStart (Event.Event 1 0) (Event.Event 0 1) (Some 2%nat) noThreadInfo (-1))].

(** Store buffering: both threads write one location and read the other one, and
    both reads return the initial value. *)
Definition store_buffering (ow or : MemOrdering.t) : Graph.t := script (spawn ++ [
  Add 4 (write 0 2 ow loc_x 1); Co 4 1; Add 5 (read 0 3 or loc_y); Rf 5 1;
  Add 6 (write 1 1 ow loc_y 1); Co 6 1; Add 7 (read 1 2 or loc_x); Rf 7 1]).
(** Message passing: the reader sees the flag; [w] is the write its second read returns. *)
Definition message_passing (ow or : MemOrdering.t) (w : lid) : Graph.t := script (spawn ++ [
  Add 4 (write 0 2 MemOrdering.Relaxed loc_x 1); Co 4 1; Add 5 (write 0 3 ow loc_y 1); Co 5 1;
  Add 6 (read 1 1 or loc_y); Rf 6 5; Add 7 (read 1 2 MemOrdering.Relaxed loc_x); Rf 7 w]).

Lemma store_buffering_checkable : checkable (store_buffering MemOrdering.Relaxed MemOrdering.Relaxed).
Proof. apply script_checkable. vm_compute. reflexivity. Qed.
Lemma message_passing_checkable : checkable (message_passing MemOrdering.Release MemOrdering.Acquire 4%nat).
Proof. apply script_checkable. vm_compute. reflexivity. Qed.
End Script.
