(* ===== verification/GraphUtils.v ===== *)
(** * Helpers on graphs

    Models Execution/GraphUtils.cpp: the matching of locks and unlocks, the source of a
    confirming read, pending read-modify-writes and atomicity. *)

From stdpp Require Import relations.
From S2P Require Import Prelude Values Addresses Events VSet Views Labels Graph Relations Cut Search Automata Checkable Scripts.
Import EventLabel Graph.
Local Open Scope Z_scope.

Module GraphUtils.
Import Checkable.

(** ** Locks *)
Definition isUnlock (l : EventLabel.t) : bool := Class.classofKind Class.CUnlockWrite (kind l).
Definition isLock (l : EventLabel.t) : bool :=
  Class.classofKind Class.CCasWrite (kind l) &&
  (Class.classofKind Class.CLockCasWrite (kind l) || Class.isKind Kind.TrylockCasWrite (kind l)).

(** The loop of the two functions: a vector of the labels of one class that have no
    partner yet, and the first label of the other class that finds it empty. *)
Fixpoint scan (push pop : EventLabel.t -> bool) (a : SAddr.t) (g : Graph.t) (ps : list lid) (pending : list lid) : res (option lid) :=
  match ps with
  | [] => Ok None
  | x :: ps =>
      l ← label g x;
      let pending := if push l && bool_decide (getAddr l = a) then x :: pending else pending in
      if pop l && bool_decide (getAddr l = a) then
        match pending with [] => Ok (Some x) | _ :: pending => scan push pop a g ps pending end
      else scan push pop a g ps pending
  end.
Definition findMatchingLock (g : Graph.t) (uLab : lid) : res (option lid) :=
  l ← label g uLab; ps ← Relations.po_preds g uLab; scan isUnlock isLock (getAddr l) g ps [].
Definition findMatchingUnlock (g : Graph.t) (lLab : lid) : res (option lid) :=
  l ← label g lLab; verify (isLock l);; ps ← Relations.po_succs g lLab; scan isLock isUnlock (getAddr l) g ps [].

(** ** Speculations: the read, and the new value of [scLab] *)
Fixpoint speculation (a : SAddr.t) (g : Graph.t) (ps : list lid) (scLab : option lid) : res (option lid * option lid) :=
  match ps with
  | [] => Ok (None, scLab)
  | x :: ps =>
      l ← label g x;
      let scLab := if isSC l then Some x else scLab in
      if Class.isKind Kind.SpeculativeRead (kind l) && bool_decide (getAddr l = a) then Ok (Some x, scLab)
      else speculation a g ps scLab
  end.
Definition findMatchingSpeculativeRead (g : Graph.t) (cLab : lid) (scLab : option lid) : res (option lid * option lid) :=
  l ← label g cLab; ps ← Relations.po_preds g cLab; speculation (getAddr l) g ps scLab.

(** ** Pending read-modify-writes *)
(** [std::ranges::min_element] on stamps: the first of the smallest ones. *)
Fixpoint min_stamp (g : Graph.t) (best : lid) (labs : list lid) : res lid :=
  match labs with
  | [] => Ok best
  | x :: labs =>
      lx ← label g x; lb ← label g best; sx ← Cut.getStamp lx; sb ← Cut.getStamp lb;
      min_stamp g (if sx <? sb then x else best) labs
  end.
Definition getMinimumStampLabel (g : Graph.t) (labs : list lid) : res (option lid) :=
  match labs with [] => Ok None | x :: labs => m ← min_stamp g x labs; Ok (Some m) end.
(** The writes of the read-modify-writes among [rs], except that of [pLab]. *)
Fixpoint pending (g : Graph.t) (test : lid -> res bool) (pLab : lid) (rs : list lid) : res (list lid) :=
  match rs with
  | [] => Ok []
  | r :: rs =>
      b ← test r;
      if (b : bool) then s ← Relations.po_imm_succ g r; s ← deref s; w ← dyn_cast Class.isWrite g s; w ← deref w;
        ws ← pending g test pLab rs; Ok (w :: ws)
      else pending g test pLab rs
  end.
Definition rmw_but (g : Graph.t) (pLab r : lid) : res bool := b ← Relations.read_isRMW g r; Ok (b && bool_decide (r <> pLab)).
Definition same_rf_rmw_but (g : Graph.t) (pLab r : lid) : res bool :=
  l ← label g r; p ← label g pLab;
  if bool_decide (readsFrom l = readsFrom p) && bool_decide (r <> pLab) then Relations.read_isRMW g r else Ok false.
Definition findPendingRMW (g : Graph.t) (sLab : lid) : res (option lid) :=
  l ← label g sLab;
  if negb (Class.isRMWWrite (kind l)) then Ok None else
  p ← Relations.po_imm_pred g sLab; p ← deref p; p ← dyn_cast Class.isRead g p; p ← deref p;
  lp ← label g p;
  verify (bool_decide (is_Some (readsFrom lp)));;
  rf ← deref (readsFrom lp);
  w ← dyn_cast Class.isWrite g rf;
  match w with
  | Some w => lw ← label g w; ws ← pending g (rmw_but g p) p (readerList lw); getMinimumStampLabel g ws
  | None =>
      n ← getInitLabel g; ln ← label g n; rs ← at_loc (initRfs ln) (getAddr lp);
      ws ← pending g (same_rf_rmw_but g p) p rs; getMinimumStampLabel g ws
  end.
Definition violatesAtomicity (g : Graph.t) (sLab : lid) : res bool :=
  l ← label g sLab; if Class.isRMWWrite (kind l) then w ← findPendingRMW g sLab; Ok (bool_decide (is_Some w)) else Ok false.

(** ** Blocking *)
Definition blockThread (i : lid) (bLab : EventLabel.t) (g : Graph.t) : res Graph.t :=
  last ← getLastThreadLabel g (getThread bLab); last ← deref last; ll ← label g last;
  g ← (if bool_decide (position bLab = position ll) then r ← removeLast (getThread bLab) g; Ok r.1 else Ok g);
  addLabelToGraph i (alloc i bLab g).
Definition unblockThread (pos : Event.t) (g : Graph.t) : res Graph.t :=
  b ← getLastThreadLabel g (Event.thread pos); b ← deref b; l ← label g b;
  verify (Class.isBlock (kind l));; r ← removeLast (Event.thread pos) g; Ok r.1.

(** ** Matching *)
Section matching.
Context (g : Graph.t) (Hg : wf g).
(** A label counts 1 when it is pushed and -1 when it takes a partner away. *)
Definition weight (push pop : EventLabel.t -> bool) (a : SAddr.t) (x : lid) : Z :=
  match store g !! x with
  | Some l => if bool_decide (getAddr l = a) then (if push l then 1 else if pop l then -1 else 0) else 0
  | None => 0
  end.
Fixpoint sum (f : lid -> Z) (l : list lid) : Z := match l with [] => 0 | x :: l => f x + sum f l end.
Lemma sum_app f l1 l2 : sum f (l1 ++ l2) = sum f l1 + sum f l2.
Proof. induction l1 as [|x l1 IH]; cbn; [done|]. lia. Qed.
Lemma sum_rev f l : sum f (rev l) = sum f l.
Proof. induction l as [|x l IH]; [done|]. cbn [rev]. rewrite sum_app, IH. cbn. lia. Qed.
Lemma sum_opp f h l : (forall x, f x = - h x) -> sum f l = - sum h l.
Proof. intros E. induction l as [|x l IH]; [done|]. cbn. rewrite IH, E. lia. Qed.

(** [x] closes the scan of [pre]: everything pushed there has its partner there. *)
Definition closes (push pop : EventLabel.t -> bool) (a : SAddr.t) (n : nat) (pre : list lid) (x : lid) : Prop :=
  (exists l, store g !! x = Some l /\ pop l = true /\ getAddr l = a) /\
  Z.of_nat n + sum (weight push pop a) pre = 0 /\ forall q r, pre = q ++ r -> 0 <= Z.of_nat n + sum (weight push pop a) q.

Lemma scan_spec (push pop : EventLabel.t -> bool) a ps : (forall l, push l = true -> pop l = true -> False) ->
  (forall x, x ∈ ps -> in_graph g x) -> forall pending, exists o, scan push pop a g ps pending = Ok o /\
    forall x, o = Some x <-> exists pre post, ps = pre ++ x :: post /\ closes push pop a (length pending) pre x.
Proof.
  intros Hdis. induction ps as [|y ps IH]; intros Hin pending; cbn [scan].
  - exists None. split; [done|]. intros x. split; [done|]. intros (pre & post & E & _). by destruct pre.
  - destruct (in_graph_store g Hg y ltac:(apply Hin; by left)) as [l Hl]. rewrite (label_ok _ _ _ Hl). cbn [mbind res_bind].
    assert (IH' := IH (fun x Hx => Hin x ltac:(by right))). clear IH.
    assert (Hw : weight push pop a y = if bool_decide (getAddr l = a) then (if push l then 1 else if pop l then -1 else 0) else 0)
      by (unfold weight; by rewrite Hl).
    (* what a closing label of the rest is, when [y] is not one *)
    assert (Hcons : forall m : nat, Z.of_nat m = Z.of_nat (length pending) + weight push pop a y ->
      ~ (exists l, store g !! y = Some l /\ pop l = true /\ getAddr l = a /\ length pending = 0%nat) -> forall x,
      (exists pre post, ps = pre ++ x :: post /\ closes push pop a m pre x) <->
      (exists pre post, y :: ps = pre ++ x :: post /\ closes push pop a (length pending) pre x)).
    { intros m Hm Hno x. split.
      - intros (pre & post & -> & Hx & Hs & Hp). exists (y :: pre), post. split; [done|]. split; [done|]. cbn. split; [lia|].
        intros [|z q] r E; [cbn; lia|]. injection E as -> E. cbn. specialize (Hp q r E). lia.
      - intros ([|z pre] & post & E & Hx & Hs & Hp); [injection E as -> _; exfalso; cbn in Hs; apply Hno|].
        + destruct Hx as (lx & ? & ? & ?). exists lx. split_and!; [done..|lia].
        + injection E as <- ->. exists pre, post. split; [done|]. split; [done|]. cbn in Hs. split; [lia|].
          intros q r ->. specialize (Hp (y :: q) r eq_refl). cbn in Hp. lia. }
    destruct (push l) eqn:Epush; cbn [andb].
    + assert (pop l = false) as Epop by (destruct (pop l) eqn:E; [by destruct (Hdis l)|done]). rewrite Epop. cbn [andb].
      case_bool_decide.
      * destruct (IH' (y :: pending)) as (o & -> & Ho). exists o. split; [done|]. intros x. rewrite Ho. apply Hcons; [cbn [length]; lia|].
        intros (l' & Hl' & ? & _). congruence.
      * destruct (IH' pending) as (o & -> & Ho). exists o. split; [done|]. intros x. rewrite Ho. apply Hcons; [lia|].
        intros (l' & Hl' & ? & _). congruence.
    + destruct (pop l) eqn:Epop; cbn [andb].
      * case_bool_decide as Ha.
        -- destruct pending as [|z pending].
           ++ exists (Some y). split; [done|]. intros x. split.
              ** intros [= <-]. exists [], ps. split; [done|]. split; [by exists l|]. split; [done|]. intros q r E. by destruct q.
              ** intros ([|z pre] & post & E & _ & _ & Hp); [by injection E as ->|]. injection E as <- ->.
                 specialize (Hp [y] pre eq_refl). cbn in Hp. lia.
           ++ destruct (IH' pending) as (o & -> & Ho). exists o. split; [done|]. intros x. rewrite Ho. apply Hcons; [cbn [length]; lia|].
              intros (_ & _ & _ & _ & E). done.
        -- destruct (IH' pending) as (o & -> & Ho). exists o. split; [done|]. intros x. rewrite Ho. apply Hcons; [lia|].
           intros (l' & Hl' & _ & ? & _). congruence.
      * replace (if bool_decide (getAddr l = a) then 0 else 0) with 0 in Hw by (by case_bool_decide).
        destruct (IH' pending) as (o & -> & Ho). exists o. split; [done|]. intros x. rewrite Ho. apply Hcons; [lia|].
        intros (l' & Hl' & ? & _). congruence.
Qed.

(** *** Critical sections *)
(** Locks and unlocks of the location alternate properly in [m]. *)
Definition balanced (a : SAddr.t) (m : list lid) : Prop :=
  sum (weight isLock isUnlock a) m = 0 /\ forall q r, m = q ++ r -> 0 <= sum (weight isLock isUnlock a) q.
(** [l] locks and [u] unlocks a location in one thread, with critical sections in between. *)
Definition critical (l u : lid) : Prop :=
  exists th l1 m l2 ll lu, th ∈ events g /\ th = l1 ++ l :: m ++ u :: l2 /\
    store g !! l = Some ll /\ store g !! u = Some lu /\ isLock ll = true /\ isUnlock lu = true /\
    getAddr ll = getAddr lu /\ balanced (getAddr lu) m.

Lemma locks_differ l : isLock l = true -> isUnlock l = true -> False.
Proof. unfold isLock, isUnlock. by destruct (kind l). Qed.
Lemma weight_swap a x : weight isUnlock isLock a x = - weight isLock isUnlock a x.
Proof.
  unfold weight. destruct (store g !! x) as [l|]; [|done]. case_bool_decide; [|done].
  destruct (isUnlock l) eqn:E, (isLock l) eqn:E'; [by destruct (locks_differ l)|done..].
Qed.
(** Reading the labels backwards, unlocks are pushed. *)
Lemma balanced_rev a m : balanced a m <-> sum (weight isUnlock isLock a) (rev m) = 0 /\
  forall q r, rev m = q ++ r -> 0 <= sum (weight isUnlock isLock a) q.
Proof.
  assert (E : forall l, sum (weight isUnlock isLock a) l = - sum (weight isLock isUnlock a) l) by (intros; by apply sum_opp, weight_swap).
  assert (Hsplit : forall q r, sum (weight isLock isUnlock a) q = sum (weight isLock isUnlock a) (q ++ r) - sum (weight isLock isUnlock a) r)
    by (intros; rewrite sum_app; lia).
  unfold balanced. setoid_rewrite E. rewrite sum_rev. split; intros [H0 H]; (split; [lia|]); intros q r Em.
  - pose proof (H (rev r) (rev q)) as Hq. rewrite <- rev_app_distr, <- Em, rev_involutive, sum_rev in Hq. specialize (Hq eq_refl).
    rewrite (Hsplit q r), <- Em, sum_rev. lia.
  - pose proof (H (rev r) (rev q)) as Hq. rewrite <- rev_app_distr, <- Em, sum_rev in Hq. specialize (Hq eq_refl).
    rewrite (Hsplit q r), <- Em. lia.
Qed.

Lemma findMatchingLock_spec u lu : in_graph g u -> store g !! u = Some lu -> isUnlock lu = true ->
  exists o, findMatchingLock g u = Ok o /\ forall l, o = Some l <-> critical l u.
Proof.
  intros Hu Hlu Hku. destruct (in_graph_pos g Hg u Hu) as (t & th & j & lu' & Hth & Hj & Hlu' & _).
  unfold findMatchingLock. rewrite (label_ok _ _ _ Hlu). cbn [mbind res_bind].
  rewrite (Relations.po_preds_ok g Hg u lu t th j Hlu Hth Hj). cbn [mbind res_bind].
  destruct (scan_spec isUnlock isLock (getAddr lu) (rev (take j th))) with (pending := @nil lid) as (o & -> & Ho).
  { intros l H H'. by apply (locks_differ l). }
  { intros x Hx. rewrite elem_of_rev in Hx. apply elem_of_take in Hx as (k & Hk & _). apply elem_concat. eauto. }
  exists o. split; [done|]. intros l. rewrite Ho. split.
  - intros (pre & post & E & (ll & Hll & Hkl & Ha) & Hb). exists th, (rev post), (rev pre), (drop (S j) th), ll, lu.
    split; [by eapply list_elem_of_lookup_2|]. split.
    { rewrite <- (take_drop_middle th j u Hj) at 1. rewrite <- (rev_involutive (take j th)), E, rev_app_distr. cbn. by rewrite <- !app_assoc. }
    split_and!; [done..|]. apply balanced_rev. by rewrite rev_involutive.
  - intros (th' & l1 & m & l2 & ll & lu1 & [t' Hth']%list_elem_of_lookup & E & Hll & Hlu1 & Hkl & _ & Ha & Hb).
    assert (Hj' : th' !! (length l1 + S (length m))%nat = Some u).
    { rewrite E, lookup_app_r, Nat.add_comm, Nat.add_sub by lia. by apply (list_lookup_middle m l2 u). }
    destruct (wf_pos g Hg t th j u Hth Hj) as (x & Hx & Hp). destruct (wf_pos g Hg t' th' _ u Hth' Hj') as (x' & Hx' & Hp').
    assert (x' = x) as -> by congruence. rewrite Hp in Hp'. injection Hp' as Et Ej. assert (t' = t) as -> by lia. assert (th' = th) as -> by congruence.
    exists (rev m), (rev l1). split.
    + replace j with (length l1 + S (length m))%nat by lia. rewrite E. change (l :: m ++ u :: l2) with ((l :: m) ++ u :: l2). rewrite app_assoc, take_app_le by (rewrite length_app; cbn; lia).
      rewrite take_ge by (rewrite length_app; cbn; lia). rewrite rev_app_distr. cbn. by rewrite <- app_assoc.
    + assert (lu1 = lu) as -> by congruence. split; [by exists ll|]. by apply balanced_rev.
Qed.
Lemma findMatchingUnlock_spec l ll : in_graph g l -> store g !! l = Some ll -> isLock ll = true ->
  exists o, findMatchingUnlock g l = Ok o /\ forall u, o = Some u <-> critical l u.
Proof.
  intros Hl Hll Hkl. destruct (in_graph_pos g Hg l Hl) as (t & th & i & ll' & Hth & Hi & Hll' & _).
  unfold findMatchingUnlock. rewrite (label_ok _ _ _ Hll). cbn [mbind res_bind]. rewrite Hkl. cbn [verify mbind res_bind].
  rewrite (Relations.po_succs_ok g Hg l ll t th i Hll Hth Hi). cbn [mbind res_bind].
  destruct (scan_spec isLock isUnlock (getAddr ll) (drop (S i) th)) with (pending := @nil lid) as (o & -> & Ho).
  { intros x H H'. by apply (locks_differ x). }
  { intros x [k Hk]%list_elem_of_lookup. rewrite lookup_drop in Hk. apply elem_concat. eauto. }
  exists o. split; [done|]. intros u. rewrite Ho. split.
  - intros (pre & post & E & (lu & Hlu & Hku & Ha) & Hb). exists th, (take i th), pre, post, ll, lu.
    split; [by eapply list_elem_of_lookup_2|]. split; [rewrite <- (take_drop_middle th i l Hi) at 1; by rewrite E|].
    split_and!; try done. by rewrite Ha.
  - intros (th' & l1 & m & l2 & ll1 & lu & [t' Hth']%list_elem_of_lookup & E & Hll1 & Hlu & _ & Hku & Ha & Hb).
    assert (Hi' : th' !! length l1 = Some l) by (rewrite E; by apply list_lookup_middle).
    destruct (wf_pos g Hg t th i l Hth Hi) as (x & Hx & Hp). destruct (wf_pos g Hg t' th' _ l Hth' Hi') as (x' & Hx' & Hp').
    assert (x' = x) as -> by congruence. rewrite Hp in Hp'. injection Hp' as Et Ej. assert (t' = t) as -> by lia. assert (th' = th) as -> by congruence.
    assert (ll1 = ll) as -> by congruence.
    exists m, l2. split; [|split; [exists lu; by rewrite Ha|by rewrite Ha]].
    replace i with (length l1) by lia. rewrite E. change (l1 ++ l :: m ++ u :: l2) with (l1 ++ [l] ++ m ++ u :: l2).
    rewrite app_assoc, drop_app_length'; [done|]. rewrite length_app. cbn. lia.
Qed.
End matching.

(** ** Atomicity *)
Section rmw.
Context (g : Graph.t) (Hc : linked g).
#[local] Abbreviation Hg := (lk_wf g Hc).
Definition stamp_le (x y : lid) : Prop :=
  exists lx ly sx sy, store g !! x = Some lx /\ store g !! y = Some ly /\ stamp lx = Some sx /\ stamp ly = Some sy /\ sx <= sy.
Lemma stamps x y : in_graph g x -> in_graph g y -> stamp_le x y \/ stamp_le y x.
Proof.
  intros Hx Hy. destruct (in_graph_store g Hg x Hx) as [lx Hlx], (in_graph_store g Hg y Hy) as [ly Hly].
  destruct (Automaton.st_some g (lk_stamped g Hc) x lx Hx Hlx) as (sx & Ex & _), (Automaton.st_some g (lk_stamped g Hc) y ly Hy Hly) as (sy & Ey & _).
  destruct (Z.le_ge_cases sx sy); [left; by exists lx, ly, sx, sy|right; by exists ly, lx, sy, sx].
Qed.
Lemma stamp_trans x y z : stamp_le x y -> stamp_le y z -> stamp_le x z.
Proof.
  intros (lx & ly & sx & sy & Ex & Ey & Esx & Esy & Hle) (ly' & lz & sy' & sz & Ey' & Ez & Esy' & Esz & Hle').
  assert (ly' = ly) as -> by congruence. exists lx, lz, sx, sz. split_and!; [done..|]. assert (sy' = sy) as -> by congruence. lia.
Qed.
Lemma min_stamp_spec labs : (forall x, x ∈ labs -> in_graph g x) -> forall best, in_graph g best ->
  exists m, min_stamp g best labs = Ok m /\ m ∈ best :: labs /\ forall x, x ∈ best :: labs -> stamp_le m x.
Proof.
  induction labs as [|x labs IH]; intros Hin best Hb; cbn [min_stamp].
  - exists best. split; [done|]. split; [by left|]. intros x ->%list_elem_of_singleton. by destruct (stamps best best Hb Hb).
  - assert (Hx : in_graph g x) by (apply Hin; by left).
    destruct (in_graph_store g Hg x Hx) as [lx Hlx], (in_graph_store g Hg best Hb) as [lb Hlb].
    destruct (Automaton.st_some g (lk_stamped g Hc) x lx Hx Hlx) as (sx & Ex & _), (Automaton.st_some g (lk_stamped g Hc) best lb Hb Hlb) as (sb & Eb & _).
    rewrite (label_ok _ _ _ Hlx), (label_ok _ _ _ Hlb). cbn [mbind res_bind]. unfold Cut.getStamp. rewrite Ex, Eb. cbn [deref mbind res_bind].
    destruct (IH ltac:(intros y Hy; apply Hin; by right) (if sx <? sb then x else best)) as (m & -> & Hm & Hle); [by destruct (sx <? sb)|].
    exists m. split; [done|]. destruct (Z.ltb_spec sx sb).
    + split; [rewrite !elem_of_cons in *; tauto|]. intros y [->|[->|Hy]%elem_of_cons]%elem_of_cons; [|apply Hle; by left|apply Hle; by right].
      apply (stamp_trans m x best); [apply Hle; by left|]. exists lx, lb, sx, sb. split_and!; [done..|lia].
    + split; [rewrite !elem_of_cons in *; tauto|]. intros y [->|[->|Hy]%elem_of_cons]%elem_of_cons; [apply Hle; by left| |apply Hle; by right].
      apply (stamp_trans m best x); [apply Hle; by left|]. exists lb, lx, sb, sx. by split_and!.
Qed.

(** The write of a read-modify-write. *)
Definition rmw_write (r w : lid) : Prop := Relations.read_isRMW g r = Ok true /\ Relations.po_imm_succ g r = Ok (Some w).
Lemma rmw_write_ok r : Relations.read_isRMW g r = Ok true -> exists w lw, Relations.po_imm_succ g r = Ok (Some w) /\
  store g !! w = Some lw /\ Class.isWrite (kind lw) = true.
Proof.
  unfold Relations.read_isRMW. destruct (label g r) as [l|] eqn:El; [|done]. cbn [mbind res_bind]. destruct (negb _); [done|].
  destruct (Relations.po_imm_succ g r) as [[j|]|]; cbn [mbind res_bind dyn_cast_if_present]; [|done..].
  unfold dyn_cast. destruct (label g j) as [lj|] eqn:Ej; cbn [mbind res_bind]; [|done].
  destruct (Class.isWrite (kind lj)) eqn:Ek; [|done]. intros _. exists j, lj. split; [done|]. split; [|done].
  unfold label in Ej. destruct (store g !! j); [|done]. by injection Ej as <-.
Qed.
Lemma pending_spec test P p rs : decides test P rs -> (forall r, r ∈ rs -> in_graph g r) ->
  (forall r, r ∈ rs -> P r -> Relations.read_isRMW g r = Ok true) ->
  exists ws, pending g test p rs = Ok ws /\ forall w, w ∈ ws <-> exists r, r ∈ rs /\ P r /\ rmw_write r w.
Proof.
  induction rs as [|r rs IH]; intros Hd Hin HP; cbn [pending].
  - exists []. split; [done|]. intros w. split; [by intros ?%not_elem_of_nil|by intros (r & ?%not_elem_of_nil & _)].
  - apply decides_cons in Hd as [(b & -> & Hb) Hd]. cbn [mbind res_bind].
    destruct (IH Hd ltac:(intros y Hy; apply Hin; by right) ltac:(intros y Hy; apply HP; by right)) as (ws & Ews & Hws). destruct b.
    + assert (Hr : P r) by (by apply Hb). pose proof (HP r ltac:(by left) Hr) as Hrmw.
      destruct (rmw_write_ok r Hrmw) as (w & lw & Es & Hlw & Hk). rewrite Es. cbn [deref mbind res_bind]. unfold dyn_cast.
      rewrite (label_ok _ _ _ Hlw). cbn [mbind res_bind]. rewrite Hk. cbn [deref mbind res_bind]. rewrite Ews. cbn [mbind res_bind].
      eexists. split; [done|]. intros w'. rewrite elem_of_cons, Hws. setoid_rewrite elem_of_cons. split.
      * intros [->|(r' & ? & ? & ?)]; [exists r; by split_and!; [left|..]|exists r'; by split_and!; [right|..]].
      * intros (r' & [->|Hr'] & HPr & Hw); [left|right; by exists r']. destruct Hw as [_ Hw]. congruence.
    + exists ws. split; [done|]. intros w. rewrite Hws. setoid_rewrite elem_of_cons. split; [intros (r' & ? & ?); eauto|].
      intros (r' & [->|Hr'] & HPr & Hw); [|by exists r']. exfalso. apply Hb in HPr. done.
Qed.

(** Another read-modify-write with the source of the read [p]. *)
Definition competes (p r : lid) : Prop :=
  r <> p /\ in_graph g r /\ Relations.read_isRMW g r = Ok true /\
  exists lp lr, store g !! p = Some lp /\ store g !! r = Some lr /\ Class.isRead (kind lr) = true /\ readsFrom lr = readsFrom lp /\
    (forall n ln, readsFrom lp = Some n -> store g !! n = Some ln -> Class.isWrite (kind ln) = false -> getAddr lr = getAddr lp).
Lemma andb_decides test (P : lid -> Prop) p rs : decides test P rs -> decides (fun r => b ← test r; Ok (b && bool_decide (r <> p))) (fun r => P r /\ r <> p) rs.
Proof.
  intros H r Hr. destruct (H r Hr) as (b & -> & Hb). cbn [mbind res_bind]. eexists. split; [done|].
  by rewrite andb_true_iff, bool_decide_eq_true, Hb.
Qed.
Lemma isRMW_decides rs : (forall r, r ∈ rs -> in_graph g r) -> decides (Relations.read_isRMW g) (fun r => Relations.read_isRMW g r = Ok true) rs.
Proof.
  intros Hin r Hr. destruct (read_isRMW_total g Hc r (Hin r Hr)) as [b Eb]. exists b. split; [done|]. rewrite Eb. split; [by intros ->|by intros [= ->]].
Qed.
Lemma pending_rmws p lp w : in_graph g p -> store g !! p = Some lp -> Class.isRead (kind lp) = true -> readsFrom lp = Some w ->
  (forall lw, store g !! w = Some lw -> Class.isWrite (kind lw) = false -> getInitLabel g = Ok w) ->
  exists ws, (b ← dyn_cast Class.isWrite g w;
    match b with
    | Some w => lw ← label g w; pending g (rmw_but g p) p (readerList lw)
    | None => n ← getInitLabel g; ln ← label g n; rs ← at_loc (initRfs ln) (getAddr lp); pending g (same_rf_rmw_but g p) p rs
    end) = Ok ws /\ (forall x, x ∈ ws -> in_graph g x) /\ forall x, x ∈ ws <-> exists r, competes p r /\ rmw_write r x.
Proof.
  intros Hp Hlp Hkp Hw Hini. destruct (wf_rf g Hg p lp w Hp Hlp Hkp Hw) as (Hwin & lw & Hlw & Hpr).
  assert (Hrs : forall r, r ∈ readers_at lw (getAddr lp) -> in_graph g r /\ exists lr, store g !! r = Some lr /\
    Class.isRead (kind lr) = true /\ readsFrom lr = Some w /\ (kind lw = Kind.Init -> getAddr lr = getAddr lp)) by (intros r; by apply (wf_readers g Hg w)).
  assert (Hmem : forall r, r ∈ readers_at lw (getAddr lp) /\ (Relations.read_isRMW g r = Ok true /\ r <> p) <-> competes p r).
  { intros r. split.
    - intros [Hr [Hrmw Hne]]. destruct (Hrs r Hr) as (Hin & lr & Hlr & Hkr & Hrf & Ha). split; [done|]. split; [done|]. split; [done|].
      exists lp, lr. split_and!; [done..|congruence|]. intros n ln Hn Hln Hkn. assert (ln = lw) as -> by congruence. apply Ha.
      unfold readers_at in Hr. rewrite Hkn in Hr. destruct (Class.isKind Kind.Init (kind lw)) eqn:Ek; [by apply bool_decide_eq_true in Ek|].
      by apply not_elem_of_nil in Hr.
    - intros (Hne & Hin & Hrmw & lp' & lr & Hlp' & Hlr & Hkr & Hrf & Ha). assert (lp' = lp) as -> by congruence. split; [|done].
      destruct (wf_rf g Hg r lr w Hin Hlr Hkr ltac:(congruence)) as (_ & lw' & Hlw' & Hr). assert (lw' = lw) as -> by congruence.
      unfold readers_at in *. destruct (Class.isWrite (kind lw)) eqn:Ekw; [done|]. by rewrite <- (Ha w lw Hw Hlw Ekw). }
  assert (Hspec : forall test rs, rs = readers_at lw (getAddr lp) ->
    decides test (fun r => Relations.read_isRMW g r = Ok true /\ r <> p) rs ->
    exists ws, pending g test p rs = Ok ws /\ (forall x, x ∈ ws -> in_graph g x) /\ forall x, x ∈ ws <-> exists r, competes p r /\ rmw_write r x).
  { intros test rs -> Hd. destruct (pending_spec test _ p _ Hd) as (ws & E & Hws); [intros r Hr; by apply Hrs|by intros r _ [? _]|].
    assert (Hiff : forall x, x ∈ ws <-> exists r, competes p r /\ rmw_write r x).
    { intros x. rewrite Hws. setoid_rewrite <- Hmem. split; [intros (r & ? & ? & ?)|intros (r & [? ?] & ?)]; by exists r. }
    exists ws. split; [done|]. split; [|done]. intros x (r & (_ & Hin & _) & _ & Hx)%Hiff.
    destruct (po_imm_succ_in g Hc r Hin) as (o & Eo & Ho). apply Ho. congruence. }
  unfold dyn_cast. rewrite (label_ok _ _ _ Hlw). cbn [mbind res_bind]. destruct (Class.isWrite (kind lw)) eqn:Ekw.
  - rewrite (label_ok _ _ _ Hlw). cbn [mbind res_bind]. assert (readerList lw = readers_at lw (getAddr lp)) as E by (unfold readers_at; by rewrite Ekw).
    apply Hspec; [done|]. rewrite E. apply andb_decides, isRMW_decides. intros r Hr. by apply Hrs.
  - rewrite (Hini lw Hlw Ekw). cbn [mbind res_bind]. rewrite (label_ok _ _ _ Hlw). cbn [mbind res_bind].
    assert (Class.isKind Kind.Init (kind lw) = true) as Eki.
    { unfold readers_at in Hpr. rewrite Ekw in Hpr. destruct (Class.isKind _ _); [done|by apply not_elem_of_nil in Hpr]. }
    assert (readers_at lw (getAddr lp) = list_at (initRfs lw) (getAddr lp)) as E by (unfold readers_at; by rewrite Ekw, Eki).
    rewrite Relations.at_loc_ok; [|rewrite E in Hpr; unfold list_at in Hpr; destruct (initRfs lw !! getAddr lp); [by eexists|by apply not_elem_of_nil in Hpr]].
    cbn [mbind res_bind]. apply Hspec; [done|]. rewrite <- E. intros r Hr. destruct (Hrs r Hr) as (Hin & lr & Hlr & _ & Hrf & _).
    unfold same_rf_rmw_but. rewrite (label_ok _ _ _ Hlr). cbn [mbind res_bind]. rewrite (label_ok _ _ _ Hlp). cbn [mbind res_bind].
    rewrite Hrf, Hw, bool_decide_true by done. cbn [andb]. destruct (read_isRMW_total g Hc r Hin) as [b Eb]. case_bool_decide.
    + exists b. split; [done|]. rewrite Eb. split; [by intros ->|by intros [[= ->] _]].
    + exists false. split; [done|]. split; [done|]. by intros [_ ?].
Qed.
Lemma findPendingRMW_ok s ls p lp w : store g !! s = Some ls -> Class.isRMWWrite (kind ls) = true ->
  Relations.po_imm_pred g s = Ok (Some p) -> in_graph g p -> store g !! p = Some lp -> Class.isRead (kind lp) = true -> readsFrom lp = Some w ->
  (forall lw, store g !! w = Some lw -> Class.isWrite (kind lw) = false -> getInitLabel g = Ok w) ->
  exists o, findPendingRMW g s = Ok o /\
    match o with
    | None => forall r, ~ competes p r
    | Some x => (exists r, competes p r /\ rmw_write r x) /\ forall r y, competes p r -> rmw_write r y -> stamp_le x y
    end.
Proof.
  intros Hls Hks Ep Hp Hlp Hkp Hw Hini. destruct (pending_rmws p lp w Hp Hlp Hkp Hw Hini) as (ws & E & Hin & Hws).
  assert (findPendingRMW g s = getMinimumStampLabel g ws) as ->.
  { unfold findPendingRMW. rewrite (label_ok _ _ _ Hls). cbn [mbind res_bind]. rewrite Hks, Ep. cbn [negb deref mbind res_bind].
    assert (dyn_cast Class.isRead g p = Ok (Some p)) as -> by (unfold dyn_cast; rewrite (label_ok _ _ _ Hlp); cbn; by rewrite Hkp).
    cbn [deref mbind res_bind].
    rewrite (label_ok _ _ _ Hlp). cbn [mbind res_bind]. rewrite Hw. cbn [is_Some]. rewrite bool_decide_true by done. cbn [verify deref mbind res_bind].
    destruct (dyn_cast _ _ w) as [[w'|]|]; cbn [mbind res_bind] in *; [| |done].
    - destruct (label g w') as [lw|]; cbn [mbind res_bind] in *; [|done]. by rewrite E.
    - destruct (getInitLabel g) as [n|]; cbn [mbind res_bind] in *; [|done]. destruct (label g n) as [ln|]; cbn [mbind res_bind] in *; [|done].
      destruct (at_loc _ _) as [rs|]; cbn [mbind res_bind] in *; [|done]. by rewrite E. }
  destruct ws as [|x ws]; cbn [getMinimumStampLabel].
  - exists None. split; [done|]. intros r Hr. pose proof Hr as (_ & _ & Hrmw & _). destruct (rmw_write_ok r Hrmw) as (y & _ & Ey & _).
    apply (not_elem_of_nil y). apply Hws. by exists r.
  - destruct (min_stamp_spec ws ltac:(intros y Hy; apply Hin; by right) x ltac:(apply Hin; by left)) as (m & -> & Hm & Hle). cbn [mbind res_bind].
    exists (Some m). split; [done|]. split; [by apply Hws|]. intros r y Hr Hy. apply Hle, Hws. by exists r.
Qed.
End rmw.

(** ** Claims *)
(** C29: The write of a read-modify-write violates atomicity exactly when another
    read-modify-write of the graph has the same source; the pending one that is
    reported is then the write with the smallest stamp among those. *)
Theorem pending_rmw_correct (g : Graph.t) (s p w : lid) (ls lp : EventLabel.t) : linked g ->
  store g !! s = Some ls -> Class.isRMWWrite (kind ls) = true -> Relations.po_imm_pred g s = Ok (Some p) -> in_graph g p ->
  store g !! p = Some lp -> Class.isRead (kind lp) = true -> readsFrom lp = Some w ->
  (forall lw, store g !! w = Some lw -> Class.isWrite (kind lw) = false -> getInitLabel g = Ok w) ->
  exists o, findPendingRMW g s = Ok o /\ violatesAtomicity g s = Ok (bool_decide (is_Some o)) /\
    (is_Some o <-> exists r, competes g p r) /\
    forall x, o = Some x -> (exists r, competes g p r /\ rmw_write g r x) /\
      forall r y, competes g p r -> rmw_write g r y -> stamp_le g x y.
Proof.
  intros Hc Hls Hks Ep Hp Hlp Hkp Hw Hini. destruct (findPendingRMW_ok g Hc s ls p lp w Hls Hks Ep Hp Hlp Hkp Hw Hini) as (o & E & Ho).
  exists o. split; [done|]. split; [unfold violatesAtomicity; rewrite (label_ok _ _ _ Hls); cbn [mbind res_bind]; by rewrite Hks, E|]. split.
  - destruct o as [x|]; split; [intros _; destruct Ho as [(r & Hr & _) _]; by exists r|done|by intros []|intros [r Hr]; by destruct (Ho r)].
  - by intros x ->.
Qed.

(** Locks and unlocks match each other: an unlock finds a lock exactly when that
    lock finds the unlock, namely when both belong to one critical section of a
    thread, between which all critical sections of the location are complete. *)
Theorem lock_unlock_matching (g : Graph.t) (l u : lid) (ll lu : EventLabel.t) : wf g -> in_graph g l -> in_graph g u ->
  store g !! l = Some ll -> store g !! u = Some lu -> isLock ll = true -> isUnlock lu = true ->
  (exists o, findMatchingLock g u = Ok o) /\ (exists o, findMatchingUnlock g l = Ok o) /\
  (findMatchingLock g u = Ok (Some l) <-> findMatchingUnlock g l = Ok (Some u)) /\
  (findMatchingLock g u = Ok (Some l) <-> critical g l u).
Proof.
  intros Hg Hl Hu Hll Hlu Hkl Hku. destruct (findMatchingLock_spec g Hg u lu Hu Hlu Hku) as (o & -> & Ho).
  destruct (findMatchingUnlock_spec g Hg l ll Hl Hll Hkl) as (o' & -> & Ho'). rewrite <- (Ho l).
  split; [by exists o|]. split; [by exists o'|]. split; [|split; [by intros [= ->]|by intros ->]].
  split; intros [= E]; f_equal; [by apply Ho', Ho|by apply Ho, Ho'].
Qed.

(** Two atomic increments of the initial value, and a critical section. *)
Definition fai (t k : Z) (i : lid) : list Script.cmd := [
  Script.Add i (mkFaiRead Kind.FaiRead (Event.Event t k) MemOrdering.Relaxed Script.loc_x 4 RMW.Add (SVal.ofValue 1) WriteAttr_None None None noDeps);
  Script.Rf i 1;
  Script.Add (S i) (mkWrite Kind.FaiWrite (Event.Event t (k + 1)) MemOrdering.Relaxed Script.loc_x 4 (SVal.ofValue 1) WriteAttr_None noDeps);
  Script.Co (S i) 1].
Definition two_increments : Graph.t := Script.script (Script.spawn ++ fai 0 2 4%nat ++ fai 1 1 6%nat).
Lemma two_increments_checkable : checkable two_increments.
Proof. apply Script.script_checkable. vm_compute. reflexivity. Qed.
Example two_increments_verdict : violatesAtomicity two_increments 5%nat = Ok true /\ findPendingRMW two_increments 5%nat = Ok (Some 7%nat).
Proof. by vm_compute. Qed.
Definition get (g : Graph.t) (i : lid) : EventLabel.t := default mkInit (store g !! i).
Lemma get_ok g i : bool_decide (is_Some (store g !! i)) = true -> store g !! i = Some (get g i).
Proof. intros [l Hl]%bool_decide_eq_true. unfold get. by rewrite Hl. Qed.
Lemma pending_rmw_correct_witness : exists o, findPendingRMW two_increments 5%nat = Ok o /\
  violatesAtomicity two_increments 5%nat = Ok (bool_decide (is_Some o)) /\
  (is_Some o <-> exists r, competes two_increments 4%nat r) /\
  forall x, o = Some x -> (exists r, competes two_increments 4%nat r /\ rmw_write two_increments r x) /\
    forall r y, competes two_increments 4%nat r -> rmw_write two_increments r y -> stamp_le two_increments x y.
Proof.
  apply (pending_rmw_correct two_increments 5%nat 4%nat 1%nat (get two_increments 5%nat) (get two_increments 4%nat)).
  - apply two_increments_checkable.
  - apply get_ok. vm_compute. reflexivity.
  - vm_compute. reflexivity.
  - vm_compute. reflexivity.
  - apply in_graph_check. vm_compute. reflexivity.
  - apply get_ok. vm_compute. reflexivity.
  - vm_compute. reflexivity.
  - vm_compute. reflexivity.
  - intros lw _ _. vm_compute. reflexivity.
Defined.

Definition lock (k : Z) (i : lid) : list Script.cmd := [
  Script.Add i (mkCasRead Kind.LockCasRead (Event.Event 0 k) MemOrdering.Acquire Script.loc_x 4 (SVal.ofValue 0) (SVal.ofValue 1) WriteAttr_None None None noDeps);
  Script.Rf i 1;
  Script.Add (S i) (mkWrite Kind.LockCasWrite (Event.Event 0 (k + 1)) MemOrdering.Acquire Script.loc_x 4 (SVal.ofValue 1) WriteAttr_None noDeps);
  Script.Co (S i) 1].
Definition unlock (k : Z) (i : lid) : Script.cmd :=
  Script.Add i (mkWrite Kind.UnlockWrite (Event.Event 0 k) MemOrdering.Release Script.loc_x 4 (SVal.ofValue 0) WriteAttr_None noDeps).
Definition one_section : Graph.t := Script.script (lock 1 2%nat ++ [unlock 3 4%nat]).
Example one_section_verdict : findMatchingLock one_section 4%nat = Ok (Some 3%nat).
Proof. by vm_compute. Qed.
Lemma lock_unlock_matching_witness :
  (exists o, findMatchingLock one_section 4%nat = Ok o) /\ (exists o, findMatchingUnlock one_section 3%nat = Ok o) /\
  (findMatchingLock one_section 4%nat = Ok (Some 3%nat) <-> findMatchingUnlock one_section 3%nat = Ok (Some 4%nat)) /\
  (findMatchingLock one_section 4%nat = Ok (Some 3%nat) <-> critical one_section 3%nat 4%nat).
Proof.
  apply (lock_unlock_matching one_section 3%nat 4%nat (get one_section 3%nat) (get one_section 4%nat)).
  - apply Script.script_wf.
  - apply in_graph_check. vm_compute. reflexivity.
  - apply in_graph_check. vm_compute. reflexivity.
  - apply get_ok. vm_compute. reflexivity.
  - apply get_ok. vm_compute. reflexivity.
  - vm_compute. reflexivity.
  - vm_compute. reflexivity.
Defined.
End GraphUtils.
