(* ===== verification/Calc.v ===== *)
(** * Views of the labels

    Every label stores views: for some relations, the events before it.  The checkers
    calculate them with the walking automata [visitCalc<n>_<q>(lab, calcRes)] when a
    label is added: the walk collects the positions of the immediate predecessors and
    the views these have stored.

    The views live in a heap of views with shared bases ([Views]); [Calc.t] adds the
    vectors of views of the labels to it. *)

From stdpp Require Import relations.
From S2P Require Import Prelude Values Addresses Events VSet Views Labels Graph Relations Cut Search Automata Checkable Scripts.
Import EventLabel Graph.
Local Open Scope Z_scope.

Module Calc.
Import Search Automaton Checkable.

(** [calcRes.updateIdx(pLab->getPos())] and [calcRes.update(pLab->view(k))] *)
Inductive view_update := updateIdx | update (k : nat).

(** The views that labels own. *)
Record t := State {
  heap : View.store;
  calculatedViews : gmap lid (list View.vid);
  prefixView : gmap lid View.vid
}.
Abbreviation labelviews := (gmap lid (list View.vid)).
Definition set_heap (h : View.store) (st : t) : t := State h (calculatedViews st) (prefixView st).
Definition fresh_view (h : View.store) : View.vid := base.fresh (dom (View.views h) : gset View.vid).

(** [EventLabel::view(k)] *)
Definition view (g : Graph.t) (vs : labelviews) (i : lid) (k : nat) : res View.vid :=
  l ← label g i;
  vec_at (default [] (vs !! i))
    (if Event.isInitializer (position l) || bool_decide (kind l = Kind.Empty) then 0 else Z.of_nat k).

(** The options that ask for linearizability. *)
Record config := Config { collectLinSpec : bool; checkLinSpec : bool }.

Section calc.
Context (dbg : bool).

Definition act (c : View.vid) (g : Graph.t) (vs : labelviews) (x : view_update * lid) (h : View.store) : res (option View.store) :=
  match x.1 with
  | updateIdx => l ← label g x.2; h ← View.updateIdx dbg h c (position l); Ok (Some h)
  | update k => v ← view g vs x.2 k; h ← View.update dbg h c v; Ok (Some h)
  end.
(** [visitCalc<n>(lab)]: the calculated view is [c]; no visit returns false. *)
Definition visitCalc (A : list (wstate view_update)) (q : nat) (g : Graph.t) (vs : labelviews) (i : lid) (h : View.store) (c : View.vid) : res View.store :=
  let h := View.create h c in
  l ← label g i;
  h ← View.updateIdx dbg h c (position l);
  r ← visitWalk A (act c g vs) g q i h;
  match r with Some h => Ok h | None => Abort Unreachable end.

(** [lab->addView(view)] of a temporary view: the vector gets a copy. *)
Definition addView (i : lid) (c : View.vid) (st : t) : res t :=
  let v := fresh_view (heap st) in
  h ← View.copy (heap st) v c;
  Ok (State (View.destroy h c) (<[i := default [] (calculatedViews st !! i) ++ [v]]> (calculatedViews st)) (prefixView st)).
(** [lab->setViews({})] *)
Definition setViews (i : lid) (st : t) : t :=
  State (foldl View.destroy (heap st) (default [] (calculatedViews st !! i))) (<[i := []]> (calculatedViews st)) (prefixView st).
(** [lab->addView(checkCalc<n>(lab))] *)
Definition calculator := Graph.t -> labelviews -> lid -> View.store -> View.vid -> res View.store.
Definition addCalc (checkCalc : calculator) (g : Graph.t) (i : lid) (st : t) : res t :=
  let c := fresh_view (heap st) in
  h ← checkCalc g (calculatedViews st) i (heap st) c; addView i c (set_heap h st).
(** [lab->addView({})] *)
Definition addEmpty (i : lid) (st : t) : res t :=
  let c := fresh_view (heap st) in addView i c (set_heap (View.create (heap st) c) st).

(** [calcPPoRfBefore(lab)] *)
Definition prefix (st : t) (i : lid) : res View.vid := deref (prefixView st !! i).
Definition update_prefix (c : View.vid) (st : t) (o : option lid) (h : View.store) : res View.store :=
  match o with Some j => v ← prefix st j; View.update dbg h c v | None => Ok h end.
Definition calcPPoRfBefore (g : Graph.t) (i : lid) (st : t) (h : View.store) (c : View.vid) : res View.store :=
  l ← label g i;
  h ← View.updateIdx dbg (View.create h c) c (position l);
  p ← Relations.po_imm_pred g i;
  h ← update_prefix c st p h;
  h ← (if Class.isRead (kind l) then update_prefix c st (readsFrom l) h else Ok h);
  h ← (if Class.isThreadStart (kind l) then update_prefix c st (createLab l) h else Ok h);
  if Class.isKind Kind.ThreadJoin (kind l) then
    j ← getLastThreadLabel g (childId l); j ← deref j; update_prefix c st (Some j) h
  else Ok h.
(** [lab->setPrefixView(calculatePrefixView(lab))]; the old view is released. *)
Definition setPrefixView (i : lid) (c : View.vid) (st : t) : t :=
  State (match prefixView st !! i with Some v => View.destroy (heap st) v | None => heap st end)
    (calculatedViews st) (<[i := c]> (prefixView st)).
Definition updatePrefixView (g : Graph.t) (i : lid) (st : t) : res t :=
  let c := fresh_view (heap st) in
  h ← calcPPoRfBefore g i st (heap st) c; Ok (setPrefixView i c (set_heap h st)).
End calc.

(** ** What a calculation collects *)
Section collect.
Context (g : Graph.t) (Hg : wf g) (vs : labelviews) (c : View.vid) (h0 : View.store).

(** [n] is within what an action adds to the clock of [t]. *)
Definition adds (x : view_update) (j : lid) (t n : Z) : Prop :=
  match x with
  | updateIdx => exists l, store g !! j = Some l /\ Event.thread (position l) = t /\ n <= Event.index (position l)
  | update k => exists v, view g vs j k = Ok v /\ n <= View.clk h0 v t
  end.
Definition ready (x : view_update * lid) : Prop :=
  in_graph g x.2 /\ match x.1 with
  | updateIdx => True
  | update k => exists v, view g vs x.2 k = Ok v /\ v <> c /\ is_Some (View.views h0 !! v)
  end.
(** The heap has only changed in [c], whose clock satisfies [P]. *)
Definition holding (P : Z -> Z -> Prop) (h : View.store) : Prop :=
  View.wf h /\ is_Some (View.views h !! c) /\ (forall t n, 0 <= t -> 0 < n -> n <= View.clk h c t <-> P t n) /\
  (forall w, w <> c -> View.views h !! w = View.views h0 !! w) /\
  (forall w t, w <> c -> View.clk h w t = View.clk h0 w t).

Lemma position_thread j l : in_graph g j -> store g !! j = Some l -> 0 <= Event.thread (position l).
Proof. intros Hj Hl. destruct (in_graph_pos g Hg j Hj) as (t & th & k & l' & _ & _ & Hl' & E). simplify_eq. rewrite E. cbn. lia. Qed.

Lemma holding_good P h f h' Q : holding P h -> View.good h c f h' ->
  (forall t n, 0 <= t -> 0 < n -> n <= f t <-> Q t n) -> holding Q h'.
Proof.
  intros (_ & _ & _ & Hv & Hw) (Hwf & Hi & Hc & Hv' & Hw') Hf. split_and!; [done|done|..].
  - intros t n Ht Hn. rewrite Hc by done. by apply Hf.
  - intros w Hne. by rewrite Hv', Hv.
  - intros w t Hne. by rewrite Hw', Hw.
Qed.
Lemma updateIdx_holding P h e : holding P h -> 0 <= Event.thread e ->
  exists h', View.updateIdx false h c e = Ok h' /\
    holding (fun t n => P t n \/ Event.thread e = t /\ n <= Event.index e) h'.
Proof.
  intros HP He. pose proof HP as (Hwf & [x Hx] & Hc & _). destruct (View.updateIdx_good false h c x e) as (h' & Hh & Hg'); [done|done|by intros ?|done|].
  exists h'. split; [done|]. eapply holding_good; [exact HP|exact Hg'|]. intros t n Ht Hn. rewrite <- Hc by done. unfold View.upd.
  case_decide as E; [rewrite E; split; [lia|intros [?|[_ ?]]; lia]|]. split; [by left|intros [?|[? _]]; [done|congruence]].
Qed.
Lemma update_holding P h v : holding P h -> v <> c -> is_Some (View.views h0 !! v) ->
  exists h', View.update false h c v = Ok h' /\ holding (fun t n => P t n \/ n <= View.clk h0 v t) h'.
Proof.
  intros HP Hv [y Hy]. pose proof HP as (Hwf & [x Hx] & Hc & Hvs & Hw).
  destruct (View.update_good false h c v x y) as (h' & Hh & Hg'); [done|done|by rewrite Hvs|by intros ?|].
  exists h'. split; [done|]. eapply holding_good; [exact HP|exact Hg'|]. intros t n Ht Hn. rewrite <- Hc by done. unfold View.maxf.
  rewrite (Hw v) by done. lia.
Qed.
Lemma holding_ext P Q h : (forall t n, 0 <= t -> 0 < n -> P t n <-> Q t n) -> holding P h -> holding Q h.
Proof. intros E (H1 & H2 & H3 & H4 & H5). split_and!; try done. intros t n Ht Hn. by rewrite <- E, H3. Qed.
Lemma act_holding P h x : holding P h -> ready x ->
  exists h', act false c g vs x h = Ok (Some h') /\ holding (fun t n => P t n \/ adds x.1 x.2 t n) h'.
Proof.
  intros HP [Hin Hr]. destruct x as [[|k] j]; cbn [fst snd] in *; unfold act; cbn [fst snd].
  - destruct (in_graph_store g Hg j Hin) as [l Hl]. rewrite (label_ok _ _ _ Hl). cbn [mbind res_bind].
    destruct (updateIdx_holding P h (position l) HP) as (h' & -> & Hh); [by apply (position_thread j)|]. exists h'. split; [done|].
    eapply holding_ext; [|exact Hh]. intros t n _ _. cbn. split; (intros [?|H]; [by left|right]); [by exists l|].
    destruct H as (l' & Hl' & Hn). rewrite Hl in Hl'. by injection Hl' as <-.
  - destruct Hr as (v & Hv & Hne & Hs). rewrite Hv. cbn [mbind res_bind].
    destruct (update_holding P h v HP Hne Hs) as (h' & -> & Hh). exists h'. split; [done|].
    eapply holding_ext; [|exact Hh]. intros t n _ _. cbn. split; (intros [?|H]; [by left|right]); [by exists v|].
    destruct H as (v' & Hv' & Hn). rewrite Hv in Hv'. by injection Hv' as <-.
Qed.
Lemma acts_holding tr : Forall ready tr -> forall P h, holding P h ->
  exists h', each (act false c g vs) tr h = Ok (Some h') /\
    holding (fun t n => P t n \/ exists x j, (x, j) ∈ tr /\ adds x j t n) h'.
Proof.
  induction 1 as [|x tr Hx _ IH]; intros P h HP; cbn [each].
  - exists h. split; [done|]. eapply holding_ext; [|exact HP]. intros t n _ _. split; [by left|].
    by intros [?|(x & j & ?%not_elem_of_nil & _)].
  - destruct (act_holding P h x HP Hx) as (h1 & -> & H1). cbn [mbind res_bind]. destruct (IH _ _ H1) as (h2 & -> & H2).
    exists h2. split; [done|]. eapply holding_ext; [|exact H2]. intros t n _ _. setoid_rewrite elem_of_cons.
    destruct x as [x j]. cbn [fst snd]. split; [|naive_solver].
    intros [[?|?]|(y & k & ? & ?)]; [by left|right; exists x, j; auto|right; exists y, k; auto].
Qed.

Lemma create_holding : View.wf h0 -> View.views h0 !! c = None -> holding (fun _ _ => False) (View.create h0 c).
Proof.
  intros Hwf Hc. destruct (View.with_view_good h0 c View.no_view) as (H1 & H2 & H3 & H4 & H5); [done|done|by left|].
  split_and!; [done|done| |done|done]. intros t n Ht Hn. unfold View.create. rewrite H3 by done.
  unfold View.view_clock. cbn. rewrite View.diff_clock_init. lia.
Qed.

Context (A : list (wstate view_update)) (rank : nat -> nat) (Hst : stamped g).
Context (HA : walk_ok A rank = true) (Ht : walk_total A g).
(** The walk from [i] performs [x] at [j]. *)
Definition found (q : nat) (i : lid) (x : view_update) (j : lid) : Prop :=
  exists a, rtc (walks A g) (q, i) a /\ runs A g a x j.
Lemma found_in q i x j : in_graph g i -> found q i x j -> in_graph g j.
Proof.
  intros Hi (a & Ha & Hr).
  destruct (rtc_on _ _ _ (walks_leads A g rank HA Ht) (q, i) a Hi Ha) as [_ Hin].
  destruct Hr as [[_ ->]|(e & He & _ & Hm)]; [done|]. by apply (walk_edge_in A g rank HA Ht a.1 e a.2 j).
Qed.
Lemma visitCalc_holding q i : (q < length A)%nat -> in_graph g i -> View.wf h0 -> View.views h0 !! c = None ->
  (forall x j, found q i x j -> ready (x, j)) ->
  exists h, visitCalc false A q g vs i h0 c = Ok h /\
    holding (fun t n => adds updateIdx i t n \/ exists x j, found q i x j /\ adds x j t n) h.
Proof.
  intros Hq Hi Hwf Hc Hr. destruct (in_graph_store g Hg i Hi) as [l Hl]. unfold visitCalc. rewrite (label_ok _ _ _ Hl). cbn [mbind res_bind].
  destruct (updateIdx_holding _ _ (position l) (create_holding Hwf Hc)) as (h1 & -> & H1); [by apply (position_thread i)|].
  cbn [mbind res_bind].
  destruct (visitWalk_runs A (act false c g vs) g rank Hg Hst HA Ht q i Hq Hi) as (tr & Htr & Hruns). rewrite Htr.
  destruct (acts_holding tr) with (P := fun t n => False \/ Event.thread (position l) = t /\ n <= Event.index (position l)) (h := h1)
    as (h2 & -> & H2); [|done|].
  - apply Forall_forall. intros [x j] Hx. apply Hr. by apply Hruns.
  - cbn [mbind res_bind]. exists h2. split; [done|]. eapply holding_ext; [|exact H2]. intros t n _ _.
    assert (forall x j, (x, j) ∈ tr <-> found q i x j) as Hf by exact Hruns. setoid_rewrite Hf.
    apply or_iff_compat_r. split; [intros [[]|?]; by exists l|]. intros (l' & Hl' & Hn). rewrite Hl in Hl'. injection Hl' as <-. by right.
Qed.
End collect.

(** ** The shape of the tables

    State 0 ends a walk, state 1 takes over the stored view of the label it is
    reached at, and every edge that collects a position has a twin to state 1. *)
Definition twin {X} (e e' : wedge X) : Prop :=
  w_from e = w_from e' /\ w_along e = w_along e' /\ w_into e = w_into e'.
Definition paired_edge (es : list (wedge view_update)) (e : wedge view_update) : Prop :=
  (w_acts e = [updateIdx] /\ w_to e = 0%nat /\ Exists (fun e' => twin e e' /\ w_acts e' = [] /\ w_to e' = 1%nat) es) \/
  (w_acts e = [] /\ w_to e = 1%nat /\ Exists (fun e' => twin e e' /\ w_acts e' = [updateIdx]) es) \/
  (w_acts e = [] /\ (2 <= w_to e)%nat).
Record paired (k : nat) (A : list (wstate view_update)) : Prop := {
  p_first : exists rest, A = WState [] false [] :: WState [] false [WEdge [] self [] [update k] 0] :: rest /\
    Forall (fun st => w_entry st = [] /\ Forall (paired_edge (w_edges st)) (w_edges st)) rest
}.

Section paired.
Context (k : nat) (A : list (wstate view_update)) (HP : paired k A) (g : Graph.t).
Lemma paired_zero : wstate_at A 0 = WState [] false [].
Proof. by destruct HP as [(rest & -> & _)]. Qed.
Lemma paired_one : wstate_at A 1 = WState [] false [WEdge [] self [] [update k] 0].
Proof. by destruct HP as [(rest & -> & _)]. Qed.
Lemma paired_rest q : (2 <= q)%nat -> w_entry (wstate_at A q) = [] /\
  forall e, e ∈ w_edges (wstate_at A q) -> paired_edge (w_edges (wstate_at A q)) e.
Proof.
  intros Hq. destruct HP as [(rest & -> & Hrest)]. destruct q as [|[|q]]; [lia..|]. unfold wstate_at. cbn.
  destruct (rest !! q) as [st|] eqn:E; cbn; [|split; [done|]; by intros e ?%not_elem_of_nil].
  rewrite Forall_forall in Hrest. destruct (Hrest st (list_elem_of_lookup_2 _ _ _ E)) as [? He]. split; [done|].
  by rewrite Forall_forall in He.
Qed.
Lemma twin_walk (e e' : wedge view_update) i j : twin e e' -> walk_edge g e i j -> walk_edge g e' i j.
Proof. intros (E1 & E2 & E3). unfold walk_edge. by rewrite E1, E2, E3. Qed.

Lemma runs_updateIdx a j : runs A g a updateIdx j ->
  exists e, (2 <= a.1)%nat /\ e ∈ w_edges (wstate_at A a.1) /\ w_acts e = [updateIdx] /\ walk_edge g e a.2 j.
Proof.
  destruct a as [[|[|q]] i]; unfold runs; cbn [fst snd].
  - rewrite paired_zero. by intros [[?%not_elem_of_nil _]|(e & ?%not_elem_of_nil & _)].
  - rewrite paired_one. intros [[?%not_elem_of_nil _]|(e & ->%list_elem_of_singleton & Hx & _)]; [done|].
    by apply list_elem_of_singleton in Hx.
  - destruct (paired_rest (S (S q))) as [He Hp]; [lia|]. rewrite He. intros [[?%not_elem_of_nil _]|(e & Hin & Hx & Hm)]; [done|].
    exists e. split; [lia|]. split; [done|]. split; [|done].
    destruct (Hp e Hin) as [(? & _)|[(E & _)|(E & _)]]; [done|rewrite E in Hx; by apply not_elem_of_nil in Hx..].
Qed.
Lemma runs_update a k' j : runs A g a (update k') j -> k' = k /\ a = (1%nat, j).
Proof.
  destruct a as [[|[|q]] i]; unfold runs; cbn [fst snd].
  - rewrite paired_zero. by intros [[?%not_elem_of_nil _]|(e & ?%not_elem_of_nil & _)].
  - rewrite paired_one. intros [[?%not_elem_of_nil _]|(e & ->%list_elem_of_singleton & Hx & Hm)]; [done|].
    apply list_elem_of_singleton in Hx as [= ->]. destruct Hm as (_ & (ps & [= <-] & Hj) & _).
    by apply list_elem_of_singleton in Hj as ->.
  - destruct (paired_rest (S (S q))) as [He Hp]; [lia|]. rewrite He. intros [[?%not_elem_of_nil _]|(e & Hin & Hx & Hm)]; [done|].
    exfalso. destruct (Hp e Hin) as [(E & _)|[(E & _)|(E & _)]]; rewrite E in Hx; [by apply list_elem_of_singleton in Hx|by apply not_elem_of_nil in Hx..].
Qed.
Lemma one_runs j : runs A g (1%nat, j) (update k) j.
Proof.
  right. cbn [fst snd]. rewrite paired_one. eexists. split; [by left|]. split; [by left|].
  split; [done|]. split; [|done]. exists [j]. split; [done|by left].
Qed.
(** What a walk collects is where it takes over the stored views. *)
Lemma found_paired q i j : (2 <= q)%nat -> found g A q i (update k) j <-> found g A q i updateIdx j.
Proof.
  intros Hq. split.
  - intros (a & Hr & [_ ->]%runs_update). apply rtc_inv_r in Hr as [[= -> ->]|(b & Hb & (e & He & Eto & Hm))]; [lia|].
    cbn [fst snd] in *. destruct b as [[|[|p]] b]; cbn [fst snd] in *.
    + rewrite paired_zero in He. by apply not_elem_of_nil in He.
    + rewrite paired_one in He. by apply list_elem_of_singleton in He as ->.
    + destruct (paired_rest (S (S p))) as [_ Hp]; [lia|]. destruct (Hp e He) as [(_ & E & _)|[(_ & _ & Hex)|(_ & E)]]; [congruence| |lia].
      apply Exists_exists in Hex as (e' & He' & Htw & Ea). exists (S (S p), b). split; [done|]. right. exists e'. split; [done|].
      split; [rewrite Ea; by left|by apply (twin_walk e)].
  - intros (a & Hr & (e & Ha & He & Ea & Hm)%runs_updateIdx). destruct (paired_rest a.1 Ha) as [_ Hp].
    destruct (Hp e He) as [(_ & _ & Hex)|[(E & _)|(E & _)]]; [|congruence..]. apply Exists_exists in Hex as (e' & He' & Htw & _ & Eto).
    exists (1%nat, j). split; [|by apply one_runs]. eapply rtc_r; [exact Hr|]. exists e'. split; [done|]. split; [done|]. by apply (twin_walk e).
Qed.
Lemma found_update q i k' j : found g A q i (update k') j -> k' = k.
Proof. intros (a & _ & [-> _]%runs_update). done. Qed.
(** The predecessors of a table whose start only leads to the states 0 and 1. *)
Definition flat_start (q : nat) : bool := forallb (fun e => (w_to e <? 2)%nat) (w_edges (wstate_at A q)).
Lemma flat_found q i j : flat_start q = true -> (2 <= q)%nat -> found g A q i updateIdx j <->
  exists e, e ∈ w_edges (wstate_at A q) /\ w_acts e = [updateIdx] /\ walk_edge g e i j.
Proof.
  intros Hf Hq. unfold flat_start in Hf. rewrite forallb_forall in Hf. split.
  - intros (a & Hr & (e & Ha & He & Ea & Hm)%runs_updateIdx). apply rtc_inv in Hr as [<-|(b & (e' & He' & Eto & _) & Hr)]; [by exists e|].
    exfalso. cbn [fst] in He'. specialize (Hf e' (proj1 (list_elem_of_In _ _) He')). apply Nat.ltb_lt in Hf. destruct b as [p b]. cbn in Eto. subst p.
    assert (forall x y, rtc (walks A g) x y -> (x.1 < 2)%nat -> (y.1 < 2)%nat) as Hlow; [|apply Hlow in Hr; [lia|done]].
    intros x y Hxy. induction Hxy as [x|x z y (e2 & He2 & Eto2 & _) _ IH]; [done|]. intros Hx. apply IH. rewrite <- Eto2.
    destruct x as [[|[|p]] x]; cbn [fst] in *; [rewrite paired_zero in He2; by apply not_elem_of_nil in He2| |lia].
    rewrite paired_one in He2. apply list_elem_of_singleton in He2 as ->. cbn. lia.
  - intros (e & He & Ea & Hm). exists (q, i). split; [apply rtc_refl|]. right. exists e. split; [done|]. split; [rewrite Ea; by left|done].
Qed.
End paired.

(** ** Views are exact *)
Section exact.
Context (g : Graph.t) (Hc : linked g) (k : nat) (A : list (wstate view_update)) (q : nat) (rank : nat -> nat).
Context (HA : walk_ok A rank = true) (Ht : walk_total A g) (HP : paired k A) (Hq : (2 <= q < length A)%nat).
#[local] Abbreviation Hg := (lk_wf g Hc).

(** [j] is an immediate predecessor of [i] in the relation of the table. *)
Definition pre (i j : lid) : Prop := found g A q i updateIdx j.
Definition reach (i j : lid) : Prop := j = i \/ tc pre i j.
(** The clock of the view: the latest event of each thread among those before [i]. *)
Definition within (i : lid) (t n : Z) : Prop :=
  exists j l, reach i j /\ store g !! j = Some l /\ Event.thread (position l) = t /\ n <= Event.index (position l).
Definition shows (h : View.store) (v : View.vid) (i : lid) : Prop :=
  forall t n, 0 <= t -> 0 < n -> n <= View.clk h v t <-> within i t n.

Lemma pre_in i j : in_graph g i -> pre i j -> in_graph g j.
Proof. intros Hi. by apply (found_in g A rank HA Ht). Qed.
Lemma within_step i t n : within i t n <->
  adds g ∅ View.empty_store updateIdx i t n \/ exists j, pre i j /\ within j t n.
Proof.
  unfold within, adds. split.
  - intros (j & l & [->|Hj] & Hl & Ht' & Hn); [left; by exists l|]. right.
    inversion Hj as [? ? H|? m ? H Hm]; subst; [exists j; split; [done|]; exists j, l; by split; [left|]|].
    exists m. split; [done|]. exists j, l. by split; [right|].
  - intros [(l & Hl & Ht' & Hn)|(m & Hm & j & l & Hj & Hl & Ht' & Hn)]; [exists i, l; by split; [left|]|].
    exists j, l. split; [|done]. right. destruct Hj as [->|Hj]; [by apply tc_once|by eapply tc_l].
Qed.

(** When the predecessors have exact views, the calculated view is exact. *)
Lemma visitCalc_exact vs h0 c i : in_graph g i -> View.wf h0 -> View.views h0 !! c = None ->
  (forall j, pre i j -> exists v, view g vs j k = Ok v /\ is_Some (View.views h0 !! v) /\ shows h0 v j) ->
  exists h, visitCalc false A q g vs i h0 c = Ok h /\ View.wf h /\ is_Some (View.views h !! c) /\ shows h c i /\
    (forall w, w <> c -> View.views h !! w = View.views h0 !! w) /\
    (forall w t, w <> c -> View.clk h w t = View.clk h0 w t).
Proof.
  intros Hi Hwf Hcf Hpre.
  destruct (visitCalc_holding g Hg vs c h0 A rank (lk_stamped g Hc) HA Ht q i) as (h & Hh & Hwf' & Hs & Hclk & Hv & Hw); [lia|done..| |].
  - intros x j Hf. split; [by apply (found_in g A rank HA Ht q i x)|]. destruct x as [|k']; [done|]. cbn [fst snd].
    assert (k' = k) as -> by (by eapply found_update). apply (found_paired k A HP) in Hf; [|lia].
    destruct (Hpre j Hf) as (v & Hv & Hsv & _). exists v. split; [done|]. split; [|done]. intros ->. rewrite Hcf in Hsv. by destruct Hsv.
  - exists h. split_and!; try done. intros t n Ht' Hn. rewrite Hclk, within_step by done. apply or_iff_compat_l. split.
    + intros ([|k'] & j & Hf & Ha).
      * exists j. split; [done|]. apply within_step. by left.
      * assert (k' = k) as -> by (by eapply found_update). apply (found_paired k A HP) in Hf; [|lia].
        destruct Ha as (v & Hv' & Hn'). destruct (Hpre j Hf) as (v' & Hv'' & _ & Hsh). rewrite Hv' in Hv''. injection Hv'' as <-.
        exists j. split; [done|]. by apply Hsh.
    + intros (j & Hf & Hin). destruct (Hpre j Hf) as (v & Hv' & _ & Hsh). exists (update k), j.
      split; [by apply (found_paired k A HP); [lia|]|]. exists v. split; [done|]. by apply Hsh.
Qed.

(** *** Containment *)
Context (Hpo : forall i j, in_graph g i -> Relations.po_imm_pred g i = Ok (Some j) -> pre i j).
Lemma po_pre i j : po g j i -> tc pre i j.
Proof.
  intros (th & Hth & (n & m & Hn & Hm & Hlt)%before_lookup). pose proof Hth as [t Hth']%list_elem_of_lookup.
  assert (Hstep : forall n i j, th !! S n = Some i -> th !! n = Some j -> pre i j).
  { intros n' i' j' Hi' Hj'. assert (in_graph g i') as Hin by (apply elem_concat; eauto). apply Hpo; [done|].
    destruct (wf_pos g Hg t th (S n') i' Hth' Hi') as (l & Hl & _). rewrite (Relations.po_imm_pred_ok g Hg i' l t th (S n') Hl Hth' Hi').
    rewrite decide_False by lia. cbn [Nat.pred]. by rewrite Hj'. }
  remember (m - S n)%nat as d eqn:Ed. revert m i Hm Hlt Ed. induction d as [|d IH]; intros m i Hm Hlt Ed.
  - apply tc_once. apply (Hstep n); [|done]. by replace (S n) with m by lia.
  - destruct m as [|m]; [lia|]. destruct (lookup_lt_is_Some_2 th m) as [i' Hi']; [apply lookup_lt_Some in Hm; lia|].
    eapply tc_l; [by apply (Hstep m)|]. apply (IH m i'); [done|lia|lia].
Qed.
Lemma reach_in i j : in_graph g i -> reach i j -> in_graph g j.
Proof.
  intros Hi [->|Ht']; [done|]. by destruct (tc_on (in_graph g) pre pre (fun a b Ha H => conj H (pre_in a b Ha H)) i j Hi Ht').
Qed.
(** The view contains exactly the events before the label, itself included. *)
Lemma shows_contains h v i j l : View.wf h -> is_Some (View.views h !! v) -> shows h v i -> in_graph g i -> in_graph g j ->
  store g !! j = Some l -> 0 < Event.index (position l) -> View.contains h v (position l) = Ok true <-> reach i j.
Proof.
  intros Hwf [x Hx] Hsh Hi Hj Hl Hpos. destruct (in_graph_pos g Hg j Hj) as (t & th & n & l' & Hth & Hn & Hl' & Ep). simplify_eq.
  rewrite (View.contains_ok h v x _ Hwf Hx) by (rewrite Ep; cbn; lia). split.
  - intros [= H%Z.leb_le]. apply Hsh in H; [|rewrite Ep; cbn; lia|done]. destruct H as (m & lm & Hm & Hlm & Et & Hidx).
    destruct (in_graph_pos g Hg m (reach_in i m Hi Hm)) as (t' & th' & n' & l'' & Hth' & Hn' & Hl'' & Ep'). simplify_eq.
    rewrite Ep, Ep' in Et, Hidx. cbn in Et, Hidx. assert (t' = t) as -> by lia. simplify_eq.
    destruct (decide (n' = n)) as [->|]; [by simplify_eq|]. assert (tc pre m j) as Hmj.
    { apply po_pre. exists th. split; [by eapply list_elem_of_lookup_2|]. apply before_lookup. exists n, n'. split_and!; [done..|lia]. }
    right. destruct Hm as [->|Hm]; [done|by eapply tc_transitive].
  - intros Hr. f_equal. apply Z.leb_le. apply Hsh; [rewrite Ep; cbn; lia|done|]. exists j, l. done.
Qed.
End exact.

(** ** The views that labels own *)
(** Where a view is owned: in the vector of a label, or as its prefix. *)
Definition slot (st : t) (s : lid * option nat) : option View.vid :=
  match s.2 with Some n => default [] (calculatedViews st !! s.1) !! n | None => prefixView st !! s.1 end.
Record valid (st : t) : Prop := {
  v_heap : View.wf (heap st);
  v_live s v : slot st s = Some v -> is_Some (View.views (heap st) !! v);
  v_inj s s' v : slot st s = Some v -> slot st s' = Some v -> s = s'
}.
(** The slots in [P] keep their views and clocks. *)
Definition keeps (P : lid * option nat -> Prop) (st st' : t) : Prop :=
  forall s v, P s -> slot st s = Some v -> slot st' s = Some v /\ forall t, View.clk (heap st') v t = View.clk (heap st) v t.
Lemma keeps_trans P Q st st1 st2 : (forall s, P s -> Q s) -> keeps P st st1 -> keeps Q st1 st2 -> keeps P st st2.
Proof.
  intros HPQ H1 H2 s v Hs Hv. destruct (H1 s v Hs Hv) as [Hv1 E1]. destruct (H2 s v (HPQ s Hs) Hv1) as [Hv2 E2].
  split; [done|]. intros t. by rewrite E2, E1.
Qed.

Lemma fresh_view_free h : View.views h !! fresh_view h = None.
Proof. apply not_elem_of_dom. apply (is_fresh (dom (View.views h) : gset View.vid)). Qed.
Lemma destroy_clk h v w t : w <> v -> View.clk (View.destroy h v) w t = View.clk h w t.
Proof. intros Hne. unfold View.clk, View.destroy. cbn. by rewrite lookup_delete_ne. Qed.
Lemma destroy_wf h v : View.wf h -> View.wf (View.destroy h v).
Proof. intros [H1 H2]. split; [exact H1|]. intros w x Hw. cbn in Hw. apply lookup_delete_Some in Hw as [_ Hw]. by apply (H2 w). Qed.
Lemma destroys vs : forall h, View.wf h -> View.wf (foldl View.destroy h vs) /\
  forall w, w ∉ vs -> View.views (foldl View.destroy h vs) !! w = View.views h !! w /\
    forall t, View.clk (foldl View.destroy h vs) w t = View.clk h w t.
Proof.
  induction vs as [|v vs IH]; intros h Hh; cbn [foldl]; [done|]. destruct (IH (View.destroy h v) (destroy_wf h v Hh)) as [Hw Hk].
  split; [done|]. intros w [Hne Hin]%not_elem_of_cons. destruct (Hk w Hin) as [E1 E2]. split.
  - rewrite E1. cbn. by rewrite lookup_delete_ne.
  - intros t. by rewrite E2, destroy_clk.
Qed.

Lemma setViews_spec i st : valid st -> valid (setViews i st) /\
  keeps (fun s => s.1 <> i \/ s.2 = None) st (setViews i st) /\ default [] (calculatedViews (setViews i st) !! i) = [].
Proof.
  intros Hst. destruct (destroys (default [] (calculatedViews st !! i)) (heap st) (v_heap st Hst)) as [Hwf Hk].
  assert (Hslot : forall s v, slot (setViews i st) s = Some v -> slot st s = Some v /\ (s.1 <> i \/ s.2 = None)).
  { intros [j [n|]] v; unfold slot; cbn; [|intros Hs; split; [done|by right]]. destruct (decide (j = i)) as [->|Hne].
    - by rewrite lookup_insert_eq.
    - rewrite lookup_insert_ne by done. intros Hs. split; [done|by left]. }
  assert (Hother : forall s v, s.1 <> i \/ s.2 = None -> slot st s = Some v -> v ∉ default [] (calculatedViews st !! i)).
  { intros s v Hs Hv [n Hn]%list_elem_of_lookup. pose proof (v_inj st Hst s (i, Some n) v Hv Hn) as ->. by destruct Hs. }
  split; [split|split].
  - exact Hwf.
  - intros s v Hv. destruct (Hslot s v Hv) as [Hv' Hs]. destruct (Hk v (Hother s v Hs Hv')) as [E _]. cbn. rewrite E. by apply (v_live st Hst s).
  - intros s s' v Hv Hv'. apply (v_inj st Hst s s' v); by apply Hslot.
  - intros s v Hs Hv. split; [|intros t; by apply (Hk v (Hother s v Hs Hv))]. unfold slot in *. cbn. destruct s as [j [n|]]; cbn in *; [|done].
    rewrite lookup_insert_ne; [done|]. destruct Hs; congruence.
  - cbn. by rewrite lookup_insert_eq.
Qed.

(** A new view goes to the end of the vector. *)
Definition appended (i : lid) (st st' : t) (v : View.vid) : Prop :=
  valid st' /\ keeps (fun _ => True) st st' /\ is_Some (View.views (heap st') !! v) /\
  default [] (calculatedViews st' !! i) = default [] (calculatedViews st !! i) ++ [v].
Lemma addView_spec i c st h : valid st -> View.wf h -> View.views (heap st) !! c = None -> is_Some (View.views h !! c) ->
  (forall w, w <> c -> View.views h !! w = View.views (heap st) !! w) ->
  (forall w t, w <> c -> View.clk h w t = View.clk (heap st) w t) ->
  exists st' v, addView i c (set_heap h st) = Ok st' /\ appended i st st' v /\ forall t, View.clk (heap st') v t = View.clk h c t.
Proof.
  intros Hst Hwf Hfree [x Hx] Hv Hw. set (v := fresh_view h). pose proof (fresh_view_free h) as Hfr. fold v in Hfr.
  assert (Hvc : v <> c) by congruence. unfold addView. cbn. fold v. unfold View.copy, View.view_of. rewrite Hx. cbn [deref mbind res_bind].
  eexists _, v. split; [done|]. destruct (View.wf_views h Hwf c x Hx) as [Hb Hd].
  pose proof (View.with_view_good h v x Hwf Hb Hd) as (Hwf1 & _ & Hc1 & Hv1 & Hw1).
  assert (Hold : forall s w, slot st s = Some w -> w <> v /\ w <> c).
  { intros s w Hsw. destruct (v_live st Hst s w Hsw) as [y Hy]. split; intros ->; [|congruence].
    rewrite (Hv v Hvc) in Hfr. congruence. }
  assert (Hclk : forall w t, w <> v -> w <> c -> View.clk (View.destroy (View.with_view h v x) c) w t = View.clk (heap st) w t).
  { intros w t H1 H2. rewrite destroy_clk, Hw1, Hw by done. done. }
  assert (Hslot : forall s w, slot (State (View.destroy (View.with_view h v x) c)
      (<[i:=default [] (calculatedViews st !! i) ++ [v]]> (calculatedViews st)) (prefixView st)) s = Some w ->
      slot st s = Some w \/ (w = v /\ s = (i, Some (length (default [] (calculatedViews st !! i)))))).
  { intros [j [n|]] w; unfold slot; cbn; [|by left]. destruct (decide (j = i)) as [->|Hne].
    - rewrite lookup_insert_eq. cbn. rewrite lookup_app_Some. intros [?|[Hn Hs]]; [by left|right].
      apply list_lookup_singleton_Some in Hs as [E ->]. split; [done|]. do 2 f_equal. lia.
    - rewrite lookup_insert_ne by done. by left. }
  split; [split; [split|split; [|split]]|].
  - by apply destroy_wf.
  - intros s w Hs%Hslot. cbn. destruct Hs as [Hs|[-> _]].
    + destruct (Hold s w Hs). rewrite lookup_delete_ne, lookup_insert_ne, Hv by done. by apply (v_live st Hst s).
    + rewrite lookup_delete_ne, lookup_insert_eq by done. by eexists.
  - intros s s' w Hs%Hslot Hs'%Hslot. destruct Hs as [Hs|[-> ->]], Hs' as [Hs'|[E ->]]; [by apply (v_inj st Hst s s' w)| | |done].
    + subst w. by destruct (Hold s v Hs).
    + by destruct (Hold s' v Hs').
  - intros s w _ Hs. destruct (Hold s w Hs). split; [|intros t; by apply Hclk]. unfold slot in *. destruct s as [j [n|]]; cbn in *; [|done].
    destruct (decide (j = i)) as [->|Hne]; [|by rewrite lookup_insert_ne]. rewrite lookup_insert_eq. cbn. by apply lookup_app_l_Some.
  - cbn. rewrite lookup_delete_ne, lookup_insert_eq by done. by eexists.
  - cbn. by rewrite lookup_insert_eq.
  - intros t. cbn [heap]. rewrite destroy_clk by done. unfold View.clk. cbn. rewrite lookup_insert_eq, Hx. done.
Qed.

(** *** Exact stored views *)
(** The start follows relations to earlier labels. *)
Definition starts_back (A : list (wstate view_update)) (q : nat) : Prop :=
  w_entry (wstate_at A q) = [] /\
  Forall (fun e => w_along e ∈ [tc_pred; tj_pred; lin_preds; rf_pred; po_imm_pred]) (w_edges (wstate_at A q)).
(** A table with what makes its calculation exact; the view has index [k]. *)
Record calculation (g : Graph.t) (k : nat) (A : list (wstate view_update)) (q : nat) : Prop := {
  c_table : exists rank, walk_ok A rank = true;
  c_total : walk_total A g;
  c_paired : paired k A;
  c_start : (2 <= q < length A)%nat;
  c_back : starts_back A q;
  c_po i j : in_graph g i -> Relations.po_imm_pred g i = Ok (Some j) -> pre g A q i j
}.
(** The stored view [k] of [i] is exact. *)
Definition knows (g : Graph.t) (A : list (wstate view_update)) (q k : nat) (st : t) (i : lid) : Prop :=
  exists v, view g (calculatedViews st) i k = Ok v /\ is_Some (View.views (heap st) !! v) /\ shows g A q (heap st) v i.
(** Labels that have a view of their own for every index. *)
Definition stores (g : Graph.t) (i : lid) : Prop :=
  exists l, store g !! i = Some l /\ Event.isInitializer (position l) = false /\ kind l <> Kind.Empty.

Lemma view_slot g st i k v : view g (calculatedViews st) i k = Ok v -> exists n, slot st (i, Some n) = Some v.
Proof.
  unfold view. destruct (label g i) as [l|]; cbn; [|done]. intros H. apply vec_at_inv in H as [_ H]. by eexists.
Qed.
Lemma slot_view g st i k v : stores g i -> slot st (i, Some k) = Some v -> view g (calculatedViews st) i k = Ok v.
Proof.
  intros (l & Hl & Hi & Hk) Hs. unfold view. rewrite (label_ok _ _ _ Hl). cbn [mbind res_bind]. rewrite Hi, bool_decide_false by done.
  by apply vec_at_ok.
Qed.
Lemma keeps_view g P st st' i k v : keeps P st st' -> (forall n, P (i, Some n)) -> view g (calculatedViews st) i k = Ok v ->
  view g (calculatedViews st') i k = Ok v /\ forall t, View.clk (heap st') v t = View.clk (heap st) v t.
Proof.
  intros Hk HP Hv. unfold view in *. destruct (label g i) as [l|]; cbn in *; [|done]. apply vec_at_inv in Hv as [H0 Hv].
  destruct (Hk (i, Some _) v (HP _) Hv) as [Hs Hc]. split; [|done]. unfold slot in Hs. cbn in Hs.
  set (m := if _ || _ then 0 else _) in *. assert (0 <= m) by (subst m; by destruct (_ || _); lia).
  rewrite <- (Z2Nat.id m) by done. by apply vec_at_ok.
Qed.
Lemma keeps_knows g A q k P st st' i : valid st' -> keeps P st st' -> (forall n, P (i, Some n)) -> knows g A q k st i -> knows g A q k st' i.
Proof.
  intros Hv Hk HP (v & Hv' & _ & Hs). destruct (keeps_view g P st st' i k v Hk HP Hv') as [Hv'' Hc]. exists v. split; [done|].
  destruct (view_slot g st' i k v Hv'') as [n Hn]. split; [by apply (v_live st' Hv (i, Some n))|].
  intros t m Ht Hm. rewrite Hc. by apply Hs.
Qed.

Lemma addCalc_spec g (Hc : linked g) k A q i st : calculation g k A q -> valid st -> in_graph g i -> stores g i ->
  length (default [] (calculatedViews st !! i)) = k -> (forall j, pre g A q i j -> knows g A q k st j) ->
  exists st' v, addCalc (visitCalc false A q) g i st = Ok st' /\ appended i st st' v /\ knows g A q k st' i.
Proof.
  intros [[rank HA] Ht HP Hq _ Hpo] Hst Hi Hown Hlen Hpre. unfold addCalc.
  destruct (visitCalc_exact g Hc k A q rank HA Ht HP Hq (calculatedViews st) (heap st) (fresh_view (heap st)) i) as
    (h & -> & Hwf & Hs & Hsh & Hv & Hw); [done|by apply v_heap|apply fresh_view_free|exact Hpre|].
  cbn [mbind res_bind].
  destruct (addView_spec i (fresh_view (heap st)) st h Hst Hwf (fresh_view_free _) Hs Hv Hw) as (st' & v & -> & Happ & Hclk).
  exists st', v. split; [done|]. split; [done|]. destruct Happ as (_ & _ & Hsv & Hids). exists v. split; [|split; [done|]].
  - apply slot_view; [done|]. unfold slot. cbn. rewrite Hids, lookup_app_r by lia. by rewrite Hlen, Nat.sub_diag.
  - intros t n Ht' Hn. rewrite Hclk. by apply Hsh.
Qed.
Lemma addEmpty_spec i st : valid st -> exists st' v, addEmpty i st = Ok st' /\ appended i st st' v.
Proof.
  intros Hst. unfold addEmpty. set (c := fresh_view (heap st)).
  destruct (View.with_view_good (heap st) c View.no_view) as (Hwf & Hs & _ & Hv & Hw); [by apply v_heap|done|by left|].
  destruct (addView_spec i c st (View.create (heap st) c) Hst Hwf (fresh_view_free _) Hs Hv Hw) as (st' & v & -> & Happ & _).
  by exists st', v.
Qed.

(** *** All views of a label *)
(** A table and its start, or an empty view. *)
Definition entry := option (list (wstate view_update) * nat).
Definition addEntry (e : entry) (g : Graph.t) (i : lid) (st : t) : res t :=
  match e with Some (A, q) => addCalc (visitCalc false A q) g i st | None => addEmpty i st end.
Lemma addEntry_spec g (Hc : linked g) k e i st : valid st -> in_graph g i -> stores g i ->
  length (default [] (calculatedViews st !! i)) = k ->
  (forall A q, e = Some (A, q) -> calculation g k A q /\ forall j, pre g A q i j -> knows g A q k st j) ->
  exists st' v, addEntry e g i st = Ok st' /\ appended i st st' v /\ forall A q, e = Some (A, q) -> knows g A q k st' i.
Proof.
  intros Hst Hi Hown Hlen He. destruct e as [[A q]|]; cbn [addEntry].
  - destruct (He A q eq_refl) as [Hcalc Hpre]. destruct (addCalc_spec g Hc k A q i st Hcalc Hst Hi Hown Hlen Hpre) as (st' & v & -> & Happ & Hk).
    exists st', v. split; [done|]. split; [done|]. by intros A' q' [= <- <-].
  - destruct (addEmpty_spec i st Hst) as (st' & v & -> & Happ). by exists st', v.
Qed.
(** Every view is exact when those of its predecessors are. *)
Lemma addEntries_spec g (Hc : linked g) i es : in_graph g i -> stores g i -> forall k st, valid st ->
  length (default [] (calculatedViews st !! i)) = k ->
  (forall n A q, es !! n = Some (Some (A, q)) -> calculation g (k + n) A q /\ forall j, pre g A q i j -> knows g A q (k + n) st j) ->
  exists st', foldM (fun st e => addEntry e g i st) st es = Ok st' /\ valid st' /\ keeps (fun _ => True) st st' /\
    forall n A q, es !! n = Some (Some (A, q)) -> knows g A q (k + n) st' i.
Proof.
  intros Hi Hown. induction es as [|e es IH]; intros k st Hst Hlen He; cbn [foldM].
  - exists st. split; [done|]. split; [done|]. split; [by intros s v _ Hv|done].
  - destruct (addEntry_spec g Hc k e i st Hst Hi Hown Hlen) as (st1 & v & -> & (Hv1 & Hk1 & _ & Hids) & Hkn).
    { intros A q ->. destruct (He 0%nat A q eq_refl) as [? Hp]. rewrite Nat.add_0_r in *. by split. }
    cbn [mbind res_bind]. destruct (IH (S k) st1 Hv1) as (st' & -> & Hv' & Hk' & Hkn').
    + rewrite Hids, length_app, Hlen. cbn. lia.
    + intros n A q Hn. destruct (He (S n) A q Hn) as [? Hp]. rewrite Nat.add_succ_r in *. split; [done|]. intros j Hj.
      apply (keeps_knows g A q _ (fun _ => True) st st1 j Hv1 Hk1 (fun _ => I)). by apply Hp.
    + exists st'. split; [done|]. split; [done|]. split; [by apply (keeps_trans (fun _ => True) (fun _ => True) st st1 st')|].
      intros [|n] A q Hn; [|rewrite Nat.add_succ_r; by apply (Hkn' n)]. injection Hn as ->. rewrite Nat.add_0_r.
      apply (keeps_knows g A q k (fun _ => True) st1 st' i Hv' Hk' (fun _ => I)). by apply Hkn.
Qed.
Lemma calculate_spec g (Hc : linked g) i es st : in_graph g i -> stores g i -> valid st ->
  (forall k A q, es !! k = Some (Some (A, q)) -> calculation g k A q /\ forall j, pre g A q i j -> j <> i /\ knows g A q k st j) ->
  exists st', foldM (fun st e => addEntry e g i st) (setViews i st) es = Ok st' /\ valid st' /\
    keeps (fun s => s.1 <> i \/ s.2 = None) st st' /\
    forall k A q, es !! k = Some (Some (A, q)) -> knows g A q k st' i.
Proof.
  intros Hi Hown Hst He. destruct (setViews_spec i st Hst) as (Hv & Hk & Hids).
  destruct (addEntries_spec g Hc i es Hi Hown 0 (setViews i st) Hv) as (st' & E & Hv' & Hk' & Hkn); [by rewrite Hids| |].
  - intros n A q Hn. destruct (He n A q Hn) as [? Hp]. split; [done|]. intros j Hj. destruct (Hp j Hj) as [Hne Hkj].
    apply (keeps_knows g A q n _ st _ j Hv Hk); [by left|done].
  - exists st'. split; [done|]. split; [done|]. split; [|exact Hkn].
    by apply (keeps_trans (fun s => s.1 <> i \/ s.2 = None) (fun _ => True) st (setViews i st) st').
Qed.
(** What an exact view contains. *)
Lemma knows_contains g (Hc : linked g) k A q st i : calculation g k A q -> valid st -> in_graph g i -> knows g A q k st i ->
  exists v, view g (calculatedViews st) i k = Ok v /\ forall j l, in_graph g j -> store g !! j = Some l ->
    0 < Event.index (position l) -> View.contains (heap st) v (position l) = Ok true <-> reach g A q i j.
Proof.
  intros [[rank HA] Ht HP Hq _ Hpo] Hst Hi (v & Hv & Hs & Hsh). exists v. split; [done|]. intros j l Hj Hl Hidx.
  by apply (shows_contains g Hc A q rank HA Ht Hq Hpo (heap st) v i j l (v_heap st Hst)).
Qed.

(** *** The initializer *)
(** The initial label is not created by a thread, and its views are empty:
    [iLab->setViews({{View(), View(), View()}})]. *)
Definition uncreated (g : Graph.t) (n : lid) : Prop := exists l, store g !! n = Some l /\ createLab l = None.
Definition initial_views (g : Graph.t) (st : t) : Prop :=
  exists n v, getInitLabel g = Ok n /\ uncreated g n /\
    head (default [] (calculatedViews st !! n)) = Some v /\ forall t, 0 <= t -> View.clk (heap st) v t = 0.
(** It has no predecessors, whatever the table follows first. *)
Lemma init_stuck g n e j : wf g -> getInitLabel g = Ok n -> uncreated g n -> w_along e ∈ [tc_pred; tj_pred; lin_preds; rf_pred; po_imm_pred] ->
  ~ walk_edge (X := view_update) g e n j.
Proof.
  intros Hg Hn (ln & Hln & Hcr) He (_ & (ps & Hps & Hj) & _). destruct (wf_init g Hg) as (n' & l & Hn' & Hl & Hk). rewrite Hn in Hn'. injection Hn' as <-. rewrite Hl in Hln. injection Hln as <-.
  assert (exists th, events g !! 0%nat = Some th /\ th !! 0%nat = Some n) as (th & Hth & H0).
  { unfold getInitLabel, getEventLabel in Hn. cbn in Hn. destruct (vec_at (events g) 0) as [th|] eqn:E; cbn in Hn; [|done].
    apply vec_at_inv in E as [_ E]. apply vec_at_inv in Hn as [_ Hn]. by exists th. }
  assert (Hnone : forall f : Graph.t -> lid -> res (option lid), f g n = Ok None -> one f g n = Ok ps -> False).
  { intros f Ef. unfold one. rewrite Ef. intros [= <-]. by apply not_elem_of_nil in Hj. }
  rewrite !elem_of_cons, elem_of_nil in He. destruct He as [He|[He|[He|[He|[He|[]]]]]]; rewrite He in Hps.
  - apply (Hnone Relations.tc_pred); [|done]. unfold Relations.tc_pred. rewrite (label_ok _ _ _ Hl). cbn [mbind res_bind]. by rewrite Hk, Hcr.
  - apply (Hnone Relations.tj_pred); [|done]. unfold Relations.tj_pred. rewrite (label_ok _ _ _ Hl). cbn [mbind res_bind]. by rewrite Hk.
  - unfold lin_preds, Relations.lin_preds in Hps. rewrite (label_ok _ _ _ Hl) in Hps. cbn [mbind res_bind] in Hps. rewrite Hk in Hps.
    injection Hps as <-. by apply not_elem_of_nil in Hj.
  - apply (Hnone Relations.rf_pred); [|done]. unfold Relations.rf_pred. rewrite (label_ok _ _ _ Hl). cbn [mbind res_bind]. by rewrite Hk.
  - apply (Hnone Relations.po_imm_pred); [|done]. by rewrite (Relations.po_imm_pred_ok g Hg n l 0 th 0 Hl Hth H0).
Qed.
Lemma init_no_pre g n A q j : wf g -> getInitLabel g = Ok n -> uncreated g n -> starts_back A q -> ~ pre g A q n j.
Proof.
  intros Hg Hn Hu [He Hs] (a & Hr & Ha). rewrite Forall_forall in Hs. apply rtc_inv in Hr as [<-|(b & (e & Hin & _ & Hm) & _)].
  - destruct Ha as [[Hx _]|(e & Hin & _ & Hm)]; cbn [fst snd] in *; [rewrite He in Hx; by apply not_elem_of_nil in Hx|].
    by apply (init_stuck g n e j Hg Hn Hu (Hs e Hin)).
  - cbn [fst snd] in *. by apply (init_stuck g n e b.2 Hg Hn Hu (Hs e Hin)).
Qed.
Lemma init_knows g n A q k st : wf g -> valid st -> getInitLabel g = Ok n -> initial_views g st -> starts_back A q -> knows g A q k st n.
Proof.
  intros Hg Hst Hn (n' & v & Hn' & Hu & Hv & Hz) Hs. rewrite Hn in Hn'. injection Hn' as <-.
  assert (exists l, store g !! n = Some l /\ position l = Event.getInit) as (l & Hl & Hp).
  { unfold getInitLabel, getEventLabel in Hn. cbn in Hn. destruct (vec_at (events g) 0) as [th|] eqn:E; cbn in Hn; [|done].
    apply vec_at_inv in E as [_ E]. apply vec_at_inv in Hn as [_ Hn]. destruct (wf_pos g Hg 0 th 0 n E Hn) as (l & Hl & Hp). exists l. by rewrite Hp. }
  destruct (default [] (calculatedViews st !! n)) as [|v' vs] eqn:Ev; [done|]. injection Hv as ->. exists v. split; [|split].
  - unfold view. rewrite (label_ok _ _ _ Hl). cbn [mbind res_bind]. by rewrite Hp, Ev.
  - apply (v_live st Hst (n, Some 0%nat)). unfold slot. cbn. by rewrite Ev.
  - intros t m Ht Hm. rewrite Hz by done. split; [lia|]. intros (j & lj & [->|Hj] & Hlj & _ & Hidx).
    + simplify_eq. rewrite Hp in Hidx. cbn in Hidx. lia.
    + exfalso. inversion Hj as [? ? H|? ? ? H _]; subst; by apply (init_no_pre g n A q _ Hg Hn Hu Hs) in H.
Qed.

(** *** The views of all labels *)
(** The labels of [o] come after their predecessors, [D] being the labels before. *)
Fixpoint after_preds (P : lid -> lid -> Prop) (D o : list lid) : Prop :=
  match o with
  | [] => True
  | i :: o => (i ∉ D) /\ (forall j, P i j -> j ∈ D) /\ after_preds P (D ++ [i]) o
  end.
Definition pred_of (g : Graph.t) (es : list entry) (i j : lid) : Prop :=
  exists k A q, es !! k = Some (Some (A, q)) /\ pre g A q i j.
Lemma calculate_all g (Hc : linked g) es : (forall k A q, es !! k = Some (Some (A, q)) -> calculation g k A q) ->
  forall o D st, valid st -> Forall (fun i => in_graph g i /\ stores g i) o -> after_preds (pred_of g es) D o ->
  (forall i k A q, i ∈ D -> es !! k = Some (Some (A, q)) -> knows g A q k st i) ->
  exists st', foldM (fun st i => foldM (fun st e => addEntry e g i st) (setViews i st) es) st o = Ok st' /\ valid st' /\
    keeps (fun s => s.2 = None) st st' /\ forall i k A q, i ∈ D ++ o -> es !! k = Some (Some (A, q)) -> knows g A q k st' i.
Proof.
  intros Hes o. induction o as [|i o IH]; intros D st Hst Hin Hord HD; cbn [foldM].
  - exists st. split; [done|]. split; [done|]. split; [by intros s v _ Hv|]. by rewrite app_nil_r.
  - apply Forall_cons in Hin as [[Hi Hown] Hin]. destruct Hord as (Hfresh & Hpre & Hord).
    destruct (calculate_spec g Hc i es st Hi Hown Hst) as (st1 & -> & Hv1 & Hk1 & Hkn1).
    { intros k A q Hk. split; [by apply Hes|]. intros j Hj. assert (j ∈ D) as HjD by (apply Hpre; by exists k, A, q).
      split; [intros ->; done|by apply HD]. }
    cbn [mbind res_bind]. destruct (IH (D ++ [i]) st1 Hv1 Hin Hord) as (st' & -> & Hv' & Hk' & Hkn').
    { intros j k A q Hj Hk. apply elem_of_app in Hj as [Hj|Hj]; [|apply list_elem_of_singleton in Hj; subst j; by apply Hkn1].
      apply (keeps_knows g A q k _ st st1 j Hv1 Hk1); [|by apply HD]. intros n. left. cbn. intros E. subst j. done. }
    exists st'. split; [done|]. split; [done|]. split; [|intros j k A q Hj; apply Hkn'; by rewrite <- app_assoc].
    apply (keeps_trans (fun s => s.2 = None) (fun s => s.2 = None) st st1 st'); [done| |exact Hk'].
    intros s v Hs. apply Hk1. by right.
Qed.

Lemma three_steps (m : res t) (f h : t -> res t) : (a ← m; b ← f a; c ← h b; Ok c) = (a ← m; b ← f a; h b).
Proof. destruct m as [a|]; [|done]. cbn. destruct (f a) as [b|]; [|done]. cbn. by destruct (h b). Qed.

(** The proof of [calculation] for a table: [ranks] orders its states without a vector. *)
Ltac paired_edges :=
  repeat first [ apply Forall_nil_2 | apply Forall_cons_2 ];
  first [ left; split; [reflexivity|split; [reflexivity|]]
        | right; left; split; [reflexivity|split; [reflexivity|]]
        | right; right; split; [reflexivity|cbn; lia] ];
  repeat first [ apply Exists_cons_hd; split; [split_and!; reflexivity|first [reflexivity|split; reflexivity]] | apply Exists_cons_tl ].
Ltac by_table Hc ranks :=
  split;
  [ exists (fun q => nth q ranks 0%nat); reflexivity
  | table_total
  | split; eexists; split; [reflexivity|]; repeat first [ apply Forall_nil_2 | apply Forall_cons_2 ]; (split; [reflexivity|paired_edges])
  | cbn; lia
  | split; [reflexivity|]; repeat first [ apply Forall_nil_2 | apply Forall_cons_2 ]; by repeat first [left|right]
  | intros ? ? _ ?; eexists (_, _); split; [apply rtc_refl|]; right;
    exists (WEdge [] po_imm_pred [] [updateIdx] 0); split; [by repeat first [left|right]|]; split; [by left|];
    split; [done|]; split; [by apply one_some|done] ].
End Calc.
