(* ===== verification/Symmetry.v ===== *)
(** * Symmetry reduction

    Models Execution/Consistency/SymmetryChecker.{hpp,cpp}: threads that run the same
    code are interchangeable, and only one order of them is explored.  Threads are
    chained by the identifiers of their symmetric predecessor and successor. *)

From S2P Require Import Prelude Values Addresses Events VSet Views Labels Graph Relations Cut Search Automata Checkable Scripts GraphUtils Calc.
Import EventLabel Graph.
Local Open Scope Z_scope.

Module SymmetryChecker.

Section checker.
Context (g : Graph.t).

(** Whether the labels at one index of the two threads match. *)
Definition matching (symm thread : Z) (a b : lid) : res bool :=
  la ← label g a; lb ← label g b;
  if negb (bool_decide (kind la = kind lb)) then Ok false else
  if Class.isRead (kind la) then
    wa ← deref (readsFrom la); lwa ← label g wa;
    own ← (if getThread lwa =? symm then
        wb ← deref (readsFrom lb); lwb ← label g wb;
        Ok ((getThread lwb =? thread) && (getIndex lwa =? getIndex lwb)) else Ok false);
    if (own : bool) then Ok true else Ok (bool_decide (readsFrom la = readsFrom lb))
  else Ok true.
(** [for (auto j = 0; j < limit; j++)]; [todo] is [limit - j]. *)
Fixpoint shared_from (symm thread j : Z) (todo : nat) : res Z :=
  match todo with
  | O => Ok j
  | S todo =>
      a ← getEventLabel g (Event.Event symm j); b ← getEventLabel g (Event.Event thread j);
      ok ← matching symm thread a b;
      if (ok : bool) then shared_from symm thread (j + 1) todo else Ok (j - 1)
  end.
Definition calcLargestSymmPrefixBeforeSR (symm : Z) (lab : lid) : res Z :=
  if (symm <? 0) || (getNumThreads g <=? symm) then Ok (-1) else
  l ← label g lab; n ← getThreadSize g symm;
  let limit := Z.min (getIndex l) (n - 1) in
  if limit <=? 0 then Ok limit else shared_from symm (getThread l) 0 (Z.to_nat limit).
Definition sharePrefixSR (symm : Z) (lab : lid) : res bool :=
  n ← calcLargestSymmPrefixBeforeSR symm lab; l ← label g lab; Ok (n =? getIndex l).

Definition at_position (pos : Event.t) (x : lid) : res bool := l ← label g x; Ok (bool_decide (position l = pos)).
(** A store at the position, or one of its readers. *)
Definition store_or_reader (pos : Event.t) (s : lid) : res bool :=
  b ← at_position pos s;
  if (b : bool) then Ok true else ls ← label g s; Relations.anyM (at_position pos) (readerList ls).
Definition isEcoBefore (lab : lid) (tid : Z) : res bool :=
  l ← label g lab;
  if negb (Class.isMemAccess (kind l)) then Ok false else
  let symmPos := Event.Event tid (getIndex l) in
  cs ← Relations.co_succs g lab; b ← Relations.anyM (store_or_reader symmPos) cs;
  if (b : bool) then Ok true else
  fs ← Relations.fr_succs g lab; Relations.anyM (store_or_reader symmPos) fs.
(** Not called. *)
Definition isEcoSymmetric (lab : lid) (tid : Z) : res bool :=
  l ← label g lab; symmLab ← getEventLabel g (Event.Event tid (getIndex l));
  if Class.isRead (kind l) then
    o ← dyn_cast Class.isRead g symmLab; o ← deref o; lo ← label g o; Ok (bool_decide (readsFrom l = readsFrom lo))
  else
    verify (Class.isWrite (kind l));;
    s ← Relations.co_imm_succ g lab; o ← dyn_cast Class.isWrite g symmLab; Ok (bool_decide (s = o)).

(** The two checks against one symmetric thread: the order of the two labels differs. *)
Definition isSymmetryOKWith (before : lid -> lid -> res bool) (lab : lid) (symm : Z) : res bool :=
  verify (negb (symm =? -1));;
  l ← label g lab;
  share ← sharePrefixSR symm lab;
  if negb share || negb (containsPos g (Event.Event symm (getIndex l))) then Ok true else
  symmLab ← getEventLabel g (Event.Event symm (getIndex l)); ls ← label g symmLab;
  if negb (bool_decide (kind ls = kind l)) then Ok true else
  b ← before lab symmLab; Ok (negb b).
Definition isPredSymmetryOK1 (lab : lid) (symm : Z) : res bool :=
  isSymmetryOKWith (fun lab _ => isEcoBefore lab symm) lab symm.
Definition isSuccSymmetryOK1 (lab : lid) (symm : Z) : res bool :=
  l ← label g lab; isSymmetryOKWith (fun _ symmLab => isEcoBefore symmLab (getThread l)) lab symm.

(** The threads that a chain visits, up to -1. *)
Fixpoint chain (next : EventLabel.t -> Z) (fuel : nat) (tid : Z) : res (list Z) :=
  match fuel with
  | O => Abort OutOfFuel
  | S fuel =>
      o ← getFirstThreadLabel g tid; b ← deref o; l ← label g b;
      if next l =? -1 then Ok [] else r ← chain next fuel (next l); Ok (next l :: r)
  end.
(** [std::ranges::all_of] *)
Fixpoint allM (f : Z -> res bool) (l : list Z) : res bool :=
  match l with [] => Ok true | x :: l => b ← f x; if (b : bool) then allM f l else Ok false end.
Definition chain_fuel : nat := S (length (events g)).
Definition isPredSymmetryOK (lab : lid) : res bool :=
  l ← label g lab; preds ← chain symmPredTid chain_fuel (getThread l); allM (isPredSymmetryOK1 lab) preds.
Definition isSuccSymmetryOK (lab : lid) : res bool :=
  l ← label g lab; succs ← chain symmSuccTid chain_fuel (getThread l); allM (isSuccSymmetryOK1 lab) succs.
Definition isSymmetryOK (lab : lid) : res bool :=
  b ← isPredSymmetryOK lab; if (b : bool) then isSuccSymmetryOK lab else Ok false.

(** The stored prefix of the label takes in that of the symmetric label. *)
Definition updatePrefixWithSymmetries (dbg : bool) (lab : lid) (st : Calc.t) : res Calc.t :=
  l ← label g lab; o ← getFirstThreadLabel g (getThread l); b ← deref o; lb ← label g b;
  let symm := symmPredTid lb in
  if symm =? -1 then Ok st else
  v ← Calc.prefix st lab;
  si ← calcLargestSymmPrefixBeforeSR symm lab;
  s ← getEventLabel g (Event.Event symm si); ls ← label g s;
  h ← (if Class.isBlock (kind ls) then Ok (Calc.heap st) else w ← Calc.prefix st s; View.update dbg (Calc.heap st) v w);
  h ← (if Class.isRead (kind ls) then
      r ← deref (readsFrom ls); w ← Calc.prefix st r; View.update dbg h v w else Ok h);
  Ok (Calc.set_heap h st).
End checker.

(** ** Shared prefixes *)
Section share.
Context (g : Graph.t) (Hg : wf g).

(** Reads before an index have their sources. *)
Definition sourced (tid n : Z) : Prop := forall j x l, 0 <= j < n -> getEventLabel g (Event.Event tid j) = Ok x ->
  store g !! x = Some l -> Class.isRead (kind l) = true -> is_Some (readsFrom l).
(** The labels at index [j] of two threads are of the same kind, and reads read from
    the same write, or each from the same index of its own thread. *)
Definition matches (symm thread j : Z) : Prop := exists a b la lb,
  getEventLabel g (Event.Event symm j) = Ok a /\ getEventLabel g (Event.Event thread j) = Ok b /\
  store g !! a = Some la /\ store g !! b = Some lb /\ kind la = kind lb /\
  (Class.isRead (kind la) = true -> exists wa wb lwa lwb, readsFrom la = Some wa /\ readsFrom lb = Some wb /\
    store g !! wa = Some lwa /\ store g !! wb = Some lwb /\
    (wa = wb \/ getThread lwa = symm /\ getThread lwb = thread /\ getIndex lwa = getIndex lwb)).

Lemma label_at tid j th : 0 <= tid -> events g !! Z.to_nat tid = Some th -> 0 <= j < Z.of_nat (length th) ->
  exists x l, getEventLabel g (Event.Event tid j) = Ok x /\ in_graph g x /\ store g !! x = Some l.
Proof.
  intros Ht Eth Hj. destruct (lookup_lt_is_Some_2 th (Z.to_nat j) ltac:(lia)) as [x Ex].
  destruct (wf_pos g Hg _ _ _ _ Eth Ex) as (l & El & _). exists x, l. split; [|split; [|done]].
  - pose proof (getEventLabel_pos g _ _ _ _ Eth Ex) as E. by rewrite !Z2Nat.id in E by lia.
  - apply elem_concat. by exists (Z.to_nat tid), th, (Z.to_nat j).
Qed.

Lemma matching_ok symm thread j : (exists th, events g !! Z.to_nat symm = Some th /\ 0 <= j < Z.of_nat (length th)) -> 0 <= symm ->
  (exists th, events g !! Z.to_nat thread = Some th /\ 0 <= j < Z.of_nat (length th)) -> 0 <= thread ->
  sourced symm (j + 1) -> sourced thread (j + 1) ->
  exists a b c, getEventLabel g (Event.Event symm j) = Ok a /\ getEventLabel g (Event.Event thread j) = Ok b /\
    matching g symm thread a b = Ok c /\ (c = true <-> matches symm thread j).
Proof.
  intros (ths & Es & Hjs) Hs (tht & Et & Hjt) Ht Hss Hst.
  destruct (label_at symm j ths Hs Es Hjs) as (a & la & Ea & Hia & Ela).
  destruct (label_at thread j tht Ht Et Hjt) as (b & lb & Eb & Hib & Elb).
  exists a, b. unfold matching, label. rewrite Ela, Elb. cbn [deref mbind res_bind].
  assert (forall P : Prop, (kind la = kind lb -> (Class.isRead (kind la) = true -> exists wa wb lwa lwb, readsFrom la = Some wa /\
      readsFrom lb = Some wb /\ store g !! wa = Some lwa /\ store g !! wb = Some lwb /\
      (wa = wb \/ getThread lwa = symm /\ getThread lwb = thread /\ getIndex lwa = getIndex lwb)) -> P) ->
      matches symm thread j -> P) as Hinv.
  { intros P HP (a' & b' & la' & lb' & Ea' & Eb' & Ela' & Elb' & Hk & Hr).
    assert (a' = a) as -> by congruence. assert (b' = b) as -> by congruence.
    assert (la' = la) as -> by congruence. assert (lb' = lb) as -> by congruence. by apply HP. }
  case_bool_decide as Hk; cbn [negb].
  2:{ exists false. split; [done|]. split; [done|]. split; [done|]. split; [done|]. by apply Hinv. }
  destruct (Class.isRead (kind la)) eqn:Er.
  2:{ exists true. split; [done|]. split; [done|]. split; [done|]. split; [|done]. intros _.
      exists a, b, la, lb. repeat (split; [done|]). congruence. }
  destruct (Hss j a la ltac:(lia) Ea Ela Er) as [wa Ewa]. destruct (Hst j b lb ltac:(lia) Eb Elb ltac:(by rewrite <- Hk)) as [wb Ewb].
  rewrite Ewa. cbn [deref mbind res_bind].
  destruct (wf_rf g Hg a la wa Hia Ela Er Ewa) as (Hiwa & lwa & Elwa & _).
  destruct (wf_rf g Hg b lb wb Hib Elb ltac:(by rewrite <- Hk) Ewb) as (Hiwb & lwb & Elwb & _).
  rewrite Elwa, Ewb. cbn [deref mbind res_bind]. rewrite Elwb. cbn [deref mbind res_bind].
  assert (forall c : bool, (c = true <-> wa = wb \/ getThread lwa = symm /\ getThread lwb = thread /\ getIndex lwa = getIndex lwb) ->
    c = true <-> matches symm thread j) as Hfin.
  { intros c Hc. rewrite Hc. split.
    - intros Hd. exists a, b, la, lb. repeat (split; [done|]). intros _. by exists wa, wb, lwa, lwb.
    - apply Hinv. intros _ Hr. destruct (Hr eq_refl) as (wa' & wb' & lwa' & lwb' & ? & ? & ? & ? & Hd).
      by simplify_eq. }
  destruct (getThread lwa =? symm) eqn:E; cbn [mbind res_bind].
  - destruct ((getThread lwb =? thread) && (getIndex lwa =? getIndex lwb)) eqn:E2.
    + exists true. do 3 (split; [done|]). apply Hfin. split; [|done]. intros _. right. lia.
    + eexists. do 3 (split; [done|]). apply Hfin. rewrite bool_decide_eq_true. split; [intros [= ?]; by left|]. intros [->|?]; [done|lia].
  - eexists. do 3 (split; [done|]). apply Hfin. rewrite bool_decide_eq_true. split; [intros [= ?]; by left|]. intros [->|?]; [done|lia].
Qed.

Lemma shared_from_ok symm thread todo : 0 <= symm -> 0 <= thread -> forall j, 0 <= j ->
  (exists th, events g !! Z.to_nat symm = Some th /\ j + Z.of_nat todo <= Z.of_nat (length th)) ->
  (exists th, events g !! Z.to_nat thread = Some th /\ j + Z.of_nat todo <= Z.of_nat (length th)) ->
  sourced symm (j + Z.of_nat todo) -> sourced thread (j + Z.of_nat todo) ->
  exists r, shared_from g symm thread j todo = Ok r /\ r <= j + Z.of_nat todo /\
    (r = j + Z.of_nat todo <-> forall k, j <= k < j + Z.of_nat todo -> matches symm thread k).
Proof.
  intros Hs Ht. induction todo as [|todo IH]; intros j Hj (ths & Es & Hls) (tht & Et & Hlt) Hss Hst; cbn [shared_from].
  - exists j. split; [done|]. split; [lia|]. split; [intros _ k ?; lia|lia].
  - destruct (matching_ok symm thread j) as (a & b & c & -> & -> & Em & Hc).
    1,3: eexists; split; [done|lia]. 1,2: done.
    1: intros k ? ? ?; apply (Hss k); lia. 1: intros k ? ? ?; apply (Hst k); lia.
    cbn [mbind res_bind]. rewrite Em. cbn [mbind res_bind]. destruct c.
    + destruct (IH (j + 1) ltac:(lia)) as (r & -> & Hr & Hiff).
      1: exists ths; split; [done|lia]. 1: exists tht; split; [done|lia].
      1: intros k ? ? ?; apply (Hss k); lia. 1: intros k ? ? ?; apply (Hst k); lia.
      exists r. split; [done|]. split; [lia|]. rewrite Nat2Z.inj_succ.
      replace (j + Z.succ (Z.of_nat todo)) with (j + 1 + Z.of_nat todo) by lia. rewrite Hiff. split.
      * intros H k Hk. destruct (decide (k = j)) as [->|]; [by apply Hc|apply H; lia].
      * intros H k Hk. apply H. lia.
    + exists (j - 1). split; [done|]. split; [lia|]. split; [lia|]. intros H.
      assert (matches symm thread j) as Hm by (apply H; lia). apply Hc in Hm. done.
Qed.
End share.

(** C36: two symmetric threads share their prefix before a label exactly when the other
    thread reaches the index of the label and the two agree, event by event, before
    it: the same kinds, and reads from the same store or from the same index of their
    own threads. *)
Theorem sharePrefixSR_correct (g : Graph.t) (symm : Z) (lab : lid) (l : EventLabel.t) (th : list lid) :
  wf g -> in_graph g lab -> store g !! lab = Some l -> 0 <= symm -> events g !! Z.to_nat symm = Some th ->
  sourced g symm (getIndex l) -> sourced g (getThread l) (getIndex l) ->
  exists b, sharePrefixSR g symm lab = Ok b /\
    (b = true <-> getIndex l < Z.of_nat (length th) /\ forall j, 0 <= j < getIndex l -> matches g symm (getThread l) j).
Proof.
  intros Hg Hlab El Hs Eth Hss Hst. destruct (in_graph_pos g Hg lab Hlab) as (t & th0 & k & l0 & Et & Ek & El0 & Hp).
  assert (l0 = l) as -> by congruence.
  assert (getIndex l = Z.of_nat k) as Hi by (unfold getIndex; by rewrite Hp).
  assert (getThread l = Z.of_nat t) as Htid by (unfold getThread; by rewrite Hp).
  pose proof (lookup_lt_Some _ _ _ Ek) as Hk. pose proof (lookup_lt_Some _ _ _ Eth) as Hlen.
  unfold sharePrefixSR, calcLargestSymmPrefixBeforeSR, getNumThreads.
  replace ((symm <? 0) || (Z.of_nat (length (events g)) <=? symm)) with false by lia.
  unfold getThreadSize, label. rewrite El. cbn [deref mbind res_bind].
  assert (vec_at (events g) symm = Ok th) as Ev by (rewrite <- (Z2Nat.id symm) by done; by apply vec_at_ok).
  rewrite Ev. cbn [mbind res_bind].
  set (limit := Z.min (getIndex l) (Z.of_nat (length th) - 1)).
  destruct (limit <=? 0) eqn:E.
  - cbn [mbind res_bind]. eexists. split; [done|]. rewrite Z.eqb_eq. split.
    + intros H. split; [lia|]. intros j ?. lia.
    + intros [H _]. lia.
  - destruct (shared_from_ok g Hg symm (getThread l) (Z.to_nat limit) Hs ltac:(lia) 0 ltac:(lia)) as (r & -> & Hr & Hiff).
    1: exists th; split; [done|lia]. 1: exists th0; split; [by rewrite Htid, Nat2Z.id|lia].
    1: intros j ? ? ?; apply (Hss j); lia. 1: intros j ? ? ?; apply (Hst j); lia.
    rewrite Z2Nat.id in Hr, Hiff by lia. cbn [mbind res_bind]. eexists. split; [done|]. rewrite Z.eqb_eq. split.
    + intros E1. split; [lia|]. intros j Hj. apply (proj1 Hiff); lia.
    + intros [H1 H2]. assert (limit = getIndex l) as Hl by lia. rewrite <- Hl. apply (proj2 Hiff). intros j ?. apply H2. lia.
Qed.
(** The second thread of the demonstration graph agrees with itself and not with the
    first one, which begins with the initial label. *)
Lemma demo_sourced t : t = 0 \/ t = 1 -> sourced Cut.cut_demo t 1.
Proof.
  intros Ht j x l Hj Ex El Hr. replace j with 0 in Ex by lia. exfalso.
  destruct Ht as [-> | ->]; vm_compute in Ex; injection Ex as <-; vm_compute in El; injection El as <-; discriminate.
Qed.
Lemma sharePrefixSR_correct_witness :
  sharePrefixSR Cut.cut_demo 1 4%nat = Ok true /\ (forall j, 0 <= j < 1 -> matches Cut.cut_demo 1 1 j) /\
  sharePrefixSR Cut.cut_demo 0 4%nat = Ok false /\ ~ (forall j, 0 <= j < 1 -> matches Cut.cut_demo 0 1 j).
Proof.
  pose proof Cut.cut_demo_events as Ee.
  assert (in_graph Cut.cut_demo 4%nat) as Hin by (unfold in_graph; rewrite Ee; cbn [concat app]; do 4 right; left).
  assert (sharePrefixSR Cut.cut_demo 1 4%nat = Ok true) as E1 by (vm_compute; reflexivity).
  assert (sharePrefixSR Cut.cut_demo 0 4%nat = Ok false) as E0 by (vm_compute; reflexivity).
  destruct (store Cut.cut_demo !! 4%nat) as [l|] eqn:El; [|vm_compute in El; discriminate].
  assert (getIndex l = 1 /\ getThread l = 1) as [Hi Ht] by (vm_compute in El; injection El as <-; by split).
  destruct (sharePrefixSR_correct Cut.cut_demo 1 4%nat l [3; 4]%nat Cut.cut_demo_wf Hin El ltac:(lia) ltac:(by rewrite Ee)) as (b1 & Eb1 & H1).
  1,2: rewrite Hi, ?Ht; apply demo_sourced; auto.
  destruct (sharePrefixSR_correct Cut.cut_demo 0 4%nat l [1; 2; 5]%nat Cut.cut_demo_wf Hin El ltac:(lia) ltac:(by rewrite Ee)) as (b0 & Eb0 & H0).
  1,2: rewrite Hi, ?Ht; apply demo_sourced; auto.
  rewrite E1 in Eb1. rewrite E0 in Eb0. injection Eb1 as <-. injection Eb0 as <-. rewrite Hi, Ht in H1, H0.
  split; [done|]. split; [by apply H1|]. split; [done|]. intros H. discriminate (proj2 H0 (conj eq_refl H)).
Defined.
End SymmetryChecker.
