(* ===== verification/Placing.v ===== *)
(** * Coherent placings

    Models the part that every checker of Execution/Consistency/ has after its views:
    the stores that a read may read from, the places of a write in the coherence order,
    and the reads that a write may revisit.  The code is the same in the five checkers
    up to the index of the happens-before view and [isDepTracking]. *)

From stdpp Require Import relations.
From S2P Require Import Prelude Values Addresses Events VSet Views Labels Graph Relations Cut Search Automata Checkable Scripts GraphUtils Calc.
Import EventLabel Graph.
Local Open Scope Z_scope.

Module Placing.
Import Checkable.

(** [std::ranges::find_if] and [std::transform] *)
Fixpoint find_if (f : lid -> res bool) (l : list lid) : res nat :=
  match l with [] => Ok 0%nat | x :: l => b ← f x; if (b : bool) then Ok 0%nat else n ← find_if f l; Ok (S n) end.
Fixpoint transform (f : lid -> res lid) (l : list lid) : res (list lid) :=
  match l with [] => Ok [] | x :: l => y ← f x; r ← transform f l; Ok (y :: r) end.
(** The elements from one iterator to another one; [begin <= end] is a precondition. *)
Definition range (c : list lid) (b e : nat) : res (list lid) :=
  if (e <? b)%nat then Abort Undefined else Ok (take (e - b) (drop b c)).

Section placing.
(** The index of the happens-before view, and whether the model tracks dependencies. *)
Context (hbv : nat) (isDepTracking : bool) (g : Graph.t) (st : Calc.t).

(** [lab->view(hbv)] and [before.contains(lab->getPos())] *)
Definition hb (i : lid) : res View.vid := Calc.view g (Calc.calculatedViews st) i hbv.
Definition contains (v : View.vid) (i : lid) : res bool := l ← label g i; View.contains (Calc.heap st) v (position l).
Definition readers (w : lid) : res (list lid) := l ← label g w; Ok (readerList l).

Definition isWriteRfBefore (wLab lab : lid) : res bool :=
  before ← hb lab;
  b ← contains before wLab;
  if (b : bool) then Ok true else rs ← readers wLab; Relations.anyM (contains before) rs.
Definition isHbOptRfBefore (lab wLab : lid) : res bool :=
  v ← hb wLab;
  b ← contains v lab;
  if (b : bool) then Ok true else rs ← readers wLab; Relations.anyM (fun r => v ← hb r; contains v lab) rs.

(** Iterators are indices into the coherence order of the location. *)
Definition splitLocMOBefore (a : SAddr.t) (lab : lid) : res nat :=
  r ← Relations.rco g a;
  k ← find_if (fun o => isWriteRfBefore o lab) r;
  Ok (if (k =? length r)%nat then 0%nat else (length r - 1 - k + 1)%nat).
Definition splitLocMOAfterHb (rLab : lid) : res nat :=
  l ← label g rLab;
  n ← getInitLabel g; ln ← label g n; rs ← at_loc (initRfs ln) (getAddr l);
  b ← Relations.anyM (fun r => v ← hb r; contains v rLab) rs;
  if (b : bool) then Ok 0%nat else
  c ← Relations.co g (getAddr l);
  k ← find_if (fun w => isHbOptRfBefore rLab w) c;
  if (k =? length c)%nat then Ok k else
  w ← deref (c !! k); v ← hb w; b ← contains v rLab;
  Ok (if (b : bool) then k else S k).
Definition splitLocMOAfter (wLab : lid) : res nat :=
  l ← label g wLab; c ← Relations.co g (getAddr l); find_if (fun s => isHbOptRfBefore wLab s) c.

Definition getCoherentStores (rLab : lid) : res (list lid) :=
  lr ← label g rLab;
  comax ← co_max g (getAddr lr); lm ← label g comax;
  if (getThread lm =? getThread lr) && (Event.index (position lm) <? Event.index (position lr)) then Ok [comax] else
  c ← Relations.co g (getAddr lr);
  b ← splitLocMOBefore (getAddr lr) rLab;
  first ← (if (b =? 0)%nat then getInitLabel g else deref (c !! (b - 1)%nat));
  e ← (if isDepTracking then splitLocMOAfterHb rLab else Ok (length c));
  stores ← range c b e;
  Ok (first :: stores).

(** The writes after a write in coherence, then their readers. *)
Fixpoint opt_rf (ws : list lid) : res (list lid) :=
  match ws with [] => Ok [] | w :: ws => rs ← readers w; r ← opt_rf ws; Ok (rs ++ r) end.
Definition getMOOptRfAfter (sLab : lid) : res (list lid) :=
  ws ← Relations.co_succs g sLab; rs ← opt_rf ws; Ok (ws ++ rs).
Definition getMOInvOptRfAfter (sLab : lid) : res (list lid) :=
  ws ← Relations.co_preds g sLab; rs ← opt_rf ws;
  l ← label g sLab; n ← getInitLabel g; ln ← label g n; irs ← at_loc (initRfs ln) (getAddr l);
  Ok (ws ++ rs ++ irs).

(** The reads that are not after a later store, [ls.erase(std::remove_if(...))]. *)
Definition notAfter (optRfs : list lid) (e : lid) : res bool :=
  p ← Relations.po_imm_pred g e; p ← deref p;
  before ← hb p; b ← Relations.anyM (contains before) optRfs; Ok (negb b).
(** The events that stay when a read with stamp [st] is revisited by [sLab]:
    [g.getViewFromStamp(st)], updated with [sLab->getPrefixView()]. *)
Context {V : Type} `{VectorClock V} (resultingView : Stamp.t -> lid -> res V).
Definition beforeStore (sLab e : lid) : res bool := v ← hb sLab; b ← contains v e; Ok (negb b).
Definition notBefore (sLab : lid) (moInvOptRfs : list lid) (e : lid) : res bool :=
  le ← label g e; s ← Cut.getStamp le; v ← resultingView s sLab;
  b ← Relations.anyM (fun ev => lev ← label g ev; b ← vc_contains v (position lev);
    if (b : bool) then p ← Relations.po_imm_pred g ev; p ← deref p; v ← hb p; contains v e else Ok false) moInvOptRfs;
  Ok (negb b).
(** Not called: the loads that read from [coPred] and are outside the prefix of the store. *)
Definition revisitable_load (pporf : V) (ls : EventLabel.t) (r : lid) : res bool :=
  l ← label g r; c ← vc_contains pporf (position l);
  Ok (negb c && bool_decide (getAddr l = getAddr ls) && revisitable l && maximal l).
Definition before_conflict (confLab e : lid) : res bool :=
  le ← label g e; lc ← label g confLab; se ← Cut.getStamp le; sc ← Cut.getStamp lc; Ok (negb (sc <? se)).
Definition getRevisitableFrom (sLab : lid) (pporf : V) (coPred : lid) : res (list lid) :=
  confLab ← GraphUtils.findPendingRMW g sLab;
  ls ← label g sLab; rs ← readers coPred;
  loads ← Relations.filterM (revisitable_load pporf ls) rs;
  match confLab with Some c => Relations.filterM (before_conflict c) loads | None => Ok loads end.
Definition filterCoherentRevisits (sLab : lid) (ls : list lid) : res (list lid) :=
  l ← label g sLab; comax ← co_max g (getAddr l);
  if negb isDepTracking && bool_decide (sLab = comax) then Ok ls else
  optRfs ← getMOOptRfAfter sLab;
  ls ← Relations.filterM (notAfter optRfs) ls;
  if negb isDepTracking then Ok ls else
  ls ← Relations.filterM (beforeStore sLab) ls;
  moInvOptRfs ← getMOInvOptRfAfter sLab;
  Relations.filterM (notBefore sLab moInvOptRfs) ls.

Definition coPredOrInit (s : lid) : res lid :=
  p ← Relations.co_imm_pred g s; match p with Some p => Ok p | None => getInitLabel g end.
Definition getCoherentPlacings (wLab : lid) : res (list lid) :=
  lw ← label g wLab;
  if Class.isRMWWrite (kind lw) then
    p ← Relations.po_imm_pred g wLab; p ← deref p;
    r ← dyn_cast Class.isRead g p; verify (bool_decide (is_Some r));; r ← deref r;
    lr ← label g r; verify (bool_decide (is_Some (readsFrom lr)));; rf ← deref (readsFrom lr); Ok [rf]
  else
    c ← Relations.co g (getAddr lw);
    b ← splitLocMOBefore (getAddr lw) wLab;
    e ← (if isDepTracking then splitLocMOAfter wLab else Ok (length c));
    ss ← range c b e;
    ss ← Relations.filterM (fun s => ls ← label g s; Ok (negb (Class.isRMWWrite (kind ls)))) ss;
    ps ← transform coPredOrInit ss;
    final ← (if (e =? length c)%nat then co_max g (getAddr lw) else s ← deref (c !! e); coPredOrInit s);
    Ok (ps ++ [final]).
End placing.

(** ** Searches *)
Lemma find_if_spec f P l : decides f P l -> exists k, find_if f l = Ok k /\ (k <= length l)%nat /\
  (forall j x, (j < k)%nat -> l !! j = Some x -> ~ P x) /\ (forall x, l !! k = Some x -> P x).
Proof.
  induction l as [|x l IH]; intros Hf; cbn [find_if].
  - exists 0%nat. split_and!; [done|done|lia|done].
  - apply decides_cons in Hf as [(b & -> & Hb) Hf]. cbn [mbind res_bind]. destruct b.
    + exists 0%nat. split_and!; [done|lia|lia|]. intros y [= <-]. by apply Hb.
    + destruct (IH Hf) as (k & -> & Hk & Hlt & Hat). exists (S k). split_and!; [done|cbn; lia| |done].
      intros [|j] y Hj; [intros [= <-] HP; by apply Hb in HP|]. apply Hlt. lia.
Qed.
Lemma transform_list f l : (forall x, x ∈ l -> exists y, f x = Ok y) ->
  exists l', transform f l = Ok l' /\ forall y, y ∈ l' <-> exists x, x ∈ l /\ f x = Ok y.
Proof.
  induction l as [|x l IH]; intros Hf; cbn [transform].
  - exists []. split; [done|]. intros y. split; [by intros ?%not_elem_of_nil|by intros (x & ?%not_elem_of_nil & _)].
  - destruct (Hf x ltac:(by left)) as [y Ey]. rewrite Ey. cbn [mbind res_bind].
    destruct IH as (l' & -> & Hl); [intros z Hz; apply Hf; by right|]. eexists. split; [done|]. intros z. rewrite elem_of_cons, Hl. split.
    + intros [->|(x' & ? & ?)]; [exists x; split; [by left|done]|exists x'; split; [by right|done]].
    + intros (x' & [->|Hx']%elem_of_cons & Ez); [left; congruence|right; by exists x'].
Qed.
(** The end of a list, by a property of its elements. *)
Lemma suffix_spec (P : lid -> Prop) o b : NoDup o -> (b < length o)%nat ->
  (forall j w, (b < j)%nat -> o !! j = Some w -> ~ P w) -> (forall w, (0 < b)%nat -> o !! b = Some w -> P w) ->
  forall s, s ∈ drop b o <-> s ∈ o /\ forall w, Search.before o s w -> ~ P w.
Proof.
  intros Hnd Hb Hno Hyes s. rewrite !list_elem_of_lookup. setoid_rewrite Search.before_lookup. split.
  - intros [j Hj]. rewrite lookup_drop in Hj. split; [by eexists|]. intros w (i & k & Hi & Hw & Hlt).
    pose proof (NoDup_lookup _ _ _ _ Hnd Hi Hj) as ->. apply (Hno k); [lia|done].
  - intros [[j Hj] HP]. destruct (decide (b <= j)%nat) as [Hle|Hnle].
    + exists (j - b)%nat. rewrite lookup_drop. by replace (b + (j - b))%nat with j by lia.
    + destruct (lookup_lt_is_Some_2 o b Hb) as [w Hw]. destruct (HP w); [exists j, b; split_and!; [done..|lia]|]. apply Hyes; [lia|done].
Qed.
(** Neighbours in a list. *)
Definition next (o : list lid) (p s : lid) : Prop := exists k, o !! k = Some p /\ o !! S k = Some s.
Lemma range_ok c b e : (b <= e)%nat -> range c b e = Ok (take (e - b) (drop b c)).
Proof. intros H. unfold range. by rewrite (proj2 (Nat.ltb_ge e b) H). Qed.

(** ** With exact views *)
(** Accesses come after the first event of their thread. *)
Definition inside (g : Graph.t) : Prop :=
  forall i l, in_graph g i -> store g !! i = Some l -> Class.isMemAccess (kind l) = true -> 0 < Event.index (position l).

Section exact.
Context (hbv : nat) (g : Graph.t) (st : Calc.t) (A : list (Automaton.wstate Calc.view_update)) (q : nat).
Context (Hc : linked g) (Hcalc : Calc.calculation g hbv A q) (Hv : Calc.valid st).
Context (Hk : forall i, in_graph g i -> Calc.knows g A q hbv st i) (Hins : inside g).
#[local] Abbreviation Hg := (lk_wf g Hc).

(** [j] is [i] or happens before it. *)
Definition hb_before (i j : lid) : Prop := Calc.reach g A q i j.
Definition access (i : lid) : Prop := in_graph g i /\ exists l, store g !! i = Some l /\ Class.isMemAccess (kind l) = true.
Definition is_write (i : lid) : Prop := in_graph g i /\ exists l, store g !! i = Some l /\ Class.isWrite (kind l) = true.
Definition reads_from (r w : lid) : Prop := exists l, store g !! w = Some l /\ r ∈ readerList l.
(** [w], or a read from it, happens before [i] or is [i]; and the other way around. *)
Definition rf_before (i w : lid) : Prop := hb_before i w \/ exists r, reads_from r w /\ hb_before i r.
Definition rf_after (i w : lid) : Prop := hb_before w i \/ exists r, reads_from r w /\ hb_before r i.

Lemma write_access w : is_write w -> access w.
Proof. intros (Hw & l & Hl & Hk'). split; [done|]. exists l. split; [done|]. by destruct (kind l). Qed.
Lemma co_write a w : w ∈ list_at (coherence g) a -> is_write w.
Proof. intros Hw. destruct (wf_co g Hg a w Hw) as (Hin & l & Hl & Hkl & _). split; [done|]. by exists l. Qed.
Lemma reader_access r w : is_write w -> reads_from r w -> access r.
Proof.
  intros (Hw & lw & Hlw & Hkw) (l & Hl & Hr). rewrite Hlw in Hl. injection Hl as <-.
  destruct (wf_readers g Hg w lw (getAddr lw) r Hw Hlw) as (Hin & lr & Hlr & Hkr & _).
  { unfold readers_at. by rewrite Hkw. }
  split; [done|]. exists lr. split; [done|]. by destruct (kind lr).
Qed.
Lemma hb_contains i : in_graph g i -> exists v, hb hbv g st i = Ok v /\
  forall j, access j -> exists b, contains g st v j = Ok b /\ (b = true <-> hb_before i j).
Proof.
  intros Hi. destruct (Calc.knows_contains g Hc hbv A q st i Hcalc Hv Hi (Hk i Hi)) as (v & Hview & Hcon).
  exists v. split; [done|]. intros j (Hj & l & Hl & Ha). specialize (Hcon j l Hj Hl (Hins j l Hj Hl Ha)).
  destruct (Calc.view_slot g st i hbv v Hview) as [n Hn]. destruct (Calc.v_live st Hv _ v Hn) as [x Hx].
  unfold contains. rewrite (label_ok _ _ _ Hl). cbn [mbind res_bind].
  pose proof (View.contains_ok (Calc.heap st) v x (position l) (Calc.v_heap st Hv) Hx (Calc.position_thread g Hg j l Hj Hl)) as E.
  rewrite E in *. eexists. split; [done|]. rewrite <- Hcon. split; [by intros ->|by intros [= ->]].
Qed.
Lemma readers_ok w : is_write w -> exists rs, readers g w = Ok rs /\ forall r, r ∈ rs <-> reads_from r w.
Proof.
  intros (_ & l & Hl & _). exists (readerList l). unfold readers. rewrite (label_ok _ _ _ Hl). split; [done|].
  intros r. split; [intros ?; by exists l|]. intros (l' & Hl' & Hr). congruence.
Qed.
Lemma isWriteRfBefore_spec i l : in_graph g i -> (forall w, w ∈ l -> is_write w) ->
  decides (fun w => isWriteRfBefore hbv g st w i) (rf_before i) l.
Proof.
  intros Hi Hl w Hw. specialize (Hl w Hw). destruct (hb_contains i Hi) as (v & Ev & Hcon). unfold isWriteRfBefore. rewrite Ev. cbn [mbind res_bind].
  destruct (Hcon w (write_access w Hl)) as (b & -> & Hb). cbn [mbind res_bind]. destruct b.
  - exists true. split; [done|]. split; [|done]. intros _. left. by apply Hb.
  - destruct (readers_ok w Hl) as (rs & -> & Hrs). cbn [mbind res_bind].
    destruct (anyM_decides (contains g st v) (hb_before i) rs) as (c & -> & Hcc).
    { intros r Hr. apply Hcon. apply (reader_access r w Hl). by apply Hrs. }
    exists c. split; [done|]. rewrite Hcc. unfold rf_before. setoid_rewrite Hrs.
    split; [intros (r & ? & ?); right; by exists r|]. intros [H|(r & ? & ?)]; [by apply Hb in H|by exists r].
Qed.
Lemma view_test i l : access i -> (forall r, r ∈ l -> in_graph g r) ->
  decides (fun r => v ← hb hbv g st r; contains g st v i) (fun r => hb_before r i) l.
Proof.
  intros Hi Hl r Hr. destruct (hb_contains r (Hl r Hr)) as (v & -> & Hcon). cbn [mbind res_bind]. by apply Hcon.
Qed.
Lemma isHbOptRfBefore_spec i l : access i -> (forall w, w ∈ l -> is_write w) ->
  decides (fun w => isHbOptRfBefore hbv g st i w) (rf_after i) l.
Proof.
  intros Hi Hl w Hw. specialize (Hl w Hw). destruct (hb_contains w (proj1 Hl)) as (v & Ev & Hcon). unfold isHbOptRfBefore. rewrite Ev. cbn [mbind res_bind].
  destruct (Hcon i Hi) as (b & -> & Hb). cbn [mbind res_bind]. destruct b.
  - exists true. split; [done|]. split; [|done]. intros _. left. by apply Hb.
  - destruct (readers_ok w Hl) as (rs & -> & Hrs). cbn [mbind res_bind].
    destruct (anyM_decides _ (fun r => hb_before r i) rs (view_test i rs Hi ltac:(intros r Hr; apply (reader_access r w Hl); by apply Hrs))) as (c & -> & Hcc).
    exists c. split; [done|]. rewrite Hcc. unfold rf_after. setoid_rewrite Hrs.
    split; [intros (r & ? & ?); right; by exists r|]. intros [H|(r & ? & ?)]; [by apply Hb in H|by exists r].
Qed.

(** *** The split of the coherence order *)
Lemma co_writes a c w : Relations.co g a = Ok c -> w ∈ c -> is_write w.
Proof. intros [E _]%Relations.co_list_at. rewrite <- E. apply co_write. Qed.
Lemma rco_ok a c : Relations.co g a = Ok c -> Relations.rco g a = Ok (rev c).
Proof. unfold Relations.co, Relations.rco. by intros ->. Qed.
Lemma splitLocMOBefore_spec a i c : Relations.co g a = Ok c -> in_graph g i ->
  exists b, splitLocMOBefore hbv g st a i = Ok b /\ (b <= length c)%nat /\
    (forall j w, (b <= j)%nat -> c !! j = Some w -> ~ rf_before i w) /\
    (forall w, (0 < b)%nat -> c !! (b - 1)%nat = Some w -> rf_before i w).
Proof.
  intros Hco Hi. unfold splitLocMOBefore. rewrite (rco_ok a c Hco). cbn [mbind res_bind].
  destruct (find_if_spec (fun w => isWriteRfBefore hbv g st w i) (rf_before i) (rev c)) as (k & -> & Hkl & Hlt & Hat).
  { apply isWriteRfBefore_spec; [done|]. intros w Hw. apply (co_writes a c w Hco). by apply elem_of_rev. }
  cbn [mbind res_bind]. rewrite length_rev in *. eexists. split; [done|].
  assert (Hrev : forall j w, c !! j = Some w -> rev c !! (length c - 1 - j)%nat = Some w).
  { intros j w Hj. pose proof (lookup_lt_Some _ _ _ Hj). rewrite rev_alt. change (reverse c !! (length c - 1 - j)%nat = Some w). rewrite reverse_lookup by lia. by replace (length c - S (length c - 1 - j))%nat with j by lia. }
  destruct (Nat.eqb_spec k (length c)) as [->|Hne].
  - split; [lia|]. split; [|lia]. intros j w _ Hj. pose proof (lookup_lt_Some _ _ _ Hj). apply (Hlt (length c - 1 - j)%nat); [lia|by apply Hrev].
  - split; [lia|]. split.
    + intros j w Hbj Hj. pose proof (lookup_lt_Some _ _ _ Hj). apply (Hlt (length c - 1 - j)%nat); [lia|by apply Hrev].
    + intros w _ Hw. apply Hat. apply Hrev in Hw. by replace k with (length c - 1 - (length c - 1 - k + 1 - 1))%nat by lia.
Qed.

(** The coherence order of a location, from the initializer on. *)
Context (n : lid) (Hn : getInitLabel g = Ok n).
Lemma init_no_write : ~ is_write n.
Proof.
  intros (_ & l & Hl & Hw). destruct (wf_init g Hg) as (n' & ln & Hn' & Hln & Hkn). rewrite Hn in Hn'. injection Hn' as <-.
  rewrite Hl in Hln. injection Hln as <-. by rewrite Hkn in Hw.
Qed.
Lemma coherence_nodup a c : Relations.co g a = Ok c -> NoDup (n :: c).
Proof.
  intros Hco. apply NoDup_cons. split; [intros Hin; by apply init_no_write, (co_writes a c n Hco)|].
  apply Relations.co_list_at in Hco as [<- _]. exact (wf_co_nodup g Hg a).
Qed.
Lemma co_max_last a c : Relations.co g a = Ok c -> exists m, co_max g a = Ok m /\ (n :: c) !! length c = Some m.
Proof.
  unfold Relations.co, co_max. intros ->. cbn [mbind res_bind]. destruct c as [|x c] using rev_ind; [by exists n|].
  rewrite last_snoc. exists x. split; [done|]. rewrite length_app, Nat.add_comm. by apply (list_lookup_middle c [] x).
Qed.
Lemma po_reach i j : po g j i -> hb_before i j.
Proof.
  intros Hp. destruct Hcalc as [[rank HA] _ _ Hq _ Hpo]. right. by apply (Calc.po_pre g Hc A q rank HA Hq Hpo).
Qed.
Lemma earlier_po i j li lj : in_graph g i -> in_graph g j -> store g !! i = Some li -> store g !! j = Some lj ->
  getThread li = getThread lj -> Event.index (position li) < Event.index (position lj) -> po g i j.
Proof.
  intros Hi Hj Hli Hlj Et Hlt. destruct (in_graph_pos g Hg i Hi) as (t & th & k & l & Hth & Hki & Hl & Ep).
  destruct (in_graph_pos g Hg j Hj) as (t' & th' & k' & l' & Hth' & Hkj & Hl' & Ep'). rewrite Hli in Hl. injection Hl as <-. rewrite Hlj in Hl'. injection Hl' as <-.
  unfold getThread in Et. rewrite Ep, Ep' in Et, Hlt. cbn in Et, Hlt. assert (t' = t) as -> by lia. rewrite Hth in Hth'. injection Hth' as <-.
  exists th. split; [by eapply list_elem_of_lookup_2|]. apply Search.before_lookup. exists k, k'. split_and!; [done..|lia].
Qed.
Lemma order_in a c i : Relations.co g a = Ok c -> i ∈ n :: c -> in_graph g i.
Proof.
  intros Hco [->|Hi]%elem_of_cons; [by apply (at_event_in g _ n Hn)|]. by apply (co_writes a c i Hco).
Qed.
(** What the stores have in common: no later write is before the event. *)
Definition coherent (o : list lid) (i p : lid) : Prop := p ∈ o /\ forall w, Search.before o p w -> ~ rf_before i w.
Lemma split_coherent a c i b : Relations.co g a = Ok c -> (b <= length c)%nat ->
  (forall j w, (b <= j)%nat -> c !! j = Some w -> ~ rf_before i w) ->
  (forall w, (0 < b)%nat -> c !! (b - 1)%nat = Some w -> rf_before i w) ->
  forall p, p ∈ drop b (n :: c) <-> coherent (n :: c) i p.
Proof.
  intros Hco Hb Hno Hyes. apply suffix_spec; [by apply (coherence_nodup a)|cbn; lia|..].
  - intros [|j] w Hj; [lia|]. cbn. apply Hno. lia.
  - intros w Hpos. destruct b as [|b]; [lia|]. cbn. intros Hw. apply Hyes; [lia|]. by rewrite Nat.sub_1_r.
Qed.

(** *** Reads *)
Lemma getCoherentStores_ok r lr c : in_graph g r -> store g !! r = Some lr -> Relations.co g (getAddr lr) = Ok c ->
  exists l1 stores, getCoherentStores hbv false g st r = Ok stores /\ n :: c = l1 ++ stores /\
    forall p, p ∈ stores <-> coherent (n :: c) r p.
Proof.
  intros Hr Hlr Hco. assert (Hdrop : forall b, exists l1, n :: c = l1 ++ drop b (n :: c)) by (intros b; exists (take b (n :: c)); by rewrite take_drop).
  unfold getCoherentStores. rewrite (label_ok _ _ _ Hlr). cbn [mbind res_bind].
  destruct (co_max_last _ c Hco) as (m & -> & Hm). cbn [mbind res_bind].
  assert (Hmin : in_graph g m) by (apply (order_in _ c m Hco); by eapply list_elem_of_lookup_2).
  destruct (in_graph_store g Hg m Hmin) as [lm Hlm]. rewrite (label_ok _ _ _ Hlm). cbn [mbind res_bind].
  destruct (_ && _) eqn:Efast.
  - apply andb_prop in Efast as [Et%Z.eqb_eq Ei%Z.ltb_lt].
    pose proof (po_reach r m (earlier_po m r lm lr Hmin Hr Hlm Hlr Et Ei)) as Hhb.
    destruct (Hdrop (length c)) as [l1 El]. exists l1, (drop (length c) (n :: c)).
    assert (E : drop (length c) (n :: c) = [m]).
    { rewrite (drop_S _ m) by done. f_equal. apply drop_ge. cbn. lia. }
    rewrite <- E at 1. split; [done|]. split; [done|]. apply (split_coherent _ c r (length c) Hco); [done|..].
    + intros j w Hj Hw. apply lookup_lt_Some in Hw. lia.
    + intros w Hpos Hw. left. destruct c as [|x c]; [cbn in Hpos; lia|]. change ((x :: c) !! length c = Some m) in Hm. cbn [length] in Hw. rewrite Nat.sub_1_r in Hw. cbn [Nat.pred] in Hw. congruence.
  - rewrite Hco. cbn [mbind res_bind]. destruct (splitLocMOBefore_spec _ r c Hco Hr) as (b & -> & Hb & Hno & Hyes). cbn [mbind res_bind].
    destruct (Hdrop b) as [l1 El]. exists l1, (drop b (n :: c)). split; [|split; [done|by apply (split_coherent _ c r b Hco)]].
    assert (exists f, (if (b =? 0)%nat then getInitLabel g else deref (c !! (b - 1)%nat)) = Ok f /\ (n :: c) !! b = Some f) as (f & -> & Hf).
    { destruct b as [|b]; [by exists n|]. rewrite Nat.sub_1_r. cbn [Nat.eqb Nat.pred]. destruct (lookup_lt_is_Some_2 c b) as [f Hf]; [lia|]. exists f. split; [by rewrite Hf|exact Hf]. }
    cbn [mbind res_bind]. rewrite (range_ok c b (length c) Hb). cbn [mbind res_bind]. rewrite (drop_S (n :: c) f b Hf). cbn [drop].
    rewrite take_ge; [done|]. by rewrite length_drop.
Qed.

(** *** Writes *)
Lemma order_unique o p s s' : NoDup o -> next o p s -> next o p s' -> s = s'.
Proof.
  intros Hnd (k & Hp & Hs) (k' & Hp' & Hs'). rewrite (NoDup_lookup _ _ _ _ Hnd Hp Hp') in Hs. congruence.
Qed.
Lemma coPredOrInit_ok a c j s : Relations.co g a = Ok c -> c !! j = Some s ->
  exists p, coPredOrInit g s = Ok p /\ (n :: c) !! j = Some p.
Proof.
  intros Hco Hj. pose proof (list_elem_of_lookup_2 _ _ _ Hj) as Hin. assert (Hs : s ∈ list_at (coherence g) a) by (by rewrite (proj1 (Relations.co_list_at g a c Hco))).
  destruct (Relations.co_at g Hg a s Hs) as (_ & l1 & l2 & _ & _ & _ & Hco' & H1 & H2). rewrite Hco in Hco'. injection Hco' as ->.
  destruct (Relations.co_ranges g Hg a s l1 l2 Hs Hco H1 H2) as [_ Hpr]. unfold coPredOrInit, Relations.co_imm_pred. rewrite Hpr. cbn [mbind res_bind].
  assert (j = length l1) as ->.
  { pose proof (coherence_nodup a _ Hco) as [_ Hnd]%NoDup_cons. apply (NoDup_lookup _ _ _ _ Hnd Hj). by apply list_lookup_middle. }
  destruct l1 as [|x l1] using rev_ind; [by exists n|]. rewrite rev_unit. exists x. split; [done|].
  rewrite length_app, Nat.add_comm, <- app_assoc. by apply (list_lookup_middle l1 (s :: l2) x).
Qed.
Definition not_rmw (s : lid) : Prop := exists l, store g !! s = Some l /\ Class.isRMWWrite (kind l) = false.
Lemma getCoherentPlacings_ok w lw c : in_graph g w -> store g !! w = Some lw -> Class.isRMWWrite (kind lw) = false ->
  Relations.co g (getAddr lw) = Ok c ->
  exists ps, getCoherentPlacings hbv false g st w = Ok ps /\
    forall p, p ∈ ps <-> coherent (n :: c) w p /\ forall s, next (n :: c) p s -> not_rmw s.
Proof.
  intros Hw Hlw Hk' Hco. unfold getCoherentPlacings. rewrite (label_ok _ _ _ Hlw). cbn [mbind res_bind]. rewrite Hk', Hco. cbn [mbind res_bind].
  destruct (splitLocMOBefore_spec _ w c Hco Hw) as (b & -> & Hb & Hno & Hyes). cbn [mbind res_bind].
  rewrite (range_ok c b (length c) Hb). cbn [mbind res_bind]. rewrite take_ge by (by rewrite length_drop).
  destruct (filterM_decides (fun s => ls ← label g s; Ok (negb (Class.isRMWWrite (kind ls)))) not_rmw (drop b c)) as (ss & -> & Hss).
  { intros s Hs. destruct (co_writes _ c s Hco) as (_ & ls & Hls & _); [by apply (subseteq_drop b)|]. rewrite (label_ok _ _ _ Hls).
    eexists. split; [done|]. rewrite negb_true_iff. split; [intros E; by exists ls|]. intros (l' & Hl' & E). congruence. }
  cbn [mbind res_bind].
  assert (Hat : forall s, s ∈ ss -> exists j, (b <= j)%nat /\ c !! j = Some s /\ not_rmw s).
  { intros s [[k Hks]%list_elem_of_lookup Hnr]%Hss. rewrite lookup_drop in Hks. exists (b + k)%nat. split; [lia|done]. }
  destruct (transform_list (coPredOrInit g) ss) as (ps & -> & Hps).
  { intros s (j & _ & Hj & _)%Hat. destruct (coPredOrInit_ok _ c j s Hco Hj) as (p & Ep & _). by exists p. }
  cbn [mbind res_bind]. rewrite Nat.eqb_refl. destruct (co_max_last _ c Hco) as (m & -> & Hm). cbn [mbind res_bind].
  eexists. split; [done|]. intros p. rewrite <- (split_coherent _ c w b Hco Hb Hno Hyes), elem_of_app, list_elem_of_singleton, Hps.
  pose proof (coherence_nodup _ c Hco) as Hnd. split.
  - intros [(s & (j & Hbj & Hj & Hnr)%Hat & Ep)| ->].
    + destruct (coPredOrInit_ok _ c j s Hco Hj) as (p' & Ep' & Hp). rewrite Ep in Ep'. injection Ep' as <-. split.
      * apply list_elem_of_lookup. exists (j - b)%nat. rewrite lookup_drop. by replace (b + (j - b))%nat with j by lia.
      * intros s' Hs'. rewrite (order_unique _ p s' s Hnd Hs'); [done|]. by exists j.
    + split.
      * apply list_elem_of_lookup. exists (length c - b)%nat. rewrite lookup_drop. by replace (b + (length c - b))%nat with (length c) by lia.
      * intros s (k & Hkm & Hks). rewrite (NoDup_lookup _ _ _ _ Hnd Hkm Hm) in Hks. apply lookup_lt_Some in Hks. cbn in Hks. lia.
  - intros [[j Hj]%list_elem_of_lookup Hnr]. rewrite lookup_drop in Hj. destruct (decide (b + j = length c)%nat) as [E|Hne].
    + right. rewrite E in Hj. congruence.
    + left. destruct (lookup_lt_is_Some_2 c (b + j)) as [s Hs]; [apply lookup_lt_Some in Hj; cbn in Hj; lia|]. exists s.
      destruct (coPredOrInit_ok _ c _ s Hco Hs) as (p' & -> & Hp'). rewrite Hj in Hp'. injection Hp' as <-. split; [|done].
      apply Hss. split; [|apply Hnr; by exists (b + j)%nat]. apply list_elem_of_lookup. exists j. by rewrite lookup_drop.
Qed.
(** A store that completes a read-modify-write goes right after its source. *)
Lemma getCoherentPlacings_rmw dep w r lw lr s : store g !! w = Some lw -> Class.isRMWWrite (kind lw) = true ->
  Relations.po_imm_pred g w = Ok (Some r) -> store g !! r = Some lr -> Class.isRead (kind lr) = true -> readsFrom lr = Some s ->
  getCoherentPlacings hbv dep g st w = Ok [s].
Proof.
  intros Hlw Hk' Hp Hlr Hkr Hs. unfold getCoherentPlacings. rewrite (label_ok _ _ _ Hlw). cbn [mbind res_bind]. rewrite Hk', Hp. cbn [mbind res_bind deref].
  unfold dyn_cast. rewrite (label_ok _ _ _ Hlr). cbn [mbind res_bind]. rewrite Hkr. cbn. rewrite (label_ok _ _ _ Hlr). cbn. by rewrite Hs.
Qed.

(** *** Revisits *)
Lemma opt_rf_ok (ws : list lid) : (forall w, w ∈ ws -> is_write w) ->
  exists rs, opt_rf g ws = Ok rs /\ forall r, r ∈ rs <-> exists w, w ∈ ws /\ reads_from r w.
Proof.
  induction ws as [|w ws IH]; intros Hws; cbn [opt_rf].
  - exists []. split; [done|]. intros r. split; [by intros ?%not_elem_of_nil|by intros (w & ?%not_elem_of_nil & _)].
  - destruct (readers_ok w (Hws w ltac:(by left))) as (rs & -> & Hrs). cbn [mbind res_bind].
    destruct IH as (rs' & -> & Hrs'); [intros w' Hw'; apply Hws; by right|]. eexists. split; [done|]. intros r.
    rewrite elem_of_app, Hrs, Hrs'. setoid_rewrite elem_of_cons. split; [intros [H|(w' & H & H')]; eauto|]. intros (w' & [->|H] & H'); eauto.
Qed.
Lemma co_around a s : s ∈ list_at (coherence g) a -> exists l l2, store g !! s = Some l /\ getAddr l = a /\
  Relations.co g a = Ok (list_at (coherence g) a) /\ Relations.co_succs g s = Ok l2 /\
  forall w, w ∈ l2 <-> Search.before (list_at (coherence g) a) s w.
Proof.
  intros Hs. destruct (Relations.co_at g Hg a s Hs) as (l & l1 & l2 & Hl & _ & Ha & Hco & H1 & H2).
  destruct (Relations.co_ranges g Hg a s l1 l2 Hs Hco H1 H2) as [Hsu _]. pose proof (wf_co_nodup g Hg a) as Hnd.
  destruct (Relations.co_list_at g a _ Hco) as [E _]. exists l, l2. split_and!; [done..|by rewrite E|done|].
  intros w. rewrite Search.before_lookup, list_elem_of_lookup, E. assert (Hms : (l1 ++ s :: l2) !! length l1 = Some s) by (by apply list_lookup_middle). split.
  - intros [k Hw]. exists (length l1), (length l1 + S k)%nat. split; [done|]. split; [|lia]. rewrite lookup_app_r by lia.
    by replace (length l1 + S k - length l1)%nat with (S k) by lia.
  - intros (i & j & Hi & Hj & Hlt). rewrite E in Hnd. pose proof (NoDup_lookup _ _ _ _ Hnd Hi Hms) as ->.
    rewrite lookup_app_r in Hj by lia. exists (j - S (length l1))%nat. by replace (j - length l1)%nat with (S (j - S (length l1))) in Hj by lia.
Qed.
Lemma notAfter_ok (ws opt : list lid) e p : (forall w, w ∈ ws -> is_write w) ->
  (forall x, x ∈ opt <-> x ∈ ws \/ exists w, w ∈ ws /\ reads_from x w) ->
  in_graph g p -> Relations.po_imm_pred g e = Ok (Some p) ->
  exists b, notAfter hbv g st opt e = Ok b /\ (b = true <-> forall w, w ∈ ws -> ~ rf_before p w).
Proof.
  intros Hws Hopt Hp Ep. unfold notAfter. rewrite Ep. cbn [mbind res_bind deref].
  destruct (hb_contains p Hp) as (v & -> & Hcon). cbn [mbind res_bind].
  destruct (anyM_decides (contains g st v) (hb_before p) opt) as (b & -> & Hb).
  { intros x [Hx|(w & Hw & Hx)]%Hopt; apply Hcon; [by apply write_access, Hws|by apply (reader_access x w (Hws w Hw))]. }
  eexists. split; [done|]. rewrite negb_true_iff. destruct b; split; try done.
  - intros H. exfalso. destruct (proj1 Hb eq_refl) as (x & [Hx|(w & Hw & Hx)]%Hopt & Hhb).
    + by apply (H x Hx); left.
    + apply (H w Hw). right. by exists x.
  - intros _ w Hw Hrf. assert (false = true); [|done]. apply Hb. destruct Hrf as [H|(x & Hx & H)]; [exists w|exists x]; (split; [apply Hopt; eauto|done]).
Qed.
(** A read can be revisited when neither a later store nor a read from one is before it. *)
Lemma filterCoherentRevisits_ok {V} `{HV : VectorClock V} (resultingView : Stamp.t -> lid -> res V) s (ls : list lid) a : s ∈ list_at (coherence g) a ->
  (forall r, r ∈ ls -> exists p, in_graph g p /\ Relations.po_imm_pred g r = Ok (Some p)) ->
  exists ls', filterCoherentRevisits hbv false g st resultingView s ls = Ok ls' /\
    forall r, r ∈ ls' <-> r ∈ ls /\ forall p w, Relations.po_imm_pred g r = Ok (Some p) ->
      Search.before (list_at (coherence g) a) s w -> ~ rf_before p w.
Proof.
  intros Hs Hls. destruct (co_around a s Hs) as (l & l2 & Hl & Ha & Hco & Hsu & Hl2). unfold filterCoherentRevisits. rewrite (label_ok _ _ _ Hl). cbn [mbind res_bind].
  rewrite Ha. destruct (co_max_last a _ Hco) as (m & -> & Hm). cbn [mbind res_bind negb andb]. case_bool_decide as Emax.
  - exists ls. split; [done|]. intros r. split; [|by intros [? _]]. intros Hr. split; [done|]. intros p w _ Hbef.
    subst m. apply Search.before_lookup in Hbef as (i & j & Hi & Hj & Hlt).
    assert (i = pred (length (list_at (coherence g) a))) as ->.
    { pose proof (coherence_nodup a _ Hco) as Hnd. pose proof (NoDup_lookup _ (S i) _ _ Hnd Hi Hm). lia. }
    apply lookup_lt_Some in Hj. lia.
  - unfold getMOOptRfAfter. rewrite Hsu. cbn [mbind res_bind].
    assert (Hws : forall w, w ∈ l2 -> is_write w) by (intros w [_ Hw]%Hl2%Search.before_in; by apply (co_write a)).
    destruct (opt_rf_ok l2 Hws) as (rs & -> & Hrs). cbn [mbind res_bind].
    destruct (filterM_decides (notAfter hbv g st (l2 ++ rs)) (fun r => forall p w, Relations.po_imm_pred g r = Ok (Some p) ->
      Search.before (list_at (coherence g) a) s w -> ~ rf_before p w) ls) as (ls' & -> & Hls').
    { intros r Hr. destruct (Hls r Hr) as (p & Hp & Ep). destruct (notAfter_ok l2 (l2 ++ rs) r p Hws) as (b & Eb & Hb); [|done..|].
      - intros x. by rewrite elem_of_app, Hrs.
      - exists b. split; [done|]. rewrite Hb. setoid_rewrite Hl2. split; [|by intros H w; apply H].
        intros H p' w Ep'. assert (p' = p) as -> by congruence. apply H. }
    exists ls'. split; [done|exact Hls'].
Qed.
End exact.
End Placing.
