(* ===== verification/Clocks.v ===== *)
(** * The views that the exploration passes around

    A revisit owns the view of the events that it keeps, and the driver compares views
    of labels with views of moments.  All are vector clocks of one kind, plain views or
    views with holes (ADT/VectorClock.hpp); the class [RevisitView] is what the driver
    uses of them.  The view of a label is passed on as the vector it stands for, whatever
    it shares: views are independent of each other where no assertion of theirs would
    fail ([View.views_are_independent]). *)

From S2P Require Import Prelude Values Addresses Events VSet Views IntervalMap AdaptiveView Labels Graph Relations Cut Search Automata Checkable Scripts GraphUtils Calc.
Import EventLabel Graph.
Local Open Scope Z_scope.

#[global] Instance Vec_clock : VectorClock (list Z) := {|
  vc_size v := Ok (ViewBase.size v);
  vc_getMax := ViewBase.getMax;
  vc_contains := ViewBase.contains
|}.

Module Clocks.

(** The vector of a view: what [hydrate] would give a copy of it. *)
Definition snapshot (h : View.store) (v : View.vid) : res (list Z) :=
  x ← View.view_of h v;
  b ← match View.base_ x with Some l => View.base_of h l | None => Ok [] end;
  if Event.isInitializer (View.diff_ x) then Ok b else ViewBase.updateIdx b (View.diff_ x).

(** The operations of the clocks of revisits, and where they come from: the view of
    the events added by a moment, and the prefix of a label, which is calculated when
    the label has none ([GenMCDriver::getPrefixView]). *)
Class RevisitView (V : Type) := {
  rv_clock :: VectorClock V;
  rv_update : V -> V -> res V;
  rv_fromStamp : bool -> Stamp.t -> Graph.t -> res V;
  rv_prefix : bool -> Graph.t -> Calc.t -> lid -> res V;
  (* whether the graph is a [DepExecutionGraph], and its views have holes *)
  rv_isDep : bool;
  rv_removeHole : V -> Event.t -> res V
}.
#[global] Existing Instance rv_clock.
(** Plain views; [dyn_cast<DepView>] of one is a null pointer. *)
#[global] Instance plain : RevisitView (list Z) := {|
  rv_clock := Vec_clock;
  rv_update v w := Ok (ViewBase.update v w);
  rv_fromStamp dbg st g := h ← Cut.getViewFromStamp dbg st g View.empty_store 1%positive; snapshot h 1%positive;
  rv_prefix dbg g st i :=
    match Calc.prefixView st !! i with
    | Some v => snapshot (Calc.heap st) v
    | None => let c := Calc.fresh_view (Calc.heap st) in h ← Calc.calcPPoRfBefore dbg g i st (Calc.heap st) c; snapshot h c
    end;
  rv_isDep := false;
  rv_removeHole _ _ := Abort Undefined
|}.
(** [getPredsView] *)
Definition getPredsView {V} `{RevisitView V} (dbg : bool) (e : Event.t) (g : Graph.t) : res V :=
  x ← getEventLabel g e; l ← label g x; st ← Cut.getStamp l; rv_fromStamp dbg st g.

(** ** The clocks of vectors *)
Lemma vec_prefix_clock v : ViewBase.wf v -> prefix_clock v (ViewBase.clock v).
Proof.
  intros Hv. split.
  - exists (ViewBase.size v). split; [done|]. assert (0 <= ViewBase.size v) by (unfold ViewBase.size; lia). split; [done|].
    split; [intros t Ht; by apply ViewBase.clock_ge|].
    destruct (decide (ViewBase.size v = 0)) as [|Hn]; [by left|right].
    assert (exists x, last v = Some x) as [x Hx].
    { destruct (last v) as [x|] eqn:E; [by exists x|]. apply last_None in E. subst v. by unfold ViewBase.size in Hn. }
    pose proof (ViewBase.last_clock v x Hx) as Hc. pose proof (ViewBase.clock_nonneg v (ViewBase.size v - 1) Hv).
    destruct Hv as [_ Hl]. rewrite Hc in *. assert (x <> 0) by congruence. lia.
  - intros t Ht. cbn. by apply ViewBase.vb_getMax_ok.
  - intros e He. cbn. by apply ViewBase.vb_contains_ok.
  - intros t _. by apply ViewBase.clock_nonneg.
Qed.

Lemma snapshot_spec h v x : View.wf h -> View.views h !! v = Some x ->
  exists b, snapshot h v = Ok b /\ ViewBase.wf b /\ forall t, 0 <= t -> ViewBase.clock b t = View.clk h v t.
Proof.
  intros Hh Hx. destruct (View.wf_views h Hh v x Hx) as [Hb Hd]. unfold snapshot, View.view_of. rewrite Hx. cbn [deref mbind res_bind].
  assert (exists b, match View.base_ x with Some l => View.base_of h l | None => Ok [] end = Ok b /\ ViewBase.wf b /\
    forall t, View.base_clock h (View.base_ x) t = ViewBase.clock b t) as (b & -> & Hwf & Hc).
  { unfold View.base_clock. destruct (View.base_ x) as [l|].
    - destruct Hb as [b Hb]. exists b. unfold View.base_of. rewrite Hb. split; [done|]. split; [by apply (View.wf_bases h Hh l)|done].
    - exists []. split; [done|]. split; [apply ViewBase.wf_nil|]. intros t. unfold ViewBase.clock. by rewrite lookup_nil. }
  cbn [mbind res_bind]. unfold View.clk, View.view_clock. rewrite Hx.
  destruct (View.init_cases (View.diff_ x)) as [[-> E]|[-> Hn]].
  - exists b. split; [done|]. split; [done|]. intros t Ht. rewrite E, View.diff_clock_init, Hc.
    pose proof (ViewBase.clock_nonneg b t Hwf). lia.
  - destruct Hd as [?|[Ht Hi]]; [done|].
    destruct (ViewBase.updateIdx_spec b (View.diff_ x) Hwf Ht) as (b' & -> & Hwf' & Hc'). exists b'. split; [done|]. split; [done|].
    intros t Hpos. rewrite Hc', Hc by done. unfold View.diff_clock. pose proof (ViewBase.clock_nonneg b t Hwf).
    repeat case_decide; subst; try congruence; lia.
Qed.

(** The view of a moment. *)
Lemma fromStamp_spec dbg st g : wf g -> Cut.all_stamped g -> exists v : list Z, rv_fromStamp dbg st g = Ok v /\ ViewBase.wf v /\
  forall t, 0 <= t -> ViewBase.clock v t = Cut.stamp_clock st g t.
Proof.
  intros Hg Ha.
  assert (View.wf View.empty_store) as He by (split; intros ? ?; cbn; by rewrite lookup_empty).
  destruct (Cut.getViewFromStamp_fold dbg st g View.empty_store 1%positive Hg Ha He (length (events g)) ltac:(lia))
    as (h & E & _ & Hwf & [x Hx] & Hc & _).
  destruct (snapshot_spec h 1%positive x Hwf Hx) as (b & Eb & Hb & Hclk). exists b. cbn [rv_fromStamp plain].
  unfold Cut.getViewFromStamp, getNumThreads. rewrite E. cbn [mbind res_bind]. split; [done|]. split; [done|].
  intros t Ht. rewrite Hclk, Hc by done. case_decide; [done|]. unfold Cut.stamp_clock.
  rewrite (lookup_ge_None_2 (events g)) by lia. done.
Qed.

(** The stored prefix of a label. *)
Lemma prefix_spec dbg g st i pv x : View.wf (Calc.heap st) -> Calc.prefixView st !! i = Some pv -> View.views (Calc.heap st) !! pv = Some x ->
  exists v : list Z, rv_prefix dbg g st i = Ok v /\ ViewBase.wf v /\ forall t, 0 <= t -> ViewBase.clock v t = View.clk (Calc.heap st) pv t.
Proof.
  intros Hwf Hp Hx. cbn [rv_prefix plain]. rewrite Hp. by apply (snapshot_spec _ _ x).
Qed.
End Clocks.
