(* ===== verification/Errors.v ===== *)
(** * The errors that the checkers report

    Models the error checks of Execution/Consistency/{SC,TSO,RA,RC11,IMM}Checker.cpp,
    the traversals of ExecutionGraph.hpp that they use (the allocation of an access, its
    free, the latest accesses that meet it), isHazptrProtected of GraphUtils.cpp and the
    enumeration of Verification/VerificationError.hpp.

    A check looks for a label that the happens-before view of the new label does not
    contain.  The visits read the execution state, and they leave the label they found
    in a member of the checker, [cexLab], which is threaded here as a state.  The
    theorems say what the answers mean for the accesses that the execution did
    ([StateSpec]). *)

From S2P Require Import Prelude Values Addresses Events VSet Views IntervalMap AdaptiveView ExecutionState StateSpec Labels Graph Relations Cut Search Automata Calc.
Import EventLabel Graph.
Local Open Scope Z_scope.

(** ** Verification errors *)
Module VerificationError.
Inductive t :=
  | VE_NonErrorBegin | VE_WWRace | VE_UnfreedMemory | VE_NonErrorLast
  | VE_Safety | VE_Recovery | VE_Liveness | VE_RaceNotAtomic | VE_RaceFreeMalloc | VE_FreeNonMalloc | VE_DoubleFree | VE_Allocation
  | VE_InvalidAccessBegin | VE_UninitializedMem | VE_AccessNonMalloc | VE_AccessFreed | VE_InvalidAccessEnd
  | VE_InvalidCreate | VE_InvalidJoin | VE_InvalidUnlock | VE_InvalidBInit | VE_BarrierWellFormedness | VE_Annotation | VE_MixedSize
  | VE_LinearizabilityError | VE_SystemError.
#[global] Instance eq_dec : EqDecision t.
Proof. solve_decision. Defined.
(** The order of the enumerators. *)
Definition all : list t := [
  VE_NonErrorBegin; VE_WWRace; VE_UnfreedMemory; VE_NonErrorLast; VE_Safety; VE_Recovery; VE_Liveness; VE_RaceNotAtomic; VE_RaceFreeMalloc;
  VE_FreeNonMalloc; VE_DoubleFree; VE_Allocation; VE_InvalidAccessBegin; VE_UninitializedMem; VE_AccessNonMalloc; VE_AccessFreed;
  VE_InvalidAccessEnd; VE_InvalidCreate; VE_InvalidJoin; VE_InvalidUnlock; VE_InvalidBInit; VE_BarrierWellFormedness; VE_Annotation;
  VE_MixedSize; VE_LinearizabilityError; VE_SystemError].
Definition code (e : t) : Z := match list_find (fun x => x = e) all with Some (i, _) => Z.of_nat i | None => 0 end.
#[export] Program Instance error_ord : TotalOrd t := {| ltb a b := code a <? code b |}.
Next Obligation. intros a. cbn. lia. Qed.
Next Obligation. intros a b c. cbn. lia. Qed.
Next Obligation. intros a b. cbn. destruct a, b; vm_compute; auto. Qed.

Definition isInvalidAccessError (s : t) : bool := (code VE_InvalidAccessBegin <=? code s) && (code s <=? code VE_InvalidAccessEnd).
Definition isHardError (err : t) : bool := negb ((code VE_NonErrorBegin <=? code err) && (code err <=? code VE_NonErrorLast)).
End VerificationError.

Module Errors.
Import Automaton ExecutionState VerificationError.

Section errors.
Context {V : Type} `{ViewOps V}.

(** ** Allocations and accesses of the graph *)
(** The labels of a range are looked up one by one, when the loop gets to them. *)
Definition range := Graph.t -> lid -> res (list (res lid)).
Definition single (f : Graph.t -> lid -> res (option lid)) : range := fun g i => o ← f g i; Ok (map Ok (option_list o)).
Definition each_event (g : Graph.t) (a : res (AdaptiveView.t V)) : res (list (res lid)) :=
  a ← a; es ← AdaptiveView.events a; Ok (map (getEventLabel g) es).
Definition isMemLifecycle (k : Kind.t) : bool := Class.classofKind Class.CMemLifecycle k.

Definition alloc (s : ExecutionState.t V) (g : Graph.t) (lab : lid) : res (option lid) :=
  l ← label g lab;
  if negb (Class.isMem (kind l)) || SAddr.isStatic (getAddr l) then Ok None else
  pos ← getAllocPos s (getAddr l);
  i ← getEventLabel g pos; Ok (Some i).
Definition free (s : ExecutionState.t V) (g : Graph.t) (lab : lid) : res (option lid) :=
  l ← label g lab;
  if negb (Class.isMem (kind l)) || SAddr.isStatic (getAddr l) then Ok None else
  freePos ← getFreePos s (getAddr l);
  isRetired ← ExecutionState.isRetired s (getAddr l);
  match freePos with
  | Some p => if (isRetired : bool) then Ok None else i ← getEventLabel g p; Ok (Some i)
  | None => Ok None
  end.
Definition retire (s : ExecutionState.t V) (g : Graph.t) (lab : lid) : res (option lid) :=
  l ← label g lab;
  if negb (Class.isMem (kind l)) || SAddr.isStatic (getAddr l) then Ok None else
  freePos ← getFreePos s (getAddr l);
  isRetired ← ExecutionState.isRetired s (getAddr l);
  match freePos with
  | Some p => if negb isRetired then Ok None else i ← getEventLabel g p; Ok (Some i)
  | None => Ok None
  end.
Definition unprotected (s : ExecutionState.t V) : range := fun g lab =>
  l ← label g lab;
  if negb (isMemLifecycle (kind l)) then each_event g (Ok AdaptiveView.Empty)
  else each_event g (getMaxUnprotectedView s (getAddr l)).
Definition pomax (getter : ExecutionState.t V -> AAccess.t -> res (AdaptiveView.t V)) (s : ExecutionState.t V) : range := fun g lab =>
  l ← label g lab;
  if negb (Class.isMem (kind l)) then each_event g (Ok AdaptiveView.Empty)
  else each_event g (getter s (EventLabel.access l)).
Definition pomax_na_reads := pomax getMaxNAReadView.
Definition pomax_na_writes := pomax getMaxNAWriteEvent.
Definition pomax_at_reads := pomax getMaxAReadView.
Definition pomax_at_writes := pomax getMaxAWriteView.

(** [g.samelocs(lab)] *)
Definition samelocs : range := fun g lab => l ← Relations.samelocs g lab; Ok (map Ok l).

(** ** Guards *)
Definition isFree : guard := isa Class.isFree.
Definition isHpRetire : guard := isa (Class.isKind Kind.HpRetire).
Definition isMemAccess : guard := isa Class.isMemAccess.
Definition isDynamicAddr : guard := test (fun l => SAddr.isDynamic (getAddr l)).

(** ** Hazard pointers *)
Definition isHpProtect : Kind.t -> bool := Class.isKind Kind.HpProtect.
(** [find_if]: the protection, and the labels before it in the range. *)
Fixpoint find_protect (rng : AAccess.t) (g : Graph.t) (ps skipped : list lid) : res (option (lid * list lid)) :=
  match ps with
  | [] => Ok None
  | p :: ps =>
      l ← label g p;
      if isHpProtect (kind l) && AAccess.contains rng (protAddr l) then Ok (Some (p, rev skipped))
      else find_protect rng g ps (p :: skipped)
  end.
Definition isHazptrProtected (s : ExecutionState.t V) (g : Graph.t) (mLab : lid) : res bool :=
  m ← label g mLab;
  verify (SAddr.isDynamic (getAddr m));;
  rng ← getAllocAccess s (getAddr m);
  mpreds ← Relations.po_preds g mLab;
  it ← find_protect rng g mpreds [];
  match it with
  | None => Ok false
  | Some (pLab, before) =>
      p ← label g pLab;
      b ← Relations.anyM (fun o => l ← label g o; Ok (isHpProtect (kind l) && bool_decide (hpAddr l = hpAddr p))) before;
      Ok (negb b)
  end.

(** ** Visits *)
(** A visit returns whether to go on, and the label it leaves in [cexLab]. *)
Definition visit := option lid -> res (bool * option lid).
(** [if (guards on lab) for (pLab in range(lab)) if (guards on pLab) if (!visit(pLab)) return false;] *)
Record uedge := UEdge { on : list guard; via : range; next : list guard }.
Fixpoint visit_range (f : lid -> visit) (ds : list guard) (g : Graph.t) (ps : list (res lid)) : visit := fun cex =>
  match ps with
  | [] => Ok (true, cex)
  | p :: ps =>
      p ← p;
      c ← holds ds g p;
      '(b, cex) ← (if (c : bool) then f p cex else Ok (true, cex));
      if (b : bool) then visit_range f ds g ps cex else Ok (false, cex)
  end.
Fixpoint visit_edges (f : lid -> visit) (es : list uedge) (g : Graph.t) (lab : lid) : visit := fun cex =>
  match es with
  | [] => Ok (true, cex)
  | e :: es =>
      b ← holds (on e) g lab;
      '(ok, cex) ← (if (b : bool) then ps ← via e g lab; visit_range f (next e) g ps cex else Ok (true, cex));
      if (ok : bool) then visit_edges f es g lab cex else Ok (false, cex)
  end.
(** The last state of a check against a view: a label that the view does not contain
    is a counterexample. *)
Definition visit_contained (g : Graph.t) (st : Calc.t) (v : View.vid) (lab : lid) : visit := fun cex =>
  l ← label g lab; b ← View.contains (Calc.heap st) v (position l);
  Ok (if (b : bool) then (true, cex) else (false, Some lab)).
(** The last state of a check that there is no label at all. *)
Definition visit_none (lab : lid) : visit := fun cex => Ok (false, cex).
(** [auto &v = lab->view(k); return true && visit(lab, v);] *)
Definition unless_contained (g : Graph.t) (st : Calc.t) (k : nat) (f : View.vid -> lid -> visit) (es : list uedge) (lab : lid) : visit := fun cex =>
  v ← Calc.view g (Calc.calculatedViews st) lab k;
  visit_edges (f v) es g lab cex.
(** The first stamp that only the left-hand side has marked; no visit marks any. *)
Fixpoint uncovered (lhs rhs : list bool) (i : Z) : option Z :=
  match lhs, rhs with
  | l :: lhs, r :: rhs => if l && negb r then Some i else uncovered lhs rhs (i + 1)
  | _, _ => None
  end.
Definition labelOfStamp (g : Graph.t) (i : Z) : res lid :=
  o ← foldM (fun (o : option lid) x => match o with
    | Some _ => Ok o
    | None => l ← label g x; s ← Cut.getStamp l; Ok (if s =? i then Some x else None) end) None (insertionOrder g);
  deref o.
Definition unless_none (g : Graph.t) (f : lid -> visit) (es : list uedge) (lab : lid) : visit := fun cex =>
  let visited := replicate (Z.to_nat (Stamp.get (timestamp g) + 1)) false in
  '(b, cex) ← visit_edges f es g lab cex;
  if negb b then Ok (false, cex) else
  match uncovered visited visited 0 with
  | Some i => x ← labelOfStamp g i; Ok (false, Some x)
  | None => Ok (true, cex)
  end.
(** [if (visitUnlessError<n>(lab)) return true; return visitError<n>(lab);] *)
Definition check (unless : visit) (err : bool) : visit := fun cex =>
  '(b, cex) ← unless cex; Ok (if (b : bool) then true else err, cex).
(** [if (!checkError<n>(lab)) { race = cexLab; return {code}; }], one after the other;
    [race] keeps its value when no check fails. *)
Fixpoint report (cs : list (visit * VerificationError.t)) (race : option lid) : option lid -> res (option VerificationError.t * option lid * option lid) := fun cex =>
  match cs with
  | [] => Ok (None, race, cex)
  | (c, code) :: cs => '(b, cex) ← c cex; if (b : bool) then report cs race cex else Ok (Some code, cex, cex)
  end.
(** [if (seenWarnings.count(code) == 0 && !checkWarning<n>(lab)) ...]; the labels that
    race are appended to [racyLabs], which may get a null pointer. *)
Definition warn (c : visit) (code : VerificationError.t) (seenWarnings : list VerificationError.t) (racyLabs : list (option lid))
    : option lid -> res (list VerificationError.t * list (option lid) * option lid) := fun cex =>
  if negb (bool_decide (VSet.count seenWarnings code = 0%nat)) then Ok ([], racyLabs, cex) else
  '(b, cex) ← c cex;
  if (b : bool) then Ok ([], racyLabs, cex) else Ok ([code], racyLabs ++ [cex], cex).
End errors.
End Errors.
