(* ===== verification/Revisits.v ===== *)
(** * Revisits, work lists and choices

    Models Verification/Revisit.hpp, WorkList.hpp and ChoiceMap.{hpp,cpp}, and
    [ErrorDetails] of VerificationError.hpp: what the driver remembers of the
    alternatives that it has not explored yet. *)

From S2P Require Import Prelude Values Addresses Events VSet Views IntervalMap AdaptiveView ExecutionState Labels Graph Relations Cut Search Automata Checkable Scripts Calc Clocks Errors.
Import EventLabel Graph.
Local Open Scope Z_scope.

(** The details of an error; the texts of messages are left out. *)
Record ErrorDetails := { ed_pos : option Event.t; ed_type : VerificationError.t; ed_racyLab : option lid; ed_shouldHalt : bool }.

Module Revisit.

Inductive Kind := RV_FRev | RV_FRevRead | RV_FRevMO | RV_FRevOpt | RV_FRevRerun | RV_FRevReplay | RV_FRevLast | RV_BRev | RV_BRevLast.
(** The position in the enumeration. *)
Definition code (k : Kind) : nat :=
  match k with
  | RV_FRev => 0 | RV_FRevRead => 1 | RV_FRevMO => 2 | RV_FRevOpt => 3 | RV_FRevRerun => 4 | RV_FRevReplay => 5
  | RV_FRevLast => 6 | RV_BRev => 7 | RV_BRevLast => 8
  end.
#[global] Instance Kind_eq_dec : EqDecision Kind.
Proof. solve_decision. Defined.

Section revisit.
Context {V : Type}.

(** The concrete subclasses. *)
Inductive t :=
  | ReadForward (pos rev : Event.t) (maximal : bool)
  | WriteForward (pos moPred : Event.t)
  | OptionalForward (pos : Event.t)
  | RerunForward
  | ReplayForward (pos : Event.t) (details : ErrorDetails)
  | Backward (pos rev : Event.t) (view : V).

Definition getKind (r : t) : Kind :=
  match r with
  | ReadForward _ _ _ => RV_FRevRead | WriteForward _ _ => RV_FRevMO | OptionalForward _ => RV_FRevOpt
  | RerunForward => RV_FRevRerun | ReplayForward _ _ => RV_FRevReplay | Backward _ _ _ => RV_BRev
  end.
Definition getPos (r : t) : Event.t :=
  match r with
  | ReadForward p _ _ | WriteForward p _ | OptionalForward p | ReplayForward p _ | Backward p _ _ => p
  | RerunForward => Event.getInit
  end.
(** [ForwardRevisit::classof], [BackwardRevisit::classof], [ReadRevisit::classof] *)
Definition isForward (r : t) : bool := (code RV_FRev <=? code (getKind r))%nat && (code (getKind r) <=? code RV_FRevLast)%nat.
Definition isBackward (r : t) : bool := (code RV_BRev <=? code (getKind r))%nat && (code (getKind r) <=? code RV_BRevLast)%nat.
Definition isReadRevisit (r : t) : bool := bool_decide (getKind r = RV_FRevRead) || isBackward r.
(** [castToReadRevisit], and [getRev] of what it returns. *)
Definition getRev (r : t) : option Event.t :=
  match r with ReadForward _ rev _ | Backward _ rev _ => Some rev | _ => None end.

(** The two ways to recognise a read revisit agree. *)
Lemma castToReadRevisit_classof r : bool_decide (is_Some (getRev r)) = isReadRevisit r.
Proof. by destruct r. Qed.
(** A revisit goes forward or backward. *)
Lemma forward_or_backward r : isForward r = negb (isBackward r).
Proof. by destruct r. Qed.
End revisit.
Arguments t : clear implicits.
End Revisit.

(** ** Work lists: the next item is the last one added *)
Module WorkList.
Section worklist.
Context {V : Type}.
Definition t : Type := list (Revisit.t V).
Definition empty (w : t) : bool := bool_decide (w = []).
Definition add (item : Revisit.t V) (w : t) : t := w ++ [item].
Definition getNext (w : t) : option (Revisit.t V) * t :=
  match last w with None => (None, w) | Some item => (Some item, removelast w) end.

Lemma getNext_add item w : getNext (add item w) = (Some item, w).
Proof. unfold getNext, add. rewrite last_snoc. by rewrite removelast_last. Qed.
Lemma getNext_none w : (getNext w).1 = None <-> w = [].
Proof. unfold getNext. destruct (last w) eqn:E; [|apply last_None in E; by split]. split; [done|by intros ->]. Qed.
End worklist.
Arguments t : clear implicits.
End WorkList.

(** ** Choices *)
Module ChoiceMap.
Definition t : Type := gmap Event.t (list Event.t).

Section choices.
Context (g : Graph.t).
Fixpoint positions (ls : list lid) : res (list Event.t) :=
  match ls with [] => Ok [] | i :: ls => l ← label g i; r ← positions ls; Ok (position l :: r) end.
(** The two versions for one label; [choices] becomes a set made of the vector. *)
Definition update (i : lid) (stores : list lid) (m : t) : res t :=
  l ← label g i; es ← positions stores; Ok (<[position l := VSet.of_rvalue es]> m).
Definition update_load (s : Event.t) (m : t) (i : lid) : res t :=
  l ← label g i; Ok (<[position l := (VSet.insert (default [] (m !! position l)) s).1]> m).
Definition update_loads (loads : list lid) (s : lid) (m : t) : res t :=
  l ← label g s; foldM (update_load (position l)) m loads.
End choices.

Section cut.
Context {V : Type} `{VectorClock V} (v : V).
Definition collect (acc : list Event.t) (e : Event.t) : res (list Event.t) :=
  b ← vc_contains v e; Ok (if (b : bool) then acc else (VSet.insert acc e).1).
Definition cut_entry (m : t) (kv : Event.t * list Event.t) : res t :=
  b ← vc_contains v kv.1;
  if negb b then Ok (delete kv.1 m) else
  toRemove ← foldM collect [] kv.2;
  r ← VSet.erase_set kv.2 toRemove; Ok (<[kv.1 := r.1]> m).
Definition cut (m : t) : res t := foldM cut_entry m (map_to_list m).

(** *** What is left *)
Context (f : Z -> Z) (Hv : prefix_clock v f).
Definition seen (e : Event.t) : bool := Event.index e <=? f (Event.thread e).
Definition valid (m : t) : Prop :=
  forall k s, m !! k = Some s -> 0 <= Event.thread k /\ increasing s /\ forall e, e ∈ s -> 0 <= Event.thread e.

Lemma contains_seen e : 0 <= Event.thread e -> vc_contains v e = Ok (seen e).
Proof. intros He. by apply (pc_contains v f Hv). Qed.
Lemma collect_ok es : (forall e, e ∈ es -> 0 <= Event.thread e) -> forall acc, increasing acc ->
  exists acc', foldM collect acc es = Ok acc' /\ increasing acc' /\ forall e, e ∈ acc' <-> e ∈ acc \/ e ∈ es /\ seen e = false.
Proof.
  induction es as [|x es IH]; intros Hes acc Hacc; cbn [foldM].
  - exists acc. split; [done|]. split; [done|]. set_solver.
  - assert (collect acc x = Ok (if seen x then acc else (VSet.insert acc x).1)) as ->
      by (unfold collect; by rewrite contains_seen by (apply Hes; set_solver)). cbn [mbind res_bind].
    destruct (seen x) eqn:E.
    + destruct (IH ltac:(set_solver) acc Hacc) as (acc' & -> & Hi & He). exists acc'. split; [done|]. split; [done|].
      intros e. rewrite He, elem_of_cons. split; [naive_solver|]. intros [?|[[->|?] ?]]; naive_solver congruence.
    + destruct (IH ltac:(set_solver) (VSet.insert acc x).1 (VSet.insert_increasing _ _ Hacc)) as (acc' & -> & Hi & He).
      exists acc'. split; [done|]. split; [done|]. intros e. rewrite He, VSet.elem_insert, elem_of_cons. naive_solver.
Qed.
Lemma filter_not_collected (s rm : list Event.t) : (forall e, e ∈ rm <-> e ∈ @nil Event.t \/ e ∈ s /\ seen e = false) ->
  filter (.∉ rm) s = filter (fun e => seen e = true) s.
Proof.
  intros He. apply list_filter_iff'. intros e Hin. rewrite He. split; intros H1.
  - destruct (seen e) eqn:E; [done|]. exfalso. apply H1. right. by split.
  - intros [H2|[_ H2]]; [set_solver|congruence].
Qed.
(** What is left of an entry. *)
Definition kept (k : Event.t) (o : option (list Event.t)) : option (list Event.t) :=
  s ← o; if seen k then Some (filter (fun e => seen e = true) s) else None.
Lemma cut_entry_ok m k s : 0 <= Event.thread k -> increasing s -> (forall e, e ∈ s -> 0 <= Event.thread e) ->
  cut_entry m (k, s) = Ok (match kept k (Some s) with Some s' => <[k := s']> m | None => delete k m end).
Proof.
  intros Hk Hs Hes. unfold cut_entry, kept. cbn [fst snd mbind option_bind]. rewrite contains_seen by done. cbn [mbind res_bind].
  destruct (seen k) eqn:E; cbn [negb]; [|done].
  destruct (collect_ok s Hes [] ltac:(constructor)) as (rm & -> & Hrm & He). cbn [mbind res_bind].
  rewrite (VSet.erase_set_spec s rm Hs Hrm). cbn [mbind res_bind fst]. by rewrite (filter_not_collected s rm He).
Qed.
Lemma increasing_filter (s : list Event.t) : increasing s -> increasing (filter (fun e => seen e = true) s).
Proof.
  induction s as [|x s IH]; [done|]. rewrite filter_cons. intros [Hs Hx]%StronglySorted_inv.
  case_decide; [|by apply IH]. constructor; [by apply IH|]. rewrite Forall_forall in Hx. apply Forall_forall.
  intros y [_ Hy]%list_elem_of_filter. by apply Hx.
Qed.
Lemma cut_fold m0 : valid m0 -> forall l m, NoDup l.*1 -> (forall k s, (k, s) ∈ l -> m0 !! k = Some s) ->
  exists m', foldM cut_entry m l = Ok m' /\ forall k, m' !! k = if decide (k ∈ l.*1) then kept k (m0 !! k) else m !! k.
Proof.
  intros Hm0. induction l as [|[k s] l IH]; intros m Hnd Hl; cbn [foldM fmap list_fmap fst].
  - exists m. split; [done|]. intros k. by rewrite decide_False by set_solver.
  - pose proof (Hl k s ltac:(set_solver)) as Hk. destruct (Hm0 k s Hk) as (Hth & Hinc & Hes).
    rewrite (cut_entry_ok m k s Hth Hinc Hes). cbn [mbind res_bind]. apply NoDup_cons in Hnd as [Hnk Hnd].
    edestruct (IH (match kept k (Some s) with Some s' => <[k:=s']> m | None => delete k m end) Hnd) as (m' & -> & Hm').
    { intros k' s' Hin. apply Hl. set_solver. }
    exists m'. split; [done|]. intros k'. rewrite Hm'. destruct (decide (k' = k)) as [->|Hne].
    + rewrite decide_False by done. rewrite decide_True by set_solver. rewrite Hk. unfold kept. cbn [mbind option_bind].
      destruct (seen k); [apply lookup_insert_eq|apply lookup_delete_eq].
    + destruct (decide (k' ∈ l.*1)); [by rewrite decide_True by set_solver|]. rewrite decide_False by set_solver.
      destruct (kept k (Some s)); [by apply lookup_insert_ne|by apply lookup_delete_ne].
Qed.
Lemma cut_left m : valid m -> exists m', cut m = Ok m' /\ forall k, m' !! k = kept k (m !! k).
Proof.
  intros Hm. destruct (cut_fold m Hm (map_to_list m) m (NoDup_fst_map_to_list m)) as (m' & E & Hm').
  { intros k s Hin. by apply elem_of_map_to_list. }
  exists m'. split; [done|]. intros k. rewrite Hm'. case_decide as Hin; [done|].
  destruct (m !! k) as [s|] eqn:Ek; [|done]. exfalso. apply Hin. apply list_elem_of_fmap. exists (k, s). split; [done|].
  by apply elem_of_map_to_list.
Qed.
End cut.

(** Cutting a choice map to a clock that stands for prefixes succeeds; an entry is
    left exactly when the clock contains its event, and then with the alternatives
    that the clock contains, in their order. *)
Theorem cut_choices_correct {V : Type} `{VectorClock V} (v : V) (f : Z -> Z) (m : t) : prefix_clock v f -> valid m ->
  exists m', cut v m = Ok m' /\ valid m' /\
    forall k, m' !! k = (s ← m !! k; if seen f k then Some (filter (fun e => seen f e = true) s) else None).
Proof.
  intros Hv Hm. destruct (cut_left v f Hv m Hm) as (m' & E & Hk). exists m'. split; [done|]. split; [|exact Hk].
  intros k s. rewrite Hk. unfold kept. destruct (m !! k) as [s0|] eqn:Es; cbn; [|done]. destruct (seen f k); [|done]. intros [= <-].
  destruct (Hm k s0 Es) as (Ht & Hi & He). split; [done|]. split.
  - by apply increasing_filter.
  - intros e [_ Hin]%list_elem_of_filter. by apply He.
Qed.
(** A load with two alternatives, one of which is cut off, and a store. *)
Definition demo_choices : t := {[Event.Event 0 1 := [Event.Event 0 0; Event.Event 1 1]; Event.Event 1 1 := [Event.Event 0 0]]}.
Lemma demo_choices_valid : valid demo_choices.
Proof.
  assert (map_Forall (fun k s => 0 <= Event.thread k /\ increasing s /\ Forall (fun e => 0 <= Event.thread e) s) demo_choices) as H.
  { apply map_Forall_insert_2; [|apply map_Forall_singleton]; split; repeat constructor; cbn; lia. }
  intros k s Hk. destruct (H k s Hk) as (H1 & H2 & H3). split; [done|]. split; [done|]. by apply Forall_forall.
Qed.
Lemma cut_choices_correct_witness : exists m', cut [1] demo_choices = Ok m' /\
  m' !! Event.Event 0 1 = Some [Event.Event 0 0] /\ m' !! Event.Event 1 1 = None.
Proof.
  destruct (cut_choices_correct [1] (ViewBase.clock [1]) demo_choices) as (m' & E & _ & Hk).
  - apply Clocks.vec_prefix_clock. split; [repeat constructor; lia|discriminate].
  - apply demo_choices_valid.
  - exists m'. split; [done|]. rewrite !Hk. split; vm_compute; reflexivity.
Defined.
End ChoiceMap.
