(* ===== verification/SCChecker.v ===== *)
(** * The checker for sequential consistency

    Models Execution/Consistency/SCChecker.cpp: the consistency check, and the
    coherence check for linearizability.  The main theorem says what a graph that
    passes the check is: the record of an interleaving in which every read returns
    the last write to its location. *)

From stdpp Require Import relations.
From S2P Require Import Prelude Values Addresses Events VSet Views Labels Graph Relations Cut Search Automata Checkable Scripts Calc Placing IntervalMap AdaptiveView ExecutionState Errors.
Import EventLabel Graph.
Local Open Scope Z_scope.

Module SCChecker.
Import Search Automaton Checkable.

(** ** Consistency *)
Definition visitConsAcyclic1_0 : state := State true true [
  Edge [] tc_succ [] 0 true;
  Edge [] tj_succ [] 0 true;
  Edge [] lin_succs [] 0 true;
  Edge [] rf_succs [] 0 true;
  Edge [] co_imm_succ [] 0 true;
  Edge [] fr_imm_succ [] 0 true;
  Edge [] po_imm_succ [] 0 true].
Definition ConsAcyclic1 : automaton := [visitConsAcyclic1_0].
Definition visitConsAcyclic1 (g : Graph.t) (lab : lid) : res bool := visitFrom ConsAcyclic1 g [0%nat] lab.
Definition visitConsAcyclic1Full (g : Graph.t) : res bool := visitFull ConsAcyclic1 g 0.
Definition checkConsAcyclic1_lab (g : Graph.t) (lab : lid) : res bool := visitConsAcyclic1 g lab.
Definition checkConsAcyclic1_graph (g : Graph.t) : res bool := visitConsAcyclic1Full g.
Definition isConsistent_lab (g : Graph.t) (lab : lid) : res bool := checkConsAcyclic1_lab g lab.
Definition isConsistent_graph (g : Graph.t) : res bool := checkConsAcyclic1_graph g.
Definition isDepTracking : bool := false.

(** ** Errors and warnings *)
Section errors.
Import Errors VerificationError.
Context {V : Type} `{ViewOps V} (s : ExecutionState.t V) (g : Graph.t) (st : Calc.t).
Definition visitError2 : bool := false.
Definition visitLHSUnlessError2_0 (v : View.vid) (lab : lid) : visit := visit_contained g st v lab.
Definition visitLHSUnlessError2_1 : list uedge := [
  UEdge [] (single (alloc s)) []].
Definition visitUnlessError2 (lab : lid) : visit := unless_contained g st 1 visitLHSUnlessError2_0 visitLHSUnlessError2_1 lab.
Definition checkError2 (lab : lid) : visit := check (visitUnlessError2 lab) visitError2.
Definition visitError3 : bool := false.
Definition visitLHSUnlessError3_0 (lab : lid) : visit := visit_none lab.
Definition visitLHSUnlessError3_1 : list uedge := [
  UEdge [isFree; neg isHpRetire] (single (free s)) [];
  UEdge [isHpRetire] (single (free s)) []].
Definition visitUnlessError3 (lab : lid) : visit := unless_none g visitLHSUnlessError3_0 visitLHSUnlessError3_1 lab.
Definition checkError3 (lab : lid) : visit := check (visitUnlessError3 lab) visitError3.
Definition visitError4 : bool := false.
Definition visitLHSUnlessError4_0 (v : View.vid) (lab : lid) : visit := visit_contained g st v lab.
Definition visitLHSUnlessError4_1 : list uedge := [
  UEdge [isFree; neg isHpRetire] (pomax_na_reads s) [];
  UEdge [isFree; neg isHpRetire] (pomax_na_writes s) [];
  UEdge [isFree; neg isHpRetire] (pomax_at_reads s) [];
  UEdge [isFree; neg isHpRetire] (pomax_at_writes s) []].
Definition visitUnlessError4 (lab : lid) : visit := unless_contained g st 1 visitLHSUnlessError4_0 visitLHSUnlessError4_1 lab.
Definition checkError4 (lab : lid) : visit := check (visitUnlessError4 lab) visitError4.
Definition visitError5 : bool := false.
Definition visitLHSUnlessError5_0 (lab : lid) : visit := visit_none lab.
Definition visitLHSUnlessError5_1 : list uedge := [
  UEdge [isWrite] (single (free s)) [];
  UEdge [isRead] (single (free s)) []].
Definition visitUnlessError5 (lab : lid) : visit := unless_none g visitLHSUnlessError5_0 visitLHSUnlessError5_1 lab.
Definition checkError5 (lab : lid) : visit := check (visitUnlessError5 lab) visitError5.
Definition visitError6 : bool := false.
Definition visitLHSUnlessError6_0 (v : View.vid) (lab : lid) : visit := visit_contained g st v lab.
Definition visitLHSUnlessError6_1 : list uedge := [
  UEdge [isHpRetire] (unprotected s) []].
Definition visitUnlessError6 (lab : lid) : visit := unless_contained g st 1 visitLHSUnlessError6_0 visitLHSUnlessError6_1 lab.
Definition checkError6 (lab : lid) : visit := check (visitUnlessError6 lab) visitError6.
Definition visitError7 : bool := false.
Definition visitLHSUnlessError7_0 (lab : lid) : visit := visit_none lab.
Definition visitLHSUnlessError7_1 : list uedge := [
  UEdge [isMemAccess; isDynamicAddr; neg (isHazptrProtected s)] (single (retire s)) []].
Definition visitUnlessError7 (lab : lid) : visit := unless_none g visitLHSUnlessError7_0 visitLHSUnlessError7_1 lab.
Definition checkError7 (lab : lid) : visit := check (visitUnlessError7 lab) visitError7.
Definition visitError8 : bool := false.
Definition visitLHSUnlessError8_0 (v : View.vid) (lab : lid) : visit := visit_contained g st v lab.
Definition visitLHSUnlessError8_1 : list uedge := [
  UEdge [isWrite] (pomax_na_reads s) [];
  UEdge [isWrite] (pomax_na_writes s) [];
  UEdge [isRead] (pomax_na_writes s) [];
  UEdge [isNotAtomic; isWrite] (pomax_at_reads s) [];
  UEdge [isNotAtomic; isWrite] (pomax_at_writes s) [];
  UEdge [isNotAtomic; isRead] (pomax_at_writes s) []].
Definition visitUnlessError8 (lab : lid) : visit := unless_contained g st 1 visitLHSUnlessError8_0 visitLHSUnlessError8_1 lab.
Definition checkError8 (lab : lid) : visit := check (visitUnlessError8 lab) visitError8.
Definition visitWarning9 : bool := false.
Definition visitLHSUnlessWarning9_0 (v : View.vid) (lab : lid) : visit := visit_contained g st v lab.
Definition visitLHSUnlessWarning9_1 : list uedge := [
  UEdge [neg isNotAtomic; isWrite] (pomax_at_writes s) []].
Definition visitUnlessWarning9 (lab : lid) : visit := unless_contained g st 0 visitLHSUnlessWarning9_0 visitLHSUnlessWarning9_1 lab.
Definition checkWarning9 (lab : lid) : visit := check (visitUnlessWarning9 lab) visitWarning9.
Definition checkErrors (lab : lid) (race : option lid) := report [
  (checkError2 lab, VE_AccessNonMalloc);
  (checkError3 lab, VE_DoubleFree);
  (checkError4 lab, VE_AccessFreed);
  (checkError5 lab, VE_AccessFreed);
  (checkError6 lab, VE_AccessFreed);
  (checkError7 lab, VE_AccessFreed);
  (checkError8 lab, VE_RaceNotAtomic)] race.
Definition checkWarnings (lab : lid) (seenWarnings : list VerificationError.t) (racyLabs : list (option lid)) :=
  warn (checkWarning9 lab) VE_WWRace seenWarnings racyLabs.
End errors.

(** ** Views *)
Definition visitCalc71_0 : wstate Calc.view_update := WState [] false [].
Definition visitCalc71_1 : wstate Calc.view_update := WState [] false [
  WEdge [] self [] [Calc.update 0] 0].
Definition visitCalc71_2 : wstate Calc.view_update := WState [] false [
  WEdge [] tc_pred [] [] 1;
  WEdge [] tj_pred [] [] 1;
  WEdge [] lin_preds [] [] 1;
  WEdge [] rf_pred [] [] 1;
  WEdge [] po_imm_pred [] [] 1;
  WEdge [] tc_pred [] [Calc.updateIdx] 0;
  WEdge [] tj_pred [] [Calc.updateIdx] 0;
  WEdge [] lin_preds [] [Calc.updateIdx] 0;
  WEdge [] rf_pred [] [Calc.updateIdx] 0;
  WEdge [] po_imm_pred [] [Calc.updateIdx] 0].
Definition Calc71 : list (wstate Calc.view_update) := [visitCalc71_0; visitCalc71_1; visitCalc71_2].
Definition visitCalc71 (dbg : bool) : Calc.calculator := Calc.visitCalc dbg Calc71 2.
Definition checkCalc71 (dbg : bool) : Calc.calculator := visitCalc71 dbg.
Definition visitCalc72_0 : wstate Calc.view_update := WState [] false [].
Definition visitCalc72_1 : wstate Calc.view_update := WState [] false [
  WEdge [] self [] [Calc.update 1] 0].
Definition visitCalc72_2 : wstate Calc.view_update := WState [] false [
  WEdge [] tc_pred [] [] 1;
  WEdge [] tj_pred [] [] 1;
  WEdge [] lin_preds [] [] 1;
  WEdge [neg isNotAtomic] rf_pred [neg isNotAtomic] [] 1;
  WEdge [] po_imm_pred [] [] 1;
  WEdge [] tc_pred [] [Calc.updateIdx] 0;
  WEdge [] tj_pred [] [Calc.updateIdx] 0;
  WEdge [] lin_preds [] [Calc.updateIdx] 0;
  WEdge [neg isNotAtomic] rf_pred [neg isNotAtomic] [Calc.updateIdx] 0;
  WEdge [] po_imm_pred [] [Calc.updateIdx] 0].
Definition Calc72 : list (wstate Calc.view_update) := [visitCalc72_0; visitCalc72_1; visitCalc72_2].
Definition visitCalc72 (dbg : bool) : Calc.calculator := Calc.visitCalc dbg Calc72 2.
Definition checkCalc72 (dbg : bool) : Calc.calculator := visitCalc72 dbg.
Definition visitCalc73_0 : wstate Calc.view_update := WState [] false [].
Definition visitCalc73_1 : wstate Calc.view_update := WState [] false [
  WEdge [] self [] [Calc.update 2] 0].
Definition visitCalc73_2 : wstate Calc.view_update := WState [] false [
  WEdge [] tc_pred [] [] 1;
  WEdge [] tj_pred [] [] 1;
  WEdge [] lin_preds [] [] 1;
  WEdge [neg isNotAtomic; neg isAbstractLockCasRead] rf_pred [neg isNotAtomic] [] 1;
  WEdge [] po_imm_pred [] [] 1;
  WEdge [] tc_pred [] [Calc.updateIdx] 0;
  WEdge [] tj_pred [] [Calc.updateIdx] 0;
  WEdge [] lin_preds [] [Calc.updateIdx] 0;
  WEdge [neg isNotAtomic; neg isAbstractLockCasRead] rf_pred [neg isNotAtomic] [Calc.updateIdx] 0;
  WEdge [] po_imm_pred [] [Calc.updateIdx] 0].
Definition Calc73 : list (wstate Calc.view_update) := [visitCalc73_0; visitCalc73_1; visitCalc73_2].
Definition visitCalc73 (dbg : bool) : Calc.calculator := Calc.visitCalc dbg Calc73 2.
Definition checkCalc73 (dbg : bool) : Calc.calculator := visitCalc73 dbg.
Definition calculateViews (dbg : bool) (conf : Calc.config) (g : Graph.t) (lab : lid) (st : Calc.t) : res Calc.t :=
  let st := Calc.setViews lab st in
  st ← Calc.addCalc (checkCalc71 dbg) g lab st;
  st ← Calc.addCalc (checkCalc72 dbg) g lab st;
  if negb (Calc.collectLinSpec conf) && negb (Calc.checkLinSpec conf) then Calc.addEmpty lab st else Calc.addCalc (checkCalc73 dbg) g lab st.
Definition getHbView (g : Graph.t) (st : Calc.t) (lab : lid) : res View.vid := Calc.view g (Calc.calculatedViews st) lab 1.
Definition getPorfView (g : Graph.t) (st : Calc.t) (lab : lid) : res View.vid := Calc.view g (Calc.calculatedViews st) lab 0.
Definition getHbRelincheView (g : Graph.t) (st : Calc.t) (lab : lid) : res View.vid := Calc.view g (Calc.calculatedViews st) lab 2.
Definition calculateSaved (st : Calc.t) : Calc.t := st.
Definition calcPPoRfBefore (dbg : bool) := Calc.calcPPoRfBefore dbg.
Definition calculatePrefixView (dbg : bool) := calcPPoRfBefore dbg.
Definition updateMMViews (dbg : bool) (conf : Calc.config) (g : Graph.t) (lab : lid) (st : Calc.t) : res Calc.t :=
  st ← calculateViews dbg conf g lab st;
  let st := calculateSaved st in
  let c := Calc.fresh_view (Calc.heap st) in
  h ← calculatePrefixView dbg g lab st (Calc.heap st) c;
  Ok (Calc.setPrefixView lab c (Calc.set_heap h st)).
Definition calcs (conf : Calc.config) : list Calc.entry := [
  Some (Calc71, 2%nat);
  Some (Calc72, 2%nat);
  (if negb (Calc.collectLinSpec conf) && negb (Calc.checkLinSpec conf) then None else Some (Calc73, 2%nat))].

(** ** Coherent placings *)
Definition isWriteRfBefore := Placing.isWriteRfBefore 1.
Definition isHbOptRfBefore := Placing.isHbOptRfBefore 1.
Definition splitLocMOBefore := Placing.splitLocMOBefore 1.
Definition splitLocMOAfterHb := Placing.splitLocMOAfterHb 1.
Definition splitLocMOAfter := Placing.splitLocMOAfter 1.
Definition getCoherentStores := Placing.getCoherentStores 1 isDepTracking.
Definition getMOOptRfAfter := Placing.getMOOptRfAfter.
Definition getMOInvOptRfAfter := Placing.getMOInvOptRfAfter.
Definition getRevisitableFrom {V} `{VectorClock V} (g : Graph.t) := Placing.getRevisitableFrom g (V := V).
Definition filterCoherentRevisits {V} `{VectorClock V} (g : Graph.t) (st : Calc.t) := Placing.filterCoherentRevisits 1 isDepTracking g st (V := V).
Definition getCoherentPlacings := Placing.getCoherentPlacings 1 isDepTracking.

(** ** Coherence *)
Definition visitCoherence_0 : wstate unit := WState [tt] false [].
Definition visitCoherence_1 : wstate unit := WState [] false [
  WEdge [] lin_preds [neg isNotAtomic] [] 6;
  WEdge [] lin_preds [] [] 5].
Definition visitCoherence_2 : wstate unit := WState [] true [
  WEdge [] tc_pred [neg isNotAtomic] [] 3;
  WEdge [] tj_pred [neg isNotAtomic] [] 3;
  WEdge [] lin_preds [neg isNotAtomic] [] 3;
  WEdge [] po_imm_pred [neg isNotAtomic] [] 3;
  WEdge [] tc_pred [] [] 0;
  WEdge [] tj_pred [] [] 0;
  WEdge [] lin_preds [] [] 0;
  WEdge [] po_imm_pred [] [] 0;
  WEdge [] tc_pred [] [] 2;
  WEdge [] tj_pred [] [] 2;
  WEdge [] lin_preds [] [] 2;
  WEdge [] po_imm_pred [] [] 2].
Definition visitCoherence_3 : wstate unit := WState [] true [
  WEdge [] rf_pred [neg isNotAtomic] [] 3;
  WEdge [] rf_pred [neg isNotAtomic] [] 0;
  WEdge [] rf_pred [neg isNotAtomic] [] 2].
Definition visitCoherence_4 : wstate unit := WState [] true [
  WEdge [] rf_pred [] [] 4;
  WEdge [] co_imm_pred [] [] 4;
  WEdge [] fr_imm_preds [] [] 4;
  WEdge [] rf_pred [neg isNotAtomic] [] 3;
  WEdge [] co_imm_pred [neg isNotAtomic] [] 3;
  WEdge [] fr_imm_preds [neg isNotAtomic] [] 3;
  WEdge [] rf_pred [] [] 2;
  WEdge [] co_imm_pred [] [] 2;
  WEdge [] fr_imm_preds [] [] 2].
Definition visitCoherence_5 : wstate unit := WState [] true [
  WEdge [] tc_pred [neg isNotAtomic] [] 6;
  WEdge [] tj_pred [neg isNotAtomic] [] 6;
  WEdge [] lin_preds [neg isNotAtomic] [] 6;
  WEdge [] po_imm_pred [neg isNotAtomic] [] 6;
  WEdge [] tc_pred [] [] 5;
  WEdge [] tj_pred [] [] 5;
  WEdge [] lin_preds [] [] 5;
  WEdge [] po_imm_pred [] [] 5;
  WEdge [] tc_pred [] [] 4;
  WEdge [] tj_pred [] [] 4;
  WEdge [] lin_preds [] [] 4;
  WEdge [] po_imm_pred [] [] 4].
Definition visitCoherence_6 : wstate unit := WState [] true [
  WEdge [] rf_pred [neg isNotAtomic] [] 6;
  WEdge [] rf_pred [neg isNotAtomic] [] 5;
  WEdge [] rf_pred [neg isNotAtomic] [] 4].
Definition Coherence : list (wstate unit) := [visitCoherence_0; visitCoherence_1; visitCoherence_2; visitCoherence_3; visitCoherence_4; visitCoherence_5; visitCoherence_6].
Definition visitCoherenceRelinche (g : Graph.t) : res bool := visitMethods Coherence 1 g.
Definition isCoherentRelinche (g : Graph.t) : res bool := visitCoherenceRelinche g.

(** ** Interleavings *)

(** One step of the relation that must not have cycles. *)
Definition sc_edge (g : Graph.t) (i j : lid) : Prop :=
  exists R ps, R ∈ [tc_succ; tj_succ; lin_succs; rf_succs; co_imm_succ; fr_imm_succ; po_imm_succ] /\ R g i = Ok ps /\ j ∈ ps.

(** A total order of the labels that extends the program order, the creation and
    joining of threads, the linearization order and the coherence orders, and in
    which every read takes its value from the last write to its location. *)
Record interleaving (g : Graph.t) (o : list lid) : Prop := {
  il_labels : o ≡ₚ concat (events g);
  il_po th i j : th ∈ events g -> before th i j -> before o i j;
  il_sync i j ps (R : relation) : in_graph g i -> R ∈ [tc_succ; tj_succ; lin_succs] -> R g i = Ok ps -> j ∈ ps -> before o i j;
  il_co a w w' : before (list_at (coherence g) a) w w' -> before o w w';
  il_rf r lr w lw : in_graph g r -> store g !! r = Some lr -> Class.isRead (kind lr) = true ->
    readsFrom lr = Some w -> store g !! w = Some lw -> Class.isWrite (kind lw) = true ->
    before o w r /\ forall w', w' ∈ list_at (coherence g) (getAddr lr) -> before o w' r -> w' = w \/ before o w' w;
  il_init r lr w lw : in_graph g r -> store g !! r = Some lr -> Class.isRead (kind lr) = true ->
    readsFrom lr = Some w -> store g !! w = Some lw -> Class.isWrite (kind lw) = false ->
    forall w', w' ∈ list_at (coherence g) (getAddr lr) -> ~ before o w' r
}.

Lemma sc_consistent_table : table_ok ConsAcyclic1 0 = true.
Proof. reflexivity. Qed.
Lemma sc_consistent_total g : checkable g -> total g ConsAcyclic1.
Proof. intros Hc. table_total. Qed.
Lemma sc_coherent_total g : checkable g -> walk_total Coherence g.
Proof. intros Hc. table_total. Qed.
Definition coherent_rank (q : nat) : nat := nth q [0; 1; 0; 0; 0; 0; 0]%nat 0%nat.
Lemma sc_coherent_table : walk_ok Coherence coherent_rank = true.
Proof. reflexivity. Qed.

(** The tables of the views. *)
Lemma sc_calc71 g : linked g -> Calc.calculation g 0 Calc71 2.
Proof. intros Hc. Calc.by_table Hc [0; 1; 2]%nat. Qed.
Lemma sc_calc72 g : linked g -> Calc.calculation g 1 Calc72 2.
Proof. intros Hc. Calc.by_table Hc [0; 1; 2]%nat. Qed.
Lemma sc_calc73 g : linked g -> Calc.calculation g 2 Calc73 2.
Proof. intros Hc. Calc.by_table Hc [0; 1; 2]%nat. Qed.
Lemma sc_calcs conf g k A q : linked g -> calcs conf !! k = Some (Some (A, q)) -> Calc.calculation g k A q.
Proof.
  intros Hc. destruct k as [|[|[|k]]]; cbn; [..|done]; try destruct (_ && _); intros [= <- <-];
    [by apply sc_calc71|by apply sc_calc72|by apply sc_calc73].
Qed.
Lemma sc_calculateViews conf g i st :
  calculateViews false conf g i st = foldM (fun st e => Calc.addEntry e g i st) (Calc.setViews i st) (calcs conf).
Proof.
  unfold calculateViews, calcs. cbn [foldM]. rewrite Calc.three_steps. by destruct (_ && _).
Qed.

(** The product has one state. *)
Lemma moves_sc g a b : moves ConsAcyclic1 g a b <-> a.1 = 0%nat /\ b.1 = 0%nat /\ sc_edge g a.2 b.2.
Proof.
  split.
  - intros (e & He & Hto & _ & (ps & Hps & Hj) & _). destruct a as [[|q] i]; [|by apply not_elem_of_nil in He].
    split; [done|]. cbn in He. repeat (apply elem_of_cons in He as [->|He]; [by split; [|eexists _, ps; split; [|done]; repeat first [left|right]]|]).
    by apply not_elem_of_nil in He.
  - destruct a as [q i], b as [q' j]. cbn. intros (-> & -> & R & ps & HR & Hps & Hj).
    exists (Edge [] R [] 0 true). split; [|split; [done|]; split; [done|]; split; [by exists ps|done]].
    repeat (apply elem_of_cons in HR as [->|HR]; [repeat first [left|right]|]).
    by apply not_elem_of_nil in HR.
Qed.
Lemma sc_edge_in g i j : checkable g -> in_graph g i -> sc_edge g i j -> in_graph g j.
Proof.
  intros Hc Hi (R & ps & HR & Hps & Hj). assert (total_rel g R) as Ht.
  { repeat (apply elem_of_cons in HR as [->|HR]; [by eauto with checker|]). by apply not_elem_of_nil in HR. }
  destruct (Ht i Hi) as (ps' & Hps' & Hin). rewrite Hps in Hps'. injection Hps' as <-. by apply Hin.
Qed.
Lemma sc_no_plain g : plain_acyclic ConsAcyclic1 g.
Proof.
  intros n Hn Hc. assert (exists m, plain_moves ConsAcyclic1 g n m) as [m (Hm & Ha & _)] by (inversion Hc; eauto).
  apply moves_sc in Hm as (Hq & _). destruct n as [q i]. cbn in Hq. by subst q.
Qed.

(** The successors of a label, as a list. *)
Definition sc_succs (g : Graph.t) (i : lid) : list lid :=
  concat (map (fun R : relation => match R g i with Ok ps => ps | Abort _ => [] end)
    [tc_succ; tj_succ; lin_succs; rf_succs; co_imm_succ; fr_imm_succ; po_imm_succ]).
Lemma sc_succs_spec g i j : j ∈ sc_succs g i <-> sc_edge g i j.
Proof.
  unfold sc_succs, sc_edge. rewrite list_elem_of_In, in_concat. split.
  - intros (l & Hl & Hj). apply in_map_iff in Hl as (R & <- & HR). exists R. destruct (R g i) as [ps|] eqn:E; [|done].
    exists ps. by rewrite !list_elem_of_In.
  - intros (R & ps & HR & Hps & Hj). exists ps. rewrite <- !list_elem_of_In. split; [|done].
    apply list_elem_of_In, in_map_iff. exists R. rewrite Hps. split; [done|]. by apply list_elem_of_In.
Qed.

(** A passed check gives a listing of the labels along the edges. *)
Lemma consistent_order g : checkable g -> exists b, isConsistent_graph g = Ok b /\
  (b = true <-> exists o, o ≡ₚ concat (events g) /\ forall i j, in_graph g i -> sc_edge g i j -> before o i j).
Proof.
  intros Hc. pose proof (ck_wf g Hc) as Hg.
  destruct (visitFull_decides ConsAcyclic1 0 g Hg (ck_stamped g Hc) sc_consistent_table (sc_consistent_total g Hc)) as (b & Hb & Hcyc);
    [cbn; lia|apply sc_no_plain|].
  exists b. split; [exact Hb|]. split.
  - intros ->. assert (Hin : forall x, x ∈ concat (events g) -> Acc (fun b a => b ∈ sc_succs g a) x).
    { intros x Hx. pose proof (visitFull_finite ConsAcyclic1 0 g Hg (ck_stamped g Hc) sc_consistent_table (sc_consistent_total g Hc)
        ltac:(cbn; lia) (sc_no_plain g) Hb x Hx) as Ha. clear -Ha. remember (0%nat, x) as n eqn:En. revert x En.
      induction Ha as [n _ IH]. intros x ->. constructor. intros y Hy. apply (IH (0%nat, y)); [|done].
      apply moves_sc. by rewrite sc_succs_spec in Hy. }
    destruct (topological (sc_succs g) _ (concat_nodup g Hg) Hin) as (o & Ho & Hb'). exists o. split; [done|].
    intros i j Hi He. apply Hb'; [done|by apply (sc_edge_in g i)|by apply sc_succs_spec].
  - intros (o & Ho & Hbe). destruct b; [done|]. destruct (proj1 Hcyc eq_refl) as (i & Hi & Hcy). exfalso.
    assert (Hnd : NoDup o) by (rewrite Ho; by apply concat_nodup).
    apply (before_irrefl o i Hnd). enough (forall a b, in_graph g a.2 -> tc (moves ConsAcyclic1 g) a b -> before o a.2 b.2) as H
      by (by apply (H (0%nat, i) (0%nat, i))).
    intros a b' Ha Htc. induction Htc as [a b' (_ & _ & Hm)%moves_sc|a c b' (_ & _ & Hm)%moves_sc _ IH]; [by apply Hbe|].
    apply (before_trans o _ c.2); [done|by apply Hbe|]. apply IH. by apply (sc_edge_in g a.2).
Qed.

(** ** Passing the check and being an interleaving *)
Section meaning.
Context (g : Graph.t) (Hc : checkable g) (o : list lid) (Ho : o ≡ₚ concat (events g)).
#[local] Abbreviation Hg := (ck_wf g Hc).

Lemma order_nodup : NoDup o.
Proof. rewrite Ho. apply concat_nodup, Hg. Qed.
Lemma sc_sync_in (R : relation) : R ∈ [tc_succ; tj_succ; lin_succs] -> R ∈ [tc_succ; tj_succ; lin_succs; rf_succs; co_imm_succ; fr_imm_succ; po_imm_succ].
Proof. rewrite !elem_of_cons. tauto. Qed.

Lemma thread_in th i : th ∈ events g -> i ∈ th -> in_graph g i.
Proof. intros [t Ht]%list_elem_of_lookup [k Hk]%list_elem_of_lookup. apply elem_concat. eauto. Qed.
Lemma co_in a w : w ∈ list_at (coherence g) a -> in_graph g w.
Proof. intros Hw. by apply (wf_co g Hg a w). Qed.
Lemma edge_one f i j : one f ∈ [tc_succ; tj_succ; lin_succs; rf_succs; co_imm_succ; fr_imm_succ; po_imm_succ] ->
  f g i = Ok (Some j) -> sc_edge g i j.
Proof. intros HR E. destruct (one_some g f i j E) as (ps & Hps & Hj). by exists (one f), ps. Qed.

Section order.
Context (Hb : forall i j, in_graph g i -> sc_edge g i j -> before o i j).

Lemma order_co a w w' : before (list_at (coherence g) a) w w' -> before o w w'.
Proof.
  intros Hw. apply (before_chain (list_at (coherence g) a) o order_nodup); [|done].
  intros c1 x y c2 E. apply Hb; [apply (co_in a); rewrite E; apply elem_of_app; right; by left|].
  apply (edge_one Relations.co_imm_succ); [by repeat first [left|right]|by apply (co_edge g Hc a c1 x y c2)].
Qed.
(** A read comes before the writes that follow its source. *)
Lemma order_fr r lr l1 l2 u : in_graph g r -> store g !! r = Some lr -> list_at (coherence g) (getAddr lr) = l1 ++ l2 ->
  Relations.fr_imm_succ g r = Ok (head l2) -> u ∈ l2 -> before o r u.
Proof.
  intros Hr Hlr Hl Hfr Hu. destruct l2 as [|x l2]; [by apply not_elem_of_nil in Hu|]. cbn in Hfr.
  assert (Hx : before o r x).
  { apply Hb; [done|]. apply (edge_one Relations.fr_imm_succ); [by repeat first [left|right]|done]. }
  apply elem_of_cons in Hu as [->|Hu]; [done|]. apply (before_trans o r x u order_nodup Hx). apply (order_co (getAddr lr)).
  rewrite Hl. apply list_elem_of_split in Hu as (m1 & m2 & ->). by exists l1, m1, m2.
Qed.
Lemma order_interleaving : interleaving g o.
Proof.
  assert (Hasym : forall x y, before o x y -> before o y x -> False).
  { intros x y H1 H2. apply (before_irrefl o x order_nodup). by apply (before_trans o x y x order_nodup). }
  split; [done|..].
  - intros th i j Hth Hij. apply (before_chain th o order_nodup); [|done].
    intros c1 x y c2 E. assert (Hx : th !! length c1 = Some x) by (rewrite E; by apply list_lookup_middle).
    assert (Hy : th !! S (length c1) = Some y).
    { rewrite E. replace (c1 ++ x :: y :: c2) with ((c1 ++ [x]) ++ y :: c2) by (by rewrite <- app_assoc).
      apply list_lookup_middle. rewrite length_app. cbn. lia. }
    apply Hb; [by eapply thread_in, list_elem_of_lookup_2|]. apply (edge_one Relations.po_imm_succ); [by repeat first [left|right]|].
    by apply (po_edge g Hc th (length c1)).
  - intros i j ps R Hi HR Hps Hj. apply Hb; [done|]. exists R, ps. by split; [apply sc_sync_in|].
  - apply order_co.
  - intros r lr w lw Hr Hlr Hk Hw Hlw Hkw. destruct (fr_first g Hc r lr w lw Hr Hlr Hk Hw Hlw) as (l1 & l2 & Hl & Hfr & Hlast).
    rewrite Hkw in Hlast. split.
    + destruct (wf_rf g Hg r lr w Hr Hlr Hk Hw) as (Hin & lw' & Hlw' & Hrd). simplify_eq. apply Hb; [done|].
      unfold readers_at in Hrd. rewrite Hkw in Hrd. exists rf_succs, (readerList lw). split; [by repeat first [left|right]|].
      split; [|done]. unfold rf_succs, Relations.rf_succs. rewrite (label_ok _ _ _ Hlw). cbn. by rewrite Hkw.
    + intros w' Hw' Hbe. rewrite Hl in Hw'. apply elem_of_app in Hw' as [Hw'|Hw']; [|by destruct (Hasym r w'); [apply (order_fr r lr l1 l2)|]].
      apply last_snoc_inv in Hlast as [l1' ->]. apply elem_of_app in Hw' as [Hw'|Hw']; [right|apply list_elem_of_singleton in Hw' as ->; by left].
      apply (order_co (getAddr lr)). rewrite Hl. apply list_elem_of_split in Hw' as (m1 & m2 & ->). exists m1, m2, l2.
      by rewrite <- !app_assoc.
  - intros r lr w lw Hr Hlr Hk Hw Hlw Hkw w' Hw' Hbe. destruct (fr_first g Hc r lr w lw Hr Hlr Hk Hw Hlw) as (l1 & l2 & Hl & Hfr & Hlast).
    rewrite Hkw in Hlast. subst l1. destruct (Hasym r w'); [|done]. apply (order_fr r lr [] l2); [done..|]. by rewrite Hl in Hw'.
Qed.
End order.

Lemma interleaving_edges i j : interleaving g o -> in_graph g i -> sc_edge g i j -> before o i j.
Proof.
  intros Hil Hi (R & ps & HR & Hps & Hj). destruct (in_graph_store g Hg i Hi) as [l Hl].
  apply elem_of_cons in HR as [->|HR]; [apply (il_sync g o Hil i j ps tc_succ); [done|by repeat first [left|right]|done|done]|].
  apply elem_of_cons in HR as [->|HR]; [apply (il_sync g o Hil i j ps tj_succ); [done|by repeat first [left|right]|done|done]|].
  apply elem_of_cons in HR as [->|HR]; [apply (il_sync g o Hil i j ps lin_succs); [done|by repeat first [left|right]|done|done]|].
  apply elem_of_cons in HR as [->|HR].
  { unfold rf_succs, Relations.rf_succs in Hps. rewrite (label_ok _ _ _ Hl) in Hps. cbn in Hps. injection Hps as <-.
    destruct (Class.isWrite (kind l)) eqn:Ek; [|by apply not_elem_of_nil in Hj].
    destruct (wf_readers g Hg i l (getAddr l) j Hi Hl) as (Hj' & lj & Hlj & Hkj & Hrf & _); [unfold readers_at; by rewrite Ek|].
    by apply (il_rf g o Hil j lj i l). }
  apply elem_of_cons in HR as [->|HR].
  { apply (one_inv g _ i j) in Hps; [|done]. destruct (co_edge_inv g Hc i j Hi Hps) as [a Ha]. by apply (il_co g o Hil a). }
  apply elem_of_cons in HR as [->|HR].
  { apply (one_inv g _ i j) in Hps; [|done]. destruct (Class.isRead (kind l)) eqn:Ek.
    - destruct (ck_source g Hc i l Hi Hl Ek) as (w & lw & Hw & Hlw & _).
      destruct (fr_first g Hc i l w lw Hi Hl Ek Hw Hlw) as (l1 & l2 & Hco & Hfr & Hlast). rewrite Hfr in Hps. injection Hps as Hps.
      destruct l2 as [|u l2]; [done|]. cbn in Hps. injection Hps as ->.
      assert (Hjc : j ∈ list_at (coherence g) (getAddr l)) by (rewrite Hco; apply elem_of_app; right; by left).
      destruct (before_total o i j) as [->|[?|Hbe]]; [rewrite Ho; done|rewrite Ho; by apply (co_in (getAddr l))| |done|].
      + destruct (wf_co g Hg _ _ Hjc) as (_ & lj & Hlj & Hkj & _). simplify_eq.
        by destruct (kind_disjoint _ Ek) as [? _]; congruence.
      + exfalso. destruct (Class.isWrite (kind lw)) eqn:Ekw.
        * destruct (il_rf g o Hil i l w lw Hi Hl Ek Hw Hlw Ekw) as [_ Hlt]. apply last_snoc_inv in Hlast as [l1' ->].
          assert (Hwj : before o w j).
          { apply (il_co g o Hil (getAddr l)). rewrite Hco. exists l1', [], l2. by rewrite <- app_assoc. }
          destruct (Hlt j Hjc Hbe) as [->|Hjw]; [by apply (before_irrefl o w order_nodup)|].
          apply (before_irrefl o j order_nodup). by apply (before_trans o j w j order_nodup).
        * by apply (il_init g o Hil i l w lw Hi Hl Ek Hw Hlw Ekw j).
    - exfalso. unfold Relations.fr_imm_succ, Relations.fr_succs in Hps. rewrite (label_ok _ _ _ Hl) in Hps. cbn [mbind res_bind] in Hps. by rewrite Ek in Hps. }
  apply elem_of_cons in HR as [->|HR]; [|by apply not_elem_of_nil in HR].
  apply (one_inv g _ i j) in Hps; [|done]. destruct (po_edge_inv g Hc i j Hi Hps) as (th & k & Hth & Hk & Hk').
  apply (il_po g o Hil th); [done|]. apply before_lookup. exists k, (S k). split_and!; [done..|lia].
Qed.
End meaning.

(** C3: The consistency check of a graph returns, and accepts the graph exactly when it
    is the record of an interleaving of the threads, in which each read takes its value
    from the last write to its location. *)
Theorem sc_isConsistent_correct (g : Graph.t) : checkable g ->
  exists b, isConsistent_graph g = Ok b /\ (b = true <-> exists o, interleaving g o).
Proof.
  intros Hc. destruct (consistent_order g Hc) as (b & Hb & Ho). exists b. split; [done|]. rewrite Ho. split.
  - intros (o & Hp & He). exists o. exact (order_interleaving g Hc o Hp He).
  - intros (o & Hil). exists o. split; [apply Hil|]. intros i j Hi He.
    by apply (interleaving_edges g Hc o (il_labels g o Hil)).
Qed.
Lemma sc_isConsistent_correct_witness :
  let g := Script.message_passing MemOrdering.Relaxed MemOrdering.Relaxed 4%nat in
  exists b, isConsistent_graph g = Ok b /\ (b = true <-> exists o, interleaving g o).
Proof. apply sc_isConsistent_correct. apply Script.script_checkable. vm_compute. reflexivity. Defined.
(** The litmus tests: store buffering and stale message passing are not interleavings. *)
Example sc_verdicts :
  (isConsistent_graph (Script.store_buffering MemOrdering.Relaxed MemOrdering.Relaxed),
   isConsistent_graph (Script.message_passing MemOrdering.Relaxed MemOrdering.Relaxed 4%nat),
   isConsistent_graph (Script.message_passing MemOrdering.Relaxed MemOrdering.Relaxed 1%nat)) = (Ok false, Ok true, Ok false).
Proof. vm_compute. reflexivity. Qed.

(** *** The incremental check *)
Lemma sc_paths g i j : tc (moves ConsAcyclic1 g) (0%nat, i) (0%nat, j) <-> tc (sc_edge g) i j.
Proof.
  split; intros H.
  - enough (forall a b, tc (moves ConsAcyclic1 g) a b -> tc (sc_edge g) a.2 b.2) as He by apply (He _ _ H).
    intros a b Hab. induction Hab as [a b (_ & _ & Hm)%moves_sc|a c b (_ & _ & Hm)%moves_sc _ IH]; [by apply tc_once|by eapply tc_l].
  - induction H as [i j H|i k j H _ IH]; [by apply tc_once, moves_sc|]. apply (tc_l _ _ (0%nat, k)); [by apply moves_sc|done].
Qed.

(** C16: When the rest of the graph has no cycle, the check that starts from a label
    gives the verdict of the check of the whole graph. *)
Theorem sc_incremental (g : Graph.t) (lab : lid) : checkable g -> in_graph g lab ->
  (forall i, in_graph g i -> ~ tc (away (sc_edge g) lab) i i) -> isConsistent_lab g lab = isConsistent_graph g.
Proof.
  intros Hc Hl Ha. pose proof (ck_wf g Hc) as Hg. pose proof (sc_consistent_total g Hc) as Ht.
  destruct (visitFull_decides ConsAcyclic1 0 g Hg (ck_stamped g Hc) sc_consistent_table Ht) as (b & Hb & Hfull); [cbn; lia|apply sc_no_plain|].
  destruct (visitFrom_decides ConsAcyclic1 0 g Hg (ck_stamped g Hc) sc_consistent_table Ht [0%nat] lab) as (c & Hc' & Hfrom);
    [by repeat constructor|done|apply sc_no_plain|].
  change (visitFrom ConsAcyclic1 g [0%nat] lab = visitFull ConsAcyclic1 g 0). rewrite Hb, Hc'. f_equal.
  assert (c = false <-> b = false) as H; [|destruct b, c; try done; [by pose proof (proj1 H eq_refl)|by pose proof (proj2 H eq_refl)]].
  rewrite Hfrom, Hfull. split.
  - intros (q & j & ->%list_elem_of_singleton & Hr & Hcyc). exists j. split; [|done].
    by destruct (rtc_on _ _ (moves ConsAcyclic1 g) (fun a b Hi Hm => conj Hm (moves_in ConsAcyclic1 g Ht a b Hi Hm)) (0%nat, lab) (0%nat, j) Hl Hr).
  - intros (i & Hi & Hcyc%sc_paths). exists 0%nat, lab. split; [by left|]. split; [done|]. apply sc_paths.
    apply (tc_through _ lab i); [by apply Ha|done].
Qed.
Lemma accepted_acyclic g i : checkable g -> isConsistent_graph g = Ok true -> in_graph g i -> ~ tc (sc_edge g) i i.
Proof.
  intros Hc Hb Hi Ht. destruct (visitFull_decides ConsAcyclic1 0 g (ck_wf g Hc) (ck_stamped g Hc) sc_consistent_table
    (sc_consistent_total g Hc)) as (b & Hb' & Hfull); [cbn; lia|apply sc_no_plain|].
  unfold isConsistent_graph, checkConsAcyclic1_graph, visitConsAcyclic1Full in Hb. rewrite Hb in Hb'. injection Hb' as <-.
  assert (true = false); [|done]. apply Hfull. exists i. split; [done|]. by apply sc_paths.
Qed.
Lemma sc_incremental_witness :
  let g := Script.message_passing MemOrdering.Relaxed MemOrdering.Relaxed 4%nat in
  isConsistent_lab g 7%nat = isConsistent_graph g.
Proof.
  assert (checkable (Script.message_passing MemOrdering.Relaxed MemOrdering.Relaxed 4%nat)) as Hc
    by (apply Script.script_checkable; vm_compute; reflexivity).
  apply sc_incremental.
  - exact Hc.
  - apply list_elem_of_In. vm_compute. tauto.
  - intros i Hi. apply away_acyclic, accepted_acyclic; [exact Hc| |exact Hi]. vm_compute. reflexivity.
Defined.
End SCChecker.
