(* ===== verification/TSOChecker.v ===== *)
(** * The checker for total store order

    Models Execution/Consistency/TSOChecker.cpp: the consistency check, and the
    coherence check for linearizability.  The automaton of the consistency check
    walks program order in three auxiliary states to find the pairs of events whose
    order TSO preserves; the main theorem says so. *)

From stdpp Require Import relations.
From S2P Require Import Prelude Values Addresses Events VSet Views Labels Graph Relations Cut Search Automata Checkable Scripts Calc Placing IntervalMap AdaptiveView ExecutionState Errors.
Import EventLabel Graph.
Local Open Scope Z_scope.

Module TSOChecker.
Import Search Automaton Checkable.

(** ** Consistency *)
Definition visitConsAcyclic1_0 : state := State false true [
  Edge [] po_imm_succ [] 0 false;
  Edge [] po_imm_succ [] 3 true].
Definition visitConsAcyclic1_1 : state := State false true [
  Edge [] po_imm_succ [] 1 false;
  Edge [] po_imm_succ [isWrite] 3 true;
  Edge [] po_imm_succ [isFence] 3 true;
  Edge [] po_imm_succ [isThreadCreate] 3 true;
  Edge [] po_imm_succ [isThreadFinish] 3 true].
Definition visitConsAcyclic1_2 : state := State false true [
  Edge [] po_imm_succ [] 2 false;
  Edge [] po_imm_succ [isSC; isRead] 3 true].
Definition visitConsAcyclic1_3 : state := State true true [
  Edge [isWrite; isRMW] po_imm_succ [] 0 false;
  Edge [isRead] po_imm_succ [] 0 false;
  Edge [isFence] po_imm_succ [] 0 false;
  Edge [isThreadJoin] po_imm_succ [] 0 false;
  Edge [isThreadStart] po_imm_succ [] 0 false;
  Edge [] po_imm_succ [] 1 false;
  Edge [isSC; isWrite] po_imm_succ [] 2 false;
  Edge [] tc_succ [] 3 true;
  Edge [] tj_succ [] 3 true;
  Edge [] lin_succs [] 3 true;
  Edge [] co_imm_succ [] 3 true;
  Edge [] fr_imm_succ [] 3 true;
  Edge [] rfe_succs [] 3 true;
  Edge [] po_imm_succ [isWrite] 3 true;
  Edge [] po_imm_succ [isFence] 3 true;
  Edge [] po_imm_succ [isThreadCreate] 3 true;
  Edge [] po_imm_succ [isThreadFinish] 3 true;
  Edge [isSC; isWrite] po_imm_succ [isSC; isRead] 3 true;
  Edge [isWrite; isRMW] po_imm_succ [] 3 true;
  Edge [isRead] po_imm_succ [] 3 true;
  Edge [isFence] po_imm_succ [] 3 true;
  Edge [isThreadJoin] po_imm_succ [] 3 true;
  Edge [isThreadStart] po_imm_succ [] 3 true].
Definition ConsAcyclic1 : automaton := [visitConsAcyclic1_0; visitConsAcyclic1_1; visitConsAcyclic1_2; visitConsAcyclic1_3].
Definition visitConsAcyclic1 (g : Graph.t) (lab : lid) : res bool := visitFrom ConsAcyclic1 g [3%nat] lab.
Definition visitConsAcyclic1Full (g : Graph.t) : res bool := visitFull ConsAcyclic1 g 3.
Definition checkConsAcyclic1_lab (g : Graph.t) (lab : lid) : res bool := visitConsAcyclic1 g lab.
Definition checkConsAcyclic1_graph (g : Graph.t) : res bool := visitConsAcyclic1Full g.
Definition isConsistent_lab (g : Graph.t) (lab : lid) : res bool := checkConsAcyclic1_lab g lab.
Definition isConsistent_graph (g : Graph.t) : res bool := checkConsAcyclic1_graph g.
Definition isDepTracking : bool := false.

(** ** Errors and warnings *)
Section errors.
Import Errors VerificationError.
Context {V : Type} `{ViewOps V} (s : ExecutionState.t V) (g : Graph.t) (st : Calc.t).
Definition visitError2 : bool := false.
Definition visitLHSUnlessError2_0 (v : View.vid) (lab : lid) : visit := visit_contained g st v lab.
Definition visitLHSUnlessError2_1 : list uedge := [
  UEdge [] (single (alloc s)) []].
Definition visitUnlessError2 (lab : lid) : visit := unless_contained g st 1 visitLHSUnlessError2_0 visitLHSUnlessError2_1 lab.
Definition checkError2 (lab : lid) : visit := check (visitUnlessError2 lab) visitError2.
Definition visitError3 : bool := false.
Definition visitLHSUnlessError3_0 (lab : lid) : visit := visit_none lab.
Definition visitLHSUnlessError3_1 : list uedge := [
  UEdge [isFree; neg isHpRetire] (single (free s)) [];
  UEdge [isHpRetire] (single (free s)) []].
Definition visitUnlessError3 (lab : lid) : visit := unless_none g visitLHSUnlessError3_0 visitLHSUnlessError3_1 lab.
Definition checkError3 (lab : lid) : visit := check (visitUnlessError3 lab) visitError3.
Definition visitError4 : bool := false.
Definition visitLHSUnlessError4_0 (v : View.vid) (lab : lid) : visit := visit_contained g st v lab.
Definition visitLHSUnlessError4_1 : list uedge := [
  UEdge [isFree; neg isHpRetire] (pomax_na_reads s) [];
  UEdge [isFree; neg isHpRetire] (pomax_na_writes s) [];
  UEdge [isFree; neg isHpRetire] (pomax_at_reads s) [];
  UEdge [isFree; neg isHpRetire] (pomax_at_writes s) []].
Definition visitUnlessError4 (lab : lid) : visit := unless_contained g st 1 visitLHSUnlessError4_0 visitLHSUnlessError4_1 lab.
Definition checkError4 (lab : lid) : visit := check (visitUnlessError4 lab) visitError4.
Definition visitError5 : bool := false.
Definition visitLHSUnlessError5_0 (lab : lid) : visit := visit_none lab.
Definition visitLHSUnlessError5_1 : list uedge := [
  UEdge [isWrite] (single (free s)) [];
  UEdge [isRead] (single (free s)) []].
Definition visitUnlessError5 (lab : lid) : visit := unless_none g visitLHSUnlessError5_0 visitLHSUnlessError5_1 lab.
Definition checkError5 (lab : lid) : visit := check (visitUnlessError5 lab) visitError5.
Definition visitError6 : bool := false.
Definition visitLHSUnlessError6_0 (v : View.vid) (lab : lid) : visit := visit_contained g st v lab.
Definition visitLHSUnlessError6_1 : list uedge := [
  UEdge [isHpRetire] (unprotected s) []].
Definition visitUnlessError6 (lab : lid) : visit := unless_contained g st 1 visitLHSUnlessError6_0 visitLHSUnlessError6_1 lab.
Definition checkError6 (lab : lid) : visit := check (visitUnlessError6 lab) visitError6.
Definition visitError7 : bool := false.
Definition visitLHSUnlessError7_0 (lab : lid) : visit := visit_none lab.
Definition visitLHSUnlessError7_1 : list uedge := [
  UEdge [isMemAccess; isDynamicAddr; neg (isHazptrProtected s)] (single (retire s)) []].
Definition visitUnlessError7 (lab : lid) : visit := unless_none g visitLHSUnlessError7_0 visitLHSUnlessError7_1 lab.
Definition checkError7 (lab : lid) : visit := check (visitUnlessError7 lab) visitError7.
Definition visitError8 : bool := false.
Definition visitLHSUnlessError8_0 (v : View.vid) (lab : lid) : visit := visit_contained g st v lab.
Definition visitLHSUnlessError8_1 : list uedge := [
  UEdge [isWrite] (pomax_na_reads s) [];
  UEdge [isWrite] (pomax_na_writes s) [];
  UEdge [isRead] (pomax_na_writes s) [];
  UEdge [isNotAtomic; isWrite] (pomax_at_reads s) [];
  UEdge [isNotAtomic; isWrite] (pomax_at_writes s) [];
  UEdge [isNotAtomic; isRead] (pomax_at_writes s) []].
Definition visitUnlessError8 (lab : lid) : visit := unless_contained g st 1 visitLHSUnlessError8_0 visitLHSUnlessError8_1 lab.
Definition checkError8 (lab : lid) : visit := check (visitUnlessError8 lab) visitError8.
Definition visitWarning9 : bool := false.
Definition visitLHSUnlessWarning9_0 (v : View.vid) (lab : lid) : visit := visit_contained g st v lab.
Definition visitLHSUnlessWarning9_1 : list uedge := [
  UEdge [neg isNotAtomic; isWrite] (pomax_at_writes s) []].
Definition visitUnlessWarning9 (lab : lid) : visit := unless_contained g st 0 visitLHSUnlessWarning9_0 visitLHSUnlessWarning9_1 lab.
Definition checkWarning9 (lab : lid) : visit := check (visitUnlessWarning9 lab) visitWarning9.
Definition checkErrors (lab : lid) (race : option lid) := report [
  (checkError2 lab, VE_AccessNonMalloc);
  (checkError3 lab, VE_DoubleFree);
  (checkError4 lab, VE_AccessFreed);
  (checkError5 lab, VE_AccessFreed);
  (checkError6 lab, VE_AccessFreed);
  (checkError7 lab, VE_AccessFreed);
  (checkError8 lab, VE_RaceNotAtomic)] race.
Definition checkWarnings (lab : lid) (seenWarnings : list VerificationError.t) (racyLabs : list (option lid)) :=
  warn (checkWarning9 lab) VE_WWRace seenWarnings racyLabs.
End errors.

(** ** Views *)
Definition visitCalc71_0 : wstate Calc.view_update := WState [] false [].
Definition visitCalc71_1 : wstate Calc.view_update := WState [] false [
  WEdge [] self [] [Calc.update 0] 0].
Definition visitCalc71_2 : wstate Calc.view_update := WState [] false [
  WEdge [] tc_pred [] [] 1;
  WEdge [] tj_pred [] [] 1;
  WEdge [] lin_preds [] [] 1;
  WEdge [] rf_pred [] [] 1;
  WEdge [] po_imm_pred [] [] 1;
  WEdge [] tc_pred [] [Calc.updateIdx] 0;
  WEdge [] tj_pred [] [Calc.updateIdx] 0;
  WEdge [] lin_preds [] [Calc.updateIdx] 0;
  WEdge [] rf_pred [] [Calc.updateIdx] 0;
  WEdge [] po_imm_pred [] [Calc.updateIdx] 0].
Definition Calc71 : list (wstate Calc.view_update) := [visitCalc71_0; visitCalc71_1; visitCalc71_2].
Definition visitCalc71 (dbg : bool) : Calc.calculator := Calc.visitCalc dbg Calc71 2.
Definition checkCalc71 (dbg : bool) : Calc.calculator := visitCalc71 dbg.
Definition visitCalc72_0 : wstate Calc.view_update := WState [] false [].
Definition visitCalc72_1 : wstate Calc.view_update := WState [] false [
  WEdge [] self [] [Calc.update 1] 0].
Definition visitCalc72_2 : wstate Calc.view_update := WState [] false [
  WEdge [] tc_pred [] [] 1;
  WEdge [] tj_pred [] [] 1;
  WEdge [] lin_preds [] [] 1;
  WEdge [isAtLeastAcquire] rf_pred [isAtLeastRelease] [] 1;
  WEdge [] po_imm_pred [] [] 1;
  WEdge [] tc_pred [] [Calc.updateIdx] 0;
  WEdge [] tj_pred [] [Calc.updateIdx] 0;
  WEdge [] lin_preds [] [Calc.updateIdx] 0;
  WEdge [isAtLeastAcquire] rf_pred [isAtLeastRelease] [Calc.updateIdx] 0;
  WEdge [] po_imm_pred [] [Calc.updateIdx] 0].
Definition Calc72 : list (wstate Calc.view_update) := [visitCalc72_0; visitCalc72_1; visitCalc72_2].
Definition visitCalc72 (dbg : bool) : Calc.calculator := Calc.visitCalc dbg Calc72 2.
Definition checkCalc72 (dbg : bool) : Calc.calculator := visitCalc72 dbg.
Definition visitCalc73_0 : wstate Calc.view_update := WState [] false [].
Definition visitCalc73_1 : wstate Calc.view_update := WState [] false [
  WEdge [] self [] [Calc.update 2] 0].
Definition visitCalc73_2 : wstate Calc.view_update := WState [] false [
  WEdge [] tc_pred [] [] 1;
  WEdge [] tj_pred [] [] 1;
  WEdge [] lin_preds [] [] 1;
  WEdge [isAtLeastAcquire; neg isAbstractLockCasRead] rf_pred [isAtLeastRelease] [] 1;
  WEdge [] po_imm_pred [] [] 1;
  WEdge [] tc_pred [] [Calc.updateIdx] 0;
  WEdge [] tj_pred [] [Calc.updateIdx] 0;
  WEdge [] lin_preds [] [Calc.updateIdx] 0;
  WEdge [isAtLeastAcquire; neg isAbstractLockCasRead] rf_pred [isAtLeastRelease] [Calc.updateIdx] 0;
  WEdge [] po_imm_pred [] [Calc.updateIdx] 0].
Definition Calc73 : list (wstate Calc.view_update) := [visitCalc73_0; visitCalc73_1; visitCalc73_2].
Definition visitCalc73 (dbg : bool) : Calc.calculator := Calc.visitCalc dbg Calc73 2.
Definition checkCalc73 (dbg : bool) : Calc.calculator := visitCalc73 dbg.
Definition calculateViews (dbg : bool) (conf : Calc.config) (g : Graph.t) (lab : lid) (st : Calc.t) : res Calc.t :=
  let st := Calc.setViews lab st in
  st ← Calc.addCalc (checkCalc71 dbg) g lab st;
  st ← Calc.addCalc (checkCalc72 dbg) g lab st;
  if negb (Calc.collectLinSpec conf) && negb (Calc.checkLinSpec conf) then Calc.addEmpty lab st else Calc.addCalc (checkCalc73 dbg) g lab st.
Definition getHbView (g : Graph.t) (st : Calc.t) (lab : lid) : res View.vid := Calc.view g (Calc.calculatedViews st) lab 1.
Definition getPorfView (g : Graph.t) (st : Calc.t) (lab : lid) : res View.vid := Calc.view g (Calc.calculatedViews st) lab 0.
Definition getHbRelincheView (g : Graph.t) (st : Calc.t) (lab : lid) : res View.vid := Calc.view g (Calc.calculatedViews st) lab 2.
Definition calculateSaved (st : Calc.t) : Calc.t := st.
Definition calcPPoRfBefore (dbg : bool) := Calc.calcPPoRfBefore dbg.
Definition calculatePrefixView (dbg : bool) := calcPPoRfBefore dbg.
Definition updateMMViews (dbg : bool) (conf : Calc.config) (g : Graph.t) (lab : lid) (st : Calc.t) : res Calc.t :=
  st ← calculateViews dbg conf g lab st;
  let st := calculateSaved st in
  let c := Calc.fresh_view (Calc.heap st) in
  h ← calculatePrefixView dbg g lab st (Calc.heap st) c;
  Ok (Calc.setPrefixView lab c (Calc.set_heap h st)).
Definition calcs (conf : Calc.config) : list Calc.entry := [
  Some (Calc71, 2%nat);
  Some (Calc72, 2%nat);
  (if negb (Calc.collectLinSpec conf) && negb (Calc.checkLinSpec conf) then None else Some (Calc73, 2%nat))].

(** ** Coherent placings *)
Definition isWriteRfBefore := Placing.isWriteRfBefore 1.
Definition isHbOptRfBefore := Placing.isHbOptRfBefore 1.
Definition splitLocMOBefore := Placing.splitLocMOBefore 1.
Definition splitLocMOAfterHb := Placing.splitLocMOAfterHb 1.
Definition splitLocMOAfter := Placing.splitLocMOAfter 1.
Definition getCoherentStores := Placing.getCoherentStores 1 isDepTracking.
Definition getMOOptRfAfter := Placing.getMOOptRfAfter.
Definition getMOInvOptRfAfter := Placing.getMOInvOptRfAfter.
Definition getRevisitableFrom {V} `{VectorClock V} (g : Graph.t) := Placing.getRevisitableFrom g (V := V).
Definition filterCoherentRevisits {V} `{VectorClock V} (g : Graph.t) (st : Calc.t) := Placing.filterCoherentRevisits 1 isDepTracking g st (V := V).
Definition getCoherentPlacings := Placing.getCoherentPlacings 1 isDepTracking.

(** ** Coherence *)
Definition visitCoherence_0 : wstate unit := WState [tt] false [].
Definition visitCoherence_1 : wstate unit := WState [] false [
  WEdge [] lin_preds [] [] 5;
  WEdge [] lin_preds [isAtLeastAcquire] [] 6].
Definition visitCoherence_2 : wstate unit := WState [] true [
  WEdge [] tc_pred [] [] 2;
  WEdge [] tj_pred [] [] 2;
  WEdge [] lin_preds [] [] 2;
  WEdge [] po_imm_pred [] [] 2;
  WEdge [] tc_pred [] [] 0;
  WEdge [] tj_pred [] [] 0;
  WEdge [] lin_preds [] [] 0;
  WEdge [] po_imm_pred [] [] 0;
  WEdge [] lin_preds [isAtLeastAcquire] [] 3;
  WEdge [] po_imm_pred [isAtLeastAcquire] [] 3].
Definition visitCoherence_3 : wstate unit := WState [] true [
  WEdge [] rf_pred [isAtLeastRelease] [] 2;
  WEdge [] rf_pred [isAtLeastRelease] [] 0;
  WEdge [] rf_pred [isAtLeastAcquire; isAtLeastRelease] [] 3].
Definition visitCoherence_4 : wstate unit := WState [] true [
  WEdge [] rf_pred [] [] 2;
  WEdge [] co_imm_pred [] [] 2;
  WEdge [] fr_imm_preds [] [] 2;
  WEdge [] rf_pred [isAtLeastAcquire] [] 3;
  WEdge [] co_imm_pred [isAtLeastAcquire] [] 3;
  WEdge [] fr_imm_preds [isAtLeastAcquire] [] 3;
  WEdge [] rf_pred [] [] 4;
  WEdge [] co_imm_pred [] [] 4;
  WEdge [] fr_imm_preds [] [] 4].
Definition visitCoherence_5 : wstate unit := WState [] true [
  WEdge [] tc_pred [] [] 5;
  WEdge [] tj_pred [] [] 5;
  WEdge [] lin_preds [] [] 5;
  WEdge [] po_imm_pred [] [] 5;
  WEdge [] tc_pred [] [] 4;
  WEdge [] tj_pred [] [] 4;
  WEdge [] lin_preds [] [] 4;
  WEdge [] po_imm_pred [] [] 4;
  WEdge [] lin_preds [isAtLeastAcquire] [] 6;
  WEdge [] po_imm_pred [isAtLeastAcquire] [] 6].
Definition visitCoherence_6 : wstate unit := WState [] true [
  WEdge [] rf_pred [isAtLeastRelease] [] 5;
  WEdge [] rf_pred [isAtLeastRelease] [] 4;
  WEdge [] rf_pred [isAtLeastAcquire; isAtLeastRelease] [] 6].
Definition Coherence : list (wstate unit) := [visitCoherence_0; visitCoherence_1; visitCoherence_2; visitCoherence_3; visitCoherence_4; visitCoherence_5; visitCoherence_6].
Definition visitCoherenceRelinche (g : Graph.t) : res bool := visitMethods Coherence 1 g.
Definition isCoherentRelinche (g : Graph.t) : res bool := visitCoherenceRelinche g.

Lemma tso_consistent_table : table_ok ConsAcyclic1 3 = true.
Proof. reflexivity. Qed.
Lemma tso_consistent_total g : checkable g -> total g ConsAcyclic1.
Proof. intros Hc. table_total. Qed.
Lemma tso_coherent_total g : checkable g -> walk_total Coherence g.
Proof. intros Hc. table_total. Qed.
Definition coherent_rank (q : nat) : nat := nth q [0; 1; 0; 0; 0; 0; 0]%nat 0%nat.
Lemma tso_coherent_table : walk_ok Coherence coherent_rank = true.
Proof. reflexivity. Qed.

(** The tables of the views. *)
Lemma tso_calc71 g : linked g -> Calc.calculation g 0 Calc71 2.
Proof. intros Hc. Calc.by_table Hc [0; 1; 2]%nat. Qed.
Lemma tso_calc72 g : linked g -> Calc.calculation g 1 Calc72 2.
Proof. intros Hc. Calc.by_table Hc [0; 1; 2]%nat. Qed.
Lemma tso_calc73 g : linked g -> Calc.calculation g 2 Calc73 2.
Proof. intros Hc. Calc.by_table Hc [0; 1; 2]%nat. Qed.
Lemma tso_calcs conf g k A q : linked g -> calcs conf !! k = Some (Some (A, q)) -> Calc.calculation g k A q.
Proof.
  intros Hc. destruct k as [|[|[|k]]]; cbn; [..|done]; try destruct (_ && _); intros [= <- <-];
    [by apply tso_calc71|by apply tso_calc72|by apply tso_calc73].
Qed.
Lemma tso_calculateViews conf g i st :
  calculateViews false conf g i st = foldM (fun st e => Calc.addEntry e g i st) (Calc.setViews i st) (calcs conf).
Proof.
  unfold calculateViews, calcs. cbn [foldM]. rewrite Calc.three_steps. by destruct (_ && _).
Qed.

(** ** Preserved program order *)
Section tso.
Context (g : Graph.t).

(** Nothing moves up before these events, ... *)
Definition acquires (l : EventLabel.t) : bool :=
  Class.isRead (kind l) || Class.isKind Kind.Fence (kind l) || Class.isKind Kind.ThreadJoin (kind l) ||
  Class.isThreadStart (kind l) || (Class.isWrite (kind l) && Class.isRMWWrite (kind l)).
(** ... and nothing moves down behind these. *)
Definition releases (l : EventLabel.t) : bool :=
  Class.isWrite (kind l) || Class.isKind Kind.Fence (kind l) || Class.isKind Kind.ThreadCreate (kind l) ||
  Class.isKind Kind.ThreadFinish (kind l).
Definition sc_write (l : EventLabel.t) : bool := EventLabel.isSC l && Class.isWrite (kind l).
Definition sc_read (l : EventLabel.t) : bool := EventLabel.isSC l && Class.isRead (kind l).

(** The order of a write and a later read of its thread is not preserved, unless
    both are sequentially consistent. *)
Definition ppo (i j : lid) : Prop := po g i j /\ (lab_is g acquires i \/ lab_is g releases j \/ (lab_is g sc_write i /\ lab_is g sc_read j)).
Definition tso_edge (i j : lid) : Prop :=
  ppo i j \/
  exists R ps, R ∈ [tc_succ; tj_succ; lin_succs; co_imm_succ; fr_imm_succ; rfe_succs] /\ R g i = Ok ps /\ j ∈ ps.

Context (Hc : checkable g).
#[local] Abbreviation Hg := (ck_wf g Hc).
#[local] Abbreviation mv := (moves ConsAcyclic1 g).

(** *** The guards of the automaton *)
Definition acquire_guards : list (list guard) := [[isWrite; isRMW]; [isRead]; [isFence]; [isThreadJoin]; [isThreadStart]].
Definition release_guards : list (list guard) := [[isWrite]; [isFence]; [isThreadCreate]; [isThreadFinish]].

Lemma holds_one f i : holds [test f] g i = Ok true <-> lab_is g f i.
Proof. rewrite holds_test. cbn. tauto. Qed.
Lemma holds_two f h i : holds [test f; test h] g i = Ok true <-> lab_is g (fun l => f l && h l) i.
Proof.
  rewrite holds_test, holds_one. split.
  - intros [(l & Hl & Hf) (l' & Hl' & Hh)]. simplify_eq. exists l. by rewrite Hf, Hh.
  - intros (l & Hl & [Hf Hh]%andb_prop). split; by exists l.
Qed.
Lemma holds_rmw_write i : holds [isWrite; isRMW] g i = Ok true <-> lab_is g (fun l => Class.isWrite (kind l) && Class.isRMWWrite (kind l)) i.
Proof.
  unfold isWrite, isa. rewrite holds_test. split.
  - intros [(l & Hl & Hw) H]. exists l. split; [done|]. rewrite Hw. cbn in H. unfold isRMW in H. rewrite (label_ok _ _ _ Hl) in H. cbn in H.
    destruct (Class.isRead (kind l)) eqn:Er; [by destruct (kind_disjoint _ Er); congruence|]. cbn in H. rewrite Hw in H.
    by destruct (Class.isRMWWrite (kind l)).
  - intros (l & Hl & [Hw Hr]%andb_prop). split; [by exists l|]. cbn. unfold isRMW. rewrite (label_ok _ _ _ Hl). cbn.
    destruct (Class.isRead (kind l)) eqn:Er; [by destruct (kind_disjoint _ Er); congruence|]. cbn. by rewrite Hw, Hr.
Qed.
Lemma acquires_spec i : lab_is g acquires i <-> exists cs, cs ∈ acquire_guards /\ holds cs g i = Ok true.
Proof.
  unfold acquire_guards. split.
  - intros (l & Hl & H). unfold acquires in H. rewrite !orb_true_iff in H.
    destruct H as [[[[H|H]|H]|H]|H]; [exists [isRead]|exists [isFence]|exists [isThreadJoin]|exists [isThreadStart]|exists [isWrite; isRMW]];
      (split; [repeat first [left|right]|]); [apply holds_one..|apply holds_rmw_write]; by exists l.
  - intros (cs & Hcs & H). unfold acquires.
    repeat (apply elem_of_cons in Hcs as [->|Hcs]; [first [apply holds_rmw_write in H|apply holds_one in H];
      destruct H as (l & Hl & H); exists l; split; [done|]; rewrite H; by rewrite ?orb_true_r|]).
    by apply not_elem_of_nil in Hcs.
Qed.
Lemma releases_spec i : lab_is g releases i <-> exists cs, cs ∈ release_guards /\ holds cs g i = Ok true.
Proof.
  unfold release_guards. split.
  - intros (l & Hl & H). unfold releases in H. rewrite !orb_true_iff in H.
    destruct H as [[[H|H]|H]|H]; [exists [isWrite]|exists [isFence]|exists [isThreadCreate]|exists [isThreadFinish]];
      (split; [repeat first [left|right]|]); apply holds_one; by exists l.
  - intros (cs & Hcs & H). unfold releases.
    repeat (apply elem_of_cons in Hcs as [->|Hcs]; [apply holds_one in H; destruct H as (l & Hl & H); exists l; split; [done|];
      rewrite H; by rewrite ?orb_true_r|]).
    by apply not_elem_of_nil in Hcs.
Qed.

(** *** The moves of the product *)
Definition succ (i j : lid) : Prop := Relations.po_imm_succ g i = Ok (Some j).
Definition sync_edge (i j : lid) : Prop :=
  exists R ps, R ∈ [tc_succ; tj_succ; lin_succs; co_imm_succ; fr_imm_succ; rfe_succs] /\ R g i = Ok ps /\ j ∈ ps.
Definition shape (a b : nat * lid) : Prop :=
  match a.1, b.1 with
  | 0, 0 | 1, 1 | 2, 2 | 0, 3 | 3, 1 => succ a.2 b.2
  | 1, 3 => succ a.2 b.2 /\ lab_is g releases b.2
  | 2, 3 => succ a.2 b.2 /\ lab_is g sc_read b.2
  | 3, 0 => succ a.2 b.2 /\ lab_is g acquires a.2
  | 3, 2 => succ a.2 b.2 /\ lab_is g sc_write a.2
  | 3, 3 => sync_edge a.2 b.2 \/ (succ a.2 b.2 /\
      (lab_is g acquires a.2 \/ lab_is g releases b.2 \/ (lab_is g sc_write a.2 /\ lab_is g sc_read b.2)))
  | _, _ => False
  end%nat.

Lemma along_succ i j : (exists ps, po_imm_succ g i = Ok ps /\ j ∈ ps) <-> succ i j.
Proof.
  split.
  - intros (ps & Hps & Hj). by apply (one_inv g _ i j ps).
  - intros E. by apply one_some.
Qed.
(** Find the guard among the loop's guards. *)
Ltac listed := by repeat first [left|right].
Ltac by_guards := solve
  [ apply acquires_spec; eexists; split; [|eassumption]; listed
  | apply releases_spec; eexists; split; [|eassumption]; listed
  | by apply holds_two ].
Lemma moves_shape a b : mv a b -> shape a b.
Proof.
  intros (e & He & Hto & Hf & Ha & Hi). destruct a as [q i], b as [q' j]. cbn in Hto. subst q'.
  destruct q as [|[|[|[|q]]]]; [..|by apply not_elem_of_nil in He].
  all: cbn in He; repeat (apply elem_of_cons in He as [->|He]; [cbn [from along into to] in Hf, Ha, Hi; unfold shape; cbn [fst snd to]|]).
  all: try by apply not_elem_of_nil in He.
  all: try by apply along_succ.
  all: try (left; destruct Ha as (ps & Hps & Hj); eexists _, ps; split; [|by split]; by repeat first [left|right]).
  all: try (split; [by apply along_succ|]).
  all: try (right; split; [by apply along_succ|]).
  all: first [by_guards|left; by_guards|right; left; by_guards|right; right; split; by_guards].
Qed.
Lemma shape_moves a b : shape a b -> mv a b.
Proof.
  destruct a as [q i], b as [q' j]. unfold shape. cbn [fst snd].
  assert (Hgo : forall cs ds q q' s, Edge cs po_imm_succ ds q' s ∈ edges (at_state ConsAcyclic1 q) -> succ i j ->
    holds cs g i = Ok true -> holds ds g j = Ok true -> mv (q, i) (q', j)).
  { intros cs ds p p' s He Hs H1 H2. eexists. split; [exact He|]. split; [done|]. split; [done|]. split; [by apply along_succ|done]. }
  destruct q as [|[|[|[|q]]]], q' as [|[|[|[|q']]]]; try done.
  - intros H. eapply (Hgo [] []); [listed|done..].
  - intros H. eapply (Hgo [] []); [listed|done..].
  - intros H. eapply (Hgo [] []); [listed|done..].
  - intros [H (ds & Hds & Hd)%releases_spec].
    repeat (apply elem_of_cons in Hds as [->|Hds]; [eapply (Hgo []); [|exact H|done|exact Hd]; listed|]). by apply not_elem_of_nil in Hds.
  - intros H. eapply (Hgo [] []); [listed|done..].
  - intros [H Hd]. eapply (Hgo [] [isSC; isRead]); [listed|done..|by apply holds_two].
  - intros [H (cs & Hcs & Hd)%acquires_spec].
    repeat (apply elem_of_cons in Hcs as [->|Hcs]; [eapply (Hgo _ []); [|exact H|exact Hd|done]; listed|]). by apply not_elem_of_nil in Hcs.
  - intros H. eapply (Hgo [] []); [listed|done..].
  - intros [H Hd]. eapply (Hgo [isSC; isWrite] []); [listed|done|by apply holds_two|done].
  - intros [(R & ps & HR & Hps & Hj)|[H [(cs & Hcs & Hd)%acquires_spec|[(ds & Hds & Hd)%releases_spec|[H1 H2]]]]].
    + exists (Edge [] R [] 3 true). split; [|split; [done|]; split; [done|]; split; [by exists ps|done]].
      repeat (apply elem_of_cons in HR as [->|HR]; [listed|]). by apply not_elem_of_nil in HR.
    + repeat (apply elem_of_cons in Hcs as [->|Hcs]; [eapply (Hgo _ []); [|exact H|exact Hd|done]; listed|]). by apply not_elem_of_nil in Hcs.
    + repeat (apply elem_of_cons in Hds as [->|Hds]; [eapply (Hgo []); [|exact H|done|exact Hd]; listed|]). by apply not_elem_of_nil in Hds.
    + eapply (Hgo [isSC; isWrite] [isSC; isRead]); [listed|done|by apply holds_two|by apply holds_two].
Qed.

(** *** Cycles *)
Lemma tso_sync_in i j : in_graph g i -> sync_edge i j -> in_graph g j.
Proof.
  intros Hi (R & ps & HR & Hps & Hj). assert (total_rel g R) as Ht.
  { repeat (apply elem_of_cons in HR as [->|HR]; [by eauto with checker|]). by apply not_elem_of_nil in HR. }
  destruct (Ht i Hi) as (ps' & Hps' & Hin). rewrite Hps in Hps'. injection Hps' as <-. by apply Hin.
Qed.
Lemma succ_in i j : in_graph g i -> succ i j -> in_graph g j.
Proof. intros Hi Hs. apply (po_in g i j), po_succ_po; done. Qed.
Lemma shape_in a b : in_graph g a.2 -> shape a b -> in_graph g b.2.
Proof.
  destruct a as [q i], b as [q' j]. cbn. intros Hi. unfold shape. cbn [fst snd].
  destruct q as [|[|[|[|q]]]], q' as [|[|[|[|q']]]]; try done; try by apply (succ_in i).
  all: try by (intros [? _]; apply (succ_in i)).
  intros [?|[? _]]; [by apply (tso_sync_in i)|by apply (succ_in i)].
Qed.

(** What a walk to the accepting state has seen. *)
Definition pending (q : nat) (i j : lid) : Prop :=
  match q with
  | 0 => exists k, po g i k /\ rtc tso_edge k j
  | 1 => exists k, po g i k /\ lab_is g releases k /\ rtc tso_edge k j
  | 2 => exists k, po g i k /\ lab_is g sc_read k /\ rtc tso_edge k j
  | 3 => tc tso_edge i j
  | _ => False
  end%nat.
Lemma pending_once a j : in_graph g a.2 -> shape a (3%nat, j) -> pending a.1 a.2 j.
Proof.
  destruct a as [q i]. cbn [fst snd]. intros Hi. unfold shape. cbn [fst snd]. pose proof (po_succ_po g Hc i j Hi) as Hpo.
  destruct q as [|[|[|[|q]]]]; [| | | |done]; cbn [pending].
  - intros H. exists j. split; [by apply Hpo|done].
  - intros [H1 H2]. exists j. split; [by apply Hpo|done].
  - intros [H1 H2]. exists j. split; [by apply Hpo|done].
  - intros [H|[H1 H2]]; apply tc_once; [by right|left]. split; [by apply Hpo|done].
Qed.
Lemma pending_step a c j : in_graph g a.2 -> shape a c -> pending c.1 c.2 j -> pending a.1 a.2 j.
Proof.
  destruct a as [q i], c as [q' k]. cbn [fst snd]. intros Hi Hs. pose proof (po_succ_po g Hc i k Hi) as Hpo.
  assert (Hpo' : forall u, succ i k -> po g k u -> po g i u) by (intros u H; apply po_trans; [done|by apply Hpo]).
  unfold shape in Hs. cbn [fst snd] in Hs.
  destruct q as [|[|[|[|q]]]], q' as [|[|[|[|q']]]]; try done; cbn [pending].
  - intros (u & ? & ?). exists u. eauto.
  - intros Ht. exists k. split; [by apply Hpo|by apply tc_rtc].
  - intros (u & ? & ? & ?). exists u. eauto.
  - intros Ht. destruct Hs. exists k. split; [by apply Hpo|]. split; [done|by apply tc_rtc].
  - intros (u & ? & ? & ?). exists u. eauto.
  - intros Ht. destruct Hs. exists k. split; [by apply Hpo|]. split; [done|by apply tc_rtc].
  - intros (u & ? & ?). destruct Hs as [Hs1 Hs2]. eapply tc_rtc_r; [|done]. apply tc_once. left. split; [by apply Hpo'|by left].
  - intros (u & ? & ? & ?). eapply tc_rtc_r; [|done]. apply tc_once. left. split; [by apply Hpo'|by right; left].
  - intros (u & ? & ? & ?). destruct Hs as [Hs1 Hs2]. eapply tc_rtc_r; [|done]. apply tc_once. left. split; [by apply Hpo'|by right; right].
  - intros Ht. eapply tc_l; [|done]. destruct Hs as [Hs|[Hs1 Hs2]]; [by right|left]. split; [by apply Hpo|done].
Qed.
Lemma cycle_edges a b : in_graph g a.2 -> tc mv a b -> b.1 = 3%nat -> pending a.1 a.2 b.2.
Proof.
  intros Hi Ht. revert Hi. induction Ht as [a b H|a c b H _ IH]; intros Hi Hb; apply moves_shape in H.
  - destruct b as [q j]. cbn in Hb. subst q. by apply pending_once.
  - apply (pending_step a c); [done..|]. apply IH; [by apply (shape_in a c)|done].
Qed.

(** A preserved pair is found by walking from one event to the other. *)
Lemma walk_po q j : (q < 3)%nat ->
  (forall i k, succ i k -> shape (q, i) (q, k)) -> (forall i, succ i j -> shape (q, i) (3%nat, j)) ->
  forall i, po g i j -> tc mv (q, i) (3%nat, j).
Proof.
  intros Hq Hl He. apply (po_ind_first g Hc).
  - intros i Hi Hs. apply tc_once, shape_moves. by apply He.
  - intros i k Hi Hs Hk IH. eapply tc_l; [|exact IH]. apply shape_moves. by apply Hl.
Qed.
Lemma walk_from3 q i j : po g i j ->
  (forall k, succ i k -> shape (3%nat, i) (q, k)) -> (succ i j -> shape (3%nat, i) (3%nat, j)) ->
  (forall k, po g k j -> tc mv (q, k) (3%nat, j)) -> tc mv (3%nat, i) (3%nat, j).
Proof.
  intros Hpo H1 H2 H3. destruct (po_first g Hc i j Hpo) as (k & Hs & [->|Hk]).
  - apply tc_once, shape_moves. by apply H2.
  - eapply tc_l; [apply shape_moves, H1; exact Hs|by apply H3].
Qed.
Lemma edge_walk i j : tso_edge i j -> tc mv (3%nat, i) (3%nat, j).
Proof.
  intros [[Hpo [H|[H|[H1 H2]]]]|H].
  - apply (walk_from3 0); [done|by split|by right; split; [|left]|]. intros k; apply walk_po; [lia|done..].
  - apply (walk_from3 1); [done|done|by right; split; [|right; left]|]. intros k; apply walk_po; [lia|done|by split].
  - apply (walk_from3 2); [done|by split|by right; split; [|right; right]|]. intros k; apply walk_po; [lia|done|by split].
  - apply tc_once, shape_moves. by left.
Qed.
Lemma cycles_agree i : in_graph g i -> tc mv (3%nat, i) (3%nat, i) <-> tc tso_edge i i.
Proof.
  intros Hi. split.
  - intros Ht. by apply (cycle_edges (3%nat, i) (3%nat, i) Hi Ht).
  - clear Hi. generalize i at 2 4 as j. intros j Ht. induction Ht as [i j H|i k j H _ IH]; [by apply edge_walk|].
    eapply tc_transitive; [by apply edge_walk|done].
Qed.
Lemma tso_no_plain : plain_acyclic ConsAcyclic1 g.
Proof.
  intros n Hn Hcyc. destruct n as [q i]. apply elem_of_nodes in Hn as [_ Hi].
  enough (forall a b, in_graph g a.2 -> tc (plain_moves ConsAcyclic1 g) a b -> po g a.2 b.2) as H by (by apply (po_irrefl g Hc i), (H (q, i) (q, i))).
  assert (Hone : forall a b, in_graph g a.2 -> plain_moves ConsAcyclic1 g a b -> po g a.2 b.2).
  { intros [p x] [p' y] Hx (Hm%moves_shape & Ha & Hb). apply (po_succ_po g Hc x y Hx). unfold shape in Hm. cbn in Hm.
    destruct p as [|[|[|[|p]]]], p' as [|[|[|[|p']]]]; done. }
  intros a b Ha Ht. induction Ht as [a b H|a c b H _ IH]; [by apply Hone|]. pose proof (Hone a c Ha H) as Hac.
  eapply po_trans; [done|exact Hac|]. apply IH. by apply (po_in g a.2).
Qed.
End tso.

(** C4: The consistency check of a graph returns, and accepts the graph exactly when
    preserved program order, thread creation and joining, the linearization order,
    coherence, from-reads and external reads-from have no cycle together. *)
Theorem tso_isConsistent_correct (g : Graph.t) : checkable g ->
  exists b, isConsistent_graph g = Ok b /\ (b = true <-> forall i, in_graph g i -> ~ tc (tso_edge g) i i).
Proof.
  intros Hc. destruct (visitFull_decides ConsAcyclic1 3 g (ck_wf g Hc) (ck_stamped g Hc) tso_consistent_table (tso_consistent_total g Hc))
    as (b & Hb & Hcyc); [cbn; lia|by apply tso_no_plain|].
  exists b. split; [exact Hb|]. destruct b.
  - split; [|done]. intros _ i Hi Ht. apply (cycles_agree g Hc i Hi) in Ht. assert (true = false); [|done]. apply Hcyc. by exists i.
  - split; [done|]. intros H. destruct (proj1 Hcyc eq_refl) as (i & Hi & Ht). exfalso.
    apply (H i Hi). by apply cycles_agree.
Qed.
Lemma tso_isConsistent_correct_witness :
  let g := Script.store_buffering MemOrdering.Relaxed MemOrdering.Relaxed in
  exists b, isConsistent_graph g = Ok b /\ (b = true <-> forall i, in_graph g i -> ~ tc (tso_edge g) i i).
Proof. apply tso_isConsistent_correct. exact Script.store_buffering_checkable. Defined.
(** The litmus tests: store buffering is allowed unless its accesses are sequentially
    consistent, and stale message passing is not. *)
Example tso_verdicts :
  (isConsistent_graph (Script.store_buffering MemOrdering.Relaxed MemOrdering.Relaxed),
   isConsistent_graph (Script.store_buffering MemOrdering.SequentiallyConsistent MemOrdering.SequentiallyConsistent),
   isConsistent_graph (Script.message_passing MemOrdering.Relaxed MemOrdering.Relaxed 1%nat)) = (Ok true, Ok false, Ok false).
Proof. vm_compute. reflexivity. Qed.
End TSOChecker.
