(* ===== verification/RAChecker.v ===== *)
(** * The checker for release-acquire

    Models the checks of Execution/Consistency/RAChecker.cpp: release-acquire
    consistency is maintained by the coherence of the placings, so the consistency
    check has nothing left to do; the coherence check for linearizability walks an
    automaton. *)

From stdpp Require Import relations.
From S2P Require Import Prelude Values Addresses Events VSet Views Labels Graph Relations Cut Search Automata Checkable Scripts Calc Placing IntervalMap AdaptiveView ExecutionState Errors.
Import EventLabel Graph.
Local Open Scope Z_scope.

Module RAChecker.
Import Search Automaton Checkable.

(** ** Consistency *)
Definition isConsistent_lab (g : Graph.t) (lab : lid) : res bool := Ok true.
Definition isConsistent_graph (g : Graph.t) : res bool := Ok true.
Definition isDepTracking : bool := false.

(** ** Errors and warnings *)
Section errors.
Import Errors VerificationError.
Context {V : Type} `{ViewOps V} (s : ExecutionState.t V) (g : Graph.t) (st : Calc.t).
Definition visitError1 : bool := false.
Definition visitLHSUnlessError1_0 (v : View.vid) (lab : lid) : visit := visit_contained g st v lab.
Definition visitLHSUnlessError1_1 : list uedge := [
  UEdge [] (single (alloc s)) []].
Definition visitUnlessError1 (lab : lid) : visit := unless_contained g st 1 visitLHSUnlessError1_0 visitLHSUnlessError1_1 lab.
Definition checkError1 (lab : lid) : visit := check (visitUnlessError1 lab) visitError1.
Definition visitError2 : bool := false.
Definition visitLHSUnlessError2_0 (lab : lid) : visit := visit_none lab.
Definition visitLHSUnlessError2_1 : list uedge := [
  UEdge [isFree; neg isHpRetire] (single (free s)) [];
  UEdge [isHpRetire] (single (free s)) []].
Definition visitUnlessError2 (lab : lid) : visit := unless_none g visitLHSUnlessError2_0 visitLHSUnlessError2_1 lab.
Definition checkError2 (lab : lid) : visit := check (visitUnlessError2 lab) visitError2.
Definition visitError3 : bool := false.
Definition visitLHSUnlessError3_0 (v : View.vid) (lab : lid) : visit := visit_contained g st v lab.
Definition visitLHSUnlessError3_1 : list uedge := [
  UEdge [isFree; neg isHpRetire] (pomax_na_reads s) [];
  UEdge [isFree; neg isHpRetire] (pomax_na_writes s) [];
  UEdge [isFree; neg isHpRetire] (pomax_at_reads s) [];
  UEdge [isFree; neg isHpRetire] (pomax_at_writes s) []].
Definition visitUnlessError3 (lab : lid) : visit := unless_contained g st 1 visitLHSUnlessError3_0 visitLHSUnlessError3_1 lab.
Definition checkError3 (lab : lid) : visit := check (visitUnlessError3 lab) visitError3.
Definition visitError4 : bool := false.
Definition visitLHSUnlessError4_0 (lab : lid) : visit := visit_none lab.
Definition visitLHSUnlessError4_1 : list uedge := [
  UEdge [isWrite] (single (free s)) [];
  UEdge [isRead] (single (free s)) []].
Definition visitUnlessError4 (lab : lid) : visit := unless_none g visitLHSUnlessError4_0 visitLHSUnlessError4_1 lab.
Definition checkError4 (lab : lid) : visit := check (visitUnlessError4 lab) visitError4.
Definition visitError5 : bool := false.
Definition visitLHSUnlessError5_0 (v : View.vid) (lab : lid) : visit := visit_contained g st v lab.
Definition visitLHSUnlessError5_1 : list uedge := [
  UEdge [isHpRetire] (unprotected s) []].
Definition visitUnlessError5 (lab : lid) : visit := unless_contained g st 1 visitLHSUnlessError5_0 visitLHSUnlessError5_1 lab.
Definition checkError5 (lab : lid) : visit := check (visitUnlessError5 lab) visitError5.
Definition visitError6 : bool := false.
Definition visitLHSUnlessError6_0 (lab : lid) : visit := visit_none lab.
Definition visitLHSUnlessError6_1 : list uedge := [
  UEdge [isMemAccess; isDynamicAddr; neg (isHazptrProtected s)] (single (retire s)) []].
Definition visitUnlessError6 (lab : lid) : visit := unless_none g visitLHSUnlessError6_0 visitLHSUnlessError6_1 lab.
Definition checkError6 (lab : lid) : visit := check (visitUnlessError6 lab) visitError6.
Definition visitError7 : bool := false.
Definition visitLHSUnlessError7_0 (v : View.vid) (lab : lid) : visit := visit_contained g st v lab.
Definition visitLHSUnlessError7_1 : list uedge := [
  UEdge [isWrite] (pomax_na_reads s) [];
  UEdge [isWrite] (pomax_na_writes s) [];
  UEdge [isRead] (pomax_na_writes s) [];
  UEdge [isNotAtomic; isWrite] (pomax_at_reads s) [];
  UEdge [isNotAtomic; isWrite] (pomax_at_writes s) [];
  UEdge [isNotAtomic; isRead] (pomax_at_writes s) []].
Definition visitUnlessError7 (lab : lid) : visit := unless_contained g st 1 visitLHSUnlessError7_0 visitLHSUnlessError7_1 lab.
Definition checkError7 (lab : lid) : visit := check (visitUnlessError7 lab) visitError7.
Definition visitWarning8 : bool := false.
Definition visitLHSUnlessWarning8_0 (v : View.vid) (lab : lid) : visit := visit_contained g st v lab.
Definition visitLHSUnlessWarning8_1 : list uedge := [
  UEdge [neg isNotAtomic; isWrite] (pomax_at_writes s) []].
Definition visitUnlessWarning8 (lab : lid) : visit := unless_contained g st 0 visitLHSUnlessWarning8_0 visitLHSUnlessWarning8_1 lab.
Definition checkWarning8 (lab : lid) : visit := check (visitUnlessWarning8 lab) visitWarning8.
Definition checkErrors (lab : lid) (race : option lid) := report [
  (checkError1 lab, VE_AccessNonMalloc);
  (checkError2 lab, VE_DoubleFree);
  (checkError3 lab, VE_AccessFreed);
  (checkError4 lab, VE_AccessFreed);
  (checkError5 lab, VE_AccessFreed);
  (checkError6 lab, VE_AccessFreed);
  (checkError7 lab, VE_RaceNotAtomic)] race.
Definition checkWarnings (lab : lid) (seenWarnings : list VerificationError.t) (racyLabs : list (option lid)) :=
  warn (checkWarning8 lab) VE_WWRace seenWarnings racyLabs.
End errors.

(** ** Views *)
Definition visitCalc70_0 : wstate Calc.view_update := WState [] false [].
Definition visitCalc70_1 : wstate Calc.view_update := WState [] false [
  WEdge [] self [] [Calc.update 0] 0].
Definition visitCalc70_2 : wstate Calc.view_update := WState [] false [
  WEdge [] tc_pred [] [] 1;
  WEdge [] tj_pred [] [] 1;
  WEdge [] lin_preds [] [] 1;
  WEdge [] rf_pred [] [] 1;
  WEdge [] po_imm_pred [] [] 1;
  WEdge [] tc_pred [] [Calc.updateIdx] 0;
  WEdge [] tj_pred [] [Calc.updateIdx] 0;
  WEdge [] lin_preds [] [Calc.updateIdx] 0;
  WEdge [] rf_pred [] [Calc.updateIdx] 0;
  WEdge [] po_imm_pred [] [Calc.updateIdx] 0].
Definition Calc70 : list (wstate Calc.view_update) := [visitCalc70_0; visitCalc70_1; visitCalc70_2].
Definition visitCalc70 (dbg : bool) : Calc.calculator := Calc.visitCalc dbg Calc70 2.
Definition checkCalc70 (dbg : bool) : Calc.calculator := visitCalc70 dbg.
Definition visitCalc76_0 : wstate Calc.view_update := WState [] false [].
Definition visitCalc76_1 : wstate Calc.view_update := WState [] false [
  WEdge [] self [] [Calc.update 1] 0].
Definition visitCalc76_2 : wstate Calc.view_update := WState [] true [
  WEdge [] po_imm_pred [isAtLeastRelease; isFence] [] 1;
  WEdge [] po_imm_pred [isAtLeastRelease; isThreadCreate] [] 1;
  WEdge [] po_imm_pred [isAtLeastRelease; isThreadFinish] [] 1;
  WEdge [] po_imm_pred [isAtLeastRelease; isFence] [Calc.updateIdx] 0;
  WEdge [] po_imm_pred [isAtLeastRelease; isThreadCreate] [Calc.updateIdx] 0;
  WEdge [] po_imm_pred [isAtLeastRelease; isThreadFinish] [Calc.updateIdx] 0;
  WEdge [] po_imm_pred [] [] 2].
Definition visitCalc76_3 : wstate Calc.view_update := WState [] false [
  WEdge [] rf_pred [isWrite; isRMW] [] 4;
  WEdge [] rf_pred [isAtLeastRelease] [] 1;
  WEdge [] rf_pred [isAtLeastRelease] [Calc.updateIdx] 0;
  WEdge [] rf_pred [] [] 2].
Definition visitCalc76_4 : wstate Calc.view_update := WState [] true [
  WEdge [] po_imm_pred [isRead; isRMW] [] 3].
Definition visitCalc76_5 : wstate Calc.view_update := WState [] true [
  WEdge [] rf_pred [isWrite; isRMW] [] 4;
  WEdge [] rf_pred [isAtLeastRelease] [] 1;
  WEdge [] rf_pred [isAtLeastRelease] [Calc.updateIdx] 0;
  WEdge [] po_imm_pred [] [] 5;
  WEdge [] rf_pred [] [] 2].
Definition visitCalc76_6 : wstate Calc.view_update := WState [] false [
  WEdge [isAtLeastAcquire] rf_pred [isWrite; isRMW] [] 4;
  WEdge [] tc_pred [] [] 1;
  WEdge [] tj_pred [] [] 1;
  WEdge [] lin_preds [] [] 1;
  WEdge [isAtLeastAcquire] rf_pred [isAtLeastRelease] [] 1;
  WEdge [] po_imm_pred [] [] 1;
  WEdge [] tc_pred [] [Calc.updateIdx] 0;
  WEdge [] tj_pred [] [Calc.updateIdx] 0;
  WEdge [] lin_preds [] [Calc.updateIdx] 0;
  WEdge [isAtLeastAcquire] rf_pred [isAtLeastRelease] [Calc.updateIdx] 0;
  WEdge [] po_imm_pred [] [Calc.updateIdx] 0;
  WEdge [isAtLeastAcquire; isFence] po_imm_pred [] [] 5;
  WEdge [isAtLeastAcquire; isThreadJoin] po_imm_pred [] [] 5;
  WEdge [isAtLeastAcquire; isThreadStart] po_imm_pred [] [] 5;
  WEdge [isAtLeastAcquire] rf_pred [] [] 2].
Definition Calc76 : list (wstate Calc.view_update) := [visitCalc76_0; visitCalc76_1; visitCalc76_2; visitCalc76_3; visitCalc76_4; visitCalc76_5; visitCalc76_6].
Definition visitCalc76 (dbg : bool) : Calc.calculator := Calc.visitCalc dbg Calc76 6.
Definition checkCalc76 (dbg : bool) : Calc.calculator := visitCalc76 dbg.
Definition visitCalc77_0 : wstate Calc.view_update := WState [] false [].
Definition visitCalc77_1 : wstate Calc.view_update := WState [] false [
  WEdge [] self [] [Calc.update 2] 0].
Definition visitCalc77_2 : wstate Calc.view_update := WState [] false [
  WEdge [isAtLeastAcquire; neg isAbstractLockCasRead] rf_pred [] [] 3;
  WEdge [isAtLeastAcquire; neg isAbstractLockCasRead] rf_pred [isWrite; isRMW] [] 5;
  WEdge [isAtLeastAcquire; isFence; neg isAbstractLockCasRead] po_imm_pred [] [] 6;
  WEdge [isAtLeastAcquire; isThreadJoin; neg isAbstractLockCasRead] po_imm_pred [] [] 6;
  WEdge [isAtLeastAcquire; isThreadStart; neg isAbstractLockCasRead] po_imm_pred [] [] 6;
  WEdge [] tc_pred [] [] 1;
  WEdge [] tj_pred [] [] 1;
  WEdge [] lin_preds [] [] 1;
  WEdge [isAtLeastAcquire; neg isAbstractLockCasRead] rf_pred [isAtLeastRelease] [] 1;
  WEdge [] po_imm_pred [] [] 1;
  WEdge [] tc_pred [] [Calc.updateIdx] 0;
  WEdge [] tj_pred [] [Calc.updateIdx] 0;
  WEdge [] lin_preds [] [Calc.updateIdx] 0;
  WEdge [isAtLeastAcquire; neg isAbstractLockCasRead] rf_pred [isAtLeastRelease] [Calc.updateIdx] 0;
  WEdge [] po_imm_pred [] [Calc.updateIdx] 0].
Definition visitCalc77_3 : wstate Calc.view_update := WState [] true [
  WEdge [] po_imm_pred [] [] 3;
  WEdge [] po_imm_pred [isAtLeastRelease; isFence] [] 1;
  WEdge [] po_imm_pred [isAtLeastRelease; isThreadCreate] [] 1;
  WEdge [] po_imm_pred [isAtLeastRelease; isThreadFinish] [] 1;
  WEdge [] po_imm_pred [isAtLeastRelease; isFence] [Calc.updateIdx] 0;
  WEdge [] po_imm_pred [isAtLeastRelease; isThreadCreate] [Calc.updateIdx] 0;
  WEdge [] po_imm_pred [isAtLeastRelease; isThreadFinish] [Calc.updateIdx] 0].
Definition visitCalc77_4 : wstate Calc.view_update := WState [] false [
  WEdge [] rf_pred [] [] 3;
  WEdge [] rf_pred [isWrite; isRMW] [] 5;
  WEdge [] rf_pred [isAtLeastRelease] [] 1;
  WEdge [] rf_pred [isAtLeastRelease] [Calc.updateIdx] 0].
Definition visitCalc77_5 : wstate Calc.view_update := WState [] true [
  WEdge [] po_imm_pred [isRead; isRMW] [] 4].
Definition visitCalc77_6 : wstate Calc.view_update := WState [] true [
  WEdge [] rf_pred [] [] 3;
  WEdge [] rf_pred [isWrite; isRMW] [] 5;
  WEdge [] po_imm_pred [] [] 6;
  WEdge [] rf_pred [isAtLeastRelease] [] 1;
  WEdge [] rf_pred [isAtLeastRelease] [Calc.updateIdx] 0].
Definition Calc77 : list (wstate Calc.view_update) := [visitCalc77_0; visitCalc77_1; visitCalc77_2; visitCalc77_3; visitCalc77_4; visitCalc77_5; visitCalc77_6].
Definition visitCalc77 (dbg : bool) : Calc.calculator := Calc.visitCalc dbg Calc77 2.
Definition checkCalc77 (dbg : bool) : Calc.calculator := visitCalc77 dbg.
Definition calculateViews (dbg : bool) (conf : Calc.config) (g : Graph.t) (lab : lid) (st : Calc.t) : res Calc.t :=
  let st := Calc.setViews lab st in
  st ← Calc.addCalc (checkCalc70 dbg) g lab st;
  st ← Calc.addCalc (checkCalc76 dbg) g lab st;
  if negb (Calc.collectLinSpec conf) && negb (Calc.checkLinSpec conf) then Calc.addEmpty lab st else Calc.addCalc (checkCalc77 dbg) g lab st.
Definition getHbView (g : Graph.t) (st : Calc.t) (lab : lid) : res View.vid := Calc.view g (Calc.calculatedViews st) lab 1.
Definition getPorfView (g : Graph.t) (st : Calc.t) (lab : lid) : res View.vid := Calc.view g (Calc.calculatedViews st) lab 0.
Definition getHbRelincheView (g : Graph.t) (st : Calc.t) (lab : lid) : res View.vid := Calc.view g (Calc.calculatedViews st) lab 2.
Definition calculateSaved (st : Calc.t) : Calc.t := st.
Definition calcPPoRfBefore (dbg : bool) := Calc.calcPPoRfBefore dbg.
Definition calculatePrefixView (dbg : bool) := calcPPoRfBefore dbg.
Definition updateMMViews (dbg : bool) (conf : Calc.config) (g : Graph.t) (lab : lid) (st : Calc.t) : res Calc.t :=
  st ← calculateViews dbg conf g lab st;
  let st := calculateSaved st in
  let c := Calc.fresh_view (Calc.heap st) in
  h ← calculatePrefixView dbg g lab st (Calc.heap st) c;
  Ok (Calc.setPrefixView lab c (Calc.set_heap h st)).
Definition calcs (conf : Calc.config) : list Calc.entry := [
  Some (Calc70, 2%nat);
  Some (Calc76, 6%nat);
  (if negb (Calc.collectLinSpec conf) && negb (Calc.checkLinSpec conf) then None else Some (Calc77, 2%nat))].

(** ** Coherent placings *)
Definition isWriteRfBefore := Placing.isWriteRfBefore 1.
Definition isHbOptRfBefore := Placing.isHbOptRfBefore 1.
Definition splitLocMOBefore := Placing.splitLocMOBefore 1.
Definition splitLocMOAfterHb := Placing.splitLocMOAfterHb 1.
Definition splitLocMOAfter := Placing.splitLocMOAfter 1.
Definition getCoherentStores := Placing.getCoherentStores 1 isDepTracking.
Definition getMOOptRfAfter := Placing.getMOOptRfAfter.
Definition getMOInvOptRfAfter := Placing.getMOInvOptRfAfter.
Definition getRevisitableFrom {V} `{VectorClock V} (g : Graph.t) := Placing.getRevisitableFrom g (V := V).
Definition filterCoherentRevisits {V} `{VectorClock V} (g : Graph.t) (st : Calc.t) := Placing.filterCoherentRevisits 1 isDepTracking g st (V := V).
Definition getCoherentPlacings := Placing.getCoherentPlacings 1 isDepTracking.

(** ** Coherence *)
Definition visitCoherence_0 : wstate unit := WState [tt] false [].
Definition visitCoherence_1 : wstate unit := WState [] false [
  WEdge [] lin_preds [isAtLeastAcquire] [] 10;
  WEdge [] lin_preds [] [] 8].
Definition visitCoherence_2 : wstate unit := WState [] true [
  WEdge [] tc_pred [] [] 2;
  WEdge [] tj_pred [] [] 2;
  WEdge [] lin_preds [] [] 2;
  WEdge [] po_imm_pred [] [] 2;
  WEdge [] po_imm_pred [isAtLeastAcquire; isFence] [] 6;
  WEdge [] po_imm_pred [isAtLeastAcquire; isThreadJoin] [] 6;
  WEdge [] po_imm_pred [isAtLeastAcquire; isThreadStart] [] 6;
  WEdge [] lin_preds [isAtLeastAcquire] [] 4;
  WEdge [] po_imm_pred [isAtLeastAcquire] [] 4;
  WEdge [] tc_pred [] [] 0;
  WEdge [] tj_pred [] [] 0;
  WEdge [] lin_preds [] [] 0;
  WEdge [] po_imm_pred [] [] 0].
Definition visitCoherence_3 : wstate unit := WState [] true [
  WEdge [] po_imm_pred [isAtLeastRelease; isFence] [] 2;
  WEdge [] po_imm_pred [isAtLeastRelease; isThreadCreate] [] 2;
  WEdge [] po_imm_pred [isAtLeastRelease; isThreadFinish] [] 2;
  WEdge [] po_imm_pred [isAtLeastAcquire; isAtLeastRelease; isFence] [] 6;
  WEdge [] po_imm_pred [] [] 3;
  WEdge [] po_imm_pred [isAtLeastAcquire; isAtLeastRelease; isFence] [] 4;
  WEdge [] po_imm_pred [isAtLeastRelease; isFence] [] 0;
  WEdge [] po_imm_pred [isAtLeastRelease; isThreadCreate] [] 0;
  WEdge [] po_imm_pred [isAtLeastRelease; isThreadFinish] [] 0].
Definition visitCoherence_4 : wstate unit := WState [] true [
  WEdge [] rf_pred [isAtLeastRelease] [] 2;
  WEdge [] rf_pred [isWrite; isRMW] [] 5;
  WEdge [] rf_pred [] [] 3;
  WEdge [] rf_pred [isAtLeastAcquire; isAtLeastRelease] [] 4;
  WEdge [] rf_pred [isAtLeastRelease] [] 0].
Definition visitCoherence_5 : wstate unit := WState [] false [
  WEdge [] po_imm_pred [isRead; isRMW] [] 4].
Definition visitCoherence_6 : wstate unit := WState [] true [
  WEdge [] po_imm_pred [] [] 6;
  WEdge [] po_imm_pred [] [] 4].
Definition visitCoherence_7 : wstate unit := WState [] true [
  WEdge [] rf_pred [] [] 2;
  WEdge [] co_imm_pred [] [] 2;
  WEdge [] fr_imm_preds [] [] 2;
  WEdge [] rf_pred [isAtLeastAcquire] [] 4;
  WEdge [] co_imm_pred [isAtLeastAcquire] [] 4;
  WEdge [] fr_imm_preds [isAtLeastAcquire] [] 4;
  WEdge [] rf_pred [] [] 7;
  WEdge [] co_imm_pred [] [] 7;
  WEdge [] fr_imm_preds [] [] 7].
Definition visitCoherence_8 : wstate unit := WState [] true [
  WEdge [] po_imm_pred [isAtLeastAcquire; isFence] [] 12;
  WEdge [] po_imm_pred [isAtLeastAcquire; isThreadJoin] [] 12;
  WEdge [] po_imm_pred [isAtLeastAcquire; isThreadStart] [] 12;
  WEdge [] lin_preds [isAtLeastAcquire] [] 10;
  WEdge [] po_imm_pred [isAtLeastAcquire] [] 10;
  WEdge [] tc_pred [] [] 7;
  WEdge [] tj_pred [] [] 7;
  WEdge [] lin_preds [] [] 7;
  WEdge [] po_imm_pred [] [] 7;
  WEdge [] tc_pred [] [] 8;
  WEdge [] tj_pred [] [] 8;
  WEdge [] lin_preds [] [] 8;
  WEdge [] po_imm_pred [] [] 8].
Definition visitCoherence_9 : wstate unit := WState [] true [
  WEdge [] po_imm_pred [isAtLeastAcquire; isAtLeastRelease; isFence] [] 12;
  WEdge [] po_imm_pred [] [] 9;
  WEdge [] po_imm_pred [isAtLeastAcquire; isAtLeastRelease; isFence] [] 10;
  WEdge [] po_imm_pred [isAtLeastRelease; isFence] [] 7;
  WEdge [] po_imm_pred [isAtLeastRelease; isThreadCreate] [] 7;
  WEdge [] po_imm_pred [isAtLeastRelease; isThreadFinish] [] 7;
  WEdge [] po_imm_pred [isAtLeastRelease; isFence] [] 8;
  WEdge [] po_imm_pred [isAtLeastRelease; isThreadCreate] [] 8;
  WEdge [] po_imm_pred [isAtLeastRelease; isThreadFinish] [] 8].
Definition visitCoherence_10 : wstate unit := WState [] true [
  WEdge [] rf_pred [] [] 9;
  WEdge [] rf_pred [isAtLeastAcquire; isAtLeastRelease] [] 10;
  WEdge [] rf_pred [isWrite; isRMW] [] 11;
  WEdge [] rf_pred [isAtLeastRelease] [] 7;
  WEdge [] rf_pred [isAtLeastRelease] [] 8].
Definition visitCoherence_11 : wstate unit := WState [] false [
  WEdge [] po_imm_pred [isRead; isRMW] [] 10].
Definition visitCoherence_12 : wstate unit := WState [] true [
  WEdge [] po_imm_pred [] [] 12;
  WEdge [] po_imm_pred [] [] 10].
Definition Coherence : list (wstate unit) := [visitCoherence_0; visitCoherence_1; visitCoherence_2; visitCoherence_3; visitCoherence_4; visitCoherence_5; visitCoherence_6; visitCoherence_7; visitCoherence_8; visitCoherence_9; visitCoherence_10; visitCoherence_11; visitCoherence_12].
Definition visitCoherenceRelinche (g : Graph.t) : res bool := visitMethods Coherence 1 g.
Definition isCoherentRelinche (g : Graph.t) : res bool := visitCoherenceRelinche g.

Lemma ra_coherent_total g : checkable g -> walk_total Coherence g.
Proof. intros Hc. table_total. Qed.
Definition coherent_rank (q : nat) : nat := nth q [0; 0; 0; 0; 0; 0; 0; 0; 0; 0; 0; 0; 0]%nat 0%nat.
Lemma ra_coherent_table : walk_ok Coherence coherent_rank = true.
Proof. reflexivity. Qed.

(** The tables of the views. *)
Lemma ra_calc70 g : linked g -> Calc.calculation g 0 Calc70 2.
Proof. intros Hc. Calc.by_table Hc [0; 1; 2]%nat. Qed.
Lemma ra_calc76 g : linked g -> Calc.calculation g 1 Calc76 6.
Proof. intros Hc. Calc.by_table Hc [0; 1; 0; 2; 0; 0; 2]%nat. Qed.
Lemma ra_calc77 g : linked g -> Calc.calculation g 2 Calc77 2.
Proof. intros Hc. Calc.by_table Hc [0; 1; 2; 0; 2; 0; 0]%nat. Qed.
Lemma ra_calcs conf g k A q : linked g -> calcs conf !! k = Some (Some (A, q)) -> Calc.calculation g k A q.
Proof.
  intros Hc. destruct k as [|[|[|k]]]; cbn; [..|done]; try destruct (_ && _); intros [= <- <-];
    [by apply ra_calc70|by apply ra_calc76|by apply ra_calc77].
Qed.
Lemma ra_calculateViews conf g i st :
  calculateViews false conf g i st = foldM (fun st e => Calc.addEntry e g i st) (Calc.setViews i st) (calcs conf).
Proof.
  unfold calculateViews, calcs. cbn [foldM]. rewrite Calc.three_steps. by destruct (_ && _).
Qed.
End RAChecker.
