(* ===== verification/RC11Checker.v ===== *)
(** * The checker for RC11

    Models the checks of Execution/Consistency/RC11Checker.cpp: the search for cycles
    through sequentially consistent events, the shortcut it takes when a new event is
    the only one of these, and the coherence check for linearizability. *)

From stdpp Require Import relations.
From S2P Require Import Prelude Values Addresses Events VSet Views Labels Graph Relations Cut Search Automata Checkable Scripts Calc Placing IntervalMap AdaptiveView ExecutionState Errors.
Import EventLabel Graph.
Local Open Scope Z_scope.

Module RC11Checker.
Import Search Automaton Checkable.

(** ** Consistency: cycles through sequentially consistent events *)
Definition visitConsAcyclic1_0 : state := State false false [
  Edge [] tc_succ [] 1 false;
  Edge [] tj_succ [] 1 false;
  Edge [] lin_succs [] 1 false;
  Edge [] po_imm_succ [] 1 false;
  Edge [isAtLeastRelease; isFence] po_imm_succ [] 2 false;
  Edge [isAtLeastRelease; isThreadCreate] po_imm_succ [] 2 false;
  Edge [isAtLeastRelease] rf_succs [] 3 false].
Definition visitConsAcyclic1_1 : state := State false true [
  Edge [] tc_succ [] 1 false;
  Edge [] tj_succ [] 1 false;
  Edge [] lin_succs [] 1 false;
  Edge [] po_imm_succ [] 1 false;
  Edge [isAtLeastRelease; isFence] po_imm_succ [] 2 false;
  Edge [isAtLeastRelease; isThreadCreate] po_imm_succ [] 2 false;
  Edge [] po_imm_succ [isSC] 19 true;
  Edge [isAtLeastRelease] rf_succs [] 3 false].
Definition visitConsAcyclic1_2 : state := State false true [
  Edge [] po_imm_succ [] 2 false;
  Edge [] rf_succs [] 3 false].
Definition visitConsAcyclic1_3 : state := State false true [
  Edge [isRead; isRMW] po_imm_succ [] 4 false;
  Edge [isAtLeastAcquire] lin_succs [] 1 false;
  Edge [isAtLeastAcquire] po_imm_succ [] 1 false;
  Edge [isAtLeastAcquire; isAtLeastRelease; isFence] po_imm_succ [] 2 false;
  Edge [isAtLeastAcquire] po_imm_succ [isSC] 19 true;
  Edge [] po_imm_succ [] 5 false;
  Edge [isAtLeastAcquire; isAtLeastRelease] rf_succs [] 3 false].
Definition visitConsAcyclic1_4 : state := State false false [
  Edge [isWrite; isRMW] rf_succs [] 3 false].
Definition visitConsAcyclic1_5 : state := State false true [
  Edge [isAtLeastAcquire; isFence] po_imm_succ [] 1 false;
  Edge [isAtLeastAcquire; isThreadJoin] po_imm_succ [] 1 false;
  Edge [isAtLeastAcquire; isAtLeastRelease; isFence] po_imm_succ [] 2 false;
  Edge [isAtLeastAcquire; isFence] po_imm_succ [isSC] 19 true;
  Edge [isAtLeastAcquire; isThreadJoin] po_imm_succ [isSC] 19 true;
  Edge [] po_imm_succ [] 5 false].
Definition visitConsAcyclic1_6 : state := State false true [
  Edge [isAtLeastRelease; isFence] po_imm_succ [] 7 false;
  Edge [isAtLeastRelease; isThreadCreate] po_imm_succ [] 7 false;
  Edge [isAtLeastRelease] rf_succs [] 8 false;
  Edge [] po_imm_succ [] 12 false;
  Edge [] rf_succs [isSC] 19 true;
  Edge [] co_imm_succ [isSC] 19 true;
  Edge [] fr_imm_succ [isSC] 19 true;
  Edge [] po_imm_succ [isSC] 19 true;
  Edge [] tc_succ [] 6 false;
  Edge [] tj_succ [] 6 false;
  Edge [] lin_succs [] 6 false;
  Edge [] po_imm_succ [] 6 false;
  Edge [] co_imm_succ [] 13 false;
  Edge [] fr_imm_succ [] 13 false;
  Edge [] rf_succs [] 18 false;
  Edge [] co_imm_succ [] 18 false;
  Edge [] fr_imm_succ [] 18 false].
Definition visitConsAcyclic1_7 : state := State false true [
  Edge [] po_imm_succ [] 7 false;
  Edge [] rf_succs [] 8 false].
Definition visitConsAcyclic1_8 : state := State false true [
  Edge [isAtLeastAcquire; isAtLeastRelease; isFence] po_imm_succ [] 7 false;
  Edge [isAtLeastAcquire; isAtLeastRelease] rf_succs [] 8 false;
  Edge [] po_imm_succ [] 10 false;
  Edge [isAtLeastAcquire] po_imm_succ [] 12 false;
  Edge [isAtLeastAcquire] rf_succs [isSC] 19 true;
  Edge [isAtLeastAcquire] co_imm_succ [isSC] 19 true;
  Edge [isAtLeastAcquire] fr_imm_succ [isSC] 19 true;
  Edge [isAtLeastAcquire] po_imm_succ [isSC] 19 true;
  Edge [isRead; isRMW] po_imm_succ [] 9 false;
  Edge [isAtLeastAcquire] lin_succs [] 6 false;
  Edge [isAtLeastAcquire] po_imm_succ [] 6 false;
  Edge [isAtLeastAcquire] co_imm_succ [] 13 false;
  Edge [isAtLeastAcquire] fr_imm_succ [] 13 false;
  Edge [isAtLeastAcquire] rf_succs [] 18 false;
  Edge [isAtLeastAcquire] co_imm_succ [] 18 false;
  Edge [isAtLeastAcquire] fr_imm_succ [] 18 false].
Definition visitConsAcyclic1_9 : state := State false false [
  Edge [isWrite; isRMW] rf_succs [] 8 false].
Definition visitConsAcyclic1_10 : state := State false true [
  Edge [isAtLeastAcquire; isAtLeastRelease; isFence] po_imm_succ [] 7 false;
  Edge [] po_imm_succ [] 10 false;
  Edge [isAtLeastAcquire; isFence] po_imm_succ [] 12 false;
  Edge [isAtLeastAcquire; isThreadJoin] po_imm_succ [] 12 false;
  Edge [isAtLeastAcquire; isFence] po_imm_succ [isSC] 19 true;
  Edge [isAtLeastAcquire; isThreadJoin] po_imm_succ [isSC] 19 true;
  Edge [isAtLeastAcquire; isFence] po_imm_succ [] 6 false;
  Edge [isAtLeastAcquire; isThreadJoin] po_imm_succ [] 6 false].
Definition visitConsAcyclic1_11 : state := State false true [
  Edge [] tc_succ [] 11 false;
  Edge [] tj_succ [] 11 false;
  Edge [] lin_succs [] 11 false;
  Edge [] po_imm_succ [] 11 false;
  Edge [] po_imm_succ [isSC; isFence] 19 true;
  Edge [isAtLeastRelease] rf_succs [] 15 false;
  Edge [isAtLeastRelease; isFence] po_imm_succ [] 14 false;
  Edge [isAtLeastRelease; isThreadCreate] po_imm_succ [] 14 false].
Definition visitConsAcyclic1_12 : state := State false true [
  Edge [] tc_succ [] 11 false;
  Edge [] tj_succ [] 11 false;
  Edge [] lin_succs [] 11 false;
  Edge [] po_imm_succ [] 12 false;
  Edge [] po_imm_succ [isSC] 19 true;
  Edge [] po_imm_succ [isSC; isFence] 19 true;
  Edge [isAtLeastRelease] rf_succs [] 15 false;
  Edge [isAtLeastRelease; isFence] po_imm_succ [] 14 false;
  Edge [isAtLeastRelease; isThreadCreate] po_imm_succ [] 14 false].
Definition visitConsAcyclic1_13 : state := State false true [
  Edge [] tc_succ [] 11 false;
  Edge [] tj_succ [] 11 false;
  Edge [] lin_succs [] 11 false;
  Edge [] po_imm_succ [] 11 false;
  Edge [] co_imm_succ [isSC] 19 true;
  Edge [] po_imm_succ [isSC; isFence] 19 true;
  Edge [] co_imm_succ [] 13 false;
  Edge [isAtLeastRelease] rf_succs [] 15 false;
  Edge [isAtLeastRelease; isFence] po_imm_succ [] 14 false;
  Edge [isAtLeastRelease; isThreadCreate] po_imm_succ [] 14 false].
Definition visitConsAcyclic1_14 : state := State false true [
  Edge [] rf_succs [] 15 false;
  Edge [] po_imm_succ [] 14 false].
Definition visitConsAcyclic1_15 : state := State false true [
  Edge [] po_imm_succ [] 17 false;
  Edge [isAtLeastAcquire] lin_succs [] 11 false;
  Edge [isAtLeastAcquire] po_imm_succ [] 11 false;
  Edge [isRead; isRMW] po_imm_succ [] 16 false;
  Edge [] po_imm_succ [isAtLeastAcquire; isSC; isFence] 19 true;
  Edge [isAtLeastAcquire] po_imm_succ [isSC; isFence] 19 true;
  Edge [isAtLeastAcquire; isAtLeastRelease] rf_succs [] 15 false;
  Edge [isAtLeastAcquire; isAtLeastRelease; isFence] po_imm_succ [] 14 false].
Definition visitConsAcyclic1_16 : state := State false false [
  Edge [isWrite; isRMW] rf_succs [] 15 false].
Definition visitConsAcyclic1_17 : state := State false true [
  Edge [] po_imm_succ [] 17 false;
  Edge [isAtLeastAcquire; isFence] po_imm_succ [] 11 false;
  Edge [isAtLeastAcquire; isThreadJoin] po_imm_succ [] 11 false;
  Edge [] po_imm_succ [isAtLeastAcquire; isSC; isFence] 19 true;
  Edge [isAtLeastAcquire; isFence] po_imm_succ [isSC; isFence] 19 true;
  Edge [isAtLeastAcquire; isThreadJoin] po_imm_succ [isSC; isFence] 19 true;
  Edge [isAtLeastAcquire; isAtLeastRelease; isFence] po_imm_succ [] 14 false].
Definition visitConsAcyclic1_18 : state := State false true [
  Edge [] tc_succ [] 11 false;
  Edge [] tj_succ [] 11 false;
  Edge [] lin_succs [] 11 false;
  Edge [] po_imm_succ [] 11 false;
  Edge [] po_imm_succ [isSC; isFence] 19 true;
  Edge [isAtLeastRelease] rf_succs [] 15 false;
  Edge [isAtLeastRelease; isFence] po_imm_succ [] 14 false;
  Edge [isAtLeastRelease; isThreadCreate] po_imm_succ [] 14 false;
  Edge [] rf_succs [] 18 false;
  Edge [] co_imm_succ [] 18 false;
  Edge [] fr_imm_succ [] 18 false].
Definition visitConsAcyclic1_19 : state := State true true [
  Edge [isAtLeastRelease; isSC; isFence] po_imm_succ [] 7 false;
  Edge [isSC] rf_succs [] 11 false;
  Edge [isSC; isFence] po_imm_succ [] 11 false;
  Edge [isSC] po_imm_succ [] 12 false;
  Edge [isSC] rf_succs [isSC] 19 true;
  Edge [isSC] co_imm_succ [isSC] 19 true;
  Edge [isSC] fr_imm_succ [isSC] 19 true;
  Edge [isSC] po_imm_succ [isSC] 19 true;
  Edge [isSC; isFence] po_imm_succ [isSC; isFence] 19 true;
  Edge [isSC] po_imm_succ [] 0 false;
  Edge [isSC; isFence] po_imm_succ [] 6 false;
  Edge [isSC] co_imm_succ [] 13 false;
  Edge [isSC] fr_imm_succ [] 13 false;
  Edge [isAtLeastRelease; isSC; isFence] po_imm_succ [] 14 false].
Definition ConsAcyclic1 : automaton := [visitConsAcyclic1_0; visitConsAcyclic1_1; visitConsAcyclic1_2; visitConsAcyclic1_3; visitConsAcyclic1_4; visitConsAcyclic1_5; visitConsAcyclic1_6; visitConsAcyclic1_7; visitConsAcyclic1_8; visitConsAcyclic1_9; visitConsAcyclic1_10; visitConsAcyclic1_11; visitConsAcyclic1_12; visitConsAcyclic1_13; visitConsAcyclic1_14; visitConsAcyclic1_15; visitConsAcyclic1_16; visitConsAcyclic1_17; visitConsAcyclic1_18; visitConsAcyclic1_19].
Definition visitConsAcyclic1 (g : Graph.t) (lab : lid) : res bool :=
  visitFrom ConsAcyclic1 g [0; 1; 3; 6; 8; 11; 12; 13; 15; 18; 19]%nat lab.
Definition visitConsAcyclic1Full (g : Graph.t) : res bool := visitFull ConsAcyclic1 g 19.

(** *** The shortcut *)
Definition visitLHSUnlessConsAcyclic1_0 (g : Graph.t) (lab : lid) : res bool := Ok false.
Definition visitLHSUnlessConsAcyclic1_1 (g : Graph.t) (lab : lid) : res bool :=
  visit_each (candidates g [] other_labels [isSC] (fun p => p) lab) (visitLHSUnlessConsAcyclic1_0 g).
Definition visitUnlessConsAcyclic1 (g : Graph.t) (lab : lid) : res bool :=
  let lhs := replicate (Z.to_nat (vector_size g)) false in
  let rhs := replicate (Z.to_nat (vector_size g)) false in
  b ← visitLHSUnlessConsAcyclic1_1 g lab;
  if negb b then Ok false else Ok (covered_by lhs rhs).
Definition checkConsAcyclic1_lab (g : Graph.t) (lab : lid) : res bool :=
  u ← visitUnlessConsAcyclic1 g lab; if (u : bool) then Ok true else visitConsAcyclic1 g lab.
Definition checkConsAcyclic1_graph (g : Graph.t) : res bool := visitConsAcyclic1Full g.

Definition isConsistent_lab (g : Graph.t) (lab : lid) : res bool := checkConsAcyclic1_lab g lab.
Definition isConsistent_graph (g : Graph.t) : res bool := checkConsAcyclic1_graph g.
Definition isDepTracking : bool := false.

(** ** Errors and warnings *)
Section errors.
Import Errors VerificationError.
Context {V : Type} `{ViewOps V} (s : ExecutionState.t V) (g : Graph.t) (st : Calc.t).
Definition visitError2 : bool := false.
Definition visitLHSUnlessError2_0 (v : View.vid) (lab : lid) : visit := visit_contained g st v lab.
Definition visitLHSUnlessError2_1 : list uedge := [
  UEdge [] (single (alloc s)) []].
Definition visitUnlessError2 (lab : lid) : visit := unless_contained g st 1 visitLHSUnlessError2_0 visitLHSUnlessError2_1 lab.
Definition checkError2 (lab : lid) : visit := check (visitUnlessError2 lab) visitError2.
Definition visitError3 : bool := false.
Definition visitLHSUnlessError3_0 (lab : lid) : visit := visit_none lab.
Definition visitLHSUnlessError3_1 : list uedge := [
  UEdge [isFree; neg isHpRetire] (single (free s)) [];
  UEdge [isHpRetire] (single (free s)) []].
Definition visitUnlessError3 (lab : lid) : visit := unless_none g visitLHSUnlessError3_0 visitLHSUnlessError3_1 lab.
Definition checkError3 (lab : lid) : visit := check (visitUnlessError3 lab) visitError3.
Definition visitError4 : bool := false.
Definition visitLHSUnlessError4_0 (v : View.vid) (lab : lid) : visit := visit_contained g st v lab.
Definition visitLHSUnlessError4_1 : list uedge := [
  UEdge [isFree; neg isHpRetire] (pomax_na_reads s) [];
  UEdge [isFree; neg isHpRetire] (pomax_na_writes s) [];
  UEdge [isFree; neg isHpRetire] (pomax_at_reads s) [];
  UEdge [isFree; neg isHpRetire] (pomax_at_writes s) []].
Definition visitUnlessError4 (lab : lid) : visit := unless_contained g st 1 visitLHSUnlessError4_0 visitLHSUnlessError4_1 lab.
Definition checkError4 (lab : lid) : visit := check (visitUnlessError4 lab) visitError4.
Definition visitError5 : bool := false.
Definition visitLHSUnlessError5_0 (lab : lid) : visit := visit_none lab.
Definition visitLHSUnlessError5_1 : list uedge := [
  UEdge [isWrite] (single (free s)) [];
  UEdge [isRead] (single (free s)) []].
Definition visitUnlessError5 (lab : lid) : visit := unless_none g visitLHSUnlessError5_0 visitLHSUnlessError5_1 lab.
Definition checkError5 (lab : lid) : visit := check (visitUnlessError5 lab) visitError5.
Definition visitError6 : bool := false.
Definition visitLHSUnlessError6_0 (v : View.vid) (lab : lid) : visit := visit_contained g st v lab.
Definition visitLHSUnlessError6_1 : list uedge := [
  UEdge [isHpRetire] (unprotected s) []].
Definition visitUnlessError6 (lab : lid) : visit := unless_contained g st 1 visitLHSUnlessError6_0 visitLHSUnlessError6_1 lab.
Definition checkError6 (lab : lid) : visit := check (visitUnlessError6 lab) visitError6.
Definition visitError7 : bool := false.
Definition visitLHSUnlessError7_0 (lab : lid) : visit := visit_none lab.
Definition visitLHSUnlessError7_1 : list uedge := [
  UEdge [isMemAccess; isDynamicAddr; neg (isHazptrProtected s)] (single (retire s)) []].
Definition visitUnlessError7 (lab : lid) : visit := unless_none g visitLHSUnlessError7_0 visitLHSUnlessError7_1 lab.
Definition checkError7 (lab : lid) : visit := check (visitUnlessError7 lab) visitError7.
Definition visitError8 : bool := false.
Definition visitLHSUnlessError8_0 (v : View.vid) (lab : lid) : visit := visit_contained g st v lab.
Definition visitLHSUnlessError8_1 : list uedge := [
  UEdge [isWrite] (pomax_na_reads s) [];
  UEdge [isWrite] (pomax_na_writes s) [];
  UEdge [isRead] (pomax_na_writes s) [];
  UEdge [isNotAtomic; isWrite] (pomax_at_reads s) [];
  UEdge [isNotAtomic; isWrite] (pomax_at_writes s) [];
  UEdge [isNotAtomic; isRead] (pomax_at_writes s) []].
Definition visitUnlessError8 (lab : lid) : visit := unless_contained g st 1 visitLHSUnlessError8_0 visitLHSUnlessError8_1 lab.
Definition checkError8 (lab : lid) : visit := check (visitUnlessError8 lab) visitError8.
Definition visitWarning9 : bool := false.
Definition visitLHSUnlessWarning9_0 (v : View.vid) (lab : lid) : visit := visit_contained g st v lab.
Definition visitLHSUnlessWarning9_1 : list uedge := [
  UEdge [neg isNotAtomic; isWrite] (pomax_at_writes s) []].
Definition visitUnlessWarning9 (lab : lid) : visit := unless_contained g st 0 visitLHSUnlessWarning9_0 visitLHSUnlessWarning9_1 lab.
Definition checkWarning9 (lab : lid) : visit := check (visitUnlessWarning9 lab) visitWarning9.
Definition checkErrors (lab : lid) (race : option lid) := report [
  (checkError2 lab, VE_AccessNonMalloc);
  (checkError3 lab, VE_DoubleFree);
  (checkError4 lab, VE_AccessFreed);
  (checkError5 lab, VE_AccessFreed);
  (checkError6 lab, VE_AccessFreed);
  (checkError7 lab, VE_AccessFreed);
  (checkError8 lab, VE_RaceNotAtomic)] race.
Definition checkWarnings (lab : lid) (seenWarnings : list VerificationError.t) (racyLabs : list (option lid)) :=
  warn (checkWarning9 lab) VE_WWRace seenWarnings racyLabs.
End errors.

(** ** Views *)
Definition visitCalc72_0 : wstate Calc.view_update := WState [] false [].
Definition visitCalc72_1 : wstate Calc.view_update := WState [] false [
  WEdge [] self [] [Calc.update 0] 0].
Definition visitCalc72_2 : wstate Calc.view_update := WState [] false [
  WEdge [] tc_pred [] [Calc.updateIdx] 0;
  WEdge [] tj_pred [] [Calc.updateIdx] 0;
  WEdge [] lin_preds [] [Calc.updateIdx] 0;
  WEdge [] rf_pred [] [Calc.updateIdx] 0;
  WEdge [] po_imm_pred [] [Calc.updateIdx] 0;
  WEdge [] tc_pred [] [] 1;
  WEdge [] tj_pred [] [] 1;
  WEdge [] lin_preds [] [] 1;
  WEdge [] rf_pred [] [] 1;
  WEdge [] po_imm_pred [] [] 1].
Definition Calc72 : list (wstate Calc.view_update) := [visitCalc72_0; visitCalc72_1; visitCalc72_2].
Definition visitCalc72 (dbg : bool) : Calc.calculator := Calc.visitCalc dbg Calc72 2.
Definition checkCalc72 (dbg : bool) : Calc.calculator := visitCalc72 dbg.
Definition visitCalc78_0 : wstate Calc.view_update := WState [] false [].
Definition visitCalc78_1 : wstate Calc.view_update := WState [] false [
  WEdge [] self [] [Calc.update 1] 0].
Definition visitCalc78_2 : wstate Calc.view_update := WState [] false [
  WEdge [isAtLeastAcquire] rf_pred [] [] 3;
  WEdge [isAtLeastAcquire] rf_pred [isWrite; isRMW] [] 5;
  WEdge [] tc_pred [] [Calc.updateIdx] 0;
  WEdge [] tj_pred [] [Calc.updateIdx] 0;
  WEdge [] lin_preds [] [Calc.updateIdx] 0;
  WEdge [isAtLeastAcquire] rf_pred [isAtLeastRelease] [Calc.updateIdx] 0;
  WEdge [] po_imm_pred [] [Calc.updateIdx] 0;
  WEdge [] tc_pred [] [] 1;
  WEdge [] tj_pred [] [] 1;
  WEdge [] lin_preds [] [] 1;
  WEdge [isAtLeastAcquire] rf_pred [isAtLeastRelease] [] 1;
  WEdge [] po_imm_pred [] [] 1;
  WEdge [isAtLeastAcquire; isFence] po_imm_pred [] [] 6;
  WEdge [isAtLeastAcquire; isThreadJoin] po_imm_pred [] [] 6].
Definition visitCalc78_3 : wstate Calc.view_update := WState [] true [
  WEdge [] po_imm_pred [] [] 3;
  WEdge [] po_imm_pred [isAtLeastRelease; isFence] [Calc.updateIdx] 0;
  WEdge [] po_imm_pred [isAtLeastRelease; isThreadCreate] [Calc.updateIdx] 0;
  WEdge [] po_imm_pred [isAtLeastRelease; isFence] [] 1;
  WEdge [] po_imm_pred [isAtLeastRelease; isThreadCreate] [] 1].
Definition visitCalc78_4 : wstate Calc.view_update := WState [] false [
  WEdge [] rf_pred [] [] 3;
  WEdge [] rf_pred [isWrite; isRMW] [] 5;
  WEdge [] rf_pred [isAtLeastRelease] [Calc.updateIdx] 0;
  WEdge [] rf_pred [isAtLeastRelease] [] 1].
Definition visitCalc78_5 : wstate Calc.view_update := WState [] true [
  WEdge [] po_imm_pred [isRead; isRMW] [] 4].
Definition visitCalc78_6 : wstate Calc.view_update := WState [] true [
  WEdge [] rf_pred [] [] 3;
  WEdge [] rf_pred [isWrite; isRMW] [] 5;
  WEdge [] rf_pred [isAtLeastRelease] [Calc.updateIdx] 0;
  WEdge [] rf_pred [isAtLeastRelease] [] 1;
  WEdge [] po_imm_pred [] [] 6].
Definition Calc78 : list (wstate Calc.view_update) := [visitCalc78_0; visitCalc78_1; visitCalc78_2; visitCalc78_3; visitCalc78_4; visitCalc78_5; visitCalc78_6].
Definition visitCalc78 (dbg : bool) : Calc.calculator := Calc.visitCalc dbg Calc78 2.
Definition checkCalc78 (dbg : bool) : Calc.calculator := visitCalc78 dbg.
Definition visitCalc79_0 : wstate Calc.view_update := WState [] false [].
Definition visitCalc79_1 : wstate Calc.view_update := WState [] false [
  WEdge [] self [] [Calc.update 2] 0].
Definition visitCalc79_2 : wstate Calc.view_update := WState [] false [
  WEdge [isAtLeastAcquire; neg isAbstractLockCasRead] rf_pred [isWrite; isRMW] [] 5;
  WEdge [isAtLeastAcquire; neg isAbstractLockCasRead] rf_pred [] [] 3;
  WEdge [] tc_pred [] [Calc.updateIdx] 0;
  WEdge [] tj_pred [] [Calc.updateIdx] 0;
  WEdge [] lin_preds [] [Calc.updateIdx] 0;
  WEdge [isAtLeastAcquire; neg isAbstractLockCasRead] rf_pred [isAtLeastRelease] [Calc.updateIdx] 0;
  WEdge [] po_imm_pred [] [Calc.updateIdx] 0;
  WEdge [] tc_pred [] [] 1;
  WEdge [] tj_pred [] [] 1;
  WEdge [] lin_preds [] [] 1;
  WEdge [isAtLeastAcquire; neg isAbstractLockCasRead] rf_pred [isAtLeastRelease] [] 1;
  WEdge [] po_imm_pred [] [] 1;
  WEdge [isAtLeastAcquire; isFence; neg isAbstractLockCasRead] po_imm_pred [] [] 6;
  WEdge [isAtLeastAcquire; isThreadJoin; neg isAbstractLockCasRead] po_imm_pred [] [] 6;
  WEdge [isAtLeastAcquire; isThreadStart; neg isAbstractLockCasRead] po_imm_pred [] [] 6].
Definition visitCalc79_3 : wstate Calc.view_update := WState [] true [
  WEdge [] po_imm_pred [] [] 3;
  WEdge [] po_imm_pred [isAtLeastRelease; isFence] [Calc.updateIdx] 0;
  WEdge [] po_imm_pred [isAtLeastRelease; isThreadCreate] [Calc.updateIdx] 0;
  WEdge [] po_imm_pred [isAtLeastRelease; isFence] [] 1;
  WEdge [] po_imm_pred [isAtLeastRelease; isThreadCreate] [] 1].
Definition visitCalc79_4 : wstate Calc.view_update := WState [] false [
  WEdge [] rf_pred [isWrite; isRMW] [] 5;
  WEdge [] rf_pred [] [] 3;
  WEdge [] rf_pred [isAtLeastRelease] [Calc.updateIdx] 0;
  WEdge [] rf_pred [isAtLeastRelease] [] 1].
Definition visitCalc79_5 : wstate Calc.view_update := WState [] true [
  WEdge [] po_imm_pred [isRead; isRMW] [] 4].
Definition visitCalc79_6 : wstate Calc.view_update := WState [] true [
  WEdge [] rf_pred [isWrite; isRMW] [] 5;
  WEdge [] rf_pred [] [] 3;
  WEdge [] rf_pred [isAtLeastRelease] [Calc.updateIdx] 0;
  WEdge [] rf_pred [isAtLeastRelease] [] 1;
  WEdge [] po_imm_pred [] [] 6].
Definition Calc79 : list (wstate Calc.view_update) := [visitCalc79_0; visitCalc79_1; visitCalc79_2; visitCalc79_3; visitCalc79_4; visitCalc79_5; visitCalc79_6].
Definition visitCalc79 (dbg : bool) : Calc.calculator := Calc.visitCalc dbg Calc79 2.
Definition checkCalc79 (dbg : bool) : Calc.calculator := visitCalc79 dbg.
Definition calculateViews (dbg : bool) (conf : Calc.config) (g : Graph.t) (lab : lid) (st : Calc.t) : res Calc.t :=
  let st := Calc.setViews lab st in
  st ← Calc.addCalc (checkCalc72 dbg) g lab st;
  st ← Calc.addCalc (checkCalc78 dbg) g lab st;
  if negb (Calc.collectLinSpec conf) && negb (Calc.checkLinSpec conf) then Calc.addEmpty lab st else Calc.addCalc (checkCalc79 dbg) g lab st.
Definition getHbView (g : Graph.t) (st : Calc.t) (lab : lid) : res View.vid := Calc.view g (Calc.calculatedViews st) lab 1.
Definition getPorfView (g : Graph.t) (st : Calc.t) (lab : lid) : res View.vid := Calc.view g (Calc.calculatedViews st) lab 0.
Definition getHbRelincheView (g : Graph.t) (st : Calc.t) (lab : lid) : res View.vid := Calc.view g (Calc.calculatedViews st) lab 2.
Definition calculateSaved (st : Calc.t) : Calc.t := st.
Definition calcPPoRfBefore (dbg : bool) := Calc.calcPPoRfBefore dbg.
Definition calculatePrefixView (dbg : bool) := calcPPoRfBefore dbg.
Definition updateMMViews (dbg : bool) (conf : Calc.config) (g : Graph.t) (lab : lid) (st : Calc.t) : res Calc.t :=
  st ← calculateViews dbg conf g lab st;
  let st := calculateSaved st in
  let c := Calc.fresh_view (Calc.heap st) in
  h ← calculatePrefixView dbg g lab st (Calc.heap st) c;
  Ok (Calc.setPrefixView lab c (Calc.set_heap h st)).
Definition calcs (conf : Calc.config) : list Calc.entry := [
  Some (Calc72, 2%nat);
  Some (Calc78, 2%nat);
  (if negb (Calc.collectLinSpec conf) && negb (Calc.checkLinSpec conf) then None else Some (Calc79, 2%nat))].

(** ** Coherent placings *)
Definition isWriteRfBefore := Placing.isWriteRfBefore 1.
Definition isHbOptRfBefore := Placing.isHbOptRfBefore 1.
Definition splitLocMOBefore := Placing.splitLocMOBefore 1.
Definition splitLocMOAfterHb := Placing.splitLocMOAfterHb 1.
Definition splitLocMOAfter := Placing.splitLocMOAfter 1.
Definition getCoherentStores := Placing.getCoherentStores 1 isDepTracking.
Definition getMOOptRfAfter := Placing.getMOOptRfAfter.
Definition getMOInvOptRfAfter := Placing.getMOInvOptRfAfter.
Definition getRevisitableFrom {V} `{VectorClock V} (g : Graph.t) := Placing.getRevisitableFrom g (V := V).
Definition filterCoherentRevisits {V} `{VectorClock V} (g : Graph.t) (st : Calc.t) := Placing.filterCoherentRevisits 1 isDepTracking g st (V := V).
Definition getCoherentPlacings := Placing.getCoherentPlacings 1 isDepTracking.

(** ** Coherence *)
Definition visitCoherence_0 : wstate unit := WState [tt] false [].
Definition visitCoherence_1 : wstate unit := WState [] false [
  WEdge [] lin_preds [isAtLeastAcquire] [] 10;
  WEdge [] lin_preds [] [] 8].
Definition visitCoherence_2 : wstate unit := WState [] true [
  WEdge [] po_imm_pred [isAtLeastAcquire; isFence] [] 6;
  WEdge [] po_imm_pred [isAtLeastAcquire; isThreadJoin] [] 6;
  WEdge [] tc_pred [] [] 2;
  WEdge [] tj_pred [] [] 2;
  WEdge [] lin_preds [] [] 2;
  WEdge [] po_imm_pred [] [] 2;
  WEdge [] tc_pred [] [] 0;
  WEdge [] tj_pred [] [] 0;
  WEdge [] lin_preds [] [] 0;
  WEdge [] po_imm_pred [] [] 0;
  WEdge [] lin_preds [isAtLeastAcquire] [] 4;
  WEdge [] po_imm_pred [isAtLeastAcquire] [] 4].
Definition visitCoherence_3 : wstate unit := WState [] true [
  WEdge [] po_imm_pred [isAtLeastAcquire; isAtLeastRelease; isFence] [] 6;
  WEdge [] po_imm_pred [isAtLeastRelease; isFence] [] 2;
  WEdge [] po_imm_pred [isAtLeastRelease; isThreadCreate] [] 2;
  WEdge [] po_imm_pred [isAtLeastRelease; isFence] [] 0;
  WEdge [] po_imm_pred [isAtLeastRelease; isThreadCreate] [] 0;
  WEdge [] po_imm_pred [] [] 3;
  WEdge [] po_imm_pred [isAtLeastAcquire; isAtLeastRelease; isFence] [] 4].
Definition visitCoherence_4 : wstate unit := WState [] true [
  WEdge [] rf_pred [isAtLeastRelease] [] 2;
  WEdge [] rf_pred [isAtLeastRelease] [] 0;
  WEdge [] rf_pred [isWrite; isRMW] [] 5;
  WEdge [] rf_pred [] [] 3;
  WEdge [] rf_pred [isAtLeastAcquire; isAtLeastRelease] [] 4].
Definition visitCoherence_5 : wstate unit := WState [] false [
  WEdge [] po_imm_pred [isRead; isRMW] [] 4].
Definition visitCoherence_6 : wstate unit := WState [] true [
  WEdge [] po_imm_pred [] [] 6;
  WEdge [] po_imm_pred [] [] 4].
Definition visitCoherence_7 : wstate unit := WState [] true [
  WEdge [] rf_pred [] [] 2;
  WEdge [] co_imm_pred [] [] 2;
  WEdge [] fr_imm_preds [] [] 2;
  WEdge [] rf_pred [] [] 7;
  WEdge [] co_imm_pred [] [] 7;
  WEdge [] fr_imm_preds [] [] 7;
  WEdge [] rf_pred [isAtLeastAcquire] [] 4;
  WEdge [] co_imm_pred [isAtLeastAcquire] [] 4;
  WEdge [] fr_imm_preds [isAtLeastAcquire] [] 4].
Definition visitCoherence_8 : wstate unit := WState [] true [
  WEdge [] lin_preds [isAtLeastAcquire] [] 10;
  WEdge [] po_imm_pred [isAtLeastAcquire] [] 10;
  WEdge [] po_imm_pred [isAtLeastAcquire; isFence] [] 12;
  WEdge [] po_imm_pred [isAtLeastAcquire; isThreadJoin] [] 12;
  WEdge [] tc_pred [] [] 8;
  WEdge [] tj_pred [] [] 8;
  WEdge [] lin_preds [] [] 8;
  WEdge [] po_imm_pred [] [] 8;
  WEdge [] tc_pred [] [] 7;
  WEdge [] tj_pred [] [] 7;
  WEdge [] lin_preds [] [] 7;
  WEdge [] po_imm_pred [] [] 7].
Definition visitCoherence_9 : wstate unit := WState [] true [
  WEdge [] po_imm_pred [] [] 9;
  WEdge [] po_imm_pred [isAtLeastAcquire; isAtLeastRelease; isFence] [] 10;
  WEdge [] po_imm_pred [isAtLeastAcquire; isAtLeastRelease; isFence] [] 12;
  WEdge [] po_imm_pred [isAtLeastRelease; isFence] [] 8;
  WEdge [] po_imm_pred [isAtLeastRelease; isThreadCreate] [] 8;
  WEdge [] po_imm_pred [isAtLeastRelease; isFence] [] 7;
  WEdge [] po_imm_pred [isAtLeastRelease; isThreadCreate] [] 7].
Definition visitCoherence_10 : wstate unit := WState [] true [
  WEdge [] rf_pred [] [] 9;
  WEdge [] rf_pred [isAtLeastAcquire; isAtLeastRelease] [] 10;
  WEdge [] rf_pred [isAtLeastRelease] [] 8;
  WEdge [] rf_pred [isAtLeastRelease] [] 7;
  WEdge [] rf_pred [isWrite; isRMW] [] 11].
Definition visitCoherence_11 : wstate unit := WState [] false [
  WEdge [] po_imm_pred [isRead; isRMW] [] 10].
Definition visitCoherence_12 : wstate unit := WState [] true [
  WEdge [] po_imm_pred [] [] 10;
  WEdge [] po_imm_pred [] [] 12].
Definition Coherence : list (wstate unit) := [visitCoherence_0; visitCoherence_1; visitCoherence_2; visitCoherence_3; visitCoherence_4; visitCoherence_5; visitCoherence_6; visitCoherence_7; visitCoherence_8; visitCoherence_9; visitCoherence_10; visitCoherence_11; visitCoherence_12].
Definition visitCoherenceRelinche (g : Graph.t) : res bool := visitMethods Coherence 1 g.
Definition isCoherentRelinche (g : Graph.t) : res bool := visitCoherenceRelinche g.

Lemma rc11_consistent1_table : table_ok ConsAcyclic1 19 = true.
Proof. reflexivity. Qed.
Lemma rc11_consistent1_total g : checkable g -> total g ConsAcyclic1.
Proof. intros Hc. table_total. Qed.
Lemma rc11_coherent_total g : checkable g -> walk_total Coherence g.
Proof. intros Hc. table_total. Qed.
Definition coherent_rank (q : nat) : nat := nth q [0; 0; 0; 0; 0; 0; 0; 0; 0; 0; 0; 0; 0]%nat 0%nat.
Lemma rc11_coherent_table : walk_ok Coherence coherent_rank = true.
Proof. reflexivity. Qed.

(** The tables of the views. *)
Lemma rc11_calc72 g : linked g -> Calc.calculation g 0 Calc72 2.
Proof. intros Hc. Calc.by_table Hc [0; 1; 2]%nat. Qed.
Lemma rc11_calc78 g : linked g -> Calc.calculation g 1 Calc78 2.
Proof. intros Hc. Calc.by_table Hc [0; 1; 2; 0; 2; 0; 0]%nat. Qed.
Lemma rc11_calc79 g : linked g -> Calc.calculation g 2 Calc79 2.
Proof. intros Hc. Calc.by_table Hc [0; 1; 2; 0; 2; 0; 0]%nat. Qed.
Lemma rc11_calcs conf g k A q : linked g -> calcs conf !! k = Some (Some (A, q)) -> Calc.calculation g k A q.
Proof.
  intros Hc. destruct k as [|[|[|k]]]; cbn; [..|done]; try destruct (_ && _); intros [= <- <-];
    [by apply rc11_calc72|by apply rc11_calc78|by apply rc11_calc79].
Qed.
Lemma rc11_calculateViews conf g i st :
  calculateViews false conf g i st = foldM (fun st e => Calc.addEntry e g i st) (Calc.setViews i st) (calcs conf).
Proof.
  unfold calculateViews, calcs. cbn [foldM]. rewrite Calc.three_steps. by destruct (_ && _).
Qed.
(** The shortcut is taken when no other label is sequentially consistent. *)
Lemma rc11_unless g i : checkable g -> in_graph g i ->
  exists b, visitUnlessConsAcyclic1 g i = Ok b /\ (b = true <-> forall j, ~ connects g [] other_labels [isSC] i j).
Proof.
  intros Hc Hi. destruct (visit_each_none g other_labels [isSC] i) as (b & Hb & Hn); [by repeat constructor; eauto with checker|by eauto with checker|done|].
  exists b. split; [|done]. unfold visitUnlessConsAcyclic1. change (visitLHSUnlessConsAcyclic1_0 g) with (fun _ : lid => Ok false : res bool) in *.
  unfold visitLHSUnlessConsAcyclic1_1, visitLHSUnlessConsAcyclic1_0. rewrite Hb. cbn [mbind res_bind].
  destruct b; cbn [negb]; [|done]. by rewrite covered_false.
Qed.
End RC11Checker.
