(* ===== verification/IMMChecker.v ===== *)
(** * The checker for IMM

    Models the checks of Execution/Consistency/IMMChecker.cpp: the search for cycles
    through sequentially consistent events, the search for cycles of the
    acyclicity axiom, and the coherence check for linearizability. *)

From stdpp Require Import relations.
From S2P Require Import Prelude Values Addresses Events VSet Views Labels Graph Relations Cut Search Automata Checkable Scripts Calc Placing IntervalMap AdaptiveView ExecutionState Errors.
Import EventLabel Graph.
Local Open Scope Z_scope.

Module IMMChecker.
Import Search Automaton Checkable.

(** ** Consistency: cycles through sequentially consistent events *)
Definition visitConsAcyclic1_0 : state := State false true [
  Edge [] po_imm_pred [isSC] 19 true].
Definition visitConsAcyclic1_1 : state := State false true [
  Edge [] tc_pred [] 1 false;
  Edge [] tj_pred [] 1 false;
  Edge [] lin_preds [] 1 false;
  Edge [] po_imm_pred [] 1 false;
  Edge [] po_imm_pred [isAtLeastAcquire; isFence] 5 false;
  Edge [] po_imm_pred [isAtLeastAcquire; isThreadJoin] 5 false;
  Edge [] tc_pred [] 0 false;
  Edge [] tj_pred [] 0 false;
  Edge [] lin_preds [] 0 false;
  Edge [] po_imm_pred [] 0 false;
  Edge [] lin_preds [isAtLeastAcquire] 3 false;
  Edge [] po_imm_pred [isAtLeastAcquire] 3 false].
Definition visitConsAcyclic1_2 : state := State false true [
  Edge [] po_imm_pred [isAtLeastRelease; isFence] 1 false;
  Edge [] po_imm_pred [isAtLeastRelease; isThreadCreate] 1 false;
  Edge [] po_imm_pred [] 2 false;
  Edge [] po_imm_pred [isAtLeastAcquire; isAtLeastRelease; isFence] 5 false;
  Edge [] po_imm_pred [isAtLeastRelease; isFence] 0 false;
  Edge [] po_imm_pred [isAtLeastRelease; isThreadCreate] 0 false;
  Edge [] po_imm_pred [isAtLeastAcquire; isAtLeastRelease; isFence] 3 false].
Definition visitConsAcyclic1_3 : state := State false true [
  Edge [] rf_pred [isAtLeastRelease] 1 false;
  Edge [] rf_pred [isWrite; isRMW] 4 false;
  Edge [] rf_pred [] 2 false;
  Edge [] rf_pred [isAtLeastRelease] 0 false;
  Edge [] rf_pred [isAtLeastAcquire; isAtLeastRelease] 3 false].
Definition visitConsAcyclic1_4 : state := State false false [
  Edge [] po_imm_pred [isRead; isRMW] 3 false].
Definition visitConsAcyclic1_5 : state := State false true [
  Edge [] po_imm_pred [] 5 false;
  Edge [] po_imm_pred [] 3 false].
Definition visitConsAcyclic1_6 : state := State false true [
  Edge [] lin_preds [isAtLeastAcquire] 8 false;
  Edge [] po_imm_pred [isAtLeastAcquire] 8 false;
  Edge [] po_imm_pred [isAtLeastAcquire; isFence] 10 false;
  Edge [] po_imm_pred [isAtLeastAcquire; isThreadJoin] 10 false;
  Edge [] tc_pred [] 6 false;
  Edge [] tj_pred [] 6 false;
  Edge [] lin_preds [] 6 false;
  Edge [] po_imm_pred [] 6 false;
  Edge [] po_imm_pred [isSC; isFence] 19 true].
Definition visitConsAcyclic1_7 : state := State false true [
  Edge [] po_imm_pred [isAtLeastAcquire; isAtLeastRelease; isFence] 8 false;
  Edge [] po_imm_pred [] 7 false;
  Edge [] po_imm_pred [isAtLeastAcquire; isAtLeastRelease; isFence] 10 false;
  Edge [] po_imm_pred [isAtLeastRelease; isFence] 6 false;
  Edge [] po_imm_pred [isAtLeastRelease; isThreadCreate] 6 false;
  Edge [] po_imm_pred [isAtLeastRelease; isSC; isFence] 19 true].
Definition visitConsAcyclic1_8 : state := State false true [
  Edge [] rf_pred [isAtLeastAcquire; isAtLeastRelease] 8 false;
  Edge [] rf_pred [] 7 false;
  Edge [] rf_pred [isAtLeastRelease] 6 false;
  Edge [] rf_pred [isWrite; isRMW] 9 false].
Definition visitConsAcyclic1_9 : state := State false false [
  Edge [] po_imm_pred [isRead; isRMW] 8 false].
Definition visitConsAcyclic1_10 : state := State false true [
  Edge [] po_imm_pred [] 8 false;
  Edge [] po_imm_pred [] 10 false].
Definition visitConsAcyclic1_11 : state := State false true [
  Edge [] tc_pred [] 11 false;
  Edge [] tj_pred [] 11 false;
  Edge [] lin_preds [] 11 false;
  Edge [] po_imm_pred [] 11 false;
  Edge [] tc_pred [] 13 false;
  Edge [] tj_pred [] 13 false;
  Edge [] lin_preds [] 13 false;
  Edge [] po_imm_pred [] 13 false;
  Edge [] tc_pred [] 12 false;
  Edge [] tj_pred [] 12 false;
  Edge [] lin_preds [] 12 false;
  Edge [] tc_pred [] 18 false;
  Edge [] tj_pred [] 18 false;
  Edge [] lin_preds [] 18 false;
  Edge [] po_imm_pred [] 18 false;
  Edge [] rf_pred [isSC] 19 true;
  Edge [] po_imm_pred [isSC; isFence] 19 true;
  Edge [] lin_preds [isAtLeastAcquire] 15 false;
  Edge [] po_imm_pred [isAtLeastAcquire] 15 false;
  Edge [] po_imm_pred [isAtLeastAcquire; isFence] 17 false;
  Edge [] po_imm_pred [isAtLeastAcquire; isThreadJoin] 17 false].
Definition visitConsAcyclic1_12 : state := State false true [
  Edge [] po_imm_pred [isAtLeastAcquire] 8 false;
  Edge [] po_imm_pred [] 12 false;
  Edge [] po_imm_pred [isAtLeastAcquire; isFence] 10 false;
  Edge [] po_imm_pred [isAtLeastAcquire; isThreadJoin] 10 false;
  Edge [] po_imm_pred [] 6 false;
  Edge [] po_imm_pred [isSC] 19 true].
Definition visitConsAcyclic1_13 : state := State false true [
  Edge [] co_imm_pred [isAtLeastAcquire] 8 false;
  Edge [] fr_imm_preds [isAtLeastAcquire] 8 false;
  Edge [] co_imm_pred [] 13 false;
  Edge [] co_imm_pred [] 6 false;
  Edge [] fr_imm_preds [] 6 false;
  Edge [] co_imm_pred [isSC] 19 true;
  Edge [] fr_imm_preds [isSC] 19 true].
Definition visitConsAcyclic1_14 : state := State false true [
  Edge [] po_imm_pred [] 14 false;
  Edge [] po_imm_pred [isAtLeastRelease; isFence] 11 false;
  Edge [] po_imm_pred [isAtLeastRelease; isThreadCreate] 11 false;
  Edge [] po_imm_pred [isAtLeastRelease; isFence] 13 false;
  Edge [] po_imm_pred [isAtLeastRelease; isThreadCreate] 13 false;
  Edge [] po_imm_pred [isAtLeastRelease; isFence] 12 false;
  Edge [] po_imm_pred [isAtLeastRelease; isThreadCreate] 12 false;
  Edge [] po_imm_pred [isAtLeastRelease; isFence] 18 false;
  Edge [] po_imm_pred [isAtLeastRelease; isThreadCreate] 18 false;
  Edge [] po_imm_pred [isAtLeastRelease; isSC; isFence] 19 true;
  Edge [] po_imm_pred [isAtLeastAcquire; isAtLeastRelease; isFence] 15 false;
  Edge [] po_imm_pred [isAtLeastAcquire; isAtLeastRelease; isFence] 17 false].
Definition visitConsAcyclic1_15 : state := State false true [
  Edge [] rf_pred [] 14 false;
  Edge [] rf_pred [isAtLeastRelease] 11 false;
  Edge [] rf_pred [isAtLeastRelease] 13 false;
  Edge [] rf_pred [isAtLeastRelease] 12 false;
  Edge [] rf_pred [isAtLeastRelease] 18 false;
  Edge [] rf_pred [isWrite; isRMW] 16 false;
  Edge [] rf_pred [isAtLeastAcquire; isAtLeastRelease] 15 false].
Definition visitConsAcyclic1_16 : state := State false false [
  Edge [] po_imm_pred [isRead; isRMW] 15 false].
Definition visitConsAcyclic1_17 : state := State false true [
  Edge [] po_imm_pred [] 15 false;
  Edge [] po_imm_pred [] 17 false].
Definition visitConsAcyclic1_18 : state := State false true [
  Edge [] rf_pred [isAtLeastAcquire] 8 false;
  Edge [] co_imm_pred [isAtLeastAcquire] 8 false;
  Edge [] fr_imm_preds [isAtLeastAcquire] 8 false;
  Edge [] rf_pred [] 18 false;
  Edge [] co_imm_pred [] 18 false;
  Edge [] fr_imm_preds [] 18 false;
  Edge [] rf_pred [] 6 false;
  Edge [] co_imm_pred [] 6 false;
  Edge [] fr_imm_preds [] 6 false].
Definition visitConsAcyclic1_19 : state := State true true [
  Edge [isSC] po_imm_pred [] 1 false;
  Edge [isSC] rf_pred [isAtLeastAcquire] 8 false;
  Edge [isSC] co_imm_pred [isAtLeastAcquire] 8 false;
  Edge [isSC] fr_imm_preds [isAtLeastAcquire] 8 false;
  Edge [isSC] po_imm_pred [isAtLeastAcquire] 8 false;
  Edge [isSC; isFence] po_imm_pred [] 11 false;
  Edge [isSC] co_imm_pred [] 13 false;
  Edge [isSC; isFence] po_imm_pred [] 13 false;
  Edge [isSC] po_imm_pred [] 12 false;
  Edge [isSC; isFence] po_imm_pred [] 12 false;
  Edge [isSC] po_imm_pred [isAtLeastAcquire; isFence] 5 false;
  Edge [isSC] po_imm_pred [isAtLeastAcquire; isThreadJoin] 5 false;
  Edge [isSC; isFence] po_imm_pred [] 18 false;
  Edge [isSC] po_imm_pred [isAtLeastAcquire; isFence] 10 false;
  Edge [isSC] po_imm_pred [isAtLeastAcquire; isThreadJoin] 10 false;
  Edge [isSC] rf_pred [] 6 false;
  Edge [isSC] co_imm_pred [] 6 false;
  Edge [isSC] fr_imm_preds [] 6 false;
  Edge [isSC] po_imm_pred [] 6 false;
  Edge [isSC] rf_pred [isSC] 19 true;
  Edge [isSC] co_imm_pred [isSC] 19 true;
  Edge [isSC] fr_imm_preds [isSC] 19 true;
  Edge [isSC] po_imm_pred [isSC] 19 true;
  Edge [isSC; isFence] po_imm_pred [isSC; isFence] 19 true;
  Edge [isSC] po_imm_pred [isAtLeastAcquire] 3 false;
  Edge [isAtLeastAcquire; isSC; isFence] po_imm_pred [] 15 false;
  Edge [isSC; isFence] po_imm_pred [isAtLeastAcquire] 15 false;
  Edge [isAtLeastAcquire; isSC; isFence] po_imm_pred [] 17 false;
  Edge [isSC; isFence] po_imm_pred [isAtLeastAcquire; isFence] 17 false;
  Edge [isSC; isFence] po_imm_pred [isAtLeastAcquire; isThreadJoin] 17 false].
Definition ConsAcyclic1 : automaton := [visitConsAcyclic1_0; visitConsAcyclic1_1; visitConsAcyclic1_2; visitConsAcyclic1_3; visitConsAcyclic1_4; visitConsAcyclic1_5; visitConsAcyclic1_6; visitConsAcyclic1_7; visitConsAcyclic1_8; visitConsAcyclic1_9; visitConsAcyclic1_10; visitConsAcyclic1_11; visitConsAcyclic1_12; visitConsAcyclic1_13; visitConsAcyclic1_14; visitConsAcyclic1_15; visitConsAcyclic1_16; visitConsAcyclic1_17; visitConsAcyclic1_18; visitConsAcyclic1_19].
Definition visitConsAcyclic1 (g : Graph.t) (lab : lid) : res bool :=
  visitFrom ConsAcyclic1 g [0; 1; 3; 6; 8; 11; 12; 13; 15; 18; 19]%nat lab.
Definition visitConsAcyclic1Full (g : Graph.t) : res bool := visitFull ConsAcyclic1 g 19.

(** *** The shortcut *)
Definition visitLHSUnlessConsAcyclic1_0 (g : Graph.t) (lab : lid) : res bool := Ok false.
Definition visitLHSUnlessConsAcyclic1_1 (g : Graph.t) (lab : lid) : res bool :=
  visit_each (candidates g [] other_labels [isSC] (fun p => p) lab) (visitLHSUnlessConsAcyclic1_0 g).
Definition visitUnlessConsAcyclic1 (g : Graph.t) (lab : lid) : res bool :=
  let lhs := replicate (Z.to_nat (vector_size g)) false in
  let rhs := replicate (Z.to_nat (vector_size g)) false in
  b ← visitLHSUnlessConsAcyclic1_1 g lab;
  if negb b then Ok false else Ok (covered_by lhs rhs).
Definition checkConsAcyclic1_lab (g : Graph.t) (lab : lid) : res bool :=
  u ← visitUnlessConsAcyclic1 g lab; if (u : bool) then Ok true else visitConsAcyclic1 g lab.
Definition checkConsAcyclic1_graph (g : Graph.t) : res bool := visitConsAcyclic1Full g.

(** ** Consistency: the acyclicity axiom *)
Definition visitConsAcyclic2_0 : state := State false true [
  Edge [] ctrl_preds [] 0 false;
  Edge [] data_preds [] 0 false;
  Edge [] rfi_pred [] 0 false;
  Edge [] ctrl_preds [] 1 false;
  Edge [] data_preds [] 1 false;
  Edge [] rfi_pred [] 1 false;
  Edge [] ctrl_preds [isDependable] 17 true;
  Edge [] data_preds [isDependable] 17 true;
  Edge [] rfi_pred [isWrite; isRMW] 2 false].
Definition visitConsAcyclic2_1 : state := State false true [
  Edge [] addr_preds [] 0 false;
  Edge [] addr_preds [] 1 false;
  Edge [] po_imm_pred [] 1 false;
  Edge [] addr_preds [isDependable] 17 true].
Definition visitConsAcyclic2_2 : state := State false false [
  Edge [] po_imm_pred [isRead; isRMW] 0 false;
  Edge [] po_imm_pred [isRead; isRMW] 1 false;
  Edge [] po_imm_pred [isRead; isRMW; isDependable] 17 true].
Definition visitConsAcyclic2_3 : state := State false true [
  Edge [] po_imm_pred [] 3 false;
  Edge [] po_imm_pred [isAtLeastAcquire] 17 true;
  Edge [] po_imm_pred [isFence] 17 true].
Definition visitConsAcyclic2_4 : state := State false true [
  Edge [] po_imm_pred [] 17 true;
  Edge [] po_imm_pred [] 4 false].
Definition visitConsAcyclic2_5 : state := State false true [
  Edge [] poloc_imm_pred [] 5 false;
  Edge [] poloc_imm_pred [isAtLeastRelease; isWrite] 17 true].
Definition visitConsAcyclic2_6 : state := State false true [
  Edge [] lin_preds [isAtLeastAcquire] 8 false;
  Edge [] po_imm_pred [isAtLeastAcquire] 8 false;
  Edge [] po_imm_pred [isSC; isFence] 17 true;
  Edge [] tc_pred [] 6 false;
  Edge [] tj_pred [] 6 false;
  Edge [] lin_preds [] 6 false;
  Edge [] po_imm_pred [] 6 false;
  Edge [] po_imm_pred [isAtLeastAcquire; isFence] 10 false;
  Edge [] po_imm_pred [isAtLeastAcquire; isThreadJoin] 10 false].
Definition visitConsAcyclic2_7 : state := State false true [
  Edge [] po_imm_pred [isAtLeastAcquire; isAtLeastRelease; isFence] 8 false;
  Edge [] po_imm_pred [] 7 false;
  Edge [] po_imm_pred [isAtLeastRelease; isSC; isFence] 17 true;
  Edge [] po_imm_pred [isAtLeastRelease; isFence] 6 false;
  Edge [] po_imm_pred [isAtLeastRelease; isThreadCreate] 6 false;
  Edge [] po_imm_pred [isAtLeastAcquire; isAtLeastRelease; isFence] 10 false].
Definition visitConsAcyclic2_8 : state := State false true [
  Edge [] rf_pred [isAtLeastAcquire; isAtLeastRelease] 8 false;
  Edge [] rf_pred [isWrite; isRMW] 9 false;
  Edge [] rf_pred [] 7 false;
  Edge [] rf_pred [isAtLeastRelease] 6 false].
Definition visitConsAcyclic2_9 : state := State false false [
  Edge [] po_imm_pred [isRead; isRMW] 8 false].
Definition visitConsAcyclic2_10 : state := State false true [
  Edge [] po_imm_pred [] 8 false;
  Edge [] po_imm_pred [] 10 false].
Definition visitConsAcyclic2_11 : state := State false true [
  Edge [] rf_pred [isAtLeastAcquire] 8 false;
  Edge [] co_imm_pred [isAtLeastAcquire] 8 false;
  Edge [] fr_imm_preds [isAtLeastAcquire] 8 false;
  Edge [] rf_pred [] 6 false;
  Edge [] co_imm_pred [] 6 false;
  Edge [] fr_imm_preds [] 6 false;
  Edge [] rf_pred [] 11 false;
  Edge [] co_imm_pred [] 11 false;
  Edge [] fr_imm_preds [] 11 false].
Definition visitConsAcyclic2_12 : state := State false true [
  Edge [] tc_pred [] 12 false;
  Edge [] tj_pred [] 12 false;
  Edge [] lin_preds [] 12 false;
  Edge [] po_imm_pred [] 12 false;
  Edge [] po_imm_pred [isAtLeastAcquire; isFence] 16 false;
  Edge [] po_imm_pred [isAtLeastAcquire; isThreadJoin] 16 false;
  Edge [] lin_preds [isAtLeastAcquire] 14 false;
  Edge [] po_imm_pred [isAtLeastAcquire] 14 false;
  Edge [] tc_pred [] 11 false;
  Edge [] tj_pred [] 11 false;
  Edge [] lin_preds [] 11 false;
  Edge [] po_imm_pred [] 11 false].
Definition visitConsAcyclic2_13 : state := State false true [
  Edge [] po_imm_pred [isAtLeastRelease; isFence] 12 false;
  Edge [] po_imm_pred [isAtLeastRelease; isThreadCreate] 12 false;
  Edge [] po_imm_pred [isAtLeastAcquire; isAtLeastRelease; isFence] 16 false;
  Edge [] po_imm_pred [] 13 false;
  Edge [] po_imm_pred [isAtLeastAcquire; isAtLeastRelease; isFence] 14 false;
  Edge [] po_imm_pred [isAtLeastRelease; isFence] 11 false;
  Edge [] po_imm_pred [isAtLeastRelease; isThreadCreate] 11 false].
Definition visitConsAcyclic2_14 : state := State false true [
  Edge [] rf_pred [isAtLeastRelease] 12 false;
  Edge [] rf_pred [isWrite; isRMW] 15 false;
  Edge [] rf_pred [] 13 false;
  Edge [] rf_pred [isAtLeastAcquire; isAtLeastRelease] 14 false;
  Edge [] rf_pred [isAtLeastRelease] 11 false].
Definition visitConsAcyclic2_15 : state := State false false [
  Edge [] po_imm_pred [isRead; isRMW] 14 false].
Definition visitConsAcyclic2_16 : state := State false true [
  Edge [] po_imm_pred [] 16 false;
  Edge [] po_imm_pred [] 14 false].
Definition visitConsAcyclic2_17 : state := State true true [
  Edge [isSC; isFence] po_imm_pred [] 12 false;
  Edge [isWrite] ctrl_preds [] 0 false;
  Edge [isWrite] addr_preds [] 0 false;
  Edge [isWrite] data_preds [] 0 false;
  Edge [isWrite; isRMW] po_imm_pred [isRead; isRMW] 0 false;
  Edge [isWrite] poloc_imm_pred [] 5 false;
  Edge [isWrite] ctrl_preds [] 1 false;
  Edge [isWrite] addr_preds [] 1 false;
  Edge [isWrite] data_preds [] 1 false;
  Edge [isWrite] po_imm_pred [] 1 false;
  Edge [isWrite; isRMW] po_imm_pred [isRead; isRMW] 1 false;
  Edge [] po_imm_pred [] 3 false;
  Edge [] rfe_pred [] 17 true;
  Edge [isWrite] ctrl_preds [isDependable] 17 true;
  Edge [isWrite] addr_preds [isDependable] 17 true;
  Edge [isWrite] data_preds [isDependable] 17 true;
  Edge [] detour_preds [] 17 true;
  Edge [isWrite] poloc_imm_pred [isAtLeastRelease; isWrite] 17 true;
  Edge [] po_imm_pred [isAtLeastAcquire] 17 true;
  Edge [] po_imm_pred [isFence] 17 true;
  Edge [isAtLeastRelease] po_imm_pred [] 17 true;
  Edge [isWrite; isRMW] po_imm_pred [isRead; isRMW; isDependable] 17 true;
  Edge [isFence] po_imm_pred [] 17 true;
  Edge [isAtLeastAcquire; isSC; isFence] po_imm_pred [] 16 false;
  Edge [isSC; isFence] po_imm_pred [isAtLeastAcquire; isFence] 16 false;
  Edge [isSC; isFence] po_imm_pred [isAtLeastAcquire; isThreadJoin] 16 false;
  Edge [isAtLeastRelease] po_imm_pred [] 4 false;
  Edge [isFence] po_imm_pred [] 4 false;
  Edge [isAtLeastAcquire; isSC; isFence] po_imm_pred [] 14 false;
  Edge [isSC; isFence] po_imm_pred [isAtLeastAcquire] 14 false;
  Edge [isSC; isFence] po_imm_pred [] 11 false].
Definition ConsAcyclic2 : automaton := [visitConsAcyclic2_0; visitConsAcyclic2_1; visitConsAcyclic2_2; visitConsAcyclic2_3; visitConsAcyclic2_4; visitConsAcyclic2_5; visitConsAcyclic2_6; visitConsAcyclic2_7; visitConsAcyclic2_8; visitConsAcyclic2_9; visitConsAcyclic2_10; visitConsAcyclic2_11; visitConsAcyclic2_12; visitConsAcyclic2_13; visitConsAcyclic2_14; visitConsAcyclic2_15; visitConsAcyclic2_16; visitConsAcyclic2_17].
Definition visitConsAcyclic2 (g : Graph.t) (lab : lid) : res bool := visitFrom ConsAcyclic2 g [6; 8; 11; 12; 14]%nat lab.
Definition visitConsAcyclic2Full (g : Graph.t) : res bool := visitFull ConsAcyclic2 g 17.
Definition checkConsAcyclic2_lab (g : Graph.t) (lab : lid) : res bool := visitConsAcyclic2 g lab.
Definition checkConsAcyclic2_graph (g : Graph.t) : res bool := visitConsAcyclic2Full g.

Definition isConsistent_lab (g : Graph.t) (lab : lid) : res bool :=
  b ← checkConsAcyclic1_lab g lab; if (b : bool) then checkConsAcyclic2_lab g lab else Ok false.
Definition isConsistent_graph (g : Graph.t) : res bool :=
  b ← checkConsAcyclic1_graph g; if (b : bool) then checkConsAcyclic2_graph g else Ok false.
Definition isDepTracking : bool := true.

(** ** Errors and warnings *)
Section errors.
Import Errors VerificationError.
Context {V : Type} `{ViewOps V} (s : ExecutionState.t V) (g : Graph.t) (st : Calc.t).
Definition visitWarning3 : bool := false.
Definition visitLHSUnlessWarning3_0 (v : View.vid) (lab : lid) : visit := visit_contained g st v lab.
Definition visitLHSUnlessWarning3_1 : list uedge := [
  UEdge [isWrite] samelocs [isWrite]].
Definition visitUnlessWarning3 (lab : lid) : visit := unless_contained g st 2 visitLHSUnlessWarning3_0 visitLHSUnlessWarning3_1 lab.
Definition checkWarning3 (lab : lid) : visit := check (visitUnlessWarning3 lab) visitWarning3.
Definition checkErrors (lab : lid) (race : option lid) := report [] race.
Definition checkWarnings (lab : lid) (seenWarnings : list VerificationError.t) (racyLabs : list (option lid)) :=
  warn (checkWarning3 lab) VE_WWRace seenWarnings racyLabs.
End errors.

(** ** Views *)
Definition visitCalc75_0 : wstate Calc.view_update := WState [] false [].
Definition visitCalc75_1 : wstate Calc.view_update := WState [] false [
  WEdge [] self [] [Calc.update 0] 0].
Definition visitCalc75_2 : wstate Calc.view_update := WState [] false [
  WEdge [isAtLeastAcquire] rf_pred [] [] 3;
  WEdge [] tc_pred [] [] 1;
  WEdge [] tj_pred [] [] 1;
  WEdge [] lin_preds [] [] 1;
  WEdge [isAtLeastAcquire] rf_pred [isAtLeastRelease] [] 1;
  WEdge [] po_imm_pred [] [] 1;
  WEdge [isAtLeastAcquire] rf_pred [isWrite; isRMW] [] 5;
  WEdge [isAtLeastAcquire; isFence] po_imm_pred [] [] 6;
  WEdge [isAtLeastAcquire; isThreadJoin] po_imm_pred [] [] 6;
  WEdge [] tc_pred [] [Calc.updateIdx] 0;
  WEdge [] tj_pred [] [Calc.updateIdx] 0;
  WEdge [] lin_preds [] [Calc.updateIdx] 0;
  WEdge [isAtLeastAcquire] rf_pred [isAtLeastRelease] [Calc.updateIdx] 0;
  WEdge [] po_imm_pred [] [Calc.updateIdx] 0].
Definition visitCalc75_3 : wstate Calc.view_update := WState [] true [
  WEdge [] po_imm_pred [] [] 3;
  WEdge [] po_imm_pred [isAtLeastRelease; isFence] [] 1;
  WEdge [] po_imm_pred [isAtLeastRelease; isThreadCreate] [] 1;
  WEdge [] po_imm_pred [isAtLeastRelease; isFence] [Calc.updateIdx] 0;
  WEdge [] po_imm_pred [isAtLeastRelease; isThreadCreate] [Calc.updateIdx] 0].
Definition visitCalc75_4 : wstate Calc.view_update := WState [] false [
  WEdge [] rf_pred [] [] 3;
  WEdge [] rf_pred [isAtLeastRelease] [] 1;
  WEdge [] rf_pred [isWrite; isRMW] [] 5;
  WEdge [] rf_pred [isAtLeastRelease] [Calc.updateIdx] 0].
Definition visitCalc75_5 : wstate Calc.view_update := WState [] true [
  WEdge [] po_imm_pred [isRead; isRMW] [] 4].
Definition visitCalc75_6 : wstate Calc.view_update := WState [] true [
  WEdge [] rf_pred [] [] 3;
  WEdge [] rf_pred [isAtLeastRelease] [] 1;
  WEdge [] rf_pred [isWrite; isRMW] [] 5;
  WEdge [] po_imm_pred [] [] 6;
  WEdge [] rf_pred [isAtLeastRelease] [Calc.updateIdx] 0].
Definition Calc75 : list (wstate Calc.view_update) := [visitCalc75_0; visitCalc75_1; visitCalc75_2; visitCalc75_3; visitCalc75_4; visitCalc75_5; visitCalc75_6].
Definition visitCalc75 (dbg : bool) : Calc.calculator := Calc.visitCalc dbg Calc75 2.
Definition checkCalc75 (dbg : bool) : Calc.calculator := visitCalc75 dbg.
Definition visitCalc76_0 : wstate Calc.view_update := WState [] false [].
Definition visitCalc76_1 : wstate Calc.view_update := WState [] false [
  WEdge [] self [] [Calc.update 1] 0].
Definition visitCalc76_2 : wstate Calc.view_update := WState [] false [
  WEdge [] tc_pred [] [] 1;
  WEdge [] tj_pred [] [] 1;
  WEdge [] lin_preds [] [] 1;
  WEdge [isAtLeastAcquire; neg isAbstractLockCasRead] rf_pred [isAtLeastRelease] [] 1;
  WEdge [] po_imm_pred [] [] 1;
  WEdge [] tc_pred [] [Calc.updateIdx] 0;
  WEdge [] tj_pred [] [Calc.updateIdx] 0;
  WEdge [] lin_preds [] [Calc.updateIdx] 0;
  WEdge [isAtLeastAcquire; neg isAbstractLockCasRead] rf_pred [isAtLeastRelease] [Calc.updateIdx] 0;
  WEdge [] po_imm_pred [] [Calc.updateIdx] 0;
  WEdge [isAtLeastAcquire; neg isAbstractLockCasRead] rf_pred [isWrite; isRMW] [] 5;
  WEdge [isAtLeastAcquire; neg isAbstractLockCasRead] rf_pred [] [] 3;
  WEdge [isAtLeastAcquire; isFence; neg isAbstractLockCasRead] po_imm_pred [] [] 6;
  WEdge [isAtLeastAcquire; isThreadJoin; neg isAbstractLockCasRead] po_imm_pred [] [] 6;
  WEdge [isAtLeastAcquire; isThreadStart; neg isAbstractLockCasRead] po_imm_pred [] [] 6].
Definition visitCalc76_3 : wstate Calc.view_update := WState [] true [
  WEdge [] po_imm_pred [isAtLeastRelease; isFence] [] 1;
  WEdge [] po_imm_pred [isAtLeastRelease; isThreadCreate] [] 1;
  WEdge [] po_imm_pred [isAtLeastRelease; isFence] [Calc.updateIdx] 0;
  WEdge [] po_imm_pred [isAtLeastRelease; isThreadCreate] [Calc.updateIdx] 0;
  WEdge [] po_imm_pred [] [] 3].
Definition visitCalc76_4 : wstate Calc.view_update := WState [] false [
  WEdge [] rf_pred [isAtLeastRelease] [] 1;
  WEdge [] rf_pred [isAtLeastRelease] [Calc.updateIdx] 0;
  WEdge [] rf_pred [isWrite; isRMW] [] 5;
  WEdge [] rf_pred [] [] 3].
Definition visitCalc76_5 : wstate Calc.view_update := WState [] true [
  WEdge [] po_imm_pred [isRead; isRMW] [] 4].
Definition visitCalc76_6 : wstate Calc.view_update := WState [] true [
  WEdge [] rf_pred [isAtLeastRelease] [] 1;
  WEdge [] rf_pred [isAtLeastRelease] [Calc.updateIdx] 0;
  WEdge [] rf_pred [isWrite; isRMW] [] 5;
  WEdge [] rf_pred [] [] 3;
  WEdge [] po_imm_pred [] [] 6].
Definition Calc76 : list (wstate Calc.view_update) := [visitCalc76_0; visitCalc76_1; visitCalc76_2; visitCalc76_3; visitCalc76_4; visitCalc76_5; visitCalc76_6].
Definition visitCalc76 (dbg : bool) : Calc.calculator := Calc.visitCalc dbg Calc76 2.
Definition checkCalc76 (dbg : bool) : Calc.calculator := visitCalc76 dbg.
Definition visitCalc87_0 : wstate Calc.view_update := WState [] false [].
Definition visitCalc87_1 : wstate Calc.view_update := WState [] false [
  WEdge [] self [] [Calc.update 2] 0].
Definition visitCalc87_2 : wstate Calc.view_update := WState [] false [
  WEdge [] tc_pred [] [] 1;
  WEdge [] tj_pred [] [] 1;
  WEdge [] lin_preds [] [] 1;
  WEdge [] rf_pred [] [] 1;
  WEdge [] po_imm_pred [] [] 1;
  WEdge [] tc_pred [] [Calc.updateIdx] 0;
  WEdge [] tj_pred [] [Calc.updateIdx] 0;
  WEdge [] lin_preds [] [Calc.updateIdx] 0;
  WEdge [] rf_pred [] [Calc.updateIdx] 0;
  WEdge [] po_imm_pred [] [Calc.updateIdx] 0].
Definition Calc87 : list (wstate Calc.view_update) := [visitCalc87_0; visitCalc87_1; visitCalc87_2].
Definition visitCalc87 (dbg : bool) : Calc.calculator := Calc.visitCalc dbg Calc87 2.
Definition checkCalc87 (dbg : bool) : Calc.calculator := visitCalc87 dbg.
Definition calculateViews (dbg : bool) (conf : Calc.config) (g : Graph.t) (lab : lid) (st : Calc.t) : res Calc.t :=
  let st := Calc.setViews lab st in
  st ← Calc.addCalc (checkCalc75 dbg) g lab st;
  st ← (if negb (Calc.collectLinSpec conf) && negb (Calc.checkLinSpec conf) then Calc.addEmpty lab st else Calc.addCalc (checkCalc76 dbg) g lab st);
  Calc.addCalc (checkCalc87 dbg) g lab st.
Definition getHbView (g : Graph.t) (st : Calc.t) (lab : lid) : res View.vid := Calc.view g (Calc.calculatedViews st) lab 0.
Definition getPorfView (g : Graph.t) (st : Calc.t) (lab : lid) : res View.vid := Calc.view g (Calc.calculatedViews st) lab 2.
Definition getHbRelincheView (g : Graph.t) (st : Calc.t) (lab : lid) : res View.vid := Calc.view g (Calc.calculatedViews st) lab 1.
Definition calculateSaved (st : Calc.t) : Calc.t := st.
Definition updateMMViews (dbg : bool) (conf : Calc.config) (g : Graph.t) (lab : lid) (st : Calc.t) : res Calc.t :=
  st ← calculateViews dbg conf g lab st; Ok (calculateSaved st).
Definition calcs (conf : Calc.config) : list Calc.entry := [
  Some (Calc75, 2%nat);
  (if negb (Calc.collectLinSpec conf) && negb (Calc.checkLinSpec conf) then None else Some (Calc76, 2%nat));
  Some (Calc87, 2%nat)].

(** ** Coherent placings *)
Definition isWriteRfBefore := Placing.isWriteRfBefore 0.
Definition isHbOptRfBefore := Placing.isHbOptRfBefore 0.
Definition splitLocMOBefore := Placing.splitLocMOBefore 0.
Definition splitLocMOAfterHb := Placing.splitLocMOAfterHb 0.
Definition splitLocMOAfter := Placing.splitLocMOAfter 0.
Definition getCoherentStores := Placing.getCoherentStores 0 isDepTracking.
Definition getMOOptRfAfter := Placing.getMOOptRfAfter.
Definition getMOInvOptRfAfter := Placing.getMOInvOptRfAfter.
Definition getRevisitableFrom {V} `{VectorClock V} (g : Graph.t) := Placing.getRevisitableFrom g (V := V).
Definition filterCoherentRevisits {V} `{VectorClock V} (g : Graph.t) (st : Calc.t) := Placing.filterCoherentRevisits 0 isDepTracking g st (V := V).
Definition getCoherentPlacings := Placing.getCoherentPlacings 0 isDepTracking.

(** ** Coherence *)
Definition visitCoherence_0 : wstate unit := WState [tt] false [].
Definition visitCoherence_1 : wstate unit := WState [] false [
  WEdge [] lin_preds [] [] 8;
  WEdge [] lin_preds [isAtLeastAcquire] [] 10].
Definition visitCoherence_2 : wstate unit := WState [] true [
  WEdge [] lin_preds [isAtLeastAcquire] [] 4;
  WEdge [] po_imm_pred [isAtLeastAcquire] [] 4;
  WEdge [] po_imm_pred [isAtLeastAcquire; isFence] [] 6;
  WEdge [] po_imm_pred [isAtLeastAcquire; isThreadJoin] [] 6;
  WEdge [] tc_pred [] [] 2;
  WEdge [] tj_pred [] [] 2;
  WEdge [] lin_preds [] [] 2;
  WEdge [] po_imm_pred [] [] 2;
  WEdge [] tc_pred [] [] 0;
  WEdge [] tj_pred [] [] 0;
  WEdge [] lin_preds [] [] 0;
  WEdge [] po_imm_pred [] [] 0].
Definition visitCoherence_3 : wstate unit := WState [] true [
  WEdge [] po_imm_pred [isAtLeastAcquire; isAtLeastRelease; isFence] [] 4;
  WEdge [] po_imm_pred [] [] 3;
  WEdge [] po_imm_pred [isAtLeastAcquire; isAtLeastRelease; isFence] [] 6;
  WEdge [] po_imm_pred [isAtLeastRelease; isFence] [] 2;
  WEdge [] po_imm_pred [isAtLeastRelease; isThreadCreate] [] 2;
  WEdge [] po_imm_pred [isAtLeastRelease; isFence] [] 0;
  WEdge [] po_imm_pred [isAtLeastRelease; isThreadCreate] [] 0].
Definition visitCoherence_4 : wstate unit := WState [] true [
  WEdge [] rf_pred [isAtLeastAcquire; isAtLeastRelease] [] 4;
  WEdge [] rf_pred [] [] 3;
  WEdge [] rf_pred [isAtLeastRelease] [] 2;
  WEdge [] rf_pred [isAtLeastRelease] [] 0;
  WEdge [] rf_pred [isWrite; isRMW] [] 5].
Definition visitCoherence_5 : wstate unit := WState [] false [
  WEdge [] po_imm_pred [isRead; isRMW] [] 4].
Definition visitCoherence_6 : wstate unit := WState [] true [
  WEdge [] po_imm_pred [] [] 4;
  WEdge [] po_imm_pred [] [] 6].
Definition visitCoherence_7 : wstate unit := WState [] true [
  WEdge [] rf_pred [isAtLeastAcquire] [] 4;
  WEdge [] co_imm_pred [isAtLeastAcquire] [] 4;
  WEdge [] fr_imm_preds [isAtLeastAcquire] [] 4;
  WEdge [] rf_pred [] [] 2;
  WEdge [] co_imm_pred [] [] 2;
  WEdge [] fr_imm_preds [] [] 2;
  WEdge [] rf_pred [] [] 7;
  WEdge [] co_imm_pred [] [] 7;
  WEdge [] fr_imm_preds [] [] 7].
Definition visitCoherence_8 : wstate unit := WState [] true [
  WEdge [] po_imm_pred [isAtLeastAcquire; isFence] [] 12;
  WEdge [] po_imm_pred [isAtLeastAcquire; isThreadJoin] [] 12;
  WEdge [] tc_pred [] [] 7;
  WEdge [] tj_pred [] [] 7;
  WEdge [] lin_preds [] [] 7;
  WEdge [] po_imm_pred [] [] 7;
  WEdge [] tc_pred [] [] 8;
  WEdge [] tj_pred [] [] 8;
  WEdge [] lin_preds [] [] 8;
  WEdge [] po_imm_pred [] [] 8;
  WEdge [] lin_preds [isAtLeastAcquire] [] 10;
  WEdge [] po_imm_pred [isAtLeastAcquire] [] 10].
Definition visitCoherence_9 : wstate unit := WState [] true [
  WEdge [] po_imm_pred [isAtLeastAcquire; isAtLeastRelease; isFence] [] 12;
  WEdge [] po_imm_pred [] [] 9;
  WEdge [] po_imm_pred [isAtLeastRelease; isFence] [] 7;
  WEdge [] po_imm_pred [isAtLeastRelease; isThreadCreate] [] 7;
  WEdge [] po_imm_pred [isAtLeastRelease; isFence] [] 8;
  WEdge [] po_imm_pred [isAtLeastRelease; isThreadCreate] [] 8;
  WEdge [] po_imm_pred [isAtLeastAcquire; isAtLeastRelease; isFence] [] 10].
Definition visitCoherence_10 : wstate unit := WState [] true [
  WEdge [] rf_pred [] [] 9;
  WEdge [] rf_pred [isWrite; isRMW] [] 11;
  WEdge [] rf_pred [isAtLeastRelease] [] 7;
  WEdge [] rf_pred [isAtLeastRelease] [] 8;
  WEdge [] rf_pred [isAtLeastAcquire; isAtLeastRelease] [] 10].
Definition visitCoherence_11 : wstate unit := WState [] false [
  WEdge [] po_imm_pred [isRead; isRMW] [] 10].
Definition visitCoherence_12 : wstate unit := WState [] true [
  WEdge [] po_imm_pred [] [] 12;
  WEdge [] po_imm_pred [] [] 10].
Definition Coherence : list (wstate unit) := [visitCoherence_0; visitCoherence_1; visitCoherence_2; visitCoherence_3; visitCoherence_4; visitCoherence_5; visitCoherence_6; visitCoherence_7; visitCoherence_8; visitCoherence_9; visitCoherence_10; visitCoherence_11; visitCoherence_12].
Definition visitCoherenceRelinche (g : Graph.t) : res bool := visitMethods Coherence 1 g.
Definition isCoherentRelinche (g : Graph.t) : res bool := visitCoherenceRelinche g.

Lemma imm_consistent1_table : table_ok ConsAcyclic1 19 = true.
Proof. reflexivity. Qed.
Lemma imm_consistent1_total g : checkable g -> total g ConsAcyclic1.
Proof. intros Hc. table_total. Qed.
Lemma imm_consistent2_table : table_ok ConsAcyclic2 17 = true.
Proof. reflexivity. Qed.
Lemma imm_consistent2_total g : checkable g -> total g ConsAcyclic2.
Proof. intros Hc. table_total. Qed.
Lemma imm_coherent_total g : checkable g -> walk_total Coherence g.
Proof. intros Hc. table_total. Qed.
Definition coherent_rank (q : nat) : nat := nth q [0; 0; 0; 0; 0; 0; 0; 0; 0; 0; 0; 0; 0]%nat 0%nat.
Lemma imm_coherent_table : walk_ok Coherence coherent_rank = true.
Proof. reflexivity. Qed.

(** The tables of the views. *)
Lemma imm_calc75 g : linked g -> Calc.calculation g 0 Calc75 2.
Proof. intros Hc. Calc.by_table Hc [0; 1; 2; 0; 2; 0; 0]%nat. Qed.
Lemma imm_calc76 g : linked g -> Calc.calculation g 1 Calc76 2.
Proof. intros Hc. Calc.by_table Hc [0; 1; 2; 0; 2; 0; 0]%nat. Qed.
Lemma imm_calc87 g : linked g -> Calc.calculation g 2 Calc87 2.
Proof. intros Hc. Calc.by_table Hc [0; 1; 2]%nat. Qed.
Lemma imm_calcs conf g k A q : linked g -> calcs conf !! k = Some (Some (A, q)) -> Calc.calculation g k A q.
Proof.
  intros Hc. destruct k as [|[|[|k]]]; cbn; [..|done]; try destruct (_ && _); intros [= <- <-];
    [by apply imm_calc75|by apply imm_calc76|by apply imm_calc87].
Qed.
Lemma imm_calculateViews conf g i st :
  calculateViews false conf g i st = foldM (fun st e => Calc.addEntry e g i st) (Calc.setViews i st) (calcs conf).
Proof.
  unfold calculateViews, calcs. cbn [foldM]. rewrite Calc.three_steps. by destruct (_ && _).
Qed.
(** The shortcut is taken when no other label is sequentially consistent. *)
Lemma imm_unless g i : checkable g -> in_graph g i ->
  exists b, visitUnlessConsAcyclic1 g i = Ok b /\ (b = true <-> forall j, ~ connects g [] other_labels [isSC] i j).
Proof.
  intros Hc Hi. destruct (visit_each_none g other_labels [isSC] i) as (b & Hb & Hn); [by repeat constructor; eauto with checker|by eauto with checker|done|].
  exists b. split; [|done]. unfold visitUnlessConsAcyclic1. change (visitLHSUnlessConsAcyclic1_0 g) with (fun _ : lid => Ok false : res bool) in *.
  unfold visitLHSUnlessConsAcyclic1_1, visitLHSUnlessConsAcyclic1_0. rewrite Hb. cbn [mbind res_bind].
  destruct b; cbn [negb]; [|done]. by rewrite covered_false.
Qed.
End IMMChecker.
