(* ===== verification/Checkers.v ===== *)
(** * The consistency checkers behind one interface

    Models Execution/Consistency/ConsistencyChecker.{hpp,cpp}: the interface that the
    driver calls, its five implementations, and the choice of one by the memory
    model.  The laws of the interface are what the driver relies on: on a checkable
    graph every check returns. *)

From stdpp Require Import relations.
From S2P Require Import Prelude Values Addresses Events VSet Views Labels Graph Relations Cut Search Automata Checkable Scripts GraphUtils Calc Placing.
From S2P Require Import IntervalMap AdaptiveView ExecutionState Errors.
From S2P Require Import SCChecker TSOChecker RAChecker RC11Checker IMMChecker.
Import EventLabel Graph.
Local Open Scope Z_scope.

Module ConsistencyChecker.
Import Search Automaton Checkable.

Inductive ModelType := SC | TSO | RA | RC11 | IMM.
#[global] Instance ModelType_eq_dec : EqDecision ModelType.
Proof. solve_decision. Defined.

(** The operations that decide about a graph. *)
Class Checker := {
  isConsistent_lab : Graph.t -> lid -> res bool;
  isConsistent_graph : Graph.t -> res bool;
  isCoherentRelinche : Graph.t -> res bool;
  isDepTracking : bool;
  (* views; the first argument says whether assertions are compiled in *)
  updateMMViews : bool -> Calc.config -> Graph.t -> lid -> Calc.t -> res Calc.t;
  getCoherentStores : Graph.t -> Calc.t -> lid -> res (list lid);
  getCoherentPlacings : Graph.t -> Calc.t -> lid -> res (list lid);
  filterCoherentRevisits V `{VectorClock V} : Graph.t -> Calc.t -> (Stamp.t -> lid -> res V) -> lid -> list lid -> res (list lid);
  getHbView : Graph.t -> Calc.t -> lid -> res View.vid;
  getHbRelincheView : Graph.t -> Calc.t -> lid -> res View.vid;
  (* errors: the reported label, and the label left in the checker *)
  checkErrors V `{ViewOps V} : ExecutionState.t V -> Graph.t -> Calc.t -> lid -> option lid -> option lid ->
    res (option VerificationError.t * option lid * option lid);
  checkWarnings V `{ViewOps V} : ExecutionState.t V -> Graph.t -> Calc.t -> lid -> list VerificationError.t -> list (option lid) -> option lid ->
    res (list VerificationError.t * list (option lid) * option lid)
}.
Definition create (m : ModelType) : Checker :=
  match m with
  | SC => {| isConsistent_lab := SCChecker.isConsistent_lab; isConsistent_graph := SCChecker.isConsistent_graph;
      isCoherentRelinche := SCChecker.isCoherentRelinche; isDepTracking := SCChecker.isDepTracking;
      updateMMViews := SCChecker.updateMMViews; getCoherentStores := SCChecker.getCoherentStores; getCoherentPlacings := SCChecker.getCoherentPlacings;
      filterCoherentRevisits V _ := SCChecker.filterCoherentRevisits (V := V);
      getHbView := SCChecker.getHbView; getHbRelincheView := SCChecker.getHbRelincheView;
      checkErrors V _ := SCChecker.checkErrors (V := V); checkWarnings V _ := SCChecker.checkWarnings (V := V) |}
  | TSO => {| isConsistent_lab := TSOChecker.isConsistent_lab; isConsistent_graph := TSOChecker.isConsistent_graph;
      isCoherentRelinche := TSOChecker.isCoherentRelinche; isDepTracking := TSOChecker.isDepTracking;
      updateMMViews := TSOChecker.updateMMViews; getCoherentStores := TSOChecker.getCoherentStores; getCoherentPlacings := TSOChecker.getCoherentPlacings;
      filterCoherentRevisits V _ := TSOChecker.filterCoherentRevisits (V := V);
      getHbView := TSOChecker.getHbView; getHbRelincheView := TSOChecker.getHbRelincheView;
      checkErrors V _ := TSOChecker.checkErrors (V := V); checkWarnings V _ := TSOChecker.checkWarnings (V := V) |}
  | RA => {| isConsistent_lab := RAChecker.isConsistent_lab; isConsistent_graph := RAChecker.isConsistent_graph;
      isCoherentRelinche := RAChecker.isCoherentRelinche; isDepTracking := RAChecker.isDepTracking;
      updateMMViews := RAChecker.updateMMViews; getCoherentStores := RAChecker.getCoherentStores; getCoherentPlacings := RAChecker.getCoherentPlacings;
      filterCoherentRevisits V _ := RAChecker.filterCoherentRevisits (V := V);
      getHbView := RAChecker.getHbView; getHbRelincheView := RAChecker.getHbRelincheView;
      checkErrors V _ := RAChecker.checkErrors (V := V); checkWarnings V _ := RAChecker.checkWarnings (V := V) |}
  | RC11 => {| isConsistent_lab := RC11Checker.isConsistent_lab; isConsistent_graph := RC11Checker.isConsistent_graph;
      isCoherentRelinche := RC11Checker.isCoherentRelinche; isDepTracking := RC11Checker.isDepTracking;
      updateMMViews := RC11Checker.updateMMViews; getCoherentStores := RC11Checker.getCoherentStores; getCoherentPlacings := RC11Checker.getCoherentPlacings;
      filterCoherentRevisits V _ := RC11Checker.filterCoherentRevisits (V := V);
      getHbView := RC11Checker.getHbView; getHbRelincheView := RC11Checker.getHbRelincheView;
      checkErrors V _ := RC11Checker.checkErrors (V := V); checkWarnings V _ := RC11Checker.checkWarnings (V := V) |}
  | IMM => {| isConsistent_lab := IMMChecker.isConsistent_lab; isConsistent_graph := IMMChecker.isConsistent_graph;
      isCoherentRelinche := IMMChecker.isCoherentRelinche; isDepTracking := IMMChecker.isDepTracking;
      updateMMViews := IMMChecker.updateMMViews; getCoherentStores := IMMChecker.getCoherentStores; getCoherentPlacings := IMMChecker.getCoherentPlacings;
      filterCoherentRevisits V _ := IMMChecker.filterCoherentRevisits (V := V);
      getHbView := IMMChecker.getHbView; getHbRelincheView := IMMChecker.getHbRelincheView;
      checkErrors V _ s g st := IMMChecker.checkErrors; checkWarnings V _ s g st := IMMChecker.checkWarnings g st |}
  end.

(** What the driver expects of a checker. *)
Class Returns (C : Checker) : Prop := {
  lab_returns g i : checkable g -> in_graph g i -> exists b, isConsistent_lab g i = Ok b;
  graph_returns g : checkable g -> exists b, isConsistent_graph g = Ok b;
  coherent_returns g : checkable g -> exists b, isCoherentRelinche g = Ok b
}.

(** ** The searches and walks of the tables *)
Section searches.
Context (g : Graph.t) (Hc : checkable g).
Lemma full_returns A q : table_ok A q = true -> total g A -> (q < length A)%nat -> exists b, visitFull A g q = Ok b.
Proof.
  intros HA Ht Hq. destruct (visitFull_returns A q g (ck_wf g Hc) (ck_stamped g Hc) HA Ht Hq) as (b & Hb & _). by exists b.
Qed.
Lemma from_returns A q qs i : table_ok A q = true -> total g A -> forallb (fun q => q <? length A)%nat qs = true ->
  in_graph g i -> exists b, visitFrom A g qs i = Ok b.
Proof.
  intros HA Ht Hq Hi. destruct (visitFrom_returns A q g (ck_wf g Hc) (ck_stamped g Hc) HA Ht qs i) as (b & Hb & _); [|done|by exists b].
  rewrite forallb_forall in Hq. apply Forall_forall. intros x Hx. apply Nat.ltb_lt, Hq. by apply list_elem_of_In.
Qed.
Lemma walk_returns A rank q : walk_ok A rank = true -> walk_total A g -> (q < length A)%nat -> exists b, visitMethods A q g = Ok b.
Proof.
  intros HA Ht Hq. destruct (visitMethods_decides A g rank q (ck_wf g Hc) (ck_stamped g Hc) HA Ht Hq) as (b & Hb & _). by exists b.
Qed.
End searches.

#[export] Instance SC_returns : Returns (create SC).
Proof.
  split; cbn [create isConsistent_lab isConsistent_graph isCoherentRelinche].
  - intros g i Hc Hi. by apply (from_returns g Hc _ 0); [|apply SCChecker.sc_consistent_total| |].
  - intros g Hc. by apply (full_returns g Hc); [|apply SCChecker.sc_consistent_total|cbn; lia].
  - intros g Hc. by apply (walk_returns g Hc _ SCChecker.coherent_rank); [|apply SCChecker.sc_coherent_total|cbn; lia].
Qed.
#[export] Instance TSO_returns : Returns (create TSO).
Proof.
  split; cbn [create isConsistent_lab isConsistent_graph isCoherentRelinche].
  - intros g i Hc Hi. by apply (from_returns g Hc _ 3); [|apply TSOChecker.tso_consistent_total| |].
  - intros g Hc. by apply (full_returns g Hc); [|apply TSOChecker.tso_consistent_total|cbn; lia].
  - intros g Hc. by apply (walk_returns g Hc _ TSOChecker.coherent_rank); [|apply TSOChecker.tso_coherent_total|cbn; lia].
Qed.
#[export] Instance RA_returns : Returns (create RA).
Proof.
  split; [by eexists|by eexists|].
  intros g Hc. by apply (walk_returns g Hc _ RAChecker.coherent_rank); [|apply RAChecker.ra_coherent_total|cbn; lia].
Qed.
#[export] Instance RC11_returns : Returns (create RC11).
Proof.
  split; cbn [create isConsistent_lab isConsistent_graph isCoherentRelinche].
  - intros g i Hc Hi. unfold RC11Checker.isConsistent_lab, RC11Checker.checkConsAcyclic1_lab.
    destruct (RC11Checker.rc11_unless g i Hc Hi) as (b & -> & _). cbn [mbind res_bind]. destruct b; [by eexists|].
    by apply (from_returns g Hc _ 19); [|apply RC11Checker.rc11_consistent1_total| |].
  - intros g Hc. by apply (full_returns g Hc); [|apply RC11Checker.rc11_consistent1_total|cbn; lia].
  - intros g Hc. by apply (walk_returns g Hc _ RC11Checker.coherent_rank); [|apply RC11Checker.rc11_coherent_total|cbn; lia].
Qed.
#[export] Instance IMM_returns : Returns (create IMM).
Proof.
  split; cbn [create isConsistent_lab isConsistent_graph isCoherentRelinche].
  - intros g i Hc Hi. unfold IMMChecker.isConsistent_lab.
    assert (exists b, IMMChecker.checkConsAcyclic1_lab g i = Ok b) as [b ->].
    { unfold IMMChecker.checkConsAcyclic1_lab. destruct (IMMChecker.imm_unless g i Hc Hi) as (u & -> & _).
      cbn [mbind res_bind]. destruct u; [by eexists|].
      by apply (from_returns g Hc _ 19); [|apply IMMChecker.imm_consistent1_total| |]. }
    cbn [mbind res_bind]. destruct b; [|by eexists].
    by apply (from_returns g Hc _ 17); [|apply IMMChecker.imm_consistent2_total| |].
  - intros g Hc. unfold IMMChecker.isConsistent_graph.
    assert (exists b, IMMChecker.checkConsAcyclic1_graph g = Ok b) as [b ->]
      by (by apply (full_returns g Hc); [|apply IMMChecker.imm_consistent1_total|cbn; lia]).
    cbn [mbind res_bind]. destruct b; [|by eexists].
    by apply (full_returns g Hc); [|apply IMMChecker.imm_consistent2_total|cbn; lia].
  - intros g Hc. by apply (walk_returns g Hc _ IMMChecker.coherent_rank); [|apply IMMChecker.imm_coherent_total|cbn; lia].
Qed.
#[export] Instance create_returns m : Returns (create m).
Proof. destruct m; apply _. Qed.

(** ** Sequential consistency is the strongest model *)
(** The edges of an automaton follow the edges of the checker for sequential consistency. *)
Definition follows_sc (g : Graph.t) (e : edge) : Prop := forall i ps j, along e g i = Ok ps -> j ∈ ps -> SCChecker.sc_edge g i j.
Lemma rfe_sc g i ps j : rfe_succs g i = Ok ps -> j ∈ ps -> SCChecker.sc_edge g i j.
Proof.
  unfold rfe_succs, Relations.rfe_succs. intros H Hj. destruct (label g i) as [l|]; cbn [mbind res_bind] in H; [|done].
  destruct (Relations.rf_succs g i) as [rs|] eqn:Er; cbn [mbind res_bind] in H; [|done].
  exists rf_succs, rs. split; [by repeat first [left|right]|]. split; [exact Er|]. by apply (filterM_in _ _ _ _ H).
Qed.
Ltac all_follow := repeat constructor; intros i ps j Hps Hj;
  first [by eapply rfe_sc|eexists _, ps; split; [|by split]; by repeat first [left|right]].
Lemma tso_follows g : Forall (fun st => Forall (follows_sc g) (edges st)) TSOChecker.ConsAcyclic1.
Proof. all_follow. Qed.
Lemma rc11_follows g : Forall (fun st => Forall (follows_sc g) (edges st)) RC11Checker.ConsAcyclic1.
Proof. all_follow. Qed.

Section strongest.
Context (g : Graph.t) (Hc : checkable g) (Hsc : SCChecker.isConsistent_graph g = Ok true).
Context (A : automaton) (q : nat) (HA : table_ok A q = true) (Ht : total g A) (Hq : (q < length A)%nat).
Context (Hf : Forall (fun st => Forall (follows_sc g) (edges st)) A).

Lemma sc_no_moves i a : in_graph g i -> ~ tc (moves A g) (a, i) (a, i).
Proof.
  destruct (SCChecker.consistent_order g Hc) as (b & Hb & Ho). rewrite Hsc in Hb. injection Hb as <-.
  destruct (proj1 Ho eq_refl) as (o & Hp & Hbe). assert (Hnd : NoDup o) by (rewrite Hp; apply concat_nodup, Hc).
  assert (Hone : forall x y, in_graph g x.2 -> moves A g x y -> before o x.2 y.2 /\ in_graph g y.2).
  { intros x y Hx (e & He & _ & _ & (ps & Hps & Hy) & _). assert (SCChecker.sc_edge g x.2 y.2) as Hs.
    { rewrite Forall_forall in Hf. specialize (Hf _ (at_state_in A _ (edges_in A _ e He))). rewrite Forall_forall in Hf.
      by apply (Hf e He _ ps). }
    split; [by apply Hbe|]. by apply (SCChecker.sc_edge_in g x.2). }
  intros Hi Hcyc. apply (before_irrefl o i Hnd).
  destruct (tc_on (fun n => in_graph g n.2) _ (fun x y => before o x.2 y.2) Hone (a, i) (a, i) Hi Hcyc) as [H _].
  assert (forall x y, tc (fun x y : nat * lid => before o x.2 y.2) x y -> before o x.2 y.2) as Htr; [|by apply Htr in H].
  intros x y Hxy. induction Hxy as [x y H'|x z y H' _ IH]; [done|by apply (before_trans o _ z.2)].
Qed.
Lemma sc_full : visitFull A g q = Ok true.
Proof.
  destruct (visitFull_returns A q g (ck_wf g Hc) (ck_stamped g Hc) HA Ht Hq) as (b & -> & Hb). destruct b; [done|].
  destruct (Hb eq_refl) as (i & Hi & Hcyc). by apply sc_no_moves in Hcyc.
Qed.
End strongest.

(** C15: A graph that is consistent under SC is consistent under TSO, RA and RC11. *)
Theorem sc_strongest (m : ModelType) (g : Graph.t) : checkable g -> m <> IMM ->
  isConsistent_graph (Checker := create SC) g = Ok true -> isConsistent_graph (Checker := create m) g = Ok true.
Proof.
  intros Hc Hm Hsc. destruct m; [done|..|done].
  - by apply (sc_full g Hc Hsc); [|apply TSOChecker.tso_consistent_total|cbn; lia|apply tso_follows].
  - done.
  - by apply (sc_full g Hc Hsc); [|apply RC11Checker.rc11_consistent1_total|cbn; lia|apply rc11_follows].
Qed.
Lemma sc_strongest_witness :
  let g := Script.message_passing MemOrdering.Release MemOrdering.Acquire 4%nat in
  SCChecker.isConsistent_graph g = Ok true /\ RC11Checker.isConsistent_graph g = Ok true.
Proof.
  split; [vm_compute; reflexivity|]. apply (sc_strongest RC11).
  - exact Script.message_passing_checkable.
  - discriminate.
  - vm_compute. reflexivity.
Defined.

(** C5: On a checkable graph, every check of every memory model returns: the recursive
    visits end, and nothing that they dereference or index is missing. *)
Theorem checks_terminate (m : ModelType) (g : Graph.t) (i : lid) : checkable g -> in_graph g i ->
  exists b c d, isConsistent_graph (Checker := create m) g = Ok b /\ isConsistent_lab (Checker := create m) g i = Ok c /\
    isCoherentRelinche (Checker := create m) g = Ok d.
Proof.
  intros Hc Hi. destruct (graph_returns (C := create m) g Hc) as [b Hb], (lab_returns (C := create m) g i Hc Hi) as [c Hl],
    (coherent_returns (C := create m) g Hc) as [d Hd]. by exists b, c, d.
Qed.
Lemma checks_terminate_witness :
  let g := Script.message_passing MemOrdering.Release MemOrdering.Acquire 4%nat in
  exists b c d, isConsistent_graph (Checker := create IMM) g = Ok b /\ isConsistent_lab (Checker := create IMM) g 7%nat = Ok c /\
    isCoherentRelinche (Checker := create IMM) g = Ok d.
Proof.
  apply (checks_terminate IMM).
  - exact Script.message_passing_checkable.
  - unfold in_graph. apply list_elem_of_In. vm_compute. tauto.
Defined.

(** ** Coherence *)
(** The walking automaton of [visitCoherenceRelinche]. *)
Definition coherence (m : ModelType) : list (wstate unit) :=
  match m with
  | SC => SCChecker.Coherence | TSO => TSOChecker.Coherence | RA => RAChecker.Coherence
  | RC11 => RC11Checker.Coherence | IMM => IMMChecker.Coherence
  end.
(** Only the entry of state 0 acts. *)
Definition only_final (A : list (wstate unit)) : bool :=
  forallb (fun q => (q =? 0)%nat || match w_entry (wstate_at A q) with [] => true | _ => false end) (seq 0 (length A)) &&
  forallb (fun st => forallb (fun e => match w_acts e with [] => true | _ => false end) (w_edges st)) A &&
  bool_decide (w_entry (wstate_at A 0) = [tt]).
Lemma coherence_final m : only_final (coherence m) = true.
Proof. by destruct m. Qed.
Lemma final_runs A g a x j : only_final A = true -> runs A g a x j <-> a = (0%nat, j) /\ x = tt.
Proof.
  intros H. unfold only_final in H. rewrite !andb_true_iff, bool_decide_eq_true in H. destruct H as [[He Ha] H0]. unfold runs. split.
  - intros [[Hx ->]|(e & Hin & Hx & _)].
    + destruct a as [q i]. cbn [fst snd] in *. destruct (decide (q = 0%nat)) as [->|Hq]; [by destruct x|]. exfalso.
      destruct (decide (q < length A)%nat) as [Hlt|Hge].
      * rewrite forallb_forall in He. specialize (He q ltac:(apply in_seq; lia)). rewrite (proj2 (Nat.eqb_neq q 0) Hq) in He. cbn in He.
        destruct (w_entry (wstate_at A q)); [by apply not_elem_of_nil in Hx|done].
      * unfold wstate_at in Hx. rewrite lookup_ge_None_2 in Hx by lia. by apply not_elem_of_nil in Hx.
    + exfalso. unfold wstate_at in Hin. destruct (A !! a.1) as [st|] eqn:E; [|by apply not_elem_of_nil in Hin]. cbn in Hin.
      rewrite forallb_forall in Ha. specialize (Ha st (proj1 (list_elem_of_In _ _) (list_elem_of_lookup_2 _ _ _ E))).
      rewrite forallb_forall in Ha. specialize (Ha e (proj1 (list_elem_of_In _ _) Hin)).
      destruct (w_acts e); [by apply not_elem_of_nil in Hx|done].
  - intros [-> ->]. left. cbn [fst snd]. rewrite H0. split; [by left|done].
Qed.

(** The coherence check of a checkable graph returns, and accepts the graph exactly
    when the automaton leads from no begin of a method back to that begin. *)
Theorem isCoherentRelinche_correct (m : ModelType) (g : Graph.t) : checkable g ->
  exists b, isCoherentRelinche (Checker := create m) g = Ok b /\
    (b = true <-> forall i l, in_graph g i -> store g !! i = Some l -> kind l = Kind.MethodBegin ->
      ~ rtc (walks (coherence m) g) (1%nat, i) (0%nat, i)).
Proof.
  intros Hc. assert (exists rank, walk_ok (coherence m) rank = true) as [rank Hr].
  { destruct m; [by exists SCChecker.coherent_rank|by exists TSOChecker.coherent_rank|by exists RAChecker.coherent_rank|
      by exists RC11Checker.coherent_rank|by exists IMMChecker.coherent_rank]. }
  assert (walk_total (coherence m) g) as Ht.
  { destruct m; [by apply SCChecker.sc_coherent_total|by apply TSOChecker.tso_coherent_total|by apply RAChecker.ra_coherent_total|
      by apply RC11Checker.rc11_coherent_total|by apply IMMChecker.imm_coherent_total]. }
  destruct (visitMethods_decides (coherence m) g rank 1 (ck_wf g Hc) (ck_stamped g Hc) Hr Ht) as (b & Hb & Hdec); [destruct m; cbn; lia|].
  exists b. split; [by destruct m|]. rewrite Hdec. unfold comes_back.
  assert (forall i, (exists a, rtc (walks (coherence m) g) (1%nat, i) a /\ runs (coherence m) g a tt i) <->
    rtc (walks (coherence m) g) (1%nat, i) (0%nat, i)) as Hi; [|by setoid_rewrite Hi].
  intros i. split; [intros (a & Ha & [-> _]%final_runs); [done|apply coherence_final]|].
  intros Hw. exists (0%nat, i). split; [done|]. apply final_runs; [apply coherence_final|done].
Qed.
Lemma isCoherentRelinche_correct_witness :
  let g := Script.message_passing MemOrdering.Release MemOrdering.Acquire 4%nat in
  exists b, isCoherentRelinche (Checker := create RC11) g = Ok b /\
    (b = true <-> forall i l, in_graph g i -> store g !! i = Some l -> kind l = Kind.MethodBegin ->
      ~ rtc (walks (coherence RC11) g) (1%nat, i) (0%nat, i)).
Proof. apply (isCoherentRelinche_correct RC11). exact Script.message_passing_checkable. Defined.

(** ** Views *)
Definition calculateViews (m : ModelType) : bool -> Calc.config -> Graph.t -> lid -> Calc.t -> res Calc.t :=
  match m with
  | SC => SCChecker.calculateViews | TSO => TSOChecker.calculateViews | RA => RAChecker.calculateViews
  | RC11 => RC11Checker.calculateViews | IMM => IMMChecker.calculateViews
  end.
(** The tables of the views, in the order of their indices. *)
Definition calcs (m : ModelType) (conf : Calc.config) : list Calc.entry :=
  match m with
  | SC => SCChecker.calcs conf | TSO => TSOChecker.calcs conf | RA => RAChecker.calcs conf
  | RC11 => RC11Checker.calcs conf | IMM => IMMChecker.calcs conf
  end.
Lemma calcs_exact m conf g k A q : linked g -> calcs m conf !! k = Some (Some (A, q)) -> Calc.calculation g k A q.
Proof.
  destruct m; [apply SCChecker.sc_calcs|apply TSOChecker.tso_calcs|apply RAChecker.ra_calcs|apply RC11Checker.rc11_calcs|apply IMMChecker.imm_calcs].
Qed.
Lemma calculateViews_steps m conf g i st :
  calculateViews m false conf g i st = foldM (fun st e => Calc.addEntry e g i st) (Calc.setViews i st) (calcs m conf).
Proof.
  destruct m; [apply SCChecker.sc_calculateViews|apply TSOChecker.tso_calculateViews|apply RAChecker.ra_calculateViews|
    apply RC11Checker.rc11_calculateViews|apply IMMChecker.imm_calculateViews].
Qed.

(** C6: When the labels of a graph get their views one after the other, each after
    its predecessors, all calculations return and every view is exact: the view of a
    label for a relation contains a later event of a thread exactly when this event is
    the label or comes before it in the transitive closure of the relation. *)
Theorem views_exact (m : ModelType) (conf : Calc.config) (g : Graph.t) (n : lid) (o : list lid) (st : Calc.t) :
  linked g -> Calc.valid st -> Calc.initial_views g st -> getInitLabel g = Ok n ->
  Forall (fun i => in_graph g i /\ Calc.stores g i) o -> Calc.after_preds (Calc.pred_of g (calcs m conf)) [n] o ->
  exists st', foldM (fun st i => calculateViews m false conf g i st) st o = Ok st' /\
    forall i k A q, i ∈ o -> calcs m conf !! k = Some (Some (A, q)) ->
      exists v, Calc.view g (Calc.calculatedViews st') i k = Ok v /\
        forall j l, in_graph g j -> store g !! j = Some l -> 0 < Event.index (position l) ->
          (View.contains (Calc.heap st') v (position l) = Ok true <-> j = i \/ tc (Calc.pre g A q) i j).
Proof.
  intros Hc Hst Hini Hn Hin Hord.
  destruct (Calc.calculate_all g Hc (calcs m conf)) with (o := o) (D := [n]) (st := st) as (st' & Hst' & Hv & _ & Hk); [|done|done|done|..].
  - intros k A q. by apply calcs_exact.
  - intros i k A q ->%list_elem_of_singleton Hk. apply Calc.init_knows; [apply Hc|done..|]. by eapply Calc.c_back, calcs_exact.
  - exists st'. split.
    + rewrite <- Hst'. clear. revert st. induction o as [|i o IH]; intros st; [done|]. cbn [foldM].
      rewrite calculateViews_steps. destruct (foldM _ _ _) as [st1|]; [|done]. cbn [mbind res_bind]. by rewrite IH.
    + intros i k A q Hi Hkq. rewrite Forall_forall in Hin. apply (Calc.knows_contains g Hc k A q st' i); [by eapply calcs_exact|done|by apply Hin|].
      apply Hk; [|done]. apply elem_of_app. by right.
Qed.

(** The message-passing graph under SC: the labels in the order of their addition. *)
Definition mp : Graph.t := Script.message_passing MemOrdering.Release MemOrdering.Acquire 4%nat.
Definition mp_views : Calc.t :=
  let h := View.create (View.create View.empty_store 1%positive) 2%positive in
  Calc.State h {[ 1%nat := [1%positive] ]} {[ 1%nat := 2%positive ]}.
Lemma mp_valid : Calc.valid mp_views.
Proof.
  assert (Hs : forall s v, Calc.slot mp_views s = Some v -> (s = (1%nat, Some 0%nat) /\ v = 1%positive) \/ (s = (1%nat, None) /\ v = 2%positive)).
  { intros [i [n|]] v; unfold Calc.slot; cbn -[lookup singletonM]; (destruct (decide (i = 1%nat)) as [->|Hi];
      [rewrite lookup_singleton_eq|rewrite lookup_singleton_ne by done]); cbn; [..|done].
    - destruct n; [intros [= <-]; by left|done].
    - done.
    - intros [= <-]. by right. }
  split.
  - split; [intros l b Hb; cbn in Hb; by rewrite lookup_empty in Hb|]. intros v x Hx. cbn in Hx.
    apply lookup_insert_Some in Hx as [[_ <-]|[_ Hx]]; [split; [done|by left]|].
    apply lookup_insert_Some in Hx as [[_ <-]|[_ Hx]]; [split; [done|by left]|by rewrite lookup_empty in Hx].
  - intros s v [[_ ->]|[_ ->]]%Hs; by eexists.
  - intros s s' v [[-> ->]|[-> ->]]%Hs [[-> ?]|[-> ?]]%Hs; done.
Qed.
(** The predecessors in a table with a flat start, by evaluation. *)
Lemma sc_preds g : checkable g -> forall i k A q j, calcs SC (Calc.Config false false) !! k = Some (Some (A, q)) -> Calc.pre g A q i j ->
  exists R ps, R ∈ [tc_pred; tj_pred; lin_preds; rf_pred; po_imm_pred] /\ R g i = Ok ps /\ j ∈ ps.
Proof.
  intros Hc i k A q j Hk Hp. assert (Calc.paired k A /\ (2 <= q)%nat /\ Calc.flat_start A q = true /\ Calc.starts_back A q) as (HP & Hq & Hf & _ & Hs).
  { destruct (SCChecker.sc_calcs (Calc.Config false false) g k A q Hc Hk) as [_ _ HP [Hq _] Hs _].
    split; [done|]. split; [done|]. split; [|done]. destruct k as [|[|[|k]]]; cbn in Hk; [injection Hk as <- <-..| |]; done. }
  apply (Calc.flat_found k A HP g q i j Hf Hq) in Hp as (e & He & _ & _ & (ps & Hps & Hj) & _).
  rewrite Forall_forall in Hs. by exists (w_along e), ps; split; [apply Hs|].
Qed.
Ltac sc_order H :=
  cbn [Calc.after_preds app];
  split_and!; try exact I; try (apply (bool_decide_unpack _); vm_compute; exact I);
  let j := fresh "j" in let k := fresh "k" in let A := fresh "A" in let q := fresh "q" in
  let Hk := fresh "Hk" in let Hp := fresh "Hp" in
  intros j (k & A & q & Hk & Hp);
  let R := fresh "R" in let ps := fresh "ps" in let HR := fresh "HR" in let Hps := fresh "Hps" in let Hj := fresh "Hj" in
  destruct (H _ k A q j Hk Hp) as (R & ps & HR & Hps & Hj); clear Hp Hk;
  rewrite !elem_of_cons, elem_of_nil in HR; destruct HR as [->|[->|[->|[->|[->|[]]]]]]; vm_compute in Hps; injection Hps as <-;
  rewrite ?elem_of_cons, ?elem_of_nil in Hj; rewrite !elem_of_cons; tauto.
Lemma mp_order : Calc.after_preds (Calc.pred_of mp (calcs SC (Calc.Config false false))) [1%nat] [2; 3; 4; 5; 6; 7]%nat.
Proof. pose proof (sc_preds mp Script.message_passing_checkable) as H. sc_order H. Qed.
Definition stores_check (g : Graph.t) (i : lid) : bool :=
  match store g !! i with
  | Some l => bool_decide (i ∈ concat (events g)) && negb (Event.isInitializer (position l)) && negb (bool_decide (kind l = Kind.Empty))
  | None => false
  end.
Lemma stores_check_sound g i : stores_check g i = true -> in_graph g i /\ Calc.stores g i.
Proof.
  unfold stores_check. destruct (store g !! i) as [l|] eqn:El; [|done].
  intros [[H1%bool_decide_eq_true H2%negb_true_iff]%andb_prop H3%negb_true_iff%bool_decide_eq_false]%andb_prop.
  split; [done|]. by exists l.
Qed.
Definition uncreated_check (g : Graph.t) (n : lid) : bool :=
  match store g !! n with Some l => bool_decide (createLab l = None) | None => false end.
Lemma uncreated_check_sound g n : uncreated_check g n = true -> Calc.uncreated g n.
Proof. unfold uncreated_check. destruct (store g !! n) as [l|] eqn:El; [|done]. intros H%bool_decide_eq_true. by exists l. Qed.
Lemma mp_labels : Forall (fun i => in_graph mp i /\ Calc.stores mp i) [2; 3; 4; 5; 6; 7]%nat.
Proof. repeat constructor; apply stores_check_sound; vm_compute; reflexivity. Qed.
Lemma mp_initial : Calc.initial_views mp mp_views.
Proof.
  exists 1%nat, 1%positive. split; [vm_compute; reflexivity|].
  split; [apply uncreated_check_sound; vm_compute; reflexivity|]. split; [reflexivity|].
  intros t _. change (Z.max 0 (View.diff_clock Event.getInit t) = 0). by rewrite View.diff_clock_init.
Qed.
Lemma views_exact_witness :
  exists st', foldM (fun st i => calculateViews SC false (Calc.Config false false) mp i st) mp_views [2; 3; 4; 5; 6; 7]%nat = Ok st' /\
    forall i k A q, i ∈ [2; 3; 4; 5; 6; 7]%nat -> calcs SC (Calc.Config false false) !! k = Some (Some (A, q)) ->
      exists v, Calc.view mp (Calc.calculatedViews st') i k = Ok v /\
        forall j l, in_graph mp j -> store mp !! j = Some l -> 0 < Event.index (position l) ->
          (View.contains (Calc.heap st') v (position l) = Ok true <-> j = i \/ tc (Calc.pre mp A q) i j).
Proof.
  apply (views_exact SC (Calc.Config false false) mp 1%nat).
  - exact Script.message_passing_checkable.
  - exact mp_valid.
  - exact mp_initial.
  - vm_compute. reflexivity.
  - exact mp_labels.
  - exact mp_order.
Defined.

(** ** Placings *)
(** The happens-before relation of a model: its table and start, and its view. *)
Definition hb (m : ModelType) : list (wstate Calc.view_update) * nat :=
  match m with
  | SC => (SCChecker.Calc72, 2) | TSO => (TSOChecker.Calc72, 2) | RA => (RAChecker.Calc76, 6)
  | RC11 => (RC11Checker.Calc78, 2) | IMM => (IMMChecker.Calc75, 2)
  end%nat.
Definition hb_index (m : ModelType) : nat := match m with IMM => 0 | _ => 1 end.
Lemma hb_entry m conf : calcs m conf !! hb_index m = Some (Some (hb m)).
Proof. by destruct m. Qed.
Lemma hb_calculation m g : linked g -> Calc.calculation g (hb_index m) (hb m).1 (hb m).2.
Proof. intros Hc. apply (calcs_exact m (Calc.Config false false)); [done|]. rewrite hb_entry. by destruct (hb m). Qed.
Lemma getHbView_index m g st i : getHbView (Checker := create m) g st i = Placing.hb (hb_index m) g st i.
Proof. by destruct m. Qed.
(** The views of all labels are exact. *)
Record exact_views (m : ModelType) (g : Graph.t) (st : Calc.t) : Prop := {
  ev_valid : Calc.valid st;
  ev_hb i : in_graph g i -> Calc.knows g (hb m).1 (hb m).2 (hb_index m) st i
}.
Definition tracks (m : ModelType) : bool := match m with IMM => true | _ => false end.
Lemma stores_model m g st r : tracks m = false ->
  getCoherentStores (Checker := create m) g st r = Placing.getCoherentStores (hb_index m) false g st r.
Proof. by destruct m. Qed.
Lemma placings_model m g st w : getCoherentPlacings (Checker := create m) g st w = Placing.getCoherentPlacings (hb_index m) (tracks m) g st w.
Proof. by destruct m. Qed.
Lemma revisits_model {V} `{VectorClock V} m g st (f : Stamp.t -> lid -> res V) s ls : tracks m = false ->
  filterCoherentRevisits (Checker := create m) V g st f s ls = Placing.filterCoherentRevisits (hb_index m) false g st f s ls.
Proof. by destruct m. Qed.

(** C12: The stores that a read may read from, in the models without dependencies: the
    end of the coherence order of its location, initializer included, that starts with
    the last store of which the store itself or a read from it happens before the read. *)
Theorem coherent_stores_correct (m : ModelType) (g : Graph.t) (st : Calc.t) (n r : lid) (lr : EventLabel.t) :
  m <> IMM -> linked g -> Placing.inside g -> exact_views m g st -> getInitLabel g = Ok n ->
  in_graph g r -> store g !! r = Some lr -> is_Some (Graph.coherence g !! getAddr lr) ->
  exists l1 stores, getCoherentStores (Checker := create m) g st r = Ok stores /\
    n :: list_at (Graph.coherence g) (getAddr lr) = l1 ++ stores /\
    forall p, p ∈ stores <-> Placing.coherent g (hb m).1 (hb m).2 (n :: list_at (Graph.coherence g) (getAddr lr)) r p.
Proof.
  intros Hm Hc Hin [Hv Hk] Hn Hr Hlr Hloc. rewrite stores_model by (by destruct m).
  apply (Placing.getCoherentStores_ok (hb_index m) g st (hb m).1 (hb m).2 Hc (hb_calculation m g Hc) Hv Hk Hin n Hn r lr _ Hr Hlr).
  by apply Relations.at_loc_ok.
Qed.
(** C13: The places where a plain store may go, in the models without dependencies:
    after every store of which the store itself or a read from it happens before it,
    and not between a read-modify-write and its source. *)
Theorem coherent_placings_correct (m : ModelType) (g : Graph.t) (st : Calc.t) (n w : lid) (lw : EventLabel.t) :
  m <> IMM -> linked g -> Placing.inside g -> exact_views m g st -> getInitLabel g = Ok n ->
  in_graph g w -> store g !! w = Some lw -> Class.isRMWWrite (kind lw) = false -> is_Some (Graph.coherence g !! getAddr lw) ->
  exists ps, getCoherentPlacings (Checker := create m) g st w = Ok ps /\
    forall p, p ∈ ps <-> Placing.coherent g (hb m).1 (hb m).2 (n :: list_at (Graph.coherence g) (getAddr lw)) w p /\
      forall s, Placing.next (n :: list_at (Graph.coherence g) (getAddr lw)) p s -> Placing.not_rmw g s.
Proof.
  intros Hm Hc Hin [Hv Hk] Hn Hw Hlw Hrmw Hloc. rewrite placings_model. replace (tracks m) with false by (by destruct m).
  apply (Placing.getCoherentPlacings_ok (hb_index m) g st (hb m).1 (hb m).2 Hc (hb_calculation m g Hc) Hv Hk Hin n Hn w lw _ Hw Hlw Hrmw).
  by apply Relations.at_loc_ok.
Qed.
(** C14: The reads that a store may revisit, in the models without dependencies, are
    those candidates before which no later store and no read from one happens. *)
Theorem coherent_revisits_correct {V} `{VectorClock V} (m : ModelType) (g : Graph.t) (st : Calc.t)
    (f : Stamp.t -> lid -> res V) (s : lid) (ls : list lid) (a : SAddr.t) (n : lid) :
  m <> IMM -> linked g -> Placing.inside g -> exact_views m g st -> getInitLabel g = Ok n ->
  s ∈ list_at (Graph.coherence g) a ->
  (forall r, r ∈ ls -> exists p, in_graph g p /\ Relations.po_imm_pred g r = Ok (Some p)) ->
  exists ls', filterCoherentRevisits (Checker := create m) V g st f s ls = Ok ls' /\
    forall r, r ∈ ls' <-> r ∈ ls /\ forall p w, Relations.po_imm_pred g r = Ok (Some p) ->
      before (list_at (Graph.coherence g) a) s w -> ~ Placing.rf_before g (hb m).1 (hb m).2 p w.
Proof.
  intros Hm Hc Hin [Hv Hk] Hn Hs Hls. rewrite revisits_model by (by destruct m).
  exact (Placing.filterCoherentRevisits_ok (hb_index m) g st (hb m).1 (hb m).2 Hc (hb_calculation m g Hc) Hv Hk Hin n Hn f s ls a Hs Hls).
Qed.

(** The message-passing graph with its SC views. *)
Definition inside_check (g : Graph.t) : bool :=
  Cut.all_labels (fun i l => implies (Class.isMemAccess (kind l)) (0 <? Event.index (position l))) g.
Lemma inside_check_sound g : inside_check g = true -> Placing.inside g.
Proof.
  intros H i l Hi Hl Hk. apply Cut.all_labels_spec with (x := i) (l := l) in H; [|done..]. cbv beta in H. apply (implies_spec _ _ H) in Hk. lia.
Qed.
Lemma mp_inside : Placing.inside mp.
Proof. apply inside_check_sound. vm_compute. reflexivity. Qed.
Lemma mp_exact_views : exists st, exact_views SC mp st.
Proof.
  pose proof (Script.message_passing_checkable : linked mp) as Hc. assert (Hn : getInitLabel mp = Ok 1%nat) by (vm_compute; reflexivity).
  destruct (Calc.calculate_all mp Hc (calcs SC (Calc.Config false false))) with (o := [2; 3; 4; 5; 6; 7]%nat) (D := [1%nat]) (st := mp_views)
    as (st & _ & Hv & _ & Hk); [|exact mp_valid|exact mp_labels|exact mp_order|..].
  - intros k A q. by apply calcs_exact.
  - intros i k A q ->%list_elem_of_singleton Hk. apply Calc.init_knows; [apply Hc|exact mp_valid|exact Hn|exact mp_initial|].
    by eapply Calc.c_back, calcs_exact.
  - exists st. split; [exact Hv|]. intros i Hi. apply (Hk i); [|apply (hb_entry SC)].
    assert (Hall : forall i, i ∈ concat (events mp) -> i ∈ [1; 2; 3; 4; 5; 6; 7]%nat); [|by apply Hall].
    apply Forall_forall. apply (bool_decide_unpack _). vm_compute. exact I.
Qed.
Lemma coherent_stores_correct_witness : exists st l1 stores, getCoherentStores (Checker := create SC) mp st 7%nat = Ok stores /\
  1%nat :: list_at (Graph.coherence mp) Script.loc_x = l1 ++ stores /\
  forall p, p ∈ stores <-> Placing.coherent mp (hb SC).1 (hb SC).2 (1%nat :: list_at (Graph.coherence mp) Script.loc_x) 7%nat p.
Proof.
  destruct mp_exact_views as [st Hst]. exists st.
  apply (coherent_stores_correct SC mp st 1%nat 7%nat (GraphUtils.get mp 7%nat)).
  - done.
  - exact Script.message_passing_checkable.
  - exact mp_inside.
  - exact Hst.
  - vm_compute. reflexivity.
  - apply in_graph_check. vm_compute. reflexivity.
  - apply GraphUtils.get_ok. vm_compute. reflexivity.
  - apply (bool_decide_unpack _). vm_compute. exact I.
Defined.
Lemma coherent_placings_correct_witness : exists st ps, getCoherentPlacings (Checker := create SC) mp st 4%nat = Ok ps /\
  forall p, p ∈ ps <-> Placing.coherent mp (hb SC).1 (hb SC).2 (1%nat :: list_at (Graph.coherence mp) Script.loc_x) 4%nat p /\
    forall s, Placing.next (1%nat :: list_at (Graph.coherence mp) Script.loc_x) p s -> Placing.not_rmw mp s.
Proof.
  destruct mp_exact_views as [st Hst]. exists st.
  apply (coherent_placings_correct SC mp st 1%nat 4%nat (GraphUtils.get mp 4%nat)).
  - done.
  - exact Script.message_passing_checkable.
  - exact mp_inside.
  - exact Hst.
  - vm_compute. reflexivity.
  - apply in_graph_check. vm_compute. reflexivity.
  - apply GraphUtils.get_ok. vm_compute. reflexivity.
  - vm_compute. reflexivity.
  - apply (bool_decide_unpack _). vm_compute. exact I.
Defined.
Lemma coherent_revisits_correct_witness : exists st ls',
  filterCoherentRevisits (Checker := create SC) _ mp st (fun _ _ => Ok (View.empty_store, 1%positive)) 4%nat [7%nat] = Ok ls' /\
  forall r, r ∈ ls' <-> r ∈ [7%nat] /\ forall p w, Relations.po_imm_pred mp r = Ok (Some p) ->
    before (list_at (Graph.coherence mp) Script.loc_x) 4%nat w -> ~ Placing.rf_before mp (hb SC).1 (hb SC).2 p w.
Proof.
  destruct mp_exact_views as [st Hst]. exists st.
  apply (coherent_revisits_correct SC mp st (fun _ _ => Ok (View.empty_store, 1%positive)) 4%nat [7%nat] Script.loc_x 1%nat).
  - done.
  - exact Script.message_passing_checkable.
  - exact mp_inside.
  - exact Hst.
  - vm_compute. reflexivity.
  - apply (bool_decide_unpack _). vm_compute. exact I.
  - intros r ->%list_elem_of_singleton. exists 6%nat. split; [apply in_graph_check; vm_compute; reflexivity|vm_compute; reflexivity].
Defined.
End ConsistencyChecker.
