(* ===== verification/Revisiting.v ===== *)
(** * Which reads a new store revisits

    Models the functions of Verification/GenMCDriver.cpp that decide about backward
    revisits: the candidates ([getRevisitable], [getRevisitableApproximation]), the view
    of what a revisit keeps ([getRevisitView]), and the maximality of what it deletes
    ([isMaximalExtension]), up to the loop of [calcRevisits].  The optimisations that
    run before the loop belong to the driver. *)

From S2P Require Import Prelude Values Addresses Events VSet Views IntervalMap AdaptiveView ExecutionState Labels Graph Relations Cut Search Automata Checkable Scripts GraphUtils Calc Placing Clocks.
From S2P Require Import Errors Revisits SCChecker TSOChecker RAChecker RC11Checker IMMChecker Checkers.
Import EventLabel Graph.
Local Open Scope Z_scope.

Module Revisiting.
Import ConsistencyChecker Clocks.

Section revisiting.
Context {V : Type} `{RevisitView V} {C : Checker} (dbg : bool) (g : Graph.t) (st : Calc.t).

Definition getPrefixView (lab : lid) : res V := rv_prefix dbg g st lab.
Definition contains (v : V) (lab : lid) : res bool := l ← label g lab; vc_contains v (position l).

(** ** Candidates *)
Definition eraseConflictingLoads (sLab : lid) (loads : list lid) : res (list lid) :=
  confLab ← GraphUtils.findPendingRMW g sLab;
  match confLab with None => Ok loads | Some c => Relations.filterM (Placing.before_conflict g c) loads end.
Definition revisitable_outside (before : V) (r : lid) : res bool :=
  l ← label g r; if isStable l then Ok false else b ← vc_contains before (position l); Ok (negb b).
Definition sameloc_read (ls : EventLabel.t) (before : V) (r : lid) : res bool :=
  l ← label g r;
  if Class.isRead (kind l) && bool_decide (getAddr l = getAddr ls) then revisitable_outside before r else Ok false.
(** [find_if] over the writes, the latest first. *)
Fixpoint other_than (pos : Event.t) (ws : list lid) : res (option lid) :=
  match ws with
  | [] => Ok None
  | w :: ws => l ← label g w; if bool_decide (position l = pos) then other_than pos ws else Ok (Some w)
  end.
(** The labels that an iterator visits before it reaches [n]. *)
Fixpoint until (n : lid) (ls : list lid) : res (list lid) :=
  match ls with
  | [] => Abort Undefined
  | x :: ls => if decide (x = n) then Ok [] else r ← until n ls; Ok (x :: r)
  end.
Definition getRevisitable (sLab : lid) (before : V) : res (list lid) :=
  ls ← label g sLab;
  ws ← Relations.rco g (getAddr ls);
  prevCoMax ← other_than (position ls) ws;
  fast ← match prevCoMax with Some p => contains before p | None => Ok false end;
  loads ← (if (fast : bool) then
      p ← deref prevCoMax; lp ← label g p; Relations.filterM (revisitable_outside before) (readerList lp)
    else
      rs ← Relations.suffix_after sLab (Relations.rlabels g); n ← getInitLabel g; rs ← until n rs;
      Relations.filterM (sameloc_read ls before) rs);
  eraseConflictingLoads sLab loads.

(** [std::ranges::sort] with the greater stamps first. *)
Fixpoint with_stamps (ls : list lid) : res (list (Stamp.t * lid)) :=
  match ls with [] => Ok [] | i :: ls => l ← label g i; s ← Cut.getStamp l; r ← with_stamps ls; Ok ((s, i) :: r) end.
Definition newer (a b : Stamp.t * lid) : Prop := b.1 <= a.1.
#[local] Instance newer_dec : RelDecision newer.
Proof. intros a b. unfold newer. apply _. Defined.
Definition sort_by_stamp (ls : list lid) : res (list lid) := ss ← with_stamps ls; Ok (merge_sort newer ss).*2.
(** [g.getViewFromStamp(st)->update(sLab->getPrefixView())] *)
Definition resultingView (st : Stamp.t) (sLab : lid) : res V :=
  v ← rv_fromStamp dbg st g; p ← getPrefixView sLab; rv_update v p.
Definition getRevisitableApproximation (sLab : lid) : res (list lid) :=
  prefix ← getPrefixView sLab;
  loads ← getRevisitable sLab prefix;
  loads ← filterCoherentRevisits V g st resultingView sLab loads;
  sort_by_stamp loads.

(** ** What a revisit keeps *)
(** Views with holes: reads of the prefix bring their sources of the same thread, and
    the reads of read-modify-writes the writes. *)
Definition fill_hole (pporf : V) (preds : V) (e : Event.t) : res V :=
  lab ← getEventLabel g e; l ← label g lab;
  preds ← (if Class.isRead (kind l) then
      b ← vc_contains preds (position l);
      if negb b then Ok preds else
      rf ← deref (readsFrom l); lrf ← label g rf; c ← vc_contains preds (position lrf);
      if negb c && (getThread lrf =? getThread l) then rv_removeHole preds (position lrf) else Ok preds
    else Ok preds);
  if Class.isRMWWrite (kind l) then
    b ← vc_contains pporf (Event.prev (position l));
    if (b : bool) then rv_removeHole preds (position l) else Ok preds
  else Ok preds.
Definition updatePredsWithPrefixView (preds pporf : V) : res V :=
  preds ← rv_update preds pporf;
  if negb rv_isDep then Ok preds else
  n ← vc_size pporf;
  foldM (fun preds i =>
    m ← vc_getMax pporf i; foldM (fun preds j => fill_hole pporf preds (Event.Event i j)) preds (seqZ 1 m)) preds (seqZ 0 n).
Definition getRevisitView (rLab sLab : lid) : res V :=
  r ← label g rLab; preds ← Clocks.getPredsView dbg (position r) g;
  pporf ← getPrefixView sLab; updatePredsWithPrefixView preds pporf.

(** ** Maximal extensions *)
Definition reader_in (v : V) (w : lid) : res bool := l ← label g w; Relations.anyM (contains v) (readerList l).
(** An event of the view that reads from the same store. *)
Definition reads_alike (lb : EventLabel.t) (v : V) (e : Event.t) : res bool :=
  b ← vc_contains v e;
  if negb b then Ok false else
  o ← getReadLabel g e;
  match o with
  | None => Ok false
  | Some m => lm ← label g m; Ok (bool_decide (getAddr lm = getAddr lb) && bool_decide (readsFrom lm = readsFrom lb))
  end.
Fixpoint any_event (f : Event.t -> res bool) (es : list Event.t) : res bool :=
  match es with [] => Ok false | e :: es => b ← f e; if (b : bool) then Ok true else any_event f es end.
Fixpoint any_thread (f : Event.t -> res bool) (v : V) (ids : list Z) : res bool :=
  match ids with
  | [] => Ok false
  | i :: ids =>
      m ← vc_getMax v i; b ← any_event f (map (Event.Event i) (seqZ 0 (m + 1)));
      if (b : bool) then Ok true else any_thread f v ids
  end.
Definition isFixedHoleInView (lab : lid) (v : V) : res bool :=
  l ← label g lab;
  if Class.isWrite (kind l) then reader_in v lab else
  if negb (Class.isRead (kind l)) then Ok false else
  n ← vc_size v; b ← any_thread (reads_alike l v) v (seqZ 0 n);
  if (b : bool) then Ok true else
  rmw ← Relations.read_isRMW g lab;
  if (rmw : bool) then o ← getWriteLabel g (Event.next (position l)); w ← deref o; reader_in v w else Ok false.
Definition prefixContainsSameLoc (rev : Event.t) (lab : lid) : res bool :=
  if negb rv_isDep then Ok false else
  w ← getEventLabel g rev; v ← getPrefixView w; l ← label g lab; m ← vc_getMax v (getThread l);
  if getIndex l <=? m then isFixedHoleInView lab v else Ok false.

(** The coherence successors of a store, or of the source of a read. *)
Definition later_stores (l : EventLabel.t) : res (list lid) :=
  e ← (if Class.isRead (kind l) then rf ← deref (readsFrom l); lrf ← label g rf; Ok (position lrf) else Ok (position l));
  w ← getWriteLabel g e;
  match w with Some w => Relations.co_succs g w | None => Relations.co g (getAddr l) end.
Definition stays_later (rev : Event.t) (v : V) (l : EventLabel.t) (s : lid) : res bool :=
  ls ← label g s;
  if bool_decide (position ls = rev) then Ok false else
  b ← vc_contains v (position ls);
  if negb b then Ok false else
  if negb rv_isDep then Ok true else
  p ← getPrefixView s; m ← vc_getMax p (getThread l); Ok (m <? getIndex l).
Definition isCoBeforeSavedPrefix (rev : Event.t) (v : V) (lab : lid) : res bool :=
  l ← label g lab;
  if negb (Class.isMemAccess (kind l)) then Ok false else
  ss ← later_stores l; Relations.anyM (stays_later rev v l) ss.
Definition coherenceSuccRemainInGraph (rev : Event.t) (v : V) : res bool :=
  o ← getWriteLabel g rev; w ← deref o; l ← label g w;
  if Class.isRMWWrite (kind l) then Ok true else
  ss ← Relations.co_succs g w;
  match ss with [] => Ok true | s :: _ => contains v s end.
Definition wasAddedMaximally (l : EventLabel.t) : bool :=
  if Class.isMemAccess (kind l) then maximal l
  else if Class.isKind Kind.Optional (kind l) then negb (expanded l) else true.
Definition unaffected (pos rev : Event.t) (v : V) (lab : lid) : res bool :=
  l ← label g lab;
  b ← (if bool_decide (position l = pos) then Ok false else vc_contains v (position l));
  if (b : bool) then Ok true else prefixContainsSameLoc rev lab.
Fixpoint all_maximal (pos rev : Event.t) (v : V) (labs : list lid) : res bool :=
  match labs with
  | [] => Ok true
  | lab :: labs =>
      u ← unaffected pos rev v lab;
      if (u : bool) then all_maximal pos rev v labs else
      l ← label g lab;
      if negb (revisitable l) || negb (wasAddedMaximally l) then Ok false else
      b ← isCoBeforeSavedPrefix rev v lab;
      if (b : bool) then Ok false else all_maximal pos rev v labs
  end.
Definition isMaximalExtension (pos rev : Event.t) (v : V) : res bool :=
  b ← coherenceSuccRemainInGraph rev v;
  if negb b then Ok false else all_maximal pos rev v (Relations.labels g).

(** ** The loop of [calcRevisits] *)
Definition constructBackwardRevisit (rLab sLab : lid) : res (Revisit.t V) :=
  r ← label g rLab; s ← label g sLab; v ← getRevisitView rLab sLab;
  Ok (Revisit.Backward (position r) (position s) v).
Fixpoint push_revisits (sLab : lid) (loads : list lid) : res (list (Revisit.t V)) :=
  match loads with
  | [] => Ok []
  | rLab :: loads =>
      r ← label g rLab; s ← label g sLab; v ← getRevisitView rLab sLab;
      ok ← isMaximalExtension (position r) (position s) v;
      if (ok : bool) then brs ← push_revisits sLab loads; Ok (Revisit.Backward (position r) (position s) v :: brs) else Ok []
  end.
End revisiting.

(** ** Ranges *)
Lemma filterM_sublist f l l' : Relations.filterM f l = Ok l' -> l' `sublist_of` l.
Proof.
  revert l'. induction l as [|x l IH]; intros l' E; cbn in E; [by injection E as <-|].
  destruct (f x) as [b|]; [|done]. cbn in E. destruct (Relations.filterM f l) as [l0|]; [|by destruct b].
  destruct b; injection E as <-; [apply sublist_skip|apply sublist_cons]; by apply IH.
Qed.
Lemma until_ok n l1 l2 : n ∉ l1 -> until n (l1 ++ n :: l2) = Ok l1.
Proof.
  induction l1 as [|x l1 IH]; cbn; [by rewrite decide_True|]. intros [Hne Hn]%not_elem_of_cons.
  rewrite decide_False by congruence. by rewrite IH.
Qed.

(** ** What the candidates are *)
Section exact.
Import Checkable.
Context (dbg : bool) (g : Graph.t) (st : Calc.t) (Hc : checkable g).
#[local] Abbreviation Hg := (ck_wf g Hc).
#[local] Abbreviation stamp_of := (Automaton.stamp_of g).
#[local] Abbreviation seen v e := (@vc_contains (list Z) (@rv_clock (list Z) plain) v e).

(** The new store [s], which has just been added, and the clock of its prefix. *)
Context (s : lid) (ls : EventLabel.t) (P : Z -> Z).
Definition in_prefix (x : lid) : Prop := exists l, store g !! x = Some l /\ getIndex l <= P (getThread l).
(** What stays when [s] revisits [r]: the prefix of [s], and what is not newer than [r]. *)
Definition kept (r x : lid) : Prop := in_prefix x \/ stamp_of x <= stamp_of r.
(** [w] comes after [x] in coherence, or after the source of the read [x]. *)
Definition co_after (x w : lid) : Prop := exists l, store g !! x = Some l /\ Class.isMemAccess (kind l) = true /\
  if Class.isRead (kind l) then exists c lc, readsFrom l = Some c /\ store g !! c = Some lc /\
  (if Class.isWrite (kind lc) then Search.before (list_at (Graph.coherence g) (getAddr l)) c w else w ∈ list_at (Graph.coherence g) (getAddr l))
  else Search.before (list_at (Graph.coherence g) (getAddr l)) x w.
(** The label has not been fixed, and was added after everything at its location. *)
Definition freely_maximal (x : lid) : Prop := exists l, store g !! x = Some l /\ revisitable l = true /\ wasAddedMaximally l = true.
(** What a revisit of [r] deletes, with [r] itself, could be added back without any
    choice, and the next store in coherence stays. *)
Definition maximal_revisit (r : lid) : Prop :=
  (Class.isRMWWrite (kind ls) = true \/ forall w, Placing.next (list_at (Graph.coherence g) (getAddr ls)) s w -> kept r w) /\
  forall x, in_graph g x -> x = r \/ ~ kept r x -> freely_maximal x /\ forall w, co_after x w -> w <> s -> ~ kept r w.
(** A write that completes another read-modify-write of the same store. *)
Definition pending (c : lid) : Prop := Class.isRMWWrite (kind ls) = true /\
  exists q r, Relations.po_imm_pred g s = Ok (Some q) /\ GraphUtils.competes g q r /\ GraphUtils.rmw_write g r c.
Definition candidate (r : lid) : Prop := exists l, in_graph g r /\ store g !! r = Some l /\ Class.isRead (kind l) = true /\
  getAddr l = getAddr ls /\ isStable l = false /\ ~ in_prefix r /\ forall c, pending c -> stamp_of r <= stamp_of c.

(** *** The hypotheses *)
Record fresh_store (n : lid) : Prop := {
  fs_in : in_graph g s;
  fs_lab : store g !! s = Some ls;
  fs_write : Class.isWrite (kind ls) = true;
  fs_init : getInitLabel g = Ok n;
  (* the labels are listed in the order of their stamps, [s] last *)
  fs_order : exists mid, insertionOrder g = n :: mid ++ [s];
  fs_sorted : StronglySorted (fun x y => stamp_of x < stamp_of y) (insertionOrder g);
  fs_grow : Cut.stamps_grow g;
  (* nothing has read from [s] yet *)
  fs_unread : readerList ls = [];
  (* the read of a read-modify-write comes before it *)
  fs_rmw : Class.isRMWWrite (kind ls) = true -> exists q lq, Relations.po_imm_pred g s = Ok (Some q) /\
  store g !! q = Some lq /\ Class.isRead (kind lq) = true;
  fs_prefix : exists pv x, Calc.prefixView st !! s = Some pv /\ View.views (Calc.heap st) !! pv = Some x /\
  forall t, 0 <= t -> P t = View.clk (Calc.heap st) pv t
}.
(** Flags are accurate: when a label could be deleted and was added maximally, the
    stores after it in coherence are newer.  The write of a read-modify-write is
    maximal by default; its read then tells, with no revisitable read in between. *)
Definition flags_accurate : Prop := forall x, in_graph g x -> ~ in_prefix x -> freely_maximal x ->
  (forall w, co_after x w -> stamp_of x <= stamp_of w) \/
  exists y, in_graph g y /\ ~ in_prefix y /\ ~ freely_maximal y /\ stamp_of y < stamp_of x /\
  forall z lz, in_graph g z -> store g !! z = Some lz -> stamp_of y < stamp_of z < stamp_of x -> isStable lz = true.

Context (n : lid) (Hs : fresh_store n) (Hst : Calc.valid st).

Lemma read_of x : in_graph g x -> exists l, store g !! x = Some l /\ 0 <= getThread l /\ 0 <= getIndex l /\ stamp l = Some (stamp_of x) /\
  getEventLabel g (position l) = Ok x.
Proof.
  intros Hx. destruct (in_graph_pos g Hg x Hx) as (t & th & k & l & Et & Ek & El & Ep). exists l.
  unfold getThread, getIndex. rewrite Ep. cbn. split; [done|]. split; [lia|]. split; [lia|]. split.
  - destruct (Automaton.st_some g (lk_stamped g (ck_linked g Hc)) x l Hx El) as (sx & Es & _). unfold Automaton.stamp_of. by rewrite El, Es.
  - by apply (getEventLabel_pos g _ _ _ _ Et Ek).
Qed.
Lemma same_position x y lx ly : in_graph g x -> in_graph g y -> store g !! x = Some lx -> store g !! y = Some ly ->
  position lx = position ly -> x = y.
Proof.
  intros Hx Hy Ex Ey E. destruct (read_of x Hx) as (l & El & _ & _ & _ & E1). destruct (read_of y Hy) as (l' & El' & _ & _ & _ & E2).
  simplify_eq. congruence.
Qed.
Lemma stamp_inj x y : in_graph g x -> in_graph g y -> stamp_of x = stamp_of y -> x = y.
Proof.
  intros Hx Hy E. destruct (read_of x Hx) as (l & El & _ & _ & E1 & _). destruct (read_of y Hy) as (l' & El' & _ & _ & E2 & _).
  apply (Automaton.st_inj g (lk_stamped g (ck_linked g Hc)) x y l l'); congruence.
Qed.

Lemma in_order x : x ∈ insertionOrder g <-> in_graph g x.
Proof. apply elem_of_Permutation_proper, (wf_io g Hg). Qed.

(** *** Views *)
Lemma prefix_view : exists p : list Z, getPrefixView dbg g st s = Ok p /\ ViewBase.wf p /\ forall t, 0 <= t -> ViewBase.clock p t = P t.
Proof.
  destruct (fs_prefix n Hs) as (pv & x & Ep & Ex & HP). destruct (prefix_spec dbg g st s pv x (Calc.v_heap st Hst) Ep Ex) as (p & E & Hwf & Hclk).
  exists p. split; [exact E|]. split; [done|]. intros t Ht. by rewrite Hclk, HP.
Qed.
Lemma in_prefix_dec x : in_graph g x -> exists b : bool, b = true <-> in_prefix x.
Proof.
  intros Hx. destruct (read_of x Hx) as (l & El & _). exists (getIndex l <=? P (getThread l)). rewrite Z.leb_le. split; [by exists l|].
  intros (l' & El' & Hle). by simplify_eq.
Qed.
Lemma P_nonneg t : 0 <= t -> 0 <= P t.
Proof. intros Ht. destruct prefix_view as (p & _ & Hwf & E). rewrite <- E by done. by apply ViewBase.clock_nonneg. Qed.
Lemma stamped_labels : Cut.all_stamped g.
Proof. intros x l Hx El. destruct (Automaton.st_some g (lk_stamped g (ck_linked g Hc)) x l Hx El) as (sx & -> & _). by exists sx. Qed.

(** The view of a revisit holds what it keeps. *)
Lemma revisit_view r : in_graph g r -> exists v : list Z, getRevisitView dbg g st r s = Ok v /\
  forall x lx, in_graph g x -> store g !! x = Some lx -> exists b, seen v (position lx) = Ok b /\ (b = true <-> kept r x).
Proof.
  intros Hr. destruct (read_of r Hr) as (lr & Elr & _ & _ & Esr & Epos). destruct prefix_view as (p & Ep & Hp & Hclk).
  destruct (fromStamp_spec dbg (stamp_of r) g Hg stamped_labels) as (v & Ev & Hv & Hvc).
  destruct (ViewBase.update_spec v p Hv Hp) as [Hu Huc]. exists (ViewBase.update v p).
  unfold getRevisitView, Clocks.getPredsView, Cut.getStamp. rewrite (label_ok _ _ _ Elr). cbn [mbind res_bind]. rewrite Epos.
  cbn [mbind res_bind]. rewrite (label_ok _ _ _ Elr). cbn [mbind res_bind]. rewrite Esr. cbn [deref mbind res_bind].
  rewrite Ev. cbn [mbind res_bind]. rewrite Ep. cbn [mbind res_bind]. split; [done|].
  intros x lx Hx Elx. destruct (read_of x Hx) as (l & El & Ht & Hi & Esx & _). assert (l = lx) as -> by congruence.
  cbn [vc_contains rv_clock plain Vec_clock]. rewrite ViewBase.vb_contains_ok by done. eexists. split; [done|].
  rewrite Huc, Hvc, Hclk by done. rewrite Z.leb_le.
  pose proof (Cut.inside_stamp (stamp_of r) g x lx Hg (fs_grow n Hs) Hx Elx) as Hin. unfold Cut.inside, Cut.stamped in Hin.
  rewrite Elx, Esx in Hin. rewrite !Z.leb_le in Hin. pose proof (P_nonneg (getThread lx) Ht).
  unfold kept, in_prefix. split.
  - intros Hle. destruct (decide (getIndex lx <= P (getThread lx))) as [Hle'|Hn]; [left; by exists lx|].
    destruct (proj1 Hin) as [|E0]; [unfold getIndex, getThread in *; lia|by right|]. unfold getIndex in Hn. rewrite E0 in Hn. done.
  - intros [(l & El' & Hle)|Hle].
    + assert (l = lx) as -> by congruence. unfold getIndex, getThread in *. lia.
    + pose proof (proj2 Hin (or_introl Hle)). unfold getIndex, getThread in *. lia.
Qed.

(** *** Maximality *)
Lemma getWriteLabel_ok x l : in_graph g x -> store g !! x = Some l ->
  getWriteLabel g (position l) = Ok (if Class.isWrite (kind l) then Some x else None).
Proof.
  intros Hx El. destruct (read_of x Hx) as (l' & El' & _ & _ & _ & E). assert (l' = l) as -> by congruence.
  unfold getWriteLabel. rewrite E. cbn [mbind res_bind]. unfold dyn_cast. by rewrite (label_ok _ _ _ El).
Qed.
Lemma later_stores_ok x l : in_graph g x -> store g !! x = Some l -> Class.isMemAccess (kind l) = true ->
  exists ws, later_stores g l = Ok ws /\ forall w, w ∈ ws <-> co_after x w.
Proof.
  intros Hx El Hm. unfold later_stores, co_after. destruct (Class.isRead (kind l)) eqn:Er.
  - destruct (ck_source g Hc x l Hx El Er) as (c & lc & Erf & Elc & Hsrc). rewrite Erf. cbn [deref mbind res_bind].
    rewrite (label_ok _ _ _ Elc). cbn [mbind res_bind].
    assert (in_graph g c) as Hic by (by apply (links_read g (ck_linked g Hc) x l c)).
    rewrite (getWriteLabel_ok c lc Hic Elc). cbn [mbind res_bind]. destruct (Class.isWrite (kind lc)) eqn:Ew.
    + destruct (Placing.co_around g (ck_linked g Hc) _ c Hsrc) as (lc' & l2 & Elc' & _ & _ & Eco & Hb). exists l2. split; [done|]. intros w. rewrite Hb. split.
      * intros Hbw. exists l. split; [done|]. split; [done|]. rewrite Er. exists c, lc. rewrite Ew. by repeat split.
      * intros (l0 & El0 & _ & H0). assert (l0 = l) as -> by congruence. rewrite Er in H0. destruct H0 as (c0 & lc0 & Ec0 & Elc0 & H0).
        assert (c0 = c) as -> by congruence. assert (lc0 = lc) as -> by congruence. by rewrite Ew in H0.
    + eexists. split; [apply Relations.at_loc_ok, (wf_loc g Hg x l Hx El); unfold tracked; by rewrite Hm|]. intros w. split.
      * intros Hw. exists l. split; [done|]. split; [done|]. rewrite Er. exists c, lc. rewrite Ew. by repeat split.
      * intros (l0 & El0 & _ & H0). assert (l0 = l) as -> by congruence. rewrite Er in H0. destruct H0 as (c0 & lc0 & Ec0 & Elc0 & H0).
        assert (c0 = c) as -> by congruence. assert (lc0 = lc) as -> by congruence. by rewrite Ew in H0.
  - cbn [mbind res_bind]. rewrite (getWriteLabel_ok x l Hx El).
    assert (Class.isWrite (kind l) = true) as Ew by (clear - Hm Er; by destruct (kind l)). rewrite Ew. cbn [mbind res_bind].
    destruct (Placing.co_around g (ck_linked g Hc) _ x (ck_placed g Hc x l Hx El Ew)) as (lc' & l2 & _ & _ & _ & Eco & Hb).
    exists l2. split; [done|]. intros w. rewrite Hb. split.
    + intros Hbw. exists l. split; [done|]. split; [done|]. by rewrite Er.
    + intros (l0 & El0 & _ & H0). assert (l0 = l) as -> by congruence. by rewrite Er in H0.
Qed.
Lemma co_after_in x w : co_after x w -> in_graph g w.
Proof.
  intros (l & El & _ & Hw). destruct (Class.isRead (kind l)).
  - destruct Hw as (c & lc & _ & _ & Hw). destruct (Class.isWrite (kind lc)).
    + apply Search.before_in in Hw as [_ Hw]. by apply (wf_co g Hg (getAddr l)).
    + by apply (wf_co g Hg (getAddr l)).
  - apply Search.before_in in Hw as [_ Hw]. by apply (wf_co g Hg (getAddr l)).
Qed.

Section revisit.
Context (r : lid) (lr : EventLabel.t) (Hr : in_graph g r) (Elr : store g !! r = Some lr).
Context (v : list Z) (Hv : forall x lx, in_graph g x -> store g !! x = Some lx ->
  exists b, seen v (position lx) = Ok b /\ (b = true <-> kept r x)).
#[local] Abbreviation Els := (fs_lab n Hs).

Lemma isCoBeforeSavedPrefix_ok x l : in_graph g x -> store g !! x = Some l ->
  exists b, isCoBeforeSavedPrefix dbg g st (position ls) v x = Ok b /\ (b = true <-> exists w, co_after x w /\ w <> s /\ kept r w).
Proof.
  intros Hx El. unfold isCoBeforeSavedPrefix. rewrite (label_ok _ _ _ El). cbn [mbind res_bind].
  destruct (Class.isMemAccess (kind l)) eqn:Em; cbn [negb].
  2:{ exists false. split; [done|]. split; [done|]. intros (w & (l0 & El0 & Hm & _) & _). congruence. }
  destruct (later_stores_ok x l Hx El Em) as (ws & -> & Hws). cbn [mbind res_bind].
  destruct (anyM_decides (stays_later dbg g st (position ls) v l) (fun w => w <> s /\ kept r w) ws) as (b & -> & Hb).
  { intros w Hw. apply Hws, co_after_in in Hw as Hiw. destruct (read_of w Hiw) as (lw & Elw & _).
    unfold stays_later. rewrite (label_ok _ _ _ Elw). cbn [mbind res_bind]. case_bool_decide as Ep.
    - exists false. split; [done|]. split; [done|]. intros [Hne _]. exfalso. apply Hne. by apply (same_position w s lw ls Hiw (fs_in n Hs) Elw Els).
    - destruct (Hv w lw Hiw Elw) as (b & -> & Hb). cbn [mbind res_bind]. exists b. split; [by destruct b|]. rewrite Hb.
      split; [|by intros [_ ?]]. intros Hk. split; [|done]. intros ->. apply Ep. pose proof Els. congruence. }
  exists b. split; [done|]. rewrite Hb. split; intros (w & Hw & H'); exists w; (split; [by apply Hws|done]).
Qed.
Lemma freely_maximal_ok x l : store g !! x = Some l ->
  negb (revisitable l) || negb (wasAddedMaximally l) = false <-> freely_maximal x.
Proof.
  intros El. unfold freely_maximal. split.
  - intros [H1%negb_false_iff H2%negb_false_iff]%orb_false_elim. by exists l.
  - intros (l' & El' & H1 & H2). assert (l' = l) as -> by congruence. by rewrite H1, H2.
Qed.
Lemma unaffected_ok x l : in_graph g x -> store g !! x = Some l ->
  exists b, unaffected dbg g st (position lr) (position ls) v x = Ok b /\ (b = false <-> x = r \/ ~ kept r x).
Proof.
  intros Hx El. unfold unaffected. rewrite (label_ok _ _ _ El). cbn [mbind res_bind]. case_bool_decide as Ep.
  - exists false. split; [done|]. split; [|done]. intros _. left. by apply (same_position x r l lr).
  - destruct (Hv x l Hx El) as (b & -> & Hb). cbn [mbind res_bind]. exists b. split; [by destruct b|]. destruct b.
    + split; [done|]. intros [->|Hn]; [congruence|]. exfalso. by apply Hn, Hb.
    + split; [|done]. intros _. right. intros Hk. apply Hb in Hk. done.
Qed.
Lemma all_maximal_ok labs : (forall x, x ∈ labs -> in_graph g x) ->
  exists b, all_maximal dbg g st (position lr) (position ls) v labs = Ok b /\
    (b = true <-> forall x, x ∈ labs -> x = r \/ ~ kept r x -> freely_maximal x /\ forall w, co_after x w -> w <> s -> ~ kept r w).
Proof.
  induction labs as [|x labs IH]; intros Hin; cbn [all_maximal].
  - exists true. split; [done|]. split; [|done]. intros _ x Hx. by apply not_elem_of_nil in Hx.
  - destruct IH as (b & Eb & Hb); [intros y Hy; apply Hin; by right|]. assert (in_graph g x) as Hx by (apply Hin; by left).
    destruct (read_of x Hx) as (l & El & _). destruct (unaffected_ok x l Hx El) as (u & -> & Hu). cbn [mbind res_bind]. destruct u.
    + exists b. split; [done|]. rewrite Hb. split.
      * intros Hall y [->|Hy]%elem_of_cons Hd; [|by apply Hall]. apply Hu in Hd. done.
      * intros Hall y Hy. apply Hall. by right.
    + rewrite (label_ok _ _ _ El). cbn [mbind res_bind]. pose proof (freely_maximal_ok x l El) as Hf.
      destruct (isCoBeforeSavedPrefix_ok x l Hx El) as (c & Ec & Hcb). destruct (_ || _) eqn:E.
      * exists false. split; [done|]. split; [done|]. intros Hall. destruct (Hall x ltac:(by left) (proj1 Hu eq_refl)) as [Hm _].
        apply Hf in Hm. done.
      * rewrite Ec. cbn [mbind res_bind]. destruct c.
        -- exists false. split; [done|]. split; [done|]. intros Hall. destruct (proj1 Hcb eq_refl) as (w & Hw & Hne & Hk).
           destruct (Hall x ltac:(by left) (proj1 Hu eq_refl)) as [_ Hn]. by apply (Hn w) in Hk.
        -- exists b. split; [done|]. rewrite Hb. split.
           ++ intros Hall y [->|Hy]%elem_of_cons Hd; [|by apply Hall]. split; [by apply Hf|]. intros w Hw Hne Hk.
              assert (false = true) by (apply Hcb; by exists w). done.
           ++ intros Hall y Hy. apply Hall. by right.
Qed.
Lemma succ_remains_ok : exists b, coherenceSuccRemainInGraph g (position ls) v = Ok b /\
  (b = true <-> Class.isRMWWrite (kind ls) = true \/ forall w, Placing.next (list_at (Graph.coherence g) (getAddr ls)) s w -> kept r w).
Proof.
  unfold coherenceSuccRemainInGraph. pose proof (fs_in n Hs) as His. pose proof (fs_write n Hs) as Hw.
  rewrite (getWriteLabel_ok s ls His Els), Hw. cbn [mbind res_bind deref]. rewrite (label_ok _ _ _ Els). cbn [mbind res_bind].
  destruct (Class.isRMWWrite (kind ls)); [exists true; split; [done|]; split; [by left|done]|].
  pose proof (ck_placed g Hc s ls His Els Hw) as Hco.
  destruct (co_split g Hc _ s Hco) as (l1 & l2 & El & Hn1 & ->). cbn [mbind res_bind].
  pose proof (wf_co_nodup g Hg (getAddr ls)) as Hnd.
  assert (forall w, Placing.next (list_at (Graph.coherence g) (getAddr ls)) s w <-> head l2 = Some w) as Hnext.
  { intros w. unfold Placing.next. assert (list_at (Graph.coherence g) (getAddr ls) !! length l1 = Some s) as E1
      by (rewrite El; apply list_lookup_middle; done).
    assert (list_at (Graph.coherence g) (getAddr ls) !! S (length l1) = head l2) as E2.
    { rewrite El, lookup_app_r by lia. replace (S (length l1) - length l1)%nat with 1%nat by lia. by destruct l2. }
    split.
    - intros (k & Hk1 & Hk2). pose proof (NoDup_lookup _ _ _ _ Hnd Hk1 E1) as ->. by rewrite <- E2.
    - intros E. exists (length l1). by rewrite E2. }
  destruct l2 as [|w l2].
  - exists true. split; [done|]. split; [|done]. intros _. right. intros w Hw'. by apply Hnext in Hw'.
  - assert (in_graph g w) as Hiw by (apply (wf_co g Hg (getAddr ls)); rewrite El; apply elem_of_app; right; right; left).
    destruct (read_of w Hiw) as (lw & Elw & _). unfold contains. rewrite (label_ok _ _ _ Elw). cbn [mbind res_bind].
    destruct (Hv w lw Hiw Elw) as (b & -> & Hb). exists b. split; [done|]. rewrite Hb. split.
    + intros Hk. right. intros w' Hw'%Hnext. cbn in Hw'. by injection Hw' as <-.
    + intros [?|Hk]; [done|]. apply Hk, Hnext. done.
Qed.
Lemma isMaximalExtension_ok : exists b, isMaximalExtension dbg g st (position lr) (position ls) v = Ok b /\
  (b = true <-> maximal_revisit r).
Proof.
  unfold isMaximalExtension, maximal_revisit. destruct succ_remains_ok as (b & -> & Hb). cbn [mbind res_bind].
  destruct b; cbn [negb]; [|exists false; split; [done|]; split; [done|intros [H0 _]; by apply Hb in H0]].
  destruct (all_maximal_ok (insertionOrder g)) as (c & Ec & Hcc).
  { intros x Hx. by apply in_order. }
  exists c. split; [exact Ec|]. rewrite Hcc. split.
  - intros Hall. split; [by apply Hb|]. intros x Hx. by apply Hall, in_order.
  - intros [_ Hall] x Hx. by apply Hall, in_order.
Qed.
End revisit.

(** *** Candidates *)
#[local] Abbreviation Els := (fs_lab n Hs).
Lemma stamp_le_of x y : GraphUtils.stamp_le g x y -> stamp_of x <= stamp_of y.
Proof. intros (lx & ly & sx & sy & Ex & Ey & Esx & Esy & Hle). unfold Automaton.stamp_of. by rewrite Ex, Ey, Esx, Esy. Qed.
Lemma before_conflict_ok c loads : in_graph g c -> (forall r, r ∈ loads -> in_graph g r) ->
  decides (Placing.before_conflict g c) (fun r => stamp_of r <= stamp_of c) loads.
Proof.
  intros Hic Hl r Hr. destruct (read_of r (Hl r Hr)) as (lr & Elr & _ & _ & Esr & _). destruct (read_of c Hic) as (lc & Elc & _ & _ & Esc & _).
  unfold Placing.before_conflict, Cut.getStamp. rewrite (label_ok _ _ _ Elr). cbn [mbind res_bind]. rewrite (label_ok _ _ _ Elc). cbn [mbind res_bind].
  rewrite Esr. cbn [deref mbind res_bind]. rewrite Esc. cbn [deref mbind res_bind]. eexists. split; [done|]. rewrite negb_true_iff, Z.ltb_ge. done.
Qed.
Lemma eraseConflictingLoads_ok loads : (forall r, r ∈ loads -> in_graph g r) ->
  exists loads', eraseConflictingLoads g s loads = Ok loads' /\ loads' `sublist_of` loads /\
    forall r, r ∈ loads' <-> r ∈ loads /\ forall c, pending c -> stamp_of r <= stamp_of c.
Proof.
  intros Hl. unfold eraseConflictingLoads. destruct (Class.isRMWWrite (kind ls)) eqn:Ermw.
  2:{ assert (GraphUtils.findPendingRMW g s = Ok None) as -> by (unfold GraphUtils.findPendingRMW; rewrite (label_ok _ _ _ Els); cbn [mbind res_bind]; by rewrite Ermw).
      exists loads. split; [done|]. split; [done|]. intros r. split; [|by intros [? _]]. intros Hr. split; [done|]. intros c [Ec _]. congruence. }
  destruct (fs_rmw n Hs Ermw) as (q & lq & Eq & Elq & Erq).
  assert (in_graph g q) as Hq.
  { destruct (po_imm_pred_total g (ck_linked g Hc) s (fs_in n Hs)) as (ps & Eps & Hps). unfold Automaton.po_imm_pred, Automaton.one in Eps.
    rewrite Eq in Eps. cbn in Eps. injection Eps as <-. apply Hps. by left. }
  destruct (ck_source g Hc q lq Hq Elq Erq) as (w & lw & Erf & Elw & Hsrc).
  destruct (GraphUtils.findPendingRMW_ok g (ck_linked g Hc) s ls q lq w Els Ermw Eq Hq Elq Erq Erf) as (o & -> & Ho).
  { intros lw' Elw' Enw. assert (lw' = lw) as -> by congruence. by rewrite Enw in Hsrc. }
  cbn [mbind res_bind]. destruct o as [c|].
  - destruct Ho as [(r0 & Hr0 & Hw0) Hmin]. assert (in_graph g c) as Hic.
    { destruct Hw0 as [_ Hsucc]. destruct Hr0 as (_ & Hir0 & _). destruct (po_imm_succ_in g (ck_linked g Hc) r0 Hir0) as (o & Eo & Hino).
      rewrite Hsucc in Eo. injection Eo as <-. by apply Hino. }
    destruct (filterM_decides _ _ _ (before_conflict_ok c loads Hic Hl)) as (l' & E & Hl'). exists l'. split; [done|].
    split; [by apply filterM_sublist in E|]. intros r. rewrite Hl'. split; intros [Hr Hle]; (split; [done|]).
    + intros c' (_ & q' & r' & Eq' & Hcomp & Hw'). assert (q' = q) as -> by congruence.
      pose proof (stamp_le_of _ _ (Hmin r' c' Hcomp Hw')). lia.
    + apply Hle. split; [done|]. by exists q, r0.
  - exists loads. split; [done|]. split; [done|]. intros r. split; [|by intros [? _]]. intros Hr. split; [done|].
    intros c' (_ & q' & r' & Eq' & Hcomp & _). assert (q' = q) as -> by congruence. by apply Ho in Hcomp.
Qed.

Lemma other_than_ok ws : (forall w, w ∈ ws -> in_graph g w) -> exists o, other_than g (position ls) ws = Ok o /\
  match o with
  | None => forall w, w ∈ ws -> w = s
  | Some m => m <> s /\ exists l1 l2, ws = l1 ++ m :: l2 /\ forall w, w ∈ l1 -> w = s
  end.
Proof.
  induction ws as [|w ws IH]; intros Hin; cbn [other_than].
  - exists None. split; [done|]. intros w Hw. by apply not_elem_of_nil in Hw.
  - assert (in_graph g w) as Hiw by (apply Hin; by left). destruct (read_of w Hiw) as (lw & Elw & _).
    rewrite (label_ok _ _ _ Elw). cbn [mbind res_bind]. case_bool_decide as Ep.
    + assert (w = s) as -> by (by apply (same_position w s lw ls Hiw (fs_in n Hs) Elw Els)).
      destruct IH as (o & Eo & Ho); [intros y Hy; apply Hin; by right|]. exists o. split; [done|]. destruct o as [m|].
      * destruct Ho as (Hm & l1 & l2 & -> & Hl1). split; [done|]. exists (s :: l1), l2. split; [done|]. intros y [->|Hy]%elem_of_cons; [done|by apply Hl1].
      * intros y [->|Hy]%elem_of_cons; [done|by apply Ho].
    + exists (Some w). split; [done|]. split; [intros ->; pose proof Els; congruence|]. exists [], ws. split; [done|]. intros y Hy. by apply not_elem_of_nil in Hy.
Qed.
Lemma revisitable_outside_ok (p : list Z) loads : (forall t, 0 <= t -> ViewBase.clock p t = P t) -> (forall r, r ∈ loads -> in_graph g r) ->
  decides (revisitable_outside (V := list Z) g p) (fun r => lab_is g (fun l => negb (isStable l)) r /\ ~ in_prefix r) loads.
Proof.
  intros Hp Hl r Hr. destruct (read_of r (Hl r Hr)) as (l & El & Ht & _). unfold revisitable_outside. rewrite (label_ok _ _ _ El). cbn [mbind res_bind].
  destruct (isStable l) eqn:Es.
  - exists false. split; [done|]. split; [done|]. intros [(l' & El' & Hn) _]. assert (l' = l) as -> by congruence. by rewrite Es in Hn.
  - cbn [vc_contains rv_clock plain Vec_clock]. rewrite ViewBase.vb_contains_ok, Hp by done. cbn [mbind res_bind]. eexists. split; [done|].
    rewrite negb_true_iff, Z.leb_gt. split.
    + intros Hlt. split; [exists l; by rewrite Es|]. intros (l' & El' & Hle). assert (l' = l) as -> by congruence. unfold getIndex, getThread in *. lia.
    + intros [_ Hn]. apply Z.nle_gt. intros Hle. apply Hn. by exists l.
Qed.
Lemma sameloc_read_ok (p : list Z) loads : (forall t, 0 <= t -> ViewBase.clock p t = P t) -> (forall r, r ∈ loads -> in_graph g r) ->
  decides (sameloc_read (V := list Z) g ls p) (fun r => lab_is g (fun l => Class.isRead (kind l) && bool_decide (getAddr l = getAddr ls)) r /\
    lab_is g (fun l => negb (isStable l)) r /\ ~ in_prefix r) loads.
Proof.
  intros Hp Hl r Hr. destruct (read_of r (Hl r Hr)) as (l & El & _). unfold sameloc_read. rewrite (label_ok _ _ _ El). cbn [mbind res_bind].
  destruct (Class.isRead (kind l) && bool_decide (getAddr l = getAddr ls)) eqn:E.
  - destruct (revisitable_outside_ok p loads Hp Hl r Hr) as (b & -> & Hb). exists b. split; [done|]. rewrite Hb. split; [|by intros [_ ?]].
    intros H0. split; [by exists l|done].
  - exists false. split; [done|]. split; [done|]. intros [(l' & El' & E') _].
    rewrite El in El'. injection El' as <-. by rewrite E in E'.
Qed.
Lemma candidate_iff r : candidate r <-> in_graph g r /\
  lab_is g (fun l => Class.isRead (kind l) && bool_decide (getAddr l = getAddr ls)) r /\
  lab_is g (fun l => negb (isStable l)) r /\ ~ in_prefix r /\ forall c, pending c -> stamp_of r <= stamp_of c.
Proof.
  unfold candidate, lab_is. split.
  - intros (l & Hr & El & E1 & E2 & E3 & Hn & Hp). split; [done|]. split; [exists l; rewrite E1, bool_decide_true by done; done|].
    split; [exists l; by rewrite E3|done].
  - intros (Hr & (l & El & [E1 E2%bool_decide_eq_true]%andb_prop) & (l' & El' & E3%negb_true_iff) & Hn & Hp).
    assert (l' = l) as -> by congruence. by exists l.
Qed.
(** What the fast path leaves out has a later store in the prefix. *)
Definition hopeless (r : lid) : Prop := exists m, co_after r m /\ m <> s /\ in_prefix m.

Lemma last_other m l1 l2 w : rev (list_at (Graph.coherence g) (getAddr ls)) = l1 ++ m :: l2 -> (forall x, x ∈ l1 -> x = s) ->
  w ∈ list_at (Graph.coherence g) (getAddr ls) -> w <> s -> w <> m -> Search.before (list_at (Graph.coherence g) (getAddr ls)) w m.
Proof.
  intros E Hl1 Hw Hws Hwm. assert (list_at (Graph.coherence g) (getAddr ls) = rev l2 ++ m :: rev l1) as E'.
  { rewrite <- (rev_involutive (list_at _ _)), E, rev_app_distr. cbn. by rewrite <- app_assoc. }
  rewrite E' in *. apply elem_of_app in Hw as [Hw|[Hw|Hw]%elem_of_cons].
  - apply list_elem_of_split in Hw as (a & b & ->). exists a, b, (rev l1). by rewrite <- app_assoc.
  - done.
  - exfalso. apply Hws, Hl1. by apply list_elem_of_In, in_rev, list_elem_of_In.
Qed.
Lemma source_co r lr c : in_graph g r -> store g !! r = Some lr -> Class.isRead (kind lr) = true -> readsFrom lr = Some c -> c <> s ->
  getAddr lr = getAddr ls -> forall m l1 l2, rev (list_at (Graph.coherence g) (getAddr ls)) = l1 ++ m :: l2 -> (forall x, x ∈ l1 -> x = s) ->
  c <> m -> co_after r m.
Proof.
  intros Hr Elr Erd Erf Hcs Ea m l1 l2 E Hl1 Hcm. destruct (ck_source g Hc r lr Hr Elr Erd) as (c' & lc & Erf' & Elc & Hsrc).
  assert (c' = c) as -> by congruence. exists lr. split; [done|]. split; [clear - Erd; by destruct (kind lr)|]. rewrite Erd. exists c, lc. split; [done|].
  split; [done|]. rewrite Ea in *. destruct (Class.isWrite (kind lc)).
  - by apply (last_other m l1 l2).
  - apply list_elem_of_In, in_rev. rewrite E. apply in_elt.
Qed.
Lemma reads_other r lr c : in_graph g r -> store g !! r = Some lr -> Class.isRead (kind lr) = true -> readsFrom lr = Some c -> c <> s.
Proof.
  intros Hr Elr Erd Erf ->. destruct (wf_rf g Hg r lr s Hr Elr Erd Erf) as (_ & lw & Elw & Hin).
  assert (lw = ls) as -> by (pose proof Els; congruence). unfold readers_at in Hin. rewrite (fs_write n Hs), (fs_unread n Hs) in Hin.
  by apply not_elem_of_nil in Hin.
Qed.

Lemma getRevisitable_ok (p : list Z) : (forall t, 0 <= t -> ViewBase.clock p t = P t) ->
  exists loads, getRevisitable (V := list Z) g s p = Ok loads /\ NoDup loads /\
    (forall r, r ∈ loads -> candidate r) /\ forall r, candidate r -> r ∈ loads \/ hopeless r.
Proof.
  intros Hp. pose proof (fs_in n Hs) as His. pose proof (fs_write n Hs) as Hw. unfold getRevisitable. rewrite (label_ok _ _ _ Els). cbn [mbind res_bind].
  assert (is_Some (Graph.coherence g !! getAddr ls)) as Hloc.
  { apply (wf_loc g Hg s ls His Els). unfold tracked. assert (Class.isMemAccess (kind ls) = true) as -> by (clear - Hw; by destruct (kind ls)). done. }
  set (c := list_at (Graph.coherence g) (getAddr ls)). assert (Relations.rco g (getAddr ls) = Ok (rev c)) as ->
    by (unfold Relations.rco; by rewrite (Relations.at_loc_ok _ _ Hloc)). cbn [mbind res_bind].
  assert (forall w, w ∈ rev c -> w ∈ c) as Hrev by (intros w Hin; by apply list_elem_of_In, in_rev, list_elem_of_In).
  destruct (other_than_ok (rev c)) as (o & -> & Ho).
  { intros w Hin%Hrev. by apply (wf_co g Hg (getAddr ls)). }
  cbn [mbind res_bind].
  assert (exists fast, match o with Some m => contains (V := list Z) g p m | None => Ok false end = Ok fast /\
    (fast = true -> exists m, o = Some m /\ in_prefix m)) as (fast & -> & Hfast).
  { destruct o as [m|]; [|by exists false]. destruct Ho as (Hms & l1 & l2 & E & _).
    assert (in_graph g m) as Him by (apply (wf_co g Hg (getAddr ls)), Hrev; rewrite E; apply elem_of_app; right; left).
    destruct (read_of m Him) as (lm & Elm & Ht & _). unfold contains. rewrite (label_ok _ _ _ Elm). cbn [mbind res_bind vc_contains rv_clock plain Vec_clock].
    rewrite ViewBase.vb_contains_ok, Hp by done. eexists. split; [done|]. intros Hle%Z.leb_le. exists m. split; [done|]. by exists lm. }
  cbn [mbind res_bind]. destruct fast.
  - destruct (Hfast eq_refl) as (m & -> & Hm). destruct Ho as (Hms & l1 & l2 & E & Hl1). cbn [deref mbind res_bind].
    assert (m ∈ c) as Hmc by (apply Hrev; rewrite E; apply elem_of_app; right; left).
    destruct (wf_co g Hg (getAddr ls) m Hmc) as (Him & lm & Elm & Ewm & Eam). rewrite (label_ok _ _ _ Elm). cbn [mbind res_bind].
    assert (readers_at lm (getAddr ls) = readerList lm) as Erd by (unfold readers_at; by rewrite Ewm).
    assert (forall r, r ∈ readerList lm -> in_graph g r /\ exists lr, store g !! r = Some lr /\ Class.isRead (kind lr) = true /\ readsFrom lr = Some m) as Hrd.
    { intros r Hr. rewrite <- Erd in Hr. destruct (wf_readers g Hg m lm _ r Him Elm Hr) as (Hir & lr & E1 & E2 & E3 & _). split; [done|]. by exists lr. }
    destruct (filterM_decides _ _ _ (revisitable_outside_ok p (readerList lm) Hp (fun r Hr => proj1 (Hrd r Hr)))) as (rs & Ers & Hrs).
    rewrite Ers. cbn [mbind res_bind].
    destruct (eraseConflictingLoads_ok rs) as (loads & -> & Hsub & Hloads); [intros r Hr; by apply Hrd, Hrs|]. exists loads. split; [done|]. split.
    { eapply sublist_NoDup; [|exact Hsub]. eapply sublist_NoDup; [|by apply filterM_sublist in Ers].
      rewrite <- Erd. by apply (wf_readers_nodup g Hg m). }
    split.
    + intros r Hr. apply Hloads in Hr as [Hr Hpend]. apply Hrs in Hr as [Hr [Hst' Hout]]. destruct (Hrd r Hr) as (Hir & lr & Elr & Eread & Erf).
      apply candidate_iff. split; [done|]. split; [|done]. exists lr. split; [done|]. rewrite Eread, bool_decide_true; [done|].
      destruct (ck_source g Hc r lr Hir Elr Eread) as (m' & lm' & Erf' & Elm' & Hsrc). assert (m' = m) as -> by congruence.
      assert (lm' = lm) as -> by congruence. rewrite Ewm in Hsrc. destruct (wf_co g Hg _ m Hsrc) as (_ & lm' & Elm2 & _ & Ea2).
      assert (lm' = lm) as -> by congruence. congruence.
    + intros r Hr. pose proof Hr as (Hir & (lr & Elr & [Eread Ea%bool_decide_eq_true]%andb_prop) & Hst' & Hout & Hpend)%candidate_iff.
      destruct (ck_source g Hc r lr Hir Elr Eread) as (w & lw & Erf & Elw & _).
      destruct (decide (w = m)) as [->|Hne].
      * left. apply Hloads. split; [|done]. apply Hrs. split; [|done]. rewrite <- Erd.
        destruct (wf_rf g Hg r lr m Hir Elr Eread Erf) as (_ & lm' & Elm' & Hin). assert (lm' = lm) as -> by congruence. congruence.
      * right. exists m. split; [|done]. by apply (source_co r lr w Hir Elr Eread Erf (reads_other r lr w Hir Elr Eread Erf) Ea m l1 l2).
  - destruct (fs_order n Hs) as (mid & Eio).
    assert (NoDup (n :: mid ++ [s])) as Hnd by (rewrite <- Eio, (wf_io g Hg); apply (concat_nodup g Hg)).
    assert (Relations.rlabels g = s :: rev mid ++ [n]) as -> by (unfold Relations.rlabels; rewrite Eio; cbn; by rewrite rev_app_distr).
    cbn [Relations.suffix_after]. rewrite decide_True by done. cbn [mbind res_bind]. rewrite (fs_init n Hs). cbn [mbind res_bind].
    apply NoDup_cons in Hnd as [Hn Hnd]. apply NoDup_app in Hnd as (Hnd & Hdis & _).
    rewrite until_ok by (rewrite list_elem_of_In, <- in_rev, <- list_elem_of_In; set_solver). cbn [mbind res_bind].
    assert (forall r, r ∈ rev mid <-> in_graph g r /\ r <> n /\ r <> s) as Hmid.
    { intros r. rewrite <- in_order, Eio, list_elem_of_In, <- in_rev, <- list_elem_of_In, elem_of_cons, elem_of_app, list_elem_of_singleton. split.
      - intros Hr. split; [by right; left|]. split; [intros ->; set_solver|]. intros ->. by apply (Hdis s); [|left].
      - intros [[?|[?|?]] [? ?]]; done. }
    destruct (filterM_decides _ _ _ (sameloc_read_ok p (rev mid) Hp (fun r Hr => proj1 (proj1 (Hmid r) Hr)))) as (rs & Ers & Hrs).
    rewrite Ers. cbn [mbind res_bind].
    destruct (eraseConflictingLoads_ok rs) as (loads & -> & Hsub & Hloads); [intros r Hr; by apply Hmid, Hrs|]. exists loads. split; [done|]. split.
    { eapply sublist_NoDup; [|exact Hsub]. eapply sublist_NoDup; [|by apply filterM_sublist in Ers]. by rewrite <- Permutation_rev. }
    split.
    + intros r Hr. apply Hloads in Hr as [Hr Hpend]. apply Hrs in Hr as [Hr (H1 & H2 & H3)]. apply candidate_iff. split; [by apply Hmid|done].
    + intros r Hr. left. apply candidate_iff in Hr as (Hir & H1 & H2 & H3 & H4). apply Hloads. split; [|done]. apply Hrs. split; [|done].
      apply Hmid. split; [done|]. destruct H1 as (lr & Elr & [Eread _]%andb_prop). split.
      * intros ->. destruct (wf_init g Hg) as (n' & ln & En & Eln & Ek). pose proof (fs_init n Hs) as Hn0. assert (n' = n) as -> by congruence.
        assert (ln = lr) as -> by congruence. by rewrite Ek in Eread.
      * intros ->. pose proof Els. assert (lr = ls) as -> by congruence. clear - Hw Eread. by destruct (kind ls).
Qed.

(** *** The loop *)
(** The backward revisit of [r] by [s]: its view holds what it keeps. *)
Definition backward_to (r : lid) (br : Revisit.t (list Z)) : Prop := exists lr v, store g !! r = Some lr /\
  br = Revisit.Backward (position lr) (position ls) v /\
  forall x lx, in_graph g x -> store g !! x = Some lx -> exists b, vc_contains v (position lx) = Ok b /\ (b = true <-> kept r x).
Lemma push_revisits_ok rs : (forall r, r ∈ rs -> in_graph g r) ->
  exists k brs, push_revisits dbg g st s rs = Ok brs /\ Forall2 backward_to (take k rs) brs /\
    (forall r, r ∈ take k rs -> maximal_revisit r) /\ forall r, rs !! k = Some r -> ~ maximal_revisit r.
Proof.
  induction rs as [|r rs IH]; intros Hin; cbn [push_revisits].
  - exists 0%nat, []. split; [done|]. split; [constructor|]. split; [|done]. intros r Hr. by apply not_elem_of_nil in Hr.
  - assert (in_graph g r) as Hr by (apply Hin; by left). destruct (read_of r Hr) as (lr & Elr & _).
    rewrite (label_ok _ _ _ Elr). cbn [mbind res_bind]. rewrite (label_ok _ _ _ Els). cbn [mbind res_bind].
    destruct (revisit_view r Hr) as (v & -> & Hv). cbn [mbind res_bind].
    destruct (isMaximalExtension_ok r lr Hr Elr v Hv) as (b & -> & Hb). cbn [mbind res_bind]. destruct b.
    + destruct IH as (k & brs & -> & Hbrs & Hmax & Hnot); [intros y Hy; apply Hin; by right|]. exists (S k). eexists. split; [done|]. cbn [take].
      split; [constructor; [by exists lr, v|done]|]. split; [|exact Hnot].
      intros y [->|Hy]%elem_of_cons; [by apply Hb|by apply Hmax].
    + exists 0%nat, []. split; [done|]. split; [constructor|]. split; [intros y Hy; by apply not_elem_of_nil in Hy|].
      intros y [= <-] Hm. apply Hb in Hm. done.
Qed.

(** When an older read can be revisited, so can the newer candidates. *)
Lemma candidate_freely r : candidate r -> freely_maximal r.
Proof.
  intros (l & _ & El & Er & _ & Es & _). exists l. split; [done|]. unfold isStable in Es. apply orb_false_elim in Es as [E1 E2].
  apply negb_false_iff in E1. split; [done|]. unfold wasAddedMaximally.
  assert (Class.isMemAccess (kind l) = true) as Em by (clear - Er; by destruct (kind l)). rewrite Em in *. by apply negb_false_iff in E2.
Qed.
Lemma co_after_write x w : co_after x w -> exists lw, store g !! w = Some lw /\ Class.isWrite (kind lw) = true.
Proof.
  intros (l & El & _ & Hw). assert (w ∈ list_at (Graph.coherence g) (getAddr l)) as Hin.
  { destruct (Class.isRead (kind l)).
    - destruct Hw as (c & lc & _ & _ & Hw). destruct (Class.isWrite (kind lc)); [by apply Search.before_in in Hw as [_ Hw]|done].
    - by apply Search.before_in in Hw as [_ Hw]. }
  destruct (wf_co g Hg _ w Hin) as (_ & lw & Elw & Hlw & _). by exists lw.
Qed.
Lemma maximal_newer r1 r2 : flags_accurate -> candidate r1 -> candidate r2 -> stamp_of r2 < stamp_of r1 ->
  maximal_revisit r2 -> maximal_revisit r1.
Proof.
  intros Hflags H1 H2 Hlt [Hsucc Hall]. assert (forall x, kept r2 x -> kept r1 x) as Hk by (intros x [?|?]; [by left|right; lia]).
  destruct H1 as (l1 & Hr1 & El1 & Erd1 & _ & _ & Hout1 & _).
  split; [destruct Hsucc as [?|Hn]; [by left|right; intros w Hw; by apply Hk, Hn]|]. intros x Hx Hdel.
  assert (~ in_prefix x) as Hxp by (destruct Hdel as [->|Hn]; [done|intros Hp; apply Hn; by left]).
  assert (stamp_of r1 <= stamp_of x) as Hsx by (destruct Hdel as [->|Hn]; [done|destruct (decide (stamp_of x <= stamp_of r1)); [exfalso; apply Hn; by right|lia]]).
  assert (~ kept r2 x) as Hdel2 by (intros [?|?]; [done|lia]).
  destruct (Hall x Hx (or_intror Hdel2)) as [Hfree Hnot]. split; [done|]. intros w Hw Hws Hkw.
  apply (Hnot w Hw Hws). destruct Hkw as [?|Hle]; [by left|]. exfalso. destruct (Hflags x Hx Hxp Hfree) as [Hacc|(y & Hy & Hyp & Hyn & Hyx & Hbet)].
  - pose proof (Hacc w Hw). assert (w = r1) as -> by (apply stamp_inj; [by apply (co_after_in x)|done|lia]).
    destruct (co_after_write x r1 Hw) as (lw & Elw & Eww). assert (lw = l1) as -> by congruence. clear - Erd1 Eww. by destruct (kind l1).
  - destruct (decide (stamp_of r2 < stamp_of y)) as [Hlt'|Hge].
    + apply Hyn, (Hall y Hy). right. intros [?|?]; [done|lia].
    + destruct (decide (stamp_of y = stamp_of r2)) as [E|Hne].
      * apply Hyn. assert (y = r2) as -> by (apply stamp_inj; [done|by destruct H2 as (? & ? & _)|done]). by apply candidate_freely.
      * destruct H2 as (l2 & Hr2 & El2 & _ & _ & Est2 & _). rewrite (Hbet r2 l2 Hr2 El2) in Est2 by lia. done.
Qed.
Lemma hopeless_not_maximal r : candidate r -> hopeless r -> ~ maximal_revisit r.
Proof.
  intros (l & Hr & _) (m & Hm & Hms & Hp) [_ Hall]. destruct (Hall r Hr (or_introl eq_refl)) as [_ Hn]. apply (Hn m Hm Hms). by left.
Qed.

(** *** Sorting *)
Lemma with_stamps_ok rs : (forall r, r ∈ rs -> in_graph g r) -> with_stamps g rs = Ok (map (fun r => (stamp_of r, r)) rs).
Proof.
  induction rs as [|r rs IH]; intros Hin; cbn [with_stamps map]; [done|]. destruct (read_of r (Hin r ltac:(by left))) as (l & El & _ & _ & Es & _).
  rewrite (label_ok _ _ _ El). cbn [mbind res_bind]. unfold Cut.getStamp. rewrite Es. cbn [deref mbind res_bind].
  rewrite IH by (intros y Hy; apply Hin; by right). done.
Qed.
#[local] Instance newer_total : Total newer.
Proof. intros a b. destruct (Z.le_ge_cases b.1 a.1); [by left|by right]. Qed.
Lemma sort_by_stamp_ok loads : (forall r, r ∈ loads -> in_graph g r) -> NoDup loads ->
  exists rs, sort_by_stamp g loads = Ok rs /\ rs ≡ₚ loads /\ StronglySorted (fun a b => stamp_of b < stamp_of a) rs.
Proof.
  intros Hin Hnd. unfold sort_by_stamp. rewrite with_stamps_ok by done. cbn [mbind res_bind]. eexists. split; [done|].
  set (ss := merge_sort newer (map (fun r => (stamp_of r, r)) loads)).
  assert (ss ≡ₚ map (fun r => (stamp_of r, r)) loads) as Hp by apply merge_sort_Permutation.
  assert (ss.*2 ≡ₚ loads) as Hp2 by (rewrite Hp, <- list_fmap_compose; cbn; by rewrite list_fmap_id).
  split; [done|].
  assert (StronglySorted newer ss) as Hss by (apply Sorted_StronglySorted; [intros a b c H1 H2; exact (Z.le_trans _ _ _ H2 H1)|by apply (Sorted_merge_sort newer)]).
  assert (forall x : Stamp.t * lid, x ∈ ss -> x.1 = stamp_of x.2 /\ in_graph g x.2) as Hx.
  { intros x Hx. rewrite Hp in Hx. apply list_elem_of_fmap in Hx as (r & -> & Hr). split; [done|by apply Hin]. }
  assert (NoDup (ss.*2)) as Hnd' by (by rewrite Hp2). clear Hp Hp2. clearbody ss.
  induction ss as [|x ss IH]; [constructor|]. apply StronglySorted_inv in Hss as [Hss Hf]. cbn in Hnd'. apply NoDup_cons in Hnd' as [Hxn Hnd'].
  cbn. constructor; [apply IH; [done|intros y Hy; apply Hx; by right|done]|]. rewrite Forall_forall in Hf. apply Forall_forall. intros y Hy.
  apply list_elem_of_fmap in Hy as (z & -> & Hz). pose proof (Hf z Hz) as Hle. unfold newer in Hle.
  destruct (Hx x ltac:(by left)) as [E1 I1]. destruct (Hx z ltac:(by right)) as [E2 I2].
  rewrite E1, E2 in Hle. assert (stamp_of z.2 <> stamp_of x.2); [|lia]. intros E. apply Hxn. rewrite <- (stamp_inj z.2 x.2 I2 I1 E). by apply list_elem_of_fmap_2.
Qed.
End exact.

Lemma filterCoherent_sublist {V} `{VectorClock V} hbv g st (f : Stamp.t -> lid -> res V) s rs rs' :
  Placing.filterCoherentRevisits hbv false g st f s rs = Ok rs' -> rs' `sublist_of` rs.
Proof.
  unfold Placing.filterCoherentRevisits. intros E. res_inv. cbn [negb andb] in *.
  case_bool_decide; [by simplify_eq|]. res_inv. cbn [negb] in *. simplify_eq. by eapply filterM_sublist.
Qed.
(** Before [r], neither a store after [s] in coherence nor a read from one happens. *)
Definition coherent_revisit (m : ModelType) (g : Graph.t) (s : lid) (ls : EventLabel.t) (r : lid) : Prop :=
  forall p w, Relations.po_imm_pred g r = Ok (Some p) -> Search.before (list_at (Graph.coherence g) (getAddr ls)) s w ->
    ~ Placing.rf_before g (hb m).1 (hb m).2 p w.

(** C11: After a store has been added, the loop of [calcRevisits] constructs backward
    revisits for exactly those reads of its location, the newest first, that are
    outside its prefix, have not been fixed, read maximally, are not newer than a
    competing read-modify-write, may read from the store coherently, and whose revisit
    deletes only labels that were added maximally: the shortcut for a store whose
    predecessor in coherence is in its prefix, and the end of the loop at the first
    failure, lose none.  The view of each holds exactly what the revisit keeps. *)
Theorem backward_revisits_correct (m : ModelType) (dbg : bool) (g : Graph.t) (st : Calc.t) (s n : lid) (ls : EventLabel.t) (P : Z -> Z) :
  m <> IMM -> Checkable.checkable g -> Placing.inside g -> exact_views m g st -> fresh_store g st s ls P n -> flags_accurate g P ->
  exists loads rs brs, getRevisitableApproximation (C := create m) (V := list Z) dbg g st s = Ok loads /\
    push_revisits dbg g st s loads = Ok brs /\ Forall2 (backward_to g ls P) rs brs /\
    StronglySorted (fun a b => Automaton.stamp_of g b < Automaton.stamp_of g a) rs /\
    forall r, r ∈ rs <-> candidate g s ls P r /\ coherent_revisit m g s ls r /\ maximal_revisit g s ls P r.
Proof.
  intros Hm Hc Hins [Hv Hkn] Hs Hflags. pose proof (Checkable.ck_wf g Hc) as Hg. destruct (prefix_view dbg g st s ls P n Hs Hv) as (p & Ep & Hwf & Hp).
  destruct (getRevisitable_ok g st Hc s ls P n Hs Hv p Hp) as (loads0 & E0 & Hnd0 & Hcand0 & Hall0).
  pose proof (Checkable.ck_placed g Hc s ls (fs_in _ _ _ _ _ _ Hs) (fs_lab _ _ _ _ _ _ Hs) (fs_write _ _ _ _ _ _ Hs)) as Hco.
  destruct (Placing.filterCoherentRevisits_ok (hb_index m) g st (hb m).1 (hb m).2 (Checkable.ck_linked g Hc) (hb_calculation m g (Checkable.ck_linked g Hc))
    Hv Hkn Hins n (fs_init _ _ _ _ _ _ Hs) (resultingView (V := list Z) dbg g st) s loads0 _ Hco) as (loads1 & E1 & H1).
  { intros r Hr. destruct (Hcand0 r Hr) as (l & Hir & El & Er & _). destruct (in_graph_pos g Hg r Hir) as (t & th & k & l' & Et & Ek & El' & Epos).
    assert (l' = l) as -> by congruence. assert (Class.isMemAccess (kind l) = true) as Em by (clear - Er; by destruct (kind l)).
    pose proof (Hins r l Hir El Em) as Hpos. rewrite Epos in Hpos. cbn in Hpos. destruct k as [|k]; [lia|].
    destruct (lookup_lt_is_Some_2 th k) as [q Hq]; [apply lookup_lt_Some in Ek; lia|]. exists q. split; [apply elem_concat; eauto|].
    rewrite (Relations.po_imm_pred_ok g Hg r l t th (S k) El Et Ek), decide_False by done. cbn. by rewrite Hq. }
  pose proof (filterCoherent_sublist _ _ _ _ _ _ _ E1) as Hsub. assert (NoDup loads1) as Hnd1 by (by eapply sublist_NoDup).
  assert (forall r, r ∈ loads1 -> candidate g s ls P r) as Hcand1 by (intros r Hr; apply Hcand0, H1, Hr).
  assert (forall r, candidate g s ls P r -> in_graph g r) as Hig by (by intros r (l & Hr & _)).
  destruct (sort_by_stamp_ok g Hc loads1 (fun r Hr => Hig r (Hcand1 r Hr)) Hnd1) as (loads & E2 & Hperm & Hsort).
  destruct (push_revisits_ok dbg g st Hc s ls P n Hs Hv loads) as (k & brs & E3 & Hbrs & Hmax & Hnot).
  { intros r Hr. apply Hig, Hcand1. by rewrite <- Hperm. }
  exists loads, (take k loads), brs. unfold getRevisitableApproximation. rewrite Ep. cbn [mbind res_bind]. rewrite E0. cbn [mbind res_bind].
  assert (@filterCoherentRevisits (create m) (list Z) rv_clock g st (resultingView (V := list Z) dbg g st) s loads0 = Ok loads1) as ->
    by (rewrite revisits_model by (by destruct m); exact E1).
  cbn [mbind res_bind]. split; [done|]. split; [done|]. split; [done|].
  assert (StronglySorted (fun a b => Automaton.stamp_of g b < Automaton.stamp_of g a) (take k loads ++ drop k loads)) as Hs2 by (by rewrite take_drop).
  apply StronglySorted_app in Hs2 as (_ & Hs2 & _). split; [done|]. intros r. split.
  - intros Hr. assert (r ∈ loads) as Hl by (by apply elem_of_take in Hr as (i & ? & _); eapply list_elem_of_lookup_2).
    rewrite Hperm in Hl. split; [by apply Hcand1|]. split; [|by apply Hmax]. intros q w. by apply H1.
  - intros (Hcand & Hcoh & Hmr). destruct (Hall0 r Hcand) as [Hl|Hh]; [|by apply (hopeless_not_maximal g s ls P r Hcand) in Hh].
    assert (r ∈ loads) as Hl2 by (rewrite Hperm; apply H1; by split).
    apply list_elem_of_lookup in Hl2 as [i Hi]. apply elem_of_take. exists i. split; [done|].
    destruct (decide (i < k)%nat) as [|Hge]; [done|]. exfalso.
    destruct (lookup_lt_is_Some_2 loads k) as [r1 Hr1]; [apply lookup_lt_Some in Hi; lia|]. apply (Hnot r1 Hr1).
    destruct (decide (i = k)) as [->|Hne]; [congruence|].
    apply (maximal_newer g Hc s ls P r1 r); [done| |done| |done].
    + apply Hcand1. rewrite <- Hperm. by eapply list_elem_of_lookup_2.
    + assert (exists l1 l2 l3, loads = l1 ++ r1 :: l2 ++ r :: l3) as (l1 & l2 & l3 & ->) by (apply (proj2 (Search.before_lookup loads r1 r)); exists k, i; split_and!; [done|done|lia]).
      apply StronglySorted_app in Hsort as (_ & _ & Hsort). apply StronglySorted_inv in Hsort as [_ Hf]. rewrite Forall_forall in Hf. apply Hf.
      apply elem_of_app. right. left.
Qed.

(** ** A revisit *)
(** Two threads read a location, the second one then writes it. *)
Definition demo : Graph.t := Script.script (Script.spawn ++ [
  Script.Add 4 (Script.read 0 2 MemOrdering.Relaxed Script.loc_x); Script.Rf 4 1;
  Script.Add 5 (Script.read 1 1 MemOrdering.Relaxed Script.loc_x); Script.Rf 5 1;
  Script.Add 6 (Script.write 1 2 MemOrdering.Relaxed Script.loc_x 1); Script.Co 6 1]).
Lemma demo_checkable : Checkable.checkable demo.
Proof. apply Script.script_checkable. vm_compute. reflexivity. Qed.
Definition demo_clock (t : Z) : Z := if decide (t = 0) then 1 else if decide (t = 1) then 2 else 0.
(** Views of the initial label, and the prefix of the write. *)
Lemma demo_start : exists st, Calc.valid st /\ Calc.initial_views demo st /\ Calc.prefixView st !! 6%nat = Some 3%positive /\
  forall t, 0 <= t -> View.clk (Calc.heap st) 3%positive t = demo_clock t.
Proof.
  assert (View.wf View.empty_store) as H0 by (by split; intros ? ?; cbn; rewrite lookup_empty).
  destruct (View.create_building View.empty_store 1%positive H0) as [_ G1].
  destruct (View.create_building _ 2%positive (proj1 G1)) as [_ G2]. destruct (View.create_building _ 3%positive (proj1 G2)) as [_ G3].
  set (h1 := View.create View.empty_store 1%positive) in *. set (h2 := View.create h1 2%positive) in *. set (h3 := View.create h2 3%positive) in *.
  assert (forall h f e, View.good h3 3%positive f h -> 0 <= Event.thread e -> exists h', View.good h3 3%positive (View.upd f e) h') as Hupd.
  { intros h f e G He. destruct G as (Hw & [x Hx] & Hf & Ho) eqn:EG. destruct (View.updateIdx_good false h 3%positive x e Hw Hx) as (h' & _ & G'); [done|done|].
    exists h'. apply (View.good_trans h3 3%positive f h); [exact G|]. apply (View.good_ext _ _ (View.upd (View.clk h 3%positive) e)); [|exact G'].
    intros t Ht. unfold View.upd. by rewrite Hf. }
  destruct (Hupd h3 (fun _ => 0) (Event.Event 0 1)) as [h4 G4]; [|done|]. { destruct G3 as (Hw & [x Hx] & Hf & _). apply (View.good_ext _ _ (View.clk h3 3%positive)); [done|]. by eapply View.good_refl. }
  destruct (Hupd h4 _ (Event.Event 1 2) G4) as [h5 (Hw & Hl & Hf & Ho & Hoc)]; [done|].
  set (st := Calc.State h5 {[ 1%nat := [1%positive] ]} (<[6%nat := 3%positive]> {[ 1%nat := 2%positive ]})). exists st.
  assert (Hs : forall s v, Calc.slot st s = Some v -> (s = (1%nat, Some 0%nat) /\ v = 1%positive) \/ (s = (1%nat, None) /\ v = 2%positive) \/ (s = (6%nat, None) /\ v = 3%positive)).
  { intros [i [k|]] v; unfold Calc.slot; cbn -[lookup singletonM insert].
    - destruct (decide (i = 1%nat)) as [->|Hi]; [rewrite lookup_singleton_eq|by rewrite lookup_singleton_ne by done]. destruct k; cbn; [intros [= <-]; by left|done].
    - destruct (decide (i = 6%nat)) as [->|Hi]; [rewrite lookup_insert_eq; intros [= <-]; auto|rewrite lookup_insert_ne by done].
      destruct (decide (i = 1%nat)) as [->|Hj]; [rewrite lookup_singleton_eq; intros [= <-]; auto|by rewrite lookup_singleton_ne by done]. }
  assert (View.views h5 !! 1%positive = View.views h3 !! 1%positive) as E1 by (by apply Ho).
  assert (View.views h5 !! 2%positive = View.views h3 !! 2%positive) as E2 by (by apply Ho).
  split; [|split; [|split; [done|]]].
  - split; [exact Hw| |].
    + intros s v [[_ ->]|[[_ ->]|[_ ->]]]%Hs; cbn; [unfold View.vid in *; setoid_rewrite E1; by eexists|unfold View.vid in *; setoid_rewrite E2; by eexists|done].
    + intros s s' v [[-> ->]|[[-> ->]|[-> ->]]]%Hs [[-> ?]|[[-> ?]|[-> ?]]]%Hs; done.
  - exists 1%nat, 1%positive. split; [vm_compute; reflexivity|].
    split; [apply uncreated_check_sound; vm_compute; reflexivity|]. split; [reflexivity|].
    intros t _. cbn [Calc.heap st]. rewrite Hoc by done. change (Z.max 0 (View.diff_clock Event.getInit t) = 0). by rewrite View.diff_clock_init.
  - intros t Ht. cbn [Calc.heap st]. rewrite Hf by done. unfold View.upd, demo_clock. cbn. repeat case_decide; lia.
Qed.
Lemma demo_inside : Placing.inside demo.
Proof. apply inside_check_sound. vm_compute. reflexivity. Qed.
Lemma demo_sc : exists st, exact_views SC demo st /\ Calc.prefixView st !! 6%nat = Some 3%positive /\
  is_Some (View.views (Calc.heap st) !! 3%positive) /\ forall t, 0 <= t -> View.clk (Calc.heap st) 3%positive t = demo_clock t.
Proof.
  destruct demo_start as (st0 & Hv0 & Hi0 & Hp0 & Hf0). pose proof (Checkable.ck_linked demo demo_checkable) as Hc.
  assert (Hn : getInitLabel demo = Ok 1%nat) by (vm_compute; reflexivity).
  destruct (Calc.calculate_all demo Hc (calcs SC (Calc.Config false false))) with (o := [2; 3; 4; 5; 6]%nat) (D := [1%nat]) (st := st0)
    as (st & _ & Hv & Hkeep & Hk); [|exact Hv0| | |..].
  - intros k A q. by apply calcs_exact.
  - repeat constructor; apply stores_check_sound; vm_compute; reflexivity.
  - pose proof (sc_preds demo demo_checkable) as H. sc_order H.
  - intros i k A q ->%list_elem_of_singleton Hk. apply Calc.init_knows; [apply Hc|exact Hv0|exact Hn|exact Hi0|].
    by eapply Calc.c_back, calcs_exact.
  - exists st. split; [split; [exact Hv|]|].
    + intros i Hi. apply (Hk i); [|apply (hb_entry SC)].
      assert (Hall : forall i, i ∈ concat (events demo) -> i ∈ [1; 2; 3; 4; 5; 6]%nat); [|by apply Hall].
      apply Forall_forall. apply (bool_decide_unpack _). vm_compute. exact I.
    + destruct (Hkeep (6%nat, None) 3%positive eq_refl Hp0) as [Hs E]. split; [exact Hs|].
      split; [by apply (Calc.v_live _ Hv _ _ Hs)|]. intros t Ht. by rewrite E, Hf0.
Qed.
(** The store is [6] and the prefix holds all but the read [4]. *)
Lemma demo_fresh st : exact_views SC demo st -> Calc.prefixView st !! 6%nat = Some 3%positive ->
  is_Some (View.views (Calc.heap st) !! 3%positive) -> (forall t, 0 <= t -> View.clk (Calc.heap st) 3%positive t = demo_clock t) ->
  fresh_store demo st 6%nat (GraphUtils.get demo 6%nat) demo_clock 1%nat.
Proof.
  intros _ Hp [y Hy] Hf. split; try (vm_compute; reflexivity).
  - apply Checkable.in_graph_check. vm_compute. reflexivity.
  - exists [2; 3; 4; 5]%nat. vm_compute. reflexivity.
  - replace (insertionOrder demo) with [1; 2; 3; 4; 5; 6]%nat by (vm_compute; reflexivity). repeat constructor.
  - intros t th k k' x x' s Ht Hk Hk' Hle.
    assert (exists m, Cut.stamped s demo x = (m <=? s) /\ exists m', Cut.stamped s demo x' = (m' <=? s) /\ m <= m')
      as (m & -> & m' & -> & ?); [|lia].
    replace (events demo) with [[1; 2; 4]; [3; 5; 6]]%nat in Ht by (vm_compute; reflexivity).
    destruct t as [|[|t]]; cbn in Ht; simplify_eq; destruct k' as [|[|[|k']]]; cbn in Hk'; simplify_eq;
      destruct k as [|[|[|k]]]; cbn in Hk; simplify_eq; try lia;
      (eexists; split; [apply Cut.stamped_at; vm_compute; reflexivity|]; eexists; split; [apply Cut.stamped_at; vm_compute; reflexivity|]); lia.
  - intros H. vm_compute in H. discriminate H.
  - exists 3%positive, y. split_and!; [done|done|]. intros t Ht. by rewrite Hf.
Qed.
Lemma demo_outside x : in_graph demo x -> ~ in_prefix demo demo_clock x -> x = 4%nat.
Proof.
  intros Hx Hout.
  assert (forall i, i ∈ concat (events demo) -> i ∈ [1; 2; 3; 4; 5; 6]%nat) as Hall
    by (apply Forall_forall; apply (bool_decide_unpack _); vm_compute; exact I).
  specialize (Hall x Hx). rewrite !elem_of_cons, elem_of_nil in Hall.
  destruct Hall as [->|[->|[->|[->|[->|[->|[]]]]]]]; try done; exfalso; apply Hout;
    (eexists; split; [vm_compute; reflexivity|]; vm_compute; discriminate).
Qed.
Lemma demo_co_after w : co_after demo 4%nat w -> w = 6%nat.
Proof.
  intros (l & El & _ & Hw). vm_compute in El. injection El as <-. destruct Hw as (c & lc & Ec & Elc & Hw).
  vm_compute in Ec. injection Ec as <-. vm_compute in Elc. injection Elc as <-. vm_compute in Hw. by apply list_elem_of_singleton in Hw.
Qed.
Lemma demo_flags : flags_accurate demo demo_clock.
Proof.
  intros x Hx Hout _. left. intros w Hw. apply (demo_outside x Hx) in Hout as ->. apply demo_co_after in Hw as ->. vm_compute. discriminate.
Qed.
Lemma backward_revisits_correct_witness : exists st loads rs brs,
  getRevisitableApproximation (C := create SC) (V := list Z) true demo st 6%nat = Ok loads /\
  push_revisits true demo st 6%nat loads = Ok brs /\ Forall2 (backward_to demo (GraphUtils.get demo 6%nat) demo_clock) rs brs /\
  StronglySorted (fun a b => Automaton.stamp_of demo b < Automaton.stamp_of demo a) rs /\
  forall r, r ∈ rs <-> candidate demo 6%nat (GraphUtils.get demo 6%nat) demo_clock r /\
    coherent_revisit SC demo 6%nat (GraphUtils.get demo 6%nat) r /\ maximal_revisit demo 6%nat (GraphUtils.get demo 6%nat) demo_clock r.
Proof.
  destruct demo_sc as (st & He & Hp & Hl & Hf). exists st.
  apply (backward_revisits_correct SC true demo st 6%nat 1%nat (GraphUtils.get demo 6%nat) demo_clock).
  - done.
  - exact demo_checkable.
  - exact demo_inside.
  - exact He.
  - by apply demo_fresh.
  - exact demo_flags.
Defined.
(** The read of the first thread is revisited. *)
Lemma demo_revisits : candidate demo 6%nat (GraphUtils.get demo 6%nat) demo_clock 4%nat /\
  maximal_revisit demo 6%nat (GraphUtils.get demo 6%nat) demo_clock 4%nat.
Proof.
  split.
  - exists (GraphUtils.get demo 4%nat). split_and!; try (vm_compute; reflexivity).
    + apply Checkable.in_graph_check. vm_compute. reflexivity.
    + intros (l & El & Hl). vm_compute in El. injection El as <-. vm_compute in Hl. by apply Hl.
    + intros c [Hc _]. vm_compute in Hc. discriminate Hc.
  - split.
    + right. intros w (l1 & l2 & E). replace (list_at _ _) with [6%nat] in E by (vm_compute; reflexivity). destruct l1; discriminate E.
    + intros x Hx Hk. assert (x = 4%nat) as -> by (destruct Hk as [->|Hk]; [done|apply (demo_outside x Hx); intros H; apply Hk; by left]).
      split; [|intros w Hw%demo_co_after; done]. exists (GraphUtils.get demo 4%nat). split_and!; vm_compute; reflexivity.
Qed.
End Revisiting.
