(* ===== verification/Config.v ===== *)
(** * The configuration of a verification

    Models Verification/Config.{hpp,cpp} and MemoryModel.hpp: the options, and the
    validation that rejects contradictory ones and switches off those that have no
    effect.  The random device and the file system are parameters; warnings and errors
    are known by their case. *)

From S2P Require Import Prelude Values Addresses Events VSet Views IntervalMap AdaptiveView ExecutionState Labels Graph Relations Cut Search Automata Checkable Scripts Calc Errors.
From S2P Require Import SCChecker TSOChecker RAChecker RC11Checker IMMChecker Checkers.
Import ConsistencyChecker.
Local Open Scope Z_scope.

(** [isStrongerThan]: the lookup table, row by row. *)
Definition model_code (m : ModelType) : nat := match m with SC => 0 | TSO => 1 | RA => 2 | RC11 => 3 | IMM => 4 end.
Definition stronger_table : list (list bool) := [
  [false; true; true; true; true];
  [false; false; true; true; true];
  [false; false; false; true; true];
  [false; false; false; false; true];
  [false; false; false; false; false]].
Definition isStrongerThan (model other : ModelType) : res bool :=
  row ← deref (stronger_table !! model_code model); deref (row !! model_code other).

Module Config.

Inductive ExplorationMode := verify | random | estimate_mode.
Inductive SchedulePolicy := LTR | WF | WFR | Arbitrary.
Inductive BoundType := bound_none | context | round.
#[global] Instance ExplorationMode_eq_dec : EqDecision ExplorationMode. Proof. solve_decision. Defined.
#[global] Instance SchedulePolicy_eq_dec : EqDecision SchedulePolicy. Proof. solve_decision. Defined.
#[global] Instance BoundType_eq_dec : EqDecision BoundType. Proof. solve_decision. Defined.

(** The options that the exploration looks at. *)
Record t := Config {
  mode : ExplorationMode; model : ModelType; isDepTrackingModel : bool;
  bound : option Z; boundType : BoundType; LAPOR : bool; symmetryReduction : bool; helper : bool; confirmation : bool;
  finalWrite : bool; checkLiveness : bool; instructionCaching : bool; disableRaceDetection : bool;
  disableInitializationChecks : bool; disableStaticValidityChecks : bool; disableBAM : bool; ipr : bool;
  warnUnfreedMemory : bool; collectLinSpec : option string; checkLinSpec : option string;
  replayCompletedThreads : bool; emitNALabels : bool; randomMax : Z;
  schedulePolicy : SchedulePolicy; randomScheduleSeed : option Z; printRandomScheduleSeed : bool; boundsHistogram : bool
}.
Definition set_reductions (sr i : bool) (c : t) : t :=
  Config (mode c) (model c) (isDepTrackingModel c) (bound c) (boundType c) (LAPOR c) sr (helper c) (confirmation c)
    (finalWrite c) (checkLiveness c) (instructionCaching c) (disableRaceDetection c)
    (disableInitializationChecks c) (disableStaticValidityChecks c) (disableBAM c) i
    (warnUnfreedMemory c) (collectLinSpec c) (checkLinSpec c)
    (replayCompletedThreads c) (emitNALabels c) (randomMax c)
    (schedulePolicy c) (randomScheduleSeed c) (printRandomScheduleSeed c) (boundsHistogram c).
Definition set_seed (s : option Z) (c : t) : t :=
  Config (mode c) (model c) (isDepTrackingModel c) (bound c) (boundType c) (LAPOR c) (symmetryReduction c) (helper c) (confirmation c)
    (finalWrite c) (checkLiveness c) (instructionCaching c) (disableRaceDetection c)
    (disableInitializationChecks c) (disableStaticValidityChecks c) (disableBAM c) (ipr c)
    (warnUnfreedMemory c) (collectLinSpec c) (checkLinSpec c)
    (replayCompletedThreads c) (emitNALabels c) (randomMax c)
    (schedulePolicy c) s (printRandomScheduleSeed c) (boundsHistogram c).
(** [LAPOR = symmetryReduction = ipr = false; disableBAM = true; schedulePolicy = LTR] *)
Definition sanitize (c : t) : t :=
  Config (mode c) (model c) (isDepTrackingModel c) (bound c) (boundType c) false false (helper c) (confirmation c)
    (finalWrite c) (checkLiveness c) (instructionCaching c) (disableRaceDetection c)
    (disableInitializationChecks c) (disableStaticValidityChecks c) true false
    (warnUnfreedMemory c) (collectLinSpec c) (checkLinSpec c)
    (replayCompletedThreads c) (emitNALabels c) (randomMax c)
    LTR (randomScheduleSeed c) (printRandomScheduleSeed c) (boundsHistogram c).

Inductive warning := WNoEffectIMM | WPrintSeed | WSeed | WBoundType | WNoEffectBound.
Inductive error := ELapor | EConfirmation | ECaching | EBudget | EBoundModel | EHistogram | ELinSpec | ESpecFile.
#[global] Instance warning_eq_dec : EqDecision warning. Proof. solve_decision. Defined.
#[global] Instance error_eq_dec : EqDecision error. Proof. solve_decision. Defined.

Definition doesPolicySupportSeed (p : SchedulePolicy) : bool :=
  match p with Arbitrary | WFR => true | LTR | WF => false end.

Section validate.
(** Debug builds; what [std::random_device] yields; whether a path names a regular file. *)
Context (dbg : bool) (device : Z) (isRegularFile : string -> bool).
Definition when {A} (b : bool) (x : A) : list A := if b then [x] else [].
(** The three corrections, and the conditions under which they warn. *)
Definition imm_reductions (c : t) : bool := bool_decide (model c = IMM) && (ipr c || symmetryReduction c).
Definition correct_imm (c : t) : t := if imm_reductions c then set_reductions false false c else c.
Definition populate_seed (c : t) : t := match randomScheduleSeed c with Some _ => c | None => set_seed (Some device) c end.
Definition bounding (c : t) : bool := bool_decide (is_Some (bound c)) || (dbg && boundsHistogram c).
Definition bound_clash (c : t) : bool :=
  bounding c && (LAPOR c || negb (disableBAM c) || symmetryReduction c || ipr c || negb (bool_decide (schedulePolicy c = LTR))).
Definition correct_bound (c : t) : t := if bound_clash c then sanitize c else c.
(** The errors are in the order in which they are found. *)
Definition validate (c : t) : t * list warning * list error :=
  let e1 := when (LAPOR c) ELapor ++ when (confirmation c) EConfirmation in
  let w1 := when (imm_reductions c) WNoEffectIMM in
  let c := correct_imm c in
  let e2 := when (negb (emitNALabels c) && instructionCaching c) ECaching in
  let e3 := when (bool_decide (mode c = random) && (randomMax c =? 0)) EBudget in
  let w2 := when (negb (doesPolicySupportSeed (schedulePolicy c)) && printRandomScheduleSeed c) WPrintSeed in
  let w3 := when (negb (doesPolicySupportSeed (schedulePolicy c)) && bool_decide (is_Some (randomScheduleSeed c))) WSeed in
  let c := populate_seed c in
  let e4 := when (bool_decide (is_Some (bound c)) && negb (bool_decide (model c = SC))) EBoundModel in
  let e5 := when (dbg && bool_decide (is_Some (bound c)) && boundsHistogram c) EHistogram in
  let w4 := when (negb (bool_decide (is_Some (bound c))) && negb (bool_decide (boundType c = bound_none))) WBoundType in
  let w5 := when (bound_clash c) WNoEffectBound in
  let c := correct_bound c in
  let e6 := when (bool_decide (is_Some (collectLinSpec c)) && bool_decide (is_Some (checkLinSpec c))) ELinSpec in
  let e7 := when (match checkLinSpec c with Some f => negb (isRegularFile f) | None => false end) ESpecFile in
  (c, w1 ++ w2 ++ w3 ++ w4 ++ w5, e1 ++ e2 ++ e3 ++ e4 ++ e5 ++ e6 ++ e7).

(** What the driver may assume of a configuration that was accepted. *)
Record sane (c : t) : Prop := {
  s_lapor : LAPOR c = false;
  s_confirmation : confirmation c = false;
  s_imm : model c = IMM -> ipr c = false /\ symmetryReduction c = false;
  s_caching : instructionCaching c = true -> emitNALabels c = true;
  s_budget : mode c = random -> randomMax c <> 0;
  s_seed : is_Some (randomScheduleSeed c);
  s_bound : is_Some (bound c) -> model c = SC /\ ipr c = false /\ symmetryReduction c = false /\ disableBAM c = true /\ schedulePolicy c = LTR;
  s_spec : ~ (is_Some (collectLinSpec c) /\ is_Some (checkLinSpec c));
  s_file f : checkLinSpec c = Some f -> isRegularFile f = true
}.
Lemma when_nil {A} (b : bool) (x : A) : when b x = [] <-> b = false.
Proof. by destruct b. Qed.

(** The corrections only touch the options they name. *)
Definition corrected (c : t) : t := correct_bound (populate_seed (correct_imm c)).
Lemma corrected_fields c : let c' := corrected c in
  mode c' = mode c /\ model c' = model c /\ bound c' = bound c /\ confirmation c' = confirmation c /\
  instructionCaching c' = instructionCaching c /\ emitNALabels c' = emitNALabels c /\ randomMax c' = randomMax c /\
  collectLinSpec c' = collectLinSpec c /\ checkLinSpec c' = checkLinSpec c /\ boundsHistogram c' = boundsHistogram c /\
  (LAPOR c = false -> LAPOR c' = false) /\ is_Some (randomScheduleSeed c').
Proof.
  unfold corrected, correct_bound, populate_seed, correct_imm.
  destruct (imm_reductions c); cbn [randomScheduleSeed set_reductions]; destruct (randomScheduleSeed c) eqn:E;
    match goal with |- context [bound_clash ?x] => destruct (bound_clash x) end; cbn; repeat split; try done; by rewrite ?E.
Qed.
Lemma corrected_imm c : model c = IMM -> ipr (corrected c) = false /\ symmetryReduction (corrected c) = false.
Proof.
  intros Hm. unfold corrected, correct_bound. destruct (bound_clash _); [by split|].
  assert (ipr (correct_imm c) = false /\ symmetryReduction (correct_imm c) = false) as [H1 H2].
  { unfold correct_imm, imm_reductions. rewrite bool_decide_true by done. by destruct (ipr c) eqn:?, (symmetryReduction c) eqn:?. }
  unfold populate_seed. by destruct (randomScheduleSeed _).
Qed.
Lemma corrected_bound c : bounding c = true -> LAPOR (corrected c) = false /\ ipr (corrected c) = false /\
  symmetryReduction (corrected c) = false /\ disableBAM (corrected c) = true /\ schedulePolicy (corrected c) = LTR.
Proof.
  intros Hb. unfold corrected. set (c1 := populate_seed (correct_imm c)).
  assert (bounding c1 = true) as H1.
  { unfold c1, bounding, populate_seed, correct_imm in *. by destruct (imm_reductions c), (randomScheduleSeed _). }
  unfold correct_bound, bound_clash. rewrite H1. cbn [andb]. destruct (_ || _) eqn:E; [by repeat split|].
  apply orb_false_elim in E as [E E5]. apply orb_false_elim in E as [E E4]. apply orb_false_elim in E as [E E3].
  apply orb_false_elim in E as [E1 E2]. apply negb_false_iff in E2. apply negb_false_iff, bool_decide_eq_true in E5. by repeat split.
Qed.
(** Nothing is left to correct. *)
Lemma corrected_twice c : corrected (corrected c) = corrected c.
Proof.
  set (c' := corrected c). pose proof (corrected_fields c) as F. fold c' in F. destruct F as (_ & Hm & Hbd & _ & _ & _ & _ & _ & _ & Hbh & _ & Hs).
  assert (correct_imm c' = c') as Hi.
  { unfold correct_imm, imm_reductions. case_bool_decide as E; [|done]. rewrite Hm in E. destruct (corrected_imm c E) as [H1 H2]. fold c' in H1, H2. by rewrite H1, H2. }
  unfold corrected at 1. rewrite Hi. assert (populate_seed c' = c') as -> by (unfold populate_seed; by destruct Hs as [? ->]).
  unfold correct_bound, bound_clash. assert (bounding c' = bounding c) as -> by (unfold bounding; by rewrite Hbd, Hbh).
  destruct (bounding c) eqn:E; [|done]. destruct (corrected_bound c E) as (H1 & H2 & H3 & H4 & H5). fold c' in H1, H2, H3, H4, H5. by rewrite H1, H2, H3, H4, H5.
Qed.
(** The errors look at options that are never corrected. *)
Lemma validate_corrected c : exists ws es, validate c = (corrected c, ws, es) /\
  (es = [] <-> LAPOR c = false /\ confirmation c = false /\ negb (emitNALabels c) && instructionCaching c = false /\
    bool_decide (mode c = random) && (randomMax c =? 0) = false /\
    bool_decide (is_Some (bound c)) && negb (bool_decide (model c = SC)) = false /\
    dbg && bool_decide (is_Some (bound c)) && boundsHistogram c = false /\
    bool_decide (is_Some (collectLinSpec c)) && bool_decide (is_Some (checkLinSpec c)) = false /\
    match checkLinSpec c with Some f => negb (isRegularFile f) | None => false end = false).
Proof.
  unfold validate. cbv zeta. fold (corrected c). destruct (corrected_fields c) as (_ & _ & _ & _ & _ & _ & _ & Hcs & Hck & _). rewrite Hcs, Hck.
  do 2 eexists. split; [done|]. rewrite !app_nil, !when_nil.
  unfold populate_seed, correct_imm. destruct (imm_reductions c); cbn [randomScheduleSeed set_reductions];
    destruct (randomScheduleSeed c); cbn; tauto.
Qed.
End validate.

(** C37: A configuration that [validate] accepts is sane: the disabled features are off,
    bounded explorations run under SC without reductions and from left to right, random
    ones have a budget, the seed is set; validating it again accepts it as it is. *)
Theorem validate_sane (dbg : bool) (device : Z) (isRegularFile : string -> bool) (c c' : t) (ws : list warning) :
  validate dbg device isRegularFile c = (c', ws, []) ->
  sane isRegularFile c' /\ exists ws', validate dbg device isRegularFile c' = (c', ws', []).
Proof.
  destruct (validate_corrected dbg device isRegularFile c) as (ws0 & es & -> & Hes). intros [= <- <- ->].
  destruct (proj1 Hes eq_refl) as (H1 & H2 & H3 & H4 & H5 & H6 & H7 & H8).
  pose proof (corrected_fields dbg device c) as (Fm & Fmd & Fb & Fc & Fi & Fe & Fr & Fcs & Fck & Fbh & Fl & Fs).
  split.
  - split; rewrite ?Fc, ?Fmd, ?Fi, ?Fe, ?Fm, ?Fr, ?Fb, ?Fcs, ?Fck; auto.
    + apply corrected_imm.
    + intros E. rewrite E in H3. by destruct (emitNALabels c).
    + intros E. rewrite bool_decide_true in H4 by done. by apply Z.eqb_neq.
    + intros E. rewrite (bool_decide_true (is_Some (bound c))) in H5 by done.
      destruct (corrected_bound dbg device c) as (_ & ? & ? & ? & ?); [unfold bounding; by rewrite bool_decide_true|].
      cbn [andb] in H5. apply negb_false_iff, bool_decide_eq_true in H5. by repeat split.
    + intros [E1 E2]. by rewrite !bool_decide_true in H7 by done.
    + intros f E. rewrite E in H8. by apply negb_false_iff.
  - destruct (validate_corrected dbg device isRegularFile (corrected dbg device c)) as (ws' & es' & -> & Hes').
    exists ws'. rewrite corrected_twice. do 2 f_equal. apply Hes'.
    rewrite ?Fc, ?Fmd, ?Fi, ?Fe, ?Fm, ?Fr, ?Fb, ?Fcs, ?Fck, ?Fbh. by repeat (split; [by auto|]).
Qed.
(** The defaults with a bound, under SC. *)
Definition bounded : t := Config verify SC false (Some 2) context false true false false true true true false false false false true
  false None None true true 0 WF None false false.
Lemma validate_sane_witness : exists c' ws, validate false 42 (fun _ => false) bounded = (c', ws, []) /\ sane (fun _ => false) c' /\
  exists ws', validate false 42 (fun _ => false) c' = (c', ws', []).
Proof. do 2 eexists. split; [reflexivity|]. apply (validate_sane false 42 (fun _ => false) bounded _ [WNoEffectBound]). reflexivity. Defined.
(** The table of [isStrongerThan] is the order of the enumeration. *)
Lemma isStrongerThan_code m m' : isStrongerThan m m' = Ok (model_code m <? model_code m')%nat.
Proof. by destruct m, m'. Qed.
End Config.
