(* ===== verification/Bounds.v ===== *)
(** * Bounded exploration

    Models Execution/Consistency/BoundDecider.{hpp,cpp}, ContextBoundDecider.cpp and
    RoundBoundDecider.cpp: whether the number of preemptive context switches, or of
    round-robin rounds, that an execution needs exceeds a bound.  Views that are
    copied and shrunk are vectors ([Views.View.views_are_independent]: they have no
    pending events); the view that the second decider grows is an object of the store.
    The searches of the first decider take fuel, and never run out of it; they find a
    bound on executions that are interleavings. *)

From S2P Require Import Prelude Values Addresses Events VSet Views IntervalMap AdaptiveView ExecutionState Labels Graph Relations Cut Search Automata Checkable Scripts GraphUtils Calc Clocks Errors.
From S2P Require Import SCChecker TSOChecker RAChecker RC11Checker IMMChecker Checkers Config.
Import EventLabel Graph.
Local Open Scope Z_scope.

Inductive BoundCalculationStrategy := Slacked | NonSlacked.
#[global] Instance BoundCalculationStrategy_eq_dec : EqDecision BoundCalculationStrategy. Proof. solve_decision. Defined.

(** ** Context switches *)
Module ContextBoundDecider.
Import Clocks.
Section context.
Context (dbg : bool) (g : Graph.t).
Implicit Types (v : list Z).

Definition last_in (v : list Z) (t : Z) : res lid := m ← ViewBase.getMax v t; getEventLabel g (Event.Event t m).
Definition pos_in (v : list Z) (i : lid) : res bool := l ← label g i; ViewBase.contains v (position l).
Definition canBlock (v : list Z) (t : Z) : res bool :=
  i ← last_in v t; n ← Relations.po_imm_succ g i;
  match n with
  | None => Ok false
  | Some n => l ← label g n;
      Ok (Class.isKind Kind.ThreadJoin (kind l) || Class.classofKind Class.CLockCasRead (kind l) || Class.isKind Kind.BWaitRead (kind l))
  end.
Fixpoint find_in (v : list Z) (ws : list lid) : res (option lid) :=
  match ws with [] => Ok None | w :: ws => b ← pos_in v w; if (b : bool) then Ok (Some w) else find_in v ws end.
(** The latest store of the view is an unlock that no completed lock has read. *)
Definition lock_enabled (v : list Z) (addr : SAddr.t) : res bool :=
  ws ← Relations.rco g addr; it ← find_in v ws;
  match it with
  | None => n ← getInitLabel g; ln ← label g n; rs ← at_loc (initRfs ln) addr; b ← Relations.anyM (pos_in v) rs; Ok (negb b)
  | Some w =>
      lw ← label g w;
      if negb (Class.isKind Kind.UnlockWrite (kind lw)) then Ok false else
      b ← Relations.anyM (fun e => l ← label g e; ViewBase.contains v (Event.next (position l))) (readerList lw); Ok (negb b)
  end.
Definition barrier_enabled (v : list Z) (addr : SAddr.t) : res bool :=
  ws ← Relations.co g addr; i ← deref (head ws); iw ← dyn_cast Class.isWrite g i; verify (bool_decide (is_Some iw));; iw ← deref iw;
  rs ← Relations.rco g addr; it ← find_in v rs; w ← deref it;
  liw ← label g iw; lw ← label g w; Ok (SVal.eqb (value liw) (value lw)).
Definition isEnabled (v : list Z) (t : Z) : res bool :=
  i ← last_in v t; l ← label g i;
  if Class.classofKind Class.CTerminator (kind l) then Ok false else
  n ← Relations.po_imm_succ g i;
  match n with
  | None => Ok false
  | Some n =>
      ln ← label g n;
      if Class.isKind Kind.ThreadJoin (kind ln) then p ← Relations.tj_pred g n; p ← deref p; pos_in v p
      else if Class.classofKind Class.CLockCasRead (kind ln) then lock_enabled v (getAddr ln)
      else if Class.isKind Kind.BWaitRead (kind ln) then barrier_enabled v (getAddr ln)
      else Ok true
  end.
(** The last event of the thread has no successor in the view. *)
Definition no_later_store (v : list Z) (l : EventLabel.t) (wLab : option lid) : res bool :=
  if isLocEmpty g (getAddr l) then Ok true else
  wLab ← deref wLab; lw ← label g wLab;
  succ ← (if Class.isKind Kind.Init (kind lw) then ws ← Relations.co g (getAddr l); s ← deref (head ws); Ok (Some s)
          else w ← dyn_cast Class.isWrite g wLab; w ← deref w; Relations.co_imm_succ g w);
  match succ with None => Ok true | Some s => b ← pos_in v s; Ok (negb b) end.
Definition isSCMaximal (v : list Z) (t : Z) : res bool :=
  lab ← last_in v t; l ← label g lab;
  if Class.isKind Kind.ThreadFinish (kind l) then
    o ← Relations.tj_succ g lab; match o with None => Ok true | Some j => b ← pos_in v j; Ok (negb b) end
  else if Class.isKind Kind.ThreadCreate (kind l) then m ← ViewBase.getMax v (childId l); Ok (m =? 0)
  else if negb (Class.isMemAccess (kind l)) then Ok true
  else if Class.isWrite (kind l) then
    b ← Relations.anyM (pos_in v) (readerList l); if (b : bool) then Ok false else no_later_store v l (Some lab)
  else no_later_store v l (readsFrom l).

Definition shrinkViewByOne (v : list Z) (t : Z) : res (list Z) := m ← ViewBase.getMax v t; ViewBase.setMax v (Event.prev (Event.Event t m)).
Fixpoint unfoldPrefix (fuel : nat) (v : list Z) (t : Z) : res (list Z) :=
  match fuel with
  | O => Abort OutOfFuel
  | S fuel =>
      m ← ViewBase.getMax v t;
      if m =? 0 then Ok v else
      b ← isSCMaximal v t; if negb b then Ok v else
      c ← canBlock v t; if (c : bool) then Ok v else
      v ← shrinkViewByOne v t; unfoldPrefix fuel v t
  end.
Definition unfold_fuel (v : list Z) (t : Z) : nat := S (Z.to_nat (ViewBase.clock v t)).

(** The loops over the threads. *)
Definition maximal_event (v : list Z) (tp : Z) : res bool := m ← ViewBase.getMax v tp; if m =? 0 then Ok false else isSCMaximal v tp.
Definition switches (v : list Z) (t tp : Z) : res bool := if bool_decide (tp <> t) then isEnabled v tp else Ok false.
Fixpoint try_threads (rec : list Z -> Z -> Z -> res bool) (v : list Z) (t bound : Z) (tps : list Z) (exist : bool) : res bool :=
  match tps with
  | [] => verify exist;; Ok false
  | tp :: tps =>
      c ← maximal_event v tp;
      if negb c then try_threads rec v t bound tps exist else
      sp ← shrinkViewByOne v tp; s ← switches v t tp;
      r ← (if (s : bool) then if negb (bound =? 0) then rec sp tp (bound - 1) else Ok false else rec sp tp bound);
      if (r : bool) then Ok true else try_threads rec v t bound tps true
  end.
Fixpoint doesPrefixExceedBound (fuel : nat) (v : list Z) (t bound : Z) : res bool :=
  match fuel with
  | O => Abort OutOfFuel
  | S fuel =>
      v ← unfoldPrefix (unfold_fuel v t) v t;
      if ViewBase.empty v then Ok true else
      try_threads (doesPrefixExceedBound fuel) v t bound (seqZ 0 (getNumThreads g)) false
  end.
Definition full_view : res (list Z) := rv_fromStamp dbg (timestamp g) g.
Definition prefix_fuel (v : list Z) : nat := S (Z.to_nat (foldr Z.add 0 v)).
Fixpoint any_start (v : list Z) (bound : Z) (ts : list Z) (exist : bool) : res bool :=
  match ts with
  | [] => verify exist;; Ok true
  | i :: ts =>
      c ← maximal_event v i;
      if negb c then any_start v bound ts exist else
      sp ← shrinkViewByOne v i; r ← doesPrefixExceedBound (prefix_fuel v) sp i bound;
      if (r : bool) then Ok false else any_start v bound ts true
  end.
Definition doesExecutionExceedBound (bound : Z) : res bool := v ← full_view; any_start v bound (seqZ 0 (getNumThreads g)) false.

Definition unstable_thread (th : list lid) : res bool := Relations.anyM (fun i => l ← label g i; Ok (negb (isStable l))) th.
Fixpoint count_threads (f : list lid -> res bool) (ths : list (list lid)) : res Z :=
  match ths with [] => Ok 0 | th :: ths => b ← f th; n ← count_threads f ths; Ok (if (b : bool) then n + 1 else n) end.
Definition getSlack : res Z :=
  nonEmpty ← count_threads (fun th => Ok (1 <? Z.of_nat (length th))) (events g);
  unstable ← count_threads unstable_thread (events g);
  Ok (wrap 32 (Z.min (Z.max 0 (unstable - 1)) (Z.max 0 (nonEmpty - 2)))).

(** [calculate], of debug builds. *)
Definition smaller (o : option Z) (b : Z) : option Z := Some (match o with Some r => Z.min r b | None => b end).
Fixpoint least (rec : list Z -> Z -> res Z) (v : list Z) (t : Z) (tps : list Z) (acc : option Z) : res (option Z) :=
  match tps with
  | [] => Ok acc
  | tp :: tps =>
      c ← maximal_event v tp;
      if negb c then least rec v t tps acc else
      sp ← shrinkViewByOne v tp; b ← rec sp tp; s ← switches v t tp;
      least rec v t tps (smaller acc (b + if (s : bool) then 1 else 0))
  end.
Fixpoint calculate_prefix (fuel : nat) (v : list Z) (t : Z) : res Z :=
  match fuel with
  | O => Abort OutOfFuel
  | S fuel =>
      v ← unfoldPrefix (unfold_fuel v t) v t;
      if ViewBase.empty v then Ok 0 else
      o ← least (calculate_prefix fuel) v t (seqZ 0 (getNumThreads g)) None; deref o
  end.
Fixpoint least_start (v : list Z) (ts : list Z) (acc : option Z) : res (option Z) :=
  match ts with
  | [] => Ok acc
  | i :: ts =>
      c ← maximal_event v i;
      if negb c then least_start v ts acc else
      sp ← shrinkViewByOne v i; b ← calculate_prefix (prefix_fuel v) sp i; least_start v ts (smaller acc b)
  end.
Definition calculate : res Z := v ← full_view; o ← least_start v (seqZ 0 (getNumThreads g)) None; deref o.
End context.
End ContextBoundDecider.

(** ** Rounds *)
Module RoundBoundDecider.
Import Clocks.
Section round.
Context (dbg : bool) (g : Graph.t).
Definition curr : View.vid := 1%positive.
Definition in_view (h : View.store) (i : lid) : res bool := l ← label g i; View.contains h curr (position l).
Definition areSCPredsInView (h : View.store) (e : Event.t) : res bool :=
  lab ← getEventLabel g e; l ← label g lab;
  if Class.isThreadStart (kind l) then p ← Relations.tc_pred g lab; p ← deref p; in_view h p
  else if Class.isKind Kind.ThreadJoin (kind l) then p ← Relations.tj_pred g lab; p ← deref p; in_view h p
  else if negb (Class.isMemAccess (kind l)) then Ok true
  else if Class.isRead (kind l) then w ← deref (readsFrom l); in_view h w
  else
    verify (Class.isWrite (kind l));;
    p ← Relations.co_imm_pred g lab;
    b ← match p with Some p => in_view h p | None => Ok true end;
    if negb b then Ok false else
    rs ← Relations.fr_imm_preds g lab; c ← Relations.anyM (fun r => b ← in_view h r; Ok (negb b)) rs; Ok (negb c).

Record progress := Progress { view : View.store; exist : bool; done : bool }.
Fixpoint advance (i : Z) (js : list Z) (p : progress) : res progress :=
  match js with
  | [] => Ok p
  | j :: js =>
      let next := Event.Event i (j + 1) in
      b ← areSCPredsInView (view p) next;
      if negb b then Ok (Progress (view p) (exist p) false) else
      h ← View.updateIdx dbg (view p) curr next; advance i js (Progress h true (done p))
  end.
Definition advance_thread (full : list Z) (p : progress) (i : Z) : res progress :=
  a ← View.getMax (view p) curr i; b ← ViewBase.getMax full i; advance i (seqZ a (b - a)) p.
Definition run_round (full : list Z) (h : View.store) : res progress :=
  foldM (advance_thread full) (Progress h false true) (seqZ 0 (getNumThreads g)).
Definition initial_view : res View.store :=
  foldM (fun h i => View.setMax dbg h curr (Event.Event i (-1))) (View.create View.empty_store curr) (seqZ 1 (getNumThreads g - 1)).

Fixpoint rounds (n : nat) (full : list Z) (h : View.store) : res bool :=
  match n with
  | O => Ok true
  | S n => p ← run_round full h; verify (exist p);; if done p then Ok false else rounds n full (view p)
  end.
Definition doesExecutionExceedBound (bound : Z) : res bool :=
  full ← ContextBoundDecider.full_view dbg g; h ← initial_view; rounds (S (Z.to_nat bound)) full h.

Fixpoint count_rounds (fuel : nat) (full : list Z) (h : View.store) (bound : Z) : res Z :=
  match fuel with
  | O => Abort OutOfFuel
  | S fuel => p ← run_round full h; if done p then Ok bound else verify (exist p);; count_rounds fuel full (view p) (bound + 1)
  end.
Definition round_fuel : nat := S (length (concat (events g))).
Definition calculate : res Z :=
  full ← ContextBoundDecider.full_view dbg g; h ← initial_view; count_rounds round_fuel full h 0.
End round.
End RoundBoundDecider.

(** ** The deciders *)
Module BoundDecider.
Section decider.
Context (dbg : bool) (t : Config.BoundType) (g : Graph.t).
Definition getSlack : res Z :=
  match t with
  | Config.context => ContextBoundDecider.getSlack g
  | Config.round => Ok 0
  | Config.bound_none => Abort Unreachable
  end.
Definition doesExecutionExceedBound1 (bound : Z) : res bool :=
  match t with
  | Config.context => ContextBoundDecider.doesExecutionExceedBound dbg g bound
  | Config.round => RoundBoundDecider.doesExecutionExceedBound dbg g bound
  | Config.bound_none => Abort Unreachable
  end.
Definition doesExecutionExceedBound (bound : Z) (strategy : BoundCalculationStrategy) : res bool :=
  slack ← (if bool_decide (strategy = Slacked) then getSlack else Ok 0); doesExecutionExceedBound1 (wrap 32 (bound + slack)).
Definition calculate : res Z :=
  match t with
  | Config.context => ContextBoundDecider.calculate dbg g
  | Config.round => RoundBoundDecider.calculate dbg g
  | Config.bound_none => Abort Unreachable
  end.
End decider.
End BoundDecider.

(** ** The decision agrees with the computed bound *)
Module ContextBound.
Import ContextBoundDecider.
(** A computation that does not run out of fuel. *)
Definition ends {A} (r : res A) : Prop := r <> Abort OutOfFuel.
Create HintDb ends discriminated.
Lemma ends_bind {A B} (m : res A) (f : A -> res B) : ends m -> (forall x, m = Ok x -> ends (f x)) -> ends (m ≫= f).
Proof. intros Hm Hf. destruct m as [x|e]; cbn; [by apply Hf|]. intros [= ->]. by apply Hm. Qed.
Lemma ends_deref {A} (o : option A) : ends (deref o).
Proof. by destruct o. Qed.
Lemma ends_vec_at {A} (v : list A) i : ends (vec_at v i).
Proof. unfold vec_at. case_decide; [done|apply ends_deref]. Qed.
Lemma ends_vec_set {A} (v : list A) i x : ends (vec_set v i x).
Proof. unfold vec_set. by case_decide. Qed.
Lemma ends_verify b : ends (verify b).
Proof. by destruct b. Qed.
Lemma ends_suffix i l : ends (Relations.suffix_after i l).
Proof. induction l as [|x l IH]; cbn; [done|]. by case_decide. Qed.
Lemma ends_at_loc m a : ends (at_loc m a).
Proof. unfold at_loc. by destruct (m !! a). Qed.
#[export] Hint Resolve ends_deref ends_vec_at ends_vec_set ends_verify ends_suffix ends_at_loc : ends.
Lemma ends_anyM f l : (forall x, ends (f x)) -> ends (Relations.anyM f l).
Proof. intros Hf. induction l as [|x l IH]; cbn; [done|]. apply ends_bind; [done|]. by intros []. Qed.
(** Follows the control flow. *)
Ltac ends := repeat first [ progress intros | progress (auto with ends nocore)
  | lazymatch goal with
    | |- ends (_ ≫= _) => apply ends_bind
    | |- ends (Relations.anyM _ _) => apply ends_anyM
    | |- ends (Ok _) => discriminate
    | |- ends (Abort _) => discriminate
    | |- ends (match ?x with _ => _ end) => destruct x
    end ].

Section ends.
Context (dbg : bool) (g : Graph.t).
Lemma ends_label i : ends (label g i).
Proof. unfold label. ends. Qed.
Lemma ends_getEventLabel e : ends (getEventLabel g e).
Proof. unfold getEventLabel. ends. Qed.
Lemma ends_getMax v t : ends (ViewBase.getMax v t).
Proof. unfold ViewBase.getMax. ends. Qed.
Hint Resolve ends_label ends_getEventLabel ends_getMax : ends.
Lemma ends_contains v e : ends (ViewBase.contains v e).
Proof. unfold ViewBase.contains. ends. Qed.
Lemma ends_dyn_cast c i : ends (dyn_cast c g i).
Proof. unfold dyn_cast. ends. Qed.
Hint Resolve ends_contains ends_dyn_cast : ends.
Lemma ends_last_in v t : ends (last_in g v t).
Proof. unfold last_in. ends. Qed.
Lemma ends_pos_in v i : ends (pos_in g v i).
Proof. unfold pos_in. ends. Qed.
Lemma ends_po_imm_succ i : ends (Relations.po_imm_succ g i).
Proof. unfold Relations.po_imm_succ, Relations.po. ends. Qed.
Lemma ends_tj_pred i : ends (Relations.tj_pred g i).
Proof. unfold Relations.tj_pred, getLastThreadLabel, dyn_cast_if_present. ends. Qed.
Lemma ends_tj_succ i : ends (Relations.tj_succ g i).
Proof. unfold Relations.tj_succ. ends. Qed.
Lemma ends_co_imm_succ i : ends (Relations.co_imm_succ g i).
Proof. unfold Relations.co_imm_succ, Relations.co_succs, Relations.co. ends. Qed.
Hint Resolve ends_last_in ends_pos_in ends_po_imm_succ ends_tj_pred ends_tj_succ ends_co_imm_succ : ends.
Lemma ends_find_in v ws : ends (find_in g v ws).
Proof. induction ws as [|w ws IH]; cbn; ends. Qed.
Hint Resolve ends_find_in : ends.
Lemma ends_canBlock v t : ends (canBlock g v t).
Proof. unfold canBlock. ends. Qed.
Lemma ends_isEnabled v t : ends (isEnabled g v t).
Proof. unfold isEnabled, lock_enabled, barrier_enabled, getInitLabel, Relations.rco, Relations.co. ends. Qed.
Lemma ends_isSCMaximal v t : ends (isSCMaximal g v t).
Proof. unfold isSCMaximal, no_later_store, Relations.co. ends. Qed.
Lemma ends_shrink v t : ends (shrinkViewByOne v t).
Proof. unfold shrinkViewByOne, ViewBase.setMax. ends. Qed.
Hint Resolve ends_canBlock ends_isEnabled ends_isSCMaximal ends_shrink : ends.
Lemma ends_maximal v t : ends (maximal_event g v t).
Proof. unfold maximal_event. ends. Qed.
Lemma ends_switches v t tp : ends (switches g v t tp).
Proof. unfold switches. ends. Qed.
End ends.
#[export] Hint Resolve ends_label ends_getEventLabel ends_getMax ends_contains ends_dyn_cast ends_last_in ends_pos_in ends_canBlock ends_isEnabled ends_isSCMaximal
  ends_shrink ends_maximal ends_switches : ends.

Section agree.
Context (dbg : bool) (g : Graph.t).
Definition within (o : option Z) (bound : Z) : bool := match o with Some b => b <=? bound | None => false end.
Lemma within_smaller o b bound : within (smaller o b) bound = within o bound || (b <=? bound).
Proof. destruct o as [r|]; cbn; lia. Qed.
Lemma none_started : false = true <-> is_Some (@None Z).
Proof. split; [done|intros [? H]; discriminate H]. Qed.
Lemma try_threads_ok rec rec' v t bound tps : 0 <= bound ->
  (forall sp tp b bound, 0 <= bound -> rec' sp tp = Ok b -> 0 <= b /\ rec sp tp bound = Ok (b <=? bound)) ->
  forall acc o exist, least g rec' v t tps acc = Ok o -> (exist = true <-> is_Some acc) -> (forall b, acc = Some b -> 0 <= b) -> within acc bound = false -> is_Some o ->
  (forall b, o = Some b -> 0 <= b) /\ try_threads g rec v t bound tps exist = Ok (within o bound).
Proof.
  intros Hb Hrec. induction tps as [|tp tps IH]; intros acc o exist H He Hacc Hw Ho; cbn [least try_threads] in *.
  - injection H as <-. split; [done|]. rewrite Hw. by rewrite (proj2 He Ho).
  - destruct (maximal_event g v tp) as [c|] eqn:Ec; [|done]. cbn [mbind res_bind] in *. destruct c; cbn [negb] in *; [|by eapply IH].
    destruct (shrinkViewByOne v tp) as [sp|] eqn:Es; [|done]. cbn [mbind res_bind] in *.
    destruct (rec' sp tp) as [b|] eqn:Er; [|done]. cbn [mbind res_bind] in *. destruct (switches g v t tp) as [s|]; [|done]. cbn [mbind res_bind] in *.
    assert (0 <= b) as Hb0 by (by apply (Hrec sp tp b 0)).
    assert ((if s then if negb (bound =? 0) then rec sp tp (bound - 1) else Ok false else rec sp tp bound) = Ok (b + (if s then 1 else 0) <=? bound)) as ->.
    { destruct s; [|rewrite (proj2 (Hrec sp tp b bound Hb Er)); f_equal; lia]. destruct (Z.eqb_spec bound 0) as [->|Hne]; cbn [negb]; [f_equal; lia|].
      rewrite (proj2 (Hrec sp tp b (bound - 1) ltac:(lia) Er)). f_equal. lia. }
    cbn [mbind res_bind]. set (b1 := b + if s then 1 else 0) in *. assert (0 <= b1) as Hb1 by (unfold b1; destruct s; lia).
    assert (forall r, smaller acc b1 = Some r -> 0 <= r) as Hacc1 by (intros r; destruct acc as [a|]; cbn; intros [= <-]; [specialize (Hacc a eq_refl); lia|done]).
    destruct (Z.leb_spec b1 bound) as [Hle|Hlt].
    + assert (within o bound = true /\ forall r, o = Some r -> 0 <= r) as [-> ?]; [|done].
      assert (within (smaller acc b1) bound = true) as Hw1 by (rewrite within_smaller; lia).
      clear IH Hw He Hacc. revert H Hw1 Hacc1. generalize (smaller acc b1). induction tps as [|tp' tps IH]; intros acc1 H Hw1 Hacc1; cbn [least] in H; [by injection H as <-|].
      destruct (maximal_event g v tp') as [c|]; [|done]. cbn [mbind res_bind] in H. destruct c; cbn [negb] in H; [|by apply (IH acc1)].
      destruct (shrinkViewByOne v tp') as [sp'|]; [|done]. cbn [mbind res_bind] in H. destruct (rec' sp' tp') as [b'|] eqn:Er'; [|done]. cbn [mbind res_bind] in H.
      destruct (switches g v t tp') as [s'|]; [|done]. cbn [mbind res_bind] in H. apply (IH _ H).
      * rewrite within_smaller, Hw1. done.
      * pose proof (proj1 (Hrec sp' tp' b' 0 ltac:(lia) Er')). intros r. destruct acc1 as [a|]; cbn; intros [= <-]; [specialize (Hacc1 a eq_refl)|]; destruct s'; lia.
    + apply (IH (smaller acc b1) o true H); [by split|done|rewrite within_smaller, Hw; lia|done].
Qed.
Lemma least_nonneg rec v t tps : (forall sp tp b, rec sp tp = Ok b -> 0 <= b) ->
  forall acc o, least g rec v t tps acc = Ok o -> (forall b, acc = Some b -> 0 <= b) -> forall b, o = Some b -> 0 <= b.
Proof.
  intros Hrec. induction tps as [|tp tps IH]; intros acc o H Hacc; cbn [least] in H; [by injection H as <-|].
  destruct (maximal_event g v tp) as [c|]; [|done]. cbn [mbind res_bind] in H. destruct c; cbn [negb] in H; [|by eapply IH].
  destruct (shrinkViewByOne v tp) as [sp|]; [|done]. cbn [mbind res_bind] in H. destruct (rec sp tp) as [b|] eqn:Er; [|done]. cbn [mbind res_bind] in H.
  destruct (switches g v t tp) as [s|]; [|done]. cbn [mbind res_bind] in H. apply (IH _ _ H). specialize (Hrec _ _ _ Er).
  intros r. destruct acc as [a|]; cbn; intros [= <-]; [specialize (Hacc a eq_refl)|]; destruct s; lia.
Qed.
Lemma prefix_ok fuel : forall v t b bound, 0 <= bound -> calculate_prefix g fuel v t = Ok b ->
  0 <= b /\ doesPrefixExceedBound g fuel v t bound = Ok (b <=? bound).
Proof.
  induction fuel as [|fuel IH]; intros v t b bound Hb H; [done|]. cbn [calculate_prefix doesPrefixExceedBound] in *.
  destruct (unfoldPrefix g (unfold_fuel v t) v t) as [v'|]; [|done]. cbn [mbind res_bind] in *.
  destruct (ViewBase.empty v'); [injection H as <-; split; [lia|f_equal; lia]|].
  destruct (least g (calculate_prefix g fuel) v' t (seqZ 0 (getNumThreads g)) None) as [o|] eqn:E; [|done]. cbn [mbind res_bind] in H.
  destruct o as [b'|]; [|done]. injection H as ->.
  destruct (try_threads_ok (doesPrefixExceedBound g fuel) (calculate_prefix g fuel) v' t bound (seqZ 0 (getNumThreads g)) Hb) with (acc := @None Z) (o := Some b) (exist := false) as [H1 H2]; try done.
  split; [by apply H1|exact H2].
Qed.
Lemma any_start_ok v bound ts : 0 <= bound -> forall acc o exist, least_start g v ts acc = Ok o -> (exist = true <-> is_Some acc) -> within acc bound = false -> is_Some o ->
  any_start g v bound ts exist = Ok (negb (within o bound)).
Proof.
  intros Hb. induction ts as [|i ts IH]; intros acc o exist H He Hw Ho; cbn [least_start any_start] in *.
  - injection H as <-. rewrite Hw. by rewrite (proj2 He Ho).
  - destruct (maximal_event g v i) as [c|]; [|done]. cbn [mbind res_bind] in *. destruct c; cbn [negb] in *; [|by eapply IH].
    destruct (shrinkViewByOne v i) as [sp|]; [|done]. cbn [mbind res_bind] in *.
    destruct (calculate_prefix g (prefix_fuel v) sp i) as [b|] eqn:Er; [|done]. cbn [mbind res_bind] in *.
    rewrite (proj2 (prefix_ok _ _ _ _ bound Hb Er)). cbn [mbind res_bind]. destruct (Z.leb_spec b bound) as [Hle|Hlt].
    + f_equal. symmetry. apply negb_false_iff. assert (within (smaller acc b) bound = true) as Hw1 by (rewrite within_smaller; lia).
      clear IH Hw He Ho. revert H Hw1. generalize (smaller acc b). induction ts as [|j ts IH]; intros acc1 H Hw1; cbn [least_start] in H; [by injection H as <-|].
      destruct (maximal_event g v j) as [c|]; [|done]. cbn [mbind res_bind] in H. destruct c; cbn [negb] in H; [|by apply (IH acc1)].
      destruct (shrinkViewByOne v j) as [sp'|]; [|done]. cbn [mbind res_bind] in H. destruct (calculate_prefix g (prefix_fuel v) sp' j) as [b'|]; [|done]. cbn [mbind res_bind] in H.
      apply (IH _ H). by rewrite within_smaller, Hw1.
    + apply (IH (smaller acc b) o true H); [by split|rewrite within_smaller, Hw; lia|done].
Qed.
Lemma context_bound_ok b bound : 0 <= bound -> calculate dbg g = Ok b -> doesExecutionExceedBound dbg g bound = Ok (bound <? b).
Proof.
  unfold calculate, doesExecutionExceedBound. intros Hb H. destruct (full_view dbg g) as [v|]; [|done]. cbn [mbind res_bind] in *.
  destruct (least_start g v (seqZ 0 (getNumThreads g)) None) as [o|] eqn:E; [|done]. cbn [mbind res_bind] in H. destruct o as [b'|]; [|done]. injection H as ->.
  rewrite (any_start_ok v bound _ Hb None (Some b) false E); [|apply none_started|done|done]. f_equal. cbn. lia.
Qed.

(** *** The fuel is enough: every step shrinks the view *)
Definition nonneg (v : list Z) : Prop := Forall (fun x => 0 <= x) v.
Definition total (v : list Z) : Z := foldr Z.add 0 v.
Lemma total_nonneg v : nonneg v -> 0 <= total v.
Proof. unfold total. induction 1; cbn in *; lia. Qed.
Lemma trim_total v : total (ViewBase.trim v) = total v.
Proof. unfold total. induction v as [|x v IH]; cbn; [done|]. destruct (ViewBase.trim v); cbn in *; [destruct (Z.eqb_spec x 0); cbn in *|]; lia. Qed.
Lemma insert_total v i x y : v !! i = Some y -> total (<[i := x]> v) = total v - y + x.
Proof. unfold total. revert i. induction v as [|z v IH]; intros [|i] H; cbn in *; [done..|injection H as ->; lia|]. rewrite IH by done. lia. Qed.
Lemma shrink_total v t v' : nonneg v -> shrinkViewByOne v t = Ok v' -> ViewBase.getMax v t <> Ok 0 ->
  nonneg v' /\ total v' = total v - 1 /\ ViewBase.clock v' t = ViewBase.clock v t - 1.
Proof.
  unfold shrinkViewByOne. intros Hv H Hm. destruct (ViewBase.getMax v t) as [m|] eqn:Em; [|done]. cbn [mbind res_bind] in H.
  unfold ViewBase.setMax in H. cbn [Event.prev Event.thread Event.index] in H. destruct (Z.leb_spec 0 t) as [Ht|]; [|done]. cbn [verify mbind res_bind] in H.
  rewrite ViewBase.vb_getMax_ok in Em by done. injection Em as Em.
  assert (t < ViewBase.size v) as Hs by (destruct (Z.lt_ge_cases t (ViewBase.size v)); [done|rewrite ViewBase.clock_ge in Em by lia; by subst]).
  rewrite decide_False in H by lia. rewrite decide_False in H by lia.
  unfold ViewBase.clock in *. destruct (v !! Z.to_nat t) as [y|] eqn:Ey; cbn in Em; [subst y|by subst].
  assert (0 < m) as Hpos by (assert (m <> 0) by congruence; pose proof (Forall_lookup_1 _ _ _ _ Hv Ey); cbn in *; lia).
  unfold vec_set in H. rewrite decide_True in H by (unfold ViewBase.size in Hs; lia). cbn [mbind res_bind] in H.
  assert (nonneg (<[Z.to_nat t := m - 1]> v)) as Hn by (apply Forall_insert; [done|cbn; lia]).
  assert (total (<[Z.to_nat t := m - 1]> v) = total v - 1) as Htot by (rewrite (insert_total _ _ _ _ Ey); lia).
  injection H as <-. case_decide.
  - rewrite trim_total. destruct (ViewBase.trim_spec (<[Z.to_nat t := m - 1]> v)) as [T1 T2]. split_and!; [by apply T2|done|].
    by rewrite T1, list_lookup_insert_eq by (by eapply lookup_lt_Some).
  - split_and!; [done|done|]. by rewrite list_lookup_insert_eq by (by eapply lookup_lt_Some).
Qed.
Lemma unfold_enough t n : forall m v, nonneg v -> ViewBase.clock v t < Z.of_nat n -> ViewBase.clock v t < Z.of_nat m ->
  unfoldPrefix g n v t = unfoldPrefix g m v t.
Proof.
  induction n as [|n IH]; intros [|m] v Hv Hn Hm; [done|unfold ViewBase.clock in *; destruct (v !! _) eqn:E; cbn in *; [pose proof (Forall_lookup_1 _ _ _ _ Hv E); cbn in *|]; lia..|].
  cbn [unfoldPrefix]. destruct (ViewBase.getMax v t) as [k|] eqn:Ek; [|done]. cbn [mbind res_bind]. destruct (Z.eqb_spec k 0); [done|].
  destruct (isSCMaximal g v t) as [b|]; [|done]. cbn [mbind res_bind]. destruct b; cbn [negb]; [|done].
  destruct (canBlock g v t) as [c|]; [|done]. cbn [mbind res_bind]. destruct c; [done|].
  destruct (shrinkViewByOne v t) as [v'|] eqn:Es; [|done]. cbn [mbind res_bind].
  destruct (shrink_total v t v' Hv Es) as (H1 & _ & H3); [rewrite Ek; congruence|]. apply IH; [done|lia..].
Qed.
Lemma unfold_ends t n : forall v, nonneg v -> ViewBase.clock v t < Z.of_nat n -> ends (unfoldPrefix g n v t).
Proof.
  induction n as [|n IH]; intros v Hv Hn.
  - unfold ViewBase.clock in Hn. destruct (v !! _) eqn:E; cbn in Hn; [pose proof (Forall_lookup_1 _ _ _ _ Hv E); cbn in *|]; lia.
  - cbn [unfoldPrefix]. apply ends_bind; [ends|]. intros k Ek. destruct (Z.eqb_spec k 0); [ends|].
    apply ends_bind; [ends|]. intros b _. destruct (negb b); [ends|]. apply ends_bind; [ends|]. intros c _. destruct c; [ends|].
    apply ends_bind; [ends|]. intros w Ew. destruct (shrink_total v t w Hv Ew) as (H1 & _ & H3); [rewrite Ek; congruence|]. apply IH; [done|lia].
Qed.
Lemma unfold_total t n : forall v v', nonneg v -> unfoldPrefix g n v t = Ok v' -> nonneg v' /\ total v' <= total v.
Proof.
  induction n as [|n IH]; intros v v' Hv H; [done|]. cbn [unfoldPrefix] in H.
  destruct (ViewBase.getMax v t) as [k|] eqn:Ek; [|done]. cbn [mbind res_bind] in H. destruct (Z.eqb_spec k 0); [by injection H as <-|].
  destruct (isSCMaximal g v t) as [b|]; [|done]. cbn [mbind res_bind] in H. destruct b; cbn [negb] in H; [|by injection H as <-].
  destruct (canBlock g v t) as [c|]; [|done]. cbn [mbind res_bind] in H. destruct c; [by injection H as <-|].
  destruct (shrinkViewByOne v t) as [w|] eqn:Es; [|done]. cbn [mbind res_bind] in H.
  destruct (shrink_total v t w Hv Es) as (H1 & H2 & _); [rewrite Ek; congruence|]. destruct (IH _ _ H1 H). split; [done|lia].
Qed.
Lemma shrink_maximal v tp sp : nonneg v -> maximal_event g v tp = Ok true -> shrinkViewByOne v tp = Ok sp -> nonneg sp /\ total sp < total v.
Proof.
  unfold maximal_event. intros Hv Hm Hs. destruct (shrink_total v tp sp Hv Hs) as (? & ? & _); [|split; [done|lia]].
  intros E. rewrite E in Hm. by cbn in Hm.
Qed.
Lemma least_ends rec v t tps : nonneg v -> (forall sp tp, nonneg sp -> total sp < total v -> ends (rec sp tp)) -> forall acc, ends (least g rec v t tps acc).
Proof.
  intros Hv Hr. induction tps as [|tp tps IH]; intros acc; cbn [least]; [ends|]. apply ends_bind; [ends|]. intros c Ec. destruct c; cbn [negb]; [|apply IH].
  apply ends_bind; [ends|]. intros sp Es. destruct (shrink_maximal v tp sp Hv Ec Es). apply ends_bind; [by apply Hr|]. intros b _. apply ends_bind; [ends|]. intros s _. apply IH.
Qed.
Lemma try_threads_ends rec v t bound tps : nonneg v -> (forall sp tp b, nonneg sp -> total sp < total v -> ends (rec sp tp b)) ->
  forall ex, ends (try_threads g rec v t bound tps ex).
Proof.
  intros Hv Hr. induction tps as [|tp tps IH]; intros ex; cbn [try_threads]; [ends|]. apply ends_bind; [ends|]. intros c Ec. destruct c; cbn [negb]; [|apply IH].
  apply ends_bind; [ends|]. intros sp Es. destruct (shrink_maximal v tp sp Hv Ec Es). apply ends_bind; [ends|]. intros s _.
  apply ends_bind; [destruct s; [destruct (negb _); [|done]|]; by apply Hr|]. intros r _. destruct r; [ends|apply IH].
Qed.
Lemma prefix_ends n : forall v t, nonneg v -> total v < Z.of_nat n ->
  ends (calculate_prefix g n v t) /\ forall bound, ends (doesPrefixExceedBound g n v t bound).
Proof.
  induction n as [|n IH]; intros v t Hv Hn; [pose proof (total_nonneg v Hv); lia|]. cbn [calculate_prefix doesPrefixExceedBound].
  assert (ends (unfoldPrefix g (unfold_fuel v t) v t)) as Hu by (apply unfold_ends; [done|unfold unfold_fuel; lia]).
  split; [|intros bound]; (apply ends_bind; [done|]); intros w Ew; destruct (unfold_total _ _ _ _ Hv Ew) as [Hw Hle]; (destruct (ViewBase.empty w); [ends|]).
  - apply ends_bind; [|ends]. apply least_ends; [done|]. intros sp tp Hsp Ht. apply IH; [done|lia].
  - apply try_threads_ends; [done|]. intros sp tp b Hsp Ht. apply IH; [done|lia].
Qed.
Lemma start_ends v ts : nonneg v -> (forall acc, ends (least_start g v ts acc)) /\ forall bound exist, ends (any_start g v bound ts exist).
Proof.
  intros Hv. pose proof (total_nonneg v Hv) as Hp. assert (forall sp, nonneg sp -> total sp < total v -> total sp < Z.of_nat (prefix_fuel v)) as Hf
    by (intros sp _ Hlt; unfold prefix_fuel, total in *; lia).
  induction ts as [|i ts [IH1 IH2]]; cbn [least_start any_start]; [split; ends|]. split; [intros acc|intros bound ex]; (apply ends_bind; [ends|]); intros c Ec;
    (destruct c; cbn [negb]; [|by auto]); (apply ends_bind; [ends|]); intros sp Es; destruct (shrink_maximal v i sp Hv Ec Es) as [H1 H2];
    (apply ends_bind; [by apply prefix_ends; [|apply Hf]|]); [by auto|]. intros r _. destruct r; [ends|apply IH2].
Qed.
Lemma search_ends : wf g -> Cut.all_stamped g -> ends (calculate dbg g) /\ forall bound, ends (doesExecutionExceedBound dbg g bound).
Proof.
  intros Hg Hs. unfold calculate, doesExecutionExceedBound, full_view. destruct (Clocks.fromStamp_spec dbg (timestamp g) g Hg Hs) as (v & -> & [Hv _] & _). cbn [mbind res_bind].
  assert (nonneg v) as Hn by exact Hv. destruct (start_ends v (seqZ 0 (getNumThreads g)) Hn) as [H1 H2]. split; [apply ends_bind; [done|ends]|done].
Qed.
Lemma least_ext rec rec' v t tps : nonneg v -> (forall sp tp, nonneg sp -> total sp < total v -> rec sp tp = rec' sp tp) ->
  forall acc, least g rec v t tps acc = least g rec' v t tps acc.
Proof.
  intros Hv Hr. induction tps as [|tp tps IH]; intros acc; cbn [least]; [done|]. destruct (maximal_event g v tp) as [c|] eqn:Ec; [|done]. cbn [mbind res_bind].
  destruct c; cbn [negb]; [|done]. destruct (shrinkViewByOne v tp) as [sp|] eqn:Es; [|done]. cbn [mbind res_bind].
  destruct (shrink_maximal v tp sp Hv Ec Es). rewrite Hr by done. destruct (rec' sp tp); [|done]. cbn [mbind res_bind]. by destruct (switches g v t tp); cbn [mbind res_bind].
Qed.
Lemma try_threads_ext rec rec' v t bound tps : nonneg v -> (forall sp tp b, nonneg sp -> total sp < total v -> rec sp tp b = rec' sp tp b) ->
  forall ex, try_threads g rec v t bound tps ex = try_threads g rec' v t bound tps ex.
Proof.
  intros Hv Hr. induction tps as [|tp tps IH]; intros ex; cbn [try_threads]; [done|]. destruct (maximal_event g v tp) as [c|] eqn:Ec; [|done]. cbn [mbind res_bind].
  destruct c; cbn [negb]; [|done]. destruct (shrinkViewByOne v tp) as [sp|] eqn:Es; [|done]. cbn [mbind res_bind].
  destruct (shrink_maximal v tp sp Hv Ec Es). destruct (switches g v t tp) as [s|]; [|done]. cbn [mbind res_bind]. rewrite !Hr by done.
  destruct (if s then _ else _) as [r|]; [|done]. cbn [mbind res_bind]. by destruct r.
Qed.
Lemma prefix_enough n : forall m v t, nonneg v -> total v < Z.of_nat n -> total v < Z.of_nat m ->
  calculate_prefix g n v t = calculate_prefix g m v t /\ forall bound, doesPrefixExceedBound g n v t bound = doesPrefixExceedBound g m v t bound.
Proof.
  induction n as [|n IH]; intros [|m] v t Hv Hn Hm; [done|pose proof (total_nonneg v Hv); lia..|]. cbn [calculate_prefix doesPrefixExceedBound].
  destruct (unfoldPrefix g (unfold_fuel v t) v t) as [w|] eqn:Ew; [|done]. cbn [mbind res_bind]. destruct (unfold_total _ _ _ _ Hv Ew).
  destruct (ViewBase.empty w); [done|]. split.
  - rewrite (least_ext _ (calculate_prefix g m)); [done|done|]. intros sp tp Hsp Ht. apply (IH m); [done|lia..].
  - intros bound. apply try_threads_ext; [done|]. intros sp tp b Hsp Ht. apply (IH m); [done|lia..].
Qed.
Lemma unfold_fuel_enough v t n : nonneg v -> 0 <= t -> (unfold_fuel v t <= n)%nat -> unfoldPrefix g n v t = unfoldPrefix g (unfold_fuel v t) v t.
Proof. intros Hv Ht Hn. unfold unfold_fuel in *. apply unfold_enough; [done|lia..]. Qed.
Lemma prefix_fuel_enough v w t n : nonneg v -> nonneg w -> total w <= total v -> (prefix_fuel v <= n)%nat ->
  calculate_prefix g n w t = calculate_prefix g (prefix_fuel v) w t /\
  forall bound, doesPrefixExceedBound g n w t bound = doesPrefixExceedBound g (prefix_fuel v) w t bound.
Proof.
  intros Hv Hw Hle Hn. pose proof (total_nonneg w Hw). apply prefix_enough; [done|unfold prefix_fuel, total in *; lia..].
Qed.
End agree.

(** *** The searches find a bound *)

(** The executions that are bounded: the labels are in the order of an interleaving, all
    threads have begun, joined threads have ended, and no thread waits at a barrier. *)
Record searchable (g : Graph.t) (o : list lid) : Prop := {
  se_checkable : Checkable.checkable g;
  se_order : SCChecker.interleaving g o;
  se_begins : Cut.begins g;
  se_links : Cut.no_dangling g;
  se_joins i l : in_graph g i -> store g !! i = Some l -> kind l = Kind.ThreadJoin ->
    exists e le, getLastThreadLabel g (childId l) = Ok (Some e) /\ store g !! e = Some le /\ kind le = Kind.ThreadFinish;
  se_barriers i l : in_graph g i -> store g !! i = Some l -> kind l <> Kind.BWaitRead;
  se_event : exists i l, in_graph g i /\ store g !! i = Some l /\ 0 < Event.index (position l)
}.

Section returns.
Context (g : Graph.t) (o : list lid) (Hse : searchable g o).
#[local] Abbreviation Hc := (se_checkable g o Hse).
#[local] Abbreviation Ho := (se_order g o Hse).
#[local] Abbreviation Hg := (Checkable.ck_wf g (se_checkable g o Hse)).

(** The views of events of the graph. *)
Definition inside (v : list Z) : Prop := ViewBase.wf v /\ forall t, 0 <= t ->
  match events g !! Z.to_nat t with Some th => ViewBase.clock v t < Z.of_nat (length th) | None => ViewBase.clock v t = 0 end.
Definition thread (t : Z) : Prop := 0 <= t < getNumThreads g.
Definition seen_in (v : list Z) (x : lid) : Prop := exists l, store g !! x = Some l /\ Event.index (position l) <= ViewBase.clock v (Event.thread (position l)).

Lemma execution_nodup : NoDup o.
Proof. rewrite (SCChecker.il_labels g o Ho). by apply concat_nodup, Hg. Qed.
Lemma ordered x : in_graph g x -> x ∈ o.
Proof. by rewrite (SCChecker.il_labels g o Ho). Qed.
Lemma label_info x : in_graph g x -> exists t th k l, events g !! t = Some th /\ th !! k = Some x /\ store g !! x = Some l /\
  position l = Event.Event (Z.of_nat t) (Z.of_nat k).
Proof. apply in_graph_pos, Hg. Qed.
Lemma pos_in_ok v x : in_graph g x -> exists b, pos_in g v x = Ok b /\ (b = true <-> seen_in v x).
Proof.
  intros Hx. destruct (label_info x Hx) as (t & th & k & l & Ht & Hk & Hl & Hp). unfold pos_in, seen_in. rewrite (label_ok _ _ _ Hl). cbn [mbind res_bind].
  rewrite Hp, ViewBase.vb_contains_ok by (cbn; lia). eexists. split; [done|]. rewrite Z.leb_le. split; [exists l; by rewrite Hp|].
  intros (l' & E & H). simplify_eq. by rewrite Hp in H.
Qed.
Lemma anyM_returns f l : (forall x, x ∈ l -> exists b, f x = Ok b) -> exists b, Relations.anyM f l = Ok b /\ (b = true -> exists x, x ∈ l /\ f x = Ok true).
Proof. intros Hf. destruct (Relations.anyM_cases f l Hf) as [(-> & x & H)|[-> _]]; [exists true|exists false]; (split; [done|]); [by exists x|done]. Qed.
Lemma last_in_ok v t : inside v -> thread t -> exists th x l, events g !! Z.to_nat t = Some th /\ last_in g v t = Ok x /\ th !! Z.to_nat (ViewBase.clock v t) = Some x /\
  store g !! x = Some l /\ position l = Event.Event t (ViewBase.clock v t) /\ in_graph g x.
Proof.
  intros [Hv Hin] [Ht1 Ht2]. specialize (Hin t Ht1). unfold getNumThreads in Ht2. destruct (lookup_lt_is_Some_2 (events g) (Z.to_nat t)) as [th Hth]; [lia|].
  rewrite Hth in Hin. pose proof (ViewBase.clock_nonneg v t Hv) as Hp. destruct (lookup_lt_is_Some_2 th (Z.to_nat (ViewBase.clock v t))) as [x Hx]; [lia|].
  destruct (wf_pos g Hg _ _ _ _ Hth Hx) as (l & Hl & Hpos). rewrite !Z2Nat.id in Hpos by lia. exists th, x, l. split; [done|]. split.
  - unfold last_in. rewrite ViewBase.vb_getMax_ok by done. cbn [mbind res_bind]. unfold getEventLabel. cbn [Event.thread Event.index].
    rewrite <- (Z2Nat.id t) at 1 by done. rewrite (vec_at_ok _ _ _ Hth). cbn [mbind res_bind]. rewrite <- (Z2Nat.id (ViewBase.clock v t)) by done. by apply vec_at_ok.
  - split_and!; try done. apply elem_concat. eauto.
Qed.
Lemma next_ok v t x : inside v -> thread t -> last_in g v t = Ok x -> exists n, Relations.po_imm_succ g x = Ok n /\ forall y, n = Some y -> exists l, in_graph g y /\ store g !! y = Some l.
Proof.
  intros Hv Ht E. destruct (last_in_ok v t Hv Ht) as (th & x' & l & Hth & E' & Hx & Hl & _). rewrite E in E'. injection E' as <-.
  rewrite (Relations.po_imm_succ_ok g Hg x l _ th _ Hl Hth Hx). eexists. split; [done|]. intros y Hy. destruct (wf_pos g Hg _ _ _ _ Hth Hy) as (ly & Hly & _).
  exists ly. split; [|done]. apply elem_concat. eauto.
Qed.
Lemma canBlock_ok v t : inside v -> thread t -> exists b, canBlock g v t = Ok b.
Proof.
  intros Hv Ht. destruct (last_in_ok v t Hv Ht) as (th & x & l & _ & E & _). destruct (next_ok v t x Hv Ht E) as (n & En & Hn).
  unfold canBlock. rewrite E. cbn [mbind res_bind]. rewrite En. cbn [mbind res_bind]. destruct n as [y|]; [|by eexists].
  destruct (Hn y eq_refl) as (ly & _ & Hly). rewrite (label_ok _ _ _ Hly). by eexists.
Qed.

(** **** Whether a thread can go on *)
Lemma find_in_ok v ws : (forall w, w ∈ ws -> in_graph g w) -> exists r, find_in g v ws = Ok r /\ forall w, r = Some w -> w ∈ ws.
Proof.
  induction ws as [|w ws IH]; intros Hw; cbn [find_in]; [by exists None|]. destruct (pos_in_ok v w) as (b & -> & _); [apply Hw; by left|]. cbn [mbind res_bind].
  destruct b; [exists (Some w); split; [done|]; intros ? [= <-]; by left|]. destruct IH as (r & -> & Hr); [intros y Hy; apply Hw; by right|].
  exists r. split; [done|]. intros y Hy. right. by apply Hr.
Qed.
Lemma lock_enabled_ok v a : is_Some (coherence g !! a) -> exists b, lock_enabled g v a = Ok b.
Proof.
  intros Hws. unfold lock_enabled, Relations.rco. rewrite (Relations.at_loc_ok _ _ Hws). cbn [mbind res_bind]. set (ws := list_at (coherence g) a).
  assert (forall w, w ∈ ws -> in_graph g w /\ exists lw, store g !! w = Some lw /\ Class.isWrite (kind lw) = true /\ getAddr lw = a) as Hco
    by (intros w Hw; by apply (wf_co g Hg a w)).
  destruct (find_in_ok v (rev ws)) as (r & -> & Hr); [intros w Hw; apply Hco; by rewrite elem_of_rev in Hw|]. cbn [mbind res_bind]. destruct r as [w|].
  - specialize (Hr w eq_refl). rewrite elem_of_rev in Hr. destruct (Hco w Hr) as (Hw & lw & Hlw & Hk & Ha). rewrite (label_ok _ _ _ Hlw). cbn [mbind res_bind].
    destruct (negb _); [by eexists|]. destruct (anyM_returns (fun e => l ← label g e; ViewBase.contains v (Event.next (position l))) (readerList lw)) as (b & -> & _); [|by eexists].
    intros x Hx. destruct (wf_readers g Hg w lw a x Hw Hlw) as (Hxg & _); [unfold readers_at; by rewrite Hk|].
    destruct (label_info x Hxg) as (t & th & k & l & _ & _ & Hl & Hp). rewrite (label_ok _ _ _ Hl). cbn [mbind res_bind]. rewrite Hp, ViewBase.vb_contains_ok by (cbn; lia). by eexists.
  - destruct (wf_init g Hg) as (n & ln & En & Hln & Hkn). rewrite En. cbn [mbind res_bind]. rewrite (label_ok _ _ _ Hln). cbn [mbind res_bind].
    rewrite (Relations.at_loc_ok _ _ (Checkable.ck_init g Hc n ln a En Hln Hws)). cbn [mbind res_bind].
    destruct (anyM_returns (pos_in g v) (list_at (initRfs ln) a)) as (b & -> & _); [|by eexists]. intros x Hx.
    destruct (wf_readers g Hg n ln a x) as (Hxg & _); [by eapply Checkable.at_event_in|done| |by destruct (pos_in_ok v x Hxg) as (b & ? & _); exists b].
    unfold readers_at. by rewrite Hkn.
Qed.
Lemma isEnabled_ok v t : inside v -> thread t -> exists b, isEnabled g v t = Ok b.
Proof.
  intros Hv Ht. destruct (last_in_ok v t Hv Ht) as (th & x & l & _ & E & _ & Hl & _). destruct (next_ok v t x Hv Ht E) as (n & En & Hn).
  unfold isEnabled. rewrite E. cbn [mbind res_bind]. rewrite (label_ok _ _ _ Hl). cbn [mbind res_bind]. destruct (Class.classofKind _ _); [by eexists|].
  rewrite En. cbn [mbind res_bind]. destruct n as [y|]; [|by eexists]. destruct (Hn y eq_refl) as (ly & Hy & Hly). rewrite (label_ok _ _ _ Hly). cbn [mbind res_bind].
  destruct (Class.isKind Kind.ThreadJoin (kind ly)) eqn:Ej.
  - apply bool_decide_eq_true in Ej. destruct (se_joins g o Hse y ly Hy Hly Ej) as (e & le & Ee & Hle & Hk).
    unfold Relations.tj_pred, dyn_cast_if_present, dyn_cast. rewrite (label_ok _ _ _ Hly). cbn [mbind res_bind]. rewrite Ej. change (Class.isKind Kind.ThreadJoin Kind.ThreadJoin) with true.
    rewrite Ee. cbn [mbind res_bind]. rewrite (label_ok _ _ _ Hle). cbn [mbind res_bind]. rewrite Hk. change (Class.isKind Kind.ThreadFinish Kind.ThreadFinish) with true. cbn [deref mbind res_bind].
    unfold getLastThreadLabel in Ee. rewrite (wf_po g Hg) in Ee. destruct (vec_at (events g) (childId ly)) as [th'|] eqn:Et; [|done]. injection Ee as Ee.
    apply vec_at_inv in Et as [_ Et]. destruct (pos_in_ok v e) as (b & -> & _); [|by eexists]. apply elem_concat. rewrite last_lookup in Ee. eauto.
  - destruct (Class.classofKind Class.CLockCasRead (kind ly)) eqn:El.
    + apply lock_enabled_ok, (wf_loc g Hg y ly Hy Hly). apply tracked_read. by destruct (kind ly).
    + assert (Class.isKind Kind.BWaitRead (kind ly) = false) as ->; [|by eexists]. apply bool_decide_eq_false, (se_barriers g o Hse y ly Hy Hly).
Qed.

(** **** Whether an event is maximal *)
Definition follows (v : list Z) (x : lid) : Prop := exists y ly, in_graph g y /\ store g !! y = Some ly /\ 0 < Event.index (position ly) /\ seen_in v y /\ Search.before o x y.
(** The answer of a test of whether a later event is in the view. *)
Definition tells (v : list Z) (x : lid) (r : res bool) : Prop := exists b, r = Ok b /\ (b = false -> follows v x).
Lemma tells_true v x : tells v x (Ok true).
Proof. by exists true. Qed.
Lemma past_begin y ly : in_graph g y -> store g !! y = Some ly -> Class.isThreadStart (kind ly) = false -> 0 < Event.index (position ly).
Proof.
  intros Hy Hly Hk. destruct (label_info y Hy) as (t & th & k & l & Ht & Hk' & Hl & Hp). simplify_eq. rewrite Hp. cbn. destruct k as [|k]; [|lia].
  destruct (se_begins g o Hse t th Ht) as (b & lb & Hb & Hlb & Hkb). simplify_eq. congruence.
Qed.
Lemma tells_pos_in v x y ly : in_graph g y -> store g !! y = Some ly -> Class.isThreadStart (kind ly) = false -> Search.before o x y ->
  tells v x (b ← pos_in g v y; Ok (negb b)).
Proof.
  intros Hy Hly Hk Hb. destruct (pos_in_ok v y Hy) as (b & -> & Hs). cbn [mbind res_bind]. eexists. split; [done|]. intros H%negb_false_iff.
  exists y, ly. split_and!; try done; [by eapply past_begin|by apply Hs].
Qed.
Lemma access_not_begin k : Class.isRead k = true \/ Class.isWrite k = true -> Class.isThreadStart k = false.
Proof. intros [H|H]; by destruct k. Qed.
Lemma co_succ_ok w lw a : in_graph g w -> store g !! w = Some lw -> Class.isWrite (kind lw) = true -> w ∈ list_at (coherence g) a ->
  exists s, Relations.co_imm_succ g w = Ok s /\ forall y, s = Some y -> Search.before (list_at (coherence g) a) w y.
Proof.
  intros Hw Hlw Hk Hco. destruct (Relations.co_at g Hg a w Hco) as (l & l1 & l2 & Hl & _ & _ & Hc' & H1 & H2).
  destruct (Relations.co_ranges g Hg a w l1 l2 Hco Hc' H1 H2) as [Hs _]. unfold Relations.co_imm_succ. rewrite Hs. cbn [mbind res_bind]. eexists. split; [done|].
  intros y Hy. destruct (Relations.co_list_at g _ _ Hc') as [-> _]. destruct l2 as [|z l2]; [done|]. injection Hy as ->. by exists l1, [], l2.
Qed.
Lemma later_store_ok v x l wLab : (isLocEmpty g (getAddr l) = false -> exists w lw, wLab = Some w /\ store g !! w = Some lw /\ in_graph g w /\
    (if Class.isWrite (kind lw) then w ∈ list_at (coherence g) (getAddr l) else kind lw = Kind.Init) /\
    forall y, y ∈ list_at (coherence g) (getAddr l) -> (Class.isWrite (kind lw) = true -> Search.before (list_at (coherence g) (getAddr l)) w y) -> Search.before o x y) ->
  tells v x (no_later_store g v l wLab).
Proof.
  intros Hw. unfold no_later_store. destruct (isLocEmpty g (getAddr l)) eqn:Ee; [apply tells_true|]. destruct (Hw eq_refl) as (w & lw & -> & Hlw & Hin & Hk & Hb).
  cbn [deref mbind res_bind]. rewrite (label_ok _ _ _ Hlw). cbn [mbind res_bind].
  assert (Hco : forall y, y ∈ list_at (coherence g) (getAddr l) -> exists ly, in_graph g y /\ store g !! y = Some ly /\ Class.isThreadStart (kind ly) = false).
  { intros y Hy. destruct (wf_co g Hg _ y Hy) as (H1 & ly & H2 & H3 & _). exists ly. split_and!; try done. apply access_not_begin. by right. }
  destruct (Class.isWrite (kind lw)) eqn:Ew.
  - assert (Class.isKind Kind.Init (kind lw) = false) as -> by (by destruct (kind lw)).
    unfold dyn_cast. rewrite (label_ok _ _ _ Hlw). cbn [mbind res_bind]. rewrite Ew. cbn [deref mbind res_bind].
    destruct (co_succ_ok w lw _ Hin Hlw Ew Hk) as (s & -> & Hs). cbn [mbind res_bind]. destruct s as [y|]; [|apply tells_true]. specialize (Hs y eq_refl).
    destruct (Search.before_in _ _ _ Hs) as [_ Hy]. destruct (Hco y Hy) as (ly & H1 & H2 & H3). eapply tells_pos_in; eauto.
  - rewrite Hk. change (Class.isKind Kind.Init Kind.Init) with true. cbn match. unfold isLocEmpty in Ee. unfold Relations.co, at_loc, list_at in *.
    destruct (coherence g !! getAddr l) as [[|y ws]|]; [done| |done]. cbn [mbind res_bind head deref default] in *.
    destruct (Hco y ltac:(by left)) as (ly & H1 & H2 & H3). eapply tells_pos_in; [done..|]. apply Hb; [by left|done].
Qed.
Lemma finish_tells v x l : in_graph g x -> store g !! x = Some l -> Class.isKind Kind.ThreadFinish (kind l) = true ->
  tells v x (o ← Relations.tj_succ g x; match o with None => Ok true | Some j => b ← pos_in g v j; Ok (negb b) end).
Proof.
  intros Hx Hl Hk. unfold Relations.tj_succ. rewrite (label_ok _ _ _ Hl). cbn [mbind res_bind]. rewrite Hk. destruct (parentJoin l) as [j|] eqn:Ej; [|apply tells_true].
  apply bool_decide_eq_true in Hk as Ek. destruct (se_links g o Hse x l j Hx Hl) as (Hj & lj & Hlj & Hkj); [|by rewrite Ek..|].
  { unfold Cut.links. rewrite Ek, Ej. cbn. by left. }
  apply (tells_pos_in v x j lj); try done. apply (SCChecker.il_sync g o Ho x j [j] Automaton.tj_succ); [done|right; by left| |by left].
  unfold Automaton.tj_succ, Automaton.one, Relations.tj_succ. rewrite (label_ok _ _ _ Hl). cbn [mbind res_bind]. by rewrite Hk, Ej.
Qed.
Lemma create_tells v x l : inside v -> in_graph g x -> store g !! x = Some l -> Class.isKind Kind.ThreadCreate (kind l) = true ->
  tells v x (m ← ViewBase.getMax v (childId l); Ok (m =? 0)).
Proof.
  intros Hv Hx Hl Hk. destruct (Checkable.lk_started g (Checkable.ck_linked g Hc) x l Hx Hl (or_introl Hk)) as [b Eb]. pose proof Eb as Eb'. unfold getEventLabel in Eb'. cbn [Event.thread Event.index] in Eb'.
  destruct (vec_at (events g) (childId l)) as [th|] eqn:Et; [|done]. cbn [mbind res_bind] in Eb'. apply vec_at_inv in Et as [Hpos Et]. apply vec_at_inv in Eb' as [_ Hb]. change (Z.to_nat 0) with 0%nat in Hb.
  rewrite ViewBase.vb_getMax_ok by done. cbn [mbind res_bind]. eexists. split; [done|]. intros Hm%Z.eqb_neq.
  pose proof (ViewBase.clock_nonneg v (childId l) (proj1 Hv)). assert (thread (childId l)) as Hth by (split; [done|unfold getNumThreads; apply lookup_lt_Some in Et; lia]).
  destruct (last_in_ok v _ Hv Hth) as (th' & y & ly & Hth' & _ & Hy & Hly & Hp & Hyg). simplify_eq. exists y, ly. rewrite Hp. cbn. split_and!; try done; [lia|exists ly; by rewrite Hp|].
  destruct (se_begins g o Hse _ _ Et) as (b1 & lb & Hb1 & Hlb & Hkb). assert (b1 = b) as -> by congruence.
  apply (Search.before_trans o x b y execution_nodup).
  - apply (SCChecker.il_sync g o Ho x b [b] Automaton.tc_succ); [done|by left| |by left].
    unfold Automaton.tc_succ, Automaton.one, Relations.tc_succ. rewrite (label_ok _ _ _ Hl). cbn [mbind res_bind]. rewrite Hk. unfold getFirstThreadLabel, dyn_cast. rewrite Eb. cbn [mbind res_bind].
    rewrite (label_ok _ _ _ Hlb). cbn [mbind res_bind]. by rewrite Hkb.
  - apply (SCChecker.il_po g o Ho th); [by eapply list_elem_of_lookup_2|]. apply Search.before_lookup. exists 0%nat, (Z.to_nat (ViewBase.clock v (childId l))). split_and!; [done..|lia].
Qed.
Lemma write_tells v x l : in_graph g x -> store g !! x = Some l -> Class.isWrite (kind l) = true ->
  tells v x (b ← Relations.anyM (pos_in g v) (readerList l); if (b : bool) then Ok false else no_later_store g v l (Some x)).
Proof.
  intros Hx Hl Hk. assert (Hrd : forall r, r ∈ readerList l -> in_graph g r /\ exists lr, store g !! r = Some lr /\ Class.isRead (kind lr) = true /\ readsFrom lr = Some x).
  { intros r Hr. destruct (wf_readers g Hg x l 0 r Hx Hl) as (H1 & lr & H2 & H3 & H4 & _); [unfold readers_at; by rewrite Hk|eauto 8]. }
  destruct (anyM_returns (pos_in g v) (readerList l)) as (b & -> & Hb); [intros r Hr; destruct (pos_in_ok v r) as (b & ? & _); [by apply Hrd|by exists b]|]. cbn [mbind res_bind]. destruct b.
  - exists false. split; [done|]. intros _. destruct (Hb eq_refl) as (r & Hr & Er). destruct (Hrd r Hr) as (Hrg & lr & Hlr & Hkr & Hrf). exists r, lr. split_and!; try done.
    + apply (past_begin r lr Hrg Hlr). apply access_not_begin. by left.
    + destruct (pos_in_ok v r Hrg) as (b & E & Hs). rewrite E in Er. injection Er as ->. by apply Hs.
    + by destruct (SCChecker.il_rf g o Ho r lr x l Hrg Hlr Hkr Hrf Hl Hk) as [? _].
  - apply later_store_ok. intros _. exists x, l. rewrite Hk. split_and!; try done; [by apply (Checkable.ck_placed g Hc x l)|].
    intros y _ Hy. by apply (SCChecker.il_co g o Ho (getAddr l)), Hy.
Qed.
Lemma read_tells v x l : in_graph g x -> store g !! x = Some l -> Class.isRead (kind l) = true -> tells v x (no_later_store g v l (readsFrom l)).
Proof.
  intros Hx Hl Hk. apply later_store_ok. intros _. destruct (Checkable.ck_source g Hc x l Hx Hl Hk) as (w & lw & Hrf & Hlw & Hw). exists w, lw.
  destruct (wf_rf g Hg x l w Hx Hl Hk Hrf) as [Hwg _]. split; [done|]. split; [done|]. split; [done|].
  assert (Hlate : forall y, y ∈ list_at (coherence g) (getAddr l) -> ~ Search.before o y x -> Search.before o x y).
  { intros y Hy Hn. destruct (wf_co g Hg _ y Hy) as (Hyg & ly & Hly & Hky & _). destruct (Search.before_total o x y (ordered x Hx) (ordered y Hyg)) as [->|[H|H]]; [|done..].
    simplify_eq. destruct (kind_disjoint _ Hk) as [E _]. congruence. }
  destruct (Class.isWrite (kind lw)) eqn:Ew.
  - split; [done|]. intros y Hy Hb. apply Hlate; [done|]. intros Hyx. specialize (Hb eq_refl). destruct (SCChecker.il_rf g o Ho x l w lw Hx Hl Hk Hrf Hlw Ew) as [_ Hlast].
    destruct (Hlast y Hy Hyx) as [->|H].
    + by apply (Search.before_irrefl (list_at (coherence g) (getAddr l)) w) in Hb; [|apply (wf_co_nodup g Hg)].
    + apply (Search.before_irrefl o w execution_nodup), (Search.before_trans o w y w execution_nodup); [|done]. by apply (SCChecker.il_co g o Ho (getAddr l)).
  - destruct (wf_init g Hg) as (n & ln & En & Hln & Hkn). rewrite Hw in En. injection En as <-. simplify_eq. split; [done|]. intros y Hy _. apply Hlate; [done|].
    by apply (SCChecker.il_init g o Ho x l w lw Hx Hl Hk Hrf Hlw Ew).
Qed.
Lemma isSCMaximal_ok v t : inside v -> thread t -> exists x, last_in g v t = Ok x /\ tells v x (isSCMaximal g v t).
Proof.
  intros Hv Ht. destruct (last_in_ok v t Hv Ht) as (th & x & l & _ & E & _ & Hl & _ & Hx). exists x. split; [done|].
  unfold isSCMaximal. rewrite E. cbn [mbind res_bind]. rewrite (label_ok _ _ _ Hl). cbn [mbind res_bind].
  destruct (Class.isKind Kind.ThreadFinish (kind l)) eqn:Ef; [by apply (finish_tells v x l)|].
  destruct (Class.isKind Kind.ThreadCreate (kind l)) eqn:Ec; [by apply (create_tells v x l)|].
  destruct (Class.isMemAccess (kind l)) eqn:Em; cbn [negb]; [|apply tells_true].
  destruct (Class.isWrite (kind l)) eqn:Ew; [by apply (write_tells v x l)|]. apply (read_tells v x l); [done..|]. by destruct (kind l).
Qed.

(** **** A view that is not empty has a maximal event *)
Lemma latest ts v : ts <> [] -> inside v -> (forall t, t ∈ ts -> thread t) ->
  exists t x, t ∈ ts /\ last_in g v t = Ok x /\ forall t' x', t' ∈ ts -> last_in g v t' = Ok x' -> x' = x \/ Search.before o x' x.
Proof.
  intros Hne Hv. induction ts as [|t ts IH]; intros Ht; [done|]. destruct (last_in_ok v t Hv (Ht t ltac:(by left))) as (_ & x & _ & _ & E & _ & _ & _ & Hx).
  destruct (decide (ts = [])) as [->|Hts].
  - exists t, x. split; [by left|]. split; [done|]. intros t' x' [->|[]%not_elem_of_nil]%elem_of_cons E'. left. congruence.
  - destruct IH as (u & y & Hu & Ey & Hmax); [done|intros t' Ht'; apply Ht; by right|].
    destruct (last_in_ok v u Hv (Ht u ltac:(by right))) as (_ & y' & _ & _ & Ey' & _ & _ & _ & Hy). rewrite Ey in Ey'. injection Ey' as <-.
    destruct (Search.before_total o x y (ordered x Hx) (ordered y Hy)) as [->|[Hb|Hb]].
    + exists u, y. split; [by right|]. split; [done|]. intros t' x' [->|Ht']%elem_of_cons E'; [left; congruence|by apply (Hmax t')].
    + exists u, y. split; [by right|]. split; [done|]. intros t' x' [->|Ht']%elem_of_cons E'; [right; congruence|by apply (Hmax t')].
    + exists t, x. split; [by left|]. split; [done|]. intros t' x' [->|Ht']%elem_of_cons E'; [left; congruence|]. right.
      destruct (Hmax t' x' Ht' E') as [->|Hb']; [done|]. by apply (Search.before_trans o x' y x execution_nodup).
Qed.
Lemma maximal_event_ok v t : inside v -> thread t -> exists b, maximal_event g v t = Ok b.
Proof.
  intros Hv Ht. unfold maximal_event. rewrite ViewBase.vb_getMax_ok by apply Ht. cbn [mbind res_bind]. destruct (_ =? 0); [by eexists|].
  destruct (isSCMaximal_ok v t Hv Ht) as (x & _ & b & -> & _). by eexists.
Qed.
Lemma in_threads v t : inside v -> 0 <= t -> 0 < ViewBase.clock v t -> thread t.
Proof.
  intros [_ Hin] Ht Hc. specialize (Hin t Ht). split; [done|]. unfold getNumThreads. destruct (events g !! Z.to_nat t) eqn:E; [|lia]. apply lookup_lt_Some in E. lia.
Qed.
Lemma seen_before v y ly : inside v -> in_graph g y -> store g !! y = Some ly -> 0 < Event.index (position ly) -> seen_in v y ->
  exists t x, thread t /\ 0 < ViewBase.clock v t /\ last_in g v t = Ok x /\ (y = x \/ Search.before o y x).
Proof.
  intros Hv Hy Hly Hi (l & Hl & Hle). simplify_eq. destruct (label_info y Hy) as (t & th & k & l & Ht & Hk & Hl & Hp). simplify_eq. rewrite Hp in *. cbn in Hi, Hle.
  assert (thread (Z.of_nat t)) as Hth by (apply (in_threads v); [done|lia..]). exists (Z.of_nat t). destruct (last_in_ok v _ Hv Hth) as (th' & x & lx & Hth' & E & Hx & _).
  rewrite Nat2Z.id in Hth'. simplify_eq. exists x. split; [done|]. split; [lia|]. split; [done|].
  destruct (decide (k = Z.to_nat (ViewBase.clock v (Z.of_nat t)))) as [->|Hne]; [left; congruence|right]. apply (SCChecker.il_po g o Ho th); [by eapply list_elem_of_lookup_2|].
  apply Search.before_lookup. exists k, (Z.to_nat (ViewBase.clock v (Z.of_nat t))). split_and!; [done..|lia].
Qed.
Lemma maximal_exists v : inside v -> ViewBase.empty v = false -> exists t, thread t /\ maximal_event g v t = Ok true.
Proof.
  intros Hv Hne. set (ts := filter (fun t => 0 < ViewBase.clock v t) (seqZ 0 (getNumThreads g))).
  assert (Hts : forall t, t ∈ ts <-> thread t /\ 0 < ViewBase.clock v t) by (intros t; unfold ts, thread; rewrite list_elem_of_filter, elem_of_seqZ; intuition lia).
  assert (ts <> []) as Hnil.
  { apply bool_decide_eq_false in Hne. pose proof Hv as [[Hnn Hl] _]. destruct (last v) as [z|] eqn:Ez; [|by apply last_None in Ez].
    pose proof (ViewBase.last_clock v z Ez) as Hclk. apply last_Some_elem_of in Ez as Hz. rewrite Forall_forall in Hnn. specialize (Hnn z Hz). cbn in Hnn.
    assert (0 < ViewBase.clock v (ViewBase.size v - 1)) as Hpos by (rewrite Hclk; assert (z <> 0) by congruence; lia).
    assert (0 <= ViewBase.size v - 1) by (unfold ViewBase.size; destruct v; [done|cbn; lia]).
    intros E. assert (ViewBase.size v - 1 ∈ ts) as Hmem by (apply Hts; split; [by apply (in_threads v)|done]). rewrite E in Hmem. by apply not_elem_of_nil in Hmem. }
  destruct (latest ts v Hnil Hv) as (t & x & Ht & E & Hmax); [intros t Ht; by apply Hts|]. apply Hts in Ht as [Ht Hpos]. exists t. split; [done|].
  unfold maximal_event. rewrite ViewBase.vb_getMax_ok by apply Ht. cbn [mbind res_bind]. destruct (Z.eqb_spec (ViewBase.clock v t) 0); [lia|].
  destruct (isSCMaximal_ok v t Hv Ht) as (x' & E' & b & -> & Hb). rewrite E in E'. injection E' as <-. destruct b; [done|]. exfalso.
  destruct (Hb eq_refl) as (y & ly & Hy & Hly & Hi & Hs & Hxy). destruct (seen_before v y ly Hv Hy Hly Hi Hs) as (u & z & Hu & Hpu & Ez & Hyz).
  assert (Search.before o x z) as Hxz by (destruct Hyz as [->|Hyz]; [done|by apply (Search.before_trans o x y z execution_nodup)]).
  apply (Search.before_irrefl o x execution_nodup). destruct (Hmax u z) as [->|Hzx]; [by apply Hts|done|done|by apply (Search.before_trans o x z x execution_nodup)].
Qed.

(** **** The searches return *)
Lemma shrink_ok v t : inside v -> thread t -> 0 < ViewBase.clock v t -> exists v', shrinkViewByOne v t = Ok v' /\ inside v'.
Proof.
  intros [Hv Hin] [Ht _] Hpos. unfold shrinkViewByOne. rewrite ViewBase.vb_getMax_ok by done. cbn [mbind res_bind].
  destruct (ViewBase.setMax_spec v (Event.prev (Event.Event t (ViewBase.clock v t))) Hv) as (v' & -> & Hv' & Hc'); [done|cbn; lia|]. exists v'. split; [done|]. split; [done|].
  intros u Hu. specialize (Hin u Hu). rewrite Hc' by done. cbn. destruct (decide (u = t)) as [->|]; [|done]. destruct (events g !! Z.to_nat t); lia.
Qed.
Lemma unfold_ok t n : forall v, inside v -> thread t -> ViewBase.clock v t < Z.of_nat n -> exists v', unfoldPrefix g n v t = Ok v' /\ inside v'.
Proof.
  induction n as [|n IH]; intros v Hv Ht Hn; [pose proof (ViewBase.clock_nonneg v t (proj1 Hv)); lia|]. cbn [unfoldPrefix]. rewrite ViewBase.vb_getMax_ok by apply Ht. cbn [mbind res_bind].
  destruct (Z.eqb_spec (ViewBase.clock v t) 0); [by exists v|]. destruct (isSCMaximal_ok v t Hv Ht) as (_ & _ & b & -> & _). cbn [mbind res_bind]. destruct b; cbn [negb]; [|by exists v].
  destruct (canBlock_ok v t Hv Ht) as [c ->]. cbn [mbind res_bind]. destruct c; [by exists v|].
  pose proof (ViewBase.clock_nonneg v t (proj1 Hv)) as Hnn. destruct (shrink_ok v t Hv Ht) as (w & Ew & Hw); [lia|]. rewrite Ew. cbn [mbind res_bind]. apply IH; [done..|].
  destruct (shrink_total v t w (proj1 (proj1 Hv)) Ew) as (_ & _ & Hc'); [rewrite ViewBase.vb_getMax_ok by apply Ht; congruence|lia].
Qed.
Lemma maximal_shrink v t : inside v -> thread t -> maximal_event g v t = Ok true -> exists sp, shrinkViewByOne v t = Ok sp /\ inside sp /\ total sp < total v.
Proof.
  intros Hv Ht Hm. assert (0 < ViewBase.clock v t) as Hpos.
  { unfold maximal_event in Hm. rewrite ViewBase.vb_getMax_ok in Hm by apply Ht. cbn [mbind res_bind] in Hm. pose proof (ViewBase.clock_nonneg v t (proj1 Hv)). destruct (Z.eqb_spec (ViewBase.clock v t) 0); [done|lia]. }
  destruct (shrink_ok v t Hv Ht Hpos) as (sp & E & Hsp). exists sp. split; [done|]. split; [done|]. by destruct (shrink_maximal g v t sp (proj1 (proj1 Hv)) Hm E).
Qed.
Lemma least_ok rec v t tps : inside v -> (forall tp, tp ∈ tps -> thread tp) -> (forall sp tp, inside sp -> thread tp -> total sp < total v -> exists b, rec sp tp = Ok b) ->
  forall acc, exists r, least g rec v t tps acc = Ok r /\ (is_Some acc \/ (exists tp, tp ∈ tps /\ maximal_event g v tp = Ok true) -> is_Some r).
Proof.
  intros Hv Hin Hrec. induction tps as [|tp tps IH]; intros acc; cbn [least].
  - exists acc. split; [done|]. intros [?|(tp & Htp & _)]; [done|by apply not_elem_of_nil in Htp].
  - assert (thread tp) as Ht by (apply Hin; by left). destruct (maximal_event_ok v tp Hv Ht) as [c Ec]. rewrite Ec. cbn [mbind res_bind]. destruct c; cbn [negb].
    + destruct (maximal_shrink v tp Hv Ht Ec) as (sp & -> & Hsp & Hlt). cbn [mbind res_bind]. destruct (Hrec sp tp Hsp Ht Hlt) as [b ->]. cbn [mbind res_bind].
      assert (exists s, switches g v t tp = Ok s) as [s ->] by (unfold switches; destruct (bool_decide _); [by apply isEnabled_ok|by eexists]). cbn [mbind res_bind].
      destruct (IH (fun tp H => Hin tp ltac:(by right)) (smaller acc (b + if s then 1 else 0))) as (r & -> & Hr). exists r. split; [done|]. intros _. apply Hr. left. unfold smaller. by eexists.
    + destruct (IH (fun tp H => Hin tp ltac:(by right)) acc) as (r & -> & Hr). exists r. split; [done|]. intros H. apply Hr. destruct H as [?|(u & [->|Hu]%elem_of_cons & Eu)]; [by left|congruence|right; by exists u].
Qed.
Lemma threads_range t : t ∈ seqZ 0 (getNumThreads g) <-> thread t.
Proof. unfold thread. rewrite elem_of_seqZ. lia. Qed.
Lemma calculate_prefix_ok n : forall v t, inside v -> thread t -> total v < Z.of_nat n -> exists b, calculate_prefix g n v t = Ok b.
Proof.
  induction n as [|n IH]; intros v t Hv Ht Hn; [pose proof (total_nonneg v (proj1 (proj1 Hv))); lia|]. cbn [calculate_prefix].
  destruct (unfold_ok t (unfold_fuel v t) v Hv Ht) as (w & Ew & Hw); [unfold unfold_fuel; lia|]. rewrite Ew. cbn [mbind res_bind].
  destruct (unfold_total g t _ v w (proj1 (proj1 Hv)) Ew) as [_ Hle]. destruct (ViewBase.empty w) eqn:Ee; [by eexists|].
  destruct (least_ok (calculate_prefix g n) w t (seqZ 0 (getNumThreads g)) Hw) with (acc := @None Z) as (r & -> & Hr); [intros tp; by rewrite threads_range|intros sp tp Hsp Htp Hlt; apply IH; [done..|lia]|].
  cbn [mbind res_bind]. destruct Hr as [b ->]; [|by exists b]. right. destruct (maximal_exists w Hw Ee) as (u & Hu & Em). exists u. by rewrite threads_range.
Qed.
Lemma least_start_ok v ts : inside v -> (forall i, i ∈ ts -> thread i) -> forall acc, exists r, least_start g v ts acc = Ok r /\
  (is_Some acc \/ (exists i, i ∈ ts /\ maximal_event g v i = Ok true) -> is_Some r).
Proof.
  intros Hv Hin. induction ts as [|i ts IH]; intros acc; cbn [least_start].
  - exists acc. split; [done|]. intros [?|(tp & Htp & _)]; [done|by apply not_elem_of_nil in Htp].
  - assert (thread i) as Ht by (apply Hin; by left). destruct (maximal_event_ok v i Hv Ht) as [c Ec]. rewrite Ec. cbn [mbind res_bind]. destruct c; cbn [negb].
    + destruct (maximal_shrink v i Hv Ht Ec) as (sp & -> & Hsp & Hlt). cbn [mbind res_bind]. pose proof (total_nonneg v (proj1 (proj1 Hv))).
      destruct (calculate_prefix_ok (prefix_fuel v) sp i Hsp Ht) as [b ->]; [unfold prefix_fuel, total in *; lia|]. cbn [mbind res_bind].
      destruct (IH (fun tp H => Hin tp ltac:(by right)) (smaller acc b)) as (r & -> & Hr). exists r. split; [done|]. intros _. apply Hr. left. unfold smaller. by eexists.
    + destruct (IH (fun tp H => Hin tp ltac:(by right)) acc) as (r & -> & Hr). exists r. split; [done|]. intros Hs. apply Hr. destruct Hs as [?|(u & [->|Hu]%elem_of_cons & Eu)]; [by left|congruence|right; by exists u].
Qed.
(** The view of all events holds every label. *)
Lemma all_at_end x : in_graph g x -> Cut.stamped (timestamp g) g x = true.
Proof.
  intros Hx. destruct (label_info x Hx) as (_ & _ & _ & l & _ & _ & Hl & _). destruct (Automata.Automaton.st_some g (Checkable.ck_stamped g Hc) x l Hx Hl) as (s & Hs & _ & Hle).
  unfold Cut.stamped. rewrite Hl, Hs. by apply Z.leb_le.
Qed.
Lemma stamped_all : Cut.all_stamped g.
Proof. intros x l Hx Hl. destruct (Automata.Automaton.st_some g (Checkable.ck_stamped g Hc) x l Hx Hl) as (s & -> & _). by eexists. Qed.
Lemma last_index_all P th : (forall x, x ∈ th -> P x = true) -> Cut.last_index P th = Z.of_nat (length th) - 1.
Proof.
  induction th as [|x th IH]; intros HP; [done|]. cbn [Cut.last_index length]. rewrite IH by (intros y Hy; apply HP; by right).
  rewrite (HP x) by (by left). destruct (Z.leb_spec 0 (Z.of_nat (length th) - 1)); lia.
Qed.
Lemma full_view_ok dbg : exists v, full_view dbg g = Ok v /\ inside v /\ ViewBase.empty v = false.
Proof.
  destruct (Clocks.fromStamp_spec dbg (timestamp g) g Hg stamped_all) as (v & E & Hv & Hclk). exists v. split; [exact E|].
  assert (forall t th, events g !! Z.to_nat t = Some th -> 0 <= t -> ViewBase.clock v t = Z.max 0 (Z.of_nat (length th) - 1)) as Hth.
  { intros t th Ht Hp. rewrite Hclk by done. unfold Cut.stamp_clock. rewrite Ht. f_equal. apply last_index_all. intros x Hx. apply all_at_end, elem_concat.
    apply list_elem_of_lookup in Hx as [k Hk]. eauto. }
  split.
  - split; [exact Hv|]. intros t Ht. destruct (events g !! Z.to_nat t) as [th|] eqn:Et.
    + rewrite (Hth t th Et Ht). destruct (se_begins g o Hse _ _ Et) as (b & _ & Hb & _). apply lookup_lt_Some in Hb. lia.
    + rewrite Hclk by done. unfold Cut.stamp_clock. by rewrite Et.
  - destruct (se_event g o Hse) as (i & l & Hi & Hl & Hpos). destruct (label_info i Hi) as (t & th & k & l' & Ht & Hk & Hl' & Hp). simplify_eq.
    rewrite Hp in Hpos. cbn in Hpos. apply bool_decide_eq_false. intros ->.
    assert (ViewBase.clock [] (Z.of_nat t) = Z.max 0 (Z.of_nat (length th) - 1)) as H by (apply Hth; [by rewrite Nat2Z.id|lia]).
    apply lookup_lt_Some in Hk. unfold ViewBase.clock in H. rewrite lookup_nil in H. cbn in H. lia.
Qed.
Lemma calculate_returns dbg : exists b, calculate dbg g = Ok b.
Proof.
  destruct (full_view_ok dbg) as (v & E & Hv & Hne). unfold calculate. rewrite E. cbn [mbind res_bind].
  destruct (least_start_ok v (seqZ 0 (getNumThreads g)) Hv (fun t => proj1 (threads_range t)) None) as (r & -> & Hr). cbn [mbind res_bind].
  destruct Hr as [b ->]; [|by exists b]. right. destruct (maximal_exists v Hv Hne) as (t & Ht & Em). exists t. by rewrite threads_range.
Qed.
End returns.

(** C35: Whether an execution exceeds a bound on preemptive context switches is decided
    correctly.  Neither of the two searches over the linearizations runs for ever, on any
    well-formed graph whose labels have stamps: each step shrinks the view that it
    explores, and the fuel that the events of the graph give is never used up.  When the
    least number of switches is found, the decision is the comparison with it.  And it is
    found, the assertions of both searches hold, and the decision is made, whenever the
    labels are in the order of an interleaving (the model is SC when executions are
    bounded), all threads have begun, joined threads have ended, no thread waits at a
    barrier, and something has happened: a view that is not empty has an event that no
    other event of the view follows, the last one of the interleaving. *)
Theorem context_decision_correct (dbg : bool) (g : Graph.t) : wf g -> Cut.all_stamped g ->
  calculate dbg g <> Abort OutOfFuel /\ (forall bound, doesExecutionExceedBound dbg g bound <> Abort OutOfFuel) /\
  (forall b bound, 0 <= bound -> calculate dbg g = Ok b -> doesExecutionExceedBound dbg g bound = Ok (bound <? b)) /\
  (forall o, searchable g o -> exists b, calculate dbg g = Ok b /\
     forall bound, 0 <= bound -> doesExecutionExceedBound dbg g bound = Ok (bound <? b)).
Proof.
  intros Hg Hs. destruct (search_ends dbg g Hg Hs) as [H1 H2]. split; [exact H1|]. split; [exact H2|]. split; [intros b bound; apply context_bound_ok|].
  intros o Hse. destruct (calculate_returns g o Hse dbg) as [b Hb]. exists b. split; [exact Hb|]. intros bound Hbound. by apply context_bound_ok.
Qed.

(** The first thread stores, the second one answers, and the first one reads the answer. *)
Definition pingpong : Graph.t := Script.script (Script.spawn ++ [
  Script.Add 4 (Script.write 0 2 MemOrdering.Relaxed Script.loc_x 1); Script.Co 4 1;
  Script.Add 5 (Script.read 1 1 MemOrdering.Relaxed Script.loc_x); Script.Rf 5 4;
  Script.Add 6 (Script.write 1 2 MemOrdering.Relaxed Script.loc_y 1); Script.Co 6 1;
  Script.Add 7 (Script.read 0 3 MemOrdering.Relaxed Script.loc_y); Script.Rf 7 6]).
Lemma each_label g (P : EventLabel.t -> Prop) `{forall l, Decision (P l)} :
  forallb (fun x => match store g !! x with Some l => bool_decide (P l) | None => true end) (concat (events g)) = true ->
  forall x l, in_graph g x -> store g !! x = Some l -> P l.
Proof. intros Hall x l Hx Hl. rewrite forallb_forall in Hall. specialize (Hall x (proj1 (list_elem_of_In _ _) Hx)). rewrite Hl in Hall. by apply bool_decide_eq_true in Hall. Qed.
Lemma pingpong_stamped : Cut.all_stamped pingpong.
Proof. unfold Cut.all_stamped. apply (each_label pingpong (fun l => is_Some (stamp l))). by vm_compute. Qed.
Lemma each_begin g : forallb (fun th => match head th with
    Some b => match store g !! b with Some l => Class.isThreadStart (kind l) | None => false end | None => false end) (events g) = true -> Cut.begins g.
Proof.
  intros H t th Ht. rewrite forallb_forall in H. specialize (H th (proj1 (list_elem_of_In _ _) (list_elem_of_lookup_2 _ _ _ Ht))).
  destruct th as [|b th]; [done|]. cbn in H. destruct (store g !! b) as [l|] eqn:El; [|done]. by exists b, l.
Qed.
(** The label is no join and waits at no barrier; its links lead to labels that are not begins. *)
Definition tame (g : Graph.t) (l : EventLabel.t) : bool :=
  bool_decide (kind l <> Kind.ThreadJoin /\ kind l <> Kind.BWaitRead) && (Class.isRead (kind l) || Class.isWrite (kind l) ||
  forallb (fun j => bool_decide (j ∈ concat (events g)) && match store g !! j with Some lj => negb (Class.isThreadStart (kind lj)) | None => false end) (Cut.links l)).
Lemma tame_searchable g : Checkable.checkable g -> SCChecker.isConsistent_graph g = Ok true -> Cut.begins g ->
  (forall x l, in_graph g x -> store g !! x = Some l -> tame g l = true) ->
  (exists x, x ∈ concat (events g) /\ match store g !! x with Some l => 0 < Event.index (position l) | None => False end) -> exists o, searchable g o.
Proof.
  intros Hc E Hb Hq (x & Hx & Hi). destruct (SCChecker.consistent_order g Hc) as (b & Eb & Ho). rewrite E in Eb. injection Eb as <-.
  destruct (proj1 Ho eq_refl) as (o & Hp & He). exists o.
  assert (forall y l, in_graph g y -> store g !! y = Some l -> kind l <> Kind.ThreadJoin /\ kind l <> Kind.BWaitRead) as Hk.
  { intros y l Hy Hl. specialize (Hq y l Hy Hl). unfold tame in Hq. apply andb_true_iff in Hq as [Hq _]. by apply bool_decide_eq_true in Hq. }
  split; [done|by apply SCChecker.order_interleaving|done|..].
  - intros y l j Hy Hl Hj Hr Hw. specialize (Hq y l Hy Hl). unfold tame in Hq. apply andb_true_iff in Hq as [_ Hq]. rewrite Hr, Hw in Hq. cbn in Hq.
    rewrite forallb_forall in Hq. specialize (Hq j (proj1 (list_elem_of_In _ _) Hj)). apply andb_true_iff in Hq as [Hj' Hs]. apply bool_decide_eq_true in Hj'. split; [done|].
    destruct (store g !! j) as [lj|]; [|done]. exists lj. split; [done|]. by apply negb_true_iff.
  - intros y l Hy Hl Hj. by destruct (proj1 (Hk y l Hy Hl)).
  - intros y l Hy Hl. apply (Hk y l Hy Hl).
  - exists x. destruct (store g !! x) as [l|]; [by exists l|done].
Qed.
Lemma pingpong_searchable : exists o, searchable pingpong o.
Proof.
  apply tame_searchable; [apply Script.script_checkable; vm_compute; reflexivity|vm_compute; reflexivity|apply each_begin; vm_compute; reflexivity|..].
  - apply (each_label pingpong (fun l => tame pingpong l = true)). vm_compute. reflexivity.
  - exists 7%nat. split; [|vm_compute; reflexivity]. apply (bool_decide_unpack (7%nat ∈ concat (events pingpong))). vm_compute. exact I.
Qed.
Lemma context_decision_correct_witness : calculate true pingpong = Ok 1 /\
  doesExecutionExceedBound true pingpong 0 = Ok true /\ doesExecutionExceedBound true pingpong 1 = Ok false.
Proof.
  destruct pingpong_searchable as [o Ho]. destruct (context_decision_correct true pingpong (Script.script_wf _) pingpong_stamped) as (_ & _ & _ & H).
  destruct (H o Ho) as (b & Hb & Hx). assert (b = 1) as -> by (vm_compute in Hb; congruence).
  split; [exact Hb|]. split; [by apply (Hx 0)|by apply (Hx 1)].
Defined.
End ContextBound.

(** ** The rounds *)
Module RoundBound.
Import RoundBoundDecider.
(** The view that the rounds start from means to be below the begins of the threads; an
    index of minus one is recorded for every thread but the first that is created. *)
Definition started (n : nat) (t : Z) : res Z :=
  h ← foldM (fun h i => View.setMax true h curr (Event.Event i (-1))) (View.create View.empty_store curr) (seqZ 1 (Z.of_nat n));
  View.getMax h curr t.
Lemma first_begin_is_skipped : started 1 1 = Ok 0 /\ started 2 1 = Ok 0 /\ started 3 1 = Ok 0 /\ started 3 2 = Ok (-1) /\ started 3 3 = Ok (-1).
Proof. vm_compute. tauto. Qed.
(** An execution of one thread that does nothing needs no round; the decider fails. *)
Lemma nothing_to_do : calculate true (Script.script []) = Ok 0 /\ doesExecutionExceedBound true (Script.script []) 0 = Abort VerifyFailed.
Proof. vm_compute. tauto. Qed.
Lemma pingpong_rounds : calculate true ContextBound.pingpong = Ok 1 /\
  doesExecutionExceedBound true ContextBound.pingpong 0 = Ok true /\ doesExecutionExceedBound true ContextBound.pingpong 1 = Ok false.
Proof. vm_compute. tauto. Qed.
End RoundBound.
