(* ===== verification/Scheduler.v ===== *)
(** * The scheduler

    Models Verification/Scheduler.{hpp,cpp} without the cache of labels: the schedule
    that replays a graph, the four policies that choose the next thread, priorities,
    and blocked reads that are tried again.  Random numbers are a parameter. *)

From stdpp Require Import relations.
From S2P Require Import Prelude Values Addresses Events VSet Views IntervalMap AdaptiveView ExecutionState Labels Graph Relations Cut Search Automata Checkable Scripts GraphUtils Calc Errors.
From S2P Require Import SCChecker TSOChecker RAChecker RC11Checker IMMChecker Checkers Config.
Import EventLabel Graph.
Local Open Scope Z_scope.

Inductive ActionKind := Load | NonLoad.
#[global] Instance ActionKind_eq_dec : EqDecision ActionKind. Proof. solve_decision. Defined.
Record Action := MkAction { action_kind : ActionKind; event : Event.t }.

Module Scheduler.

(** ** The replay schedule *)
Section replay.
Context (dbg : bool) (g : Graph.t).
Definition view0 : View.vid := 1%positive.

(** Events of the prefix of a label that the view does not contain; the view is
    updated first. *)
Definition replay_label (rec : option lid -> View.store * list Event.t -> res (View.store * list Event.t)) (tid : Z)
    (s : View.store * list Event.t) (i : Z) : res (View.store * list Event.t) :=
  pLab ← getEventLabel g (Event.Event tid i); p ← label g pLab;
  s ← (if Class.isRead (kind p) then rec (readsFrom p) s
       else if Class.isKind Kind.ThreadJoin (kind p) then o ← getLastThreadLabel g (childId p); rec o s
       else if Class.isThreadStart (kind p) then rec (createLab p) s
       else Ok s);
  Ok (if Class.isBlock (kind p) then s else (s.1, s.2 ++ [position p])).
Fixpoint calcPorfReplay (fuel : nat) (lab : option lid) (s : View.store * list Event.t) : res (View.store * list Event.t) :=
  match fuel with
  | O => Abort OutOfFuel
  | S fuel =>
      match lab with
      | None => Ok s
      | Some lab =>
          l ← label g lab; b ← View.contains s.1 view0 (position l);
          if (b : bool) then Ok s else
          i ← View.getMax s.1 view0 (getThread l);
          h ← View.updateIdx dbg s.1 view0 (position l);
          foldM (replay_label (calcPorfReplay fuel) (getThread l)) (h, s.2) (seqZ (i + 1) (getIndex l - i))
      end
  end.
Definition replay_fuel : nat := S (S (length (concat (events g)))).

Definition isSchedulable (thread : Z) : res bool :=
  lab ← getLastThreadLabel g thread; o ← dyn_cast_if_present (Class.classofKind Class.CTerminator) g lab;
  Ok (bool_decide (o = None)).

(** The vector of the code is built in the order of execution and reversed at the end. *)
Definition move_last (e : Event.t) (es : list Event.t) : res (list Event.t) :=
  match list_find (fun x => x = e) es with
  | Some (k, _) => Ok (delete k es ++ [e])
  | None => Abort VerifyFailed
  end.
Definition preliminary : res (list Event.t) :=
  s ← foldM (fun s i => lab ← getLastThreadLabel g i; calcPorfReplay replay_fuel lab s) (View.create View.empty_store view0, [])
    (seqZ 0 (getNumThreads g)); Ok s.2.
(** The predicates of [std::erase_if]. *)
Definition completed (pos : Event.t) : res bool :=
  lab ← getLastThreadLabel g (Event.thread pos); x ← deref lab; l ← label g x;
  b ← isSchedulable (getThread l); Ok (negb b && negb (Class.isBlock (kind l))).
Definition non_atomic (pos : Event.t) : res bool := i ← getEventLabel g pos; l ← label g i; Ok (isNotAtomic l).
Definition calculateReplaySchedule (conf : Config.t) (errorEvent : option Event.t) : res (list Event.t) :=
  result ← preliminary;
  result ← (match errorEvent with Some e => move_last e result | None => Ok result end);
  result ← (if negb (Config.replayCompletedThreads conf) && bool_decide (errorEvent = None) then Cut.erase_if completed result else Ok result);
  result ← (if negb (Config.disableRaceDetection conf) then Cut.erase_if non_atomic result else Ok result);
  Ok (reverse result).
End replay.

(** ** The state of a scheduler *)
Section scheduler.
(** The generator behind [std::uniform_int_distribution(0, n)]. *)
Context {R : Type} (dist : Z -> R -> Z * R) (dbg : bool) (conf : Config.t).

Record t := Scheduler {
  replaySchedule_ : list Event.t;
  eventToReexecute_ : option Event.t;
  readToReschedule_ : Event.t;
  threadPrios_ : list Event.t;
  rng_ : R
}.
Definition set_replaySchedule x s := Scheduler x (eventToReexecute_ s) (readToReschedule_ s) (threadPrios_ s) (rng_ s).
Definition setErrorReplayEvent x s := Scheduler (replaySchedule_ s) x (readToReschedule_ s) (threadPrios_ s) (rng_ s).
Definition setRescheduledRead x s := Scheduler (replaySchedule_ s) (eventToReexecute_ s) x (threadPrios_ s) (rng_ s).
Definition set_threadPrios x s := Scheduler (replaySchedule_ s) (eventToReexecute_ s) (readToReschedule_ s) x (rng_ s).
Definition set_rng x s := Scheduler (replaySchedule_ s) (eventToReexecute_ s) (readToReschedule_ s) (threadPrios_ s) x.
Definition create (r : R) : t := Scheduler [] None Event.getInit [] r.

Definition isRescheduledRead (r : Event.t) (s : t) : bool := bool_decide (readToReschedule_ s = r).
Definition isErrorReplayEvent (e : Event.t) (s : t) : bool := bool_decide (eventToReexecute_ s = Some e).
Definition inErrorReplay (s : t) : bool := bool_decide (is_Some (eventToReexecute_ s)).
Definition prioritize (pos : Event.t) (s : t) : t := set_threadPrios [pos] s.

Definition isSpeculative (k : Kind.t) : bool := Class.isKind Kind.SpeculativeRead k.
Definition is_speculative (g : Graph.t) (i : lid) : res bool := l ← label g i; Ok (isSpeculative (kind l)).
Definition prioritize_thread (g : Graph.t) (s : t) (tid : Z) : res t :=
  lab ← getLastThreadLabel g tid; lab ← deref lab; rLab ← dyn_cast Class.isRead g lab;
  match rLab with
  | None => Ok s
  | Some r =>
      rpreds ← Relations.po_preds g r; b ← Relations.anyM (is_speculative g) rpreds; l ← label g r;
      Ok (if isSpeculative (kind l) || b then prioritize (position l) s else s)
  end.
Definition resetExplorationOptions (g : Graph.t) (s : t) : res t :=
  let s := set_threadPrios [] (setRescheduledRead Event.getInit s) in
  r ← calculateReplaySchedule dbg g conf (eventToReexecute_ s);
  foldM (prioritize_thread g) (set_replaySchedule r s) (Relations.thr_ids g).

(** Events that have been replayed leave the end of the vector. *)
Fixpoint pop_replayed (runnable : list Action) (es : list Event.t) : res (list Event.t) :=
  match es with
  | [] => Ok []
  | e :: es' =>
      a ← vec_at runnable (Event.thread e);
      if Event.index e <=? Event.index (event a) then pop_replayed runnable es' else Ok es
  end.
Definition scheduleReplay (g : Graph.t) (runnable : list Action) (s : t) : res (option Z * t) :=
  es ← pop_replayed runnable (reverse (replaySchedule_ s));
  match es with
  | [] => Ok (None, set_replaySchedule [] s)
  | nextReplay :: es' =>
      a ← vec_at runnable (Event.thread nextReplay);
      lastLab ← getLastThreadLabel g (Event.thread nextReplay);
      eager ← (if bool_decide (eventToReexecute_ s = None) && bool_decide (Event.next (event a) = nextReplay) then
            last ← deref lastLab; ll ← label g last;
            if Class.isBlock (kind ll) && (Event.index nextReplay =? getIndex ll - 1) then
              p ← Relations.po_imm_pred g last; p ← deref p; o ← dyn_cast Class.isRead g p; Ok (bool_decide (is_Some o))
            else Ok false
          else Ok false);
      Ok (Some (Event.thread nextReplay), set_replaySchedule (reverse (if (eager : bool) then es' else es)) s)
  end.

Fixpoint first_tid (f : Z -> res bool) (tids : list Z) : res (option Z) :=
  match tids with [] => Ok None | tid :: tids => b ← f tid; if (b : bool) then Ok (Some tid) else first_tid f tids end.
Definition schedulePrioritized (g : Graph.t) (s : t) : res (option Z) :=
  if bool_decide (threadPrios_ s = []) then Ok None else
  verify (bool_decide (Config.bound conf = None));;
  first_tid (isSchedulable g) (map Event.thread (threadPrios_ s)).

Definition blocked_read (g : Graph.t) (tid : Z) : res (option lid) :=
  lab ← getLastThreadLabel g tid; dyn_cast_if_present (Class.isKind Kind.ReadOptBlock) g lab.
Definition rescheduleReads (g : Graph.t) (s : t) : res (option Z * Graph.t * t) :=
  r ← first_tid (fun tid => o ← blocked_read g tid; Ok (bool_decide (is_Some o))) (Relations.thr_ids g);
  match r with
  | None => Ok (None, g, s)
  | Some tid =>
      o ← blocked_read g tid; b ← deref o; l ← label g b;
      verify (bool_decide (Config.bound conf = None));;
      g' ← GraphUtils.unblockThread (position l) g;
      Ok (Some tid, g', setRescheduledRead (position l) s)
  end.

(** ** Policies *)
Fixpoint first_schedulable (g : Graph.t) (fuel : nat) (firstSched tid : Z) : res Z :=
  match fuel with
  | O => Abort OutOfFuel
  | S fuel =>
      o ← getFirstThreadLabel g tid; b ← deref o; l ← label g b;
      if symmPredTid l =? -1 then Ok firstSched else
      ok ← isSchedulable g (symmPredTid l);
      first_schedulable g fuel (if (ok : bool) then symmPredTid l else firstSched) (symmPredTid l)
  end.
Definition getFirstSchedulableSymmetric (g : Graph.t) (tid : Z) : res Z := first_schedulable g (S (length (events g))) tid tid.

Definition thread_of (a : Action) : Z := Event.thread (event a).
Fixpoint schedulable_actions (g : Graph.t) (runnable : list Action) : res (list Action) :=
  match runnable with
  | [] => Ok []
  | a :: runnable => b ← isSchedulable g (thread_of a); r ← schedulable_actions g runnable; Ok (if (b : bool) then a :: r else r)
  end.
Fixpoint find_action (f : Action -> res bool) (runnable : list Action) : res (option Action) :=
  match runnable with [] => Ok None | a :: runnable => b ← f a; if (b : bool) then Ok (Some a) else find_action f runnable end.
Definition LTR_schedulePolicy (g : Graph.t) (runnable : list Action) : res (option Z) :=
  o ← find_action (fun a => isSchedulable g (thread_of a)) runnable; Ok (option_map thread_of o).
(** The lambda of the search keeps the first schedulable thread. *)
Fixpoint find_nonload (g : Graph.t) (fallback : Z) (runnable : list Action) : res (option Action * Z) :=
  match runnable with
  | [] => Ok (None, fallback)
  | a :: runnable =>
      b ← isSchedulable g (thread_of a);
      if negb b then find_nonload g fallback runnable else
      let fallback := if fallback =? -1 then thread_of a else fallback in
      if negb (bool_decide (action_kind a = Load)) then Ok (Some a, fallback) else find_nonload g fallback runnable
  end.
Definition WF_schedulePolicy (g : Graph.t) (runnable : list Action) : res (option Z) :=
  '(result, fallback) ← find_nonload g (-1) runnable;
  match result with
  | Some a => t ← getFirstSchedulableSymmetric g (thread_of a); Ok (Some t)
  | None => if negb (fallback =? -1) then t ← getFirstSchedulableSymmetric g fallback; Ok (Some t) else Ok None
  end.
Fixpoint arbitrary_from (g : Graph.t) (runnable : list Action) (random : Z) (js : list Z) : res (option Z) :=
  match js with
  | [] => Ok None
  | i :: js =>
      action ← vec_at runnable ((i + random) mod Z.of_nat (length runnable));
      b ← isSchedulable g (thread_of action);
      if negb b then arbitrary_from g runnable random js else
      t ← getFirstSchedulableSymmetric g (thread_of action); Ok (Some t)
  end.
Definition Arbitrary_schedulePolicy (g : Graph.t) (runnable : list Action) (s : t) : res (option Z * t) :=
  let numThreads := Z.of_nat (length runnable) in
  let '(random, r) := dist numThreads (rng_ s) in
  o ← arbitrary_from g runnable random (seqZ 0 numThreads); Ok (o, set_rng r s).
Definition WFR_schedulePolicy (g : Graph.t) (runnable : list Action) (s : t) : res (option Z * t) :=
  able ← schedulable_actions g runnable;
  let writes := map thread_of (filter (fun a => action_kind a <> Load) able) in
  let nonwrites := map thread_of (filter (fun a => action_kind a = Load) able) in
  let selection := if negb (bool_decide (writes = [])) then writes else nonwrites in
  if bool_decide (selection = []) then Ok (None, s) else
  let '(k, r) := dist (Z.of_nat (length selection) - 1) (rng_ s) in
  candidate ← vec_at selection k;
  t ← getFirstSchedulableSymmetric g candidate; Ok (Some t, set_rng r s).
Definition schedulePolicy (p : Config.SchedulePolicy) (g : Graph.t) (runnable : list Action) (s : t) : res (option Z * t) :=
  match p with
  | Config.LTR => o ← LTR_schedulePolicy g runnable; Ok (o, s)
  | Config.WF => o ← WF_schedulePolicy g runnable; Ok (o, s)
  | Config.Arbitrary => Arbitrary_schedulePolicy g runnable s
  | Config.WFR => WFR_schedulePolicy g runnable s
  end.

Definition schedule (p : Config.SchedulePolicy) (g : Graph.t) (runnable : list Action) (s : t) : res (option Z * Graph.t * t) :=
  '(r, s) ← scheduleReplay g runnable s;
  match r with
  | Some tid => Ok (Some tid, g, s)
  | None =>
      r ← schedulePrioritized g s;
      match r with
      | Some tid => Ok (Some tid, g, s)
      | None =>
          '(r, s) ← schedulePolicy p g runnable s;
          match r with Some tid => Ok (Some tid, g, s) | None => rescheduleReads g s end
      end
  end.
End scheduler.
Arguments t : clear implicits.

(** ** Views that are being built *)
Lemma updateIdx_building dbg s v e : View.wf s -> View.building s v -> 0 <= Event.thread e ->
  exists s', View.updateIdx dbg s v e = Ok s' /\ View.good s v (View.upd (View.clk s v) e) s' /\ View.building s' v.
Proof.
  intros Hs (x & Hx & Hor) He.
  destruct (View.updateIdx_good dbg s v x e Hs Hx) as (s' & E & Hg); [|done|exists s'; split_and!; [done..|]].
  { intros _ Ho. destruct Hor as [Hn|[? _]]; [|done]. unfold View.owned in Ho. by rewrite Hn in Ho. }
  unfold View.updateIdx in E. rewrite (View.contains_ok s v x e Hs Hx He) in E. cbn [mbind res_bind] in E.
  destruct (Event.index e <=? View.clk s v (Event.thread e)); [injection E as <-; by exists x|].
  unfold View.view_of in E. rewrite Hx in E. cbn [deref mbind res_bind] in E.
  destruct Hor as [Hn|(Hdf & l & Hl & Hsole)].
  - assert (View.owned s x = None) as Ho by (unfold View.owned; by rewrite Hn). rewrite Ho, Hn in E.
    destruct (Event.isInitializer (View.diff_ x)); [injection E as <-; eexists; split; [apply lookup_insert_eq|by left]|].
    case_decide; [injection E as <-; eexists; split; [apply lookup_insert_eq|by left]|].
    destruct (View.hydrate_good s v x Hs Hx) as (s1 & l & Eh & Hg1 & Hv1 & Hsole & _). rewrite Eh in E. cbn [mbind res_bind] in E.
    destruct (View.base_updateIdx_good s1 v _ l e (proj1 Hg1) Hv1 eq_refl Hsole He) as (s2 & E2 & _ & Ev). rewrite E2 in E. injection E as <-.
    eexists. split; [rewrite Ev; exact Hv1|]. right. split; [done|]. exists l. split; [done|]. unfold View.sole in *. by rewrite Ev.
  - rewrite (View.sole_owned s v x l Hx Hl Hsole) in E. res_inv.
    destruct (View.base_updateIdx_good s v x l e Hs Hx Hl Hsole He) as (s2 & E2 & _ & Ev). rewrite E2 in E. injection E as <-.
    exists x. split; [by rewrite Ev|]. right. split; [done|]. exists l. split; [done|]. unfold View.sole in *. by rewrite Ev.
Qed.

(** ** Lists *)
Lemma erase_if_filter {A} (cond : A -> res bool) l : (forall x, x ∈ l -> exists b, cond x = Ok b) ->
  Cut.erase_if cond l = Ok (filter (fun x => cond x = Ok false) l).
Proof.
  induction l as [|x l IH]; intros H; [done|]. cbn [Cut.erase_if]. destruct (H x ltac:(left)) as [b Eb]. rewrite Eb. cbn [mbind res_bind].
  rewrite IH by (intros y Hy; apply H; by right). cbn [mbind res_bind]. rewrite filter_cons. destruct b.
  - by rewrite decide_False by (rewrite Eb; done).
  - by rewrite decide_True by done.
Qed.
Lemma before_filter {A} (Q : A -> Prop) `{!forall x, Decision (Q x)} l x y : Search.before l x y -> Q x -> Q y -> Search.before (filter Q l) x y.
Proof.
  intros (l1 & l2 & l3 & ->) Hx Hy. exists (filter Q l1), (filter Q l2), (filter Q l3).
  rewrite filter_app, filter_cons_True, filter_app, filter_cons_True by done. done.
Qed.
Lemma before_reverse {A} (l : list A) x y : Search.before l x y -> Search.before (reverse l) y x.
Proof.
  intros (l1 & l2 & l3 & ->). exists (reverse l3), (reverse l2), (reverse l1).
  by rewrite reverse_app, reverse_cons, reverse_app, reverse_cons, <- !app_assoc.
Qed.
Lemma move_last_ok e s : NoDup s -> e ∈ s -> move_last e s = Ok (filter (fun x => x <> e) s ++ [e]).
Proof.
  intros Hnd He. unfold move_last. destruct (list_find (fun x => x = e) s) as [[k x]|] eqn:E.
  - apply list_find_Some in E as (Ek & -> & Hf). f_equal. f_equal. rewrite (delete_take_drop s k).
    rewrite <- (take_drop_middle s k e Ek) at 3. rewrite filter_app, filter_cons_False by tauto.
    rewrite <- (take_drop_middle s k e Ek) in Hnd. apply NoDup_app in Hnd as (_ & H1 & H2). apply NoDup_cons in H2 as [H2 _].
    f_equal; symmetry; apply list_filter_all; intros y Hy ->; [by apply (H1 e Hy); left|done].
  - apply list_find_None in E. rewrite Forall_forall in E. by apply E in He.
Qed.

(** ** The replay schedule is a linearization *)
Section order.
Context (g : Graph.t) (Hg : wf g).
(** The initial views contain the labels of index zero. *)
Definition counted (x : lid) (l : EventLabel.t) : Prop := in_graph g x /\ store g !! x = Some l /\ 0 < getIndex l.
Definition replayed (x : lid) (l : EventLabel.t) : Prop := counted x l /\ Class.isBlock (kind l) = false.
(** What has to come before a label. *)
Inductive dep (x y : lid) : Prop :=
  | dep_po lx ly : counted x lx -> counted y ly -> getThread ly = getThread lx -> getIndex ly = getIndex lx - 1 -> dep x y
  | dep_rf lx ly : counted x lx -> counted y ly -> Class.isRead (kind lx) = true -> readsFrom lx = Some y -> dep x y
  | dep_join lx ly : counted x lx -> counted y ly -> kind lx = Kind.ThreadJoin -> getLastThreadLabel g (childId lx) = Ok (Some y) -> dep x y
  | dep_create lx ly : counted x lx -> counted y ly -> Class.isThreadStart (kind lx) = true -> createLab lx = Some y -> dep x y.
Record replayable (rank : lid -> nat) : Prop := {
  rp_rank x y : dep x y -> (rank y < rank x)%nat;
  rp_join x l : counted x l -> kind l = Kind.ThreadJoin -> exists o, getLastThreadLabel g (childId l) = Ok o;
  rp_create x l y : counted x l -> Class.isThreadStart (kind l) = true -> createLab l = Some y -> in_graph g y
}.

Lemma thread_label_at x l j : in_graph g x -> store g !! x = Some l -> 0 <= j <= getIndex l ->
  exists y ly, getEventLabel g (Event.Event (getThread l) j) = Ok y /\ in_graph g y /\ store g !! y = Some ly /\
    position ly = Event.Event (getThread l) j.
Proof.
  intros Hx El Hj. destruct (in_graph_pos g Hg x Hx) as (t & th & k & l' & Et & Ek & El' & Ep).
  assert (l' = l) as -> by congruence. unfold getThread, getIndex in *. rewrite Ep in *. cbn in *.
  destruct (lookup_lt_is_Some_2 th (Z.to_nat j)) as [y Hy]; [apply lookup_lt_Some in Ek; lia|].
  destruct (wf_pos g Hg t th _ y Et Hy) as (ly & Ely & Epy). exists y, ly. split_and!; [|apply elem_concat; eauto|done|rewrite Epy; f_equal; lia].
  pose proof (getEventLabel_pos g _ _ _ _ Et Hy) as E. by rewrite Z2Nat.id in E by lia.
Qed.
Lemma position_inj x y lx ly : in_graph g x -> in_graph g y -> store g !! x = Some lx -> store g !! y = Some ly ->
  position lx = position ly -> x = y.
Proof.
  intros Hx Hy Ex Ey E. destruct (in_graph_pos g Hg x Hx) as (t & th & k & l' & Et & Ek & El' & Ep).
  destruct (in_graph_pos g Hg y Hy) as (t2 & th2 & k2 & l2 & Et2 & Ek2 & El2 & Ep2). simplify_eq. rewrite Ep, Ep2 in E. injection E as E1 E2.
  apply Nat2Z.inj in E1 as ->, E2 as ->. congruence.
Qed.
Lemma thread_nonneg x l : in_graph g x -> store g !! x = Some l -> 0 <= getThread l /\ 0 <= getIndex l.
Proof.
  intros Hx El. destruct (in_graph_pos g Hg x Hx) as (t & th & k & l' & Et & Ek & El' & Ep). simplify_eq.
  unfold getThread, getIndex. rewrite Ep. cbn. lia.
Qed.

Lemma last_label_in tid y : getLastThreadLabel g tid = Ok (Some y) -> in_graph g y.
Proof.
  unfold getLastThreadLabel. rewrite (wf_po g Hg). intros E. res_inv. apply vec_at_inv in E0 as [_ E0].
  rewrite last_lookup in E. apply elem_concat. eauto.
Qed.

Context (rank : lid -> nat) (Hr : replayable rank) (dbg : bool).
Lemma rank_po x y lx ly : counted x lx -> counted y ly -> getThread ly = getThread lx -> getIndex ly < getIndex lx -> (rank y < rank x)%nat.
Proof.
  intros Hx Hy Et. remember (Z.to_nat (getIndex lx - getIndex ly)) as n eqn:En. revert x lx Hx Et En.
  induction n as [|n IH]; intros x lx Hx Et En Hlt; [lia|].
  destruct (decide (getIndex ly = getIndex lx - 1)) as [E|E]; [by apply (rp_rank rank Hr), (dep_po _ _ lx ly)|].
  destruct Hx as (Hxi & Ex & Hx0). destruct (thread_label_at x lx (getIndex lx - 1)) as (z & lz & _ & Hz & Ez & Ep); [done|done|lia|].
  assert (getThread lz = getThread lx /\ getIndex lz = getIndex lx - 1) as [Ezt Ezi] by (unfold getThread, getIndex in *; by rewrite Ep).
  assert (counted z lz) as Hcz by (split_and!; [done|done|destruct Hy as (_ & _ & ?); lia]).
  etransitivity; [apply (IH z lz); [done|congruence|lia|lia]|]. apply (rp_rank rank Hr), (dep_po _ _ lx lz); done.
Qed.

Implicit Types (h : View.store) (sched : list Event.t) (P : Event.t -> Prop).
#[local] Abbreviation clk h t := (View.clk h view0 t).
Definition covered (s : list Event.t) (e : Event.t) : Prop := forall z lz, replayed z lz -> getThread lz = Event.thread e ->
  getIndex lz <= Event.index e -> position lz ∈ s.
Definition ordered (s : list Event.t) : Prop := forall l1 e l2, s = l1 ++ e :: l2 ->
  forall x lx y ly, counted x lx -> position lx = e -> dep x y -> counted y ly -> covered l1 (position ly).
Lemma ordered_snoc s e : ordered s -> (forall x lx y ly, counted x lx -> position lx = e -> dep x y -> counted y ly -> covered s (position ly)) ->
  ordered (s ++ [e]).
Proof.
  intros Hs He l1 e' l2 E. destruct (decide (l2 = [])) as [->|Hne].
  - apply app_inj_tail in E as [-> ->]. exact He.
  - destruct (exists_last Hne) as (l3 & e3 & ->). rewrite app_comm_cons, app_assoc in E. apply app_inj_tail in E as [-> ->].
    by apply (Hs l1 e' l3).
Qed.

(** The view [h], the schedule, and the labels whose calls have not ended. *)
Record inv h sched P : Prop := {
  i_wf : View.wf h;
  i_view : View.building h view0;
  i_nodup : NoDup sched;
  i_in e : e ∈ sched -> exists x l, replayed x l /\ position l = e /\ Event.index e <= clk h (Event.thread e);
  i_all x l : replayed x l -> getIndex l <= clk h (getThread l) -> position l ∈ sched \/ P (position l);
  i_pending e : P e -> e ∉ sched;
  i_order : ordered sched
}.
Definition seen h (x : lid) : bool := match store g !! x with Some l => getIndex l <=? clk h (getThread l) | None => true end.
Definition unseen h : nat := length (filter (fun x => seen h x = false) (concat (events g))).
Lemma unseen_le h h' : (forall t, 0 <= t -> clk h t <= clk h' t) -> (unseen h' <= unseen h)%nat.
Proof.
  intros Hle. unfold unseen. assert (Forall (in_graph g) (concat (events g))) as Hin by (by apply Forall_forall).
  induction Hin as [|x xs Hx _ IH]; [done|]. rewrite !filter_cons.
  destruct (decide (seen h' x = false)) as [E'|E']; [|case_decide; cbn; lia].
  rewrite decide_True; [cbn; lia|]. unfold seen in *. destruct (store g !! x) as [l|] eqn:El; [|done].
  destruct (thread_nonneg x l Hx El) as [Ht _]. specialize (Hle (getThread l) Ht). lia.
Qed.
Lemma unseen_lt h h' x : (forall t, 0 <= t -> clk h t <= clk h' t) -> in_graph g x -> seen h x = false -> seen h' x = true ->
  (unseen h' < unseen h)%nat.
Proof.
  intros Hle Hx Es Es'. unfold unseen. assert (Forall (in_graph g) (concat (events g))) as Hin by (by apply Forall_forall).
  unfold in_graph in Hx. revert Hx. induction Hin as [|y ys Hy Hys IH]; intros Hx; [by apply not_elem_of_nil in Hx|].
  assert (forall y, in_graph g y -> seen h' y = false -> seen h y = false) as Hmono.
  { intros z Hz. unfold seen. destruct (store g !! z) as [l|] eqn:El; [|done]. destruct (thread_nonneg z l Hz El) as [Ht _]. specialize (Hle _ Ht). lia. }
  assert (length (filter (fun x => seen h' x = false) ys) <= length (filter (fun x => seen h x = false) ys))%nat as Hle2.
  { clear -Hys Hmono. induction Hys as [|z zs Hz _ IH]; [done|]. rewrite !filter_cons. destruct (decide (seen h' z = false)); [rewrite decide_True by auto; cbn; lia|case_decide; cbn; lia]. }
  rewrite !filter_cons. apply elem_of_cons in Hx as [->|Hx].
  - rewrite decide_False by congruence. rewrite decide_True by done. cbn. lia.
  - specialize (IH Hx). destruct (decide (seen h' y = false)); [rewrite decide_True by auto; cbn; lia|case_decide; cbn; lia].
Qed.

Definition call_ok (fuel : nat) (rec : option lid -> View.store * list Event.t -> res (View.store * list Event.t)) : Prop :=
  forall lab l h sched P, in_graph g lab -> store g !! lab = Some l -> inv h sched P -> (unseen h < fuel)%nat ->
    (0 < getIndex l -> forall x lx, counted x lx -> P (position lx) -> (rank lab < rank x)%nat) ->
    exists h' sched', rec (Some lab) (h, sched) = Ok (h', sched') /\ inv h' sched' P /\
      (forall t, 0 <= t -> clk h t <= clk h' t) /\ getIndex l <= clk h' (getThread l).
Definition call_none (rec : option lid -> View.store * list Event.t -> res (View.store * list Event.t)) : Prop :=
  forall s, rec None s = Ok s.

(** What a call owes while it goes through the labels from [i] to [n] of its thread. *)
Definition owes P (t i n : Z) (e : Event.t) : Prop := P e \/ Event.thread e = t /\ i <= Event.index e <= n.

(** After the call for a predecessor, what comes before it is in the schedule. *)
Lemma call_covers h sched P t i n p lp y ly : inv h sched (owes P t i n) -> counted p lp -> getThread lp = t -> getIndex lp = i ->
  (forall x lx, counted x lx -> P (position lx) -> (rank p < rank x)%nat) -> dep p y -> counted y ly ->
  getIndex ly <= clk h (getThread ly) -> covered sched (position ly).
Proof.
  intros Hinv Hp Et Ei HP Hd Hy Hle z lz Hz Ezt Ezi. change (Event.thread (position ly)) with (getThread ly) in Ezt. change (Event.index (position ly)) with (getIndex ly) in Ezi.
  assert (rank z <= rank y)%nat as Hzy.
  { destruct (decide (getIndex lz = getIndex ly)) as [E|E].
    - assert (z = y) as ->; [|done]. destruct Hz as [(Hz & Ez & _) _], Hy as (Hy & Ey & _). apply (position_inj z y lz ly); [done..|].
      unfold getThread, getIndex in *. destruct (position lz), (position ly). cbn in *. congruence.
    - apply Nat.lt_le_incl, (rank_po y z ly lz); [done|apply Hz|done|lia]. }
  pose proof (rp_rank rank Hr p y Hd) as Hyp.
  destruct (i_all _ _ _ Hinv z lz Hz) as [|[HPz|[Hzt Hzi]]]; [rewrite Ezt; lia|done| |].
  - specialize (HP z lz (proj1 Hz) HPz). lia.
  - change (Event.thread (position lz)) with (getThread lz) in Hzt. change (Event.index (position lz)) with (getIndex lz) in Hzi.
    destruct (decide (getIndex lz = i)) as [E|E].
    + assert (z = p) as ->; [|lia]. destruct Hz as [(Hz & Ez & _) _], Hp as (Hp & Ep & _). apply (position_inj z p lz lp); [done..|].
      unfold getThread, getIndex in *. destruct (position lz), (position lp). cbn in *. congruence.
    + pose proof (rank_po z p lz lp (proj1 Hz) Hp). lia.
Qed.

Section label.
Context (fuel : nat) (rec : option lid -> View.store * list Event.t -> res (View.store * list Event.t)) (P : Event.t -> Prop) (t i n : Z) (p : lid) (lp : EventLabel.t)
  (h : View.store) (sched : list Event.t).
Context (Hrec : call_ok fuel rec) (Hnone : call_none rec) (Hinv : inv h sched (owes P t i n)) (Hp : counted p lp) (Epos : position lp = Event.Event t i)
  (Hin : i <= n) (Hn : n <= clk h t) (Hfuel : (unseen h < fuel)%nat)
  (HP : forall x lx, counted x lx -> P (position lx) -> (rank p < rank x)%nat).
Lemma frame_pos : getThread lp = t /\ getIndex lp = i /\ 0 <= t.
Proof.
  assert (getThread lp = t /\ getIndex lp = i) as [Et Ei] by (unfold getThread, getIndex; by rewrite Epos). split_and!; [done..|].
  rewrite <- Et. by apply (thread_nonneg p lp (proj1 Hp) (proj1 (proj2 Hp))).
Qed.
Lemma frame_label : getEventLabel g (Event.Event t i) = Ok p.
Proof.
  destruct frame_pos as (Et & Ei & _), Hp as (Hpi & Ep & Hp0). destruct (thread_label_at p lp i Hpi Ep) as (y & ly & Ey & Hy & Ely & Eposy); [lia|]. rewrite Et in *.
  assert (y = p) as -> by (apply (position_inj y p ly lp); congruence). done.
Qed.
(** The call for a predecessor. *)
Lemma call_pred o : (forall y, o = Some y -> in_graph g y /\ forall ly, counted y ly -> dep p y) ->
  exists h' sched', rec o (h, sched) = Ok (h', sched') /\ inv h' sched' (owes P t i n) /\ (forall t, 0 <= t -> clk h t <= clk h' t) /\
    forall y ly, o = Some y -> counted y ly -> covered sched' (position ly).
Proof.
  destruct frame_pos as (Et & Ei & Ht0). revert o.
  intros [y|] Ho; [|exists h, sched; split_and!; [apply Hnone|done|lia|done]].
  destruct (Ho y eq_refl) as [Hy Hd]. destruct (in_graph_store g Hg y Hy) as [ly Ely].
  destruct (Hrec y ly h sched (owes P t i n)) as (h' & sched' & E & Hinv' & Hle & Hseen); [done..| |].
  - intros Hy0 x lx Hx [HPx|[Hxt Hxi]]; (pose proof (rp_rank rank Hr p y (Hd ly ltac:(done))) as Hyp).
    + specialize (HP x lx Hx HPx). lia.
    + change (Event.thread (position lx)) with (getThread lx) in Hxt. change (Event.index (position lx)) with (getIndex lx) in Hxi.
      destruct (decide (getIndex lx = i)) as [E|E].
      * assert (x = p) as ->; [|done]. destruct Hx as (Hx & Ex & _), Hp as (Hpi & Ep & _). apply (position_inj x p lx lp); [done..|].
        unfold getThread, getIndex in *. destruct (position lx), (position lp). cbn in *. congruence.
      * pose proof (rank_po x p lx lp Hx Hp). lia.
  - exists h', sched'. split_and!; [done..|]. intros y' ly' [= <-] Hy'. assert (ly' = ly) as -> by (destruct Hy' as (_ & ? & _); congruence).
    apply (call_covers h' sched' P t i n p lp y ly); [done..|by eapply Hd|done|done].
Qed.
(** All that comes before the label is in the schedule when it is its turn. *)
Lemma preds_called : exists h' sched', (if Class.isRead (kind lp) then rec (readsFrom lp) (h, sched)
       else if Class.isKind Kind.ThreadJoin (kind lp) then o ← getLastThreadLabel g (childId lp); rec o (h, sched)
       else if Class.isThreadStart (kind lp) then rec (createLab lp) (h, sched) else Ok (h, sched)) = Ok (h', sched') /\
    inv h' sched' (owes P t i n) /\ (forall t, 0 <= t -> clk h t <= clk h' t) /\
    forall y ly, dep p y -> counted y ly -> covered sched' (position ly).
Proof.
  pose proof call_pred as Hcall. destruct frame_pos as (Et & Ei & Ht0).
  assert (forall h' sched' y ly, inv h' sched' (owes P t i n) -> (forall t, 0 <= t -> clk h t <= clk h' t) -> dep p y -> counted y ly ->
    getThread ly = getThread lp -> getIndex ly = getIndex lp - 1 -> covered sched' (position ly)) as Hpo.
  { intros h' sched' y ly Hinv' Hle Hd Hy Eyt Eyi. apply (call_covers h' sched' P t i n p lp y ly); [done..|]. rewrite Eyt, Et. specialize (Hle t Ht0). lia. }
  assert (forall o h' sched', (forall t, 0 <= t -> clk h t <= clk h' t) -> inv h' sched' (owes P t i n) ->
    (forall y ly, o = Some y -> counted y ly -> covered sched' (position ly)) ->
    (forall y ly, dep p y -> counted y ly -> o = Some y \/ getThread ly = getThread lp /\ getIndex ly = getIndex lp - 1) ->
    forall y ly, dep p y -> counted y ly -> covered sched' (position ly)) as Hall.
  { intros o h' sched' Hle Hinv' Ho Hcase y ly Hd Hy. destruct (Hcase y ly Hd Hy) as [Eo|[E1 E2]]; [by eapply Ho|by eapply Hpo]. }
  assert (forall lx y ly ly', counted p lx -> counted y ly -> counted y ly' -> lx = lp /\ ly' = ly) as Hsame
    by (intros lx y ly ly' (_ & ? & _) (_ & ? & _) (_ & ? & _); destruct Hp as (_ & ? & _); split; congruence).
  pose proof Hp as (Hpi & Elp & Hp0).
  destruct (Class.isRead (kind lp)) eqn:Er.
  { destruct (Hcall (readsFrom lp)) as (h' & s' & E & Hi' & Hl' & Hc').
    - intros y Ey. destruct (wf_rf g Hg p lp y Hpi Elp Er Ey) as [Hy _]. split; [done|]. intros ly Hly. by apply (dep_rf p y lp ly).
    - exists h', s'. split_and!; [done..|]. apply (Hall (readsFrom lp) h' s'); [done..|]. intros y ly Hd Hy.
      destruct Hd as [lx ly' Hx Hy' ? ?|lx ly' Hx Hy' ? ?|lx ly' Hx Hy' Ek ?|lx ly' Hx Hy' Ek ?]; destruct (Hsame lx y ly ly' Hx Hy Hy') as [-> ->]; auto;
        [by rewrite Ek in Er|by destruct (kind lp)]. }
  destruct (Class.isKind Kind.ThreadJoin (kind lp)) eqn:Ej.
  { assert (kind lp = Kind.ThreadJoin) as Ek by (by apply bool_decide_eq_true in Ej).
    destruct (rp_join rank Hr p lp Hp Ek) as [o Eo]. rewrite Eo. cbn [mbind res_bind].
    destruct (Hcall o) as (h' & s' & E & Hi' & Hl' & Hc').
    - intros y ->. split; [by eapply last_label_in|]. intros ly Hly. by apply (dep_join p y lp ly).
    - exists h', s'. split_and!; [done..|]. apply (Hall o h' s'); [done..|]. intros y ly Hd Hy.
      destruct Hd as [lx ly' Hx Hy' ? ?|lx ly' Hx Hy' ? ?|lx ly' Hx Hy' ? El|lx ly' Hx Hy' Ek' ?]; destruct (Hsame lx y ly ly' Hx Hy Hy') as [-> ->]; auto;
        [congruence|left; congruence|by rewrite Ek in Ek']. }
  destruct (Class.isThreadStart (kind lp)) eqn:Es.
  { destruct (Hcall (createLab lp)) as (h' & s' & E & Hi' & Hl' & Hc').
    - intros y Ey. split; [by apply (rp_create rank Hr p lp y)|]. intros ly Hly. by apply (dep_create p y lp ly).
    - exists h', s'. split_and!; [done..|]. apply (Hall (createLab lp) h' s'); [done..|]. intros y ly Hd Hy.
      destruct Hd as [lx ly' Hx Hy' ? ?|lx ly' Hx Hy' ? ?|lx ly' Hx Hy' Ek ?|lx ly' Hx Hy' ? ?]; destruct (Hsame lx y ly ly' Hx Hy Hy') as [-> ->]; auto;
        [congruence|by rewrite Ek in Es]. }
  exists h, sched. split_and!; [done|done|lia|]. apply (Hall None h sched); [lia|done|done|]. intros y ly Hd Hy.
  destruct Hd as [lx ly' Hx Hy' ? ?|lx ly' Hx Hy' ? ?|lx ly' Hx Hy' Ek ?|lx ly' Hx Hy' ? ?]; destruct (Hsame lx y ly ly' Hx Hy Hy') as [-> ->]; auto;
    [congruence|by rewrite Ek in Ej|congruence].
Qed.
Lemma emit_label h' sched' : inv h' sched' (owes P t i n) -> (forall t, 0 <= t -> clk h t <= clk h' t) ->
  (forall y ly, dep p y -> counted y ly -> covered sched' (position ly)) ->
  inv h' (if Class.isBlock (kind lp) then sched' else sched' ++ [position lp]) (owes P t (i + 1) n).
Proof.
  intros Hinv' Hle Hcov. destruct frame_pos as (Et & Ei & Ht0). destruct (Class.isBlock (kind lp)) eqn:Eb.
  - destruct Hinv' as [? ? ? ? Hall ? ?]. split; try done.
    + intros x l Hx Hxc. destruct (Hall x l Hx Hxc) as [|[|[Ext Exi]]]; [by left|by right; left|]. destruct (decide (Event.index (position l) = i)) as [Exi2|]; [|right; right; lia].
      exfalso. assert (x = p) as ->; [|destruct Hx as [(_ & ? & _) Hb], Hp as (_ & ? & _); congruence].
      destruct Hx as [(Hx & Ex & _) _], Hp as (Hpi & Ep & _). apply (position_inj x p l lp); [done..|]. rewrite Epos. destruct (position l). cbn in *. congruence.
    + intros e [He|[Het Hei]]; [by apply i_pending0; left|]. apply i_pending0. right. lia.
  - destruct Hinv' as [Hw Hb Hnd Hin' Hall Hpend Hord].
    assert (position lp ∉ sched') as Hnin by (apply Hpend; right; rewrite Epos; cbn; lia). split; try done.
    + apply NoDup_app. split_and!; [done| |apply NoDup_singleton]. intros e He ->%list_elem_of_singleton. done.
    + intros e. rewrite elem_of_app, list_elem_of_singleton. intros [He| ->]; [by apply Hin'|]. exists p, lp. split_and!; [by split|done|]. rewrite Epos. cbn. specialize (Hle t Ht0). lia.
    + intros x l Hx Hxc. rewrite elem_of_app, list_elem_of_singleton. destruct (Hall x l Hx Hxc) as [|[|[Ext Exi]]]; [by left; left|by right; left|].
      destruct (decide (Event.index (position l) = i)) as [Exi2|]; [|right; right; lia].
      left. right. rewrite Epos. destruct (position l). cbn in *. congruence.
    + intros e Ho. rewrite elem_of_app, list_elem_of_singleton. intros [He| ->].
      * destruct Ho as [HPe|Ho]; [by apply (Hpend e (or_introl HPe))|]. apply (Hpend e); [right; lia|done].
      * destruct Ho as [HPe|[_ Ho]]; [specialize (HP p lp Hp HPe); lia|]. rewrite Epos in Ho. cbn in Ho. lia.
    + apply ordered_snoc; [done|]. intros x lx y ly Hx Ex Hd Hy. assert (x = p) as ->; [|by apply (Hcov y ly)].
      destruct Hx as (Hx & Elx & _), Hp as (Hpi & Ep & _). by apply (position_inj x p lx lp).
Qed.
Lemma replay_label_ok : exists h' sched', replay_label g rec t (h, sched) i = Ok (h', sched') /\ inv h' sched' (owes P t (i + 1) n) /\
    (forall t, 0 <= t -> clk h t <= clk h' t).
Proof.
  destruct preds_called as (h' & sched' & E & Hinv' & Hle & Hcov). exists h'. eexists. split_and!; [|by apply emit_label|done].
  unfold replay_label. rewrite frame_label. cbn [mbind res_bind]. rewrite (label_ok g p lp) by apply Hp. cbn [mbind res_bind]. rewrite E. cbn [mbind res_bind].
  by destruct (Class.isBlock (kind lp)).
Qed.
End label.

Lemma replay_thread_ok fuel rec P n t lab ll : call_ok fuel rec -> call_none rec -> in_graph g lab -> store g !! lab = Some ll ->
  getThread ll = t -> getIndex ll = n ->
  (forall x lx, counted x lx -> P (position lx) -> (rank lab < rank x)%nat) ->
  forall todo i h sched, 1 <= i -> i + Z.of_nat todo = n + 1 -> inv h sched (owes P t i n) -> n <= clk h t -> (unseen h < fuel)%nat ->
  exists h' sched', foldM (replay_label g rec t) (h, sched) (seqZ i (Z.of_nat todo)) = Ok (h', sched') /\ inv h' sched' P /\
    (forall t, 0 <= t -> clk h t <= clk h' t).
Proof.
  intros Hrec Hnone Hlab Ell Et En HP todo. pose proof (thread_nonneg lab ll Hlab Ell) as [Ht0 _]. rewrite Et in Ht0.
  induction todo as [|todo IH]; intros i h sched Hi Hn Hinv Hc Hfuel.
  - exists h, sched. split; [done|]. split; [|lia]. destruct Hinv as [Hw Hb Hnd Hin Hall Hpend Hord]. split; try done.
    + intros x l Hx Hxc. destruct (Hall x l Hx Hxc) as [|[|[_ ?]]]; [by left|by right|lia].
    + intros e He. apply Hpend. by left.
  - rewrite seqZ_cons by lia. cbn [foldM]. destruct (thread_label_at lab ll i Hlab Ell) as (p & lp & _ & Hp & Ep & Epos); [lia|]. rewrite Et in Epos.
    assert (counted p lp) as Hcp by (split_and!; [done..|unfold getIndex; rewrite Epos; cbn; lia]).
    assert (forall x lx, counted x lx -> P (position lx) -> (rank p < rank x)%nat) as HPp.
    { intros x lx Hx HPx. specialize (HP x lx Hx HPx). destruct (decide (i = n)) as [E|E].
      - assert (p = lab) as ->; [|done]. apply (position_inj p lab lp ll); [done..|]. rewrite Epos. unfold getThread, getIndex in *. destruct (position ll). cbn in *. congruence.
      - assert (counted lab ll) as Hcl by (split_and!; [done..|lia]).
        pose proof (rank_po lab p ll lp Hcl Hcp) as Hlt. unfold getThread, getIndex in Hlt, Et, En. rewrite Epos in Hlt. cbn in Hlt. specialize (Hlt ltac:(done) ltac:(lia)). lia. }
    destruct (replay_label_ok fuel rec P t i n p lp h sched) as (h1 & s1 & E1 & Hinv1 & Hle1); [done..|lia|done|done|done|]. rewrite E1. cbn [mbind res_bind].
    replace (Z.pred (Z.of_nat (S todo))) with (Z.of_nat todo) by lia. replace (Z.succ i) with (i + 1) by lia.
    destruct (IH (i + 1) h1 s1) as (h2 & s2 & E2 & Hinv2 & Hle2); [lia|lia|done|specialize (Hle1 t Ht0); lia|pose proof (unseen_le h h1 Hle1); lia|].
    exists h2, s2. split_and!; [done..|]. intros t' Ht'. specialize (Hle1 t' Ht'). specialize (Hle2 t' Ht'). lia.
Qed.

Lemma calcPorfReplay_step fuel lab s : calcPorfReplay dbg g (S fuel) (Some lab) s =
  (l ← label g lab; b ← View.contains s.1 view0 (position l);
   if (b : bool) then Ok s else
   i ← View.getMax s.1 view0 (getThread l);
   h ← View.updateIdx dbg s.1 view0 (position l);
   foldM (replay_label g (calcPorfReplay dbg g fuel) (getThread l)) (h, s.2) (seqZ (i + 1) (getIndex l - i))).
Proof. done. Qed.
Lemma calcPorfReplay_ok fuel : call_none (calcPorfReplay dbg g (S fuel)) /\ call_ok (S fuel) (calcPorfReplay dbg g (S fuel)).
Proof.
  split; [by intros s|]. induction fuel as [|fuel IH]; intros lab l h sched P Hlab El Hinv Hfuel HP.
  all: assert (exists x, View.views h !! view0 = Some x) as [x Hx] by (by destruct (i_view _ _ _ Hinv) as (x & Hx & _); exists x).
  all: destruct (thread_nonneg lab l Hlab El) as [Ht0 Hi0]; pose proof (i_wf _ _ _ Hinv) as Hw.
  all: pose proof (View.contains_ok h view0 x (position l) Hw Hx Ht0) as Ec; fold (getThread l) (getIndex l) in Ec.
  all: rewrite calcPorfReplay_step; cbn [fst snd]; rewrite (label_ok g lab l El); cbn [mbind res_bind]; rewrite Ec; cbn [mbind res_bind].
  all: destruct (Z.leb_spec (getIndex l) (clk h (getThread l))) as [Hle|Hlt]; [exists h, sched; split_and!; [done|done|lia|done]|].
  { exfalso. assert (unseen h = 0%nat) as E0 by lia. unfold unseen in E0. apply length_zero_iff_nil in E0.
    assert (lab ∈ filter (fun x => seen h x = false) (concat (events g))) as Hf; [|rewrite E0 in Hf; by apply not_elem_of_nil in Hf].
    apply list_elem_of_filter. split; [|exact Hlab]. unfold seen. rewrite El. lia. }
  assert (0 <= clk h (getThread l)) as Hc0.
  { unfold View.clk. rewrite Hx. unfold View.view_clock. pose proof (View.base_clock_nonneg h (View.base_ x) (getThread l) Hw). lia. }
  rewrite (View.getMax_ok h view0 x (getThread l) Hw Hx Ht0). cbn [mbind res_bind].
  destruct (updateIdx_building dbg h view0 (position l) Hw (i_view _ _ _ Hinv) Ht0) as (h1 & E1 & (Hw1 & _ & Hc1 & _) & Hb1). rewrite E1. cbn [mbind res_bind].
  assert (forall t, 0 <= t -> clk h1 t = if decide (t = getThread l) then getIndex l else clk h t) as Hclk.
  { intros t Ht. rewrite Hc1 by done. unfold View.upd. fold (getThread l) (getIndex l). case_decide as E; [subst t; lia|done]. }
  assert (forall t, 0 <= t -> clk h t <= clk h1 t) as Hmono by (intros t Ht; rewrite Hclk by done; case_decide; [subst; lia|lia]).
  set (i := clk h (getThread l)) in *.
  assert (unseen h1 < unseen h)%nat as Hun.
  { apply (unseen_lt h h1 lab); [done|done| |]; unfold seen; rewrite El; [lia|]. rewrite Hclk, decide_True by done. lia. }
  destruct (replay_thread_ok (S fuel) (calcPorfReplay dbg g (S fuel)) P (getIndex l) (getThread l) lab l IH (fun s => eq_refl) Hlab El eq_refl eq_refl (HP ltac:(lia))
    (Z.to_nat (getIndex l - i)) (i + 1) h1 sched) as (h2 & s2 & E2 & Hinv2 & Hle2).
  - lia.
  - lia.
  - destruct Hinv as [_ _ Hnd Hin Hall Hpend Hord]. split; try done.
    + intros e He. destruct (Hin e He) as (y & ly & Hy & Ey & Hle). exists y, ly. split_and!; [done..|]. rewrite <- Ey in Hle |- *.
      destruct (thread_nonneg y ly (proj1 (proj1 Hy)) (proj1 (proj2 (proj1 Hy)))) as [Hyt _]. specialize (Hmono _ Hyt). unfold getThread in Hmono. lia.
    + intros y ly Hy Hyc. destruct (thread_nonneg y ly (proj1 (proj1 Hy)) (proj1 (proj2 (proj1 Hy)))) as [Hyt _].
      rewrite Hclk in Hyc by done. case_decide as E.
      * destruct (decide (getIndex ly <= i)) as [Hyi|Hyi]; [|right; right; unfold getThread, getIndex in *; lia].
        destruct (Hall y ly Hy) as [|]; [by rewrite E|by left|by right; left].
      * destruct (Hall y ly Hy Hyc) as [|]; [by left|by right; left].
    + intros e [He|[Het Hei]]; [by apply Hpend|]. intros He2. destruct (Hin e He2) as (_ & _ & _ & _ & Hle). rewrite Het in Hle. fold i in Hle. lia.
  - rewrite Hclk, decide_True by done. lia.
  - lia.
  - rewrite Z2Nat.id in E2 by lia. exists h2, s2. split_and!; [done..| |].
    + intros t Ht. specialize (Hmono t Ht). specialize (Hle2 t Ht). lia.
    + specialize (Hle2 _ Ht0). rewrite Hclk, decide_True in Hle2 by done. lia.
Qed.

(** *** All threads *)
Lemma last_label_ok tid : 0 <= tid < getNumThreads g -> exists th, events g !! Z.to_nat tid = Some th /\ getLastThreadLabel g tid = Ok (last th).
Proof.
  intros Ht. unfold getNumThreads in Ht. destruct (lookup_lt_is_Some_2 (events g) (Z.to_nat tid)) as [th Eth]; [lia|].
  exists th. split; [done|]. unfold getLastThreadLabel. rewrite (wf_po g Hg). pose proof (vec_at_ok _ _ _ Eth) as E. rewrite Z2Nat.id in E by lia. by rewrite E.
Qed.
Definition thread_seen h (tid : Z) : Prop := forall x l, counted x l -> getThread l = tid -> getIndex l <= clk h tid.
Lemma thread_seen_mono h h' tid : (forall t, 0 <= t -> clk h t <= clk h' t) -> thread_seen h tid -> thread_seen h' tid.
Proof.
  intros Hle Hs x l Hx Et. destruct (thread_nonneg x l (proj1 Hx) (proj1 (proj2 Hx))) as [Ht _]. rewrite Et in Ht. specialize (Hle tid Ht). specialize (Hs x l Hx Et). lia.
Qed.
Lemma replay_threads_ok todo : forall i h sched, 0 <= i -> i + Z.of_nat todo = getNumThreads g -> inv h sched (fun _ => False) ->
  exists h' sched', foldM (fun s i => lab ← getLastThreadLabel g i; calcPorfReplay dbg g (replay_fuel g) lab s) (h, sched) (seqZ i (Z.of_nat todo)) = Ok (h', sched') /\
    inv h' sched' (fun _ => False) /\ (forall t, 0 <= t -> clk h t <= clk h' t) /\ forall t, i <= t < getNumThreads g -> thread_seen h' t.
Proof.
  induction todo as [|todo IH]; intros i h sched Hi Hn Hinv.
  - exists h, sched. split_and!; [done|done|lia|lia].
  - rewrite seqZ_cons by lia. cbn [foldM]. destruct (last_label_ok i ltac:(lia)) as (th & Eth & ->). cbn [mbind res_bind].
    assert (exists h1 s1, calcPorfReplay dbg g (replay_fuel g) (last th) (h, sched) = Ok (h1, s1) /\ inv h1 s1 (fun _ => False) /\
      (forall t, 0 <= t -> clk h t <= clk h1 t) /\ thread_seen h1 i) as (h1 & s1 & -> & Hinv1 & Hle1 & Hseen1).
    { assert (forall x l, counted x l -> getThread l = i -> exists k, th !! k = Some x /\ getIndex l = Z.of_nat k) as Hth.
      { intros x l (Hx & El & _) Et. destruct (in_graph_pos g Hg x Hx) as (t' & th' & k & l' & Et' & Ek & El' & Ep). simplify_eq. unfold getThread in Eth. rewrite Ep in Eth. cbn in Eth.
        rewrite Nat2Z.id in Eth. simplify_eq. exists k. split; [done|]. unfold getIndex. by rewrite Ep. }
      destruct (last th) as [lab|] eqn:El.
      - assert (in_graph g lab) as Hlab by (apply elem_concat; rewrite last_lookup in El; eauto).
        destruct (in_graph_store g Hg lab Hlab) as [l Ell].
        destruct (proj2 (calcPorfReplay_ok (S (length (concat (events g))))) lab l h sched (fun _ => False)) as (h1 & s1 & E & Hinv1 & Hle1 & Hc); [done..| |done|].
        { unfold unseen. pose proof (length_filter (fun x => seen h x = false) (concat (events g))). lia. }
        exists h1, s1. split_and!; [exact E|done|done|]. intros x lx Hx Et. destruct (Hth x lx Hx Et) as (k & Ek & ->).
        rewrite last_lookup in El. destruct (wf_pos g Hg _ _ _ _ Eth El) as (l2 & El2 & Ep). assert (l2 = l) as -> by congruence.
        unfold getIndex, getThread in Hc. rewrite Ep in Hc. cbn in Hc. rewrite Z2Nat.id in Hc by lia. apply lookup_lt_Some in Ek. lia.
      - exists h, sched. split_and!; [done|done|lia|]. intros x lx Hx Et. destruct (Hth x lx Hx Et) as (k & Ek & _). apply last_None in El. by rewrite El in Ek. }
    cbn [mbind res_bind]. replace (Z.pred (Z.of_nat (S todo))) with (Z.of_nat todo) by lia. replace (Z.succ i) with (i + 1) by lia.
    destruct (IH (i + 1) h1 s1) as (h2 & s2 & E2 & Hinv2 & Hle2 & Hseen2); [lia|lia|done|]. exists h2, s2. split_and!; [done..| |].
    + intros t Ht. specialize (Hle1 t Ht). specialize (Hle2 t Ht). lia.
    + intros t Ht. destruct (decide (t = i)) as [->|]; [by apply (thread_seen_mono h1)|]. apply Hseen2. lia.
Qed.
Lemma preliminary_ok : exists sched, preliminary dbg g = Ok sched /\ NoDup sched /\ ordered sched /\
  forall e, e ∈ sched <-> exists x l, replayed x l /\ position l = e.
Proof.
  assert (View.wf View.empty_store) as H0 by (by split; intros ? ?; cbn; rewrite lookup_empty).
  destruct (View.create_building View.empty_store view0 H0) as [Hb (Hw & _ & Hc & _)].
  destruct (replay_threads_ok (length (events g)) 0 (View.create View.empty_store view0) []) as (h & s & E & [_ _ Hnd Hin Hall _ Hord] & _ & Hseen); [lia|done| |].
  - split; [done|done|apply NoDup_nil_2| | |done|].
    + intros e He. by apply not_elem_of_nil in He.
    + intros x l [(Hx & El & Hl0) _] Hle. destruct (thread_nonneg x l Hx El) as [Ht _]. rewrite Hc in Hle by done. lia.
    + intros l1 e l2 Hs. by destruct l1.
  - exists s. unfold preliminary. unfold getNumThreads at 1. rewrite E. split_and!; [done..|]. intros e. split.
    + intros He. destruct (Hin e He) as (x & l & ? & ? & _). eauto.
    + intros (x & l & Hx & <-). destruct (Hall x l Hx) as [|[]]; [|done]. apply (Hseen (getThread l)) with (x := x); [|apply Hx|done].
      destruct Hx as [(Hx & El & _) _]. destruct (in_graph_pos g Hg x Hx) as (t' & th' & k & l' & Et' & Ek & El' & Ep). simplify_eq.
      unfold getThread, getNumThreads. rewrite Ep. cbn. apply lookup_lt_Some in Et'. lia.
Qed.

(** What comes before a label, transitively, is scheduled before it. *)
Lemma covered_dep s l1 l2 z lz y ly : ordered s -> s = l1 ++ l2 -> counted z lz -> covered l1 (position lz) -> dep z y -> counted y ly -> covered l1 (position ly).
Proof.
  intros Hs -> Hz Hc Hd Hy. destruct (Class.isBlock (kind lz)) eqn:Eb.
  - assert (forall lx ly', counted z lx -> counted y ly' -> lx = lz /\ ly' = ly) as Hsame.
    { intros lx ly' (_ & ? & _) (_ & ? & _). destruct Hz as (_ & ? & _), Hy as (_ & ? & _). split; congruence. }
    destruct Hd as [lx ly' Hx Hy' Et Ei|lx ly' Hx Hy' Ek _|lx ly' Hx Hy' Ek _|lx ly' Hx Hy' Ek _]; destruct (Hsame lx ly' Hx Hy') as [-> ->];
      [|by destruct (kind lz)|by rewrite Ek in Eb|by destruct (kind lz)].
    intros w lw Hw Ewt Ewi. apply (Hc w lw Hw); unfold getThread, getIndex in *; [congruence|lia].
  - assert (position lz ∈ l1) as Hin by (by apply (Hc z lz)). apply list_elem_of_split in Hin as (a & b & ->).
    intros w lw Hw Ewt Ewi. rewrite elem_of_app. left. rewrite <- app_assoc in Hs. by apply (Hs a (position lz) (b ++ l2) eq_refl z lz y ly Hz eq_refl Hd Hy w lw).
Qed.
Lemma scheduled_before s x lx y ly : ordered s -> NoDup s -> replayed x lx -> replayed y ly -> position lx ∈ s -> tc dep x y ->
  Search.before s (position ly) (position lx).
Proof.
  intros Hs Hnd Hx Hy Hin Htc. apply list_elem_of_split in Hin as (l1 & l2 & E).
  assert (covered l1 (position ly)) as Hc.
  { assert (forall z lz, counted z lz -> covered l1 (position lz) -> tc dep z y -> covered l1 (position ly)) as Hgo.
    { intros z lz Hz Hc Hd. revert lz Hz Hc. induction Hd as [z w Hd|z z' w Hd Htc' IH]; intros lz Hz Hc.
      - by apply (covered_dep s l1 (position lx :: l2) z lz w ly Hs E Hz Hc Hd), Hy.
      - assert (exists lz', counted z' lz') as [lz' Hz'] by (by destruct Hd; eauto).
        apply (IH Hy Htc lz' Hz'). by apply (covered_dep s l1 (position lx :: l2) z lz z' lz' Hs E Hz Hc Hd). }
    inversion Htc as [? ? Hd|? z ? Hd Htc']; subst.
    - by apply (Hs l1 (position lx) l2 eq_refl x lx y ly), Hy; [apply Hx|..].
    - assert (exists lz, counted z lz) as [lz Hz] by (by destruct Hd; eauto). apply (Hgo z lz Hz); [|done].
      by apply (Hs l1 (position lx) l2 eq_refl x lx z lz); [apply Hx|..]. }
  specialize (Hc y ly Hy eq_refl ltac:(done)). apply list_elem_of_split in Hc as (a & b & ->). exists a, b, l2. by rewrite E, <- app_assoc.
Qed.

Definition finished (tid : Z) : Prop := exists y ly, getLastThreadLabel g tid = Ok (Some y) /\ store g !! y = Some ly /\
  Class.classofKind Class.CTerminator (kind ly) = true /\ Class.isBlock (kind ly) = false.
Lemma completed_ok x l : in_graph g x -> store g !! x = Some l -> exists b, completed g (position l) = Ok b /\ (b = true <-> finished (getThread l)).
Proof.
  intros Hx El. destruct (in_graph_pos g Hg x Hx) as (t & th & k & l' & Et & Ek & El' & Ep). simplify_eq.
  assert (getLastThreadLabel g (Z.of_nat t) = Ok (last th)) as EL.
  { destruct (last_label_ok (Z.of_nat t)) as (th' & Et' & ->); [unfold getNumThreads; apply lookup_lt_Some in Et; lia|]. rewrite Nat2Z.id in Et'. by simplify_eq. }
  unfold completed, finished, getThread. rewrite Ep. cbn [Event.thread]. rewrite EL.
  destruct (last th) as [y|] eqn:Ey; [|by apply last_None in Ey as ->]. cbn [deref mbind res_bind].
  rewrite last_lookup in Ey. destruct (wf_pos g Hg _ _ _ _ Et Ey) as (ly & Ely & Epy). rewrite (label_ok g y ly Ely). cbn [mbind res_bind].
  rewrite Epy. cbn [Event.thread]. unfold isSchedulable. rewrite EL. cbn [mbind res_bind dyn_cast_if_present]. unfold dyn_cast. rewrite (label_ok g y ly Ely). cbn [mbind res_bind].
  eexists. split; [done|]. split.
  - intros H. exists y, ly. split_and!; [done|done|..]; destruct (Class.classofKind Class.CTerminator (kind ly)), (Class.isBlock (kind ly)); done.
  - intros (y' & ly' & E1 & E2 & Et1 & Hb). simplify_eq. by rewrite Et1, Hb.
Qed.
Lemma non_atomic_ok x l : in_graph g x -> store g !! x = Some l -> non_atomic g (position l) = Ok (isNotAtomic l).
Proof.
  intros Hx El. unfold non_atomic. destruct (in_graph_pos g Hg x Hx) as (t & th & k & l' & Et & Ek & El' & Ep). simplify_eq.
  rewrite Ep, (getEventLabel_pos g t th k x Et Ek). cbn [mbind res_bind]. by rewrite (label_ok g x l El).
Qed.
(** An event that the schedule replays, with [conf]. *)
Definition scheduled (conf : Config.t) (err : option Event.t) (e : Event.t) : Prop := exists x l, replayed x l /\ position l = e /\
  (Config.replayCompletedThreads conf = false -> err = None -> ~ finished (Event.thread e)) /\
  (Config.disableRaceDetection conf = false -> isNotAtomic l = false).
(** The list with the error event last, in the order of execution. *)
Definition error_last (err : option Event.t) (s0 : list Event.t) : res (list Event.t) :=
  match err with Some e => move_last e s0 | None => Ok s0 end.
Lemma error_last_ok err s0 : NoDup s0 -> ordered s0 -> (forall e, e ∈ s0 <-> exists x l, replayed x l /\ position l = e) ->
  (forall e, err = Some e -> exists x l, replayed x l /\ position l = e) ->
  exists s1, error_last err s0 = Ok s1 /\ NoDup s1 /\ (forall e, e ∈ s1 <-> exists x l, replayed x l /\ position l = e) /\
    (forall e, err = Some e -> exists l, s1 = l ++ [e]) /\
    forall x lx y ly, replayed x lx -> replayed y ly -> tc dep x y -> err <> Some (position ly) -> Search.before s1 (position ly) (position lx).
Proof.
  intros Hnd0 Hord0 Hin0 Herr. destruct err as [e|]; cbn [error_last].
  - specialize (Herr e eq_refl). apply Hin0 in Herr. rewrite (move_last_ok e s0 Hnd0 Herr). eexists. split; [done|].
    assert (forall e', e' ∈ filter (fun x => x <> e) s0 ++ [e] <-> e' ∈ s0) as Hel.
    { intros e'. rewrite elem_of_app, list_elem_of_filter, list_elem_of_singleton. split; [intros [[]| ->]; done|]. destruct (decide (e' = e)); auto. }
    split_and!.
    + apply NoDup_app. split_and!; [by apply NoDup_filter| |apply NoDup_singleton]. intros e' [? _]%list_elem_of_filter ->%list_elem_of_singleton. done.
    + intros e'. by rewrite Hel, Hin0.
    + intros e' [= <-]. eauto.
    + intros x lx y ly Hx Hy Htc Hne. assert (position ly <> e) as Hne2 by congruence. destruct (decide (position lx = e)) as [->|Hnx].
      * apply Search.before_snoc, list_elem_of_filter. split; [done|]. apply Hin0. eauto.
      * apply Search.before_snoc_old, before_filter; [|done..]. apply (scheduled_before s0 x lx y ly); [done..|by apply Hin0; eauto|done].
  - exists s0. split_and!; [done..|]. intros x lx y ly Hx Hy Htc _. apply (scheduled_before s0 x lx y ly); [done..|by apply Hin0; eauto|done].
Qed.
Lemma erase_when (b : bool) (cond : Event.t -> res bool) s : (forall e, e ∈ s -> exists x l, replayed x l /\ position l = e) ->
  (forall x l, replayed x l -> exists b, cond (position l) = Ok b) ->
  (if b then Cut.erase_if cond s else Ok s) = Ok (filter (fun e => b = true -> cond e = Ok false) s).
Proof.
  intros Hsub Hc. destruct b.
  - rewrite erase_if_filter.
    + f_equal. apply list_filter_iff. naive_solver.
    + intros e He. apply Hsub in He as (x & l & Hx & <-). eauto.
  - f_equal. symmetry. by apply list_filter_all.
Qed.
Lemma scheduled_iff conf err e : (exists x l, replayed x l /\ position l = e) ->
  (negb (Config.disableRaceDetection conf) = true -> non_atomic g e = Ok false) /\
  (negb (Config.replayCompletedThreads conf) && bool_decide (err = None) = true -> completed g e = Ok false) <-> scheduled conf err e.
Proof.
  intros (x & l & Hx & <-). destruct (completed_ok x l) as (b & E & Hb); [apply Hx..|].
  rewrite E, (non_atomic_ok x l) by apply Hx. split.
  - intros [H2 H1]. exists x, l. split_and!; [done|done|..].
    + intros Hr0 ->. rewrite Hr0 in H1. specialize (H1 eq_refl). injection H1 as ->. intros Hf. by apply Hb in Hf.
    + intros Hr0. rewrite Hr0 in H2. by injection (H2 eq_refl).
  - intros (x' & l' & Hx' & El & H1 & H2). assert (x' = x) as -> by (apply (position_inj x' x l' l); [apply Hx'|apply Hx|apply Hx'|apply Hx|done]).
    assert (l' = l) as -> by (destruct Hx as [(_ & ? & _) _], Hx' as [(_ & ? & _) _]; congruence). split.
    + intros Hk2. f_equal. apply H2. by destruct (Config.disableRaceDetection conf).
    + intros Hk1. apply andb_true_iff in Hk1 as [Ha Hb2%bool_decide_eq_true]. f_equal.
      destruct b; [|done]. exfalso. apply H1; [by destruct (Config.replayCompletedThreads conf)|done|by apply Hb].
Qed.
Lemma replay_ok conf err : (forall e, err = Some e -> exists x l, replayed x l /\ position l = e) ->
  exists s, calculateReplaySchedule dbg g conf err = Ok s /\ NoDup s /\ (forall e, e ∈ s <-> scheduled conf err e) /\
    (forall e, err = Some e -> scheduled conf err e -> head s = Some e) /\
    forall x lx y ly, replayed x lx -> replayed y ly -> tc dep x y -> position lx ∈ s -> position ly ∈ s -> err <> Some (position ly) ->
      Search.before s (position lx) (position ly).
Proof.
  intros Herr. destruct preliminary_ok as (s0 & E0 & Hnd0 & Hord0 & Hin0). unfold calculateReplaySchedule. rewrite E0. cbn [mbind res_bind].
  destruct (error_last_ok err s0 Hnd0 Hord0 Hin0 Herr) as (s1 & E1 & Hnd1 & Hin1 & Hlast1 & Hord1). unfold error_last in E1. rewrite E1. cbn [mbind res_bind].
  rewrite erase_when; [|apply Hin1|intros x l Hx; destruct (completed_ok x l) as (b & E & _); [apply Hx..|]; eauto]. cbn [mbind res_bind].
  rewrite erase_when; [|intros e [_ ?]%list_elem_of_filter; by apply Hin1|intros x l Hx; eexists; apply (non_atomic_ok x l); apply Hx].
  cbn [mbind res_bind]. eexists. split; [done|].
  set (Q2 e := negb (Config.disableRaceDetection conf) = true -> non_atomic g e = Ok false).
  set (Q1 e := negb (Config.replayCompletedThreads conf) && bool_decide (err = None) = true -> completed g e = Ok false).
  assert (forall e, e ∈ s1 -> Q2 e /\ Q1 e <-> scheduled conf err e) as Hk by (intros e He; apply scheduled_iff; by apply Hin1).
  assert (forall e, e ∈ reverse (filter Q2 (filter Q1 s1)) <-> scheduled conf err e) as Hel.
  { intros e. rewrite elem_of_reverse, !list_elem_of_filter. split; [intros (? & ? & ?); apply Hk; auto|].
    intros Hs. assert (e ∈ s1) as He by (apply Hin1; destruct Hs as (x & l & ? & ? & _); eauto). apply Hk in Hs; naive_solver. }
  split_and!.
  - rewrite reverse_Permutation. by apply NoDup_filter, NoDup_filter.
  - exact Hel.
  - intros e Ee Hs. destruct (Hlast1 e Ee) as [l ->]. assert (e ∈ l ++ [e]) as He by (apply elem_of_app; right; by left).
    apply (Hk e He) in Hs as [H2 H1]. by rewrite filter_app, filter_cons_True, filter_app, filter_cons_True, filter_nil, reverse_app by done.
  - intros x lx y ly Hx Hy Htc Hxs Hys Hne. apply before_reverse.
    rewrite Hel in Hxs, Hys. assert (forall z lz, replayed z lz -> position lz ∈ s1) as Hs1 by (intros; apply Hin1; eauto).
    apply (Hk _ (Hs1 x lx Hx)) in Hxs as [Hx2 Hx1]. apply (Hk _ (Hs1 y ly Hy)) in Hys as [Hy2 Hy1].
    apply before_filter; [|done..]. apply before_filter; [|done..]. by apply (Hord1 x lx y ly).
Qed.
End order.

(** C33: The schedule that replays a graph holds, once each, the events of the graph
    whose threads are not finished (unless completed threads are replayed, or an error
    is) and, when races are checked, that are atomic; the next one to execute is at the
    end.  An event comes after everything before it in program order, reads-from and
    joins, transitively; the event of an error is the last one to be executed. *)
Theorem replay_schedule_correct (dbg : bool) (g : Graph.t) (conf : Config.t) (err : option Event.t) (rank : lid -> nat) :
  wf g -> replayable g rank -> (forall e, err = Some e -> exists x l, replayed g x l /\ position l = e) ->
  exists s, calculateReplaySchedule dbg g conf err = Ok s /\ NoDup s /\ (forall e, e ∈ s <-> scheduled g conf err e) /\
    (forall e, err = Some e -> scheduled g conf err e -> head s = Some e) /\
    forall x lx y ly, replayed g x lx -> replayed g y ly -> tc (dep g) x y -> position lx ∈ s -> position ly ∈ s -> err <> Some (position ly) ->
      Search.before s (position lx) (position ly).
Proof. intros Hg Hr. exact (replay_ok g Hg rank Hr dbg conf err). Qed.

(** ** Policies *)
Section policy.
Context {R : Type} (dist : Z -> R -> Z * R) (Hdist : forall n r, 0 <= n -> 0 <= (dist n r).1 <= n).
Context (g : Graph.t) (runnable : list Action).
Definition able (tid : Z) : Prop := isSchedulable g tid = Ok true.
Definition symm_pred (t t' : Z) : Prop := exists b l, getFirstThreadLabel g t = Ok (Some b) /\ store g !! b = Some l /\ symmPredTid l = t' /\ t' <> -1.
(** Every thread has its first label; the symmetric predecessor of a thread is older. *)
Definition symm_ok : Prop := forall t, 0 <= t < getNumThreads g -> exists b l, getFirstThreadLabel g t = Ok (Some b) /\ store g !! b = Some l /\
  (symmPredTid l = -1 \/ 0 <= symmPredTid l < t).
Definition in_range (a : Action) : Prop := 0 <= thread_of a < getNumThreads g.
Definition first_of (Q : Action -> Prop) (a : Action) : Prop := Q a /\ exists l1 l2, runnable = l1 ++ a :: l2 /\ forall b, b ∈ l1 -> ~ Q b.
Definition able_action (a : Action) : Prop := able (thread_of a).
Definition able_nonload (a : Action) : Prop := able_action a /\ action_kind a <> Load.
(** The action that a policy prefers. *)
Definition preferred (p : Config.SchedulePolicy) (a : Action) : Prop :=
  match p with
  | Config.LTR => first_of able_action a
  | Config.WF => first_of able_nonload a \/ first_of able_action a /\ forall b, b ∈ runnable -> ~ able_nonload b
  | Config.WFR => a ∈ runnable /\ able_action a /\ (action_kind a <> Load \/ forall b, b ∈ runnable -> ~ able_nonload b)
  | Config.Arbitrary => a ∈ runnable /\ able_action a
  end.

Context (Hg : wf g) (Hsym : symm_ok) (Hrun : Forall in_range runnable).
Lemma isSchedulable_total t : 0 <= t < getNumThreads g -> exists b, isSchedulable g t = Ok b.
Proof.
  intros Ht. unfold isSchedulable. destruct (last_label_ok g Hg t Ht) as (th & Eth & ->). cbn [mbind res_bind].
  destruct (last th) as [y|] eqn:Ey; [|by eexists]. rewrite last_lookup in Ey. destruct (wf_pos g Hg _ _ _ _ Eth Ey) as (ly & Ely & _).
  cbn. unfold dyn_cast. rewrite (label_ok g y ly Ely). by eexists.
Qed.
Lemma not_able t : 0 <= t < getNumThreads g -> isSchedulable g t <> Ok true -> isSchedulable g t = Ok false.
Proof. intros Ht Hn. destruct (isSchedulable_total t Ht) as [[] E]; [done|exact E]. Qed.
Lemma able_dec t : 0 <= t < getNumThreads g -> able t \/ isSchedulable g t = Ok false.
Proof. intros Ht. destruct (isSchedulable_total t Ht) as [[] E]; [by left|by right]. Qed.

Lemma first_schedulable_ok fuel : forall best t, 0 <= t < getNumThreads g -> t < Z.of_nat fuel ->
  exists r, first_schedulable g fuel best t = Ok r /\
    ((r = best /\ forall t', tc symm_pred t t' -> ~ able t') \/ (tc symm_pred t r /\ able r /\ forall t', tc symm_pred r t' -> ~ able t')).
Proof.
  induction fuel as [|fuel IH]; intros best t Ht Hf; [lia|]. cbn [first_schedulable].
  destruct (Hsym t Ht) as (b & l & Eb & El & Hp). rewrite Eb. cbn [deref mbind res_bind]. rewrite (label_ok g b l El). cbn [mbind res_bind].
  assert (forall t', symm_pred t t' -> t' = symmPredTid l) as Hu by (intros t' (b' & l' & E1 & E2 & <- & _); congruence).
  destruct (Z.eqb_spec (symmPredTid l) (-1)) as [E|E].
  - exists best. split; [done|]. left. split; [done|]. intros t' Htc. exfalso. inversion Htc as [? ? Hs|? ? ? Hs _]; subst; (destruct Hs as (b' & l' & E1 & E2 & E3 & Hne); congruence).
  - assert (0 <= symmPredTid l < t) as Hlt by (destruct Hp; [done|lia]). set (t1 := symmPredTid l) in *.
    assert (symm_pred t t1) as Hst by (by exists b, l).
    destruct (isSchedulable_total t1 ltac:(lia)) as [ok Eok]. rewrite Eok. cbn [mbind res_bind].
    assert (forall t', tc symm_pred t t' -> t' = t1 \/ tc symm_pred t1 t') as Hinv.
    { intros t' Htc. inversion Htc as [? ? H1|? y ? H1 H2]; subst; apply Hu in H1; [by left|right; congruence]. }
    destruct (IH (if ok then t1 else best) t1 ltac:(lia) ltac:(lia)) as (r & -> & [[-> Hr]|(Htc & Hr & Hn)]).
    + eexists. split; [done|]. destruct ok; [right; split; [by constructor|done]|left; split; [done|]].
      intros t' [->|Htc]%Hinv; [unfold able; congruence|by apply Hr].
    + exists r. split; [done|]. right. split; [by econstructor|done].
Qed.
(** The thread that is chosen for [t]: the farthest one on its chain that can run. *)
Definition stands_for (t r : Z) : Prop := rtc symm_pred t r /\ able r /\ forall t', tc symm_pred r t' -> ~ able t'.
Lemma getFirstSchedulableSymmetric_ok t : 0 <= t < getNumThreads g -> able t ->
  exists r, getFirstSchedulableSymmetric g t = Ok r /\ stands_for t r.
Proof.
  intros Ht Ha. destruct (first_schedulable_ok (S (length (events g))) t t Ht) as (r & E & Hr); [unfold getNumThreads in Ht; lia|].
  exists r. split; [exact E|]. destruct Hr as [[-> Hr]|(Htc & Hr & Hn)]; [by split_and!|]. split_and!; [by apply tc_rtc|done|done].
Qed.

Lemma find_first (f : Action -> res bool) (Q : Action -> Prop) l : (forall a, a ∈ l -> exists b, f a = Ok b /\ (b = true <-> Q a)) ->
  exists o, find_action f l = Ok o /\ match o with
    | Some a => Q a /\ exists l1 l2, l = l1 ++ a :: l2 /\ forall b, b ∈ l1 -> ~ Q b
    | None => forall a, a ∈ l -> ~ Q a
    end.
Proof.
  induction l as [|a l IH]; intros Hf; [exists None; split; [done|]; intros a Ha; by apply not_elem_of_nil in Ha|].
  cbn [find_action]. destruct (Hf a ltac:(left)) as (b & Eb & Hb). rewrite Eb. cbn [mbind res_bind]. destruct b.
  - eexists. split; [done|]. split; [by apply Hb|]. exists [], l. split; [done|]. intros b Hb'. by apply not_elem_of_nil in Hb'.
  - assert (~ Q a) as Hna by (intros H; apply Hb in H; done). destruct IH as (o & -> & Ho); [intros x Hx; apply Hf; by right|].
    exists o. split; [done|]. destruct o as [x|].
    + destruct Ho as (HQ & l1 & l2 & -> & Hl). split; [done|]. exists (a :: l1), l2. split; [done|]. intros y [->|Hy]%elem_of_cons; [done|by apply Hl].
    + intros y [->|Hy]%elem_of_cons; [done|by apply Ho].
Qed.
Lemma in_range_of a l : Forall in_range l -> a ∈ l -> in_range a.
Proof. intros Hl Ha. rewrite Forall_forall in Hl. by apply Hl. Qed.
Lemma able_spec a : in_range a -> exists b, isSchedulable g (thread_of a) = Ok b /\ (b = true <-> able_action a).
Proof.
  intros Ha. destruct (isSchedulable_total _ Ha) as [b E]. exists b. split; [done|]. unfold able_action, able. rewrite E. split; [by intros ->|by intros [= ->]].
Qed.
Definition outcome (p : Config.SchedulePolicy) (o : option Z) : Prop :=
  match o with
  | Some t => exists a, preferred p a /\ if decide (p = Config.LTR) then t = thread_of a else stands_for (thread_of a) t
  | None => forall a, a ∈ runnable -> ~ able_action a
  end.

Lemma LTR_ok : exists o, LTR_schedulePolicy g runnable = Ok o /\ outcome Config.LTR o.
Proof.
  unfold LTR_schedulePolicy. destruct (find_first (fun a => isSchedulable g (thread_of a)) able_action runnable) as (o & -> & Ho).
  - intros a Ha. by apply able_spec, (in_range_of a runnable).
  - cbn. eexists. split; [done|]. destruct o as [a|]; cbn; [|done]. by exists a.
Qed.
Lemma find_nonload_ok l fallback : Forall in_range l -> exists o f, find_nonload g fallback l = Ok (o, f) /\
  match o with
  | Some a => able_nonload a /\ exists l1 l2, l = l1 ++ a :: l2 /\ forall b, b ∈ l1 -> ~ able_nonload b
  | None => (forall a, a ∈ l -> ~ able_nonload a) /\
    (fallback = -1 -> if decide (f = -1) then forall a, a ∈ l -> ~ able_action a else
      exists a, thread_of a = f /\ able_action a /\ exists l1 l2, l = l1 ++ a :: l2 /\ forall b, b ∈ l1 -> ~ able_action b) /\
    (fallback <> -1 -> f = fallback)
  end.
Proof.
  intros Hl. revert fallback. induction Hl as [|a l Ha Hl IH]; intros fallback; cbn [find_nonload].
  - exists None, fallback. split; [done|]. split; [intros a Ha; by apply not_elem_of_nil in Ha|]. split; [|done]. intros ->. cbn. intros a Ha. by apply not_elem_of_nil in Ha.
  - destruct (able_spec a Ha) as (b & -> & Hb). cbn [mbind res_bind]. destruct b; cbn [negb].
    + assert (able_action a) as Haa by (by apply Hb).
      destruct (bool_decide_reflect (action_kind a = Load)) as [Ek|Ek]; cbn [negb].
      * assert (~ able_nonload a) as Hna by (by intros [_ ?]).
        destruct (IH (if fallback =? -1 then thread_of a else fallback)) as (o & f & -> & Ho). exists o, f. split; [done|].
        assert (thread_of a <> -1) as Hne by (unfold in_range in Ha; lia). destruct o as [x|].
        -- destruct Ho as (HQ & l1 & l2 & -> & Hl1). split; [done|]. exists (a :: l1), l2. split; [done|]. intros y [->|Hy]%elem_of_cons; [done|by apply Hl1].
        -- destruct Ho as (H1 & H2 & H3). split; [intros y [->|Hy]%elem_of_cons; [done|by apply H1]|]. destruct (Z.eqb_spec fallback (-1)) as [->|Hfb].
           ++ split; [|done]. intros _. rewrite (H3 Hne). rewrite decide_False by done. exists a. split_and!; [done|done|]. exists [], l. split; [done|].
              intros y Hy. by apply not_elem_of_nil in Hy.
           ++ split; [done|]. intros _. by apply H3.
      * eexists _, _. split; [done|]. split; [by split|]. exists [], l. split; [done|]. intros y Hy. by apply not_elem_of_nil in Hy.
    + assert (~ able_action a) as Hna by (intros H; apply Hb in H; done).
      destruct (IH fallback) as (o & f & -> & Ho). exists o, f. split; [done|]. destruct o as [x|].
      * destruct Ho as (HQ & l1 & l2 & -> & Hl1). split; [done|]. exists (a :: l1), l2. split; [done|]. intros y [->|Hy]%elem_of_cons; [by intros [? _]|by apply Hl1].
      * destruct Ho as (H1 & H2 & H3). split; [intros y [->|Hy]%elem_of_cons; [by intros [? _]|by apply H1]|]. split; [|done]. intros Hfb. specialize (H2 Hfb).
        case_decide; [intros y [->|Hy]%elem_of_cons; [done|by apply H2]|].
        destruct H2 as (x & Ex & Hx & l1 & l2 & -> & Hl1). exists x. split_and!; [done|done|]. exists (a :: l1), l2. split; [done|]. intros y [->|Hy]%elem_of_cons; [done|by apply Hl1].
Qed.
Lemma stands_outcome p a : p <> Config.LTR -> in_range a -> able_action a -> preferred p a ->
  exists t, getFirstSchedulableSymmetric g (thread_of a) = Ok t /\ outcome p (Some t).
Proof.
  intros Hp Ha Hab Hpr. destruct (getFirstSchedulableSymmetric_ok (thread_of a) Ha Hab) as (t & E & Ht). exists t. split; [done|].
  exists a. split; [done|]. by rewrite decide_False.
Qed.
Lemma WF_ok : exists o, WF_schedulePolicy g runnable = Ok o /\ outcome Config.WF o.
Proof.
  unfold WF_schedulePolicy. destruct (find_nonload_ok runnable (-1) Hrun) as (o & f & -> & Ho). cbn [mbind res_bind]. destruct o as [a|].
  - destruct Ho as (Ha & l1 & l2 & El & Hl). destruct (stands_outcome Config.WF a) as (t & -> & Ht); [done|..|by eexists].
    + apply (in_range_of a runnable Hrun). rewrite El. apply elem_of_app. right. by left.
    + apply Ha.
    + left. split; [done|]. by exists l1, l2.
  - destruct Ho as (H1 & H2 & _). specialize (H2 eq_refl). destruct (Z.eqb_spec f (-1)) as [->|Hf]; cbn [negb].
    + exists None. split; [done|exact H2].
    + rewrite decide_False in H2 by done. destruct H2 as (a & <- & Ha & l1 & l2 & El & Hl). destruct (stands_outcome Config.WF a) as (t & -> & Ht); [done|..|by eexists].
      * apply (in_range_of a runnable Hrun). rewrite El. apply elem_of_app. right. by left.
      * done.
      * right. split; [|done]. split; [done|]. by exists l1, l2.
Qed.
Lemma Arbitrary_ok s : exists o s', Arbitrary_schedulePolicy dist g runnable s = Ok (o, s') /\ outcome Config.Arbitrary o.
Proof.
  unfold Arbitrary_schedulePolicy. destruct (dist (Z.of_nat (length runnable)) (rng_ s)) as [random r].
  assert (forall js, Forall (fun i => 0 <= i < Z.of_nat (length runnable)) js -> exists o, arbitrary_from g runnable random js = Ok o /\
    match o with Some t => outcome Config.Arbitrary (Some t)
    | None => forall i a, i ∈ js -> runnable !! Z.to_nat ((i + random) mod Z.of_nat (length runnable)) = Some a -> ~ able_action a end) as Hgo.
  { intros js. induction 1 as [|i js Hi _ IH]; cbn [arbitrary_from]; [exists None; split; [done|]; intros i a Hi; by apply not_elem_of_nil in Hi|].
    pose proof (Z.mod_pos_bound (i + random) (Z.of_nat (length runnable)) ltac:(lia)) as Hm.
    destruct (lookup_lt_is_Some_2 runnable (Z.to_nat ((i + random) mod Z.of_nat (length runnable)))) as [a Ea]; [lia|].
    assert (vec_at runnable ((i + random) mod Z.of_nat (length runnable)) = Ok a) as -> by (rewrite <- (Z2Nat.id ((i + random) mod _)) by lia; by apply vec_at_ok).
    cbn [mbind res_bind]. assert (in_range a) as Ha by (apply (in_range_of a runnable Hrun); by eapply list_elem_of_lookup_2).
    destruct (able_spec a Ha) as (b & -> & Hb). cbn [mbind res_bind]. destruct b; cbn [negb].
    - destruct (stands_outcome Config.Arbitrary a) as (t & -> & Ht); [done|done|by apply Hb|split; [by eapply list_elem_of_lookup_2|by apply Hb]|]. by eexists.
    - destruct IH as (o & -> & Ho). exists o. split; [done|]. destruct o as [t|]; [done|]. intros j a' [->|Hj]%elem_of_cons Ea'; [|by eapply Ho].
      simplify_eq. intros H. apply Hb in H. done. }
  destruct (Hgo (seqZ 0 (Z.of_nat (length runnable)))) as (o & -> & Ho); [apply Forall_forall; intros i Hi%elem_of_seqZ; lia|]. cbn [mbind res_bind].
  eexists _, _. split; [done|]. destruct o as [t|]; [done|]. intros a [j Hj]%list_elem_of_lookup. pose proof (lookup_lt_Some _ _ _ Hj) as Hlt.
  set (n := Z.of_nat (length runnable)) in *. apply (Ho ((Z.of_nat j - random) mod n)).
  - apply elem_of_seqZ. pose proof (Z.mod_pos_bound (Z.of_nat j - random) n). lia.
  - rewrite Z.add_mod_idemp_l by lia. replace (Z.of_nat j - random + random) with (Z.of_nat j) by lia. by rewrite Z.mod_small, Nat2Z.id by lia.
Qed.
Lemma schedulable_actions_ok l : Forall in_range l -> exists l', schedulable_actions g l = Ok l' /\ forall a, a ∈ l' <-> a ∈ l /\ able_action a.
Proof.
  induction 1 as [|a l Ha _ IH]; cbn [schedulable_actions]; [exists []; split; [done|]; intros a; rewrite elem_of_nil; naive_solver|].
  destruct (able_spec a Ha) as (b & -> & Hb), IH as (l' & -> & Hl). cbn [mbind res_bind]. eexists. split; [done|]. intros x.
  destruct b; rewrite ?elem_of_cons, Hl; naive_solver.
Qed.
Lemma WFR_ok s : exists o s', WFR_schedulePolicy dist g runnable s = Ok (o, s') /\ outcome Config.WFR o.
Proof.
  unfold WFR_schedulePolicy. destruct (schedulable_actions_ok runnable Hrun) as (able & -> & Hab). cbn [mbind res_bind].
  set (ws := filter (fun a => action_kind a <> Load) able). set (rs := filter (fun a => action_kind a = Load) able).
  set (sel := if negb (bool_decide (map thread_of ws = [])) then ws else rs).
  replace (if negb (bool_decide (map thread_of ws = [])) then map thread_of ws else map thread_of rs) with (map thread_of sel) by (unfold sel; by destruct (negb _)).
  assert (forall a, a ∈ sel -> preferred Config.WFR a) as Hsel.
  { intros a Ha. unfold sel in Ha. destruct (bool_decide_reflect (map thread_of ws = [])) as [E|E]; cbn [negb] in Ha.
    - apply list_elem_of_filter in Ha as [_ [Hr Haa]%Hab]. split_and!; [done|done|]. right. intros b Hb [Hb1 Hb2].
      assert (b ∈ ws) as Hw by (apply list_elem_of_filter; split; [done|by apply Hab]). apply map_eq_nil in E. rewrite E in Hw. by apply not_elem_of_nil in Hw.
    - apply list_elem_of_filter in Ha as [Hk [Hr Haa]%Hab]. split_and!; [done|done|by left]. }
  case_bool_decide as E.
  - exists None, s. split; [done|]. apply map_eq_nil in E. intros a Ha Haa. assert (a ∈ able) as Hin by (by apply Hab).
    unfold sel in E. destruct (bool_decide_reflect (map thread_of ws = [])) as [E2|E2]; cbn [negb] in E; [|by rewrite E in E2].
    apply map_eq_nil in E2. destruct (decide (action_kind a = Load)) as [Ek|Ek].
    + assert (a ∈ rs) as H by (by apply list_elem_of_filter). rewrite E in H. by apply not_elem_of_nil in H.
    + assert (a ∈ ws) as H by (by apply list_elem_of_filter). rewrite E2 in H. by apply not_elem_of_nil in H.
  - assert (0 < Z.of_nat (length (map thread_of sel))) as Hlen by (destruct (map thread_of sel); [done|cbn; lia]).
    pose proof (Hdist (Z.of_nat (length (map thread_of sel)) - 1) (rng_ s) ltac:(lia)) as Hk. destruct (dist _ _) as [k r]. cbn [fst] in Hk.
    destruct (lookup_lt_is_Some_2 sel (Z.to_nat k)) as [a Ea]; [rewrite length_map in Hlen, Hk; lia|].
    assert (vec_at (map thread_of sel) k = Ok (thread_of a)) as ->.
    { rewrite <- (Z2Nat.id k) by lia. apply vec_at_ok. by rewrite list_lookup_fmap, Ea. }
    cbn [mbind res_bind]. assert (a ∈ sel) as Ha by (by eapply list_elem_of_lookup_2). pose proof (Hsel a Ha) as Hp.
    destruct (stands_outcome Config.WFR a) as (t & -> & Ht); [done|by apply (in_range_of a runnable), Hp|apply Hp|done|]. by eexists _, _.
Qed.
End policy.

(** C34: Every policy returns.  It chooses no thread exactly when none of the runnable
    ones can be scheduled.  From left to right, it takes the first one that can;
    writes-first, the first whose next action is not a load if there is one, and
    otherwise the first; the randomized variant any of these; the arbitrary one any
    that can be scheduled.  All but the first policy replace the thread by the farthest
    symmetric predecessor that can be scheduled. *)
Theorem policies_correct {R : Type} (dist : Z -> R -> Z * R) (p : Config.SchedulePolicy) (g : Graph.t) (runnable : list Action) (s : t R) :
  (forall n r, 0 <= n -> 0 <= (dist n r).1 <= n) -> wf g -> symm_ok g -> Forall (in_range g) runnable ->
  exists o s', schedulePolicy dist p g runnable s = Ok (o, s') /\ outcome g runnable p o.
Proof.
  intros Hd Hg Hs Hr. destruct p; cbn [schedulePolicy].
  - destruct (LTR_ok g runnable Hg Hr) as (o & -> & Ho). by eexists _, _.
  - destruct (WF_ok g runnable Hg Hs Hr) as (o & -> & Ho). by eexists _, _.
  - by apply WFR_ok.
  - by apply Arbitrary_ok.
Qed.

(** ** Schedules *)
Lemma mp_label_ids i : i ∈ concat (events ConsistencyChecker.mp) -> i ∈ [1; 2; 3; 4; 5; 6; 7]%nat.
Proof. revert i. apply Forall_forall. apply (bool_decide_unpack _). vm_compute. exact I. Qed.
Lemma mp_replayable : replayable ConsistencyChecker.mp id.
Proof.
  split.
  - intros x y Hd. unfold id. destruct (decide (y < x)%nat) as [|Hlt]; [done|exfalso].
    assert (exists lx ly, counted ConsistencyChecker.mp x lx /\ counted ConsistencyChecker.mp y ly /\
      (getThread ly = getThread lx /\ getIndex ly = getIndex lx - 1 \/ Class.isRead (kind lx) = true /\ readsFrom lx = Some y \/
       kind lx = Kind.ThreadJoin \/ Class.isThreadStart (kind lx) = true)) as (lx & ly & (Hx%mp_label_ids & Ex & Hx0) & (Hy%mp_label_ids & Ey & Hy0) & Hd2)
      by (destruct Hd; eauto 10).
    clear Hd. rewrite !elem_of_cons, elem_of_nil in Hx, Hy.
    destruct Hx as [->|[->|[->|[->|[->|[->|[->|[]]]]]]]]; vm_compute in Ex; injection Ex as <-; try (vm_compute in Hx0; discriminate Hx0);
      destruct Hy as [->|[->|[->|[->|[->|[->|[->|[]]]]]]]]; try lia; vm_compute in Ey; injection Ey as <-; try (vm_compute in Hy0; discriminate Hy0);
      vm_compute in Hd2; naive_solver.
  - intros x l (Hx%mp_label_ids & Ex & Hx0) Hk. exfalso. rewrite !elem_of_cons, elem_of_nil in Hx.
    destruct Hx as [->|[->|[->|[->|[->|[->|[->|[]]]]]]]]; vm_compute in Ex; injection Ex as <-; discriminate Hk.
  - intros x l y (Hx%mp_label_ids & Ex & Hx0) Hk. exfalso. rewrite !elem_of_cons, elem_of_nil in Hx.
    destruct Hx as [->|[->|[->|[->|[->|[->|[->|[]]]]]]]]; vm_compute in Ex; injection Ex as <-; first [discriminate Hk|vm_compute in Hx0; discriminate Hx0].
Qed.
Lemma replay_schedule_correct_witness :
  calculateReplaySchedule true ConsistencyChecker.mp Config.bounded (Some (Event.Event 0 3)) =
    Ok [Event.Event 0 3; Event.Event 1 2; Event.Event 1 1; Event.Event 0 2; Event.Event 0 1] /\
  exists s, calculateReplaySchedule true ConsistencyChecker.mp Config.bounded (Some (Event.Event 0 3)) = Ok s /\ NoDup s /\
    (forall e, e ∈ s <-> scheduled ConsistencyChecker.mp Config.bounded (Some (Event.Event 0 3)) e).
Proof.
  split; [vm_compute; reflexivity|].
  destruct (replay_schedule_correct true ConsistencyChecker.mp Config.bounded (Some (Event.Event 0 3)) id) as (s & E & Hnd & Hs & _).
  - apply Script.message_passing_checkable.
  - exact mp_replayable.
  - intros e [= <-]. exists 5%nat, (GraphUtils.get ConsistencyChecker.mp 5%nat). split; [|vm_compute; reflexivity].
    split; [|vm_compute; reflexivity]. split; [|split; [|vm_compute; reflexivity]].
    + apply Checkable.in_graph_check. vm_compute. reflexivity.
    + apply GraphUtils.get_ok. vm_compute. reflexivity.
  - exists s. split; [exact E|]. split; [exact Hnd|exact Hs].
Defined.
Definition two_actions : list Action := [MkAction Load (Event.Event 0 3); MkAction NonLoad (Event.Event 1 2)].
Lemma mp_symm : symm_ok ConsistencyChecker.mp.
Proof.
  intros t Ht. replace (getNumThreads ConsistencyChecker.mp) with 2 in Ht by (vm_compute; reflexivity). assert (t = 0 \/ t = 1) as [->| ->] by lia.
  - exists 1%nat, (GraphUtils.get ConsistencyChecker.mp 1%nat). split_and!; [vm_compute; reflexivity..|]. left. vm_compute. reflexivity.
  - exists 3%nat, (GraphUtils.get ConsistencyChecker.mp 3%nat). split_and!; [vm_compute; reflexivity..|]. left. vm_compute. reflexivity.
Qed.
Lemma policies_correct_witness :
  schedulePolicy (fun _ r => (0, r)) Config.WF ConsistencyChecker.mp two_actions (create tt) = Ok (Some 1, create tt) /\
  exists o s', schedulePolicy (fun _ r => (0, r)) Config.WF ConsistencyChecker.mp two_actions (create tt) = Ok (o, s') /\
    outcome ConsistencyChecker.mp two_actions Config.WF o.
Proof.
  split; [vm_compute; reflexivity|]. apply policies_correct.
  - intros n r Hn. cbn. lia.
  - apply Script.message_passing_checkable.
  - exact mp_symm.
  - repeat constructor; vm_compute; discriminate.
Defined.

(** *** Creation is not replayed in order *)
(** The second thread creates a third one, which writes; the first thread reads the write. *)
Definition relay : Graph.t := Script.script (Script.spawn ++ [
  Script.Add 4 (mkThreadCreate (Event.Event 1 1) (Build_ThreadInfo 2 1 0 SVal.default (-1)) noDeps);
  Script.Thread;
  Script.Add 5 (mkThreadStart (Event.Event 2 0) (Event.Event 1 1) (Some 4%nat) noThreadInfo (-1));
  Script.Add 6 (Script.write 2 1 MemOrdering.Relaxed Script.loc_x 1); Script.Co 6 1;
  Script.Add 7 (Script.read 0 2 MemOrdering.Relaxed Script.loc_x); Script.Rf 7 6]).
(** The walk starts with views that contain the labels of index zero, so that it never
    follows a begin to the creation of its thread: the write of the third thread is
    executed before the second thread creates it. *)
Lemma relay_out_of_order : calculateReplaySchedule true relay Config.bounded None =
  Ok [Event.Event 1 1; Event.Event 0 2; Event.Event 2 1; Event.Event 0 1].
Proof. vm_compute. reflexivity. Qed.
(** When the main thread has created the second one, the scheduler looks for the third
    one among the runnable threads. *)
Lemma relay_undefined : scheduleReplay relay [MkAction Load (Event.Event 0 1); MkAction NonLoad (Event.Event 1 0)]
  (set_replaySchedule [Event.Event 1 1; Event.Event 0 2; Event.Event 2 1; Event.Event 0 1] (create tt)) = Abort Undefined.
Proof. vm_compute. reflexivity. Qed.
End Scheduler.
