(* ===== verification/Driver.v ===== *)
(** * The driver: state, errors, scheduling

    Models the first part of Verification/GenMCDriver.{hpp,cpp}: what the driver keeps
    during the exploration, how it grows and validates the current graph, how errors are
    reported and replayed, and when it halts.  The methods of the class are functions of
    a monad that threads the state of the driver; a failed check of the program is an
    [Abort].  A label that is handed over is allocated in the current graph under an
    identity that the driver has never used.

    The driver runs on its own, without a thread pool.  The label cache, the text of
    reports and the floating-point estimate are not part of its state. *)

From S2P Require Import Prelude Values Addresses Events VSet Views IntervalMap AdaptiveView ExecutionState SymExpr Labels Graph Relations Cut Search Automata Checkable Scripts GraphUtils Calc Symmetry Clocks AccessValues Errors Revisits.
From S2P Require Import Checkers Revisiting Config Bounds Scheduler Copy.
Import EventLabel Graph ConsistencyChecker.
Local Open Scope Z_scope.

Module Driver.
#[local] Existing Instances VerificationError.eq_dec VerificationError.error_ord ExecutionState.IVal_alloc.

(** [GenMCDriver::Mode] *)
Inductive Mode := VerificationMode | EstimationMode (budget : Z) | RandomMode (budget : Z).

(** [GenMCDriver::Execution]; the views are those that the labels of the graph own. *)
Record Execution := MkExecution {
  graph : Graph.t;
  calculatedViews : gmap lid (list View.vid);
  prefixView : gmap lid View.vid;
  workqueue : WorkList.t (list Z);
  choices : ChoiceMap.t
}.

(** The parts of [VerificationResult] that decide what the driver does. *)
Record VerificationResult := Result {
  status : option VerificationError.t;
  warnings : list VerificationError.t;
  explored : Z;
  exploredBlocked : Z;
  boundExceeding : Z
}.
(** The labels used for accesses that do not stay in the graph. *)
Record Probes := MkProbes {
  readProbeLab : option EventLabel.t; writeProbeLab : option EventLabel.t; mallocProbeLab : option EventLabel.t;
  freeProbeLab : option EventLabel.t; retireProbeLab : option EventLabel.t
}.

(** The members of the class; the current execution is the first of [execStack], the
    views of all labels are in one heap, [cexLab] is that of the consistency checker,
    [nextId] is the next unused identity, and [R] is the type of the generators. *)
Section state.
Context {R : Type}.
Record t := MkDriver {
  mode : Mode;
  execStack : list Execution;
  heap : View.store;
  execState : ExecutionState.t (list Z);
  scheduler : Scheduler.t R;
  isMootExecution : bool;
  shouldHalt : bool;
  bufferedError : option ErrorDetails;
  dbgInfo : gset Event.t;
  cexLab : option lid;
  result : VerificationResult;
  probes : Probes;
  estRng : R;
  nextId : lid
}.
End state.
Arguments t : clear implicits.

Section fields.
Context {R : Type}.
Implicit Types (d : t R).
Definition set_mode x d := MkDriver x (execStack d) (heap d) (execState d) (scheduler d) (isMootExecution d) (shouldHalt d) (bufferedError d) (dbgInfo d) (cexLab d) (result d) (probes d) (estRng d) (nextId d).
Definition set_execStack x d := MkDriver (mode d) x (heap d) (execState d) (scheduler d) (isMootExecution d) (shouldHalt d) (bufferedError d) (dbgInfo d) (cexLab d) (result d) (probes d) (estRng d) (nextId d).
Definition set_heap x d := MkDriver (mode d) (execStack d) x (execState d) (scheduler d) (isMootExecution d) (shouldHalt d) (bufferedError d) (dbgInfo d) (cexLab d) (result d) (probes d) (estRng d) (nextId d).
Definition set_execState x d := MkDriver (mode d) (execStack d) (heap d) x (scheduler d) (isMootExecution d) (shouldHalt d) (bufferedError d) (dbgInfo d) (cexLab d) (result d) (probes d) (estRng d) (nextId d).
Definition set_scheduler x d := MkDriver (mode d) (execStack d) (heap d) (execState d) x (isMootExecution d) (shouldHalt d) (bufferedError d) (dbgInfo d) (cexLab d) (result d) (probes d) (estRng d) (nextId d).
Definition set_moot x d := MkDriver (mode d) (execStack d) (heap d) (execState d) (scheduler d) x (shouldHalt d) (bufferedError d) (dbgInfo d) (cexLab d) (result d) (probes d) (estRng d) (nextId d).
Definition set_shouldHalt x d := MkDriver (mode d) (execStack d) (heap d) (execState d) (scheduler d) (isMootExecution d) x (bufferedError d) (dbgInfo d) (cexLab d) (result d) (probes d) (estRng d) (nextId d).
Definition set_bufferedError x d := MkDriver (mode d) (execStack d) (heap d) (execState d) (scheduler d) (isMootExecution d) (shouldHalt d) x (dbgInfo d) (cexLab d) (result d) (probes d) (estRng d) (nextId d).
Definition set_dbgInfo x d := MkDriver (mode d) (execStack d) (heap d) (execState d) (scheduler d) (isMootExecution d) (shouldHalt d) (bufferedError d) x (cexLab d) (result d) (probes d) (estRng d) (nextId d).
Definition set_cexLab x d := MkDriver (mode d) (execStack d) (heap d) (execState d) (scheduler d) (isMootExecution d) (shouldHalt d) (bufferedError d) (dbgInfo d) x (result d) (probes d) (estRng d) (nextId d).
Definition set_result x d := MkDriver (mode d) (execStack d) (heap d) (execState d) (scheduler d) (isMootExecution d) (shouldHalt d) (bufferedError d) (dbgInfo d) (cexLab d) x (probes d) (estRng d) (nextId d).
Definition set_probes x d := MkDriver (mode d) (execStack d) (heap d) (execState d) (scheduler d) (isMootExecution d) (shouldHalt d) (bufferedError d) (dbgInfo d) (cexLab d) (result d) x (estRng d) (nextId d).
Definition set_estRng x d := MkDriver (mode d) (execStack d) (heap d) (execState d) (scheduler d) (isMootExecution d) (shouldHalt d) (bufferedError d) (dbgInfo d) (cexLab d) (result d) (probes d) x (nextId d).
Definition set_nextId x d := MkDriver (mode d) (execStack d) (heap d) (execState d) (scheduler d) (isMootExecution d) (shouldHalt d) (bufferedError d) (dbgInfo d) (cexLab d) (result d) (probes d) (estRng d) x.
End fields.
Definition set_status x r := Result x (warnings r) (explored r) (exploredBlocked r) (boundExceeding r).
Definition set_warnings x r := Result (status r) x (explored r) (exploredBlocked r) (boundExceeding r).
Definition set_explored x r := Result (status r) (warnings r) x (exploredBlocked r) (boundExceeding r).
Definition set_exploredBlocked x r := Result (status r) (warnings r) (explored r) x (boundExceeding r).
Definition set_boundExceeding x r := Result (status r) (warnings r) (explored r) (exploredBlocked r) x.

(** ** The monad *)
Definition M (R A : Type) : Type := t R -> res (A * t R).
#[global] Instance M_ret {R} : MRet (M R) := fun A x d => Ok (x, d).
#[global] Instance M_bind {R} : MBind (M R) := fun A B f m d => match m d with Ok (x, d) => f x d | Abort e => Abort e end.
Definition lift {R A} (r : res A) : M R A := fun d => match r with Ok x => Ok (x, d) | Abort e => Abort e end.
Definition gets {R A} (f : t R -> A) : M R A := fun d => Ok (f d, d).
Definition modify {R} (f : t R -> t R) : M R () := fun d => Ok ((), f d).
Definition when {R} (b : bool) (m : M R ()) : M R () := if b then m else mret ().
Fixpoint iterM {R A} (f : A -> M R ()) (l : list A) : M R () := match l with [] => mret () | x :: l => f x;; iterM f l end.

(** *** The current execution *)
Section exec.
Context {R : Type}.
Definition getExec : M R Execution := fun d => match execStack d with e :: _ => Ok (e, d) | [] => Abort Undefined end.
Definition putExec (e : Execution) : M R () := fun d =>
  match execStack d with _ :: es => Ok ((), set_execStack (e :: es) d) | [] => Abort Undefined end.
Definition getGraph : M R Graph.t := e ← getExec; mret (graph e).
Definition putGraph (g : Graph.t) : M R () :=
  e ← getExec; putExec (MkExecution g (calculatedViews e) (prefixView e) (workqueue e) (choices e)).
Definition onGraph (f : Graph.t -> res Graph.t) : M R () := g ← getGraph; g ← lift (f g); putGraph g.
Definition ask {A} (f : Graph.t -> res A) : M R A := g ← getGraph; lift (f g).
Definition addWork (item : Revisit.t (list Z)) : M R () :=
  e ← getExec; putExec (MkExecution (graph e) (calculatedViews e) (prefixView e) (WorkList.add item (workqueue e)) (choices e)).
Definition onChoices (f : ChoiceMap.t -> res ChoiceMap.t) : M R () :=
  e ← getExec; m ← lift (f (choices e)); putExec (MkExecution (graph e) (calculatedViews e) (prefixView e) (workqueue e) m).
Definition getViews : M R Calc.t := e ← getExec; h ← gets heap; mret (Calc.State h (calculatedViews e) (prefixView e)).
Definition putViews (st : Calc.t) : M R () :=
  e ← getExec; modify (set_heap (Calc.heap st));;
  putExec (MkExecution (graph e) (Calc.calculatedViews st) (Calc.prefixView st) (workqueue e) (choices e)).
Definition onState (f : ExecutionState.t (list Z) -> res (ExecutionState.t (list Z))) : M R () :=
  s ← gets execState; s ← lift (f s); modify (set_execState s).

(** Stack operations; [popExecution] returns whether an execution is left. *)
Definition pushExecution (e : Execution) : M R () := modify (fun d => set_execStack (e :: execStack d) d).
Definition drop_views (vs : list View.vid) : M R () := modify (fun d => set_heap (foldl View.destroy (heap d) vs) d).
Definition views_of (e : Execution) : list View.vid := concat (map snd (map_to_list (calculatedViews e))) ++ map snd (map_to_list (prefixView e)).
Definition popExecution : M R bool :=
  es ← gets execStack;
  match es with
  | [] => mret false
  | e :: es => drop_views (views_of e);; modify (set_execStack es);; mret (match es with [] => false | _ :: _ => true end)
  end.
End exec.

(** ** What a driver is made of *)
Class Env (R : Type) := {
  conf : Config.t;
  (* whether assertions are compiled in *)
  dbg : bool;
  consChecker : Checker;
  (* the memory that initial data point to *)
  mem : Z -> Z;
  (* [std::uniform_int_distribution(0, n)] *)
  dist : Z -> R -> Z * R;
  (* what the storage of details that have been destroyed reads as; C++ leaves it open *)
  destroyed : ErrorDetails -> ErrorDetails
}.
#[global] Existing Instance consChecker.

Section driver.
Context {R : Type} `{Env R}.
Implicit Types (lab : lid) (pos : Event.t).

(** ** Modes and flags *)
Definition inEstimationMode : M R bool := m ← gets mode; mret (match m with EstimationMode _ => true | _ => false end).
Definition inRandomMode : M R bool := m ← gets mode; mret (match m with RandomMode _ => true | _ => false end).
Definition inVerificationMode : M R bool := m ← gets mode; mret (match m with VerificationMode => true | _ => false end).
Definition isHalting : M R bool := gets shouldHalt.
Definition isMoot : M R bool := gets isMootExecution.
Definition moot : M R () := modify (set_moot true).
Definition unmoot : M R () := modify (set_moot false).
Definition halt (e : VerificationError.t) : M R () :=
  modify (fun d => set_result (set_status (Some e) (result d)) (set_shouldHalt true d)).
Definition inErrorReplay : M R bool := s ← gets scheduler; mret (Scheduler.inErrorReplay s).
Definition isErrorReplayEvent pos : M R bool := s ← gets scheduler; mret (Scheduler.isErrorReplayEvent pos s).
Definition onScheduler (f : Scheduler.t R -> Scheduler.t R) : M R () := modify (fun d => set_scheduler (f (scheduler d)) d).

(** ** Bounds and validity *)
Definition executionExceedsBound (strategy : BoundCalculationStrategy) : M R bool :=
  est ← inEstimationMode;
  match Config.bound conf with
  | Some b => if (est : bool) then mret false else ask (fun g => BoundDecider.doesExecutionExceedBound dbg (Config.boundType conf) g b strategy)
  | None => mret false
  end.
Definition fullExecutionExceedsBound : M R bool := executionExceedsBound NonSlacked.
Definition partialExecutionExceedsBound : M R bool := executionExceedsBound Slacked.

Definition isExecutionValid lab : M R bool :=
  g ← getGraph;
  symm ← lift (if Config.symmetryReduction conf then SymmetryChecker.isSymmetryOK g lab else Ok true);
  if negb symm then mret false else
  ok ← lift (
    rLab ← dyn_cast Class.isRead g lab;
    top ← match rLab with None => Ok false | Some r => l ← label g r; m ← co_max g (getAddr l); Ok (bool_decide (readsFrom l = Some m)) end;
    if (top : bool) then Ok true else isConsistent_lab g lab);
  if negb ok then mret false else
  b ← partialExecutionExceedsBound; mret (negb b).

Definition isExecutionDrivenByGraph (curr : Event.t) : M R bool := ask (fun g =>
  n ← getThreadSize g (Event.thread curr);
  if negb (Event.index curr <? n) then Ok false else
  i ← getEventLabel g curr; l ← label g i; Ok (negb (Class.isKind Kind.Empty (kind l)))).

(** ** Labels *)
Definition calc_config : Calc.config := Calc.Config (bool_decide (is_Some (Config.collectLinSpec conf))) (bool_decide (is_Some (Config.checkLinSpec conf))).
Definition updateLabelViews lab : M R () :=
  g ← getGraph; st ← getViews;
  st ← lift (
    st ← updateMMViews dbg calc_config g lab st;
    if Config.symmetryReduction conf then SymmetryChecker.updatePrefixWithSymmetries g dbg lab st else Ok st);
  putViews st.
Definition fresh : M R lid := i ← gets nextId; modify (set_nextId (S i));; mret i.
Definition addLabelToGraph (l : EventLabel.t) : M R lid :=
  i ← fresh;
  onGraph (fun g => Graph.addLabelToGraph i (alloc i l g));;
  updateLabelViews i;; mret i.
Definition blockThread (bLab : EventLabel.t) : M R () := i ← fresh; onGraph (GraphUtils.blockThread i bLab).

(** [getHbView(lab)], and the prefix of a label *)
Definition hbView_of (st : Calc.t) (g : Graph.t) lab : res (list Z) := v ← getHbView g st lab; Clocks.snapshot (Calc.heap st) v.
Definition getHbView lab : M R (list Z) := g ← getGraph; st ← getViews; lift (hbView_of st g lab).
Definition getPrefixView lab : M R (list Z) := g ← getGraph; st ← getViews; lift (Revisiting.getPrefixView dbg g st lab).
(** The values of labels, in the current state. *)
Definition values {A} (f : ExecutionState.t (list Z) -> Graph.t -> (lid -> res (list Z)) -> res A) : M R A :=
  g ← getGraph; st ← getViews; s ← gets execState; lift (f s g (hbView_of st g)).
Definition getAccessValue lab (a : AAccess.t) : M R SVal.t := values (fun s g hb => AccessValues.getAccessValue (Config.emitNALabels conf) mem hb s g lab a).
Definition getReturnValue lab : M R SVal.t := values (fun s g hb => AccessValues.getReturnValue (Config.emitNALabels conf) mem hb s g lab).
Definition createRMWWriteLabel lab : M R (option EventLabel.t) := values (fun s g hb => AccessValues.createRMWWriteLabel (Config.emitNALabels conf) mem hb s g lab).
Definition isEffectful lab : M R bool := values (fun s g hb => AccessValues.isEffectful (Config.emitNALabels conf) mem hb s g lab).
Definition readsBarrierUnblockingValue lab : M R bool := values (fun s g hb => AccessValues.readsBarrierUnblockingValue (Config.emitNALabels conf) mem hb s g lab).
Definition isLastInBarrierRound lab : M R bool := values (fun s g hb => AccessValues.isLastInBarrierRound (Config.emitNALabels conf) mem hb s g lab).
Definition updateDeferredValue (a : AAccess.t) (val : SVal.t) : M R () :=
  g ← getGraph; s ← gets execState; '(s, g) ← lift (AccessValues.updateDeferredValue a val s g);
  modify (set_execState s);; putGraph g.

(** ** Reporting errors *)
Definition details (p : option Event.t) (e : VerificationError.t) (racy : option lid) (halts : bool) : ErrorDetails :=
  {| ed_pos := p; ed_type := e; ed_racyLab := racy; ed_shouldHalt := halts |}.
Definition initiateErrorReplay (det : ErrorDetails) : M R () :=
  p ← ask (fun g => i ← deref (head (Relations.rlabels g)); l ← label g i; Ok (position l));
  addWork (Revisit.ReplayForward p det);;
  when (ed_shouldHalt det) moot.
Definition haltErrorReplay : M R () :=
  onScheduler (Scheduler.setErrorReplayEvent None);;
  modify (fun d => set_bufferedError None (set_dbgInfo ∅ d));; moot.
(** The read of an invalid access forgets its source. *)
Definition forget_source (det : ErrorDetails) : M R () :=
  match ed_pos det with
  | None => mret ()
  | Some p =>
      onGraph (fun g => i ← getEventLabel g p; l ← label g i;
        if VerificationError.isInvalidAccessError (ed_type det) && Class.isRead (kind l) then setRf i None g else Ok g)
  end.
(** The reference to the details: a temporary of the caller, or the buffered error. *)
Inductive DetailsRef := Temporary (det : ErrorDetails) | Buffered.
Definition pointee (r : DetailsRef) : M R ErrorDetails :=
  match r with Temporary det => mret det | Buffered => b ← gets bufferedError; lift (deref b) end.
(** What the reference to [det] reads once the buffered error is gone. *)
Definition pointee_after_halt (r : DetailsRef) (det : ErrorDetails) : ErrorDetails :=
  match r with Temporary _ => det | Buffered => destroyed det end.
Definition reportError (pos : Event.t) (r : DetailsRef) : M R () :=
  h ← isHalting; if (h : bool) then mret () else
  det ← pointee r;
  est ← inEstimationMode; if est && negb (ed_shouldHalt det) then mret () else
  replay ← inErrorReplay; here ← isErrorReplayEvent pos;
  if replay && negb here then mret () else
  if negb replay then initiateErrorReplay det else
  forget_source det;;
  haltErrorReplay;;
  let det := pointee_after_halt r det in
  when (ed_shouldHalt det) (halt (ed_type det)).

(** [details] without the arguments that have a default, then the error as a result. *)
Definition fail (p : Event.t) (e : VerificationError.t) : M R (option VerificationError.t) :=
  reportError p (Temporary (details (Some p) e None true));; mret (Some e).

Definition symmetric_threads (g : Graph.t) : res bool :=
  Relations.anyM (fun tid => o ← getFirstThreadLabel g (Z.of_nat tid); b ← deref o; l ← label g b; Ok (negb (symmPredTid l =? -1))) (seq 0 (length (events g))).
Definition shouldUpgradeWarning (pos : Event.t) (wcode : VerificationError.t) : M R bool :=
  if negb (bool_decide (wcode = VerificationError.VE_WWRace)) || (negb (Config.symmetryReduction conf) && negb (Config.ipr conf)) then mret false else
  ask (fun g =>
    i ← getEventLabel g pos;
    a ← (if Config.symmetryReduction conf then symmetric_threads g else Ok false);
    if (a : bool) then Ok true else
    if negb (Config.ipr conf) then Ok false else
    ls ← Relations.samelocs g i;
    Relations.anyM (fun o => l ← label g o; Ok (Class.isRead (kind l) && bool_decide (is_Some (annot l)))) ls).
Definition reportWarningOnce (pos : Event.t) (wcode : VerificationError.t) (racyLab : option lid) : M R bool :=
  upgrade ← shouldUpgradeWarning pos wcode;
  known ← gets (fun d => warnings (result d));
  when (upgrade || bool_decide (VSet.count known wcode = 0%nat)) (reportError pos (Temporary (details (Some pos) wcode racyLab upgrade)));;
  modify (fun d => set_result (set_warnings (VSet.insert (warnings (result d)) wcode).1 (result d)) d);;
  when (bool_decide (wcode = VerificationError.VE_WWRace)) (onGraph (fun g => o ← getWriteLabel g pos; w ← deref o; Ok (upd w (setAttr WriteAttr_WWRacy) g)));;
  mret upgrade.

(** [updateErrorInfoAndMaybeExit]; whether there is debug information is an argument. *)
Definition updateErrorInfoAndMaybeExit (pos : Event.t) (isNA hasDbg : bool) : M R (option VerificationError.t) :=
  replay ← inErrorReplay; if negb replay then mret None else
  when (hasDbg && (negb isNA || Config.emitNALabels conf)) (
    seen ← gets dbgInfo; lift (verify (negb (bool_decide (pos ∈ seen))));; modify (set_dbgInfo ({[pos]} ∪ seen)));;
  b ← gets bufferedError; here ← isErrorReplayEvent pos;
  match b with
  | Some det =>
      if negb here then mret None else
      reportError pos Buffered;; mret (if ed_shouldHalt det then Some (ed_type det) else None)
  | None => mret None
  end.

(** ** Checks *)
Fixpoint report_warnings (pos : Event.t) (codes : list VerificationError.t) (races : list (option lid)) (i : Z) : M R (option VerificationError.t) :=
  match codes with
  | [] => mret None
  | wcode :: codes =>
      r ← lift (vec_at races i); b ← reportWarningOnce pos wcode r;
      if (b : bool) then mret (Some wcode) else report_warnings pos codes races (i + 1)
  end.
Definition checkForRaces lab : M R (option VerificationError.t) :=
  est ← inEstimationMode;
  if Config.disableRaceDetection conf || est then mret None else
  g ← getGraph; st ← getViews; s ← gets execState; cex ← gets cexLab; l ← lift (label g lab);
  '(err, racyLab, cex) ← lift (checkErrors _ s g st lab None cex);
  modify (set_cexLab cex);;
  match err with
  | Some e => reportError (position l) (Temporary (details (Some (position l)) e racyLab true));; mret (Some e)
  | None =>
      seen ← gets (fun d => warnings (result d));
      '(newWarnings, races, cex) ← lift (checkWarnings _ s g st lab seen [] cex);
      modify (set_cexLab cex);;
      report_warnings (position l) newWarnings races 0
  end.
Definition checkAccessValidity (pos : Event.t) (a : AAccess.t) : M R (option VerificationError.t) :=
  s ← gets execState;
  if (negb (Config.disableStaticValidityChecks conf) && negb (SAddr.isDynamic (AAccess.addr a)) && negb (ExecutionState.isStatic s (AAccess.addr a)))
     || (SAddr.isDynamic (AAccess.addr a) && negb (ExecutionState.isAllocated s (AAccess.addr a)))
  then fail pos VerificationError.VE_AccessNonMalloc else mret None.
Definition checkInitializedMem_read lab : M R (option VerificationError.t) :=
  if Config.disableInitializationChecks conf then mret None else
  l ← ask (fun g => label g lab); s ← gets execState;
  bad ← (if negb (SAddr.isDynamic (getAddr l)) then mret false else
    i ← lift (ExecutionState.isInitialized s (access l));
    if negb i then mret true else
    hb ← getHbView lab; c ← lift (v ← ExecutionState.getInitView s (access l); AdaptiveView.containedIn v hb); mret (negb c));
  if (bad : bool) then fail (position l) VerificationError.VE_UninitializedMem else
  mixed ← ask (fun g => match readsFrom l with
    | None => Ok false
    | Some w => lw ← label g w;
        if Event.isInitializer (position lw) then Ok false else
        verify (Class.isWrite (kind lw));; Ok (negb (getSize lw =? getSize l)) end);
  if (mixed : bool) then fail (position l) VerificationError.VE_MixedSize else mret None.
Definition checkInitializedMem_write lab : M R (option VerificationError.t) :=
  l ← ask (fun g => label g lab);
  if negb (Class.isKind Kind.UnlockWrite (kind l)) then mret None else
  m ← ask (fun g => GraphUtils.findMatchingLock g lab);
  match m with Some _ => mret None | None => fail (position l) VerificationError.VE_InvalidUnlock end.
Definition checkFinalAnnotations lab : M R (option VerificationError.t) :=
  if negb (Config.finalWrite conf) then mret None else
  l ← ask (fun g => label g lab); g ← getGraph;
  if negb (hasLocMoreThanOneStore g (getAddr l)) then mret None else
  ss ← lift (Relations.co g (getAddr l));
  bad ← (if hasAttr l WriteAttr_Final then
      hb ← getHbView lab; lift (Relations.anyM (fun s => ls ← label g s; b ← ViewBase.contains hb (position ls); Ok (negb b)) ss)
    else lift (Relations.anyM (fun s => ls ← label g s; Ok (hasAttr ls WriteAttr_Final)) ss));
  if (bad : bool) then fail (position l) VerificationError.VE_Annotation else mret None.
Fixpoint find_label (f : EventLabel.t -> bool) (g : Graph.t) (ls : list lid) : res (option lid) :=
  match ls with [] => Ok None | i :: ls => l ← label g i; if f l then Ok (Some i) else find_label f g ls end.
Definition checkIPRValidity lab : M R (option VerificationError.t) :=
  l ← ask (fun g => label g lab);
  if bool_decide (annot l = None) || negb (Config.ipr conf) then mret None else
  racy ← ask (fun g => ss ← Relations.co g (getAddr l); find_label (fun w => hasAttr w WriteAttr_WWRacy) g ss);
  match racy with
  | None => mret None
  | Some w => lw ← ask (fun g => label g w); fail (position lw) VerificationError.VE_WWRace
  end.
Definition checkForMixedSize lab : M R (option VerificationError.t) :=
  l ← ask (fun g => label g lab);
  if isNotAtomic l then mret None else
  s ← gets execState; ok ← lift (ExecutionState.isAtomicAccessConsistent s (access l));
  if (ok : bool) then mret None else fail (position l) VerificationError.VE_MixedSize.
(** [c1.or_else(c2)] *)
Definition or_else (m1 m2 : M R (option VerificationError.t)) : M R (option VerificationError.t) :=
  e ← m1; match e with Some _ => mret e | None => m2 end.

(** ** Liveness and leaks *)
(** The coherence-latest store that the prefix of which does not contain the read. *)
Definition prefix_of (st : Calc.t) lab : res (list Z) := v ← Calc.prefix st lab; Clocks.snapshot (Calc.heap st) v.
Fixpoint first_without (st : Calc.t) (g : Graph.t) (e : Event.t) (ss : list lid) : res (option lid) :=
  match ss with
  | [] => Ok None
  | s :: ss => v ← prefix_of st s; b ← ViewBase.contains v e; if (b : bool) then first_without st g e ss else Ok (Some s)
  end.
Definition coMax_but (st : Calc.t) (g : Graph.t) (r : EventLabel.t) : res lid :=
  ss ← Relations.rco g (getAddr r); o ← first_without st g (position r) ss;
  match o with Some s => Ok s | None => getInitLabel g end.
Fixpoint reads_maximal (st : Calc.t) (g : Graph.t) (tid : Z) (js : list Z) : res bool :=
  match js with
  | [] => Abort Unreachable
  | j :: js =>
      i ← getEventLabel g (Event.Event tid j); l ← label g i;
      verify (negb (Class.isKind Kind.LoopBegin (kind l)));;
      if Class.isKind Kind.SpinStart (kind l) then Ok true else
      stop ← (if Class.isRead (kind l) then m ← coMax_but st g l; Ok (negb (bool_decide (readsFrom l = Some m))) else Ok false);
      if (stop : bool) then Ok false else reads_maximal st g tid js
  end.
Definition threadReadsMaximal (st : Calc.t) (g : Graph.t) (tid : Z) : res bool :=
  b ← getLastThreadLabel g tid; b ← deref b; lb ← label g b; verify (Class.isBlock (kind lb));;
  p ← Relations.po_imm_pred g b; p ← deref p; lp ← label g p;
  let start := if Class.isKind Kind.SpinStart (kind lp) then getIndex lp - 1 else getIndex lp in
  reads_maximal st g tid (reverse (seqZ 1 start)).
Definition spin_blocked (g : Graph.t) : res (list Z) :=
  Cut.erase_if (fun i => b ← getLastThreadLabel g i; b ← deref b; l ← label g b; Ok (negb (Class.isKind Kind.SpinloopBlock (kind l)))) (seqZ 0 (getNumThreads g)).
Fixpoint all_maximal (st : Calc.t) (g : Graph.t) (tids : list Z) : res bool :=
  match tids with [] => Ok true | tid :: tids => b ← threadReadsMaximal st g tid; if (b : bool) then all_maximal st g tids else Ok false end.
Definition checkLiveness : M R (option VerificationError.t) :=
  h ← isHalting; if (h : bool) then mret None else
  g ← getGraph; st ← getViews;
  tids ← lift (spin_blocked g);
  match last tids with
  | None => mret None
  | Some nonTermTID =>
      b ← lift (all_maximal st g tids);
      if negb b then mret None else
      p ← lift (b ← getLastThreadLabel g nonTermTID; b ← deref b; l ← label g b; Ok (position l));
      fail p VerificationError.VE_Liveness
  end.

Definition unfreed (s : ExecutionState.t (list Z)) : res (option Event.t) :=
  let m := ExecutionState.allocInfoMap_ s in
  es ← IntervalMap.walk (length (IntervalMap.map_ m)) SAddr.max m (IntervalMap.begin_ m) [];
  Ok (match list_find (fun e => ExecutionState.freePos e.2 = None) es with Some (_, e) => Some (ExecutionState.pos e.2) | None => None end).
Definition checkUnfreedMemory : M R (option VerificationError.t) :=
  h ← isHalting; if (h : bool) then mret None else
  s ← gets execState; o ← lift (unfreed s);
  match o with
  | None => mret None
  | Some e => b ← reportWarningOnce e VerificationError.VE_UnfreedMemory None; mret (if (b : bool) then Some VerificationError.VE_UnfreedMemory else None)
  end.

(** ** Blocked executions *)
Fixpoint previous_visible (g : Graph.t) (finalReads : list lid) (ls : list lid) : res (option lid) :=
  match ls with
  | [] => Ok None
  | i :: ls =>
      l ← label g i;
      if Class.isRead (kind l) then
        if Class.isConfirming (kind l) then previous_visible g finalReads ls else
        w ← dyn_cast_if_present Class.isWrite g (readsFrom l);
        attrs ← match w with Some w => lw ← label g w; Ok (hasAttr lw WriteAttr_Local, hasAttr lw WriteAttr_Final) | None => Ok (false, false) end;
        if attrs.1 : bool then previous_visible g finalReads ls
        else if attrs.2 : bool then previous_visible g (finalReads ++ [i]) ls
        else
          seen ← (if bool_decide (is_Some (readsFrom l)) then
              Relations.anyM (fun f => lf ← label g f; Ok (bool_decide (getAddr lf = getAddr l) && bool_decide (getSize lf = getSize l))) finalReads
            else Ok false);
          if (seen : bool) then previous_visible g finalReads ls else Ok (Some i)
      else if Class.isWrite (kind l) && negb (hasAttr l WriteAttr_Final) && negb (hasAttr l WriteAttr_Local) then Ok (Some i)
      else previous_visible g finalReads ls
  end.
Definition getPreviousVisibleAccessLabel (start : lid) : M R (option lid) := ask (fun g => ps ← Relations.po_preds g start; previous_visible g [] ps).
Definition mootExecutionIfFullyBlocked (bLab : lid) : M R () :=
  lab ← getPreviousVisibleAccessLabel bLab;
  done ← (if Config.emitNALabels conf then mret false else
    i ← lift (deref lab); l ← ask (fun g => label g i); s ← gets execState;
    let previousNA := ExecutionState.getPreviousNA s (getThread l) in
    if negb (previousNA.1 =? 0) && (getIndex l <? previousNA.1) then
      if negb previousNA.2 then mret true else
      m ← ask (fun g => b ← label g bLab; m ← getEventLabel g (Event.Event (getThread b) (previousNA.1 - 1)); label g m);
      when (negb (revisitable m)) moot;; mret true
    else mret false);
  if (done : bool) then mret () else
  rLab ← ask (fun g => dyn_cast_if_present Class.isRead g lab);
  match rLab with
  | None => mret ()
  | Some r => l ← ask (fun g => label g r); when (negb (revisitable l) || negb (maximal l)) moot
  end.
Definition blockThreadTryMoot (bLab : EventLabel.t) : M R () :=
  blockThread bLab;;
  lab ← ask (fun g => o ← getLastThreadLabel g (getThread bLab); deref o);
  mootExecutionIfFullyBlocked lab.

(** ** Scheduling *)
Inductive ScheduleResult := Finished | Blocked | SError | Next (tid : Z).
Definition scheduler_policy : M R Config.SchedulePolicy :=
  est ← inEstimationMode; rnd ← inRandomMode; mret (if est || rnd then Config.WFR else Config.schedulePolicy conf).
Definition scheduleNext (runnable : list Action) : M R ScheduleResult :=
  h ← isHalting; if (h : bool) then mret SError else
  m ← isMoot; if (m : bool) then mret Blocked else
  p ← scheduler_policy; g ← getGraph; s ← gets scheduler;
  '(next, g, s) ← lift (Scheduler.schedule dist conf p g runnable s);
  putGraph g;; modify (set_scheduler s);;
  match next with
  | Some tid => mret (Next tid)
  | None => b ← ask Relations.isBlocked; mret (if (b : bool) then Blocked else Finished)
  end.
End driver.
End Driver.
