(* ===== verification/Accesses.v ===== *)
(** * The driver: accesses to memory

    Models the part of Verification/GenMCDriver.cpp that adds reads and writes to the
    graph: the stores that a read may return and how they are filtered, the choice of a
    reads-from edge and of a place in coherence, the revisits that a store causes, and
    the handlers of atomic and of non-atomic accesses, of allocations and of frees. *)

From S2P Require Import Prelude Values Addresses Events VSet Views IntervalMap AdaptiveView ExecutionState SymExpr Labels Graph Relations Cut Search Automata Checkable Scripts GraphUtils Calc Symmetry Clocks AccessValues Errors Revisits.
From S2P Require Import Checkers Revisiting Config Bounds Scheduler Copy Driver.
Import EventLabel Graph ConsistencyChecker Driver.
Local Open Scope Z_scope.

Module Accesses.

(** [HandleResult]: a result and a count. *)
Inductive ResultType (A : Type) := Value (x : A) | VError (e : VerificationError.t) | Reset | Invalid.
Arguments Value {A}. Arguments VError {A}. Arguments Reset {A}. Arguments Invalid {A}.
Definition HandleResult (A : Type) : Type := ResultType A * Z.
Definition ok {A} (x : A) : HandleResult A := (Value x, 1).
(** [return {*err};] *)
Definition error {A} (e : VerificationError.t) : HandleResult A := (VError e, 0).

Section accesses.
Context {R : Type} `{Env R}.
Implicit Types (lab : lid).

Fixpoint erase_if {A} (cond : A -> M R bool) (l : list A) : M R (list A) :=
  match l with
  | [] => mret []
  | x :: l => b ← cond x; r ← erase_if cond l; mret (if (b : bool) then r else x :: r)
  end.
Fixpoint anyM {A} (f : A -> M R bool) (l : list A) : M R bool :=
  match l with [] => mret false | x :: l => b ← f x; if (b : bool) then mret true else anyM f l end.
Definition label_of lab : M R EventLabel.t := ask (fun g => label g lab).
Definition isRMW_read (k : Kind.t) : bool := Class.classofKind Class.CCasRead k || Class.classofKind Class.CFaiRead k.

(** ** What a read may return *)
Definition settled_rmw (before : list Z) (g : Graph.t) (r : lid) : res bool :=
  b ← Relations.read_isRMW g r; if negb b then Ok false else
  l ← label g r; if negb (revisitable l) then Ok true else ViewBase.contains before (position l).
(** The reads from a store or, at the location of the access, from the initializer. *)
Definition readers_of (g : Graph.t) (s : lid) (a : SAddr.t) : res (list lid) :=
  l ← label g s; if Class.isWrite (kind l) then Ok (readerList l) else at_loc (initRfs l) a.
Definition atomicity_violation (before : list Z) (l : EventLabel.t) (s : lid) : M R bool :=
  ls ← label_of s;
  v ← getAccessValue s (if Class.isWrite (kind ls) then access ls else access l);
  if negb (valueMakesRMWSucceed l v) then mret false else
  ask (fun g => rs ← readers_of g s (getAddr l); Relations.anyM (settled_rmw before g) rs).
Definition getRfsApproximation lab : M R (list lid) :=
  g ← getGraph; st ← getViews; rfs ← lift (getCoherentStores g st lab); l ← label_of lab;
  if negb (isRMW_read (kind l)) then mret rfs else
  before ← getPrefixView lab; erase_if (atomicity_violation before l) rfs.

(** *** Barriers *)
Definition fai_reader (g : Graph.t) (w : lid) : res (option lid) := l ← label g w; find_label (fun r => Class.isKind Kind.BIncFaiRead (kind r)) g (readerList l).
Fixpoint findSameRoundMaximal (fuel : nat) (w : lid) : M R lid :=
  match fuel with
  | O => lift (Abort OutOfFuel)
  | S fuel =>
      b ← isLastInBarrierRound w; if (b : bool) then mret w else
      r ← ask (fun g => fai_reader g w);
      match r with
      | None => mret w
      | Some r => n ← ask (fun g => n ← Relations.po_imm_succ g r; n ← deref n; n ← dyn_cast (Class.isKind Kind.BIncFaiWrite) g n; deref n); findSameRoundMaximal fuel n
      end
  end.
Definition label_fuel : M R nat := g ← getGraph; mret (S (length (concat (events g)))).
Definition filterConflictingBarriers lab (stores : list lid) : M R (list lid) :=
  l ← label_of lab;
  if Config.disableBAM conf || negb (Class.isKind Kind.BIncFaiRead (kind l) || Class.isKind Kind.BWaitRead (kind l)) then mret stores else
  if Class.isKind Kind.BWaitRead (kind l) then
    w ← ask (fun g => w ← vec_at stores 0; lw ← label g w;
      verify (Class.isKind Kind.BIncFaiWrite (kind lw) && bool_decide (Event.next (position lw) = position l));; Ok w);
    fuel ← label_fuel; w ← findSameRoundMaximal fuel w; mret [w]
  else
    erase_if (fun s => ask (fun g => rs ← readers_of g s (getAddr l); Relations.anyM (Relations.read_isRMW g) rs)) stores.

(** *** Symmetric threads; the sizes that are compared are both that of the symmetric read *)
Definition filterSymmetricStoresSR lab (stores : list lid) : M R (list lid) := ask (fun g =>
  l ← label g lab; o ← getFirstThreadLabel g (getThread l); b ← deref o; lb ← label g b;
  let t := symmPredTid lb in
  if t =? -1 then Ok stores else
  share ← SymmetryChecker.sharePrefixSR g t lab;
  if negb share then Ok stores else
  s ← getEventLabel g (Event.Event t (getIndex l)); s ← dyn_cast Class.isRead g s;
  match s with
  | None => Ok stores
  | Some s =>
      ls ← label g s;
      if negb (bool_decide (getAddr ls = getAddr l)) || negb (getSize ls =? getSize ls) then Ok stores else
      rmw ← Relations.read_isRMW g s; if negb rmw then Ok stores else
      w ← deref (readsFrom ls); lw ← label g w; st ← Cut.getStamp lw;
      Cut.erase_if (fun x => lx ← label g x; Ok (bool_decide (position lw = position lx))) stores
  end).
(** *** Values that make the thread block *)
Definition filterValuesFromAnnotSAVER lab (stores : list lid) : M R (list lid) :=
  l ← label_of lab;
  if bool_decide (annot l = None) then mret stores else
  lift (verify (negb (bool_decide (stores = []))));;
  maximal ← lift (deref (last stores));
  stores ← erase_if (fun w =>
      val ← getAccessValue w (access l);
      if bool_decide (w = maximal) then mret false else
      m ← ask (fun g => co_max g (getAddr l)); if bool_decide (w = m) then mret false else
      b ← lift (valueMakesAssumeSucceed l val); mret (negb b)) stores;
  lift (verify (negb (bool_decide (stores = []))));; mret stores.
Definition filterOptimizeRfs lab (stores : list lid) : M R (list lid) :=
  stores ← (if Config.symmetryReduction conf then filterSymmetricStoresSR lab stores else mret stores);
  stores ← (if negb (Config.disableBAM conf) then filterConflictingBarriers lab stores else mret stores);
  filterValuesFromAnnotSAVER lab stores.
(** Estimation: stores that another read-modify-write reads; the predicate looks at
    the value of each of the readers. *)
Definition succeeds_too (l : EventLabel.t) (r : lid) : M R bool :=
  rmw ← ask (fun g => Relations.read_isRMW g r); if negb rmw then mret false else
  lr ← label_of r; v ← getAccessValue r (access lr);
  mret (negb (Class.classofKind Class.CCasRead (kind l)) || SVal.eqb v (expected l)).
Definition filterAtomicityViolations lab (stores : list lid) : M R (list lid) :=
  l ← label_of lab;
  if negb (isRMW_read (kind l)) then mret stores else
  erase_if (fun s =>
    ls ← label_of s;
    rs ← ask (fun g => if Class.isKind Kind.Init (kind ls) then Ok (readers_at ls (getAddr l)) else Relations.rf_succs g s);
    anyM (succeeds_too l) rs) stores.

(** ** Choosing a source *)
Definition setRf_to lab (s : lid) : M R () := onGraph (setRf lab (Some s)).
(** The vector is reversed and popped from its end, so that the stores are tried in
    their order; what is left of the vector is in the reverse order. *)
Fixpoint findConsistentRf lab (rfs : list lid) : M R (option lid * list lid) :=
  match rfs with
  | [] => lift (Abort Undefined)
  | [back] =>
      setRf_to lab back;; updateLabelViews lab;;
      b ← (if bool_decide (Config.bound conf = None) then mret true else isExecutionValid lab);
      if (b : bool) then mret (Some back, []) else
      l ← label_of lab;
      lift (verify (bool_decide (is_Some (Config.bound conf)) && (bool_decide (Config.boundType conf = Config.context) || isRMW_read (kind l))));;
      mret (None, [])
  | back :: rfs =>
      setRf_to lab back;;
      b ← isExecutionValid lab;
      if (b : bool) then updateLabelViews lab;; mret (Some back, reverse rfs) else findConsistentRf lab rfs
  end.
Definition random_of {A} (l : list A) : M R A :=
  let n := Z.of_nat (length l) - 1 in
  r ← gets estRng; let '(k, r) := dist n r in modify (set_estRng r);; lift (vec_at l k).
Definition pickRandomRf lab (stores : list lid) : M R lid :=
  stores ← erase_if (fun s => setRf_to lab s;; b ← isExecutionValid lab; mret (negb b)) stores;
  lift (verify (negb (bool_decide (stores = []))));;
  s ← random_of stores; setRf_to lab s;; updateLabelViews lab;; mret s.

(** ** Threads that wait *)
Definition last_of (g : Graph.t) (i : Z) (k : Kind.t) : res (option lid) :=
  b ← getLastThreadLabel g i; dyn_cast_if_present (Class.isKind k) g b.
Definition forThreads (f : Z -> M R ()) : M R () := g ← getGraph; iterM f (seqZ 0 (getNumThreads g)).
Definition unblockThread (pos : Event.t) : M R () := onGraph (GraphUtils.unblockThread pos).
Definition reconsider_fai lab (i : Z) : M R () :=
  e ← ask (fun g => last_of g i Kind.FaiZNEBlock);
  match e with
  | None => mret ()
  | Some e =>
      f ← ask (fun g => ps ← Relations.po_preds g e; o ← find_label (fun l => Class.classofKind Class.CFaiWrite (kind l)) g ps; verify (bool_decide (is_Some o));; deref o);
      lf ← label_of f; l ← label_of lab;
      if negb (bool_decide (getAddr lf = getAddr l)) then mret () else
      if Class.classofKind Class.CFaiRead (kind l) || Class.classofKind Class.CFaiWrite (kind l) then mret () else
      hb ← getHbView f; b ← lift (ViewBase.contains hb (position l));
      if (b : bool) then mret () else
      le ← label_of e; unblockThread (position le);; _ ← addLabelToGraph (mkDummy Kind.FaiZNESpinEnd (position le)); mret ()
  end.
Definition checkReconsiderFaiSpinloop lab : M R () := forThreads (reconsider_fai lab).
Definition unblockWaitingHelping lab : M R () :=
  l ← label_of lab;
  when (Class.isKind Kind.HelpedCasWrite (kind l)) (forThreads (fun i =>
    b ← ask (fun g => last_of g i Kind.HelpedCASBlock);
    match b with None => mret () | Some b => lb ← label_of b; onGraph (fun g => r ← removeLast (getThread lb) g; Ok r.1) end)).
Definition checkReconsiderReadOpts lab : M R () :=
  l ← label_of lab;
  forThreads (fun i =>
    b ← ask (fun g => last_of g i Kind.ReadOptBlock);
    match b with
    | None => mret ()
    | Some b => lb ← label_of b; when (bool_decide (getAddr lb = getAddr l)) (unblockThread (position lb))
    end).
(** Whether the read was removed. *)
Definition removeCASReadIfBlocks lab (s : lid) : M R bool :=
  l ← label_of lab;
  if bool_decide (annot l = None) || negb (Class.classofKind Class.CCasRead (kind l))
     || (negb (Config.ipr conf) && negb (Class.classofKind Class.CLockCasRead (kind l))) then mret false else
  if bool_decide (is_Some (Config.bound conf)) then mret false else
  val ← getAccessValue s (access l); b ← lift (valueMakesAssumeSucceed l val);
  if (b : bool) then mret false else
  blockThread (mkReadOptBlock (position l) (getAddr l));; mret true.

(** ** Loads *)
Definition getReadRetValue lab : M R (HandleResult SVal.t) :=
  l ← label_of lab; replay ← inErrorReplay;
  if bool_decide (readsFrom l = None) then lift (verify replay);; mret (Invalid, 1) else
  v ← getAccessValue lab (access l);
  let blocked (b : EventLabel.t) := blockThread b;; mret (if replay : bool then (Invalid, 1) else (Reset, 0)) in
  succeeds ← lift (if bool_decide (is_Some (annot l)) && Config.ipr conf then valueMakesAssumeSucceed l v else Ok true);
  if negb succeeds then a ← lift (deref (annot l)); blocked (createAssumeBlock (Event.next (position l)) (annot_type a)) else
  unblocks ← (if Class.isKind Kind.BWaitRead (kind l) then readsBarrierUnblockingValue lab else mret true);
  if negb unblocks then blocked (createAssumeBlock (Event.next (position l)) ABarrier) else mret (ok v).
Definition maximal_at (a : SAddr.t) : M R lid := ask (fun g => co_max g a).
Definition push_reads lab (stores : list lid) : M R () :=
  iterM (fun s => l ← label_of lab; ls ← label_of s; m ← maximal_at (getAddr l);
    addWork (Revisit.ReadForward (position l) (position ls) (bool_decide (s = m)))) stores.
Definition chooseRf lab (stores : list lid) : M R (option lid) :=
  est ← inEstimationMode; rnd ← inRandomMode;
  if est || rnd then
    when est (g ← getGraph; onChoices (ChoiceMap.update g lab stores));;
    stores ← filterAtomicityViolations lab stores; s ← pickRandomRf lab stores; mret (Some s)
  else '(rf, stores) ← findConsistentRf lab stores; push_reads lab stores;; mret rf.
Definition handleLoad (rLab : EventLabel.t) (oldVal : option SVal.t) : M R (HandleResult SVal.t) :=
  lab ← addLabelToGraph rLab; l ← label_of lab;
  err ← or_else (checkAccessValidity (position l) (access l)) (or_else (checkInitializedMem_read lab)
          (or_else (checkForMixedSize lab) (or_else (checkIPRValidity lab) (checkForRaces lab))));
  match err with
  | Some e => mret (error e)
  | None =>
      lift (verify (negb (isNotAtomic l)));;
      match oldVal with Some v => updateDeferredValue (access l) v | None => mret () end;;
      hb ← getHbView lab; onState (fun s => ExecutionState.onATLoad s (position l) (access l) hb);;
      checkReconsiderFaiSpinloop lab;;
      again ← gets (fun d => Scheduler.isRescheduledRead (position l) (scheduler d));
      removed ← (if again : bool then mret false else m ← maximal_at (getAddr l); removeCASReadIfBlocks lab m);
      if (removed : bool) then mret (Reset, 0) else
      when again (onScheduler (Scheduler.setRescheduledRead Event.getInit));;
      stores ← getRfsApproximation lab;
      lift (verify (negb (bool_decide (stores = []))));;
      stores ← filterOptimizeRfs lab stores;
      rf ← chooseRf lab stores;
      match rf with None => moot;; mret (Invalid, 1) | Some _ => getReadRetValue lab end
  end.

(** ** Revisiting in place *)
Definition revisitInPlace (pos rev : Event.t) : M R () :=
  lift (verify (bool_decide (Config.bound conf = None)));;
  r ← ask (fun g => r ← getReadLabel g pos; verify (bool_decide (is_Some r));; deref r);
  s ← ask (fun g => s ← getWriteLabel g rev; deref s);
  n ← ask (fun g => Relations.po_imm_succ g r);
  when (bool_decide (is_Some n)) (onGraph (fun g => x ← removeLast (Event.thread pos) g; Ok x.1));;
  setRf_to r s;; updateLabelViews r;; onGraph (fun g => Ok (upd r (setAddedMax true) g));;
  l ← label_of r; v ← getReturnValue r; lift (verify (negb (valueMakesRMWSucceed l v))).
Definition constructBackwardRevisit rLab (sLab : lid) : M R (Event.t * Event.t) :=
  g ← getGraph; st ← getViews; br ← lift (Revisiting.constructBackwardRevisit (V := list Z) dbg g st rLab sLab);
  rev ← lift (deref (Revisit.getRev br)); mret (Revisit.getPos br, rev).
Definition revisit_in_place (sLab : lid) rLab : M R () := '(p, rev) ← constructBackwardRevisit rLab sLab; revisitInPlace p rev.

(** *** Barriers *)
Fixpoint first_complete (g : Graph.t) (sLab : lid) (ss : list lid) : M R (option lid) :=
  match ss with
  | [] => mret None
  | s :: ss =>
      l ← lift (label g s);
      b ← (if bool_decide (s = sLab) then mret false else
        c ← (if Class.isKind Kind.BIncFaiWrite (kind l) then isLastInBarrierRound s else mret false);
        mret (c || bool_decide (ordering l = MemOrdering.Relaxed)));
      if (b : bool) then mret (Some s) else first_complete g sLab ss
  end.
Definition checkBarrierWellFormedness (sLab : lid) : M R bool :=
  if Config.disableBAM conf then mret true else
  g ← getGraph; l ← label_of sLab;
  ss ← lift (Relations.rco g (getAddr l)); o ← first_complete g sLab ss; s ← lift (deref o); ls ← label_of s;
  p ← lift (p ← Relations.po_imm_pred g sLab; deref p);
  hb ← getHbView p; good ← lift (ViewBase.contains hb (position ls));
  when (negb good) (reportError (position l) (Temporary (details (Some (position l)) VerificationError.VE_BarrierWellFormedness None true)));;
  mret good.
(** The waiting loads of the round that [w] belongs to, the latest one first. *)
Fixpoint waiting_loads (fuel : nat) (w : lid) : M R (list lid) :=
  match fuel with
  | O => lift (Abort OutOfFuel)
  | S fuel =>
      l ← label_of w;
      if negb (Class.isKind Kind.BIncFaiWrite (kind l)) then mret [] else
      b ← isLastInBarrierRound w; if (b : bool) then mret [] else
      n ← ask (fun g => n ← Relations.po_imm_succ g w;
        match n with None => Ok None | Some n => ln ← label g n; verify (Class.isKind Kind.BWaitRead (kind ln));; Ok (Some n) end);
      w' ← ask (fun g => p ← Relations.po_imm_pred g w; p ← deref p; r ← dyn_cast Class.isRead g p; r ← deref r; lr ← label g r; deref (readsFrom lr));
      ls ← waiting_loads fuel w'; mret (option_list n ++ ls)
  end.
Definition tryOptimizeBarrierRevisits (sLab : lid) : M R bool :=
  if Config.disableBAM conf then mret false else
  wf ← checkBarrierWellFormedness sLab; if negb wf then mret true else
  b ← isLastInBarrierRound sLab; if negb b then mret true else
  w ← ask (fun g => p ← Relations.po_imm_pred g sLab; p ← deref p; r ← dyn_cast Class.isRead g p; r ← deref r; lr ← label g r;
    verify (bool_decide (is_Some (readsFrom lr)));; deref (readsFrom lr));
  fuel ← label_fuel; toRevisit ← waiting_loads fuel w;
  iterM (fun r => lr ← label_of r; lift (verify (Class.isKind Kind.BWaitRead (kind lr)));; revisit_in_place sLab r) toRevisit;;
  mret true.

(** *** Blocked reads *)
Definition is_blocked_read rLab : M R bool :=
  l ← label_of rLab;
  if Class.classofKind Class.CCasRead (kind l) || bool_decide (annot l = None) then mret false else
  v ← getAccessValue rLab (access l); b ← lift (valueMakesAssumeSucceed l v); mret (negb b).
Fixpoint split_blocked (loads : list lid) : M R (list lid * list lid) :=
  match loads with
  | [] => mret ([], [])
  | r :: loads => b ← is_blocked_read r; '(ls, rs) ← split_blocked loads; mret (if (b : bool) then (ls, r :: rs) else (r :: ls, rs))
  end.
Definition tryOptimizeIPRs (sLab : lid) (loads : list lid) : M R (list lid) :=
  if negb (Config.ipr conf) then mret loads else
  '(loads, toIPR) ← split_blocked loads;
  iterM (revisit_in_place sLab) toIPR;;
  confLab ← ask (fun g => GraphUtils.findPendingRMW g sLab);
  match confLab with
  | None => mret loads
  | Some _ =>
      erase_if (fun r =>
        l ← label_of r;
        if bool_decide (annot l = None) then mret false else
        w ← lift (deref (readsFrom l)); lw ← label_of w; sw ← lift (Cut.getStamp lw); sr ← lift (Cut.getStamp l);
        if negb (sr <? sw) then mret false else
        v ← getPrefixView sLab; b ← lift (ViewBase.contains v (position lw)); mret (negb b)) loads
  end.
(** The warning about values that occur twice is text. *)
Definition optimizeUnconfirmedRevisits (loads : list lid) : M R (list lid) :=
  if negb (Config.confirmation conf) then mret loads else
  erase_if (fun r => ask (fun g =>
    l ← label g r;
    if negb (Class.isConfirming (kind l)) then Ok false else
    '(pLab, scLab) ← GraphUtils.findMatchingSpeculativeRead g r None;
    if bool_decide (pLab = None) then Abort UserError else Ok (bool_decide (scLab = None)))) loads.
Definition tryOptimizeRevisits (sLab : lid) (loads : list lid) : M R (bool * list lid) :=
  l ← label_of sLab;
  skip ← (if negb (Config.disableBAM conf) && Class.isKind Kind.BIncFaiWrite (kind l) then tryOptimizeBarrierRevisits sLab else mret false);
  if (skip : bool) then mret (true, loads) else
  loads ← tryOptimizeIPRs sLab loads;
  loads ← (if Config.confirmation conf then optimizeUnconfirmedRevisits loads else mret loads);
  mret (false, loads).

(** ** The revisits of a store *)
Definition calcRevisits (sLab : lid) : M R () :=
  g ← getGraph; st ← getViews;
  loads ← lift (Revisiting.getRevisitableApproximation (V := list Z) dbg g st sLab);
  '(skip, loads) ← tryOptimizeRevisits sLab loads;
  if skip : bool then mret () else
  est ← inEstimationMode; rnd ← inRandomMode;
  if est || rnd then when est (g ← getGraph; onChoices (ChoiceMap.update_loads g loads sLab)) else
  g ← getGraph; st ← getViews;
  brs ← lift (Revisiting.push_revisits (V := list Z) dbg g st sLab loads);
  iterM addWork brs.

(** ** Placing a store in coherence *)
Definition addCo_to lab (p : lid) : M R () := onGraph (addCo lab p).
Definition moveCo_to lab (p : lid) : M R () := onGraph (moveCo lab p).
(** The loop over the places, the last one first. *)
Fixpoint try_places lab (rcos : list lid) : M R (option lid * list lid) :=
  match rcos with
  | [] => mret (None, [])
  | back :: rcos =>
      moveCo_to lab back;; b ← isExecutionValid lab;
      if (b : bool) then mret (Some back, reverse rcos) else try_places lab rcos
  end.
Definition findConsistentCo lab (cos : list lid) : M R (option lid * list lid) :=
  back ← lift (deref (last cos)); addCo_to lab back;;
  if bool_decide (Config.bound conf = None) then mret (Some back, removelast cos) else try_places lab (reverse cos).
(** The last place always stays. *)
Definition pickRandomCo lab (cos : list lid) : M R (option lid * list lid) :=
  back ← lift (deref (last cos)); addCo_to lab back;;
  kept ← erase_if (fun w => moveCo_to lab w;; b ← isExecutionValid lab; mret (negb b)) (removelast cos);
  let cos := kept ++ [back] in
  if bool_decide (cos = []) then
    l ← label_of lab; lift (verify (Class.isRMWWrite (kind l)));; addWork Revisit.RerunForward;; mret (None, cos)
  else p ← random_of cos; moveCo_to lab p;; mret (Some p, cos).
Definition calcCoOrderings lab (cos : list lid) : M R () :=
  iterM (fun p => l ← label_of lab; lp ← label_of p; addWork (Revisit.WriteForward (position l) (position lp))) cos.
Definition chooseCo lab (cos : list lid) : M R (option lid) :=
  est ← inEstimationMode; rnd ← inRandomMode;
  if est || rnd then
    '(co, cos) ← pickRandomCo lab cos; when est (g ← getGraph; onChoices (ChoiceMap.update g lab cos));; mret co
  else '(co, cos) ← findConsistentCo lab cos; calcCoOrderings lab cos;; mret co.

(** ** Stores *)
Definition handleStore (wLab : EventLabel.t) (oldVal : option SVal.t) : M R (HandleResult bool) :=
  lab ← addLabelToGraph wLab; l ← label_of lab;
  err ← or_else (checkAccessValidity (position l) (access l)) (or_else (checkInitializedMem_write lab) (checkForMixedSize lab));
  match err with
  | Some e => mret (error e)
  | None =>
      match oldVal with Some v => updateDeferredValue (access l) v | None => mret () end;;
      checkReconsiderFaiSpinloop lab;; unblockWaitingHelping lab;; checkReconsiderReadOpts lab;;
      g ← getGraph; st ← getViews; cos ← lift (getCoherentPlacings g st lab);
      _ ← (if (1 <? length cos)%nat then reportWarningOnce (position l) VerificationError.VE_WWRace (head cos) else mret false);
      co ← chooseCo lab cos;
      replay ← inErrorReplay;
      if (replay : bool) then l ← label_of lab; mret (ok (maximal l)) else
      calcRevisits lab;;
      bad ← (if bool_decide (co = None) then mret true else ask (fun g => GraphUtils.violatesAtomicity g lab));
      if (bad : bool) then moot;; mret (Invalid, 1) else
      err ← or_else (checkFinalAnnotations lab) (checkForRaces lab);
      match err with
      | Some e => mret (error e)
      | None =>
          lift (verify (negb (isNotAtomic l)));;
          hb ← getHbView lab; eff ← isEffectful lab;
          onState (fun s => ExecutionState.onATStore s (position l) (access l) hb eff (isAtLeastRelease l));;
          l ← label_of lab; mret (ok (maximal l))
      end
  end.
End accesses.
End Accesses.
