(* ===== verification/Exploration.v ===== *)
(** * The driver: instructions and exploration

    Models the rest of Verification/GenMCDriver.cpp: the handlers that the interpreter
    calls for each instruction, which return what the graph has recorded when the
    execution is driven by it, and the exploration itself: how an item of the work list
    changes the graph, what happens at the end of an execution, and when to stop. *)

From S2P Require Import Prelude Values Addresses Events VSet Views IntervalMap AdaptiveView ExecutionState SymExpr Labels Graph Relations Cut Search Automata Checkable Scripts GraphUtils Calc Symmetry Clocks AccessValues Errors Revisits.
From S2P Require Import Checkers Revisiting Config Bounds Scheduler Copy Driver Accesses.
Import EventLabel Graph ConsistencyChecker Driver Accesses.
Local Open Scope Z_scope.

Module Exploration.

(** [EventLabel::setPos] *)
Definition setPos (x : Event.t) (l : EventLabel.t) : EventLabel.t :=
  Label (kind l) x (ordering l) (deps l) (stamp l) (parent l) (revisitable l) (createId l)
    (createLab l) (threadInfo l) (symmPredTid l) (symmSuccTid l) (initRfs l) (parentJoin l)
    (retVal l) (childId l) (access l) (maximal l) (readsFrom l) (binOp l) (opValue l)
    (expected l) (swapValue l) (value l) (wattr l) (readerList l) (linPreds l) (linSuccs l)
    (hpAddr l) (protAddr l) (alignment l) (sdur l) (stype l) (spc l)
    (annot l) (expandable l) (expanded l) (text l) (methodVal l).
(** The five labels, and their places. *)
Inductive Probe := PRead | PWrite | PMalloc | PFree | PRetire.
Definition probe (p : Probe) (x : Probes) : option EventLabel.t :=
  match p with PRead => readProbeLab x | PWrite => writeProbeLab x | PMalloc => mallocProbeLab x | PFree => freeProbeLab x | PRetire => retireProbeLab x end.
Definition set_probe (p : Probe) (o : option EventLabel.t) (x : Probes) : Probes :=
  MkProbes (match p with PRead => o | _ => readProbeLab x end) (match p with PWrite => o | _ => writeProbeLab x end)
    (match p with PMalloc => o | _ => mallocProbeLab x end) (match p with PFree => o | _ => freeProbeLab x end)
    (match p with PRetire => o | _ => retireProbeLab x end).

Section handlers.
Context {R : Type} `{Env R}.
Implicit Types (lab : lid) (pos : Event.t).

Definition emitNA : bool := Config.emitNALabels conf.
Definition result_count : Z := if emitNA then 1 else 0.

(** ** Labels that need not stay in the graph *)
(** The label object of a probe with a new position and access, and the views of the
    last label of the thread. *)
Definition configureProbe (l : EventLabel.t) (pos : Event.t) (addr size : Z) : M R lid :=
  i ← fresh;
  p ← ask (fun g => o ← getLastThreadLabel g (Event.thread pos); p ← deref o; lp ← label g p; verify (getIndex lp =? Event.index pos - 1);; Ok p);
  st ← getViews;
  h ← lift (foldM (fun (s : View.store * list View.vid) v =>
      let c := Calc.fresh_view s.1 in h ← View.copy s.1 c v; h ← View.updateIdx dbg h c pos; Ok (h, s.2 ++ [c]))
    (Calc.heap st, []) (default [] (Calc.calculatedViews st !! p)));
  v ← lift (Calc.prefix st p);
  c ← lift (let c := Calc.fresh_view h.1 in h' ← View.copy h.1 c v; Ok (h', c));
  putViews (Calc.State c.1 (<[i := h.2]> (Calc.calculatedViews st)) (<[i := c.2]> (Calc.prefixView st)));;
  onGraph (fun g => Ok (alloc i (with_access (AAccess.AAccess addr size) (setPos pos (reset l))) g));;
  mret i.
(** [if (!probe_) probe_ = make_unique(...); configureProbe(...); auto guard = g.addScoped(probe_);] *)
Definition addScoped (p : Probe) (init : EventLabel.t) (adjust : EventLabel.t -> EventLabel.t) (pos : Event.t) (addr size : Z) : M R lid :=
  o ← gets (fun d => probe p (probes d));
  lab ← configureProbe (default init o) pos addr size;
  onGraph (fun g => Graph.addLabelToGraph lab (upd lab adjust g));;
  modify (fun d => set_probes (set_probe p None (probes d)) d);;
  mret lab.
(** The end of the scope, without a [commit]: the label leaves the graph. *)
Definition endScope (p : Probe) lab : M R () :=
  l ← label_of lab;
  g ← getGraph; r ← lift (removeLast (getThread l) g); l ← lift (label r.1 lab);
  putGraph (set_store (delete lab) r.1);;
  st ← getViews;
  putViews (Calc.State (foldl View.destroy (Calc.heap st) (default [] (Calc.calculatedViews st !! lab) ++ option_list (Calc.prefixView st !! lab)))
    (delete lab (Calc.calculatedViews st)) (delete lab (Calc.prefixView st)));;
  modify (fun d => set_probes (set_probe p (Some l) (probes d)) d).
Definition endScope_unless (committed : bool) (p : Probe) lab : M R () := if committed then mret () else endScope p lab.

(** ** Non-atomic accesses; the value of a store is there when labels are emitted *)
Definition handleNALoad' (pos : Event.t) (loc size : Z) : M R (HandleResult (option SVal.t)) :=
  lab ← addScoped PRead (mkRead Kind.Read pos MemOrdering.NotAtomic loc size None None noDeps) id pos loc size;
  updateLabelViews lab;; l ← label_of lab;
  err ← or_else (checkAccessValidity (position l) (access l)) (or_else (checkInitializedMem_read lab) (checkForRaces lab));
  match err with
  | Some e => mret (error e)
  | None =>
      hb ← getHbView lab; onState (fun s => ExecutionState.onNALoad s pos (AAccess.AAccess loc size) hb);;
      if emitNA then
        m ← maximal_at (getAddr l); setRf_to lab m;;
        r ← getReadRetValue lab; mret (match r.1 with Value v => Value (Some v) | VError e => VError e | Reset => Reset | Invalid => Invalid end, r.2)
      else endScope PRead lab;; mret (Value None, 0)
  end.
Definition handleNAStore' (pos : Event.t) (loc size : Z) (val : option SVal.t) : M R (HandleResult ()) :=
  lab ← addScoped PWrite (mkWrite Kind.Write pos MemOrdering.NotAtomic loc size (SVal.ofValue 0) WriteAttr_None noDeps)
    (fun l => match val with Some v => setVal v l | None => l end) pos loc size;
  updateLabelViews lab;; l ← label_of lab;
  err ← or_else (checkAccessValidity (position l) (access l)) (checkForRaces lab);
  match err with
  | Some e => mret (error e)
  | None =>
      hb ← getHbView lab; onState (fun s => ExecutionState.onNAStore s pos (AAccess.AAccess loc size) hb val);;
      if emitNA then m ← maximal_at (getAddr l); addCo_to lab m;; mret (ok ())
      else endScope PWrite lab;; mret (Value (), 0)
  end.

(** ** Allocations and frees *)
Definition handleMalloc' (pos : Event.t) (size alignment : Z) (sdur : StorageDuration) (styp : StorageType) (spc : AddressSpace) (name : string) (dps : EventDeps)
    : M R (HandleResult SVal.t) :=
  s ← gets execState; '(addr, s) ← lift (ExecutionState.onAlloc s pos size alignment sdur styp spc); modify (set_execState s);;
  lab ← addScoped PMalloc (mkMalloc pos 0 (ASize.get size) alignment sdur styp spc name dps) id pos addr size;
  if addr =? 0 then reportError pos (Temporary (details (Some pos) VerificationError.VE_Allocation None true));; mret (VError VerificationError.VE_Allocation, 1)
  else endScope_unless emitNA PMalloc lab;; mret (Value (SVal.ofValue addr), result_count).
Definition handleRelease (retire : bool) (pos : Event.t) (loc : Z) (dps : EventDeps) : M R (HandleResult ()) :=
  s ← gets execState; a ← lift (ExecutionState.getAllocAccess s loc);
  let p := if retire then PRetire else PFree in
  lab ← addScoped p (mkMemLifecycle (if retire then Kind.HpRetire else Kind.Free) pos loc (if retire then 0 else AAccess.size a) dps) id pos loc (AAccess.size a);
  err ← checkForRaces lab;
  match err with
  | Some e => mret (error e)
  | None => onState (fun s => ExecutionState.onFree s pos loc retire);; endScope_unless emitNA p lab;; mret (Value (), result_count)
  end.
Definition allocateGlobal (size alignment initData : Z) (persistent internal : bool) : M R SAddr.t :=
  s ← gets execState; '(addr, s) ← lift (ExecutionState.addStaticRange s size alignment persistent internal); modify (set_execState s);;
  when emitNA (onState (fun s => ExecutionState.addStaticInitData s addr size initData));; mret addr.

(** ** Threads *)
Definition handleThreadKill' (kLab : EventLabel.t) : M R (HandleResult ()) := _ ← addLabelToGraph kLab; mret (ok ()).
Definition isSymmetricToSR (s : ExecutionState.t (list Z)) (g : Graph.t) (candidate : Z) (parent : Event.t) (info : ThreadInfo) : res bool :=
  o ← getFirstThreadLabel g candidate; b ← deref o; lb ← label g b;
  let cInfo := threadInfo lb in
  if (ti_id cInfo =? ti_id info) || negb (ti_parentId cInfo =? ti_parentId info) || negb (ti_funId cInfo =? ti_funId info) || SVal.neqb (ti_arg cInfo) (ti_arg info)
  then Ok false else
  lastMemAccess ← ExecutionState.getLastMemAccess s (Event.thread parent);
  let lo := Z.min (Event.index parent) (Event.index (createId lb)) in
  let hi := Z.max (Event.index parent) (Event.index (createId lb)) in
  Ok (negb ((lo <? lastMemAccess) && (lastMemAccess <=? hi))).
Fixpoint first_symmetric (s : ExecutionState.t (list Z)) (g : Graph.t) (parent : Event.t) (info : ThreadInfo) (is_ : list Z) : res Z :=
  match is_ with [] => Ok (-1) | i :: is_ => b ← isSymmetricToSR s g i parent info; if (b : bool) then Ok i else first_symmetric s g parent info is_ end.
Definition getSymmetricTidSR (tcPos : Event.t) (info : ThreadInfo) : M R Z :=
  if negb (Config.symmetryReduction conf) then mret (-1) else
  if negb (ti_symmId info =? -1) then mret (ti_symmId info) else
  s ← gets execState; ask (fun g => first_symmetric s g tcPos info (reverse (seqZ 1 (ti_id info - 1)))).
(** The thread that a label of the graph at the position has created, or the next one. *)
Fixpoint created_by (g : Graph.t) (p : Event.t) (cids : list Z) : res Z :=
  match cids with
  | [] => Ok (getNumThreads g)
  | cid :: cids =>
      e ← isThreadEmpty g cid;
      found ← (if (e : bool) then Ok false else
        o ← getFirstThreadLabel g cid; b ← dyn_cast_if_present Class.isThreadStart g o;
        match b with None => Ok false | Some b => l ← label g b; Ok (bool_decide (createId l = p)) end);
      if (found : bool) then Ok cid else created_by g p cids
  end.
Definition handleThreadCreate' (tcLab : EventLabel.t) : M R (HandleResult Z) :=
  cid ← ask (fun g => created_by g (position tcLab) (seqZ 0 (getNumThreads g)));
  lab ← addLabelToGraph (with_childId cid tcLab);
  n ← ask (fun g => Ok (getNumThreads g)); lift (verify (cid =? n));;
  onGraph (fun g => Ok (addNewThread g));;
  l ← label_of lab; symm ← getSymmetricTidSR (position l) (threadInfo l);
  _ ← addLabelToGraph (mkThreadStart (Event.Event cid 0) (position l) (Some lab) (threadInfo l) symm);
  when (negb (symm =? -1)) (onGraph (fun g => o ← getFirstThreadLabel g symm; b ← deref o; Ok (upd b (setSymmSuccTid cid) g)));;
  mret (ok cid).
Definition handleThreadJoin' (jLab : EventLabel.t) : M R (HandleResult SVal.t) :=
  fin ← ask (fun g => o ← getLastThreadLabel g (childId jLab); dyn_cast_if_present (Class.isKind Kind.ThreadFinish) g o);
  match fin with
  | None => blockThread (mkJoinBlock (position jLab) (childId jLab));; mret (Reset, 0)
  | Some _ =>
      lab ← addLabelToGraph jLab; l ← label_of lab;
      e ← ask (fun g => o ← getLastThreadLabel g (childId l); e ← deref o; o ← dyn_cast (Class.isKind Kind.ThreadFinish) g e; verify (bool_decide (is_Some o));; deref o);
      onGraph (fun g => Ok (upd e (setParentJoin (Some lab)) g));;
      n ← ask (fun g => Ok (getNumThreads g));
      if (childId l <? 0) || (n <=? childId l) || (childId l =? getThread l) then
        reportError (position l) (Temporary (details (Some (position l)) VerificationError.VE_InvalidJoin None true));; mret (error VerificationError.VE_InvalidJoin)
      else
        b ← partialExecutionExceedsBound;
        if (b : bool) then moot;; mret (Invalid, 1) else v ← getReturnValue lab; mret (ok v)
  end.
Definition handleThreadFinish' (eLab : EventLabel.t) : M R (HandleResult ()) :=
  lab ← addLabelToGraph eLab; l ← label_of lab;
  forThreads (fun i =>
    p ← ask (fun g => last_of g i Kind.JoinBlock);
    match p with None => mret () | Some p => lp ← label_of p; when (childId lp =? getThread l) (unblockThread (position lp)) end);;
  b ← partialExecutionExceedsBound; when b moot;; mret (ok ()).

(** ** Other labels *)
Definition handleFence' (fLab : EventLabel.t) : M R (HandleResult ()) :=
  lab ← addLabelToGraph fLab; l ← label_of lab;
  onState (fun s => Ok (ExecutionState.onFence s (position l) (isAtLeastRelease l)));; mret (ok ()).
Definition handleBlock (l : EventLabel.t) : M R (HandleResult ()) :=
  _ ← addLabelToGraph l; blockThreadTryMoot l;; mret (ok ()).
Definition handleDummy (l : EventLabel.t) : M R (HandleResult ()) := _ ← addLabelToGraph l; mret (ok ()).
Definition helps (l : EventLabel.t) (g : Graph.t) (r : lid) : res bool :=
  lr ← label g r;
  if negb (Class.isKind Kind.HelpedCasRead (kind lr)) then Ok false else
  b ← Relations.read_isRMW g r;
  Ok (b && bool_decide (getAddr lr = getAddr l) && bool_decide (getSize lr = getSize l) && bool_decide (ordering lr = ordering l)
      && SVal.eqb (expected lr) (expected l) && SVal.eqb (swapValue lr) (swapValue l)).
Fixpoint last_write (g : Graph.t) (i : Z) (fuel : nat) (j : Z) : res Z :=
  match fuel with
  | O => Abort OutOfFuel
  | S fuel => x ← getEventLabel g (Event.Event i j); l ← label g x; if negb (Class.isWrite (kind l)) && (0 <? j) then last_write g i fuel (j - 1) else Ok j
  end.
Fixpoint writes_contained (g : Graph.t) (hb view : list Z) (ts : list Z) : res bool :=
  match ts with
  | [] => Ok true
  | i :: ts =>
      m ← ViewBase.getMax hb i; j ← last_write g i (S (Z.to_nat m)) m;
      out ← (if 0 <? j then b ← ViewBase.contains view (Event.Event i j); Ok (negb b) else Ok false);
      if (out : bool) then Ok false else writes_contained g hb view ts
  end.
Definition writesBeforeHelpedContainedInView lab (view : list Z) : M R bool :=
  hb ← getHbView lab; ask (fun g => writes_contained g hb view (seqZ 0 (ViewBase.size hb))).
(** The view that is compared is that of the helped label itself. *)
Definition checkHelpingCasCondition lab : M R bool :=
  l ← label_of lab; hs ← ask (fun g => Relations.filterM (helps l g) (Relations.labels g));
  bad ← anyM (fun h => view ← getHbView h; b ← writesBeforeHelpedContainedInView h view; mret (negb b)) hs;
  if (bad : bool) then lift (Abort UserError) else mret (negb (bool_decide (hs = []))).
Definition handleHelpingCas' (hLab : EventLabel.t) : M R (HandleResult ()) :=
  lift (verify (Config.helper conf));;
  lab ← addLabelToGraph hLab; b ← checkHelpingCasCondition lab;
  if negb b then l ← label_of lab; blockThread (mkBlock Kind.HelpedCASBlock (position l));; mret (Reset, 0) else mret (ok ()).
Definition handleOptional' (oLab : EventLabel.t) : M R (HandleResult bool) :=
  spent ← ask (fun g => Relations.anyM (fun i => l ← label g i; Ok (Class.isKind Kind.Optional (kind l) && negb (expandable l))) (Relations.labels g));
  lab ← addLabelToGraph (if spent : bool then setExpandable false oLab else oLab);
  est ← inEstimationMode; rnd ← inRandomMode;
  if est || rnd then onGraph (fun g => Ok (upd lab (fun l => setExpanded true (setExpandable false l)) g));; mret (ok true) else
  l ← label_of lab; when (expandable l) (addWork (Revisit.OptionalForward (position l)));; mret (ok false).
Definition handleSpinStart' (sLab : EventLabel.t) : M R (HandleResult ()) :=
  lab ← addLabelToGraph sLab; l ← label_of lab;
  first ← ask (fun g => p ← Relations.po_imm_pred g lab; p ← deref p; lp ← label g p; Ok (Class.isKind Kind.LoopBegin (kind lp)));
  effects ← (if first : bool then mret true else
    s ← gets execState; '(b, s) ← lift (ExecutionState.onSpinStart s (position l)); modify (set_execState s);; mret b);
  if (effects : bool) then mret (ok ()) else blockThreadTryMoot (mkBlock Kind.SpinloopBlock (position l));; mret (ok ()).
Definition other_access (a : Z) (hb : list Z) (g : Graph.t) (i : lid) : res bool :=
  l ← label g i;
  if Class.isMemAccess (kind l) && bool_decide (getAddr l = a) && negb (Class.classofKind Class.CFaiRead (kind l)) && negb (Class.classofKind Class.CFaiWrite (kind l))
  then b ← ViewBase.contains hb (position l); Ok (negb b) else Ok false.
Definition areFaiZNEConstraintsSat lab : M R bool :=
  l ← label_of lab;
  ps ← ask (fun g => Relations.po_preds g lab);
  ss ← ask (fun g => o ← find_label (fun p => Class.isKind Kind.SpinStart (kind p)) g ps; verify (bool_decide (is_Some o));; deref o); lss ← label_of ss;
  plain ← ask (fun g => Relations.anyM (fun j =>
      x ← getEventLabel g (Event.Event (getThread lss) (Z.of_nat j)); lx ← label g x; Ok (Class.isWrite (kind lx) && negb (Class.classofKind Class.CFaiWrite (kind lx))))
    (seq (Z.to_nat (getIndex lss + 1)) (Z.to_nat (getIndex l - (getIndex lss + 1)))));
  if (plain : bool) then mret false else
  w ← ask (fun g => o ← find_label (fun p => Class.classofKind Class.CFaiWrite (kind p)) g ps; verify (bool_decide (is_Some o));; deref o); lw ← label_of w;
  hb ← getHbView w;
  bad ← ask (fun g => Relations.anyM (other_access (getAddr lw) hb g) (Relations.labels g)); mret (negb bad).
Definition handleFaiZNESpinEnd' (zLab : EventLabel.t) : M R (HandleResult ()) :=
  lab ← addLabelToGraph zLab; b ← areFaiZNEConstraintsSat lab;
  when b (l ← label_of lab; blockThread (mkBlock Kind.FaiZNEBlock (position l)));; mret (ok ()).
Definition handleLockZNESpinEnd' (zLab : EventLabel.t) : M R (HandleResult ()) :=
  lab ← addLabelToGraph zLab; l ← label_of lab; blockThreadTryMoot (mkBlock Kind.LockZNEBlock (position l));; mret (ok ()).
Definition handleLoopBegin' (l : EventLabel.t) : M R (HandleResult ()) :=
  onState (fun s => Ok (ExecutionState.onLoopBegin s (position l)));; handleDummy l.

(** ** What the interpreter calls *)
(** [++pos; if (auto err = updateErrorInfoAndMaybeExit(...)) return {*err};
    if (isExecutionDrivenByGraph(pos)) return driven; return fresh;] *)
Definition intercept {A} (isNA hasDbg : bool) (driven fresh : Event.t -> M R (HandleResult A)) (pos : Event.t) : M R (HandleResult A) :=
  let pos := Event.next pos in
  err ← updateErrorInfoAndMaybeExit pos isNA hasDbg;
  match err with
  | Some e => mret (error e)
  | None => b ← isExecutionDrivenByGraph pos; if (b : bool) then driven pos else fresh pos
  end.
Definition recorded (pos : Event.t) : M R (lid * EventLabel.t) := ask (fun g => i ← getEventLabel g pos; l ← label g i; Ok (i, l)).
Definition unless_emitted (m : M R ()) : M R () := when (negb emitNA) m.
Definition defer (a : AAccess.t) (oldVal : option SVal.t) : M R () := match oldVal with Some v => updateDeferredValue a v | None => mret () end.

(** [LOAD_INTERCEPTOR_LOGIC] and [STORE_INTERCEPTOR_LOGIC]; [create] makes the label. *)
Definition handleAtomicLoad (create : Event.t -> EventLabel.t) (oldVal : option SVal.t) (hasDbg : bool) : Event.t -> M R (HandleResult SVal.t) :=
  intercept false hasDbg
    (fun pos => '(lab, l) ← recorded pos;
      unless_emitted (defer (access l) oldVal;; hb ← getHbView lab; onState (fun s => ExecutionState.onATLoad s (position l) (access l) hb));;
      getReadRetValue lab)
    (fun pos => handleLoad (create pos) oldVal).
Definition handleAtomicStore (create : Event.t -> EventLabel.t) (oldVal : option SVal.t) (hasDbg : bool) : Event.t -> M R (HandleResult bool) :=
  intercept false hasDbg
    (fun pos => '(lab, l) ← recorded pos;
      unless_emitted (defer (access l) oldVal;; hb ← getHbView lab; eff ← isEffectful lab;
        onState (fun s => ExecutionState.onATStore s (position l) (access l) hb eff (isAtLeastRelease l)));;
      mret (ok (maximal l)))
    (fun pos => handleStore (create pos) oldVal).
(** Without labels, the view of a non-atomic access is that of the label before it. *)
Definition handleNALoad (loc size : Z) (hasDbg : bool) : Event.t -> M R (HandleResult (option SVal.t)) :=
  intercept true hasDbg
    (fun pos =>
      if emitNA then
        r ← ask (fun g => r ← getReadLabel g pos; deref r); v ← getReadRetValue r;
        mret (match v.1 with Value v => Value (Some v) | VError e => VError e | Reset => Reset | Invalid => Invalid end, v.2)
      else
        p ← recorded (Event.prev pos); hb ← getHbView p.1;
        onState (fun s => ExecutionState.onNALoad s pos (AAccess.AAccess loc size) hb);; mret (Value None, 0))
    (fun pos => handleNALoad' pos loc size).
Definition handleNAStore (loc size : Z) (val : SVal.t) (hasDbg : bool) : Event.t -> M R (HandleResult ()) :=
  let naVal := if emitNA then Some val else None in
  intercept true hasDbg
    (fun pos =>
      if emitNA then mret (ok ())
      else
        p ← recorded (Event.prev pos); hb ← getHbView p.1;
        onState (fun s => ExecutionState.onNAStore s pos (AAccess.AAccess loc size) hb naVal);; mret (Value (), 0))
    (fun pos => handleNAStore' pos loc size naVal).
Definition handleMalloc (size alignment : Z) (sdur : StorageDuration) (styp : StorageType) (spc : AddressSpace) (name : string) (dps : EventDeps) (hasDbg : bool)
    : Event.t -> M R (HandleResult SVal.t) :=
  intercept true hasDbg
    (fun pos =>
      addr ← (if emitNA then '(lab, l) ← recorded pos; lift (verify (Class.isKind Kind.Malloc (kind l)));; mret (getAddr l)
        else s ← gets execState; '(addr, s) ← lift (ExecutionState.onAlloc s pos size alignment sdur styp spc); modify (set_execState s);; mret addr);
      mret (Value (SVal.ofValue addr), result_count))
    (fun pos => handleMalloc' pos size alignment sdur styp spc name dps).
Definition handleFree (retire : bool) (loc : Z) (dps : EventDeps) (hasDbg : bool) : Event.t -> M R (HandleResult ()) :=
  intercept true hasDbg
    (fun pos => unless_emitted (onState (fun s => ExecutionState.onFree s pos loc retire));; mret (Value (), result_count))
    (fun pos => handleRelease retire pos loc dps).

Definition nothing (pos : Event.t) : M R (HandleResult ()) := mret (ok ()).
Definition handleThreadKill (hasDbg : bool) := intercept false hasDbg (fun _ => b ← inErrorReplay; lift (verify b);; mret (ok ())) (fun pos => handleThreadKill' (mkThreadKill pos)).
Definition handleThreadCreate (info : ThreadInfo) (dps : EventDeps) (hasDbg : bool) : Event.t -> M R (HandleResult Z) :=
  intercept false hasDbg (fun pos => '(lab, l) ← recorded pos; mret (ok (childId l))) (fun pos => handleThreadCreate' (mkThreadCreate pos info dps)).
Definition handleThreadJoin (childTid : Z) (dps : EventDeps) (hasDbg : bool) : Event.t -> M R (HandleResult SVal.t) :=
  intercept false hasDbg (fun pos => '(lab, l) ← recorded pos; v ← getReturnValue lab; mret (ok v)) (fun pos => handleThreadJoin' (mkThreadJoin pos childTid dps)).
Definition handleThreadFinish (val : SVal.t) (hasDbg : bool) := intercept false hasDbg nothing (fun pos => handleThreadFinish' (mkThreadFinish pos val)).
Definition handleFence (ord : MemOrdering.t) (dps : EventDeps) (hasDbg : bool) := intercept false hasDbg
  (fun pos => unless_emitted (onState (fun s => Ok (ExecutionState.onFence s pos (MemOrdering.isAtLeastOrStrongerThan ord MemOrdering.Release))));; mret (ok ()))
  (fun pos => handleFence' (mkFence pos ord dps)).
Definition handleAssume (ty : AssumeType) (hasDbg : bool) := intercept false hasDbg nothing (fun pos => handleBlock (createAssumeBlock pos ty)).
Definition handleHelpingCas (ord : MemOrdering.t) (loc size : Z) (cmpVal newVal : SVal.t) (dps : EventDeps) (hasDbg : bool) :=
  intercept false hasDbg nothing (fun pos => handleHelpingCas' (mkHelpingCas pos ord loc size cmpVal newVal dps)).
Definition handleOptional (hasDbg : bool) : Event.t -> M R (HandleResult bool) :=
  intercept false hasDbg (fun pos => '(lab, l) ← recorded pos; mret (ok (expanded l))) (fun pos => handleOptional' (mkOptional pos noDeps)).
Definition handleSpinStart (hasDbg : bool) := intercept false hasDbg
  (fun pos => unless_emitted (onState (fun s => '(b, s) ← ExecutionState.onSpinStart s pos; Ok s));; mret (ok ()))
  (fun pos => handleSpinStart' (mkDummy Kind.SpinStart pos)).
Definition handleFaiZNESpinEnd (hasDbg : bool) := intercept false hasDbg nothing (fun pos => handleFaiZNESpinEnd' (mkDummy Kind.FaiZNESpinEnd pos)).
Definition handleLockZNESpinEnd (hasDbg : bool) := intercept false hasDbg nothing (fun pos => handleLockZNESpinEnd' (mkDummy Kind.LockZNESpinEnd pos)).
Definition handleLoopBegin (hasDbg : bool) := intercept false hasDbg
  (fun pos => unless_emitted (onState (fun s => Ok (ExecutionState.onLoopBegin s pos)));; mret (ok ()))
  (fun pos => handleLoopBegin' (mkDummy Kind.LoopBegin pos)).
Definition handleHpProtect (hpAddr protAddr : SAddr.t) (hasDbg : bool) := intercept false hasDbg
  (fun pos => unless_emitted (onState (fun s => ExecutionState.onProtect s hpAddr protAddr));; mret (ok ()))
  (fun pos => onState (fun s => ExecutionState.onProtect s hpAddr protAddr);; handleDummy (mkHpProtect pos MemOrdering.Release hpAddr protAddr noDeps)).
Definition handleMethodBegin (name : string) (argVal : Z) (hasDbg : bool) := intercept false hasDbg nothing (fun pos => handleDummy (mkMethod Kind.MethodBegin pos name argVal)).
Definition handleMethodEnd (name : string) (retVal : Z) (hasDbg : bool) := intercept false hasDbg nothing (fun pos => handleDummy (mkMethod Kind.MethodEnd pos name retVal)).
Definition handleOutput (msg : string) (hasDbg : bool) := intercept false hasDbg nothing (fun pos => handleDummy (mkMessage Kind.Output pos msg)).
Definition handleError (msg : string) (hasDbg : bool) := intercept false hasDbg nothing (fun pos =>
  _ ← handleDummy (mkMessage Kind.Error pos msg);
  reportError pos (Temporary (details (Some pos) VerificationError.VE_Safety None true));; mret (VError VerificationError.VE_Safety, 1)).

(** ** Repairs and restrictions *)
(** A read at the end of a thread that has lost its source reads the latest store. *)
Definition repair_thread (i : Z) : M R () :=
  r ← ask (fun g => o ← getLastThreadLabel g i; o ← deref o; dyn_cast Class.isRead g o);
  match r with
  | None => mret ()
  | Some r =>
      l ← label_of r;
      if bool_decide (readsFrom l = None) then m ← maximal_at (getAddr l); setRf_to r m;; updateLabelViews r else mret ()
  end.
Definition repairDanglingReads : M R () := forThreads repair_thread.
(** Labels that the graph has destroyed take their views with them. *)
Definition is_gone (g : Graph.t) (lab : lid) : bool := bool_decide (store g !! lab = None).
Definition prune_views : M R () :=
  g ← getGraph; st ← getViews;
  let dead := concat (map snd (filter (fun e => is_gone g e.1 = true) (map_to_list (Calc.calculatedViews st))))
              ++ map snd (filter (fun e => is_gone g e.1 = true) (map_to_list (Calc.prefixView st))) in
  putViews (Calc.State (foldl View.destroy (Calc.heap st) dead)
    (filter (fun e => is_gone g e.1 = false) (Calc.calculatedViews st)) (filter (fun e => is_gone g e.1 = false) (Calc.prefixView st))).
(** [Execution::restrict] *)
Definition restrict (stamp : Stamp.t) : M R () :=
  onGraph (fun g => Cut.cutToStamp dbg stamp g View.empty_store 1%positive);;
  prune_views;;
  g ← getGraph;
  onChoices (fun m => v ← Clocks.rv_fromStamp (V := list Z) dbg stamp g; ChoiceMap.cut v m).

(** ** Copies *)
Definition copy_view (h : View.store) (v : View.vid) : res (View.store * View.vid) :=
  let c := Calc.fresh_view h in h ← View.copy h c v; Ok (h, c).
Definition empty_view (h : View.store) : View.store * View.vid := let c := Calc.fresh_view h in (View.create h c, c).
(** The views of an initializer, and those of a clone. *)
Definition initializer_views (i : lid) (st : Calc.t) : Calc.t :=
  let a := empty_view (Calc.heap st) in let b := empty_view a.1 in let c := empty_view b.1 in let p := empty_view c.1 in
  Calc.State p.1 (<[i := [a.2; b.2; c.2]]> (Calc.calculatedViews st)) (<[i := p.2]> (Calc.prefixView st)).
(** The constructor, for models without dependency tracking; the generators are seeded. *)
Definition create_driver (m : Mode) (schedRng estRng : R) : res (t R) :=
  g ← new_graph 0%nat;
  let st := initializer_views 0%nat (Calc.State View.empty_store ∅ ∅) in
  Ok (MkDriver m [MkExecution g (Calc.calculatedViews st) (Calc.prefixView st) [] ∅] (Calc.heap st) ExecutionState.new (Scheduler.create schedRng)
    false false None ∅ None (Result None [] 0 0 0) (MkProbes None None None None None) estRng 1%nat).
Definition clone_views (old : Calc.t) (st : Calc.t) (i : lid) : res Calc.t :=
  r ← foldM (fun (s : View.store * list View.vid) v => c ← copy_view s.1 v; Ok (c.1, s.2 ++ [c.2])) (Calc.heap st, []) (default [] (Calc.calculatedViews old !! i));
  match Calc.prefixView old !! i with
  | None => Ok (Calc.State r.1 (<[i := r.2]> (Calc.calculatedViews st)) (Calc.prefixView st))
  | Some v => c ← copy_view r.1 v; Ok (Calc.State c.1 (<[i := r.2]> (Calc.calculatedViews st)) (<[i := c.2]> (Calc.prefixView st)))
  end.
Definition copied_views (old : Calc.t) (og : Graph.t) : res Calc.t :=
  foldM (fun st i => l ← label og i;
    if Class.isKind Kind.Init (kind l) then Ok (initializer_views i st) else clone_views old st i)
    (Calc.State (Calc.heap old) ∅ ∅) (Relations.labels og).
(** The prefix of the revisiting store is not revisited any more. *)
Definition copyGraph (rev : Event.t) (v : list Z) : M R (Graph.t * Calc.t) :=
  w ← ask (fun g => getEventLabel g rev); prefix ← getPrefixView w; st ← getViews;
  ask (fun g =>
    og ← Copy.getCopyUpTo g v;
    og' ← foldM (fun g' i => l ← label g' i; b ← ViewBase.contains prefix (position l);
        Ok (if (b : bool) then upd i (setRevisitStatus false) g' else g')) og (Relations.labels og);
    st' ← copied_views st og'; Ok (og', st')).

(** ** Revisits *)
Definition completeRevisitedRMW (rLab : lid) : M R (option lid) :=
  w ← createRMWWriteLabel rLab;
  match w with
  | None => mret None
  | Some w =>
      lab ← addLabelToGraph w; l ← label_of rLab;
      lift (verify (bool_decide (is_Some (readsFrom l))));; rf ← lift (deref (readsFrom l)); addCo_to lab rf;; mret (Some lab)
  end.
Definition revisitWrite (pos moPred : Event.t) : M R bool :=
  w ← ask (fun g => o ← getWriteLabel g pos; verify (bool_decide (is_Some o));; deref o);
  p ← ask (fun g => getEventLabel g moPred);
  moveCo_to w p;; calcRevisits w;;
  b ← ask (fun g => GraphUtils.violatesAtomicity g w); mret (negb b).
Definition revisitOptional (pos : Event.t) : M R bool :=
  o ← ask (fun g => i ← getEventLabel g pos; o ← dyn_cast (Class.isKind Kind.Optional) g i; verify (bool_decide (is_Some o));; deref o);
  onGraph (fun g => Ok (upd o (fun l => setExpanded true (setExpandable false l)) g));; mret true.
(** [maximal] is that of a forward revisit. *)
Definition revisitRead (pos rev : Event.t) (maximal : option bool) : M R bool :=
  r ← ask (fun g => r ← getReadLabel g pos; deref r); revLab ← ask (fun g => getEventLabel g rev);
  setRf_to r revLab;; updateLabelViews r;;
  removed ← (if bool_decide (maximal = Some true) then mret false else removeCASReadIfBlocks r revLab);
  if (removed : bool) then mret true else
  s ← completeRevisitedRMW r;
  match s with
  | Some sLab => calcRevisits sLab;; b ← ask (fun g => GraphUtils.violatesAtomicity g sLab); mret (negb b)
  | None =>
      l ← label_of r;
      unblocks ← (if Class.isKind Kind.BWaitRead (kind l) then readsBarrierUnblockingValue r else mret true);
      when (negb unblocks) (blockThread (mkBlock Kind.BarrierBlock (Event.next (position l))));; mret true
  end.
Definition startReplay (pos : Event.t) (det : ErrorDetails) : M R () :=
  l ← ask (fun g => i ← getEventLabel g pos; label g i);
  onScheduler (Scheduler.setErrorReplayEvent (Some (if Class.isBlock (kind l) then Event.prev (position l) else position l)));;
  modify (set_bufferedError (Some det)).
Definition backwardRevisit (pos rev : Event.t) : M R bool :=
  g ← getGraph; st ← getViews;
  v ← lift (r ← getReadLabel g pos; r ← deref r; w ← getWriteLabel g rev; w ← deref w; Revisiting.getRevisitView (V := list Z) dbg g st r w);
  '(og, st') ← copyGraph rev v;
  e ← getExec; cmap ← lift (ChoiceMap.cut v (choices e));
  modify (set_heap (Calc.heap st'));;
  pushExecution (MkExecution og (Calc.calculatedViews st') (Calc.prefixView st') [] cmap);;
  repairDanglingReads;;
  good ← revisitRead pos rev None; lift (verify good);; mret true.
Definition forwardRevisit (item : Revisit.t (list Z)) : M R bool :=
  match item with
  | Revisit.WriteForward pos moPred => revisitWrite pos moPred
  | Revisit.OptionalForward pos => revisitOptional pos
  | Revisit.RerunForward => mret true
  | Revisit.ReplayForward pos det => startReplay pos det;; mret true
  | Revisit.ReadForward pos rev maximal => revisitRead pos rev (Some maximal)
  | Revisit.Backward pos rev _ => lift (Abort VerifyFailed)
  end.
Definition restrictAndRevisit (item : Revisit.t (list Z)) : M R bool :=
  stamp ← ask (fun g => i ← getEventLabel g (match item with Revisit.Backward _ rev _ => rev | _ => Revisit.getPos item end); l ← label g i; Cut.getStamp l);
  restrict stamp;; repairDanglingReads;;
  match item with Revisit.Backward pos rev _ => backwardRevisit pos rev | _ => forwardRevisit item end.
Definition isRevisitValid (item : Revisit.t (list Z)) : M R bool :=
  m ← ask (fun g => i ← getEventLabel g (Revisit.getPos item); dyn_cast Class.isMemAccess g i);
  match m with
  | None => mret true
  | Some lab =>
      if bool_decide (Revisit.getKind item = Revisit.RV_FRevReplay) then mret true else
      ok ← isExecutionValid lab; if negb ok then mret false else
      l ← label_of lab; n ← ask (fun g => Relations.po_imm_succ g lab);
      if negb (Class.isRead (kind l)) then mret true else
      rmw ← ask (fun g => Relations.read_isRMW g lab); if negb rmw then mret true else
      n ← lift (deref n); isExecutionValid n
  end.

(** ** The state at the beginning of an execution *)
Definition record_label (g : Graph.t) (st : Calc.t) lab (l : EventLabel.t) (s : ExecutionState.t (list Z)) : res (ExecutionState.t (list Z)) :=
  let hb := hbView_of st g in
  if Class.isRead (kind l) then
    v ← hb lab; if isNotAtomic l then ExecutionState.onNALoad s (position l) (access l) v else ExecutionState.onATLoad s (position l) (access l) v
  else if Class.isWrite (kind l) then
    v ← hb lab;
    if isNotAtomic l then ExecutionState.onNAStore s (position l) (access l) v (Some (value l))
    else eff ← AccessValues.isEffectful emitNA mem hb s g lab; ExecutionState.onATStore s (position l) (access l) v eff (isAtLeastRelease l)
  else if Class.isKind Kind.Malloc (kind l) then
    r ← ExecutionState.onAlloc s (position l) (getSize l) (alignment l) (sdur l) (stype l) (spc l); Ok r.2
  else if Class.isFree (kind l) then ExecutionState.onFree s (position l) (getAddr l) (Class.isKind Kind.HpRetire (kind l))
  else if Class.isKind Kind.SpinStart (kind l) then r ← ExecutionState.onSpinStart s (position l); Ok r.2
  else if Class.isKind Kind.LoopBegin (kind l) then Ok (ExecutionState.onLoopBegin s (position l))
  else if Class.isKind Kind.HpProtect (kind l) then ExecutionState.onProtect s (hpAddr l) (protAddr l)
  else Ok s.
Definition rebuild : Type := View.store * ExecutionState.t (list Z).
Definition curr : View.vid := 1%positive.
Definition reconstruct_label (g : Graph.t) (st : Calc.t) (rec : option lid -> rebuild -> res rebuild) (tid : Z) (s : rebuild) (i : Z) : res rebuild :=
  lab ← getEventLabel g (Event.Event tid i); l ← label g lab;
  s ← (if Class.isRead (kind l) then rec (readsFrom l) s else Ok s);
  s ← (if Class.isKind Kind.ThreadJoin (kind l) then o ← getLastThreadLabel g (childId l); rec o s else Ok s);
  s ← (if Class.isThreadStart (kind l) then rec (createLab l) s else Ok s);
  x ← record_label g st lab l s.2; Ok (s.1, x).
Fixpoint reconstruct (fuel : nat) (g : Graph.t) (st : Calc.t) (eLab : option lid) (s : rebuild) : res rebuild :=
  match fuel with
  | O => Abort OutOfFuel
  | S fuel =>
      match eLab with
      | None => Ok s
      | Some e =>
          l ← label g e; b ← View.contains s.1 curr (position l); if (b : bool) then Ok s else
          i ← View.getMax s.1 curr (getThread l); h ← View.updateIdx dbg s.1 curr (position l);
          foldM (reconstruct_label g st (reconstruct fuel g st) (getThread l)) (h, s.2) (seqZ (i + 1) (getIndex l - i))
      end
  end.
Definition reconstructState (g : Graph.t) (st : Calc.t) (s : ExecutionState.t (list Z)) : res (ExecutionState.t (list Z)) :=
  a ← RoundBoundDecider.initial_view dbg g;
  r ← foldM (fun s i => o ← getLastThreadLabel g i; reconstruct (S (S (length (concat (events g))))) g st o s) (a, s) (seqZ 0 (getNumThreads g));
  Ok r.2.
Definition handleExecutionStart : M R bool :=
  g ← getGraph; st ← getViews;
  unmoot;; onState (fun s => let s := ExecutionState.clear s in if emitNA then reconstructState g st s else Ok s);;
  s ← gets scheduler; s ← lift (Scheduler.resetExplorationOptions dbg conf g s); modify (set_scheduler s);;
  inErrorReplay.

(** ** The end of an execution *)
(** The annotations of helping operations: an error ends the program. *)
Definition unseen_store (hl : EventLabel.t) (g : Graph.t) (s : lid) : res bool :=
  ls ← label g s;
  if negb (SVal.eqb (expected hl) (value ls)) then Ok false else
  o ← find_label (fun r => Class.isKind Kind.HelpedCasRead (kind r)) g (readerList ls); Ok (bool_decide (o = None)).
Definition check_helping (i : lid) : M R () :=
  hl ← label_of i;
  if negb (Class.isKind Kind.HelpingCas (kind hl)) then mret () else
  bad ← ask (fun g => ss ← Relations.co g (getAddr hl); Relations.anyM (unseen_store hl g) ss);
  if (bad : bool) then lift (Abort UserError) else
  if SAddr.isDynamic (getAddr hl) then mret () else
  v ← values (fun s g hb => AccessValues.getInitVal emitNA mem s g (access hl));
  if negb (SVal.eqb (expected hl) v) then mret () else
  o ← ask (fun g => find_label (fun r => Class.isRead (kind r) && bool_decide (getAddr r = getAddr hl) && Class.isKind Kind.HelpedCasRead (kind r)) g (Relations.labels g));
  if bool_decide (o = None) then lift (Abort UserError) else mret ().
Definition checkHelpingCasAnnotation : M R () :=
  forThreads (fun i => b ← ask (fun g => last_of g i Kind.HelpedCASBlock); if bool_decide (is_Some b) then lift (Abort UserError) else mret ());;
  g ← getGraph; iterM check_helping (Relations.labels g).

(** The budget is spent; otherwise whether to stop is decided on the estimate. *)
Definition shouldStopEstimating (goodEnough : bool) : M R bool :=
  m ← gets mode;
  match m with
  | EstimationMode budget => let n := wrap 32 (budget - 1) in modify (set_mode (EstimationMode n));; mret ((n =? 0) || goodEnough)
  | _ => lift (Abort Undefined)
  end.
Definition shouldStopRandom : M R bool :=
  m ← gets mode;
  match m with
  | RandomMode budget => let n := wrap 32 (budget - 1) in modify (set_mode (RandomMode n));; mret (n =? 0)
  | _ => lift (Abort Undefined)
  end.
Definition onResult (f : VerificationResult -> VerificationResult) : M R () := modify (fun d => set_result (f (result d)) d).
(** [refines] is the verdict of the linearizability checker, [goodEnough] that on the estimate. *)
Definition handleExecutionEnd (goodEnough refines : bool) : M R (option VerificationError.t) :=
  m ← isMoot; if (m : bool) then mret None else
  when (Config.helper conf) checkHelpingCasAnnotation;;
  est ← inEstimationMode;
  when est (stop ← shouldStopEstimating goodEnough; when (negb stop) (addWork Revisit.RerunForward));;
  rnd ← inRandomMode;
  when rnd (stop ← shouldStopRandom; when (negb stop) (addWork Revisit.RerunForward));;
  blocked ← ask Relations.isBlocked;
  if (blocked : bool) then
    onResult (fun r => set_exploredBlocked (wrap 32 (exploredBlocked r + 1)) r);;
    if Config.checkLiveness conf then checkLiveness else mret None
  else
    err ← (if Config.warnUnfreedMemory conf then checkUnfreedMemory else mret None);
    match err with
    | Some e => mret (Some e)
    | None =>
        onResult (fun r => set_explored (wrap 32 (explored r + 1)) r);;
        exceeds ← fullExecutionExceedsBound; when exceeds (onResult (fun r => set_boundExceeding (wrap 32 (boundExceeding r + 1)) r));;
        h ← isHalting; m ← isMoot; if h || m then mret None else
        ver ← inVerificationMode; if negb ver then mret None else
        if bool_decide (Config.checkLinSpec conf = None) || refines then mret None else
        onResult (set_status (Some VerificationError.VE_LinearizabilityError));;
        p ← ask (fun g => i ← deref (head (Relations.rlabels g)); l ← label g i; Ok (position l));
        reportError p (Temporary (details None VerificationError.VE_LinearizabilityError None true));;
        mret (Some VerificationError.VE_LinearizabilityError)
    end.

(** ** The next execution *)
Definition getNext : M R (option (Revisit.t (list Z))) :=
  e ← getExec; let '(item, w) := WorkList.getNext (workqueue e) in
  putExec (MkExecution (graph e) (calculatedViews e) (prefixView e) w (choices e));; mret item.
(** Whether the exploration is over. *)
Fixpoint done (fuel : nat) : M R bool :=
  match fuel with
  | O => lift (Abort OutOfFuel)
  | S fuel =>
      h ← isHalting; if (h : bool) then mret true else
      item ← getNext;
      match item with
      | None => more ← popExecution; if (more : bool) then done fuel else mret true
      | Some item =>
          b ← restrictAndRevisit item; valid ← (if (b : bool) then isRevisitValid item else mret false);
          if (valid : bool) then isHalting else done fuel
      end
  end.
End handlers.
End Exploration.
