(* ===== verification/DriverSpec.v ===== *)
(** * What the driver promises

    The error protocol as a state machine that the driver refines, the choice of a
    reads-from edge, and the re-execution of what the graph has recorded. *)

From S2P Require Import Prelude Values Addresses Events VSet Views IntervalMap AdaptiveView ExecutionState SymExpr Labels Graph Relations Cut Search Automata Checkable Scripts GraphUtils Calc Symmetry Clocks AccessValues Errors Revisits.
From S2P Require Import Checkers Revisiting Config Bounds Scheduler Copy Driver Accesses Exploration.
Import EventLabel Graph ConsistencyChecker Driver Accesses Exploration.
Local Open Scope Z_scope.

Module DriverSpec.

(** ** Running *)
Section run.
Context {R : Type}.
Lemma run_bind {A B} (m : M R A) (f : A -> M R B) d x d' : m d = Ok (x, d') -> (m ≫= f) d = f x d'.
Proof. intros E. unfold mbind, M_bind. by rewrite E. Qed.
Lemma run_ret {A} (x : A) (d : t R) : (mret x : M R A) d = Ok (x, d).
Proof. done. Qed.
Lemma run_when (b : bool) (m : M R ()) d d' : (b = true -> m d = Ok ((), d')) -> (b = false -> d' = d) -> when b m d = Ok ((), d').
Proof. destruct b; cbn; intros H1 H2; [by apply H1|by rewrite H2]. Qed.
End run.

(** Computes with the monad as far as the state is known. *)
Ltac run_driver :=
  cbv beta iota delta [reportError pointee isHalting isMoot moot halt inEstimationMode inRandomMode inVerificationMode inErrorReplay isErrorReplayEvent onScheduler
    initiateErrorReplay haltErrorReplay addWork ask getGraph putGraph onGraph getExec putExec gets modify lift when mret M_ret mbind M_bind res_bind]; cbn [negb andb orb mode execStack heap execState scheduler isMootExecution shouldHalt bufferedError dbgInfo cexLab result probes estRng nextId
    graph calculatedViews prefixView workqueue choices deref
    set_mode set_execStack set_heap set_execState set_scheduler set_moot set_shouldHalt set_bufferedError set_dbgInfo set_cexLab set_result set_probes set_estRng set_nextId].

(** ** The protocol of errors *)
Section errors.
Context {R : Type} `{Env R}.

(** An error is looked for, it is being replayed to reach an event, or it has been
    confirmed. *)
Inductive phase := Exploring | Replaying (e : Event.t) (det : ErrorDetails) | Stopped (err : VerificationError.t).
Definition in_phase (d : t R) (p : phase) : Prop :=
  let e := Scheduler.eventToReexecute_ (scheduler d) in
  match p with
  | Exploring => shouldHalt d = false /\ e = None /\ bufferedError d = None
  | Replaying e' det => shouldHalt d = false /\ e = Some e' /\ bufferedError d = Some det
  | Stopped err => shouldHalt d = true /\ status (result d) = Some err /\ e = None
  end.
(** What reaching an event, or reporting an error at it, does to the phase. *)
Definition confirmed (det : ErrorDetails) : phase := if ed_shouldHalt det then Stopped (ed_type det) else Exploring.
Definition estimating (d : t R) : bool := match mode d with EstimationMode _ => true | _ => false end.

(** The last label, whose position the replay is aimed at. *)
Definition newest (g : Graph.t) (p : Event.t) : Prop := exists i l, head (Relations.rlabels g) = Some i /\ store g !! i = Some l /\ position l = p.
Definition queued (e : Execution) (item : Revisit.t (list Z)) : Execution :=
  MkExecution (graph e) (calculatedViews e) (prefixView e) (WorkList.add item (workqueue e)) (choices e).

Lemma report_exploring d e es det pos p : in_phase d Exploring -> execStack d = e :: es -> newest (graph e) p ->
  (estimating d = true -> ed_shouldHalt det = true) ->
  reportError pos (Temporary det) d = Ok ((), set_moot (ed_shouldHalt det || isMootExecution d) (set_execStack (queued e (Revisit.ReplayForward p det) :: es) d)).
Proof.
  intros (Hh & He & Hb) Es (i & l & Hi & Hl & <-) Hest. destruct d as [m st h x s mt sh be di cx r pr rg n]. cbn in *. subst st sh be.
  assert (Scheduler.inErrorReplay s = false) as Hr by (unfold Scheduler.inErrorReplay; by rewrite He).
  assert ((match m with EstimationMode _ => true | _ => false end) && negb (ed_shouldHalt det) = false) as Hm
    by (destruct m; cbn; try done; unfold estimating in Hest; cbn in Hest; by rewrite (Hest eq_refl)).
  run_driver. rewrite Hm. run_driver. rewrite Hr. run_driver. rewrite Hi. run_driver. rewrite (label_ok _ _ _ Hl). run_driver.
  destruct (ed_shouldHalt det); done.
Qed.

Lemma replaying_flags d e det : in_phase d (Replaying e det) -> Scheduler.inErrorReplay (scheduler d) = true /\
  forall pos, Scheduler.isErrorReplayEvent pos (scheduler d) = bool_decide (pos = e).
Proof.
  intros (_ & He & _). unfold Scheduler.inErrorReplay, Scheduler.isErrorReplayEvent. rewrite He. split; [done|].
  intros pos. apply bool_decide_ext. split; [by intros [= ->]|by intros ->].
Qed.
(** While an error is replayed nothing is reported at other events. *)
Lemma report_elsewhere d e det det' pos : in_phase d (Replaying e det) -> pos <> e -> reportError pos (Temporary det') d = Ok ((), d).
Proof.
  intros Hp Hne. destruct (replaying_flags d e det Hp) as [Hr Hpos], Hp as (Hh & _ & _). destruct d as [m st h x s mt sh be di cx r pr rg n]. cbn in *. subst sh.
  run_driver. destruct (_ && negb (ed_shouldHalt det')); run_driver; [done|]. rewrite Hr, (Hpos pos), bool_decide_false by done. done.
Qed.
(** An error that has been confirmed is not reported again. *)
Lemma report_stopped d err r pos : in_phase d (Stopped err) -> reportError pos r d = Ok ((), d).
Proof. intros (Hh & _). destruct d. cbn in *. subst. by run_driver. Qed.

(** The graph after the read of an invalid access has lost its source. *)
Definition forgets (det : ErrorDetails) (g g' : Graph.t) : Prop :=
  match ed_pos det with
  | None => g' = g
  | Some p => exists i l, getEventLabel g p = Ok i /\ store g !! i = Some l /\
      if VerificationError.isInvalidAccessError (ed_type det) && Class.isRead (kind l) then setRf i None g = Ok g' else g' = g
  end.
Definition with_graph (g : Graph.t) (e : Execution) : Execution := MkExecution g (calculatedViews e) (prefixView e) (workqueue e) (choices e).
(** The driver after the replay has reached the event; the details are read once more. *)
Definition finished (det : ErrorDetails) (d : t R) : t R :=
  let d := set_moot true (set_bufferedError None (set_dbgInfo ∅ (set_scheduler (Scheduler.setErrorReplayEvent None (scheduler d)) d))) in
  if ed_shouldHalt det then set_result (set_status (Some (ed_type det)) (result d)) (set_shouldHalt true d) else d.
Lemma finished_phase det det' d e : in_phase d (Replaying e det) -> in_phase (finished det' d) (confirmed det').
Proof. intros (Hh & _ & _). unfold finished, confirmed. by destruct (ed_shouldHalt det'). Qed.
(** The driver with another graph in its current execution. *)
Definition on_graph (g : Graph.t) (d : t R) : t R :=
  match execStack d with ex :: es => set_execStack (with_graph g ex :: es) d | [] => d end.
Lemma forget_source_ok det d ex es g' : execStack d = ex :: es -> forgets det (graph ex) g' -> forget_source det d = Ok ((), on_graph g' d).
Proof.
  intros Es Hf. destruct d as [m st h x s mt sh be di cx r pr rg n]. cbn in Es. subst st. unfold forget_source, forgets, on_graph in *. cbn.
  destruct (ed_pos det) as [p|]; [|subst g'; by destruct ex].
  destruct Hf as (i & l & Ei & El & Hf). run_driver. rewrite Ei. run_driver. rewrite (label_ok _ _ _ El). run_driver.
  destruct (_ && _); [by rewrite Hf|subst g'; by destruct ex].
Qed.
(** A report at the event of the replay, whose details are [det] before the buffered error
    is cleared. *)
Lemma report_reached d e det0 r det ex es g' : in_phase d (Replaying e det0) -> (r = Temporary det \/ r = Buffered /\ det = det0) ->
  execStack d = ex :: es -> forgets det (graph ex) g' -> (estimating d = true -> ed_shouldHalt det = true) ->
  reportError e r d = Ok ((), finished (pointee_after_halt r det) (on_graph g' d)).
Proof.
  intros Hp Hd Es Hf Hest. destruct (replaying_flags d e det0 Hp) as [Hr Hpos], Hp as (Hh & He & Hb).
  assert (estimating d && negb (ed_shouldHalt det) = false) as Hm by (destruct (estimating d); [by rewrite Hest|done]).
  pose proof (forget_source_ok det d ex es g' Es Hf) as Ef. unfold on_graph in *. rewrite Es in *.
  destruct d as [m st h x s mt sh be di cx res pr rg n]. unfold estimating in Hm. cbn in *. subst st sh be. destruct Hd as [->|[-> ->]]; run_driver; rewrite Hm; run_driver; rewrite Hr, (Hpos e), bool_decide_true by done;
    run_driver; rewrite Ef; run_driver; unfold finished; by destruct (ed_shouldHalt (pointee_after_halt _ _)).
Qed.

(** *** The specification *)
Inductive action := Report (pos : Event.t) (det : ErrorDetails) | Start (pos : Event.t) (det : ErrorDetails) | Reach (pos : Event.t) (isNA hasDbg : bool).
Definition run (a : action) : M R (option VerificationError.t) :=
  match a with
  | Report pos det => reportError pos (Temporary det);; mret None
  | Start pos det => startReplay pos det;; mret None
  | Reach pos isNA hasDbg => updateErrorInfoAndMaybeExit pos isNA hasDbg
  end.
(** The event that the replay of a work item stops at. *)
Definition replay_target (g : Graph.t) (pos e : Event.t) : Prop := exists i l, getEventLabel g pos = Ok i /\ store g !! i = Some l /\
  e = if Class.isBlock (kind l) then Event.prev (position l) else position l.
Definition outcome (det : ErrorDetails) : option VerificationError.t := if ed_shouldHalt det then Some (ed_type det) else None.
(** Whether debug information is recorded. *)
Definition records (isNA hasDbg : bool) : bool := hasDbg && (negb isNA || emitNA).

(** [estep g seen soft p a p' r items abandon]: in phase [p], with the graph [g], the
    events [seen] in the replay, soft errors being ignored when [soft], the action leads
    to [p'], returns [r], adds [items] to the work list, and gives up the execution
    when [abandon]. *)
Inductive estep (g : Graph.t) (seen : gset Event.t) (soft : bool) : phase -> action -> phase -> option VerificationError.t -> list (Revisit.t (list Z)) -> bool -> Prop :=
  | step_queue pos det p : newest g p -> (soft = true -> ed_shouldHalt det = true) ->
      estep g seen soft Exploring (Report pos det) Exploring None [Revisit.ReplayForward p det] (ed_shouldHalt det)
  | step_ignore pos det : soft = true -> ed_shouldHalt det = false -> estep g seen soft Exploring (Report pos det) Exploring None [] false
  | step_start pos det e : replay_target g pos e -> estep g seen soft Exploring (Start pos det) (Replaying e det) None [] false
  | step_plain pos isNA hasDbg : estep g seen soft Exploring (Reach pos isNA hasDbg) Exploring None [] false
  | step_silent e det pos det' : pos <> e -> estep g seen soft (Replaying e det) (Report pos det') (Replaying e det) None [] false
  | step_pass e det pos isNA hasDbg : pos <> e -> (records isNA hasDbg = true -> pos ∉ seen) ->
      estep g seen soft (Replaying e det) (Reach pos isNA hasDbg) (Replaying e det) None [] false
  | step_confirm e det isNA hasDbg g' : (records isNA hasDbg = true -> e ∉ seen) -> forgets det g g' -> (soft = true -> ed_shouldHalt det = true) ->
      estep g seen soft (Replaying e det) (Reach e isNA hasDbg) (confirmed (destroyed det)) (outcome det) [] true
  | step_again e det0 det g' : forgets det g g' -> (soft = true -> ed_shouldHalt det = true) ->
      estep g seen soft (Replaying e det0) (Report e det) (confirmed det) None [] true
  | step_stopped err pos det : estep g seen soft (Stopped err) (Report pos det) (Stopped err) None [] false
  | step_over err pos isNA hasDbg : estep g seen soft (Stopped err) (Reach pos isNA hasDbg) (Stopped err) None [] false.

Lemma finished_step d e det0 det ex es g' : in_phase d (Replaying e det0) -> execStack d = ex :: es ->
  let d' := finished det (on_graph g' d) in
  in_phase d' (confirmed det) /\ isMootExecution d' = true /\
    map workqueue (execStack d') = (workqueue ex ++ []) :: map workqueue es /\ map choices (execStack d') = map choices (execStack d).
Proof.
  intros Hp Es d'. subst d'. unfold on_graph. rewrite Es. split; [apply finished_phase with det0 e; by destruct Hp as (?&?&?)|].
  unfold finished. rewrite app_nil_r. by destruct (ed_shouldHalt det).
Qed.
Lemma reach_quiet d pos isNA hasDbg : Scheduler.eventToReexecute_ (scheduler d) = None -> updateErrorInfoAndMaybeExit pos isNA hasDbg d = Ok (None, d).
Proof. intros He. unfold updateErrorInfoAndMaybeExit. run_driver. unfold Scheduler.inErrorReplay. by rewrite He. Qed.
(** The first half of [updateErrorInfoAndMaybeExit]. *)
Definition noted (pos : Event.t) (isNA hasDbg : bool) (d : t R) : t R := if records isNA hasDbg then set_dbgInfo ({[pos]} ∪ dbgInfo d) d else d.
Lemma reach_replaying d e det pos isNA hasDbg : in_phase d (Replaying e det) -> (records isNA hasDbg = true -> pos ∉ dbgInfo d) ->
  updateErrorInfoAndMaybeExit pos isNA hasDbg d =
    (if bool_decide (pos = e) then reportError pos Buffered;; mret (outcome det) else mret None) (noted pos isNA hasDbg d).
Proof.
  intros Hp Hs. destruct (replaying_flags d e det Hp) as [Hr Hpos], Hp as (Hh & _ & Hb). unfold updateErrorInfoAndMaybeExit, noted, records, emitNA in *.
  destruct d as [m st h x s mt sh be di cx r pr rg n]. cbn in *. subst sh be.
  unfold inErrorReplay, isErrorReplayEvent, gets, modify, lift, when, mret, M_ret, mbind, M_bind. cbn. rewrite Hr. cbn.
  destruct (hasDbg && _) eqn:E.
  - rewrite bool_decide_false by (by apply Hs). cbn. rewrite Hpos. unfold outcome. by case_bool_decide.
  - cbn. rewrite Hpos. unfold outcome. by case_bool_decide.
Qed.
Lemma noted_phase pos isNA hasDbg d p : in_phase d p -> in_phase (noted pos isNA hasDbg d) p.
Proof. unfold noted. by destruct (records isNA hasDbg). Qed.
Lemma noted_stack pos isNA hasDbg d : execStack (noted pos isNA hasDbg d) = execStack d /\ isMootExecution (noted pos isNA hasDbg d) = isMootExecution d /\ estimating (noted pos isNA hasDbg d) = estimating d.
Proof. unfold noted. by destruct (records isNA hasDbg). Qed.

(** A confirmed hard error does not stop the exploration if the destroyed details read
    as those of a soft one: the caller gets the error, and the driver goes on. *)
Lemma destroyed_error_goes_on d e det ex es g' hasDbg : in_phase d (Replaying e det) -> execStack d = ex :: es -> forgets det (graph ex) g' ->
  ed_shouldHalt det = true -> ed_shouldHalt (destroyed det) = false -> e ∉ dbgInfo d ->
  exists d', updateErrorInfoAndMaybeExit e false hasDbg d = Ok (Some (ed_type det), d') /\ in_phase d' Exploring.
Proof.
  intros Hp Es Hf Hh Hd Hs. destruct (noted_stack e false hasDbg d) as (H1 & _ & H3). pose proof (noted_phase e false hasDbg d _ Hp) as Hp'.
  rewrite (reach_replaying d e det), bool_decide_true by done.
  erewrite run_bind; [|eapply report_reached; [exact Hp'|by right|by rewrite H1|exact Hf|by rewrite H3]].
  eexists. unfold outcome. rewrite Hh. split; [reflexivity|]. rewrite <- H1 in Es.
  destruct (finished_step _ e det (destroyed det) ex es g' Hp' Es) as [Hph _]. unfold confirmed in Hph. by rewrite Hd in Hph.
Qed.

(** C8: The driver follows the protocol of errors: what is found during the exploration
    is queued, aimed at the newest label, and gives up the execution if it is a hard
    error; the replay that the queued item starts reports nothing before it comes to
    its event; there the error that the call finds again, or else the buffered one, is
    confirmed and the replay is abandoned.  The caller is told of a hard error.  The
    exploration stops, with the type of the error as its status, if the details say so
    when they are read last: those of a found error are intact then, those of the
    buffered error have been destroyed, and what they read as is a parameter.  Once it
    has stopped nothing is reported any more.  Soft errors are ignored during an
    estimation. *)
Theorem error_protocol_refined d ex es p a p' r items abandon : execStack d = ex :: es -> in_phase d p ->
  estep (graph ex) (dbgInfo d) (estimating d) p a p' r items abandon ->
  exists d', run a d = Ok (r, d') /\ in_phase d' p' /\ isMootExecution d' = abandon || isMootExecution d /\
    map workqueue (execStack d') = (workqueue ex ++ items) :: map workqueue es /\ map choices (execStack d') = map choices (execStack d).
Proof.
  intros Es Hp Hs. assert (Hw : map workqueue (execStack d) = (workqueue ex ++ []) :: map workqueue es) by (by rewrite Es, app_nil_r).
  destruct Hs as [pos det p Hn Hest|pos det Hest Hd|pos det e (i & l & Ei & El & ->)|pos isNA hasDbg|e det pos det' Hne|e det pos isNA hasDbg Hne Hseen|e det isNA hasDbg g' Hseen Hf Hest|e det0 det g' Hf Hest|err pos det|err pos isNA hasDbg]; cbn [run].
  - eexists. split; [erewrite run_bind by (by eapply report_exploring); reflexivity|]. destruct Hp as (H1 & H2 & H3). split_and!; try done. cbn. by rewrite Es.
  - exists d. split_and!; try done. erewrite run_bind; [reflexivity|]. destruct Hp as (Hh & He & _). destruct d as [m st h x s mt sh be di cx rr pr rg n]. cbn in *. subst sh.
    run_driver. rewrite Hd. unfold estimating in Hest. cbn in Hest. rewrite Hest. done.
  - destruct Hp as (Hh & He & _). destruct d as [m st h x s mt sh be di cx rr pr rg n]. cbn in *. subst sh st. eexists. split.
    + unfold startReplay. run_driver. rewrite Ei. run_driver. rewrite (label_ok _ _ _ El). run_driver. reflexivity.
    + split_and!; try done.
  - exists d. split_and!; try done. apply reach_quiet. by destruct Hp as (_ & He & _).
  - exists d. split_and!; try done. erewrite run_bind by (by eapply report_elsewhere). done.
  - exists (noted pos isNA hasDbg d). destruct (noted_stack pos isNA hasDbg d) as (H1 & H2 & _). split_and!; [|by apply noted_phase|by rewrite H2|by rewrite H1|by rewrite H1].
    rewrite (reach_replaying d e det) by done. by rewrite bool_decide_false.
  - destruct (noted_stack e isNA hasDbg d) as (H1 & H2 & H3). pose proof (noted_phase e isNA hasDbg d _ Hp) as Hp'.
    rewrite (reach_replaying d e det) by done. rewrite bool_decide_true by done.
    erewrite run_bind; [|eapply report_reached; [exact Hp'|by right|by rewrite H1|exact Hf|by rewrite H3]]. eexists. split; [reflexivity|].
    rewrite <- H1. eapply finished_step; [exact Hp'|by rewrite H1].
  - erewrite run_bind; [|eapply report_reached; [exact Hp|by left|exact Es|exact Hf|exact Hest]]. eexists. split; [reflexivity|].
    eapply finished_step; [exact Hp|exact Es].
  - exists d. split_and!; try done. erewrite run_bind by (by eapply report_stopped). done.
  - exists d. split_and!; try done. apply reach_quiet. by destruct Hp as (_ & _ & He).
Qed.
End errors.

(** ** Sources, one after the other *)
Lemma upd_at i f f' (g : Graph.t) : (forall l, store g !! i = Some l -> f l = f' l) -> upd i f g = upd i f' g.
Proof. intros Hf. unfold upd, set_store. f_equal. by apply alter_ext. Qed.
Lemma upd_same i f (g : Graph.t) : (forall l, store g !! i = Some l -> f l = l) -> upd i f g = g.
Proof. intros Hf. unfold upd, set_store. destruct g. cbn in *. by rewrite alter_id. Qed.

Section source.
Context (g : Graph.t) (r : lid) (lr : EventLabel.t).
Context (Hg : wf g) (Hr : in_graph g r) (Hlr : store g !! r = Some lr) (Hk : Class.isRead (kind lr) = true) (Hrf : readsFrom lr = None).

Lemma source_other w lw : store g !! w = Some lw -> Class.isWrite (kind lw) = true \/ kind lw = Kind.Init -> w <> r.
Proof. intros Hlw Hkw ->. simplify_eq. destruct (kind_disjoint _ Hk) as [E1 E2]. destruct Hkw; congruence. Qed.
(** The graph in which the read has its first source. *)
Definition sourced (m w : lid) (k : Kind.t) : Graph.t :=
  upd r (setAddedMax (bool_decide (m = w))) (upd w (link_reader r (getAddr lr) k) (upd r (setRfNoCascade (Some w)) g)).
Lemma setRf_sourced w lw m : in_graph g w -> store g !! w = Some lw -> Class.isWrite (kind lw) = true \/ kind lw = Kind.Init ->
  co_max g (getAddr lr) = Ok m -> setRf r (Some w) g = Ok (sourced m w (kind lw)).
Proof.
  intros Hw Hlw Hkw Hm. pose proof (addReader_ok g r lr w lw (setRfNoCascade (Some w)) Hg Hr Hlr Hk Hrf Hw Hlw Hkw ltac:(done)) as Ha. cbv zeta in Ha.
  unfold setRf. rewrite (label_ok _ _ _ Hlr). cbn -[label write_addReader init_addReader co_max]. rewrite Hrf. cbn -[label write_addReader init_addReader co_max].
  destruct (label _ w) as [l1|]; [|done]. cbn -[label write_addReader init_addReader co_max] in *. rewrite Ha. cbn -[co_max].
  by rewrite (co_max_struct g), Hm.
Qed.

(** Where the initializer lists the readers of the location. *)
Definition listed (a : lid) : Prop := forall la, store g !! a = Some la -> kind la = Kind.Init -> is_Some (initRfs la !! getAddr lr).
Lemma unlink_linked a la : store g !! a = Some la -> in_graph g a -> Class.isWrite (kind la) = true \/ kind la = Kind.Init -> listed a ->
  (if Class.isWrite (kind la) then (fun l => with_readerList (unlink r (readerList l)) l)
   else (fun l => with_initRfs (<[getAddr lr := unlink r (list_at (initRfs l) (getAddr lr))]> (initRfs l)) l))
    (link_reader r (getAddr lr) (kind la) la) = la.
Proof.
  intros Hla Ha Hka Hl. assert (forall b, r ∉ readers_at la b) as Hnr.
  { intros b Hb. destruct (wf_readers g Hg a la b r Ha Hla Hb) as (_ & l & El & _ & E & _). congruence. }
  assert (forall l, r ∉ l -> unlink r (l ++ [r]) = l) as Hun.
  { unfold unlink. induction l as [|x l IH]; intros Hn; cbn [app]; rewrite filter_cons; [destruct (decide (r <> r)) as [E|_]; [exfalso; by apply E|done]|].
    rewrite not_elem_of_cons in Hn. rewrite decide_True by naive_solver. f_equal. apply IH, Hn. }
  unfold link_reader. destruct (Class.isWrite (kind la)) eqn:Ew.
  - specialize (Hnr 0). unfold readers_at in Hnr. rewrite Ew in Hnr. cbn -[unlink]. rewrite Hun by done. by destruct la.
  - destruct Hka as [?|Hka]; [done|]. specialize (Hnr (getAddr lr)). unfold readers_at in Hnr. rewrite Ew in Hnr.
    unfold Class.isKind in Hnr. rewrite bool_decide_true in Hnr by done. destruct (Hl la Hla Hka) as [rs Ers].
    unfold list_at in *. rewrite Ers in *. cbn -[unlink] in *. rewrite lookup_insert_eq. cbn -[unlink]. rewrite Hun by done. rewrite insert_insert_eq, insert_id by done. by destruct la.
Qed.

(** Another source takes the place of the first one, and nothing else remembers it. *)
Lemma setRf_again a la b lb : in_graph g a -> store g !! a = Some la -> Class.isWrite (kind la) = true \/ kind la = Kind.Init -> listed a ->
  in_graph g b -> store g !! b = Some lb -> Class.isWrite (kind lb) = true \/ kind lb = Kind.Init ->
  forall g1, setRf r (Some a) g = Ok g1 -> setRf r (Some b) g1 = setRf r (Some b) g.
Proof.
  intros Ha Hla Hka Hl Hb Hlb Hkb g1 E. destruct (co_max_ok g r lr Hg Hr Hlr (tracked_read _ Hk)) as [m Hm].
  rewrite (setRf_sourced a la m) in E by done. injection E as <-. rewrite (setRf_sourced b lb m) by done.
  assert (a <> r) as Har by (by eapply source_other). assert (b <> r) as Hbr by (by eapply source_other).
  set (f := fun l => setRfNoCascade (Some b) (setAddedMax (bool_decide (m = a)) l)).
  assert (store (sourced m a (kind la)) !! r = Some (setAddedMax (bool_decide (m = a)) (setRfNoCascade (Some a) lr))) as Hl1.
  { unfold sourced. rewrite upd_lookup, decide_True by done. rewrite upd_lookup, decide_False by done. by rewrite upd_lookup, decide_True, Hlr by done. }
  set (un := if Class.isWrite (kind la) then (fun l => with_readerList (unlink r (readerList l)) l)
     else (fun l => with_initRfs (<[getAddr lr := unlink r (list_at (initRfs l) (getAddr lr))]> (initRfs l)) l)).
  assert (upd a un (upd r (setRfNoCascade (Some b)) (sourced m a (kind la))) = upd r f g) as Eun.
  { unfold sourced. rewrite upd_upd. rewrite (upd_comm r a) by done. rewrite upd_upd. rewrite (upd_same a).
    - rewrite upd_upd. apply upd_at. intros l _. by destruct l.
    - intros l. rewrite upd_lookup, decide_False by done. rewrite upd_lookup, decide_False by done. intros E. simplify_eq. by apply (unlink_linked a). }
  pose proof (addReader_ok g r lr b lb f Hg Hr Hlr Hk Hrf Hb Hlb Hkb ltac:(done)) as Hadd. cbv zeta in Hadd.
  unfold setRf. rewrite (label_ok _ _ _ Hl1). cbn -[label write_addReader init_addReader co_max].
  assert (store (upd r (setRfNoCascade (Some b)) (sourced m a (kind la))) !! a = Some (link_reader r (getAddr lr) (kind la) la)) as Hl2.
  { unfold sourced. rewrite upd_lookup, decide_False by done. rewrite upd_lookup, decide_False by done. rewrite upd_lookup, decide_True by done.
    by rewrite upd_lookup, decide_False, Hla by done. }
  rewrite (label_ok _ _ _ Hl2). cbn -[label write_addReader init_addReader co_max].
  assert (kind (link_reader r (getAddr lr) (kind la) la) = kind la) as -> by (unfold link_reader; by destruct (Class.isWrite _)).
  transitivity (g2 ← Ok (upd r f g); lb ← label g2 b;
      g3 ← (if Class.isWrite (kind lb) then write_addReader b r g2
                  else if Class.isKind Kind.Init (kind lb) then init_addReader b r g2 else Abort Unreachable);
      m ← co_max g3 (getAddr lr); Ok (upd r (setAddedMax (bool_decide (m = b))) g3)).
  { rewrite <- Eun. unfold un, write_removeReader, init_removeReader. destruct (Class.isWrite (kind la)) eqn:Ew; [reflexivity|].
    destruct Hka as [?|Hka]; [done|]. rewrite Hka. reflexivity. }
  cbn -[label write_addReader init_addReader co_max].
  destruct (label _ b) as [l1|]; [|done]. cbn -[label write_addReader init_addReader co_max] in *. rewrite Hadd. cbn -[co_max].
  change (getAddr (setAddedMax (bool_decide (m = a)) (setRfNoCascade (Some a) lr))) with (getAddr lr).
  rewrite (co_max_struct g), Hm by done. cbn. f_equal. unfold sourced. rewrite !(upd_comm r b) by done. by rewrite !upd_upd.
Qed.
End source.

(** ** The source of a new read *)
Lemma putGraph_head {R} (d : t R) ex es g : execStack d = ex :: es -> putGraph g d = Ok ((), set_execStack (with_graph g ex :: es) d).
Proof. intros Es. unfold putGraph, getExec, putExec, mbind, M_bind. by rewrite !Es. Qed.
Lemma getGraph_head {R} (d : t R) ex es : execStack d = ex :: es -> getGraph d = Ok (graph ex, d).
Proof. intros Es. unfold getGraph, getExec, mbind, M_bind. by rewrite Es. Qed.
Lemma on_graph_twice {R} g g' (d : t R) : on_graph g (on_graph g' d) = on_graph g d.
Proof. unfold on_graph. destruct d as [m st]. by destruct st. Qed.

Section source_of_read.
Context {R : Type} `{Env R}.
Lemma exceeds_quiet (st : BoundCalculationStrategy) (d d' : t R) b : executionExceedsBound st d = Ok (b, d') -> d' = d.
Proof.
  unfold executionExceedsBound, inEstimationMode, ask, getGraph, getExec, gets, lift, mret, M_ret, mbind, M_bind.
  destruct (Config.bound conf) as [n|]; [|by intros [= <- <-]]. destruct (mode d); try (by intros [= <- <-]);
  (destruct (execStack d) as [|ex es]; [done|]; destruct (BoundDecider.doesExecutionExceedBound _ _ _ _ _); [by intros [= <- <-]|done]).
Qed.
Lemma exceeds_unbounded (st : BoundCalculationStrategy) (d : t R) : Config.bound conf = None -> executionExceedsBound st d = Ok (false, d).
Proof. intros Hb. unfold executionExceedsBound. rewrite Hb. done. Qed.
(** Checking an execution changes nothing. *)
Lemma isExecutionValid_quiet lab (d d' : t R) b : isExecutionValid lab d = Ok (b, d') -> d' = d.
Proof.
  unfold isExecutionValid, getGraph, getExec, lift, mret, M_ret, mbind, M_bind, partialExecutionExceedsBound.
  destruct (execStack d) as [|ex es] eqn:Es; [done|]. destruct (if Config.symmetryReduction conf then _ else _) as [[]|]; cbn [negb]; [|by intros [= <- <-]|done].
  destruct (res_bind _ _) as [[]|]; cbn [negb]; [|by intros [= <- <-]|done].
  destruct (executionExceedsBound Slacked d) as [[b' d1]|] eqn:E; [|done]. apply exceeds_quiet in E as ->. by intros [= <- <-].
Qed.

Context (d : t R) (ex : Execution) (es : list Execution) (r : lid) (lr : EventLabel.t).
Context (Es : execStack d = ex :: es) (Hg : wf (graph ex)) (Hr : in_graph (graph ex) r) (Hlr : store (graph ex) !! r = Some lr).
Context (Hk : Class.isRead (kind lr) = true) (Hrf : readsFrom lr = None).
(** A store the read can read from, which lists its readers. *)
Definition readable (s : lid) : Prop := source_ok (graph ex) s /\ listed (graph ex) lr s.
(** The outcome of the check of the execution in which the read reads from [s]. *)
Definition checked (s : lid) (b : bool) : Prop :=
  exists g d', setRf r (Some s) (graph ex) = Ok g /\ isExecutionValid r (on_graph g d) = Ok (b, d').

(** The driver in which the read reads from nothing yet, or from a former choice. *)
Definition tried (d' : t R) : Prop :=
  exists g, d' = on_graph g d /\ (g = graph ex \/ exists a, readable a /\ setRf r (Some a) (graph ex) = Ok g).
Lemma tried_start : tried d.
Proof. exists (graph ex). split; [|by left]. unfold on_graph. rewrite Es. destruct d as [m st]. cbn in *. subst st. by destruct ex. Qed.
Lemma setRf_tried d' s : tried d' -> readable s -> setRf_to r s d' = setRf_to r s d.
Proof.
  intros (g & -> & Hgr) [(Hs & ls & Els & Hks) _]. unfold setRf_to, onGraph, mbind, M_bind, lift.
  rewrite (getGraph_head d _ _ Es). unfold on_graph. rewrite Es.
  rewrite (getGraph_head _ (with_graph g ex) es) by done. cbn [graph with_graph].
  assert (setRf r (Some s) g = setRf r (Some s) (graph ex)) as ->.
  { destruct Hgr as [->|(a & ((Ha & la & Ela & Hka) & Hl) & Ea)]; [done|]. by apply (setRf_again (graph ex) r lr Hg Hr Hlr Hk Hrf a la s ls). }
  destruct (setRf r (Some s) (graph ex)) as [g'|]; [|done].
  rewrite (putGraph_head d ex es) by done. rewrite (putGraph_head _ (with_graph g ex) es) by done. by destruct d.
Qed.
Lemma setRf_checked s b : checked s b -> exists d', setRf_to r s d = Ok ((), d') /\ isExecutionValid r d' = Ok (b, d') /\
  exists g, d' = on_graph g d /\ setRf r (Some s) (graph ex) = Ok g.
Proof.
  intros (g & d' & Eg & Ev). pose proof (isExecutionValid_quiet _ _ _ _ Ev) as ->. exists (on_graph g d). split_and!; [|done|by exists g].
  unfold setRf_to, onGraph, mbind, M_bind, lift. rewrite (getGraph_head d _ _ Es), Eg. rewrite (putGraph_head d ex es) by done. unfold on_graph. by rewrite Es.
Qed.
(** Committing to a source. *)
Definition commit (s : lid) (rest : list lid) : M R (option lid * list lid) := setRf_to r s;; updateLabelViews r;; mret (Some s, rest).

Lemma findConsistentRf_from pre s post : Config.bound conf = None -> Forall readable (pre ++ s :: post) ->
  Forall (fun a => checked a false) pre -> (post = [] \/ checked s true) ->
  forall d', tried d' -> findConsistentRf r (pre ++ s :: post) d' = commit s (reverse post) d.
Proof.
  intros Hb Hre Hpre Hs. induction pre as [|a pre IH]; intros d' Hd'; cbn [app] in *; apply Forall_cons in Hre as [Hra Hre].
  - assert (setRf_to r s d' = setRf_to r s d) as E by (by apply setRf_tried).
    unfold commit. destruct post as [|p post]; cbn [findConsistentRf].
    + unfold mbind, M_bind. rewrite E. destruct (setRf_to r s d) as [[[] d1]|]; [|done].
      destruct (updateLabelViews r d1) as [[[] d2]|]; [|done]. rewrite (bool_decide_eq_true_2 _ Hb). done.
    + destruct Hs as [?|Hs]; [done|]. destruct (setRf_checked s true Hs) as (d1 & E1 & Ev & _).
      unfold mbind, M_bind. rewrite E, E1, Ev. reflexivity.
  - apply Forall_cons in Hpre as [Ha Hpre]. destruct (setRf_checked a false Ha) as (d1 & E1 & Ev & g & -> & Eg).
    destruct (pre ++ s :: post) as [|p rest] eqn:Erest; [by destruct pre|]. cbn [findConsistentRf].
    unfold mbind at 1, M_bind at 1. rewrite (setRf_tried d' a) by done. rewrite E1. unfold mbind at 1, M_bind at 1. rewrite Ev.
    apply IH; [done..|]. exists g. split; [done|]. right. by exists a.
Qed.

(** C9: Without a bound, a new read gets the first of its candidates with which the
    execution is valid, or the last one; the graph and the views are those of choosing
    that store at once, the stores rejected before leave no trace in the graph, and the
    stores behind it are handed back, last first, for revisits. *)
Theorem findConsistentRf_correct stores : Config.bound conf = None -> stores <> [] -> Forall readable stores ->
  (forall s, s ∈ stores -> exists b, checked s b) ->
  exists pre s post, stores = pre ++ s :: post /\ Forall (fun a => checked a false) pre /\ (post = [] \/ checked s true) /\
    findConsistentRf r stores d = (setRf_to r s;; updateLabelViews r;; mret (Some s, reverse post)) d.
Proof.
  intros Hb Hne Hre Hch.
  enough (exists pre s post, stores = pre ++ s :: post /\ Forall (fun a => checked a false) pre /\ (post = [] \/ checked s true)) as (pre & s & post & -> & Hpre & Hs).
  { exists pre, s, post. split_and!; try done. apply (findConsistentRf_from pre s post); try done. apply tried_start. }
  clear Hre. induction stores as [|a stores IH]; [done|]. destruct (Hch a ltac:(left)) as [[] Ha]; [exists [], a, stores; split_and!; try done; by right|].
  destruct stores as [|a' stores]; [exists [], a, []; split_and!; try done; by left|].
  destruct IH as (pre & s & post & E & Hpre & Hs); [done|intros s Hs; apply Hch; by right|]. exists (a :: pre), s, post. cbn. rewrite E. split_and!; try done. by constructor.
Qed.
End source_of_read.

(** ** Executing again what the graph has recorded *)
Section replayed.
Context {R : Type} `{Env R}.

(** The calls of the interpreter. *)
Inductive call : Type -> Type :=
  | AtomicLoad (create : Event.t -> EventLabel.t) (oldVal : option SVal.t) : call SVal.t
  | AtomicStore (create : Event.t -> EventLabel.t) (oldVal : option SVal.t) : call bool
  | NALoad (loc size : Z) : call (option SVal.t)
  | NAStore (loc size : Z) (val : SVal.t) : call ()
  | Malloc (size alignment : Z) (sdur : StorageDuration) (styp : StorageType) (spc : AddressSpace) (name : string) (dps : EventDeps) : call SVal.t
  | Free (retire : bool) (loc : Z) (dps : EventDeps) : call ()
  | ThreadCreate (info : ThreadInfo) (dps : EventDeps) : call Z
  | ThreadJoin (childTid : Z) (dps : EventDeps) : call SVal.t
  | ThreadFinish (val : SVal.t) : call ()
  | Fence (ord : MemOrdering.t) (dps : EventDeps) : call ()
  | Assume (ty : AssumeType) : call ()
  | HelpingCas (ord : MemOrdering.t) (loc size : Z) (cmpVal newVal : SVal.t) (dps : EventDeps) : call ()
  | Optional : call bool
  | SpinStart : call ()
  | FaiZNESpinEnd : call ()
  | LockZNESpinEnd : call ()
  | LoopBegin : call ()
  | HpProtect (hpAddr protAddr : SAddr.t) : call ()
  | MethodBegin (name : string) (argVal : Z) : call ()
  | MethodEnd (name : string) (retVal : Z) : call ()
  | Output (msg : string) : call ()
  | Error (msg : string) : call ().
Definition perform {A} (c : call A) (hasDbg : bool) : Event.t -> M R (HandleResult A) :=
  match c with
  | AtomicLoad create oldVal => handleAtomicLoad create oldVal hasDbg
  | AtomicStore create oldVal => handleAtomicStore create oldVal hasDbg
  | NALoad loc size => handleNALoad loc size hasDbg
  | NAStore loc size val => handleNAStore loc size val hasDbg
  | Malloc size alignment sdur styp spc name dps => handleMalloc size alignment sdur styp spc name dps hasDbg
  | Free retire loc dps => handleFree retire loc dps hasDbg
  | ThreadCreate info dps => handleThreadCreate info dps hasDbg
  | ThreadJoin childTid dps => handleThreadJoin childTid dps hasDbg
  | ThreadFinish val => handleThreadFinish val hasDbg
  | Fence ord dps => handleFence ord dps hasDbg
  | Assume ty => handleAssume ty hasDbg
  | HelpingCas ord loc size cmpVal newVal dps => handleHelpingCas ord loc size cmpVal newVal dps hasDbg
  | Optional => handleOptional hasDbg
  | SpinStart => handleSpinStart hasDbg
  | FaiZNESpinEnd => handleFaiZNESpinEnd hasDbg
  | LockZNESpinEnd => handleLockZNESpinEnd hasDbg
  | LoopBegin => handleLoopBegin hasDbg
  | HpProtect hpAddr protAddr => handleHpProtect hpAddr protAddr hasDbg
  | MethodBegin name argVal => handleMethodBegin name argVal hasDbg
  | MethodEnd name retVal => handleMethodEnd name retVal hasDbg
  | Output msg => handleOutput msg hasDbg
  | Error msg => handleError msg hasDbg
  end.
(** The value that a read gets: that of the store it reads from, or the initial one. *)
Definition value_read (d : t R) (g : Graph.t) (l : EventLabel.t) (v : SVal.t) : Prop :=
  exists w lw, readsFrom l = Some w /\ store g !! w = Some lw /\
    if Event.isInitializer (position lw)
    then SAddr.isDynamic (getAddr l) = false /\ ExecutionState.readStaticInitValue mem (execState d) (access l) = Ok v
    else Class.isWrite (kind lw) = true /\ v = value lw.
(** Whether the thread goes on with the value: the condition that the program assumes of
    it, and the round of the barrier. *)
Definition assumption (l : EventLabel.t) (v : SVal.t) (holds : bool) : Prop :=
  match annot l with
  | Some an => if Config.ipr conf then exists r, SExpr.evaluate_value (annot_expr an) v [] = Ok r /\ holds = SVal.getBool r.1.1 else holds = true
  | None => holds = true
  end.
Definition barrier (d : t R) lab (l : EventLabel.t) (opens : bool) : Prop :=
  if Class.isKind Kind.BWaitRead (kind l) then readsBarrierUnblockingValue lab d = Ok (opens, d) else opens = true.
(** What a read answers, and the driver afterwards: a thread that does not go on is
    blocked once more, and has to be executed again. *)
Inductive read_answer (d : t R) (g : Graph.t) lab (l : EventLabel.t) : HandleResult SVal.t -> t R -> Prop :=
  | read_goes_on v : value_read d g l v -> assumption l v true -> barrier d lab l true -> read_answer d g lab l (ok v) d
  | read_assumes v an d' : value_read d g l v -> annot l = Some an -> assumption l v false ->
      blockThread (createAssumeBlock (Event.next (position l)) (annot_type an)) d = Ok ((), d') -> read_answer d g lab l (Reset, 0) d'
  | read_waits v d' : value_read d g l v -> assumption l v true -> barrier d lab l false ->
      blockThread (createAssumeBlock (Event.next (position l)) ABarrier) d = Ok ((), d') -> read_answer d g lab l (Reset, 0) d'.
(** What a call finds in the graph [g] at the label [l], and the driver afterwards. *)
Definition answers {A} (c : call A) (d : t R) (g : Graph.t) lab (l : EventLabel.t) : HandleResult A -> t R -> Prop :=
  match c in call A return HandleResult A -> t R -> Prop with
  | AtomicLoad _ _ => fun x d' => Class.isRead (kind l) = true /\ read_answer d g lab l x d'
  | AtomicStore _ _ => fun x d' => x = ok (maximal l) /\ d' = d
  | NALoad _ _ => fun x d' => Class.isRead (kind l) = true /\
      exists r, read_answer d g lab l r d' /\ x = (match r.1 with Value v => Value (Some v) | VError e => VError e | Reset => Reset | Invalid => Invalid end, r.2)
  | Malloc _ _ _ _ _ _ _ => fun x d' => kind l = Kind.Malloc /\ x = ok (SVal.ofValue (getAddr l)) /\ d' = d
  | ThreadCreate _ _ => fun x d' => x = ok (childId l) /\ d' = d
  | ThreadJoin _ _ => fun x d' => kind l = Kind.ThreadJoin /\ d' = d /\
      exists e le, getLastThreadLabel g (childId l) = Ok (Some e) /\ store g !! e = Some le /\ kind le = Kind.ThreadFinish /\ x = ok (retVal le)
  | Optional => fun x d' => x = ok (expanded l) /\ d' = d
  | NAStore _ _ _ | Free _ _ _ | ThreadFinish _ | Fence _ _ | Assume _ | HelpingCas _ _ _ _ _ _ | SpinStart | FaiZNESpinEnd
  | LockZNESpinEnd | LoopBegin | HpProtect _ _ | MethodBegin _ _ | MethodEnd _ _ | Output _ | Error _ => fun x d' => x = ok () /\ d' = d
  end.

Lemma getEventLabel_at g i l : wf g -> in_graph g i -> store g !! i = Some l -> getEventLabel g (position l) = Ok i.
Proof.
  intros Hg Hi Hl. destruct (in_graph_pos g Hg i Hi) as (t & th & k & l' & Ht & Hk & Hl' & Hp). simplify_eq. rewrite Hp. by eapply getEventLabel_pos.
Qed.
Lemma driven_at (d : t R) ex es i l : execStack d = ex :: es -> wf (graph ex) -> in_graph (graph ex) i -> store (graph ex) !! i = Some l ->
  kind l <> Kind.Empty -> isExecutionDrivenByGraph (position l) d = Ok (true, d).
Proof.
  intros Es Hg Hi Hl Hk. pose proof (getEventLabel_at _ _ _ Hg Hi Hl) as E.
  destruct (in_graph_pos (graph ex) Hg i Hi) as (t & th & k & l' & Ht & Hk' & Hl' & Hp). simplify_eq.
  unfold isExecutionDrivenByGraph, ask, lift, mbind, M_bind. rewrite (getGraph_head d ex es Es). rewrite Hp in *. unfold getThreadSize. cbn [Event.thread Event.index].
  rewrite (vec_at_ok _ _ _ Ht). cbn [mbind res_bind]. apply lookup_lt_Some in Hk'. rewrite (proj2 (Z.ltb_lt _ _)) by lia. cbn [negb].
  rewrite E. cbn [mbind res_bind]. rewrite (label_ok _ _ _ Hl). cbn. unfold Class.isKind. by rewrite bool_decide_false by done.
Qed.
Lemma intercept_driven {A} isNA hasDbg (driven fresh : Event.t -> M R (HandleResult A)) (d : t R) ex es i l pos :
  in_phase d Exploring -> execStack d = ex :: es -> wf (graph ex) -> in_graph (graph ex) i -> store (graph ex) !! i = Some l ->
  kind l <> Kind.Empty -> position l = Event.next pos -> intercept isNA hasDbg driven fresh pos d = driven (position l) d.
Proof.
  intros (_ & He & _) Es Hg Hi Hl Hk Hp. unfold intercept. cbv zeta. rewrite <- Hp.
  erewrite run_bind by (by apply reach_quiet). cbn. by erewrite run_bind by (by eapply driven_at).
Qed.
Lemma recorded_at (d : t R) ex es i l : execStack d = ex :: es -> wf (graph ex) -> in_graph (graph ex) i -> store (graph ex) !! i = Some l ->
  recorded (position l) d = Ok ((i, l), d).
Proof.
  intros Es Hg Hi Hl. unfold recorded, ask, lift, mbind, M_bind. rewrite (getGraph_head d ex es Es).
  rewrite (getEventLabel_at _ _ _ Hg Hi Hl). cbn. by rewrite (label_ok _ _ _ Hl).
Qed.

(** Functions of the state, the graph and the views of labels. *)
Lemma values_at {A} (f : ExecutionState.t (list Z) -> Graph.t -> (lid -> res (list Z)) -> res A) x (d : t R) ex es :
  execStack d = ex :: es -> (forall hb, f (execState d) (graph ex) hb = Ok x) -> values f d = Ok (x, d).
Proof. intros Es Hf. unfold values, getViews, getGraph, getExec, gets, lift, mret, M_ret, mbind, M_bind. by rewrite !Es, Hf. Qed.
Lemma value_read_ok (d : t R) ex es lab l v : Config.emitNALabels conf = true -> execStack d = ex :: es -> store (graph ex) !! lab = Some l ->
  Class.isRead (kind l) = true -> value_read d (graph ex) l v -> getAccessValue lab (access l) d = Ok (v, d).
Proof.
  intros Hna Es Hl Hk (w & lw & Hrf & Hlw & Hv). unfold getAccessValue. apply values_at with ex es; [done|]. intros hb.
  unfold AccessValues.getAccessValue, AccessValues.resolveAccessValue, AccessValues.getInitVal. rewrite (label_ok _ _ _ Hl). cbn [mbind res_bind].
  assert (Class.isMemAccess (kind l) = true) as -> by (by destruct (kind l)). rewrite orb_true_r, Hk, Hrf. cbn [verify mbind res_bind deref].
  rewrite (label_ok _ _ _ Hlw). cbn [mbind res_bind]. rewrite Hna. change (AAccess.addr (access l)) with (getAddr l).
  destruct (Event.isInitializer (position lw)); destruct Hv as [H1 H2].
  - rewrite H1. cbn [andb negb verify mbind res_bind]. by rewrite H2.
  - by rewrite H1, H2.
Qed.
Lemma assumption_ok l v holds : assumption l v holds ->
  (if bool_decide (is_Some (annot l)) && Config.ipr conf then valueMakesAssumeSucceed l v else Ok true) = Ok holds.
Proof.
  unfold assumption, valueMakesAssumeSucceed. destruct (annot l) as [an|]; [|by intros ->]. rewrite bool_decide_true by done. cbn [andb].
  destruct (Config.ipr conf); [|by intros ->]. intros (r & E & ->). by rewrite E.
Qed.
Lemma read_answer_ok (d : t R) ex es lab l x d' : Config.emitNALabels conf = true -> in_phase d Exploring -> execStack d = ex :: es ->
  store (graph ex) !! lab = Some l -> Class.isRead (kind l) = true -> read_answer d (graph ex) lab l x d' -> getReadRetValue lab d = Ok (x, d').
Proof.
  intros Hna (_ & He & _) Es Hl Hk Hx. assert (forall v, value_read d (graph ex) l v -> getAccessValue lab (access l) d = Ok (v, d)) as Hv
    by (intros v; by apply value_read_ok with es).
  assert (forall v, value_read d (graph ex) l v -> bool_decide (readsFrom l = None) = false) as Hrf
    by (intros v (w & lw & E & _); by rewrite bool_decide_false by (by rewrite E)).
  assert (forall b, blockThread b d = Ok ((), d') -> (blockThread b;; mret (if false then (Invalid, 1) else (Reset, 0)) : M R (HandleResult SVal.t)) d = Ok ((Reset, 0), d')) as Hb
    by (intros b E; by rewrite (run_bind _ _ _ _ _ E)).
  unfold getReadRetValue. erewrite run_bind; [|unfold label_of, ask, lift, mbind, M_bind; by rewrite (getGraph_head d ex es Es), (label_ok _ _ _ Hl)].
  erewrite run_bind by (unfold inErrorReplay, gets, mbind, M_bind, Scheduler.inErrorReplay; by rewrite He). cbv zeta.
  destruct Hx as [v H1 H2 H3|v an d' H1 H2 H3 H4|v d' H1 H2 H3 H4]; rewrite (Hrf v H1); erewrite run_bind by (by apply Hv);
    (erewrite run_bind; [|unfold lift; erewrite assumption_ok by eassumption; reflexivity]); cbn [negb].
  - unfold barrier in H3. destruct (Class.isKind Kind.BWaitRead (kind l)); [by erewrite run_bind by exact H3|by subst].
  - rewrite H2. by apply Hb.
  - unfold barrier in H3. destruct (Class.isKind Kind.BWaitRead (kind l)); [erewrite run_bind by exact H3; by apply Hb|done].
Qed.

(** C10: Outside of the replay of an error, and when non-atomic accesses have labels, an
    instruction whose label is in the graph does not go through its handler again.  Every
    call of the interpreter answers from the graph: the number of the created thread, the
    result of the joined one, the address of the allocation, the value of the store that
    the read reads from; and it leaves the driver as it is.  Only a read whose value
    contradicts what the program assumes of it, or does not open the barrier it waits at,
    blocks its thread again and asks for the execution to start over. *)
Theorem replayed_calls_answer {A} (c : call A) hasDbg (d : t R) ex es lab l pos x d' :
  Config.emitNALabels conf = true -> in_phase d Exploring -> execStack d = ex :: es -> wf (graph ex) ->
  in_graph (graph ex) lab -> store (graph ex) !! lab = Some l -> kind l <> Kind.Empty -> position l = Event.next pos ->
  answers c d (graph ex) lab l x d' -> perform c hasDbg pos d = Ok (x, d').
Proof.
  intros Hna Hph Es Hg Hi Hl Hk Hp Ha. pose proof (recorded_at d ex es lab l Es Hg Hi Hl) as Hrec.
  assert (forall (m : M R ()), unless_emitted m d = Ok ((), d)) as Hun by (intros m; unfold unless_emitted, emitNA; by rewrite Hna).
  destruct c; cbn [perform answers] in *; unfold handleAtomicLoad, handleAtomicStore, handleNALoad, handleNAStore, handleMalloc, handleFree, handleThreadCreate, handleThreadJoin,
    handleThreadFinish, handleFence, handleAssume, handleHelpingCas, handleOptional, handleSpinStart, handleFaiZNESpinEnd, handleLockZNESpinEnd, handleLoopBegin,
    handleHpProtect, handleMethodBegin, handleMethodEnd, handleOutput, handleError; (erewrite intercept_driven by done).
  all: unfold nothing, result_count, emitNA; rewrite ?Hna.
  all: try (destruct Ha as [-> ->]; repeat (erewrite run_bind by first [exact Hrec|apply Hun]; cbv beta iota); reflexivity).
  - repeat (erewrite run_bind by first [exact Hrec|apply Hun]; cbv beta iota). destruct Ha as [Hr Ha]. by apply read_answer_ok with ex es l.
  - destruct Ha as (Hr & r & Ha & ->). unfold ask, lift, mbind, M_bind. rewrite (getGraph_head d ex es Es). unfold getReadLabel. rewrite (getEventLabel_at _ _ _ Hg Hi Hl). cbn.
    unfold dyn_cast. rewrite (label_ok _ _ _ Hl). cbn. rewrite Hr. cbn. by erewrite read_answer_ok by eassumption.
  - destruct Ha as (Hm & -> & ->). unfold mbind, M_bind. rewrite Hrec. cbn. by rewrite Hm.
  - destruct Ha as (Hj & -> & e & le & H1 & H2 & H3 & ->). erewrite run_bind by exact Hrec. cbv beta iota. erewrite run_bind; [reflexivity|].
    unfold getReturnValue. apply values_at with ex es; [done|]. intros hb. unfold AccessValues.getReturnValue, dyn_cast. rewrite (label_ok _ _ _ Hl). cbn.
    rewrite Hj. change (Class.isKind Kind.ThreadJoin Kind.ThreadJoin) with true. cbn. rewrite H1. cbn. rewrite (label_ok _ _ _ H2). cbn.
    rewrite H3. change (Class.isKind Kind.ThreadFinish Kind.ThreadFinish) with true. cbn. by rewrite (label_ok _ _ _ H2).
Qed.
End replayed.

(** ** Instances *)
Definition sample_conf : Config.t := Config.Config Config.verify SC false None Config.bound_none false false false false true true true false false false false true
  false None None true true 0 Config.WF None false false.
#[local] Instance sample_env : Env unit := {|
  conf := sample_conf; dbg := true; consChecker := create SC; mem := fun _ => 0; dist := fun n r => (n, r);
  destroyed := fun det => det |}.
Definition sample (g : Graph.t) : t unit :=
  MkDriver VerificationMode [MkExecution g (Calc.calculatedViews mp_views) (Calc.prefixView mp_views) [] ∅] (Calc.heap mp_views) ExecutionState.new (Scheduler.create tt) false false None ∅ None
    (Result None [] 0 0 0) (MkProbes None None None None None) tt 8%nat.
Definition sample_error : ErrorDetails := {| ed_pos := None; ed_type := VerificationError.VE_Safety; ed_racyLab := None; ed_shouldHalt := true |}.
(** The driver finds a safety error at the end of the second thread. *)
Lemma error_protocol_refined_witness : exists d',
  run (Report (Event.Event 1 3) sample_error) (sample mp) = Ok (None, d') /\ in_phase d' Exploring /\ isMootExecution d' = true || false /\
  map workqueue (execStack d') = [[Revisit.ReplayForward (Event.Event 1 2) sample_error]] /\ map choices (execStack d') = [∅].
Proof.
  apply (error_protocol_refined (sample mp) (MkExecution mp (Calc.calculatedViews mp_views) (Calc.prefixView mp_views) [] ∅) [] Exploring (Report (Event.Event 1 3) sample_error) Exploring None
    [Revisit.ReplayForward (Event.Event 1 2) sample_error] true); [done|done|].
  apply step_queue; [|done]. exists 7%nat. vm_compute. by eexists.
Defined.

(** Message passing, before the second read has a source: it cannot read the initial value. *)
Definition mp_unread : Graph.t := Script.script (Script.spawn ++ [
  Script.Add 4 (Script.write 0 2 MemOrdering.Relaxed Script.loc_x 1); Script.Co 4 1; Script.Add 5 (Script.write 0 3 MemOrdering.Relaxed Script.loc_y 1); Script.Co 5 1;
  Script.Add 6 (Script.read 1 1 MemOrdering.Relaxed Script.loc_y); Script.Rf 6 5; Script.Add 7 (Script.read 1 2 MemOrdering.Relaxed Script.loc_x)]).
Definition unread : t unit := match iterM updateLabelViews [2; 3; 4; 5; 6; 7]%nat (sample mp_unread) with Ok (_, d) => d | Abort _ => sample mp_unread end.
Definition verdict (s : lid) : option bool :=
  match setRf 7%nat (Some s) mp_unread with
  | Ok g => match isExecutionValid 7%nat (on_graph g unread) with Ok (b, _) => Some b | Abort _ => None end
  | Abort _ => None
  end.
Lemma verdict_checked ex s b : graph ex = mp_unread -> verdict s = Some b -> checked unread ex 7%nat s b.
Proof.
  intros Eg. unfold verdict, checked. rewrite Eg. destruct (setRf _ _ _) as [g|]; [|done]. destruct (isExecutionValid _ _) as [[b' d']|] eqn:E; [|done].
  intros [= ->]. exists g, d'. by split.
Qed.
Lemma unread_readable ex s : graph ex = mp_unread -> s ∈ [1; 4]%nat -> readable ex (GraphUtils.get mp_unread 7%nat) s.
Proof.
  intros Eg Hs. unfold readable, source_ok, listed. rewrite Eg. apply list_elem_of_In in Hs. destruct Hs as [<-|[<-|[]]].
  - split; [split; [apply Checkable.in_graph_check; vm_compute; reflexivity|]|].
    + exists (GraphUtils.get mp_unread 1%nat). split; [vm_compute; reflexivity|by right].
    + intros la Ela _. vm_compute in Ela. injection Ela as <-. vm_compute. by eexists.
  - split; [split; [apply Checkable.in_graph_check; vm_compute; reflexivity|]|].
    + exists (GraphUtils.get mp_unread 4%nat). split; [vm_compute; reflexivity|by left].
    + intros la Ela Hk. vm_compute in Ela. injection Ela as <-. discriminate Hk.
Qed.
Lemma unread_stack : exists ex, execStack unread = [ex] /\ graph ex = mp_unread.
Proof. exists (match execStack unread with e :: _ => e | [] => MkExecution mp ∅ ∅ [] ∅ end). split; vm_compute; reflexivity. Qed.
Lemma findConsistentRf_correct_witness : exists ex pre s post, [1; 4]%nat = pre ++ s :: post /\
  Forall (fun a => checked unread ex 7%nat a false) pre /\ (post = [] \/ checked unread ex 7%nat s true) /\
  findConsistentRf 7%nat [1; 4]%nat unread = (setRf_to 7%nat s;; updateLabelViews 7%nat;; mret (Some s, reverse post)) unread.
Proof.
  destruct unread_stack as (ex & Es & Eg). exists ex. apply (findConsistentRf_correct unread ex [] 7%nat (GraphUtils.get mp_unread 7%nat)).
  - exact Es.
  - rewrite Eg. apply Script.script_wf.
  - rewrite Eg. apply Checkable.in_graph_check. vm_compute. reflexivity.
  - rewrite Eg. vm_compute. reflexivity.
  - vm_compute. reflexivity.
  - vm_compute. reflexivity.
  - reflexivity.
  - discriminate.
  - apply Forall_forall. intros s Hs. by apply unread_readable.
  - intros s Hs. apply list_elem_of_In in Hs. destruct Hs as [<-|[<-|[]]]; [exists false|exists true]; apply verdict_checked; try done; vm_compute; reflexivity.
Defined.
(** The initial value is tried and rejected. *)
Example unread_choice : match findConsistentRf 7%nat [1; 4]%nat unread with Ok (x, _) => Some x | Abort _ => None end = Some (Some 4%nat, []).
Proof. vm_compute. reflexivity. Qed.
(** The second thread of message passing reads the stored value again. *)
Lemma replayed_calls_answer_witness :
  perform (AtomicLoad (fun p => Script.read 1 1 MemOrdering.Relaxed Script.loc_y) None) true (Event.Event 1 0) (sample mp) = Ok (ok (SVal.ofValue 1), sample mp).
Proof.
  apply (replayed_calls_answer (AtomicLoad (fun p => Script.read 1 1 MemOrdering.Relaxed Script.loc_y) None) true (sample mp)
    (MkExecution mp (Calc.calculatedViews mp_views) (Calc.prefixView mp_views) [] ∅) [] 6%nat (GraphUtils.get mp 6%nat) (Event.Event 1 0)).
  - reflexivity.
  - by split_and!.
  - reflexivity.
  - apply Script.script_wf.
  - apply Checkable.in_graph_check. vm_compute. reflexivity.
  - vm_compute. reflexivity.
  - vm_compute. discriminate.
  - vm_compute. reflexivity.
  - split; [vm_compute; reflexivity|]. apply read_goes_on; [|vm_compute; reflexivity|vm_compute; reflexivity].
    exists 5%nat, (GraphUtils.get mp 5%nat). split; [vm_compute; reflexivity|]. split; [vm_compute; reflexivity|]. vm_compute. by split.
Defined.
End DriverSpec.
