(* ===== verification/Runtime.v ===== *)
(** * The driver and its client

    Models how an interpreter drives the exploration: the protocol of the calls
    ([CALL_DRIVER], the positions and the threads of lli/Runtime/Interpreter.{h,cpp}), the
    loop that runs one execution ([Interpreter::run], lli/Runtime/Execution.cpp), and the
    loop over all executions ([run], lli/main.cpp), with the label cache switched off.
    What an instruction does, and the state of a thread, are those of LLVM: they are
    arguments. *)

From S2P Require Import Prelude Values Addresses Events VSet Views IntervalMap AdaptiveView ExecutionState SymExpr Labels Graph Relations Cut Search Automata Checkable Scripts GraphUtils Calc Symmetry Clocks AccessValues Errors Revisits.
From S2P Require Import Checkers Revisiting Config Bounds Scheduler Copy Driver Accesses Exploration.
Import EventLabel Graph ConsistencyChecker Driver Accesses Exploration.
Local Open Scope Z_scope.

Module Interpreter.
Section interpreter.
Context {R : Type} `{Env R}.
(** The state of a thread: that of a new one, and the kind of its next instruction. *)
Context {T : Type} (entry : ThreadInfo -> T) (getInstKind : T -> ActionKind).

(** [dynState]: the current thread, the threads, and the position of each. *)
Record DynState := MkDynState { currentThread : Z; threads : list (ThreadInfo * T); globalInstructions : list Action }.
Context (visit : DynState -> M R DynState).

Definition main_info : ThreadInfo := Build_ThreadInfo 0 (-1) 0 SVal.default (-1).
(** In a replay the thread exists already. *)
Definition addNewThread (ti : ThreadInfo) (s : DynState) : res DynState :=
  if ti_id ti <? Z.of_nat (length (threads s)) then
    exstThr ← vec_at (threads s) (ti_id ti);
    verify ((ti_id exstThr.1 =? ti_id ti) && (ti_parentId exstThr.1 =? ti_parentId ti) && (ti_funId exstThr.1 =? ti_funId ti));; Ok s
  else
  verify (ti_id ti =? Z.of_nat (length (threads s)));;
  let thr := entry ti in
  Ok (MkDynState (currentThread s) (threads s ++ [(ti, thr)]) (globalInstructions s ++ [MkAction (getInstKind thr) (Event.Event (ti_id ti) 0)])).
Definition setExecutionContext (tis : list ThreadInfo) (s : DynState) : res DynState :=
  foldM (fun s ti => addNewThread ti s) (MkDynState (currentThread s) [] []) (main_info :: tis).
Definition createExecutionContext (g : Graph.t) : res (list ThreadInfo) :=
  foldM (fun tis i => b ← getFirstThreadLabel g i; verify (bool_decide (is_Some b));; b ← deref b; l ← label g b; Ok (tis ++ [threadInfo l]))
    [] (seqZ 1 (getNumThreads g - 1)).

Definition getCurThr (s : DynState) : res T := t ← vec_at (threads s) (currentThread s); Ok t.2.
Definition setCurThr (thr : T) (s : DynState) : res DynState :=
  t ← vec_at (threads s) (currentThread s); ts ← vec_set (threads s) (currentThread s) (t.1, thr); Ok (MkDynState (currentThread s) ts (globalInstructions s)).
Definition currPos (s : DynState) : res Event.t := a ← vec_at (globalInstructions s) (currentThread s); Ok (event a).
Definition incPos (n : Z) (s : DynState) : res DynState :=
  a ← vec_at (globalInstructions s) (currentThread s); let pos := event a in
  acts ← vec_set (globalInstructions s) (currentThread s) (MkAction (action_kind a) (Event.Event (Event.thread pos) (Event.index pos + n)));
  Ok (MkDynState (currentThread s) (threads s) acts).
(** [CALL_DRIVER]: after a [Reset] the instruction is taken back. *)
Definition CALL_DRIVER {A} (method : Event.t -> M R (HandleResult A)) (undo : T -> T) (s : DynState) : M R (ResultType A * DynState) :=
  pos ← lift (currPos s); r ← method pos;
  s ← lift (match r.1 with Reset => thr ← getCurThr s; setCurThr (undo thr) s | _ => Ok s end);
  s ← lift (incPos r.2 s); mret (r.1, s).

(** The kind of the next instruction, once the current one has been executed. *)
Definition next_kind (s : DynState) : res DynState :=
  thr ← getCurThr s; a ← vec_at (globalInstructions s) (currentThread s);
  acts ← vec_set (globalInstructions s) (currentThread s) (MkAction (getInstKind thr) (event a));
  Ok (MkDynState (currentThread s) (threads s) acts).
Fixpoint run (fuel : nat) (s : DynState) : M R DynState :=
  match fuel with
  | O => lift (Abort OutOfFuel)
  | S fuel =>
      tid ← scheduleNext (globalInstructions s);
      match tid with
      | Next tid => s ← visit (MkDynState tid (threads s) (globalInstructions s)); s ← lift (next_kind s); run fuel s
      | _ => mret s
      end
  end.
(** [run(driver, EE)]; [observe] looks at the end of each execution.  The executions of
    one exploration, the steps of one execution and the work items that fail between
    two executions are bounded by fuel. *)
Context {Obs : Type} (observe : DynState -> M R (option Obs)).
Fixpoint explore (executions steps items : nat) : M R (list Obs) :=
  match executions with
  | O => lift (Abort OutOfFuel)
  | S executions =>
      _ ← handleExecutionStart;
      g ← getGraph; tis ← lift (createExecutionContext g);
      s ← lift (setExecutionContext tis (MkDynState 0 [] [])); s ← run steps s;
      o ← observe s;
      _ ← handleExecutionEnd false true;
      b ← done items;
      if (b : bool) then mret (option_list o) else os ← explore executions steps items; mret (option_list o ++ os)
  end.
End interpreter.
Arguments DynState : clear implicits.
End Interpreter.
