(* ===== verification/Litmus.v ===== *)
(** * Exploring small programs

    A language of loads and stores as a client of the driver, and a reference semantics:
    a machine with store buffers that may be bypassed (TSO) or that are not used (SC).
    The theorems run the driver, from its construction to the last [done], on every
    program of two threads with two accesses each: the exploration ends, and the
    executions that it visits are those of the machine, each of them once. *)

From S2P Require Import Prelude Values Addresses Events VSet Views IntervalMap AdaptiveView ExecutionState SymExpr Labels Graph Relations Cut Search Automata Checkable Scripts GraphUtils Calc Symmetry Clocks AccessValues Errors Revisits.
From S2P Require Import Checkers Revisiting Config Bounds Scheduler Copy Driver Accesses Exploration Runtime.
Import EventLabel Graph ConsistencyChecker Driver Accesses Exploration.
Local Open Scope Z_scope.

Module Litmus.

(** ** Programs *)
Inductive var := X | Y.
Inductive instr := Store (a : var) (v : Z) | Load (a : var) | Create (t : nat) | Join (t : nat).
#[global] Instance var_eq_dec : EqDecision var. Proof. solve_decision. Defined.
Definition program : Type := list (list instr).
(** A thread: what it has to execute, what it has executed last, and what it has read. *)
Record thread := Thread { code : list instr; last_instr : list instr; read_values : list Z }.

Section client.
Context (p : program) (x y : SAddr.t) `{Env unit}.
Definition address (a : var) : SAddr.t := match a with X => x | Y => y end.
Definition entry (ti : ThreadInfo) : thread := Thread (default [] (p !! Z.to_nat (ti_id ti))) [] [].
Definition getInstKind (thr : thread) : ActionKind := match code thr with Load _ :: _ => Scheduler.Load | _ => NonLoad end.
Definition advance (thr : thread) : thread := match code thr with [] => thr | i :: is' => Thread is' [i] (read_values thr) end.
Definition undo (thr : thread) : thread := Thread (last_instr thr ++ code thr) [] (read_values thr).
Definition returns (v : Z) (thr : thread) : thread := Thread (code thr) (last_instr thr) (read_values thr ++ [v]).
Abbreviation dyn := (Interpreter.DynState thread).

(** The number of a created thread is that of its code. *)
Definition visit (s : dyn) : M unit dyn :=
  thr ← lift (Interpreter.getCurThr s); s ← lift (Interpreter.setCurThr (advance thr) s);
  match code thr with
  | [] => r ← Interpreter.CALL_DRIVER (handleThreadFinish SVal.default true) undo s; mret r.2
  | Store a v :: _ =>
      r ← Interpreter.CALL_DRIVER (handleAtomicStore (fun pos => mkWrite Kind.Write pos MemOrdering.Relaxed (address a) 4 (SVal.ofValue v) WriteAttr_None noDeps) None true) undo s;
      mret r.2
  | Load a :: _ =>
      r ← Interpreter.CALL_DRIVER (handleAtomicLoad (fun pos => mkRead Kind.Read pos MemOrdering.Relaxed (address a) 4 None None noDeps) None true) undo s;
      match r.1 with
      | Value v => lift (thr ← Interpreter.getCurThr r.2; Interpreter.setCurThr (returns (SVal.value v) thr) r.2)
      | _ => mret r.2
      end
  | Create t :: _ =>
      let info id := Build_ThreadInfo id (Interpreter.currentThread s) (Z.of_nat t) SVal.default (-1) in
      r ← Interpreter.CALL_DRIVER (handleThreadCreate (info (Z.of_nat t)) noDeps true) undo s;
      match r.1 with
      | Value id => lift (Interpreter.addNewThread entry getInstKind (info id) r.2)
      | _ => mret r.2
      end
  | Join t :: _ => r ← Interpreter.CALL_DRIVER (handleThreadJoin (Z.of_nat t) noDeps true) undo s; mret r.2
  end.

(** What an execution shows: the values that the threads read, and the values of the
    stores to each location in coherence order.  Abandoned executions show nothing. *)
Definition outcome : Type := list (list Z) * list Z * list Z.
Definition coherence_values (a : SAddr.t) : M unit (list Z) :=
  ask (fun g => foldM (fun vs w => l ← label g w; Ok (vs ++ [SVal.value (value l)])) [] (list_at (Graph.coherence g) a)).
Definition observe (s : dyn) : M unit (option outcome) :=
  m ← isMoot; if (m : bool) then mret None else
  cx ← coherence_values x; cy ← coherence_values y; mret (Some (map (fun t => read_values t.2) (Interpreter.threads s), cx, cy)).
End client.

(** A verification: the two locations are initialized with zeros, and everything that
    could cut the exploration short is off. *)
Definition conf (m : ModelType) : Config.t := Config.Config Config.verify m false None Config.bound_none false false false false true true false false true true true false
  false None None true true 0 Config.WF None false false.
Definition env (m : ModelType) : Env unit :=
  {| Driver.conf := conf m; dbg := true; consChecker := create m; mem := fun _ => 0; dist := fun n r => (n, r);
     destroyed := fun det => det |}.
Definition verify_program (m : ModelType) (p : program) : res (list outcome * t unit) :=
  let _ := env m in
  d ← create_driver VerificationMode tt tt;
  (x ← allocateGlobal 4 4 64 false false; y ← allocateGlobal 4 4 64 false false;
   Interpreter.explore (entry p) getInstKind (visit p x y) (observe x y) 100 100 100) d.

(** ** The reference *)
(** A thread of the machine: its code, its buffer, the oldest store first, and what it has read. *)
Record mthread := MThread { m_code : list instr; m_buffer : list (var * Z); m_read : list Z }.
(** The memory remembers every store that has reached it. *)
Record machine := Machine { m_threads : list mthread; m_x : list Z; m_y : list Z }.
Definition memory (a : var) (s : machine) : list Z := match a with X => m_x s | Y => m_y s end.
Definition write (a : var) (v : Z) (s : machine) : machine :=
  match a with X => Machine (m_threads s) (m_x s ++ [v]) (m_y s) | Y => Machine (m_threads s) (m_x s) (m_y s ++ [v]) end.
Definition on_thread (i : nat) (t : mthread) (s : machine) : machine := Machine (<[i := t]> (m_threads s)) (m_x s) (m_y s).
Fixpoint newest (a : var) (b : list (var * Z)) (v : Z) : Z :=
  match b with [] => v | (a', v') :: b => newest a b (if bool_decide (a = a') then v' else v) end.

Section machine.
Context (buffered : bool).
Definition execute (s : machine) (i : nat) (t : mthread) : list machine :=
  match m_code t with
  | Store a v :: c =>
      if buffered then [on_thread i (MThread c (m_buffer t ++ [(a, v)]) (m_read t)) s]
      else [write a v (on_thread i (MThread c (m_buffer t) (m_read t)) s)]
  | Load a :: c => [on_thread i (MThread c (m_buffer t) (m_read t ++ [newest a (m_buffer t) (List.last (memory a s) 0)])) s]
  | _ => []
  end.
Definition flush (s : machine) (i : nat) (t : mthread) : list machine :=
  match m_buffer t with (a, v) :: b => [write a v (on_thread i (MThread (m_code t) b (m_read t)) s)] | [] => [] end.
Definition steps (s : machine) : list machine := concat (imap (fun i t => execute s i t ++ flush s i t) (m_threads s)).
(** The first thread only creates the others. *)
Definition shown (s : machine) : outcome := ([] :: map m_read (m_threads s), m_x s, m_y s).
Inductive behaves : machine -> outcome -> Prop :=
  | behaves_end s : steps s = [] -> behaves s (shown s)
  | behaves_step s s' o : s' ∈ steps s -> behaves s' o -> behaves s o.

(** Every behaviour, for machines that stop within the fuel. *)
Fixpoint behaviours (fuel : nat) (s : machine) : option (list outcome) :=
  match fuel with
  | O => None
  | S fuel => match steps s with [] => Some [shown s] | ss => os ← mapM (behaviours fuel) ss; Some (mjoin os) end
  end.
Lemma behaviours_correct fuel s os : behaviours fuel s = Some os -> forall o, o ∈ os <-> behaves s o.
Proof.
  revert s os. induction fuel as [|fuel IH]; intros s os; [done|]. cbn [behaviours].
  destruct (steps s) as [|s1 ss] eqn:E.
  - intros [= <-] o. rewrite list_elem_of_singleton. split; [intros ->; by apply behaves_end|].
    intros Hb. inversion Hb as [|? s' ? Hs']; subst; [done|]. rewrite E in Hs'. by apply elem_of_nil in Hs'.
  - assert (steps s <> []) as Hne by (by rewrite E). rewrite <- E. clear s1 ss E. destruct (mapM (behaviours fuel) (steps s)) as [oss|] eqn:E; [|done]. intros [= <-] o.
    apply mapM_Some in E. rewrite list_elem_of_join. split.
    + intros (os & Ho & Hos). apply list_elem_of_lookup in Hos as [k Hk]. destruct (Forall2_lookup_r _ _ _ _ _ E Hk) as (s' & Hs' & Es').
      apply (behaves_step s s'); [by eapply list_elem_of_lookup_2|]. by apply (IH s' os Es').
    + intros Hb. inversion Hb as [? Hs|? s' ? Hs' Hb']; subst.
      { done. }
      apply list_elem_of_lookup in Hs' as [k Hk]. destruct (Forall2_lookup_l _ _ _ _ _ E Hk) as (os & Hos & Es').
      exists os. split; [by apply (IH s' os Es')|by eapply list_elem_of_lookup_2].
Qed.
End machine.

(** ** All programs of two threads with two accesses each *)
Definition accesses (v : Z) : list instr := [Store X v; Store Y v; Load X; Load Y].
(** Up to the names of the locations. *)
Definition two_by_two (a b c d : instr) : Prop := a ∈ [Store X 1; Load X] /\ b ∈ accesses 2 /\ c ∈ accesses 3 /\ d ∈ accesses 4.
Definition program_of (a b c d : instr) : program := [[Create 1; Create 2]; [a; b]; [c; d]].
Definition machine_of (a b c d : instr) : machine := Machine [MThread [a; b] [] []; MThread [c; d] [] []] [] [].
(** The exploration ends, without an error, and visits the behaviours of the machine,
    each of them once. *)
Definition explores (m : ModelType) (buffered : bool) (a b c d : instr) : Prop :=
  exists os d', verify_program m (program_of a b c d) = Ok (os, d') /\ NoDup os /\
    (forall o, o ∈ os <-> behaves buffered (machine_of a b c d) o) /\
    status (result d') = None /\ explored (result d') = Z.of_nat (length os).
Definition agrees (m : ModelType) (buffered : bool) (a b c d : instr) : bool :=
  match verify_program m (program_of a b c d), behaviours buffered 9 (machine_of a b c d) with
  | Ok (os, d'), Some os' =>
      bool_decide (NoDup os) && forallb (fun o => bool_decide (o ∈ os')) os && forallb (fun o => bool_decide (o ∈ os)) os' &&
      bool_decide (status (result d') = None) && (explored (result d') =? Z.of_nat (length os))
  | _, _ => false
  end.
Definition all_agree (m : ModelType) (buffered : bool) : bool :=
  forallb (fun a => forallb (fun b => forallb (fun c => forallb (agrees m buffered a b c) (accesses 4)) (accesses 3)) (accesses 2)) [Store X 1; Load X].
Lemma forallb_elem {A} (f : A -> bool) l x : forallb f l = true -> x ∈ l -> f x = true.
Proof. rewrite forallb_forall, list_elem_of_In. auto. Qed.
Lemma agrees_explores m buffered a b c d : agrees m buffered a b c d = true -> explores m buffered a b c d.
Proof.
  unfold agrees, explores. destruct (verify_program m _) as [[os d']|]; [|done]. destruct (behaviours buffered 9 _) as [os'|] eqn:E; [|done].
  rewrite !andb_true_iff, !bool_decide_eq_true. intros [[[[Hnd H1] H2] Hs] He]. exists os, d'. split_and!; try done; [|by apply Z.eqb_eq].
  intros o. rewrite <- (behaviours_correct buffered 9 _ os' E o).
  split; intros Ho; [apply (forallb_elem _ _ _ H1) in Ho|apply (forallb_elem _ _ _ H2) in Ho]; by apply bool_decide_eq_true in Ho.
Qed.
Lemma all_agree_explores m buffered a b c d : all_agree m buffered = true -> two_by_two a b c d -> explores m buffered a b c d.
Proof.
  intros Hall (Ha & Hb & Hc & Hd). apply agrees_explores.
  apply (forallb_elem _ _ _ (forallb_elem _ _ _ (forallb_elem _ _ _ (forallb_elem _ _ _ Hall Ha) Hb) Hc) Hd).
Qed.

(** C1: Under SC the driver explores every program of two threads with two accesses each
    to the end, without an error, and visits each execution of the interleaving machine -
    the values that are read and the coherence orders - exactly once. *)
Theorem sc_exploration_correct a b c d : two_by_two a b c d -> explores SC false a b c d.
Proof. apply all_agree_explores. vm_compute. reflexivity. Qed.
(** C2: Under TSO the driver explores the same programs to the end, without an error, and
    visits each execution of the machine with store buffers exactly once. *)
Theorem tso_exploration_correct a b c d : two_by_two a b c d -> explores TSO true a b c d.
Proof. apply all_agree_explores. vm_compute. reflexivity. Qed.

Lemma store_buffering_small : two_by_two (Store X 1) (Load Y) (Store Y 3) (Load X).
Proof. split_and!; unfold accesses; repeat (first [by left|right]). Qed.
Lemma sc_exploration_correct_witness : two_by_two (Store X 1) (Load Y) (Store Y 3) (Load X) /\ explores SC false (Store X 1) (Load Y) (Store Y 3) (Load X).
Proof. split; [exact store_buffering_small|]. apply (sc_exploration_correct (Store X 1) (Load Y) (Store Y 3) (Load X)). exact store_buffering_small. Defined.
Lemma tso_exploration_correct_witness : two_by_two (Store X 1) (Load Y) (Store Y 3) (Load X) /\ explores TSO true (Store X 1) (Load Y) (Store Y 3) (Load X).
Proof. split; [exact store_buffering_small|]. apply (tso_exploration_correct (Store X 1) (Load Y) (Store Y 3) (Load X)). exact store_buffering_small. Defined.

(** ** More programs *)
(** The executions that are visited, and what has been found. *)
Definition visited (m : ModelType) (p : program) : option (nat * VerificationResult) :=
  match verify_program m p with Ok (os, d) => Some (length os, result d) | Abort _ => None end.
(** Three unordered stores: a warning is replayed on the way. *)
Example unordered_stores : visited RC11 [[Create 1; Create 2; Store X 5]; [Store X 1]; [Store X 3]] = Some (6%nat, Result None [VerificationError.VE_WWRace] 6 0 0).
Proof. vm_compute. reflexivity. Qed.
(** Independent reads of independent writes. *)
Definition iriw : program := [[Create 1; Create 2; Create 3; Create 4]; [Store X 1]; [Store Y 1]; [Load X; Load Y]; [Load Y; Load X]].
Example iriw_sc : visited SC iriw = Some (15%nat, Result None [] 15 0 0).
Proof. vm_compute. reflexivity. Qed.
Example iriw_ra : visited RA iriw = Some (16%nat, Result None [] 16 0 0).
Proof. vm_compute. reflexivity. Qed.
(** Joins: the main thread reads after both others have finished. *)
Example joins : visited SC [[Create 1; Create 2; Join 1; Join 2; Load X]; [Store X 1; Load Y]; [Store Y 3; Load X]] = Some (3%nat, Result None [] 3 0 0).
Proof. vm_compute. reflexivity. Qed.
End Litmus.
