(* ===== verification/ErrorSpec.v ===== *)
(** * What the reported errors mean

    The checks of [Errors] against what the execution did ([StateSpec]): the visits find
    a label exactly when there is one, the labels of the latest accesses stand for all
    the accesses that meet the new one, and the verdict of the four checkers that report
    errors names a violation exactly when there is one. *)

From S2P Require Import Prelude Values Addresses Events VSet Views IntervalMap AdaptiveView ExecutionState StateSpec Labels Graph Relations Cut Search Automata Checkable Scripts.
From S2P Require Import Calc Errors SCChecker TSOChecker RAChecker RC11Checker IMMChecker Checkers.
Import EventLabel Graph.
Local Open Scope Z_scope.

Module ErrorSpec.
Import Automaton ExecutionState StateSpec Errors VerificationError.

(** ** Visits *)
Section visits.
Context (g : Graph.t) (mark : lid -> option lid -> option lid).
(** The visit stops at a label that is [bad], if there is one. *)
Definition finds (r : res (bool * option lid)) (cex : option lid) (bad : lid -> Prop) : Prop :=
  (r = Ok (true, cex) /\ forall i, ~ bad i) \/ exists i, bad i /\ r = Ok (false, mark i cex).
Lemma finds_ext r cex (bad bad' : lid -> Prop) : (forall i, bad i <-> bad' i) -> finds r cex bad -> finds r cex bad'.
Proof. intros E [[-> Hn]|(i & Hi & ->)]; [left; split; [done|]; intros i; by rewrite <- E|right; exists i; by rewrite <- E]. Qed.

Context (f : lid -> visit) (bad : lid -> Prop).
Lemma finds_range l cex : (forall i, i ∈ l -> finds (f i cex) cex (fun j => j = i /\ bad i)) ->
  finds (visit_range f [] g (map Ok l) cex) cex (fun i => i ∈ l /\ bad i).
Proof.
  induction l as [|i l IH]; intros Hl; cbn [map visit_range].
  - left. split; [done|]. by intros i [?%not_elem_of_nil _].
  - cbn [mbind res_bind holds]. destruct (Hl i) as [[-> Hn]|(j & [-> Hb] & ->)]; [by left| |]; cbn [mbind res_bind].
    + destruct IH as [[-> Hn']|(j & [Hj Hb] & ->)]; [intros; apply Hl; by right|left; split; [done|]|right; exists j; split; [|done]; split; [by right|done]].
      intros j [[->|Hj]%elem_of_cons Hb]; [by apply (Hn i)|by apply (Hn' j)].
    + right. exists i. split; [|done]. split; [by left|done].
Qed.
(** The labels that an edge leads to. *)
Definition leads (e : uedge) (lab : lid) (l : list lid) : Prop :=
  next e = [] /\ exists b, holds (on e) g lab = Ok b /\ if (b : bool) then via e g lab = Ok (map Ok l) else l = [].
Lemma finds_edges es lab ls cex : Forall2 (fun e l => leads e lab l) es ls ->
  (forall i, i ∈ concat ls -> finds (f i cex) cex (fun j => j = i /\ bad i)) ->
  finds (visit_edges f es g lab cex) cex (fun i => i ∈ concat ls /\ bad i).
Proof.
  induction 1 as [|e l es ls (Hn & b & Hb & Hv) _ IH]; intros Hf; cbn [visit_edges concat].
  - left. split; [done|]. by intros i [?%not_elem_of_nil _].
  - rewrite Hb. cbn [mbind res_bind].
    assert (Hr : finds (if b then ps ← via e g lab; visit_range f (next e) g ps cex else Ok (true, cex)) cex (fun i => i ∈ l /\ bad i)).
    { destruct b; [|subst l; left; split; [done|]; by intros i [?%not_elem_of_nil _]]. rewrite Hv, Hn. cbn [mbind res_bind].
      apply finds_range. intros i Hi. apply Hf. cbn [concat]. apply elem_of_app. by left. }
    destruct Hr as [[-> Hno]|(i & [Hi Hbad] & ->)]; cbn [mbind res_bind].
    + destruct IH as [[-> Hno']|(i & [Hi Hbad] & ->)]; [intros i Hi; apply Hf; cbn [concat]; apply elem_of_app; by right|left|right].
      * split; [done|]. intros i [[Hi|Hi]%elem_of_app Hbad]; [by apply (Hno i)|by apply (Hno' i)].
      * exists i. split; [|done]. split; [apply elem_of_app; by right|done].
    + right. exists i. split; [|done]. split; [apply elem_of_app; by left|done].
Qed.
End visits.
Definition mark_found : lid -> option lid -> option lid := fun i _ => Some i.
Definition mark_none : lid -> option lid -> option lid := fun _ cex => cex.
Lemma finds_none i cex : finds mark_none (visit_none i cex) cex (fun j => j = i /\ True).
Proof. right. by exists i. Qed.
Lemma no_uncovered n : forall i, uncovered (replicate n false) (replicate n false) i = None.
Proof. induction n as [|n IH]; intros i; cbn; [done|apply IH]. Qed.
Lemma finds_unless_none g es lab cex bad : finds mark_none (visit_edges visit_none es g lab cex) cex bad -> finds mark_none (unless_none g visit_none es lab cex) cex bad.
Proof.
  unfold unless_none. intros [[-> Hn]|(i & Hi & ->)]; cbn [mbind res_bind negb].
  - left. split; [|done]. by rewrite no_uncovered.
  - right. by exists i.
Qed.

(** ** The labels of an adaptive view *)
Section spec.
Context {V : Type} `{ViewLaws V}.
Lemma foldM_snoc {A B} (f : A -> res B) (g : A -> B) l : forall acc, (forall x, x ∈ l -> f x = Ok (g x)) ->
  foldM (fun acc x => y ← f x; Ok (acc ++ [y])) acc l = Ok (acc ++ map g l).
Proof.
  induction l as [|x l IH]; intros acc Hl; cbn [foldM map]; [by rewrite app_nil_r|].
  rewrite Hl by (by left). cbn [mbind res_bind]. rewrite IH by (intros; apply Hl; by right). by rewrite <- app_assoc.
Qed.
Lemma map_seq_list {A} (d : A) l : map (fun i => default d (l !! i)) (seq 0 (length l)) = l.
Proof.
  apply list_eq. intros i. rewrite list_lookup_fmap. destruct (decide (i < length l)%nat) as [Hi|Hi].
  - rewrite lookup_seq_lt by done. cbn. by destruct (lookup_lt_is_Some_2 l i Hi) as [x ->].
  - rewrite lookup_seq_ge by lia. symmetry. apply lookup_ge_None. lia.
Qed.
(** The events that the view lists stand for all it has seen. *)
Lemma events_ok (a : AdaptiveView.t V) : AdaptiveView.wf a -> exists es, AdaptiveView.events a = Ok es /\
  (forall e, e ∈ es -> AdaptiveView.valid e) /\
  forall f, (forall t, 0 <= t -> 0 <= f t) -> AdaptiveView.below (AdaptiveView.clock a) f <-> forall e, e ∈ es -> Event.index e <= f (Event.thread e).
Proof.
  intros Ha. unfold AdaptiveView.events. destruct a as [e|es|v|e v|]; cbn [AdaptiveView.size AdaptiveView.clock].
  - exists [e]. split; [done|]. split; [by intros ? ->%list_elem_of_singleton|]. intros f Hf. rewrite AdaptiveView.one_below by done.
    split; [by intros ? ? ->%list_elem_of_singleton|]. intros Hall. apply Hall. by left.
  - exists es. split; [|split; [by apply Forall_forall|]; intros f Hf; by apply AdaptiveView.many_below]. rewrite Nat2Z.id.
    cbn [AdaptiveView.at_]. rewrite (foldM_snoc _ (fun i => default Event.default (es !! i))); [by rewrite map_seq_list|].
    intros i [_ Hi]%elem_of_seq. cbn in Hi. by destruct (lookup_lt_is_Some_2 es i Hi) as [x ->].
  - destruct (v_size_ok v 0 Ha) as [Hs _]. exists (map (fun i => Event.Event (Z.of_nat i) (v_clock v (Z.of_nat i))) (seq 0 (Z.to_nat (v_size v)))).
    split; [|split].
    + cbn [AdaptiveView.at_]. rewrite (foldM_snoc _ (fun i => Event.Event (Z.of_nat i) (v_clock v (Z.of_nat i)))); [done|].
      intros i _. by rewrite v_getMax_ok by (done || lia).
    + intros e (i & -> & _)%list_elem_of_fmap. split; cbn; [lia|by apply v_nonneg].
    + intros f Hf. split.
      * intros Hb e (i & -> & _)%list_elem_of_fmap. cbn. apply Hb. lia.
      * intros Hall t Ht. destruct (Z.lt_ge_cases t (v_size v)) as [Hlt|Hge].
        -- specialize (Hall (Event.Event t (v_clock v t))). cbn in Hall. apply Hall. apply list_elem_of_fmap. exists (Z.to_nat t). rewrite Z2Nat.id by lia.
           split; [done|]. apply elem_of_seq. lia.
        -- destruct (v_size_ok v t Ha) as [_ E]. rewrite E by done. by apply Hf.
  - exists [e]. destruct Ha as [He _]. split; [done|]. split; [by intros ? ->%list_elem_of_singleton|]. intros f Hf. rewrite AdaptiveView.one_below by done.
    split; [by intros ? ? ->%list_elem_of_singleton|]. intros Hall. apply Hall. by left.
  - exists []. split; [done|]. split; [by intros ? ?%not_elem_of_nil|]. intros f Hf. split; [by intros _ ? ?%not_elem_of_nil|by intros _ t Ht; apply Hf].
Qed.
(** An event whose label is in the graph. *)
Definition has_label (g : Graph.t) (e : Event.t) : Prop := exists i l, getEventLabel g e = Ok i /\ label g i = Ok l /\ position l = e.
Definition listed (g : Graph.t) (q : res (AdaptiveView.t V)) : Prop := forall x es e, q = Ok x -> AdaptiveView.events x = Ok es -> e ∈ es -> has_label g e.
Lemma labels_of g es : (forall e, e ∈ es -> has_label g e) -> exists js, map (getEventLabel g) es = map Ok js /\
  Forall2 (fun i e => exists l, label g i = Ok l /\ position l = e) js es.
Proof.
  induction es as [|e es IH]; intros Hes; [by exists []|]. destruct (Hes e) as (i & l & Ei & Hl & Hp); [by left|].
  destruct IH as (js & Em & HF); [intros; apply Hes; by right|]. exists (i :: js). cbn. rewrite Ei, Em. split; [done|]. constructor; [by exists l|done].
Qed.
(** ** What the labels of a range have not seen *)
Context (g : Graph.t) (u : V) (Hu : v_wf u).
Definition missing (i : lid) : Prop := exists l, label g i = Ok l /\ ~ seen u (position l).
Definition misses (P : Event.t -> Prop) : Prop := exists e, P e /\ ~ seen u e.
Definition finite (P : Event.t -> Prop) : Prop := exists es : list Event.t, forall e, e ∈ es <-> P e.
(** The labels stand for the events: one of them is missing exactly when one of the
    events is. *)
Definition stands_for (js : list lid) (P : Event.t -> Prop) : Prop :=
  (forall i, i ∈ js -> exists l, label g i = Ok l /\ AdaptiveView.valid (position l)) /\ ((exists i, i ∈ js /\ missing i) <-> misses P).
#[local] Instance seen_dec e : Decision (seen u e).
Proof. unfold seen. apply _. Defined.
Lemma misses_list (es : list Event.t) : ~ (forall e, e ∈ es -> seen u e) -> exists e, e ∈ es /\ ~ seen u e.
Proof.
  intros Hn. destruct (decide (Exists (fun e => ~ seen u e) es)) as [[e He]%Exists_exists|Hno]; [by exists e|]. exfalso. apply Hn.
  apply Forall_forall. apply not_Exists_Forall in Hno; [|apply _]. eapply Forall_impl; [exact Hno|]. intros e He. cbn in He. by destruct (decide (seen u e)).
Qed.
Lemma listed_range x P : AdaptiveView.wf x -> listed g (Ok x) -> finite P ->
  (AdaptiveView.below (AdaptiveView.clock x) (v_clock u) <-> forall e, P e -> seen u e) ->
  exists js, each_event g (Ok x) = Ok (map Ok js) /\ stands_for js P.
Proof.
  intros Hx Hl [ps Hps] HP. destruct (events_ok x Hx) as (es & E & Hv & Hb). destruct (labels_of g es) as (js & Em & HF); [intros e He; by apply (Hl x es e)|].
  exists js. unfold each_event. cbn [mbind res_bind]. rewrite E. cbn [mbind res_bind]. rewrite Em. split; [done|].
  rewrite Hb in HP by (by apply nonneg_clock). split.
  - intros i Hi. apply list_elem_of_lookup in Hi as [k Hk]. destruct (Forall2_lookup_l _ _ _ _ _ HF Hk) as (e & He & l & Hl' & <-).
    exists l. split; [done|]. apply Hv. by eapply list_elem_of_lookup_2.
  - split.
    + intros (i & Hi & l & Hl' & Hns). apply list_elem_of_lookup in Hi as [k Hk]. destruct (Forall2_lookup_l _ _ _ _ _ HF Hk) as (e & He & l' & Hl2 & Ep).
      assert (l' = l) as -> by congruence. destruct (misses_list ps) as (e' & He' & Hns'); [|exists e'; split; [by apply Hps|done]].
      intros Hall. apply Hns. rewrite Ep. apply HP; [intros e' He'; by apply Hall, Hps|]. by eapply list_elem_of_lookup_2.
    + intros (e & He & Hns). destruct (misses_list es) as (e' & He' & Hns'); [intros Hall; apply Hns; exact (proj1 HP Hall e He)|].
      apply list_elem_of_lookup in He' as [k Hk]. destruct (Forall2_lookup_r _ _ _ _ _ HF Hk) as (i & Hi & l & Hl' & <-).
      exists i. split; [by eapply list_elem_of_lookup_2|]. by exists l.
Qed.
Lemma stands_for_none P : (forall e, ~ P e) -> stands_for [] P.
Proof. intros Hn. split; [by intros ? ?%not_elem_of_nil|]. split; [by intros (i & ?%not_elem_of_nil & _)|by intros (e & He & _); destruct (Hn e)]. Qed.
Lemma stands_for_app js js' P P' : stands_for js P -> stands_for js' P' -> stands_for (js ++ js') (fun e => P e \/ P' e).
Proof.
  intros [H1 H2] [H3 H4]. split; [intros i [?|?]%elem_of_app; auto|]. split.
  - intros (i & [Hi|Hi]%elem_of_app & Hm).
    + destruct (proj1 H2) as (e & ? & ?); [by exists i|]. exists e. auto.
    + destruct (proj1 H4) as (e & ? & ?); [by exists i|]. exists e. auto.
  - intros (e & [He|He] & Hns).
    + destruct (proj2 H2) as (i & ? & ?); [by exists e|]. exists i. split; [apply elem_of_app; auto|done].
    + destruct (proj2 H4) as (i & ? & ?); [by exists e|]. exists i. split; [apply elem_of_app; auto|done].
Qed.
End spec.

(** ** Answers of the checks *)
Section answers.
(** A check fails exactly when [Q], with a counterexample that satisfies [W]. *)
Definition answers (r : res (bool * option lid)) (cex : option lid) (Q : Prop) (W : option lid -> Prop) : Prop :=
  (r = Ok (true, cex) /\ ~ Q) \/ (Q /\ exists c, r = Ok (false, c) /\ W c).
Lemma answers_iff r cex (Q Q' : Prop) W : (Q <-> Q') -> answers r cex Q W -> answers r cex Q' W.
Proof. intros E [[-> Hn]|(HQ & Hc)]; [left; by rewrite <- E|right; split; [by apply E|done]]. Qed.
(** The verdict names the first violation of a list. *)
Definition first_of (vs : list (VerificationError.t * Prop)) (o : option VerificationError.t) : Prop :=
  (o = None /\ Forall (fun x => ~ x.2) vs) \/
  exists before code Q after, vs = before ++ (code, Q) :: after /\ Forall (fun x => ~ x.2) before /\ Q /\ o = Some code.
Lemma first_of_skip code (Q : Prop) vs o : ~ Q -> first_of vs o -> first_of ((code, Q) :: vs) o.
Proof.
  intros HQ [[-> Hn]|(b & c & Q' & a & -> & Hb & HQ' & ->)]; [left; split; [done|by constructor]|].
  right. exists ((code, Q) :: b), c, Q', a. split; [done|]. split; [by constructor|done].
Qed.
Lemma report_ok cs vs race cex (W : VerificationError.t -> option lid -> Prop) :
  Forall2 (fun (c : visit * VerificationError.t) (v : VerificationError.t * Prop) => c.2 = v.1 /\ forall cex, answers (c.1 cex) cex v.2 (W v.1)) cs vs ->
  exists o race' cex', report cs race cex = Ok (o, race', cex') /\ first_of vs o /\ match o with Some c => W c race' | None => race' = race end.
Proof.
  induction 1 as [|[c code] [code' Q] cs vs [E Hc] _ IH] in cex |- *; cbn [report].
  - exists None, race, cex. split; [done|]. split; [left; by split|done].
  - cbn in E. subst code'. destruct (Hc cex) as [[E HQ]|(HQ & c' & E & HW)]; cbn [fst snd] in E; rewrite E; cbn [mbind res_bind].
    + destruct (IH cex) as (o & race' & cex' & -> & Ho & Hr). exists o, race', cex'. split; [done|]. split; [by apply first_of_skip|done].
    + exists (Some code), c', c'. split; [done|]. split; [|done]. right. exists [], code, Q, vs. by repeat split.
Qed.
End answers.

(** ** The verdict on a label *)
Section verdict.
Context {V : Type} `{ViewLaws V} (g : Graph.t) (st : Calc.t) (s : ExecutionState.t V) (tr : trace (V := V)) (lab : lid) (l : EventLabel.t) (u : V).
Definition allocation : AllocInfo := alloc_at tr (getAddr l).
(** The label is being checked after the operations of a run, with a view that is
    closed under them; the labels of the accesses of the run are in the graph. *)
Record observed : Prop := {
  ob_run : run s tr;
  ob_label : label g lab = Ok l;
  ob_wf : v_wf u;
  ob_closed : closed (hist access_of tr) u;
  ob_view : exists v, Calc.view g (Calc.calculatedViews st) lab 1 = Ok v /\
    forall e, 0 <= Event.thread e -> View.contains (Calc.heap st) v e = Ok (Event.index e <=? v_clock u (Event.thread e));
  ob_access : Class.isMem (kind l) = true -> AAccess.wf (EventLabel.access l);
  ob_allocated : Class.isMem (kind l) = true -> SAddr.isStatic (getAddr l) = false ->
    allocation <> AllocInfo_default /\ has_label g (pos allocation) /\ forall p, freePos allocation = Some p -> has_label g p;
  ob_base : kind l = Kind.HpRetire -> base tr (getAddr l) /\ listed g (getMaxUnprotectedView s (getAddr l));
  ob_listed : Class.isMem (kind l) = true -> Forall (listed g) [getMaxNAReadView s (EventLabel.access l);
    getMaxNAWriteEvent s (EventLabel.access l); getMaxAReadView s (EventLabel.access l); getMaxAWriteView s (EventLabel.access l)];
  ob_hazptr : Class.isMemAccess (kind l) = true -> SAddr.isDynamic (getAddr l) = true -> exists b, isHazptrProtected s g lab = Ok b
}.
(** The accesses of a kind that overlap an access. *)
Definition meeting (h : accesses (V := V)) (a : AAccess.t) (e : Event.t) : Prop := exists c v, (c, e, v) ∈ h /\ meets c a.
Definition freed : Prop := is_Some (freePos allocation) /\ isRetire allocation = false.
Definition retired : Prop := is_Some (freePos allocation) /\ isRetire allocation = true.
Definition is_write : Prop := Class.isWrite (kind l) = true.
Definition is_read : Prop := Class.isRead (kind l) = true.
Definition not_atomic : Prop := EventLabel.isNotAtomic l = true.
(** The accesses that race with the label: writes race with all, reads with writes, and
    one of the two is not atomic. *)
Definition conflicting (e : Event.t) : Prop :=
  (is_write /\ meeting (hist na_read tr) (EventLabel.access l) e) \/
  ((is_write \/ is_read) /\ last_writer tr (EventLabel.access l) e) \/
  (not_atomic /\ is_write /\ meeting (hist at_read tr) (EventLabel.access l) e) \/
  (not_atomic /\ (is_write \/ is_read) /\ meeting (hist at_write tr) (EventLabel.access l) e).
Definition accessed (e : Event.t) : Prop :=
  meeting (hist na_read tr) (EventLabel.access l) e \/ last_writer tr (EventLabel.access l) e \/
  meeting (hist at_read tr) (EventLabel.access l) e \/ meeting (hist at_write tr) (EventLabel.access l) e.
Definition violations : list (VerificationError.t * Prop) := [
  (VE_AccessNonMalloc, Class.isMem (kind l) = true /\ SAddr.isStatic (getAddr l) = false /\ ~ seen u (pos allocation));
  (VE_DoubleFree, Class.isFree (kind l) = true /\ SAddr.isStatic (getAddr l) = false /\ freed);
  (VE_AccessFreed, Class.isFree (kind l) = true /\ kind l <> Kind.HpRetire /\ misses u accessed);
  (VE_AccessFreed, Class.isMemAccess (kind l) = true /\ SAddr.isStatic (getAddr l) = false /\ freed);
  (VE_AccessFreed, kind l = Kind.HpRetire /\ misses u (meeting (StateSpec.unprotected tr) (ExecutionState.access allocation)));
  (VE_AccessFreed, Class.isMemAccess (kind l) = true /\ SAddr.isDynamic (getAddr l) = true /\ isHazptrProtected s g lab = Ok false /\ retired);
  (VE_RaceNotAtomic, misses u conflicting)].
(** *** Queries *)
Definition exact (q : res (AdaptiveView.t V)) (P : Event.t -> Prop) : Prop := exists x, q = Ok x /\ AdaptiveView.wf x /\ finite P /\
  (AdaptiveView.below (AdaptiveView.clock x) (v_clock u) <-> forall e, P e -> seen u e).
#[local] Instance meets_dec a b : Decision (meets a b).
Proof. unfold meets. apply _. Defined.
Lemma finite_meeting h a : finite (meeting h a).
Proof.
  exists (map (fun x => x.1.2) (filter (fun x : AAccess.t * Event.t * V => meets x.1.1 a) h)). intros e. rewrite list_elem_of_fmap. split.
  - intros ([[c e'] v] & -> & Hin). apply list_elem_of_filter in Hin as [Hm Hin]. by exists c, v.
  - intros (c & v & Hin & Hm). exists (c, e, v). split; [done|]. by apply list_elem_of_filter.
Qed.
Lemma exact_views m kind a : view_map_ok m (hist kind tr) -> (forall o x, kind o = Some x -> access_of o = Some x) -> AAccess.wf a -> v_wf u ->
  closed (hist access_of tr) u -> exact (getMaxView m a) (meeting (hist kind tr) a).
Proof.
  intros Hm Hk Ha Hu Hc. destruct (view_query m tr kind a u Hm Hk Ha Hu Hc) as (x & E & Hx & Hb). exists x. split; [done|]. split; [done|].
  split; [apply finite_meeting|]. rewrite Hb. split; [intros Hall e (c & v & Hin & Hme); by apply (Hall c e v)|intros Hall c e v Hin Hme; apply Hall; by exists c, v].
Qed.
Lemma exact_writers a : inv s tr -> AAccess.wf a -> v_wf u -> exact (getMaxNAWriteEvent s a) (last_writer tr a).
Proof.
  intros Hi Ha Hu. destruct (writers_ok _ tr a (i_nawrites _ _ Hi) Ha) as (es & E & Hes).
  assert (Hval : Forall AdaptiveView.valid es).
  { apply Forall_forall. intros e (p & _ & Hp)%Hes. by apply (write_event_valid tr p e (i_accesses _ _ Hi)). }
  exists (AdaptiveView.OfEvents es). split; [|split; [done|split; [by exists es|]]].
  - unfold getMaxNAWriteEvent. destruct (segments (lastNAWriteEvent_ s) a) as [x|]; cbn [mbind res_bind] in *; [|done]. by rewrite E.
  - cbn [AdaptiveView.clock]. rewrite AdaptiveView.many_below by (done || by apply nonneg_clock). split; intros Hall e He; apply Hall; by apply Hes.
Qed.
Lemma exact_unprotected q : inv s tr -> AAccess.wf (ExecutionState.access (alloc_at tr q)) -> base tr q -> v_wf u -> closed (hist access_of tr) u ->
  exact (getMaxUnprotectedView s q) (meeting (StateSpec.unprotected tr) (ExecutionState.access (alloc_at tr q))).
Proof.
  intros Hi Ha [Hne Hb] Hu Hc. unfold getMaxUnprotectedView. rewrite (getAllocAccess_ok s tr q (i_allocs _ _ Hi) Hne). cbn [mbind res_bind].
  rewrite Hb, Z.eqb_refl. cbn [verify mbind res_bind]. destruct (getMaxView_ok _ _ _ (i_unprotected _ _ Hi) Ha) as (x & E & Hx & Hv).
  exists x. split; [done|]. split; [done|]. split; [apply finite_meeting|]. rewrite Hv; [|done|].
  - split; [intros Hall e (c & v & Hin & Hme); by apply (Hall c e v)|intros Hall c e v Hin Hme; apply Hall; by exists c, v].
  - apply (closed_sub (StateSpec.unprotected tr) (hist access_of tr)); [|done]. intros y Hy. unfold StateSpec.unprotected in Hy.
    apply list_elem_of_omap in Hy as ([o b] & Hin & Ho). cbn in Ho. destruct b; [done|]. apply list_elem_of_omap. by exists (o, false).
Qed.

(** *** Edges *)
Context (Ho : observed).
Lemma lead_if gs (v : range) b js : holds gs g lab = Ok b -> (b = true -> v g lab = Ok (map Ok js)) -> leads g (UEdge gs v []) lab (if b then js else []).
Proof. intros Hb Hv. split; [done|]. exists b. split; [done|]. destruct b; [by apply Hv|done]. Qed.
Lemma range_lead gs (v : range) b q P : holds gs g lab = Ok b -> (b = true -> v g lab = each_event g q /\ listed g q /\ exact q P) ->
  exists js, leads g (UEdge gs v []) lab js /\ stands_for g u js (fun e => b = true /\ P e).
Proof.
  intros Hb Hq. destruct b.
  - destruct Hq as (E & Hl & x & -> & Hx & Hf & HP); [done|]. destruct (listed_range g u (ob_wf Ho) x P Hx Hl Hf HP) as (js & Ej & H1 & H2).
    exists js. split; [split; [done|]; exists true; split; [done|]; cbn [via]; by rewrite E|]. split; [done|]. rewrite H2. unfold misses. naive_solver.
  - exists []. split; [split; [done|]; by exists false|]. apply stands_for_none. by intros e [? _].
Qed.
Lemma test_ok f : test f g lab = Ok (f l).
Proof. unfold test. by rewrite (ob_label Ho). Qed.
Lemma pomax_via getter : Class.isMem (kind l) = true -> pomax getter s g lab = each_event g (getter s (EventLabel.access l)).
Proof. intros Hm. unfold pomax. rewrite (ob_label Ho). cbn [mbind res_bind]. by rewrite Hm. Qed.
Lemma pomax_lead gs b getter P : holds gs g lab = Ok b -> (b = true -> Class.isMem (kind l) = true) ->
  (getter, P) ∈ [(getMaxNAReadView, meeting (hist na_read tr) (EventLabel.access l)); (getMaxNAWriteEvent, last_writer tr (EventLabel.access l));
    (getMaxAReadView, meeting (hist at_read tr) (EventLabel.access l)); (getMaxAWriteView, meeting (hist at_write tr) (EventLabel.access l))] ->
  exists js, leads g (UEdge gs (pomax getter s) []) lab js /\ stands_for g u js (fun e => b = true /\ P e).
Proof.
  intros Hb Hm Hin. apply (range_lead gs (pomax getter s) b (getter s (EventLabel.access l))); [done|]. intros Hbt. specialize (Hm Hbt).
  split; [by apply pomax_via|]. pose proof (ob_listed Ho Hm) as Hl. pose proof (ob_access Ho Hm) as Ha. pose proof (run_inv s tr (ob_run Ho)) as Hi.
  rewrite !Forall_cons in Hl. destruct Hl as (L1 & L2 & L3 & L4 & _). pose proof (ob_wf Ho) as Hu. pose proof (ob_closed Ho) as Hc.
  rewrite !elem_of_cons in Hin. destruct Hin as [[= -> ->]|[[= -> ->]|[[= -> ->]|[[= -> ->]|?%not_elem_of_nil]]]]; [..|done]; split; try done.
  - apply exact_views; [apply (i_nreads _ _ Hi)|by intros []|done..].
  - by apply exact_writers.
  - apply exact_views; [apply (i_areads _ _ Hi)|by intros []|done..].
  - apply exact_views; [apply (i_awrites _ _ Hi)|by intros []|done..].
Qed.
(** *** Allocations *)
Lemma alloc_facts : Class.isMem (kind l) = true -> SAddr.isStatic (getAddr l) = false ->
  getAllocPos s (getAddr l) = Ok (pos allocation) /\ getFreePos s (getAddr l) = Ok (freePos allocation) /\
  ExecutionState.isRetired s (getAddr l) = Ok (bool_decide (is_Some (freePos allocation)) && isRetire allocation).
Proof.
  intros Hm Hs. destruct (ob_allocated Ho Hm Hs) as (Hne & _). pose proof (alloc_queries_ok s tr (getAddr l) (i_allocs _ _ (run_inv s tr (ob_run Ho)))) as Hq.
  cbv zeta in Hq. destruct Hq as (_ & _ & Hr & Hp & _). destruct (Hp Hne) as (? & _ & ?). done.
Qed.
Lemma label_valid i e : getEventLabel g e = Ok i -> AdaptiveView.valid e.
Proof. unfold getEventLabel. intros (th & H1 & H2)%bind_ok. apply vec_at_inv in H1 as [? _], H2 as [? _]. by split. Qed.
Lemma alloc_lead : exists js, leads g (UEdge [] (single (alloc s)) []) lab js /\
  stands_for g u js (fun e => (Class.isMem (kind l) = true /\ SAddr.isStatic (getAddr l) = false) /\ e = pos allocation).
Proof.
  destruct (Class.isMem (kind l) && negb (SAddr.isStatic (getAddr l))) eqn:E.
  - apply andb_prop in E as [Hm Hs%negb_true_iff]. destruct (alloc_facts Hm Hs) as (Ep & _). destruct (ob_allocated Ho Hm Hs) as (_ & (i & li & Ei & Hl & Hp) & _).
    exists [i]. split.
    + apply (lead_if [] (single (alloc s)) true [i]); [done|]. intros _. unfold single, alloc. rewrite (ob_label Ho). cbn [mbind res_bind].
      rewrite Hm, Hs. cbn [negb orb]. rewrite Ep. cbn [mbind res_bind]. by rewrite Ei.
    + split.
      * intros j ->%list_elem_of_singleton. exists li. split; [done|]. rewrite Hp. by eapply label_valid.
      * split; [intros (j & ->%list_elem_of_singleton & lj & Hlj & Hns); exists (pos allocation); split; [done|]; replace lj with li in Hns by congruence; by rewrite <- Hp|].
        intros (e & [_ ->] & Hns). exists i. split; [by left|]. exists li. split; [done|]. by rewrite Hp.
  - exists []. split.
    + apply (lead_if [] (single (alloc s)) true []); [done|]. intros _. unfold single, alloc. rewrite (ob_label Ho). cbn [mbind res_bind].
      destruct (Class.isMem (kind l)); [|done]. cbn [andb] in E. apply negb_false_iff in E. by rewrite E.
    + apply stands_for_none. intros e [[Hm Hs] _]. by rewrite Hm, Hs in E.
Qed.
Definition has_free (js : list lid) (b : bool) (P : Prop) : Prop := js <> [] <-> b = true /\ SAddr.isStatic (getAddr l) = false /\ P.
Lemma optional_lead gs (f : Graph.t -> lid -> res (option lid)) b P : holds gs g lab = Ok b ->
  (b = true -> exists o, f g lab = Ok o /\ (is_Some o <-> SAddr.isStatic (getAddr l) = false /\ P)) ->
  exists js, leads g (UEdge gs (single f) []) lab js /\ has_free js b P.
Proof.
  intros Hb Hf. unfold has_free. destruct b; [|exists []; split; [by apply (lead_if gs (single f) false [])|]; split; [done|by intros [? _]]].
  destruct Hf as (o & E & Hiff); [done|]. exists (option_list o). split.
  - apply (lead_if gs (single f) true); [done|]. intros _. unfold single. by rewrite E.
  - destruct o; cbn; split; try done; [intros _; split; [done|]; by apply Hiff|intros [_ Hx]; by destruct (proj2 Hiff Hx)].
Qed.
(** Both look at the free of the allocation around the address. *)
Ltac freed_cases Hm :=
  rewrite (ob_label Ho); cbn [mbind res_bind]; rewrite Hm; cbn [negb orb];
  destruct (SAddr.isStatic (getAddr l)) eqn:Hs; [exists None; split; [done|]; split; [by intros []|by intros []]|];
  destruct (alloc_facts Hm Hs) as (_ & -> & ->); cbn [mbind res_bind]; destruct (ob_allocated Ho Hm Hs) as (_ & _ & Hp);
  destruct (freePos allocation) as [p|]; [|exists None; split; [done|]; split; [by intros []|by intros (_ & [] & _)]];
  rewrite bool_decide_eq_true_2 by done; cbn [andb]; destruct (Hp p eq_refl) as (i & li & -> & _);
  destruct (isRetire allocation); cbn [negb]; [exists None + (exists (Some i); by repeat split)..]; split; [done|split; [by intros []|by intros (_ & _ & ?)]].
Lemma freed_query : Class.isMem (kind l) = true -> exists o, free s g lab = Ok o /\ (is_Some o <-> SAddr.isStatic (getAddr l) = false /\ freed).
Proof. intros Hm. unfold free, freed. freed_cases Hm. Qed.
Lemma retired_query : Class.isMem (kind l) = true -> exists o, retire s g lab = Ok o /\ (is_Some o <-> SAddr.isStatic (getAddr l) = false /\ retired).
Proof. intros Hm. unfold retire, retired. freed_cases Hm. Qed.
(** *** Checks *)
Lemma check_contained es js P : Forall2 (fun e js => leads g e lab js) es js -> stands_for g u (concat js) P ->
  forall cex, answers (check (unless_contained g st 1 (visit_contained g st) es lab) false cex) cex (misses u P) (fun c => exists i, c = Some i /\ missing g u i).
Proof.
  intros Hl [Hs Hm] cex. destruct (ob_view Ho) as (v & Ev & Hv). unfold check, unless_contained. rewrite Ev. cbn [mbind res_bind].
  assert (Hf : finds mark_found (visit_edges (visit_contained g st v) es g lab cex) cex (fun i => i ∈ concat js /\ missing g u i)).
  { apply finds_edges; [done|]. intros i Hi. destruct (Hs i Hi) as (li & Hli & Hval). unfold visit_contained. rewrite Hli. cbn [mbind res_bind].
    rewrite Hv by apply Hval. cbn [mbind res_bind]. destruct (Z.leb_spec (Event.index (position li)) (v_clock u (Event.thread (position li)))).
    - left. split; [done|]. intros j [-> (l' & Hl' & Hns)]. replace l' with li in Hns by congruence. by apply Hns.
    - right. exists i. split; [|done]. split; [done|]. exists li. split; [done|]. unfold seen. lia. }
  destruct Hf as [[-> Hn]|(i & [Hi Hmi] & ->)]; cbn [mbind res_bind].
  - left. split; [done|]. intros (i & Hi)%Hm. by apply (Hn i).
  - right. split; [apply Hm; by exists i|]. exists (Some i). split; [done|]. by exists i.
Qed.
Lemma check_none es js (P : Prop) : Forall2 (fun e js => leads g e lab js) es js -> (concat js <> [] <-> P) ->
  forall cex, answers (check (unless_none g visit_none es lab) false cex) cex P (fun _ => True).
Proof.
  intros Hl HP cex. unfold check. assert (Hf : finds mark_none (unless_none g visit_none es lab cex) cex (fun i => i ∈ concat js /\ True)).
  { apply finds_unless_none, finds_edges; [done|]. intros. apply finds_none. }
  destruct Hf as [[-> Hn]|(i & [Hi _] & ->)]; cbn [mbind res_bind].
  - left. split; [done|]. rewrite <- HP. intros Hne. destruct (concat js) as [|i x]; [done|]. apply (Hn i). split; [by left|done].
  - right. split; [apply HP; intros E; rewrite E in Hi; by apply not_elem_of_nil in Hi|]. by exists cex.
Qed.
Lemma misses_iff P P' : (forall e, P e <-> P' e) -> misses u P <-> misses u P'.
Proof. intros E. unfold misses. by setoid_rewrite E. Qed.

(** *** The seven checks *)
Ltac leads_all := repeat (apply Forall2_cons_2; [eassumption|]); apply Forall2_nil_2.
Definition reported (c : VerificationError.t) (r : option lid) : Prop :=
  match c with VE_AccessNonMalloc | VE_RaceNotAtomic => exists i, r = Some i /\ missing g u i | _ => True end.
Lemma class_mem k : Class.isFree k || Class.isMemAccess k || Class.isWrite k || Class.isRead k = true -> Class.isMem k = true.
Proof. by destruct k. Qed.
Lemma answers_imp r cex (Q Q' : Prop) (W W' : option lid -> Prop) : (Q <-> Q') -> (forall c, W c -> W' c) -> answers r cex Q W -> answers r cex Q' W'.
Proof. intros E HW [[-> Hn]|(HQ & c & Hr & Hc)]; [left; by rewrite <- E|right; split; [by apply E|]; exists c; auto]. Qed.
Definition is_free_not_retire : bool := Class.isFree (kind l) && negb (Class.isKind Kind.HpRetire (kind l)).
Lemma free_guards : holds [isFree; neg isHpRetire] g lab = Ok is_free_not_retire.
Proof.
  cbn [holds]. unfold isFree, isHpRetire, neg, isa. rewrite !test_ok. cbn [mbind res_bind]. unfold is_free_not_retire. by destruct (Class.isFree (kind l)), (Class.isKind _ _).
Qed.
Lemma one_guard f : holds [test f] g lab = Ok (f l).
Proof. cbn [holds]. rewrite test_ok. cbn [mbind res_bind]. by destruct (f l). Qed.
Lemma two_guards f f' : holds [test f; test f'] g lab = Ok (f l && f' l).
Proof. cbn [holds]. rewrite !test_ok. cbn [mbind res_bind]. by destruct (f l), (f' l). Qed.
Lemma check2_ok cex : answers (SCChecker.checkError2 s g st lab cex) cex
  (Class.isMem (kind l) = true /\ SAddr.isStatic (getAddr l) = false /\ ~ seen u (pos allocation)) (reported VE_AccessNonMalloc).
Proof.
  destruct alloc_lead as (js & Hl & Hs). eapply answers_imp; [| |apply (check_contained _ [js])]; [|done|leads_all|cbn; rewrite app_nil_r; exact Hs].
  unfold misses. split; [by intros (e & [[? ?] ->] & ?)|]. intros (? & ? & ?). by exists (pos allocation).
Qed.
Lemma check3_ok cex : answers (SCChecker.checkError3 s g lab cex) cex
  (Class.isFree (kind l) = true /\ SAddr.isStatic (getAddr l) = false /\ freed) (reported VE_DoubleFree).
Proof.
  destruct (optional_lead _ (free s) is_free_not_retire freed free_guards) as (js & Hl & Hjs).
  { unfold is_free_not_retire. intros [Hf _]%andb_prop. apply freed_query, class_mem. by rewrite Hf. }
  destruct (optional_lead [isHpRetire] (free s) _ freed (one_guard _)) as (js' & Hl' & Hjs').
  { intros Hk. apply freed_query, class_mem. apply bool_decide_eq_true in Hk. by rewrite Hk. }
  eapply answers_imp; [| |apply (check_none _ [js; js'])]; [reflexivity|done|leads_all|]. cbn [concat]. rewrite app_nil_r.
  assert (Hor : js ++ js' <> [] <-> js <> [] \/ js' <> []) by (destruct js, js'; naive_solver).
  unfold has_free in *. rewrite Hor, Hjs, Hjs'. unfold is_free_not_retire, Class.isKind. destruct (decide (kind l = Kind.HpRetire)) as [E|E].
  - rewrite bool_decide_eq_true_2 by done. rewrite E. naive_solver.
  - rewrite bool_decide_eq_false_2 by done. rewrite andb_true_r. naive_solver.
Qed.
Lemma check5_ok cex : answers (SCChecker.checkError5 s g lab cex) cex
  (Class.isMemAccess (kind l) = true /\ SAddr.isStatic (getAddr l) = false /\ freed) (reported VE_AccessFreed).
Proof.
  destruct (optional_lead [isWrite] (free s) _ freed (one_guard _)) as (js & Hl & Hjs).
  { cbn beta. intros Hk. apply freed_query, class_mem. by rewrite Hk, orb_true_r. }
  destruct (optional_lead [isRead] (free s) _ freed (one_guard _)) as (js' & Hl' & Hjs').
  { cbn beta. intros Hk. apply freed_query, class_mem. by rewrite Hk, orb_true_r. }
  eapply answers_imp; [| |apply (check_none _ [js; js'])]; [reflexivity|done|leads_all|]. cbn [concat]. rewrite app_nil_r.
  assert (Hor : js ++ js' <> [] <-> js <> [] \/ js' <> []) by (destruct js, js'; naive_solver).
  unfold has_free in *. rewrite Hor, Hjs, Hjs'. assert (Ek : Class.isMemAccess (kind l) = Class.isWrite (kind l) || Class.isRead (kind l)) by (by destruct (kind l)).
  rewrite Ek, orb_true_iff. naive_solver.
Qed.
Ltac in_queries := first [by left|right; in_queries].
Lemma free_not_retire : is_free_not_retire = true -> Class.isMem (kind l) = true.
Proof. unfold is_free_not_retire. intros [Hf _]%andb_prop. apply class_mem. by rewrite Hf. Qed.
Lemma check4_ok cex : answers (SCChecker.checkError4 s g st lab cex) cex
  (Class.isFree (kind l) = true /\ kind l <> Kind.HpRetire /\ misses u accessed) (reported VE_AccessFreed).
Proof.
  pose proof (pomax_lead _ _ getMaxNAReadView _ free_guards free_not_retire ltac:(in_queries)) as (j1 & L1 & S1).
  pose proof (pomax_lead _ _ getMaxNAWriteEvent _ free_guards free_not_retire ltac:(in_queries)) as (j2 & L2 & S2).
  pose proof (pomax_lead _ _ getMaxAReadView _ free_guards free_not_retire ltac:(in_queries)) as (j3 & L3 & S3).
  pose proof (pomax_lead _ _ getMaxAWriteView _ free_guards free_not_retire ltac:(in_queries)) as (j4 & L4 & S4).
  pose proof (stands_for_app g u _ _ _ _ S1 (stands_for_app g u _ _ _ _ S2 (stands_for_app g u _ _ _ _ S3 S4))) as Hs.
  eapply answers_imp; [| |apply (check_contained _ [j1; j2; j3; j4])]; [|done|leads_all|cbn; rewrite app_nil_r; exact Hs].
  assert (E : is_free_not_retire = true <-> Class.isFree (kind l) = true /\ kind l <> Kind.HpRetire).
  { unfold is_free_not_retire, Class.isKind. by rewrite andb_true_iff, negb_true_iff, bool_decide_eq_false. }
  unfold accessed, misses. setoid_rewrite E. naive_solver.
Qed.
Lemma check6_ok cex : answers (SCChecker.checkError6 s g st lab cex) cex
  (kind l = Kind.HpRetire /\ misses u (meeting (StateSpec.unprotected tr) (ExecutionState.access allocation))) (reported VE_AccessFreed).
Proof.
  destruct (range_lead [isHpRetire] (unprotected s) _ (getMaxUnprotectedView s (getAddr l))
    (meeting (StateSpec.unprotected tr) (ExecutionState.access allocation)) (one_guard _)) as (js & Hl & Hs).
  { cbn beta. intros Hk%bool_decide_eq_true. destruct (ob_base Ho Hk) as [Hb Hlst]. split; [|split; [done|]].
    - unfold unprotected. rewrite (ob_label Ho). cbn [mbind res_bind]. by rewrite Hk.
    - pose proof (run_inv s tr (ob_run Ho)) as Hi. apply exact_unprotected; [done| |done|apply (ob_wf Ho)|apply (ob_closed Ho)].
      by apply (al_some _ _ _ (i_allocs _ _ Hi)), Hb. }
  eapply answers_imp; [| |apply (check_contained _ [js])]; [|done|leads_all|cbn; rewrite app_nil_r; exact Hs].
  unfold Class.isKind, misses. setoid_rewrite bool_decide_eq_true. naive_solver.
Qed.
Lemma check7_ok cex : answers (SCChecker.checkError7 s g lab cex) cex
  (Class.isMemAccess (kind l) = true /\ SAddr.isDynamic (getAddr l) = true /\ isHazptrProtected s g lab = Ok false /\ retired) (reported VE_AccessFreed).
Proof.
  assert (Hg : exists b, holds [isMemAccess; isDynamicAddr; neg (isHazptrProtected s)] g lab = Ok b /\
    (b = true <-> Class.isMemAccess (kind l) = true /\ SAddr.isDynamic (getAddr l) = true /\ isHazptrProtected s g lab = Ok false)).
  { cbn [holds]. unfold isMemAccess, isDynamicAddr, isa, neg. rewrite !test_ok. cbn [mbind res_bind].
    destruct (Class.isMemAccess (kind l)) eqn:Em; [|exists false; split; [done|]; split; [done|by intros []]].
    destruct (SAddr.isDynamic (getAddr l)) eqn:Ed; [|exists false; split; [done|]; split; [done|by intros (_ & ? & _)]].
    destruct (ob_hazptr Ho Em Ed) as [[] ->]; cbn [mbind res_bind negb]; eexists; split; try done; split; try done; by intros (_ & _ & [=]). }
  destruct Hg as (b & Hb & Hiff). destruct (optional_lead _ (retire s) b retired Hb) as (js & Hl & Hjs).
  { intros Hbt. apply retired_query, class_mem. destruct (proj1 Hiff Hbt) as [-> _]. by rewrite orb_true_r. }
  eapply answers_imp; [| |apply (check_none _ [js])]; [reflexivity|done|leads_all|]. cbn [concat]. rewrite app_nil_r.
  unfold has_free in Hjs. rewrite Hjs, Hiff. unfold SAddr.isDynamic in *. rewrite negb_true_iff. naive_solver.
Qed.
Lemma write_mem : Class.isWrite (kind l) = true -> Class.isMem (kind l) = true.
Proof. intros E. apply class_mem. by rewrite E, orb_true_r. Qed.
Lemma read_mem : Class.isRead (kind l) = true -> Class.isMem (kind l) = true.
Proof. intros E. apply class_mem. by rewrite E, orb_true_r. Qed.
Lemma na_mem f : (f = true -> Class.isMem (kind l) = true) -> EventLabel.isNotAtomic l && f = true -> Class.isMem (kind l) = true.
Proof. intros Hf [_ E]%andb_prop. by apply Hf. Qed.
Lemma check8_ok cex : answers (SCChecker.checkError8 s g st lab cex) cex (misses u conflicting) (reported VE_RaceNotAtomic).
Proof.
  pose proof (pomax_lead _ _ getMaxNAReadView _ (one_guard (fun l => Class.isWrite (kind l))) write_mem ltac:(in_queries)) as (j1 & L1 & S1).
  pose proof (pomax_lead _ _ getMaxNAWriteEvent _ (one_guard (fun l => Class.isWrite (kind l))) write_mem ltac:(in_queries)) as (j2 & L2 & S2).
  pose proof (pomax_lead _ _ getMaxNAWriteEvent _ (one_guard (fun l => Class.isRead (kind l))) read_mem ltac:(in_queries)) as (j3 & L3 & S3).
  pose proof (pomax_lead _ _ getMaxAReadView _ (two_guards EventLabel.isNotAtomic (fun l => Class.isWrite (kind l))) (na_mem _ write_mem) ltac:(in_queries)) as (j4 & L4 & S4).
  pose proof (pomax_lead _ _ getMaxAWriteView _ (two_guards EventLabel.isNotAtomic (fun l => Class.isWrite (kind l))) (na_mem _ write_mem) ltac:(in_queries)) as (j5 & L5 & S5).
  pose proof (pomax_lead _ _ getMaxAWriteView _ (two_guards EventLabel.isNotAtomic (fun l => Class.isRead (kind l))) (na_mem _ read_mem) ltac:(in_queries)) as (j6 & L6 & S6).
  pose proof (stands_for_app g u _ _ _ _ S1 (stands_for_app g u _ _ _ _ S2 (stands_for_app g u _ _ _ _ S3
    (stands_for_app g u _ _ _ _ S4 (stands_for_app g u _ _ _ _ S5 S6))))) as Hs.
  eapply answers_imp; [| |apply (check_contained _ [j1; j2; j3; j4; j5; j6])]; [|done|leads_all|cbn; rewrite app_nil_r; exact Hs].
  apply misses_iff. intros e. unfold conflicting, is_write, is_read, not_atomic. rewrite !andb_true_iff. clear. tauto.
Qed.
End verdict.

(** ** The verdict of the checkers *)
Import ConsistencyChecker.
(** C7: on a label that is checked after the operations of a run, with a happens-before
    view that is closed under them, the error check of the SC, TSO, RA and RC11 checkers
    returns; it reports no error exactly when there is no violation, and otherwise the
    first one in the order of the checks: an access to memory whose allocation is not
    seen, a double free, a free or an access of freed or retired memory, a conflicting
    overlapping access that happens neither before nor after.  The label that is reported
    with a missing allocation and with a data race is one that the view does not contain. *)
Theorem checkErrors_correct {V} `{ViewLaws V} (m : ModelType) (g : Graph.t) (st : Calc.t) (s : ExecutionState.t V) tr lab l u race cex :
  m <> IMM -> observed g st s tr lab l u ->
  exists o race' cex', checkErrors (Checker := create m) V s g st lab race cex = Ok (o, race', cex') /\
    first_of (violations g s tr lab l u) o /\ match o with Some c => reported g u c race' | None => race' = race end.
Proof.
  intros Hm Ho. assert (Hsc : exists o race' cex', SCChecker.checkErrors s g st lab race cex = Ok (o, race', cex') /\
    first_of (violations g s tr lab l u) o /\ match o with Some c => reported g u c race' | None => race' = race end).
  { apply (report_ok _ (violations g s tr lab l u) race cex (reported g u)). repeat apply Forall2_cons_2; [..|apply Forall2_nil_2]; (split; [done|]); intros cex'.
    - by eapply check2_ok.
    - by eapply check3_ok.
    - by eapply check4_ok.
    - by eapply check5_ok.
    - by eapply check6_ok.
    - by eapply check7_ok.
    - by eapply check8_ok. }
  by destruct m.
Qed.

(** ** A race, and a double free

    The first thread allocates, publishes a flag in the memory and writes the data; the
    second one sees the flag and reads the data, which was written after the flag. *)
Import Script.
Definition data : SAddr.t := 8.
Definition flag : SAddr.t := data + 4.
Definition racy_graph : Graph.t := script (spawn ++ [
  Add 4 (mkMalloc (Event.Event 0 2) data 8 8 SD_Heap ST_Volatile AS_User "data" noDeps);
  Add 5 (write 0 3 MemOrdering.Release flag 1); Co 5 1; Add 6 (write 0 4 MemOrdering.NotAtomic data 1); Co 6 1;
  Add 7 (read 1 1 MemOrdering.Acquire flag); Rf 7 5; Add 8 (read 1 2 MemOrdering.NotAtomic data); Rf 8 6]).
Definition racy_views : Calc.t :=
  match foldM (fun st i => calculateViews RC11 false (Calc.Config false false) racy_graph i st) mp_views [2; 3; 4; 5; 6; 7; 8]%nat with
  | Ok st => st | Abort _ => mp_views
  end.
Definition racy_ops : list (op (V := list Z) * bool) := [
  (Alloc (Event.Event 0 2) (AAccess.AAccess data 8) 8 SD_Heap ST_Volatile AS_User, false);
  (ATStore (Event.Event 0 3) (AAccess.AAccess flag 4) [3] true true, false);
  (NAStore (Event.Event 0 4) (AAccess.AAccess data 4) [4] (Some (SVal.ofValue 1)), false);
  (ATLoad (Event.Event 1 1) (AAccess.AAccess flag 4) [3; 1], false)].
Definition racy_trace : trace (V := list Z) := rev racy_ops.
Definition racy_state : ExecutionState.t (list Z) := match replay racy_ops.*1 with Ok s => s | Abort _ => new end.
Definition racy_label : EventLabel.t := match label racy_graph 8%nat with Ok l => l | Abort _ => EventLabel.mkInit end.

(** The read of the data races with the write of the data. *)
Example race_found : checkErrors (Checker := create RC11) (list Z) racy_state racy_graph racy_views 8%nat None None = Ok (Some VE_RaceNotAtomic, Some 6%nat, Some 6%nat).
Proof. vm_compute. reflexivity. Qed.

Lemma racy_run : run racy_state racy_trace.
Proof.
  pose proof (run_new (V := list Z)) as R.
  do 4 (lazymatch type of R with run _ ?tr =>
    let n := eval compute in (length tr) in
    let x := eval cbv [racy_ops nth] in (nth n racy_ops (LoopBegin Event.default, false)) in
    lazymatch x with (?o, ?b) => eapply (run_next o b) in R; [|vm_compute; reflexivity|concrete_legal] end end).
  exact R.
Qed.
Lemma racy_closed : closed (hist access_of racy_trace) [3; 2].
Proof.
  intros a e v Hin He. cbn in Hin. rewrite !elem_of_cons in Hin. destruct Hin as [[= -> -> ->]|[[= -> -> ->]|[[= -> -> ->]|?%not_elem_of_nil]]]; [..|done].
  - assert (Hu : ViewBase.wf [3; 2]) by (split; [repeat constructor; by vm_compute|done]).
    assert (Hv : ViewBase.wf [3; 1]) by (split; [repeat constructor; by vm_compute|done]).
    exact (proj1 (ViewBase.contains_view_spec [3; 2] [3; 1] Hu Hv) eq_refl).
  - vm_compute in He. by destruct He.
  - assert (Hu : ViewBase.wf [3; 2]) by (split; [repeat constructor; by vm_compute|done]).
    assert (Hv : ViewBase.wf [3]) by (split; [repeat constructor; by vm_compute|done]).
    exact (proj1 (ViewBase.contains_view_spec [3; 2] [3] Hu Hv) eq_refl).
Qed.
Lemma contains_view_of h v b d x e : View.view_of h v = Ok {| View.base_ := Some b; View.diff_ := d |} -> View.base_of h b = Ok x ->
  Event.isInitializer d = false -> 0 <= Event.thread e ->
  View.contains h v e = Ok (Event.index e <=? (if Event.thread d =? Event.thread e then Z.max (ViewBase.clock x (Event.thread e)) (Event.index d) else ViewBase.clock x (Event.thread e))).
Proof.
  intros Ev Eb Ed He. unfold View.contains, View.getMax. rewrite Ev. cbn [mbind res_bind View.base_ View.diff_]. rewrite Eb. cbn [mbind res_bind].
  rewrite ViewBase.vb_getMax_ok by done. cbn [mbind res_bind]. by rewrite Ed.
Qed.
Lemma racy_view : exists v, Calc.view racy_graph (Calc.calculatedViews racy_views) 8%nat 1 = Ok v /\
  forall e, 0 <= Event.thread e -> View.contains (Calc.heap racy_views) v e = Ok (Event.index e <=? v_clock [3; 2] (Event.thread e)).
Proof.
  eexists. split; [vm_compute; reflexivity|]. intros e He.
  erewrite contains_view_of; [|vm_compute; reflexivity|vm_compute; reflexivity|reflexivity|done]. f_equal. f_equal. cbn [Event.thread Event.index].
  change (v_clock [3; 2]) with (ViewBase.clock [3; 2]). unfold ViewBase.clock.
  destruct (decide (Event.thread e = 0)) as [->|H0]; [done|]. destruct (decide (Event.thread e = 1)) as [->|H1]; [done|].
  rewrite (proj2 (Z.eqb_neq _ _)) by done. by rewrite !lookup_ge_None_2 by (cbn; lia).
Qed.
Ltac concrete_label := eexists _, _; split_and!; [vm_compute; reflexivity|vm_compute; reflexivity|vm_compute; reflexivity].
Ltac concrete_listed := let x := fresh "x" in let es := fresh "es" in let e := fresh "e" in
  let Hx := fresh "Hx" in let Hes := fresh "Hes" in let Hin := fresh "Hin" in
  intros x es e Hx Hes Hin; vm_compute in Hx; injection Hx as <-; vm_compute in Hes; injection Hes as <-;
  repeat (apply elem_of_cons in Hin as [->|Hin]; [concrete_label|]); by apply not_elem_of_nil in Hin.
Lemma racy_observed : observed racy_graph racy_views racy_state racy_trace 8%nat racy_label [3; 2].
Proof.
  split.
  - exact racy_run.
  - vm_compute. reflexivity.
  - split; [repeat constructor; by vm_compute|done].
  - exact racy_closed.
  - exact racy_view.
  - intros _. split_and!; by vm_compute.
  - intros _ _. split; [intros E; vm_compute in E; discriminate|]. split; [concrete_label|]. intros p Hp. vm_compute in Hp. discriminate.
  - intros E. vm_compute in E. discriminate.
  - intros _. repeat constructor; concrete_listed.
  - intros _ _. eexists. vm_compute. reflexivity.
Qed.
Lemma checkErrors_correct_witness : RC11 <> IMM /\ exists o race' cex',
  checkErrors (Checker := create RC11) (list Z) racy_state racy_graph racy_views 8%nat None None = Ok (o, race', cex') /\
  first_of (violations racy_graph racy_state racy_trace 8%nat racy_label [3; 2]) o /\
  match o with Some c => reported racy_graph [3; 2] c race' | None => race' = None end.
Proof. split; [done|]. apply checkErrors_correct; [done|exact racy_observed]. Defined.

(** The last states of the checks for freed memory find a label without leaving it in
    [cexLab]: a double free is reported as a conflict with the label that an earlier
    check left there, here the write of the data, or with no label at all. *)
Definition freed_graph : Graph.t := script (spawn ++ [
  Add 4 (mkMalloc (Event.Event 0 2) data 8 8 SD_Heap ST_Volatile AS_User "data" noDeps);
  Add 5 (write 0 3 MemOrdering.Release flag 1); Co 5 1; Add 6 (write 0 4 MemOrdering.NotAtomic data 1); Co 6 1;
  Add 9 (mkMemLifecycle Kind.Free (Event.Event 0 5) data 8 noDeps); Add 10 (mkMemLifecycle Kind.Free (Event.Event 0 6) data 8 noDeps)]).
Definition freed_state : ExecutionState.t (list Z) :=
  match replay (take 3 racy_ops.*1 ++ [Free (Event.Event 0 5) data false]) with Ok s => s | Abort _ => new end.
Definition freed_views : Calc.t :=
  match foldM (fun st i => calculateViews RC11 false (Calc.Config false false) freed_graph i st) mp_views [2; 3; 4; 5; 6; 9; 10]%nat with
  | Ok st => st | Abort _ => mp_views
  end.
Example stale_conflict : checkErrors (Checker := create RC11) (list Z) freed_state freed_graph freed_views 10%nat None (Some 6%nat) = Ok (Some VE_DoubleFree, Some 6%nat, Some 6%nat) /\
  checkErrors (Checker := create RC11) (list Z) freed_state freed_graph freed_views 10%nat None None = Ok (Some VE_DoubleFree, None, None).
Proof. vm_compute. done. Qed.
End ErrorSpec.
